(* ===== verification/_CoqProject ===== *)
-Q . S2P
Prelude.v
Refs.v
Bitops.v
FindBit.v
Bitmap.v
BitmapShift.v
BitmapRegion.v
BitmapMap.v
BitmapLaws.v
BitmapInline.v
Skbuff.v
Bpf.v
BpfSafe.v
BpfPacket.v
SockFilter.v
SockFilterSafe.v
Seccomp.v
SeccompSafe.v
SeccompRefs.v
SeccompPolicy.v
Sort.v
PrioHeap.v
ListSort.v
Ctype.v
Kstrtox.v
NumPrint.v
StringLib.v
StringSpec.v
Crc.v
Arith.v
Kfifo.v
KfifoSpec.v
KfifoLockless.v
KfifoRecords.v
Calendar.v
Cmdline.v
Rbtree.v
RbtreeRep.v
RbtreeInsert.v
RbtreeErase.v
RbtreeWalk.v
RbtreeRemove.v
RbtreeAugment.v
RbtreeClient.v
Timerqueue.v
Llist.v
LlistSafe.v
Memblock.v
MemblockRep.v
MemblockAdd.v
MemblockRemove.v
MemblockFind.v
MemblockGrow.v
MemblockState.v
Vsprintf.v
VsprintfText.v
VsprintfNumber.v
VsprintfBinary.v
Inet.v
InetText.v
VsprintfPointer.v
InetSafe.v
InetRoundtrip.v
VsprintfScan.v
VsprintfScanSafe.v
VsprintfScanRoundtrip.v
BitmapText.v
BitmapTextList.v
BitmapTextPrint.v
BitmapTextHex.v
BitmapTextSpec.v
Idr.v
IdrRep.v
IdrAlloc.v
IdrGrow.v
IdrNew.v
IdrRemove.v
IdrWalk.v
IdrClear.v
IdrSpec.v
