(* ===== verification/Prelude.v ===== *)
(** * Linux 3.5: the socket filter machine, seccomp and the library routines under them

    This library models a connected part of the kernel sources and proves it correct: the packet filter
    language with its checker and interpreter (net/core/filter.c), its two users, the filters of sockets and
    the seccomp filters of tasks (kernel/seccomp.c), and the general routines of lib/ that these and the rest of the
    kernel build on: bitmaps, sorting, searching, heaps, red-black trees and timer queues, lock-less fifos and lists, strings, numbers, dates,
    command line options, checksums, division, ids for pointers; the formatted output of lib/vsprintf.c with the parsers of addresses (net/core/utils.c); and
    the allocator of early memory (mm/memblock.c).

    ** How code is modelled

    A [w]-bit unsigned value is a [Z] between 0 and [2^w - 1], a signed one a [Z] between [-2^(w-1)] and [2^(w-1) - 1];
    truncation is written out ([wrap], [swrap], [bnot], [bshl] below).  The machine is a 64-bit
    little-endian one unless a file says otherwise (Arith models the code for 32-bit machines).
    An object in memory is a list; [rd] and [wr] access it and give [None], a fault, outside its bounds.
    Every function that accesses memory or loops returns an [option], so that a theorem that says [= Some ...] or [∃ r, ... = Some r]
    shows at the same time that the function terminates and makes no access outside its objects.
    Errors of the code are ordinary results ([- EINVAL] and the like).  Loops are [for_up], [for_each]
    (counted) and [loop] (with fuel); the fuel of each loop is a bound the code itself implies, for
    instance the length of the filter for the interpreter, since jumps only go forward, the number of filter objects for a walk along a
    chain, the number of nodes for a walk through a tree, the length of a format for its interpreter, or 33 rounds for a root of 32 bits; the theorems show that it is enough.
    Where a run can also end with a fault of its body, [runs] says so without fuel.  The nesting of formats in formats (%pV) takes a depth, which stands for the stack.
    Code outside the modelled part is a parameter: the comparison functions of the sorting routines,
    [kmalloc] (the address it returns), [copy_from_user], [pskb_trim], the architecture's shifts by 32 and more ([bpf_env]),
    the registers of a system call.

    ** The files

    - Prelude: words, memory accesses, loops, the tactics [zdm], [ztest], [zbool], [case_if], and shared lemmas.
    - Refs: counting the references to an object in a finite map; used by both reference counting proofs.
    - Bitops, FindBit: include/asm-generic/bitops, lib/hweight.c, lib/find_next_bit.c, lib/find_last_bit.c.
    - Bitmap, BitmapShift, BitmapRegion, BitmapMap, BitmapLaws: lib/bitmap.c.  BitmapLaws relates bitmaps to finite
      sets of numbers ([bits_of]) and states the refinement through the classes [SetOp] and [SetQuery].  BitmapInline: the inline functions
      of include/linux/bitmap.h with their fast paths.
    - BitmapText, BitmapTextList, BitmapTextPrint, BitmapTextHex, BitmapTextSpec: printing and parsing of bitmaps, as lists of ranges and as
      hexadecimal groups; the printers use the model of vsnprintf.  [holds] says what a buffer contains, [src_at] what a text source does.
    - Skbuff: the packet accessors of include/linux/skbuff.h and net/core/skbuff.c, and lib/nlattr.c.
    - Bpf, BpfSafe, BpfPacket: net/core/filter.c, the checker and the interpreter; what the checker
      guarantees, with the paths through a program and the scratch cells written on them ([reaches]); that accepted programs run safely and read the packet correctly.
    - SockFilter, SockFilterSafe: attaching, detaching, cloning and running the filters of sockets.  The operations are split where
      other processors can interfere; [net_step] is the relation of all steps, with RCU readers and callbacks,
      and the invariant [net_ok] is proved by induction on it.  Reference counts are 32-bit counters; cloning a socket requires that fewer than 2^31 pointers
      lead to its filter.
    - Seccomp, SeccompSafe, SeccompRefs, SeccompPolicy: kernel/seccomp.c; filters form a tree shared by
      tasks, [seccomp_step] is the relation of the steps of prctl, fork, exit and changes of privileges, [refs_inv] its invariant; the
      policy theorems are about all reachable states.
    - Sort, PrioHeap, ListSort: lib/sort.c, lib/bsearch.c, lib/prio_heap.c, lib/list_sort.c.
    - Ctype, Kstrtox, NumPrint: lib/ctype.c, lib/kstrtox.c, the decimal conversions of lib/vsprintf.c.
    - StringLib, StringSpec: lib/string.c and what its functions compute.
    - Crc: lib/crc16.c, crc-ccitt.c, crc-itu-t.c, crc-t10dif.c, crc7.c, crc8.c.
    - Arith: lib/div64.c, gcd.c, lcm.c, int_sqrt.c, bcd.c.
    - Kfifo, KfifoSpec, KfifoLockless, KfifoRecords: kernel/kfifo.c.  KfifoSpec relates a fifo to the queue of its contents; KfifoLockless is
      a step relation of one writer and one reader that interleave inside the operations; KfifoRecords has
      the record mode and the copies from and to user space.
    - Calendar: kernel/time/timeconv.c and the time arithmetic of kernel/time.c and include/linux/time.h.
    - Cmdline: lib/cmdline.c.
    - Rbtree: lib/rbtree.c and include/linux/rbtree.h on a store of nodes with parent and colour in one word.  RbtreeRep: the tree and
      the path to the root (a zipper) that a store represents; rotations and recolouring as steps between them.  RbtreeInsert,
      RbtreeErase, RbtreeWalk, RbtreeRemove, RbtreeAugment: the algorithms.  RbtreeClient: the class [OrderedTree] of what the users of a tree may rely
      on, with its instance.
    - Timerqueue: lib/timerqueue.c, proved against [OrderedTree].
    - Llist, LlistSafe: lib/llist.c.  [llist_step] is the relation of single accesses of all threads, labelled with the calls that
      complete; LlistSafe shows that the labels are a run of a stack and bounds the accesses without a completed call.
    - Memblock: mm/memblock.c, the arrays of memory and reserved regions before the page allocator exists.  MemblockRep: the sorted list an
      array holds and the map from addresses to nodes it stands for ([owner]), merging, and the class [Resizer] of what the operations
      need of [memblock_double_array], with an instance for arrays that cannot grow and one for the slab allocator.  MemblockAdd, MemblockRemove,
      MemblockFind: the operations; MemblockGrow: what [memblock_double_array] keeps when arrays grow into memory that memblock describes itself, by
      induction on the depth of its recursion; MemblockState: adding and allocating, for arrays with room and arrays that grow, the relation of their steps with its invariant, and the queries.

    - Vsprintf: lib/vsprintf.c, the format interpreter with its conversions and the extensions of %p, the functions that print to buffers and
      the binary forms.  [fmt_env] holds the memory that pointers point to; the interpreter is written against the classes [Sink] (a buffer, or all the text)
      and [Args] (the arguments of a call, or a binary buffer); [nest] ties the recursion of %pV.  VsprintfText: the text of a format does not depend on the
      buffer; what is written of it ([render]), nested formats included.  VsprintfNumber: integers, compared with C99 ([c99_text]); all
      conversions return; the contract of vsnprintf.  VsprintfBinary: vbin_printf and bstr_printf against vsnprintf.
      VsprintfPointer: the arrays on the stack.
    - VsprintfScan, VsprintfScanSafe, VsprintfScanRoundtrip: vsscanf, its accesses, and reading back with the format that printed.
    - Idr: lib/idr.c, ids for pointers, on a store of layers.  IdrRep: the tree that a store holds, without pointers ([shape]), and where the other layers are.  IdrAlloc,
      IdrGrow, IdrNew: the search for a free id, more layers on top, the bits and counters on the way up.  IdrRemove, IdrWalk, IdrClear: removal, walks in order,
      removal of everything.  IdrSpec: the states that callers reach ([reach]) and the finite map they stand for.
    - Inet: the address parsers of net/core/utils.c and the digits of lib/hexdump.c.  InetText: the texts of addresses in closed form.  InetSafe: the
      control states that in6_pton can reach, and its accesses.  InetRoundtrip: reading back what was printed.

    ** What the theorems show

    Filters: the checker is total and what it accepts runs to a result without a bad
    access on every packet, unless it has netlink loads that can leave the packet ([nlattr_safe]); absolute loads read the bytes of the packet.  Sockets: no reader runs a freed filter, counts and
    option memory are exact, attach and detach behave on every branch.  Seccomp: counts are exact, nothing dangles,
    all operations return, the strictest filter decides, a policy only ever gets stricter, modes are permanent.  Bitmaps: every operation
    is the set operation, with or without the fast paths, texts are read back as the set that was printed, the region allocator takes the lowest free region.  Sorting: sorted permutations (stable
    for lists), heap order, exact search.  Strings and numbers: exact conversions in all bases, of both signs and all widths, with their error
    cases, printing and parsing are inverse, bounded copies stay in bounds.  Checksums: the tables compute
    the division by the polynomials.  Division: exact, with the cases in which it is not.  Fifos: bounded queues, without locks for one
    reader and one writer.  Dates: exact for all 64-bit times.  Trees: insertion and removal keep the red-black condition and all pointers, walks go
    in order, and timer queues are lists sorted by time.  Lock-less lists: linearizable and lock-free.
    Formatted output: the text is a function of format and arguments, buffers are respected, integers follow C99 except in four cases and can be read back, stored
    arguments print the same, texts of pointers fit; vsscanf is safe and reads back what was printed.  Addresses: the parsers are safe on every text and invert the printers.
    Ids: an idr is a finite map, new ids are the lowest free ones (below 2^30), walks are in order, and memory runs out only with fewer than 8 preallocated layers.
    Early memory: the arrays stay sorted and minimal, adding, removing and recolouring change exactly the addresses of the range, and
    allocation finds a free block exactly if there is one; where an array has no entries left and grows into memory of memblock, this is shown of the calls that return
    (the depth of the recursion of [memblock_double_array] is a fuel), with arrays of at most 2^32 entries.

    Some theorems show where the code does not do what it means to: [nlattr_overread],
    [div64_exact] (its last part), [reciprocal_divide_error], [and_result_unused_bits], [kfifo_from_user_exact], [get_options_bounds], [merge_reads_behind_array],
    [idr_high_id], [idr_remove_alias], [idr_next_skips], [shift_right_unused_bits], [parselist_surprises], [number_exact] (its part on C99).

    ** Not modelled

    Just-in-time compilers and assembly variants (architecture code); the stores of a %n in a nested format;
    the radix trees and the ida functions of lib/; the
    scatter lists of fifos; the conversions between jiffies and other units; compression and
    error correction (imported algorithms); CRC-32 (its table is generated by the build); the scheduler, paging,
    file systems, protocols and drivers, which depend on hardware or on most of the rest of the kernel. *)
From Stdlib Require Export ZArith Lia Bool.
From stdpp Require Export base numbers option list sorting gmap.
From stdpp Require Export ssreflect.
#[global] Open Scope Z_scope.

(** ** Machine words *)

(** A [w]-bit unsigned value is a [Z] in [0, 2^w). *)
Definition in_width (w x : Z) : Prop := 0 ≤ x < 2 ^ w.

(** Truncation to [w] bits: C's conversion to a [w]-bit unsigned type. *)
Definition wrap (w x : Z) : Z := x mod 2 ^ w.

(** C's conversion to a [w]-bit signed (two's complement) type. *)
Definition swrap (w x : Z) : Z := (x + 2 ^ (w - 1)) mod 2 ^ w - 2 ^ (w - 1).

(** [~x] on a [w]-bit unsigned type. *)
Definition bnot (w x : Z) : Z := Z.land (Z.lnot x) (Z.ones w).

(** [x << n] on a [w]-bit unsigned type, for [0 <= n < w]. *)
Definition bshl (w x n : Z) : Z := Z.land (Z.shiftl x n) (Z.ones w).

Definition BITS_PER_LONG : Z := 64.
Definition ULLONG_MAX : Z := 2 ^ 64 - 1.

(** Error numbers, returned negated. *)
Definition EPERM : Z := 1.
Definition ENOENT : Z := 2.
Definition ENOMEM : Z := 12.
Definition EACCES : Z := 13.
Definition EFAULT : Z := 14.
Definition EBUSY : Z := 16.
Definition EINVAL : Z := 22.
Definition ERANGE : Z := 34.

(** ** Memory accesses: an index outside the object is a fault ([None]) *)

Definition rd {A} (l : list A) (k : Z) : option A :=
  if (0 <=? k) && (k <? Z.of_nat (length l)) then l !! Z.to_nat k else None.

Definition wr {A} (l : list A) (k : Z) (v : A) : option (list A) :=
  if (0 <=? k) && (k <? Z.of_nat (length l)) then Some (<[Z.to_nat k := v]> l) else None.

(** [n] bytes of an object from offset [off]: a fault outside the object. *)
Definition rd_range (l : list Z) (off n : Z) : option (list Z) :=
  if (0 <=? off) && (0 <=? n) && (off + n <=? Z.of_nat (length l))
  then Some (take (Z.to_nat n) (drop (Z.to_nat off) l)) else None.

(** Storing bytes at offset [off]: a fault outside the object. *)
Definition wr_range (l : list Z) (off : Z) (bs : list Z) : option (list Z) :=
  if (0 <=? off) && (off + Z.of_nat (length bs) <=? Z.of_nat (length l))
  then Some (take (Z.to_nat off) l ++ bs ++ drop (Z.to_nat off + length bs) l) else None.

(** ** Loops with early exit *)

(** What a loop body does: go on with a new state, or leave with a result. *)
Inductive ctl (S R : Type) : Type :=
| Next (s : S)
| Stop (r : R).
Arguments Next {S R} s.
Arguments Stop {S R} r.

(** [for (k = k0; n times; ++k)], the body may leave early. *)
Fixpoint for_up {S R} (n : nat) (k : Z) (body : Z → S → option (ctl S R)) (s : S)
  : option (ctl S R) :=
  match n with
  | O => Some (Next s)
  | Datatypes.S n' =>
      match body k s with
      | Some (Next s') => for_up n' (k + 1) body s'
      | Some (Stop r) => Some (Stop r)
      | None => None
      end
  end.

(** The same loop without an early exit. *)
Fixpoint for_each {S} (n : nat) (k : Z) (body : Z → S → option S) (s : S) : option S :=
  match n with
  | O => Some s
  | Datatypes.S n' => s' ← body k s; for_each n' (k + 1) body s'
  end.

(** [while (1)]: [None] is a fault of the body or the end of the fuel; a
    theorem about a loop shows that the result is [Some]. *)
Fixpoint loop {S R} (fuel : nat) (body : S → option (ctl S R)) (s : S) : option R :=
  match fuel with
  | O => None
  | Datatypes.S f =>
      match body s with
      | Some (Next s') => loop f body s'
      | Some (Stop r) => Some r
      | None => None
      end
  end.

(** The runs of such a loop that end: after finitely many rounds the body leaves with a result, or faults.  Fuel plays no part. *)
Inductive runs {S R} (body : S → option (ctl S R)) : S → option R → Prop :=
| runs_stop s r : body s = Some (Stop r) → runs body s (Some r)
| runs_fault s : body s = None → runs body s None
| runs_next s s' r : body s = Some (Next s') → runs body s' r → runs body s r.

(** ** Tactics *)

(** Turn the boolean comparisons of a hypothesis or goal into propositions. *)
Ltac zbool :=
  repeat match goal with
  | H : (_ && _) = true |- _ => apply andb_true_iff in H as [? ?]
  | H : (_ && _) = false |- _ => apply andb_false_iff in H
  | H : (_ || _) = true |- _ => apply orb_true_iff in H
  | H : (_ || _) = false |- _ => apply orb_false_iff in H as [? ?]
  | H : negb _ = true |- _ => apply negb_true_iff in H
  | H : negb _ = false |- _ => apply negb_false_iff in H
  | H : (_ <? _) = true |- _ => apply Z.ltb_lt in H
  | H : (_ <? _) = false |- _ => apply Z.ltb_ge in H
  | H : (_ <=? _) = true |- _ => apply Z.leb_le in H
  | H : (_ <=? _) = false |- _ => apply Z.leb_gt in H
  | H : (_ =? _) = true |- _ => apply Z.eqb_eq in H
  | H : (_ =? _) = false |- _ => apply Z.eqb_neq in H
  end.

(** Case analysis on the condition of the first [if] of the goal. *)
Ltac case_if :=
  match goal with
  | |- context [if ?b then _ else _] => destruct b eqn:?; zbool
  end.

(** Linear arithmetic with division and remainder by constants. *)
Ltac zdm := Z.to_euclidean_division_equations; lia.

(** Decide the comparisons of the goal that arithmetic settles. *)
Ltac zdone := first [lia | zdm].
Ltac ztest :=
  repeat match goal with
  | |- context [?a <? ?b] =>
      first [rewrite -> (proj2 (Z.ltb_lt a b)) by zdone | rewrite -> (proj2 (Z.ltb_ge a b)) by zdone]
  | |- context [?a <=? ?b] =>
      first [rewrite -> (proj2 (Z.leb_le a b)) by zdone | rewrite -> (proj2 (Z.leb_gt a b)) by zdone]
  | |- context [?a =? ?b] =>
      first [rewrite -> (proj2 (Z.eqb_eq a b)) by zdone | rewrite -> (proj2 (Z.eqb_neq a b)) by zdone]
  end;
  rw ?andb_true_r ?andb_false_r ?orb_true_r ?orb_false_r; cbn [andb orb negb].

(** Concrete words are in range. *)
Ltac words_concrete := repeat (constructor; [split; vm_compute; congruence|]); constructor.

(** ** Word lemmas *)

Lemma pow2_pos w : 0 ≤ w → 0 < 2 ^ w.
Proof. intros. apply Z.pow_pos_nonneg; lia. Qed.

Lemma in_width_0 w : 0 ≤ w → in_width w 0.
Proof. intros. pose proof (pow2_pos w). split; lia. Qed.

Lemma in_width_mono w w' x : w ≤ w' → in_width w x → in_width w' x.
Proof. intros H [H1 H2]. split; [done|]. pose proof (Z.pow_le_mono_r 2 w w' ltac:(lia) H). lia. Qed.

Lemma in_width_wrap w x : 0 ≤ w → in_width w (wrap w x).
Proof. intros. apply Z.mod_pos_bound, pow2_pos; lia. Qed.

Lemma wrap_small w x : in_width w x → wrap w x = x.
Proof. intros [? ?]. by apply Z.mod_small. Qed.

Lemma land_ones_wrap w x : 0 ≤ w → Z.land x (Z.ones w) = wrap w x.
Proof. intros. by apply Z.land_ones. Qed.

Lemma in_width_land_ones w x : 0 ≤ w → in_width w (Z.land x (Z.ones w)).
Proof. intros. rw land_ones_wrap; [by apply in_width_wrap|lia]. Qed.

Lemma in_width_bnot w x : 0 ≤ w → in_width w (bnot w x).
Proof. apply in_width_land_ones. Qed.

Lemma in_width_bshl w x n : 0 ≤ w → in_width w (bshl w x n).
Proof. apply in_width_land_ones. Qed.

(** Above the width of a word no bit is set. *)
Lemma testbit_above w x i : in_width w x → 0 ≤ w → w ≤ i → Z.testbit x i = false.
Proof.
  intros Hx Hw Hi. rw -(wrap_small w x Hx) /wrap.
  by apply Z.mod_pow2_bits_high.
Qed.

(** A value without bits above [w] is a [w]-bit word. *)
Lemma in_width_bits w x :
  0 ≤ w → 0 ≤ x → (∀ i, w ≤ i → Z.testbit x i = false) → in_width w x.
Proof.
  intros Hw Hx Hb.
  replace x with (wrap w x); [by apply in_width_wrap|].
  apply Z.bits_inj'. intros i Hi. rw /wrap.
  destruct (Z.lt_ge_cases i w).
  - by apply Z.mod_pow2_bits_low.
  - rw Z.mod_pow2_bits_high; [|lia]. symmetry. by apply Hb.
Qed.

(** Two [w]-bit words with the same bits are equal. *)
Lemma word_ext w x y :
  0 ≤ w → in_width w x → in_width w y →
  (∀ i, 0 ≤ i < w → Z.testbit x i = Z.testbit y i) → x = y.
Proof.
  intros Hw Hx Hy H. apply Z.bits_inj'. intros i Hi.
  destruct (Z.lt_ge_cases i w); [by apply H|].
  by rw !(testbit_above w).
Qed.

Lemma testbit_ones w i : 0 ≤ w → Z.testbit (Z.ones w) i = (0 <=? i) && (i <? w).
Proof.
  intros. apply Bool.eq_true_iff_eq. rw Z.ones_spec_iff; [|lia].
  rw andb_true_iff Z.leb_le Z.ltb_lt. lia.
Qed.

Lemma testbit_bnot w x i :
  0 ≤ w → 0 ≤ i → Z.testbit (bnot w x) i = negb (Z.testbit x i) && (i <? w).
Proof.
  intros. rw /bnot Z.land_spec Z.lnot_spec; [|lia]. rw testbit_ones; [|lia].
  by rw (proj2 (Z.leb_le 0 i)).
Qed.

Lemma testbit_bshl w x n i :
  0 ≤ w → 0 ≤ i → Z.testbit (bshl w x n) i = Z.testbit x (i - n) && (i <? w).
Proof.
  intros. rw /bshl Z.land_spec Z.shiftl_spec; [|lia]. rw testbit_ones; [|lia].
  by rw (proj2 (Z.leb_le 0 i)).
Qed.

Lemma testbit_wrap w x i :
  0 ≤ w → 0 ≤ i → Z.testbit (wrap w x) i = Z.testbit x i && (i <? w).
Proof.
  intros. rw -land_ones_wrap; [|lia]. rw Z.land_spec testbit_ones; [|lia].
  by rw (proj2 (Z.leb_le 0 i)).
Qed.

Lemma testbit_pow2 n i : 0 ≤ n → Z.testbit (2 ^ n) i = (n =? i).
Proof. intros. by apply Z.pow2_bits_eqb. Qed.

(** A word is zero when none of its bits is set. *)
Lemma word_zero_iff w x :
  0 ≤ w → in_width w x → x = 0 ↔ (∀ i, 0 ≤ i < w → Z.testbit x i = false).
Proof.
  intros Hw Hx. split.
  - intros -> i _. apply Z.bits_0.
  - intros H. apply (word_ext w); [done|done|by apply in_width_0|].
    intros i Hi. by rw H ?Z.bits_0.
Qed.

Lemma in_width_land w x y : 0 ≤ w → in_width w x → 0 ≤ y → in_width w (Z.land x y).
Proof.
  intros Hw Hx Hy. apply in_width_bits; [done| |].
  - apply Z.land_nonneg. left. apply Hx.
  - intros i Hi. rw Z.land_spec (testbit_above w); done.
Qed.

Lemma in_width_lor w x y : 0 ≤ w → in_width w x → in_width w y → in_width w (Z.lor x y).
Proof.
  intros Hw Hx Hy. apply in_width_bits; [done| |].
  - apply Z.lor_nonneg. split; [apply Hx|apply Hy].
  - intros i Hi. rw Z.lor_spec !(testbit_above w); done.
Qed.

Lemma in_width_lxor w x y : 0 ≤ w → in_width w x → in_width w y → in_width w (Z.lxor x y).
Proof.
  intros Hw Hx Hy. apply in_width_bits; [done| |].
  - apply Z.lxor_nonneg. split; intros _; [apply Hy|apply Hx].
  - intros i Hi. rw Z.lxor_spec !(testbit_above w); done.
Qed.

Lemma in_width_shiftr w x n : 0 ≤ w → in_width w x → 0 ≤ n → in_width w (Z.shiftr x n).
Proof.
  intros Hw Hx Hn. apply in_width_bits; [done| |].
  - apply Z.shiftr_nonneg, Hx.
  - intros i Hi. rw Z.shiftr_spec; [|lia]. apply (testbit_above w); [done|done|lia].
Qed.

Lemma in_width_ones w n : 0 ≤ n ≤ w → in_width w (Z.ones n).
Proof.
  intros. rw Z.ones_equiv. split; [pose proof (pow2_pos n); lia|].
  pose proof (Z.pow_le_mono_r 2 n w). lia.
Qed.

Lemma swrap_small w x : 0 < w → - 2 ^ (w - 1) ≤ x < 2 ^ (w - 1) → swrap w x = x.
Proof.
  intros Hw Hx. rw /swrap. replace (2 ^ w) with (2 * 2 ^ (w - 1)).
  - rw Z.mod_small; lia.
  - rw -Z.pow_succ_r; [|lia]. f_equal. lia.
Qed.

Lemma land_le_r x m : 0 ≤ m → Z.land x m ≤ m.
Proof.
  intros Hm. apply Z.le_0_sub. rw Z.sub_nocarry_ldiff.
  - apply Z.ldiff_nonneg. by left.
  - apply Z.bits_inj'. intros i Hi. rw Z.ldiff_spec Z.land_spec Z.bits_0.
    by destruct (Z.testbit x i), (Z.testbit m i).
Qed.

Create HintDb width discriminated.
#[export] Hint Resolve in_width_0 in_width_wrap in_width_land_ones in_width_bnot in_width_bshl
  in_width_land in_width_lor in_width_lxor in_width_shiftr : width.
#[export] Hint Extern 3 (_ ≤ _) => lia : width.

(** Rewriting the bits of a word expression. *)
Create Rewrite HintDb bits.
#[export] Hint Rewrite Z.land_spec Z.lor_spec Z.lxor_spec Z.bits_0 : bits.
#[export] Hint Rewrite Z.shiftr_spec testbit_ones testbit_bnot testbit_bshl testbit_wrap
  testbit_pow2 using lia : bits.

(** ** Accesses *)

Lemma rd_Some {A} (l : list A) k x : rd l k = Some x ↔ 0 ≤ k ∧ l !! Z.to_nat k = Some x.
Proof.
  rw /rd. destruct ((0 <=? k) && _) eqn:E; zbool.
  - split; [|by intros [_ ?]]. intros ?. split; [lia|done].
  - split; [done|]. intros [? H%lookup_lt_Some]. destruct E; zbool; lia.
Qed.

Lemma rd_in {A} (l : list A) k : 0 ≤ k < Z.of_nat (length l) → is_Some (rd l k).
Proof.
  intros. rw /rd. ztest. apply lookup_lt_is_Some. lia.
Qed.

Lemma rd_lt {A} (l : list A) k x : rd l k = Some x → 0 ≤ k < Z.of_nat (length l).
Proof. intros [? H%lookup_lt_Some]%rd_Some. lia. Qed.

Lemma wr_in {A} (l : list A) k v :
  0 ≤ k < Z.of_nat (length l) → wr l k v = Some (<[Z.to_nat k := v]> l).
Proof.
  intros. rw /wr (proj2 (Z.leb_le 0 k)); [|lia].
  by rw (proj2 (Z.ltb_lt k _)); [|lia].
Qed.

Lemma wr_Some {A} (l l' : list A) k v :
  wr l k v = Some l' ↔ 0 ≤ k < Z.of_nat (length l) ∧ l' = <[Z.to_nat k := v]> l.
Proof.
  rw /wr. destruct ((0 <=? k) && _) eqn:E; zbool.
  - split; [intros [= <-]; split; [lia|done]|intros [_ ->]; done].
  - split; [done|]. intros [? _]. destruct E; zbool; lia.
Qed.

Lemma wr_length {A} (l l' : list A) k v : wr l k v = Some l' → length l' = length l.
Proof. intros [_ ->]%wr_Some. apply length_insert. Qed.

Lemma rd_wr_eq {A} (l l' : list A) k v : wr l k v = Some l' → rd l' k = Some v.
Proof.
  intros [? ->]%wr_Some. apply rd_Some. split; [lia|].
  apply list_lookup_insert_eq. lia.
Qed.

Lemma rd_wr_ne {A} (l l' : list A) k j v : wr l k v = Some l' → j ≠ k → rd l' j = rd l j.
Proof.
  intros [? ->]%wr_Some Hne. rw /rd length_insert. case_if; [|done].
  apply list_lookup_insert_ne. lia.
Qed.

Lemma rd_middle {A} (l1 l2 : list A) a k : k = Z.of_nat (length l1) → rd (l1 ++ a :: l2) k = Some a.
Proof.
  intros ->. rw /rd length_app. cbn [length]. rewrite -> (proj2 (Z.leb_le _ _)), (proj2 (Z.ltb_lt _ _)) by lia. cbn [andb].
  rewrite -> Nat2Z.id. by apply list_lookup_middle.
Qed.

Lemma wr_middle {A} (l1 l2 : list A) a b k : k = Z.of_nat (length l1) → wr (l1 ++ a :: l2) k b = Some (l1 ++ b :: l2).
Proof.
  intros ->. rw /wr length_app. cbn [length]. rewrite -> (proj2 (Z.leb_le _ _)), (proj2 (Z.ltb_lt _ _)) by lia. cbn [andb].
  rewrite -> Nat2Z.id. f_equal. by rewrite -> insert_app_r_alt, Nat.sub_diag by lia.
Qed.

Lemma wr_range_Some l off bs l' : wr_range l off bs = Some l' →
  0 ≤ off ∧ off + Z.of_nat (length bs) ≤ Z.of_nat (length l) ∧ l' = take (Z.to_nat off) l ++ bs ++ drop (Z.to_nat off + length bs) l.
Proof. rw /wr_range. case_if; [|done]. intros [= <-]. zbool. auto with lia. Qed.

Lemma wr_range_length l off bs l' : wr_range l off bs = Some l' → length l' = length l.
Proof. intros (? & ? & ->)%wr_range_Some. rewrite -> !length_app, length_take, length_drop. lia. Qed.

Lemma swrap_of_wrap w z : 0 ≤ w → swrap w (wrap w z) = swrap w z.
Proof. intros Hw. rw /swrap /wrap. by rewrite -> Z.add_mod_idemp_l by lia. Qed.

(** The steps of a computation that succeeded. *)
Ltac unbind Hs :=
  repeat match type of Hs with
  | (?x ≫= _) = _ => destruct x as [?v|] eqn:?; [|done]; cbn [mbind option_bind] in Hs
  | (let '(_, _) := ?v in _) = _ => destruct v
  end.

(** ** Loop rules *)

(** Total correctness of [for_up]: an invariant at every index. *)
Lemma for_up_inv {S R} (I : Z → S → Prop) (Q : R → Prop) n k
    (body : Z → S → option (ctl S R)) s :
  I k s →
  (∀ j s', k ≤ j < k + Z.of_nat n → I j s' →
     (∃ s'', body j s' = Some (Next s'') ∧ I (j + 1) s'') ∨
     (∃ r, body j s' = Some (Stop r) ∧ Q r)) →
  (∃ s', for_up n k body s = Some (Next s') ∧ I (k + Z.of_nat n) s') ∨
  (∃ r, for_up n k body s = Some (Stop r) ∧ Q r).
Proof.
  revert k s. induction n as [|n IH]; intros k s HI Hb; cbn [for_up].
  - left. exists s. split; [done|]. by rw Z.add_0_r.
  - destruct (Hb k s) as [(s'' & -> & HI')|(r & -> & HQ)]; [lia|done| |by eauto].
    destruct (IH (k + 1) s'') as [(s' & Hs & HI'')|Hr]; [done| | |by eauto].
    + intros j s' Hj. apply Hb. lia.
    + left. exists s'. split; [done|].
      by replace (k + Z.of_nat (Datatypes.S n)) with (k + 1 + Z.of_nat n) by lia.
Qed.

Lemma for_each_inv {S} (I : Z → S → Prop) n k (body : Z → S → option S) s :
  I k s →
  (∀ j s', k ≤ j < k + Z.of_nat n → I j s' → ∃ s'', body j s' = Some s'' ∧ I (j + 1) s'') →
  ∃ s', for_each n k body s = Some s' ∧ I (k + Z.of_nat n) s'.
Proof.
  revert k s. induction n as [|n IH]; intros k s HI Hb; cbn [for_each].
  - exists s. split; [done|]. by rw Z.add_0_r.
  - destruct (Hb k s) as (s'' & -> & HI'); [lia|done|]. cbn [mbind option_bind].
    destruct (IH (k + 1) s'') as (s' & Hs & HI''); [done| |].
    + intros j s' Hj. apply Hb. lia.
    + exists s'. split; [done|].
      by replace (k + Z.of_nat (Datatypes.S n)) with (k + 1 + Z.of_nat n) by lia.
Qed.

(** Total correctness of [loop]: an invariant and a decreasing measure. *)
Lemma loop_inv {S R} (I : S → Prop) (μ : S → nat) (Q : R → Prop)
    (body : S → option (ctl S R)) fuel s :
  (∀ s', I s' →
     (∃ s'', body s' = Some (Next s'') ∧ I s'' ∧ (μ s'' < μ s')%nat) ∨
     (∃ r, body s' = Some (Stop r) ∧ Q r)) →
  I s → (μ s < fuel)%nat → ∃ r, loop fuel body s = Some r ∧ Q r.
Proof.
  intros Hb. revert s. induction fuel as [|f IH]; intros s HI Hf; [lia|].
  cbn [loop]. destruct (Hb s HI) as [(s'' & -> & HI' & Hμ)|(r & -> & HQ)].
  - apply IH; [done|lia].
  - eauto.
Qed.

(** Total correctness of [loop]: an invariant with a number that goes down. *)
Lemma loop_index {S R} (I : nat → S → Prop) (Q : R → Prop) (body : S → option (ctl S R)) fuel s μ :
  (∀ μ s, I μ s → (∃ s' μ', body s = Some (Next s') ∧ I μ' s' ∧ (μ' < μ)%nat) ∨ (∃ r, body s = Some (Stop r) ∧ Q r)) → I μ s → (μ < fuel)%nat → ∃ r, loop fuel body s = Some r ∧ Q r.
Proof.
  intros Hb. revert s μ. induction fuel as [|f IH]; intros s μ HI Hf; [lia|]. cbn [loop]. destruct (Hb μ s HI) as [(s' & μ' & -> & HI' & Hlt)|(r & -> & HQ)]; [|by exists r]. apply (IH s' μ'); [done|lia].
Qed.

(** What a terminated loop tells about its last iteration. *)
Lemma loop_last {S R} (I : S → Prop) (body : S → option (ctl S R)) fuel s r :
  I s → (∀ s1 s2, I s1 → body s1 = Some (Next s2) → I s2) →
  loop fuel body s = Some r → ∃ s', I s' ∧ body s' = Some (Stop r).
Proof.
  intros HI Hstep. revert s HI. induction fuel as [|f IH]; intros s HI; [done|].
  cbn [loop]. destruct (body s) as [[s'|r']|] eqn:E; [|intros [= <-]; eauto|done].
  apply IH. by eapply Hstep.
Qed.

(** With a measure that goes down more fuel makes no difference. *)
Lemma loop_more {S R} (I : S → Prop) (μ : S → nat) (body : S → option (ctl S R)) fuel n s :
  (∀ s1 s2, I s1 → body s1 = Some (Next s2) → I s2 ∧ (μ s2 < μ s1)%nat) → I s → (μ s < fuel)%nat → loop (fuel + n) body s = loop fuel body s.
Proof.
  intros Hb. revert s. induction fuel as [|f IH]; intros s HI Hf; [lia|]. cbn [Nat.add loop]. destruct (body s) as [[s'|r]|] eqn:E; try done.
  destruct (Hb s s' HI E). apply IH; [done|lia].
Qed.

(** With such a measure the loop ends, and its result is that of the run: [None] is a fault of the body. *)
Lemma loop_runs {S R} (μ : S → nat) (body : S → option (ctl S R)) fuel s :
  (∀ s1 s2, body s1 = Some (Next s2) → (μ s2 < μ s1)%nat) → (μ s < fuel)%nat → runs body s (loop fuel body s).
Proof.
  intros Hb. revert s. induction fuel as [|f IH]; intros s Hf; [lia|]. cbn [loop]. destruct (body s) as [[s'|r]|] eqn:E; [|by constructor|by constructor].
  apply (runs_next body s s'); [done|]. apply IH. specialize (Hb s s' E). lia.
Qed.

Lemma loop_ext {S R} (body body' : S → option (ctl S R)) fuel s :
  (∀ s', body s' = body' s') → loop fuel body s = loop fuel body' s.
Proof.
  intros H. revert s. induction fuel as [|f IH]; intros s; [done|].
  cbn [loop]. rw H. destruct (body' s) as [[s'|r]|]; [apply IH|done|done].
Qed.
