(* ===== verification/Refs.v ===== *)
(** * Counting pointers: what a reference count has to equal *)
From S2P Require Import Prelude.

(** The number of objects of [m] whose pointer [p] is [id]. *)
Definition nrefs {A} (p : A → option Z) (m : gmap Z A) (id : Z) : Z :=
  Z.of_nat (size (filter (λ kv, p kv.2 = Some id) m)).

Definition hit (p : option Z) (id : Z) : Z := if decide (p = Some id) then 1 else 0.

Lemma hit_eq id : hit (Some id) id = 1.
Proof. by rw /hit decide_True. Qed.

Lemma hit_nonneg p id : 0 ≤ hit p id.
Proof. rw /hit. by case_decide. Qed.

Lemma hit_ne p id : p ≠ Some id → hit p id = 0.
Proof. intros. by rw /hit decide_False. Qed.

Section nrefs.
Context {A : Type} (p : A → option Z).

Lemma nrefs_fresh (m : gmap Z A) k a id :
  m !! k = None → nrefs p (<[k := a]> m) id = nrefs p m id + hit (p a) id.
Proof using Type.
  intros Hk. rw /nrefs /hit. destruct (decide (p a = Some id)) as [Hp|Hp].
  - rw map_filter_insert_True // map_size_insert_None; [lia|]. rw map_lookup_filter Hk //.
  - rw map_filter_insert_False // delete_id; [lia|done].
Qed.

Lemma nrefs_delete (m : gmap Z A) k a id :
  m !! k = Some a → nrefs p (delete k m) id = nrefs p m id - hit (p a) id.
Proof using Type.
  intros Hk. rewrite <- (insert_delete_id m k a Hk) at 2.
  rw nrefs_fresh; [lia|]. apply lookup_delete_eq.
Qed.

Lemma nrefs_replace (m : gmap Z A) k a a' id :
  m !! k = Some a → nrefs p (<[k := a']> m) id = nrefs p m id - hit (p a) id + hit (p a') id.
Proof using Type.
  intros Hk. rewrite <- (insert_delete_eq m k a'). rw nrefs_fresh; [|apply lookup_delete_eq].
  by rewrite -> (nrefs_delete m k a id Hk).
Qed.

Lemma nrefs_none (m : gmap Z A) k a id :
  nrefs p m id = 0 → m !! k = Some a → p a ≠ Some id.
Proof using Type.
  intros Hz Hk Hp. pose proof (nrefs_delete m k a id Hk) as Hd.
  rw Hp hit_eq Hz /nrefs in Hd. lia.
Qed.

Lemma nrefs_unused (m : gmap Z A) id :
  (∀ k a, m !! k = Some a → p a ≠ Some id) → nrefs p m id = 0.
Proof using Type.
  intros H. rw /nrefs. rw (_ : filter _ m = ∅) ?map_size_empty //.
  apply map_empty. intros k. apply map_lookup_filter_None. right. intros a Hk. cbn. by eapply H.
Qed.
End nrefs.
