(* ===== verification/Bitops.v ===== *)
(** * Bit operations on words: asm-generic/bitops and lib/hweight.c

    [__ffs], [__fls], [fls], [ffz], [set_bit], [test_bit] and the software
    Hamming weights, on a 64-bit little-endian machine.  A bitmap is the list of
    its [unsigned long] words; [bitat m i] is its [i]-th bit. *)
From S2P Require Import Prelude.

(** ** Definitions *)

(** One halving step of [__ffs]. *)
Definition ffs_step (mask sh : Z) (st : Z * Z) : Z * Z :=
  let '(num, word) := st in
  if Z.land word mask =? 0 then (num + sh, Z.shiftr word sh) else (num, word).

Definition __ffs (word : Z) : Z :=
  let st := ffs_step 0xffffffff 32 (0, word) in
  let st := ffs_step 0xffff 16 st in
  let st := ffs_step 0xff 8 st in
  let st := ffs_step 0xf 4 st in
  let '(num, word) := ffs_step 0x3 2 st in
  if Z.land word 0x1 =? 0 then num + 1 else num.

Definition ffz (x : Z) : Z := __ffs (bnot 64 x).

(** One halving step of [__fls] and [fls] on a [w]-bit word. *)
Definition fls_step (w sh : Z) (st : Z * Z) : Z * Z :=
  let '(num, word) := st in
  if Z.land word (bshl w (Z.ones w) (w - sh)) =? 0
  then (num - sh, bshl w word sh) else (num, word).

Definition __fls (word : Z) : Z :=
  let st := fls_step 64 32 (BITS_PER_LONG - 1, word) in
  let st := fls_step 64 16 st in
  let st := fls_step 64 8 st in
  let st := fls_step 64 4 st in
  let '(num, word) := fls_step 64 2 st in
  if Z.land word (bshl 64 (Z.ones 64) (64 - 1)) =? 0 then num - 1 else num.

Definition fls (x : Z) : Z :=
  if x =? 0 then 0 else
  let st := fls_step 32 16 (32, x) in
  let st := fls_step 32 8 st in
  let st := fls_step 32 4 st in
  let st := fls_step 32 2 st in
  fst (fls_step 32 1 st).

(** [BITS_TO_LONGS], [BIT_WORD], [BIT_MASK] of linux/bitops.h. *)
Definition BITS_TO_LONGS (nr : Z) : Z := (nr + 64 - 1) / 64.
Definition BIT_WORD (nr : Z) : Z := nr ÷ 64.
Definition BIT_MASK (nr : Z) : Z := bshl 64 1 (Z.rem nr 64).

Definition test_bit (nr : Z) (addr : list Z) : option Z :=
  w ← rd addr (BIT_WORD nr);
  Some (Z.land 1 (Z.shiftr w (Z.land nr (BITS_PER_LONG - 1)))).

Definition set_bit (nr : Z) (addr : list Z) : option (list Z) :=
  let mask := BIT_MASK nr in
  w ← rd addr (BIT_WORD nr);
  wr addr (BIT_WORD nr) (Z.lor w mask).

Definition __sw_hweight32 (fast : bool) (w : Z) : Z :=
  if fast then
    let w := wrap 32 (w - Z.land (Z.shiftr w 1) 0x55555555) in
    let w := wrap 32 (Z.land w 0x33333333 + Z.land (Z.shiftr w 2) 0x33333333) in
    let w := Z.land (wrap 32 (w + Z.shiftr w 4)) 0x0f0f0f0f in
    Z.shiftr (wrap 32 (w * 0x01010101)) 24
  else
    let res := wrap 32 (w - Z.land (Z.shiftr w 1) 0x55555555) in
    let res := wrap 32 (Z.land res 0x33333333 + Z.land (Z.shiftr res 2) 0x33333333) in
    let res := Z.land (wrap 32 (res + Z.shiftr res 4)) 0x0F0F0F0F in
    let res := wrap 32 (res + Z.shiftr res 8) in
    Z.land (wrap 32 (res + Z.shiftr res 16)) 0x000000FF.

Definition __sw_hweight16 (w : Z) : Z :=
  let res := wrap 32 (w - Z.land (Z.shiftr w 1) 0x5555) in
  let res := wrap 32 (Z.land res 0x3333 + Z.land (Z.shiftr res 2) 0x3333) in
  let res := Z.land (wrap 32 (res + Z.shiftr res 4)) 0x0F0F in
  Z.land (wrap 32 (res + Z.shiftr res 8)) 0x00FF.

Definition __sw_hweight8 (w : Z) : Z :=
  let res := wrap 32 (w - Z.land (Z.shiftr w 1) 0x55) in
  let res := wrap 32 (Z.land res 0x33 + Z.land (Z.shiftr res 2) 0x33) in
  Z.land (wrap 32 (res + Z.shiftr res 4)) 0x0F.

Definition __sw_hweight64 (fast : bool) (w : Z) : Z :=
  if fast then
    let w := wrap 64 (w - Z.land (Z.shiftr w 1) 0x5555555555555555) in
    let w := wrap 64 (Z.land w 0x3333333333333333
                      + Z.land (Z.shiftr w 2) 0x3333333333333333) in
    let w := Z.land (wrap 64 (w + Z.shiftr w 4)) 0x0f0f0f0f0f0f0f0f in
    Z.shiftr (wrap 64 (w * 0x0101010101010101)) 56
  else
    let res := wrap 64 (w - Z.land (Z.shiftr w 1) 0x5555555555555555) in
    let res := wrap 64 (Z.land res 0x3333333333333333
                        + Z.land (Z.shiftr res 2) 0x3333333333333333) in
    let res := Z.land (wrap 64 (res + Z.shiftr res 4)) 0x0F0F0F0F0F0F0F0F in
    let res := wrap 64 (res + Z.shiftr res 8) in
    let res := wrap 64 (res + Z.shiftr res 16) in
    Z.land (wrap 64 (res + Z.shiftr res 32)) 0x00000000000000FF.

(** [hweight_long] on a 64-bit machine with a fast multiplier. *)
Definition hweight_long (w : Z) : Z := __sw_hweight64 true w.

(** *** Specification vocabulary *)

(** [n] is the position of the lowest / highest set bit of [x]. *)
Definition lowest_set (x n : Z) : Prop :=
  0 ≤ n ∧ Z.testbit x n = true ∧ ∀ j, 0 ≤ j < n → Z.testbit x j = false.
Definition highest_set (x n : Z) : Prop :=
  0 ≤ n ∧ Z.testbit x n = true ∧ ∀ j, n < j → Z.testbit x j = false.

(** Number of indices below [n] where [f] holds. *)
Fixpoint count (f : Z → bool) (n : nat) : Z :=
  match n with
  | O => 0
  | S n' => count f n' + Z.b2z (f (Z.of_nat n'))
  end.

(** The [i]-th bit of a bitmap; its words. *)
Definition bitat (m : list Z) (i : Z) : bool :=
  match rd m (i / 64) with
  | Some w => Z.testbit w (i mod 64)
  | None => false
  end.
Definition words (m : list Z) : Prop := Forall (in_width 64) m.

(** Little-endian value of a list of bytes. *)
Fixpoint le (bs : list Z) : Z :=
  match bs with
  | [] => 0
  | b :: bs' => b + 256 * le bs'
  end.

(** ** [__ffs], [__fls] and [fls] *)

Lemma land_ones_zero x k :
  0 ≤ k → Z.land x (Z.ones k) = 0 ↔ ∀ i, 0 ≤ i < k → Z.testbit x i = false.
Proof.
  intros Hk. rw (word_zero_iff k); [|done|by apply in_width_land_ones].
  split; intros H i Hi; specialize (H i Hi); move: H; autorewrite with bits;
    rw (proj2 (Z.leb_le 0 i)) ?(proj2 (Z.ltb_lt i k)) ?andb_true_r; lia || done.
Qed.

Lemma ffs_step_spec mask sh num word n :
  mask = Z.ones sh → 0 < sh → lowest_set word n → n < 2 * sh →
  ∃ num' word' n', ffs_step mask sh (num, word) = (num', word') ∧
    lowest_set word' n' ∧ n' < sh ∧ num' + n' = num + n.
Proof.
  intros -> Hsh (Hn & Ht & Hlow) Hlt. rw /ffs_step. case_if.
  - rw land_ones_zero in Heqb; [|lia].
    assert (sh ≤ n) by (apply Z.le_ngt; intros ?; rw Heqb in Ht; [done|lia]).
    exists (num + sh), (Z.shiftr word sh), (n - sh). split_and!; [done| |lia|lia].
    split_and!; [lia| |].
    + rw Z.shiftr_spec; [|lia]. by replace (n - sh + sh) with n by lia.
    + intros j Hj. rw Z.shiftr_spec; [|lia]. apply Hlow. lia.
  - exists num, word, n. split_and!; [done|done| |done].
    apply Z.lt_nge. intros ?. apply Heqb, land_ones_zero; [lia|].
    intros i Hi. apply Hlow. lia.
Qed.

Lemma lowest_set_unique x n n' : lowest_set x n → lowest_set x n' → n = n'.
Proof.
  intros (? & H1 & H2) (? & H3 & H4).
  destruct (Z.lt_trichotomy n n') as [?|[?|?]]; [|done|].
  - rw H4 in H1; [done|lia].
  - rw H2 in H3; [done|lia].
Qed.

Lemma ffs_lowest word n : lowest_set word n → n < 64 → __ffs word = n.
Proof.
  intros H Hn. rw /__ffs.
  destruct (ffs_step_spec 0xffffffff 32 0 word n) as (a1 & w1 & n1 & -> & ? & ? & ?);
    [done|lia|done|lia|].
  destruct (ffs_step_spec 0xffff 16 a1 w1 n1) as (a2 & w2 & n2 & -> & ? & ? & ?);
    [done|lia|done|lia|].
  destruct (ffs_step_spec 0xff 8 a2 w2 n2) as (a3 & w3 & n3 & -> & ? & ? & ?);
    [done|lia|done|lia|].
  destruct (ffs_step_spec 0xf 4 a3 w3 n3) as (a4 & w4 & n4 & -> & ? & ? & ?);
    [done|lia|done|lia|].
  destruct (ffs_step_spec 0x3 2 a4 w4 n4) as (a5 & w5 & n5 & -> & ? & ? & ?);
    [done|lia|done|lia|].
  destruct (ffs_step_spec 0x1 1 a5 w5 n5) as (a6 & w6 & n6 & E & [? _] & ? & ?);
    [done|lia|done|lia|].
  rw /ffs_step /= in E. case_if; simplify_eq; lia.
Qed.

(** Search for the lowest bit with a property. *)
Lemma least_bit (f : Z → bool) (n : nat) :
  (∃ i, 0 ≤ i < Z.of_nat n ∧ f i = true ∧ ∀ j, 0 ≤ j < i → f j = false) ∨
  (∀ j, 0 ≤ j < Z.of_nat n → f j = false).
Proof.
  induction n as [|n [(i & ? & ? & ?)|IH]].
  - right. intros j Hj. lia.
  - left. exists i. split_and!; [lia|lia|done|done].
  - destruct (f (Z.of_nat n)) eqn:E.
    + left. exists (Z.of_nat n). split_and!; [lia|lia|done|done].
    + right. intros j Hj. destruct (decide (j = Z.of_nat n)); [by subst|apply IH; lia].
Qed.

Lemma lowest_set_ex x : in_width 64 x → x ≠ 0 → ∃ n, lowest_set x n ∧ n < 64.
Proof.
  intros Hw Hx. destruct (least_bit (Z.testbit x) 64) as [(i & Hi & Ht & Hl)|Hz].
  - exists i. split; [split_and!; [lia|done|done]|lia].
  - destruct Hx. by apply (word_zero_iff 64).
Qed.

(** [__ffs] of a non-zero word is the position of its lowest set bit. *)
Lemma ffs_spec x : in_width 64 x → x ≠ 0 → lowest_set x (__ffs x) ∧ __ffs x < 64.
Proof.
  intros Hw Hx. destruct (lowest_set_ex x) as (n & Hn & ?); [done|done|].
  by rw (ffs_lowest x n).
Qed.

Lemma fls_mask w sh i :
  0 ≤ sh ≤ w → 0 ≤ i →
  Z.testbit (bshl w (Z.ones w) (w - sh)) i = (w - sh <=? i) && (i <? w).
Proof.
  intros. rw testbit_bshl; [|lia|lia]. rw testbit_ones; [|lia]. lia.
Qed.

Lemma fls_step_spec w sh num word h :
  0 < sh → 2 * sh ≤ w → in_width w word → highest_set word h → w - 2 * sh ≤ h →
  ∃ num' word' h', fls_step w sh (num, word) = (num', word') ∧ in_width w word' ∧
    highest_set word' h' ∧ w - sh ≤ h' ∧ num' + h' = num + h.
Proof.
  intros Hsh Hw Hword (Hh & Ht & Hhi) Hge. rw /fls_step.
  assert (h < w). { apply Z.lt_nge. intros ?. rw (testbit_above w) in Ht => //; lia. }
  case_if.
  - assert (h < w - sh).
    { apply Z.lt_nge. intros Hle.
      assert (Z.testbit (Z.land word (bshl w (Z.ones w) (w - sh))) h = true) as Hb.
      { rw Z.land_spec Ht fls_mask; [|lia|lia]. lia. }
      by rw Heqb Z.bits_0 in Hb. }
    exists (num - sh), (bshl w word sh), (h + sh).
    split_and!; [done|apply in_width_bshl; lia| |lia|lia].
    split_and!; [lia| |].
    + rw testbit_bshl; [|lia|lia]. replace (h + sh - sh) with h by lia. rw Ht. lia.
    + intros j Hj. rw testbit_bshl; [|lia|lia]. rw Hhi; [done|lia].
  - exists num, word, h. split_and!; [done|done|done| |done].
    apply Z.le_ngt. intros Hlt. apply Heqb. apply Z.bits_inj'. intros i Hi.
    rw Z.land_spec Z.bits_0 fls_mask; [|lia|lia].
    destruct (Z.leb_spec (w - sh) i); [|by rw andb_false_r].
    rw Hhi; [done|lia].
Qed.

Lemma highest_set_ex w x : 0 ≤ w → in_width w x → x ≠ 0 → ∃ h, highest_set x h ∧ h < w.
Proof.
  intros Hw [H0 Hx] Hne. exists (Z.log2 x). split; [|apply Z.log2_lt_pow2; lia].
  split_and!; [apply Z.log2_nonneg|apply Z.bit_log2; lia|].
  intros j Hj. by apply Z.bits_above_log2.
Qed.

(** [__fls] of a non-zero word is the position of its highest set bit. *)
Lemma fls64_spec x : in_width 64 x → x ≠ 0 → highest_set x (__fls x) ∧ __fls x < 64.
Proof.
  intros Hw Hx. destruct (highest_set_ex 64 x) as (h & Hh & Hlt); [lia|done|done|].
  assert (__fls x = h) as ->; [|done].
  assert (Hh0 := Hh). destruct Hh0 as [Hh0 _].
  rw /__fls /BITS_PER_LONG.
  destruct (fls_step_spec 64 32 (64 - 1) x h) as (a1 & w1 & h1 & -> & ? & ? & ? & ?);
    [lia|lia|done|done|lia|].
  destruct (fls_step_spec 64 16 a1 w1 h1) as (a2 & w2 & h2 & -> & ? & ? & ? & ?);
    [lia|lia|done|done|lia|].
  destruct (fls_step_spec 64 8 a2 w2 h2) as (a3 & w3 & h3 & -> & ? & ? & ? & ?);
    [lia|lia|done|done|lia|].
  destruct (fls_step_spec 64 4 a3 w3 h3) as (a4 & w4 & h4 & -> & ? & ? & ? & ?);
    [lia|lia|done|done|lia|].
  destruct (fls_step_spec 64 2 a4 w4 h4) as (a5 & w5 & h5 & -> & ? & ? & ? & ?);
    [lia|lia|done|done|lia|].
  destruct (fls_step_spec 64 1 a5 w5 h5) as (a6 & w6 & h6 & E & ? & (? & Ht & _) & ? & ?);
    [lia|lia|done|done|lia|].
  assert (h6 < 64). { apply Z.lt_nge. intros ?. rw (testbit_above 64) in Ht => //; lia. }
  rw /fls_step in E. case_if; simplify_eq; lia.
Qed.

(** [fls] is one more than the position of the highest set bit, 0 for 0. *)
Lemma fls_spec x :
  in_width 32 x → (x = 0 ∧ fls x = 0) ∨ (highest_set x (fls x - 1) ∧ 1 ≤ fls x ≤ 32).
Proof.
  intros Hw. destruct (Z.eqb_spec x 0) as [->|Hx]; [by left|right].
  destruct (highest_set_ex 32 x) as (h & Hh & Hlt); [lia|done|done|].
  assert (Hh0 := Hh). destruct Hh0 as [Hh0 _].
  assert (fls x = h + 1) as ->.
  2: { replace (h + 1 - 1) with h by lia. split; [done|lia]. }
  rw /fls (proj2 (Z.eqb_neq x 0)); [|done].
  destruct (fls_step_spec 32 16 32 x h) as (a1 & w1 & h1 & -> & ? & ? & ? & ?);
    [lia|lia|done|done|lia|].
  destruct (fls_step_spec 32 8 a1 w1 h1) as (a2 & w2 & h2 & -> & ? & ? & ? & ?);
    [lia|lia|done|done|lia|].
  destruct (fls_step_spec 32 4 a2 w2 h2) as (a3 & w3 & h3 & -> & ? & ? & ? & ?);
    [lia|lia|done|done|lia|].
  destruct (fls_step_spec 32 2 a3 w3 h3) as (a4 & w4 & h4 & -> & ? & ? & ? & ?);
    [lia|lia|done|done|lia|].
  destruct (fls_step_spec 32 1 a4 w4 h4) as (a5 & w5 & h5 & -> & ? & (? & Ht & _) & ? & ?);
    [lia|lia|done|done|lia|].
  assert (h5 < 32). { apply Z.lt_nge. intros ?. rw (testbit_above 32) in Ht => //; lia. }
  simpl. lia.
Qed.

(** ** Counting bits *)

Lemma count_ext f g n :
  (∀ i, 0 ≤ i < Z.of_nat n → f i = g i) → count f n = count g n.
Proof.
  induction n as [|n IH]; [done|]. intros H. simpl.
  rw IH; [|intros; apply H; lia]. rw H; [done|lia].
Qed.

Lemma count_add f a b :
  count f (a + b) = count f a + count (λ i, f (Z.of_nat a + i)) b.
Proof.
  induction b as [|b IH]; [rw Nat.add_0_r /=; lia|].
  rw Nat.add_succ_r /= IH Nat2Z.inj_add. lia.
Qed.

Lemma count_bounds f n : 0 ≤ count f n ≤ Z.of_nat n.
Proof. induction n as [|n IH]; simpl; [lia|]. destruct (f _); simpl; lia. Qed.

Lemma count_false f n : (∀ i, 0 ≤ i < Z.of_nat n → f i = false) → count f n = 0.
Proof.
  induction n as [|n IH]; [done|]. intros H. simpl. rw H; [|lia]. rw IH; [done|].
  intros; apply H; lia.
Qed.

Lemma count_S_true f n : f (Z.of_nat n) = true → count f (S n) = count f n + 1.
Proof. intros H. by rw /= H. Qed.

Lemma count_mono f a b : (a ≤ b)%nat → count f a ≤ count f b.
Proof. induction 1; simpl; [lia|]. destruct (f _); simpl; lia. Qed.

(** ** Words as little-endian byte lists *)

Lemma testbit_cat k a b i :
  0 ≤ k → in_width k b → 0 ≤ i →
  Z.testbit (b + 2 ^ k * a) i = if i <? k then Z.testbit b i else Z.testbit a (i - k).
Proof.
  intros Hk [Hb Hb'] Hi. case_if.
  - rw -(Z.mod_pow2_bits_low _ k) //. rw Z.mul_comm Z_mod_plus_full Z.mod_small //.
  - replace (Z.testbit a (i - k)) with (Z.testbit ((b + 2 ^ k * a) / 2 ^ k) (i - k)).
    + rw Z.div_pow2_bits; [|lia|lia]. f_equal. lia.
    + rw Z.mul_comm Z.div_add; [|lia]. by rw Z.div_small.
Qed.

Lemma le_in_width bs :
  Forall (in_width 8) bs → in_width (8 * Z.of_nat (length bs)) (le bs).
Proof.
  induction 1 as [|b bs [Hb Hb'] _ [IH IH']]; [done|]. simpl in *.
  split; [lia|].
  replace (8 * Z.of_nat (S (length bs))) with (8 + 8 * Z.of_nat (length bs)) by lia.
  rw Z.pow_add_r; lia.
Qed.

(** Masked shifts act on each byte when the mask drops the bits that come from
    the byte above. *)
Lemma land_shift_byte s m M b y :
  0 ≤ s ≤ 8 → in_width 8 m → in_width 8 b → 0 ≤ y → 0 ≤ M →
  (∀ i, 8 - s ≤ i < 8 → Z.testbit m i = false) →
  Z.land (Z.shiftr (b + 256 * y) s) (m + 256 * M) =
  Z.land (Z.shiftr b s) m + 256 * Z.land (Z.shiftr y s) M.
Proof.
  intros Hs Hm Hb Hy HM Hdrop.
  assert (in_width 8 (Z.land (Z.shiftr b s) m)) as Hl.
  { apply in_width_land; [lia|apply in_width_shiftr; done || lia|apply Hm]. }
  change 256 with (2 ^ 8). apply Z.bits_inj'. intros i Hi.
  rw Z.land_spec Z.shiftr_spec // !testbit_cat //; [|lia].
  rw Z.land_spec !Z.shiftr_spec //. destruct (Z.ltb_spec i 8).
  - destruct (Z.ltb_spec (i + s) 8); [done|]. rw Hdrop; [by rw !andb_false_r|lia].
  - rw Z.land_spec Z.shiftr_spec; [|lia]. rw (proj2 (Z.ltb_ge (i + s) 8)); [|lia].
    by replace (i + s - 8) with (i - 8 + s) by lia.
Qed.

Lemma le_nonneg bs : Forall (in_width 8) bs → 0 ≤ le bs.
Proof. intros H. apply (le_in_width bs H). Qed.

Lemma le_replicate_nonneg n m : 0 ≤ m → 0 ≤ le (replicate n m).
Proof. induction n; simpl; lia. Qed.

Lemma land_shift_le s m bs :
  0 ≤ s ≤ 8 → in_width 8 m → Forall (in_width 8) bs →
  (∀ i, 8 - s ≤ i < 8 → Z.testbit m i = false) →
  Z.land (Z.shiftr (le bs) s) (le (replicate (length bs) m)) =
  le ((λ b, Z.land (Z.shiftr b s) m) <$> bs).
Proof.
  intros Hs Hm Hbs Hd. induction Hbs as [|b bs Hb Hbs IH]; [by rw /= Z.land_0_r|].
  rw fmap_cons /=. rw land_shift_byte //.
  - by rw IH.
  - by apply le_nonneg.
  - apply le_replicate_nonneg, Hm.
Qed.

Lemma le_zip_sub (f : Z → Z) bs : le bs - le (f <$> bs) = le ((λ b, b - f b) <$> bs).
Proof. induction bs; rw ?fmap_cons /=; lia. Qed.

Lemma le_zip_add (f g : Z → Z) bs : le (f <$> bs) + le (g <$> bs) = le ((λ b, f b + g b) <$> bs).
Proof. induction bs; rw ?fmap_cons /=; lia. Qed.

(** The steps of the parallel count on one byte, checked on all 256 bytes. *)
Definition swar1 (b : Z) : Z := b - Z.land (Z.shiftr b 1) 0x55.
Definition swar2 (b : Z) : Z :=
  Z.land (Z.shiftr (swar1 b) 0) 0x33 + Z.land (Z.shiftr (swar1 b) 2) 0x33.
Definition swar3 (b : Z) : Z := Z.land (swar2 b + Z.shiftr (swar2 b) 4) 0x0f.

Definition swar_ok (b : Z) : bool :=
  (0 <=? swar1 b) && (swar1 b <? 256) && (0 <=? swar2 b) && (swar2 b <=? 0x44)
  && (swar2 b mod 16 <=? 4) && (swar3 b =? count (Z.testbit b) 8).

Lemma byte_forall (P : Z → bool) b :
  forallb P (map Z.of_nat (seq 0 256)) = true → in_width 8 b → P b = true.
Proof.
  intros H [Hb Hb']. rewrite -> forallb_forall in H. apply H.
  apply in_map_iff. exists (Z.to_nat b). rewrite -> in_seq. lia.
Qed.

Lemma swar_ok_all b : in_width 8 b → swar_ok b = true.
Proof. apply byte_forall. by vm_compute. Qed.

Lemma swar_facts b :
  in_width 8 b → in_width 8 (swar1 b) ∧ in_width 8 (swar2 b) ∧ swar2 b ≤ 0x44 ∧
  swar2 b mod 16 ≤ 4 ∧ swar3 b = count (Z.testbit b) 8.
Proof.
  intros H%swar_ok_all. rw /swar_ok in H. zbool. unfold in_width.
  change (2 ^ 8) with 256. split_and!; lia.
Qed.

Definition swar_word (m1 m2 m4 w : Z) : Z :=
  let r1 := w - Z.land (Z.shiftr w 1) m1 in
  let r2 := Z.land r1 m2 + Z.land (Z.shiftr r1 2) m2 in
  Z.land (r2 + Z.shiftr r2 4) m4.

Lemma land_0f_byte b y M :
  0 ≤ b ≤ 0x44 → 0 ≤ y → y mod 16 ≤ 4 → 0 ≤ M →
  Z.land (b + 256 * y + Z.shiftr (b + 256 * y) 4) (0x0f + 256 * M) =
  Z.land (b + Z.shiftr b 4) 0x0f + 256 * Z.land (y + Z.shiftr y 4) M.
Proof.
  intros Hb Hy Hmod HM. rw !Z.shiftr_div_pow2; [|lia..]. change (2 ^ 4) with 16.
  replace (b + 256 * y + (b + 256 * y) / 16)
    with ((b + 16 * (y mod 16) + b / 16) + 256 * (y + y / 16)).
  2: { replace (b + 256 * y) with (b + (16 * y) * 16) by lia. rw Z.div_add; [|lia].
       pose proof (Z.div_mod y 16). lia. }
  pose proof (Z.mod_pos_bound y 16 ltac:(lia)).
  pose proof (Z.div_pos b 16 ltac:(lia) ltac:(lia)).
  assert (b / 16 < 5) by (apply Z.div_lt_upper_bound; lia).
  change 256 with (2 ^ 8). change 0x0f with (Z.ones 4).
  apply Z.bits_inj'. intros i Hi.
  assert (in_width 8 (b + 16 * (y mod 16) + b / 16)) by (split; [lia|change (2 ^ 8) with 256; lia]).
  assert (in_width 8 (Z.ones 4)) by done.
  assert (in_width 8 (Z.land (b + b / 16) (Z.ones 4))).
  { apply in_width_land; [lia|split; [lia|change (2 ^ 8) with 256; lia]|done]. }
  rw Z.land_spec !testbit_cat //. destruct (Z.ltb_spec i 8); [|by rw Z.land_spec].
  rw Z.land_spec testbit_ones; [|lia]. rw (proj2 (Z.leb_le 0 i)) //=.
  destruct (Z.ltb_spec i 4); [|by rw !andb_false_r].
  rw -(Z.mod_pow2_bits_low _ 4) // -(Z.mod_pow2_bits_low (b + b / 16) 4) //.
  f_equal. f_equal. change (2 ^ 4) with 16.
  replace (b + 16 * (y mod 16) + b / 16) with (b + b / 16 + (y mod 16) * 16) by lia.
  apply Z_mod_plus_full.
Qed.

Lemma le_swar2_mod bs : Forall (in_width 8) bs → le (swar2 <$> bs) mod 16 ≤ 4.
Proof.
  destruct bs as [|b bs']; [done|].
  intros [Hb _]%Forall_cons_1. rw fmap_cons /=.
  replace (256 * le (swar2 <$> bs')) with (16 * le (swar2 <$> bs') * 16) by lia.
  rw Z_mod_plus_full. by apply swar_facts.
Qed.

Lemma Forall_swar2 bs : Forall (in_width 8) bs → Forall (in_width 8) (swar2 <$> bs).
Proof. intros. apply Forall_fmap. eapply Forall_impl; [done|]. intros; by apply swar_facts. Qed.

Lemma swar3_le bs :
  Forall (in_width 8) bs →
  Z.land (le (swar2 <$> bs) + Z.shiftr (le (swar2 <$> bs)) 4)
    (le (replicate (length bs) 0x0f)) = le (swar3 <$> bs).
Proof.
  induction 1 as [|b bs Hb Hbs IH]; [done|]. rw !fmap_cons.
  cbn [length replicate le]. rw land_0f_byte.
  - by rw IH.
  - destruct (swar_facts b Hb) as (_ & [? _] & ? & _). lia.
  - by apply le_nonneg, Forall_swar2.
  - by apply le_swar2_mod.
  - by apply le_replicate_nonneg.
Qed.

(** The parallel count leaves the count of each byte in that byte. *)
Lemma swar_word_le bs :
  Forall (in_width 8) bs →
  swar_word (le (replicate (length bs) 0x55)) (le (replicate (length bs) 0x33))
    (le (replicate (length bs) 0x0f)) (le bs)
  = le ((λ b, count (Z.testbit b) 8) <$> bs).
Proof.
  intros Hbs. rw /swar_word.
  assert (∀ s m, 0 ≤ s → s ≤ 2 → m = 0x55 ∧ s ≤ 1 ∨ m = 0x33 →
    ∀ i, 8 - s ≤ i < 8 → Z.testbit m i = false) as Hdrop.
  { intros s m ?? [[-> ?]| ->] i Hi; (assert (i = 6 ∨ i = 7) as [-> | ->] by lia; try done; lia). }
  rw (land_shift_le 1 0x55) //; [|by apply Hdrop; lia].
  rw le_zip_sub. change (λ b, b - _) with swar1.
  assert (Forall (in_width 8) (swar1 <$> bs)) as H1.
  { apply Forall_fmap. eapply Forall_impl; [done|]. intros; by apply swar_facts. }
  pose proof (land_shift_le 0 0x33 (swar1 <$> bs)) as E0.
  pose proof (land_shift_le 2 0x33 (swar1 <$> bs)) as E2.
  rw length_fmap Z.shiftr_0_r in E0. rw length_fmap in E2.
  rw E0 //; [|lia]. rw E2 //; [|by apply Hdrop; lia]. clear E0 E2.
  rw le_zip_add -list_fmap_compose.
  change (((λ b, Z.land (b ≫ 0) 51 + Z.land (b ≫ 2) 51) ∘ swar1)) with swar2.
  rw swar3_le //. f_equal. apply list_fmap_ext. intros i b Hb.
  apply swar_facts. exact (Forall_lookup_1 _ _ _ _ Hbs Hb).
Qed.

(** The bytes of a word. *)
Fixpoint bytes_of (n : nat) (w : Z) : list Z :=
  match n with
  | O => []
  | S n' => w mod 256 :: bytes_of n' (w / 256)
  end.

Lemma bytes_of_Forall n w : Forall (in_width 8) (bytes_of n w).
Proof.
  revert w. induction n as [|n IH]; intros w; constructor; [|apply IH].
  apply (in_width_wrap 8 w). lia.
Qed.

Lemma bytes_of_length n w : length (bytes_of n w) = n.
Proof. revert w. induction n as [|n IH]; intros w; simpl; [done|]. by rw IH. Qed.

Lemma le_bytes_of n w : in_width (8 * Z.of_nat n) w → le (bytes_of n w) = w.
Proof.
  revert w. induction n as [|n IH]; intros w [Hw Hw']; simpl; [lia|].
  rw IH; [pose proof (Z.div_mod w 256); lia|]. split.
  - apply Z.div_pos; lia.
  - apply Z.div_lt_upper_bound; [lia|].
    replace (8 * Z.of_nat (S n)) with (8 + 8 * Z.of_nat n) in Hw' by lia.
    rw Z.pow_add_r in Hw'; lia.
Qed.

Definition sumz (l : list Z) : Z := foldr Z.add 0 l.

Lemma sumz_cons x l : sumz (x :: l) = x + sumz l.
Proof. done. Qed.

Lemma count_bytes n w :
  0 ≤ w →
  count (Z.testbit w) (8 * n) = sumz ((λ b, count (Z.testbit b) 8) <$> bytes_of n w).
Proof.
  revert w. induction n as [|n IH]; intros w Hw; [done|].
  replace (8 * S n)%nat with (8 + 8 * n)%nat by lia. rw count_add.
  cbn [bytes_of]. rw fmap_cons sumz_cons. f_equal.
  - apply count_ext. intros i Hi. change 256 with (2 ^ 8).
    by rw Z.mod_pow2_bits_low; [|lia].
  - rw -IH; [|apply Z.div_pos; lia]. apply count_ext. intros i Hi.
    change 256 with (2 ^ 8). rw Z.div_pow2_bits; [f_equal|..]; lia.
Qed.

(** *** Correctness of the software weights *)

Section hweight.
Context (n : nat) (w : Z).
Hypothesis Hw : in_width (8 * Z.of_nat n) w.

Lemma swar_word_bytes :
  swar_word (le (replicate n 0x55)) (le (replicate n 0x33)) (le (replicate n 0x0f)) w
  = le ((λ b, count (Z.testbit b) 8) <$> bytes_of n w).
Proof using Hw.
  pose proof (swar_word_le (bytes_of n w) (bytes_of_Forall n w)) as E.
  rw bytes_of_length le_bytes_of // in E.
Qed.

Lemma land_le_mask x m : 0 ≤ m → Z.land x m ≤ m ∧ 0 ≤ Z.land x m.
Proof using.
  intros Hm. split; [|apply Z.land_nonneg; by right].
  apply Z.ldiff_le; [done|]. apply Z.bits_inj'. intros i Hi.
  rw Z.ldiff_spec Z.land_spec Z.bits_0. by destruct (Z.testbit x i), (Z.testbit m i).
Qed.

(** The intermediate results of the parallel count do not overflow. *)
Lemma swar_no_overflow W m1 m2 m4 :
  8 * Z.of_nat n ≤ W → 0 ≤ m1 → 0 ≤ m2 → 0 ≤ m4 → 4 * m2 < 2 ^ W →
  Z.land (Z.shiftr w 1) m1 ≤ w →
  let r1 := wrap W (w - Z.land (Z.shiftr w 1) m1) in
  let r2 := wrap W (Z.land r1 m2 + Z.land (Z.shiftr r1 2) m2) in
  Z.land (wrap W (r2 + Z.shiftr r2 4)) m4 = swar_word m1 m2 m4 w.
Proof using Hw.
  intros HW H1 H2 H4 Hm2 Hle. cbv zeta. rw /swar_word.
  assert (w < 2 ^ W) by (destruct Hw; pose proof (Z.pow_le_mono_r 2 _ _ ltac:(lia) HW); lia).
  destruct Hw as [Hw0 _].
  destruct (land_le_mask (Z.shiftr w 1) m1 H1).
  rw !(wrap_small W (w - _)); [|split; lia..].
  set (r1 := w - _).
  destruct (land_le_mask r1 m2 H2). destruct (land_le_mask (Z.shiftr r1 2) m2 H2).
  rw !(wrap_small W (Z.land r1 m2 + _)); [|split; lia..].
  set (r2 := Z.land r1 m2 + _).
  assert (0 ≤ Z.shiftr r2 4 ≤ r2).
  { rw Z.shiftr_div_pow2; [|lia]. split; [apply Z.div_pos; lia|].
    apply Z.div_le_upper_bound; lia. }
  rw wrap_small; [done|]. split; lia.
Qed.
End hweight.

Lemma land_shiftr1_le w m : 0 ≤ w → 0 ≤ m → Z.land (Z.shiftr w 1) m ≤ w.
Proof.
  intros. transitivity (Z.shiftr w 1).
  - rw Z.land_comm. apply land_le_mask. by apply Z.shiftr_nonneg.
  - rw Z.shiftr_div_pow2; [|lia]. apply Z.div_le_upper_bound; lia.
Qed.

Lemma count8_bounds b : 0 ≤ count (Z.testbit b) 8 ≤ 8.
Proof. apply (count_bounds _ 8). Qed.

(** Shifting and truncating by whole bytes. *)
Lemma le_shiftr (k : nat) bs :
  Forall (in_width 8) bs → Z.shiftr (le bs) (8 * Z.of_nat k) = le (drop k bs).
Proof.
  revert bs. induction k as [|k IH]; intros bs Hbs.
  - rw drop_0. apply Z.shiftr_0_r.
  - destruct Hbs as [|b bs [Hb Hb'] Hbs]; [apply Z.shiftr_0_l|].
    change (drop (S k) (b :: bs)) with (drop k bs). rw -IH // [le (b :: bs)]/=.
    rw !Z.shiftr_div_pow2; [|lia..].
    replace (8 * Z.of_nat (S k)) with (8 + 8 * Z.of_nat k) by lia.
    rw Z.pow_add_r; [|lia..]. rw -Z.div_div; [|lia|apply pow2_pos; lia].
    change (2 ^ 8) with 256. rw Z.mul_comm Z.div_add; [|lia]. by rw (Z.div_small b 256).
Qed.

Lemma le_wrap (k : nat) bs :
  Forall (in_width 8) bs → wrap (8 * Z.of_nat k) (le bs) = le (take k bs).
Proof.
  revert bs. induction k as [|k IH]; intros bs Hbs.
  - rw take_0. apply Z.mod_1_r.
  - destruct Hbs as [|b bs [Hb Hb'] Hbs]; [done|].
    change (take (S k) (b :: bs)) with (b :: take k bs). cbn [le]. rw -IH //.
    unfold wrap. replace (8 * Z.of_nat (S k)) with (8 + 8 * Z.of_nat k) by lia.
    rw Z.pow_add_r; [|lia..]. pose proof (pow2_pos (8 * Z.of_nat k) ltac:(lia)).
    rw Z.rem_mul_r; [|lia|lia]. change (2 ^ 8) with 256 in *.
    rw (Z.mul_comm 256 (le bs)) Z_mod_plus_full Z.mod_small //.
    rw Z.div_add; [|lia]. by rw (Z.div_small b 256).
Qed.

(** Prove that every element of an explicit list is a byte. *)
Ltac bytes := repeat (constructor; [split; [lia|change (2 ^ 8) with 256; lia]|]); constructor.

(** The low byte of the folded sums, for 2, 4 and 8 byte counts. *)
Lemma fold2 a b :
  0 ≤ a ≤ 8 → 0 ≤ b ≤ 8 →
  Z.land (wrap 32 (le [a; b] + Z.shiftr (le [a; b]) 8)) 0x00FF = sumz [a; b].
Proof.
  intros. change 0xFF with (Z.ones 8). rw land_ones_wrap //.
  rw (le_shiftr 1); [|bytes].
  replace (le [a; b] + le (drop 1 [a; b])) with (le [a + b; b]) by (cbn; lia).
  rw (le_wrap 4); [|bytes]. rw (le_wrap 1); [|bytes]. cbn; lia.
Qed.

Lemma fold4 fast a b c d :
  0 ≤ a ≤ 8 → 0 ≤ b ≤ 8 → 0 ≤ c ≤ 8 → 0 ≤ d ≤ 8 →
  (if fast : bool then Z.shiftr (wrap 32 (le [a; b; c; d] * 0x01010101)) 24
   else let res := wrap 32 (le [a; b; c; d] + Z.shiftr (le [a; b; c; d]) 8) in
        Z.land (wrap 32 (res + Z.shiftr res 16)) 0xFF) = sumz [a; b; c; d].
Proof.
  intros. change 0xFF with (Z.ones 8). cbv zeta. rw land_ones_wrap //. destruct fast.
  - replace (le [a; b; c; d] * 0x01010101)
      with (le [a; a + b; a + b + c; a + b + c + d; b + c + d; c + d; d]) by (cbn; lia).
    rw (le_wrap 4); [|bytes]. rw (le_shiftr 3); [|bytes]. cbn; lia.
  - rw (le_shiftr 1); [|bytes].
    replace (le [a; b; c; d] + _) with (le [a + b; b + c; c + d; d]) by (cbn; lia).
    rw (le_wrap 4); [|bytes]. cbn [take]. rw (le_shiftr 2); [|bytes]. cbn [drop].
    replace (le [a + b; b + c; c + d; d] + _)
      with (le [a + b + c + d; b + c + d; c + d; d]) by (cbn; lia).
    rw (le_wrap 4); [|bytes]. rw (le_wrap 1); [|bytes]. cbn; lia.
Qed.

Lemma fold8 fast a b c d e f g h :
  0 ≤ a ≤ 8 → 0 ≤ b ≤ 8 → 0 ≤ c ≤ 8 → 0 ≤ d ≤ 8 →
  0 ≤ e ≤ 8 → 0 ≤ f ≤ 8 → 0 ≤ g ≤ 8 → 0 ≤ h ≤ 8 →
  (if fast : bool then Z.shiftr (wrap 64 (le [a; b; c; d; e; f; g; h] * 0x0101010101010101)) 56
   else let r := le [a; b; c; d; e; f; g; h] in
        let r := wrap 64 (r + Z.shiftr r 8) in
        let r := wrap 64 (r + Z.shiftr r 16) in
        Z.land (wrap 64 (r + Z.shiftr r 32)) 0xFF) = sumz [a; b; c; d; e; f; g; h].
Proof.
  intros. change 0xFF with (Z.ones 8). cbv zeta. rw land_ones_wrap //. destruct fast.
  - replace (le [a; b; c; d; e; f; g; h] * 0x0101010101010101)
      with (le [a; a+b; a+b+c; a+b+c+d; a+b+c+d+e; a+b+c+d+e+f; a+b+c+d+e+f+g;
                a+b+c+d+e+f+g+h; b+c+d+e+f+g+h; c+d+e+f+g+h; d+e+f+g+h; e+f+g+h;
                f+g+h; g+h; h]) by (cbn; lia).
    rw (le_wrap 8); [|bytes]. rw (le_shiftr 7); [|bytes]. cbn; lia.
  - rw (le_shiftr 1); [|bytes].
    replace (le [a; b; c; d; e; f; g; h] + _)
      with (le [a+b; b+c; c+d; d+e; e+f; f+g; g+h; h]) by (cbn; lia).
    rw (le_wrap 8); [|bytes]. cbn [take]. rw (le_shiftr 2); [|bytes]. cbn [drop].
    replace (le [a+b; b+c; c+d; d+e; e+f; f+g; g+h; h] + _)
      with (le [a+b+c+d; b+c+d+e; c+d+e+f; d+e+f+g; e+f+g+h; f+g+h; g+h; h]) by (cbn; lia).
    rw (le_wrap 8); [|bytes]. cbn [take]. rw (le_shiftr 4); [|bytes]. cbn [drop].
    replace (le [a+b+c+d; b+c+d+e; c+d+e+f; d+e+f+g; e+f+g+h; f+g+h; g+h; h] + _)
      with (le [a+b+c+d+e+f+g+h; b+c+d+e+f+g+h; c+d+e+f+g+h; d+e+f+g+h; e+f+g+h;
                f+g+h; g+h; h]) by (cbn; lia).
    rw (le_wrap 8); [|bytes]. rw (le_wrap 1); [|bytes]. cbn; lia.
Qed.

Lemma hweight8_correct w : in_width 8 w → __sw_hweight8 w = count (Z.testbit w) 8.
Proof.
  intros Hw. rw /__sw_hweight8 (swar_no_overflow 1 w) //; [|apply land_shiftr1_le; apply Hw || lia].
  rw (swar_word_bytes 1 w Hw) (count_bytes 1); [|apply Hw].
  unfold sumz; cbn [bytes_of fmap list_fmap foldr le]. lia.
Qed.

Lemma hweight16_correct w : in_width 16 w → __sw_hweight16 w = count (Z.testbit w) 16.
Proof.
  intros Hw. rw /__sw_hweight16 (swar_no_overflow 2 w) //; [|apply land_shiftr1_le; apply Hw || lia].
  rw (swar_word_bytes 2 w Hw) (count_bytes 2); [|apply Hw].
  cbn [bytes_of fmap list_fmap]. apply fold2; apply count8_bounds.
Qed.

Lemma hweight32_correct fast w : in_width 32 w → __sw_hweight32 fast w = count (Z.testbit w) 32.
Proof.
  intros Hw. rw /__sw_hweight32 (swar_no_overflow 4 w) //; [|apply land_shiftr1_le; apply Hw || lia].
  rw (swar_word_bytes 4 w Hw) (count_bytes 4); [|apply Hw].
  cbn [bytes_of fmap list_fmap]. apply fold4; apply count8_bounds.
Qed.

Lemma hweight64_correct fast w : in_width 64 w → __sw_hweight64 fast w = count (Z.testbit w) 64.
Proof.
  intros Hw. rw /__sw_hweight64 (swar_no_overflow 8 w) //; [|apply land_shiftr1_le; apply Hw || lia].
  rw (swar_word_bytes 8 w Hw) (count_bytes 8); [|apply Hw].
  cbn [bytes_of fmap list_fmap]. apply fold8; apply count8_bounds.
Qed.
