(* ===== verification/FindBit.v ===== *)
(** * Bit searches: lib/find_next_bit.c and lib/find_last_bit.c

    The pointer [p] of the C code is the index of a word of the bitmap; reading
    outside the bitmap is a fault ([None]). *)
From S2P Require Import Prelude Bitops.

(** ** Definitions *)

(** [~(BITS_PER_LONG - 1)] as an [unsigned long]. *)
Definition LONG_MASK : Z := bnot 64 (BITS_PER_LONG - 1).

(** [tmp &= (~0UL >> (BITS_PER_LONG - size)); ... found_middle: ...], the end of
    [find_next_bit] from label [found_first]. *)
Definition found_first (tmp result size : Z) : Z :=
  let tmp := Z.land tmp (Z.shiftr (Z.ones 64) (BITS_PER_LONG - size)) in
  if tmp =? 0 then wrap 64 (result + size) else wrap 64 (result + __ffs tmp).

(** The word loop [while (size & ~(BITS_PER_LONG-1))], then the last partial word. *)
Definition find_bit_words (addr : list Z) (p result size : Z) : option Z :=
  r ← loop (S (Z.to_nat (size / 64)))
    (λ '(p, result, size),
       if Z.land size LONG_MASK =? 0 then Some (Stop (inr (p, result, size)))
       else
         tmp ← rd addr p;
         if negb (tmp =? 0) then Some (Stop (inl (wrap 64 (result + __ffs tmp))))
         else Some (Next (p + 1, wrap 64 (result + BITS_PER_LONG),
                          wrap 64 (size - BITS_PER_LONG))))
    (p, result, size);
  match r with
  | inl res => Some res
  | inr (p, result, size) =>
      if size =? 0 then Some result
      else tmp ← rd addr p; Some (found_first tmp result size)
  end.

Definition find_next_bit (addr : list Z) (size offset : Z) : option Z :=
  let p := offset / BITS_PER_LONG in
  let result := Z.land offset LONG_MASK in
  if size <=? offset then Some size else
  let size := wrap 64 (size - result) in
  let offset := offset mod BITS_PER_LONG in
  if negb (offset =? 0) then
    tmp ← rd addr p;
    let tmp := Z.land tmp (bshl 64 (Z.ones 64) offset) in
    if size <? BITS_PER_LONG then Some (found_first tmp result size)
    else if negb (tmp =? 0) then Some (wrap 64 (result + __ffs tmp))
    else find_bit_words addr (p + 1) (wrap 64 (result + BITS_PER_LONG))
           (wrap 64 (size - BITS_PER_LONG))
  else find_bit_words addr p result size.

Definition find_first_bit (addr : list Z) (size : Z) : option Z :=
  find_bit_words addr 0 0 size.

(** The same three pieces for the first zero bit. *)
Definition found_first_zero (tmp result size : Z) : Z :=
  let tmp := Z.lor tmp (bshl 64 (Z.ones 64) size) in
  if tmp =? Z.ones 64 then wrap 64 (result + size) else wrap 64 (result + ffz tmp).

Definition find_zero_bit_words (addr : list Z) (p result size : Z) : option Z :=
  r ← loop (S (Z.to_nat (size / 64)))
    (λ '(p, result, size),
       if Z.land size LONG_MASK =? 0 then Some (Stop (inr (p, result, size)))
       else
         tmp ← rd addr p;
         if negb (bnot 64 tmp =? 0) then Some (Stop (inl (wrap 64 (result + ffz tmp))))
         else Some (Next (p + 1, wrap 64 (result + BITS_PER_LONG),
                          wrap 64 (size - BITS_PER_LONG))))
    (p, result, size);
  match r with
  | inl res => Some res
  | inr (p, result, size) =>
      if size =? 0 then Some result
      else tmp ← rd addr p; Some (found_first_zero tmp result size)
  end.

Definition find_next_zero_bit (addr : list Z) (size offset : Z) : option Z :=
  let p := offset / BITS_PER_LONG in
  let result := Z.land offset LONG_MASK in
  if size <=? offset then Some size else
  let size := wrap 64 (size - result) in
  let offset := offset mod BITS_PER_LONG in
  if negb (offset =? 0) then
    tmp ← rd addr p;
    let tmp := Z.lor tmp (Z.shiftr (Z.ones 64) (BITS_PER_LONG - offset)) in
    if size <? BITS_PER_LONG then Some (found_first_zero tmp result size)
    else if negb (bnot 64 tmp =? 0) then Some (wrap 64 (result + ffz tmp))
    else find_zero_bit_words addr (p + 1) (wrap 64 (result + BITS_PER_LONG))
           (wrap 64 (size - BITS_PER_LONG))
  else find_zero_bit_words addr p result size.

Definition find_first_zero_bit (addr : list Z) (size : Z) : option Z :=
  find_zero_bit_words addr 0 0 size.

Definition find_last_bit (addr : list Z) (size : Z) : option Z :=
  let words := size / BITS_PER_LONG in
  let rest := Z.land size (BITS_PER_LONG - 1) in
  (* Partial final word? *)
  first ←
    (if negb (rest =? 0) then
       w ← rd addr words;
       let tmp := Z.land w (Z.shiftr (Z.ones 64) (BITS_PER_LONG - rest)) in
       if negb (tmp =? 0) then Some (Some (words * BITS_PER_LONG + __fls tmp))
       else Some None
     else Some None);
  match first with
  | Some r => Some r
  | None =>
      loop (S (Z.to_nat words))
        (λ words,
           if words =? 0 then Some (Stop size)
           else
             tmp ← rd addr (words - 1);
             if negb (tmp =? 0)
             then Some (Stop ((words - 1) * BITS_PER_LONG + __fls tmp))
             else Some (Next (words - 1)))
        words
  end.

(** *** Specification *)

(** [r] is the first index of [off, size) where [f] holds, or [size]. *)
Definition is_next (f : Z → bool) (off size r : Z) : Prop :=
  (off ≤ r < size ∧ f r = true ∧ ∀ j, off ≤ j < r → f j = false) ∨
  (r = size ∧ ∀ j, off ≤ j < size → f j = false).

(** [r] is the last index of [0, size) where [f] holds, or [size]. *)
Definition is_last (f : Z → bool) (size r : Z) : Prop :=
  (0 ≤ r < size ∧ f r = true ∧ ∀ j, r < j < size → f j = false) ∨
  (r = size ∧ ∀ j, 0 ≤ j < size → f j = false).

(** The bitmap holds at least [bits] bits, and bit numbers fit [unsigned long]. *)
Definition covers (m : list Z) (bits : Z) : Prop :=
  0 ≤ bits ≤ 64 * Z.of_nat (length m) ∧ bits < 2 ^ 64.

(** ** Bits of a bitmap *)

Lemma bitat_word m k w i :
  rd m k = Some w → 0 ≤ i < 64 → bitat m (64 * k + i) = Z.testbit w i.
Proof.
  intros Hr Hi. rw /bitat. replace ((64 * k + i) / 64) with k by zdm.
  rw Hr. f_equal. zdm.
Qed.

Lemma bitat_out m i : 64 * Z.of_nat (length m) ≤ i → bitat m i = false.
Proof.
  intros Hi. rw /bitat. destruct (rd m (i / 64)) eqn:E; [|done].
  apply rd_lt in E. zdm.
Qed.

Lemma words_rd m k w : words m → rd m k = Some w → in_width 64 w.
Proof. intros H [_ Hl]%rd_Some. exact (Forall_lookup_1 _ _ _ _ H Hl). Qed.

(** Clearing the low [a] bits rounds down to a multiple of [2^a]. *)
Lemma land_bnot_ones a x :
  0 ≤ a ≤ 64 → in_width 64 x → Z.land x (bnot 64 (Z.ones a)) = 2 ^ a * (x / 2 ^ a).
Proof.
  intros Ha Hx. rw Z.mul_comm -Z.shiftr_div_pow2; [|lia]. rw -Z.shiftl_mul_pow2; [|lia].
  apply Z.bits_inj'. intros i Hi. rw Z.land_spec Z.shiftl_spec // testbit_bnot //.
  rw testbit_ones; [|lia]. destruct (Z.ltb_spec i a).
  - ztest. rw Z.testbit_neg_r //. lia.
  - ztest. rw Z.shiftr_spec; [|lia]. replace (i - a + a) with i by lia.
    destruct (Z.ltb_spec i 64); [by rw andb_true_r|]. by rw (testbit_above 64).
Qed.

Lemma LONG_MASK_land x : in_width 64 x → Z.land x LONG_MASK = 64 * (x / 64).
Proof. intros Hx. by apply (land_bnot_ones 6). Qed.

Lemma is_next_unique f off size r r' :
  is_next f off size r → is_next f off size r' → r = r'.
Proof.
  intros [(? & Hr & Hl)|[-> Hn]] [(? & Hr' & Hl')|[-> Hn']]; [|..|done].
  - destruct (Z.lt_trichotomy r r') as [?|[?|?]]; [|done|].
    + rw Hl' in Hr; [done|lia].
    + rw Hl in Hr'; [done|lia].
  - rw Hn' in Hr; [done|lia].
  - rw Hn in Hr'; [done|lia].
Qed.

Lemma is_next_ext f g off size r :
  (∀ j, off ≤ j < size → f j = g j) → is_next f off size r → is_next g off size r.
Proof.
  intros H [(Hr & Hf & Hl)|[-> Hn]]; [left|right]; split_and!; try done || lia.
  - by rw -H.
  - intros j Hj. rw -H; [by apply Hl|lia].
  - intros j Hj. rw -H; [by apply Hn|lia].
Qed.

Lemma is_next_range f off size r : off ≤ size → is_next f off size r → off ≤ r ≤ size.
Proof. intros ? [(? & _)|[-> _]]; lia. Qed.

(** ** Searching one word *)

(** The lowest set bit of a word whose bits are those of [g] from [base] on. *)
Lemma ffs_word (g : Z → bool) tmp base :
  in_width 64 tmp → tmp ≠ 0 →
  (∀ i, 0 ≤ i < 64 → Z.testbit tmp i = g (base + i)) →
  base ≤ base + __ffs tmp < base + 64 ∧ g (base + __ffs tmp) = true ∧
  ∀ j, base ≤ j < base + __ffs tmp → g j = false.
Proof.
  intros Hw Hne Hg. destruct (ffs_spec tmp Hw Hne) as [(H0 & Ht & Hl) Hlt].
  split_and!; [lia|lia|by rw -Hg|].
  intros j Hj. replace j with (base + (j - base)) by lia. rw -Hg; [apply Hl; lia|lia].
Qed.

Lemma zero_word (g : Z → bool) tmp base :
  in_width 64 tmp → tmp = 0 →
  (∀ i, 0 ≤ i < 64 → Z.testbit tmp i = g (base + i)) →
  ∀ j, base ≤ j < base + 64 → g j = false.
Proof.
  intros Hw -> Hg j Hj. replace j with (base + (j - base)) by lia.
  rw -Hg; [apply Z.bits_0|lia].
Qed.

Lemma testbit_low_mask size i :
  0 ≤ size ≤ 64 → 0 ≤ i →
  Z.testbit (Z.shiftr (Z.ones 64) (BITS_PER_LONG - size)) i = (i <? size).
Proof.
  intros. unfold BITS_PER_LONG. rw Z.shiftr_spec // testbit_ones; lia.
Qed.

Lemma testbit_high_mask off i :
  0 ≤ off → 0 ≤ i < 64 →
  Z.testbit (bshl 64 (Z.ones 64) off) i = (off <=? i).
Proof. intros. rw testbit_bshl; [|lia..]. rw testbit_ones; lia. Qed.

(** ** The searches return the first bit *)

Section search.
Context (addr : list Z) (off N : Z).
Hypothesis Hwords : words addr.
Hypothesis Hcov : covers addr N.
Hypothesis Hoff : 0 ≤ off.

Local Abbreviation f := (bitat addr).

(** A hit in the word at [base] is the answer when nothing was set before it. *)
Lemma found_middle_next base tmp :
  0 ≤ base → base + 64 ≤ N → in_width 64 tmp → tmp ≠ 0 →
  (∀ i, 0 ≤ i < 64 → Z.testbit tmp i = (off <=? base + i) && f (base + i)) →
  (∀ j, off ≤ j < base → f j = false) →
  is_next f off N (wrap 64 (base + __ffs tmp)).
Proof using All.
  intros Hb HN Hw Hne Hg Hbefore.
  destruct (ffs_word (λ j, (off <=? j) && f j) tmp base Hw Hne Hg) as (Hr & Hset & Hl).
  cbv beta in *. zbool.
  rw wrap_small; [|destruct Hcov; split; lia]. left. split_and!; [lia|lia|done|].
  intros j Hj. destruct (decide (j < base)); [apply Hbefore; lia|].
  specialize (Hl j ltac:(lia)). zbool. destruct Hl; zbool; [lia|done].
Qed.

Lemma found_first_next base size tmp :
  0 ≤ base → 0 < size < 64 → base + size = N → in_width 64 tmp →
  (∀ i, 0 ≤ i < 64 → Z.testbit tmp i = (off <=? base + i) && f (base + i)) →
  (∀ j, off ≤ j < base → f j = false) →
  is_next f off N (found_first tmp base size).
Proof using All.
  intros Hb Hs HN Hw Hg Hbefore. rw /found_first.
  set (t := Z.land tmp _).
  assert (in_width 64 t) as Ht.
  { apply in_width_land; [lia|done|]. apply Z.shiftr_nonneg. done. }
  assert (∀ i, 0 ≤ i < 64 →
    Z.testbit t i = ((off <=? base + i) && (base + i <? N)) && f (base + i)) as Hg'.
  { intros i Hi. rw Z.land_spec Hg // testbit_low_mask; [|lia|lia].
    destruct (f _); lia. }
  case_if.
  - rw wrap_small; [|destruct Hcov; split; lia]. right. split; [lia|].
    intros j Hj. destruct (decide (j < base)); [apply Hbefore; lia|].
    pose proof (zero_word (λ j, ((off <=? j) && (j <? N)) && f j) t base Ht Heqb Hg' j) as Hz.
    cbv beta in Hz. specialize (Hz ltac:(lia)). destruct (f j); lia.
  - destruct (ffs_word (λ j, ((off <=? j) && (j <? N)) && f j) t base Ht Heqb Hg')
      as (Hr & Hset & Hl). cbv beta in *. zbool.
    rw wrap_small; [|destruct Hcov; split; lia]. left. split_and!; [lia|lia|done|].
    intros j Hj. destruct (decide (j < base)); [apply Hbefore; lia|].
    specialize (Hl j ltac:(lia)). destruct (f j); [lia|done].
Qed.

Lemma word_g p w :
  rd addr p = Some w → off ≤ 64 * p →
  ∀ i, 0 ≤ i < 64 → Z.testbit w i = (off <=? 64 * p + i) && f (64 * p + i).
Proof using All.
  intros Hr Hle i Hi. rw (bitat_word addr p w) //. rw (proj2 (Z.leb_le off _)); [done|lia].
Qed.

Lemma find_bit_words_next p result size :
  result = 64 * p → 0 ≤ p → 0 ≤ size → result + size = N → off ≤ result →
  (∀ j, off ≤ j < result → f j = false) →
  ∃ r, find_bit_words addr p result size = Some r ∧ is_next f off N r.
Proof using All.
  intros Hres Hp Hs HN Ho Hbefore. rw /find_bit_words.
  set (I := λ st : Z * Z * Z, let '(p, result, size) := st in
    result = 64 * p ∧ 0 ≤ p ∧ 0 ≤ size ∧ result + size = N ∧ off ≤ result ∧
    ∀ j, off ≤ j < result → f j = false).
  set (Q := λ r : Z + Z * Z * Z, match r with
    | inl res => is_next f off N res
    | inr st => I st ∧ snd st < 64 end).
  destruct Hcov as [[HN0 Hlen] HN64].
  edestruct (loop_inv I (λ st, Z.to_nat (snd st / 64)) Q) as (r & -> & HQ).
  2: exact (conj Hres (conj Hp (conj Hs (conj HN (conj Ho Hbefore))))).
  2: simpl; lia.
  - intros [[p' res'] sz'] (Hr' & Hp' & Hs' & HN' & Ho' & Hb').
    rw LONG_MASK_land; [|split; lia]. case_if.
    { right. eexists. split; [done|]. split; [done|]. simpl. zdm. }
    assert (64 ≤ sz') by zdm.
    destruct (rd_in addr p') as [w Hw]; [lia|]. rw Hw. cbn [mbind option_bind].
    pose proof (words_rd _ _ _ Hwords Hw) as Hww. case_if.
    + right. eexists. split; [done|]. simpl. rw Hr'.
      apply found_middle_next; [lia|lia|done|done| |].
      * apply word_g; [done|lia].
      * intros j Hj. apply Hb'. lia.
    + left. eexists. split; [done|]. unfold BITS_PER_LONG. simpl.
      rw !wrap_small; [|split; lia..]. split; [|zdm].
      split_and!; [lia|lia|lia|lia|lia|]. intros j Hj.
      destruct (decide (j < res')); [apply Hb'; lia|].
      rw Heqb0 in Hw. replace j with (64 * p' + (j - res')) by lia.
      rw (bitat_word _ _ _ _ Hw); [apply Z.bits_0|lia].
  - cbn [mbind option_bind]. destruct r as [res|[[p' res'] sz']]; [by eauto|].
    destruct HQ as [(Hr' & Hp' & Hs' & HN' & Ho' & Hb') Hlt]. simpl in Hlt.
    case_if.
    { eexists. split; [done|]. right. split; [lia|]. intros j Hj. apply Hb'. lia. }
    destruct (rd_in addr p') as [w Hw]; [lia|]. rw Hw.
    eexists. split; [done|]. rw Hr'.
    apply found_first_next; [lia|lia|lia|by eapply words_rd| |].
    + apply word_g; [done|lia].
    + intros j Hj. apply Hb'. lia.
Qed.

(** [find_next_bit] never reads outside the bitmap and finds the next set bit. *)
Lemma find_next_bit_next :
  off < 2 ^ 64 → ∃ r, find_next_bit addr N off = Some r ∧
    if N <=? off then r = N else is_next f off N r.
Proof using All.
  intros Ho64. rw /find_next_bit. unfold BITS_PER_LONG.
  destruct Hcov as [[HN0 Hlen] HN64].
  destruct (Z.leb_spec N off) as [|HoN]; [by eauto|].
  rw LONG_MASK_land; [|split; lia].
  rw (wrap_small 64 (N - _)); [|split; zdm].
  set (p := off / 64). assert (off = 64 * p + off mod 64) as Hdm by (subst p; zdm).
  assert (0 ≤ off mod 64 < 64) by zdm. case_if.
  - destruct (rd_in addr p) as [w Hw]; [lia|]. rw Hw. cbn [mbind option_bind].
    pose proof (words_rd _ _ _ Hwords Hw) as Hww.
    set (t := Z.land w _).
    assert (in_width 64 t) as Ht by (apply in_width_land; [lia|done|apply in_width_bshl; lia]).
    assert (∀ i, 0 ≤ i < 64 → Z.testbit t i = (off <=? 64 * p + i) && f (64 * p + i)) as Hg.
    { intros i Hi. rw Z.land_spec (testbit_high_mask (off mod 64)); [|lia..].
      rw (bitat_word _ _ _ _ Hw) // andb_comm. f_equal. lia. }
    case_if.
    { eexists. split; [done|]. apply found_first_next; [lia|lia|lia|done|done|lia]. }
    case_if.
    { eexists. split; [done|]. apply found_middle_next; [lia|lia|done|done|done|lia]. }
    rw !wrap_small; [|split; lia..].
    destruct (decide (64 * p + 64 ≤ N)); [|lia].
    apply find_bit_words_next; [lia|lia|lia|lia|lia|].
    intros j Hj.
    pose proof (zero_word (λ j, (off <=? j) && f j) t (64 * p) Ht Heqb1 Hg j) as Hz.
    cbv beta in Hz. specialize (Hz ltac:(lia)). destruct (f j); lia.
  - apply find_bit_words_next; [lia|lia|lia|lia|lia|]. lia.
Qed.
End search.

Lemma find_first_bit_next addr N :
  words addr → covers addr N →
  ∃ r, find_first_bit addr N = Some r ∧ is_next (bitat addr) 0 N r.
Proof.
  intros Hw Hc. destruct (Hc) as [[H0 _] _].
  apply find_bit_words_next; [done|done|lia|lia|done|lia|lia|lia|lia].
Qed.

(** ** Zero searches are searches in the complement *)

Lemma rd_fmap {A B} (g : A → B) (l : list A) k : rd (g <$> l) k = g <$> rd l k.
Proof. rw /rd length_fmap. case_if; [|done]. apply list_lookup_fmap. Qed.

Lemma bnot_eq_0 x : in_width 64 x → (bnot 64 x =? 0) = (x =? Z.ones 64).
Proof.
  intros Hx. apply Bool.eq_true_iff_eq. rw !Z.eqb_eq. split.
  - intros H. apply (word_ext 64); [done|done|by apply in_width_ones|].
    intros i Hi. rw testbit_ones //.
    pose proof (f_equal (λ z, Z.testbit z i) H) as Hb. cbv beta in Hb.
    rw testbit_bnot // in Hb; [|lia]. rw Z.bits_0 in Hb.
    destruct (Z.testbit x i); lia.
  - intros ->. done.
Qed.

Lemma bnot_found_first tmp size :
  in_width 64 tmp → 0 ≤ size < 64 →
  bnot 64 (Z.lor tmp (bshl 64 (Z.ones 64) size)) =
  Z.land (bnot 64 tmp) (Z.shiftr (Z.ones 64) (BITS_PER_LONG - size)).
Proof.
  intros Ht Hs. apply (word_ext 64); [done|by apply in_width_bnot| |].
  - apply in_width_land; [done|by apply in_width_bnot|by apply Z.shiftr_nonneg].
  - intros i Hi. rw testbit_bnot; [|lia..]. rw Z.lor_spec Z.land_spec.
    rw testbit_high_mask; [|lia..]. rw testbit_low_mask; [|lia..].
    rw testbit_bnot; [|lia..]. destruct (Z.testbit tmp i); lia.
Qed.

Lemma bnot_found_middle tmp off :
  in_width 64 tmp → 0 ≤ off < 64 →
  bnot 64 (Z.lor tmp (Z.shiftr (Z.ones 64) (BITS_PER_LONG - off))) =
  Z.land (bnot 64 tmp) (bshl 64 (Z.ones 64) off).
Proof.
  intros Ht Hs. apply (word_ext 64); [done|by apply in_width_bnot| |].
  - apply in_width_land; [done|by apply in_width_bnot|by apply in_width_bshl].
  - intros i Hi. rw testbit_bnot; [|lia..]. rw Z.lor_spec Z.land_spec.
    rw testbit_high_mask; [|lia..]. rw testbit_low_mask; [|lia..].
    rw testbit_bnot; [|lia..]. destruct (Z.testbit tmp i); lia.
Qed.

Lemma found_first_zero_bnot tmp result size :
  in_width 64 tmp → 0 ≤ size < 64 →
  found_first_zero tmp result size = found_first (bnot 64 tmp) result size.
Proof.
  intros Ht Hs. rw /found_first_zero /found_first /ffz -bnot_found_first //.
  rw bnot_eq_0 //. apply in_width_lor; [done|done|by apply in_width_bshl].
Qed.

Lemma find_zero_bit_words_bnot addr p result size :
  words addr → in_width 64 size →
  find_zero_bit_words addr p result size =
  find_bit_words (bnot 64 <$> addr) p result size.
Proof.
  intros Hw Hs. rw /find_zero_bit_words /find_bit_words.
  set (body' := λ '(p, result, size), if Z.land size LONG_MASK =? 0 then _ else
      tmp ← rd (bnot 64 <$> addr) p; _).
  rw (loop_ext _ body').
  2: { intros [[p' r'] s']. rw /body' rd_fmap. case_if; [done|].
       by destruct (rd addr p') as [w|]. }
  destruct (loop _ body' _) as [[res|[[p' r'] s']]|] eqn:E; [done| |done].
  cbn [mbind option_bind]. rw rd_fmap.
  apply (loop_last (λ st, in_width 64 (snd st))) in E as ([[p1 r1] s1] & Hs1 & E).
  - rw /body' in E. move: E. case_if; [intros [= -> -> ->]|].
    + rw LONG_MASK_land // in Heqb. simpl in Hs1. case_if; [done|].
      destruct (rd addr p') as [w|] eqn:Hr; [|done]. cbn.
      rw found_first_zero_bnot //; [by eapply words_rd|]. destruct Hs1. zdm.
    + destruct (rd _ p1); [|done]. cbn. by case_if.
  - done.
  - intros [[p1 r1] s1] [[p2 r2] s2] _. rw /body'. case_if; [done|].
    destruct (rd _ p1); [|done]. cbn. case_if; [done|].
    intros [= <- <- <-]. simpl. by apply in_width_wrap.
Qed.

Lemma find_next_zero_bit_bnot addr size offset :
  words addr → in_width 64 size → in_width 64 offset →
  find_next_zero_bit addr size offset = find_next_bit (bnot 64 <$> addr) size offset.
Proof.
  intros Hw Hs Ho. rw /find_next_zero_bit /find_next_bit. case_if; [done|].
  rw rd_fmap. case_if.
  - destruct (rd addr _) as [w|] eqn:Hr; [|done]. cbn [mbind option_bind fmap option_map option_fmap].
    pose proof (words_rd _ _ _ Hw Hr) as Hww.
    unfold BITS_PER_LONG in *. case_if.
    + rw found_first_zero_bnot.
      * rw (bnot_found_middle w) //. zdm.
      * apply in_width_lor; [done|done|]. by apply in_width_shiftr; [|apply in_width_ones|zdm].
      * pose proof (in_width_wrap 64 (size - Z.land offset LONG_MASK) ltac:(lia)) as [? _]. lia.
    + rw /ffz (bnot_found_middle w); [|done|zdm]. case_if; [done|].
      apply find_zero_bit_words_bnot; [done|by apply in_width_wrap].
  - apply find_zero_bit_words_bnot; [done|by apply in_width_wrap].
Qed.

Lemma words_bnot addr : words (bnot 64 <$> addr).
Proof. apply Forall_fmap, Forall_forall. intros. by apply in_width_bnot. Qed.

Lemma bitat_bnot addr i :
  0 ≤ i < 64 * Z.of_nat (length addr) → bitat (bnot 64 <$> addr) i = negb (bitat addr i).
Proof.
  intros Hi. rw /bitat rd_fmap.
  destruct (rd_in addr (i / 64)) as [w ->]; [zdm|]. cbn.
  rw testbit_bnot; [|zdm..]. rw (proj2 (Z.ltb_lt (i mod 64) 64)); [|zdm]. by rw andb_true_r.
Qed.

Lemma covers_bnot addr N : covers addr N → covers (bnot 64 <$> addr) N.
Proof. by rw /covers length_fmap. Qed.

Lemma find_next_zero_bit_next addr N off :
  words addr → covers addr N → in_width 64 off →
  ∃ r, find_next_zero_bit addr N off = Some r ∧
    if N <=? off then r = N else is_next (λ i, negb (bitat addr i)) off N r.
Proof.
  intros Hw Hc [Ho Ho']. destruct (Hc) as [[HN Hl] HN'].
  rw find_next_zero_bit_bnot //.
  destruct (find_next_bit_next (bnot 64 <$> addr) off N) as (r & -> & Hr);
    [apply words_bnot|by apply covers_bnot|done|done|].
  exists r. split; [done|]. case_if; [done|].
  eapply is_next_ext; [|done]. intros j Hj. apply bitat_bnot. lia.
Qed.

Lemma find_first_zero_bit_next addr N :
  words addr → covers addr N →
  ∃ r, find_first_zero_bit addr N = Some r ∧ is_next (λ i, negb (bitat addr i)) 0 N r.
Proof.
  intros Hw Hc. destruct (Hc) as [[HN Hl] HN'].
  rw /find_first_zero_bit find_zero_bit_words_bnot //.
  destruct (find_first_bit_next (bnot 64 <$> addr) N) as (r & Hr & Hn);
    [apply words_bnot|by apply covers_bnot|].
  exists r. split; [done|]. eapply is_next_ext; [|done]. intros j Hj. apply bitat_bnot. lia.
Qed.

(** ** The last set bit *)

(** The highest set bit of a word whose bits are those of [g] from [base] on. *)
Lemma fls_word (g : Z → bool) tmp base :
  in_width 64 tmp → tmp ≠ 0 →
  (∀ i, 0 ≤ i < 64 → Z.testbit tmp i = g (base + i)) →
  base ≤ base + __fls tmp < base + 64 ∧ g (base + __fls tmp) = true ∧
  ∀ j, base + __fls tmp < j < base + 64 → g j = false.
Proof.
  intros Hw Hne Hg. destruct (fls64_spec tmp Hw Hne) as [(H0 & Ht & Hl) Hlt].
  split_and!; [lia|lia|by rw -Hg|].
  intros j Hj. replace j with (base + (j - base)) by lia. rw -Hg; [apply Hl; lia|lia].
Qed.

Lemma find_last_bit_last addr N :
  words addr → covers addr N →
  ∃ r, find_last_bit addr N = Some r ∧ is_last (bitat addr) N r.
Proof.
  intros Hw [[HN Hlen] HN']. rw /find_last_bit. unfold BITS_PER_LONG.
  change (64 - 1) with (Z.ones 6). rw (land_ones_wrap 6) // /wrap. change (2 ^ 6) with 64.
  set (k := N / 64). assert (N = 64 * k + N mod 64) as HNk by (subst k; zdm).
  assert (0 ≤ N mod 64 < 64) as Hrem by zdm.
  (* the word loop, when nothing is set at or above [64 * n] *)
  assert (∀ n : Z, 0 ≤ n ≤ k → (∀ j, 64 * n ≤ j < N → bitat addr j = false) →
    ∃ r, loop (S (Z.to_nat n)) (λ words, if words =? 0 then Some (Stop N) else
             tmp ← rd addr (words - 1);
             if negb (tmp =? 0) then Some (Stop ((words - 1) * 64 + __fls tmp))
             else Some (Next (words - 1))) n = Some r ∧ is_last (bitat addr) N r) as Hloop.
  { intros n Hn Hnone.
    eapply (loop_inv (λ n, 0 ≤ n ≤ k ∧ ∀ j, 64 * n ≤ j < N → bitat addr j = false) Z.to_nat);
      [|done|lia].
    clear n Hn Hnone. intros n [Hn Hnone]. case_if.
    { right. eexists. split; [done|]. right. split; [done|]. intros j Hj. apply Hnone. lia. }
    destruct (rd_in addr (n - 1)) as [w Hr]; [lia|]. rw Hr. cbn [mbind option_bind]. case_if.
    - right. eexists. split; [done|].
      destruct (fls_word (bitat addr) w (64 * (n - 1))) as (H1 & H2 & H3);
        [by eapply words_rd|done|by intros; rw (bitat_word _ _ _ _ Hr)|].
      replace ((n - 1) * 64) with (64 * (n - 1)) by lia. left. split_and!; [lia|lia|done|].
      intros j Hj. destruct (decide (j < 64 * n)); [apply H3; lia|apply Hnone; lia].
    - left. eexists. split; [done|]. split; [|lia]. split; [lia|]. intros j Hj.
      destruct (decide (j < 64 * n)); [|apply Hnone; lia]. subst w.
      replace j with (64 * (n - 1) + (j - 64 * (n - 1))) by lia.
      rw (bitat_word _ _ _ _ Hr); [apply Z.bits_0|lia]. }
  case_if; [|apply Hloop; lia].
  destruct (rd_in addr k) as [w Hr]; [lia|]. rw Hr. cbn [mbind option_bind].
  set (t := Z.land w _).
  assert (in_width 64 t) as Ht.
  { apply in_width_land; [done|by eapply words_rd|by apply Z.shiftr_nonneg]. }
  assert (∀ i, 0 ≤ i < 64 → Z.testbit t i = (64 * k + i <? N) && bitat addr (64 * k + i)) as Hg.
  { intros i Hi. rw Z.land_spec (testbit_low_mask (N mod 64)); [|lia..].
    rw (bitat_word _ _ _ _ Hr) // andb_comm. f_equal. lia. }
  case_if.
  - eexists. split; [done|]. left.
    destruct (fls_word (λ j, (j <? N) && bitat addr j) t (64 * k)) as (H1 & H2 & H3);
      [done|done|done|]. cbv beta in *. zbool.
    replace (k * 64) with (64 * k) by lia. split_and!; [lia|lia|done|].
    intros j Hj. specialize (H3 j ltac:(lia)). destruct (bitat addr j); lia.
  - apply Hloop; [lia|]. intros j Hj.
    pose proof (zero_word (λ j, (j <? N) && bitat addr j) t (64 * k) Ht Heqb0 Hg j) as Hz.
    cbv beta in Hz. specialize (Hz ltac:(lia)). destruct (bitat addr j); lia.
Qed.
