(* ===== verification/Bitmap.v ===== *)
(** * Word-wise bitmap operations: lib/bitmap.c

    A bitmap is the list of its 64-bit words.  The predicates, the logical
    operations, the shifts (also in place), the weight, range set and clear and
    the search for a zero area.  Signed [int] values are unbounded integers: the
    theorems bound the sizes so that no C operation overflows. *)
From S2P Require Import Prelude Bitops FindBit.

(** ** Definitions *)

Definition BITMAP_FIRST_WORD_MASK (start : Z) : Z := bshl 64 (Z.ones 64) (Z.rem start 64).

Definition BITMAP_LAST_WORD_MASK (nbits : Z) : Z :=
  if negb (Z.rem nbits 64 =? 0) then bshl 64 1 (Z.rem nbits 64) - 1 else Z.ones 64.

(** The shape shared by the five predicates: [test k] is the condition of the
    word loop; [last k] is the value masked in the last, partial word. *)
Definition scan_bits (bits : Z) (test : Z → option bool) (last : Z → option Z)
    (hit miss : Z) : option Z :=
  let lim := bits ÷ BITS_PER_LONG in
  c ← for_up (Z.to_nat lim) 0
    (λ k _, b ← test k; if b : bool then Some (Stop hit) else Some (Next tt)) tt;
  match c with
  | Stop r => Some r
  | Next _ =>
      if negb (Z.rem bits BITS_PER_LONG =? 0) then
        v ← last lim;
        if negb (Z.land v (BITMAP_LAST_WORD_MASK bits) =? 0) then Some hit else Some miss
      else Some miss
  end.

Definition __bitmap_empty (bitmap : list Z) (bits : Z) : option Z :=
  scan_bits bits
    (λ k, w ← rd bitmap k; Some (negb (w =? 0)))
    (λ k, rd bitmap k) 0 1.

Definition __bitmap_full (bitmap : list Z) (bits : Z) : option Z :=
  scan_bits bits
    (λ k, w ← rd bitmap k; Some (negb (bnot 64 w =? 0)))
    (λ k, w ← rd bitmap k; Some (bnot 64 w)) 0 1.

Definition __bitmap_equal (bitmap1 bitmap2 : list Z) (bits : Z) : option Z :=
  scan_bits bits
    (λ k, w1 ← rd bitmap1 k; w2 ← rd bitmap2 k; Some (negb (w1 =? w2)))
    (λ k, w1 ← rd bitmap1 k; w2 ← rd bitmap2 k; Some (Z.lxor w1 w2)) 0 1.

Definition __bitmap_intersects (bitmap1 bitmap2 : list Z) (bits : Z) : option Z :=
  scan_bits bits
    (λ k, w1 ← rd bitmap1 k; w2 ← rd bitmap2 k; Some (negb (Z.land w1 w2 =? 0)))
    (λ k, w1 ← rd bitmap1 k; w2 ← rd bitmap2 k; Some (Z.land w1 w2)) 1 0.

Definition __bitmap_subset (bitmap1 bitmap2 : list Z) (bits : Z) : option Z :=
  scan_bits bits
    (λ k, w1 ← rd bitmap1 k; w2 ← rd bitmap2 k; Some (negb (Z.land w1 (bnot 64 w2) =? 0)))
    (λ k, w1 ← rd bitmap1 k; w2 ← rd bitmap2 k; Some (Z.land w1 (bnot 64 w2))) 0 1.

(** [for (k = 0; k < n; k++) dst[k] = val(k)]. *)
Definition fill_words (n : Z) (val : Z → option Z) (dst : list Z) : option (list Z) :=
  for_each (Z.to_nat n) 0 (λ k dst, v ← val k; wr dst k v) dst.

Definition __bitmap_complement (dst src : list Z) (bits : Z) : option (list Z) :=
  let lim := bits ÷ BITS_PER_LONG in
  dst ← fill_words lim (λ k, w ← rd src k; Some (bnot 64 w)) dst;
  if negb (Z.rem bits BITS_PER_LONG =? 0) then
    w ← rd src lim;
    wr dst lim (Z.land (bnot 64 w) (BITMAP_LAST_WORD_MASK bits))
  else Some dst.

Definition __bitmap_or (dst bitmap1 bitmap2 : list Z) (bits : Z) : option (list Z) :=
  fill_words (BITS_TO_LONGS bits)
    (λ k, w1 ← rd bitmap1 k; w2 ← rd bitmap2 k; Some (Z.lor w1 w2)) dst.

Definition __bitmap_xor (dst bitmap1 bitmap2 : list Z) (bits : Z) : option (list Z) :=
  fill_words (BITS_TO_LONGS bits)
    (λ k, w1 ← rd bitmap1 k; w2 ← rd bitmap2 k; Some (Z.lxor w1 w2)) dst.

(** The loops of [__bitmap_and] and [__bitmap_andnot]: the words are also
    or-ed into [result], whose truth value is returned. *)
Definition fill_words_result (n : Z) (val : Z → option Z) (dst : list Z)
  : option (list Z * Z) :=
  '(dst, result) ← for_each (Z.to_nat n) 0
    (λ k '(dst, result), v ← val k; dst' ← wr dst k v; Some (dst', Z.lor result v)) (dst, 0);
  Some (dst, if negb (result =? 0) then 1 else 0).

Definition __bitmap_and (dst bitmap1 bitmap2 : list Z) (bits : Z) : option (list Z * Z) :=
  fill_words_result (BITS_TO_LONGS bits)
    (λ k, w1 ← rd bitmap1 k; w2 ← rd bitmap2 k; Some (Z.land w1 w2)) dst.

Definition __bitmap_andnot (dst bitmap1 bitmap2 : list Z) (bits : Z) : option (list Z * Z) :=
  fill_words_result (BITS_TO_LONGS bits)
    (λ k, w1 ← rd bitmap1 k; w2 ← rd bitmap2 k; Some (Z.land w1 (bnot 64 w2))) dst.

Definition __bitmap_weight (bitmap : list Z) (bits : Z) : option Z :=
  let lim := bits ÷ BITS_PER_LONG in
  w ← for_each (Z.to_nat lim) 0 (λ k w, v ← rd bitmap k; Some (w + hweight_long v)) 0;
  if negb (Z.rem bits BITS_PER_LONG =? 0) then
    v ← rd bitmap lim; Some (w + hweight_long (Z.land v (BITMAP_LAST_WORD_MASK bits)))
  else Some w.

(** [bitmap_set] and [bitmap_clear]: [p] is the word index; [upd] is
    [*p |= mask] or [*p &= ~mask]. *)
Definition bitmap_range (upd : Z → Z → Z) (map : list Z) (start nr : Z) : option (list Z) :=
  let size := start + nr in
  loop (S (S (Z.to_nat (nr / 64))))
    (λ '(map, p, nr, bits_to_set, mask_to_set),
       if 0 <=? nr - bits_to_set then
         w ← rd map p;
         map' ← wr map p (upd w mask_to_set);
         Some (Next (map', p + 1, nr - bits_to_set, BITS_PER_LONG, Z.ones 64))
       else if negb (nr =? 0) then
         let mask_to_set := Z.land mask_to_set (BITMAP_LAST_WORD_MASK size) in
         w ← rd map p;
         map' ← wr map p (upd w mask_to_set);
         Some (Stop map')
       else Some (Stop map))
    (map, BIT_WORD start, nr, BITS_PER_LONG - Z.rem start BITS_PER_LONG,
     BITMAP_FIRST_WORD_MASK start).

Definition bitmap_set (map : list Z) (start nr : Z) : option (list Z) :=
  bitmap_range (λ w mask, Z.lor w mask) map start nr.

Definition bitmap_clear (map : list Z) (start nr : Z) : option (list Z) :=
  bitmap_range (λ w mask, Z.land w (bnot 64 mask)) map start nr.

(** [__ALIGN_MASK(x, mask)] on [unsigned long]. *)
Definition ALIGN_MASK (x mask : Z) : Z := Z.land (wrap 64 (x + mask)) (bnot 64 mask).

Definition bitmap_find_next_zero_area (map : list Z) (size start nr align_mask : Z)
  : option Z :=
  loop (S (Z.to_nat size))
    (λ start,
       index ← find_next_zero_bit map size start;
       let index := ALIGN_MASK index align_mask in
       let end_ := wrap 64 (index + nr) in
       if size <? end_ then Some (Stop end_)
       else
         i ← find_next_bit map end_ index;
         if i <? end_ then Some (Next (wrap 64 (i + 1))) else Some (Stop index))
    start.

(** *** Specification vocabulary *)

(** Some index of [0, n) satisfies [f]. *)
Definition bits_any (f : Z → bool) (n : Z) : bool := existsb f (seqZ 0 n).

Lemma bits_any_true f n : bits_any f n = true ↔ ∃ i, 0 ≤ i < n ∧ f i = true.
Proof.
  rw /bits_any existsb_exists. split; intros (i & Hi & Hf); exists i; split; try done.
  - apply list_elem_of_In, elem_of_seqZ in Hi. lia.
  - apply list_elem_of_In, elem_of_seqZ. lia.
Qed.

Lemma bits_any_false f n : bits_any f n = false ↔ ∀ i, 0 ≤ i < n → f i = false.
Proof.
  rewrite <- not_true_iff_false, bits_any_true. split.
  - intros H i Hi. destruct (f i) eqn:E; [|done]. destruct H. eauto.
  - intros H (i & Hi & Hf). rw H in Hf; done.
Qed.

(** ** Masks *)

Lemma last_word_mask bits i :
  0 ≤ bits → 0 ≤ i < 64 →
  Z.testbit (BITMAP_LAST_WORD_MASK bits) i = (Z.rem bits 64 =? 0) || (i <? bits mod 64).
Proof.
  intros Hb Hi. rw /BITMAP_LAST_WORD_MASK Z.rem_mod_nonneg //. case_if.
  - assert (bshl 64 1 (bits mod 64) = 2 ^ (bits mod 64)) as ->.
    { rw /bshl Z.shiftl_1_l land_ones_wrap // wrap_small //.
      split; [apply Z.pow_nonneg; lia|apply Z.pow_lt_mono_r; zdm]. }
    rw Z.sub_1_r -Z.ones_equiv testbit_ones; [|zdm]. lia.
  - rw testbit_ones //. lia.
Qed.

Lemma last_word_mask_nonneg bits : 0 ≤ bits → 0 ≤ BITMAP_LAST_WORD_MASK bits.
Proof.
  intros Hb. rw /BITMAP_LAST_WORD_MASK Z.rem_mod_nonneg //. case_if; [|done].
  rw /bshl Z.shiftl_1_l land_ones_wrap // wrap_small //.
  - pose proof (pow2_pos (bits mod 64) ltac:(zdm)). lia.
  - split; [apply Z.pow_nonneg; lia|apply Z.pow_lt_mono_r; zdm].
Qed.

Lemma first_word_mask start i :
  0 ≤ start → 0 ≤ i < 64 → Z.testbit (BITMAP_FIRST_WORD_MASK start) i = (start mod 64 <=? i).
Proof.
  intros Hs Hi. rw /BITMAP_FIRST_WORD_MASK Z.rem_mod_nonneg //. apply testbit_high_mask; zdm.
Qed.

(** ** The predicates *)

(** One proof for the five predicates: [f i] says that bit [i] is a hit. *)
Lemma scan_bits_spec (f : Z → bool) bits test last hit miss :
  0 ≤ bits →
  (∀ k, 0 ≤ k < BITS_TO_LONGS bits → ∃ v, last k = Some v ∧ in_width 64 v ∧
     test k = Some (negb (v =? 0)) ∧
     ∀ i, 0 ≤ i < 64 → 64 * k + i < 64 * BITS_TO_LONGS bits → Z.testbit v i = f (64 * k + i)) →
  scan_bits bits test last hit miss = Some (if bits_any f bits then hit else miss).
Proof.
  intros Hb Hv. rw /scan_bits. unfold BITS_PER_LONG.
  rw Z.quot_div_nonneg // Z.rem_mod_nonneg //.
  assert (BITS_TO_LONGS bits = if bits mod 64 =? 0 then bits / 64 else bits / 64 + 1) as HL.
  { rw /BITS_TO_LONGS. case_if; zdm. }
  destruct (for_up_inv (λ k _, ∀ j, 0 ≤ j < 64 * k → f j = false)
    (λ r, r = hit ∧ bits_any f bits = true) (Z.to_nat (bits / 64)) 0
    (λ k _, b ← test k; if b : bool then Some (Stop hit) else Some (Next tt)) tt)
    as [([] & -> & HI)|(r & -> & -> & Hany)].
  - lia.
  - intros k [] Hk HI. destruct (Hv k) as (v & _ & Hw & Ht & Hf).
    { rw HL. case_if; zdm. }
    rw Ht. cbn [mbind option_bind]. destruct (Z.eqb_spec v 0) as [->|Hne]; simpl.
    + left. eexists. split; [done|]. intros j Hj.
      destruct (decide (j < 64 * k)); [apply HI; lia|].
      replace j with (64 * k + (j - 64 * k)) by lia. rw -Hf; [apply Z.bits_0|lia|].
      rw HL. case_if; zdm.
    + right. eexists. split; [done|]. split; [done|]. apply bits_any_true.
      destruct (lowest_set_ex v Hw Hne) as (n & (Hn & Hn' & _) & Hlt).
      exists (64 * k + n). split; [zdm|]. rw -Hf //. rw HL. case_if; zdm.
  - cbn [mbind option_bind]. rw Z.add_0_l Z2Nat.id in HI; [|apply Z.div_pos; lia]. case_if.
    + destruct (Hv (bits / 64)) as (v & -> & Hw & _ & Hf).
      { rw HL. case_if; zdm. }
      cbn [mbind option_bind]. set (t := Z.land v _).
      assert (in_width 64 t) as Ht.
      { apply in_width_land; [done|done|by apply last_word_mask_nonneg]. }
      assert (∀ i, 0 ≤ i < 64 →
        Z.testbit t i = (64 * (bits / 64) + i <? bits) && f (64 * (bits / 64) + i)) as Hg.
      { intros i Hi. rw Z.land_spec last_word_mask // Hf //; [|rw HL; case_if; zdm].
        rw Z.rem_mod_nonneg // andb_comm. f_equal. zdm. }
      case_if.
      * destruct (lowest_set_ex t Ht Heqb0) as (n & (Hn & Hn' & _) & Hlt).
        rw Hg // in Hn'. zbool. f_equal.
        by rw (proj2 (bits_any_true f bits)); [|exists (64 * (bits / 64) + n); split; [zdm|done]].
      * rw (proj2 (bits_any_false f bits)); [done|]. intros i Hi.
        destruct (decide (i < 64 * (bits / 64))); [apply HI; lia|].
        pose proof (zero_word (λ j, (j <? bits) && f j) t (64 * (bits / 64)) Ht Heqb0 Hg i) as Hz.
        cbv beta in Hz. specialize (Hz ltac:(zdm)). destruct (f i); lia.
    + rw (proj2 (bits_any_false f bits)); [done|]. intros i Hi. apply HI. zdm.
  - cbn. by rw Hany.
Qed.

(** A bitmap argument of [bits] bits. *)
Definition bitmap_ok (m : list Z) (bits : Z) : Prop := words m ∧ covers m bits.

Lemma bitmap_word m bits k :
  bitmap_ok m bits → 0 ≤ k < BITS_TO_LONGS bits →
  ∃ w, rd m k = Some w ∧ in_width 64 w ∧
    ∀ i, 0 ≤ i < 64 → Z.testbit w i = bitat m (64 * k + i).
Proof.
  intros [Hw [[Hb Hl] _]] Hk. destruct (rd_in m k) as [w Hr].
  { unfold BITS_TO_LONGS in Hk. zdm. }
  exists w. split_and!; [done|by eapply words_rd|]. intros i Hi. by rw (bitat_word _ _ _ _ Hr).
Qed.

Lemma bitmap_ok_nonneg m bits : bitmap_ok m bits → 0 ≤ bits.
Proof. intros [_ [[? _] _]]. done. Qed.
#[export] Hint Resolve bitmap_ok_nonneg : width.

Lemma lxor_eq_0 x y : (x =? y) = (Z.lxor x y =? 0).
Proof. apply Bool.eq_true_iff_eq. rw !Z.eqb_eq. by rewrite -> Z.lxor_eq_0_iff. Qed.

Lemma empty_spec m bits :
  bitmap_ok m bits → __bitmap_empty m bits = Some (if bits_any (bitat m) bits then 0 else 1).
Proof.
  intros Hm. apply scan_bits_spec; [eauto with width|]. intros k Hk.
  destruct (bitmap_word m bits k Hm Hk) as (w & Hr & Hw & Hb). rw Hr. eauto 7.
Qed.

Lemma full_spec m bits :
  bitmap_ok m bits →
  __bitmap_full m bits = Some (if bits_any (λ i, negb (bitat m i)) bits then 0 else 1).
Proof.
  intros Hm. apply scan_bits_spec; [eauto with width|]. intros k Hk.
  destruct (bitmap_word m bits k Hm Hk) as (w & Hr & Hw & Hb). rw Hr.
  exists (bnot 64 w). split_and!; [done|by apply in_width_bnot|done|].
  intros i Hi _. rw testbit_bnot; [|lia..]. rw Hb // (proj2 (Z.ltb_lt i 64)) ?andb_true_r //. lia.
Qed.

(** The predicates on two bitmaps. *)
Lemma scan2_spec (op : Z → Z → Z) (g : bool → bool → bool) test m1 m2 bits hit miss :
  bitmap_ok m1 bits → bitmap_ok m2 bits →
  (∀ x y, in_width 64 x → in_width 64 y → in_width 64 (op x y) ∧
     ∀ i, 0 ≤ i < 64 → Z.testbit (op x y) i = g (Z.testbit x i) (Z.testbit y i)) →
  (∀ x y, test x y = negb (op x y =? 0)) →
  scan_bits bits (λ k, w1 ← rd m1 k; w2 ← rd m2 k; Some (test w1 w2))
    (λ k, w1 ← rd m1 k; w2 ← rd m2 k; Some (op w1 w2)) hit miss =
  Some (if bits_any (λ i, g (bitat m1 i) (bitat m2 i)) bits then hit else miss).
Proof.
  intros H1 H2 Hop Ht. apply scan_bits_spec; [eauto with width|]. intros k Hk.
  destruct (bitmap_word m1 bits k H1 Hk) as (x & -> & Hx & Hbx).
  destruct (bitmap_word m2 bits k H2 Hk) as (y & -> & Hy & Hby).
  destruct (Hop x y Hx Hy) as [Hw Hg].
  exists (op x y). split_and!; [done|done|by rw /= Ht|]. intros i Hi _. by rw Hg // Hbx // Hby.
Qed.

(** The word operations act on each bit. *)
Lemma lxor_bits x y : in_width 64 x → in_width 64 y → in_width 64 (Z.lxor x y) ∧
  ∀ i, 0 ≤ i < 64 → Z.testbit (Z.lxor x y) i = xorb (Z.testbit x i) (Z.testbit y i).
Proof. intros. split; [by apply in_width_lxor|]. intros. apply Z.lxor_spec. Qed.

Lemma lor_bits x y : in_width 64 x → in_width 64 y → in_width 64 (Z.lor x y) ∧
  ∀ i, 0 ≤ i < 64 → Z.testbit (Z.lor x y) i = Z.testbit x i || Z.testbit y i.
Proof. intros. split; [by apply in_width_lor|]. intros. apply Z.lor_spec. Qed.

Lemma land_bits x y : in_width 64 x → in_width 64 y → in_width 64 (Z.land x y) ∧
  ∀ i, 0 ≤ i < 64 → Z.testbit (Z.land x y) i = Z.testbit x i && Z.testbit y i.
Proof. intros ? [? _]. split; [by apply in_width_land|]. intros. apply Z.land_spec. Qed.

Lemma landnot_bits x y : in_width 64 x → in_width 64 y → in_width 64 (Z.land x (bnot 64 y)) ∧
  ∀ i, 0 ≤ i < 64 →
    Z.testbit (Z.land x (bnot 64 y)) i = Z.testbit x i && negb (Z.testbit y i).
Proof.
  intros ? ?. split; [apply in_width_land; [done|done|by apply in_width_bnot]|].
  intros i Hi. rw Z.land_spec testbit_bnot; [|lia..].
  by rw (proj2 (Z.ltb_lt i 64)) ?andb_true_r; [|lia].
Qed.

Lemma equal_spec m1 m2 bits :
  bitmap_ok m1 bits → bitmap_ok m2 bits →
  __bitmap_equal m1 m2 bits =
  Some (if bits_any (λ i, xorb (bitat m1 i) (bitat m2 i)) bits then 0 else 1).
Proof.
  intros. apply (scan2_spec Z.lxor); [done|done|apply lxor_bits|]. intros. by rw lxor_eq_0.
Qed.

Lemma intersects_spec m1 m2 bits :
  bitmap_ok m1 bits → bitmap_ok m2 bits →
  __bitmap_intersects m1 m2 bits =
  Some (if bits_any (λ i, bitat m1 i && bitat m2 i) bits then 1 else 0).
Proof. intros. apply (scan2_spec Z.land); [done|done|apply land_bits|done]. Qed.

Lemma subset_spec m1 m2 bits :
  bitmap_ok m1 bits → bitmap_ok m2 bits →
  __bitmap_subset m1 m2 bits =
  Some (if bits_any (λ i, bitat m1 i && negb (bitat m2 i)) bits then 0 else 1).
Proof.
  intros. apply (scan2_spec (λ x y, Z.land x (bnot 64 y)) (λ a b, a && negb b));
    [done|done|apply landnot_bits|done].
Qed.

(** ** Word loops that write *)

(** [upd_words f n m m']: [m'] is [m] with the bits of its first [n] words
    replaced by those of [f]. *)
Definition upd_words (f : Z → bool) (n : Z) (m m' : list Z) : Prop :=
  length m' = length m ∧ words m' ∧
  ∀ i, 0 ≤ i → bitat m' i = if i <? 64 * n then f i else bitat m i.

Lemma words_insert m k w : words m → in_width 64 w → words (<[k := w]> m).
Proof. intros. by apply Forall_insert. Qed.

Lemma bitat_insert m k w i :
  0 ≤ k < Z.of_nat (length m) → 0 ≤ i →
  bitat (<[Z.to_nat k := w]> m) i =
  if (64 * k <=? i) && (i <? 64 * k + 64) then Z.testbit w (i - 64 * k) else bitat m i.
Proof.
  intros Hk Hi. rw /bitat. pose proof (wr_in m k w Hk) as Hwr.
  case_if.
  - replace (i / 64) with k by zdm. rw (rd_wr_eq _ _ _ _ Hwr). f_equal. zdm.
  - rw (rd_wr_ne _ _ _ (i / 64) _ Hwr); [done|]. intros E. destruct Heqb; zbool; zdm.
Qed.

Lemma upd_words_0 f m : words m → upd_words f 0 m m.
Proof. intros. split_and!; [done|done|]. intros i Hi. case_if; [lia|done]. Qed.

Lemma upd_words_snoc f n m d v :
  upd_words f n m d → 0 ≤ n < Z.of_nat (length m) → in_width 64 v →
  (∀ i, 0 ≤ i < 64 → Z.testbit v i = f (64 * n + i)) →
  wr d n v = Some (<[Z.to_nat n := v]> d) ∧ upd_words f (n + 1) m (<[Z.to_nat n := v]> d).
Proof.
  intros (Hl & Hwd & Hb) Hn Hv Hvb. split; [apply wr_in; lia|].
  split_and!; [by rw length_insert|by apply words_insert|]. intros i Hi.
  rw bitat_insert; [|lia..]. case_if.
  - rw Hvb; [|lia]. replace (64 * n + (i - 64 * n)) with i by lia. case_if; [done|lia].
  - rw Hb //. destruct Heqb; zbool; repeat case_if; done || lia.
Qed.

Lemma upd_words_ext f g n m d :
  upd_words f n m d → (∀ i, 0 ≤ i < 64 * n → f i = g i) → upd_words g n m d.
Proof.
  intros (Hl & Hw & Hb) H. split_and!; [done|done|]. intros i Hi. rw Hb //.
  case_if; [apply H; lia|done].
Qed.

Lemma fill_words_spec (f : Z → bool) n val dst :
  words dst → 0 ≤ n ≤ Z.of_nat (length dst) →
  (∀ k, 0 ≤ k < n → ∃ v, val k = Some v ∧ in_width 64 v ∧
     ∀ i, 0 ≤ i < 64 → Z.testbit v i = f (64 * k + i)) →
  ∃ dst', fill_words n val dst = Some dst' ∧ upd_words f n dst dst'.
Proof.
  intros Hw Hn Hv. rw /fill_words.
  destruct (for_each_inv (λ k d, upd_words f k dst d) (Z.to_nat n) 0
    (λ k dst, v ← val k; wr dst k v) dst) as (d & -> & HI).
  - by apply upd_words_0.
  - intros k d Hk Hd. destruct (Hv k) as (v & -> & Hvw & Hvb); [lia|].
    destruct (upd_words_snoc f k dst d v Hd) as [E Hd']; [lia|done|done|].
    cbn [mbind option_bind]. eauto.
  - rw Z.add_0_l Z2Nat.id in HI; [|lia]. eauto.
Qed.

Lemma fill_words_result_spec (f : Z → bool) n val dst :
  words dst → 0 ≤ n ≤ Z.of_nat (length dst) →
  (∀ k, 0 ≤ k < n → ∃ v, val k = Some v ∧ in_width 64 v ∧
     ∀ i, 0 ≤ i < 64 → Z.testbit v i = f (64 * k + i)) →
  ∃ dst', fill_words_result n val dst =
    Some (dst', if bits_any f (64 * n) then 1 else 0) ∧ upd_words f n dst dst'.
Proof.
  intros Hw Hn Hv. rw /fill_words_result.
  destruct (for_each_inv (λ k '(d, r), upd_words f k dst d ∧ in_width 64 r ∧
      (r = 0 ↔ ∀ i, 0 ≤ i < 64 * k → f i = false)) (Z.to_nat n) 0
    (λ k '(dst, result), v ← val k; dst' ← wr dst k v; Some (dst', Z.lor result v)) (dst, 0))
    as ([d r] & -> & HI & Hr & Hz).
  - split; [by apply upd_words_0|]. split; [by apply in_width_0|]. split; [lia|done].
  - intros k [d r] Hk (Hd & Hrw & Hz). destruct (Hv k) as (v & -> & Hvw & Hvb); [lia|].
    destruct (upd_words_snoc f k dst d v Hd) as [E Hd']; [lia|done|done|].
    cbn [mbind option_bind]. rw E. eexists. split; [done|]. split; [done|split].
    + by apply in_width_lor.
    + rw Z.lor_eq_0_iff Hz (word_zero_iff 64) //. split.
      * intros [H1 H2] i Hi. destruct (decide (i < 64 * k)); [apply H1; lia|].
        replace i with (64 * k + (i - 64 * k)) by lia. rw -Hvb; [apply H2; lia|lia].
      * intros H. split; [intros; apply H; lia|]. intros i Hi. rw Hvb //. apply H. lia.
  - rw Z.add_0_l Z2Nat.id in HI Hz; [|lia..]. cbn [mbind option_bind].
    eexists. split; [|done]. do 2 f_equal. destruct (bits_any f (64 * n)) eqn:E.
    + destruct (Z.eqb_spec r 0) as [Hr0|]; [|done].
      apply bits_any_true in E as (i & Hi & Hf). rewrite -> (proj1 Hz Hr0) in Hf; done.
    + rewrite -> bits_any_false in E. by rw (proj2 (Z.eqb_eq r 0)); [|by apply Hz].
Qed.

(** ** Logical operations *)

Lemma covers_longs m bits : covers m bits → 0 ≤ BITS_TO_LONGS bits ≤ Z.of_nat (length m).
Proof. intros [[H0 H1] _]. rw /BITS_TO_LONGS. zdm. Qed.

Lemma bitmap_word2 (op : Z → Z → Z) (g : bool → bool → bool) m1 m2 bits k :
  bitmap_ok m1 bits → bitmap_ok m2 bits → 0 ≤ k < BITS_TO_LONGS bits →
  (∀ x y, in_width 64 x → in_width 64 y → in_width 64 (op x y) ∧
     ∀ i, 0 ≤ i < 64 → Z.testbit (op x y) i = g (Z.testbit x i) (Z.testbit y i)) →
  ∃ v, (w1 ← rd m1 k; w2 ← rd m2 k; Some (op w1 w2)) = Some v ∧ in_width 64 v ∧
     ∀ i, 0 ≤ i < 64 → Z.testbit v i = g (bitat m1 (64 * k + i)) (bitat m2 (64 * k + i)).
Proof.
  intros H1 H2 Hk Hop.
  destruct (bitmap_word m1 bits k H1 Hk) as (x & -> & Hx & Hbx).
  destruct (bitmap_word m2 bits k H2 Hk) as (y & -> & Hy & Hby).
  destruct (Hop x y Hx Hy) as [Hw Hg].
  exists (op x y). split_and!; [done|done|]. intros i Hi. by rw Hg // Hbx // Hby.
Qed.

Lemma or_spec dst m1 m2 bits :
  words dst → covers dst bits → bitmap_ok m1 bits → bitmap_ok m2 bits →
  ∃ dst', __bitmap_or dst m1 m2 bits = Some dst' ∧
    upd_words (λ i, bitat m1 i || bitat m2 i) (BITS_TO_LONGS bits) dst dst'.
Proof.
  intros Hd Hc H1 H2. apply fill_words_spec; [done|by apply covers_longs|]. intros k Hk.
  by apply (bitmap_word2 Z.lor orb _ _ bits); [..|apply lor_bits].
Qed.

Lemma xor_spec dst m1 m2 bits :
  words dst → covers dst bits → bitmap_ok m1 bits → bitmap_ok m2 bits →
  ∃ dst', __bitmap_xor dst m1 m2 bits = Some dst' ∧
    upd_words (λ i, xorb (bitat m1 i) (bitat m2 i)) (BITS_TO_LONGS bits) dst dst'.
Proof.
  intros Hd Hc H1 H2. apply fill_words_spec; [done|by apply covers_longs|]. intros k Hk.
  by apply (bitmap_word2 Z.lxor xorb _ _ bits); [..|apply lxor_bits].
Qed.

Lemma and_spec dst m1 m2 bits :
  words dst → covers dst bits → bitmap_ok m1 bits → bitmap_ok m2 bits →
  ∃ dst', __bitmap_and dst m1 m2 bits =
      Some (dst', if bits_any (λ i, bitat m1 i && bitat m2 i) (64 * BITS_TO_LONGS bits)
                  then 1 else 0) ∧
    upd_words (λ i, bitat m1 i && bitat m2 i) (BITS_TO_LONGS bits) dst dst'.
Proof.
  intros Hd Hc H1 H2. apply fill_words_result_spec; [done|by apply covers_longs|]. intros k Hk.
  by apply (bitmap_word2 Z.land andb _ _ bits); [..|apply land_bits].
Qed.

Lemma andnot_spec dst m1 m2 bits :
  words dst → covers dst bits → bitmap_ok m1 bits → bitmap_ok m2 bits →
  ∃ dst', __bitmap_andnot dst m1 m2 bits =
      Some (dst', if bits_any (λ i, bitat m1 i && negb (bitat m2 i)) (64 * BITS_TO_LONGS bits)
                  then 1 else 0) ∧
    upd_words (λ i, bitat m1 i && negb (bitat m2 i)) (BITS_TO_LONGS bits) dst dst'.
Proof.
  intros Hd Hc H1 H2. apply fill_words_result_spec; [done|by apply covers_longs|]. intros k Hk.
  by apply (bitmap_word2 (λ x y, Z.land x (bnot 64 y)) (λ a b, a && negb b) _ _ bits);
    [..|apply landnot_bits].
Qed.

Lemma complement_spec dst src bits :
  words dst → covers dst bits → bitmap_ok src bits →
  ∃ dst', __bitmap_complement dst src bits = Some dst' ∧
    upd_words (λ i, (i <? bits) && negb (bitat src i)) (BITS_TO_LONGS bits) dst dst'.
Proof.
  intros Hd Hc Hs. pose proof (bitmap_ok_nonneg _ _ Hs) as Hb.
  pose proof (covers_longs _ _ Hc) as HL.
  assert (BITS_TO_LONGS bits = if bits mod 64 =? 0 then bits / 64 else bits / 64 + 1) as HLe.
  { rw /BITS_TO_LONGS. case_if; zdm. }
  assert (bits / 64 ≤ BITS_TO_LONGS bits) by (rw HLe; case_if; lia).
  rw /__bitmap_complement. unfold BITS_PER_LONG. rw Z.quot_div_nonneg // Z.rem_mod_nonneg //.
  destruct (fill_words_spec (λ i, (i <? bits) && negb (bitat src i)) (bits / 64)
    (λ k, w ← rd src k; Some (bnot 64 w)) dst) as (d & -> & Hd'); [done|zdm| |].
  { intros k Hk. destruct (bitmap_word src bits k Hs) as (w & -> & Hw & Hwb); [lia|].
    exists (bnot 64 w). split_and!; [done|by apply in_width_bnot|].
    intros i Hi. rw testbit_bnot; [|lia..]. rw Hwb //.
    by ztest. }
  cbn [mbind option_bind]. rw HLe. case_if.
  - rw (proj2 (Z.eqb_neq (bits mod 64) 0)) //.
    destruct (bitmap_word src bits (bits / 64) Hs) as (w & -> & Hw & Hwb).
    { rw HLe. case_if; zdm. }
    cbn [mbind option_bind].
    destruct (upd_words_snoc _ _ _ _ (Z.land (bnot 64 w) (BITMAP_LAST_WORD_MASK bits)) Hd')
      as [E Hd'']; [|..|by eauto].
    + move: HL. rw HLe. case_if; zdm.
    + apply in_width_land; [done|by apply in_width_bnot|by apply last_word_mask_nonneg].
    + intros i Hi. rw Z.land_spec testbit_bnot; [|lia..]. rw last_word_mask // Hwb //.
      rw Z.rem_mod_nonneg // (proj2 (Z.eqb_neq (bits mod 64) 0)) //.
      destruct (bitat src _); [by rw /= ?andb_false_r|]. zdm.
  - rw (proj2 (Z.eqb_eq (bits mod 64) 0)) //. eauto.
Qed.

(** ** Weight *)

Lemma count_word m k w (n : nat) :
  rd m k = Some w → (n ≤ 64)%nat → 0 ≤ k →
  count (λ i, bitat m (64 * k + i)) n = count (Z.testbit w) n.
Proof. intros Hr Hn Hk. apply count_ext. intros i Hi. apply bitat_word; [done|lia]. Qed.

(** The weight is the number of set bits below [bits]. *)
Lemma weight_spec m bits :
  bitmap_ok m bits → __bitmap_weight m bits = Some (count (bitat m) (Z.to_nat bits)).
Proof.
  intros Hm. pose proof (bitmap_ok_nonneg _ _ Hm) as Hb.
  rw /__bitmap_weight. unfold BITS_PER_LONG. rw Z.quot_div_nonneg // Z.rem_mod_nonneg //.
  destruct (for_each_inv (λ k c, 0 ≤ k ∧ c = count (bitat m) (Z.to_nat (64 * k)))
    (Z.to_nat (bits / 64)) 0 (λ k w, v ← rd m k; Some (w + hweight_long v)) 0)
    as (c & -> & _ & ->); [done| |].
  - intros k c Hk [Hk0 ->].
    destruct (bitmap_word m bits k Hm) as (w & Hr & Hw & _); [rw /BITS_TO_LONGS; zdm|].
    rw Hr. eexists. split; [done|]. split; [lia|].
    rw /hweight_long hweight64_correct //.
    replace (Z.to_nat (64 * (k + 1))) with (Z.to_nat (64 * k) + 64)%nat by lia.
    rw count_add -(count_word m k w 64) //. f_equal. apply count_ext. intros i Hi. f_equal. lia.
  - rw Z.add_0_l Z2Nat.id; [|apply Z.div_pos; lia]. cbn [mbind option_bind]. case_if.
    + destruct (bitmap_word m bits (bits / 64) Hm) as (w & Hr & Hw & Hwb);
        [rw /BITS_TO_LONGS; zdm|].
      rw Hr. cbn [mbind option_bind]. f_equal. rw /hweight_long hweight64_correct.
      2: apply in_width_land; [done|done|by apply last_word_mask_nonneg].
      replace (Z.to_nat bits)
        with (Z.to_nat (64 * (bits / 64)) + Z.to_nat (bits mod 64))%nat by zdm.
      rw count_add. f_equal.
      replace 64%nat with (Z.to_nat (bits mod 64) + (64 - Z.to_nat (bits mod 64)))%nat by zdm.
      rw count_add (count_false _ (64 - _)) ?Z.add_0_r.
      * apply count_ext. intros i Hi. rw Z.land_spec last_word_mask; [|zdm..].
        rw Hwb; [|zdm]. rw (proj2 (Z.ltb_lt i (bits mod 64))); [|lia].
        rw orb_true_r andb_true_r. f_equal. zdm.
      * intros i Hi. rw Z.land_spec last_word_mask; [|zdm..].
        rw Z.rem_mod_nonneg // (proj2 (Z.eqb_neq (bits mod 64) 0)) //.
        by rw (proj2 (Z.ltb_ge _ (bits mod 64))) ?andb_false_r; [|lia].
    + do 2 f_equal. zdm.
Qed.

(** ** Setting and clearing a range *)

Section range.
Context (upd : Z → Z → Z) (g : bool → bool) (map : list Z) (start nr : Z).
(** [upd w mask] applies [g] to the bits selected by [mask]. *)
Hypothesis Hupd : ∀ w mask, in_width 64 w → in_width 64 mask → in_width 64 (upd w mask) ∧
  ∀ i, 0 ≤ i < 64 →
    Z.testbit (upd w mask) i = if Z.testbit mask i then g (Z.testbit w i) else Z.testbit w i.
Hypothesis Hmap : words map.
Hypothesis Hrange : 0 ≤ start ∧ 0 ≤ nr ∧ start + nr ≤ 64 * Z.of_nat (length map).

(** The bits of [start, hi) are done. *)
Definition range_done (hi : Z) (m : list Z) : Prop :=
  length m = length map ∧ words m ∧
  ∀ i, 0 ≤ i → bitat m i = if (start <=? i) && (i <? hi) then g (bitat map i) else bitat map i.

(** One word: the mask selects [lo, hi) of word [p]. *)
Lemma range_word m p lo hi mask :
  range_done lo m → start ≤ lo ≤ hi → 64 * p ≤ lo → hi ≤ 64 * p + 64 →
  lo < hi → 0 ≤ p < Z.of_nat (length map) → in_width 64 mask →
  (∀ i, 0 ≤ i < 64 → Z.testbit mask i = (lo <=? 64 * p + i) && (64 * p + i <? hi)) →
  ∃ w, rd m p = Some w ∧
    wr m p (upd w mask) = Some (<[Z.to_nat p := upd w mask]> m) ∧
    range_done hi (<[Z.to_nat p := upd w mask]> m).
Proof using All.
  intros (Hl & Hw & Hb) Hlo Hp Hhi Hlt Hpl Hm Hmask.
  destruct (rd_in m p) as [w Hr]; [lia|].
  assert (in_width 64 w) as Hww by by eapply words_rd.
  destruct (Hupd w mask Hww Hm) as [Hu Hub].
  exists w. split_and!; [done|apply wr_in; lia|]. split_and!.
  - by rw length_insert.
  - by apply words_insert.
  - intros i Hi. rw bitat_insert; [|lia..]. case_if.
    + rw Hub; [|lia]. rw Hmask; [|lia]. rw -(bitat_word m p w (i - 64 * p)); [|done|lia].
      replace (64 * p + (i - 64 * p)) with i by lia. rw Hb //.
      destruct (Z.leb_spec lo i); ztest; [|done]. by case_if; ztest.
    + rw Hb //. destruct Heqb as [?|?]; zbool; [|by ztest].
      destruct (Z.leb_spec start i); [|done]. by ztest.
Qed.

Lemma bitmap_range_spec : ∃ m, bitmap_range upd map start nr = Some m ∧ range_done (start + nr) m.
Proof using All.
  destruct Hrange as (Hs & Hn & Hlen).
  rw /bitmap_range. unfold BITS_PER_LONG.
  set (I := λ st : list Z * Z * Z * Z * Z, let '(m, p, n, b, mask) := st in
    let lo := start + nr - n in
    range_done lo m ∧ 0 ≤ n ∧ start ≤ lo ∧ 0 ≤ p ∧ 64 * p ≤ lo ∧ lo + b = 64 * p + 64 ∧ 0 < b ∧
    in_width 64 mask ∧ ∀ i, 0 ≤ i < 64 → Z.testbit mask i = (lo <=? 64 * p + i)).
  eapply (loop_inv I (λ '(m, p, n, b, mask), if 0 <=? n - b then S (Z.to_nat ((n - b) / 64)) else 0%nat)).
  - intros [[[[m p] n] b] mask] (Hd & Hn0 & Hlo & Hp & Hpl & Hb & Hb0 & Hmw & Hmask).
    case_if.
    + left. destruct (range_word m p (start + nr - n) (64 * p + 64) mask) as (w & -> & E & Hd');
        [done|lia|lia|lia|lia|lia|done| |].
      { intros i Hi. rw Hmask //. by ztest. }
      cbn [mbind option_bind]. rw E. eexists. split; [done|]. split.
      * replace (64 * p + 64) with (start + nr - (n - b)) in Hd' by lia.
        split_and!; [done|lia|lia|lia|lia|lia|lia|done|].
        intros i Hi. rw testbit_ones; [|lia]. by ztest.
      * ztest. case_if; zdm.
    + right. case_if.
      * set (mask' := Z.land mask _).
        assert (∀ i, 0 ≤ i < 64 → Z.testbit mask' i =
          (start + nr - n <=? 64 * p + i) && (64 * p + i <? start + nr)) as Hm'.
        { intros i Hi. rw Z.land_spec Hmask // last_word_mask; [|lia..]. f_equal.
          rw Z.rem_mod_nonneg; [|lia..]. destruct (Z.eqb_spec ((start + nr) mod 64) 0); zdm. }
        destruct (range_word m p (start + nr - n) (start + nr) mask') as (w & -> & E & Hd');
          [done|lia|lia|lia|lia|lia| |done|].
        { apply in_width_land; [done|done|apply last_word_mask_nonneg; lia]. }
        cbn [mbind option_bind]. rw E. eauto.
      * eexists. split; [done|]. by replace (start + nr) with (start + nr - n) by lia.
  - rw /BIT_WORD Z.quot_div_nonneg // Z.rem_mod_nonneg //.
    replace (start + nr - nr) with start by lia.
    split; [split_and!; [done|done|]|split_and!; [lia|lia|zdm|zdm|zdm|zdm|by apply in_width_bshl|]].
    + intros i Hi. destruct (Z.leb_spec start i); [|done]. by ztest.
    + intros i Hi. rw first_word_mask //. zdm.
  - case_if; [|lia]. rw Z.rem_mod_nonneg //. zdm.
Qed.
End range.

Lemma set_spec map start nr :
  words map → 0 ≤ start → 0 ≤ nr → start + nr ≤ 64 * Z.of_nat (length map) →
  ∃ m, bitmap_set map start nr = Some m ∧ range_done (λ _, true) map start (start + nr) m.
Proof.
  intros Hm Hs Hn Hl. apply bitmap_range_spec; [|done|done].
  intros w mask Hw Hmw. split; [by apply in_width_lor|]. intros i Hi.
  rw Z.lor_spec. by destruct (Z.testbit w i), (Z.testbit mask i).
Qed.

Lemma clear_spec map start nr :
  words map → 0 ≤ start → 0 ≤ nr → start + nr ≤ 64 * Z.of_nat (length map) →
  ∃ m, bitmap_clear map start nr = Some m ∧ range_done (λ _, false) map start (start + nr) m.
Proof.
  intros Hm Hs Hn Hl. apply bitmap_range_spec; [|done|done].
  intros w mask Hw Hmw. destruct (landnot_bits w mask Hw Hmw) as [? Hb]. split; [done|].
  intros i Hi. rw Hb //. by destruct (Z.testbit w i), (Z.testbit mask i).
Qed.

(** ** The next zero area *)

(** [r] starts an aligned area of [nr] zero bits below [size]. *)
Definition free_area (map : list Z) (size nr a r : Z) : Prop :=
  r mod 2 ^ a = 0 ∧ r + nr ≤ size ∧ ∀ j, r ≤ j < r + nr → bitat map j = false.

Lemma ALIGN_MASK_spec a x :
  0 ≤ a ≤ 64 → 0 ≤ x → x + (2 ^ a - 1) < 2 ^ 64 →
  let y := ALIGN_MASK x (2 ^ a - 1) in
  x ≤ y < x + 2 ^ a ∧ y mod 2 ^ a = 0 ∧ ∀ r, x ≤ r < y → r mod 2 ^ a ≠ 0.
Proof.
  intros Ha Hx Hlt. pose proof (pow2_pos a ltac:(lia)) as Hp. cbv zeta. rw /ALIGN_MASK.
  rw wrap_small; [|split; lia].
  rw Z.sub_1_r -Z.ones_equiv land_bnot_ones; [|lia|rw Z.ones_equiv; split; lia].
  rw Z.ones_equiv. set (P := 2 ^ a) in *. set (q := (x + Z.pred P) / P).
  pose proof (Z.div_mod (x + Z.pred P) P ltac:(lia)) as Hdm. fold q in Hdm.
  pose proof (Z.mod_pos_bound (x + Z.pred P) P Hp).
  split_and!; [lia|lia|rw Z.mul_comm; apply Z.mod_mul; lia|].
  intros r Hr Hr0. apply Z.mod_divide in Hr0 as [c ->]; [|lia].
  assert (c < q) by (apply (Z.mul_lt_mono_pos_r P); lia).
  assert (c * P ≤ (q - 1) * P) by (apply Z.mul_le_mono_nonneg_r; lia). lia.
Qed.

Lemma zero_area_spec map size start nr a :
  words map → covers map size → 0 ≤ start < 2 ^ 64 → 0 < nr → 0 ≤ a ≤ 64 →
  size + (2 ^ a - 1) + nr < 2 ^ 64 →
  ∃ r, bitmap_find_next_zero_area map size start nr (2 ^ a - 1) = Some r ∧
    (free_area map size nr a r ∧ start ≤ r ∧
       (∀ r', start ≤ r' < r → ¬ free_area map size nr a r') ∨
     size < r ∧ ∀ r', start ≤ r' → ¬ free_area map size nr a r').
Proof.
  intros Hw Hc Hstart Hnr Ha Hlt. pose proof (pow2_pos a ltac:(lia)) as Hp.
  destruct (Hc) as [[Hs0 Hlen] Hs64].
  eapply (loop_inv (λ s, start ≤ s < 2 ^ 64 ∧
    ∀ r', start ≤ r' < s → ¬ free_area map size nr a r') (λ s, Z.to_nat (size - s))); [|split|].
  - intros s [Hs Hno].
    destruct (find_next_zero_bit_next map size s) as (i0 & -> & Hi0); [done|done|split; lia|].
    cbn [mbind option_bind].
    assert (i0 ≤ size ∧ (s ≤ i0 ∨ i0 = size) ∧
      ∀ j, s ≤ j < i0 → bitat map j = true) as (Hi0s & Hsi0 & Hset).
    { move: Hi0. case_if; [intros ->; split_and!; [lia|lia|lia]|].
      intros [(? & _ & Hl)|[-> Hl]]; split_and!; try lia;
        intros j Hj; apply negb_false_iff, Hl; lia. }
    assert (0 ≤ i0) by lia.
    destruct (ALIGN_MASK_spec a i0) as (Hal & Hal0 & Hmin); [lia|lia|lia|].
    set (idx := ALIGN_MASK i0 _) in *.
    rw (wrap_small 64 (idx + nr)); [|split; lia].
    assert (∀ r', s ≤ r' < idx → ¬ free_area map size nr a r') as Hskip.
    { intros r' Hr' (Hm & Hfit & Hz). destruct (decide (r' < i0)).
      - specialize (Hset r' ltac:(lia)). rw Hz in Hset; [done|lia].
      - by apply (Hmin r'); [lia|]. }
    case_if.
    + right. eexists. split; [done|]. right. split; [lia|]. intros r' Hr' Hf.
      destruct (decide (r' < s)); [by eapply Hno; [|done]; lia|].
      destruct (decide (r' < idx)); [by eapply Hskip; [|done]; lia|].
      destruct Hf as (_ & ? & _). lia.
    + destruct (find_next_bit_next map idx (idx + nr)) as (i & -> & Hi);
        [done|split; lia|lia|lia|]. move: Hi. ztest. intros Hi.
      cbn [mbind option_bind]. destruct Hi as [(Hir & Hbit & _)|[-> Hz]].
      * ztest. left. eexists. split; [done|]. rw wrap_small; [|split; lia].
        split; [|lia]. split; [lia|]. intros r' Hr' Hf.
        destruct (decide (r' < s)); [by eapply Hno; [|done]; lia|].
        destruct (decide (r' < idx)); [by eapply Hskip; [|done]; lia|].
        destruct Hf as (_ & ? & Hz). rw Hz in Hbit; [done|lia].
      * ztest. right. eexists. split; [done|]. left.
        split; [split_and!; [done|lia|done]|split; [lia|]].
        intros r' Hr' Hf. destruct (decide (r' < s)); [by eapply Hno; [|done]; lia|].
        by eapply Hskip; [|done]; lia.
  - lia.
  - intros r' Hr'. lia.
  - lia.
Qed.
