(* ===== verification/BitmapShift.v ===== *)
(** * Logical shifts of a bitmap: __bitmap_shift_right and __bitmap_shift_left of lib/bitmap.c

    [alias] says that [dst] and [src] are the same bitmap, as in the call of
    [__bitmap_parse]: the loop then reads words it may have written. *)
From S2P Require Import Prelude Bitops FindBit Bitmap.

(** ** Definitions *)

(** [memset(&dst[k], 0, n * sizeof(unsigned long))]. *)
Definition clear_words (dst : list Z) (k n : Z) : option (list Z) :=
  for_each (Z.to_nat n) k (λ j dst, wr dst j 0) dst.

Definition __bitmap_shift_right (alias : bool) (dst src : list Z) (shift bits : Z)
  : option (list Z) :=
  let lim := BITS_TO_LONGS bits in
  let left := Z.rem bits BITS_PER_LONG in
  let off := shift ÷ BITS_PER_LONG in
  let rem := Z.rem shift BITS_PER_LONG in
  let mask := bshl 64 1 left - 1 in
  dst ← for_each (Z.to_nat (lim - off)) 0
    (λ k dst,
       let rd_src j := rd (if alias then dst else src) j in
       upper ←
         (if (rem =? 0) || (lim <=? off + k + 1) then Some 0
          else
            u ← rd_src (off + k + 1);
            Some (if (off + k + 1 =? lim - 1) && negb (left =? 0) then Z.land u mask else u));
       lower ← rd_src (off + k);
       let lower := if negb (left =? 0) && (off + k =? lim - 1)
                    then Z.land lower mask else lower in
       (* for rem == 0 the shift count is 64, but then upper == 0 *)
       let v := Z.lor (bshl 64 upper (BITS_PER_LONG - rem)) (Z.shiftr lower rem) in
       let v := if negb (left =? 0) && (k =? lim - 1) then Z.land v mask else v in
       wr dst k v) dst;
  if negb (off =? 0) then clear_words dst (lim - off) off else Some dst.

Definition __bitmap_shift_left (alias : bool) (dst src : list Z) (shift bits : Z)
  : option (list Z) :=
  let lim := BITS_TO_LONGS bits in
  let left := Z.rem bits BITS_PER_LONG in
  let off := shift ÷ BITS_PER_LONG in
  let rem := Z.rem shift BITS_PER_LONG in
  dst ← for_each (Z.to_nat (lim - off)) 0
    (λ t dst,
       let k := lim - off - 1 - t in
       let rd_src j := rd (if alias then dst else src) j in
       lower ← (if negb (rem =? 0) && (0 <? k) then rd_src (k - 1) else Some 0);
       upper ← rd_src k;
       let upper := if negb (left =? 0) && (k =? lim - 1)
                    then Z.land upper (bshl 64 1 left - 1) else upper in
       let v := Z.lor (Z.shiftr lower (BITS_PER_LONG - rem)) (bshl 64 upper rem) in
       let v := if negb (left =? 0) && (k + off =? lim - 1)
                then Z.land v (bshl 64 1 left - 1) else v in
       wr dst (k + off) v) dst;
  if negb (off =? 0) then clear_words dst 0 off else Some dst.

(** The bits of the words [lo, hi) of [m] are replaced by those of [f]. *)
Definition upd_between (f : Z → bool) (lo hi : Z) (m m' : list Z) : Prop :=
  length m' = length m ∧ words m' ∧
  ∀ i, 0 ≤ i →
    bitat m' i = if (64 * lo <=? i) && (i <? 64 * hi) then f i else bitat m i.

(** ** Lemmas on updated words *)

Lemma upd_between_nil f k m : words m → upd_between f k k m m.
Proof. intros. split_and!; [done|done|]. intros i Hi. case_if; [lia|done]. Qed.

Lemma upd_between_write f lo hi k m d v :
  upd_between f lo hi m d → (k = hi ∨ k = lo - 1) → lo ≤ hi → 0 ≤ k < Z.of_nat (length m) →
  in_width 64 v → (∀ i, 0 ≤ i < 64 → Z.testbit v i = f (64 * k + i)) →
  wr d k v = Some (<[Z.to_nat k := v]> d) ∧
  upd_between f (Z.min lo k) (Z.max hi (k + 1)) m (<[Z.to_nat k := v]> d).
Proof.
  intros (Hl & Hwd & Hb) Hk Hlh Hkl Hv Hvb. split; [apply wr_in; lia|].
  split_and!; [by rw length_insert|by apply words_insert|]. intros i Hi.
  rw bitat_insert; [|lia..]. case_if.
  - rw Hvb; [|lia]. replace (64 * k + (i - 64 * k)) with i by lia. by ztest.
  - rw Hb //. destruct Heqb; zbool; repeat case_if; zbool; try done;
      repeat match goal with H : _ ∨ _ |- _ => destruct H; zbool end; lia.
Qed.

Lemma upd_between_glue f lo mid hi m m' m'' :
  upd_between f lo mid m m' → upd_between f mid hi m' m'' → lo ≤ mid ≤ hi →
  upd_between f lo hi m m''.
Proof.
  intros (Hl & Hw & Hb) (Hl' & Hw' & Hb') Hle. split_and!; [congruence|done|].
  intros i Hi. rw Hb' // Hb //. repeat case_if; zbool; try done;
    repeat match goal with H : _ ∨ _ |- _ => destruct H; zbool end; lia.
Qed.

Lemma upd_between_glue_r f lo mid hi m m' m'' :
  upd_between f mid hi m m' → upd_between f lo mid m' m'' → lo ≤ mid ≤ hi →
  upd_between f lo hi m m''.
Proof.
  intros (Hl & Hw & Hb) (Hl' & Hw' & Hb') Hle. split_and!; [congruence|done|].
  intros i Hi. rw Hb' // Hb //. repeat case_if; zbool; try done;
    repeat match goal with H : _ ∨ _ |- _ => destruct H; zbool end; lia.
Qed.

Lemma upd_between_words f n m m' : upd_between f 0 n m m' → upd_words f n m m'.
Proof.
  intros (Hl & Hw & Hb). split_and!; [done|done|]. intros i Hi. rw Hb //. by ztest.
Qed.

(** A word outside the updated ones is unchanged. *)
Lemma upd_between_rd f lo hi m d j :
  words m → upd_between f lo hi m d → j < lo ∨ hi ≤ j → rd d j = rd m j.
Proof.
  intros Hm (Hl & Hw & Hb) Hj. destruct (decide (0 ≤ j < Z.of_nat (length m))) as [Hin|Hout].
  - destruct (rd_in m j) as [w Hr]; [done|]. destruct (rd_in d j) as [w' Hr']; [lia|].
    rw Hr Hr'. f_equal. apply (word_ext 64); [done|exact (words_rd _ _ _ Hw Hr')|exact (words_rd _ _ _ Hm Hr)|].
    intros i Hi. rw -(bitat_word _ _ _ _ Hr' Hi) -(bitat_word _ _ _ _ Hr Hi) Hb; [|lia].
    case_if; [lia|done].
  - destruct (rd d j) eqn:E; [apply rd_lt in E; lia|].
    destruct (rd m j) eqn:E'; [apply rd_lt in E'; lia|done].
Qed.

Lemma clear_words_spec f dst k n :
  words dst → 0 ≤ k → 0 ≤ n → k + n ≤ Z.of_nat (length dst) →
  (∀ i, 64 * k ≤ i < 64 * (k + n) → f i = false) →
  ∃ d, clear_words dst k n = Some d ∧ upd_between f k (k + n) dst d.
Proof.
  intros Hw Hk Hn Hlen Hf. rw /clear_words.
  destruct (for_each_inv (λ j d, upd_between f k j dst d ∧ k ≤ j) (Z.to_nat n) k
    (λ j dst, wr dst j 0) dst) as (d & -> & HI & _).
  - split; [by apply upd_between_nil|lia].
  - intros j d Hj [Hd Hkj].
    destruct (upd_between_write f k j j dst d 0 Hd) as [-> Hd']; [lia|lia|lia|by apply in_width_0| |].
    + intros i Hi. rw Z.bits_0 Hf //. lia.
    + eexists. split; [done|]. split; [|lia].
      by rw Z.min_l ?Z.max_r in Hd'; [|lia..].
  - rw Z2Nat.id // in HI. eauto.
Qed.

(** Masking the last word leaves the bits below [bits]. *)
Lemma testbit_left_mask left i :
  0 < left < 64 → 0 ≤ i < 64 → Z.testbit (bshl 64 1 left - 1) i = (i <? left).
Proof.
  intros Hl Hi. assert (bshl 64 1 left = 2 ^ left) as ->.
  { rw /bshl Z.shiftl_1_l land_ones_wrap // wrap_small //.
    split; [apply Z.pow_nonneg; lia|apply Z.pow_lt_mono_r; lia]. }
  rw Z.sub_1_r -Z.ones_equiv testbit_ones; [|lia]. by ztest.
Qed.

Lemma left_mask_nonneg left : 0 < left < 64 → 0 ≤ bshl 64 1 left - 1.
Proof.
  intros Hl. rw /bshl Z.shiftl_1_l land_ones_wrap // wrap_small.
  - pose proof (pow2_pos left ltac:(lia)). lia.
  - split; [apply Z.pow_nonneg; lia|apply Z.pow_lt_mono_r; lia].
Qed.

Section shift.
Context (alias : bool) (dst src : list Z) (shift bits : Z).
Hypothesis Hdst : words dst.
Hypothesis Hdcov : covers dst bits.
Hypothesis Hsrc : bitmap_ok src bits.
Hypothesis Halias : if alias then dst = src else True.
Hypothesis Hshift : 0 ≤ shift ≤ 64 * BITS_TO_LONGS bits.

Local Abbreviation lim := (BITS_TO_LONGS bits).

(** The source word [j], masked to [bits] when it is the last one. *)
Definition src_word (j : Z) (w : Z) : Prop :=
  in_width 64 w ∧
  ∀ i, 0 ≤ i < 64 → Z.testbit w i = (64 * j + i <? bits) && bitat src (64 * j + i).

Lemma masked_word j w (cond : bool) :
  rd src j = Some w → 0 ≤ j < lim → cond = (j =? lim - 1) && negb (bits mod 64 =? 0) →
  src_word j (if cond then Z.land w (bshl 64 1 (bits mod 64) - 1) else w).
Proof using All.
  intros Hr Hj ->. destruct Hsrc as [Hw [[Hb _] _]].
  assert (in_width 64 w) by exact (words_rd _ _ _ Hw Hr).
  unfold BITS_TO_LONGS in *. case_if.
  - assert (0 < bits mod 64 < 64) by zdm. split.
    + apply in_width_land; [done|done|by apply left_mask_nonneg].
    + intros i Hi. rw Z.land_spec testbit_left_mask // (bitat_word _ _ _ _ Hr) // andb_comm.
      f_equal. zdm.
  - split; [done|]. intros i Hi. rw (bitat_word _ _ _ _ Hr) //.
    destruct Heqb; zbool; by ztest.
Qed.

(** Reading the source in a state where the words [lo, hi) are written. *)
Lemma rd_src f lo hi d j :
  upd_between f lo hi dst d → j < lo ∨ hi ≤ j →
  rd (if alias then d else src) j = rd src j.
Proof using All.
  intros Hd Hj. destruct alias; [|done]. rw (upd_between_rd f lo hi dst) // Halias //.
Qed.

(** Masking the last word of the result keeps the bits of [f] below [bits]. *)
Lemma mask_last (f : Z → bool) k v (cond : bool) :
  in_width 64 v → (∀ i, 0 ≤ i < 64 → Z.testbit v i = f (64 * k + i)) →
  (∀ i, bits ≤ i → f i = false) → cond = negb (bits mod 64 =? 0) && (k =? lim - 1) →
  let v' := if cond then Z.land v (bshl 64 1 (bits mod 64) - 1) else v in
  in_width 64 v' ∧ ∀ i, 0 ≤ i < 64 → Z.testbit v' i = f (64 * k + i).
Proof using All.
  intros Hv Hvb Hf ->. cbv zeta. case_if; [|done].
  unfold BITS_TO_LONGS in *. assert (0 < bits mod 64 < 64) by zdm.
  split; [apply in_width_land; [done|done|by apply left_mask_nonneg]|].
  intros i Hi. rw Z.land_spec Hvb // testbit_left_mask //.
  destruct (Z.ltb_spec i (bits mod 64)); [by rw andb_true_r|].
  rw andb_false_r Hf //. zdm.
Qed.

(** The result word that holds the bits of a left shift below [bits]. *)
Lemma left_last (f : Z → bool) k v :
  in_width 64 v → 0 ≤ k < lim →
  (∀ i, 0 ≤ i < 64 → 64 * k + i < bits → Z.testbit v i = f (64 * k + i)) →
  let v' := if negb (bits mod 64 =? 0) && (k =? lim - 1)
            then Z.land v (bshl 64 1 (bits mod 64) - 1) else v in
  in_width 64 v' ∧
  ∀ i, 0 ≤ i < 64 → Z.testbit v' i = (64 * k + i <? bits) && f (64 * k + i).
Proof using All.
  intros Hv Hk Hvb. cbv zeta. unfold BITS_TO_LONGS in *. case_if.
  - assert (0 < bits mod 64 < 64) by zdm.
    split; [apply in_width_land; [done|done|by apply left_mask_nonneg]|].
    intros i Hi. rw Z.land_spec testbit_left_mask //.
    destruct (Z.ltb_spec (64 * k + i) bits); ztest; [|done]. by apply Hvb.
  - split; [done|]. intros i Hi. assert (64 * k + i < bits) by (destruct Heqb; zbool; zdm).
    ztest. by apply Hvb.
Qed.

(** Bits shifted from two neighbouring source words. *)
Lemma right_word k off rem u l :
  0 ≤ rem < 64 → 0 ≤ k → shift = 64 * off + rem → in_width 64 u → (rem = 0 → u = 0) →
  (rem ≠ 0 → src_word (off + k + 1) u) → src_word (off + k) l →
  let v := Z.lor (bshl 64 u (64 - rem)) (Z.shiftr l rem) in
  in_width 64 v ∧ ∀ i, 0 ≤ i < 64 → Z.testbit v i =
    (64 * k + i + shift <? bits) && bitat src (64 * k + i + shift).
Proof using All.
  intros Hrem Hk Hsh Hu Hu0 Hus [Hlw Hlb]. cbv zeta. split.
  { apply in_width_lor; [done|by apply in_width_bshl|by apply in_width_shiftr; [..|lia]]. }
  intros i Hi. rw Z.lor_spec testbit_bshl; [|lia..]. rw Z.shiftr_spec; [|lia].
  destruct (Z.eqb_spec rem 0) as [Hr|Hr].
  - rw Hu0 // Z.bits_0 /= Hlb; [|lia]. by replace (64 * (off + k) + (i + rem))
      with (64 * k + i + shift) by lia.
  - destruct (Hus Hr) as [_ Hub]. destruct (Z.lt_ge_cases (i + rem) 64).
    + rw Z.testbit_neg_r; [|lia]. rw /= Hlb; [|lia].
      by replace (64 * (off + k) + (i + rem)) with (64 * k + i + shift) by lia.
    + rw Hub; [|lia]. rw (testbit_above 64 l) // orb_false_r. ztest.
      by replace (64 * (off + k + 1) + (i - (64 - rem))) with (64 * k + i + shift) by lia.
Qed.

Lemma left_word k off rem u l :
  0 ≤ rem < 64 → 0 ≤ k → shift = 64 * off + rem → in_width 64 l → (rem = 0 → l = 0) →
  (rem ≠ 0 → ∀ i, 0 ≤ i < 64 → Z.testbit l i = (0 <=? 64 * (k - 1) + i) && bitat src (64 * (k - 1) + i)) →
  src_word k u →
  let v := Z.lor (Z.shiftr l (64 - rem)) (bshl 64 u rem) in
  in_width 64 v ∧ ∀ i, 0 ≤ i < 64 → 64 * (k + off) + i < bits → Z.testbit v i =
    (shift <=? 64 * (k + off) + i) && bitat src (64 * (k + off) + i - shift).
Proof using All.
  intros Hrem Hk Hsh Hl Hl0 Hls [Huw Hub]. cbv zeta. split.
  { apply in_width_lor; [done|by apply in_width_shiftr; [..|lia]|by apply in_width_bshl]. }
  intros i Hi Hib. rw Z.lor_spec testbit_bshl; [|lia..]. rw Z.shiftr_spec; [|lia].
  destruct (Z.eqb_spec rem 0) as [Hr|Hr].
  - rw Hl0 // Z.bits_0 /= Hub; [|lia]. ztest. f_equal. lia.
  - destruct (Z.lt_ge_cases i rem).
    + rw (Z.testbit_neg_r u); [|lia]. rw /= orb_false_r Hls; [|lia..].
      f_equal; [lia|]. f_equal. lia.
    + rw (testbit_above 64 l) //=; [|lia]. rw Hub; [|lia]. ztest. f_equal. lia.
Qed.

Lemma shift_right_spec :
  ∃ d, __bitmap_shift_right alias dst src shift bits = Some d ∧
    upd_words (λ i, (i + shift <? bits) && bitat src (i + shift)) lim dst d.
Proof using All.
  pose proof (covers_longs _ _ Hdcov) as HL. destruct (Hsrc) as [Hsw [[Hb Hsl] _]].
  assert (Hlim : lim = (bits + 63) / 64) by (rw /BITS_TO_LONGS; f_equal; lia).
  rw /__bitmap_shift_right. unfold BITS_PER_LONG.
  rw Z.quot_div_nonneg; [|lia..]. rw !Z.rem_mod_nonneg; [|lia..].
  set (off := shift / 64). set (rem := shift mod 64).
  assert (Hsh : shift = 64 * off + rem) by (subst off rem; zdm).
  assert (Hrem : 0 ≤ rem < 64) by (subst rem; zdm).
  assert (Hoff : 0 ≤ off ≤ lim) by (subst off; zdm).
  set (f := λ i, (i + shift <? bits) && bitat src (i + shift)).
  match goal with |- context [for_each ?n 0 ?body dst] =>
    destruct (for_each_inv (λ k d, 0 ≤ k ∧ upd_between f 0 k dst d) n 0 body dst)
      as (d & -> & _ & Hd) end.
  - split; [done|by apply upd_between_nil].
  - intros k d Hk [_ Hd].
    assert (∃ u, (if (rem =? 0) || (lim <=? off + k + 1) then Some 0
          else u ← rd (if alias then d else src) (off + k + 1);
               Some (if (off + k + 1 =? lim - 1) && negb (bits mod 64 =? 0)
                     then Z.land u (bshl 64 1 (bits mod 64) - 1) else u)) = Some u ∧
        in_width 64 u ∧ (rem = 0 → u = 0) ∧ (rem ≠ 0 → src_word (off + k + 1) u))
      as (u & -> & Hu & Hu0 & Hus).
    { case_if.
      - exists 0. split_and!; [done|by apply in_width_0|done|]. intros Hr.
        split; [by apply in_width_0|]. intros i Hi. rw Z.bits_0.
        destruct Heqb as [?|?]; zbool; [lia|]. by ztest.
      - rw (rd_src f 0 k); [|done|lia].
        destruct (rd_in src (off + k + 1)) as [w Hw]; [zdm|]. rw Hw.
        eexists. split; [done|].
        assert (src_word (off + k + 1) (if (off + k + 1 =? lim - 1) && negb (bits mod 64 =? 0)
          then Z.land w (bshl 64 1 (bits mod 64) - 1) else w)) as Hs.
        { apply masked_word; [done|lia|done]. }
        split_and!; [apply Hs|done|done]. }
    cbn [mbind option_bind]. rw (rd_src f 0 k); [|done|lia].
    destruct (rd_in src (off + k)) as [w Hw]; [zdm|]. rw Hw. cbn [mbind option_bind].
    assert (src_word (off + k) (if negb (bits mod 64 =? 0) && (off + k =? lim - 1)
      then Z.land w (bshl 64 1 (bits mod 64) - 1) else w)) as Hl.
    { apply masked_word; [done|lia|apply andb_comm]. }
    destruct (right_word k off rem u _ Hrem ltac:(lia) Hsh Hu Hu0 Hus Hl) as [Hv Hvb].
    destruct (mask_last f k _ (negb (bits mod 64 =? 0) && (k =? lim - 1)) Hv Hvb)
      as [Hv' Hvb']; [|done|].
    { intros i Hi. rw /f. by ztest. }
    match goal with |- context [wr d k ?x] => set (v' := x) in * end.
    destruct (upd_between_write f 0 k k dst d v' Hd) as [-> Hd']; [lia|lia|lia|done|done|].
    eexists. split; [done|]. split; [lia|].
    by rw Z.min_l ?Z.max_r in Hd'; [|lia..].
  - cbn [mbind option_bind]. rw Z.add_0_l Z2Nat.id in Hd; [|lia]. case_if.
    + destruct (clear_words_spec f d (lim - off) off) as (d' & -> & Hd').
      * apply Hd.
      * lia.
      * lia.
      * destruct Hd as [-> _]. lia.
      * intros i Hi. rw /f. by ztest.
      * eexists. split; [done|]. apply upd_between_words.
        apply (upd_between_glue f 0 (lim - off) lim dst d d'); [done| |lia].
        by replace (lim - off + off) with lim in Hd' by lia.
    + eexists. split; [done|]. apply upd_between_words. by replace lim with (lim - off) by lia.
Qed.

Lemma shift_left_spec :
  ∃ d, __bitmap_shift_left alias dst src shift bits = Some d ∧
    upd_words (λ i, (i <? bits) && ((shift <=? i) && bitat src (i - shift))) lim dst d.
Proof using All.
  pose proof (covers_longs _ _ Hdcov) as HL. destruct (Hsrc) as [Hsw [[Hb Hsl] _]].
  assert (Hlim : lim = (bits + 63) / 64) by (rw /BITS_TO_LONGS; f_equal; lia).
  rw /__bitmap_shift_left. unfold BITS_PER_LONG.
  rw Z.quot_div_nonneg; [|lia..]. rw !Z.rem_mod_nonneg; [|lia..].
  set (off := shift / 64). set (rem := shift mod 64).
  assert (Hsh : shift = 64 * off + rem) by (subst off rem; zdm).
  assert (Hrem : 0 ≤ rem < 64) by (subst rem; zdm).
  assert (Hoff : 0 ≤ off ≤ lim) by (subst off; zdm).
  set (f := λ i, (i <? bits) && ((shift <=? i) && bitat src (i - shift))).
  match goal with |- context [for_each ?n 0 ?body dst] =>
    destruct (for_each_inv (λ t d, 0 ≤ t ∧ upd_between f (lim - t) lim dst d) n 0 body dst)
      as (d & -> & _ & Hd) end.
  - split; [done|]. rw Z.sub_0_r. by apply upd_between_nil.
  - intros t d Ht [_ Hd]. set (k := lim - off - 1 - t).
    assert (Hk : 0 ≤ k < lim - off) by lia.
    rw !(rd_src f (lim - t) lim); [|done|lia|done|lia].
    assert (∃ l, (if negb (rem =? 0) && (0 <? k) then rd src (k - 1) else Some 0) = Some l ∧
        in_width 64 l ∧ (rem = 0 → l = 0) ∧ (rem ≠ 0 → ∀ i, 0 ≤ i < 64 →
          Z.testbit l i = (0 <=? 64 * (k - 1) + i) && bitat src (64 * (k - 1) + i)))
      as (l & -> & Hl & Hl0 & Hls).
    { case_if.
      - destruct (rd_in src (k - 1)) as [w Hw]; [zdm|]. exists w.
        split_and!; [done|exact (words_rd _ _ _ Hsw Hw)|lia|].
        intros _ i Hi. rw (bitat_word _ _ _ _ Hw) //. by ztest.
      - exists 0. split_and!; [done|by apply in_width_0|done|]. intros Hr i Hi. rw Z.bits_0.
        destruct Heqb; zbool; [lia|]. by ztest. }
    cbn [mbind option_bind].
    destruct (rd_in src k) as [w Hw]; [zdm|]. rw Hw. cbn [mbind option_bind].
    assert (src_word k (if negb (bits mod 64 =? 0) && (k =? lim - 1)
      then Z.land w (bshl 64 1 (bits mod 64) - 1) else w)) as Hu.
    { apply masked_word; [done|lia|apply andb_comm]. }
    destruct (left_word k off rem _ l Hrem ltac:(lia) Hsh Hl Hl0 Hls Hu) as [Hv Hvb].
    match goal with |- context [Z.lor ?a ?b] => set (v := Z.lor a b) in * end.
    assert (∃ v', v' = (if negb (bits mod 64 =? 0) && (k + off =? lim - 1)
        then Z.land v (bshl 64 1 (bits mod 64) - 1) else v) ∧ in_width 64 v' ∧
        ∀ i, 0 ≤ i < 64 → Z.testbit v' i = f (64 * (k + off) + i)) as (v' & <- & Hv' & Hvb').
    { eexists. split; [done|]. apply (left_last (λ i, (shift <=? i) && bitat src (i - shift)));
        [done|lia|done]. }
    destruct (upd_between_write f (lim - t) lim (k + off) dst d v' Hd) as [-> Hd'];
      [lia|lia|lia|done|done|].
    eexists. split; [done|]. split; [lia|].
    rw Z.min_r ?Z.max_l in Hd'; [|lia..]. by replace (lim - (t + 1)) with (k + off) by lia.
  - cbn [mbind option_bind]. rw Z.add_0_l Z2Nat.id in Hd; [|lia].
    replace (lim - (lim - off)) with off in Hd by lia. case_if.
    + destruct (clear_words_spec f d 0 off) as (d' & -> & Hd').
      * apply Hd.
      * lia.
      * lia.
      * destruct Hd as [-> _]. lia.
      * intros i Hi. rw /f. by ztest.
      * eexists. split; [done|]. apply upd_between_words.
        apply (upd_between_glue_r f 0 off lim dst d d'); [done|done|lia].
    + eexists. split; [done|]. apply upd_between_words. by replace 0 with off by lia.
Qed.
End shift.
