(* ===== verification/BitmapRegion.v ===== *)
(** * Power-of-two regions of a bitmap: the bitmap_*_region routines of lib/bitmap.c *)
From S2P Require Import Prelude Bitops FindBit Bitmap.


(** ** Definitions *)

Inductive reg_op := REG_OP_ISFREE | REG_OP_ALLOC | REG_OP_RELEASE.

(** The mask of [__reg_op]: computed without the overflow of [1UL << 64]. *)
Definition reg_mask (nbitsinlong offset : Z) : Z :=
  let mask := bshl 64 1 (nbitsinlong - 1) in
  let mask := wrap 64 (mask + (mask - 1)) in
  bshl 64 mask offset.

(** The bitmap after the operation, and the return value. *)
Definition __reg_op (bitmap : list Z) (pos order : Z) (op : reg_op) : option (list Z * Z) :=
  let nbits_reg := Z.shiftl 1 order in
  let index := pos ÷ BITS_PER_LONG in
  let offset := pos - index * BITS_PER_LONG in
  let nlongs_reg := BITS_TO_LONGS nbits_reg in
  let nbitsinlong := Z.min nbits_reg BITS_PER_LONG in
  let mask := reg_mask nbitsinlong offset in
  match op with
  | REG_OP_ISFREE =>
      c ← for_up (Z.to_nat nlongs_reg) 0
        (λ i _, w ← rd bitmap (index + i);
                if negb (Z.land w mask =? 0) then Some (Stop 0) else Some (Next tt)) tt;
      match c with
      | Stop ret => Some (bitmap, ret)
      | Next _ => Some (bitmap, 1)
      end
  | REG_OP_ALLOC =>
      b ← for_each (Z.to_nat nlongs_reg) 0
        (λ i bitmap, w ← rd bitmap (index + i); wr bitmap (index + i) (Z.lor w mask)) bitmap;
      Some (b, 0)
  | REG_OP_RELEASE =>
      b ← for_each (Z.to_nat nlongs_reg) 0
        (λ i bitmap, w ← rd bitmap (index + i);
                     wr bitmap (index + i) (Z.land w (bnot 64 mask))) bitmap;
      Some (b, 0)
  end.

Definition bitmap_find_free_region (bitmap : list Z) (bits order : Z) : option (list Z * Z) :=
  loop (S (Z.to_nat bits))
    (λ pos,
       let end_ := pos + Z.shiftl 1 order in
       if end_ <=? bits then
         '(_, free) ← __reg_op bitmap pos order REG_OP_ISFREE;
         if free =? 0 then Some (Next end_)
         else
           '(b, _) ← __reg_op bitmap pos order REG_OP_ALLOC;
           Some (Stop (b, pos))
       else Some (Stop (bitmap, - ENOMEM)))
    0.

Definition bitmap_release_region (bitmap : list Z) (pos order : Z) : option (list Z) :=
  '(b, _) ← __reg_op bitmap pos order REG_OP_RELEASE; Some b.

Definition bitmap_allocate_region (bitmap : list Z) (pos order : Z) : option (list Z * Z) :=
  '(_, free) ← __reg_op bitmap pos order REG_OP_ISFREE;
  if free =? 0 then Some (bitmap, - EBUSY)
  else
    '(b, _) ← __reg_op bitmap pos order REG_OP_ALLOC;
    Some (b, 0).

(** *** Specification vocabulary *)

(** A region: [2^order] bits from [pos], aligned to its size, inside the bitmap. *)
Definition region_ok (m : list Z) (pos order : Z) : Prop :=
  words m ∧ 0 ≤ order < 31 ∧ 0 ≤ pos ∧ pos mod 2 ^ order = 0 ∧
  pos + 2 ^ order ≤ 64 * Z.of_nat (length m).

Definition region_free (m : list Z) (pos order : Z) : Prop :=
  ∀ i, pos ≤ i < pos + 2 ^ order → bitat m i = false.

(** Bitmaps of the same length with the same bits are equal. *)
Lemma bitmap_ext m m' :
  words m → words m' → length m = length m' →
  (∀ i, 0 ≤ i < 64 * Z.of_nat (length m) → bitat m i = bitat m' i) → m = m'.
Proof.
  intros Hw Hw' Hl Hb. apply list_eq_same_length with (length m); [done|done|].
  intros k x y Hk Hx Hy.
  assert (rd m (Z.of_nat k) = Some x) as Hrx by (apply rd_Some; rw Nat2Z.id; split; [lia|done]).
  assert (rd m' (Z.of_nat k) = Some y) as Hry by (apply rd_Some; rw Nat2Z.id; split; [lia|done]).
  apply (word_ext 64);
    [done|exact (words_rd _ _ _ Hw Hrx)|exact (words_rd _ _ _ Hw' Hry)|].
  intros i Hi. rw -(bitat_word _ _ _ _ Hrx Hi) -(bitat_word _ _ _ _ Hry Hi). apply Hb. lia.
Qed.

(** ** The mask *)

Lemma reg_mask_bits n offset i :
  1 ≤ n ≤ 64 → 0 ≤ offset → 0 ≤ i < 64 →
  Z.testbit (reg_mask n offset) i = (offset <=? i) && (i <? offset + n).
Proof.
  intros Hn Ho Hi. rw /reg_mask testbit_bshl; [|lia..].
  assert (bshl 64 1 (n - 1) = 2 ^ (n - 1)) as ->.
  { rw /bshl Z.shiftl_1_l land_ones_wrap // wrap_small //.
    split; [apply Z.pow_nonneg; lia|apply Z.pow_lt_mono_r; lia]. }
  assert (2 ^ n = 2 * 2 ^ (n - 1)) as E by (rw -Z.pow_succ_r; [f_equal|]; lia).
  replace (2 ^ (n - 1) + (2 ^ (n - 1) - 1)) with (Z.ones n) by (rw Z.ones_equiv; lia).
  rw wrap_small; [|by apply in_width_ones; lia].
  destruct (Z.leb_spec offset i).
  - rw testbit_ones; [|lia]. ztest. lia.
  - rw Z.testbit_neg_r //. lia.
Qed.

Section reg.
Context (m : list Z) (pos order : Z).
Hypothesis Hreg : region_ok m pos order.

Local Abbreviation nbits := (2 ^ order).
Local Abbreviation index := (pos / 64).
Local Abbreviation nlongs := (BITS_TO_LONGS nbits).
Local Abbreviation mask := (reg_mask (Z.min nbits 64) (pos - pos / 64 * 64)).

(** A region lies in one word, or is made of whole words. *)
Lemma region_words :
  (nlongs = 1 ∧ nbits ≤ 64 ∧ pos mod 64 + nbits ≤ 64) ∨
  (pos mod 64 = 0 ∧ 64 ≤ nbits ∧ nbits = 64 * nlongs).
Proof using All.
  destruct Hreg as (_ & Ho & Hp & Hal & _).
  pose proof (pow2_pos order ltac:(lia)) as Hpos. rw /BITS_TO_LONGS.
  destruct (Z.lt_ge_cases order 6).
  - left. assert (64 = 2 ^ (6 - order) * nbits) as E64.
    { rw -Z.pow_add_r; [|lia..]. by replace (6 - order + order) with 6 by lia. }
    pose proof (pow2_pos (6 - order) ltac:(lia)) as Hq.
    assert (nbits ≤ 64) by nia. split_and!; [zdm|done|].
    assert (pos mod 64 mod nbits = 0) as Hmm.
    { rw {1}E64 Z.mul_comm Z.rem_mul_r; [|lia|lia]. rw Hal Z.add_0_l Z.mul_comm. apply Z_mod_mult. }
    pose proof (Z.mod_pos_bound pos 64 ltac:(lia)) as Hr.
    apply Z.mod_divide in Hmm as [c Hc]; [|lia]. rw Hc.
    assert (c < 2 ^ (6 - order)) by (apply (Z.mul_lt_mono_pos_r nbits); lia).
    assert (c * nbits ≤ (2 ^ (6 - order) - 1) * nbits) by (apply Z.mul_le_mono_nonneg_r; lia).
    lia.
  - right. assert (nbits = 2 ^ (order - 6) * 64) as E.
    { change 64 with (2 ^ 6). rw -Z.pow_add_r; [|lia..]. f_equal. lia. }
    pose proof (pow2_pos (order - 6) ltac:(lia)). split_and!; [|lia|zdm].
    apply Z.mod_divide in Hal as [c ->]; [|lia]. rw E Z.mul_assoc. apply Z_mod_mult.
Qed.

Lemma mask_region t i :
  0 ≤ t < nlongs → 0 ≤ i < 64 →
  Z.testbit mask i = (pos <=? 64 * (index + t) + i) && (64 * (index + t) + i <? pos + nbits).
Proof using All.
  intros Ht Hi. destruct Hreg as (_ & Ho & Hp & _).
  pose proof (pow2_pos order ltac:(lia)).
  rw reg_mask_bits; [|lia|zdm|lia].
  destruct region_words as [(? & ? & ?)|(? & ? & ?)]; f_equal; zdm.
Qed.

Lemma mask_in_width : in_width 64 mask.
Proof using All. by apply in_width_bshl. Qed.

Lemma region_index t : 0 ≤ t < nlongs → 0 ≤ index + t < Z.of_nat (length m).
Proof using All.
  intros Ht. destruct Hreg as (_ & Ho & Hp & _ & Hl). pose proof (pow2_pos order ltac:(lia)).
  destruct region_words as [(? & ? & ?)|(? & ? & ?)]; zdm.
Qed.

Lemma isfree_spec :
  __reg_op m pos order REG_OP_ISFREE =
  Some (m, if bits_any (λ i, bitat m (pos + i)) nbits then 0 else 1).
Proof using All.
  destruct (Hreg) as (Hw & Ho & Hp & Hal & Hl). pose proof (pow2_pos order ltac:(lia)).
  rw /__reg_op Z.shiftl_1_l. unfold BITS_PER_LONG. rw Z.quot_div_nonneg //.
  match goal with |- context [for_up ?n 0 ?body tt] =>
    destruct (for_up_inv (λ t _, 0 ≤ t ∧ ∀ i, pos ≤ i < pos + nbits → i < 64 * (index + t) → bitat m i = false)
      (λ r, r = 0 ∧ bits_any (λ i, bitat m (pos + i)) nbits = true) n 0 body tt)
      as [([] & -> & _ & Hz)|(r & -> & -> & ->)]; [| | |done] end.
  - split; [done|]. intros i Hi Hlt. zdm.
  - intros t [] Ht [_ Hz]. destruct (rd_in m (index + t)) as [w Hr]; [apply region_index; lia|].
    pose proof (words_rd _ _ _ Hw Hr) as Hww. rw Hr. cbn [mbind option_bind].
    destruct (land_bits w mask Hww mask_in_width) as [Hlw Hlb].
    case_if.
    + right. eexists. split; [done|]. split; [done|].
      destruct (lowest_set_ex _ Hlw Heqb) as (n & (Hn & Hset & _) & Hlt).
      rw Hlb in Hset; [|lia]. rw (mask_region t) in Hset; [|lia..]. zbool.
      apply bits_any_true. exists (64 * (index + t) + n - pos). split; [lia|].
      replace (pos + _) with (64 * (index + t) + n) by lia. by rw (bitat_word _ _ _ _ Hr).
    + left. eexists. split; [done|]. split; [lia|]. intros i Hi Hlt.
      destruct (decide (i < 64 * (index + t))); [by apply Hz|].
      pose proof (f_equal (λ z, Z.testbit z (i - 64 * (index + t))) Heqb) as Hb. cbv beta in Hb.
      rw Hlb in Hb; [|lia]. rw (mask_region t) in Hb; [|lia..]. rw Z.bits_0 in Hb.
      rw -(bitat_word _ _ _ _ Hr) in Hb; [|lia].
      replace (64 * (index + t) + (i - 64 * (index + t))) with i in Hb by lia.
      destruct (bitat m i); lia.
  - cbn [mbind option_bind]. rw (proj2 (bits_any_false _ nbits)) //. intros i Hi. apply Hz; [lia|].
    destruct region_words as [(? & ? & ?)|(? & ? & ?)]; zdm.
Qed.

(** The word loop of [REG_OP_ALLOC] and [REG_OP_RELEASE]. *)
Lemma region_loop (upd : Z → Z → Z) (g : bool → bool) :
  (∀ w mask, in_width 64 w → in_width 64 mask → in_width 64 (upd w mask) ∧
    ∀ i, 0 ≤ i < 64 →
      Z.testbit (upd w mask) i = if Z.testbit mask i then g (Z.testbit w i) else Z.testbit w i) →
  ∃ b, for_each (Z.to_nat nlongs) 0
         (λ i b, w ← rd b (index + i); wr b (index + i) (upd w mask)) m = Some b ∧
       range_done g m pos (pos + nbits) b.
Proof using All.
  intros Hupd. destruct (Hreg) as (Hw & Ho & Hp & Hal & Hl).
  pose proof (pow2_pos order ltac:(lia)).
  set (hi t := Z.max pos (Z.min (pos + nbits) (64 * (index + t)))).
  destruct (for_each_inv (λ t b, 0 ≤ t ∧ range_done g m pos (hi t) b) (Z.to_nat nlongs) 0
     (λ i b, w ← rd b (index + i); wr b (index + i) (upd w mask)) m) as (b & -> & _ & Hd).
  - split; [done|]. replace (hi 0) with pos by (rw /hi; zdm).
    split_and!; [done|done|]. intros i Hi. case_if; [lia|done].
  - intros t b Ht [_ Hd].
    destruct (range_word upd g m pos nbits Hupd Hw ltac:(lia) b (index + t) (hi t) (hi (t + 1)) mask)
      as (w & -> & E & Hd'); [done|..|by eauto with lia].
    + rw /hi. lia.
    + rw /hi. destruct region_words as [(? & ? & ?)|(? & ? & ?)]; zdm.
    + rw /hi. destruct region_words as [(? & ? & ?)|(? & ? & ?)]; zdm.
    + rw /hi. destruct region_words as [(? & ? & ?)|(? & ? & ?)]; zdm.
    + apply region_index. lia.
    + apply mask_in_width.
    + intros i Hi. rw (mask_region t) //; [|lia]. rw /hi.
      destruct region_words as [(? & ? & ?)|(? & ? & ?)]; f_equal; zdm.
  - eexists. split; [done|]. rw Z.add_0_l Z2Nat.id in Hd; [|rw /BITS_TO_LONGS; zdm].
    replace (hi nlongs) with (pos + nbits) in Hd; [done|].
    rw /hi. destruct region_words as [(? & ? & ?)|(? & ? & ?)]; zdm.
Qed.

Lemma alloc_spec :
  ∃ b, __reg_op m pos order REG_OP_ALLOC = Some (b, 0) ∧
       range_done (λ _, true) m pos (pos + nbits) b.
Proof using All.
  destruct (Hreg) as (Hw & Ho & Hp & _).
  rw /__reg_op Z.shiftl_1_l. unfold BITS_PER_LONG. rw Z.quot_div_nonneg //.
  destruct (region_loop Z.lor (λ _, true)) as (b & -> & Hd); [|by eauto].
  intros w k Hww Hk. split; [by apply in_width_lor|]. intros i Hi.
  rw Z.lor_spec. by destruct (Z.testbit w i), (Z.testbit k i).
Qed.

Lemma release_op_spec :
  ∃ b, __reg_op m pos order REG_OP_RELEASE = Some (b, 0) ∧
       range_done (λ _, false) m pos (pos + nbits) b.
Proof using All.
  destruct (Hreg) as (Hw & Ho & Hp & _).
  rw /__reg_op Z.shiftl_1_l. unfold BITS_PER_LONG. rw Z.quot_div_nonneg //.
  destruct (region_loop (λ w k, Z.land w (bnot 64 k)) (λ _, false)) as (b & -> & Hd); [|by eauto].
  intros w k Hww Hk. destruct (landnot_bits w k Hww Hk) as [? Hb]. split; [done|].
  intros i Hi. rw Hb //. by destruct (Z.testbit w i), (Z.testbit k i).
Qed.

Lemma region_free_any :
  bits_any (λ i, bitat m (pos + i)) nbits = false ↔ region_free m pos order.
Proof using.
  rewrite -> bits_any_false. split; intros H i Hi.
  - replace i with (pos + (i - pos)) by lia. apply H. lia.
  - apply H. lia.
Qed.
End reg.

#[local] Arguments __reg_op : simpl never.

(** ** Allocation and release *)

Lemma region_ok_range_done g m pos order b hi :
  region_ok m pos order → range_done g m pos hi b → region_ok b pos order.
Proof. intros (Hw & Ho & Hp & Hal & Hl) (Hl' & Hw' & _). split_and!; try done || lia. Qed.

(** Allocating a region fails with [-EBUSY] and changes nothing when a bit of it
    is set, and otherwise sets exactly its bits. *)
Lemma allocate_spec m pos order :
  region_ok m pos order →
  (¬ region_free m pos order ∧ bitmap_allocate_region m pos order = Some (m, - EBUSY)) ∨
  (region_free m pos order ∧ ∃ b, bitmap_allocate_region m pos order = Some (b, 0) ∧
     range_done (λ _, true) m pos (pos + 2 ^ order) b).
Proof.
  intros Hreg. rw /bitmap_allocate_region isfree_spec //. cbn [mbind option_bind].
  destruct (bits_any _ _) eqn:E.
  - left. split; [|done]. intros Hf%region_free_any. congruence.
  - right. apply region_free_any in E. split; [done|]. cbn.
    destruct (alloc_spec m pos order Hreg) as (b & -> & Hd). eauto.
Qed.

Lemma release_spec m pos order :
  region_ok m pos order →
  ∃ b, bitmap_release_region m pos order = Some b ∧
    range_done (λ _, false) m pos (pos + 2 ^ order) b.
Proof.
  intros Hreg. rw /bitmap_release_region.
  destruct (release_op_spec m pos order Hreg) as (b & -> & Hd). eauto.
Qed.

(** releasing the region that was just allocated gives the bitmap back. *)
Theorem allocate_release_roundtrip m pos order b :
  region_ok m pos order → bitmap_allocate_region m pos order = Some (b, 0) →
  bitmap_release_region b pos order = Some m.
Proof.
  intros Hreg Ha. destruct (allocate_spec m pos order Hreg) as [[_ E]|(Hf & b' & E & Hd)].
  { rw E in Ha. by injection Ha. }
  rw E in Ha. injection Ha as ->.
  destruct (release_spec b pos order) as (m' & -> & Hd'); [by eapply region_ok_range_done|].
  f_equal. destruct Hreg as (Hw & _ & Hp & _), Hd as (Hl & _ & Hb), Hd' as (Hl' & Hw' & Hb').
  apply bitmap_ext; [done|done|congruence|]. intros i Hi. rw Hb'; [|lia]. rw Hb; [|lia].
  case_if; [|done]. symmetry. apply Hf. lia.
Qed.

Lemma allocate_release_roundtrip_witness :
  region_ok [0x0f; 0] 4 2 ∧ bitmap_release_region [0xff; 0] 4 2 = Some [0x0f; 0].
Proof.
  assert (region_ok [0x0f; 0] 4 2) as H.
  { split_and!; [|done..]. words_concrete. }
  split; [exact H|]. apply (allocate_release_roundtrip [0x0f; 0] 4 2 [0xff; 0] H). reflexivity.
Defined.

(** [bitmap_find_free_region] returns the lowest free region of the bitmap
    and allocates exactly that region, or returns [-ENOMEM] and leaves the bitmap
    alone when no region is free. *)
Theorem find_free_region_lowest m bits order :
  bitmap_ok m bits → 0 ≤ order < 31 → bits < 2 ^ 31 - 2 ^ order →
  ∃ b r, bitmap_find_free_region m bits order = Some (b, r) ∧
    ((0 ≤ r ∧ r mod 2 ^ order = 0 ∧ r + 2 ^ order ≤ bits ∧ region_free m r order ∧
      (∀ p, 0 ≤ p < r → p mod 2 ^ order = 0 → ¬ region_free m p order) ∧
      range_done (λ _, true) m r (r + 2 ^ order) b) ∨
     (r = - ENOMEM ∧ b = m ∧
      ∀ p, 0 ≤ p → p mod 2 ^ order = 0 → p + 2 ^ order ≤ bits → ¬ region_free m p order)).
Proof.
  intros [Hw [[Hb Hl] _]] Ho _. pose proof (pow2_pos order ltac:(lia)) as Hpos.
  rw /bitmap_find_free_region Z.shiftl_1_l.
  match goal with |- ∃ b r, ?l = Some (b, r) ∧ @?Q b r =>
    cut (∃ br : list Z * Z, l = Some br ∧ Q br.1 br.2); [intros ([b r] & E & HQ); by exists b, r|] end.
  eapply (loop_inv (λ pos, 0 ≤ pos ∧ pos mod 2 ^ order = 0 ∧
     ∀ p, 0 ≤ p < pos → p mod 2 ^ order = 0 → ¬ region_free m p order)
     (λ pos, Z.to_nat (bits - pos))).
  - intros pos (Hp & Hal & Hno). case_if.
    + assert (region_ok m pos order) as Hreg by (split_and!; done || lia).
      rw isfree_spec //. cbn [mbind option_bind]. destruct (bits_any _ _) eqn:E.
      * left. eexists. split; [done|]. split; [|lia]. split_and!; [lia| |].
        -- by rw -Zplus_mod_idemp_r Z_mod_same_full Z.add_0_r.
        -- intros p Hp' Hpal. destruct (decide (p < pos)); [apply Hno; [lia|done]|].
           destruct (decide (p = pos)) as [->|].
           ++ intros Hf%region_free_any. congruence.
           ++ apply Z.mod_divide in Hpal as [c ->]; [|lia]. apply Z.mod_divide in Hal as [d ->]; [|lia].
              assert (d < c) by (apply (Z.mul_lt_mono_pos_r (2 ^ order)); lia).
              assert (d * 2 ^ order + 2 ^ order ≤ c * 2 ^ order) by nia. lia.
      * right. cbn. destruct (alloc_spec m pos order Hreg) as (b & -> & Hd).
        eexists. split; [done|]. left. apply region_free_any in E.
        simpl. split_and!; [lia|done|lia|done|done|done].
    + right. eexists. split; [done|]. right. split_and!; [done|done|].
      intros p Hp0 Hpal Hpb. apply Hno; [lia|done].
  - split_and!; [done|done|]. intros p Hp'. lia.
  - lia.
Qed.

Lemma find_free_region_lowest_witness :
  ∃ b r, bitmap_find_free_region [0x1f; 0] 100 3 = Some (b, r) ∧ r = 8.
Proof.
  destruct (find_free_region_lowest [0x1f; 0] 100 3) as (b & r & E & _).
  - split; [|done]. words_concrete.
  - done.
  - done.
  - exists b, r. split; [exact E|]. vm_compute in E. by injection E as _ <-.
Defined.
