(* ===== verification/BitmapMap.v ===== *)
(** * Bit positions and ordinals: pos_to_ord, ord_to_pos, remap, onto and fold of lib/bitmap.c *)
From S2P Require Import Prelude Bitops FindBit Bitmap BitmapShift.

(** ** Definitions *)

(** [for_each_set_bit(bit, addr, size)] of linux/bitops.h. *)
Definition for_each_set_bit {S} (addr : list Z) (size : Z) (body : Z → S → option S) (s : S)
  : option S :=
  bit ← find_first_bit addr size;
  loop (Datatypes.S (Z.to_nat size))
    (λ '(bit, s),
       if bit <? size then
         s' ← body bit s;
         bit' ← find_next_bit addr size (bit + 1);
         Some (Next (bit', s'))
       else Some (Stop s))
    (bit, s).

Definition bitmap_zero (dst : list Z) (nbits : Z) : option (list Z) :=
  clear_words dst 0 (BITS_TO_LONGS nbits).

(** [BUG_ON(i != pos)] is a fault. *)
Definition bitmap_pos_to_ord (buf : list Z) (pos bits : Z) : option Z :=
  if (pos <? 0) || (bits <=? pos) then Some (-1) else
  t ← test_bit pos buf;
  if t =? 0 then Some (-1) else
  i ← find_first_bit buf bits;
  '(i, ord) ← loop (S (Z.to_nat bits))
    (λ '(i, ord),
       if i <? pos then
         i' ← find_next_bit buf bits (i + 1);
         Some (Next (i', ord + 1))
       else Some (Stop (i, ord)))
    (i, 0);
  if negb (i =? pos) then None else Some ord.

Definition bitmap_ord_to_pos (buf : list Z) (ord bits : Z) : option Z :=
  if (0 <=? ord) && (ord <? bits) then
    i ← find_first_bit buf bits;
    '(i, ord) ← loop (S (Z.to_nat bits))
      (λ '(i, ord),
         if (i <? bits) && (0 <? ord) then
           i' ← find_next_bit buf bits (i + 1);
           Some (Next (i', ord - 1))
         else Some (Stop (i, ord)))
      (i, ord);
    Some (if (i <? bits) && (ord =? 0) then i else 0)
  else Some 0.

(** [same] says that [dst == src]. *)
Definition bitmap_remap (same : bool) (dst src old new : list Z) (bits : Z) : option (list Z) :=
  if same then Some dst else
  dst ← bitmap_zero dst bits;
  w ← __bitmap_weight new bits;
  for_each_set_bit src bits
    (λ oldbit dst,
       n ← bitmap_pos_to_ord old oldbit bits;
       if (n <? 0) || (w =? 0) then set_bit oldbit dst
       else p ← bitmap_ord_to_pos new (Z.rem n w) bits; set_bit p dst)
    dst.

Definition bitmap_bitremap (oldbit : Z) (old new : list Z) (bits : Z) : option Z :=
  w ← __bitmap_weight new bits;
  n ← bitmap_pos_to_ord old oldbit bits;
  if (n <? 0) || (w =? 0) then Some oldbit
  else bitmap_ord_to_pos new (Z.rem n w) bits.

Definition bitmap_onto (same : bool) (dst orig relmap : list Z) (bits : Z) : option (list Z) :=
  if same then Some dst else
  dst ← bitmap_zero dst bits;
  '(dst, _) ← for_each_set_bit relmap bits
    (λ n '(dst, m),
       t ← test_bit m orig;
       dst ← (if negb (t =? 0) then set_bit n dst else Some dst);
       Some (dst, m + 1))
    (dst, 0);
  Some dst.

Definition bitmap_fold (same : bool) (dst orig : list Z) (sz bits : Z) : option (list Z) :=
  if same then Some dst else
  dst ← bitmap_zero dst bits;
  for_each_set_bit orig bits (λ oldbit dst, set_bit (Z.rem oldbit sz) dst) dst.

(** *** Specification vocabulary *)

(** [p] is the position of the [n]-th (from 0) index where [f] holds. *)
Definition nth_set (f : Z → bool) (n p : Z) : Prop :=
  0 ≤ p ∧ f p = true ∧ count f (Z.to_nat p) = n.

(** [j] is the image of bit [i] under the map defined by [old] and [new]. *)
Definition remap_to (old new : list Z) (bits i j : Z) : Prop :=
  let w := count (bitat new) (Z.to_nat bits) in
  if bitat old i && negb (w =? 0)
  then nth_set (bitat new) (count (bitat old) (Z.to_nat i) mod w) j ∧ j < bits
  else j = i.

(** A cleared, equally long destination with exactly the bits of [f] set below [bits]. *)
Definition dst_bits (f : Z → Prop) (bits : Z) (dst d : list Z) : Prop :=
  length d = length dst ∧ words d ∧ ∀ i, 0 ≤ i < bits → bitat d i = true ↔ f i.

(** ** Counting *)

Lemma count_step f i i' :
  0 ≤ i < i' → f i = true → (∀ j, i < j < i' → f j = false) →
  count f (Z.to_nat i') = count f (Z.to_nat i) + 1.
Proof.
  intros Hi Hset Hnone.
  replace (Z.to_nat i') with (S (Z.to_nat i) + Z.to_nat (i' - i - 1))%nat by lia.
  rw count_add count_S_true; [|by rw Z2Nat.id; [|lia]].
  rw (count_false _ (Z.to_nat (i' - i - 1))); [lia|]. intros j Hj. apply Hnone. lia.
Qed.

Lemma count_none f i : (∀ j, 0 ≤ j < i → f j = false) → count f (Z.to_nat i) = 0.
Proof. intros H. apply count_false. intros j Hj. apply H. lia. Qed.

Lemma nth_set_unique f n p q : nth_set f n p → nth_set f n q → p = q.
Proof.
  intros (Hp & Hfp & Hcp) (Hq & Hfq & Hcq).
  assert (∀ a b, 0 ≤ a < b → f a = true →
    count f (Z.to_nat a) < count f (Z.to_nat b)) as Hmono.
  { intros a b Hab Hfa.
    pose proof (count_mono f (S (Z.to_nat a)) (Z.to_nat b) ltac:(lia)) as Hle.
    rw count_S_true in Hle; [lia|]. by rw Z2Nat.id; [|lia]. }
  destruct (Z.lt_trichotomy p q) as [?|[?|?]]; [|done|].
  - pose proof (Hmono p q ltac:(lia) Hfp). lia.
  - pose proof (Hmono q p ltac:(lia) Hfq). lia.
Qed.

Lemma count_lt_ex f n (N : nat) :
  0 ≤ n < count f N → ∃ p, nth_set f n p ∧ p < Z.of_nat N.
Proof.
  induction N as [|N IH]; simpl; [lia|]. intros Hn.
  destruct (decide (n < count f N)) as [Hlt|Hge].
  - destruct IH as (p & Hp & ?); [lia|]. exists p. split; [done|lia].
  - destruct (f (Z.of_nat N)) eqn:E; simpl in Hn; [|lia].
    exists (Z.of_nat N). split; [|lia]. split_and!; [lia|done|]. rw Nat2Z.id. lia.
Qed.

(** ** Single bits *)

Lemma test_bit_spec nr m :
  0 ≤ nr < 64 * Z.of_nat (length m) → test_bit nr m = Some (Z.b2z (bitat m nr)).
Proof.
  intros Hn. rw /test_bit /bitat /BIT_WORD Z.quot_div_nonneg; [|lia..].
  destruct (rd_in m (nr / 64)) as [w ->]; [zdm|]. cbn [mbind option_bind]. f_equal.
  change (BITS_PER_LONG - 1) with (Z.ones 6). rw (land_ones_wrap 6) // /wrap.
  change (2 ^ 6) with 64. rw Z.land_comm. change 1 with (Z.ones 1). rw (land_ones_wrap 1) // /wrap.
  change (2 ^ 1) with 2. rw -Z.bit0_mod Z.shiftr_spec //.
Qed.

Lemma set_bit_spec nr m :
  words m → 0 ≤ nr < 64 * Z.of_nat (length m) →
  ∃ m', set_bit nr m = Some m' ∧ length m' = length m ∧ words m' ∧
    ∀ i, 0 ≤ i → bitat m' i = (i =? nr) || bitat m i.
Proof.
  intros Hw Hn. rw /set_bit /BIT_WORD /BIT_MASK Z.quot_div_nonneg; [|lia..].
  rw Z.rem_mod_nonneg; [|lia..].
  destruct (rd_in m (nr / 64)) as [w Hr]; [zdm|]. rw Hr. cbn [mbind option_bind].
  rw wr_in; [|zdm]. eexists. split; [done|].
  pose proof (words_rd _ _ _ Hw Hr) as Hww. split_and!.
  - by rw length_insert.
  - apply words_insert; [done|]. apply in_width_lor; [done|done|by apply in_width_bshl].
  - intros i Hi. rw bitat_insert; [|zdm|done]. case_if.
    + rw Z.lor_spec testbit_bshl; [|lia..]. rw -(bitat_word _ _ _ _ Hr); [|lia].
      replace (64 * (nr / 64) + (i - 64 * (nr / 64))) with i by lia. rw orb_comm.
      f_equal. destruct (Z.eqb_spec i nr) as [->|].
      * replace (nr - 64 * (nr / 64) - nr mod 64) with 0 by zdm. by ztest.
      * change 1 with (2 ^ 0). rw testbit_pow2 //. by ztest.
    + destruct (Z.eqb_spec i nr); [|done]. destruct Heqb; zbool; zdm.
Qed.

Lemma bitmap_zero_spec dst bits :
  words dst → covers dst bits →
  ∃ d, bitmap_zero dst bits = Some d ∧ length d = length dst ∧ words d ∧
    ∀ i, 0 ≤ i < bits → bitat d i = false.
Proof.
  intros Hw Hc. pose proof (covers_longs _ _ Hc) as HL.
  destruct (clear_words_spec (λ _, false) dst 0 (BITS_TO_LONGS bits))
    as (d & E & Hl & Hwd & Hb); [done|lia|lia|lia|done|].
  exists d. split_and!; [done|done|done|]. intros i Hi. rw Hb; [|lia].
  rw /BITS_TO_LONGS. by ztest.
Qed.

(** ** Iterating over the set bits *)

Lemma next_bit addr size i :
  words addr → covers addr size → 0 ≤ i ≤ size →
  ∃ r, find_next_bit addr size i = Some r ∧ is_next (bitat addr) i size r.
Proof.
  intros Hw Hc Hi. destruct (Hc) as [_ H64].
  destruct (find_next_bit_next addr i size) as (r & E & Hr); [done|done|lia|lia|].
  exists r. split; [done|]. move: Hr. case_if; [|done]. intros ->. right. split; [done|lia].
Qed.

Lemma for_each_set_bit_inv {S} (I : Z → S → Prop) addr size body (s : S) :
  words addr → covers addr size →
  I 0 s →
  (∀ i s, 0 ≤ i < size → bitat addr i = true → I i s → ∃ s', body i s = Some s' ∧ I (i + 1) s') →
  (∀ i j s, 0 ≤ i ≤ j → j ≤ size → (∀ k, i ≤ k < j → bitat addr k = false) → I i s → I j s) →
  ∃ s', for_each_set_bit addr size body s = Some s' ∧ I size s'.
Proof.
  intros Hw Hc HI Hbody Hskip. rw /for_each_set_bit. destruct (Hc) as [[H0 _] _].
  destruct (find_first_bit_next addr size) as (b0 & -> & Hb0); [done|done|].
  cbn [mbind option_bind].
  assert (∀ i r, 0 ≤ i ≤ size → is_next (bitat addr) i size r →
     i ≤ r ≤ size ∧ (r < size → bitat addr r = true) ∧
     ∀ k, i ≤ k < r → bitat addr k = false) as Hn.
  { intros i r Hi [(? & ? & ?)|[-> ?]]; split_and!; done || lia. }
  destruct (Hn 0 b0) as (Hr & Hset & Hnone); [lia|done|].
  apply (loop_inv (λ '(b, s), 0 ≤ b ≤ size ∧ (b < size → bitat addr b = true) ∧ I b s)
    (λ '(b, s), Z.to_nat (size - b))); [|split_and!|].
  - intros [b s1] (Hb & Hbset & HIb). case_if.
    + left. destruct (Hbody b s1) as (s2 & -> & HI2); [lia|auto|done|]. cbn [mbind option_bind].
      destruct (next_bit addr size (b + 1)) as (b' & -> & Hb'); [done|done|lia|].
      destruct (Hn (b + 1) b') as (Hr' & Hset' & Hnone'); [lia|done|].
      eexists. split; [done|]. split; [|lia]. split_and!; [lia|lia|done|].
      apply (Hskip (b + 1)); [lia|lia|done|done].
    + right. eexists. split; [done|]. by replace size with b by lia.
  - lia.
  - lia.
  - done.
  - apply (Hskip 0); [lia|lia|done|done].
  - lia.
Qed.

(** ** Positions and ordinals *)

Section ord.
Context (buf : list Z) (bits : Z).
Hypothesis Hbuf : bitmap_ok buf bits.

(** The next set bit after a set bit [i] has the next ordinal. *)
Lemma next_ord i r :
  0 ≤ i < bits → bitat buf i = true → is_next (bitat buf) (i + 1) bits r →
  i < r ≤ bits ∧ count (bitat buf) (Z.to_nat r) = count (bitat buf) (Z.to_nat i) + 1 ∧
  (r < bits → bitat buf r = true).
Proof using All.
  intros Hi Hset Hn. pose proof (is_next_range _ (i + 1) bits r ltac:(lia) Hn).
  split_and!; [lia|lia| |].
  - apply count_step; [lia|done|]. intros j Hj. destruct Hn as [(_ & _ & Hl)|[-> Hl]]; apply Hl; lia.
  - intros Hr. destruct Hn as [(_ & ? & _)|[-> _]]; [done|lia].
Qed.

Lemma first_ord r :
  is_next (bitat buf) 0 bits r →
  0 ≤ r ≤ bits ∧ count (bitat buf) (Z.to_nat r) = 0 ∧ (r < bits → bitat buf r = true).
Proof using All.
  intros Hn. pose proof (bitmap_ok_nonneg _ _ Hbuf). pose proof (is_next_range _ 0 bits r ltac:(lia) Hn).
  split_and!; [lia|lia| |].
  - apply count_none. intros j Hj. destruct Hn as [(_ & _ & Hl)|[-> Hl]]; apply Hl; lia.
  - intros Hr. destruct Hn as [(_ & ? & _)|[-> _]]; [done|lia].
Qed.

(** The ordinal of a set bit is the number of set bits below it. *)
Lemma pos_to_ord_spec pos :
  bitmap_pos_to_ord buf pos bits =
  Some (if (0 <=? pos) && (pos <? bits) && bitat buf pos
        then count (bitat buf) (Z.to_nat pos) else -1).
Proof using All.
  destruct (Hbuf) as [Hw Hc]. destruct (Hc) as [[Hb Hl] _].
  rw /bitmap_pos_to_ord. case_if.
  { destruct Heqb as [?|?]; zbool; by ztest. }
  rw test_bit_spec; [|lia]. cbn [mbind option_bind]. ztest.
  destruct (bitat buf pos) eqn:Hset; [|done]. cbn [Z.b2z Z.eqb].
  destruct (find_first_bit_next buf bits) as (i0 & -> & Hn0); [done|done|].
  cbn [mbind option_bind]. destruct (first_ord i0 Hn0) as (Hr0 & Hc0 & Hs0).
  assert (i0 ≤ pos).
  { apply Z.le_ngt. intros ?. destruct Hn0 as [(_ & _ & Hl0)|[-> Hl0]]; rw Hl0 in Hset; done || lia. }
  match goal with |- context [loop ?n ?body (i0, 0)] =>
    destruct (loop_inv (λ '(i, ord), 0 ≤ i ≤ pos ∧ bitat buf i = true ∧
        count (bitat buf) (Z.to_nat i) = ord)
      (λ '(i, ord), Z.to_nat (bits - i))
      (λ '(i, ord), i = pos ∧ ord = count (bitat buf) (Z.to_nat pos)) body n (i0, 0))
      as ([i ord] & -> & -> & ->) end.
  - intros [i ord] (Hi & Hseti & <-). case_if.
    + left. destruct (next_bit buf bits (i + 1)) as (i' & -> & Hn); [done|done|lia|].
      destruct (next_ord i i') as (Hr & Hcnt & Hs); [lia|done|done|].
      assert (i' ≤ pos).
      { apply Z.le_ngt. intros ?. destruct Hn as [(_ & _ & Hl0)|[-> Hl0]];
          rw Hl0 in Hset; done || lia. }
      eexists. split; [done|]. split; [|lia]. split_and!; [lia|lia|apply Hs; lia|done].
    + right. eexists. split; [done|]. replace i with pos by lia. done.
  - split_and!; [lia|lia|apply Hs0; lia|done].
  - lia.
  - cbn [mbind option_bind]. by rw Z.eqb_refl.
Qed.

(** [bitmap_ord_to_pos] finds the [ord]-th set bit when there is one. *)
Lemma ord_to_pos_spec ord :
  0 ≤ ord →
  ∃ p, bitmap_ord_to_pos buf ord bits = Some p ∧
    (ord < count (bitat buf) (Z.to_nat bits) → nth_set (bitat buf) ord p ∧ p < bits) ∧
    (count (bitat buf) (Z.to_nat bits) ≤ ord → p = 0).
Proof using All.
  intros Ho. destruct (Hbuf) as [Hw Hc]. destruct (Hc) as [[Hb Hl] _].
  pose proof (count_bounds (bitat buf) (Z.to_nat bits)) as Hcb.
  rw /bitmap_ord_to_pos. case_if; [|exists 0; split_and!; [done|lia|done]].
  destruct (find_first_bit_next buf bits) as (i0 & -> & Hn0); [done|done|].
  cbn [mbind option_bind]. destruct (first_ord i0 Hn0) as (Hr0 & Hc0 & Hs0).
  match goal with |- context [loop ?n ?body (i0, ord)] =>
    destruct (loop_inv (λ '(i, o), 0 ≤ i ≤ bits ∧ 0 ≤ o ∧ (i < bits → bitat buf i = true) ∧
        count (bitat buf) (Z.to_nat i) + o = ord)
      (λ '(i, o), Z.to_nat (bits - i))
      (λ '(i, o), 0 ≤ i ≤ bits ∧ 0 ≤ o ∧ (i < bits → bitat buf i = true) ∧
        count (bitat buf) (Z.to_nat i) + o = ord ∧ (i = bits ∨ o = 0)) body n (i0, ord))
      as ([i o] & -> & Hi & Hoo & Hs & Hcnt & Hend) end.
  - intros [i o] (Hi & Hoo & Hs & Hcnt). case_if.
    + left. destruct (next_bit buf bits (i + 1)) as (i' & -> & Hn); [done|done|lia|].
      destruct (next_ord i i') as (Hr & Hcnt' & Hs'); [lia|apply Hs; lia|done|].
      eexists. split; [done|]. split; [|lia]. split_and!; [lia|lia|lia|done|lia].
    + right. eexists. split; [done|]. split_and!; [lia|lia|lia|done|done|].
      match goal with H : _ ∨ _ |- _ => destruct H; zbool; lia end.
  - split_and!; [lia|lia|lia|done|lia].
  - lia.
  - cbn [mbind option_bind]. eexists. split; [done|].
    destruct (Z.ltb_spec i bits) as [Hib|Hib]; cbn [andb].
    + assert (o = 0) as -> by lia. rw Z.eqb_refl. split.
      * intros _. split; [|done]. split_and!; [lia|by apply Hs|lia].
      * intros Hle. pose proof (count_step (bitat buf) i (i + 1) ltac:(lia) (Hs Hib) ltac:(lia)).
        pose proof (count_mono (bitat buf) (Z.to_nat (i + 1)) (Z.to_nat bits) ltac:(lia)). lia.
    + assert (i = bits) as -> by lia. split; [lia|done].
Qed.
End ord.

Lemma ord_pos_roundtrip_aux buf bits pos n :
  bitmap_ok buf bits → 0 ≤ pos < bits → bitat buf pos = true →
  n = count (bitat buf) (Z.to_nat pos) → bitmap_ord_to_pos buf n bits = Some pos.
Proof.
  intros Hbuf Hp Hset ->.
  destruct (ord_to_pos_spec buf bits Hbuf (count (bitat buf) (Z.to_nat pos)))
    as (p & -> & Hn & _); [apply count_bounds|]. f_equal.
  destruct Hn as [Hn _].
  - pose proof (count_step (bitat buf) pos (pos + 1) ltac:(lia) Hset ltac:(lia)).
    pose proof (count_mono (bitat buf) (Z.to_nat (pos + 1)) (Z.to_nat bits) ltac:(lia)). lia.
  - eapply nth_set_unique; [done|]. split_and!; [lia|done|done].
Qed.

(** ** The map of single bits *)

Lemma bitremap_spec old new bits i :
  bitmap_ok old bits → bitmap_ok new bits → 0 ≤ i < bits →
  ∃ j, bitmap_bitremap i old new bits = Some j ∧ remap_to old new bits i j ∧ 0 ≤ j < bits.
Proof.
  intros Ho Hn Hi. rw /bitmap_bitremap weight_spec // pos_to_ord_spec //.
  cbn [mbind option_bind]. rw /remap_to. ztest.
  set (w := count (bitat new) _).
  pose proof (count_bounds (bitat new) (Z.to_nat bits)) as Hw. fold w in Hw.
  pose proof (count_bounds (bitat old) (Z.to_nat i)) as Hc.
  destruct (bitat old i) eqn:Hset; [|exists i; split_and!; done || lia]. cbn [andb].
  destruct (Z.eqb_spec w 0); ztest; [exists i; split_and!; done || lia|].
  rw Z.rem_mod_nonneg; [|lia..].
  destruct (ord_to_pos_spec new bits Hn (count (bitat old) (Z.to_nat i) mod w))
    as (p & -> & Hp & _); [apply Z.mod_pos_bound; lia|].
  destruct Hp as [Hp Hlt]. { apply Z.mod_pos_bound. lia. }
  exists p. split_and!; [done|done|done|apply Hp|done].
Qed.

(** ** Building a destination bitmap bit by bit *)

(** Setting bits one at a time: [F i j] says that source bit [i] sets bit [j]. *)
Section build.
Context (src dst : list Z) (bits : Z) (F : Z → Z → Prop).
Hypothesis Hdst : words dst.
Hypothesis Hdcov : covers dst bits.

Definition built (k : Z) (d : list Z) : Prop :=
  dst_bits (λ j, ∃ i, 0 ≤ i < k ∧ bitat src i = true ∧ F i j) bits dst d.

Lemma built_zero d :
  length d = length dst → words d → (∀ i, 0 ≤ i < bits → bitat d i = false) → built 0 d.
Proof using All.
  intros Hl Hw Hz. split_and!; [done|done|]. intros j Hj. rw Hz //.
  split; [done|]. intros (i & Hi & _). lia.
Qed.

Lemma built_set k d j :
  built k d → 0 ≤ k < bits → bitat src k = true → 0 ≤ j < bits → (∀ j', F k j' ↔ j' = j) →
  ∃ d', set_bit j d = Some d' ∧ built (k + 1) d'.
Proof using All.
  intros (Hl & Hw & Hb) Hk Hset Hj HF. destruct (Hdcov) as [[_ Hlen] _].
  destruct (set_bit_spec j d) as (d' & -> & Hl' & Hw' & Hb'); [done|lia|].
  eexists. split; [done|]. split_and!; [congruence|done|]. intros i Hi. rw Hb'; [|lia].
  rewrite -> orb_true_iff, Z.eqb_eq, Hb by done. split.
  - intros [-> |(x & Hx & Hs & Hf)]; [exists k|exists x]; split_and!; try done || lia. by apply HF.
  - intros (x & Hx & Hs & Hf). destruct (decide (x = k)) as [->|].
    + left. by apply HF.
    + right. exists x. split_and!; [lia|lia|done|done].
Qed.

Lemma built_none k d :
  built k d → 0 ≤ k < bits → (∀ j, 0 ≤ j < bits → ¬ F k j) → built (k + 1) d.
Proof using All.
  intros (Hl & Hw & Hb) Hk HF. split_and!; [done|done|]. intros j Hj. rw Hb //.
  split; intros (i & Hi & Hs & Hf); exists i; split_and!; try done || lia.
  destruct (decide (i = k)) as [->|]; [|lia]. by destruct (HF j Hj).
Qed.

Lemma built_skip i j d :
  0 ≤ i ≤ j → j ≤ bits → (∀ k, i ≤ k < j → bitat src k = false) → built i d → built j d.
Proof using All.
  intros Hij Hj Hn (Hl & Hw & Hb). split_and!; [done|done|]. intros x Hx. rw Hb //.
  split; intros (y & Hy & Hs & Hf); exists y; split_and!; try done || lia.
  destruct (decide (y < i)); [done|]. rw Hn in Hs; [done|lia].
Qed.
End build.

(** [bitmap_remap] sets exactly the images of the bits of [src]. *)
Lemma remap_spec dst src old new bits :
  words dst → covers dst bits → bitmap_ok src bits → bitmap_ok old bits → bitmap_ok new bits →
  ∃ d, bitmap_remap false dst src old new bits = Some d ∧
    dst_bits (λ j, ∃ i, 0 ≤ i < bits ∧ bitat src i = true ∧ remap_to old new bits i j) bits dst d.
Proof.
  intros Hd Hdc [Hs Hsc] Ho Hn. rw /bitmap_remap.
  destruct (bitmap_zero_spec dst bits) as (z & -> & Hzl & Hzw & Hz); [done|done|].
  rw weight_spec //. cbn [mbind option_bind].
  apply (for_each_set_bit_inv (built src dst bits (remap_to old new bits)));
    [done|done|by apply built_zero| |by intros; eapply built_skip].
  intros i d Hi Hset Hb.
  destruct (bitremap_spec old new bits i) as (j & E & Hj & Hjr); [done|done|done|].
  destruct (built_set src dst bits (remap_to old new bits) Hd Hdc i d j)
    as (d' & Hsb & Hb'); [done|done|done|done| |].
  { intros j'. split; [|by intros ->]. intros Hj'. move: Hj Hj'. rw /remap_to.
    case_if; [|congruence]. intros [Hj _] [Hj' _]. by eapply nth_set_unique. }
  exists d'. split; [|done]. move: E. rw /bitmap_bitremap weight_spec //. cbn [mbind option_bind].
  rw pos_to_ord_spec //. cbn [mbind option_bind]. case_if; [by intros [= ->]|].
  intros ->. done.
Qed.

(** [bitmap_onto] sets the [m]-th set bit of [relmap] for every bit [m] of [orig]. *)
Lemma onto_spec dst orig relmap bits :
  words dst → covers dst bits → bitmap_ok orig bits → bitmap_ok relmap bits →
  ∃ d, bitmap_onto false dst orig relmap bits = Some d ∧
    dst_bits (λ n, bitat relmap n = true ∧
       bitat orig (count (bitat relmap) (Z.to_nat n)) = true) bits dst d.
Proof.
  intros Hd Hdc [Ho Hoc] [Hr Hrc]. rw /bitmap_onto. destruct (Hoc) as [[H0 Hol] _].
  destruct (bitmap_zero_spec dst bits) as (z & -> & Hzl & Hzw & Hz); [done|done|].
  cbn [mbind option_bind].
  set (F := λ n n', n' = n ∧ bitat orig (count (bitat relmap) (Z.to_nat n)) = true).
  match goal with |- context [for_each_set_bit relmap bits ?body (z, 0)] =>
    destruct (for_each_set_bit_inv (λ n '(d, m), built relmap dst bits F n d ∧
      m = count (bitat relmap) (Z.to_nat n)) relmap bits body (z, 0))
      as ([d m] & -> & Hb & _) end.
  - done.
  - done.
  - split; [by apply built_zero|done].
  - intros n [d m] Hn Hset [Hb ->]. pose proof (count_bounds (bitat relmap) (Z.to_nat n)).
    rw test_bit_spec; [|lia]. cbn [mbind option_bind].
    assert (count (bitat relmap) (Z.to_nat (n + 1)) = count (bitat relmap) (Z.to_nat n) + 1) as Hc
      by (apply count_step; [lia|done|lia]).
    destruct (bitat orig _) eqn:E; cbn [Z.b2z Z.eqb negb].
    + destruct (built_set relmap dst bits F Hd Hdc n d n) as (d' & -> & Hb'); [done|done|done|done| |].
      { intros n'. rw /F. split; [by intros [-> _]|by intros ->]. }
      eexists. split; [done|]. split; [done|lia].
    + eexists. split; [done|]. split; [|done]. apply built_none; [done|done|done|done|].
      intros j Hj [_ ?]. congruence.
  - intros i j [d m] Hij Hj Hnone [Hb ->]. split; [by eapply built_skip|].
    replace (Z.to_nat j) with (Z.to_nat i + Z.to_nat (j - i))%nat by lia.
    rw count_add (count_false _ (Z.to_nat (j - i))); [lia|]. intros k Hk. apply Hnone. lia.
  - cbn [mbind option_bind]. eexists. split; [done|]. destruct Hb as (Hl & Hw & Hb).
    split_and!; [done|done|]. intros n Hn. rw Hb // /F. split.
    + intros (i & Hi & Hs & -> & Hf). done.
    + intros [Hs Hf]. exists n. done.
Qed.

(** [bitmap_fold] sets bit [i mod sz] for every bit [i] of [orig]. *)
Lemma fold_spec dst orig sz bits :
  words dst → covers dst bits → bitmap_ok orig bits → 0 < sz →
  ∃ d, bitmap_fold false dst orig sz bits = Some d ∧
    dst_bits (λ j, ∃ i, 0 ≤ i < bits ∧ bitat orig i = true ∧ j = i mod sz) bits dst d.
Proof.
  intros Hd Hdc [Ho Hoc] Hsz. rw /bitmap_fold.
  destruct (bitmap_zero_spec dst bits) as (z & -> & Hzl & Hzw & Hz); [done|done|].
  cbn [mbind option_bind].
  apply (for_each_set_bit_inv (built orig dst bits (λ i j, j = i mod sz)));
    [done|done|by apply built_zero| |by intros; eapply built_skip].
  intros i d Hi Hset Hb. rw Z.rem_mod_nonneg; [|lia..].
  pose proof (Z.mod_pos_bound i sz Hsz). pose proof (Z.mod_le i sz ltac:(lia) Hsz).
  apply (built_set orig dst bits (λ i j, j = i mod sz) Hd Hdc i d (i mod sz)); done || lia.
Qed.
