(* ===== verification/BitmapLaws.v ===== *)
(** * What the bitmap library promises

    A bitmap of [bits] bits stands for a set of numbers below [bits].  The operations of lib/bitmap.c are
    shown to implement the operations on those sets, whatever the unused bits of the last word
    hold. *)
From S2P Require Import Prelude Bitops FindBit Bitmap BitmapShift BitmapMap.

(** ** Bitmaps as sets *)

Definition bits_of (m : list Z) (bits : Z) : gset Z :=
  list_to_set (filter (λ i, bitat m i = true) (seqZ 0 bits)).

(** The unused bits of the last word are zero. *)
Definition clean (m : list Z) (bits : Z) : Prop :=
  ∀ i, bits ≤ i < 64 * BITS_TO_LONGS bits → bitat m i = false.

(** A C truth value. *)
Definition truth (P : Prop) (r : Z) : Prop := (r = 1 ∧ P) ∨ (r = 0 ∧ ¬ P).

(** The numbers below [bits], and those of an interval. *)
Definition universe (bits : Z) : gset Z := list_to_set (seqZ 0 bits).
Definition interval (lo n : Z) : gset Z := list_to_set (seqZ lo n).

Lemma elem_of_bits_of i m bits : i ∈ bits_of m bits ↔ 0 ≤ i < bits ∧ bitat m i = true.
Proof. rw /bits_of elem_of_list_to_set list_elem_of_filter elem_of_seqZ. lia || naive_solver lia. Qed.

Lemma elem_of_universe i bits : i ∈ universe bits ↔ 0 ≤ i < bits.
Proof. rw /universe elem_of_list_to_set elem_of_seqZ. lia. Qed.

Lemma elem_of_interval i lo n : i ∈ interval lo n ↔ lo ≤ i < lo + n.
Proof. by rw /interval elem_of_list_to_set elem_of_seqZ. Qed.

Lemma longs_cover bits : 0 ≤ bits → bits ≤ 64 * BITS_TO_LONGS bits.
Proof. intros. rw /BITS_TO_LONGS /BITS_PER_LONG. zdm. Qed.

Lemma upd_words_below f bits dst d i :
  upd_words f (BITS_TO_LONGS bits) dst d → 0 ≤ i < bits → bitat d i = f i.
Proof. intros (_ & _ & H) Hi. rw H; [|lia]. pose proof (longs_cover bits). by ztest. Qed.

Lemma upd_words_set f bits dst d X :
  upd_words f (BITS_TO_LONGS bits) dst d → (∀ i, 0 ≤ i < bits → f i = true ↔ i ∈ X) →
  (∀ i, i ∈ X → 0 ≤ i < bits) → bits_of d bits = X.
Proof.
  intros Hu Hf HX. apply set_eq. intros i. rw elem_of_bits_of. split.
  - intros [Hi Hb]. rw (upd_words_below f bits dst) in Hb; [|done..]. by apply Hf.
  - intros Hi. pose proof (HX i Hi). split; [done|]. rw (upd_words_below f bits dst); [|done..]. by apply Hf.
Qed.

Lemma upd_words_clean f bits dst d :
  0 ≤ bits → upd_words f (BITS_TO_LONGS bits) dst d →
  (∀ i, bits ≤ i < 64 * BITS_TO_LONGS bits → f i = false) → clean d bits.
Proof. intros Hb (_ & _ & H) Hf i Hi. rw H; [|lia]. ztest. by apply Hf. Qed.

(** ** The interface: an operation on bitmaps implements one on sets *)

(** [dst = m1 op m2]: the result stands for the right set, it is a bitmap of the size of [dst], and clean
    operands give a clean result. *)
Class SetOp (op : list Z → list Z → list Z → Z → option (list Z)) (F : gset Z → gset Z → gset Z) : Prop :=
  set_op dst m1 m2 bits :
    bitmap_ok dst bits → bitmap_ok m1 bits → bitmap_ok m2 bits →
    ∃ d, op dst m1 m2 bits = Some d ∧ length d = length dst ∧ words d ∧
      bits_of d bits = F (bits_of m1 bits) (bits_of m2 bits) ∧
      (clean m1 bits → clean m2 bits → clean d bits).

(** The same for a question about two bitmaps. *)
Class SetQuery (q : list Z → list Z → Z → option Z) (P : gset Z → gset Z → Prop) : Prop :=
  set_query m1 m2 bits :
    bitmap_ok m1 bits → bitmap_ok m2 bits →
    ∃ r, q m1 m2 bits = Some r ∧ truth (P (bits_of m1 bits) (bits_of m2 bits)) r.

(** An operation whose result has the bits [g b1 b2]. *)
Lemma set_op_of (op : list Z → list Z → list Z → Z → option (list Z)) F (g : bool → bool → bool) :
  (∀ dst m1 m2 bits, words dst → covers dst bits → bitmap_ok m1 bits → bitmap_ok m2 bits →
     ∃ d, op dst m1 m2 bits = Some d ∧
       upd_words (λ i, g (bitat m1 i) (bitat m2 i)) (BITS_TO_LONGS bits) dst d) →
  g false false = false →
  (∀ X Y i, i ∈ F X Y ↔ g (bool_decide (i ∈ X)) (bool_decide (i ∈ Y)) = true) → SetOp op F.
Proof.
  intros Hop Hg HF dst m1 m2 bits [Hd Hdc] H1 H2. destruct (Hop dst m1 m2 bits Hd Hdc H1 H2) as (d & E & Hu).
  assert (∀ m i, 0 ≤ i < bits → bool_decide (i ∈ bits_of m bits) = bitat m i) as Hdec.
  { intros m i Hi. destruct (bitat m i) eqn:Eb.
    - apply bool_decide_eq_true_2, elem_of_bits_of. done.
    - apply bool_decide_eq_false_2. rw elem_of_bits_of. intros [_ ?]. congruence. }
  exists d. split; [done|]. destruct (Hu) as (Hl & Hw & _). split_and!; [done|done| |].
  - apply (upd_words_set _ _ _ _ _ Hu).
    + intros i Hi. by rw HF !Hdec.
    + intros i Hi. apply HF in Hi. destruct (decide (0 ≤ i < bits)); [done|].
      assert (∀ m, i ∉ bits_of m bits) as Hn by (intros m; rw elem_of_bits_of; naive_solver).
      rewrite -> !bool_decide_eq_false_2 in Hi by apply Hn. congruence.
  - intros C1 C2. eapply upd_words_clean; [|exact Hu|].
    + by apply Hdc.
    + intros i Hi. cbn. rw C1; [|done]. by rw C2.
Qed.

#[export] Instance or_set_op : SetOp __bitmap_or union.
Proof. apply (set_op_of _ _ orb); [apply or_spec|done|]. intros X Y i. rw elem_of_union. repeat case_bool_decide; naive_solver. Qed.

#[export] Instance xor_set_op : SetOp __bitmap_xor (λ X Y, (X ∖ Y) ∪ (Y ∖ X)).
Proof. apply (set_op_of _ _ xorb); [apply xor_spec|done|]. intros X Y i. rw elem_of_union !elem_of_difference. repeat case_bool_decide; naive_solver. Qed.

#[export] Instance and_set_op : SetOp (λ dst m1 m2 bits, fst <$> __bitmap_and dst m1 m2 bits) intersection.
Proof.
  apply (set_op_of _ _ andb); [|done|].
  - intros dst m1 m2 bits Hd Hc H1 H2. destruct (and_spec dst m1 m2 bits Hd Hc H1 H2) as (d & -> & Hu). by exists d.
  - intros X Y i. rw elem_of_intersection. repeat case_bool_decide; naive_solver.
Qed.

#[export] Instance andnot_set_op : SetOp (λ dst m1 m2 bits, fst <$> __bitmap_andnot dst m1 m2 bits) difference.
Proof.
  apply (set_op_of _ _ (λ b1 b2, b1 && negb b2)); [|done|].
  - intros dst m1 m2 bits Hd Hc H1 H2. destruct (andnot_spec dst m1 m2 bits Hd Hc H1 H2) as (d & -> & Hu). by exists d.
  - intros X Y i. rw elem_of_difference. repeat case_bool_decide; naive_solver.
Qed.

(** A question answered by looking for a bit with [g b1 b2]. *)
Lemma truth_any (P : Prop) (f : Z → bool) bits (hit : Z) :
  hit = 0 ∨ hit = 1 →
  (P ↔ if hit =? 1 then ∃ i, 0 ≤ i < bits ∧ f i = true else ∀ i, 0 ≤ i < bits → f i = false) →
  truth P (if bits_any f bits then hit else 1 - hit).
Proof.
  intros Hh HP. rw /truth. destruct (bits_any f bits) eqn:E.
  - pose proof (proj1 (bits_any_true f bits) E) as (i & Hi & Hf). destruct Hh as [-> | ->]; cbn in HP.
    + right. split; [done|]. rw HP. intros H. specialize (H i Hi). congruence.
    + left. split; [done|]. apply HP. eauto.
  - pose proof (proj1 (bits_any_false f bits) E) as H. destruct Hh as [-> | ->]; cbn in HP.
    + left. split; [done|]. by apply HP.
    + right. split; [done|]. rw HP. intros (i & Hi & Hf). specialize (H i Hi). congruence.
Qed.

#[export] Instance equal_query : SetQuery __bitmap_equal eq.
Proof.
  intros m1 m2 bits H1 H2. eexists. split; [by apply equal_spec|]. apply (truth_any _ _ bits 0); [by left|]. cbn.
  rw set_eq. split.
  - intros H i Hi. specialize (H i). rw !elem_of_bits_of in H.
    assert (bitat m1 i = bitat m2 i) as -> by (apply Bool.eq_true_iff_eq; tauto). by destruct (bitat m2 i).
  - intros H i. rw !elem_of_bits_of. split; intros [Hi Hb]; specialize (H i Hi);
      (split; [done|]); destruct (bitat m1 i), (bitat m2 i); done.
Qed.

#[export] Instance subset_query : SetQuery __bitmap_subset (⊆).
Proof.
  intros m1 m2 bits H1 H2. eexists. split; [by apply subset_spec|]. apply (truth_any _ _ bits 0); [by left|]. cbn.
  split.
  - intros H i Hi. specialize (H i). rw !elem_of_bits_of in H. destruct (bitat m1 i); [|done].
    by destruct H as [_ ->].
  - intros H i. rw !elem_of_bits_of. intros [Hi Hb]. specialize (H i Hi). rw Hb in H. by destruct (bitat m2 i).
Qed.

#[export] Instance intersects_query : SetQuery __bitmap_intersects (λ X Y, X ∩ Y ≠ ∅).
Proof.
  intros m1 m2 bits H1 H2. eexists. split; [by apply intersects_spec|]. apply (truth_any _ _ bits 1); [by right|]. cbn.
  split.
  - intros [i Hi]%set_choose_L. rw elem_of_intersection !elem_of_bits_of in Hi. destruct Hi as [[Hi Hb1] [_ Hb2]].
    exists i. by rw Hb1 Hb2.
  - intros (i & Hi & [Hb1 Hb2]%andb_true_iff) H. apply (not_elem_of_empty (C := gset Z) i). rewrite <- H.
    rw elem_of_intersection !elem_of_bits_of. done.
Qed.

(** The weight is the size of the set. *)
Lemma size_bits_of m (n : nat) : Z.of_nat (size (bits_of m (Z.of_nat n))) = count (bitat m) n.
Proof.
  induction n as [|n IH]; [done|]. cbn [count]. rewrite <- IH.
  assert (bits_of m (Z.of_nat (S n)) =
    (if bitat m (Z.of_nat n) then {[Z.of_nat n]} else ∅) ∪ bits_of m (Z.of_nat n)) as ->.
  { apply set_eq. intros i. rw elem_of_union !elem_of_bits_of. destruct (bitat m (Z.of_nat n)) eqn:E.
    - rw elem_of_singleton. split; [|intros [->|[? ?]]; (split; [lia|done])].
      intros [Hi Hb]. destruct (decide (i = Z.of_nat n)); [by left|]. right. split; [lia|done].
    - split; [|intros [[]%not_elem_of_empty|[? ?]]; split; [lia|done]].
      intros [Hi Hb]. right. destruct (decide (i = Z.of_nat n)) as [->|]; [congruence|]. split; [lia|done]. }
  destruct (bitat m (Z.of_nat n)).
  - rw size_union; [rw size_singleton; cbn; lia|]. intros i ->%elem_of_singleton. rw elem_of_bits_of. lia.
  - rw (left_id_L ∅ (∪)). cbn. lia.
Qed.

Lemma bits_of_empty m bits : bits_of m bits = ∅ ↔ ∀ i, 0 ≤ i < bits → bitat m i = false.
Proof.
  rw set_eq. split.
  - intros H i Hi. destruct (bitat m i) eqn:E; [|done]. destruct (not_elem_of_empty (C := gset Z) i).
    apply H, elem_of_bits_of. done.
  - intros H i. rw elem_of_bits_of. split; [|by intros ?%not_elem_of_empty].
    intros [Hi Hb]. rw H in Hb; done.
Qed.

Lemma bits_of_full m bits : bits_of m bits = universe bits ↔ ∀ i, 0 ≤ i < bits → bitat m i = true.
Proof.
  rw set_eq. setoid_rewrite elem_of_bits_of. setoid_rewrite elem_of_universe. split.
  - intros H i Hi. by apply H.
  - intros H i. split; [by intros [? _]|]. eauto.
Qed.

(** The value [__bitmap_and] and [__bitmap_andnot] return: it counts the unused bits too. *)
Lemma words_any_truth (f : Z → bool) bits d dst :
  0 ≤ bits → upd_words f (BITS_TO_LONGS bits) dst d → clean d bits →
  truth (bits_of d bits ≠ ∅) (if bits_any f (64 * BITS_TO_LONGS bits) then 1 else 0).
Proof.
  intros Hb Hu Hc. apply (truth_any _ f (64 * BITS_TO_LONGS bits) 1); [by right|]. cbn.
  pose proof (longs_cover bits Hb). split.
  - intros [i [Hi Hf]%elem_of_bits_of]%set_choose_L. exists i. split; [lia|].
    by rewrite <- (upd_words_below f bits dst d).
  - intros (i & Hi & Hf) E. assert (bitat d i = true) as Hd.
    { destruct Hu as (_ & _ & Hu). rw Hu; [|lia]. by ztest. }
    destruct (Z.lt_ge_cases i bits).
    + pose proof (proj1 (bits_of_empty d bits) E i ltac:(lia)). congruence.
    + rw Hc in Hd; [done|lia].
Qed.

(** ** The contract *)

(** [d] is a bitmap of the size of [dst] that stands for [X]; it is clean if [c] holds. *)
Definition stands_for (dst d : list Z) (bits : Z) (X : gset Z) (c : Prop) : Prop :=
  length d = length dst ∧ words d ∧ bits_of d bits = X ∧ (c → clean d bits).

(** The questions about bitmaps are answered as for the sets, whatever the unused bits hold: empty,
    full, equal, intersects, subset, and the weight is the size of the set. *)
Lemma set_queries m1 m2 bits :
  bitmap_ok m1 bits → bitmap_ok m2 bits →
  let X := bits_of m1 bits in
  let Y := bits_of m2 bits in
  (∃ r, __bitmap_empty m1 bits = Some r ∧ truth (X = ∅) r) ∧
  (∃ r, __bitmap_full m1 bits = Some r ∧ truth (X = universe bits) r) ∧
  (∃ r, __bitmap_equal m1 m2 bits = Some r ∧ truth (X = Y) r) ∧
  (∃ r, __bitmap_intersects m1 m2 bits = Some r ∧ truth (X ∩ Y ≠ ∅) r) ∧
  (∃ r, __bitmap_subset m1 m2 bits = Some r ∧ truth (X ⊆ Y) r) ∧
  __bitmap_weight m1 bits = Some (Z.of_nat (size X)).
Proof.
  intros H1 H2 X Y. split_and!; [| |by apply equal_query|by apply intersects_query|by apply subset_query|].
  - eexists. split; [by apply empty_spec|]. apply (truth_any _ _ bits 0); [by left|]. apply bits_of_empty.
  - eexists. split; [by apply full_spec|]. apply (truth_any _ _ bits 0); [by left|]. cbn. rw /X bits_of_full.
    split; intros H i Hi; specialize (H i Hi); by destruct (bitat m1 i).
  - rw weight_spec //. f_equal. rewrite <- size_bits_of. rw Z2Nat.id //. by eapply bitmap_ok_nonneg.
Qed.

(** C25: The bitmap operations implement the operations on sets of numbers: whatever the unused bits
    of the last words hold, or, xor, and, andnot and complement give bitmaps that stand for
    the union, the symmetric difference, the intersection, the difference and the complement; clean
    operands give clean results; and for clean operands the value that and and andnot
    return says whether the result is non-empty.  The questions are answered as for the sets, whatever the unused bits hold: empty,
    full, equal, intersects, subset, and the weight is the size of the set. *)
Theorem bitmap_set_algebra dst m1 m2 bits :
  bitmap_ok dst bits → bitmap_ok m1 bits → bitmap_ok m2 bits →
  let X := bits_of m1 bits in
  let Y := bits_of m2 bits in
  let c := clean m1 bits ∧ clean m2 bits in
  (∃ d, __bitmap_or dst m1 m2 bits = Some d ∧ stands_for dst d bits (X ∪ Y) c) ∧
  (∃ d, __bitmap_xor dst m1 m2 bits = Some d ∧ stands_for dst d bits ((X ∖ Y) ∪ (Y ∖ X)) c) ∧
  (∃ d r, __bitmap_and dst m1 m2 bits = Some (d, r) ∧ stands_for dst d bits (X ∩ Y) c ∧
     (c → truth (X ∩ Y ≠ ∅) r)) ∧
  (∃ d r, __bitmap_andnot dst m1 m2 bits = Some (d, r) ∧ stands_for dst d bits (X ∖ Y) c ∧
     (c → truth (X ∖ Y ≠ ∅) r)) ∧
  (∃ d, __bitmap_complement dst m1 bits = Some d ∧ stands_for dst d bits (universe bits ∖ X) True) ∧
  ((∃ r, __bitmap_empty m1 bits = Some r ∧ truth (X = ∅) r) ∧
   (∃ r, __bitmap_full m1 bits = Some r ∧ truth (X = universe bits) r) ∧
   (∃ r, __bitmap_equal m1 m2 bits = Some r ∧ truth (X = Y) r) ∧
   (∃ r, __bitmap_intersects m1 m2 bits = Some r ∧ truth (X ∩ Y ≠ ∅) r) ∧
   (∃ r, __bitmap_subset m1 m2 bits = Some r ∧ truth (X ⊆ Y) r) ∧
   __bitmap_weight m1 bits = Some (Z.of_nat (size X))).
Proof.
  intros Hd H1 H2 X Y c. destruct (Hd) as [Hdw Hdc].
  destruct (and_spec dst m1 m2 bits Hdw Hdc H1 H2) as (da & Ea & Ua).
  destruct (andnot_spec dst m1 m2 bits Hdw Hdc H1 H2) as (dn & En & Un).
  destruct (complement_spec dst m1 bits Hdw Hdc H1) as (dc & Ec & Uc).
  destruct (or_set_op dst m1 m2 bits Hd H1 H2) as (do & Eo & ? & ? & ? & ?).
  destruct (xor_set_op dst m1 m2 bits Hd H1 H2) as (dx & Ex & ? & ? & ? & ?).
  destruct (and_set_op dst m1 m2 bits Hd H1 H2) as (da' & Ea' & ? & ? & Sa & Ca).
  destruct (andnot_set_op dst m1 m2 bits Hd H1 H2) as (dn' & En' & ? & ? & Sn & Cn).
  rw Ea in Ea'. rw En in En'. injection Ea' as <-. injection En' as <-.
  refine (conj _ (conj _ (conj _ (conj _ (conj _ (set_queries m1 m2 bits H1 H2)))))).
  - exists do. by split_and!; [|split_and!; [..|intros [? ?]; auto]].
  - exists dx. by split_and!; [|split_and!; [..|intros [? ?]; auto]].
  - exists da. eexists. split_and!; [exact Ea|by split_and!; [..|intros [? ?]; auto]|].
    intros [? ?]. rw /X /Y -Sa. by eapply words_any_truth; [apply Hdc|exact Ua|auto].
  - exists dn. eexists. split_and!; [exact En|by split_and!; [..|intros [? ?]; auto]|].
    intros [? ?]. rw /X /Y -Sn. by eapply words_any_truth; [apply Hdc|exact Un|auto].
  - exists dc. split; [done|]. destruct (Uc) as (? & ? & _). split_and!; [done|done| |intros _].
    + apply (upd_words_set _ _ _ _ _ Uc); intros i Hi.
      * rw elem_of_difference elem_of_universe elem_of_bits_of. ztest. cbn.
        destruct (bitat m1 i); naive_solver.
      * apply elem_of_difference in Hi as [Hi _]. by apply elem_of_universe.
    + eapply upd_words_clean; [apply Hdc|exact Uc|]. intros i Hi. cbn. by ztest.
Qed.

Lemma demo_ok : bitmap_ok [0x0f] 10 ∧ bitmap_ok [0x3c] 10.
Proof. split; (split; [words_concrete|split; cbn; lia]). Qed.

Lemma bitmap_set_algebra_witness :
  (∃ d, __bitmap_or [0] [0x0f] [0x3c] 10 = Some d ∧ bits_of d 10 = bits_of [0x0f] 10 ∪ bits_of [0x3c] 10) ∧
  __bitmap_weight [0x0f] 10 = Some (Z.of_nat (size (bits_of [0x0f] 10))).
Proof.
  destruct (bitmap_set_algebra [0x0f] [0x0f] [0x3c] 10 (proj1 demo_ok) (proj1 demo_ok) (proj2 demo_ok))
    as ((d & E & _ & _ & S & _) & _ & _ & _ & _ & (_ & _ & _ & _ & _ & W)).
  split; [|exact W]. exists d. split; [rewrite <- E; reflexivity|exact S].
Defined.

(** The comment of lib/bitmap.c says that unused bits of the last word do not affect any result, but the
    value [__bitmap_and] returns depends on them: these two bitmaps of 3 bits have the same
    bits, and no bit in common with the second operand, but the returned values differ. *)
Theorem and_result_unused_bits :
  let a := [0x1] in
  let a' := [0x21] in
  let b := [0x22] in
  bits_of a 3 = bits_of a' 3 ∧ __bitmap_equal a a' 3 = Some 1 ∧
  __bitmap_intersects a b 3 = Some 0 ∧ __bitmap_intersects a' b 3 = Some 0 ∧
  snd <$> __bitmap_and [0] a b 3 = Some 0 ∧ snd <$> __bitmap_and [0] a' b 3 = Some 1.
Proof. vm_compute. split_and!; done. Qed.

(** The shifts are exact, in place or into another bitmap: bit [i] of the result is bit [i + shift] (to the
    right) or [i - shift] (to the left) of the source, 0 is shifted in, and the result is
    clean whatever the unused bits of the source hold. *)
Theorem bitmap_shift_exact (alias : bool) dst src shift bits :
  bitmap_ok dst bits → bitmap_ok src bits → (if alias then dst = src else True) → 0 ≤ shift ≤ bits →
  (∃ d, __bitmap_shift_right alias dst src shift bits = Some d ∧
     stands_for dst d bits (filter (λ i : Z, 0 ≤ i) (set_map (D := gset Z) (λ i, i - shift) (bits_of src bits))) True) ∧
  (∃ d, __bitmap_shift_left alias dst src shift bits = Some d ∧
     stands_for dst d bits (filter (λ i : Z, i < bits) (set_map (D := gset Z) (λ i, i + shift) (bits_of src bits))) True).
Proof.
  intros [Hd Hc] Hs Ha Hsh. split.
  - destruct (shift_right_spec alias dst src shift bits Hd Hc Hs Ha ltac:(pose proof (longs_cover bits); lia)) as (d & E & U).
    exists d. split; [done|]. destruct (U) as (? & ? & _). split_and!; [done|done| |intros _].
    + apply (upd_words_set _ _ _ _ _ U); intros i; rw elem_of_filter elem_of_map.
      * intros Hi. split.
        -- intros [? ?]%andb_true_iff. zbool. split; [lia|]. exists (i + shift). rw elem_of_bits_of. split; [lia|]. by split; [lia|].
        -- intros [_ (j & -> & [Hj Hb]%elem_of_bits_of)]. replace (j - shift + shift) with j by lia. rw Hb. by ztest.
      * intros [Hi (j & -> & [Hj Hb]%elem_of_bits_of)]. lia.
    + eapply upd_words_clean; [apply Hc|exact U|]. intros i Hi. cbn. by ztest.
  - destruct (shift_left_spec alias dst src shift bits Hd Hc Hs Ha ltac:(pose proof (longs_cover bits); lia)) as (d & E & U).
    exists d. split; [done|]. destruct (U) as (? & ? & _). split_and!; [done|done| |intros _].
    + apply (upd_words_set _ _ _ _ _ U); intros i; rw elem_of_filter elem_of_map.
      * intros Hi. split.
        -- intros [? [? ?]%andb_true_iff]%andb_true_iff. zbool. split; [lia|]. exists (i - shift).
           rw elem_of_bits_of. split; [lia|]. by split; [lia|].
        -- intros [_ (j & -> & [Hj Hb]%elem_of_bits_of)]. replace (j + shift - shift) with j by lia. rw Hb. by ztest.
      * intros [Hi (j & -> & [Hj Hb]%elem_of_bits_of)]. lia.
    + eapply upd_words_clean; [apply Hc|exact U|]. intros i Hi. cbn. by ztest.
Qed.

Lemma bitmap_shift_exact_witness :
  ∃ d, __bitmap_shift_left true [0x0f] [0x0f] 7 10 = Some d ∧ clean d 10.
Proof.
  destruct (bitmap_shift_exact true [0x0f] [0x0f] 7 10 (proj1 demo_ok) (proj1 demo_ok) eq_refl ltac:(lia))
    as [_ (d & E & _ & _ & _ & C)].
  exists d. split; [exact E|exact (C I)].
Defined.

(** [bitmap_set] and [bitmap_clear] add and remove exactly an interval of bits. *)
Lemma bitmap_set_clear_range map start nr bits :
  bitmap_ok map bits → 0 ≤ start → 0 ≤ nr → start + nr ≤ bits →
  (∃ m, bitmap_set map start nr = Some m ∧ length m = length map ∧ words m ∧
     bits_of m bits = bits_of map bits ∪ interval start nr) ∧
  (∃ m, bitmap_clear map start nr = Some m ∧ length m = length map ∧ words m ∧
     bits_of m bits = bits_of map bits ∖ interval start nr).
Proof.
  intros [Hw Hc] Hs Hn Hb. assert (start + nr ≤ 64 * Z.of_nat (length map)) as Hl by (destruct Hc as [[? ?] ?]; lia).
  split.
  - destruct (set_spec map start nr Hw Hs Hn Hl) as (m & E & ? & ? & H). exists m. split_and!; [done..|].
    apply set_eq. intros i. rw elem_of_union !elem_of_bits_of elem_of_interval. split.
    + intros [Hi Hbit]. rw H in Hbit; [|lia]. destruct (_ && _) eqn:Ei in Hbit; zbool; [right; lia|by left].
    + intros [[Hi Hbit]|Hi]; (split; [lia|]); rw H; [case_if; done|lia|by ztest|lia].
  - destruct (clear_spec map start nr Hw Hs Hn Hl) as (m & E & ? & ? & H). exists m. split_and!; [done..|].
    apply set_eq. intros i. rw elem_of_difference !elem_of_bits_of elem_of_interval. split.
    + intros [Hi Hbit]. rw H in Hbit; [|lia]. destruct (_ && _) eqn:Ei in Hbit; zbool; [done|].
      split; [done|]. intros ?. destruct Ei; zbool; lia.
    + intros [[Hi Hbit] Hni]. split; [done|]. rw H; [|lia]. case_if; [lia|done].
Qed.

Lemma bitmap_set_clear_range_witness :
  ∃ m, bitmap_set [0x0f] 6 4 = Some m ∧ length m = 1%nat ∧ words m ∧ bits_of m 10 = bits_of [0x0f] 10 ∪ interval 6 4.
Proof. apply (bitmap_set_clear_range [0x0f] 6 4 10 (proj1 demo_ok)); lia. Defined.

(** The searches find the next set bit, the next zero bit and the last set bit of a bitmap, or return its
    size; the first-bit variants start at 0. *)
Theorem find_bits_correct addr size offset :
  words addr → covers addr size → in_width 64 offset →
  (∃ r, find_next_bit addr size offset = Some r ∧
     if size <=? offset then r = size else is_next (bitat addr) offset size r) ∧
  (∃ r, find_next_zero_bit addr size offset = Some r ∧
     if size <=? offset then r = size else is_next (λ i, negb (bitat addr i)) offset size r) ∧
  (∃ r, find_first_bit addr size = Some r ∧ is_next (bitat addr) 0 size r) ∧
  (∃ r, find_first_zero_bit addr size = Some r ∧ is_next (λ i, negb (bitat addr i)) 0 size r) ∧
  (∃ r, find_last_bit addr size = Some r ∧ is_last (bitat addr) size r).
Proof.
  intros Hw Hc Ho. destruct (Ho) as [? ?].
  split_and!; [by apply find_next_bit_next|by apply find_next_zero_bit_next|by apply find_first_bit_next
    |by apply find_first_zero_bit_next|by apply find_last_bit_last].
Qed.

Lemma find_bits_correct_witness :
  ∃ r, find_next_bit [0; 0x10] 128 3 = Some r ∧
     if 128 <=? 3 then r = 128 else is_next (bitat [0; 0x10]) 3 128 r.
Proof.
  apply (find_bits_correct [0; 0x10] 128 3); [words_concrete|split; cbn; lia|split; vm_compute; congruence].
Defined.

(** [bitmap_find_next_zero_area] is first fit: it returns the lowest aligned position from [start] on where
    [nr] bits are zero, or a number above [size] when there is none. *)
Theorem zero_area_first_fit map size start nr a :
  words map → covers map size → 0 ≤ start < 2 ^ 64 → 0 < nr → 0 ≤ a ≤ 64 →
  size + (2 ^ a - 1) + nr < 2 ^ 64 →
  ∃ r, bitmap_find_next_zero_area map size start nr (2 ^ a - 1) = Some r ∧
    (free_area map size nr a r ∧ start ≤ r ∧
       (∀ r', start ≤ r' < r → ¬ free_area map size nr a r') ∨
     size < r ∧ ∀ r', start ≤ r' → ¬ free_area map size nr a r').
Proof. apply zero_area_spec. Qed.

Lemma zero_area_first_fit_witness :
  ∃ r, bitmap_find_next_zero_area [0x13] 64 0 2 (2 ^ 1 - 1) = Some r ∧
    (free_area [0x13] 64 2 1 r ∧ 0 ≤ r ∧ (∀ r', 0 ≤ r' < r → ¬ free_area [0x13] 64 2 1 r') ∨
     64 < r ∧ ∀ r', 0 ≤ r' → ¬ free_area [0x13] 64 2 1 r').
Proof.
  apply (zero_area_first_fit [0x13] 64 0 2 1); [words_concrete|split; cbn; lia|lia|lia|lia|].
  vm_compute; congruence.
Defined.

(** Positions and ordinals of set bits are in bijection: [bitmap_ord_to_pos] undoes [bitmap_pos_to_ord] on every
    set bit, and the other way round on every ordinal below the weight. *)
Theorem ord_pos_bijection buf bits :
  bitmap_ok buf bits →
  (∀ pos, pos ∈ bits_of buf bits →
     ∃ ord, bitmap_pos_to_ord buf pos bits = Some ord ∧ 0 ≤ ord < Z.of_nat (size (bits_of buf bits)) ∧
       bitmap_ord_to_pos buf ord bits = Some pos) ∧
  (∀ ord, 0 ≤ ord < Z.of_nat (size (bits_of buf bits)) →
     ∃ pos, bitmap_ord_to_pos buf ord bits = Some pos ∧ pos ∈ bits_of buf bits ∧
       bitmap_pos_to_ord buf pos bits = Some ord) ∧
  (∀ pos, pos ∉ bits_of buf bits → bitmap_pos_to_ord buf pos bits = Some (-1)).
Proof.
  intros Hok. pose proof (bitmap_ok_nonneg _ _ Hok) as Hb.
  assert (Z.of_nat (size (bits_of buf bits)) = count (bitat buf) (Z.to_nat bits)) as ->.
  { rewrite <- size_bits_of. by rw Z2Nat.id. }
  split_and!.
  - intros pos [Hp Hbit]%elem_of_bits_of. eexists. rw (pos_to_ord_spec buf bits Hok). ztest. rw Hbit. split; [done|].
    split; [|by apply ord_pos_roundtrip_aux]. split; [apply count_bounds|].
    eapply Z.lt_le_trans; [|apply (count_mono _ (S (Z.to_nat pos))); lia].
    rw count_S_true; [lia|]. by rw Z2Nat.id; [|lia].
  - intros ord Ho. destruct (ord_to_pos_spec buf bits Hok ord) as (p & E & Hlt & _); [lia|].
    destruct (Hlt ltac:(lia)) as [(Hp & Hbit & Hcnt) Hpb]. exists p. split; [done|].
    split; [by apply elem_of_bits_of|]. rw (pos_to_ord_spec buf bits Hok). ztest. by rw Hbit Hcnt.
  - intros pos Hn. rw (pos_to_ord_spec buf bits Hok). case_if; [|done]. destruct Hn. by apply elem_of_bits_of.
Qed.

Lemma ord_pos_bijection_witness :
  ∃ pos, bitmap_ord_to_pos [0x3c] 2 10 = Some pos ∧ pos ∈ bits_of [0x3c] 10 ∧
    bitmap_pos_to_ord [0x3c] pos 10 = Some 2.
Proof.
  apply (proj1 (proj2 (ord_pos_bijection [0x3c] 10 (proj2 demo_ok)))). vm_compute. split; congruence.
Defined.

Lemma exists_bits_of m bits (P : Z → Prop) :
  (∃ i, i ∈ bits_of m bits ∧ P i) ↔ ∃ i, 0 ≤ i < bits ∧ bitat m i = true ∧ P i.
Proof. setoid_rewrite elem_of_bits_of. split; intros (i & ?); exists i; tauto. Qed.

(** [bitmap_remap] moves the bit at the [n]-th set position of [old] to the [n mod w]-th set position of [new]
    and keeps the other bits; [bitmap_onto] sets the positions of [relmap] whose ordinal is in [orig];
    [bitmap_fold] reduces every position modulo [sz]. *)
Theorem remap_onto_fold dst src old new bits sz :
  bitmap_ok dst bits → bitmap_ok src bits → bitmap_ok old bits → bitmap_ok new bits → 0 < sz →
  (∃ d, bitmap_remap false dst src old new bits = Some d ∧
     dst_bits (λ j, ∃ i, i ∈ bits_of src bits ∧ remap_to old new bits i j) bits dst d) ∧
  (∃ d, bitmap_onto false dst src new bits = Some d ∧
     dst_bits (λ n, bitat new n = true ∧ bitat src (count (bitat new) (Z.to_nat n)) = true) bits dst d) ∧
  (∃ d, bitmap_fold false dst src sz bits = Some d ∧
     dst_bits (λ j, ∃ i, i ∈ bits_of src bits ∧ j = i mod sz) bits dst d).
Proof.
  intros [Hd Hc] Hs Ho Hn Hsz. split_and!.
  - destruct (remap_spec dst src old new bits Hd Hc Hs Ho Hn) as (d & E & ? & ? & H). exists d. split; [done|].
    split_and!; [done..|]. intros i Hi. by rw H // exists_bits_of.
  - by apply onto_spec.
  - destruct (fold_spec dst src sz bits Hd Hc Hs Hsz) as (d & E & ? & ? & H). exists d. split; [done|].
    split_and!; [done..|]. intros i Hi. by rw H // exists_bits_of.
Qed.

Lemma remap_onto_fold_witness :
  ∃ d, bitmap_onto false [0x0f] [0x0f] [0x3c] 10 = Some d ∧
    dst_bits (λ n, bitat [0x3c] n = true ∧ bitat [0x0f] (count (bitat [0x3c]) (Z.to_nat n)) = true) 10 [0x0f] d.
Proof.
  apply (remap_onto_fold [0x0f] [0x0f] [0x0f] [0x3c] 10 3); apply demo_ok || lia.
Defined.

(** The word primitives: [__ffs] and [__fls] give the lowest and the highest set bit of a non-zero word,
    [ffz] the lowest zero bit, [fls] is 1-based with 0 for 0, and the four population counts, with and
    without a fast multiplier, count the set bits. *)
Lemma word_primitives x fast :
  in_width 64 x →
  (x ≠ 0 → lowest_set x (__ffs x) ∧ highest_set x (__fls x)) ∧
  (x ≠ 2 ^ 64 - 1 → lowest_set (bnot 64 x) (ffz x)) ∧
  (in_width 32 x → (x = 0 ∧ fls x = 0) ∨ (highest_set x (fls x - 1) ∧ 1 ≤ fls x ≤ 32)) ∧
  __sw_hweight64 fast x = count (Z.testbit x) 64 ∧
  (in_width 32 x → __sw_hweight32 fast x = count (Z.testbit x) 32) ∧
  (in_width 16 x → __sw_hweight16 x = count (Z.testbit x) 16) ∧
  (in_width 8 x → __sw_hweight8 x = count (Z.testbit x) 8).
Proof.
  intros Hx. split_and!.
  - intros Hne. split; [by apply ffs_spec|by apply fls64_spec].
  - intros Hne. rw /ffz. apply ffs_spec; [by apply in_width_bnot|]. intros H. destruct Hne.
    change (2 ^ 64 - 1) with (Z.ones 64). apply (word_ext 64); [lia|done|by apply in_width_ones|].
    intros i Hi. rw testbit_ones; [|lia]. ztest. apply (f_equal (λ z, Z.testbit z i)) in H.
    rw testbit_bnot in H; [|lia..]. move: H. ztest. rw Z.bits_0. by destruct (Z.testbit x i).
  - apply fls_spec.
  - by apply hweight64_correct.
  - by apply hweight32_correct.
  - apply hweight16_correct.
  - apply hweight8_correct.
Qed.

Lemma word_primitives_witness : lowest_set 0x50 (__ffs 0x50) ∧ highest_set 0x50 (__fls 0x50).
Proof. apply (proj1 (word_primitives 0x50 true ltac:(split; vm_compute; congruence))). congruence. Defined.
