(* ===== verification/BitmapInline.v ===== *)
(** * Bitmaps of a constant size: the inline functions of include/linux/bitmap.h

    If the compiler knows that a bitmap fits a word, the operation is one expression; otherwise the function of lib/bitmap.c is called.  The two ways agree. *)
From S2P Require Import Prelude Bitops FindBit Bitmap BitmapShift BitmapMap BitmapLaws.

(** ** Definitions *)

(** [const] is what [__builtin_constant_p] says. *)
Definition small_const_nbits (const : bool) (nbits : Z) : bool := const && (nbits <=? BITS_PER_LONG).

Definition bitmap_fill (const : bool) (dst : list Z) (nbits : Z) : option (list Z) :=
  let nlongs := BITS_TO_LONGS nbits in
  dst ← (if negb (small_const_nbits const nbits) then fill_words (nlongs - 1) (λ _, Some (Z.ones 64)) dst else Some dst);
  wr dst (nlongs - 1) (BITMAP_LAST_WORD_MASK nbits).

Definition bitmap_copy (const : bool) (dst src : list Z) (nbits : Z) : option (list Z) :=
  if small_const_nbits const nbits then w ← rd src 0; wr dst 0 w else fill_words (BITS_TO_LONGS nbits) (λ k, rd src k) dst.

Definition bitmap_and (const : bool) (dst src1 src2 : list Z) (nbits : Z) : option (list Z * Z) :=
  if small_const_nbits const nbits then
    w1 ← rd src1 0; w2 ← rd src2 0; dst ← wr dst 0 (Z.land w1 w2); Some (dst, Z.b2z (negb (Z.land w1 w2 =? 0)))
  else __bitmap_and dst src1 src2 nbits.

Definition bitmap_or (const : bool) (dst src1 src2 : list Z) (nbits : Z) : option (list Z) :=
  if small_const_nbits const nbits then w1 ← rd src1 0; w2 ← rd src2 0; wr dst 0 (Z.lor w1 w2) else __bitmap_or dst src1 src2 nbits.

Definition bitmap_xor (const : bool) (dst src1 src2 : list Z) (nbits : Z) : option (list Z) :=
  if small_const_nbits const nbits then w1 ← rd src1 0; w2 ← rd src2 0; wr dst 0 (Z.lxor w1 w2) else __bitmap_xor dst src1 src2 nbits.

Definition bitmap_andnot (const : bool) (dst src1 src2 : list Z) (nbits : Z) : option (list Z * Z) :=
  if small_const_nbits const nbits then
    w1 ← rd src1 0; w2 ← rd src2 0; dst ← wr dst 0 (Z.land w1 (bnot 64 w2)); Some (dst, Z.b2z (negb (Z.land w1 (bnot 64 w2) =? 0)))
  else __bitmap_andnot dst src1 src2 nbits.

Definition bitmap_complement (const : bool) (dst src : list Z) (nbits : Z) : option (list Z) :=
  if small_const_nbits const nbits then w ← rd src 0; wr dst 0 (Z.land (bnot 64 w) (BITMAP_LAST_WORD_MASK nbits)) else __bitmap_complement dst src nbits.

Definition bitmap_equal (const : bool) (src1 src2 : list Z) (nbits : Z) : option Z :=
  if small_const_nbits const nbits then w1 ← rd src1 0; w2 ← rd src2 0; Some (Z.b2z (Z.land (Z.lxor w1 w2) (BITMAP_LAST_WORD_MASK nbits) =? 0)) else __bitmap_equal src1 src2 nbits.

Definition bitmap_intersects (const : bool) (src1 src2 : list Z) (nbits : Z) : option Z :=
  if small_const_nbits const nbits then w1 ← rd src1 0; w2 ← rd src2 0; Some (Z.b2z (negb (Z.land (Z.land w1 w2) (BITMAP_LAST_WORD_MASK nbits) =? 0))) else __bitmap_intersects src1 src2 nbits.

Definition bitmap_subset (const : bool) (src1 src2 : list Z) (nbits : Z) : option Z :=
  if small_const_nbits const nbits then w1 ← rd src1 0; w2 ← rd src2 0; Some (Z.b2z (Z.land (Z.land w1 (bnot 64 w2)) (BITMAP_LAST_WORD_MASK nbits) =? 0)) else __bitmap_subset src1 src2 nbits.

Definition bitmap_empty (const : bool) (src : list Z) (nbits : Z) : option Z :=
  if small_const_nbits const nbits then w ← rd src 0; Some (Z.b2z (Z.land w (BITMAP_LAST_WORD_MASK nbits) =? 0)) else __bitmap_empty src nbits.

Definition bitmap_full (const : bool) (src : list Z) (nbits : Z) : option Z :=
  if small_const_nbits const nbits then w ← rd src 0; Some (Z.b2z (Z.land (bnot 64 w) (BITMAP_LAST_WORD_MASK nbits) =? 0)) else __bitmap_full src nbits.

Definition bitmap_weight (const : bool) (src : list Z) (nbits : Z) : option Z :=
  if small_const_nbits const nbits then w ← rd src 0; Some (hweight_long (Z.land w (BITMAP_LAST_WORD_MASK nbits))) else __bitmap_weight src nbits.

(** On a little-endian machine [cpu_to_le64] changes nothing. *)
Definition bitmap_copy_le (dst src : list Z) (nbits : Z) : option (list Z) := fill_words (nbits ÷ BITS_PER_LONG) (λ k, rd src k) dst.

(** [alias] says that [dst == src]; a shift by 64 and more is undefined. *)
Definition bitmap_shift_right (const alias : bool) (dst src : list Z) (n nbits : Z) : option (list Z) :=
  if small_const_nbits const nbits then
    if BITS_PER_LONG <=? n then None else w ← rd src 0; wr dst 0 (Z.shiftr w n)
  else __bitmap_shift_right alias dst src n nbits.

Definition bitmap_shift_left (const alias : bool) (dst src : list Z) (n nbits : Z) : option (list Z) :=
  if small_const_nbits const nbits then
    if BITS_PER_LONG <=? n then None else w ← rd src 0; wr dst 0 (Z.land (bshl 64 w n) (BITMAP_LAST_WORD_MASK nbits))
  else __bitmap_shift_left alias dst src n nbits.

(** The fast shift to the right takes unused bits of the word into the bitmap, the general one does not. *)
Example shift_right_unused_bits : bitmap_shift_right true false [0] [0x30] 1 4 = Some [0x18] ∧ bitmap_shift_right false false [0] [0x30] 1 4 = Some [0].
Proof. vm_compute. done. Qed.

(** ** One word *)

Lemma mask_ones n : 0 ≤ n < 64 → bshl 64 1 n - 1 = Z.ones n.
Proof. intros Hn. rw /bshl. rewrite -> Z.shiftl_1_l, land_ones_wrap, wrap_small by first [lia|split; [apply Z.pow_nonneg; lia|apply Z.pow_lt_mono_r; lia]]. rewrite -> Z.ones_equiv. lia. Qed.

Section small.
Context (n : Z) (Hn : 0 < n ≤ 64).

Lemma one_long : BITS_TO_LONGS n = 1.
Proof using Hn. rw /BITS_TO_LONGS. zdm. Qed.

(** The two shapes of a bitmap of one word. *)
Lemma small_cases : n = 64 ∧ BITMAP_LAST_WORD_MASK n = Z.ones 64 ∧ n ÷ 64 = 1 ∧ Z.rem n 64 = 0 ∨ n < 64 ∧ BITMAP_LAST_WORD_MASK n = Z.ones n ∧ n ÷ 64 = 0 ∧ Z.rem n 64 = n.
Proof using Hn.
  destruct (Z.eq_dec n 64) as [->|]; [by left|right]. split; [lia|]. split; [|split; [apply Z.quot_small; lia|apply Z.rem_small; lia]]. rw /BITMAP_LAST_WORD_MASK. rewrite -> Z.rem_small by lia. ztest. cbn [negb].
  apply mask_ones. lia.
Qed.

Lemma first_word m : covers m n → ∃ w r, m = w :: r.
Proof using Hn. intros [[_ H] _]. destruct m as [|w r]; [cbn in H; lia|by exists w, r]. Qed.

Lemma scan_one test last hit miss v : test 0 = Some (negb (v =? 0)) → last 0 = Some v → in_width 64 v →
  scan_bits n test last hit miss = Some (if negb (Z.land v (BITMAP_LAST_WORD_MASK n) =? 0) then hit else miss).
Proof using Hn.
  intros Ht Hl Hv. rw /scan_bits. change BITS_PER_LONG with 64. destruct small_cases as [(_ & -> & -> & ->)|(Hlt & _ & Eq & Er)].
  - rewrite -> land_ones_wrap, wrap_small by done. change (Z.to_nat 1) with 1%nat. cbn [for_up]. rewrite -> Ht. cbn [mbind option_bind]. by destruct (v =? 0).
  - rewrite -> Eq, Er, (proj2 (Z.eqb_neq n 0)) by lia. change (Z.to_nat 0) with 0%nat. cbn [for_up mbind option_bind negb]. rewrite -> Hl. cbn [mbind option_bind]. by destruct (Z.land v _ =? 0).
Qed.

Lemma fill_one val dst : fill_words 1 val dst = (v ← val 0; wr dst 0 v).
Proof using. rw /fill_words. change (Z.to_nat 1) with 1%nat. cbn [for_each]. destruct (val 0) as [v|]; [|done]. cbn. by destruct (wr dst 0 v). Qed.

Lemma fill_result_one val dst : fill_words_result 1 val dst = (v ← val 0; dst ← wr dst 0 v; Some (dst, Z.b2z (negb (v =? 0)))).
Proof using. rw /fill_words_result. change (Z.to_nat 1) with 1%nat. cbn [for_each]. destruct (val 0) as [v|]; [|done]. cbn [mbind option_bind]. destruct (wr dst 0 v); [|done]. cbn [mbind option_bind]. rewrite -> Z.lor_0_l. by destruct (v =? 0). Qed.

Lemma complement_one w r dst : in_width 64 w → __bitmap_complement dst (w :: r) n = wr dst 0 (Z.land (bnot 64 w) (BITMAP_LAST_WORD_MASK n)).
Proof using Hn.
  intros Hw. rw /__bitmap_complement. change BITS_PER_LONG with 64. destruct small_cases as [(_ & -> & -> & ->)|(Hlt & Em & Eq & Er)].
  - rewrite -> fill_one, land_ones_wrap, wrap_small by (done || by apply in_width_bnot). change (rd (w :: r) 0) with (Some w). cbn [mbind option_bind]. by destruct (wr dst 0 (bnot 64 w)).
  - rewrite -> Eq, Er, (proj2 (Z.eqb_neq n 0)) by lia. done.
Qed.

Lemma weight_one w r : in_width 64 w → __bitmap_weight (w :: r) n = Some (hweight_long (Z.land w (BITMAP_LAST_WORD_MASK n))).
Proof using Hn.
  intros Hw. rw /__bitmap_weight. change BITS_PER_LONG with 64. destruct small_cases as [(_ & -> & -> & ->)|(Hlt & Em & Eq & Er)].
  - rewrite -> land_ones_wrap, wrap_small by done. done.
  - rewrite -> Eq, Er, (proj2 (Z.eqb_neq n 0)) by lia. done.
Qed.

(** A mask and a shift of one word. *)
Lemma shift_left_one (alias : bool) (dst src : list Z) w r k : (if alias then dst = src else True) → src = w :: r → in_width 64 w → (0 < length dst)%nat → 0 ≤ k < 64 →
  __bitmap_shift_left alias dst src k n = wr dst 0 (Z.land (bshl 64 w k) (BITMAP_LAST_WORD_MASK n)).
Proof using Hn.
  intros Ha -> Hw Hd Hk. rw /__bitmap_shift_left. change BITS_PER_LONG with 64. rewrite -> one_long, (Z.quot_small k), (Z.rem_small k) by lia.
  change (Z.to_nat (1 - 0)) with 1%nat. cbn [for_each]. change (1 - 0 - 1 - 0) with 0. change (0 <? 0) with false. rewrite -> andb_false_r. cbn [mbind option_bind].
  assert (rd (if alias then dst else w :: r) 0 = Some w) as -> by (destruct alias; [by subst dst|done]). cbn [mbind option_bind]. change (0 =? 1 - 1) with true. change (0 + 0 =? 1 - 1) with true. rewrite -> Z.shiftr_0_l, Z.lor_0_l, !andb_true_r.
  change (negb (0 =? 0)) with false. cbn iota. change (0 + 0) with 0.
  match goal with |- context [wr dst 0 ?x] => assert (x = Z.land (bshl 64 w k) (BITMAP_LAST_WORD_MASK n)) as -> end; [|by destruct (wr dst 0 _)].
  destruct small_cases as [(-> & -> & _ & ->)|(Hlt & Em & _ & Er)]; cbn [negb Z.eqb].
  - rewrite -> land_ones_wrap, wrap_small; [done|by apply in_width_bshl|done].
  - rewrite -> Er, Em, (proj2 (Z.eqb_neq n 0)) by lia. cbn [negb]. rewrite -> mask_ones by lia.
    apply Z.bits_inj'. intros i Hi. rewrite -> !Z.land_spec, !testbit_bshl, Z.land_spec, !testbit_ones by lia. destruct (Z.lt_ge_cases i k); [by rewrite -> Z.testbit_neg_r by lia|]. by destruct (Z.lt_ge_cases i n); ztest.
Qed.

Lemma shift_right_one (alias : bool) (dst src : list Z) w r k : (if alias then dst = src else True) → src = w :: r → in_width n w → (0 < length dst)%nat → 0 ≤ k < 64 →
  __bitmap_shift_right alias dst src k n = wr dst 0 (Z.shiftr w k).
Proof using Hn.
  intros Ha -> Hw Hd Hk. rw /__bitmap_shift_right. change BITS_PER_LONG with 64. rewrite -> one_long, (Z.quot_small k), (Z.rem_small k) by lia.
  change (Z.to_nat (1 - 0)) with 1%nat. cbn [for_each]. change (1 <=? 0 + 0 + 1) with true. rewrite -> orb_true_r. cbn [mbind option_bind]. change (0 + 0) with 0.
  assert (rd (if alias then dst else w :: r) 0 = Some w) as -> by (destruct alias; [by subst dst|done]). cbn [mbind option_bind]. change (0 =? 1 - 1) with true. rewrite -> !andb_true_r.
  assert (bshl 64 0 (64 - k) = 0) as -> by (rw /bshl; by rewrite -> Z.shiftl_0_l). rewrite -> Z.lor_0_l. change (negb (0 =? 0)) with false. cbn iota.
  match goal with |- context [wr dst 0 ?x] => assert (x = Z.shiftr w k) as -> end; [|by destruct (wr dst 0 _)].
  destruct small_cases as [(-> & _ & _ & ->)|(Hlt & _ & _ & Er)]; [done|]. rewrite -> Er, (proj2 (Z.eqb_neq n 0)) by lia. cbn [negb]. rewrite -> mask_ones, (land_ones_wrap n w), (wrap_small n w), land_ones_wrap, (wrap_small n (Z.shiftr w k)) by (done || lia || (apply in_width_shiftr; done || lia)). done.
Qed.
End small.

(** ** The two ways agree *)

Lemma const_off nbits : small_const_nbits false nbits = false.
Proof. done. Qed.

Lemma const_on nbits : nbits ≤ 64 → small_const_nbits true nbits = true.
Proof. intros H. rw /small_const_nbits /BITS_PER_LONG. cbn [andb]. by apply Z.leb_le. Qed.

(** C26: The inline functions of include/linux/bitmap.h give the same words and the same results whether the compiler knows that the bitmap fits a word or not, whatever the unused bits hold;
    only bitmap_shift_right needs them to be zero.  So what is proved of the functions of lib/bitmap.c holds for the functions that the kernel calls. *)
Theorem bitmap_inline_equiv (alias : bool) dst src1 src2 n k
    (Hn : 0 < n ≤ 64) (Hd : bitmap_ok dst n) (H1 : bitmap_ok src1 n) (H2 : bitmap_ok src2 n) (Hk : 0 ≤ k < 64) (Halias : if alias then dst = src1 else True) :
  bitmap_fill true dst n = bitmap_fill false dst n ∧ bitmap_copy true dst src1 n = bitmap_copy false dst src1 n ∧
  bitmap_and true dst src1 src2 n = bitmap_and false dst src1 src2 n ∧ bitmap_or true dst src1 src2 n = bitmap_or false dst src1 src2 n ∧
  bitmap_xor true dst src1 src2 n = bitmap_xor false dst src1 src2 n ∧ bitmap_andnot true dst src1 src2 n = bitmap_andnot false dst src1 src2 n ∧
  bitmap_complement true dst src1 n = bitmap_complement false dst src1 n ∧ bitmap_equal true src1 src2 n = bitmap_equal false src1 src2 n ∧
  bitmap_intersects true src1 src2 n = bitmap_intersects false src1 src2 n ∧ bitmap_subset true src1 src2 n = bitmap_subset false src1 src2 n ∧
  bitmap_empty true src1 n = bitmap_empty false src1 n ∧ bitmap_full true src1 n = bitmap_full false src1 n ∧ bitmap_weight true src1 n = bitmap_weight false src1 n ∧
  bitmap_shift_left true alias dst src1 k n = bitmap_shift_left false alias dst src1 k n ∧
  (clean src1 n → bitmap_shift_right true alias dst src1 k n = bitmap_shift_right false alias dst src1 k n).
Proof.
  destruct Hd as [_ Hd], H1 as [Hw1 H1], H2 as [Hw2 H2]. destruct (first_word n Hn src1 H1) as (w1 & r1 & E1), (first_word n Hn src2 H2) as (w2 & r2 & E2), (first_word n Hn dst Hd) as (w0 & r0 & E0).
  assert (in_width 64 w1) as B1 by (rewrite -> E1 in Hw1; by apply Forall_inv in Hw1). assert (in_width 64 w2) as B2 by (rewrite -> E2 in Hw2; by apply Forall_inv in Hw2). pose proof (one_long n Hn) as Hone.
  assert (0 < length dst)%nat as Hl by (rewrite -> E0; cbn; lia). assert (rd src1 0 = Some w1) as R1 by (by rewrite -> E1). assert (rd src2 0 = Some w2) as R2 by (by rewrite -> E2).
  destruct (lxor_bits w1 w2 B1 B2) as [BX _], (land_bits w1 w2 B1 B2) as [BA _], (landnot_bits w1 w2 B1 B2) as [BN _].
  rw /bitmap_fill /bitmap_copy /bitmap_and /bitmap_or /bitmap_xor /bitmap_andnot /bitmap_complement /bitmap_equal /bitmap_intersects /bitmap_subset /bitmap_empty /bitmap_full /bitmap_weight /bitmap_shift_left /bitmap_shift_right.
  rewrite -> !const_off, !const_on, Hone by lia. rw /__bitmap_and /__bitmap_or /__bitmap_xor /__bitmap_andnot. rewrite -> Hone, !fill_one, !fill_result_one, R1, R2. cbn [mbind option_bind negb]. change BITS_PER_LONG with 64. rewrite -> !(proj2 (Z.leb_gt 64 k)) by lia.
  split_and!; try done.
  - by rewrite -> E1, complement_one.
  - rw /__bitmap_equal. rewrite -> (scan_one n Hn _ _ _ _ (Z.lxor w1 w2)); [|rewrite -> R1, R2; cbn [mbind option_bind]; by rewrite -> lxor_eq_0|by rewrite -> R1, R2|done]. by destruct (_ =? 0).
  - rw /__bitmap_intersects. rewrite -> (scan_one n Hn _ _ _ _ (Z.land w1 w2)); [|by rewrite -> R1, R2|by rewrite -> R1, R2|done]. by destruct (_ =? 0).
  - rw /__bitmap_subset. rewrite -> (scan_one n Hn _ _ _ _ (Z.land w1 (bnot 64 w2))); [|by rewrite -> R1, R2|by rewrite -> R1, R2|done]. by destruct (_ =? 0).
  - rw /__bitmap_empty. rewrite -> (scan_one n Hn _ _ _ _ w1); [|by rewrite -> R1|done|done]. by destruct (_ =? 0).
  - rw /__bitmap_full. rewrite -> (scan_one n Hn _ _ _ _ (bnot 64 w1)); [|by rewrite -> R1|by rewrite -> R1|by apply in_width_bnot]. by destruct (_ =? 0).
  - by rewrite -> E1, weight_one.
  - by rewrite -> (shift_left_one n Hn alias dst src1 w1 r1 k Halias E1 B1 Hl Hk).
  - intros Hc. rewrite -> (shift_right_one n Hn alias dst src1 w1 r1 k Halias E1); [done| |done|done]. apply in_width_bits; [lia|apply B1|]. intros i Hi. destruct (Z.lt_ge_cases i 64); [|by apply (testbit_above 64)].
    rewrite <- (bitat_word src1 0 w1 i R1) by lia. rewrite -> Z.mul_0_r, Z.add_0_l. apply Hc. lia.
Qed.

Lemma bitmap_inline_equiv_witness : bitmap_equal true [0x403] [0x803] 10 = bitmap_equal false [0x403] [0x803] 10 ∧ bitmap_shift_left true true [0x403] [0x403] 3 10 = bitmap_shift_left false true [0x403] [0x403] 3 10.
Proof.
  destruct (bitmap_inline_equiv true [0x403] [0x403] [0x803] 10 3) as (_ & _ & _ & _ & _ & _ & _ & He & _ & _ & _ & _ & _ & Hs & _);
    [lia|split; [words_concrete|split; cbn; lia]|split; [words_concrete|split; cbn; lia]|split; [words_concrete|split; cbn; lia]|lia|done|]. by split.
Defined.

(** ** Filling and copying *)

Lemma copy_words dst src n N : words dst → bitmap_ok src n → 0 ≤ N ≤ Z.of_nat (length dst) → N ≤ BITS_TO_LONGS n → ∃ d, fill_words N (λ k, rd src k) dst = Some d ∧ upd_words (bitat src) N dst d.
Proof. intros Hw Hs HN Hle. apply fill_words_spec; [done|done|]. intros k Hk. destruct (bitmap_word src n k Hs ltac:(lia)) as (w & Hr & Hww & Hb). by exists w. Qed.

(** bitmap_fill makes the full set, bitmap_copy and bitmap_copy_le copy the set. *)
Lemma fill_copy_sets (const : bool) dst src n : bitmap_ok dst n → bitmap_ok src n → 0 < n →
  (∃ d, bitmap_fill const dst n = Some d ∧ bits_of d n = universe n ∧ clean d n) ∧ (∃ d, bitmap_copy const dst src n = Some d ∧ bits_of d n = bits_of src n) ∧
  (n mod 64 = 0 → ∃ d, bitmap_copy_le dst src n = Some d ∧ bits_of d n = bits_of src n).
Proof.
  intros [Hw Hc] Hs Hn. pose proof (covers_longs _ _ Hc) as HL. pose proof (longs_cover n ltac:(lia)) as Hlc. assert (1 ≤ BITS_TO_LONGS n) as H1 by (rw /BITS_TO_LONGS; zdm).
  assert (∀ N d, N = BITS_TO_LONGS n → upd_words (bitat src) N dst d → bits_of d n = bits_of src n) as Hcopy.
  { intros N d -> Hu. eapply upd_words_set; [exact Hu| |]; intros i; rewrite -> elem_of_bits_of; [tauto|by intros [? _]]. }
  split_and!.
  - rw /bitmap_fill. set (N := BITS_TO_LONGS n) in *. assert (∃ d, (if negb (small_const_nbits const n) then fill_words (N - 1) (λ _, Some (Z.ones 64)) dst else Some dst) = Some d ∧ upd_words (λ _, true) (N - 1) dst d) as (d & -> & Hu).
    { destruct (small_const_nbits const n) eqn:E; cbn [negb].
      - exists dst. split; [done|]. rw /small_const_nbits in E. apply andb_true_iff in E as [_ E]. apply Z.leb_le in E. change BITS_PER_LONG with 64 in E. rw /N. rewrite -> one_long by lia. by apply upd_words_0.
      - apply fill_words_spec; [done|lia|]. intros k Hk. exists (Z.ones 64). split; [done|]. split; [by apply in_width_ones|]. intros i Hi. rewrite -> testbit_ones by lia. by ztest. }
    cbn [mbind option_bind]. assert (in_width 64 (BITMAP_LAST_WORD_MASK n)) as Hmask.
    { rw /BITMAP_LAST_WORD_MASK. rewrite -> Z.rem_mod_nonneg by lia. pose proof (Z.mod_pos_bound n 64 ltac:(lia)). destruct (_ =? 0); cbn [negb]; [by apply in_width_ones|]. rewrite -> mask_ones by lia. apply in_width_ones. lia. }
    destruct (upd_words_snoc (λ i, i <? n) (N - 1) dst d (BITMAP_LAST_WORD_MASK n)) as [E Hu'].
    + eapply upd_words_ext; [exact Hu|]. intros i Hi. symmetry. apply Z.ltb_lt. rw /N /BITS_TO_LONGS in Hi. zdm.
    + lia.
    + done.
    + intros i Hi. rewrite -> last_word_mask, Z.rem_mod_nonneg by lia. rw /N /BITS_TO_LONGS. destruct (Z.eqb_spec (n mod 64) 0); cbn [orb]; [symmetry; apply Z.ltb_lt; zdm|]. apply eq_true_iff_eq. rewrite -> !Z.ltb_lt. zdm.
    + rewrite -> E. eexists. split; [done|]. replace (N - 1 + 1) with N in Hu' by lia. split.
      * eapply upd_words_set; [exact Hu'| |]; intros i; rewrite -> elem_of_universe; [rewrite -> Z.ltb_lt; lia|done].
      * eapply upd_words_clean; [lia|exact Hu'|]. intros i Hi. apply Z.ltb_ge. lia.
  - rw /bitmap_copy. destruct (small_const_nbits const n) eqn:E.
    + rw /small_const_nbits in E. apply andb_true_iff in E as [_ E]. apply Z.leb_le in E. change BITS_PER_LONG with 64 in E. pose proof (one_long n ltac:(lia)) as Hone. rewrite <- (fill_one (λ k, rd src k)).
      destruct (copy_words dst src n 1 Hw Hs ltac:(lia) ltac:(lia)) as (d & -> & Hu). exists d. split; [done|]. by apply (Hcopy 1).
    + destruct (copy_words dst src n (BITS_TO_LONGS n) Hw Hs ltac:(lia) ltac:(lia)) as (d & -> & Hu). exists d. split; [done|]. by apply (Hcopy (BITS_TO_LONGS n)).
  - intros Hm. rw /bitmap_copy_le. change BITS_PER_LONG with 64. rewrite -> Z.quot_div_nonneg by lia. assert (n / 64 = BITS_TO_LONGS n) as EN by (rw /BITS_TO_LONGS; zdm).
    destruct (copy_words dst src n (n / 64) Hw Hs ltac:(lia) ltac:(lia)) as (d & -> & Hu). exists d. split; [done|]. by apply (Hcopy (n / 64)).
Qed.
