(* ===== verification/Skbuff.v ===== *)
(** * Socket buffers: reading packet bytes and netlink attributes

    The parts of include/linux/skbuff.h, net/core/skbuff.c, lib/nlattr.c and
    include/net/netlink.h that the packet filter uses to read a packet: the
    linear head, the page fragments and the fragment list of a [struct sk_buff],
    [skb_copy_bits], [skb_header_pointer] and the attribute search [nla_find]. *)
From S2P Require Import Prelude.

(** ** Data *)

(** [net_device], as far as filters look at it. *)
Record net_device := { ifindex : Z; dev_type : Z }.

(** [skb_frag_t]: a page (its bytes) and the part of it that belongs to the packet. *)
Record skb_frag := { frag_page : list Z; page_offset : Z; frag_size : Z }.

(** [struct sk_buff].  [skb_head] holds the bytes from [skb->head] up to the tail
    pointer; [skb_data], [network_header] and [mac_header] are offsets from [skb->head]. *)
Inductive sk_buff := {
  skb_head : list Z;
  skb_data : Z;
  skb_len : Z;
  data_len : Z;
  frags : list skb_frag;
  frag_list : list sk_buff;
  network_header : Z;
  mac_header : Z;
  protocol : Z;
  pkt_type : Z;
  dev : option net_device;
  mark : Z;
  queue_mapping : Z;
  rxhash : Z
}.

Definition skb_is_nonlinear (skb : sk_buff) : bool := negb (data_len skb =? 0).

Definition skb_headlen (skb : sk_buff) : Z := wrap 32 (skb_len skb - data_len skb).

(** ** Copying bytes *)

(** Copy state of [skb_copy_bits]: [start], [offset], [len] and the bytes stored so far. *)
Definition copy_state : Type := Z * Z * Z * list Z.

(** One step of [skb_copy_bits]: the same code for the head, for a page fragment and
    for a buffer of the fragment list, which differ in [get], the copy of [copy] bytes
    from the offset relative to [start].  The result of a finished copy is [None]
    for [-EFAULT] and the bytes copied for 0. *)
Definition copy_chunk (get : Z → Z → option (option (list Z))) (size : Z) (st : copy_state)
  : option (ctl copy_state (option (list Z))) :=
  let '(start, offset, len, to) := st in
  let end_ := start + size in
  let copy := end_ - offset in
  if 0 <? copy then
    let copy := if len <? copy then len else copy in
    r ← get (offset - start) copy;
    match r with
    | None => Some (Stop None)
    | Some bs =>
        if len - copy =? 0 then Some (Stop (Some (to ++ bs)))
        else Some (Next (end_, offset + copy, len - copy, to ++ bs))
    end
  else Some (Next (end_, offset, len, to)).

(** The loops over the fragments. *)
Definition copy_chunks {F} (chunk : F → copy_state → option (ctl copy_state (option (list Z))))
  : list F → copy_state → option (ctl copy_state (option (list Z))) :=
  fix go fs st :=
    match fs with
    | [] => Some (Next st)
    | f :: fs' =>
        match chunk f st with
        | Some (Next st') => go fs' st'
        | r => r
        end
    end.

Definition get_linear (skb : sk_buff) (off copy : Z) : option (option (list Z)) :=
  Some <$> rd_range (skb_head skb) (skb_data skb + off) copy.

Definition get_frag (f : skb_frag) (off copy : Z) : option (option (list Z)) :=
  Some <$> rd_range (frag_page f) (page_offset f + off) copy.

Fixpoint skb_copy_bits (skb : sk_buff) (offset len : Z) {struct skb}
  : option (option (list Z)) :=
  if swrap 32 (skb_len skb) - len <? offset then Some None else
  let start := swrap 32 (skb_headlen skb) in
  match copy_chunk (get_linear skb) start (0, offset, len, []) with
  | Some (Next st) =>
      match copy_chunks (λ f, copy_chunk (get_frag f) (frag_size f)) (frags skb) st with
      | Some (Next st) =>
          match copy_chunks (λ s, copy_chunk (skb_copy_bits s) (skb_len s)) (frag_list skb) st with
          | Some (Next (_, _, len, to)) => Some (if len =? 0 then Some to else None)
          | Some (Stop r) => Some r
          | None => None
          end
      | Some (Stop r) => Some r
      | None => None
      end
  | Some (Stop r) => Some r
  | None => None
  end.

(** Where a [void *] into the packet points: into the head, or to the caller's buffer. *)
Inductive pkt_ptr :=
| In_head (off : Z)
| In_buffer (buf : list Z).

(** Reading [n] bytes through such a pointer. *)
Definition ptr_bytes (skb : sk_buff) (p : pkt_ptr) (n : Z) : option (list Z) :=
  match p with
  | In_head off => rd_range (skb_head skb) off n
  | In_buffer buf => rd_range buf 0 n
  end.

(** [None] is a fault, [Some None] the null pointer. *)
Definition skb_header_pointer (skb : sk_buff) (offset len : Z) : option (option pkt_ptr) :=
  let hlen := swrap 32 (skb_headlen skb) in
  if len <=? hlen - offset then Some (Some (In_head (skb_data skb + offset))) else
  r ← skb_copy_bits skb offset len;
  match r with
  | None => Some None
  | Some bs => Some (Some (In_buffer bs))
  end.

(** ** Netlink attributes in the linear head *)

(** [*(u16 * )p] on a little-endian machine. *)
Definition rd_u16 (mem : list Z) (p : Z) : option Z :=
  b0 ← rd mem p; b1 ← rd mem (p + 1); Some (b0 + 256 * b1).

Definition sizeof_nlattr : Z := 4.
Definition NLA_HDRLEN : Z := 4.
Definition NLA_ALIGN (len : Z) : Z := Z.land (len + 3) (Z.lnot 3).

(** [nla->nla_len] and [nla_type(nla)] of the attribute at offset [p]. *)
Definition nla_len_field (mem : list Z) (p : Z) : option Z := rd_u16 mem p.
Definition nla_type (mem : list Z) (p : Z) : option Z :=
  t ← rd_u16 mem (p + 2); Some (Z.land t (Z.lnot (Z.lor (2 ^ 15) (2 ^ 14)))).

(** [nla_ok]: the length is read only when a header fits. *)
Definition nla_ok (mem : list Z) (p remaining : Z) : option bool :=
  if sizeof_nlattr <=? remaining then
    l ← nla_len_field mem p;
    Some ((sizeof_nlattr <=? l) && (l <=? remaining))
  else Some false.

(** The attribute found is given by its offset; every round moves on by at least
    [sizeof_nlattr] bytes, so the length of the memory is enough fuel. *)
Definition nla_find (mem : list Z) (head len attrtype : Z) : option (option Z) :=
  loop (S (length mem))
    (λ '(pos, rem),
       ok ← nla_ok mem pos rem;
       if negb ok then Some (Stop None) else
       t ← nla_type mem pos;
       if t =? attrtype then Some (Stop (Some pos)) else
       l ← nla_len_field mem pos;
       Some (Next (pos + NLA_ALIGN l, rem - NLA_ALIGN l)))
    (head, len).

Definition nla_find_nested (mem : list Z) (nla attrtype : Z) : option (option Z) :=
  l ← nla_len_field mem nla;
  nla_find mem (nla + NLA_HDRLEN) (l - NLA_HDRLEN) attrtype.

(** ** Well-formed buffers and the packet they hold *)

Definition frag_bytes (f : skb_frag) : list Z :=
  take (Z.to_nat (frag_size f)) (drop (Z.to_nat (page_offset f)) (frag_page f)).

Definition linear_bytes (skb : sk_buff) : list Z := drop (Z.to_nat (skb_data skb)) (skb_head skb).

(** The bytes of the packet, in order. *)
Fixpoint skb_bytes (skb : sk_buff) : list Z :=
  linear_bytes skb ++ concat (frag_bytes <$> frags skb) ++ concat (skb_bytes <$> frag_list skb).

Definition byte_list (l : list Z) : Prop := Forall (in_width 8) l.

Definition frag_ok (f : skb_frag) : Prop :=
  0 ≤ page_offset f ∧ 0 ≤ frag_size f ∧
  page_offset f + frag_size f ≤ Z.of_nat (length (frag_page f)) ∧ byte_list (frag_page f).

(** The lengths of a buffer agree with what it holds. *)
Inductive skb_wf : sk_buff → Prop :=
| Skb_wf skb :
    byte_list (skb_head skb) →
    0 ≤ skb_data skb ≤ Z.of_nat (length (skb_head skb)) →
    skb_len skb = Z.of_nat (length (skb_bytes skb)) →
    skb_len skb < 2 ^ 31 →
    skb_len skb - data_len skb = Z.of_nat (length (linear_bytes skb)) →
    Forall frag_ok (frags skb) →
    Forall skb_wf (frag_list skb) →
    skb_wf skb.

Lemma skb_wf_inv skb :
  skb_wf skb →
  byte_list (skb_head skb) ∧ 0 ≤ skb_data skb ≤ Z.of_nat (length (skb_head skb)) ∧
  skb_len skb = Z.of_nat (length (skb_bytes skb)) ∧ skb_len skb < 2 ^ 31 ∧
  skb_len skb - data_len skb = Z.of_nat (length (linear_bytes skb)) ∧
  Forall frag_ok (frags skb) ∧ Forall skb_wf (frag_list skb).
Proof. by destruct 1. Qed.

(** Nested induction on buffers. *)
Lemma sk_buff_nested_ind (P : sk_buff → Prop) :
  (∀ skb, Forall P (frag_list skb) → P skb) → ∀ skb, P skb.
Proof.
  intros H. fix IH 1. intros [? ? ? ? ? l]. apply H. cbn [frag_list].
  induction l as [|s l IHl]; constructor; [apply IH|done].
Qed.

(** ** Byte ranges *)

Lemma rd_range_in l off n :
  0 ≤ off → 0 ≤ n → off + n ≤ Z.of_nat (length l) →
  rd_range l off n = Some (take (Z.to_nat n) (drop (Z.to_nat off) l)).
Proof. intros. rw /rd_range. ztest. done. Qed.

Lemma rd_range_length l off n bs : rd_range l off n = Some bs → Z.of_nat (length bs) = n.
Proof.
  rw /rd_range. case_if; [|done]. intros [= <-]. rw length_take length_drop. lia.
Qed.

Lemma rd_range_bytes l off n bs : byte_list l → rd_range l off n = Some bs → byte_list bs.
Proof.
  intros Hl. rw /rd_range. case_if; [|done]. intros [= <-].
  by apply Forall_take, Forall_drop.
Qed.

Lemma rd_u16_width mem p v : byte_list mem → rd_u16 mem p = Some v → in_width 16 v.
Proof.
  intros Hm. rw /rd_u16. destruct (rd mem p) as [b0|] eqn:E0; [|done]. cbn [mbind option_bind].
  destruct (rd mem (p + 1)) as [b1|] eqn:E1; [|done]. intros [= <-].
  apply rd_Some in E0 as [_ E0]. apply rd_Some in E1 as [_ E1].
  pose proof (Forall_lookup_1 _ _ _ _ Hm E0) as [? ?].
  pose proof (Forall_lookup_1 _ _ _ _ Hm E1) as [? ?].
  change (2 ^ 8) with 256 in *. rw /in_width. change (2 ^ 16) with 65536. lia.
Qed.

Lemma rd_u16_in mem p : 0 ≤ p → p + 2 ≤ Z.of_nat (length mem) → ∃ v, rd_u16 mem p = Some v.
Proof.
  intros. rw /rd_u16. destruct (rd_in mem p) as [a ->]; [lia|].
  destruct (rd_in mem (p + 1)) as [b ->]; [lia|]. cbn. eauto.
Qed.

(** ** [skb_copy_bits] copies the requested range of the packet *)

(** What remains to be copied, with [rest] the bytes of the packet from [start] on. *)
Definition copy_target (st : copy_state) (rest : list Z) : list Z :=
  let '(start, offset, len, to) := st in
  to ++ take (Z.to_nat len) (drop (Z.to_nat (offset - start)) rest).

Definition copy_inv (st : copy_state) (rest : list Z) : Prop :=
  let '(start, offset, len, to) := st in
  start ≤ offset ∧ 0 ≤ len ∧ offset - start + len ≤ Z.of_nat (length rest).

(** [get] reads the bytes [bs]. *)
Definition gets (get : Z → Z → option (option (list Z))) (bs : list Z) : Prop :=
  ∀ o n, 0 ≤ o → 0 ≤ n → o + n ≤ Z.of_nat (length bs) →
  get o n = Some (Some (take (Z.to_nat n) (drop (Z.to_nat o) bs))).

(** A copy loop in state [st] either finishes with the target or goes on with it. *)
Definition copies (r : option (ctl copy_state (option (list Z)))) (st : copy_state)
    (rest rest' : list Z) : Prop :=
  r = Some (Stop (Some (copy_target st rest))) ∨
  (∃ st', r = Some (Next st') ∧ copy_inv st' rest' ∧ copy_target st' rest' = copy_target st rest).

Lemma copy_chunk_spec get bs rest st :
  gets get bs → copy_inv st (bs ++ rest) →
  copies (copy_chunk get (Z.of_nat (length bs)) st) st (bs ++ rest) rest.
Proof.
  destruct st as [[[start offset] len] to]. intros Hg (Hso & Hl & Hfit).
  rw length_app in Hfit. rw /copies /copy_chunk /copy_target.
  destruct (0 <? start + Z.of_nat (length bs) - offset) eqn:E; zbool.
  - rw drop_app_le; [|lia]. destruct (len <? _) eqn:E2; zbool.
    + rw Hg; [|lia..]. cbn [mbind option_bind]. rw Z.sub_diag. ztest. left.
      rw take_app_le; [done|]. rw length_drop. lia.
    + rw Hg; [|lia..]. cbn [mbind option_bind].
      set (c := start + Z.of_nat (length bs) - offset) in *.
      assert (length (drop (Z.to_nat (offset - start)) bs) = Z.to_nat c) as Hd
        by (rw length_drop; lia).
      case_if.
      * left. rw take_app_le; [|lia]. by replace len with c by lia.
      * right. eexists. split; [done|]. split; [rw /copy_inv; lia|]. cbn beta iota.
        rw -assoc. f_equal. rw (take_ge _ (Z.to_nat c)); [|lia].
        rw take_app_ge; [|lia]. rw Hd.
        replace (offset + c - (start + Z.of_nat (length bs))) with 0 by lia.
        by replace (Z.to_nat (len - c)) with (Z.to_nat len - Z.to_nat c)%nat by lia.
  - right. eexists. split; [done|]. split; [rw /copy_inv; lia|]. cbn beta iota. f_equal. f_equal.
    rw drop_app_ge; [|lia]. f_equal. lia.
Qed.

Lemma copy_chunks_spec {F} (chunk : F → copy_state → option (ctl copy_state (option (list Z))))
    (bytes : F → list Z) fs rest st :
  Forall (λ f, ∀ rest st, copy_inv st (bytes f ++ rest) →
    copies (chunk f st) st (bytes f ++ rest) rest) fs →
  copy_inv st (concat (bytes <$> fs) ++ rest) →
  copies (copy_chunks chunk fs st) st (concat (bytes <$> fs) ++ rest) rest.
Proof.
  intros Hf. revert st. induction Hf as [|f fs Hf _ IH]; intros st Hi.
  - right. exists st. done.
  - cbn [copy_chunks]. move: Hi. rw fmap_cons concat_cons -assoc. intros Hi.
    destruct (Hf _ _ Hi) as [-> |(st' & -> & Hi' & Ht)]; [by left|].
    destruct (IH st' Hi') as [E|(st'' & E & Hi'' & Ht'')]; [left|right].
    + cbn. rw E. by rw Ht.
    + exists st''. cbn. rw E. split_and!; [done|done|congruence].
Qed.

(** ** Lengths of a well-formed buffer *)

Lemma frag_bytes_length f : frag_ok f → Z.of_nat (length (frag_bytes f)) = frag_size f.
Proof. intros (? & ? & ? & _). rw /frag_bytes length_take length_drop. lia. Qed.

Lemma get_frag_gets f : frag_ok f → gets (get_frag f) (frag_bytes f).
Proof.
  intros Hf o n Ho Hn Hon. rw frag_bytes_length // in Hon. destruct Hf as (? & ? & ? & _).
  rw /get_frag rd_range_in; [|lia..]. cbn. do 2 f_equal. rw /frag_bytes.
  rw skipn_firstn_comm take_take drop_drop. f_equal; [lia|]. f_equal. lia.
Qed.

Lemma linear_gets skb :
  0 ≤ skb_data skb ≤ Z.of_nat (length (skb_head skb)) → gets (get_linear skb) (linear_bytes skb).
Proof.
  intros Hd o n Ho Hn. rw /linear_bytes length_drop. intros Hon.
  rw /get_linear rd_range_in; [|lia..]. cbn. do 2 f_equal. rw drop_drop. do 2 f_equal. lia.
Qed.

Lemma skb_bytes_eq skb :
  skb_bytes skb = linear_bytes skb ++ concat (frag_bytes <$> frags skb) ++
                  concat (skb_bytes <$> frag_list skb).
Proof. by destruct skb. Qed.

Lemma wf_lens skb :
  skb_wf skb →
  swrap 32 (skb_len skb) = skb_len skb ∧
  swrap 32 (skb_headlen skb) = Z.of_nat (length (linear_bytes skb)) ∧
  Z.of_nat (length (linear_bytes skb)) ≤ skb_len skb ∧ 0 ≤ skb_len skb < 2 ^ 31.
Proof.
  destruct 1 as [skb _ Hd Hl Hmax Hh _ _]. rw /skb_headlen Hh.
  assert (Z.of_nat (length (linear_bytes skb)) ≤ skb_len skb) as Hle
    by (rw Hl skb_bytes_eq length_app; lia).
  change (2 ^ 31) with 2147483648 in *. split_and!; [|rw wrap_small|done|lia|done].
  1,2: apply swrap_small; [lia|]; change (2 ^ (32 - 1)) with 2147483648; lia.
  split; [lia|]. change (2 ^ 32) with 4294967296. lia.
Qed.

Lemma skb_copy_bits_eq skb offset len :
  skb_copy_bits skb offset len =
  if swrap 32 (skb_len skb) - len <? offset then Some None else
  match copy_chunk (get_linear skb) (swrap 32 (skb_headlen skb)) (0, offset, len, []) with
  | Some (Next st) =>
      match copy_chunks (λ f, copy_chunk (get_frag f) (frag_size f)) (frags skb) st with
      | Some (Next st) =>
          match copy_chunks (λ s, copy_chunk (skb_copy_bits s) (skb_len s)) (frag_list skb) st with
          | Some (Next (_, _, len, to)) => Some (if len =? 0 then Some to else None)
          | Some (Stop r) => Some r
          | None => None
          end
      | Some (Stop r) => Some r
      | None => None
      end
  | Some (Stop r) => Some r
  | None => None
  end.
Proof. by destruct skb. Qed.

Lemma copy_bits_in skb offset len :
  skb_wf skb → 0 ≤ offset → 0 ≤ len → offset + len ≤ skb_len skb →
  skb_copy_bits skb offset len =
    Some (Some (take (Z.to_nat len) (drop (Z.to_nat offset) (skb_bytes skb)))).
Proof.
  revert offset len. induction skb as [skb IH] using sk_buff_nested_ind.
  intros offset len Hwf Ho Hl Hfit. destruct (wf_lens skb Hwf) as (E1 & E2 & _ & _).
  destruct (skb_wf_inv skb Hwf) as (Hb & Hd & Hlen & Hmax & Hh & Hfr & Hfl).
  transitivity (Some (Some (copy_target (0, offset, len, []) (skb_bytes skb))));
    [|rw /copy_target Z.sub_0_r //].
  assert (copy_inv (0, offset, len, []) (skb_bytes skb)) as Hinv by (rw /copy_inv; lia).
  rw skb_bytes_eq in Hinv. rw skb_copy_bits_eq (skb_bytes_eq skb) E1 E2. ztest.
  destruct (copy_chunk_spec _ _ _ _ (linear_gets skb Hd) Hinv) as [-> |(st & -> & Hi & <-)]; [done|].
  destruct (copy_chunks_spec (λ f, copy_chunk (get_frag f) (frag_size f)) frag_bytes
    (frags skb) (concat (skb_bytes <$> frag_list skb)) st) as [E|(st' & E & Hi' & <-)]; [|done| |].
  - eapply Forall_impl; [exact Hfr|]. intros f Hf rest st0 Hst. cbn beta.
    rw -(frag_bytes_length f Hf). apply copy_chunk_spec; [by apply get_frag_gets|done].
  - by rw E.
  - rw E. clear E.
    rw -(app_nil_r (concat (skb_bytes <$> _))). rw -(app_nil_r (concat (skb_bytes <$> _))) in Hi'.
    destruct (copy_chunks_spec (λ s, copy_chunk (skb_copy_bits s) (skb_len s)) skb_bytes
      (frag_list skb) [] st') as [E|(st'' & E & Hi'' & Ht)]; [|done| |].
    + apply Forall_forall. intros s Hs rest st0 Hst. cbn beta.
      pose proof (proj1 (Forall_forall _ _) Hfl s Hs) as Hws.
      destruct (skb_wf_inv s Hws) as (_ & _ & Hls & _). rw Hls.
      apply copy_chunk_spec; [|done]. intros o n Ho' Hn' Hon.
      apply (proj1 (Forall_forall _ _) IH s Hs); [done|done|done|lia].
    + by rw E.
    + rw E. destruct st'' as [[[a b] l] t].
      destruct Hi'' as (? & ? & Hz). cbn in Hz. ztest. rw -Ht /copy_target.
      replace (Z.to_nat l) with 0%nat by lia. by rw take_0 app_nil_r.
Qed.

Lemma copy_bits_out skb offset len :
  skb_wf skb → skb_len skb < offset + len → skb_copy_bits skb offset len = Some None.
Proof.
  intros Hwf Hout. destruct (wf_lens skb Hwf) as (E1 & _).
  rw skb_copy_bits_eq E1. by ztest.
Qed.

(** ** [nla_find] stays inside the attribute stream *)

Lemma NLA_ALIGN_ge l : 0 ≤ l → l ≤ NLA_ALIGN l.
Proof.
  intros. rw /NLA_ALIGN. change 3 with (Z.ones 2) at 2. rw -Z.ldiff_land Z.ldiff_ones_r //.
  rw Z.shiftr_div_pow2 // Z.shiftl_mul_pow2 //. change (2 ^ 2) with 4. zdm.
Qed.

Lemma nla_find_in mem head len attrtype :
  byte_list mem → 0 ≤ head → head + len ≤ Z.of_nat (length mem) →
  ∃ r, nla_find mem head len attrtype = Some r ∧
    ∀ p, r = Some p → head ≤ p ∧ p + sizeof_nlattr ≤ head + len ∧ nla_type mem p = Some attrtype.
Proof.
  intros Hm Hh Hl. rw /nla_find.
  apply (loop_inv (λ '(pos, rem), head ≤ pos ∧ pos + rem = head + len)
    (λ '(pos, rem), Z.to_nat (if 0 <? rem then rem else 0))); [|split; [lia|done]|].
  2:{ case_if; lia. }
  intros [pos rem] [Hpos Hsum]. rw /nla_ok /sizeof_nlattr.
  destruct (4 <=? rem) eqn:Hr; zbool; [|right; eexists; split; [done|done]].
  destruct (rd_u16_in mem pos) as [l Hlen]; [lia|lia|].
  destruct (rd_u16_in mem (pos + 2)) as [t Ht]; [lia|lia|].
  rw /nla_len_field /nla_type Hlen Ht. cbn [mbind option_bind].
  destruct (negb _) eqn:E; zbool; [right; eexists; split; [done|done]|].
  case_if.
  - right. eexists. split; [done|]. intros p [= <-]. rw Ht. cbn. split_and!; [lia|lia|congruence].
  - left. eexists. split; [done|]. pose proof (NLA_ALIGN_ge l). split; [lia|].
    case_if; case_if; lia.
Qed.
