(* ===== verification/Bpf.v ===== *)
(** * The Berkeley packet filter: net/core/filter.c

    The instruction set of include/linux/filter.h, the checker [sk_chk_filter]
    with [check_load_and_stores], and the interpreter [sk_run_filter].
    A filter is the list of its instructions; the program counter is the index of
    [fentry] in it.  Reading outside the filter, outside the packet, through a
    null [skb], or an uninitialised scratch cell is a fault ([None]). *)
From S2P Require Import Prelude Skbuff.

(** ** Instructions *)

Record sock_filter := { sf_code : Z; sf_jt : Z; sf_jf : Z; sf_k : Z }.

(** The internal instruction codes, in the order of the enumeration. *)
Inductive bpf_s :=
| BPF_S_RET_K
| BPF_S_RET_A
| BPF_S_ALU_ADD_K
| BPF_S_ALU_ADD_X
| BPF_S_ALU_SUB_K
| BPF_S_ALU_SUB_X
| BPF_S_ALU_MUL_K
| BPF_S_ALU_MUL_X
| BPF_S_ALU_DIV_X
| BPF_S_ALU_AND_K
| BPF_S_ALU_AND_X
| BPF_S_ALU_OR_K
| BPF_S_ALU_OR_X
| BPF_S_ALU_LSH_K
| BPF_S_ALU_LSH_X
| BPF_S_ALU_RSH_K
| BPF_S_ALU_RSH_X
| BPF_S_ALU_NEG
| BPF_S_LD_W_ABS
| BPF_S_LD_H_ABS
| BPF_S_LD_B_ABS
| BPF_S_LD_W_LEN
| BPF_S_LD_W_IND
| BPF_S_LD_H_IND
| BPF_S_LD_B_IND
| BPF_S_LD_IMM
| BPF_S_LDX_W_LEN
| BPF_S_LDX_B_MSH
| BPF_S_LDX_IMM
| BPF_S_MISC_TAX
| BPF_S_MISC_TXA
| BPF_S_ALU_DIV_K
| BPF_S_LD_MEM
| BPF_S_LDX_MEM
| BPF_S_ST
| BPF_S_STX
| BPF_S_JMP_JA
| BPF_S_JMP_JEQ_K
| BPF_S_JMP_JEQ_X
| BPF_S_JMP_JGE_K
| BPF_S_JMP_JGE_X
| BPF_S_JMP_JGT_K
| BPF_S_JMP_JGT_X
| BPF_S_JMP_JSET_K
| BPF_S_JMP_JSET_X
| BPF_S_ANC_PROTOCOL
| BPF_S_ANC_PKTTYPE
| BPF_S_ANC_IFINDEX
| BPF_S_ANC_NLATTR
| BPF_S_ANC_NLATTR_NEST
| BPF_S_ANC_MARK
| BPF_S_ANC_QUEUE
| BPF_S_ANC_HATYPE
| BPF_S_ANC_RXHASH
| BPF_S_ANC_CPU
| BPF_S_ANC_ALU_XOR_X
| BPF_S_ANC_SECCOMP_LD_W.

#[global] Instance bpf_s_eq_dec : EqDecision bpf_s.
Proof. solve_decision. Defined.

(** The values of the enumeration, from 1. *)
Definition bpf_s_list : list bpf_s :=
  [BPF_S_RET_K; BPF_S_RET_A; BPF_S_ALU_ADD_K; BPF_S_ALU_ADD_X; BPF_S_ALU_SUB_K;
   BPF_S_ALU_SUB_X; BPF_S_ALU_MUL_K; BPF_S_ALU_MUL_X; BPF_S_ALU_DIV_X; BPF_S_ALU_AND_K;
   BPF_S_ALU_AND_X; BPF_S_ALU_OR_K; BPF_S_ALU_OR_X; BPF_S_ALU_LSH_K; BPF_S_ALU_LSH_X;
   BPF_S_ALU_RSH_K; BPF_S_ALU_RSH_X; BPF_S_ALU_NEG; BPF_S_LD_W_ABS; BPF_S_LD_H_ABS;
   BPF_S_LD_B_ABS; BPF_S_LD_W_LEN; BPF_S_LD_W_IND; BPF_S_LD_H_IND; BPF_S_LD_B_IND;
   BPF_S_LD_IMM; BPF_S_LDX_W_LEN; BPF_S_LDX_B_MSH; BPF_S_LDX_IMM; BPF_S_MISC_TAX;
   BPF_S_MISC_TXA; BPF_S_ALU_DIV_K; BPF_S_LD_MEM; BPF_S_LDX_MEM; BPF_S_ST; BPF_S_STX;
   BPF_S_JMP_JA; BPF_S_JMP_JEQ_K; BPF_S_JMP_JEQ_X; BPF_S_JMP_JGE_K; BPF_S_JMP_JGE_X;
   BPF_S_JMP_JGT_K; BPF_S_JMP_JGT_X; BPF_S_JMP_JSET_K; BPF_S_JMP_JSET_X;
   BPF_S_ANC_PROTOCOL; BPF_S_ANC_PKTTYPE; BPF_S_ANC_IFINDEX; BPF_S_ANC_NLATTR;
   BPF_S_ANC_NLATTR_NEST; BPF_S_ANC_MARK; BPF_S_ANC_QUEUE; BPF_S_ANC_HATYPE;
   BPF_S_ANC_RXHASH; BPF_S_ANC_CPU; BPF_S_ANC_ALU_XOR_X; BPF_S_ANC_SECCOMP_LD_W].

(** The enumerator with a given value. *)
Definition bpf_s_of (c : Z) : option bpf_s := if c <=? 0 then None else rd bpf_s_list (c - 1).

Definition bpf_s_val (op : bpf_s) : Z :=
  match list_find (eq op) bpf_s_list with
  | Some (i, _) => Z.of_nat i + 1
  | None => 0
  end.

Definition BPF_LD : Z := 0x0.
Definition BPF_LDX : Z := 0x1.
Definition BPF_ST : Z := 0x2.
Definition BPF_STX : Z := 0x3.
Definition BPF_ALU : Z := 0x4.
Definition BPF_JMP : Z := 0x5.
Definition BPF_RET : Z := 0x6.
Definition BPF_MISC : Z := 0x7.
Definition BPF_W : Z := 0x0.
Definition BPF_H : Z := 0x8.
Definition BPF_B : Z := 0x10.
Definition BPF_IMM : Z := 0x0.
Definition BPF_ABS : Z := 0x20.
Definition BPF_IND : Z := 0x40.
Definition BPF_MEM : Z := 0x60.
Definition BPF_LEN : Z := 0x80.
Definition BPF_MSH : Z := 0xa0.
Definition BPF_ADD : Z := 0x0.
Definition BPF_SUB : Z := 0x10.
Definition BPF_MUL : Z := 0x20.
Definition BPF_DIV : Z := 0x30.
Definition BPF_OR : Z := 0x40.
Definition BPF_AND : Z := 0x50.
Definition BPF_LSH : Z := 0x60.
Definition BPF_RSH : Z := 0x70.
Definition BPF_NEG : Z := 0x80.
Definition BPF_JA : Z := 0x0.
Definition BPF_JEQ : Z := 0x10.
Definition BPF_JGT : Z := 0x20.
Definition BPF_JGE : Z := 0x30.
Definition BPF_JSET : Z := 0x40.
Definition BPF_K : Z := 0x0.
Definition BPF_X : Z := 0x8.
Definition BPF_A : Z := 0x10.
Definition BPF_TAX : Z := 0x0.
Definition BPF_TXA : Z := 0x80.
Definition BPF_MAXINSNS : Z := 4096.
Definition BPF_MEMWORDS : Z := 16.

Definition SKF_AD_OFF : Z := - 0x1000.
Definition SKF_AD_PROTOCOL : Z := 0.
Definition SKF_AD_PKTTYPE : Z := 4.
Definition SKF_AD_IFINDEX : Z := 8.
Definition SKF_AD_NLATTR : Z := 12.
Definition SKF_AD_NLATTR_NEST : Z := 16.
Definition SKF_AD_MARK : Z := 20.
Definition SKF_AD_QUEUE : Z := 24.
Definition SKF_AD_HATYPE : Z := 28.
Definition SKF_AD_RXHASH : Z := 32.
Definition SKF_AD_CPU : Z := 36.
Definition SKF_AD_ALU_XOR_X : Z := 40.
Definition SKF_NET_OFF : Z := - 0x100000.
Definition SKF_LL_OFF : Z := - 0x200000.

(** The designated initialisers of [codes[]] in [sk_chk_filter]. *)
Definition codes_init : list (Z * bpf_s) :=
  [(Z.lor (Z.lor BPF_ALU BPF_ADD) BPF_K, BPF_S_ALU_ADD_K);
   (Z.lor (Z.lor BPF_ALU BPF_ADD) BPF_X, BPF_S_ALU_ADD_X);
   (Z.lor (Z.lor BPF_ALU BPF_SUB) BPF_K, BPF_S_ALU_SUB_K);
   (Z.lor (Z.lor BPF_ALU BPF_SUB) BPF_X, BPF_S_ALU_SUB_X);
   (Z.lor (Z.lor BPF_ALU BPF_MUL) BPF_K, BPF_S_ALU_MUL_K);
   (Z.lor (Z.lor BPF_ALU BPF_MUL) BPF_X, BPF_S_ALU_MUL_X);
   (Z.lor (Z.lor BPF_ALU BPF_DIV) BPF_X, BPF_S_ALU_DIV_X);
   (Z.lor (Z.lor BPF_ALU BPF_AND) BPF_K, BPF_S_ALU_AND_K);
   (Z.lor (Z.lor BPF_ALU BPF_AND) BPF_X, BPF_S_ALU_AND_X);
   (Z.lor (Z.lor BPF_ALU BPF_OR) BPF_K, BPF_S_ALU_OR_K);
   (Z.lor (Z.lor BPF_ALU BPF_OR) BPF_X, BPF_S_ALU_OR_X);
   (Z.lor (Z.lor BPF_ALU BPF_LSH) BPF_K, BPF_S_ALU_LSH_K);
   (Z.lor (Z.lor BPF_ALU BPF_LSH) BPF_X, BPF_S_ALU_LSH_X);
   (Z.lor (Z.lor BPF_ALU BPF_RSH) BPF_K, BPF_S_ALU_RSH_K);
   (Z.lor (Z.lor BPF_ALU BPF_RSH) BPF_X, BPF_S_ALU_RSH_X);
   (Z.lor BPF_ALU BPF_NEG, BPF_S_ALU_NEG);
   (Z.lor (Z.lor BPF_LD BPF_W) BPF_ABS, BPF_S_LD_W_ABS);
   (Z.lor (Z.lor BPF_LD BPF_H) BPF_ABS, BPF_S_LD_H_ABS);
   (Z.lor (Z.lor BPF_LD BPF_B) BPF_ABS, BPF_S_LD_B_ABS);
   (Z.lor (Z.lor BPF_LD BPF_W) BPF_LEN, BPF_S_LD_W_LEN);
   (Z.lor (Z.lor BPF_LD BPF_W) BPF_IND, BPF_S_LD_W_IND);
   (Z.lor (Z.lor BPF_LD BPF_H) BPF_IND, BPF_S_LD_H_IND);
   (Z.lor (Z.lor BPF_LD BPF_B) BPF_IND, BPF_S_LD_B_IND);
   (Z.lor BPF_LD BPF_IMM, BPF_S_LD_IMM);
   (Z.lor (Z.lor BPF_LDX BPF_W) BPF_LEN, BPF_S_LDX_W_LEN);
   (Z.lor (Z.lor BPF_LDX BPF_B) BPF_MSH, BPF_S_LDX_B_MSH);
   (Z.lor BPF_LDX BPF_IMM, BPF_S_LDX_IMM);
   (Z.lor BPF_MISC BPF_TAX, BPF_S_MISC_TAX);
   (Z.lor BPF_MISC BPF_TXA, BPF_S_MISC_TXA);
   (Z.lor BPF_RET BPF_K, BPF_S_RET_K);
   (Z.lor BPF_RET BPF_A, BPF_S_RET_A);
   (Z.lor (Z.lor BPF_ALU BPF_DIV) BPF_K, BPF_S_ALU_DIV_K);
   (Z.lor BPF_LD BPF_MEM, BPF_S_LD_MEM);
   (Z.lor BPF_LDX BPF_MEM, BPF_S_LDX_MEM);
   (BPF_ST, BPF_S_ST);
   (BPF_STX, BPF_S_STX);
   (Z.lor BPF_JMP BPF_JA, BPF_S_JMP_JA);
   (Z.lor (Z.lor BPF_JMP BPF_JEQ) BPF_K, BPF_S_JMP_JEQ_K);
   (Z.lor (Z.lor BPF_JMP BPF_JEQ) BPF_X, BPF_S_JMP_JEQ_X);
   (Z.lor (Z.lor BPF_JMP BPF_JGE) BPF_K, BPF_S_JMP_JGE_K);
   (Z.lor (Z.lor BPF_JMP BPF_JGE) BPF_X, BPF_S_JMP_JGE_X);
   (Z.lor (Z.lor BPF_JMP BPF_JGT) BPF_K, BPF_S_JMP_JGT_K);
   (Z.lor (Z.lor BPF_JMP BPF_JGT) BPF_X, BPF_S_JMP_JGT_X);
   (Z.lor (Z.lor BPF_JMP BPF_JSET) BPF_K, BPF_S_JMP_JSET_K);
   (Z.lor (Z.lor BPF_JMP BPF_JSET) BPF_X, BPF_S_JMP_JSET_X)].

(** [codes[]]: as long as its largest index requires, 0 where not initialised. *)
Definition codes_size : nat := S (foldr (λ r m, Nat.max (Z.to_nat r.1) m) 0%nat codes_init).
Definition codes : list Z :=
  foldl (λ l r, <[Z.to_nat r.1 := bpf_s_val r.2]> l) (replicate codes_size 0) codes_init.

(** ** Reciprocal division: lib/reciprocal_div.c *)

Definition reciprocal_value (b : Z) : Z := wrap 32 (wrap 64 (Z.shiftl 1 32 + wrap 32 (b - 1)) / b).

Definition reciprocal_divide (a r : Z) : Z := wrap 32 (Z.shiftr (wrap 64 (a * r)) 32).

(** ** The interpreter *)

(** What a filter sees of the machine and of the rest of the kernel: the shifts of the
    architecture for counts of 32 and more (C leaves them open), the processor number
    and [seccomp_bpf_load], whose fault is its [BUG()]. *)
Record bpf_env := {
  env_shl : Z → Z → Z;
  env_shr : Z → Z → Z;
  env_cpu : Z;
  env_seccomp_bpf_load : Z → option Z
}.

Definition bpf_internal_load_pointer_neg_helper (skb : sk_buff) (k size : Z) : option pkt_ptr :=
  let ptr :=
    if SKF_NET_OFF <=? k then Some (network_header skb + k - SKF_NET_OFF)
    else if SKF_LL_OFF <=? k then Some (mac_header skb + k - SKF_LL_OFF)
    else None in
  match ptr with
  | Some p =>
      if (0 <=? p) && (p + size <=? Z.of_nat (length (skb_head skb))) then Some (In_head p) else None
  | None => None
  end.

Definition load_pointer (skb : sk_buff) (k size : Z) : option (option pkt_ptr) :=
  if 0 <=? k then skb_header_pointer skb k size
  else Some (bpf_internal_load_pointer_neg_helper skb k size).

(** Big-endian value of bytes: [get_unaligned_be32], [get_unaligned_be16], [*(u8 * )]. *)
Definition be_value (bs : list Z) : Z := foldl (λ a b, a * 256 + b) 0 bs.

(** The value loaded through [load_pointer]; [Some None] when it returns null. *)
Definition load_be (skb : option sk_buff) (k size : Z) : option (option Z) :=
  skb ← skb;
  p ← load_pointer skb k size;
  match p with
  | None => Some None
  | Some p => bs ← ptr_bytes skb p size; Some (Some (be_value bs))
  end.

Definition shl32 (env : bpf_env) (a n : Z) : Z :=
  if n <? 32 then bshl 32 a n else env_shl env a n.
Definition shr32 (env : bpf_env) (a n : Z) : Z :=
  if n <? 32 then Z.shiftr a n else env_shr env a n.

(** The arithmetic instructions: the new accumulator, or a return; [None] for
    the other instructions. *)
Definition exec_alu (env : bpf_env) (op : bpf_s) (A X K : Z) : option (ctl Z Z) :=
  match op with
  | BPF_S_ALU_ADD_X => Some (Next (wrap 32 (A + X)))
  | BPF_S_ALU_ADD_K => Some (Next (wrap 32 (A + K)))
  | BPF_S_ALU_SUB_X => Some (Next (wrap 32 (A - X)))
  | BPF_S_ALU_SUB_K => Some (Next (wrap 32 (A - K)))
  | BPF_S_ALU_MUL_X => Some (Next (wrap 32 (A * X)))
  | BPF_S_ALU_MUL_K => Some (Next (wrap 32 (A * K)))
  | BPF_S_ALU_DIV_X => if X =? 0 then Some (Stop 0) else Some (Next (A / X))
  | BPF_S_ALU_DIV_K => Some (Next (reciprocal_divide A K))
  | BPF_S_ALU_AND_X => Some (Next (Z.land A X))
  | BPF_S_ALU_AND_K => Some (Next (Z.land A K))
  | BPF_S_ALU_OR_X => Some (Next (Z.lor A X))
  | BPF_S_ALU_OR_K => Some (Next (Z.lor A K))
  | BPF_S_ALU_LSH_X => Some (Next (shl32 env A X))
  | BPF_S_ALU_LSH_K => Some (Next (shl32 env A K))
  | BPF_S_ALU_RSH_X => Some (Next (shr32 env A X))
  | BPF_S_ALU_RSH_K => Some (Next (shr32 env A K))
  | BPF_S_ALU_NEG => Some (Next (wrap 32 (- A)))
  | _ => None
  end.

(** The jumps: what is added to [fentry]; [None] for the other instructions. *)
Definition exec_jmp (op : bpf_s) (ins : sock_filter) (A X : Z) : option Z :=
  let K := sf_k ins in
  let branch (c : bool) := Some (if c then sf_jt ins else sf_jf ins) in
  match op with
  | BPF_S_JMP_JA => Some K
  | BPF_S_JMP_JGT_K => branch (K <? A)
  | BPF_S_JMP_JGE_K => branch (K <=? A)
  | BPF_S_JMP_JEQ_K => branch (A =? K)
  | BPF_S_JMP_JSET_K => branch (negb (Z.land A K =? 0))
  | BPF_S_JMP_JGT_X => branch (X <? A)
  | BPF_S_JMP_JGE_X => branch (X <=? A)
  | BPF_S_JMP_JEQ_X => branch (A =? X)
  | BPF_S_JMP_JSET_X => branch (negb (Z.land A X =? 0))
  | _ => None
  end.

(** Registers and scratch memory; a cell not yet written is [None]. *)
Record bpf_state := { st_pc : Z; st_A : Z; st_X : Z; st_mem : list (option Z) }.

Definition set_A (a : Z) (st : bpf_state) : bpf_state :=
  {| st_pc := st_pc st; st_A := a; st_X := st_X st; st_mem := st_mem st |}.
Definition set_X (x : Z) (st : bpf_state) : bpf_state :=
  {| st_pc := st_pc st; st_A := st_A st; st_X := x; st_mem := st_mem st |}.
Definition set_mem (m : list (option Z)) (st : bpf_state) : bpf_state :=
  {| st_pc := st_pc st; st_A := st_A st; st_X := st_X st; st_mem := m |}.
Definition set_pc (p : Z) (st : bpf_state) : bpf_state :=
  {| st_pc := p; st_A := st_A st; st_X := st_X st; st_mem := st_mem st |}.

(** The guard both attribute searches start with: [true] to go on.  [sizeof] is a
    64-bit [size_t], so [skb->len - sizeof(struct nlattr)] is a 64-bit subtraction. *)
Definition nlattr_guard (skb : sk_buff) (A : Z) : bool :=
  negb (skb_is_nonlinear skb) && negb (wrap 64 (skb_len skb - sizeof_nlattr) <? A).

(** [A = nla - skb->data] or 0. *)
Definition nlattr_result (skb : sk_buff) (r : option Z) (st : bpf_state) : ctl bpf_state Z :=
  Next (set_A (match r with Some p => wrap 32 (p - skb_data skb) | None => 0 end) st).

Definition anc_nlattr (skb : sk_buff) (st : bpf_state) : option (ctl bpf_state Z) :=
  let A := st_A st in
  if negb (nlattr_guard skb A) then Some (Stop 0) else
  r ← nla_find (skb_head skb) (skb_data skb + A)
        (swrap 32 (wrap 32 (skb_len skb - A))) (swrap 32 (st_X st));
  Some (nlattr_result skb r st).

Definition anc_nlattr_nest (skb : sk_buff) (st : bpf_state) : option (ctl bpf_state Z) :=
  let A := st_A st in
  if negb (nlattr_guard skb A) then Some (Stop 0) else
  l ← nla_len_field (skb_head skb) (skb_data skb + A);
  if wrap 32 (A - skb_len skb) <? l then Some (Stop 0) else
  r ← nla_find_nested (skb_head skb) (skb_data skb + A) (swrap 32 (st_X st));
  Some (nlattr_result skb r st).

(** The ancillary loads and the default case. *)
Definition exec_anc (env : bpf_env) (skb : option sk_buff) (op : bpf_s) (K : Z) (st : bpf_state)
  : option (ctl bpf_state Z) :=
  let setA (f : sk_buff → Z) := skb ← skb; Some (Next (set_A (f skb) st)) in
  let setdev (f : net_device → Z) :=
    skb ← skb;
    match dev skb with
    | None => Some (Stop 0)
    | Some d => Some (Next (set_A (f d) st))
    end in
  match op with
  | BPF_S_ANC_PROTOCOL => setA (λ s, let p := protocol s in Z.land p 255 * 256 + Z.shiftr p 8)
  | BPF_S_ANC_PKTTYPE => setA pkt_type
  | BPF_S_ANC_IFINDEX => setdev (λ d, wrap 32 (ifindex d))
  | BPF_S_ANC_MARK => setA mark
  | BPF_S_ANC_QUEUE => setA queue_mapping
  | BPF_S_ANC_HATYPE => setdev dev_type
  | BPF_S_ANC_RXHASH => setA rxhash
  | BPF_S_ANC_CPU => Some (Next (set_A (wrap 32 (env_cpu env)) st))
  | BPF_S_ANC_ALU_XOR_X => Some (Next (set_A (Z.lxor (st_A st) (st_X st)) st))
  | BPF_S_ANC_NLATTR => skb ← skb; anc_nlattr skb st
  | BPF_S_ANC_NLATTR_NEST => skb ← skb; anc_nlattr_nest skb st
  | BPF_S_ANC_SECCOMP_LD_W =>
      a ← env_seccomp_bpf_load env (swrap 32 K); Some (Next (set_A a st))
  | _ => Some (Stop 0)
  end.

(** Loads, stores, register moves and returns. *)
Definition exec_ld (env : bpf_env) (skb : option sk_buff) (op : bpf_s) (K : Z) (st : bpf_state)
  : option (ctl bpf_state Z) :=
  let A := st_A st in
  let X := st_X st in
  let load k size :=
    v ← load_be skb (swrap 32 k) size;
    match v with
    | Some a => Some (Next (set_A a st))
    | None => Some (Stop 0)
    end in
  match op with
  | BPF_S_LD_W_ABS => load K 4
  | BPF_S_LD_H_ABS => load K 2
  | BPF_S_LD_B_ABS => load K 1
  | BPF_S_LD_W_LEN => skb ← skb; Some (Next (set_A (skb_len skb) st))
  | BPF_S_LDX_W_LEN => skb ← skb; Some (Next (set_X (skb_len skb) st))
  | BPF_S_LD_W_IND => load (wrap 32 (X + K)) 4
  | BPF_S_LD_H_IND => load (wrap 32 (X + K)) 2
  | BPF_S_LD_B_IND => load (wrap 32 (X + K)) 1
  | BPF_S_LDX_B_MSH =>
      v ← load_be skb (swrap 32 K) 1;
      match v with
      | Some b => Some (Next (set_X (Z.shiftl (Z.land b 0xf) 2) st))
      | None => Some (Stop 0)
      end
  | BPF_S_LD_IMM => Some (Next (set_A K st))
  | BPF_S_LDX_IMM => Some (Next (set_X K st))
  | BPF_S_LD_MEM => c ← rd (st_mem st) K; a ← c; Some (Next (set_A a st))
  | BPF_S_LDX_MEM => c ← rd (st_mem st) K; x ← c; Some (Next (set_X x st))
  | BPF_S_MISC_TAX => Some (Next (set_X A st))
  | BPF_S_MISC_TXA => Some (Next (set_A X st))
  | BPF_S_RET_K => Some (Stop K)
  | BPF_S_RET_A => Some (Stop A)
  | BPF_S_ST => m ← wr (st_mem st) K (Some A); Some (Next (set_mem m st))
  | BPF_S_STX => m ← wr (st_mem st) K (Some X); Some (Next (set_mem m st))
  | _ => exec_anc env skb op K st
  end.

(** [fentry++] at the end of a round. *)
Definition advance (d : Z) (st : bpf_state) : bpf_state := set_pc (st_pc st + d + 1) st.

(** One round of the interpreter's loop: fetch, decode, execute. *)
Definition bpf_step (env : bpf_env) (skb : option sk_buff) (filter : list sock_filter)
    (st : bpf_state) : option (ctl bpf_state Z) :=
  ins ← rd filter (st_pc st);
  match bpf_s_of (sf_code ins) with
  | None => Some (Stop 0)
  | Some op =>
      match exec_alu env op (st_A st) (st_X st) (sf_k ins) with
      | Some (Next a) => Some (Next (advance 0 (set_A a st)))
      | Some (Stop r) => Some (Stop r)
      | None =>
          match exec_jmp op ins (st_A st) (st_X st) with
          | Some d => Some (Next (advance d st))
          | None =>
              r ← exec_ld env skb op (sf_k ins) st;
              match r with
              | Next st' => Some (Next (advance 0 st'))
              | Stop v => Some (Stop v)
              end
          end
      end
  end.

Definition bpf_init : bpf_state :=
  {| st_pc := 0; st_A := 0; st_X := 0; st_mem := replicate (Z.to_nat BPF_MEMWORDS) None |}.

(** Jumps only go forward, so the length of the filter is enough fuel. *)
Definition sk_run_filter (env : bpf_env) (skb : option sk_buff) (filter : list sock_filter)
  : option Z :=
  loop (S (length filter)) (bpf_step env skb filter) bpf_init.

(** ** The checker *)

Definition set_code (c : Z) (ins : sock_filter) : sock_filter :=
  {| sf_code := c; sf_jt := sf_jt ins; sf_jf := sf_jf ins; sf_k := sf_k ins |}.
Definition set_k (v : Z) (ins : sock_filter) : sock_filter :=
  {| sf_code := sf_code ins; sf_jt := sf_jt ins; sf_jf := sf_jf ins; sf_k := v |}.

(** [1 << n] for a cell number. *)
Definition cell (n : Z) : Z := Z.shiftl 1 n.

(** [masks[i] &= m]. *)
Definition and_mask (masks : list Z) (i m : Z) : option (list Z) :=
  v ← rd masks i; wr masks i (Z.land v m).

(** The body of the loop of [check_load_and_stores]: the state is [masks] and [memvalid]. *)
Definition check_cell (filter : list sock_filter) (pc : Z) (st : list Z * Z)
  : option (ctl (list Z * Z) Z) :=
  let '(masks, memvalid) := st in
  m ← rd masks pc;
  let memvalid := Z.land memvalid m in
  ins ← rd filter pc;
  match bpf_s_of (sf_code ins) with
  | Some BPF_S_ST | Some BPF_S_STX =>
      Some (Next (masks, wrap 16 (Z.lor memvalid (cell (sf_k ins)))))
  | Some BPF_S_LD_MEM | Some BPF_S_LDX_MEM =>
      if Z.land memvalid (cell (sf_k ins)) =? 0 then Some (Stop (- EINVAL))
      else Some (Next (masks, memvalid))
  | Some BPF_S_JMP_JA =>
      masks ← and_mask masks (wrap 32 (pc + 1 + sf_k ins)) memvalid;
      Some (Next (masks, 0xffff))
  | Some BPF_S_JMP_JEQ_K | Some BPF_S_JMP_JEQ_X | Some BPF_S_JMP_JGE_K | Some BPF_S_JMP_JGE_X
  | Some BPF_S_JMP_JGT_K | Some BPF_S_JMP_JGT_X | Some BPF_S_JMP_JSET_X | Some BPF_S_JMP_JSET_K =>
      masks ← and_mask masks (pc + 1 + sf_jt ins) memvalid;
      masks ← and_mask masks (pc + 1 + sf_jf ins) memvalid;
      Some (Next (masks, 0xffff))
  | _ => Some (Next (masks, memvalid))
  end.

(** [alloc] says whether [kmalloc] succeeds. *)
Definition check_load_and_stores (alloc : bool) (filter : list sock_filter) (flen : Z) : option Z :=
  if negb alloc then Some (- ENOMEM) else
  r ← for_up (Z.to_nat flen) 0 (check_cell filter) (replicate (Z.to_nat flen) 0xffff, 0);
  Some (match r with Next _ => 0 | Stop ret => ret end).

(** The ancillary instruction that [SKF_AD_OFF + ...] stands for: the [switch (ftest->k)]. *)
Definition ancillary (K : Z) : option bpf_s :=
  let ad n := K =? wrap 32 (SKF_AD_OFF + n) in
  if ad SKF_AD_PROTOCOL then Some BPF_S_ANC_PROTOCOL
  else if ad SKF_AD_PKTTYPE then Some BPF_S_ANC_PKTTYPE
  else if ad SKF_AD_IFINDEX then Some BPF_S_ANC_IFINDEX
  else if ad SKF_AD_NLATTR then Some BPF_S_ANC_NLATTR
  else if ad SKF_AD_NLATTR_NEST then Some BPF_S_ANC_NLATTR_NEST
  else if ad SKF_AD_MARK then Some BPF_S_ANC_MARK
  else if ad SKF_AD_QUEUE then Some BPF_S_ANC_QUEUE
  else if ad SKF_AD_HATYPE then Some BPF_S_ANC_HATYPE
  else if ad SKF_AD_RXHASH then Some BPF_S_ANC_RXHASH
  else if ad SKF_AD_CPU then Some BPF_S_ANC_CPU
  else if ad SKF_AD_ALU_XOR_X then Some BPF_S_ANC_ALU_XOR_X
  else None.

(** The special checks of one instruction: [None] is [-EINVAL], otherwise the
    rewritten instruction. *)
Definition check_special (flen pc : Z) (op : bpf_s) (ftest : sock_filter) : option sock_filter :=
  let K := sf_k ftest in
  let same := Some (set_code (bpf_s_val op) ftest) in
  match op with
  | BPF_S_ALU_DIV_K =>
      if K =? 0 then None else Some (set_code (bpf_s_val op) (set_k (reciprocal_value K) ftest))
  | BPF_S_LD_MEM | BPF_S_LDX_MEM | BPF_S_ST | BPF_S_STX => if BPF_MEMWORDS <=? K then None else same
  | BPF_S_JMP_JA => if wrap 32 (flen - pc - 1) <=? K then None else same
  | BPF_S_JMP_JEQ_K | BPF_S_JMP_JEQ_X | BPF_S_JMP_JGE_K | BPF_S_JMP_JGE_X
  | BPF_S_JMP_JGT_K | BPF_S_JMP_JGT_X | BPF_S_JMP_JSET_X | BPF_S_JMP_JSET_K =>
      if (flen <=? pc + sf_jt ftest + 1) || (flen <=? pc + sf_jf ftest + 1) then None else same
  | BPF_S_LD_W_ABS | BPF_S_LD_H_ABS | BPF_S_LD_B_ABS =>
      match ancillary K with
      | Some anc => Some (set_code (bpf_s_val anc) ftest)
      | None => same
      end
  | _ => same
  end.

(** The body of the loop of [sk_chk_filter]: the instruction is rewritten in place. *)
Definition check_insn (flen pc : Z) (filter : list sock_filter)
  : option (ctl (list sock_filter) (list sock_filter)) :=
  ftest ← rd filter pc;
  if Z.of_nat codes_size <=? sf_code ftest then Some (Stop filter) else
  c ← rd codes (sf_code ftest);
  match bpf_s_of c with
  | None => Some (Stop filter)
  | Some op =>
      match check_special flen pc op ftest with
      | None => Some (Stop filter)
      | Some ins => f ← wr filter pc ins; Some (Next f)
      end
  end.

(** The result and the filter as it is then, rewritten up to where the check stopped. *)
Definition sk_chk_filter (alloc : bool) (filter : list sock_filter) (flen : Z)
  : option (Z * list sock_filter) :=
  if (flen =? 0) || (BPF_MAXINSNS <? flen) then Some (- EINVAL, filter) else
  r ← for_up (Z.to_nat flen) 0 (check_insn flen) filter;
  match r with
  | Stop f => Some (- EINVAL, f)
  | Next f =>
      last ← rd f (flen - 1);
      match bpf_s_of (sf_code last) with
      | Some BPF_S_RET_K | Some BPF_S_RET_A =>
          ret ← check_load_and_stores alloc f flen; Some (ret, f)
      | _ => Some (- EINVAL, f)
      end
  end.

(** ** Programs handed over by user space *)

Definition sizeof_sock_filter : Z := 8.

(** [struct sock_fprog]: [fprog_user] is the readable user memory behind [filter]. *)
Record sock_fprog := { fprog_len : Z; fprog_user : list sock_filter }.

(** [copy_from_user] of [n] instructions: [None] when it cannot read them all. *)
Definition copy_insns (user : list sock_filter) (n : Z) : option (list sock_filter) :=
  if n <=? Z.of_nat (length user) then Some (take (Z.to_nat n) user) else None.
