(* ===== verification/BpfSafe.v ===== *)
(** * What [sk_chk_filter] promises to [sk_run_filter]

    A filter that the checker accepts terminates without reading outside the
    filter, outside the scratch memory or a scratch cell that was not written:
    the checker's facts ([checked], [flow_ok]) and the invariant of the run. *)
From S2P Require Import Prelude Skbuff Bpf.

(** ** Vocabulary *)

(** The widths of the fields of [struct sock_filter]. *)
Definition sf_typed (ins : sock_filter) : Prop :=
  in_width 16 (sf_code ins) ∧ in_width 8 (sf_jt ins) ∧ in_width 8 (sf_jf ins) ∧ in_width 32 (sf_k ins).

Definition is_jump (op : bpf_s) : bool :=
  match op with
  | BPF_S_JMP_JA | BPF_S_JMP_JEQ_K | BPF_S_JMP_JEQ_X | BPF_S_JMP_JGE_K | BPF_S_JMP_JGE_X
  | BPF_S_JMP_JGT_K | BPF_S_JMP_JGT_X | BPF_S_JMP_JSET_X | BPF_S_JMP_JSET_K => true
  | _ => false
  end.

Definition is_ret (op : bpf_s) : bool :=
  match op with BPF_S_RET_K | BPF_S_RET_A => true | _ => false end.

Definition is_load_mem (op : bpf_s) : bool :=
  match op with BPF_S_LD_MEM | BPF_S_LDX_MEM => true | _ => false end.

Definition is_store (op : bpf_s) : bool :=
  match op with BPF_S_ST | BPF_S_STX => true | _ => false end.

(** The instructions that only the checker produces, from a load at [SKF_AD_OFF]. *)
Definition is_anc (op : bpf_s) : bool :=
  match op with
  | BPF_S_ANC_PROTOCOL | BPF_S_ANC_PKTTYPE | BPF_S_ANC_IFINDEX | BPF_S_ANC_NLATTR
  | BPF_S_ANC_NLATTR_NEST | BPF_S_ANC_MARK | BPF_S_ANC_QUEUE | BPF_S_ANC_HATYPE
  | BPF_S_ANC_RXHASH | BPF_S_ANC_CPU | BPF_S_ANC_ALU_XOR_X | BPF_S_ANC_SECCOMP_LD_W => true
  | _ => false
  end.

(** The instructions that look outside the interpreter's own state. *)
Definition is_packet (op : bpf_s) : bool :=
  match op with
  | BPF_S_LD_W_ABS | BPF_S_LD_H_ABS | BPF_S_LD_B_ABS | BPF_S_LD_W_LEN | BPF_S_LDX_W_LEN
  | BPF_S_LD_W_IND | BPF_S_LD_H_IND | BPF_S_LD_B_IND | BPF_S_LDX_B_MSH => true
  | _ => is_anc op
  end.

(** Where control goes after the instruction at [pc]. *)
Definition succs (op : bpf_s) (ins : sock_filter) (pc : Z) : list Z :=
  if is_ret op then []
  else match op with
  | BPF_S_JMP_JA => [pc + 1 + sf_k ins]
  | _ => if is_jump op then [pc + 1 + sf_jt ins; pc + 1 + sf_jf ins] else [pc + 1]
  end.

(** What the checker establishes for each instruction. *)
Definition insn_checked (flen pc : Z) (ins : sock_filter) : Prop :=
  ∃ op, bpf_s_of (sf_code ins) = Some op ∧ sf_typed ins ∧ op ≠ BPF_S_ANC_SECCOMP_LD_W ∧
    (is_load_mem op || is_store op = true → sf_k ins < BPF_MEMWORDS) ∧
    (is_jump op = true → Forall (λ q, q < flen) (succs op ins pc)).

(** The same without the restriction to the instructions of socket filters. *)
Definition insn_ok (flen pc : Z) (ins : sock_filter) : Prop :=
  ∃ op, bpf_s_of (sf_code ins) = Some op ∧ sf_typed ins ∧
    (is_load_mem op || is_store op = true → sf_k ins < BPF_MEMWORDS) ∧
    (is_jump op = true → Forall (λ q, q < flen) (succs op ins pc)).

Lemma insn_checked_ok flen pc ins : insn_checked flen pc ins → insn_ok flen pc ins.
Proof. intros (op & ? & ? & _ & ? & ?). by exists op. Qed.

(** [a] has no bit that [b] has not. *)
Definition sub (a b : Z) : Prop := ∀ c, 0 ≤ c → Z.testbit a c = true → Z.testbit b c = true.

(** The cells written after an instruction, from those written before. *)
Definition out_cells (op : bpf_s) (ins : sock_filter) (m : Z) : Z :=
  if is_store op then Z.lor m (cell (sf_k ins)) else m.

(** [M pc] is a set of cells that are written whenever control reaches [pc]: nothing at the
    start, every load inside it, and along every edge no more than what was written. *)
Definition flow_ok (f : list sock_filter) (M : Z → Z) : Prop :=
  M 0 = 0 ∧
  ∀ pc ins op, rd f pc = Some ins → bpf_s_of (sf_code ins) = Some op →
    (is_load_mem op = true → Z.testbit (M pc) (sf_k ins) = true) ∧
    Forall (λ q, sub (M q) (out_cells op ins (M pc))) (succs op ins pc).

(** [reaches f pc ws]: some path through the filter leads from its first instruction to [pc] and
    stores, in reverse order, to the cells [ws] on the way. *)
Inductive reaches (f : list sock_filter) : Z → list Z → Prop :=
  | reaches_start : reaches f 0 []
  | reaches_edge pc ws ins op q :
      reaches f pc ws → rd f pc = Some ins → bpf_s_of (sf_code ins) = Some op →
      q ∈ succs op ins pc →
      reaches f q (if is_store op then sf_k ins :: ws else ws).

(** The whole contract of an accepted filter. *)
Definition accepted (f : list sock_filter) : Prop :=
  0 < Z.of_nat (length f) ≤ BPF_MAXINSNS ∧
  (∀ pc ins, rd f pc = Some ins → insn_checked (Z.of_nat (length f)) pc ins) ∧
  (∃ ins op, rd f (Z.of_nat (length f) - 1) = Some ins ∧
     bpf_s_of (sf_code ins) = Some op ∧ is_ret op = true) ∧
  ∃ M, flow_ok f M.

(** ** The enumeration and the table *)

Lemma bpf_s_of_val op : bpf_s_of (bpf_s_val op) = Some op.
Proof. destruct op; vm_compute; reflexivity. Qed.

Lemma bpf_s_val_width op : in_width 16 (bpf_s_val op).
Proof. destruct op; split; vm_compute; congruence. Qed.

Lemma codes_length : length codes = codes_size.
Proof. vm_compute. reflexivity. Qed.

Lemma codes_not_anc c v op : rd codes c = Some v → bpf_s_of v = Some op → is_anc op = false.
Proof.
  intros [_ H%list_elem_of_lookup_2]%rd_Some Hop.
  set (ok := λ v, match bpf_s_of v with Some op => negb (is_anc op) | None => true end).
  assert (forallb ok codes = true) as Hall by (vm_compute; done).
  rewrite -> forallb_forall in Hall. specialize (Hall v (proj1 (list_elem_of_In _ _) H)).
  rw /ok Hop in Hall.
  by destruct (is_anc op).
Qed.

Lemma ancillary_anc K op : ancillary K = Some op → is_anc op = true ∧ op ≠ BPF_S_ANC_SECCOMP_LD_W.
Proof. rw /ancillary. repeat case_if; intros [= <-]; done. Qed.

Lemma reciprocal_value_width b : in_width 32 (reciprocal_value b).
Proof. by apply in_width_wrap. Qed.

(** ** The first pass *)

Lemma insn_checked_same flen pc op ftest :
  sf_typed ftest → op ≠ BPF_S_ANC_SECCOMP_LD_W →
  (is_load_mem op || is_store op = true → sf_k ftest < BPF_MEMWORDS) →
  (is_jump op = true → Forall (λ q, q < flen) (succs op ftest pc)) →
  insn_checked flen pc (set_code (bpf_s_val op) ftest).
Proof.
  intros (Hc & Ht) Hne Hm Hj. exists op. rw bpf_s_of_val. split_and!; try done.
  split; [apply bpf_s_val_width|done].
Qed.

Lemma check_special_ok flen pc op ftest ins :
  0 ≤ pc < flen → flen ≤ BPF_MAXINSNS → sf_typed ftest → is_anc op = false →
  check_special flen pc op ftest = Some ins → insn_checked flen pc ins.
Proof.
  intros Hpc Hfl Ht Ha. pose proof Ht as (_ & _ & _ & Hk). rw /BPF_MAXINSNS in Hfl.
  assert (wrap 32 (flen - pc - 1) = flen - pc - 1) as Hw
    by (apply wrap_small; split; [lia|change (2 ^ 32) with 4294967296; lia]).
  destruct op; try discriminate Ha; cbn [check_special]; rw ?Hw;
    repeat case_if; try discriminate; try (destruct (ancillary _) as [anc|] eqn:E);
    intros [= <-];
    try (apply ancillary_anc in E as [E1 E2]);
    try (apply insn_checked_same; [done|done| |];
      [intros Hm; first [discriminate Hm|done|by destruct anc|lia]
      |intros Hj; first [discriminate Hj|by destruct anc|cbn; repeat constructor; lia]]).
  apply (insn_checked_same _ _ _ (set_k _ ftest)); [|done|done|done].
  destruct Ht as (? & ? & ? & _). split_and!; try done. apply reciprocal_value_width.
Qed.

(** The state of the first pass before instruction [pc]. *)
Definition pass1_inv (flen pc : Z) (f : list sock_filter) : Prop :=
  Z.of_nat (length f) = flen ∧ Forall sf_typed f ∧
  ∀ p ins, p < pc → rd f p = Some ins → insn_checked flen p ins.

Lemma insn_checked_typed flen pc ins : insn_checked flen pc ins → sf_typed ins.
Proof. by intros (op & _ & ? & _). Qed.

Lemma check_insn_inv flen pc f :
  0 ≤ pc < flen → flen ≤ BPF_MAXINSNS → pass1_inv flen pc f →
  (∃ f', check_insn flen pc f = Some (Next f') ∧ pass1_inv flen (pc + 1) f') ∨
  (∃ f', check_insn flen pc f = Some (Stop f') ∧ Z.of_nat (length f') = flen).
Proof.
  intros Hpc Hfl (Hl & Ht & Hc). rw /check_insn.
  destruct (rd_in f pc) as [ftest Hr]; [lia|]. rw Hr. cbn [mbind option_bind].
  assert (sf_typed ftest) as Hty.
  { apply rd_Some in Hr as [_ Hr]. by eapply Forall_lookup_1. }
  case_if; [by right; eexists|].
  pose proof Hty as ([Hcode _] & _).
  destruct (rd_in codes (sf_code ftest)) as [v Hv]; [rw codes_length; lia|].
  rw Hv. cbn [mbind option_bind].
  destruct (bpf_s_of v) as [op|] eqn:Hop; [|by right; eexists].
  destruct (check_special flen pc op ftest) as [ins|] eqn:Hs; [|by right; eexists].
  assert (insn_checked flen pc ins) as Hi
    by (eapply check_special_ok; [done|done|done| |done]; by eapply codes_not_anc).
  left. rw wr_in; [|lia]. eexists. split; [done|]. split_and!.
  - by rw length_insert.
  - apply Forall_insert; [done|by eapply insn_checked_typed].
  - intros p ins' Hp Hr'. destruct (decide (p = pc)) as [->|].
    + rewrite -> (rd_wr_eq f _ pc ins) in Hr' by (apply wr_in; lia). congruence.
    + rewrite -> (rd_wr_ne f _ pc p ins) in Hr' by (try apply wr_in; lia).
      apply Hc; [lia|done].
Qed.

(** ** The second pass: scratch cells *)

Lemma sub_refl a : sub a a.
Proof. by intros c. Qed.

Lemma sub_trans a b c : sub a b → sub b c → sub a c.
Proof. intros H1 H2 i Hi Ha. by apply H2, H1. Qed.

Lemma sub_land_l a b : sub (Z.land a b) a.
Proof. intros c _. rw Z.land_spec andb_true_iff. tauto. Qed.

Lemma sub_land_r a b : sub (Z.land a b) b.
Proof. intros c _. rw Z.land_spec andb_true_iff. tauto. Qed.

Lemma sub_wrap w a : 0 ≤ w → sub (wrap w a) a.
Proof. intros Hw c Hc. rw testbit_wrap // andb_true_iff. tauto. Qed.

#[export] Hint Resolve sub_refl sub_land_l sub_land_r : core.

Lemma testbit_cell n i : 0 ≤ n → Z.testbit (cell n) i = (n =? i).
Proof. intros. rw /cell Z.shiftl_1_l. by apply testbit_pow2. Qed.

Lemma land_cell_nonzero m n :
  0 ≤ n → Z.land m (cell n) ≠ 0 → Z.testbit m n = true.
Proof.
  intros Hn Hne. destruct (Z.testbit m n) eqn:E; [done|]. destruct Hne.
  apply Z.bits_inj'. intros i Hi. rw Z.land_spec testbit_cell // Z.bits_0.
  destruct (n =? i) eqn:E2; zbool; [subst; by rw E|by rw andb_false_r].
Qed.

Lemma and_mask_spec masks i m :
  0 ≤ i < Z.of_nat (length masks) →
  ∃ masks', and_mask masks i m = Some masks' ∧ length masks' = length masks ∧
    ∀ q v', rd masks' q = Some v' →
      ∃ v, rd masks q = Some v ∧ sub v' v ∧ (q = i → sub v' m).
Proof.
  intros Hi. rw /and_mask. destruct (rd_in masks i) as [v Hv]; [lia|]. rw Hv.
  cbn [mbind option_bind]. rw wr_in //. eexists. split; [done|].
  split; [by rw length_insert|]. intros q v' Hq.
  assert (wr masks i (Z.land v m) = Some (<[Z.to_nat i:=Z.land v m]> masks)) as Hw by by apply wr_in.
  destruct (decide (q = i)) as [->|Hne].
  - rw (rd_wr_eq _ _ _ _ Hw) in Hq. injection Hq as <-. eauto.
  - rw (rd_wr_ne _ _ _ _ _ Hw Hne) in Hq. exists v'. split_and!; [done|done|done].
Qed.

(** Case analysis on the membership in an explicit list. *)
Ltac elem_cases :=
  let H := fresh in
  intros H;
  repeat first [apply elem_of_nil in H as []|apply elem_of_cons in H as [->|H]].

Lemma succs_ge op ins pc q : sf_typed ins → q ∈ succs op ins pc → pc + 1 ≤ q.
Proof.
  intros (_ & [? _] & [? _] & [? _]). rw /succs.
  destruct op; cbn; elem_cases; lia.
Qed.

Lemma succs_fall op ins pc q : is_jump op = false → q ∈ succs op ins pc → q = pc + 1.
Proof.
  intros Hj. rw /succs.
  destruct op; try discriminate Hj; cbn; elem_cases; lia.
Qed.

(** The facts the second pass has collected before instruction [pc]: what holds along the
    edges already seen, and what the pending [masks] and [memvalid] stand for. *)
Definition pass2_edge (M : Z → Z) (masks : list Z) (memvalid pc : Z) (op : bpf_s)
    (ins : sock_filter) (p q : Z) : Prop :=
  (q < pc → sub (M q) (out_cells op ins (M p))) ∧
  (pc ≤ q → if is_jump op then ∀ m, rd masks q = Some m → sub m (out_cells op ins (M p))
            else sub memvalid (out_cells op ins (M p))).

Definition pass2_inv (f : list sock_filter) (pc : Z) (st : list Z * Z) : Prop :=
  let '(masks, memvalid) := st in
  length masks = length f ∧
  ∃ M, (if pc =? 0 then memvalid = 0 else M 0 = 0) ∧
    ∀ p ins op, p < pc → rd f p = Some ins → bpf_s_of (sf_code ins) = Some op →
      (is_load_mem op = true → Z.testbit (M p) (sf_k ins) = true) ∧
      Forall (pass2_edge M masks memvalid pc op ins p) (succs op ins p).

(** One round: what it needs to know about the new [masks] and [memvalid]. *)
Lemma pass2_step f pc masks memvalid masks' memvalid' ins op m :
  let M0 := Z.land memvalid m in
  0 ≤ pc → pass2_inv f pc (masks, memvalid) →
  rd masks pc = Some m → rd f pc = Some ins → bpf_s_of (sf_code ins) = Some op → sf_typed ins →
  length masks' = length masks →
  (∀ q v', rd masks' q = Some v' → ∃ v, rd masks q = Some v ∧ sub v' v) →
  (is_load_mem op = true → Z.testbit M0 (sf_k ins) = true) →
  (if is_jump op
   then ∀ q v', q ∈ succs op ins pc → rd masks' q = Some v' → sub v' M0
   else sub memvalid' (out_cells op ins M0)) →
  pass2_inv f (pc + 1) (masks', memvalid').
Proof.
  intros M0 Hpc (Hl & M & HM0 & HM) Hm Hins Hop Hty Hl' Hmono Hload Hnew.
  split; [congruence|]. exists (λ q, if q =? pc then M0 else M q). split.
  { ztest. case_if; [|by move: HM0; ztest].
    subst pc. move: HM0. ztest. intros ->. by rw /M0 Z.land_0_l. }
  intros p ins' op' Hp Hr Hop'. destruct (decide (p = pc)) as [->|Hne].
  - assert (ins' = ins) as -> by congruence. assert (op' = op) as -> by congruence.
    ztest. split; [done|]. apply Forall_forall. intros q Hq.
    pose proof (succs_ge _ _ _ _ Hty Hq). split; [lia|]. intros _. rw Z.eqb_refl. destruct (is_jump op) eqn:Hj.
    + intros v Hv. rw /out_cells. replace (is_store op) with false by (by destruct op).
      by eapply Hnew.
    + done.
  - destruct (HM p ins' op') as [Hload' Hedges]; [lia|done|done|]. ztest. split; [done|].
    rewrite -> Forall_forall in Hedges |- *. intros q Hin.
    destruct (Hedges q Hin) as [Hlt Hge]. rw /pass2_edge (proj2 (Z.eqb_neq p pc) Hne). split.
    + intros Hq. cbn beta. destruct (Z.eqb_spec q pc) as [->|]; [|ztest; apply Hlt; lia].
      specialize (Hge ltac:(lia)). destruct (is_jump op').
      * eapply sub_trans; [apply sub_land_r|by apply Hge].
      * eapply sub_trans; [apply sub_land_l|done].
    + intros Hq. specialize (Hge ltac:(lia)). destruct (is_jump op') eqn:Hj.
      * intros v' Hv'. destruct (Hmono _ _ Hv') as (v & Hv & Hs). eapply sub_trans; [done|eauto].
      * pose proof (succs_fall _ _ _ _ Hj Hin). lia.
Qed.

(** The two kinds of rounds: a jump marks its targets, the others carry [memvalid] on. *)
Definition marked (masks : list Z) (targets : list Z) (m : Z) (masks' : list Z) : Prop :=
  length masks' = length masks ∧
  ∀ q v', rd masks' q = Some v' →
    ∃ v, rd masks q = Some v ∧ sub v' v ∧ (q ∈ targets → sub v' m).

Lemma mark_one masks i m :
  0 ≤ i < Z.of_nat (length masks) →
  ∃ masks', and_mask masks i m = Some masks' ∧ marked masks [i] m masks'.
Proof.
  intros Hi. destruct (and_mask_spec masks i m Hi) as (masks' & E & Hl & Hq).
  exists masks'. split; [done|]. split; [done|]. intros q v' Hv'.
  destruct (Hq q v' Hv') as (v & ? & ? & Hs). exists v. split_and!; [done|done|].
  intros ->%list_elem_of_singleton. by apply Hs.
Qed.

Lemma mark_two masks i j m :
  0 ≤ i < Z.of_nat (length masks) → 0 ≤ j < Z.of_nat (length masks) →
  ∃ masks', (ms ← and_mask masks i m; and_mask ms j m) = Some masks' ∧
    marked masks [i; j] m masks'.
Proof.
  intros Hi Hj. destruct (and_mask_spec masks i m Hi) as (ms & -> & Hl & Hq).
  cbn [mbind option_bind].
  destruct (and_mask_spec ms j m) as (masks' & E & Hl' & Hq'); [lia|].
  exists masks'. split; [done|]. split; [congruence|]. intros q v' Hv'.
  destruct (Hq' q v' Hv') as (v & Hv & Hs & Ht). destruct (Hq q v Hv) as (v0 & Hv0 & Hs0 & Ht0).
  exists v0. split_and!; [done|by eapply sub_trans|].
  elem_cases; [eapply sub_trans; [done|by apply Ht0]|by apply Ht].
Qed.

Lemma check_cell_jump f pc masks memvalid m ins op :
  rd masks pc = Some m → rd f pc = Some ins → bpf_s_of (sf_code ins) = Some op →
  is_jump op = true → sf_typed ins → length masks = length f →
  0 ≤ pc → Z.of_nat (length f) ≤ BPF_MAXINSNS →
  Forall (λ q, q < Z.of_nat (length f)) (succs op ins pc) →
  ∃ masks', check_cell f pc (masks, memvalid) = Some (Next (masks', 0xffff)) ∧
    marked masks (succs op ins pc) (Z.land memvalid m) masks'.
Proof.
  intros Hm Hins Hop Hj (_ & [? _] & [? _] & [? _]) Hl Hpc Hmax Ht. rw /BPF_MAXINSNS in Hmax.
  rw /check_cell Hm Hins. cbn [mbind option_bind]. rw Hop.
  destruct (decide (op = BPF_S_JMP_JA)) as [->|Hne].
  - cbn in Ht. inversion Ht; subst. rw wrap_small.
    2:{ split; [lia|]. change (2 ^ 32) with 4294967296. lia. }
    destruct (mark_one masks (pc + 1 + sf_k ins) (Z.land memvalid m)) as (ms & -> & Hms); [lia|].
    by exists ms.
  - assert (succs op ins pc = [pc + 1 + sf_jt ins; pc + 1 + sf_jf ins]) as Hs by (by destruct op).
    rw Hs in Ht. inversion Ht as [|? ? ? Ht2]; subst. inversion Ht2; subst. rw Hs.
    destruct (mark_two masks (pc + 1 + sf_jt ins) (pc + 1 + sf_jf ins) (Z.land memvalid m))
      as (ms & E & Hms); [lia|lia|]. exists ms. split; [|done].
    destruct (and_mask masks (pc + 1 + sf_jt ins) _) as [m1|] eqn:E1; [|done].
    cbn [mbind option_bind] in E.
    destruct op; try done; cbn [mbind option_bind]; by rw E.
Qed.

Lemma check_cell_plain f pc masks memvalid m ins op :
  rd masks pc = Some m → rd f pc = Some ins → bpf_s_of (sf_code ins) = Some op →
  is_jump op = false → sf_typed ins →
  check_cell f pc (masks, memvalid) = Some (Stop (- EINVAL)) ∨
  (∃ memvalid', check_cell f pc (masks, memvalid) = Some (Next (masks, memvalid')) ∧
    (is_load_mem op = true → Z.testbit (Z.land memvalid m) (sf_k ins) = true) ∧
    sub memvalid' (out_cells op ins (Z.land memvalid m))).
Proof.
  intros Hm Hins Hop Hj (_ & _ & _ & [? _]). rw /check_cell Hm Hins. cbn [mbind option_bind]. rw Hop.
  destruct (is_load_mem op) eqn:Hload; [|destruct (is_store op) eqn:Hst].
  - assert (is_store op = false) as Hns by (by destruct op). rw /out_cells Hns.
    destruct (Z.land (Z.land memvalid m) (cell (sf_k ins)) =? 0) eqn:E; zbool.
    + left. by destruct op.
    + right. exists (Z.land memvalid m). split_and!; [by destruct op|intros _|done].
      by apply land_cell_nonzero.
  - right. rw /out_cells Hst. exists (wrap 16 (Z.lor (Z.land memvalid m) (cell (sf_k ins)))).
    split_and!; [by destruct op|done|by apply sub_wrap].
  - right. rw /out_cells Hst. exists (Z.land memvalid m). split_and!; [by destruct op|done|done].
Qed.

Lemma check_cell_inv f pc st :
  (∀ p ins, rd f p = Some ins → insn_checked (Z.of_nat (length f)) p ins) →
  Z.of_nat (length f) ≤ BPF_MAXINSNS →
  0 ≤ pc < Z.of_nat (length f) → pass2_inv f pc st →
  (∃ st', check_cell f pc st = Some (Next st') ∧ pass2_inv f (pc + 1) st') ∨
  (∃ r, check_cell f pc st = Some (Stop r) ∧ r = - EINVAL).
Proof.
  intros Hc Hmax Hpc Hinv. destruct st as [masks memvalid]. pose proof Hinv as [Hl _].
  destruct (rd_in masks pc) as [m Hm]; [lia|]. destruct (rd_in f pc) as [ins Hins]; [lia|].
  destruct (Hc pc ins Hins) as (op & Hop & Hty & _ & _ & Hjmp).
  destruct (is_jump op) eqn:Hj.
  - left. destruct (check_cell_jump f pc masks memvalid m ins op) as (ms & E & Hl' & Hms);
      try done; [lia|by apply Hjmp|].
    eexists. split; [exact E|]. eapply pass2_step; try done; [lia| | |].
    + intros q v' Hq. destruct (Hms q v' Hq) as (v & ? & ? & _). eauto.
    + by destruct op.
    + rw Hj. intros q v' Hin Hq. destruct (Hms q v' Hq) as (v & ? & ? & Hs). by apply Hs.
  - destruct (check_cell_plain f pc masks memvalid m ins op) as [E|(mv & E & Hload & Hsub)];
      try done; [right; eauto|left].
    eexists. split; [exact E|]. eapply pass2_step; try done; [lia|eauto|by rw Hj].
Qed.

(** No instruction leads out of the filter. *)
Definition closed (f : list sock_filter) : Prop :=
  ∀ pc ins op, rd f pc = Some ins → bpf_s_of (sf_code ins) = Some op →
    Forall (λ q, q < Z.of_nat (length f)) (succs op ins pc).

Lemma closed_ret f ins op :
  (∀ p ins, rd f p = Some ins → insn_checked (Z.of_nat (length f)) p ins) →
  rd f (Z.of_nat (length f) - 1) = Some ins → bpf_s_of (sf_code ins) = Some op →
  is_ret op = true → closed f.
Proof.
  intros Hc Hlast Hop Hret pc ins' op' Hr Hop'.
  destruct (is_jump op') eqn:Hj.
  - destruct (Hc pc ins' Hr) as (op2 & Hop2 & _ & _ & _ & Hjmp).
    assert (op2 = op') as -> by congruence. by apply Hjmp.
  - apply Forall_forall. intros q Hq. pose proof (succs_fall _ _ _ _ Hj Hq) as ->.
    apply rd_lt in Hr as Hlt. destruct (decide (pc = Z.of_nat (length f) - 1)) as [->|]; [|lia].
    assert (ins' = ins) as -> by congruence. assert (op' = op) as -> by congruence.
    rw /succs Hret in Hq. by apply elem_of_nil in Hq.
Qed.

(** Along a path, the cells of the flow are cells the path has stored to. *)
Lemma reaches_flow f M pc ws :
  flow_ok f M → (∀ p ins, rd f p = Some ins → sf_typed ins) → reaches f pc ws →
  ∀ c, 0 ≤ c → Z.testbit (M pc) c = true → c ∈ ws.
Proof.
  intros [HM0 Hf] Hty. induction 1 as [|pc ws ins op q Hp IH Hr Hop Hq]; intros c Hc Hbit.
  - rw HM0 Z.bits_0 // in Hbit.
  - destruct (Hf _ _ _ Hr Hop) as [_ Hs]. rewrite -> Forall_forall in Hs.
    specialize (Hs q Hq c Hc Hbit). destruct (Hty _ _ Hr) as (_ & _ & _ & [? _]).
    move: Hs. rw /out_cells. destruct (is_store op); [|by apply IH].
    rw Z.lor_spec testbit_cell // orb_true_iff Z.eqb_eq elem_of_cons.
    intros [?|<-]; [right; by apply IH|by left].
Qed.

(** The second pass never faults; when it succeeds it has found a flow. *)
Lemma check_load_and_stores_ok alloc f :
  (∀ p ins, rd f p = Some ins → insn_checked (Z.of_nat (length f)) p ins) →
  0 < Z.of_nat (length f) ≤ BPF_MAXINSNS → closed f →
  ∃ r, check_load_and_stores alloc f (Z.of_nat (length f)) = Some r ∧
    (r = - ENOMEM ∨ r = - EINVAL ∨ r = 0 ∧ ∃ M, flow_ok f M).
Proof.
  intros Hc Hmax Hcl. rw /check_load_and_stores. destruct alloc; [|eauto]. cbn [negb].
  rw Nat2Z.id.
  destruct (for_up_inv (pass2_inv f) (λ r, r = - EINVAL) (length f) 0 (check_cell f)
    (replicate (length f) 0xffff, 0)) as [(st & -> & Hinv)|(r & -> & ->)]; [| |cbn|cbn; eauto].
  - split; [by rw length_replicate|]. exists (λ _, 0). split; [done|].
    intros p ins op Hp Hr. apply rd_lt in Hr. lia.
  - intros j st Hj. rw Z.add_0_l in Hj. apply check_cell_inv; [done|lia|done].
  - eexists. split; [done|]. do 2 right. split; [done|]. destruct st as [masks memvalid].
    destruct Hinv as (_ & M & HM0 & HM). exists M. rw Z.add_0_l in HM0 HM.
    move: HM0. ztest. intros HM0. split; [done|]. intros pc ins op Hr Hop.
    apply rd_lt in Hr as Hlt. destruct (HM pc ins op) as [Hload Hedge]; [lia|done|done|].
    split; [done|]. pose proof (Hcl pc ins op Hr Hop) as Hq.
    rewrite -> Forall_forall in Hedge, Hq |- *. intros q Hin.
    destruct (Hedge q Hin) as [Hs _]. apply Hs. by apply Hq.
Qed.

(** ** The checker: total, and what acceptance means *)
Lemma sk_chk_filter_total alloc f :
  Forall sf_typed f →
  ∃ r f', sk_chk_filter alloc f (Z.of_nat (length f)) = Some (r, f') ∧
    (r = - EINVAL ∨ r = - ENOMEM ∨ r = 0 ∧ length f' = length f ∧ accepted f').
Proof.
  intros Ht. rw /sk_chk_filter. case_if; [do 2 eexists; eauto|].
  destruct (for_up_inv (pass1_inv (Z.of_nat (length f))) (λ f', Z.of_nat (length f') = Z.of_nat (length f))
    (Z.to_nat (Z.of_nat (length f))) 0 (check_insn (Z.of_nat (length f))) f)
    as [(f' & -> & Hl & _ & Hc)|(f' & -> & _)]; [| |cbn|cbn; do 2 eexists; eauto].
  - split_and!; [done|done|]. intros p ins Hp Hr. apply rd_lt in Hr. lia.
  - intros j s Hj. apply check_insn_inv; lia.
  - rw Nat2Z.id Z.add_0_l in Hc. rw -Hl in Hc. rw -Hl.
    destruct (rd_in f' (Z.of_nat (length f') - 1)) as [last Hlast]; [lia|]. rw Hlast.
    cbn [mbind option_bind].
    assert (∀ p ins, rd f' p = Some ins → insn_checked (Z.of_nat (length f')) p ins) as Hc'.
    { intros p ins Hr. apply Hc; [|done]. apply rd_lt in Hr. lia. }
    destruct (bpf_s_of (sf_code last)) as [op|] eqn:Hop; [|cbn; do 2 eexists; eauto].
    destruct (is_ret op) eqn:Hret; [|destruct op; try done; do 2 eexists; eauto].
    pose proof (closed_ret f' last op Hc' Hlast Hop Hret) as Hcl.
    destruct (check_load_and_stores_ok alloc f') as (r & Hr & Hcase); [done|lia|done|].
    exists r, f'. split; [destruct op; try done; by rw Hr|].
    destruct Hcase as [->|[->|[-> HM]]]; [by eauto|by eauto|]. do 2 right.
    split_and!; [done|lia|]. split; [lia|]. split_and!; [done|by eauto|done].
Qed.

(** ** The run of an accepted filter *)

(** The shifts of the architecture yield 32-bit values. *)
Definition env_ok (env : bpf_env) : Prop :=
  (∀ a n, in_width 32 (env_shl env a n)) ∧ (∀ a n, in_width 32 (env_shr env a n)).

Definition cell_ok (c : option Z) : Prop := ∀ v, c = Some v → in_width 32 v.

Definition regs_ok (st : bpf_state) : Prop :=
  in_width 32 (st_A st) ∧ in_width 32 (st_X st) ∧
  length (st_mem st) = 16%nat ∧ Forall cell_ok (st_mem st).

(** The outcome of a load: a good state at the same place, or a return. *)
Definition ld_ok (st : bpf_state) (r : ctl bpf_state Z) : Prop :=
  match r with
  | Next st' => regs_ok st' ∧ st_pc st' = st_pc st ∧ st_mem st' = st_mem st
  | Stop v => in_width 32 v
  end.

(** A packet instruction that cannot fault. *)
Definition pkt_safe (env : bpf_env) (skb : option sk_buff) (op : bpf_s) (K : Z) : Prop :=
  ∀ st, regs_ok st → ∃ r, exec_ld env skb op K st = Some r ∧ ld_ok st r.

Definition all_pkt_safe (env : bpf_env) (skb : option sk_buff) (f : list sock_filter) : Prop :=
  ∀ ins op, ins ∈ f → bpf_s_of (sf_code ins) = Some op → is_packet op = true →
    pkt_safe env skb op (sf_k ins).

(** The state of a run: inside the filter, and every cell of [M] written. *)
Definition run_inv (f : list sock_filter) (M : Z → Z) (st : bpf_state) : Prop :=
  0 ≤ st_pc st < Z.of_nat (length f) ∧ regs_ok st ∧
  ∀ c, 0 ≤ c < 16 → Z.testbit (M (st_pc st)) c = true → ∃ v, rd (st_mem st) c = Some (Some v).

Lemma in_width_div w a b : in_width w a → 0 < b → in_width w (a / b).
Proof.
  intros [? ?] Hb. split; [by apply Z.div_pos|]. eapply Z.le_lt_trans; [|done].
  by apply Z.div_le_upper_bound; [|nia].
Qed.

#[export] Hint Resolve in_width_div : width.

Lemma exec_alu_ok env op A X K r :
  env_ok env → in_width 32 A → in_width 32 X → in_width 32 K →
  exec_alu env op A X K = Some r → in_width 32 (match r with Next a => a | Stop v => v end).
Proof.
  intros [Hshl Hshr] HA HX HK.
  assert (0 ≤ X) by apply HX. assert (0 ≤ K) by apply HK.
  destruct op; try discriminate; cbn [exec_alu]; rw /reciprocal_divide /shl32 /shr32;
    repeat case_if; intros [= <-]; auto with width; try apply in_width_div; try done; try lia;
    apply in_width_shiftr; done || lia.
Qed.

Lemma exec_alu_plain env op A X K :
  is_jump op || is_packet op || is_ret op || is_load_mem op || is_store op = true →
  exec_alu env op A X K = None.
Proof. by destruct op. Qed.

Lemma exec_jmp_ok op ins pc A X :
  is_jump op = true → ∃ d, exec_jmp op ins A X = Some d ∧ pc + d + 1 ∈ succs op ins pc.
Proof.
  intros Hj. destruct op; try discriminate Hj; cbn [exec_jmp]; eexists; split; try done;
    rw /succs; cbn; repeat case_if; rw !elem_of_cons; lia.
Qed.

Lemma exec_jmp_none op ins A X : is_jump op = false → exec_jmp op ins A X = None.
Proof. by destruct op. Qed.

(** The instructions that work on registers and scratch memory. *)
Lemma exec_ld_plain env skb op K st :
  regs_ok st → in_width 32 K → is_packet op = false →
  (is_load_mem op = true → ∃ v, rd (st_mem st) K = Some (Some v)) →
  (is_store op = true → K < 16) →
  ∃ r, exec_ld env skb op K st = Some r ∧
    match r with
    | Stop v => in_width 32 v
    | Next st' => regs_ok st' ∧ st_pc st' = st_pc st ∧ is_ret op = false ∧
        ∀ c, 0 ≤ c < 16 →
          (∃ v, rd (st_mem st) c = Some (Some v)) ∨ (is_store op = true ∧ c = K) →
          ∃ v, rd (st_mem st') c = Some (Some v)
    end.
Proof.
  intros (HA & HX & Hl & Hm) HK Hp Hload Hstore.
  assert (∀ x, in_width 32 x → is_store op = true →
    ∃ m, wr (st_mem st) K (Some x) = Some m ∧ regs_ok (set_mem m st) ∧
      ∀ c, 0 ≤ c < 16 → (∃ v, rd (st_mem st) c = Some (Some v)) ∨ c = K →
        ∃ v, rd m c = Some (Some v)) as Hwr.
  { intros x Hx Hst. specialize (Hstore Hst). destruct HK as [HK _].
    rw wr_in; [|lia]. eexists. split; [done|]. split.
    - split_and!; try done; cbn; [by rw length_insert|].
      apply Forall_insert; [done|]. by intros v [= <-].
    - intros c Hc Hor. destruct (decide (c = K)) as [->|Hne].
      + exists x. eapply rd_wr_eq. apply wr_in. lia.
      + destruct Hor as [[v Hv]|?]; [|done]. exists v.
        rewrite <- Hv. eapply rd_wr_ne; [apply wr_in; lia|done]. }
  destruct (is_store op) eqn:Hst; [|destruct (is_load_mem op) eqn:Hlm].
  - destruct (Hwr (st_A st)) as (ma & Ea & ? & ?); [done|done|].
    destruct (Hwr (st_X st)) as (mx & Ex & ? & ?); [done|done|].
    destruct op; try discriminate Hst; cbn [exec_ld]; rw ?Ea ?Ex; cbn [mbind option_bind];
      eexists; (split; [done|]); split_and!; try done; intros c Hc [?|[_ ?]]; eauto.
  - destruct (Hload eq_refl) as [v Hv].
    assert (in_width 32 v) as Hvw.
    { apply rd_Some in Hv as [_ Hv]. by eapply (Forall_lookup_1 _ _ _ _ Hm Hv). }
    destruct op; try discriminate Hlm; cbn [exec_ld]; rw Hv; cbn [mbind option_bind];
      eexists; (split; [done|]); split_and!; try done; intros c Hc [?|[? _]]; done.
  - destruct op; try discriminate Hp; try discriminate Hst; try discriminate Hlm; cbn [exec_ld exec_anc];
      eexists; (split; [done|]); try done;
      split_and!; try done; intros c Hc [?|[? _]]; done.
Qed.

Section run.
Context (env : bpf_env) (skb : option sk_buff) (f : list sock_filter) (M : Z → Z).
Hypothesis Henv : env_ok env.
Hypothesis Hchk : ∀ pc ins, rd f pc = Some ins → insn_ok (Z.of_nat (length f)) pc ins.
Hypothesis Hclosed : closed f.
Hypothesis Hflow : flow_ok f M.
Hypothesis Hpkt : all_pkt_safe env skb f.

(** Following an edge keeps the invariant. *)
Lemma run_edge st st' ins op q :
  run_inv f M st → rd f (st_pc st) = Some ins → bpf_s_of (sf_code ins) = Some op →
  sf_typed ins → regs_ok st' → q ∈ succs op ins (st_pc st) →
  (∀ c, 0 ≤ c < 16 →
     (∃ v, rd (st_mem st) c = Some (Some v)) ∨ (is_store op = true ∧ c = sf_k ins) →
     ∃ v, rd (st_mem st') c = Some (Some v)) →
  run_inv f M (set_pc q st') ∧ st_pc st < q.
Proof using All.
  intros (Hpc & _ & Hcells) Hr Hop Hty Hregs Hq Hkeep.
  pose proof (succs_ge _ _ _ _ Hty Hq) as Hge.
  pose proof (Hclosed _ _ _ Hr Hop) as Hlt. rewrite -> Forall_forall in Hlt. specialize (Hlt q Hq).
  split; [|lia]. split; [cbn; lia|]. split; [done|]. cbn. intros c Hc Hbit.
  apply Hkeep; [done|]. destruct Hflow as [_ Hf]. destruct (Hf _ _ _ Hr Hop) as [_ Hsub].
  rewrite -> Forall_forall in Hsub. specialize (Hsub q Hq c ltac:(lia) Hbit).
  move: Hsub. rw /out_cells. destruct (is_store op); [|intros Hb; left; by apply Hcells].
  destruct Hty as (_ & _ & _ & [? _]).
  rw Z.lor_spec testbit_cell // orb_true_iff Z.eqb_eq.
  intros [Hb|<-]; [left; by apply Hcells|by right].
Qed.

Lemma bpf_step_ok st :
  run_inv f M st →
  (∃ st', bpf_step env skb f st = Some (Next st') ∧ run_inv f M st' ∧ st_pc st < st_pc st') ∨
  (∃ r, bpf_step env skb f st = Some (Stop r) ∧ in_width 32 r).
Proof using All.
  intros Hinv. pose proof Hinv as (Hpc & Hregs & Hcells).
  destruct (rd_in f (st_pc st)) as [ins Hr]; [lia|].
  destruct (Hchk _ _ Hr) as (op & Hop & Hty & Hmem & Hjmp).
  rw /bpf_step Hr. cbn [mbind option_bind]. rw Hop.
  pose proof Hty as (_ & _ & _ & HK). pose proof Hregs as (HA & HX & Hl & Hm).
  assert (∀ st' d, regs_ok st' → st_pc st' = st_pc st → st_pc st + d + 1 ∈ succs op ins (st_pc st) →
    (∀ c, 0 ≤ c < 16 →
      (∃ v, rd (st_mem st) c = Some (Some v)) ∨ (is_store op = true ∧ c = sf_k ins) →
      ∃ v, rd (st_mem st') c = Some (Some v)) →
    run_inv f M (advance d st') ∧ st_pc st < st_pc (advance d st')) as Hadv.
  { intros st' d Hr' Hpc' Hin Hk. rw /advance Hpc'. eapply run_edge; done. }
  destruct (exec_alu env op (st_A st) (st_X st) (sf_k ins)) as [[a|v]|] eqn:Ealu.
  - left. eexists. split; [done|]. pose proof (exec_alu_ok _ _ _ _ _ _ Henv HA HX HK Ealu).
    apply Hadv; [done|done| |].
    + rw Z.add_0_r. destruct op; try discriminate Ealu; apply list_elem_of_singleton; done.
    + intros c Hc [?|[Hs _]]; [done|]. destruct op; discriminate Ealu || discriminate Hs.
  - right. eexists. split; [done|]. by apply (exec_alu_ok _ _ _ _ _ _ Henv HA HX HK Ealu).
  - destruct (is_jump op) eqn:Hj.
    + destruct (exec_jmp_ok op ins (st_pc st) (st_A st) (st_X st) Hj) as (d & -> & Hd).
      left. eexists. split; [done|]. apply Hadv; [done|done|done|].
      intros c Hc [?|[Hs _]]; [done|]. by destruct op.
    + rw exec_jmp_none //. destruct (is_packet op) eqn:Hpk.
      * destruct (Hpkt ins op) with (st := st) as (r & -> & Hld); try done.
        { apply rd_Some in Hr as [_ Hr]. by eapply list_elem_of_lookup_2. }
        cbn [mbind option_bind]. destruct r as [st'|v]; [left|right; eauto].
        destruct Hld as (? & ? & Hmm). eexists. split; [done|]. apply Hadv; [done|done| |].
        -- rw Z.add_0_r /succs. destruct op; try discriminate Hpk; apply list_elem_of_singleton; done.
        -- intros c Hc [?|[Hs _]]; [by rw Hmm|]. by destruct op.
      * destruct (exec_ld_plain env skb op (sf_k ins) st) as (r & -> & Hres); try done.
        { intros Hlm. destruct Hflow as [_ Hf]. destruct (Hf _ _ _ Hr Hop) as [Hload _].
          destruct HK as [? _]. apply Hcells; [|by apply Hload].
          split; [lia|]. apply Hmem. by rw Hlm. }
        { intros Hs. apply Hmem. by rw Hs orb_true_r. }
        cbn [mbind option_bind]. destruct r as [st'|v]; [left|right; eauto].
        destruct Hres as (? & ? & Hnr & Hk). eexists. split; [done|].
        apply Hadv; [done|done| |done]. rw Z.add_0_r /succs Hnr.
        destruct op; try discriminate Hj; apply list_elem_of_singleton; done.
Qed.

(** An accepted filter returns a 32-bit value. *)
Lemma sk_run_filter_ok :
  0 < Z.of_nat (length f) → ∃ r, sk_run_filter env skb f = Some r ∧ in_width 32 r.
Proof using All.
  intros Hlen. rw /sk_run_filter.
  apply (loop_inv (run_inv f M) (λ st, Z.to_nat (Z.of_nat (length f) - st_pc st))).
  - intros st Hinv. destruct (bpf_step_ok st Hinv) as [(st' & E & Hi & Hlt)|?]; [left|by right].
    destruct (Hi) as [Hpc _]. destruct (Hinv) as [Hpc' _]. exists st'. split_and!; [done|done|lia].
  - split; [cbn; lia|]. split.
    + split_and!; [by apply in_width_0|by apply in_width_0|done|].
      apply Forall_replicate. by intros v.
    + cbn. destruct Hflow as [-> _]. intros c _. by rw Z.bits_0.
  - cbn. lia.
Qed.
End run.
