(* ===== verification/BpfPacket.v ===== *)
(** * Socket filters on packets

    The packet side of [sk_run_filter]: loads read the bytes of the packet
    wherever they are stored, the packet instructions of a checked filter do
    not fault on a well-formed buffer, and what remains open with the netlink
    attribute searches.  Reciprocal division as [sk_chk_filter] and the
    interpreter use it together. *)
From S2P Require Import Prelude Skbuff Bpf BpfSafe.

(** ** Loads *)

(** A well-formed buffer whose other fields have the widths of [struct sk_buff]. *)
Definition skb_typed (skb : sk_buff) : Prop :=
  skb_wf skb ∧ in_width 16 (protocol skb) ∧ in_width 3 (pkt_type skb) ∧ in_width 32 (mark skb) ∧
  in_width 16 (queue_mapping skb) ∧ in_width 32 (rxhash skb) ∧
  ∀ d, dev skb = Some d → in_width 16 (dev_type d).

(** The filter has no nested netlink attribute search ([SKF_AD_NLATTR_NEST]) at all, whatever the
    packet; and where it has a plain one, the packet is at least as long as an attribute header. *)
Definition nlattr_safe (skb : sk_buff) (f : list sock_filter) : Prop :=
  ∀ ins, ins ∈ f →
    bpf_s_of (sf_code ins) ≠ Some BPF_S_ANC_NLATTR_NEST ∧
    (bpf_s_of (sf_code ins) = Some BPF_S_ANC_NLATTR → sizeof_nlattr ≤ skb_len skb).

Lemma be_value_app bs b : be_value (bs ++ [b]) = be_value bs * 256 + b.
Proof. by rw /be_value foldl_app. Qed.

Lemma be_value_width bs :
  byte_list bs → in_width (8 * Z.of_nat (length bs)) (be_value bs).
Proof.
  induction bs as [|b bs IH] using rev_ind; intros Hb; [split; done|].
  apply Forall_app in Hb as [Hbs Hb]. rewrite -> Forall_singleton in Hb. destruct (IH Hbs) as [? Hlt].
  destruct Hb as [? Hb]. change (2 ^ 8) with 256 in Hb.
  rw be_value_app length_app. cbn [length]. split; [lia|].
  replace (8 * Z.of_nat (length bs + 1)) with (8 * Z.of_nat (length bs) + 8) by lia.
  rewrite -> Z.pow_add_r by lia. change (2 ^ 8) with 256. lia.
Qed.

Lemma skb_bytes_byte skb : skb_wf skb → byte_list (skb_bytes skb).
Proof.
  induction skb as [skb IH] using sk_buff_nested_ind. intros Hwf.
  destruct (skb_wf_inv skb Hwf) as (Hb & _ & _ & _ & _ & Hfr & Hfl). rw skb_bytes_eq.
  apply Forall_app. split; [by apply Forall_drop|]. apply Forall_app. split.
  - apply Forall_concat, Forall_fmap. eapply Forall_impl; [exact Hfr|].
    intros fr (_ & _ & _ & Hp). by apply Forall_take, Forall_drop.
  - apply Forall_concat, Forall_fmap, Forall_forall. intros s Hs.
    apply (proj1 (Forall_forall _ _) IH s Hs), (proj1 (Forall_forall _ _) Hfl s Hs).
Qed.

(** A load at a non-negative offset reads the packet, however it is fragmented. *)
Lemma load_be_packet skb off size :
  skb_wf skb → 0 ≤ off → 0 ≤ size →
  load_be (Some skb) off size =
  Some (if off + size <=? skb_len skb
        then Some (be_value (take (Z.to_nat size) (drop (Z.to_nat off) (skb_bytes skb))))
        else None).
Proof.
  intros Hwf Ho Hs. rw /load_be /load_pointer /skb_header_pointer. cbn [mbind option_bind]. ztest.
  destruct (wf_lens skb Hwf) as (_ & -> & Hle & _).
  destruct (skb_wf_inv skb Hwf) as (_ & Hd & Hl & _). destruct (size <=? _) eqn:E; zbool.
  - ztest. cbn [mbind option_bind ptr_bytes]. move: E. rw {1}/linear_bytes length_drop. intros E.
    rw rd_range_in; [|lia..]. cbn. do 3 f_equal. rw skb_bytes_eq /linear_bytes.
    rw drop_app_le; [|rw length_drop; lia]. rw take_app_le; [|rw !length_drop; lia].
    rw drop_drop. do 2 f_equal. lia.
  - destruct (off + size <=? skb_len skb) eqn:E2; zbool.
    + rw copy_bits_in //. cbn [mbind option_bind ptr_bytes].
      rw rd_range_in; [|lia|lia|rw length_take length_drop; lia].
      cbn. rw drop_0 take_take. do 4 f_equal. lia.
    + rw copy_bits_out //.
Qed.

Lemma load_be_ok skb off size :
  skb_wf skb → 0 ≤ size ≤ 4 →
  ∃ r, load_be (Some skb) off size = Some r ∧ ∀ v, r = Some v → in_width (8 * size) v.
Proof.
  intros Hwf Hs. destruct (Z.lt_ge_cases off 0) as [Hneg|Hpos].
  - rw /load_be /load_pointer. cbn [mbind option_bind]. ztest.
    rw /bpf_internal_load_pointer_neg_helper.
    assert (∀ p, ∃ r, (p0 ← Some (if (0 <=? p) && (p + size <=? Z.of_nat (length (skb_head skb)))
        then Some (In_head p) else None);
        match p0 with Some p0 => bs ← ptr_bytes skb p0 size; Some (Some (be_value bs)) | None => Some None end)
        = Some r ∧ ∀ v, r = Some v → in_width (8 * size) v) as Hp.
    { intros p. case_if; [|by eexists]. cbn. rw rd_range_in; [|lia..]. cbn. eexists. split; [done|].
      intros v [= <-]. destruct (skb_wf_inv skb Hwf) as (Hb & _).
      set (bs := take _ _). replace size with (Z.of_nat (length bs)) at 1
        by (rw /bs length_take length_drop; lia).
      apply be_value_width. by apply Forall_take, Forall_drop. }
    case_if; [apply Hp|]. case_if; [apply Hp|]. by eexists.
  - rw load_be_packet; [|done|lia..]. eexists. split; [done|]. intros v. case_if; [|done].
    intros [= <-]. destruct (skb_wf_inv skb Hwf) as (_ & _ & Hl & _).
    set (bs := take _ _). replace size with (Z.of_nat (length bs)) at 1
      by (rw /bs length_take length_drop; lia).
    apply be_value_width. by apply Forall_take, Forall_drop, skb_bytes_byte.
Qed.

(** ** The packet instructions do not fault *)

Lemma set_A_ok a st : regs_ok st → in_width 32 a → ld_ok st (Next (set_A a st)).
Proof. intros (HA & HX & Hl & Hm) Ha. split_and!; done. Qed.

Lemma set_X_ok x st : regs_ok st → in_width 32 x → ld_ok st (Next (set_X x st)).
Proof. intros (HA & HX & Hl & Hm) Ha. split_and!; done. Qed.

Lemma stop0_ok st : ld_ok st (Stop 0).
Proof. by apply in_width_0. Qed.

#[export] Hint Resolve set_A_ok set_X_ok stop0_ok : width.

(** The accumulator is inside the packet when the guard of the attribute searches lets a
    long enough packet pass. *)
Lemma nlattr_guard_in skb A :
  skb_wf skb → in_width 32 A → sizeof_nlattr ≤ skb_len skb → nlattr_guard skb A = true →
  A + sizeof_nlattr ≤ skb_len skb ∧ skb_data skb + skb_len skb = Z.of_nat (length (skb_head skb)).
Proof.
  intros Hwf [HA _]. destruct (skb_wf_inv skb Hwf) as (_ & Hd & _ & Hmax & Hh & _).
  rw /nlattr_guard /skb_is_nonlinear /sizeof_nlattr. change (2 ^ 31) with 2147483648 in Hmax.
  intros Hlen. rw wrap_small; [|split; [lia|change (2 ^ 64) with 18446744073709551616; lia]].
  intros Hg. zbool. move: Hh. rw /linear_bytes length_drop. lia.
Qed.

Lemma anc_nlattr_ok skb st :
  skb_wf skb → sizeof_nlattr ≤ skb_len skb → regs_ok st →
  ∃ r, anc_nlattr skb st = Some r ∧ ld_ok st r.
Proof.
  intros Hwf Hlen Hregs. rw /anc_nlattr.
  destruct (nlattr_guard skb (st_A st)) eqn:Hg; cbn [negb]; [|eauto with width].
  pose proof Hregs as (HA & HX & _). destruct (nlattr_guard_in skb (st_A st)) as [Hin Hhd]; try done.
  destruct (skb_wf_inv skb Hwf) as (Hb & Hd & _ & Hmax & _). destruct HA as [HA _].
  rw /sizeof_nlattr in Hin. change (2 ^ 31) with 2147483648 in Hmax.
  rw wrap_small; [|split; [lia|change (2 ^ 32) with 4294967296; lia]].
  rw (swrap_small 32 (skb_len skb - st_A st)); [|lia|change (2 ^ (32 - 1)) with 2147483648; lia].
  destruct (nla_find_in (skb_head skb) (skb_data skb + st_A st) (skb_len skb - st_A st)
    (swrap 32 (st_X st))) as (r & -> & _); [done|lia|lia|].
  cbn [mbind option_bind]. eexists. split; [done|]. apply set_A_ok; [done|].
  destruct r; auto with width.
Qed.

Lemma skb_pkt_safe env skb op K :
  skb_typed skb → in_width 32 K → is_packet op = true → op ≠ BPF_S_ANC_SECCOMP_LD_W →
  op ≠ BPF_S_ANC_NLATTR_NEST → (op = BPF_S_ANC_NLATTR → sizeof_nlattr ≤ skb_len skb) →
  pkt_safe env (Some skb) op K.
Proof.
  intros (Hwf & Hpr & Hpt & Hmk & Hq & Hrx & Hdev) HK Hp Hns Hnn Hna st Hregs.
  pose proof Hregs as (HA & HX & _ & _).
  assert (in_width 32 (skb_len skb)) as Hlen.
  { destruct (wf_lens skb Hwf) as (_ & _ & _ & ? & ?). split; [done|].
    change (2 ^ 32) with 4294967296. change (2 ^ 31) with 2147483648 in *. lia. }
  assert (∀ off size, 0 ≤ size ≤ 4 → ∃ r,
    (v ← load_be (Some skb) off size;
     match v with Some a => Some (Next (set_A a st)) | None => Some (Stop 0) end) = Some r ∧ ld_ok st r)
    as Hload.
  { intros off size Hs. destruct (load_be_ok skb off size Hwf Hs) as (r & -> & Hr).
    cbn [mbind option_bind]. destruct r as [a|]; [|eauto with width]. eexists. split; [done|].
    apply set_A_ok; [done|]. eapply in_width_mono; [|by apply Hr]. lia. }
  destruct op; try discriminate Hp; try done; cbn [exec_ld exec_anc mbind option_bind];
    try (apply Hload; lia); try (by eapply anc_nlattr_ok; auto);
    try (destruct (dev skb) as [d|] eqn:Hd; [|by eauto with width]);
    try (eexists; split; [done|]; apply set_A_ok || apply set_X_ok; [done|];
         first [solve [auto with width]
               |eapply in_width_mono; [|eassumption || by apply Hdev]; lia]).
  - destruct (load_be_ok skb (swrap 32 K) 1 Hwf) as (r & -> & Hr); [lia|]. cbn [mbind option_bind].
    destruct r as [b|]; [|eauto with width]. eexists. split; [done|]. apply set_X_ok; [done|].
    change 0xf with (Z.ones 4). rw Z.land_ones // Z.shiftl_mul_pow2 //.
    pose proof (Z.mod_pos_bound b (2 ^ 4)). split; [lia|]. change (2 ^ 32) with 4294967296. lia.
  - eexists. split; [done|]. apply set_A_ok; [done|]. destruct Hpr as [? Hpr].
    change (2 ^ 16) with 65536 in Hpr. change 255 with (Z.ones 8).
    rw Z.land_ones // Z.shiftr_div_pow2 //. change (2 ^ 8) with 256. rw /in_width.
    change (2 ^ 32) with 4294967296. zdm.
Qed.

(** ** Reciprocal division *)

(** With [r] the rounded-up reciprocal of [b], [a * r] overshoots [a / b] by less than one. *)
Lemma reciprocal_divide_spec a b :
  2 ≤ b < 2 ^ 32 → in_width 32 a →
  reciprocal_divide a (reciprocal_value b) = a * ((2 ^ 32 + (b - 1)) / b) / 2 ^ 32.
Proof.
  intros Hb [Ha0 Ha]. rw /reciprocal_divide /reciprocal_value.
  change (Z.shiftl 1 32) with (2 ^ 32). change (2 ^ 32) with 4294967296 in *.
  set (r := (4294967296 + (b - 1)) / b).
  assert (0 ≤ r < 4294967296) as Hr.
  { split; [by apply Z.div_pos; lia|]. apply Z.div_lt_upper_bound; [lia|nia]. }
  rw (wrap_small 32 (b - 1)); [|split; change (2 ^ 32) with 4294967296; lia].
  rw (wrap_small 64 (_ + _)); [|split; change (2 ^ 64) with 18446744073709551616; lia].
  fold r. rw (wrap_small 32 r); [|done].
  rw (wrap_small 64); [|split; [nia|change (2 ^ 64) with (4294967296 * 4294967296); nia]].
  rw Z.shiftr_div_pow2 //. change (2 ^ 32) with 4294967296. rw wrap_small //.
  split; [by apply Z.div_pos; nia|]. change (2 ^ 32) with 4294967296.
  apply Z.div_lt_upper_bound; nia.
Qed.

(** Dividing by the constant of a filter through its stored reciprocal never yields less
    than the quotient and at most one more; it is exact when [a * (b - 1) < 2^32]. *)
Lemma reciprocal_divide_close a b :
  2 ≤ b < 2 ^ 32 → in_width 32 a →
  a / b ≤ reciprocal_divide a (reciprocal_value b) ≤ a / b + 1 ∧
  (a * (b - 1) < 2 ^ 32 → reciprocal_divide a (reciprocal_value b) = a / b).
Proof.
  intros Hb Ha. rw reciprocal_divide_spec //. destruct Ha as [Ha0 Ha].
  change (2 ^ 32) with 4294967296 in *. set (r := (4294967296 + (b - 1)) / b).
  assert (4294967296 ≤ r * b < 4294967296 + b) as Hr.
  { rw /r. pose proof (Z.div_mod (4294967296 + (b - 1)) b ltac:(lia)).
    pose proof (Z.mod_pos_bound (4294967296 + (b - 1)) b ltac:(lia)). lia. }
  pose proof (Z.div_mod a b ltac:(lia)) as Hq. pose proof (Z.mod_pos_bound a b ltac:(lia)) as Hm.
  set (q := a / b) in *. set (t := a mod b) in *.
  assert (q * 4294967296 ≤ a * r) by nia.
  assert (a * r * b < (a + b) * 4294967296) by nia.
  split; [split|].
  - apply Z.div_le_lower_bound; lia.
  - apply Z.lt_succ_r, Z.div_lt_upper_bound; [lia|]. nia.
  - intros Hsmall. symmetry. apply (Z.div_unique _ _ _ (a * r - 4294967296 * q)); [|lia]. left. split; [lia|].
    assert (a * r * b < (a + 1) * 4294967296) by nia. nia.
Qed.

(** Dividing by the constant 1 yields 0: the reciprocal of 1 does not fit 32 bits. *)
Lemma reciprocal_divide_by_one a : reciprocal_divide a (reciprocal_value 1) = 0.
Proof.
  change (reciprocal_value 1) with 0. rw /reciprocal_divide Z.mul_0_r. done.
Qed.

(** Dividing by the constant of a filter through its stored reciprocal: the result is the quotient or one more for
    every divisor from 2 on, exact when [a * (b - 1) < 2^32]; but not always exact, and dividing by the
    constant 1 always yields 0, because the reciprocal of 1 does not fit 32 bits. *)
Theorem reciprocal_divide_error a b :
  2 ≤ b < 2 ^ 32 → in_width 32 a →
  (a / b ≤ reciprocal_divide a (reciprocal_value b) ≤ a / b + 1) ∧
  (a * (b - 1) < 2 ^ 32 → reciprocal_divide a (reciprocal_value b) = a / b) ∧
  reciprocal_divide a (reciprocal_value 1) = 0 ∧
  reciprocal_divide (2 ^ 32 - 2) (reciprocal_value (2 ^ 32 - 1)) = (2 ^ 32 - 2) / (2 ^ 32 - 1) + 1.
Proof.
  intros Hb Ha. destruct (reciprocal_divide_close a b Hb Ha) as [H1 H2].
  split_and!; [apply H1|apply H1|exact H2|apply reciprocal_divide_by_one|done].
Qed.

Lemma reciprocal_divide_error_witness : reciprocal_divide 1000 (reciprocal_value 10) = 100.
Proof.
  destruct (reciprocal_divide_error 1000 10 ltac:(lia) ltac:(split; vm_compute; congruence)) as (_ & H & _).
  exact (H ltac:(lia)).
Defined.

(** ** Accepted filters on packets *)

Lemma accepted_closed f : accepted f → closed f.
Proof. intros (_ & Hc & (ins & op & Hr & Hop & Hret) & _). by eapply closed_ret. Qed.

Lemma checked_packets_safe env skb f :
  accepted f → skb_typed skb → nlattr_safe skb f → all_pkt_safe env (Some skb) f.
Proof.
  intros (_ & Hc & _) Hskb Hna ins op Hin Hop Hp.
  apply list_elem_of_lookup in Hin as Hlk. destruct Hlk as [i Hi].
  destruct (Hc (Z.of_nat i) ins) as (op' & Hop' & (_ & _ & _ & HK) & Hns & _).
  { apply rd_Some. split; [lia|]. by rw Nat2Z.id. }
  assert (op' = op) as -> by congruence. destruct (Hna ins Hin) as [Hnn Hn].
  apply skb_pkt_safe; try done; [congruence|]. intros ->. by apply Hn.
Qed.


(** An accepted program runs on every packet. *)
Lemma accepted_runs env skb f :
  accepted f → env_ok env → skb_typed skb → nlattr_safe skb f →
  ∃ r, sk_run_filter env (Some skb) f = Some r ∧ in_width 32 r.
Proof.
  intros Hacc Henv Hskb Hna. pose proof (accepted_closed f Hacc) as Hcl.
  pose proof (checked_packets_safe env skb f Hacc Hskb Hna) as Hp.
  destruct Hacc as ([Hlen _] & Hc & _ & M & HM).
  apply (sk_run_filter_ok env (Some skb) f M); try done. intros pc ins Hr. by apply insn_checked_ok, Hc.
Qed.

(** C1: A filter that [sk_chk_filter] accepts runs to completion on every well-formed packet
    and returns a 32-bit value: it never leaves the filter, never reads a scratch cell
    that was not written and never reads outside the packet, provided ([nlattr_safe]) it contains no
    nested netlink attribute search and, where it contains a plain one, the packet is at least
    as long as an attribute header. *)
Theorem checked_filter_safe alloc f f' env skb :
  Forall sf_typed f → sk_chk_filter alloc f (Z.of_nat (length f)) = Some (0, f') →
  env_ok env → skb_typed skb → nlattr_safe skb f' →
  ∃ r, sk_run_filter env (Some skb) f' = Some r ∧ in_width 32 r.
Proof.
  intros Ht E Henv Hskb Hna.
  destruct (sk_chk_filter_total alloc f Ht) as (r & f2 & E2 & Hr).
  rw E in E2. injection E2 as <- <-. destruct Hr as [Hr|[Hr|(_ & _ & Hacc)]]; [done|done|].
  by apply accepted_runs.
Qed.

(** An accepting example: IPv4 packets are cut to 96 bytes, others dropped, with a detour
    through a scratch cell. *)
Definition ipv4_filter : list sock_filter :=
  [ {| sf_code := 0x28; sf_jt := 0; sf_jf := 0; sf_k := 12 |};
    {| sf_code := 0x15; sf_jt := 0; sf_jf := 3; sf_k := 0x800 |};
    {| sf_code := 0x02; sf_jt := 0; sf_jf := 0; sf_k := 5 |};
    {| sf_code := 0x61; sf_jt := 0; sf_jf := 0; sf_k := 5 |};
    {| sf_code := 0x06; sf_jt := 0; sf_jf := 0; sf_k := 96 |};
    {| sf_code := 0x06; sf_jt := 0; sf_jf := 0; sf_k := 0 |} ].

(** A packet in two parts: 13 linear bytes, the rest in a page. *)
Definition split_packet (page : list Z) : sk_buff :=
  {| skb_head := replicate 2 0 ++ replicate 12 1 ++ [8]; skb_data := 2; skb_len := 13 + Z.of_nat (length page);
     data_len := Z.of_nat (length page);
     frags := [ {| frag_page := page; page_offset := 0; frag_size := Z.of_nat (length page) |} ];
     frag_list := []; network_header := 2; mac_header := 2; protocol := 8; pkt_type := 0;
     dev := None; mark := 0; queue_mapping := 0; rxhash := 0 |}.

Definition x86_env : bpf_env :=
  {| env_shl := λ a n, bshl 32 a (n mod 32); env_shr := λ a n, wrap 32 (Z.shiftr a (n mod 32));
     env_cpu := 0; env_seccomp_bpf_load := λ _, None |}.

Lemma x86_env_ok : env_ok x86_env.
Proof. split; intros a n; [by apply in_width_bshl|by apply in_width_wrap]. Qed.

Ltac typed_concrete :=
  repeat (constructor; [repeat split; vm_compute; congruence|]); constructor.


Lemma split_packet_typed : skb_typed (split_packet [0; 69; 0; 0; 20]).
Proof.
  split; [|repeat split; try (vm_compute; congruence); intros; discriminate].
  constructor; try (vm_compute; congruence); try (split; vm_compute; congruence);
    [typed_concrete| |constructor].
  constructor; [|constructor]. split_and!; [vm_compute; congruence..|]. typed_concrete.
Qed.

Lemma checked_filter_safe_witness :
  ∃ f' r, sk_chk_filter true ipv4_filter 6 = Some (0, f') ∧
    sk_run_filter x86_env (Some (split_packet [0; 69; 0; 0; 20])) f' = Some r ∧ in_width 32 r.
Proof.
  destruct (sk_chk_filter true ipv4_filter 6) as [[r f']|] eqn:E; [|vm_compute in E; discriminate].
  assert (r = 0) as -> by (vm_compute in E; congruence).
  assert (Hn : nlattr_safe (split_packet [0; 69; 0; 0; 20]) f').
  { vm_compute in E. injection E as <-. intros ins Hin.
    repeat (apply elem_of_cons in Hin as [->|Hin]; [split; vm_compute; congruence|]).
    by apply elem_of_nil in Hin. }
  destruct (checked_filter_safe true ipv4_filter f' x86_env (split_packet [0; 69; 0; 0; 20])
    ltac:(typed_concrete) E x86_env_ok split_packet_typed Hn) as (v & Hv & Hw).
  exists f', v. split; [exact eq_refl|]. split; [exact Hv|exact Hw].
Defined.

(** The filter accepts this packet with 96. *)
Example ipv4_filter_run :
  (r ← sk_chk_filter true ipv4_filter 6;
   sk_run_filter x86_env (Some (split_packet [0; 69; 0; 0; 20])) r.2) = Some 96.
Proof. vm_compute. reflexivity. Qed.

(** C10: An absolute load yields the big-endian value of the packet's bytes at the offset,
    wherever the buffer stores them (linear head, page fragments, fragment list), and ends the
    filter with 0 when the packet is too short; nothing else changes. *)
Theorem absolute_load_reads_packet env skb op size K st :
  skb_wf skb → 0 ≤ K < 2 ^ 31 →
  (op, size) ∈ [(BPF_S_LD_W_ABS, 4); (BPF_S_LD_H_ABS, 2); (BPF_S_LD_B_ABS, 1)] →
  exec_ld env (Some skb) op K st =
  Some (if K + size <=? skb_len skb
        then Next (set_A (be_value (take (Z.to_nat size) (drop (Z.to_nat K) (skb_bytes skb)))) st)
        else Stop 0).
Proof.
  intros Hwf HK Hop.
  assert (swrap 32 K = K) as Hs by (apply swrap_small; [lia|change (2 ^ (32 - 1)) with (2 ^ 31); lia]).
  repeat (apply elem_of_cons in Hop as [[= -> ->]|Hop];
    [cbn [exec_ld]; rw Hs load_be_packet //; [|lia]; cbn [mbind option_bind]; by case_if|]).
  by apply elem_of_nil in Hop.
Qed.

Lemma absolute_load_reads_packet_witness :
  exec_ld x86_env (Some (split_packet [0; 69; 0; 0; 20])) BPF_S_LD_H_ABS 12 bpf_init =
  Some (Next (set_A 0x800 bpf_init)).
Proof.
  exact (absolute_load_reads_packet x86_env (split_packet [0; 69; 0; 0; 20]) BPF_S_LD_H_ABS 2 12
    bpf_init (proj1 split_packet_typed) ltac:(lia) ltac:(set_solver)).
Defined.

(** ** Where the attribute searches read outside the packet *)

(** A linear packet with the given bytes. *)
Definition linear_packet (bytes : list Z) : sk_buff :=
  {| skb_head := bytes; skb_data := 0; skb_len := Z.of_nat (length bytes); data_len := 0;
     frags := []; frag_list := []; network_header := 0; mac_header := 0; protocol := 8;
     pkt_type := 0; dev := None; mark := 0; queue_mapping := 0; rxhash := 0 |}.

Lemma linear_packet_typed bytes :
  byte_list bytes → Z.of_nat (length bytes) < 2 ^ 31 → skb_typed (linear_packet bytes).
Proof.
  intros Hb Hl. split; [|repeat split; try (vm_compute; congruence); intros; discriminate].
  constructor; cbn; try done; [lia| |].
  - by rw app_nil_r /linear_bytes drop_0.
  - rw /linear_bytes drop_0 /=. lia.
Qed.

(** Load [A], set [X] to 1, search at the ancillary offset [off], return the result. *)
Definition nlattr_filter (off A : Z) : list sock_filter :=
  [ {| sf_code := 0x00; sf_jt := 0; sf_jf := 0; sf_k := A |};
    {| sf_code := 0x01; sf_jt := 0; sf_jf := 0; sf_k := 1 |};
    {| sf_code := 0x20; sf_jt := 0; sf_jf := 0; sf_k := wrap 32 (SKF_AD_OFF + off) |};
    {| sf_code := 0x16; sf_jt := 0; sf_jf := 0; sf_k := 0 |} ].

(** The length check of the nested attribute search compares with [A - skb->len], which
    wraps around: an accepted filter reads behind the end of a well-formed packet whose
    attribute claims to be longer than the packet. *)
Lemma nlattr_nest_overread :
  ∃ f f' skb, Forall sf_typed f ∧ sk_chk_filter true f 4 = Some (0, f') ∧
    skb_typed skb ∧ sizeof_nlattr ≤ skb_len skb ∧ ∀ env, sk_run_filter env (Some skb) f' = None.
Proof.
  exists (nlattr_filter SKF_AD_NLATTR_NEST 0). eexists.
  exists (linear_packet [255; 0; 0; 0; 8; 0; 2; 0; 0; 0; 0; 0]).
  split; [typed_concrete|]. split; [vm_compute; reflexivity|].
  split; [apply linear_packet_typed; [typed_concrete|done]|].
  split; [done|]. intros env. vm_compute. reflexivity.
Qed.

(** On a packet shorter than an attribute header the bound [skb->len - sizeof(struct nlattr)]
    wraps around, and an accepted filter with a plain attribute search reads outside it. *)
Lemma nlattr_short_overread :
  ∃ f f' skb, Forall sf_typed f ∧ sk_chk_filter true f 4 = Some (0, f') ∧
    skb_typed skb ∧ skb_len skb < sizeof_nlattr ∧ ∀ env, sk_run_filter env (Some skb) f' = None.
Proof.
  exists (nlattr_filter SKF_AD_NLATTR 0xfffffff0). eexists. exists (linear_packet [1; 2]).
  split; [typed_concrete|]. split; [vm_compute; reflexivity|].
  split; [apply linear_packet_typed; [typed_concrete|done]|].
  split; [done|]. intros env. vm_compute. reflexivity.
Qed.

(** C40: Two checks of the netlink attribute searches are wrong: the nested search compares the length of the attribute
    with [A - skb->len], which wraps around, and for packets shorter than an attribute header the bound
    [skb->len - sizeof(struct nlattr)] wraps around.  In both cases an accepted filter reads outside a
    well-formed packet, whatever the machine. *)
Theorem nlattr_overread :
  (∃ f f' skb, Forall sf_typed f ∧ sk_chk_filter true f 4 = Some (0, f') ∧
     skb_typed skb ∧ sizeof_nlattr ≤ skb_len skb ∧ ∀ env, sk_run_filter env (Some skb) f' = None) ∧
  (∃ f f' skb, Forall sf_typed f ∧ sk_chk_filter true f 4 = Some (0, f') ∧
     skb_typed skb ∧ skb_len skb < sizeof_nlattr ∧ ∀ env, sk_run_filter env (Some skb) f' = None).
Proof. split; [apply nlattr_nest_overread|apply nlattr_short_overread]. Qed.
