(* ===== verification/SockFilter.v ===== *)
(** * Filters of sockets: attaching, sharing, running and freeing them

    The part of net/core/filter.c behind the interpreter, with the accounting of option memory of
    net/core/sock.c and the inline functions of include/net/sock.h.  Filters are shared between cloned
    sockets by a reference count and freed through RCU, while readers run them without a lock.  A
    dereference of a freed filter is a fault ([None]). *)
From S2P Require Import Prelude Refs Skbuff Bpf BpfSafe BpfPacket.

(** ** State *)

(** [struct sk_filter]; [bpf_func] is always [sk_run_filter] (there is no compiler for filters). *)
Record sk_filter_obj := { refcnt : Z; f_len : Z; f_insns : list sock_filter }.

(** What the filter code uses of [struct sock].  [sk_other] is the part of [sk_omem_alloc] that other options
    of the socket have allocated. *)
Record sock := { sk_filter_ptr : option Z; sk_omem_alloc : Z; sk_other : Z }.

(** The filters by address, the sockets, the filters without a socket by the pointer that holds them; the
    replaced filter that the owner of a socket lock is about to release, by socket; the readers inside
    an RCU read-side critical section with the filter they have loaded; and the filters handed to
    [call_rcu], each with the readers its callback has to wait for. *)
Record net := {
  filters : gmap Z sk_filter_obj;
  socks : gmap Z sock;
  handles : gmap Z Z;
  writers : gmap Z Z;
  readers : gmap Z (option Z);
  callbacks : gmap Z (gset Z)
}.

Definition set_filters (x : gmap Z sk_filter_obj) (st : net) : net :=
  {| filters := x; socks := socks st; handles := handles st; writers := writers st;
     readers := readers st; callbacks := callbacks st |}.
Definition set_socks (x : gmap Z sock) (st : net) : net :=
  {| filters := filters st; socks := x; handles := handles st; writers := writers st;
     readers := readers st; callbacks := callbacks st |}.
Definition set_handles (x : gmap Z Z) (st : net) : net :=
  {| filters := filters st; socks := socks st; handles := x; writers := writers st;
     readers := readers st; callbacks := callbacks st |}.
Definition set_writers (x : gmap Z Z) (st : net) : net :=
  {| filters := filters st; socks := socks st; handles := handles st; writers := x;
     readers := readers st; callbacks := callbacks st |}.
Definition set_readers (x : gmap Z (option Z)) (st : net) : net :=
  {| filters := filters st; socks := socks st; handles := handles st; writers := writers st;
     readers := x; callbacks := callbacks st |}.
Definition set_callbacks (x : gmap Z (gset Z)) (st : net) : net :=
  {| filters := filters st; socks := socks st; handles := handles st; writers := writers st;
     readers := readers st; callbacks := x |}.

Definition set_refcnt (n : Z) (f : sk_filter_obj) : sk_filter_obj :=
  {| refcnt := n; f_len := f_len f; f_insns := f_insns f |}.
Definition set_omem (n : Z) (s : sock) : sock :=
  {| sk_filter_ptr := sk_filter_ptr s; sk_omem_alloc := n; sk_other := sk_other s |}.
Definition set_ptr (p : option Z) (s : sock) : sock :=
  {| sk_filter_ptr := p; sk_omem_alloc := sk_omem_alloc s; sk_other := sk_other s |}.
Definition set_other (n : Z) (s : sock) : sock :=
  {| sk_filter_ptr := sk_filter_ptr s; sk_omem_alloc := sk_omem_alloc s; sk_other := n |}.

(** [sizeof(struct sk_filter)]: a count, a length, a function pointer and an [rcu_head]. *)
Definition sizeof_sk_filter : Z := 32.

Definition sk_filter_len (f : sk_filter_obj) : Z :=
  wrap 32 (f_len f * sizeof_sock_filter + sizeof_sk_filter).

(** ** Option memory *)

(** [mem] says whether [kmalloc] succeeds.  The result is whether memory was allocated, and the socket;
    the addition is one of 32-bit integers. *)
Definition sock_kmalloc (sysctl_optmem_max : Z) (mem : bool) (size : Z) (s : sock) : bool * sock :=
  if (wrap 32 size <=? wrap 32 sysctl_optmem_max) &&
     (swrap 32 (sk_omem_alloc s + size) <? sysctl_optmem_max) then
    let s := set_omem (swrap 32 (sk_omem_alloc s + size)) s in
    if mem then (true, s) else (false, set_omem (swrap 32 (sk_omem_alloc s - size)) s)
  else (false, s).

Definition sock_kfree_s (size : Z) (s : sock) : sock := set_omem (swrap 32 (sk_omem_alloc s - size)) s.

(** ** Reference counts

    The count is an [atomic_t]: an [int] that wraps around without a check. *)

(** [call_rcu]: the callback waits for the readers that are inside a critical section now. *)
Definition call_rcu (fp : Z) (st : net) : net :=
  set_callbacks (<[fp := dom (readers st)]> (callbacks st)) st.

Definition sk_filter_release (fp : Z) (st : net) : option net :=
  f ← filters st !! fp;
  let n := swrap 32 (refcnt f - 1) in
  let st := set_filters (<[fp := set_refcnt n f]> (filters st)) st in
  Some (if n =? 0 then call_rcu fp st else st).

Definition sk_filter_uncharge (sk fp : Z) (st : net) : option net :=
  f ← filters st !! fp;
  s ← socks st !! sk;
  sk_filter_release fp
    (set_socks (<[sk := set_omem (swrap 32 (sk_omem_alloc s - sk_filter_len f)) s]> (socks st)) st).

Definition sk_filter_charge (sk fp : Z) (st : net) : option net :=
  f ← filters st !! fp;
  s ← socks st !! sk;
  Some (set_socks (<[sk := set_omem (swrap 32 (sk_omem_alloc s + sk_filter_len f)) s]> (socks st))
    (set_filters (<[fp := set_refcnt (swrap 32 (refcnt f + 1)) f]> (filters st)) st)).

(** The RCU callback. *)
Definition sk_filter_release_rcu (fp : Z) (st : net) : net :=
  set_callbacks (delete fp (callbacks st)) (set_filters (delete fp (filters st)) st).

(** ** Creating and attaching filters *)

(** The error and the filter, whose program the check has translated. *)
Definition __sk_prepare_filter (alloc : bool) (f : sk_filter_obj) : option (Z * sk_filter_obj) :=
  '(err, insns) ← sk_chk_filter alloc (f_insns f) (f_len f);
  Some (err, {| refcnt := refcnt f; f_len := f_len f; f_insns := insns |}).

(** [null] is [fprog->filter == NULL]; [mem] is the address [kmalloc] returns; [pfp] is the pointer that
    receives the filter. *)
Definition sk_unattached_filter_create (mem : option Z) (alloc null : bool) (pfp : Z)
    (fprog : sock_fprog) (st : net) : option (Z * net) :=
  if null then Some (- EINVAL, st) else
  match mem with
  | None => Some (- ENOMEM, st)
  | Some fp =>
      insns ← copy_insns (fprog_user fprog) (fprog_len fprog);
      '(err, f) ← __sk_prepare_filter alloc {| refcnt := 1; f_len := fprog_len fprog; f_insns := insns |};
      if negb (err =? 0) then Some (err, st) else
      Some (0, set_handles (<[pfp := fp]> (handles st)) (set_filters (<[fp := f]> (filters st)) st))
  end.

Definition sk_unattached_filter_destroy (fp : Z) (st : net) : option net := sk_filter_release fp st.

(** [sk_attach_filter] up to the replacement of the pointer; the last component is [old_fp]. *)
Definition attach_publish (optmem_max : Z) (mem : option Z) (alloc null : bool) (fprog : sock_fprog)
    (sk : Z) (st : net) : option (Z * net * option Z) :=
  let fsize := wrap 32 (sizeof_sock_filter * fprog_len fprog) in
  if null then Some (- EINVAL, st, None) else
  s ← socks st !! sk;
  let '(ok, s) := sock_kmalloc optmem_max (bool_decide (mem ≠ None)) (fsize + sizeof_sk_filter) s in
  let st := set_socks (<[sk := s]> (socks st)) st in
  match mem with
  | Some fp =>
      if negb ok then Some (- ENOMEM, st, None) else
      match copy_insns (fprog_user fprog) (fprog_len fprog) with
      | None =>
          Some (- EFAULT, set_socks (<[sk := sock_kfree_s (fsize + sizeof_sk_filter) s]> (socks st)) st, None)
      | Some insns =>
          '(err, f) ← __sk_prepare_filter alloc {| refcnt := 1; f_len := fprog_len fprog; f_insns := insns |};
          let st := set_filters (<[fp := f]> (filters st)) st in
          if negb (err =? 0) then
            st ← sk_filter_uncharge sk fp st; Some (err, st, None)
          else
            Some (0, set_socks (<[sk := set_ptr (Some fp) s]> (socks st)) st, sk_filter_ptr s)
      end
  | None => Some (- ENOMEM, st, None)
  end.

(** [if (old_fp) sk_filter_uncharge(sk, old_fp);]. *)
Definition uncharge_old (sk : Z) (old_fp : option Z) (st : net) : option net :=
  match old_fp with
  | Some fp => sk_filter_uncharge sk fp st
  | None => Some st
  end.

Definition sk_attach_filter (optmem_max : Z) (mem : option Z) (alloc null : bool) (fprog : sock_fprog)
    (sk : Z) (st : net) : option (Z * net) :=
  '(ret, st, old_fp) ← attach_publish optmem_max mem alloc null fprog sk st;
  st ← uncharge_old sk old_fp st;
  Some (ret, st).

(** [sk_detach_filter] up to [RCU_INIT_POINTER], and the whole. *)
Definition detach_publish (sk : Z) (st : net) : option (Z * net * option Z) :=
  s ← socks st !! sk;
  match sk_filter_ptr s with
  | Some filter => Some (0, set_socks (<[sk := set_ptr None s]> (socks st)) st, Some filter)
  | None => Some (- ENOENT, st, None)
  end.

Definition sk_detach_filter (sk : Z) (st : net) : option (Z * net) :=
  '(ret, st, filter) ← detach_publish sk st;
  st ← uncharge_old sk filter st;
  Some (ret, st).

(** ** Sockets come and go *)

(** The filter part of [sk_clone_lock]: a raw copy of the socket with fresh accounting, which takes a reference. *)
Definition sk_clone_filter (sk newsk : Z) (st : net) : option net :=
  s ← socks st !! sk;
  let st := set_socks (<[newsk := set_other 0 (set_omem 0 s)]> (socks st)) st in
  match sk_filter_ptr s with
  | Some filter => sk_filter_charge newsk filter st
  | None => Some st
  end.

(** The filter part of [__sk_free]; the socket is gone. *)
Definition sk_free_filter (sk : Z) (st : net) : option net :=
  s ← socks st !! sk;
  st ← match sk_filter_ptr s with
       | Some filter => sk_filter_uncharge sk filter st
       | None => Some st
       end;
  Some (set_socks (delete sk (socks st)) st).

(** ** Running the filter of a socket *)

(** [rcu_read_lock(); filter = rcu_dereference(sk->sk_filter);]. *)
Definition reader_enter (rid sk : Z) (st : net) : option net :=
  s ← socks st !! sk;
  Some (set_readers (<[rid := sk_filter_ptr s]> (readers st)) st).

(** [rcu_read_unlock()]: the callbacks no longer wait for the reader. *)
Definition reader_leave (rid : Z) (st : net) : net :=
  set_callbacks ((λ w, w ∖ {[rid]}) <$> callbacks st)
    (set_readers (delete rid (readers st)) st).

(** What [sk_filter] does with the pointer it has loaded: [pskb_trim] cuts the packet and returns 0 or an error. *)
Definition run_loaded (env : bpf_env) (pskb_trim : Z → Z) (filter : option Z) (skb : sk_buff) (st : net)
  : option Z :=
  match filter with
  | Some fp =>
      f ← filters st !! fp;
      pkt_len ← sk_run_filter env (Some skb) (f_insns f);
      Some (if negb (pkt_len =? 0) then pskb_trim pkt_len else - EPERM)
  | None => Some 0
  end.

(** The whole function, undisturbed; [security] is the result of [security_sock_rcv_skb]. *)
Definition sk_filter (env : bpf_env) (security : Z) (pskb_trim : Z → Z) (sk : Z) (skb : sk_buff) (st : net)
  : option Z :=
  if negb (security =? 0) then Some security else
  s ← socks st !! sk;
  run_loaded env pskb_trim (sk_filter_ptr s) skb st.
