(* ===== verification/SockFilterSafe.v ===== *)
(** * Socket filters are never used after they are freed

    Owners of sockets, readers and RCU callbacks run interleaved: a step of the system is one atomic part of one of
    the operations of [SockFilter].  The invariant ties every reference count to the pointers that exist
    and the option memory of every socket to the filters it pays for. *)
From S2P Require Import Prelude Refs Skbuff Bpf BpfSafe BpfPacket SockFilter.

(** ** Steps *)

(** The fields of a [struct sock_fprog] fit their types. *)
Definition fprog_ok (fprog : sock_fprog) : Prop :=
  in_width 16 (fprog_len fprog) ∧ Forall sf_typed (fprog_user fprog).

(** The owner of the lock remembers the filter it has replaced. *)
Definition owes (sk : Z) (old_fp : option Z) (st : net) : net :=
  match old_fp with
  | Some fp => set_writers (<[sk := fp]> (writers st)) st
  | None => st
  end.

(** The number of pointers to a filter that hold a reference. *)
Definition refs (st : net) (fp : Z) : Z :=
  nrefs sk_filter_ptr (socks st) fp + nrefs Some (handles st) fp + nrefs Some (writers st) fp.

(** Only cloning a socket adds a reference to an existing filter.  Nothing in the code stops the
    32-bit count from overflowing; the steps are those of a machine on which fewer than
    2^31 pointers lead to one filter, which the memory for that many sockets enforces. *)
Inductive net_step (optmem_max : Z) : net → net → Prop :=
| St_socket sk st :
    socks st !! sk = None →
    net_step optmem_max st
      (set_socks (<[sk := {| sk_filter_ptr := None; sk_omem_alloc := 0; sk_other := 0 |}]> (socks st)) st)
| St_attach mem alloc null fprog sk st ret old st' :
    writers st !! sk = None → fprog_ok fprog → (∀ fp, mem = Some fp → filters st !! fp = None) →
    attach_publish optmem_max mem alloc null fprog sk st = Some (ret, st', old) →
    net_step optmem_max st (owes sk old st')
| St_detach sk st ret old st' :
    writers st !! sk = None → detach_publish sk st = Some (ret, st', old) →
    net_step optmem_max st (owes sk old st')
| St_uncharge sk fp st st' :
    writers st !! sk = Some fp →
    sk_filter_uncharge sk fp (set_writers (delete sk (writers st)) st) = Some st' →
    net_step optmem_max st st'
| St_create mem alloc null pfp fprog st ret st' :
    handles st !! pfp = None → fprog_ok fprog → (∀ fp, mem = Some fp → filters st !! fp = None) →
    sk_unattached_filter_create mem alloc null pfp fprog st = Some (ret, st') →
    net_step optmem_max st st'
| St_destroy pfp fp st st' :
    handles st !! pfp = Some fp →
    sk_unattached_filter_destroy fp (set_handles (delete pfp (handles st)) st) = Some st' →
    net_step optmem_max st st'
| St_clone sk newsk st st' :
    socks st !! newsk = None →
    (∀ s fp, socks st !! sk = Some s → sk_filter_ptr s = Some fp → refs st fp + 1 < 2 ^ 31) →
    sk_clone_filter sk newsk st = Some st' → net_step optmem_max st st'
| St_free sk st st' :
    writers st !! sk = None → sk_free_filter sk st = Some st' → net_step optmem_max st st'
| St_enter rid sk st st' :
    readers st !! rid = None → reader_enter rid sk st = Some st' → net_step optmem_max st st'
| St_leave rid st : net_step optmem_max st (reader_leave rid st)
| St_callback fp st :
    callbacks st !! fp = Some ∅ → net_step optmem_max st (sk_filter_release_rcu fp st)
| St_other_alloc mem size sk s s' st :
    socks st !! sk = Some s → 0 ≤ size < 2 ^ 31 → sock_kmalloc optmem_max mem size s = (true, s') →
    net_step optmem_max st (set_socks (<[sk := set_other (sk_other s + size) s']> (socks st)) st)
| St_other_free size sk s st :
    socks st !! sk = Some s → 0 ≤ size ≤ sk_other s →
    net_step optmem_max st
      (set_socks (<[sk := set_other (sk_other s - size) (sock_kfree_s size s)]> (socks st)) st).

Definition net_init : net :=
  {| filters := ∅; socks := ∅; handles := ∅; writers := ∅; readers := ∅; callbacks := ∅ |}.

Inductive net_reachable (optmem_max : Z) : net → Prop :=
| Reach_init : net_reachable optmem_max net_init
| Reach_step st st' :
    net_reachable optmem_max st → net_step optmem_max st st' → net_reachable optmem_max st'.

(** ** The invariant *)

(** A filter that may be run. *)
Definition live (st : net) (fp : Z) : Prop :=
  ∃ f, filters st !! fp = Some f ∧ accepted (f_insns f).

(** [pend] is a reference that no pointer of the state holds. *)
Record refs_ok (pend : option Z) (st : net) : Prop := {
  ok_count : ∀ fp f, filters st !! fp = Some f →
    refcnt f = refs st fp + hit pend fp ∧ (is_Some (callbacks st !! fp) ↔ refcnt f = 0);
  ok_socks : ∀ sk s fp, socks st !! sk = Some s → sk_filter_ptr s = Some fp → live st fp;
  ok_handles : ∀ k fp, handles st !! k = Some fp → live st fp;
  ok_writers : ∀ sk fp, writers st !! sk = Some fp → live st fp ∧ is_Some (socks st !! sk);
  ok_readers : ∀ rid fp, readers st !! rid = Some (Some fp) →
    live st fp ∧ ∀ w, callbacks st !! fp = Some w → rid ∈ w;
  ok_callbacks : ∀ fp, is_Some (callbacks st !! fp) → is_Some (filters st !! fp);
  ok_pend : ∀ fp, pend = Some fp → is_Some (filters st !! fp);
  ok_bound : ∀ fp f, filters st !! fp = Some f → refcnt f < 2 ^ 31
}.

(** What a socket pays for a filter. *)
Definition charge (fs : gmap Z sk_filter_obj) (p : option Z) : Z :=
  match p ≫= λ fp, fs !! fp with
  | Some f => sk_filter_len f
  | None => 0
  end.

Definition pays (optmem_max : Z) (fs : gmap Z sk_filter_obj) (old : option Z) (s : sock) : Prop :=
  sk_omem_alloc s = charge fs (sk_filter_ptr s) + charge fs old + sk_other s ∧
  0 ≤ sk_other s ∧ sk_omem_alloc s < optmem_max.

Definition omem_ok (optmem_max : Z) (st : net) : Prop :=
  ∀ sk s, socks st !! sk = Some s → pays optmem_max (filters st) (writers st !! sk) s.

(** ** Moving references *)

Lemma swrap32_small x : - 2 ^ 31 ≤ x < 2 ^ 31 → swrap 32 x = x.
Proof. intros. by apply swrap_small. Qed.

Lemma refs_nonneg st fp : 0 ≤ refs st fp.
Proof. rw /refs /nrefs. lia. Qed.

Lemma nrefs_pos {A} (p : A → option Z) (m : gmap Z A) k a id :
  m !! k = Some a → p a = Some id → 0 < nrefs p m id.
Proof.
  intros Hk Hp. destruct (Z.eq_dec (nrefs p m id) 0) as [Hz|]; [|rw /nrefs in n |- *; lia].
  by destruct (nrefs_none p m k a id Hz Hk).
Qed.

(** Pointers are rearranged; filters, readers and callbacks stay. *)
Lemma refs_ok_move pend pend' st st' :
  refs_ok pend st → filters st' = filters st → readers st' = readers st → callbacks st' = callbacks st →
  (∀ fp, is_Some (filters st !! fp) → refs st' fp + hit pend' fp = refs st fp + hit pend fp) →
  (∀ sk s fp, socks st' !! sk = Some s → sk_filter_ptr s = Some fp → live st fp) →
  (∀ k fp, handles st' !! k = Some fp → live st fp) →
  (∀ sk fp, writers st' !! sk = Some fp → live st fp ∧ is_Some (socks st' !! sk)) →
  (∀ fp, pend' = Some fp → is_Some (filters st !! fp)) →
  refs_ok pend' st'.
Proof.
  intros [Hc _ _ _ Hr Hcb _ Hb] Ef Er Ec Href Hs Hh Hw Hp.
  assert (∀ fp, live st fp ↔ live st' fp) as Hlive by (intros fp; by rw /live Ef).
  split; rw ?Ef ?Er ?Ec //.
  - intros fp f Hf. rw Href; [|eauto]. by apply Hc.
  - intros sk s fp H1 H2. apply Hlive. by eapply Hs.
  - intros k fp H. by eapply Hlive, Hh.
  - intros sk fp H. destruct (Hw sk fp H). split; [by apply Hlive|done].
  - intros rid fp H. destruct (Hr rid fp H). split; [by apply Hlive|done].
Qed.

(** A new filter. *)
Lemma refs_ok_new st fp f :
  refs_ok None st → filters st !! fp = None → refcnt f = 1 →
  refs_ok (Some fp) (set_filters (<[fp := f]> (filters st)) st).
Proof.
  intros [Hc Hs Hh Hw Hr Hcb _ Hb] Hfp Hf.
  assert (∀ fp', live st fp' → fp' ≠ fp) as Hne by (intros fp' (g & Hg & _) ->; congruence).
  assert (∀ fp', live st fp' → live (set_filters (<[fp := f]> (filters st)) st) fp') as Hlive.
  { intros fp' Hl. pose proof (Hne fp' Hl). destruct Hl as (g & Hg & Ha). exists g. split; [|done].
    cbn. by rw lookup_insert_ne. }
  split; cbn [filters socks handles writers readers callbacks set_filters].
  - intros fp' f' Hf'. destruct (decide (fp' = fp)) as [->|Hn].
    + rw lookup_insert_eq in Hf'. injection Hf' as <-. rw hit_eq Hf. split.
      * assert (refs st fp = 0) as Hz.
        { assert (∀ fp', live st fp' → Some fp' ≠ Some fp) as Hne' by (intros ? ?%Hne; congruence).
          rw /refs !nrefs_unused //.
          - intros k a Hk. by apply Hne', (Hw k a).
          - intros k a Hk. by apply Hne', (Hh k a).
          - intros k a Hk Hp. by eapply Hne; [eapply Hs|]. }
        change (refs _ fp) with (refs st fp). lia.
      * split; [|lia]. intros Hcbs. destruct (Hcb fp Hcbs). congruence.
    + rw lookup_insert_ne // in Hf'. rw hit_ne; [|congruence]. destruct (Hc fp' f' Hf') as [Hr1 Hr2].
      rw hit_ne // in Hr1.
  - eauto.
  - eauto.
  - intros sk fp' H. destruct (Hw sk fp' H). eauto.
  - intros rid fp' H. destruct (Hr rid fp' H). eauto.
  - intros fp' H. apply lookup_insert_is_Some'. right. by apply Hcb.
  - intros fp' [= <-]. rw lookup_insert_eq. eauto.
  - intros fp' f' [[_ <-]|[_ Hf']]%lookup_insert_Some; [by rw Hf|by eapply Hb].
Qed.

(** A count changes: filters keep their programs. *)
Lemma live_refcnt st fp f n fp' :
  filters st !! fp = Some f → live st fp' → live (set_filters (<[fp := set_refcnt n f]> (filters st)) st) fp'.
Proof.
  intros Hf (g & Hg & Ha). destruct (decide (fp' = fp)) as [->|].
  - exists (set_refcnt n f). cbn. rw lookup_insert_eq. split; [done|]. congruence.
  - exists g. cbn. by rw lookup_insert_ne.
Qed.

Lemma refs_ok_release st fp :
  refs_ok (Some fp) st →
  ∃ f st', filters st !! fp = Some f ∧ sk_filter_release fp st = Some st' ∧ refs_ok None st' ∧
    filters st' = <[fp := set_refcnt (refcnt f - 1) f]> (filters st) ∧
    socks st' = socks st ∧ writers st' = writers st.
Proof.
  intros Hok. destruct (Hok) as [Hc Hs Hh Hw Hr Hcb Hp Hb]. destruct (Hp fp eq_refl) as [f Hf].
  destruct (Hc fp f Hf) as [Hcount Hcbf]. rw hit_eq in Hcount. pose proof (refs_nonneg st fp) as Hnn.
  pose proof (Hb fp f Hf) as Hlt. change (2 ^ 31) with 2147483648 in *.
  assert (∀ fp' f', <[fp := set_refcnt (refcnt f - 1) f]> (filters st) !! fp' = Some f' →
    refcnt f' < 2147483648) as Hb1.
  { intros fp' f' [[_ <-]|[_ Hf']]%lookup_insert_Some; [cbn; lia|by eapply Hb]. }
  set (st1 := set_filters (<[fp := set_refcnt (refcnt f - 1) f]> (filters st)) st).
  assert (∀ fp', live st fp' → live st1 fp') as Hlive by (intros fp'; by apply live_refcnt).
  assert (callbacks st !! fp = None) as Hnocb.
  { destruct (callbacks st !! fp) eqn:E; [|done]. assert (refcnt f = 0) by (apply Hcbf; eauto). lia. }
  assert (∀ fp', is_Some (callbacks st !! fp') → is_Some (filters st1 !! fp')) as Hcb1.
  { intros fp' H. cbn. apply lookup_insert_is_Some'. right. by apply Hcb. }
  exists f, (if refcnt f - 1 =? 0 then call_rcu fp st1 else st1).
  split; [done|]. split.
  { rw /sk_filter_release Hf. cbn [mbind option_bind].
    rw swrap32_small //. change (2 ^ 31) with 2147483648. lia. }
  destruct (Z.eqb_spec (refcnt f - 1) 0) as [E0|E0]; (split; [|done]).
  - split; cbn [filters socks handles writers readers callbacks set_filters set_callbacks call_rcu st1].
    + intros fp' f' Hf'. change (refs (call_rcu fp st1) fp') with (refs st fp'). rw hit_ne //.
      destruct (decide (fp' = fp)) as [->|Hne].
      * rw lookup_insert_eq in Hf'. injection Hf' as <-. cbn. rw lookup_insert_eq. split; [lia|].
        split; [lia|eauto].
      * rw !lookup_insert_ne // in Hf' |- *. destruct (Hc fp' f' Hf') as [H1 H2]. rw hit_ne in H1; [done|congruence].
    + intros. by eapply Hlive, Hs.
    + intros. by eapply Hlive, Hh.
    + intros sk fp' H. destruct (Hw sk fp' H). split; [by apply Hlive|done].
    + intros rid fp' H. destruct (Hr rid fp' H) as [Hl Hwait]. split; [by apply Hlive|]. intros w.
      destruct (decide (fp' = fp)) as [->|].
      * rw lookup_insert_eq. intros [= <-]. apply elem_of_dom. eauto.
      * rw lookup_insert_ne //. apply Hwait.
    + intros fp' [<-|H]%lookup_insert_is_Some'; [|by apply Hcb1]. rw lookup_insert_eq. eauto.
    + done.
    + exact Hb1.
  - split; cbn [filters socks handles writers readers callbacks set_filters st1].
    + intros fp' f' Hf'. change (refs st1 fp') with (refs st fp'). rw hit_ne //.
      destruct (decide (fp' = fp)) as [->|Hne].
      * rw lookup_insert_eq in Hf'. injection Hf' as <-. cbn. split; [lia|]. rw Hnocb.
        split; [by intros []|lia].
      * rw lookup_insert_ne // in Hf'. destruct (Hc fp' f' Hf') as [H1 H2]. rw hit_ne in H1; [done|congruence].
    + intros. by eapply Hlive, Hs.
    + intros. by eapply Hlive, Hh.
    + intros sk fp' H. destruct (Hw sk fp' H). split; [by apply Hlive|done].
    + intros rid fp' H. destruct (Hr rid fp' H) as [Hl Hwait]. split; [by apply Hlive|done].
    + exact Hcb1.
    + done.
    + exact Hb1.
Qed.

(** The accounting of a socket does not matter for references. *)
Lemma refs_ok_account pend st sk s s' :
  refs_ok pend st → socks st !! sk = Some s → sk_filter_ptr s' = sk_filter_ptr s →
  refs_ok pend (set_socks (<[sk := s']> (socks st)) st).
Proof.
  intros Hok Hs Hp. destruct (Hok) as [_ Hso Hh Hw _ _ Hpe].
  apply (refs_ok_move pend pend st); try done.
  - intros fp _. rw /refs. cbn. rewrite -> (nrefs_replace _ _ sk s s' fp Hs). rw Hp. lia.
  - intros sk' t fp. cbn. destruct (decide (sk' = sk)) as [->|].
    + rw lookup_insert_eq. intros [= <-]. rw Hp. by apply Hso with (sk := sk).
    + rw lookup_insert_ne //. apply Hso.
  - intros sk' fp H. destruct (Hw sk' fp H). split; [done|]. cbn. apply lookup_insert_is_Some'. by right.
Qed.

Lemma uncharge_ok sk fp st s :
  refs_ok (Some fp) st → socks st !! sk = Some s →
  ∃ f st', filters st !! fp = Some f ∧ sk_filter_uncharge sk fp st = Some st' ∧ refs_ok None st' ∧
    filters st' = <[fp := set_refcnt (refcnt f - 1) f]> (filters st) ∧
    socks st' = <[sk := set_omem (swrap 32 (sk_omem_alloc s - charge (filters st) (Some fp))) s]> (socks st) ∧
    writers st' = writers st.
Proof.
  intros Hok Hs. destruct (ok_pend _ _ Hok fp eq_refl) as [f Hf].
  rw /sk_filter_uncharge Hf Hs /charge. cbn [mbind option_bind]. rw Hf.
  destruct (refs_ok_release
    (set_socks (<[sk := set_omem (swrap 32 (sk_omem_alloc s - sk_filter_len f)) s]> (socks st)) st) fp)
    as (f' & st' & Hf' & E & Hok' & E1 & E2 & E3).
  { by apply (refs_ok_account _ _ _ s). }
  cbn in Hf'. assert (f' = f) as -> by congruence. eauto 10.
Qed.

(** ** Option memory *)

Lemma charge_nonneg fs p : 0 ≤ charge fs p.
Proof.
  rw /charge. destruct (p ≫= _); [|done]. apply in_width_wrap. lia.
Qed.

Lemma charge_refcnt fs fp f n p :
  fs !! fp = Some f → charge (<[fp := set_refcnt n f]> fs) p = charge fs p.
Proof.
  intros Hf. destruct p as [fp'|]; [|done]. rw /charge. cbn. destruct (decide (fp' = fp)) as [->|].
  - by rw lookup_insert_eq Hf.
  - by rw lookup_insert_ne.
Qed.

Lemma charge_live_new st fp f p :
  filters st !! fp = None → (∀ fp', p = Some fp' → live st fp') →
  charge (<[fp := f]> (filters st)) p = charge (filters st) p.
Proof.
  intros Hf Hl. destruct p as [fp'|]; [|done]. destruct (Hl fp' eq_refl) as (g & Hg & _).
  rw /charge. cbn. rw lookup_insert_ne //. congruence.
Qed.

(** One socket changes; the others pay what they paid. *)
Lemma omem_ok_update M pend st st' sk :
  refs_ok pend st → omem_ok M st →
  (∀ fp, live st fp → charge (filters st') (Some fp) = charge (filters st) (Some fp)) →
  (∀ sk', sk' ≠ sk → (∀ s, socks st' !! sk' = Some s → socks st !! sk' = Some s) ∧
     writers st' !! sk' = writers st !! sk') →
  (∀ s, socks st' !! sk = Some s → pays M (filters st') (writers st' !! sk) s) →
  omem_ok M st'.
Proof.
  intros Hok Hom Hch Hoth Hsk sk' s Hs. destruct (decide (sk' = sk)) as [->|Hne]; [by apply Hsk|].
  destruct (Hoth sk' Hne) as [Hso Hwr]. apply Hso in Hs. rw Hwr. destruct (Hom sk' s Hs) as (E & ? & ?).
  split_and!; [|done|done]. rw E. f_equal. f_equal.
  - destruct (sk_filter_ptr s) as [fp|] eqn:Ep; [|done]. symmetry. apply Hch. by eapply ok_socks.
  - destruct (writers st !! sk') as [fp|] eqn:Ew; [|done]. symmetry. apply Hch. by eapply ok_writers.
Qed.

Section preserve.
Context (M : Z) (HM : 0 < M ≤ 2 ^ 30).

Definition net_ok (st : net) : Prop := refs_ok None st ∧ omem_ok M st.

Lemma pays_bound fs old s : pays M fs old s → 0 ≤ sk_omem_alloc s < M.
Proof using Type.
  intros (E & H1 & H2). pose proof (charge_nonneg fs (sk_filter_ptr s)). pose proof (charge_nonneg fs old). lia.
Qed.

(** What [sock_kmalloc] does to the accounting. *)
Lemma sock_kmalloc_ok mem size s :
  0 ≤ size < 2 ^ 31 → 0 ≤ sk_omem_alloc s < M →
  ∃ ok s', sock_kmalloc M mem size s = (ok, s') ∧ sk_filter_ptr s' = sk_filter_ptr s ∧ sk_other s' = sk_other s ∧
    sk_omem_alloc s' = sk_omem_alloc s + (if ok : bool then size else 0) ∧ sk_omem_alloc s' < M ∧
    (ok = true → mem = true).
Proof using HM.
  intros Hsz Hom. change (2 ^ 31) with 2147483648 in *. change (2 ^ 30) with 1073741824 in *. rw /sock_kmalloc.
  rewrite -> !(wrap_small 32) by (split; [lia|change (2 ^ 32) with 4294967296; lia]).
  destruct ((size <=? M) && _) eqn:E; zbool.
  2:{ exists false, s. split; [done|]. split_and!; [done|done|lia|lia|done]. }
  assert (swrap 32 (sk_omem_alloc s + size) = sk_omem_alloc s + size) as Ew.
  { apply swrap32_small. change (2 ^ 31) with 2147483648. lia. }
  rw Ew in H0 |- *. cbn [sk_omem_alloc set_omem].
  destruct mem; do 2 eexists; (split; [done|]); cbn [sk_filter_ptr sk_omem_alloc sk_other set_omem].
  - split_and!; done.
  - rw swrap32_small; [|change (2 ^ 31) with 2147483648; lia]. split_and!; [done|done|lia|lia|done].
Qed.

Lemma sock_eta s s' :
  sk_filter_ptr s' = sk_filter_ptr s → sk_other s' = sk_other s → sk_omem_alloc s' = sk_omem_alloc s → s' = s.
Proof using Type. destruct s, s'. cbn. by intros -> -> ->. Qed.

(** A socket that comes out as it went in. *)
Lemma set_socks_same st sk s : socks st !! sk = Some s → set_socks (<[sk := s]> (socks st)) st = st.
Proof using Type. intros Hs. destruct st. rw /set_socks. cbn in *. by rw insert_id. Qed.

(** The size of a new filter is what [sk_filter_len] says. *)
Lemma fprog_size fprog :
  fprog_ok fprog →
  let size := wrap 32 (sizeof_sock_filter * fprog_len fprog) + sizeof_sk_filter in
  0 ≤ size < 2 ^ 31 ∧ ∀ n l, sk_filter_len {| refcnt := n; f_len := fprog_len fprog; f_insns := l |} = size.
Proof using Type.
  intros [[H1 H2] _] size. change (2 ^ 16) with 65536 in H2. rw /size /sk_filter_len /sizeof_sock_filter /sizeof_sk_filter.
  change (2 ^ 31) with 2147483648.
  rewrite -> (wrap_small 32 (8 * _)) by (split; [lia|change (2 ^ 32) with 4294967296; lia]).
  split; [lia|]. intros n l. cbn. rw wrap_small; [lia|]. split; [lia|]. change (2 ^ 32) with 4294967296. lia.
Qed.

(** Checking the copied program. *)
Lemma prepare_ok alloc fprog insns :
  fprog_ok fprog → copy_insns (fprog_user fprog) (fprog_len fprog) = Some insns →
  ∃ err insns', __sk_prepare_filter alloc {| refcnt := 1; f_len := fprog_len fprog; f_insns := insns |} =
      Some (err, {| refcnt := 1; f_len := fprog_len fprog; f_insns := insns' |}) ∧
    (err = 0 → accepted insns').
Proof using Type.
  intros [[Hl _] Ht]. rw /copy_insns. case_if; [|done]. intros [= <-].
  assert (Z.of_nat (length (take (Z.to_nat (fprog_len fprog)) (fprog_user fprog))) = fprog_len fprog) as Hlen.
  { rw length_take. lia. }
  destruct (sk_chk_filter_total alloc (take (Z.to_nat (fprog_len fprog)) (fprog_user fprog)))
    as (r & f' & E & Hr); [by apply Forall_take|].
  rw Hlen in E. rw /__sk_prepare_filter. cbn [f_insns f_len refcnt]. rw E. cbn [mbind option_bind].
  do 2 eexists. split; [done|]. intros ->. by destruct Hr as [?|[?|(_ & _ & ?)]].
Qed.

Section attach.
Context (st : net) (sk : Z) (s s' : sock) (fp size : Z) (f : sk_filter_obj).
Hypothesis Hok : net_ok st.
Hypothesis Hw : writers st !! sk = None.
Hypothesis Hs : socks st !! sk = Some s.
Hypothesis Hfresh : filters st !! fp = None.
Hypothesis Hf : refcnt f = 1 ∧ sk_filter_len f = size.
Hypothesis Hs' : sk_filter_ptr s' = sk_filter_ptr s ∧ sk_other s' = sk_other s ∧
  sk_omem_alloc s' = sk_omem_alloc s + size ∧ sk_omem_alloc s' < M.

Let st1 := set_filters (<[fp := f]> (filters st)) (set_socks (<[sk := s']> (socks st)) st).

Lemma attach_new : refs_ok (Some fp) st1.
Proof using Hok Hs Hfresh Hf Hs'.
  destruct Hok as [Hr _]. destruct Hf, Hs' as (? & _). apply (refs_ok_new (set_socks (<[sk := s']> (socks st)) st) fp f); [|done|done].
  by apply (refs_ok_account _ _ _ s).
Qed.

(** The check rejects the program: it was charged and is released at once. *)
Lemma attach_reject :
  ∃ st', sk_filter_uncharge sk fp st1 = Some st' ∧ net_ok st' ∧ socks st' = socks st ∧ writers st' = writers st.
Proof using HM Hok Hs Hfresh Hf Hs'.
  destruct (Hok) as [Hr Ho]. destruct Hf as [Hf1 Hf2]. destruct Hs' as (E1 & E2 & E3 & E4).
  destruct (uncharge_ok sk fp st1 s') as (f' & st' & Hf' & E & Hr' & Ef & Es & Ew).
  { apply attach_new. }
  { cbn. apply lookup_insert_eq. }
  assert (socks st' = socks st) as Hss.
  { rw Es. cbn. rw insert_insert_eq. apply insert_id. rw Hs. f_equal. symmetry. apply sock_eta; [done..|]. cbn.
    rw /charge. cbn. rw lookup_insert_eq Hf2 E3. pose proof (pays_bound _ _ _ (Ho sk s Hs)).
    change (2 ^ 30) with 1073741824 in *. rw swrap32_small; [lia|]. change (2 ^ 31) with 2147483648. lia. }
  exists st'. split; [done|]. split; [|by rw Ew]. split; [done|].
  intros sk' t Ht. rw Hss in Ht. rw Ew. cbn. destruct (Ho sk' t Ht) as (Eo & ? & ?). split_and!; [|done|done].
  rw Ef charge_refcnt // charge_refcnt //. cbn. cbn in Hf'. rw Eo. f_equal. f_equal.
  - symmetry. apply charge_live_new; [done|]. intros fp' Hp. by eapply ok_socks.
  - symmetry. apply charge_live_new; [done|]. intros fp' Hp. by eapply ok_writers.
Qed.

(** The new filter replaces the old one, which stays charged until it is released. *)
Lemma attach_accept :
  accepted (f_insns f) →
  net_ok (owes sk (sk_filter_ptr s') (set_socks (<[sk := set_ptr (Some fp) s']> (socks st1)) st1)).
Proof using Hok Hw Hs Hfresh Hf Hs'.
  intros Hacc. destruct (Hok) as [Hr Ho]. destruct Hf as [Hf1 Hf2]. destruct Hs' as (E1 & E2 & E3 & E4).
  pose proof attach_new as Hnew. set (st2 := set_socks (<[sk := set_ptr (Some fp) s']> (socks st1)) st1).
  assert (live st1 fp) as Hfp by (exists f; split; [apply lookup_insert_eq|done]).
  assert (∀ fp', sk_filter_ptr s' = Some fp' → live st1 fp') as Hold.
  { intros fp' Hp. eapply (ok_socks _ _ Hnew sk s'); [apply lookup_insert_eq|done]. }
  assert (filters (owes sk (sk_filter_ptr s') st2) = <[fp := f]> (filters st)) as Efs
    by (by destruct (sk_filter_ptr s')).
  assert (socks (owes sk (sk_filter_ptr s') st2) = <[sk := set_ptr (Some fp) s']> (socks st)) as Ess.
  { transitivity (socks st2); [by destruct (sk_filter_ptr s')|]. cbn. by rw insert_insert_eq. }
  assert (∀ sk', writers (owes sk (sk_filter_ptr s') st2) !! sk' =
    if decide (sk' = sk) then sk_filter_ptr s' else writers st !! sk') as Ews.
  { intros sk'. destruct (sk_filter_ptr s') as [o|]; cbn; case_decide as Hd; subst;
      rw ?lookup_insert_eq ?lookup_insert_ne //. }
  split.
  - apply (refs_ok_move (Some fp) None st1); [exact Hnew|by destruct (sk_filter_ptr s')|by destruct (sk_filter_ptr s')|by destruct (sk_filter_ptr s')|..].
    + intros fp' _. rw (hit_ne None) //. rw /refs Ess.
      replace (handles (owes sk (sk_filter_ptr s') st2)) with (handles st) by (by destruct (sk_filter_ptr s')).
      cbn [st1 socks handles writers set_filters set_socks].
      rewrite -> !(nrefs_replace _ _ sk s _ fp' Hs). cbn [sk_filter_ptr set_ptr].
      assert (nrefs Some (writers (owes sk (sk_filter_ptr s') st2)) fp' =
        nrefs Some (writers st) fp' + hit (sk_filter_ptr s') fp') as ->.
      { destruct (sk_filter_ptr s') as [o|]; cbn [owes writers set_writers]; [by apply nrefs_fresh|].
        rw hit_ne //. cbn. lia. }
      rw E1. lia.
    + intros sk' t fp'. rw Ess. destruct (decide (sk' = sk)) as [->|Hne].
      * rw lookup_insert_eq. intros [= <-]. cbn. by intros [= <-].
      * rw lookup_insert_ne // => Ht Hp. eapply (ok_socks _ _ Hnew sk' t); [|done]. cbn. by rw lookup_insert_ne.
    + intros k fp' Hk. eapply (ok_handles _ _ Hnew k). by destruct (sk_filter_ptr s').
    + intros sk' fp'. rw Ews Ess. case_decide as Hd.
      * subst. intros Hp. split; [by apply Hold|]. rw lookup_insert_eq. eauto.
      * intros Hk. split; [by eapply (ok_writers _ _ Hnew sk')|]. rw lookup_insert_ne //.
        by eapply (ok_writers _ _ Hr).
    + done.
  - apply (omem_ok_update M None st _ sk Hr Ho).
    + intros fp' Hl. rw Efs. apply charge_live_new; [done|]. by intros ? [= <-].
    + intros sk' Hne. rw Ess Ews decide_False //. split; [|done]. intros t. by rw lookup_insert_ne.
    + intros t. rw Ess lookup_insert_eq Ews decide_True // Efs. intros [= <-].
      destruct (Ho sk s Hs) as (Eo & Hoth & _). rw Hw in Eo. split_and!; cbn; [|lia|lia].
      rewrite -> (charge_live_new st fp f (sk_filter_ptr s'));
        [|done|intros fp' Hp; eapply (ok_socks _ _ Hr sk s fp' Hs); congruence].
      rw {1}/charge. cbn. rw lookup_insert_eq E1 E2 E3 Eo Hf2. cbn. lia.
Qed.
End attach.

(** Attaching: a failure leaves every socket as it was; a success installs the new filter. *)
Definition attach_outcome (st : net) (sk : Z) (mem : option Z) (ret : Z) (st' : net) (old : option Z) : Prop :=
  if ret =? 0
  then ∃ fp s, mem = Some fp ∧ socks st !! sk = Some s ∧ old = sk_filter_ptr s ∧ live st' fp ∧
    (∃ s', socks st' !! sk = Some s' ∧ sk_filter_ptr s' = Some fp)
  else socks st' = socks st ∧ old = None.

Lemma attach_ok mem alloc null fprog sk st s :
  net_ok st → writers st !! sk = None → fprog_ok fprog → (∀ fp, mem = Some fp → filters st !! fp = None) →
  socks st !! sk = Some s →
  ∃ ret st' old, attach_publish M mem alloc null fprog sk st = Some (ret, st', old) ∧
    net_ok (owes sk old st') ∧ attach_outcome st sk mem ret st' old ∧ writers st' = writers st.
Proof using HM.
  intros Hok Hw Hfp Hfresh Hs. rw /attach_publish. destruct null; [by exists (- EINVAL), st, None|].
  rw Hs. cbn [mbind option_bind]. destruct (fprog_size fprog Hfp) as [Hsz Hlen].
  set (size := wrap 32 _ + sizeof_sk_filter) in *.
  pose proof (pays_bound _ _ _ (proj2 Hok sk s Hs)) as Hb.
  destruct (sock_kmalloc_ok (bool_decide (mem ≠ None)) size s Hsz Hb) as (ok & s' & -> & E1 & E2 & E3 & E4 & E5).
  destruct mem as [fp|].
  2:{ destruct ok; [by specialize (E5 eq_refl)|]. assert (s' = s) as -> by (apply sock_eta; [done..|lia]).
      rw set_socks_same //. by exists (- ENOMEM), st, None. }
  destruct ok; cbn [negb].
  2:{ assert (s' = s) as -> by (apply sock_eta; [done..|lia]). rw set_socks_same //. by exists (- ENOMEM), st, None. }
  destruct (copy_insns _ _) as [insns|] eqn:Ec.
  2:{ exists (- EFAULT). assert (sock_kfree_s size s' = s) as ->.
      { apply sock_eta; [done..|]. cbn. rw E3. change (2 ^ 30) with 1073741824 in *.
        rw swrap32_small; [lia|]. change (2 ^ 31) with 2147483648. lia. }
      exists st, None. cbn [socks set_socks]. rw insert_insert_eq. split; [|done]. do 3 f_equal.
      by apply (set_socks_same st). }
  destruct (prepare_ok alloc fprog insns Hfp Ec) as (err & insns' & -> & Hacc). cbn [mbind option_bind].
  set (f := {| refcnt := 1; f_len := fprog_len fprog; f_insns := insns' |}).
  assert (sk_filter_len f = size) as Hfl by apply Hlen. cbn [filters set_socks].
  destruct (Z.eqb_spec err 0) as [->|Herr]; cbn [negb].
  - do 3 eexists. split; [done|]. split.
    + apply (attach_accept st sk s s' fp size f); try done; [by apply Hfresh|by apply Hacc].
    + split; [|done]. exists fp, s. split_and!; [done|done|done| |].
      * exists f. split; [cbn; apply lookup_insert_eq|by apply Hacc].
      * eexists. cbn. rw lookup_insert_eq. done.
  - destruct (attach_reject st sk s s' fp size f) as (st' & E & Hok' & Es & Ew); try done; [by apply Hfresh|].
    cbn in E. rw E. exists err, st', None. split; [done|]. split; [done|]. rw /attach_outcome. by ztest.
Qed.

Lemma detach_ok sk st s :
  net_ok st → writers st !! sk = None → socks st !! sk = Some s →
  ∃ ret st' old, detach_publish sk st = Some (ret, st', old) ∧ net_ok (owes sk old st') ∧
    writers st' = writers st ∧ ret = (if sk_filter_ptr s then 0 else - ENOENT) ∧
    sk_filter_ptr <$> socks st' !! sk = Some None.
Proof using Type.
  intros [Hr Ho] Hw Hs. rw /detach_publish Hs. cbn [mbind option_bind].
  destruct (sk_filter_ptr s) as [fp|] eqn:Ep.
  2:{ exists (- ENOENT), st, None. split_and!; try done. by rw Hs /= Ep. }
  do 3 eexists. split; [done|]. pose proof (ok_socks _ _ Hr sk s fp Hs Ep) as Hl.
  split; [|split_and!; [done..|]; cbn; by rw lookup_insert_eq]. split.
  - apply (refs_ok_move None None st); try done; cbn [owes socks handles writers set_socks set_writers].
    + intros fp' _. rw /refs. cbn [owes socks handles writers set_socks set_writers].
      rewrite -> (nrefs_replace _ _ sk s _ fp' Hs), (nrefs_fresh _ _ sk fp fp' Hw). rw Ep.
      cbn [sk_filter_ptr set_ptr]. rw (hit_ne None) //. lia.
    + intros sk' t fp'. destruct (decide (sk' = sk)) as [->|].
      * rw lookup_insert_eq. by intros [= <-].
      * rw lookup_insert_ne //. apply (ok_socks _ _ Hr).
    + apply (ok_handles _ _ Hr).
    + intros sk' fp'. destruct (decide (sk' = sk)) as [->|].
      * rw !lookup_insert_eq. intros [= <-]. eauto.
      * rw !lookup_insert_ne //. apply (ok_writers _ _ Hr).
  - apply (omem_ok_update M None st _ sk Hr Ho); cbn [owes filters socks writers set_socks set_writers].
    + done.
    + intros sk' Hne. by rw !lookup_insert_ne.
    + intros t. rw !lookup_insert_eq. intros [= <-]. destruct (Ho sk s Hs) as (Eo & ? & ?).
      rw Hw Ep in Eo. split_and!; cbn; [|done..]. rw Eo. cbn. lia.
Qed.

(** Releasing the replaced filter. *)
Lemma uncharge_step_ok sk fp st :
  net_ok st → writers st !! sk = Some fp →
  ∃ st', sk_filter_uncharge sk fp (set_writers (delete sk (writers st)) st) = Some st' ∧ net_ok st' ∧
    (∀ sk', sk_filter_ptr <$> socks st' !! sk' = sk_filter_ptr <$> socks st !! sk') ∧
    (∀ fp', live st fp' → live st' fp').
Proof using HM.
  intros [Hr Ho] Hw. destruct (ok_writers _ _ Hr sk fp Hw) as [(f & Hf & Hacc) [s Hs]].
  set (st1 := set_writers (delete sk (writers st)) st).
  assert (refs_ok (Some fp) st1) as Hr1.
  { apply (refs_ok_move None (Some fp) st); try done; cbn [st1 socks handles writers set_writers].
    - intros fp' _. rw /refs. cbn [st1 socks handles writers set_writers].
      rewrite -> (nrefs_delete _ _ sk fp fp' Hw). rw (hit_ne None) //. lia.
    - apply (ok_socks _ _ Hr).
    - apply (ok_handles _ _ Hr).
    - intros sk' fp' [_ ?]%lookup_delete_Some. by apply (ok_writers _ _ Hr).
    - intros fp' [= <-]. eauto. }
  destruct (uncharge_ok sk fp st1 s Hr1 Hs) as (f' & st' & Hf' & E & Hr' & Ef & Es & Ew).
  exists st'. split; [done|]. split_and!.
  2:{ intros sk'. rw Es. cbn. destruct (decide (sk' = sk)) as [->|].
      - by rw lookup_insert_eq Hs.
      - by rw lookup_insert_ne. }
  2:{ intros fp' Hl. rw /live Ef. by apply (live_refcnt st1). }
  split; [done|]. apply (omem_ok_update M None st _ sk Hr Ho).
  - intros fp' _. by rw Ef charge_refcnt.
  - intros sk' Hne. rw Es Ew. cbn. rw lookup_insert_ne // lookup_delete_ne //.
  - intros t. rw Es Ew Ef. cbn. rw lookup_insert_eq lookup_delete_eq. intros [= <-].
    pose proof (pays_bound _ _ _ (Ho sk s Hs)) as Hb. destruct (Ho sk s Hs) as (Eo & ? & ?). rw Hw in Eo.
    pose proof (charge_nonneg (filters st) (Some fp)). pose proof (charge_nonneg (filters st) (sk_filter_ptr s)).
    change (2 ^ 30) with 1073741824 in *.
    split_and!; cbn; [|done|rw swrap32_small; [lia|change (2 ^ 31) with 2147483648; lia]].
    rw !charge_refcnt // swrap32_small; [cbn; lia|]. change (2 ^ 31) with 2147483648. lia.
Qed.

Lemma create_ok mem alloc null pfp fprog st ret st' :
  net_ok st → handles st !! pfp = None → fprog_ok fprog → (∀ fp, mem = Some fp → filters st !! fp = None) →
  sk_unattached_filter_create mem alloc null pfp fprog st = Some (ret, st') → net_ok st'.
Proof using Type.
  intros [Hr Ho] Hh Hfp Hfresh. rw /sk_unattached_filter_create. destruct null; [by intros [= _ <-]|].
  destruct mem as [fp|]; [|by intros [= _ <-]]. specialize (Hfresh fp eq_refl).
  destruct (copy_insns _ _) as [insns|] eqn:Ec; [|done]. cbn [mbind option_bind].
  destruct (prepare_ok alloc fprog insns Hfp Ec) as (err & insns' & -> & Hacc). cbn [mbind option_bind].
  destruct (Z.eqb_spec err 0) as [->|]; cbn [negb]; [|by intros [= _ <-]]. intros [= _ <-].
  set (f := {| refcnt := 1; f_len := fprog_len fprog; f_insns := insns' |}).
  pose proof (refs_ok_new st fp f Hr Hfresh eq_refl) as Hnew. split.
  - eapply (refs_ok_move (Some fp) None); [exact Hnew|done..| | | | |]; cbn [socks handles writers set_handles set_filters].
    + intros fp' _. rw /refs. cbn [socks handles writers set_handles set_filters].
      rewrite -> (nrefs_fresh _ _ pfp fp fp' Hh). rw (hit_ne None) //. lia.
    + apply (ok_socks _ _ Hnew).
    + intros k fp'. destruct (decide (k = pfp)) as [->|].
      * rw lookup_insert_eq. intros [= <-]. exists f. split; [apply lookup_insert_eq|by apply Hacc].
      * rw lookup_insert_ne //. apply (ok_handles _ _ Hnew).
    + apply (ok_writers _ _ Hnew).
    + done.
  - apply (omem_ok_update M None st _ 0 Hr Ho); cbn [filters socks writers set_handles set_filters].
    + intros fp' Hl. apply charge_live_new; [done|]. by intros ? [= <-].
    + done.
    + intros t Ht. destruct (Ho 0 t Ht) as (Eo & ? & ?). split_and!; [|done..]. rw Eo. f_equal. f_equal; symmetry;
        (apply charge_live_new; [done|]); intros fp' Hp; [by eapply ok_socks|by eapply ok_writers].
Qed.

Lemma destroy_ok pfp fp st :
  net_ok st → handles st !! pfp = Some fp →
  ∃ st', sk_unattached_filter_destroy fp (set_handles (delete pfp (handles st)) st) = Some st' ∧ net_ok st'.
Proof using Type.
  intros [Hr Ho] Hh. destruct (ok_handles _ _ Hr pfp fp Hh) as (f0 & Hf0 & _).
  destruct (refs_ok_release (set_handles (delete pfp (handles st)) st) fp)
    as (f & st' & Hf & E & Hr' & Ef & Es & Ew).
  { apply (refs_ok_move None (Some fp) st); try done; cbn [socks handles writers set_handles].
    - intros fp' _. rw /refs. cbn [socks handles writers set_handles].
      rewrite -> (nrefs_delete _ _ pfp fp fp' Hh). rw (hit_ne None) //. lia.
    - apply (ok_socks _ _ Hr).
    - intros k fp' [_ ?]%lookup_delete_Some. by eapply (ok_handles _ _ Hr).
    - apply (ok_writers _ _ Hr).
    - intros fp' [= <-]. eauto. }
  exists st'. split; [done|]. split; [done|]. intros sk s. rw Es Ew Ef. cbn. intros Hs.
  destruct (Ho sk s Hs) as (Eo & ? & ?). split_and!; [|done..]. by rw !charge_refcnt.
Qed.

Lemma clone_ok sk newsk st s :
  net_ok st → socks st !! newsk = None → socks st !! sk = Some s →
  (∀ fp, sk_filter_ptr s = Some fp → refs st fp + 1 < 2 ^ 31) →
  ∃ st', sk_clone_filter sk newsk st = Some st' ∧ net_ok st'.
Proof using HM.
  intros [Hr Ho] Hnew Hs Hfew. rw /sk_clone_filter Hs. cbn [mbind option_bind].
  assert (writers st !! newsk = None) as Hwn.
  { destruct (writers st !! newsk) eqn:E; [|done]. destruct (ok_writers _ _ Hr newsk _ E) as [_ []]. congruence. }
  set (s' := set_other 0 (set_omem 0 s)). set (st1 := set_socks (<[newsk := s']> (socks st)) st).
  destruct (sk_filter_ptr s) as [fp|] eqn:Ep.
  2:{ exists st1. split; [done|]. split.
      - apply (refs_ok_move None None st); try done; cbn [st1 socks handles writers set_socks].
        + intros fp' _. rw /refs. cbn [st1 socks handles writers set_socks].
          rewrite -> (nrefs_fresh _ _ newsk s' fp' Hnew). cbn. rw Ep hit_ne //. lia.
        + intros sk' t fp'. destruct (decide (sk' = newsk)) as [->|].
          * rw lookup_insert_eq. intros [= <-]. cbn. by rw Ep.
          * rw lookup_insert_ne //. apply (ok_socks _ _ Hr).
        + apply (ok_handles _ _ Hr).
        + intros sk' fp' H. destruct (ok_writers _ _ Hr sk' fp' H). split; [done|]. apply lookup_insert_is_Some'. eauto.
      - apply (omem_ok_update M None st _ newsk Hr Ho); cbn [st1 filters socks writers set_socks]; [done| |].
        + intros sk' Hne. split; [|done]. intros t. by rw lookup_insert_ne.
        + intros t. rw lookup_insert_eq Hwn. intros [= <-]. split_and!; cbn; [by rw Ep|done|lia]. }
  destruct (ok_socks _ _ Hr sk s fp Hs Ep) as (f & Hf & Hacc). rw /sk_filter_charge. cbn [filters socks set_socks st1].
  rw Hf lookup_insert_eq. cbn [mbind option_bind]. eexists. split; [done|].
  destruct (ok_count _ _ Hr fp f Hf) as [Hc Hcb]. rw (hit_ne None) // in Hc.
  assert (0 < refcnt f) as Hpos.
  { pose proof (nrefs_pos sk_filter_ptr (socks st) sk s fp Hs Ep). rw Hc /refs /nrefs in H |- *. lia. }
  assert (refcnt f + 1 < 2 ^ 31) as Hlt31 by (specialize (Hfew fp eq_refl); lia).
  assert (swrap 32 (refcnt f + 1) = refcnt f + 1) as -> by (apply swrap32_small; lia).
  set (fs := <[fp := set_refcnt (refcnt f + 1) f]> (filters st)).
  assert (∀ fp', live st fp' → live (set_filters fs st) fp') as Hlive by (intros fp'; by apply live_refcnt).
  set (s2 := set_omem _ s').
  assert (sk_filter_ptr s2 = Some fp) as Ep2 by done.
  split.
  - split; cbn [filters socks handles writers readers callbacks set_socks set_filters].
    + intros fp' f' Hf'. rw (hit_ne None) //. rw /refs. cbn [filters socks handles writers set_socks set_filters].
      rw insert_insert_eq. rewrite -> (nrefs_fresh _ _ newsk s2 fp' Hnew). rw Ep2. rw /fs in Hf'.
      destruct (decide (fp' = fp)) as [->|Hne].
      * rw lookup_insert_eq in Hf'. injection Hf' as <-. rw hit_eq. cbn. cbn [st1 handles writers callbacks set_socks]. split; [rw Hc /refs; lia|].
        split; [intros Hx%Hcb; lia|lia].
      * rw lookup_insert_ne // in Hf'. rw hit_ne; [|congruence]. destruct (ok_count _ _ Hr fp' f' Hf') as [H1 H2].
        rw (hit_ne None) // /refs in H1. cbn [st1 handles writers callbacks set_socks]. split; [lia|done].
    + intros sk' t fp'. rw insert_insert_eq. destruct (decide (sk' = newsk)) as [->|].
      * rw lookup_insert_eq. intros [= <-]. rw Ep2. intros [= <-]. by apply (Hlive fp); exists f.
      * rw lookup_insert_ne // => H1 H2. by eapply (Hlive fp'), (ok_socks _ _ Hr sk' t).
    + intros k fp' Hk. by eapply (Hlive fp'), (ok_handles _ _ Hr).
    + intros sk' fp' H. destruct (ok_writers _ _ Hr sk' fp' H). split; [by apply (Hlive fp')|].
      apply lookup_insert_is_Some'. right. apply lookup_insert_is_Some'. by right.
    + intros rid fp' H. destruct (ok_readers _ _ Hr rid fp' H). split; [by apply (Hlive fp')|done].
    + intros fp' H. apply lookup_insert_is_Some'. right. by apply (ok_callbacks _ _ Hr).
    + done.
    + intros fp' f' [[_ <-]|[_ Hf']]%lookup_insert_Some; [done|by eapply (ok_bound _ _ Hr)].
  - apply (omem_ok_update M None st _ newsk Hr Ho); cbn [filters socks writers set_socks set_filters].
    + intros fp' _. by apply charge_refcnt.
    + intros sk' Hne. split; [|done]. intros t. by rw !lookup_insert_ne.
    + intros t. rw lookup_insert_eq Hwn. intros [= <-]. destruct (Ho sk s Hs) as (Eo & Hoth & Hlt).
      pose proof (charge_nonneg (filters st) (writers st !! sk)) as Hcn. rw Ep in Eo. rw /pays Ep2 charge_refcnt //.
      assert (charge (filters st) (Some fp) = sk_filter_len f) as Hch by (rw /charge; cbn; by rw Hf).
      pose proof (charge_nonneg (filters st) (Some fp)) as Hcf. rw Hch in Eo Hcf |- *.
      change (2 ^ 30) with 1073741824 in *. cbn [s2 s' set_omem set_other sk_omem_alloc sk_other].
      rw swrap32_small; [|change (2 ^ 31) with 2147483648; lia]. cbn. lia.
Qed.

(** [sk_filter_release] does not look at the sockets. *)
Lemma release_set_socks fp x st :
  sk_filter_release fp (set_socks x st) = set_socks x <$> sk_filter_release fp st.
Proof using Type.
  rw /sk_filter_release. cbn [filters set_socks]. destruct (filters st !! fp) as [f|]; [|done].
  cbn [mbind option_bind fmap option_fmap option_map]. by destruct (_ =? 0).
Qed.

Lemma free_ok sk st s :
  net_ok st → writers st !! sk = None → socks st !! sk = Some s →
  ∃ st', sk_free_filter sk st = Some st' ∧ net_ok st'.
Proof using Type.
  intros [Hr Ho] Hw Hs. rw /sk_free_filter Hs. cbn [mbind option_bind].
  set (st1 := set_socks (delete sk (socks st)) st).
  assert (refs_ok (sk_filter_ptr s) st1) as Hr1.
  { apply (refs_ok_move None _ st); try done; cbn [st1 socks handles writers set_socks].
    - intros fp' _. rw /refs. cbn [st1 socks handles writers set_socks].
      rewrite -> (nrefs_delete _ _ sk s fp' Hs). rw (hit_ne None) //. lia.
    - intros sk' t fp' [_ ?]%lookup_delete_Some. by eapply (ok_socks _ _ Hr).
    - apply (ok_handles _ _ Hr).
    - intros sk' fp' H. destruct (ok_writers _ _ Hr sk' fp' H). split; [done|].
      rw lookup_delete_ne //. intros ->. congruence.
    - intros fp Hp. destruct (ok_socks _ _ Hr sk s fp Hs Hp) as (f & Hf & _). eauto. }
  assert (∀ fs wr, (∀ p, charge fs p = charge (filters st) p) → wr = writers st →
    ∀ sk' t, delete sk (socks st) !! sk' = Some t → pays M fs (wr !! sk') t) as Hom.
  { intros fs wr Hch -> sk' t [_ Ht]%lookup_delete_Some. destruct (Ho sk' t Ht) as (Eo & ? & ?).
    split_and!; [|done..]. by rw !Hch. }
  destruct (sk_filter_ptr s) as [fp|] eqn:Ep.
  - destruct (ok_socks _ _ Hr sk s fp Hs Ep) as (f & Hf & _).
    rw /sk_filter_uncharge Hf Hs. cbn [mbind option_bind]. rw release_set_socks.
    destruct (refs_ok_release st1 fp Hr1) as (f' & st' & Hf' & E & Hr' & Ef & Es & Ew).
    rw /st1 release_set_socks in E. destruct (sk_filter_release fp st) as [st2|]; [|done].
    injection E as <-. cbn [fmap option_fmap option_map mbind option_bind]. eexists. split; [done|].
    replace (set_socks _ (set_socks _ st2)) with (set_socks (delete sk (socks st)) st2).
    2:{ rw /set_socks. f_equal. cbn. rw delete_insert_eq //. }
    split; [done|]. intros sk' t. cbn. cbn in Ew, Ef. apply Hom; [|done].
    intros p. rw Ef. cbn in Hf'. by rw charge_refcnt.
  - eexists. split; [done|]. split; [done|]. intros sk' t. cbn. by apply Hom.
Qed.

Lemma enter_ok rid sk st s :
  net_ok st → socks st !! sk = Some s → ∃ st', reader_enter rid sk st = Some st' ∧ net_ok st'.
Proof using Type.
  intros [Hr Ho] Hs. rw /reader_enter Hs. cbn [mbind option_bind]. eexists. split; [done|].
  split; [|done]. destruct (Hr) as [Hc Hso Hh Hw Hrd Hcb Hp]. split; try done.
  intros rid' fp. cbn [readers callbacks set_readers]. destruct (decide (rid' = rid)) as [->|].
  - rw lookup_insert_eq. intros [= Ep]. destruct (Hso sk s fp Hs Ep) as (f & Hf & Hacc). split; [by exists f|].
    intros w Hwt. destruct (Hc fp f Hf) as [Hcnt Hz]. rw (hit_ne None) // in Hcnt.
    assert (refcnt f = 0) as H0 by (apply Hz; eauto). pose proof (nrefs_pos _ _ sk s fp Hs Ep).
    rw H0 /refs /nrefs in Hcnt H. lia.
  - rw lookup_insert_ne //. apply Hrd.
Qed.

Lemma leave_ok rid st : net_ok st → net_ok (reader_leave rid st).
Proof using Type.
  intros [Hr Ho]. split; [|done]. destruct (Hr) as [Hc Hso Hh Hw Hrd Hcb Hp].
  split; cbn [filters readers callbacks set_readers set_callbacks reader_leave]; try done.
  - intros fp f Hf. rw lookup_fmap fmap_is_Some. by apply Hc.
  - intros rid' fp [Hne H]%lookup_delete_Some. destruct (Hrd rid' fp H) as [Hl Hwt]. split; [done|].
    intros w. rw lookup_fmap. intros (w' & Hw' & ->)%fmap_Some. apply elem_of_difference.
    split; [by apply Hwt|]. rw elem_of_singleton. congruence.
  - intros fp. rw lookup_fmap fmap_is_Some. apply Hcb.
Qed.

Lemma callback_ok fp st :
  net_ok st → callbacks st !! fp = Some ∅ → net_ok (sk_filter_release_rcu fp st).
Proof using Type.
  intros [Hr Ho] Hcbf. destruct (Hr) as [Hc Hso Hh Hw Hrd Hcb Hp].
  destruct (Hcb fp) as [f Hf]; [eauto|]. destruct (Hc fp f Hf) as [Hcnt Hz]. rw (hit_ne None) // in Hcnt.
  assert (refcnt f = 0) as H0 by (apply Hz; eauto).
  assert (∀ k s, socks st !! k = Some s → sk_filter_ptr s ≠ Some fp) as Ns.
  { intros k s. apply nrefs_none. rw H0 /refs /nrefs in Hcnt |- *. lia. }
  assert (∀ k fp', handles st !! k = Some fp' → Some fp' ≠ Some fp) as Nh.
  { intros k s. apply (nrefs_none Some). rw H0 /refs /nrefs in Hcnt |- *. lia. }
  assert (∀ k fp', writers st !! k = Some fp' → Some fp' ≠ Some fp) as Nw.
  { intros k s. apply (nrefs_none Some). rw H0 /refs /nrefs in Hcnt |- *. lia. }
  assert (∀ fp', live st fp' → fp' ≠ fp → live (sk_filter_release_rcu fp st) fp') as Hlive.
  { intros fp' (g & Hg & Ha) Hne. exists g. cbn. by rw lookup_delete_ne. }
  split.
  - split; cbn [filters socks handles writers readers callbacks sk_filter_release_rcu set_callbacks set_filters].
    + intros fp' f' [Hne Hf']%lookup_delete_Some. rw lookup_delete_ne //. by apply Hc.
    + intros k s fp' Hk Hp'. apply Hlive; [by eapply Hso|]. intros ->. by eapply Ns.
    + intros k fp' Hk. apply Hlive; [by eapply Hh|]. intros ->. by eapply Nh.
    + intros k fp' Hk. destruct (Hw k fp' Hk). split; [|done]. apply Hlive; [done|]. intros ->. by eapply Nw.
    + intros rid fp' H. destruct (Hrd rid fp' H) as [Hl Hwt].
      assert (fp' ≠ fp) as Hne by (intros ->; by apply Hwt in Hcbf; apply elem_of_empty in Hcbf).
      split; [by apply Hlive|]. rw lookup_delete_ne //.
    + intros fp' [w [Hne Hw']%lookup_delete_Some]. rw lookup_delete_ne //. apply Hcb. eauto.
    + done.
    + intros fp' f' [_ Hf']%lookup_delete_Some. by eapply (ok_bound _ _ Hr).
  - intros sk s Hs. destruct (Ho sk s Hs) as (Eo & ? & ?). split_and!; [|done..]. rw Eo. cbn. f_equal. f_equal.
    + destruct (sk_filter_ptr s) as [fp'|] eqn:Ep; [|done]. rw /charge. cbn. rw lookup_delete_ne //.
      intros <-. by eapply Ns.
    + destruct (writers st !! sk) as [fp'|] eqn:Ew; [|done]. rw /charge. cbn. rw lookup_delete_ne //.
      intros <-. by eapply Nw.
Qed.

(** The accounting of one socket changes. *)
Lemma account_ok st sk s s' :
  net_ok st → socks st !! sk = Some s → sk_filter_ptr s' = sk_filter_ptr s →
  sk_omem_alloc s' - sk_other s' = sk_omem_alloc s - sk_other s → 0 ≤ sk_other s' → sk_omem_alloc s' < M →
  net_ok (set_socks (<[sk := s']> (socks st)) st).
Proof using Type.
  intros [Hr Ho] Hs Ep Ed Hoth HltM. split; [by eapply refs_ok_account|].
  apply (omem_ok_update M None st _ sk Hr Ho); cbn [filters socks writers set_socks]; [done| |].
  - intros sk' Hne. split; [|done]. intros t. by rw lookup_insert_ne.
  - intros t. rw lookup_insert_eq. intros [= <-]. destruct (Ho sk s Hs) as (Eo & ? & ?).
    split_and!; [|done..]. rw Ep. lia.
Qed.

Lemma socket_ok st sk :
  net_ok st → socks st !! sk = None →
  net_ok (set_socks (<[sk := {| sk_filter_ptr := None; sk_omem_alloc := 0; sk_other := 0 |}]> (socks st)) st).
Proof using HM.
  intros [Hr Ho] Hs.
  assert (writers st !! sk = None) as Hwn.
  { destruct (writers st !! sk) eqn:E; [|done]. destruct (ok_writers _ _ Hr sk _ E) as [_ []]. congruence. }
  split.
  - apply (refs_ok_move None None st); try done; cbn [socks handles writers set_socks].
    + intros fp' _. rw /refs. cbn [socks handles writers set_socks].
      rewrite -> (nrefs_fresh _ _ sk _ fp' Hs). cbn. rw hit_ne //. lia.
    + intros sk' t fp'. destruct (decide (sk' = sk)) as [->|].
      * rw lookup_insert_eq. by intros [= <-].
      * rw lookup_insert_ne //. apply (ok_socks _ _ Hr).
    + apply (ok_handles _ _ Hr).
    + intros sk' fp' H. destruct (ok_writers _ _ Hr sk' fp' H). split; [done|]. apply lookup_insert_is_Some'. eauto.
  - apply (omem_ok_update M None st _ sk Hr Ho); cbn [filters socks writers set_socks]; [done| |].
    + intros sk' Hne. split; [|done]. intros t. by rw lookup_insert_ne.
    + intros t. rw lookup_insert_eq Hwn. intros [= <-]. split_and!; cbn; lia.
Qed.

Lemma net_step_ok st st' : net_ok st → net_step M st st' → net_ok st'.
Proof using HM.
  intros Hok. destruct 1.
  - by apply socket_ok.
  - destruct (socks st !! sk) as [s|] eqn:Hs.
    + destruct (attach_ok mem alloc null fprog sk st s) as (? & ? & ? & E & ? & _ & _); [done..|]. congruence.
    + move: H2. rw /attach_publish Hs. destruct null; [|done]. by intros [= <- <- <-].
  - destruct (socks st !! sk) as [s|] eqn:Hs.
    + destruct (detach_ok sk st s) as (? & ? & ? & E & ? & _); [done..|]. congruence.
    + move: H0. by rw /detach_publish Hs.
  - destruct (uncharge_step_ok sk fp st) as (? & E & ? & _); [done..|]. congruence.
  - by eapply create_ok.
  - destruct (destroy_ok pfp fp st) as (? & E & ?); [done..|]. congruence.
  - destruct (socks st !! sk) as [s|] eqn:Hs; [|move: H1; by rw /sk_clone_filter Hs].
    destruct (clone_ok sk newsk st s) as (? & E & ?); [done..|by intros fp; apply H0|]. congruence.
  - destruct (socks st !! sk) as [s|] eqn:Hs; [|move: H0; by rw /sk_free_filter Hs].
    destruct (free_ok sk st s) as (? & E & ?); [done..|]. congruence.
  - destruct (socks st !! sk) as [s|] eqn:Hs; [|move: H0; by rw /reader_enter Hs].
    destruct (enter_ok rid sk st s) as (? & E & ?); [done..|]. congruence.
  - by apply leave_ok.
  - by apply callback_ok.
  - pose proof (pays_bound _ _ _ (proj2 Hok sk s H)) as Hb. destruct (proj2 Hok sk s H) as (_ & Hoth & _).
    destruct (sock_kmalloc_ok mem size s H0 Hb) as (ok & s2 & E & E1 & E2 & E3 & E4 & _).
    rw H1 in E. injection E as <- <-. apply (account_ok st sk s); cbn; try done; lia.
  - pose proof (pays_bound _ _ _ (proj2 Hok sk s H)) as Hb. destruct (proj2 Hok sk s H) as (Eo & Hoth & _).
    pose proof (charge_nonneg (filters st) (sk_filter_ptr s)).
    pose proof (charge_nonneg (filters st) (writers st !! sk)).
    change (2 ^ 30) with 1073741824 in *.
    apply (account_ok st sk s); cbn; try done; rw ?swrap32_small; change (2 ^ 31) with 2147483648; lia.
Qed.

(** Paying off what was owed gives the whole operation. *)
Lemma uncharge_old_ok sk old st :
  writers st !! sk = None → net_ok (owes sk old st) →
  ∃ st', uncharge_old sk old st = Some st' ∧ net_ok st' ∧
    (∀ sk', sk_filter_ptr <$> socks st' !! sk' = sk_filter_ptr <$> socks st !! sk') ∧
    (∀ fp', live st fp' → live st' fp').
Proof using HM.
  intros Hw Hok. destruct old as [fp|]; [|by exists st].
  destruct (uncharge_step_ok sk fp (owes sk (Some fp) st)) as (st' & E & Hok' & Hp & Hl); [done|apply lookup_insert_eq|].
  exists st'. split_and!; [|done|done|done]. cbn [uncharge_old]. rewrite <- E. f_equal. destruct st.
  rw /set_writers. cbn in *. by rw delete_insert_id.
Qed.

Lemma net_reachable_ok st : net_reachable M st → net_ok st.
Proof using HM.
  induction 1 as [|st st' _ IH Hstep]; [|by eapply net_step_ok].
  split; [|intros sk s; cbn; by rw lookup_empty].
  split; cbn; try done; intros *; rw ?lookup_empty //; by intros [].
Qed.
End preserve.

(** ** Claims *)

(** C3: On a machine with fewer than 2^31 pointers to one filter and a limit of option memory of at most 2^30: whatever attachments, detachments, clones, releases and RCU callbacks run between the moment a reader
    loads the filter pointer of a socket and the moment it runs the filter, the filter is still
    allocated and, unless the program has a nested netlink attribute search or a plain one on a packet
    shorter than an attribute header ([nlattr_safe]), the run returns: the packet is dropped
    exactly when the program returns 0, and trimmed to the returned length otherwise. *)
Theorem socket_filter_reader_safe M st rid p env trim skb :
  0 < M ≤ 2 ^ 30 → net_reachable M st → readers st !! rid = Some p → env_ok env → skb_typed skb →
  (∀ fp f, p = Some fp → filters st !! fp = Some f → nlattr_safe skb (f_insns f)) →
  match p with
  | None => run_loaded env trim p skb st = Some 0
  | Some fp => ∃ f n, filters st !! fp = Some f ∧ sk_run_filter env (Some skb) (f_insns f) = Some n ∧
      run_loaded env trim p skb st = Some (if n =? 0 then - EPERM else trim n)
  end.
Proof.
  intros HM Hst Hrd Henv Hskb Hna. destruct p as [fp|]; [|done].
  destruct (net_reachable_ok M HM st Hst) as [Hr _]. destruct (ok_readers _ _ Hr rid fp Hrd) as [(f & Hf & Hacc) _].
  destruct (accepted_runs env skb (f_insns f)) as (n & E & _); [done..|by eapply Hna|].
  exists f, n. split_and!; [done|done|]. rw /run_loaded Hf. cbn [mbind option_bind]. rw E. cbn [mbind option_bind].
  by destruct (n =? 0).
Qed.

(** C6: With an option memory limit [M] between 1 and 2^30, and as long as fewer than 2^31 pointers lead to one filter
    (the precondition of cloning a socket), the 32-bit counters never wrap: in every reachable state the reference count of every filter is the number of sockets, handles and
    pending releases that point to it, it is zero exactly when the filter waits for its RCU
    callback (nothing leaks), and the option memory of every socket is what it pays for its filters
    and its other options, below the limit. *)
Theorem socket_filter_accounting M st :
  0 < M ≤ 2 ^ 30 → net_reachable M st →
  (∀ fp f, filters st !! fp = Some f →
     refcnt f = refs st fp ∧ 0 ≤ refcnt f < 2 ^ 31 ∧ (refcnt f = 0 ↔ is_Some (callbacks st !! fp))) ∧
  (∀ sk s, socks st !! sk = Some s →
     sk_omem_alloc s = charge (filters st) (sk_filter_ptr s) + charge (filters st) (writers st !! sk) + sk_other s ∧
     0 ≤ sk_omem_alloc s < M ∧ ∀ fp, sk_filter_ptr s = Some fp → live st fp).
Proof.
  intros HM Hst. destruct (net_reachable_ok M HM st Hst) as [Hr Ho]. split.
  - intros fp f Hf. destruct (ok_count _ _ Hr fp f Hf) as [H1 H2]. rw hit_ne // Z.add_0_r in H1.
    pose proof (refs_nonneg st fp). pose proof (ok_bound _ _ Hr fp f Hf).
    split; [done|]. split; [lia|by rw H2].
  - intros sk s Hs. destruct (Ho sk s Hs) as (E & ? & ?). split_and!; [done| |done|].
    + apply (pays_bound M _ _ _ (Ho sk s Hs)).
    + intros fp. by eapply (ok_socks _ _ Hr).
Qed.

(** C9: In every reachable state attaching and detaching a filter return: a failed attach leaves all sockets as
    they were, a successful one installs a checked program at the new address; detaching removes the
    filter, or answers [-ENOENT] when there is none. *)
Theorem socket_filter_attach_detach M st sk s mem alloc null fprog :
  0 < M ≤ 2 ^ 30 → net_reachable M st → socks st !! sk = Some s → writers st !! sk = None →
  fprog_ok fprog → (∀ fp, mem = Some fp → filters st !! fp = None) →
  (∃ ret st', sk_attach_filter M mem alloc null fprog sk st = Some (ret, st') ∧
     if ret =? 0
     then ∃ fp, mem = Some fp ∧ live st' fp ∧ sk_filter_ptr <$> socks st' !! sk = Some (Some fp)
     else socks st' = socks st) ∧
  (∃ st', sk_detach_filter sk st = Some (if sk_filter_ptr s then 0 else - ENOENT, st') ∧
     sk_filter_ptr <$> socks st' !! sk = Some None).
Proof.
  intros HM Hst Hs Hw Hfp Hfresh. pose proof (net_reachable_ok M HM st Hst) as Hok. split.
  - destruct (attach_ok M HM mem alloc null fprog sk st s) as (ret & st1 & old & E & Hok1 & Hres & Ew); [done..|].
    rw /sk_attach_filter E. cbn [mbind option_bind].
    destruct (uncharge_old_ok M HM sk old st1) as (st2 & E2 & _ & Hp & Hl); [by rw Ew|done|].
    rw E2. exists ret, st2. split; [done|]. rw /attach_outcome in Hres. case_if.
    + destruct Hres as (fp & s0 & -> & _ & _ & Hlive & s1 & Hs1 & Hp1). exists fp. split_and!; [done|by apply Hl|].
      by rw Hp Hs1 /= Hp1.
    + destruct Hres as [Hso ->]. injection E2 as <-. done.
  - destruct (detach_ok M sk st s) as (ret & st1 & old & E & Hok1 & Ew & -> & Hn); [done..|].
    rw /sk_detach_filter E. cbn [mbind option_bind].
    destruct (uncharge_old_ok M HM sk old st1) as (st2 & E2 & _ & Hp & Hl); [by rw Ew|done|].
    rw E2. exists st2. split; [done|]. by rw Hp.
Qed.

(** ** An example: a reader runs a filter that has been detached and released meanwhile *)

Definition demo_sock : net :=
  set_socks {[1 := {| sk_filter_ptr := None; sk_omem_alloc := 0; sk_other := 0 |}]} net_init.

Definition demo_prog : sock_fprog := {| fprog_len := 6; fprog_user := ipv4_filter |}.

Definition demo_attached : option net :=
  '(_, st, old) ← attach_publish 20480 (Some 100) true false demo_prog 1 demo_sock;
  Some (owes 1 old st).

Definition demo_race : option net :=
  st ← demo_attached;
  st ← reader_enter 7 1 st;
  '(_, st, old) ← detach_publish 1 st;
  let st := owes 1 old st in
  sk_filter_uncharge 1 100 (set_writers (delete 1 (writers st)) st).

Lemma demo_prog_ok : fprog_ok demo_prog.
Proof. split; [split; vm_compute; congruence|]. rw /demo_prog. cbn [fprog_user]. typed_concrete. Qed.

Lemma demo_sock_reachable : net_reachable 20480 demo_sock.
Proof. eapply Reach_step; [apply Reach_init|]. by apply (St_socket 20480 1 net_init). Qed.

Lemma demo_attached_reachable st : demo_attached = Some st → net_reachable 20480 st.
Proof.
  rw /demo_attached. destruct (attach_publish _ _ _ _ _ _ _) as [[[ret st1] old]|] eqn:E; [|done].
  intros [= <-]. eapply Reach_step; [apply demo_sock_reachable|].
  eapply (St_attach _ (Some 100) true false demo_prog); [done|apply demo_prog_ok|by intros ? [= <-]|exact E].
Qed.

Lemma demo_race_reachable st :
  demo_race = Some st → net_reachable 20480 st.
Proof.
  rw /demo_race. destruct demo_attached as [st0|] eqn:E0; [|done]. cbn [mbind option_bind].
  pose proof (demo_attached_reachable st0 E0) as H0.
  assert (writers st0 !! 1 = None ∧ readers st0 !! 7 = None ∧
    sk_filter_ptr <$> socks st0 !! 1 = Some (Some 100)) as (Hw & Hrd & Hp).
  { vm_compute in E0. injection E0 as <-. done. }
  destruct (reader_enter 7 1 st0) as [st1|] eqn:E1; [|done]. cbn [mbind option_bind].
  assert (net_reachable 20480 st1) as H1 by (eapply Reach_step; [exact H0|by eapply St_enter]).
  assert (writers st1 = writers st0 ∧ socks st1 = socks st0) as [Ew1 Es1].
  { rw /reader_enter in E1. destruct (socks st0 !! 1); [|done]. by injection E1 as <-. }
  destruct (detach_publish 1 st1) as [[[ret st2] old]|] eqn:E2; [|done]. cbn [mbind option_bind].
  assert (net_reachable 20480 (owes 1 old st2)) as H2.
  { eapply Reach_step; [exact H1|]. eapply St_detach; [by rw Ew1|exact E2]. }
  assert (old = Some 100) as ->.
  { rw /detach_publish Es1 in E2. destruct (socks st0 !! 1) as [s|]; [|done]. cbn in Hp, E2.
    destruct (sk_filter_ptr s); [|done]. congruence. }
  intros E3. eapply Reach_step; [exact H2|]. eapply (St_uncharge _ 1 100); [apply lookup_insert_eq|exact E3].
Qed.

(** The released filter waits for the reader. *)
Example demo_race_waits :
  (st ← demo_race; Some (refcnt <$> filters st !! 100, callbacks st !! 100, readers st !! 7)) =
  Some (Some 0, Some {[7]}, Some (Some 100)).
Proof. vm_compute. reflexivity. Qed.

Lemma demo_nlattr (st : net) (f : sk_filter_obj) :
  demo_race = Some st → filters st !! 100 = Some f → nlattr_safe (split_packet [0; 69; 0; 0; 20]) (f_insns f).
Proof.
  intros E Hf. vm_compute in E. injection E as <-. vm_compute in Hf. injection Hf as <-. intros ins Hin.
  cbn [f_insns] in Hin. repeat (apply elem_of_cons in Hin as [->|Hin]; [split; vm_compute; congruence|]).
  by apply elem_of_nil in Hin.
Qed.

Lemma socket_filter_reader_safe_witness :
  ∃ st f n, demo_race = Some st ∧ filters st !! 100 = Some f ∧
    sk_run_filter x86_env (Some (split_packet [0; 69; 0; 0; 20])) (f_insns f) = Some n ∧
    run_loaded x86_env (λ _, 0) (Some 100) (split_packet [0; 69; 0; 0; 20]) st =
      Some (if n =? 0 then - EPERM else 0).
Proof.
  destruct demo_race as [st|] eqn:E; [|vm_compute in E; discriminate].
  assert (Hrd : readers st !! 7 = Some (Some 100)) by (vm_compute in E; injection E as <-; reflexivity).
  destruct (socket_filter_reader_safe 20480 st 7 (Some 100) x86_env (λ _, 0) (split_packet [0; 69; 0; 0; 20])
    ltac:(lia) (demo_race_reachable st E) Hrd x86_env_ok split_packet_typed)
    as (f & n & H1 & H2 & H3).
  - intros fp f [= <-]. exact (demo_nlattr st f E).
  - exists st, f, n. split; [reflexivity|]. split; [exact H1|]. split; [exact H2|exact H3].
Defined.

(** The filter of a socket, shared with a clone. *)
Definition demo_shared : option net := st ← demo_attached; sk_clone_filter 1 2 st.

Lemma demo_shared_reachable st : demo_shared = Some st → net_reachable 20480 st.
Proof.
  rw /demo_shared. destruct demo_attached as [st0|] eqn:E0; [|done]. cbn [mbind option_bind]. intros E1.
  eapply Reach_step; [by apply demo_attached_reachable|]. eapply (St_clone _ 1 2); [| |exact E1].
  - vm_compute in E0. by injection E0 as <-.
  - vm_compute in E0. injection E0 as <-. intros s fp Hs Hp. cbn in Hs. vm_compute in Hs. injection Hs as <-.
    cbn in Hp. injection Hp as <-. vm_compute. reflexivity.
Qed.

Lemma socket_filter_accounting_witness :
  ∃ st f, demo_shared = Some st ∧ filters st !! 100 = Some f ∧ refs st 100 = 2 ∧ refcnt f = refs st 100 ∧
    0 ≤ refcnt f < 2 ^ 31 ∧ (refcnt f = 0 ↔ is_Some (callbacks st !! 100)).
Proof.
  destruct demo_shared as [st|] eqn:E; [|vm_compute in E; discriminate].
  destruct (filters st !! 100) as [f|] eqn:Hf;
    [|vm_compute in E; injection E as <-; vm_compute in Hf; discriminate].
  exists st, f. split; [reflexivity|]. split; [exact Hf|].
  split; [vm_compute in E; injection E as <-; vm_compute; reflexivity|].
  exact (proj1 (socket_filter_accounting 20480 st ltac:(lia) (demo_shared_reachable st E)) 100 f Hf).
Defined.

Lemma socket_filter_attach_detach_witness :
  ∃ ret st', sk_attach_filter 20480 (Some 100) true false demo_prog 1 demo_sock = Some (ret, st') ∧
    if ret =? 0
    then ∃ fp, Some 100 = Some fp ∧ live st' fp ∧ sk_filter_ptr <$> socks st' !! 1 = Some (Some fp)
    else socks st' = socks demo_sock.
Proof.
  apply (socket_filter_attach_detach 20480 demo_sock 1 {| sk_filter_ptr := None; sk_omem_alloc := 0; sk_other := 0 |}
    (Some 100) true false demo_prog); [lia|exact demo_sock_reachable|reflexivity|reflexivity|exact demo_prog_ok|].
  intros fp H. injection H as <-. reflexivity.
Defined.
