(* ===== verification/Seccomp.v ===== *)
(** * Secure computing: kernel/seccomp.c

    Mode 1 (a fixed list of system calls) and mode 2 (filters in the language of
    net/core/filter.c).  The state is the set of [struct seccomp_filter] objects,
    which form a tree through [prev], and the tasks that point into it.  A read of an
    object that was freed, a filter that faults and [BUG()] are faults ([None]). *)
From S2P Require Import Prelude Skbuff Bpf BpfSafe BpfPacket.

(** ** Data *)

Record seccomp_filter := { usage : Z; prev : option Z; flen : Z; insns : list sock_filter }.

(** What seccomp uses of [struct task_struct]: [seccomp.mode], [seccomp.filter], the
    thread flags it sets and the privileges it asks for. *)
Record task := {
  mode : Z;
  filter_ptr : option Z;
  tif_seccomp : bool;
  tsc_disabled : bool;
  no_new_privs : bool;
  cap_sys_admin : bool
}.

Notation heap := (gmap Z seccomp_filter).
Notation task_map := (gmap Z task).

(** The registers of a system call, as [syscall_get_nr], [syscall_get_arch],
    [syscall_get_arguments] and [KSTK_EIP] report them. *)
Record pt_regs := { reg_nr : Z; reg_arch : Z; reg_ip : Z; reg_args : list Z }.

Definition SECCOMP_MODE_DISABLED : Z := 0.
Definition SECCOMP_MODE_STRICT : Z := 1.
Definition SECCOMP_MODE_FILTER : Z := 2.

Definition SECCOMP_RET_KILL : Z := 0x00000000.
Definition SECCOMP_RET_TRAP : Z := 0x00030000.
Definition SECCOMP_RET_ERRNO : Z := 0x00050000.
Definition SECCOMP_RET_TRACE : Z := 0x7ff00000.
Definition SECCOMP_RET_ALLOW : Z := 0x7fff0000.
Definition SECCOMP_RET_ACTION : Z := 0x7fff0000.
Definition SECCOMP_RET_DATA : Z := 0x0000ffff.

Definition sizeof_seccomp_data : Z := 64.
Definition MAX_INSNS_PER_PATH : Z := Z.shiftl 1 18 / sizeof_sock_filter.

(** Offsets in [struct seccomp_data]. *)
Definition data_nr : Z := 0.
Definition data_arch : Z := 4.
Definition data_ip : Z := 8.
Definition data_args (n : Z) : Z := 16 + 8 * n.

(** ** Loading system call data *)

(** [((u32 * )&data)[index]] on a little-endian machine. *)
Definition get_u32 (data index : Z) : Z :=
  if index =? 0 then wrap 32 data else wrap 32 (Z.shiftr data 32).

(** Comparisons with [offsetof], a [size_t], convert [off] to 64 bits. *)
Definition seccomp_bpf_load (regs : pt_regs) (off : Z) : option Z :=
  let off := wrap 64 off in
  if off =? data_nr then Some (wrap 32 (reg_nr regs))
  else if off =? data_arch then Some (wrap 32 (reg_arch regs))
  else if (data_args 0 <=? off) && (off <? data_args 6) then
    let arg := (off - data_args 0) / 8 in
    let index := if off mod 8 =? 0 then 0 else 1 in
    value ← rd (reg_args regs) arg;
    Some (get_u32 value index)
  else if off =? data_ip then Some (get_u32 (reg_ip regs) 0)
  else if off =? data_ip + 4 then Some (get_u32 (reg_ip regs) 1)
  else None.

(** ** Checking a filter for seccomp *)

(** The instructions that are allowed as they are. *)
Definition seccomp_allowed (op : bpf_s) : bool :=
  match op with
  | BPF_S_RET_K | BPF_S_RET_A
  | BPF_S_ALU_ADD_K | BPF_S_ALU_ADD_X | BPF_S_ALU_SUB_K | BPF_S_ALU_SUB_X
  | BPF_S_ALU_MUL_K | BPF_S_ALU_MUL_X | BPF_S_ALU_DIV_X
  | BPF_S_ALU_AND_K | BPF_S_ALU_AND_X | BPF_S_ALU_OR_K | BPF_S_ALU_OR_X
  | BPF_S_ALU_LSH_K | BPF_S_ALU_LSH_X | BPF_S_ALU_RSH_K | BPF_S_ALU_RSH_X
  | BPF_S_ALU_NEG
  | BPF_S_LD_IMM | BPF_S_LDX_IMM | BPF_S_MISC_TAX | BPF_S_MISC_TXA
  | BPF_S_ALU_DIV_K | BPF_S_LD_MEM | BPF_S_LDX_MEM | BPF_S_ST | BPF_S_STX
  | BPF_S_JMP_JA | BPF_S_JMP_JEQ_K | BPF_S_JMP_JEQ_X | BPF_S_JMP_JGE_K | BPF_S_JMP_JGE_X
  | BPF_S_JMP_JGT_K | BPF_S_JMP_JGT_X | BPF_S_JMP_JSET_K | BPF_S_JMP_JSET_X => true
  | _ => false
  end.

Definition seccomp_check_insn (pc : Z) (filter : list sock_filter)
  : option (ctl (list sock_filter) (list sock_filter)) :=
  ftest ← rd filter pc;
  let k := sf_k ftest in
  match bpf_s_of (sf_code ftest) with
  | Some BPF_S_LD_W_ABS =>
      f ← wr filter pc (set_code (bpf_s_val BPF_S_ANC_SECCOMP_LD_W) ftest);
      if (sizeof_seccomp_data <=? k) || negb (Z.land k 3 =? 0) then Some (Stop f) else Some (Next f)
  | Some BPF_S_LD_W_LEN =>
      f ← wr filter pc (set_k sizeof_seccomp_data (set_code (bpf_s_val BPF_S_LD_IMM) ftest));
      Some (Next f)
  | Some BPF_S_LDX_W_LEN =>
      f ← wr filter pc (set_k sizeof_seccomp_data (set_code (bpf_s_val BPF_S_LDX_IMM) ftest));
      Some (Next f)
  | Some op => if seccomp_allowed op then Some (Next filter) else Some (Stop filter)
  | None => Some (Stop filter)
  end.

Definition seccomp_check_filter (filter : list sock_filter) (flen : Z)
  : option (Z * list sock_filter) :=
  r ← for_up (Z.to_nat flen) 0 seccomp_check_insn filter;
  Some (match r with Next f => (0, f) | Stop f => (- EINVAL, f) end).

(** ** Running the filters of a task *)

(** [for (f = ...; f; f = f->prev)]: the body sees each filter object. *)
Definition walk {S} (h : heap) (p : option Z) (body : seccomp_filter → S → option S) (s : S)
  : option S :=
  loop (Datatypes.S (size h))
    (λ '(p, s),
       match p with
       | None => Some (Stop s)
       | Some id => f ← h !! id; s' ← body f s; Some (Next (prev f, s'))
       end)
    (p, s).

(** The machine as a seccomp filter sees it: no packet, and the system call data. *)
Definition seccomp_env (env : bpf_env) (regs : pt_regs) : bpf_env :=
  {| env_shl := env_shl env; env_shr := env_shr env; env_cpu := env_cpu env;
     env_seccomp_bpf_load := seccomp_bpf_load regs |}.

Definition seccomp_run_filters (env : bpf_env) (regs : pt_regs) (h : heap) (t : task) : option Z :=
  match filter_ptr t with
  | None => Some SECCOMP_RET_KILL
  | Some _ =>
      walk h (filter_ptr t)
        (λ f ret,
           cur_ret ← sk_run_filter (seccomp_env env regs) None (insns f);
           Some (if Z.land cur_ret SECCOMP_RET_ACTION <? Z.land ret SECCOMP_RET_ACTION
                 then cur_ret else ret))
        SECCOMP_RET_ALLOW
  end.

(** ** Attaching a filter *)

Definition set_filter (p : option Z) (t : task) : task :=
  {| mode := mode t; filter_ptr := p; tif_seccomp := tif_seccomp t; tsc_disabled := tsc_disabled t;
     no_new_privs := no_new_privs t; cap_sys_admin := cap_sys_admin t |}.

(** [mem] is the address [kzalloc] returns (or [None]), [alloc] whether the allocation inside
    [sk_chk_filter] succeeds.  The result is the return value, the objects and the task. *)
Definition seccomp_attach_filter (mem : option Z) (alloc : bool) (fprog : sock_fprog) (h : heap)
    (t : task) : option (Z * heap * task) :=
  if (fprog_len fprog =? 0) || (BPF_MAXINSNS <? fprog_len fprog) then Some (- EINVAL, h, t) else
  total_insns ← walk h (filter_ptr t) (λ f n, Some (n + flen f + 4)) (fprog_len fprog);
  if MAX_INSNS_PER_PATH <? total_insns then Some (- ENOMEM, h, t) else
  if negb (no_new_privs t) && negb (cap_sys_admin t) then Some (- EACCES, h, t) else
  match mem with
  | None => Some (- ENOMEM, h, t)
  | Some id =>
      match copy_insns (fprog_user fprog) (fprog_len fprog) with
      | None => Some (- EFAULT, h, t)
      | Some f =>
          '(ret, f) ← sk_chk_filter alloc f (fprog_len fprog);
          if negb (ret =? 0) then Some (ret, h, t) else
          '(ret, f) ← seccomp_check_filter f (fprog_len fprog);
          if negb (ret =? 0) then Some (ret, h, t) else
          let filter := {| usage := 1; prev := filter_ptr t; flen := fprog_len fprog; insns := f |} in
          Some (0, <[id := filter]> h, set_filter (Some id) t)
      end
  end.

(** [fprog] is [None] when the structure itself cannot be read. *)
Definition seccomp_attach_user_filter (mem : option Z) (alloc : bool) (fprog : option sock_fprog)
    (h : heap) (t : task) : option (Z * heap * task) :=
  match fprog with
  | None => Some (- EFAULT, h, t)
  | Some fprog => seccomp_attach_filter mem alloc fprog h t
  end.

(** ** Reference counts *)

Definition set_usage (n : Z) (f : seccomp_filter) : seccomp_filter :=
  {| usage := n; prev := prev f; flen := flen f; insns := insns f |}.

Definition get_seccomp_filter (h : heap) (tsk : task) : option heap :=
  match filter_ptr tsk with
  | None => Some h
  | Some id => f ← h !! id; Some (<[id := set_usage (usage f + 1) f]> h)
  end.

Definition put_seccomp_filter (h : heap) (tsk : task) : option heap :=
  loop (S (size h))
    (λ '(orig, h),
       match orig with
       | None => Some (Stop h)
       | Some id =>
           f ← h !! id;
           if usage f - 1 =? 0 then Some (Next (prev f, delete id h))
           else Some (Stop (<[id := set_usage (usage f - 1) f]> h))
       end)
    (filter_ptr tsk, h).

(** ** The system call hook *)

(** What else the hook does besides returning. *)
Inductive seccomp_event :=
| Set_return_value (error : Z)
| Rollback
| Send_sigsys (syscall reason : Z)
| Ptrace_event (data : Z)
| Audit (syscall signr code : Z).

(** The hook returns, or the task exits with a signal. *)
Inductive seccomp_outcome :=
| Returns (v : Z)
| Exits (sig : Z).

Definition SIGKILL : Z := 9.
Definition SIGSYS : Z := 31.

(** [do { if ( *syscall == this_syscall) return 0; } while ( *++syscall);] on a
    zero-terminated array. *)
Definition mode1_allows (syscalls : list Z) (this_syscall : Z) : option bool :=
  loop (S (length syscalls))
    (λ i, s ← rd syscalls i;
          if s =? this_syscall then Some (Stop true) else
          next ← rd syscalls (i + 1);
          if next =? 0 then Some (Stop false) else Some (Next (i + 1)))
    0.

(** [traced] is [ptrace_event_enabled(PTRACE_EVENT_SECCOMP)], [fatal] is
    [fatal_signal_pending] after the event. *)
Definition __secure_computing (env : bpf_env) (regs : pt_regs) (h : heap) (t : task)
    (mode1_syscalls : list Z) (traced fatal : bool) (this_syscall : Z)
  : option (list seccomp_event * seccomp_outcome) :=
  if mode t =? SECCOMP_MODE_STRICT then
    ok ← mode1_allows mode1_syscalls this_syscall;
    if ok : bool then Some ([], Returns 0)
    else Some ([Audit this_syscall SIGKILL SECCOMP_RET_KILL], Exits SIGKILL)
  else if mode t =? SECCOMP_MODE_FILTER then
    ret ← seccomp_run_filters env regs h t;
    let data := Z.land ret SECCOMP_RET_DATA in
    let ret := Z.land ret SECCOMP_RET_ACTION in
    let kill := Some ([Audit this_syscall SIGSYS ret], Exits SIGSYS) in
    if ret =? SECCOMP_RET_ERRNO then
      Some ([Set_return_value (- data); Audit this_syscall 0 ret], Returns (-1))
    else if ret =? SECCOMP_RET_TRAP then
      Some ([Rollback; Send_sigsys this_syscall data; Audit this_syscall 0 ret], Returns (-1))
    else if ret =? SECCOMP_RET_TRACE then
      if negb traced then Some ([Audit this_syscall 0 ret], Returns (-1))
      else if fatal then
        Some ([Ptrace_event data; Audit this_syscall SIGSYS ret], Exits SIGSYS)
      else Some ([Ptrace_event data], Returns 0)
    else if ret =? SECCOMP_RET_ALLOW then Some ([], Returns 0)
    else kill
  else None.

(** ** Entering secure computing *)

Definition enter_mode (m : Z) (notsc : bool) (t : task) : task :=
  {| mode := m; filter_ptr := filter_ptr t; tif_seccomp := true;
     tsc_disabled := tsc_disabled t || notsc;
     no_new_privs := no_new_privs t; cap_sys_admin := cap_sys_admin t |}.

Definition prctl_get_seccomp (t : task) : Z := mode t.

Definition prctl_set_seccomp (mem : option Z) (alloc : bool) (seccomp_mode : Z)
    (filter : option sock_fprog) (h : heap) (t : task) : option (Z * heap * task) :=
  if negb (mode t =? 0) && negb (mode t =? seccomp_mode) then Some (- EINVAL, h, t) else
  if seccomp_mode =? SECCOMP_MODE_STRICT then
    Some (0, h, enter_mode seccomp_mode true t)
  else if seccomp_mode =? SECCOMP_MODE_FILTER then
    '(ret, h, t) ← seccomp_attach_user_filter mem alloc filter h t;
    if negb (ret =? 0) then Some (ret, h, t) else
    Some (ret, h, enter_mode seccomp_mode false t)
  else Some (- EINVAL, h, t).
