(* ===== verification/SeccompSafe.v ===== *)
(** * Seccomp filters are safe, and the most restrictive one decides

    What [seccomp_check_filter] adds to the promises of [sk_chk_filter]; the chain of
    filters of a task; the result of [seccomp_run_filters]. *)
From S2P Require Import Prelude Skbuff Bpf BpfSafe BpfPacket Seccomp.

(** ** Checked filters *)

(** What an attached filter satisfies. *)
Definition seccomp_good (f : list sock_filter) : Prop :=
  0 < Z.of_nat (length f) ∧
  (∀ pc ins, rd f pc = Some ins → insn_ok (Z.of_nat (length f)) pc ins) ∧
  closed f ∧ (∃ M, flow_ok f M) ∧
  (∀ ins op, ins ∈ f → bpf_s_of (sf_code ins) = Some op → is_packet op = true →
     op = BPF_S_ANC_SECCOMP_LD_W ∧ sf_k ins < sizeof_seccomp_data ∧ Z.land (sf_k ins) 3 = 0).

(** An instruction without influence on control flow or scratch memory. *)
Definition plain (op : bpf_s) : bool :=
  negb (is_jump op || is_ret op || is_load_mem op || is_store op).

(** How an instruction may be rewritten. *)
Definition rewritten (i i' : sock_filter) : Prop :=
  sf_typed i' ∧ ∃ op op', bpf_s_of (sf_code i) = Some op ∧ bpf_s_of (sf_code i') = Some op' ∧
    (is_packet op' = true → op' = BPF_S_ANC_SECCOMP_LD_W ∧
       sf_k i' < sizeof_seccomp_data ∧ Z.land (sf_k i') 3 = 0) ∧
    (op' = op ∧ i' = i ∨ plain op = true ∧ plain op' = true).

Definition rewrite_inv (f0 : list sock_filter) (pc : Z) (f : list sock_filter) : Prop :=
  length f = length f0 ∧
  (∀ p, pc ≤ p → rd f p = rd f0 p) ∧
  (∀ p i', p < pc → rd f p = Some i' → ∃ i, rd f0 p = Some i ∧ rewritten i i').

Lemma rewrite_step f0 pc f i i' :
  rewrite_inv f0 pc f → rd f pc = Some i → rewritten i i' →
  ∃ f', wr f pc i' = Some f' ∧ rewrite_inv f0 (pc + 1) f'.
Proof.
  intros (Hl & Hge & Hlt) Hi Hrw. apply rd_lt in Hi as Hpc.
  destruct (wr f pc i') as [f'|] eqn:Ew; [|rw wr_in // in Ew].
  exists f'. split; [done|]. split_and!.
  - apply wr_length in Ew. congruence.
  - intros p Hp. rw (rd_wr_ne _ _ _ _ _ Ew); [|lia]. apply Hge. lia.
  - intros p j Hp Hj. destruct (decide (p = pc)) as [->|].
    + rw (rd_wr_eq _ _ _ _ Ew) in Hj. injection Hj as <-. exists i.
      split; [|done]. rewrite <- Hge; [done|lia].
    + rw (rd_wr_ne _ _ _ _ _ Ew) in Hj; [|done]. apply Hlt; [lia|done].
Qed.

Lemma rewrite_keep f0 pc f i :
  rewrite_inv f0 pc f → rd f pc = Some i → rewritten i i → rewrite_inv f0 (pc + 1) f.
Proof.
  intros (Hl & Hge & Hlt) Hi Hrw. split_and!; [done| |].
  - intros p Hp. apply Hge. lia.
  - intros p j Hp Hj. destruct (decide (p = pc)) as [->|]; [|apply Hlt; [lia|done]].
    assert (j = i) as -> by congruence. exists i. rewrite <- Hge; [done|lia].
Qed.

Lemma seccomp_allowed_not_packet op : seccomp_allowed op = true → is_packet op = false.
Proof. by destruct op. Qed.

Lemma seccomp_check_insn_inv f0 pc f :
  (∀ pc ins, rd f0 pc = Some ins → insn_checked (Z.of_nat (length f0)) pc ins) →
  0 ≤ pc < Z.of_nat (length f0) → rewrite_inv f0 pc f →
  (∃ f', seccomp_check_insn pc f = Some (Next f') ∧ rewrite_inv f0 (pc + 1) f') ∨
  (∃ f', seccomp_check_insn pc f = Some (Stop f') ∧ True).
Proof.
  intros Hc Hpc Hinv. pose proof Hinv as (Hl & Hge & _). rw /seccomp_check_insn.
  destruct (rd_in f pc) as [i Hi]; [lia|]. rw Hi. cbn [mbind option_bind].
  destruct (Hc pc i) as (op & Hop & Hty & _); [by rewrite <- Hge; [|lia]|]. rw Hop.
  pose proof Hty as (Hcode & Hjt & Hjf & HK).
  assert (in_width 32 sizeof_seccomp_data) as H64 by (split; vm_compute; congruence).
  destruct (seccomp_allowed op) eqn:Hal.
  { left. exists f. split; [by destruct op|]. eapply rewrite_keep; [done|done|].
    split; [done|]. exists op, op. rw seccomp_allowed_not_packet //. split_and!; try done. by left. }
  assert (∀ op' K', in_width 32 K' → plain op = true → plain op' = true →
    (is_packet op' = true → op' = BPF_S_ANC_SECCOMP_LD_W ∧ K' < sizeof_seccomp_data ∧ Z.land K' 3 = 0) →
    rewritten i {| sf_code := bpf_s_val op'; sf_jt := sf_jt i; sf_jf := sf_jf i; sf_k := K' |}) as Hrw.
  { intros op' K' HK' Hpl Hpl' Hpk. split; [split_and!; try done; apply bpf_s_val_width|].
    exists op, op'. rw bpf_s_of_val. split_and!; try done. by right. }
  destruct op; try discriminate Hal; try (right; by eexists).
  - destruct ((sizeof_seccomp_data <=? sf_k i) || negb (Z.land (sf_k i) 3 =? 0)) eqn:E; zbool.
    + right. rw wr_in; [|lia]. by eexists.
    + left. destruct (rewrite_step f0 pc f i (set_code (bpf_s_val BPF_S_ANC_SECCOMP_LD_W) i))
        as (f' & -> & Hinv'); [done|done|by apply Hrw|]. by exists f'.
  - left. destruct (rewrite_step f0 pc f i
      (set_k sizeof_seccomp_data (set_code (bpf_s_val BPF_S_LD_IMM) i)))
      as (f' & -> & Hinv'); [done|done|by apply Hrw|]. by exists f'.
  - left. destruct (rewrite_step f0 pc f i
      (set_k sizeof_seccomp_data (set_code (bpf_s_val BPF_S_LDX_IMM) i)))
      as (f' & -> & Hinv'); [done|done|by apply Hrw|]. by exists f'.
Qed.

(** A rewritten instruction has the same successors and the same effect on scratch cells. *)
Lemma rewritten_flow i i' op op' pc :
  (op' = op ∧ i' = i) ∨ (plain op = true ∧ plain op' = true) →
  succs op' i' pc = succs op i pc ∧ is_load_mem op' = is_load_mem op ∧ is_store op' = is_store op ∧
  (is_load_mem op = true ∨ is_store op = true ∨ is_jump op = true → i' = i).
Proof.
  intros [[-> ->]|[Hp Hp']]; [done|]. rw /plain in Hp Hp'. zbool.
  assert (∀ o j, is_jump o = false → is_ret o = false → succs o j pc = [pc + 1]) as Hs.
  { intros o j Hj Hr. rw /succs Hr. destruct o; try discriminate Hj; done. }
  rw !Hs //. split_and!; [done|congruence|congruence|]. intros [?|[?|?]]; congruence.
Qed.

Lemma rewrite_good f0 f :
  accepted f0 → rewrite_inv f0 (Z.of_nat (length f0)) f → seccomp_good f.
Proof.
  intros Hacc (Hl & _ & Hrw). pose proof (accepted_closed f0 Hacc) as Hcl.
  destruct Hacc as ([Hlen _] & Hc & _ & M & HM0 & HM).
  assert (∀ pc i', rd f pc = Some i' → ∃ i, rd f0 pc = Some i ∧ rewritten i i') as Hrw'.
  { intros pc i' Hi'. apply Hrw; [|done]. apply rd_lt in Hi'. lia. }
  split_and!; [lia| | | |].
  - intros pc i' Hi'. destruct (Hrw' pc i' Hi') as (i & Hi & Hty & op & op' & Hop & Hop' & _ & Hf).
    destruct (rewritten_flow i i' op op' pc Hf) as (Es & El & Est & Ei).
    destruct (Hc pc i Hi) as (op2 & Hop2 & _ & _ & Hmem & Hjmp).
    assert (op2 = op) as -> by congruence. exists op'. rw Es El Est Hl. split_and!; try done.
    + intros Hm. rw Ei; [by apply Hmem|]. apply orb_true_iff in Hm. tauto.
    + intros Hj. destruct Hf as [[-> ->]|[_ Hp]]; [by apply Hjmp|].
      rw /plain Hj in Hp. discriminate Hp.
  - intros pc i' op' Hi' Hop'. destruct (Hrw' pc i' Hi') as (i & Hi & _ & op & op2 & Hop & Hop2 & _ & Hf).
    assert (op2 = op') as -> by congruence.
    destruct (rewritten_flow i i' op op' pc Hf) as (Es & _). rw Es Hl. by eapply Hcl.
  - exists M. split; [done|]. intros pc i' op' Hi' Hop'.
    destruct (Hrw' pc i' Hi') as (i & Hi & _ & op & op2 & Hop & Hop2 & _ & Hf).
    assert (op2 = op') as -> by congruence.
    destruct (rewritten_flow i i' op op' pc Hf) as (Es & El & Est & Ei).
    destruct (HM pc i op Hi Hop) as [Hload Hsub]. rw Es El. split.
    + intros Hlm. rw Ei; [by apply Hload|by left].
    + rw /out_cells Est. move: Hsub. rw /out_cells. destruct (is_store op) eqn:Hst; [|done].
      by rw Ei; [|right; left].
  - intros i' op' Hin Hop' Hpk. apply list_elem_of_lookup in Hin as [n Hn].
    destruct (Hrw' (Z.of_nat n) i') as (i & Hi & _ & op & op2 & Hop & Hop2 & Hp & _).
    { apply rd_Some. rw Nat2Z.id. split; [lia|done]. }
    assert (op2 = op') as -> by congruence. by apply Hp.
Qed.

Lemma seccomp_check_filter_ok f :
  accepted f →
  ∃ r f', seccomp_check_filter f (Z.of_nat (length f)) = Some (r, f') ∧
    (r = - EINVAL ∨ r = 0 ∧ length f' = length f ∧ seccomp_good f').
Proof.
  intros Hacc. pose proof Hacc as (_ & Hc & _). rw /seccomp_check_filter Nat2Z.id.
  destruct (for_up_inv (rewrite_inv f) (λ _, True) (length f) 0 seccomp_check_insn f)
    as [(f' & -> & Hinv)|(f' & -> & _)].
  - split_and!; [done|done|]. intros p i Hp Hi. apply rd_lt in Hi. lia.
  - intros j s Hj. by apply seccomp_check_insn_inv.
  - cbn. eexists _, _. split; [done|]. right. destruct (Hinv) as (Hl & _).
    split_and!; [done|done|]. by eapply rewrite_good.
  - cbn. eexists _, _. split; [done|]. by left.
Qed.

Lemma get_u32_width d i : in_width 32 (get_u32 d i).
Proof. rw /get_u32. case_if; by apply in_width_wrap. Qed.

#[export] Hint Resolve get_u32_width : width.

(** [seccomp_bpf_load] does not reach its [BUG()] for the offsets the checker lets pass. *)
Lemma seccomp_bpf_load_ok regs off :
  length (reg_args regs) = 6%nat → 0 ≤ off < sizeof_seccomp_data → Z.land off 3 = 0 →
  ∃ v, seccomp_bpf_load regs off = Some v ∧ in_width 32 v.
Proof.
  intros Hargs Hoff Hal. rw /sizeof_seccomp_data in Hoff.
  change 3 with (Z.ones 2) in Hal. rw Z.land_ones // in Hal. change (2 ^ 2) with 4 in Hal.
  rw /seccomp_bpf_load wrap_small.
  2:{ split; [lia|]. change (2 ^ 64) with 18446744073709551616. lia. }
  rw /data_nr /data_arch /data_ip /data_args.
  case_if; [eauto with width|]. case_if; [eauto with width|].
  destruct ((16 + 8 * 0 <=? off) && (off <? 16 + 8 * 6)) eqn:E; zbool.
  - destruct (rd_in (reg_args regs) ((off - (16 + 8 * 0)) / 8)) as [v ->]; [rw Hargs; zdm|].
    cbn [mbind option_bind]. eauto with width.
  - case_if; [eauto with width|]. case_if; [eauto with width|].
    exfalso. destruct E; zbool; zdm.
Qed.

(** A checked filter decides about every system call. *)
Lemma seccomp_filter_runs env regs f :
  env_ok env → length (reg_args regs) = 6%nat → seccomp_good f →
  ∃ r, sk_run_filter (seccomp_env env regs) None f = Some r ∧ in_width 32 r.
Proof.
  intros Henv Hargs (Hlen & Hok & Hcl & (M & HM) & Hpk).
  apply (sk_run_filter_ok _ None f M); try done. intros ins op Hin Hop Hp st Hregs.
  destruct (Hpk ins op Hin Hop Hp) as (-> & Hk & Hal).
  apply list_elem_of_lookup in Hin as [n Hn].
  destruct (Hok (Z.of_nat n) ins) as (op2 & _ & (_ & _ & _ & HK) & _).
  { apply rd_Some. rw Nat2Z.id. split; [lia|done]. }
  destruct HK as [HK _]. rw /sizeof_seccomp_data in Hk. cbn [exec_ld exec_anc].
  rw swrap_small; [|lia|change (2 ^ (32 - 1)) with 2147483648; lia].
  destruct (seccomp_bpf_load_ok regs (sf_k ins)) as (v & E & Hv); [done|by split|done|].
  cbn [seccomp_env env_seccomp_bpf_load]. rw E. cbn [mbind option_bind]. eauto with width.
Qed.

(** ** The filters of a task *)

(** [l] is the list of the filters reached from [p] through [prev]. *)
Inductive chain (h : heap) : option Z → list Z → Prop :=
| Chain_nil : chain h None []
| Chain_cons id f l : h !! id = Some f → chain h (prev f) l → chain h (Some id) (id :: l).

Lemma chain_fun h p l l' : chain h p l → chain h p l' → l = l'.
Proof.
  intros H. revert l'. induction H as [|id f l Hid _ IH]; intros l' H'; inversion H'; subst; [done|].
  f_equal. apply IH. congruence.
Qed.

Lemma chain_suffix h p l id : chain h p l → id ∈ l → ∃ l1 l2, l = l1 ++ id :: l2 ∧ chain h (Some id) (id :: l2).
Proof.
  induction 1 as [|id' f l Hid Hc IH]; intros Hin; [by apply elem_of_nil in Hin|].
  apply elem_of_cons in Hin as [->|Hin].
  - exists [], l. split; [done|]. by eapply Chain_cons.
  - destruct (IH Hin) as (l1 & l2 & -> & Hc2). by exists (id' :: l1), l2.
Qed.

Lemma chain_NoDup h p l : chain h p l → NoDup l.
Proof.
  induction 1 as [|id f l Hid Hc IH]; constructor; [|done]. intros Hin.
  destruct (chain_suffix _ _ _ _ Hc Hin) as (l1 & l2 & E & Hc2).
  assert (id :: l = id :: l2) as E2 by (eapply chain_fun; [by eapply Chain_cons|done]).
  injection E2 as ->. apply (f_equal length) in E. rw length_app /= in E. lia.
Qed.

Lemma chain_dom h p l : chain h p l → ∀ id, id ∈ l → is_Some (h !! id).
Proof.
  induction 1 as [|id f l Hid _ IH]; intros id' Hin; [by apply elem_of_nil in Hin|].
  apply elem_of_cons in Hin as [->|Hin]; [by eexists|by apply IH].
Qed.

(** No chain is longer than the number of objects: the fuel of [walk] is enough. *)
Lemma chain_length h p l : chain h p l → (length l ≤ size h)%nat.
Proof.
  intros Hc. pose proof (chain_NoDup _ _ _ Hc) as Hnd.
  rewrite <- (size_list_to_set (C := gset Z) l Hnd), <- (size_dom (D := gset Z) h).
  apply subseteq_size. intros id Hid. apply elem_of_list_to_set in Hid.
  apply elem_of_dom. by eapply chain_dom.
Qed.

Fixpoint chain_fold {S} (h : heap) (body : seccomp_filter → S → option S) (l : list Z) (s : S)
  : option S :=
  match l with
  | [] => Some s
  | id :: l => f ← h !! id; s' ← body f s; chain_fold h body l s'
  end.

Lemma walk_chain {S} h p l (body : seccomp_filter → S → option S) s :
  chain h p l → walk h p body s = chain_fold h body l s.
Proof.
  intros Hc. pose proof (chain_length _ _ _ Hc) as Hlen. rw /walk.
  assert (length l < Datatypes.S (size h))%nat as Hf by lia. clear Hlen.
  revert Hf. generalize (Datatypes.S (size h)). revert s.
  induction Hc as [|id f l Hid Hc IH]; intros s n Hn; (destruct n as [|n]; [lia|]); cbn; [done|].
  rw Hid. cbn. destruct (body f s) as [s'|]; [|done]. cbn. apply IH. cbn in Hn. lia.
Qed.

(** The verdicts of the filters of a chain on a system call. *)
Definition verdicts (env : bpf_env) (regs : pt_regs) (h : heap) (l rs : list Z) : Prop :=
  Forall2 (λ id r, ∃ f, h !! id = Some f ∧
    sk_run_filter (seccomp_env env regs) None (insns f) = Some r) l rs.

Definition action (r : Z) : Z := Z.land r SECCOMP_RET_ACTION.

Lemma run_chain env regs h l rs ret0 :
  verdicts env regs h l rs →
  ∃ ret, chain_fold h (λ f ret,
      cur_ret ← sk_run_filter (seccomp_env env regs) None (insns f);
      Some (if Z.land cur_ret SECCOMP_RET_ACTION <? Z.land ret SECCOMP_RET_ACTION
            then cur_ret else ret)) l ret0 = Some ret ∧
    ret ∈ ret0 :: rs ∧ Forall (λ r, action ret ≤ action r) (ret0 :: rs).
Proof.
  intros H. revert ret0. induction H as [|id r l rs (f & Hf & Hr) _ IH]; intros ret0; cbn [chain_fold].
  - exists ret0. split_and!; [done|set_solver|]. repeat constructor. lia.
  - rw Hf. cbn [mbind option_bind]. rw Hr. cbn [mbind option_bind].
    fold (action r) (action ret0). set (r' := if action r <? action ret0 then r else ret0).
    destruct (IH r') as (ret & -> & Hin & Hall). exists ret. split; [done|].
    apply Forall_cons in Hall as [Hr' Hall].
    assert (action r' ≤ action r ∧ action r' ≤ action ret0 ∧ (r' = r ∨ r' = ret0)) as (? & ? & Hor)
      by (rw /r'; case_if; (split_and!; [lia|lia|tauto])).
    split.
    + apply elem_of_cons in Hin as [->|Hin]; [|set_solver]. destruct Hor as [->| ->]; set_solver.
    + constructor; [lia|]. constructor; [lia|done].
Qed.

(** The objects of a heap are checked filters. *)
Definition heap_good (h : heap) : Prop := ∀ id f, h !! id = Some f → seccomp_good (insns f).

Lemma verdicts_exist env regs h p l :
  env_ok env → length (reg_args regs) = 6%nat → heap_good h → chain h p l →
  ∃ rs, verdicts env regs h l rs ∧ Forall (in_width 32) rs.
Proof.
  intros Henv Hargs Hg. induction 1 as [|id f l Hid _ (rs & Hv & Hw)]; [exists []; split; constructor|].
  destruct (seccomp_filter_runs env regs (insns f)) as (r & Hr & Hrw); [done|done|by eapply Hg|].
  exists (r :: rs). split; constructor; eauto.
Qed.
