(* ===== verification/SeccompRefs.v ===== *)
(** * The life of seccomp filters

    Tasks enter secure computing, fork and exit; the reference counts of the tree of
    filters always equal the number of pointers, so that no task and no filter
    points to a freed filter and every filter that is kept is in use. *)
From S2P Require Import Prelude Refs Skbuff Bpf BpfSafe BpfPacket Seccomp SeccompSafe.

(** ** The invariant *)

Record kstate := { k_heap : heap; k_tasks : task_map }.

(** [pend] is a reference that has been given up but not yet counted down. *)
Record refs_inv (pend : option Z) (h : heap) (ts : task_map) : Prop := {
  inv_count : ∀ id f, h !! id = Some f →
    usage f = nrefs filter_ptr ts id + nrefs prev h id + hit pend id ∧ 0 < usage f;
  inv_tasks : ∀ tid t id, ts !! tid = Some t → filter_ptr t = Some id → is_Some (h !! id);
  inv_prev : ∀ k f id, h !! k = Some f → prev f = Some id → is_Some (h !! id);
  inv_pend : ∀ id, pend = Some id → is_Some (h !! id);
  inv_chain : ∀ id, is_Some (h !! id) → ∃ l, chain h (Some id) l;
  inv_good : heap_good h
}.

(** ** Chains under updates *)

Lemma chain_delete h id p l :
  p ≠ Some id → (∀ k f, h !! k = Some f → prev f ≠ Some id) → chain h p l → chain (delete id h) p l.
Proof.
  intros Hp Hprev Hc. induction Hc as [|k f l Hk Hc IH]; [constructor|].
  apply Chain_cons with (f := f).
  - rw lookup_delete_ne //. congruence.
  - apply IH. by eapply Hprev.
Qed.

Lemma chain_insert h id f0 p l :
  h !! id = None → chain h p l → chain (<[id := f0]> h) p l.
Proof.
  intros Hid. induction 1 as [|k f l Hk Hc IH]; [constructor|].
  apply Chain_cons with (f := f); [|done]. rw lookup_insert_ne //. congruence.
Qed.

Lemma chain_usage h id f n p l :
  h !! id = Some f → chain h p l → chain (<[id := set_usage n f]> h) p l.
Proof.
  intros Hid. induction 1 as [|k g l Hk Hc IH]; [constructor|].
  destruct (decide (k = id)) as [->|].
  - apply Chain_cons with (f := set_usage n f); [apply lookup_insert_eq|].
    cbn. assert (g = f) as -> by congruence. done.
  - apply Chain_cons with (f := g); [by rw lookup_insert_ne|done].
Qed.

(** Changing a count keeps everything but the count. *)
Lemma refs_inv_usage pend pend' h ts id f n :
  refs_inv pend h ts → h !! id = Some f → 0 < n →
  n = nrefs filter_ptr ts id + nrefs prev h id + hit pend' id →
  (∀ id', id' ≠ id → hit pend' id' = hit pend id') → (∀ id', pend' = Some id' → is_Some (h !! id')) →
  refs_inv pend' (<[id := set_usage n f]> h) ts.
Proof.
  intros Hinv Hid Hn Hcount Hother Hpend.
  assert (∀ id', nrefs prev (<[id := set_usage n f]> h) id' = nrefs prev h id') as Hr.
  { intros id'. rewrite -> (nrefs_replace prev h id f _ id' Hid). cbn. lia. }
  assert (∀ id', is_Some (h !! id') → is_Some (<[id := set_usage n f]> h !! id')) as Hdom.
  { intros id' Hs. apply lookup_insert_is_Some'. by right. }
  destruct Hinv as [Hc Ht Hp _ Hch Hg]. split.
  - intros id' f'. rw Hr. destruct (decide (id' = id)) as [->|Hne].
    + rw lookup_insert_eq. intros [= <-]. done.
    + rw lookup_insert_ne // => Hf'. rw Hother //. by apply Hc.
  - eauto.
  - intros k g id' Hk Hpr. apply Hdom. destruct (decide (k = id)) as [->|Hne].
    + rw lookup_insert_eq in Hk. injection Hk as <-. by eapply Hp.
    + rw lookup_insert_ne // in Hk. by eapply Hp.
  - eauto.
  - intros id' Hs. apply lookup_insert_is_Some' in Hs as Hs'.
    destruct (Hch id') as [l Hl]; [destruct Hs' as [<-|?]; [by eapply mk_is_Some|done]|].
    exists l. by apply chain_usage.
  - intros id' f'. destruct (decide (id' = id)) as [->|Hne].
    + rw lookup_insert_eq. intros [= <-]. exact (Hg id f Hid).
    + rw lookup_insert_ne //. apply Hg.
Qed.

(** ** The operations *)

(** Dropping an object without references hands its reference to [prev] back. *)
Lemma refs_inv_free h ts id f :
  refs_inv (Some id) h ts → h !! id = Some f → usage f = 1 →
  refs_inv (prev f) (delete id h) ts.
Proof.
  intros [Hc Ht Hp _ Hch Hg] Hid Hu. destruct (Hc id f Hid) as [Hcount _].
  rw hit_eq Hu in Hcount.
  assert (nrefs filter_ptr ts id = 0 ∧ nrefs prev h id = 0) as [Ht0 Hp0] by (rw /nrefs in Hcount *; lia).
  assert (∀ k g, h !! k = Some g → prev g ≠ Some id) as Hnp by (intros; by eapply nrefs_none).
  assert (∀ tid t, ts !! tid = Some t → filter_ptr t ≠ Some id) as Hnt
    by (intros; by eapply nrefs_none).
  assert (∀ id', id' ≠ id → is_Some (h !! id') → is_Some (delete id h !! id')) as Hdom
    by (intros; by rw lookup_delete_ne).
  split.
  - intros id' f' [Hne Hf']%lookup_delete_Some. rewrite -> (nrefs_delete prev h id f id' Hid).
    destruct (Hc id' f' Hf') as [Hcount' Hpos]. rw hit_ne in Hcount'; [lia|congruence].
  - intros tid t id' Htt Hf'. apply Hdom; [|by eapply Ht]. intros ->. by eapply Hnt.
  - intros k g id' [_ Hk]%lookup_delete_Some Hpr. apply Hdom; [|by eapply Hp]. intros ->. by eapply Hnp.
  - intros id' Hpr. apply Hdom; [|by eapply Hp]. intros ->. by eapply Hnp.
  - intros id' [g [Hne Hg']%lookup_delete_Some]. destruct (Hch id') as [l Hl]; [by eexists|].
    exists l. apply chain_delete; [congruence|done|done].
  - intros id' f' [_ Hf']%lookup_delete_Some. by eapply Hg.
Qed.

(** [put_seccomp_filter] counts a pending reference down. *)
Lemma put_ok h ts tsk :
  refs_inv (filter_ptr tsk) h ts →
  ∃ h', put_seccomp_filter h tsk = Some h' ∧ refs_inv None h' ts.
Proof.
  intros Hinv. rw /put_seccomp_filter.
  apply (loop_inv (λ '(orig, h), refs_inv orig h ts) (λ '(_, h), size h)); [|done|lia].
  intros [[id|] g] Hi; [|right; by eauto].
  destruct (inv_pend _ _ _ Hi id eq_refl) as [f Hf]. rw Hf. cbn [mbind option_bind].
  destruct (inv_count _ _ _ Hi id f Hf) as [Hcount Hpos]. rw hit_eq in Hcount.
  case_if.
  - left. eexists. split; [done|]. split; [apply refs_inv_free; [done|done|lia]|].
    rw map_size_delete_Some; [|by eexists]. destruct (size g) eqn:E; [|lia].
    apply map_size_empty_inv in E. subst g. done.
  - right. eexists. split; [done|]. apply (refs_inv_usage (Some id) None g ts id f); [done|done|lia| | |done].
    + rw (hit_ne None) //. lia.
    + intros id' Hne. rw !hit_ne //. congruence.
Qed.

(** The reference of an exiting task is pending once the task is gone. *)
Lemma exit_pending h ts tid t :
  refs_inv None h ts → ts !! tid = Some t → refs_inv (filter_ptr t) h (delete tid ts).
Proof.
  intros [Hc Ht Hp _ Hch Hg] Htid. split; [| |done| |done|done].
  - intros id f Hf. destruct (Hc id f Hf) as [Hcount Hpos].
    rewrite -> (nrefs_delete filter_ptr ts tid t id Htid). rw (hit_ne None) // in Hcount. lia.
  - intros tid' t' id [_ Ht']%lookup_delete_Some. by eapply Ht.
  - intros id Hf. by eapply Ht.
Qed.

(** A new task takes a pending reference over. *)
Lemma task_takes h ts cid t :
  refs_inv (filter_ptr t) h ts → ts !! cid = None → refs_inv None h (<[cid := t]> ts).
Proof.
  intros [Hc Ht Hp Hpd Hch Hg] Hcid. split; [| |done|done|done|done].
  - intros id f Hf. rw nrefs_fresh // (hit_ne None) //. destruct (Hc id f Hf). lia.
  - intros tid t' id. destruct (decide (tid = cid)) as [->|].
    + rw lookup_insert_eq. intros [= <-]. apply Hpd.
    + rw lookup_insert_ne //. apply Ht.
Qed.

(** [get_seccomp_filter] for a new task. *)
Lemma get_ok h ts t cid :
  refs_inv None h ts → ts !! cid = None → (∀ id, filter_ptr t = Some id → is_Some (h !! id)) →
  ∃ h', get_seccomp_filter h t = Some h' ∧ refs_inv None h' (<[cid := t]> ts).
Proof.
  intros Hinv Hcid Hptr. rw /get_seccomp_filter.
  destruct (filter_ptr t) as [id|] eqn:Hf.
  - destruct (Hptr id eq_refl) as [f Hid]. rw Hid. cbn [mbind option_bind]. eexists. split; [done|].
    destruct (inv_count _ _ _ Hinv id f Hid) as [Hcount Hpos]. rw (hit_ne None) // in Hcount.
    apply task_takes; [|done]. rw Hf.
    apply (refs_inv_usage None (Some id) h ts id f); [done|done|lia|rw hit_eq; lia| |].
    + intros id' Hne. rw !hit_ne //. congruence.
    + intros id' [= <-]. by eexists.
  - exists h. split; [done|]. apply task_takes; [by rw Hf|done].
Qed.

(** Replacing a task by one with the same filter. *)
Lemma same_filter_ok h ts tid t t' :
  refs_inv None h ts → ts !! tid = Some t → filter_ptr t' = filter_ptr t →
  refs_inv None h (<[tid := t']> ts).
Proof.
  intros Hinv Ht Hf. rewrite <- (insert_delete_eq ts tid t').
  apply task_takes; [|apply lookup_delete_eq]. rw Hf. by apply exit_pending.
Qed.

(** A new filter takes the task's reference to the old one over. *)
Lemma attach_refs h ts tid t id f :
  refs_inv None h ts → ts !! tid = Some t → h !! id = None →
  usage f = 1 → prev f = filter_ptr t → seccomp_good (insns f) →
  refs_inv None (<[id := f]> h) (<[tid := set_filter (Some id) t]> ts).
Proof.
  intros Hinv Htid Hid Hu Hpr Hgood. rewrite <- (insert_delete_eq ts tid).
  apply task_takes; [|apply lookup_delete_eq]. cbn [set_filter filter_ptr].
  pose proof (exit_pending h ts tid t Hinv Htid) as [Hc Ht Hp Hpd Hch Hg].
  assert (∀ id', is_Some (h !! id') → is_Some (<[id := f]> h !! id')) as Hdom
    by (intros; apply lookup_insert_is_Some'; by right).
  assert (∀ p : option Z, (∀ id', p = Some id' → is_Some (h !! id')) → p ≠ Some id) as Hnot.
  { intros p Hs ->. destruct (Hs id eq_refl). congruence. }
  split.
  - intros id' f'. rw nrefs_fresh //. destruct (decide (id' = id)) as [->|Hne].
    + rw lookup_insert_eq. intros [= <-]. rw hit_eq Hu.
      rewrite -> !nrefs_unused, hit_ne; [lia|..].
      * rw Hpr. by apply Hnot.
      * intros k a Hk. apply Hnot. intros id' Ha. exact (Hp k a id' Hk Ha).
      * intros k a Hk. apply Hnot. intros id' Ha. exact (Ht k a id' Hk Ha).
    + rw lookup_insert_ne // => Hf'. rw (hit_ne (Some id)); [|congruence]. rw Hpr Z.add_0_r.
      destruct (Hc id' f' Hf'). lia.
  - intros. apply Hdom. by eapply Ht.
  - intros k g id' Hk Hpg. apply Hdom. destruct (decide (k = id)) as [->|].
    + rw lookup_insert_eq in Hk. injection Hk as <-. apply Hpd. congruence.
    + rw lookup_insert_ne // in Hk. by eapply Hp.
  - intros id' [= <-]. rw lookup_insert_eq. by eexists.
  - intros id' Hs. destruct (decide (id' = id)) as [->|].
    + assert (∃ l, chain h (prev f) l) as [l Hl].
      { rw Hpr. destruct (filter_ptr t) as [q|] eqn:Hq; [by apply Hch, Hpd|exists []; constructor]. }
      exists (id :: l). apply Chain_cons with (f := f); [apply lookup_insert_eq|]. by apply chain_insert.
    + destruct (Hch id') as [l Hl]; [by rw lookup_insert_ne // in Hs|].
      exists l. by apply chain_insert.
  - intros id' f'. destruct (decide (id' = id)) as [->|].
    + rw lookup_insert_eq. by intros [= <-].
    + rw lookup_insert_ne //. apply Hg.
Qed.

(** ** Attaching *)

Definition fprog_typed (fprog : sock_fprog) : Prop :=
  in_width 16 (fprog_len fprog) ∧ Forall sf_typed (fprog_user fprog).

(** The filters of a task are a chain. *)
Lemma task_chain h ts tid t :
  refs_inv None h ts → ts !! tid = Some t → ∃ l, chain h (filter_ptr t) l.
Proof.
  intros Hinv Ht. destruct (filter_ptr t) as [id|] eqn:E; [|exists []; constructor].
  apply (inv_chain _ _ _ Hinv). by eapply (inv_tasks _ _ _ Hinv).
Qed.

Lemma chain_sum h p l n :
  chain h p l → ∃ n', chain_fold h (λ f n, Some (n + flen f + 4)) l n = Some n'.
Proof.
  intros Hc. revert n. induction Hc as [|id f l Hid _ IH]; intros n; cbn; [by eexists|].
  rw Hid. cbn. apply IH.
Qed.

(** What an attach can do: fail without an effect, or put a checked filter in front. *)
Definition attach_result (mem : option Z) (h : heap) (t : task) (r : Z) (h' : heap) (t' : task) : Prop :=
  (r < 0 ∧ h' = h ∧ t' = t) ∨
  (∃ id f, r = 0 ∧ mem = Some id ∧ h' = <[id := f]> h ∧ t' = set_filter (Some id) t ∧
     usage f = 1 ∧ prev f = filter_ptr t ∧ seccomp_good (insns f)).

Lemma attach_result_fail mem h t e : 0 < e → attach_result mem h t (- e) h t.
Proof. intros. left. split_and!; [lia|done|done]. Qed.

#[local] Hint Extern 1 (0 < _) => reflexivity : core.
#[local] Hint Resolve attach_result_fail : core.

Lemma attach_filter_ok mem alloc fprog h l t :
  fprog_typed fprog → chain h (filter_ptr t) l →
  ∃ r h' t', seccomp_attach_filter mem alloc fprog h t = Some (r, h', t') ∧
    attach_result mem h t r h' t'.
Proof.
  intros [[Hlen0 _] Huser] Hc. rw /seccomp_attach_filter. case_if; [eauto 10|].
  rw (walk_chain _ _ _ _ _ Hc). destruct (chain_sum h _ l (fprog_len fprog) Hc) as [n ->].
  cbn [mbind option_bind]. case_if; [eauto 10|]. case_if; [eauto 10|].
  destruct mem as [id|]; [|eauto 10]. rw /copy_insns. case_if; [|eauto 10].
  set (f0 := take _ _). assert (Z.of_nat (length f0) = fprog_len fprog) as Hl
    by (rw /f0 length_take; lia).
  destruct (sk_chk_filter_total alloc f0) as (r & f1 & E & Hr); [by apply Forall_take|].
  rw Hl in E. rw E. cbn [mbind option_bind].
  destruct Hr as [->|[->|(-> & Hl1 & Hacc)]]; [eauto 10|eauto 10|]. cbn [Z.eqb negb].
  destruct (seccomp_check_filter_ok f1 Hacc) as (r2 & f2 & E2 & Hr2). rw Hl1 Hl in E2. rw E2.
  cbn [mbind option_bind]. destruct Hr2 as [->|(-> & _ & Hgood)]; [eauto 10|]. cbn [Z.eqb negb].
  do 3 eexists. split; [done|]. right. do 2 eexists. split_and!; done.
Qed.

Lemma prctl_ok mem alloc m fprog h ts tid t :
  refs_inv None h ts → ts !! tid = Some t → (∀ id, mem = Some id → h !! id = None) →
  (∀ p, fprog = Some p → fprog_typed p) →
  ∃ r h' t', prctl_set_seccomp mem alloc m fprog h t = Some (r, h', t') ∧
    refs_inv None h' (<[tid := t']> ts) ∧
    (mode t ≠ 0 → mode t' = mode t) ∧ (mode t' ≠ mode t → r = 0 ∧ mode t' = m).
Proof.
  intros Hinv Htid Hmem Hty. rw /prctl_set_seccomp.
  assert (∀ r, ∃ r' h' t', Some (r, h, t) = Some (r', h', t') ∧ refs_inv None h' (<[tid := t']> ts) ∧
    (mode t ≠ 0 → mode t' = mode t) ∧ (mode t' ≠ mode t → r' = 0 ∧ mode t' = m)) as Hsame.
  { intros r. exists r, h, t. split_and!; try done. by rw insert_id. }
  assert (negb (mode t =? 0) && negb (mode t =? m) = false → mode t ≠ 0 → m = mode t) as Hmode.
  { intros H Hne. apply andb_false_iff in H as [H|H]; zbool; lia. }
  case_if; [apply Hsame|]. specialize (Hmode eq_refl). case_if.
  { do 3 eexists. split; [done|]. split; [by eapply same_filter_ok|]. cbn. tauto. }
  case_if; [|apply Hsame].
  destruct fprog as [p|]; cbn [seccomp_attach_user_filter]; [|cbn; apply Hsame].
  destruct (task_chain h ts tid t Hinv Htid) as [l Hl].
  destruct (attach_filter_ok mem alloc p h l t) as (r & h' & t' & -> & Hres); [by apply Hty|done|].
  cbn [mbind option_bind].
  destruct Hres as [(Hr & -> & ->)|(id & f & -> & Hm & -> & -> & Hu & Hpr & Hg)].
  - ztest. cbn. apply Hsame.
  - cbn [Z.eqb negb]. do 3 eexists. split; [done|]. split; [|cbn; tauto].
    pose proof (attach_refs h ts tid t id f Hinv Htid (Hmem id Hm) Hu Hpr Hg) as Hi.
    rewrite <- (insert_insert_eq ts tid _ (set_filter (Some id) t)).
    by eapply same_filter_ok; [done|apply lookup_insert_eq|done].
Qed.

(** ** The system *)

(** The kernel's operations on tasks: [prctl], [copy_process] (which duplicates the task and
    calls [get_seccomp_filter]), [free_task] (which calls [put_seccomp_filter]) and changes of
    a task's privileges.  [kzalloc] returns an address that is not in use. *)
Inductive seccomp_step : kstate → kstate → Prop :=
| Step_prctl h ts tid t mem alloc m fprog r h' t' :
    ts !! tid = Some t → (∀ id, mem = Some id → h !! id = None) →
    (∀ p, fprog = Some p → fprog_typed p) →
    prctl_set_seccomp mem alloc m fprog h t = Some (r, h', t') →
    seccomp_step {| k_heap := h; k_tasks := ts |} {| k_heap := h'; k_tasks := <[tid := t']> ts |}
| Step_fork h ts tid t cid h' :
    ts !! tid = Some t → ts !! cid = None → get_seccomp_filter h t = Some h' →
    seccomp_step {| k_heap := h; k_tasks := ts |} {| k_heap := h'; k_tasks := <[cid := t]> ts |}
| Step_exit h ts tid t h' :
    ts !! tid = Some t → put_seccomp_filter h t = Some h' →
    seccomp_step {| k_heap := h; k_tasks := ts |} {| k_heap := h'; k_tasks := delete tid ts |}
| Step_privs h ts tid t t' :
    ts !! tid = Some t → filter_ptr t' = filter_ptr t → mode t' = mode t →
    seccomp_step {| k_heap := h; k_tasks := ts |} {| k_heap := h; k_tasks := <[tid := t']> ts |}.

(** At boot no task has a filter. *)
Definition seccomp_init (st : kstate) : Prop :=
  k_heap st = ∅ ∧ ∀ tid t, k_tasks st !! tid = Some t → filter_ptr t = None ∧ mode t = 0.

Definition reachable (st : kstate) : Prop := ∃ st0, seccomp_init st0 ∧ rtc seccomp_step st0 st.

Lemma init_inv st : seccomp_init st → refs_inv None (k_heap st) (k_tasks st).
Proof.
  destruct st as [h ts]. intros [-> Ht]. cbn in *. split; try done.
  - intros tid t id Htid. destruct (Ht tid t Htid) as [-> _]. done.
  - intros id [f Hf]. done.
Qed.

Lemma step_inv st st' :
  seccomp_step st st' → refs_inv None (k_heap st) (k_tasks st) →
  refs_inv None (k_heap st') (k_tasks st').
Proof.
  intros Hs Hinv. destruct Hs as [h ts tid t mem alloc m fprog r h' t' Ht Hmem Hty E
    |h ts tid t cid h' Ht Hc E|h ts tid t h' Ht E|h ts tid t t' Ht Hf Hm]; cbn [k_heap k_tasks] in *.
  - destruct (prctl_ok mem alloc m fprog h ts tid t) as (r2 & h2 & t2 & E2 & Hi & _); try done.
    rw E in E2. by injection E2 as <- <- <-.
  - destruct (get_ok h ts t cid) as (h2 & E2 & Hi); try done; [|rw E in E2; by injection E2 as <-].
    intros id Hid. by eapply (inv_tasks _ _ _ Hinv).
  - destruct (put_ok h (delete tid ts) t) as (h2 & E2 & Hi); [by apply exit_pending|].
    rw E in E2. by injection E2 as <-.
  - by eapply same_filter_ok.
Qed.

Lemma reachable_inv st : reachable st → refs_inv None (k_heap st) (k_tasks st).
Proof.
  intros (st0 & Hi & Hr). apply init_inv in Hi.
  induction Hr as [|st1 st2 st3 Hs _ IH]; [done|]. apply IH. by eapply step_inv.
Qed.

(** C4: In every reachable state the count of a filter is the number of tasks and filters that
    point to it, it is positive, and every pointer of a task or a filter leads to a filter
    that was not freed. *)
Theorem seccomp_refcounts st :
  reachable st →
  (∀ id f, k_heap st !! id = Some f →
     usage f = nrefs filter_ptr (k_tasks st) id + nrefs prev (k_heap st) id ∧ 0 < usage f) ∧
  (∀ tid t id, k_tasks st !! tid = Some t → filter_ptr t = Some id → is_Some (k_heap st !! id)) ∧
  (∀ k f id, k_heap st !! k = Some f → prev f = Some id → is_Some (k_heap st !! id)).
Proof.
  intros H%reachable_inv. destruct H as [Hc Ht Hp _ _ _]. split_and!; [|done|done].
  intros id f Hf. destruct (Hc id f Hf) as [E ?]. rw (hit_ne None) // in E. lia.
Qed.

(** C8: In a reachable state no seccomp operation of a task faults: entering secure
    computing, forking, exiting and the evaluation of the filters. *)
Theorem seccomp_total st tid t env regs mem alloc m fprog :
  reachable st → k_tasks st !! tid = Some t → env_ok env → length (reg_args regs) = 6%nat →
  (∀ id, mem = Some id → k_heap st !! id = None) → (∀ p, fprog = Some p → fprog_typed p) →
  is_Some (prctl_set_seccomp mem alloc m fprog (k_heap st) t) ∧
  is_Some (get_seccomp_filter (k_heap st) t) ∧ is_Some (put_seccomp_filter (k_heap st) t) ∧
  is_Some (seccomp_run_filters env regs (k_heap st) t).
Proof.
  intros Hinv%reachable_inv Ht Henv Hargs Hmem Hty. split_and!.
  - destruct (prctl_ok mem alloc m fprog (k_heap st) (k_tasks st) tid t) as (r & h' & t' & -> & _); eauto.
  - rw /get_seccomp_filter. destruct (filter_ptr t) as [id|] eqn:E; [|eauto].
    destruct (inv_tasks _ _ _ Hinv tid t id Ht E) as [f ->]. cbn. eauto.
  - destruct (put_ok (k_heap st) (delete tid (k_tasks st)) t) as (h' & -> & _); [|eauto].
    by apply exit_pending.
  - rw /seccomp_run_filters. destruct (task_chain _ _ _ _ Hinv Ht) as [l Hl].
    destruct (verdicts_exist env regs (k_heap st) _ l Henv Hargs (inv_good _ _ _ Hinv) Hl) as (rs & Hv & _).
    destruct (run_chain env regs (k_heap st) l rs SECCOMP_RET_ALLOW Hv) as (ret & E & _).
    rw (walk_chain _ _ _ _ _ Hl) E. destruct (filter_ptr t); eauto.
Qed.
