(* ===== verification/SeccompPolicy.v ===== *)
(** * The policy a task is under

    Which system calls the hook lets pass in each mode, that a further filter can only
    tighten the policy, and that a mode once entered is never left. *)
From S2P Require Import Prelude Refs Skbuff Bpf BpfSafe BpfPacket Seccomp SeccompSafe SeccompRefs.

(** ** A concrete task with one filter *)

(** Allow everything but system call 7, which gets errno 1. *)
Definition demo_insns : list sock_filter :=
  [ {| sf_code := 0x20; sf_jt := 0; sf_jf := 0; sf_k := 0 |};
    {| sf_code := 0x15; sf_jt := 0; sf_jf := 1; sf_k := 7 |};
    {| sf_code := 0x06; sf_jt := 0; sf_jf := 0; sf_k := 0x50001 |};
    {| sf_code := 0x06; sf_jt := 0; sf_jf := 0; sf_k := 0x7fff0000 |} ].

Definition demo_fprog : sock_fprog := {| fprog_len := 4; fprog_user := demo_insns |}.

Definition demo_task : task :=
  {| mode := 0; filter_ptr := None; tif_seccomp := false; tsc_disabled := false;
     no_new_privs := true; cap_sys_admin := false |}.

Definition demo_enter : heap * task :=
  match prctl_set_seccomp (Some 100) true SECCOMP_MODE_FILTER (Some demo_fprog) ∅ demo_task with
  | Some (_, h, t) => (h, t)
  | None => (∅, demo_task)
  end.

Definition demo_state : kstate :=
  {| k_heap := demo_enter.1; k_tasks := <[1 := demo_enter.2]> {[1 := demo_task]} |}.

Definition demo_regs (nr : Z) : pt_regs :=
  {| reg_nr := nr; reg_arch := 62; reg_ip := 4096; reg_args := [0; 0; 0; 0; 0; 0] |}.

Lemma demo_typed : fprog_typed demo_fprog.
Proof. split; [split; vm_compute; congruence|typed_concrete]. Qed.

Lemma demo_reachable : reachable demo_state.
Proof.
  exists {| k_heap := ∅; k_tasks := {[1 := demo_task]} |}. split.
  - split; [done|]. cbn [k_tasks]. intros tid t [<- <-]%lookup_singleton_Some. done.
  - apply rtc_once. apply (Step_prctl _ _ 1 demo_task (Some 100) true SECCOMP_MODE_FILTER
      (Some demo_fprog) 0).
    + apply lookup_singleton_eq.
    + intros id _. apply lookup_empty.
    + intros p [= <-]. apply demo_typed.
    + vm_compute. reflexivity.
Qed.

Lemma demo_lookup : k_tasks demo_state !! 1 = Some demo_enter.2.
Proof. apply lookup_insert_eq. Qed.

(** ** The strictest filter decides *)

Lemma run_filters_chain env regs h t l rs :
  chain h (filter_ptr t) l → verdicts env regs h l rs → l ≠ [] →
  ∃ ret, seccomp_run_filters env regs h t = Some ret ∧
    ret ∈ SECCOMP_RET_ALLOW :: rs ∧ Forall (λ r, action ret ≤ action r) (SECCOMP_RET_ALLOW :: rs).
Proof.
  intros Hc Hv Hne. rw /seccomp_run_filters.
  destruct (run_chain env regs h l rs SECCOMP_RET_ALLOW Hv) as (ret & E & Hin & Hall).
  rw (walk_chain _ _ _ _ _ Hc) E. exists ret. destruct (filter_ptr t) eqn:Ef; [done|].
  inversion Hc; subst. done.
Qed.

(** The action part of a verdict never exceeds that of [SECCOMP_RET_ALLOW]. *)
Lemma action_bounds r : 0 ≤ action r ≤ SECCOMP_RET_ALLOW.
Proof. split; [by apply Z.land_nonneg; right|by apply land_le_r]. Qed.

(** C5: The filters of a task of a reachable state all run, and the result is the verdict of one
    of them with the least action, or [SECCOMP_RET_ALLOW] when no filter is stricter: the action of
    the result is the minimum of the actions of all the filters. *)
Theorem strictest_filter_decides st tid t env regs :
  reachable st → k_tasks st !! tid = Some t → filter_ptr t ≠ None →
  env_ok env → length (reg_args regs) = 6%nat →
  ∃ l rs ret, chain (k_heap st) (filter_ptr t) l ∧ verdicts env regs (k_heap st) l rs ∧
    seccomp_run_filters env regs (k_heap st) t = Some ret ∧
    ret ∈ SECCOMP_RET_ALLOW :: rs ∧ Forall (λ r, action ret ≤ action r) rs.
Proof.
  intros Hinv%reachable_inv Ht Hf Henv Hargs.
  destruct (task_chain _ _ _ _ Hinv Ht) as [l Hl].
  destruct (verdicts_exist env regs (k_heap st) _ l Henv Hargs (inv_good _ _ _ Hinv) Hl) as (rs & Hv & _).
  destruct (run_filters_chain env regs _ t l rs Hl Hv) as (ret & E & Hin & Hall).
  { intros ->. inversion Hl. congruence. }
  exists l, rs, ret. apply Forall_cons in Hall as [_ Hall]. split_and!; done.
Qed.

Lemma strictest_filter_decides_witness :
  ∃ l rs ret, chain (k_heap demo_state) (filter_ptr demo_enter.2) l ∧
    verdicts x86_env (demo_regs 7) (k_heap demo_state) l rs ∧
    seccomp_run_filters x86_env (demo_regs 7) (k_heap demo_state) demo_enter.2 = Some ret ∧
    ret ∈ SECCOMP_RET_ALLOW :: rs ∧ Forall (λ r, action ret ≤ action r) rs.
Proof.
  apply (strictest_filter_decides demo_state 1 demo_enter.2 x86_env (demo_regs 7)).
  - exact demo_reachable.
  - exact demo_lookup.
  - vm_compute. congruence.
  - exact x86_env_ok.
  - reflexivity.
Defined.

Example demo_denied :
  seccomp_run_filters x86_env (demo_regs 7) (k_heap demo_state) demo_enter.2 = Some 0x50001.
Proof. vm_compute. reflexivity. Qed.

Example demo_allowed :
  seccomp_run_filters x86_env (demo_regs 8) (k_heap demo_state) demo_enter.2 = Some SECCOMP_RET_ALLOW.
Proof. vm_compute. reflexivity. Qed.

Lemma seccomp_refcounts_witness :
  reachable demo_state ∧
  (∀ id f, k_heap demo_state !! id = Some f →
     usage f = nrefs filter_ptr (k_tasks demo_state) id + nrefs prev (k_heap demo_state) id ∧
     0 < usage f).
Proof. split; [exact demo_reachable|exact (proj1 (seccomp_refcounts demo_state demo_reachable))]. Defined.

Lemma seccomp_total_witness :
  is_Some (prctl_set_seccomp (Some 101) true SECCOMP_MODE_FILTER (Some demo_fprog)
    (k_heap demo_state) demo_enter.2) ∧
  is_Some (get_seccomp_filter (k_heap demo_state) demo_enter.2) ∧
  is_Some (put_seccomp_filter (k_heap demo_state) demo_enter.2) ∧
  is_Some (seccomp_run_filters x86_env (demo_regs 7) (k_heap demo_state) demo_enter.2).
Proof.
  apply (seccomp_total demo_state 1 demo_enter.2 x86_env (demo_regs 7) (Some 101) true
    SECCOMP_MODE_FILTER (Some demo_fprog)).
  - exact demo_reachable.
  - exact demo_lookup.
  - exact x86_env_ok.
  - reflexivity.
  - intros id [= <-]. vm_compute. reflexivity.
  - intros p [= <-]. exact demo_typed.
Defined.

(** ** A further filter only tightens the policy *)

Lemma verdicts_insert env regs h id f l rs :
  h !! id = None → verdicts env regs h l rs → verdicts env regs (<[id := f]> h) l rs.
Proof.
  intros Hid Hv. eapply Forall2_impl; [exact Hv|]. intros k r (g & Hg & Hr). exists g.
  split; [|done]. rw lookup_insert_ne //. congruence.
Qed.

(** C7: When a task that is under filters attaches another one, the action for every system call
    stays the same or becomes stricter. *)
Theorem attach_tightens st tid t env regs mem alloc fprog h' t' old :
  reachable st → k_tasks st !! tid = Some t → env_ok env → length (reg_args regs) = 6%nat →
  (∀ id, mem = Some id → k_heap st !! id = None) → fprog_typed fprog →
  filter_ptr t ≠ None → seccomp_run_filters env regs (k_heap st) t = Some old →
  prctl_set_seccomp mem alloc SECCOMP_MODE_FILTER (Some fprog) (k_heap st) t = Some (0, h', t') →
  ∃ new, seccomp_run_filters env regs h' t' = Some new ∧ action new ≤ action old.
Proof.
  intros Hinv%reachable_inv Ht Henv Hargs Hmem Hty Hf Hold.
  destruct (task_chain _ _ _ _ Hinv Ht) as [l Hl].
  destruct (verdicts_exist env regs (k_heap st) _ l Henv Hargs (inv_good _ _ _ Hinv) Hl) as (rs & Hv & _).
  assert (l ≠ []) as Hne by (intros ->; inversion Hl; congruence).
  destruct (run_filters_chain env regs _ t l rs Hl Hv Hne) as (ret & E & Hin & Hall).
  assert (ret = old) as -> by congruence. clear E.
  rw /prctl_set_seccomp. case_if; [done|]. cbn [Z.eqb SECCOMP_MODE_FILTER SECCOMP_MODE_STRICT Pos.eqb].
  cbn [seccomp_attach_user_filter].
  destruct (attach_filter_ok mem alloc fprog (k_heap st) l t) as (r & h1 & t1 & -> & Hres); [done|done|].
  cbn [mbind option_bind].
  destruct Hres as [(Hr & -> & ->)|(id & f & -> & Hm & -> & -> & Hu & Hpr & Hg)].
  { ztest. cbn [negb]. intros [= ->]. lia. }
  cbn [Z.eqb negb]. intros [= <- <-].
  destruct (seccomp_filter_runs env regs (insns f) Henv Hargs Hg) as (r & Hr & _).
  specialize (Hmem id Hm).
  destruct (run_filters_chain env regs (<[id := f]> (k_heap st))
    (enter_mode SECCOMP_MODE_FILTER false (set_filter (Some id) t)) (id :: l) (r :: rs))
    as (new & -> & Hin' & Hall').
  - cbn. apply Chain_cons with (f := f); [apply lookup_insert_eq|]. rw Hpr. by apply chain_insert.
  - constructor; [exists f; split; [apply lookup_insert_eq|done]|]. by apply verdicts_insert.
  - done.
  - exists new. split; [done|]. rewrite -> Forall_forall in Hall'. apply Hall'.
    apply elem_of_cons in Hin as [->|Hin]; set_solver.
Qed.

Definition demo_second : heap * task :=
  match prctl_set_seccomp (Some 101) true SECCOMP_MODE_FILTER (Some demo_fprog)
          (k_heap demo_state) demo_enter.2 with
  | Some (_, h, t) => (h, t)
  | None => (∅, demo_task)
  end.

Lemma attach_tightens_witness :
  ∃ new, seccomp_run_filters x86_env (demo_regs 7) demo_second.1 demo_second.2 = Some new ∧
    action new ≤ action 0x50001.
Proof.
  apply (attach_tightens demo_state 1 demo_enter.2 x86_env (demo_regs 7) (Some 101) true demo_fprog
    demo_second.1 demo_second.2 0x50001).
  - exact demo_reachable.
  - exact demo_lookup.
  - exact x86_env_ok.
  - reflexivity.
  - intros id [= <-]. vm_compute. reflexivity.
  - exact demo_typed.
  - vm_compute. congruence.
  - vm_compute. reflexivity.
  - vm_compute. reflexivity.
Defined.

(** ** Modes *)

(** The mode of a task along the steps of the system. *)
Lemma step_mode st st' tid t t' :
  refs_inv None (k_heap st) (k_tasks st) → seccomp_step st st' →
  k_tasks st !! tid = Some t → k_tasks st' !! tid = Some t' → mode t ≠ 0 → mode t' = mode t.
Proof.
  intros Hinv Hs Ht Ht' Hm. destruct Hs as [h ts tid2 t2 mem alloc m fprog r h' t3 Ht2 Hmem Hty E
    |h ts tid2 t2 cid h' Ht2 Hc E|h ts tid2 t2 h' Ht2 E|h ts tid2 t2 t3 Ht2 Hf Hmd];
    cbn [k_heap k_tasks] in *.
  - destruct (decide (tid = tid2)) as [->|Hne]; [|rw lookup_insert_ne // in Ht'; congruence].
    rw lookup_insert_eq in Ht'. injection Ht' as ->. assert (t2 = t) as -> by congruence.
    destruct (prctl_ok mem alloc m fprog h ts tid2 t) as (r2 & h2 & t2 & E2 & _ & Hmode & _); try done.
    rw E in E2. injection E2 as <- <- <-. by apply Hmode.
  - destruct (decide (tid = cid)) as [->|Hne]; [congruence|]. rw lookup_insert_ne // in Ht'. congruence.
  - apply lookup_delete_Some in Ht' as [_ Ht']. congruence.
  - destruct (decide (tid = tid2)) as [->|Hne]; [|rw lookup_insert_ne // in Ht'; congruence].
    rw lookup_insert_eq in Ht'. injection Ht' as ->. assert (t2 = t) as -> by congruence. done.
Qed.

(** Secure computing is permanent: whatever the tasks of the system do, a task that has entered
    a mode is in the same mode in every later state in which it exists. *)
Theorem mode_is_permanent st st' tid t :
  reachable st → rtc (λ a b, seccomp_step a b ∧ is_Some (k_tasks b !! tid)) st st' →
  k_tasks st !! tid = Some t → mode t ≠ 0 →
  ∃ t', k_tasks st' !! tid = Some t' ∧ mode t' = mode t.
Proof.
  intros Hinv%reachable_inv Hr. revert t Hinv.
  induction Hr as [st|st1 st2 st3 [Hs [t2 Ht2]] _ IH]; intros t Hinv Ht Hm; [by eauto|].
  pose proof (step_mode st1 st2 tid t t2 Hinv Hs Ht Ht2 Hm) as Hm2.
  destruct (IH t2) as (t3 & ? & ?); [by eapply step_inv|done|congruence|].
  exists t3. split; [done|congruence].
Qed.

Lemma mode_is_permanent_witness :
  ∃ t', k_tasks demo_state !! 1 = Some t' ∧ mode t' = mode demo_enter.2.
Proof.
  apply (mode_is_permanent demo_state demo_state 1 demo_enter.2).
  - exact demo_reachable.
  - apply rtc_refl.
  - exact demo_lookup.
  - vm_compute. congruence.
Defined.

(** ** The hook *)

(** Scanning the zero-terminated table of mode 1. *)
Lemma mode1_scan s0 l this :
  Forall (λ s, s ≠ 0) l →
  mode1_allows (s0 :: l ++ [0]) this = Some (bool_decide (this ∈ s0 :: l)).
Proof.
  intros Hnz. set (tbl := s0 :: l ++ [0]). set (n := Z.of_nat (length (s0 :: l))).
  assert (∀ i, 0 ≤ i < n → rd tbl i = (s0 :: l) !! Z.to_nat i) as Hlow.
  { intros i Hi. rw /rd. rw /n in Hi. cbn [length] in Hi. rw /tbl /= length_app /=. ztest.
    change (s0 :: l ++ [0]) with ((s0 :: l) ++ [0]). apply lookup_app_l. cbn. lia. }
  assert (rd tbl n = Some 0) as Hend.
  { apply rd_Some. split; [lia|]. rw /n Nat2Z.id. change tbl with ((s0 :: l) ++ [0]).
    by rw lookup_app_r // Nat.sub_diag. }
  destruct (loop_inv (λ i, 0 ≤ i < n ∧ ∀ j, 0 ≤ j < i → (s0 :: l) !! Z.to_nat j ≠ Some this)
    (λ i, Z.to_nat (n - i)) (λ b, b = bool_decide (this ∈ s0 :: l))
    (λ i, s ← rd tbl i; if s =? this then Some (Stop true) else
          next ← rd tbl (i + 1); if next =? 0 then Some (Stop false) else Some (Next (i + 1)))
    (S (length tbl)) 0) as (b & E & ->); [|split; [rw /n /=; lia|lia]| |exact E].
  2:{ rw /n /tbl /= length_app /=. lia. }
  intros i [Hi Hno]. rw (Hlow i Hi). destruct (lookup_lt_is_Some_2 (s0 :: l) (Z.to_nat i)) as [s Hs];
    [rw /n in Hi; lia|]. rw Hs. cbn [mbind option_bind]. destruct (Z.eqb_spec s this) as [->|Hne].
  { right. eexists. split; [done|]. rw bool_decide_eq_true_2 //. by eapply list_elem_of_lookup_2. }
  destruct (decide (i + 1 = n)) as [En|].
  - rw En Hend. cbn. right. eexists. split; [done|]. rw bool_decide_eq_false_2 //.
    intros [j Hj]%list_elem_of_lookup. apply lookup_lt_Some in Hj as Hlt.
    destruct (decide (Z.of_nat j = i)) as [<-|]; [rw Nat2Z.id in Hs; congruence|].
    apply (Hno (Z.of_nat j)); [rw /n in En; lia|by rw Nat2Z.id].
  - rw Hlow; [|lia]. destruct (lookup_lt_is_Some_2 (s0 :: l) (Z.to_nat (i + 1))) as [s' Hs'];
      [rw /n in Hi; lia|]. rw Hs'. cbn [mbind option_bind].
    replace (Z.to_nat (i + 1)) with (S (Z.to_nat i)) in Hs' by lia. cbn in Hs'.
    pose proof (Forall_lookup_1 _ _ _ _ Hnz Hs') as Hs0. cbn in Hs0. ztest.
    left. eexists. split; [done|]. split; [|lia]. split; [lia|]. intros j Hj.
    destruct (decide (j = i)) as [->|]; [congruence|]. apply Hno. lia.
Qed.

(** In mode 1 the hook lets exactly the listed system calls pass and kills the task with
    [SIGKILL] for every other one (the table starts with any number and is terminated by the
    first zero after it). *)
Theorem mode1_exact env regs h t s0 l traced fatal this :
  mode t = SECCOMP_MODE_STRICT → Forall (λ s, s ≠ 0) l →
  __secure_computing env regs h t (s0 :: l ++ [0]) traced fatal this =
  Some (if bool_decide (this ∈ s0 :: l) then ([], Returns 0)
        else ([Audit this SIGKILL SECCOMP_RET_KILL], Exits SIGKILL)).
Proof.
  intros Hm Hnz. rw /__secure_computing Hm mode1_scan //. cbn. by case_bool_decide.
Qed.

(** The x86-64 table: read, write, exit, rt_sigreturn. *)
Lemma mode1_exact_witness :
  __secure_computing x86_env (demo_regs 2) ∅ (enter_mode SECCOMP_MODE_STRICT true demo_task)
    (0 :: [1; 60; 15] ++ [0]) false false 2 =
  Some ([Audit 2 SIGKILL SECCOMP_RET_KILL], Exits SIGKILL).
Proof.
  apply (mode1_exact x86_env (demo_regs 2) ∅ (enter_mode SECCOMP_MODE_STRICT true demo_task)
    0 [1; 60; 15] false false 2).
  - reflexivity.
  - repeat (constructor; [congruence|]). constructor.
Defined.

(** In mode 2, without a tracer, the hook lets a system call pass if and only if every filter of
    the task says [SECCOMP_RET_ALLOW]; otherwise the call is not made. *)
Theorem filter_mode_allows st tid t env regs mode1 fatal this :
  reachable st → k_tasks st !! tid = Some t → filter_ptr t ≠ None →
  mode t = SECCOMP_MODE_FILTER → env_ok env → length (reg_args regs) = 6%nat →
  ∃ l rs ev out, chain (k_heap st) (filter_ptr t) l ∧ verdicts env regs (k_heap st) l rs ∧
    __secure_computing env regs (k_heap st) t mode1 false fatal this = Some (ev, out) ∧
    (out = Returns 0 ↔ Forall (λ r, action r = SECCOMP_RET_ALLOW) rs).
Proof.
  intros Hinv%reachable_inv Ht Hf Hm Henv Hargs.
  destruct (task_chain _ _ _ _ Hinv Ht) as [l Hl].
  destruct (verdicts_exist env regs (k_heap st) _ l Henv Hargs (inv_good _ _ _ Hinv) Hl) as (rs & Hv & _).
  destruct (run_filters_chain env regs _ t l rs Hl Hv) as (ret & E & Hin & Hall).
  { intros ->. inversion Hl. congruence. }
  apply Forall_cons in Hall as [Hle Hall]. exists l, rs.
  assert (action ret = SECCOMP_RET_ALLOW ↔ Forall (λ r, action r = SECCOMP_RET_ALLOW) rs) as Hiff.
  { split.
    - intros Ha. eapply Forall_impl; [exact Hall|]. intros r Hr. cbn in Hr.
      pose proof (action_bounds r). lia.
    - intros Hrs. apply elem_of_cons in Hin as [->|Hin]; [done|].
      by apply (proj1 (Forall_forall _ _) Hrs). }
  rw /__secure_computing Hm. cbn [Z.eqb SECCOMP_MODE_FILTER SECCOMP_MODE_STRICT Pos.eqb].
  rw E. cbn [mbind option_bind]. fold (action ret).
  set (body := if action ret =? SECCOMP_RET_ERRNO then _ else _).
  assert (∃ ev out, body = Some (ev, out) ∧ (out = Returns 0 ↔ action ret = SECCOMP_RET_ALLOW))
    as (ev & out & -> & Ho); [|exists ev, out; split_and!; try done; by rw Ho].
  rw /body /SECCOMP_RET_ERRNO /SECCOMP_RET_TRAP /SECCOMP_RET_TRACE /SECCOMP_RET_ALLOW.
  repeat case_if; cbn [negb]; do 2 eexists; (split; [done|]); (split; [congruence|]); done || lia.
Qed.

Lemma filter_mode_allows_witness :
  ∃ l rs ev out, chain (k_heap demo_state) (filter_ptr demo_enter.2) l ∧
    verdicts x86_env (demo_regs 8) (k_heap demo_state) l rs ∧
    __secure_computing x86_env (demo_regs 8) (k_heap demo_state) demo_enter.2 [0; 0] false false 8 =
      Some (ev, out) ∧
    (out = Returns 0 ↔ Forall (λ r, action r = SECCOMP_RET_ALLOW) rs).
Proof.
  apply (filter_mode_allows demo_state 1 demo_enter.2 x86_env (demo_regs 8) [0; 0] false 8).
  - exact demo_reachable.
  - exact demo_lookup.
  - vm_compute. congruence.
  - vm_compute. reflexivity.
  - exact x86_env_ok.
  - reflexivity.
Defined.
