(* ===== verification/Sort.v ===== *)
(** * Heap sort and binary search: lib/sort.c and lib/bsearch.c

    The array is the list of its elements.  The counters are byte offsets, scaled by the
    element size as in the source; an access at an offset that is not a multiple of
    the size or outside the array is a fault. *)
From S2P Require Import Prelude.

(** ** Swapping bytes *)

(** [generic_swap] on two places of one object: [size] rounds (at least one) of a
    byte exchange. *)
Definition generic_swap (mem : list Z) (a b size : Z) : option (list Z) :=
  '(mem, _, _, _) ← loop (S (Z.to_nat size))
    (λ '(mem, a, b, size),
       t ← rd mem a;
       y ← rd mem b;
       mem ← wr mem a y;
       mem ← wr mem b t;
       let size := size - 1 in
       if 0 <? size then Some (Next (mem, a + 1, b + 1, size))
       else Some (Stop (mem, a + 1, b + 1, size)))
    (mem, a, b, size);
  Some mem.

(** ** Heap sort *)

Section sort.
Context {A : Type} (cmp_func : A → A → Z) (size : Z).

(** The element at a byte offset. *)
Definition at_offset (l : list A) (off : Z) : option A :=
  if off mod size =? 0 then rd l (off / size) else None.

(** [swap_func(base + a, base + b, size)]: the two elements are exchanged. *)
Definition swap_func (l : list A) (a b : Z) : option (list A) :=
  x ← at_offset l a;
  y ← at_offset l b;
  l ← wr l (a / size) y;
  wr l (b / size) x.

(** The inner loop [for (r = ...; r * 2 + size < n; r = c)] of both phases: the larger
    child moves up until the element fits. *)
Definition sift_down (l : list A) (r n : Z) : option (list A) :=
  loop (S (length l))
    (λ '(l, r),
       if r * 2 + size <? n then
         let c := r * 2 + size in
         c ← (if c <? n - size then
                x ← at_offset l c;
                y ← at_offset l (c + size);
                Some (if cmp_func x y <? 0 then c + size else c)
              else Some c);
         x ← at_offset l r;
         y ← at_offset l c;
         if 0 <=? cmp_func x y then Some (Stop l) else
         l ← swap_func l r c;
         Some (Next (l, c))
       else Some (Stop l))
    (l, r).

(** [num] elements; [i] and [n] are [int], computed from [size_t] values. *)
Definition sort (l : list A) (num : Z) : option (list A) :=
  let i := swrap 32 (wrap 64 (wrap 64 (num / 2 - 1) * size)) in
  let n := swrap 32 (wrap 64 (num * size)) in
  l ← loop (S (S (length l)))
    (λ '(l, i),
       if 0 <=? i then l ← sift_down l i n; Some (Next (l, i - size)) else Some (Stop l))
    (l, i);
  loop (S (S (length l)))
    (λ '(l, i),
       if 0 <? i then
         l ← swap_func l 0 i;
         l ← sift_down l 0 i;
         Some (Next (l, i - size))
       else Some (Stop l))
    (l, n - size).
End sort.

(** ** Binary search *)

(** The byte offset of the element found, [Some None] for null. *)
Definition bsearch {K A} (cmp : K → A → Z) (key : K) (base : list A) (num size : Z)
  : option (option Z) :=
  loop (S (Z.to_nat num))
    (λ '(start, end_),
       if start <? end_ then
         let mid := start + (end_ - start) / 2 in
         elt ← at_offset size base (mid * size);
         let result := cmp key elt in
         if result <? 0 then Some (Next (start, mid))
         else if 0 <? result then Some (Next (mid + 1, end_))
         else Some (Stop (Some (mid * size)))
       else Some (Stop None))
    (0, num).

Example sort_example :
  sort (λ a b, a - b) 8 [5; 3; 9; 1; 5; 2; 8] 7 = Some [1; 2; 3; 5; 5; 8; 9].
Proof. vm_compute. reflexivity. Qed.

(** ** Binary search is correct *)

(** The answers of the comparison along an ascending array: positive before the place of the
    key, negative behind it. *)
Definition ascending_for {K A} (cmp : K → A → Z) (key : K) (base : list A) : Prop :=
  ∀ i j x y, (i ≤ j)%nat → base !! i = Some x → base !! j = Some y →
    (cmp key x < 0 → cmp key y < 0) ∧ (0 < cmp key y → 0 < cmp key x).

Lemma at_offset_mul {A} size (l : list A) k :
  0 < size → at_offset size l (k * size) = rd l k.
Proof. intros. rw /at_offset Z.mod_mul ?Z.div_mul; [|lia..]. done. Qed.

(** [bsearch] on an array that ascends for the key terminates without leaving the array; it
    returns an element that compares equal to the key, or null when there is none. *)
Theorem bsearch_correct {K A} (cmp : K → A → Z) key (base : list A) size :
  0 < size → ascending_for cmp key base →
  ∃ r, bsearch cmp key base (Z.of_nat (length base)) size = Some r ∧
    match r with
    | Some off => ∃ i x, off = i * size ∧ rd base i = Some x ∧ cmp key x = 0
    | None => Forall (λ x, cmp key x ≠ 0) base
    end.
Proof.
  intros Hs Hasc. set (n := Z.of_nat (length base)). rw /bsearch.
  apply (loop_inv
    (λ '(start, end_), 0 ≤ start ≤ end_ ∧ end_ ≤ n ∧
       (∀ i x, base !! i = Some x → Z.of_nat i < start → 0 < cmp key x) ∧
       (∀ i x, base !! i = Some x → end_ ≤ Z.of_nat i → cmp key x < 0))
    (λ '(start, end_), Z.to_nat (end_ - start))).
  - intros [start end_] (Hse & Hen & Hlo & Hhi).
    destruct (start <? end_) eqn:E; zbool.
    2:{ right. eexists. split; [done|]. apply Forall_lookup_2. intros i x Hx Hz.
        destruct (Z.lt_ge_cases (Z.of_nat i) start); [specialize (Hlo i x Hx)|specialize (Hhi i x Hx)]; lia. }
    rw at_offset_mul //. set (mid := start + (end_ - start) / 2).
    assert (start ≤ mid < end_) as Hmid by (rw /mid; zdm).
    destruct (rd_in base mid) as [x Hx]; [lia|]. rw Hx. cbn [mbind option_bind].
    apply rd_Some in Hx as Hx'. destruct Hx' as [_ Hx'].
    repeat case_if.
    + left. eexists. split; [done|]. split; [|lia]. split_and!; [lia|lia|lia|done|].
      intros i y Hy Hi. destruct (Hasc (Z.to_nat mid) i x y) as [Hn _]; [lia|done|done|lia].
    + left. eexists. split; [done|]. split; [|lia]. split_and!; [lia|lia|lia| |done].
      intros i y Hy Hi. destruct (Hasc i (Z.to_nat mid) y x) as [_ Hp]; [lia|done|done|lia].
    + right. eexists. split; [done|]. exists mid, x. split_and!; [done|done|lia].
  - split_and!; [lia|lia|lia| |]; intros i x Hx%lookup_lt_Some Hi; lia.
  - lia.
Qed.

Lemma bsearch_correct_witness :
  ∃ r, bsearch Z.sub 7 [2; 3; 5; 7; 11] (Z.of_nat (length [2; 3; 5; 7; 11])) 4 = Some r ∧
    match r with
    | Some off => ∃ i x, off = i * 4 ∧ rd [2; 3; 5; 7; 11] i = Some x ∧ 7 - x = 0
    | None => Forall (λ x, 7 - x ≠ 0) [2; 3; 5; 7; 11]
    end.
Proof.
  apply (bsearch_correct Z.sub 7 [2; 3; 5; 7; 11] 4); [lia|].
  intros i j x y Hij Hx Hy.
  assert (x ≤ y); [|lia].
  do 5 (destruct i as [|i]; [do 5 (destruct j as [|j]; [cbn in *; first [lia|simplify_eq; lia]|]); done|]).
  done.
Defined.

(** ** Heap sort is correct *)

(** What [moved] keeps: the elements below [n] are rearranged, the others stay. *)
Definition moved {A} (n : Z) (l l' : list A) : Prop :=
  length l' = length l ∧ take (Z.to_nat n) l' ≡ₚ take (Z.to_nat n) l ∧
  drop (Z.to_nat n) l' = drop (Z.to_nat n) l.

Lemma moved_refl {A} n (l : list A) : moved n l l.
Proof. done. Qed.

Lemma moved_trans {A} n (l1 l2 l3 : list A) : moved n l1 l2 → moved n l2 l3 → moved n l1 l3.
Proof. intros (? & P1 & ?) (? & P2 & ?). split_and!; [congruence|by rw P2|congruence]. Qed.

Lemma moved_perm {A} n (l l' : list A) : moved n l l' → l' ≡ₚ l.
Proof.
  intros (_ & P & D). rewrite <- (take_drop (Z.to_nat n) l'), <- (take_drop (Z.to_nat n) l), D.
  by rw P.
Qed.

(** A property of all the elements below [n] survives, the elements above keep their place. *)
Lemma moved_all {A} n (l l' : list A) (P : A → Prop) :
  moved n l l' → (∀ i x, i < n → rd l i = Some x → P x) → ∀ i x, i < n → rd l' i = Some x → P x.
Proof.
  intros (_ & Hp & _) H i x Hi [Hi0 Hx]%rd_Some.
  assert (x ∈ take (Z.to_nat n) l) as Hin.
  { rewrite <- Hp. apply list_elem_of_lookup. exists (Z.to_nat i). rw lookup_take_lt //. lia. }
  apply list_elem_of_lookup in Hin as [j Hj]. apply lookup_take_Some in Hj as [Hj Hlt].
  apply (H (Z.of_nat j)); [lia|]. apply rd_Some. rw Nat2Z.id. split; [lia|done].
Qed.

Lemma moved_above {A} n (l l' : list A) i : moved n l l' → 0 ≤ n ≤ i → rd l' i = rd l i.
Proof.
  intros (Hl & _ & Hd) Hi. rw /rd Hl. case_if; [|done].
  replace (Z.to_nat i) with (Z.to_nat n + Z.to_nat (i - n))%nat by lia.
  by rewrite <- !lookup_drop, Hd.
Qed.

Section heapsort.
Context {A : Type} (cmp : A → A → Z) (size : Z).
Hypothesis Hsize : 0 < size.
(** The comparison is a total preorder. *)
Hypothesis Hsign : ∀ x y, cmp x y < 0 ↔ 0 < cmp y x.
Hypothesis Htrans : ∀ x y z, cmp x y ≤ 0 → cmp y z ≤ 0 → cmp x z ≤ 0.

Definition ge_at (l : list A) (i j : Z) : Prop :=
  ∀ x y, rd l i = Some x → rd l j = Some y → cmp y x ≤ 0.

Definition child (i j : Z) : Prop := j = 2 * i + 1 ∨ j = 2 * i + 2.

(** The heap property of the first [n] elements from index [k] on, except at [r]. *)
Definition heap_except (l : list A) (k n r : Z) : Prop :=
  ∀ i j, k ≤ i → i ≠ r → child i j → j < n → ge_at l i j.

Definition is_heap (l : list A) (k n : Z) : Prop :=
  ∀ i j, k ≤ i → child i j → j < n → ge_at l i j.

Lemma ge_trans (l : list A) i j k : is_Some (rd l j) → ge_at l i j → ge_at l j k → ge_at l i k.
Proof using Htrans. intros [y Hy] H1 H2 x z Hx Hz. eapply Htrans; [by apply H2|by apply H1]. Qed.

Lemma ltb_scale a b : (a * size <? b * size) = (a <? b).
Proof using Hsize. apply Bool.eq_true_iff_eq. rw !Z.ltb_lt. nia. Qed.

Lemma swap_ok (l : list A) a b n x y :
  rd l a = Some x → rd l b = Some y → a ≠ b → a < n → b < n →
  ∃ l', swap_func size l (a * size) (b * size) = Some l' ∧ moved n l l' ∧
    rd l' a = Some y ∧ rd l' b = Some x ∧ ∀ i, i ≠ a → i ≠ b → rd l' i = rd l i.
Proof using Hsize.
  intros Ha Hb Hne Han Hbn. apply rd_lt in Ha as Hal. apply rd_lt in Hb as Hbl.
  rw /swap_func !at_offset_mul // Ha Hb !Z.div_mul; [|lia..]. cbn [mbind option_bind].
  destruct (wr l a y) as [l1|] eqn:E1; [|rw wr_in // in E1]. cbn [mbind option_bind].
  pose proof (wr_length _ _ _ _ E1) as Hl1.
  destruct (wr l1 b x) as [l2|] eqn:E2; [|rw wr_in // in E2; lia].
  exists l2. split; [done|]. split; [|split_and!].
  - apply wr_Some in E1 as [_ ->]. apply wr_Some in E2 as [_ ->].
    split_and!; [by rw !length_insert| |rw !drop_insert_lt //; lia].
    rewrite -> !take_insert_lt by lia. apply rd_Some in Ha as [? Ha]. apply rd_Some in Hb as [? Hb].
    apply Permutation_insert_swap; rw lookup_take_lt //; lia.
  - rw (rd_wr_ne _ _ _ _ _ E2) //. by eapply rd_wr_eq.
  - by eapply rd_wr_eq.
  - intros i Hia Hib. rw (rd_wr_ne _ _ _ _ _ E2) //. by rw (rd_wr_ne _ _ _ _ _ E1).
Qed.

(** The larger child. *)
Lemma pick_child (l : list A) r n :
  0 ≤ r → 2 * r + 1 < n → n ≤ Z.of_nat (length l) →
  ∃ c, (if (2 * r + 1) * size <? n * size - size then
          x ← at_offset size l ((2 * r + 1) * size);
          y ← at_offset size l ((2 * r + 1) * size + size);
          Some (if cmp x y <? 0 then (2 * r + 1) * size + size else (2 * r + 1) * size)
        else Some ((2 * r + 1) * size)) = Some (c * size) ∧
    child r c ∧ c < n ∧ ∀ j, child r j → j < n → ge_at l c j.
Proof using Hsize Hsign.
  intros Hr Hn Hl. replace (n * size - size) with ((n - 1) * size) by lia.
  replace ((2 * r + 1) * size + size) with ((2 * r + 2) * size) by lia. rw ltb_scale !at_offset_mul //.
  assert (∀ x, cmp x x ≤ 0) as Hrefl by (intros x; pose proof (Hsign x x); lia).
  destruct (2 * r + 1 <? n - 1) eqn:E; zbool.
  - destruct (rd_in l (2 * r + 1)) as [x Hx]; [lia|]. destruct (rd_in l (2 * r + 2)) as [y Hy]; [lia|].
    rw Hx Hy. cbn [mbind option_bind]. pose proof (Hsign x y) as Hxy. pose proof (Hsign y x) as Hyx. case_if.
    + exists (2 * r + 2). split; [done|]. split; [by right|]. split; [lia|].
      intros j [->| ->] Hj a b Ha Hb; simplify_eq; [lia|apply Hrefl].
    + exists (2 * r + 1). split; [done|]. split; [by left|]. split; [lia|].
      intros j [->| ->] Hj a b Ha Hb; simplify_eq; [apply Hrefl|lia].
  - exists (2 * r + 1). split; [done|]. split; [by left|]. split; [lia|].
    intros j [->| ->] Hj a b Ha Hb; simplify_eq; [apply Hrefl|lia].
Qed.

(** The state of the inner loop. *)
Definition sift_inv (l0 : list A) (k n r : Z) (l : list A) : Prop :=
  k ≤ r ∧ moved n l0 l ∧ heap_except l k n r ∧
  ∀ p j, k ≤ p → child p r → child r j → j < n → ge_at l p j.

Lemma sift_swap (l0 : list A) k n r l c x y :
  0 ≤ k → sift_inv l0 k n r l → n ≤ Z.of_nat (length l0) → child r c → c < n →
  (∀ j, child r j → j < n → ge_at l c j) → rd l r = Some x → rd l c = Some y → cmp x y < 0 →
  ∃ l', swap_func size l (r * size) (c * size) = Some l' ∧ sift_inv l0 k n c l'.
Proof using Hsize Hsign.
  intros Hk (Hkr & Hmv & Hh & Hg) Hn Hc Hcn Hbig Hx Hy Hlt.
  assert (r < c) as Hrc by (destruct Hc; lia).
  destruct (swap_ok l r c n x y) as (l' & E & Hmv' & Hr' & Hc' & Hoth); [done|done|lia|lia|done|].
  exists l'. split; [done|]. split_and!; [lia|by eapply moved_trans| |].
  - intros i j Hi Hic Hij Hj. destruct (decide (i = r)) as [->|Hir].
    + intros a b Ha Hb. assert (a = y) as -> by congruence.
      destruct (decide (j = c)) as [->|Hjc]; [assert (b = x) as -> by congruence; lia|].
      rewrite -> Hoth in Hb by (destruct Hij; lia). by eapply Hbig.
    + intros a b Ha Hb. rewrite -> Hoth in Ha by done.
      destruct (decide (j = r)) as [->|Hjr].
      * assert (b = y) as -> by congruence. by eapply (Hg i c).
      * assert (j ≠ c) as Hjc by (intros ->; destruct Hij, Hc; lia).
        rewrite -> Hoth in Hb by done. by eapply (Hh i j).
  - intros p j Hp Hpc Hcj Hj a b Ha Hb. assert (p = r) as -> by (destruct Hpc, Hc; lia).
    assert (a = y) as -> by congruence.
    rewrite -> Hoth in Hb by (destruct Hcj, Hc; lia).
    eapply (Hh c j); [lia|lia|done|done|done|done].
Qed.

Lemma sift_down_ok (l : list A) k n :
  0 ≤ k → n ≤ Z.of_nat (length l) → heap_except l k n k →
  ∃ l', sift_down cmp size l (k * size) (n * size) = Some l' ∧ moved n l l' ∧ is_heap l' k n.
Proof using All.
  intros Hk Hn Hh. rw /sift_down.
  apply (loop_inv (λ '(l', ro), ∃ r, ro = r * size ∧ sift_inv l k n r l')
    (λ '(_, ro), Z.to_nat (Z.of_nat (length l) - ro / size)));
    [|exists k; split; [done|]; rw /sift_inv; split_and!;
      [lia|apply moved_refl|done|intros p j Hp [?|?]; lia]|rewrite -> Z.div_mul by lia; lia].
  intros [l' ro] (r & -> & Hinv). pose proof Hinv as (Hkr & Hmv & Hhe & Hg).
  destruct (Hmv) as [Hlen _]. replace (r * size * 2 + size) with ((2 * r + 1) * size) by lia.
  rw ltb_scale. destruct (2 * r + 1 <? n) eqn:E; zbool.
  2:{ right. eexists. split; [done|]. split; [done|]. intros i j Hi Hij Hj.
      apply Hhe; [done| |done|done]. intros ->. destruct Hij; lia. }
  destruct (pick_child l' r n) as (c & Ec & Hc & Hcn & Hbig); [lia|lia|lia|]. rw Ec.
  cbn [mbind option_bind]. rw !at_offset_mul //. assert (r < c) as Hrc by (destruct Hc; lia).
  destruct (rd_in l' r) as [x Hx]; [lia|]. destruct (rd_in l' c) as [y Hy]; [lia|].
  rw Hx Hy. cbn [mbind option_bind]. case_if.
  - right. eexists. split; [done|]. split; [done|]. intros i j Hi Hij Hj.
    destruct (decide (i = r)) as [->|]; [|by apply Hhe].
    eapply ge_trans; [by eexists| |by apply Hbig]. intros a b Ha Hb.
    assert (a = x ∧ b = y) as [-> ->] by (split; congruence).
    pose proof (Hsign x y). pose proof (Hsign y x). lia.
  - left. destruct (sift_swap l k n r l' c x y) as (l'' & -> & Hinv'); try done.
    eexists. split; [done|]. split; [by exists c|]. rewrite -> !Z.div_mul by lia. lia.
Qed.

(** The first phase makes a heap. *)
Lemma heapify_ok (l : list A) :
  let n := Z.of_nat (length l) in
  ∃ l', loop (S (S (length l)))
    (λ '(l, i), if 0 <=? i then l ← sift_down cmp size l i (n * size); Some (Next (l, i - size))
                else Some (Stop l)) (l, (n / 2 - 1) * size) = Some l' ∧
    moved n l l' ∧ is_heap l' 0 n.
Proof using All.
  intros n. apply (loop_inv
    (λ '(l', io), ∃ i, io = (i - 1) * size ∧ 0 ≤ i ≤ n ∧ moved n l l' ∧ is_heap l' i n)
    (λ '(_, io), Z.to_nat (io / size + 1))).
  - intros [l' io] (i & -> & Hi & Hmv & Hh). destruct (Hmv) as [Hlen _].
    replace (0 <=? (i - 1) * size) with (0 <? i) by (apply Bool.eq_true_iff_eq; rw Z.ltb_lt Z.leb_le; nia).
    destruct (0 <? i) eqn:E; zbool.
    + left. destruct (sift_down_ok l' (i - 1) n) as (l2 & -> & Hmv2 & Hh2); [lia|lia| |].
      { intros a b Ha Hne Hab Hb. apply Hh; [lia|done|done]. }
      eexists. split; [done|]. split.
      * exists (i - 1). split_and!; [lia|lia|lia|by eapply moved_trans|done].
      * replace ((i - 1) * size - size) with ((i - 2) * size) by lia. rewrite -> !Z.div_mul by lia. lia.
    + right. eexists. split; [done|]. split; [done|]. by replace 0 with i by lia.
  - exists (n / 2). split_and!; [lia|zdm|zdm|apply moved_refl|].
    intros i j Hi Hij Hj. destruct Hij; zdm.
  - rewrite -> Z.div_mul by lia. zdm.
Qed.

(** In a heap the first element is the largest. *)
Lemma heap_top (l : list A) n i :
  is_heap l 0 n → 0 ≤ i < n → n ≤ Z.of_nat (length l) → ge_at l 0 i.
Proof using All.
  intros Hh Hi Hn. revert Hi. induction i as [i IH] using (well_founded_induction (Z.lt_wf 0)). intros Hi.
  destruct (decide (i = 0)) as [->|Hne].
  - intros x y Hx Hy. assert (y = x) as -> by congruence. pose proof (Hsign x x). lia.
  - eapply (ge_trans _ _ ((i - 1) / 2)); [apply rd_in; zdm|apply IH; zdm|].
    apply Hh; [zdm| |lia]. rw /child. zdm.
Qed.

(** [l] is sorted from index [m] on, and nothing below [m] is larger than what follows. *)
Definition tail_sorted (l : list A) (m : Z) : Prop :=
  ∀ i j, i < j → m ≤ j → ge_at l j i.

(** One round of the second phase. *)
Lemma sort_round (l : list A) m :
  0 < m → m < Z.of_nat (length l) → is_heap l 0 (m + 1) → tail_sorted l (m + 1) →
  ∃ l1 l2, swap_func size l 0 (m * size) = Some l1 ∧
    sift_down cmp size l1 0 (m * size) = Some l2 ∧ l2 ≡ₚ l ∧ length l2 = length l ∧
    is_heap l2 0 m ∧ tail_sorted l2 m.
Proof using All.
  intros Hm Hml Hh Ht. destruct (rd_in l 0) as [x Hx]; [lia|]. destruct (rd_in l m) as [y Hy]; [lia|].
  destruct (swap_ok l 0 m (m + 1) x y) as (l1 & E1 & Hmv1 & H0 & Hm1 & Hoth); [done|done|lia|lia|lia|].
  destruct (sift_down_ok l1 0 m) as (l2 & E2 & Hmv2 & Hh2).
  { lia. }
  { destruct Hmv1. lia. }
  { intros i j Hi Hne Hij Hj a b Ha Hb. rewrite -> (Hoth i) in Ha by (destruct Hij; lia).
    rewrite -> (Hoth j) in Hb by (destruct Hij; lia). eapply (Hh i j); [done|done|lia|done|done]. }
  exists l1, l2. split; [done|]. split; [done|].
  split; [rw (moved_perm _ _ _ Hmv2) (moved_perm _ _ _ Hmv1) //|].
  split; [destruct Hmv1, Hmv2; congruence|]. split; [done|].
  assert (∀ i a, i < m → rd l2 i = Some a → cmp a x ≤ 0) as Hlow.
  { eapply moved_all; [exact Hmv2|]. intros i a Hi Ha. apply rd_lt in Ha as Hi'.
    destruct (decide (i = 0)) as [->|].
    - assert (a = y) as -> by congruence. eapply (heap_top l (m + 1) m); [done|lia|lia|done|done].
    - rewrite -> Hoth in Ha by lia. eapply (heap_top l (m + 1) i); [done|lia|lia|done|done]. }
  assert (∀ j, m ≤ j → rd l2 j = rd l1 j) as Habove
    by (intros j Hj; apply (moved_above m); [done|lia]).
  intros i j Hij Hj a b Ha Hb. rewrite -> Habove in Ha by done.
  destruct (decide (j = m)) as [->|Hjm].
  - assert (a = x) as -> by congruence. by eapply Hlow.
  - apply rd_lt in Hb as Hi0. rewrite -> Hoth in Ha by lia. destruct (Z.lt_ge_cases i m) as [Him|Him].
    + eapply (Htrans _ x); [by eapply Hlow|]. eapply (Ht 0 j); [lia|lia|done|done].
    + rewrite -> Habove in Hb by done. destruct (decide (i = m)) as [->|].
      * assert (b = x) as -> by congruence. eapply (Ht 0 j); [lia|lia|done|done].
      * rewrite -> Hoth in Hb by lia. eapply (Ht i j); [lia|lia|done|done].
Qed.

Lemma sort_phase_ok (l : list A) :
  let n := Z.of_nat (length l) in
  is_heap l 0 n →
  ∃ l', loop (S (S (length l)))
    (λ '(l, i), if 0 <? i then l ← swap_func size l 0 i; l ← sift_down cmp size l 0 i; Some (Next (l, i - size))
                else Some (Stop l)) (l, n * size - size) = Some l' ∧
    l' ≡ₚ l ∧ tail_sorted l' 0.
Proof using All.
  intros n Hheap. apply (loop_inv
    (λ '(l', io), ∃ m, io = (m - 1) * size ∧ m ≤ n ∧ l' ≡ₚ l ∧ length l' = length l ∧
       is_heap l' 0 m ∧ tail_sorted l' m)
    (λ '(_, io), Z.to_nat (io / size + 1))).
  - intros [l' io] (m & -> & Hmn & Hp & Hl & Hh & Ht).
    replace (0 <? (m - 1) * size) with (1 <? m) by (apply Bool.eq_true_iff_eq; rw !Z.ltb_lt; nia).
    destruct (1 <? m) eqn:E; zbool.
    + left. destruct (sort_round l' (m - 1)) as (l1 & l2 & -> & E2 & Hp2 & Hl2 & Hh2 & Ht2).
      { lia. } { lia. } { by replace (m - 1 + 1) with m by lia. } { by replace (m - 1 + 1) with m by lia. }
      cbn [mbind option_bind]. rw E2. cbn [mbind option_bind]. eexists. split; [done|]. split.
      * exists (m - 1). split_and!; [lia|lia|by rw Hp2|congruence|done|done].
      * replace ((m - 1) * size - size) with ((m - 2) * size) by lia. rewrite -> !Z.div_mul by lia. lia.
    + right. eexists. split; [done|]. split; [done|]. intros i j Hij Hj a b Ha Hb.
      apply rd_lt in Hb as Hi. eapply (Ht i j); [done|lia|done|done].
  - exists n. split_and!; [lia|lia|done|done|done|]. intros i j _ Hj a b Ha. apply rd_lt in Ha. lia.
  - replace (n * size - size) with ((n - 1) * size) by lia. rewrite -> Z.div_mul by lia. lia.
Qed.
End heapsort.

(** Conversion of a 64-bit value to [int]. *)
Lemma swrap_wrap x : swrap 32 (wrap 64 x) = swrap 32 x.
Proof.
  rw /swrap /wrap. f_equal. change (2 ^ 64) with (2 ^ 32 * 2 ^ 32).
  rewrite -> Z.rem_mul_r by lia. rewrite <- Z.add_assoc, (Z.add_comm (2 ^ 32 * _)), Z.add_assoc.
  rewrite -> Z.mul_comm, Z.mod_add by lia. by rw Zplus_mod_idemp_l.
Qed.

(** C24: [sort] with a comparison that is a total preorder terminates on every array whose size in bytes
    fits an [int], without an access outside the array; the result is a rearrangement of the
    elements in ascending order. *)
Theorem sort_correct {A} (cmp : A → A → Z) size (l : list A) :
  0 < size < 2 ^ 31 → Z.of_nat (length l) * size < 2 ^ 31 →
  (∀ x y, cmp x y < 0 ↔ 0 < cmp y x) →
  (∀ x y z, cmp x y ≤ 0 → cmp y z ≤ 0 → cmp x z ≤ 0) →
  ∃ l', sort cmp size l (Z.of_nat (length l)) = Some l' ∧ l' ≡ₚ l ∧
    ∀ i j x y, (i < j)%nat → l' !! i = Some x → l' !! j = Some y → cmp x y ≤ 0.
Proof.
  intros Hs Hn Hsign Htrans. rw /sort. set (n := Z.of_nat (length l)) in *.
  assert (∀ x, - 2 ^ 31 ≤ x < 2 ^ 31 → swrap 32 (wrap 64 x) = x) as Hint.
  { intros x Hx. rw swrap_wrap. by apply swrap_small. }
  rw {1}/wrap /wrap Zmult_mod_idemp_l. fold (wrap 64 ((n / 2 - 1) * size)). fold (wrap 64 (n * size)).
  change (2 ^ 31) with 2147483648 in *. rw (Hint (n * size)); [|nia].
  assert (-1 ≤ n / 2 - 1 ≤ n) by zdm. rw (Hint ((n / 2 - 1) * size)); [|nia].
  pose proof (heapify_ok cmp size ltac:(lia) Hsign Htrans l) as Hheap. cbv zeta in Hheap.
  fold n in Hheap. destruct Hheap as (l1 & -> & Hmv & Hh).
  cbn [mbind option_bind]. destruct (Hmv) as [Hl1 _].
  assert (n = Z.of_nat (length l1)) as En by lia. rw En in Hh *.
  destruct (sort_phase_ok cmp size ltac:(lia) Hsign Htrans l1 Hh) as (l2 & -> & Hp & Ht).
  exists l2. split; [done|]. split; [rw Hp; by eapply moved_perm|]. intros i j x y Hij Hx Hy.
  eapply (Ht (Z.of_nat i) (Z.of_nat j)); [lia|lia| |]; apply rd_Some; rw Nat2Z.id; (split; [lia|done]).
Qed.

Lemma sort_correct_witness :
  ∃ l', sort (λ a b, a - b) 8 [5; 3; 9; 1] (Z.of_nat (length [5; 3; 9; 1])) = Some l' ∧
    l' ≡ₚ [5; 3; 9; 1] ∧
    ∀ i j x y, (i < j)%nat → l' !! i = Some x → l' !! j = Some y → x - y ≤ 0.
Proof.
  apply (sort_correct (λ a b, a - b) 8 [5; 3; 9; 1]).
  - lia.
  - cbn. lia.
  - intros x y. lia.
  - intros x y z. lia.
Defined.

(** [generic_swap] exchanges two disjoint byte ranges of the same object and leaves every other
    byte alone. *)
Lemma generic_swap_exchanges mem a b size :
  0 < size → 0 ≤ a → 0 ≤ b → a + size ≤ Z.of_nat (length mem) → b + size ≤ Z.of_nat (length mem) →
  a + size ≤ b ∨ b + size ≤ a →
  ∃ mem', generic_swap mem a b size = Some mem' ∧ length mem' = length mem ∧
    (∀ i, 0 ≤ i < size → rd mem' (a + i) = rd mem (b + i) ∧ rd mem' (b + i) = rd mem (a + i)) ∧
    (∀ i, ¬ a ≤ i < a + size → ¬ b ≤ i < b + size → rd mem' i = rd mem i).
Proof.
  intros Hs Ha Hb Hla Hlb Hdis. rw /generic_swap.
  set (I := λ '(m, a', b', s'), ∃ d, 0 ≤ d < size ∧ a' = a + d ∧ b' = b + d ∧ s' = size - d ∧
    length m = length mem ∧
    ∀ i, rd m i = if (a <=? i) && (i <? a + d) then rd mem (b + (i - a))
                  else if (b <=? i) && (i <? b + d) then rd mem (a + (i - b)) else rd mem i).
  match goal with |- context [loop _ ?body _] =>
    destruct (loop_inv I (λ '(_, _, _, s), Z.to_nat s) (λ '(m, _, _, _), length m = length mem ∧
      ∀ i, rd m i = if (a <=? i) && (i <? a + size) then rd mem (b + (i - a))
                    else if (b <=? i) && (i <? b + size) then rd mem (a + (i - b)) else rd mem i)
      body (S (Z.to_nat size)) (mem, a, b, size)) as ([[[m ?] ?] ?] & -> & Hl & Hm) end.
  - intros [[[m a'] b'] s'] (d & Hd & -> & -> & -> & Hl & Hm).
    destruct (rd_in m (a + d)) as [t Ht]; [lia|]. destruct (rd_in m (b + d)) as [y Hy]; [lia|].
    rw Ht Hy. cbn [mbind option_bind].
    destruct (wr m (a + d) y) as [m1|] eqn:E1; [|rw wr_in // in E1; lia]. cbn [mbind option_bind].
    pose proof (wr_length _ _ _ _ E1) as Hl1.
    destruct (wr m1 (b + d) t) as [m2|] eqn:E2; [|rw wr_in // in E2; lia]. cbn [mbind option_bind].
    pose proof (wr_length _ _ _ _ E2) as Hl2.
    assert (∀ i, rd m2 i = if (a <=? i) && (i <? a + d + 1) then rd mem (b + (i - a))
              else if (b <=? i) && (i <? b + d + 1) then rd mem (a + (i - b)) else rd mem i) as Hm2.
    { assert (rd m (a + d) = rd mem (a + d) ∧ rd m (b + d) = rd mem (b + d)) as [Hra Hrb]
        by (rw !Hm; destruct Hdis; split; ztest; done).
      intros i. rw Hra in Ht. rw Hrb in Hy.
      destruct (decide (i = b + d)) as [->|Hib].
      { rw (rd_wr_eq _ _ _ _ E2). destruct Hdis; ztest; rewrite <- Ht; f_equal; lia. }
      rw (rd_wr_ne _ _ _ _ _ E2) //. destruct (decide (i = a + d)) as [->|Hia].
      { rw (rd_wr_eq _ _ _ _ E1). destruct Hdis; ztest; rewrite <- Hy; f_equal; lia. }
      rw (rd_wr_ne _ _ _ _ _ E1) // Hm.
      assert ((i <? a + d + 1) = (i <? a + d)) as -> by (apply Bool.eq_true_iff_eq; rw !Z.ltb_lt; lia).
      by assert ((i <? b + d + 1) = (i <? b + d)) as -> by (apply Bool.eq_true_iff_eq; rw !Z.ltb_lt; lia). }
    case_if.
    + left. eexists. split; [done|]. split; [|lia]. exists (d + 1).
      split_and!; [lia|lia|lia|lia|lia|congruence|]. intros i. rw Hm2 !Z.add_assoc //.
    + right. eexists. split; [done|]. split; [congruence|]. intros i.
      rw Hm2. by replace size with (d + 1) by lia; rw !Z.add_assoc.
  - exists 0. split_and!; [lia|lia|lia|lia|lia|done|]. intros i. rw !Z.add_0_r. repeat case_if; lia || done.
  - lia.
  - cbn [mbind option_bind]. eexists. split; [done|]. split_and!; [done| |].
    + intros i Hi. rw !Hm. destruct Hdis; ztest; split; f_equal; lia.
    + intros i Hia Hib. rw Hm. repeat case_if; lia || done.
Qed.

Lemma generic_swap_exchanges_witness :
  ∃ mem', generic_swap [1; 2; 3; 4; 5; 6] 0 3 2 = Some mem' ∧ length mem' = 6%nat ∧
    (∀ i, 0 ≤ i < 2 → rd mem' (0 + i) = rd [1; 2; 3; 4; 5; 6] (3 + i) ∧
                       rd mem' (3 + i) = rd [1; 2; 3; 4; 5; 6] (0 + i)) ∧
    (∀ i, ¬ 0 ≤ i < 0 + 2 → ¬ 3 ≤ i < 3 + 2 → rd mem' i = rd [1; 2; 3; 4; 5; 6] i).
Proof.
  apply (generic_swap_exchanges [1; 2; 3; 4; 5; 6] 0 3 2); cbn; lia.
Defined.
