(* ===== verification/PrioHeap.v ===== *)
(** * The bounded priority heap: lib/prio_heap.c

    A heap of at most [max] pointers with the greatest on top: inserting into a full heap
    drops the greatest of the old and the new pointers. *)
From S2P Require Import Prelude Sort.

Section prio_heap.
Context {A : Type} (gt : A → A → bool).

(** [struct ptr_heap]: [ptrs] is the whole allocated array. *)
Record ptr_heap := { ptrs : list A; heap_size : Z; heap_max : Z }.

(** [mem] is what [kmalloc] returns: the (arbitrary) contents of [size] bytes of pointers. *)
Definition heap_init (mem : option (list A)) (size : Z) : Z * option ptr_heap :=
  match mem with
  | None => (- ENOMEM, None)
  | Some m => (0, Some {| ptrs := m; heap_size := 0; heap_max := size / 8 |})
  end.

(** The insertion loop: move the hole at [pos] up. *)
Definition insert_up (p : A) (l : list A) (pos : Z) : option (list A * Z) :=
  loop (S (Z.to_nat pos))
    (λ '(l, pos),
       if 0 <? pos then
         q ← rd l ((pos - 1) / 2);
         if gt p q then
           l ← wr l pos q;
           Some (Next (l, (pos - 1) / 2))
         else Some (Stop (l, pos))
       else Some (Stop (l, pos)))
    (l, pos).

(** The replacement loop: push [p] down from [pos]. *)
Definition push_down (p : A) (l : list A) (pos size : Z) : option (list A) :=
  loop (S (Z.to_nat size))
    (λ '(l, pos),
       let left := 2 * pos + 1 in
       let right := 2 * pos + 2 in
       largest ← (if left <? size then
                    x ← rd l left; Some (if gt x p then left else pos)
                  else Some pos);
       largest ← (if right <? size then
                    x ← rd l right; y ← rd l largest;
                    Some (if gt x y then right else largest)
                  else Some largest);
       if largest =? pos then Some (Stop l) else
       x ← rd l largest;
       l ← wr l pos x;
       l ← wr l largest p;
       Some (Next (l, largest)))
    (l, pos).

(** The pointer that was dropped ([None] for null) and the heap. *)
Definition heap_insert (h : ptr_heap) (p : A) : option (option A * ptr_heap) :=
  if heap_size h <? heap_max h then
    '(l, pos) ← insert_up p (ptrs h) (heap_size h);
    l ← wr l pos p;
    Some (None, {| ptrs := l; heap_size := heap_size h + 1; heap_max := heap_max h |})
  else
    top ← rd (ptrs h) 0;
    if gt p top then Some (Some p, h) else
    l ← wr (ptrs h) 0 p;
    l ← push_down p l 0 (heap_size h);
    Some (Some top, {| ptrs := l; heap_size := heap_size h; heap_max := heap_max h |}).

(** ** Invariant *)

(** [gt] as a three-way comparison. *)
Definition gt_cmp (x y : A) : Z := if gt x y then 1 else if gt y x then -1 else 0.

(** The heap property: no pointer is greater than its parent. *)
Definition heap_wf (h : ptr_heap) : Prop :=
  0 ≤ heap_size h ≤ heap_max h ∧ heap_max h ≤ Z.of_nat (length (ptrs h)) ∧
  is_heap gt_cmp (ptrs h) 0 (heap_size h).

(** The pointers in the heap. *)
Definition contents (h : ptr_heap) : list A := take (Z.to_nat (heap_size h)) (ptrs h).
End prio_heap.

Arguments ptr_heap : clear implicits.

Section prio_heap_proofs.
Context {A : Type} (gt : A → A → bool).
(** [gt] is a strict weak order. *)
Hypothesis Hasym : ∀ x y, gt x y = true → gt y x = false.
Hypothesis Hntrans : ∀ x y z, gt x y = false → gt y z = false → gt x z = false.

Lemma cmp_le x y : gt_cmp gt x y ≤ 0 ↔ gt x y = false.
Proof using Type. rw /gt_cmp. destruct (gt x y), (gt y x); split; done || lia. Qed.

Lemma cmp_sign x y : gt_cmp gt x y < 0 ↔ 0 < gt_cmp gt y x.
Proof using Hasym.
  rw /gt_cmp. destruct (gt x y) eqn:E1, (gt y x) eqn:E2; try (split; lia).
  apply Hasym in E1. congruence.
Qed.

Lemma cmp_trans x y z : gt_cmp gt x y ≤ 0 → gt_cmp gt y z ≤ 0 → gt_cmp gt x z ≤ 0.
Proof using Hntrans. rw !cmp_le. apply Hntrans. Qed.

(** *** Pushing down *)

Lemma ge_at_iff l i j x y :
  rd l i = Some x → rd l j = Some y → ge_at (gt_cmp gt) l i j ↔ gt y x = false.
Proof using Type.
  intros Hx Hy. rewrite <- cmp_le. split; [intros H; by apply H|].
  intros H a b Ha Hb. by simplify_eq.
Qed.

(** Two comparisons find the place where the largest of a pointer and its children is. *)
Lemma pick_largest p l pos size :
  0 ≤ pos → size ≤ Z.of_nat (length l) → rd l pos = Some p →
  ∃ lg, (lg ← (if 2 * pos + 1 <? size then x ← rd l (2 * pos + 1); Some (if gt x p then 2 * pos + 1 else pos)
               else Some pos);
         if 2 * pos + 2 <? size then x ← rd l (2 * pos + 2); y ← rd l lg;
           Some (if gt x y then 2 * pos + 2 else lg) else Some lg) = Some lg ∧
    (∀ j, child pos j → j < size → ge_at (gt_cmp gt) l lg j) ∧
    (lg = pos ∨ child pos lg ∧ lg < size ∧ ∃ y, rd l lg = Some y ∧ gt y p = true).
Proof using All.
  intros Hpos Hs Hp.
  assert (∀ x, gt x x = false) as Hirr.
  { intros x. destruct (gt x x) eqn:E; [|done]. rewrite <- E at 1. by apply Hasym. }
  destruct (2 * pos + 1 <? size) eqn:E1; zbool.
  2:{ cbn. ztest. exists pos. split; [done|]. split; [|by left]. intros j [->| ->] Hj; lia. }
  destruct (rd_in l (2 * pos + 1)) as [a Ha]; [lia|]. rw Ha. cbn [mbind option_bind].
  set (lg0 := if gt a p then 2 * pos + 1 else pos).
  assert (∃ q, rd l lg0 = Some q ∧ gt a q = false ∧ gt p q = false ∧
    (lg0 = pos ∧ q = p ∨ lg0 = 2 * pos + 1 ∧ gt q p = true)) as (q & Hq & Haq & Hpq & Hcase).
  { rw /lg0. destruct (gt a p) eqn:Eap; [exists a|exists p]; split_and!; auto. }
  destruct (2 * pos + 2 <? size) eqn:E2; zbool.
  - destruct (rd_in l (2 * pos + 2)) as [b Hb]; [lia|]. rw Hb Hq. cbn [mbind option_bind].
    destruct (gt b q) eqn:Ebq.
    + exists (2 * pos + 2). split; [done|]. split.
      * intros j [->| ->] Hj; [apply (ge_at_iff _ _ _ b a)|apply (ge_at_iff _ _ _ b b)]; try done.
        eapply Hntrans; [exact Haq|by apply Hasym].
      * right. split; [by right|]. split; [done|]. exists b. split; [done|].
        destruct (gt b p) eqn:Ebp; [done|]. rewrite <- Ebq. symmetry. by eapply Hntrans.
    + exists lg0. split; [done|]. split.
      * intros j [->| ->] Hj; [by apply (ge_at_iff _ _ _ q a)|by apply (ge_at_iff _ _ _ q b)].
      * destruct Hcase as [[? _]|[Hl ?]]; [by left|]. right. split; [by left|]. split; [lia|]. by exists q.
  - exists lg0. split; [done|]. split.
    + intros j [->| ->] Hj; [by apply (ge_at_iff _ _ _ q a)|lia].
    + destruct Hcase as [[? _]|[Hl ?]]; [by left|]. right. split; [by left|]. split; [lia|]. by exists q.
Qed.

Lemma swap_func_1 (l : list A) a b x y :
  rd l a = Some x → rd l b = Some y →
  swap_func 1 l (a * 1) (b * 1) = (l1 ← wr l a y; wr l1 b x).
Proof using Type.
  intros Ha Hb. rw /swap_func !at_offset_mul // Ha Hb. cbn [mbind option_bind].
  by rw !Z.mul_1_r !Z.div_1_r.
Qed.

Lemma push_down_ok p l size :
  0 < size ≤ Z.of_nat (length l) → rd l 0 = Some p → heap_except (gt_cmp gt) l 0 size 0 →
  ∃ l', push_down gt p l 0 size = Some l' ∧ moved size l l' ∧ is_heap (gt_cmp gt) l' 0 size.
Proof using All.
  intros Hs Hp Hh. rw /push_down.
  apply (loop_inv (λ '(l', pos), pos < size ∧ rd l' pos = Some p ∧ sift_inv (gt_cmp gt) l 0 size pos l')
    (λ '(_, pos), Z.to_nat (size - pos))); [| |lia].
  2:{ split; [lia|]. split; [done|]. rw /sift_inv.
      split_and!; [lia|apply moved_refl|done|intros q j Hq [?|?]; lia]. }
  intros [l' pos] (Hpos & Hrp & Hinv). pose proof Hinv as (Hp0 & Hmv & Hhe & Hg). destruct (Hmv) as [Hlen _].
  destruct (pick_largest p l' pos size) as (lg & E & Hge & Hlg); [done|lia|done|].
  destruct (if 2 * pos + 1 <? size then _ else _) as [lg0|]; [|done]. cbn [mbind option_bind] in E |- *.
  rw E. cbn [mbind option_bind]. destruct Hlg as [->|(Hc & Hlt & y & Hy & Hgt)].
  - rw Z.eqb_refl. right. eexists. split; [done|]. split; [done|]. intros i j Hi Hij Hj.
    destruct (decide (i = pos)) as [->|]; [by apply Hge|by apply Hhe].
  - assert (pos < lg) by (destruct Hc; lia). ztest. rw Hy. cbn [mbind option_bind].
    left. destruct (sift_swap (gt_cmp gt) 1 ltac:(lia) cmp_sign l 0 size pos l' lg p y)
      as (l2 & E2 & Hinv2); try done || lia.
    { rw /gt_cmp Hgt. rewrite -> Hasym by done. lia. }
    rw (swap_func_1 _ _ _ p y) // in E2. destruct (wr l' pos y) as [l1|]; [|done].
    cbn [mbind option_bind] in E2 |- *. rw E2. cbn [mbind option_bind].
    eexists. split; [done|]. split; [|lia]. split; [done|]. split; [by eapply rd_wr_eq|done].
Qed.

(** *** Moving up *)

(** The state of the insertion loop: with [p] put into the hole, only the edge above it can be
    wrong. *)
Definition up_inv (p : A) (l0 : list A) (n pos : Z) (l : list A) : Prop :=
  0 ≤ pos ≤ n ∧ length l = length l0 ∧
  ∃ v, wr l pos p = Some v ∧ moved (n + 1) (<[Z.to_nat n := p]> l0) v ∧
    (∀ i j, 0 ≤ i → child i j → j ≤ n → j ≠ pos → ge_at (gt_cmp gt) v i j) ∧
    (∀ i j, 0 ≤ i → child i pos → child pos j → j ≤ n → ge_at (gt_cmp gt) v i j).

Lemma up_step p l0 n pos l q :
  up_inv p l0 n pos l → 0 < pos → n < Z.of_nat (length l0) →
  rd l ((pos - 1) / 2) = Some q → gt p q = true →
  ∃ l', wr l pos q = Some l' ∧ up_inv p l0 n ((pos - 1) / 2) l'.
Proof using All.
  intros (Hpos & Hlen & v & Hv & Hmv & Hh & Hg) Hp0 Hn Hq Hgt.
  set (par := (pos - 1) / 2) in *. assert (0 ≤ par < pos) as Hpar by (rw /par; zdm).
  assert (child par pos) as Hcp by (rw /child /par; zdm).
  destruct (wr l pos q) as [l'|] eqn:E; [|rw wr_in // in E; lia]. exists l'. split; [done|].
  assert (rd v pos = Some p) as Hvp by (by eapply rd_wr_eq).
  assert (rd v par = Some q) as Hvq by (rw (rd_wr_ne _ _ _ _ _ Hv) //; lia).
  pose proof (wr_length _ _ _ _ E) as Hl'.
  destruct (swap_ok 1 ltac:(lia) v pos par (n + 1) p q) as (v' & Ev' & Hmv' & Hpos' & Hpar' & Hoth);
    [done|done|lia|lia|lia|]. rw (swap_func_1 _ _ _ p q) // in Ev'.
  split; [lia|]. split; [congruence|]. exists v'.
  assert (wr l' par p = Some v') as Ewr.
  { apply wr_Some in E as [_ ->]. apply wr_Some in Hv as [_ ->].
    rewrite -> wr_in in Ev' by (rw length_insert; lia). cbn [mbind option_bind] in Ev'.
    by rw list_insert_insert_eq in Ev'. }
  split; [done|]. split; [by eapply moved_trans|].
  assert (gt q p = false) as Hqp by by apply Hasym.
  assert (∀ j b, child par j → j ≤ n → j ≠ pos → rd v' j = Some b → gt b q = false) as Hsib.
  { intros j b Hj Hjn Hne Hb. rewrite -> Hoth in Hb by (destruct Hj; lia).
    apply (ge_at_iff v par j q b); [done|done|]. apply Hh; [lia|done|done|done]. }
  split.
  - intros i j Hi Hij Hjn Hjp. destruct (decide (i = par)) as [->|Hip].
    + intros a b Ha Hb. assert (a = p) as -> by congruence. apply cmp_le.
      destruct (decide (j = pos)) as [->|Hne]; [by assert (b = q) as -> by congruence|].
      eapply Hntrans; [by eapply Hsib|done].
    + destruct (decide (i = pos)) as [->|Hipos].
      * intros a b Ha Hb. assert (a = q) as -> by congruence.
        rewrite -> Hoth in Hb by (destruct Hij; lia). eapply (Hg par j); [lia|done|done|done|done|done].
      * assert (j ≠ pos) as Hne by (intros ->; destruct Hij, Hcp; lia).
        intros a b Ha Hb. rewrite -> Hoth in Ha, Hb by done. by eapply (Hh i j).
  - intros i j Hi Hip Hj Hjn a b Ha Hb. apply cmp_le.
    assert (gt q a = false) as Hqa.
    { apply (ge_at_iff v i par a q); [|done|apply Hh; [done|done|lia|lia]].
      rewrite -> Hoth in Ha by (destruct Hip; lia). done. }
    destruct (decide (j = pos)) as [->|Hne]; [by assert (b = q) as -> by congruence|].
    eapply Hntrans; [by eapply Hsib|done].
Qed.

Lemma insert_up_ok p l n :
  0 ≤ n < Z.of_nat (length l) → is_heap (gt_cmp gt) l 0 n →
  ∃ l' pos v, insert_up gt p l n = Some (l', pos) ∧ wr l' pos p = Some v ∧
    moved (n + 1) (<[Z.to_nat n := p]> l) v ∧ is_heap (gt_cmp gt) v 0 (n + 1).
Proof using All.
  intros Hn Hh. rw /insert_up.
  match goal with |- context [loop _ ?body _] =>
    destruct (loop_inv (λ '(l', pos), up_inv p l n pos l') (λ '(_, pos), Z.to_nat pos)
      (λ '(l', pos), ∃ v, wr l' pos p = Some v ∧ moved (n + 1) (<[Z.to_nat n := p]> l) v ∧
         is_heap (gt_cmp gt) v 0 (n + 1)) body (S (Z.to_nat n)) (l, n))
      as ([l' pos] & E & v & Hv); [| |lia|by exists l', pos, v] end.
  - intros [l' pos] Hinv. pose proof Hinv as (Hpos & Hlen & v & Hv & Hmv & Hok & Hg).
    destruct (0 <? pos) eqn:E; zbool.
    + destruct (rd_in l' ((pos - 1) / 2)) as [q Hq]; [zdm|]. rw Hq. cbn [mbind option_bind].
      destruct (gt p q) eqn:Epq.
      * left. destruct (up_step p l n pos l' q) as (l2 & -> & Hinv2); [done|done|lia|done|done|].
        eexists. split; [done|]. split; [done|]. zdm.
      * right. eexists. split; [done|]. exists v. split; [done|]. split; [done|].
        intros i j Hi Hij Hj. destruct (decide (j = pos)) as [->|]; [|by apply Hok; try lia].
        assert (i = (pos - 1) / 2) as -> by (destruct Hij; zdm).
        apply (ge_at_iff v _ _ q p); [rw (rd_wr_ne _ _ _ _ _ Hv) //; zdm|by eapply rd_wr_eq|done].
    + right. eexists. split; [done|]. exists v. split; [done|]. split; [done|].
      intros i j Hi Hij Hj. apply Hok; [done|done|lia|destruct Hij; lia].
  - split; [lia|]. split; [done|]. eexists. split; [apply wr_in; lia|]. split; [apply moved_refl|]. split.
    + intros i j Hi Hij Hjn Hne a b.
      rewrite -> !(rd_wr_ne l _ n _ p (wr_in l n p ltac:(lia))) by (destruct Hij; lia).
      apply Hh; [done|done|lia].
    + intros i j Hi Hin Hnj Hj. destruct Hnj; lia.
Qed.

(** *** Insertion *)

Lemma take_insert_new (l : list A) (n : Z) p :
  0 ≤ n < Z.of_nat (length l) →
  take (Z.to_nat (n + 1)) (<[Z.to_nat n := p]> l) ≡ₚ p :: take (Z.to_nat n) l.
Proof using Type.
  intros Hn. replace (Z.to_nat (n + 1)) with (S (Z.to_nat n)) by lia.
  rw (take_S_r _ _ p); [|apply list_lookup_insert_eq; lia]. rw take_insert_ge //.
  by rw -Permutation_cons_append.
Qed.

(** [heap_insert] keeps the heap property and the capacity.  While there is room the pointer is
    added and nothing is dropped; in a full heap the pointer that is dropped is a greatest one
    among the old pointers and the new one, and the others are kept. *)
Theorem heap_insert_correct h p :
  heap_wf gt h → 0 < heap_max h →
  ∃ res h', heap_insert gt h p = Some (res, h') ∧ heap_wf gt h' ∧ heap_max h' = heap_max h ∧
    match res with
    | None => heap_size h < heap_max h ∧ contents h' ≡ₚ p :: contents h
    | Some d => heap_size h = heap_max h ∧ d :: contents h' ≡ₚ p :: contents h ∧
        Forall (λ x, gt x d = false) (p :: contents h)
    end.
Proof using All.
  intros (Hsz & Hmax & Hh) Hpos. rw /heap_insert. case_if.
  - destruct (insert_up_ok p (ptrs h) (heap_size h)) as (l' & pos & v & -> & Hv & Hmv & Hheap); [lia|done|].
    cbn [mbind option_bind]. rw Hv. do 2 eexists. split; [done|]. destruct (Hmv) as (Hl & Hp & _).
    rw length_insert in Hl. split; [split_and!; cbn; [lia|lia|lia|done]|]. split; [done|]. split; [done|].
    rw /contents /= Hp. apply take_insert_new. lia.
  - destruct (rd_in (ptrs h) 0) as [top Htop]; [lia|]. rw Htop. cbn [mbind option_bind].
    assert (∀ x, x ∈ contents h → gt x top = false) as Hall.
    { intros x [i Hi]%list_elem_of_lookup. apply lookup_take_Some in Hi as [Hi Hlt].
      apply (ge_at_iff (ptrs h) 0 (Z.of_nat i)); [done| |].
      - apply rd_Some. rw Nat2Z.id. split; [lia|done].
      - apply (heap_top (gt_cmp gt) 1 ltac:(lia) cmp_sign cmp_trans _ (heap_size h)); [done|lia|lia]. }
    case_if.
    + do 2 eexists. split; [done|]. split; [done|]. split; [done|]. split; [lia|]. split; [done|].
      constructor; [destruct (gt p p) eqn:E; [apply Hasym in E as E'; congruence|done]|].
      apply Forall_forall. intros x Hx. eapply Hntrans; [by apply Hall|by apply Hasym].
    + rw wr_in; [|lia]. cbn [mbind option_bind].
      assert (wr (ptrs h) 0 p = Some (<[Z.to_nat 0 := p]> (ptrs h))) as Ew by (apply wr_in; lia).
      destruct (push_down_ok p (<[Z.to_nat 0 := p]> (ptrs h)) (heap_size h)) as (l' & -> & Hmv & Hheap).
      { rw length_insert. lia. }
      { by eapply rd_wr_eq. }
      { intros i j Hi Hne Hij Hj a b. rewrite -> !(rd_wr_ne _ _ _ _ _ Ew) by (destruct Hij; lia). by apply Hh. }
      cbn [mbind option_bind]. do 2 eexists. split; [done|]. destruct (Hmv) as (Hl & Hp & _).
      rw length_insert in Hl. split; [split_and!; cbn; [lia|lia|lia|done]|]. split; [done|].
      split; [lia|]. split.
      * rw /contents /= Hp. apply rd_Some in Htop as [_ Htop]. cbn in Htop.
        destruct (ptrs h) as [|t r]; [done|]. cbn in Htop. injection Htop as ->. cbn.
        replace (Z.to_nat (heap_size h)) with (S (Z.to_nat (heap_size h - 1))) by lia. cbn. apply perm_swap.
      * constructor; [done|]. by apply Forall_forall.
Qed.
End prio_heap_proofs.

Definition demo_heap : ptr_heap Z := {| ptrs := [9; 4; 7; 1]; heap_size := 4; heap_max := 4 |}.

Lemma heap_insert_correct_witness :
  ∃ res h', heap_insert Z.gtb demo_heap 5 = Some (res, h') ∧ heap_wf Z.gtb h' ∧ heap_max h' = 4 ∧
    match res with
    | None => 4 < 4 ∧ contents h' ≡ₚ 5 :: contents demo_heap
    | Some d => 4 = 4 ∧ d :: contents h' ≡ₚ 5 :: contents demo_heap ∧
        Forall (λ x, Z.gtb x d = false) (5 :: contents demo_heap)
    end.
Proof.
  apply (heap_insert_correct Z.gtb) with (h := demo_heap) (p := 5).
  - intros x y. rw !Z.gtb_ltb. intros H. zbool. ztest. done.
  - intros x y z. rw !Z.gtb_ltb. intros H1 H2. zbool. ztest. done.
  - split_and!; cbn; try lia. intros i j Hi Hij Hj x y Hx Hy. rw /child in Hij.
    assert (i = 0 ∧ j = 1 ∨ i = 0 ∧ j = 2 ∨ i = 1 ∧ j = 3) as [[-> ->]|[[-> ->]|[-> ->]]] by lia;
      vm_compute in Hx, Hy; simplify_eq; vm_compute; congruence.
  - cbn. lia.
Defined.
