(* ===== verification/ListSort.v ===== *)
(** * Merge sort of linked lists: lib/list_sort.c

    Nodes are numbers; a null-terminated chain of nodes (linked through [next]) is the
    list of its nodes, and the null pointer the empty list.  The [prev] links that
    the last merge restores are a map of their own. *)
From S2P Require Import Prelude.

Section list_sort.
Context (cmp : Z → Z → Z).

Definition MAX_LIST_LENGTH_BITS : Z := 20.

(** [merge]: if equal, [a] first. *)
Fixpoint merge (a : list Z) : list Z → list Z :=
  fix merge_b (b : list Z) : list Z :=
    match a, b with
    | [], _ => b
    | _, [] => a
    | x :: a', y :: b' => if cmp x y <=? 0 then x :: merge a' b else y :: merge_b b'
    end.

(** The loop [while (a && b)] of [merge_and_restore_back_links]: the state is the chains, the nodes
    linked so far (in reverse, so that [tail] is the first of them, or the list head) and [prev]. *)
Definition restore_merge (head : Z) (a b : list Z) : option (list Z * list Z * gmap Z Z) :=
  loop (S (length a + length b))
    (λ '(a, b, done_, prev),
       let tail := hd head done_ in
       match a, b with
       | x :: a', y :: b' =>
           if cmp x y <=? 0 then Some (Next (a', b, x :: done_, <[x := tail]> prev))
           else Some (Next (a, b', y :: done_, <[y := tail]> prev))
       | [], _ => Some (Stop (b, done_, prev))
       | _, [] => Some (Stop (a, done_, prev))
       end)
    (a, b, [], ∅).

(** The second loop walks the rest: [tail->next] is dereferenced before it is tested. *)
Definition restore_rest (head : Z) (rest done_ : list Z) (prev : gmap Z Z)
  : option (list Z * gmap Z Z) :=
  loop (S (length rest))
    (λ '(rest, done_, prev),
       match rest with
       | [] => None
       | x :: rest' =>
           let st := (x :: done_, <[x := hd head done_]> prev) in
           match rest' with
           | [] => Some (Stop st)
           | _ => Some (Next (rest', st.1, st.2))
           end
       end)
    (rest, done_, prev).

(** The sorted ring: its nodes behind the head in order, and the [prev] links. *)
Definition merge_and_restore_back_links (head : Z) (a b : list Z) : option (list Z * gmap Z Z) :=
  '(rest, done_, prev) ← restore_merge head a b;
  '(done_, prev) ← restore_rest head rest done_ prev;
  Some (rev done_, <[head := hd head done_]> prev).

(** [for (lev = 0; part[lev]; lev++)]: carry [cur] up through the occupied levels. *)
Definition carry (part : list (list Z)) (cur : list Z) : option (list (list Z) * list Z * Z) :=
  loop (S (length part))
    (λ '(part, cur, lev),
       p ← rd part lev;
       match p with
       | [] => Some (Stop (part, cur, lev))
       | _ => part ← wr part lev []; Some (Next (part, merge p cur, lev + 1))
       end)
    (part, cur, 0).

(** One node is added. *)
Definition add_node (st : list (list Z) * Z) (node : Z) : option (list (list Z) * Z) :=
  let '(part, max_lev) := st in
  '(part, cur, lev) ← carry part [node];
  let '(lev, max_lev) :=
    if max_lev <? lev then
      let lev := if Z.of_nat (length part) - 1 <=? lev then lev - 1 else lev in (lev, lev)
    else (lev, max_lev) in
  part ← wr part lev cur;
  Some (part, max_lev).

Fixpoint add_nodes (st : list (list Z) * Z) (nodes : list Z) : option (list (list Z) * Z) :=
  match nodes with
  | [] => Some st
  | x :: nodes => st ← add_node st x; add_nodes st nodes
  end.

(** The levels below [max_lev], from the lowest. *)
Definition collect (part : list (list Z)) (max_lev : Z) : option (list Z) :=
  for_each (Z.to_nat max_lev) 0
    (λ lev acc, p ← rd part lev; Some (match p with [] => acc | _ => merge p acc end)) [].

(** [nodes] are the nodes behind [head]; [prev] of an empty list is not touched. *)
Definition list_sort (head : Z) (nodes : list Z) : option (list Z * gmap Z Z) :=
  match nodes with
  | [] => Some ([], ∅)
  | _ =>
      '(part, max_lev) ← add_nodes (replicate (Z.to_nat (MAX_LIST_LENGTH_BITS + 1)) [], 0) nodes;
      list ← collect part max_lev;
      top ← rd part max_lev;
      merge_and_restore_back_links head top list
  end.
End list_sort.

Example list_sort_example :
  option_map fst (list_sort (λ a b, a / 10 - b / 10) 0 [31; 12; 33; 14; 25; 11])
  = Some [12; 14; 11; 25; 31; 33].
Proof. vm_compute. reflexivity. Qed.

(** ** Merging *)

Section list_sort_proofs.
Context (cmp : Z → Z → Z).
(** The comparison is a total preorder. *)
Hypothesis Hsign : ∀ x y, cmp x y < 0 ↔ 0 < cmp y x.
Hypothesis Htrans : ∀ x y z, cmp x y ≤ 0 → cmp y z ≤ 0 → cmp x z ≤ 0.

Definition ordered : list Z → Prop := StronglySorted (λ x y, cmp x y ≤ 0).

(** The nodes of a list that are equivalent to [x], in order. *)
Definition same (x : Z) (l : list Z) : list Z := base.filter (λ y, cmp x y = 0) l.

Lemma same_app x l1 l2 : same x (l1 ++ l2) = same x l1 ++ same x l2.
Proof using Type. apply filter_app. Qed.

(** Nothing in an ordered list whose head is greater than [x] is equivalent to it. *)
Lemma same_nil x y l : ordered (y :: l) → cmp x y < 0 → same x (y :: l) = [].
Proof using Hsign Htrans.
  intros Ho Hxy. apply StronglySorted_inv in Ho as [_ Hall].
  rw /same filter_cons_False; [|lia]. induction Hall as [|z l Hz _ IH]; [done|].
  rw filter_cons_False //. intros Hxz. pose proof (Hsign z x). pose proof (Hsign x z).
  pose proof (Hsign x y). pose proof (Htrans y z x Hz ltac:(lia)). lia.
Qed.

(** What merging two chains yields. *)
Definition merged (a b c : list Z) : Prop :=
  ordered c ∧ c ≡ₚ a ++ b ∧ ∀ x, same x c = same x a ++ same x b.

Lemma merged_nil_r a : ordered a → merged a [] a.
Proof using Type. intros. split_and!; [done|by rw app_nil_r|]. intros x. by rw app_nil_r. Qed.

Lemma merged_left x a y b c :
  ordered (x :: a) → ordered (y :: b) → cmp x y ≤ 0 → merged a (y :: b) c →
  merged (x :: a) (y :: b) (x :: c).
Proof using Htrans.
  intros Ha Hb Hxy (Ho & Hp & Hs). apply StronglySorted_inv in Ha as [_ Hxa].
  split_and!; [|by rw Hp|].
  - constructor; [done|]. rw Hp. apply Forall_app. split; [done|]. constructor; [done|].
    apply StronglySorted_inv in Hb as [_ Hyb]. eapply Forall_impl; [exact Hyb|].
    intros z Hz. by eapply Htrans.
  - intros z. change (x :: c) with ([x] ++ c). change (x :: a) with ([x] ++ a).
    by rw !same_app Hs assoc.
Qed.

Lemma merged_right x a y b c :
  ordered (x :: a) → ordered (y :: b) → 0 < cmp x y → merged (x :: a) b c →
  merged (x :: a) (y :: b) (y :: c).
Proof using Hsign Htrans.
  intros Ha Hb Hxy (Ho & Hp & Hs). pose proof (Hsign y x) as Hyx.
  split_and!; [|rw Hp; apply Permutation_middle|].
  - constructor; [done|]. rw Hp. apply Forall_app. split.
    + apply StronglySorted_inv in Ha as [_ Hxa]. constructor; [lia|]. eapply Forall_impl; [exact Hxa|].
      intros z Hz. eapply Htrans; [|exact Hz]. lia.
    + by apply StronglySorted_inv in Hb as [_ ?].
  - intros z. change (y :: c) with ([y] ++ c). change (y :: b) with ([y] ++ b).
    rw !same_app Hs assoc. rewrite -> (assoc app). f_equal.
    destruct (decide (cmp z y = 0)) as [Hzy|Hzy].
    + rw (same_nil z x a) ?app_nil_r //.
      destruct (Z.lt_ge_cases (cmp z x) 0) as [|Hge]; [done|].
      pose proof (Hsign z x). pose proof (Hsign x z). pose proof (Htrans x z y ltac:(lia) ltac:(lia)). lia.
    + assert (same z [y] = []) as -> by (by rw /same filter_cons_False). by rw app_nil_r.
Qed.

Lemma merge_ok a b : ordered a → ordered b → merged a b (merge cmp a b).
Proof using Hsign Htrans.
  revert b. induction a as [|x a IHa]; intros b Ha Hb; [by destruct b|].
  induction b as [|y b IHb]; [by apply merged_nil_r|].
  cbn [merge]. destruct (cmp x y <=? 0) eqn:E; zbool.
  - apply merged_left; try done. apply IHa; [by apply StronglySorted_inv in Ha as []|done].
  - apply merged_right; try done. apply IHb. by apply StronglySorted_inv in Hb as [].
Qed.

(** *** The levels *)

(** Two lists with the same nodes, and equivalent nodes in the same order. *)
Definition equiv_seq (l1 l2 : list Z) : Prop := l1 ≡ₚ l2 ∧ ∀ x, same x l1 = same x l2.

Lemma equiv_refl l : equiv_seq l l.
Proof using Type. done. Qed.

Lemma equiv_trans l1 l2 l3 : equiv_seq l1 l2 → equiv_seq l2 l3 → equiv_seq l1 l3.
Proof using Type. intros [P1 S1] [P2 S2]. split; [by rw P1|]. intros x. by rw S1. Qed.

Lemma equiv_app l1 l2 k1 k2 : equiv_seq l1 l2 → equiv_seq k1 k2 → equiv_seq (l1 ++ k1) (l2 ++ k2).
Proof using Type. intros [P1 S1] [P2 S2]. split; [by rw P1 P2|]. intros x. by rw !same_app S1 S2. Qed.

Lemma merge_equiv a b : ordered a → ordered b → ordered (merge cmp a b) ∧ equiv_seq (merge cmp a b) (a ++ b).
Proof using Hsign Htrans.
  intros Ha Hb. destruct (merge_ok a b Ha Hb) as (Ho & Hp & Hs). split; [done|]. split; [done|].
  intros x. by rw same_app.
Qed.

(** The nodes of the levels, the older (higher) levels first. *)
Definition flat (part : list (list Z)) : list Z := concat (reverse part).

Lemma flat_app p1 p2 : flat (p1 ++ p2) = flat p2 ++ flat p1.
Proof using Type. by rw /flat reverse_app concat_app. Qed.

Lemma flat_empty part : Forall (λ p, p = []) part → flat part = [].
Proof using Type.
  intros H. rw /flat. induction H as [|p part -> _ IH]; [done|].
  rw reverse_cons concat_app IH //.
Qed.

Lemma low_empty (part : list (list Z)) lev :
  (∀ i, (i < lev)%nat → part !! i = Some []) → flat (take lev part) = [].
Proof using Type.
  intros H. apply flat_empty, Forall_lookup_2. intros i p Hp. apply lookup_take_Some in Hp as [Hp Hi].
  rewrite -> H in Hp by done. congruence.
Qed.

(** With the levels below [lev] empty, level [lev] holds the newest nodes. *)
Lemma flat_level part lev p q :
  part !! lev = Some p → (∀ i, (i < lev)%nat → part !! i = Some []) →
  flat part = flat (drop (S lev) part) ++ p ∧
  flat (<[lev := q]> part) = flat (drop (S lev) part) ++ q.
Proof using Type.
  intros Hp Hlow. apply lookup_lt_Some in Hp as Hlt. pose proof (low_empty part lev Hlow) as He.
  assert (∀ r, flat (take lev part ++ r :: drop (S lev) part) = flat (drop (S lev) part) ++ r) as Hf.
  { intros r. rw flat_app He app_nil_r. change (r :: drop (S lev) part) with ([r] ++ drop (S lev) part).
    rw flat_app {2}/flat /=. by rw app_nil_r. }
  split; [rewrite <- Hf; by rw take_drop_middle|]. rw insert_take_drop //.
Qed.

Definition carry_inv (old : list (list Z)) (node : Z) (part : list (list Z)) (cur : list Z) (lev : Z) : Prop :=
  0 ≤ lev ∧ length part = length old ∧ Forall ordered part ∧ ordered cur ∧ cur ≠ [] ∧
  (∀ i, (i < Z.to_nat lev)%nat → part !! i = Some []) ∧
  (∀ i, (Z.to_nat lev ≤ i)%nat → part !! i = old !! i) ∧
  equiv_seq (flat part ++ cur) (flat old ++ [node]).

Lemma merge_nonempty x p b : merge cmp (x :: p) b ≠ [].
Proof using Type. destruct b; cbn; [done|]. by case_if. Qed.

Lemma carry_ok old node (top : nat) :
  Forall ordered old → old !! top = Some [] →
  ∃ part cur lev, carry cmp old [node] = Some (part, cur, lev) ∧ lev ≤ Z.of_nat top ∧
    carry_inv old node part cur lev ∧ part !! Z.to_nat lev = Some [].
Proof using Hsign Htrans.
  intros Ho Htop. apply lookup_lt_Some in Htop as Htl. rw /carry.
  match goal with |- context [loop _ ?body _] =>
    destruct (loop_inv (λ '(part, cur, lev), carry_inv old node part cur lev ∧ lev ≤ Z.of_nat top)
      (λ '(_, _, lev), Z.to_nat (Z.of_nat top - lev))
      (λ '(part, cur, lev), carry_inv old node part cur lev ∧ lev ≤ Z.of_nat top ∧
         part !! Z.to_nat lev = Some []) body (S (length old)) (old, [node], 0))
      as ([[part cur] lev] & E & Hinv & Hle & He); [| | |by exists part, cur, lev] end.
  - intros [[part cur] lev] [Hinv Hle].
    pose proof Hinv as (H0 & Hl & Hop & Hoc & Hne & Hlow & Hhigh & Heq).
    destruct (rd_in part lev) as [p Hp]; [lia|]. rw Hp. cbn [mbind option_bind].
    apply rd_Some in Hp as [_ Hp]. destruct p as [|x p]; [right; by eexists|left].
    assert (lev ≠ Z.of_nat top).
    { intros ->. rw Nat2Z.id in Hp. rewrite -> Hhigh in Hp by lia. congruence. }
    rw wr_in; [|lia]. cbn [mbind option_bind]. eexists. split; [done|]. split; [|lia]. split; [|lia].
    assert (ordered (x :: p)) as Hox by (by eapply Forall_lookup_1).
    destruct (merge_equiv (x :: p) cur Hox Hoc) as [Hom Hem].
    destruct (flat_level part (Z.to_nat lev) (x :: p) [] Hp Hlow) as [Ef Ef'].
    split; [lia|]. split; [by rw length_insert|]. split; [apply Forall_insert; [done|constructor]|].
    split; [done|]. split; [apply merge_nonempty|]. split_and!.
    + intros i Hi. destruct (decide (i = Z.to_nat lev)) as [->|].
      * apply list_lookup_insert_eq. lia.
      * rw list_lookup_insert_ne //. apply Hlow. lia.
    + intros i Hi. rw list_lookup_insert_ne; [|lia]. apply Hhigh. lia.
    + eapply equiv_trans; [|exact Heq]. rw Ef Ef' app_nil_r -assoc.
      apply equiv_app; [apply equiv_refl|done].
  - split; [|lia]. split; [lia|]. split; [done|]. split; [done|]. split; [repeat constructor|].
    split_and!; [done|lia|done|apply equiv_refl].
  - lia.
Qed.

(** The state between two nodes. *)
Definition levels_inv (nodes : list Z) (st : list (list Z) * Z) : Prop :=
  let '(part, max_lev) := st in
  length part = 21%nat ∧ 0 ≤ max_lev ≤ 19 ∧ Forall ordered part ∧
  (∀ i, (Z.to_nat max_lev < i < 21)%nat → part !! i = Some []) ∧ equiv_seq (flat part) nodes.

Lemma add_node_ok nodes st x :
  levels_inv nodes st → ∃ st', add_node cmp st x = Some st' ∧ levels_inv (nodes ++ [x]) st'.
Proof using Hsign Htrans.
  destruct st as [part0 m]. intros (Hl0 & Hm & Ho & Hhi & Heq). rw /add_node.
  destruct (carry_ok part0 x (S (Z.to_nat m))) as (part & cur & lev & -> & Hle & Hinv & He);
    [done|apply Hhi; lia|].
  destruct Hinv as (H0 & Hl & Hop & Hoc & Hne & Hlow & Hhigh & Heq'). cbn [mbind option_bind].
  set (top := if Z.of_nat (length part) - 1 <=? lev then lev - 1 else lev).
  assert (∃ lev' m', (if m <? lev then (top, top) else (lev, m)) = (lev', m') ∧ 0 ≤ lev' ≤ lev ∧ lev' ≤ m' ∧ m ≤ m' ≤ 19 ∧ part !! Z.to_nat lev' = Some [])
    as (lev' & m' & -> & Hlev' & Hlm & Hm' & He').
  { rw /top Hl Hl0. change (Z.of_nat 21 - 1) with 20. case_if; [case_if|].
    - do 2 eexists. split; [done|]. split_and!; try lia. apply Hlow. lia.
    - do 2 eexists. split; [done|]. split_and!; try lia. done.
    - do 2 eexists. split; [done|]. split_and!; try lia. done. }
  rw wr_in; [|lia]. cbn [mbind option_bind]. eexists. split; [done|].
  destruct (flat_level part (Z.to_nat lev') [] cur He') as [Ef Ef']; [intros i Hi; apply Hlow; lia|].
  split; [by rw length_insert Hl|]. split; [lia|]. split; [by apply Forall_insert|]. split.
  - intros i Hi. rw list_lookup_insert_ne; [|lia]. destruct (decide (i < Z.to_nat lev)%nat); [by apply Hlow|].
    rw Hhigh; [|lia]. apply Hhi. lia.
  - rw Ef'. rw app_nil_r in Ef. rewrite <- Ef. eapply equiv_trans; [exact Heq'|].
    apply equiv_app; [done|apply equiv_refl].
Qed.

Lemma add_nodes_ok nodes l st :
  levels_inv nodes st → ∃ st', add_nodes cmp st l = Some st' ∧ levels_inv (nodes ++ l) st'.
Proof using Hsign Htrans.
  revert nodes st. induction l as [|x l IH]; intros nodes st Hinv; cbn [add_nodes].
  - exists st. by rw app_nil_r.
  - destruct (add_node_ok nodes st x Hinv) as (st' & -> & Hinv'). cbn [mbind option_bind].
    destruct (IH _ _ Hinv') as (st'' & E & Hinv''). exists st''. rw -assoc in Hinv''. done.
Qed.

(** Collecting the levels below [max_lev]. *)
Lemma collect_ok part m :
  Forall ordered part → 0 ≤ m ≤ Z.of_nat (length part) →
  ∃ l, collect cmp part m = Some l ∧ ordered l ∧ equiv_seq l (flat (take (Z.to_nat m) part)).
Proof using Hsign Htrans.
  intros Ho Hm. rw /collect.
  destruct (for_each_inv (λ k acc, ordered acc ∧ equiv_seq acc (flat (take (Z.to_nat k) part)))
    (Z.to_nat m) 0 (λ lev acc, p ← rd part lev; Some (match p with [] => acc | _ => merge cmp p acc end)) [])
    as (l & E & Hl).
  - split; [constructor|apply equiv_refl].
  - intros k acc Hk [Hoa Hea]. destruct (rd_in part k) as [p Hp]; [lia|]. rw Hp. cbn [mbind option_bind].
    eexists. split; [done|]. apply rd_Some in Hp as [_ Hp]. pose proof (Forall_lookup_1 _ _ _ _ Ho Hp) as Hop.
    replace (Z.to_nat (k + 1)) with (S (Z.to_nat k)) by lia. rw (take_S_r _ _ p Hp) flat_app {1}/flat /= app_nil_r.
    destruct p as [|x p]; [done|]. destruct (merge_equiv (x :: p) acc Hop Hoa) as [Hom Hem].
    split; [done|]. eapply equiv_trans; [exact Hem|]. apply equiv_app; [apply equiv_refl|done].
  - exists l. split; [exact E|]. replace (Z.to_nat m) with (Z.to_nat (0 + Z.of_nat (Z.to_nat m))) by lia. done.
Qed.

(** *** The back links *)

(** [prev] leads from every linked node to the one before it, and from the first to [head];
    [done_] is in reverse order. *)
Fixpoint linked (head : Z) (done_ : list Z) (prev : gmap Z Z) : Prop :=
  match done_ with
  | [] => True
  | x :: done_ => prev !! x = Some (hd head done_) ∧ linked head done_ prev
  end.

Lemma linked_insert head done_ prev x y :
  x ∉ done_ → linked head done_ prev → linked head done_ (<[x := y]> prev).
Proof using Type.
  induction done_ as [|z done_ IH]; [done|]. intros [Hne Hx]%not_elem_of_cons [Hz Hl]. split.
  - by rw lookup_insert_ne.
  - by apply IH.
Qed.

Lemma linked_cons head done_ prev x :
  x ∉ done_ → linked head done_ prev → linked head (x :: done_) (<[x := hd head done_]> prev).
Proof using Type. intros Hx Hl. split; [apply lookup_insert_eq|by apply linked_insert]. Qed.

Lemma NoDup_rev_app_cons (d : list Z) x l : NoDup (rev d ++ x :: l) → x ∉ d.
Proof using Type.
  intros Hnd Hx. apply NoDup_app in Hnd as (_ & Hdis & _).
  apply (Hdis x); [|by left]. apply list_elem_of_In. rewrite <- in_rev. by apply list_elem_of_In.
Qed.

Lemma restore_merge_ok head a b :
  a ++ b ≠ [] → NoDup (merge cmp a b) →
  ∃ rest done_ prev, restore_merge cmp head a b = Some (rest, done_, prev) ∧ rest ≠ [] ∧
    rev done_ ++ rest = merge cmp a b ∧ linked head done_ prev.
Proof using Type.
  intros Hne Hnd. rw /restore_merge.
  match goal with |- context [loop _ ?body _] =>
    destruct (loop_inv (λ '(a', b', d, prev), a' ++ b' ≠ [] ∧
        rev d ++ merge cmp a' b' = merge cmp a b ∧ linked head d prev)
      (λ '(a', b', _, _), (length a' + length b')%nat)
      (λ '(rest, d, prev), rest ≠ [] ∧ rev d ++ rest = merge cmp a b ∧ linked head d prev)
      body (S (length a + length b)) (a, b, [], ∅)) as ([[rest d] prev] & E & Hres);
      [| | |by exists rest, d, prev] end.
  - intros [[[a' b'] d] prev] (Hne' & Heq & Hl).
    destruct a' as [|x a']; [right; eexists; split; [done|]; by destruct b'|].
    destruct b' as [|y b']; [right; eexists; by split|]. cbn [merge] in Heq.
    left. destruct (cmp x y <=? 0).
    + eexists. split; [done|]. split; [|cbn; lia]. split; [by destruct a'|].
      split; [by rw /= -assoc|]. apply linked_cons; [|done].
      eapply NoDup_rev_app_cons. by rewrite -> Heq.
    + eexists. split; [done|]. split; [|cbn; lia]. split; [done|].
      split; [by rw /= -assoc|]. apply linked_cons; [|done].
      eapply NoDup_rev_app_cons. by rewrite -> Heq.
  - done.
  - lia.
Qed.

Lemma restore_rest_ok head rest done_ prev :
  rest ≠ [] → NoDup (rev done_ ++ rest) → linked head done_ prev →
  ∃ d prev', restore_rest head rest done_ prev = Some (d, prev') ∧
    rev d = rev done_ ++ rest ∧ linked head d prev'.
Proof using Type.
  intros Hne Hnd Hl. rw /restore_rest.
  match goal with |- context [loop _ ?body _] =>
    destruct (loop_inv (λ '(r, d, p), r ≠ [] ∧ rev d ++ r = rev done_ ++ rest ∧ linked head d p)
      (λ '(r, _, _), length r) (λ '(d, p), rev d = rev done_ ++ rest ∧ linked head d p)
      body (S (length rest)) (rest, done_, prev)) as ([d p] & E & Hres); [| | |by exists d, p] end.
  - intros [[r d] p] (Hr & Heq & Hl'). destruct r as [|x r]; [done|].
    assert (linked head (x :: d) (<[x := hd head d]> p)) as Hlx.
    { apply linked_cons; [|done]. eapply NoDup_rev_app_cons. by rewrite -> Heq. }
    destruct r as [|y r].
    + right. eexists. split; [done|]. done.
    + left. eexists. split; [done|]. split; [|cbn; lia]. split; [done|]. split; [by rw /= -assoc|done].
  - done.
  - lia.
Qed.

Lemma hd_rev head (l : list Z) : (head :: l) !! length l = Some (hd head (rev l)).
Proof using Type.
  induction l as [|z l _] using rev_ind; [done|]. rw rev_unit length_app Nat.add_1_r. cbn.
  by rw lookup_app_r // Nat.sub_diag.
Qed.

(** [linked] in terms of positions. *)
Lemma linked_ring head l prev :
  head ∉ l → linked head (rev l) prev →
  ∀ i x, (l ++ [head]) !! i = Some x → (<[head := hd head (rev l)]> prev) !! x = (head :: l) !! i.
Proof using Type.
  intros Hh. induction l as [|y l IH] using rev_ind; intros Hl i x Hx.
  - destruct i as [|i]; [|done]. cbn in Hx. injection Hx as <-. apply lookup_insert_eq.
  - rw rev_unit in Hl *. cbn [hd linked] in *. destruct Hl as [Hy Hl].
    apply not_elem_of_app in Hh as [Hhl Hhy]. apply not_elem_of_cons in Hhy as [Hhy _].
    destruct (Nat.lt_trichotomy i (length l)) as [Hi|[->|Hi]].
    + rewrite -> !lookup_app_l in Hx by (rw ?length_app; lia).
      assert (x ≠ head) as Hxh by (intros ->; by apply list_elem_of_lookup_2 in Hx).
      rw lookup_insert_ne //. specialize (IH Hhl Hl i x). rewrite -> lookup_app_l, lookup_insert_ne in IH by done.
      rewrite -> IH by done. destruct i as [|i]; cbn; [done|]. rw lookup_app_l //. lia.
    + rewrite -> lookup_app_l, lookup_app_r, Nat.sub_diag in Hx by (rw ?length_app /=; lia).
      cbn in Hx. injection Hx as <-. rw lookup_insert_ne // Hy.
      rewrite <- hd_rev. change (head :: l ++ [y]) with ((head :: l) ++ [y]).
      rw lookup_app_l //. cbn. lia.
    + apply lookup_lt_Some in Hx as Hlt. rw !length_app /= in Hlt.
      assert (i = S (length l)) as -> by lia.
      rewrite -> lookup_app_r in Hx by (rw length_app /=; lia). rw length_app /= in Hx.
      replace (S (length l) - (length l + 1))%nat with 0%nat in Hx by lia. cbn in Hx. injection Hx as <-.
      rw lookup_insert_eq. cbn. rw lookup_app_r // Nat.sub_diag //.
Qed.
End list_sort_proofs.

(** C22: [list_sort] with a comparison that is a total preorder terminates without dereferencing a null
    pointer on every list of distinct nodes; the nodes come out in ascending order, equivalent
    nodes keep their order, and the [prev] links of the ring are those of the new order. *)
Theorem list_sort_correct cmp head nodes :
  (∀ x y, cmp x y < 0 ↔ 0 < cmp y x) → (∀ x y z, cmp x y ≤ 0 → cmp y z ≤ 0 → cmp x z ≤ 0) →
  NoDup (head :: nodes) →
  ∃ l prev, list_sort cmp head nodes = Some (l, prev) ∧
    StronglySorted (λ x y, cmp x y ≤ 0) l ∧ l ≡ₚ nodes ∧
    (∀ x, base.filter (λ y, cmp x y = 0) l = base.filter (λ y, cmp x y = 0) nodes) ∧
    (nodes ≠ [] → ∀ i x, (l ++ [head]) !! i = Some x → prev !! x = (head :: l) !! i).
Proof.
  intros Hsign Htrans [Hhead Hnd]%NoDup_cons. rw /list_sort.
  destruct nodes as [|n0 nodes]; [eexists [], ∅; split_and!; try done; constructor|].
  set (ns := n0 :: nodes) in *.
  destruct (add_nodes_ok cmp Hsign Htrans [] ns (replicate (Z.to_nat (MAX_LIST_LENGTH_BITS + 1)) [], 0))
    as ([part m] & -> & Hl & Hm & Ho & Hhi & Heq).
  { split; [done|]. split; [lia|]. split; [apply Forall_replicate; constructor|].
    change (Z.to_nat (MAX_LIST_LENGTH_BITS + 1)) with 21%nat.
    split; [intros i Hi; apply lookup_replicate_2; lia|apply equiv_refl]. }
  cbn [mbind option_bind]. rw app_nil_l in Heq.
  destruct (collect_ok cmp Hsign Htrans part m Ho) as (l & -> & Hol & Hel); [lia|]. cbn [mbind option_bind].
  destruct (rd_in part m) as [top Htop]; [lia|]. rw Htop. cbn [mbind option_bind].
  apply rd_Some in Htop as [_ Htop]. pose proof (Forall_lookup_1 _ _ _ _ Ho Htop) as Hotop.
  assert (flat part = top ++ flat (take (Z.to_nat m) part)) as Hflat.
  { rewrite <- (take_drop_middle part (Z.to_nat m) top Htop) at 1. rw flat_app.
    change (top :: drop (S (Z.to_nat m)) part) with ([top] ++ drop (S (Z.to_nat m)) part). rw flat_app.
    rw (flat_empty (drop _ _)); [rw /flat /= app_nil_r //|].
    apply Forall_lookup_2. intros i p Hp. rw lookup_drop in Hp. apply lookup_lt_Some in Hp as Hlt.
    rewrite -> Hhi in Hp by lia. congruence. }
  destruct (merge_equiv cmp Hsign Htrans top l Hotop Hol) as [Hom Hem].
  assert (equiv_seq cmp (merge cmp top l) ns) as [Hp Hs].
  { eapply equiv_trans; [exact Hem|]. eapply equiv_trans; [|exact Heq]. rw Hflat.
    apply equiv_app; [apply equiv_refl|done]. }
  assert (NoDup (merge cmp top l)) as Hndm by by rw Hp.
  destruct (restore_merge_ok cmp head top l) as (rest & d & prev & E & Hrest & Hd & Hlk); [|done|].
  { intros E. destruct Hem as [Hem _]. rw E Hp in Hem. symmetry in Hem. by apply Permutation_nil in Hem. }
  rw /merge_and_restore_back_links E. cbn [mbind option_bind].
  destruct (restore_rest_ok head rest d prev) as (d2 & prev2 & -> & Hd2 & Hlk2); [done|by rw Hd|done|].
  cbn [mbind option_bind]. rw Hd in Hd2. exists (rev d2). eexists. split; [done|]. rw Hd2.
  split_and!; [done|done|done|]. intros _ i x Hx.
  assert (d2 = rev (merge cmp top l)) as -> by (by rewrite <- Hd2; rw rev_involutive).
  apply linked_ring; [by rw Hp|done|done].
Qed.

Lemma list_sort_correct_witness :
  ∃ l prev, list_sort (λ a b, a / 10 - b / 10) 0 [31; 12; 33; 14] = Some (l, prev) ∧
    StronglySorted (λ x y, x / 10 - y / 10 ≤ 0) l ∧ l ≡ₚ [31; 12; 33; 14] ∧
    (∀ x, base.filter (λ y, x / 10 - y / 10 = 0) l = base.filter (λ y, x / 10 - y / 10 = 0) [31; 12; 33; 14]) ∧
    ([31; 12; 33; 14] ≠ [] → ∀ i x, (l ++ [0]) !! i = Some x → prev !! x = (0 :: l) !! i).
Proof.
  apply (list_sort_correct (λ a b, a / 10 - b / 10) 0 [31; 12; 33; 14]).
  - intros x y. lia.
  - intros x y z. lia.
  - apply (bool_decide_unpack _). vm_compute. exact I.
Defined.
