(* ===== verification/Ctype.v ===== *)
(** * Character classes: lib/ctype.c and include/linux/ctype.h

    Characters are bytes, numbers from 0 to 255. *)
From S2P Require Import Prelude.

Definition _U : Z := 0x01.
Definition _L : Z := 0x02.
Definition _D : Z := 0x04.
Definition _C : Z := 0x08.
Definition _P : Z := 0x10.
Definition _S : Z := 0x20.
Definition _X : Z := 0x40.
Definition _SP : Z := 0x80.

Definition _ctype : list Z :=
  [_C; _C; _C; _C; _C; _C; _C; _C;
   _C; Z.lor _C _S; Z.lor _C _S; Z.lor _C _S; Z.lor _C _S; Z.lor _C _S; _C; _C;
   _C; _C; _C; _C; _C; _C; _C; _C;
   _C; _C; _C; _C; _C; _C; _C; _C;
   Z.lor _S _SP; _P; _P; _P; _P; _P; _P; _P;
   _P; _P; _P; _P; _P; _P; _P; _P;
   _D; _D; _D; _D; _D; _D; _D; _D;
   _D; _D; _P; _P; _P; _P; _P; _P;
   _P; Z.lor _U _X; Z.lor _U _X; Z.lor _U _X; Z.lor _U _X; Z.lor _U _X; Z.lor _U _X; _U;
   _U; _U; _U; _U; _U; _U; _U; _U;
   _U; _U; _U; _U; _U; _U; _U; _U;
   _U; _U; _U; _P; _P; _P; _P; _P;
   _P; Z.lor _L _X; Z.lor _L _X; Z.lor _L _X; Z.lor _L _X; Z.lor _L _X; Z.lor _L _X; _L;
   _L; _L; _L; _L; _L; _L; _L; _L;
   _L; _L; _L; _L; _L; _L; _L; _L;
   _L; _L; _L; _P; _P; _P; _P; _C;
   0; 0; 0; 0; 0; 0; 0; 0;
   0; 0; 0; 0; 0; 0; 0; 0;
   0; 0; 0; 0; 0; 0; 0; 0;
   0; 0; 0; 0; 0; 0; 0; 0;
   Z.lor _S _SP; _P; _P; _P; _P; _P; _P; _P;
   _P; _P; _P; _P; _P; _P; _P; _P;
   _P; _P; _P; _P; _P; _P; _P; _P;
   _P; _P; _P; _P; _P; _P; _P; _P;
   _U; _U; _U; _U; _U; _U; _U; _U;
   _U; _U; _U; _U; _U; _U; _U; _U;
   _U; _U; _U; _U; _U; _U; _U; _P;
   _U; _U; _U; _U; _U; _U; _U; _L;
   _L; _L; _L; _L; _L; _L; _L; _L;
   _L; _L; _L; _L; _L; _L; _L; _L;
   _L; _L; _L; _L; _L; _L; _L; _P;
   _L; _L; _L; _L; _L; _L; _L; _L].

(** [__ismask]: the table has an entry for every byte. *)
Definition __ismask (c : Z) : Z := nth (Z.to_nat (wrap 8 c)) _ctype 0.

Definition isalnum (c : Z) : bool := negb (Z.land (__ismask c) (Z.lor (Z.lor _U _L) _D) =? 0).
Definition isalpha (c : Z) : bool := negb (Z.land (__ismask c) (Z.lor _U _L) =? 0).
Definition isdigit (c : Z) : bool := negb (Z.land (__ismask c) _D =? 0).
Definition islower (c : Z) : bool := negb (Z.land (__ismask c) _L =? 0).
Definition isspace (c : Z) : bool := negb (Z.land (__ismask c) _S =? 0).
Definition isupper (c : Z) : bool := negb (Z.land (__ismask c) _U =? 0).
Definition isxdigit (c : Z) : bool := negb (Z.land (__ismask c) (Z.lor _D _X) =? 0).

(** [unsigned char] arithmetic. *)
Definition __tolower (c : Z) : Z := if isupper c then wrap 8 (c - (65 - 97)) else c.
Definition __toupper (c : Z) : Z := if islower c then wrap 8 (c - (97 - 65)) else c.
Definition _tolower (c : Z) : Z := Z.lor c 0x20.

(** ** Facts about all bytes *)

(** A boolean property of every byte is decided by computation. *)
Definition for_all_bytes (P : Z → bool) : bool := forallb (λ n, P (Z.of_nat n)) (seq 0 256).

Lemma for_all_bytes_spec P : for_all_bytes P = true → ∀ c, in_width 8 c → P c = true.
Proof.
  intros H c [Hc0 Hc]. rw /for_all_bytes in H. rewrite -> forallb_forall in H. specialize (H (Z.to_nat c)).
  rw Z2Nat.id // in H. apply H, in_seq. change (2 ^ 8) with 256 in Hc. lia.
Qed.

(** Solve a goal about a byte by running through all of them. *)
Ltac by_bytes P c := exact (for_all_bytes_spec P ltac:(vm_compute; reflexivity) c).

Lemma isdigit_iff c : in_width 8 c → isdigit c = (48 <=? c) && (c <=? 57).
Proof.
  intros Hc. apply Bool.eqb_prop. revert Hc.
  by_bytes (λ c, Bool.eqb (isdigit c) ((48 <=? c) && (c <=? 57))) c.
Qed.

Lemma isspace_iff c : in_width 8 c → isspace c = (c =? 32) || ((9 <=? c) && (c <=? 13)) || (c =? 160).
Proof.
  intros Hc. apply Bool.eqb_prop. revert Hc.
  by_bytes (λ c, Bool.eqb (isspace c) ((c =? 32) || ((9 <=? c) && (c <=? 13)) || (c =? 160))) c.
Qed.

Lemma isspace_nul : isspace 0 = false.
Proof. vm_compute. reflexivity. Qed.

Lemma tolower_byte c : in_width 8 c → in_width 8 (__tolower c).
Proof.
  intros Hc. rw /__tolower. case_if; [by apply in_width_wrap|done].
Qed.

(** Taking the lower case twice changes nothing. *)
Lemma tolower_idem c : in_width 8 c → __tolower (__tolower c) = __tolower c.
Proof.
  intros Hc. apply Z.eqb_eq. revert Hc. by_bytes (λ c, __tolower (__tolower c) =? __tolower c) c.
Qed.
