(* ===== verification/Kstrtox.v ===== *)
(** * Parsing integers: lib/kstrtox.c and the simple_strto family of lib/vsprintf.c

    A [const char *] is the list of the bytes from the pointer to the end of the object it
    points into; reading behind the end is a fault. *)
From S2P Require Import Prelude Ctype.

(** A return value: a negative error number, or 0 with the result stored. *)
Inductive kret :=
| KErr (e : Z)
| KOk (v : Z).

Definition KSTRTOX_OVERFLOW : Z := 2 ^ 31.

(** The pointer and the base after the fixup. *)
Definition _parse_integer_fixup_radix (s : list Z) (base : Z) : option (list Z * Z) :=
  base ← (if base =? 0 then
            c0 ← rd s 0;
            if c0 =? 48 then
              c1 ← rd s 1;
              if _tolower c1 =? 120 then
                c2 ← rd s 2;
                Some (if isxdigit c2 then 16 else 8)
              else Some 8
            else Some 10
          else Some base);
  if base =? 16 then
    c0 ← rd s 0;
    if c0 =? 48 then
      c1 ← rd s 1;
      Some (if _tolower c1 =? 120 then drop 2 s else s, base)
    else Some (s, base)
  else Some (s, base).

(** The value of a digit character; [None] leaves the loop. *)
Definition digit_val (c : Z) : option Z :=
  if (48 <=? c) && (c <=? 57) then Some (c - 48)
  else if (97 <=? _tolower c) && (_tolower c <=? 102) then Some (_tolower c - 97 + 10)
  else None.

(** The loop [while ( *s)]: [res], the count [rv] and the overflow flag. *)
Fixpoint parse_digits (s : list Z) (base res rv : Z) (overflow : bool) : option (Z * Z * bool) :=
  match s with
  | [] => None
  | c :: s' =>
      if c =? 0 then Some (res, rv, overflow) else
      match digit_val c with
      | None => Some (res, rv, overflow)
      | Some val =>
          if base <=? val then Some (res, rv, overflow) else
          let overflow :=
            if negb (Z.land res (bshl 64 ULLONG_MAX 60) =? 0)
            then if (ULLONG_MAX - val) / base <? res then true else overflow
            else overflow in
          parse_digits s' base (wrap 64 (res * base + val)) (wrap 32 (rv + 1)) overflow
      end
  end.

(** The number of characters, or-ed with the overflow bit, and the value. *)
Definition _parse_integer (s : list Z) (base : Z) : option (Z * Z) :=
  '(res, rv, overflow) ← parse_digits s base 0 0 false;
  Some (if overflow : bool then Z.lor rv KSTRTOX_OVERFLOW else rv, res).

Definition _kstrtoull (s : list Z) (base : Z) : option kret :=
  '(s, base) ← _parse_integer_fixup_radix s base;
  '(rv, _res) ← _parse_integer s base;
  if negb (Z.land rv KSTRTOX_OVERFLOW =? 0) then Some (KErr (- ERANGE)) else
  let rv := Z.land rv (bnot 32 KSTRTOX_OVERFLOW) in
  if rv =? 0 then Some (KErr (- EINVAL)) else
  let s := drop (Z.to_nat rv) s in
  c ← rd s 0;
  let s := if c =? 10 then drop 1 s else s in
  c ← rd s 0;
  if negb (c =? 0) then Some (KErr (- EINVAL)) else Some (KOk _res).

Definition kstrtoull (s : list Z) (base : Z) : option kret :=
  c ← rd s 0;
  _kstrtoull (if c =? 43 then drop 1 s else s) base.

Definition kstrtoll (s : list Z) (base : Z) : option kret :=
  c ← rd s 0;
  if c =? 45 then
    rv ← _kstrtoull (drop 1 s) base;
    match rv with
    | KErr e => Some (KErr e)
    | KOk tmp =>
        if 0 <=? swrap 64 (- tmp) then Some (KErr (- ERANGE)) else Some (KOk (swrap 64 (- tmp)))
    end
  else
    rv ← kstrtoull s base;
    match rv with
    | KErr e => Some (KErr e)
    | KOk tmp => if swrap 64 tmp <? 0 then Some (KErr (- ERANGE)) else Some (KOk tmp)
    end.

(** The narrower unsigned and signed types: [tmp != (type)tmp]. *)
Definition narrow_u (w : Z) (s : list Z) (base : Z) : option kret :=
  rv ← kstrtoull s base;
  match rv with
  | KErr e => Some (KErr e)
  | KOk tmp => if negb (tmp =? wrap w tmp) then Some (KErr (- ERANGE)) else Some (KOk tmp)
  end.

Definition narrow_s (w : Z) (s : list Z) (base : Z) : option kret :=
  rv ← kstrtoll s base;
  match rv with
  | KErr e => Some (KErr e)
  | KOk tmp => if negb (tmp =? swrap w tmp) then Some (KErr (- ERANGE)) else Some (KOk tmp)
  end.

Definition _kstrtoul : list Z → Z → option kret := narrow_u 64.
Definition _kstrtol : list Z → Z → option kret := narrow_s 64.
Definition kstrtouint : list Z → Z → option kret := narrow_u 32.
Definition kstrtoint : list Z → Z → option kret := narrow_s 32.
Definition kstrtou16 : list Z → Z → option kret := narrow_u 16.
Definition kstrtos16 : list Z → Z → option kret := narrow_s 16.
Definition kstrtou8 : list Z → Z → option kret := narrow_u 8.
Definition kstrtos8 : list Z → Z → option kret := narrow_s 8.

(** [kstrto_from_user(f, g, type)] with [size] the [sizeof] of the type and [user] the readable user
    memory at [s]. *)
Definition kstrto_from_user (g : list Z → Z → option kret) (size : Z) (user : list Z) (count base : Z)
  : option kret :=
  let buf := 1 + size * 8 + 1 + 1 in
  let count := Z.min count (buf - 1) in
  if Z.of_nat (length user) <? count then Some (KErr (- EFAULT)) else
  g (take (Z.to_nat count) user ++ [0]) base.

(** ** The unchecked conversions *)

(** The value and the pointer behind the number. *)
Definition simple_strtoull (cp : list Z) (base : Z) : option (Z * list Z) :=
  '(cp, base) ← _parse_integer_fixup_radix cp base;
  '(rv, result) ← _parse_integer cp base;
  Some (result, drop (Z.to_nat (Z.land rv (bnot 32 KSTRTOX_OVERFLOW))) cp).

Definition simple_strtoul (cp : list Z) (base : Z) : option (Z * list Z) := simple_strtoull cp base.

Definition simple_strtoll (cp : list Z) (base : Z) : option (Z * list Z) :=
  c ← rd cp 0;
  if c =? 45 then
    '(v, e) ← simple_strtoull (drop 1 cp) base; Some (swrap 64 (- v), e)
  else '(v, e) ← simple_strtoull cp base; Some (swrap 64 v, e).

Definition simple_strtol (cp : list Z) (base : Z) : option (Z * list Z) :=
  c ← rd cp 0;
  if c =? 45 then
    '(v, e) ← simple_strtoul (drop 1 cp) base; Some (swrap 64 (- v), e)
  else '(v, e) ← simple_strtoul cp base; Some (swrap 64 v, e).

(** ** What a string denotes *)

(** The values of the longest prefix of digits below [base], and the number they denote. *)
Fixpoint digit_prefix (s : list Z) (base : Z) : list Z :=
  match s with
  | [] => []
  | c :: s' =>
      if c =? 0 then [] else
      match digit_val c with
      | Some v => if base <=? v then [] else v :: digit_prefix s' base
      | None => []
      end
  end.

Definition value (base : Z) (ds : list Z) : Z := foldl (λ v d, v * base + d) 0 ds.

(** Strings: bytes without 0, and the object that holds one. *)
Definition cstring (s : list Z) : Prop := Forall (λ c, in_width 8 c ∧ c ≠ 0) s.

(** *** Values *)

Lemma value_app base ds es :
  value base (ds ++ es) = foldl (λ v d, v * base + d) (value base ds) es.
Proof. by rw /value foldl_app. Qed.

Lemma foldl_value_mono base es v :
  1 ≤ base → 0 ≤ v → Forall (λ d, 0 ≤ d) es → v ≤ foldl (λ v d, v * base + d) v es.
Proof.
  intros Hb Hv He. revert v Hv. induction He as [|d es Hd _ IH]; intros v Hv; cbn; [done|].
  etransitivity; [|apply IH; nia]. nia.
Qed.

Lemma digit_val_bound c v : digit_val c = Some v → 0 ≤ v < 16.
Proof. rw /digit_val. repeat case_if; intros [= <-]; lia. Qed.

(** The mask test of the loop: only numbers below [2^60] pass without the division. *)
Lemma mask60 res : in_width 64 res → Z.land res (bshl 64 ULLONG_MAX 60) = 0 → res < 2 ^ 60.
Proof.
  intros Hres Hz. replace res with (Z.land res (Z.ones 60)).
  - rw Z.land_ones //. apply Z.mod_pos_bound. lia.
  - apply (word_ext 64); [lia|apply in_width_land; [lia|done|]; done|done|].
    intros i Hi. apply (f_equal (λ z, Z.testbit z i)) in Hz. rw Z.bits_0 Z.land_spec in Hz.
    rw Z.land_spec testbit_ones; [|lia]. rw testbit_bshl in Hz; [|lia..].
    change ULLONG_MAX with (Z.ones 64) in Hz. rw testbit_ones in Hz; [|lia].
    destruct (Z.lt_ge_cases i 60); ztest; [done|].
    move: Hz. ztest. intros ->. done.
Qed.

(** *** The loop *)

(** [v] is the exact value so far; the flag tells whether it still fits 64 bits. *)
Definition parsed (v res : Z) (overflow : bool) : Prop :=
  0 ≤ v ∧ in_width 64 res ∧ overflow = (2 ^ 64 <=? v) ∧ (v < 2 ^ 64 → res = v).

Lemma parsed_step base v res overflow val :
  2 ≤ base ≤ 16 → 0 ≤ val < base → parsed v res overflow →
  parsed (v * base + val) (wrap 64 (res * base + val))
    (if negb (Z.land res (bshl 64 ULLONG_MAX 60) =? 0)
     then if (ULLONG_MAX - val) / base <? res then true else overflow else overflow).
Proof.
  intros Hb Hval (Hv & Hres & Hov & Heq). split; [nia|]. split; [by apply in_width_wrap|].
  destruct (Z.lt_ge_cases v (2 ^ 64)) as [Hlt|Hge].
  2:{ assert (overflow = true) as -> by (rw Hov; by apply Z.leb_le). split; [|nia].
      ztest. by repeat case_if. }
  specialize (Heq Hlt). subst res. assert (overflow = false) as -> by (rw Hov; by apply Z.leb_gt).
  assert ((ULLONG_MAX - val) / base <? v = (2 ^ 64 <=? v * base + val)) as Hdiv.
  { apply Bool.eq_true_iff_eq. rw Z.ltb_lt Z.leb_le /ULLONG_MAX.
    pose proof (Z.div_mod (2 ^ 64 - 1 - val) base ltac:(lia)).
    pose proof (Z.mod_pos_bound (2 ^ 64 - 1 - val) base ltac:(lia)). split; nia. }
  split.
  - destruct (negb _) eqn:E; zbool; [rw Hdiv; by case_if|].
    symmetry. apply Z.leb_gt. pose proof (mask60 v Hres E). change (2 ^ 64) with (2 ^ 60 * 16). nia.
  - intros Hsm. apply wrap_small. split; [nia|done].
Qed.

Lemma parse_digits_spec s base v res rv overflow :
  2 ≤ base ≤ 16 → 0 ∈ s → parsed v res overflow → 0 ≤ rv →
  rv + Z.of_nat (length (digit_prefix s base)) < 2 ^ 31 →
  ∃ res' overflow', parse_digits s base res rv overflow =
      Some (res', rv + Z.of_nat (length (digit_prefix s base)), overflow') ∧
    parsed (foldl (λ v d, v * base + d) v (digit_prefix s base)) res' overflow'.
Proof.
  intros Hb. revert v res rv overflow. induction s as [|c s IH]; intros v res rv ov Hnul Hp Hrv Hlen.
  { by apply elem_of_nil in Hnul. }
  cbn [parse_digits digit_prefix] in *. destruct (Z.eqb_spec c 0) as [->|Hc0].
  { exists res, ov. cbn. by rw Z.add_0_r. }
  destruct (digit_val c) as [val|] eqn:Ed; [|exists res, ov; cbn; by rw Z.add_0_r].
  destruct (base <=? val) eqn:Eb; zbool; [exists res, ov; cbn; by rw Z.add_0_r|].
  apply digit_val_bound in Ed. cbn [length foldl] in *.
  rw (wrap_small 32 (rv + 1)); [|split; [lia|change (2 ^ 32) with (2 ^ 31 * 2); lia]].
  destruct (IH (v * base + val) (wrap 64 (res * base + val)) (rv + 1)
    (if negb (Z.land res (bshl 64 ULLONG_MAX 60) =? 0)
     then if (ULLONG_MAX - val) / base <? res then true else ov else ov))
    as (res' & ov' & E & Hp'); [|apply parsed_step; [done|lia|done]|lia|lia|].
  { apply elem_of_cons in Hnul as [?|?]; [congruence|done]. }
  exists res', ov'. rw E. split; [|done]. do 3 f_equal. lia.
Qed.

(** *** [_parse_integer] and its callers *)

Lemma digit_prefix_length s base : (length (digit_prefix s base) ≤ length s)%nat.
Proof.
  induction s as [|c s IH]; cbn; [lia|]. case_if; [cbn; lia|]. destruct (digit_val c); [|cbn; lia].
  case_if; cbn; lia.
Qed.

Lemma digit_prefix_shorter s base : 0 ∈ s → (length (digit_prefix s base) < length s)%nat.
Proof.
  induction s as [|c s IH]; intros H; [by apply elem_of_nil in H|]. cbn.
  destruct (Z.eqb_spec c 0); [cbn; lia|]. destruct (digit_val c); [|cbn; lia]. case_if; [cbn; lia|]. cbn.
  apply elem_of_cons in H as [?|H]; [congruence|]. specialize (IH H). lia.
Qed.

Lemma overflow_bit n :
  0 ≤ n < 2 ^ 31 →
  Z.land n KSTRTOX_OVERFLOW = 0 ∧ Z.land (Z.lor n KSTRTOX_OVERFLOW) KSTRTOX_OVERFLOW ≠ 0 ∧
  Z.land n (bnot 32 KSTRTOX_OVERFLOW) = n ∧
  Z.land (Z.lor n KSTRTOX_OVERFLOW) (bnot 32 KSTRTOX_OVERFLOW) = n.
Proof.
  intros Hn. rw /KSTRTOX_OVERFLOW. change (bnot 32 (2 ^ 31)) with (Z.ones 31).
  assert (Z.testbit n 31 = false) as Hb by (by apply (testbit_above 31)).
  assert (∀ i, 0 ≤ i → Z.testbit n i = Z.testbit n i && (i <? 31)) as Hlow.
  { intros i Hi. destruct (Z.ltb_spec i 31); [by rw andb_true_r|]. rw andb_false_r.
    by apply (testbit_above 31). }
  split_and!.
  - apply Z.bits_inj'. intros i Hi. autorewrite with bits. destruct (Z.eqb_spec 31 i) as [<-|].
    + by rw Hb.
    + by rw andb_false_r.
  - intros H. apply (f_equal (λ z, Z.testbit z 31)) in H. autorewrite with bits in H. move: H. ztest. done.
  - apply Z.bits_inj'. intros i Hi. autorewrite with bits. ztest. by rewrite <- Hlow.
  - apply Z.bits_inj'. intros i Hi. autorewrite with bits. ztest.
    destruct (Z.eqb_spec 31 i) as [<-|]; [by rw Hb|]. rw orb_false_r. by rewrite <- Hlow.
Qed.

Lemma parse_integer_spec s base :
  2 ≤ base ≤ 16 → 0 ∈ s → Z.of_nat (length s) < 2 ^ 31 →
  let ds := digit_prefix s base in
  ∃ res, _parse_integer s base =
      Some (if 2 ^ 64 <=? value base ds then Z.lor (Z.of_nat (length ds)) KSTRTOX_OVERFLOW
            else Z.of_nat (length ds), res) ∧ in_width 64 res ∧
    (value base ds < 2 ^ 64 → res = value base ds).
Proof.
  intros Hb Hnul Hlen ds. pose proof (digit_prefix_length s base) as Hds. rw /_parse_integer.
  destruct (parse_digits_spec s base 0 0 0 false) as (res & ov & -> & Hv & Hres & -> & Heq);
    [done|done| |lia|lia|].
  { split; [lia|]. split; [by apply in_width_0|]. done. }
  cbn [mbind option_bind]. exists res. split; [|done]. by rw Z.add_0_l.
Qed.

(** What [_kstrtoull] answers, in terms of the digits behind the radix prefix. *)
Definition kstrtoull_answer (s : list Z) (base : Z) : kret :=
  let ds := digit_prefix s base in
  let rest := drop (length ds) s in
  if 2 ^ 64 <=? value base ds then KErr (- ERANGE)
  else if bool_decide (ds = []) then KErr (- EINVAL)
  else match rest with
  | c :: rest' =>
      if c =? 0 then KOk (value base ds)
      else if (c =? 10) && bool_decide (hd 1 rest' = 0) then KOk (value base ds) else KErr (- EINVAL)
  | [] => KErr (- EINVAL)
  end.

Lemma elem_of_digit_rest s base : 0 ∈ s → 0 ∈ drop (length (digit_prefix s base)) s.
Proof.
  induction s as [|c s IH]; intros H; [by apply elem_of_nil in H|]. cbn.
  destruct (Z.eqb_spec c 0); [done|]. destruct (digit_val c); [|done]. case_if; [done|]. cbn.
  apply IH. apply elem_of_cons in H as [?|H]; [congruence|done].
Qed.

(** ** Numbers with their radix prefix *)

Lemma rd_next (s : list Z) k c : 0 ∈ drop (Z.to_nat k) s → rd s k = Some c → c ≠ 0 → 0 ∈ drop (Z.to_nat (k + 1)) s.
Proof.
  intros H [Hk Hc]%rd_Some Hne. rewrite -> (drop_S s c (Z.to_nat k)) in H by done. apply elem_of_cons in H as [?|H]; [done|].
  replace (Z.to_nat (k + 1)) with (S (Z.to_nat k)) by lia. done.
Qed.

Lemma rd_terminated (s : list Z) k : 0 ≤ k → 0 ∈ drop (Z.to_nat k) s → is_Some (rd s k).
Proof.
  intros Hk H. apply rd_in. split; [done|]. apply list_elem_of_lookup in H as [i Hi]. rw lookup_drop in Hi.
  apply lookup_lt_Some in Hi. lia.
Qed.

Lemma fixup_auto s :
  0 ∈ s → ∃ k b, _parse_integer_fixup_radix s 0 = Some (drop k s, b) ∧ 2 ≤ b ≤ 16 ∧ 0 ∈ drop k s.
Proof.
  intros H. rw /_parse_integer_fixup_radix Z.eqb_refl. destruct (rd_terminated s 0) as [c0 E0]; [done|done|]. rw E0. cbn [mbind option_bind].
  destruct (Z.eqb_spec c0 48) as [->|]; [|by exists 0%nat, 10].
  pose proof (rd_next s 0 48 H E0 ltac:(done)) as H1. destruct (rd_terminated s 1) as [c1 E1]; [done|done|]. rw E1. cbn [mbind option_bind].
  destruct (Z.eqb_spec (_tolower c1) 120) as [Ex|]; [|by exists 0%nat, 8].
  assert (c1 ≠ 0) as Hc1 by (intros ->; done). pose proof (rd_next s 1 c1 H1 E1 Hc1) as H2.
  destruct (rd_terminated s 2) as [c2 E2]; [done|done|]. rw E2. cbn [mbind option_bind]. destruct (isxdigit c2).
  - cbn [Z.eqb Pos.eqb]. cbn [mbind option_bind Z.eqb Pos.eqb]. by exists 2%nat, 16.
  - by exists 0%nat, 8.
Qed.

(** The same for a given base. *)
Lemma fixup_any s base : base = 0 ∨ 2 ≤ base ≤ 16 → 0 ∈ s → ∃ k b, _parse_integer_fixup_radix s base = Some (drop k s, b) ∧ 2 ≤ b ≤ 16 ∧ 0 ∈ drop k s.
Proof.
  intros [->|Hb] H; [by apply fixup_auto|]. rw /_parse_integer_fixup_radix. ztest. cbn [mbind option_bind]. destruct (Z.eqb_spec base 16) as [->|]; [|by exists 0%nat, base].
  destruct (rd_terminated s 0) as [c0 E0]; [done|done|]. rw E0. cbn [mbind option_bind]. destruct (Z.eqb_spec c0 48) as [->|]; [|by exists 0%nat, 16].
  pose proof (rd_next s 0 48 H E0 ltac:(done)) as H1. destruct (rd_terminated s 1) as [c1 E1]; [done|done|]. rw E1. cbn [mbind option_bind].
  destruct (Z.eqb_spec (_tolower c1) 120) as [Ex|]; [|by exists 0%nat, 16]. assert (c1 ≠ 0) as Hc1 by (intros ->; done). pose proof (rd_next s 1 c1 H1 E1 Hc1) as H2. by exists 2%nat, 16.
Qed.

(** The unchecked conversion stops behind the digits. *)
Lemma simple_strtoull_at s base s' b : _parse_integer_fixup_radix s base = Some (s', b) → 2 ≤ b ≤ 16 → 0 ∈ s' → Z.of_nat (length s') < 2 ^ 31 →
  ∃ v, simple_strtoull s base = Some (v, drop (length (digit_prefix s' b)) s') ∧ in_width 64 v ∧ (value b (digit_prefix s' b) < 2 ^ 64 → v = value b (digit_prefix s' b)).
Proof.
  intros Ef Hb Hnul Hl. rw /simple_strtoull Ef. cbn [mbind option_bind]. destruct (parse_integer_spec s' b Hb Hnul Hl) as (res & -> & Hw & Hv). cbn [mbind option_bind].
  set (ds := digit_prefix s' b) in *. pose proof (digit_prefix_length s' b) as Hd. fold ds in Hd. destruct (overflow_bit (Z.of_nat (length ds)) ltac:(lia)) as (_ & _ & H3 & H4).
  assert (Z.land (if 2 ^ 64 <=? value b ds then Z.lor (Z.of_nat (length ds)) KSTRTOX_OVERFLOW else Z.of_nat (length ds))
    (bnot 32 KSTRTOX_OVERFLOW) = Z.of_nat (length ds)) as -> by (by case_if). rw Nat2Z.id. by exists res.
Qed.

(** The conversions of a terminated string return, and stop inside it. *)
Lemma simple_strtoull_total s base : base = 0 ∨ 2 ≤ base ≤ 16 → 0 ∈ s → Z.of_nat (length s) < 2 ^ 31 → ∃ v k, simple_strtoull s base = Some (v, drop k s) ∧ 0 ∈ drop k s.
Proof.
  intros Hbase H Hl. destruct (fixup_any s base Hbase H) as (k & b & Ef & Hb & Hk). destruct (simple_strtoull_at s base _ b Ef Hb Hk) as (v & -> & _); [rw length_drop; lia|].
  rw drop_drop. exists v, (k + length (digit_prefix (drop k s) b))%nat. split; [done|]. pose proof (elem_of_digit_rest (drop k s) b Hk) as Hr. by rw drop_drop in Hr.
Qed.

Lemma kstrtoull_tail s base s' b :
  _parse_integer_fixup_radix s base = Some (s', b) → 2 ≤ b ≤ 16 → 0 ∈ s' →
  Z.of_nat (length s') < 2 ^ 31 → _kstrtoull s base = Some (kstrtoull_answer s' b).
Proof.
  intros Hfix Hb Hnul Hlen. rw /_kstrtoull Hfix. cbn [mbind option_bind].
  destruct (parse_integer_spec s' b Hb Hnul Hlen) as (res & -> & _ & Heq). cbn [mbind option_bind].
  rw /kstrtoull_answer. set (ds := digit_prefix s' b) in *.
  pose proof (digit_prefix_length s' b) as Hds. fold ds in Hds.
  destruct (overflow_bit (Z.of_nat (length ds)) ltac:(lia)) as (H1 & H2 & H3 & _).
  destruct (2 ^ 64 <=? value b ds) eqn:E; zbool; [by ztest|]. rw H1 H3. cbn [Z.eqb negb].
  destruct ds as [|d ds'] eqn:Eds; [done|]. rw bool_decide_eq_false_2 //. cbn [length]. ztest.
  rw Nat2Z.id. set (rest := drop _ s').
  assert (0 ∈ rest) as Hrest.
  { rw /rest. pose proof (elem_of_digit_rest s' b Hnul) as H. fold ds in H. rw Eds in H. exact H. }
  destruct rest as [|c rest]; [by apply elem_of_nil in Hrest|].
  change (rd (c :: rest) 0) with (Some c). cbn [mbind option_bind].
  destruct (Z.eqb_spec c 10) as [->|Hc].
  - cbn [Z.eqb Pos.eqb andb]. apply elem_of_cons in Hrest as [?|Hrest]; [done|].
    destruct rest as [|c' rest]; [by apply elem_of_nil in Hrest|].
    change (rd (drop 1 (10 :: c' :: rest)) 0) with (Some c'). cbn [mbind option_bind hd].
    rw Heq //. destruct (Z.eqb_spec c' 0); [rw bool_decide_eq_true_2 //|rw bool_decide_eq_false_2 //].
  - change (rd (c :: rest) 0) with (Some c). cbn [mbind option_bind]. rw Heq //.
    by destruct (Z.eqb_spec c 0).
Qed.

(** ** What the conversions answer *)

(** The digits and the radix of a number: a given base; for base 16 behind a prefix 0x, if there is one; for base 0 as
    in C, hexadecimal behind 0x that a hexadecimal digit follows, octal behind 0, decimal otherwise. *)
Definition is_x (c : Z) : bool := (c =? 120) || (c =? 88).
Definition is_hex (s : list Z) : bool := match s with c :: _ => match digit_val c with Some _ => true | None => false end | [] => false end.
Definition split_radix (s : list Z) (base : Z) : list Z * Z :=
  match s with
  | c0 :: c1 :: rest =>
      if base =? 16 then (if (c0 =? 48) && is_x c1 then rest else s, 16)
      else if base =? 0 then
        if (c0 =? 48) && is_x c1 && is_hex rest then (rest, 16) else (s, if c0 =? 48 then 8 else 10)
      else (s, base)
  | _ => (s, if base =? 0 then 10 else base)
  end.

(** A number without a sign, with an optional plus sign, and with an optional sign. *)
Definition number_answer (s : list Z) (base : Z) : kret := let '(s, base) := split_radix s base in kstrtoull_answer s base.
Definition unsigned_answer (s : list Z) (base : Z) : kret := number_answer (match s with 43 :: s' => s' | _ => s end) base.
Definition signed_answer (s : list Z) (base : Z) : kret :=
  match s with
  | 45 :: s' =>
      match number_answer s' base with
      | KOk v => if (1 <=? v) && (v <=? 2 ^ 63) then KOk (- v) else KErr (- ERANGE)
      | KErr e => KErr e
      end
  | _ =>
      match unsigned_answer s base with
      | KOk v => if v <? 2 ^ 63 then KOk v else KErr (- ERANGE)
      | KErr e => KErr e
      end
  end.

(** Those of the numbers that a type holds. *)
Definition restrict (lo hi : Z) (r : kret) : kret :=
  match r with
  | KOk v => if (lo <=? v) && (v <? hi) then KOk v else KErr (- ERANGE)
  | KErr e => KErr e
  end.

Example kstrtoull_answers :
  kstrtoull_answer [49; 50; 51; 10; 0] 10 = KOk 123 ∧ kstrtoull_answer [49; 32; 0] 10 = KErr (- EINVAL) ∧
  kstrtoull_answer (replicate 20 57 ++ [0]) 10 = KErr (- ERANGE).
Proof. vm_compute. done. Qed.

(** 0x1f, 0x1F with base 16, 017, 0x without a digit, 0xg. *)
Example radix_answers :
  unsigned_answer [48; 120; 49; 102; 0] 0 = KOk 31 ∧ unsigned_answer [48; 88; 49; 70; 0] 16 = KOk 31 ∧ unsigned_answer [48; 49; 55; 0] 0 = KOk 15 ∧
  unsigned_answer [48; 120; 0] 16 = KErr (- EINVAL) ∧ unsigned_answer [48; 120; 103; 0] 0 = KErr (- EINVAL).
Proof. vm_compute. done. Qed.

Lemma tolower_x c : in_width 8 c → (_tolower c =? 120) = is_x c.
Proof. intros Hc. apply eqb_prop. revert Hc. by_bytes (λ c, Bool.eqb (_tolower c =? 120) (is_x c)) c. Qed.

Lemma isxdigit_hex c rest : in_width 8 c → isxdigit c = is_hex (c :: rest).
Proof.
  intros Hc. apply eqb_prop. revert Hc.
  by_bytes (λ c, Bool.eqb (isxdigit c) (match digit_val c with Some _ => true | None => false end)) c.
Qed.

Lemma rd_cons_1 (a b : Z) s : rd (a :: b :: s) 1 = Some b.
Proof. apply rd_Some. done. Qed.

Lemma rd_cons_2 (a b c : Z) s : rd (a :: b :: c :: s) 2 = Some c.
Proof. apply rd_Some. done. Qed.

(** The fixup finds the digits and the radix. *)
Lemma fixup_radix s base :
  base = 0 ∨ 2 ≤ base ≤ 16 → Forall (in_width 8) s → 0 ∈ s →
  _parse_integer_fixup_radix s base = Some (split_radix s base) ∧ 2 ≤ (split_radix s base).2 ≤ 16 ∧
  0 ∈ (split_radix s base).1 ∧ (length (split_radix s base).1 ≤ length s)%nat.
Proof.
  intros Hb Hs Hnul. destruct s as [|c0 s]; [by apply elem_of_nil in Hnul|]. apply Forall_cons in Hs as [H0 Hs].
  rw /_parse_integer_fixup_radix. change (rd (c0 :: s) 0) with (Some c0). cbn [mbind option_bind].
  destruct s as [|c1 s].
  { apply list_elem_of_singleton in Hnul as <-. cbn [split_radix Z.eqb]. destruct Hb as [->|Hb]; [split_and!; done || lia || set_solver|].
    ztest. cbn [mbind option_bind fst snd]. case_if; subst; split_and!; done || lia || set_solver. }
  apply Forall_cons in Hs as [H1 Hs]. rw rd_cons_1. cbn [mbind option_bind]. rewrite -> (tolower_x c1 H1).
  assert (c0 = 48 → is_x c1 = true → 0 ∈ s) as Hrest.
  { intros -> Hx. rewrite -> !elem_of_cons in Hnul. destruct Hnul as [?|[?|?]]; [done| |done]. by subst. }
  assert ((if Z.eqb base 16 then if c0 =? 48 then Some (if is_x c1 then drop 2 (c0 :: c1 :: s) else c0 :: c1 :: s, base) else Some (c0 :: c1 :: s, base)
           else Some (c0 :: c1 :: s, base)) =
    Some (if Z.eqb base 16 then if (c0 =? 48) && is_x c1 then s else c0 :: c1 :: s else c0 :: c1 :: s, base)) as E16.
  { destruct (Z.eqb base 16); [|done]. by destruct (c0 =? 48), (is_x c1). }
  cbn [split_radix]. destruct Hb as [->|Hb].
  - cbn [Z.eqb]. clear E16. destruct (Z.eqb_spec c0 48) as [->|]; cbn [andb mbind option_bind]; [|split_and!; done || lia].
    destruct (is_x c1) eqn:Ex; cbn [andb mbind option_bind]; [|split_and!; done || lia].
    specialize (Hrest eq_refl eq_refl). destruct s as [|c2 s]; [by apply elem_of_nil in Hrest|]. apply Forall_cons in Hs as [H2 _].
    rw rd_cons_2. cbn [mbind option_bind]. rewrite -> (isxdigit_hex c2 s H2). destruct (is_hex (c2 :: s)); cbn [mbind option_bind Z.eqb Pos.eqb drop fst snd length]; split_and!; done || lia.
  - rewrite -> (proj2 (Z.eqb_neq base 0)) by lia. cbn [mbind option_bind]. rw E16. destruct (Z.eqb_spec base 16) as [->|]; cbn [fst snd]; [|split_and!; done || lia].
    destruct (Z.eqb_spec c0 48) as [->|]; cbn [andb]; [|split_and!; done || lia]. destruct (is_x c1) eqn:Ex; [|split_and!; done || lia].
    split_and!; [done|lia|lia|by apply Hrest|cbn; lia].
Qed.

Lemma kstrtoull_number s base :
  base = 0 ∨ 2 ≤ base ≤ 16 → Forall (in_width 8) s → 0 ∈ s → Z.of_nat (length s) < 2 ^ 31 → _kstrtoull s base = Some (number_answer s base).
Proof.
  intros Hb Hs Hnul Hlen. destruct (fixup_radix s base Hb Hs Hnul) as (Ef & Hr & Hn & Hl). rw /number_answer. destruct (split_radix s base) as [s' b].
  cbn in *. by rewrite -> (kstrtoull_tail s base s' b) by (done || lia).
Qed.

(** *** Claims *)

Lemma swrap64_neg v : 0 < v ≤ 2 ^ 63 → swrap 64 (- v) = - v.
Proof. intros. apply swrap_small; [lia|]. change (2 ^ (64 - 1)) with (2 ^ 63). lia. Qed.

Lemma swrap64_cases v :
  in_width 64 v → swrap 64 v = if v <? 2 ^ 63 then v else v - 2 ^ 64.
Proof.
  intros [Hv0 Hv]. rw /swrap. change (2 ^ (64 - 1)) with (2 ^ 63). change (2 ^ 64) with (2 * 2 ^ 63) in *.
  case_if.
  - rw Z.mod_small; lia.
  - replace (v + 2 ^ 63) with (v - 2 ^ 63 + 1 * (2 * 2 ^ 63)) by lia.
    rewrite -> Z.mod_add by lia. rw Z.mod_small; lia.
Qed.

(** The number of accepted digits fits 64 bits. *)
Lemma answer_width s base v : 2 ≤ base → kstrtoull_answer s base = KOk v → in_width 64 v.
Proof.
  intros Hb. rw /kstrtoull_answer. repeat case_if; try done.
  assert (0 ≤ value base (digit_prefix s base)) as Hpos.
  { rw /value. apply foldl_value_mono; [lia|lia|]. clear. induction s as [|c s IH]; cbn; [constructor|].
    case_if; [constructor|]. destruct (digit_val c) eqn:E; [|constructor]. case_if; constructor; [|done].
    apply digit_val_bound in E. lia. }
  destruct (drop _ s) as [|c rest]; [done|]. repeat case_if; intros [= <-]; split; done || lia.
Qed.

(** The conversions to narrower types accept exactly what the 64-bit conversion accepts and the type
    can hold; they return [-ERANGE] for the rest and pass errors on. *)
Lemma narrow_exact w s base :
  0 < w ≤ 64 →
  (∀ v, kstrtoull s base = Some (KOk v) → 0 ≤ v →
     narrow_u w s base = Some (if v <? 2 ^ w then KOk v else KErr (- ERANGE))) ∧
  (∀ v, kstrtoll s base = Some (KOk v) →
     narrow_s w s base =
     Some (if (- 2 ^ (w - 1) <=? v) && (v <? 2 ^ (w - 1)) then KOk v else KErr (- ERANGE))) ∧
  (∀ e, kstrtoull s base = Some (KErr e) → narrow_u w s base = Some (KErr e)) ∧
  (∀ e, kstrtoll s base = Some (KErr e) → narrow_s w s base = Some (KErr e)).
Proof.
  intros Hw. split_and!.
  - intros v E Hv. rw /narrow_u E. cbn [mbind option_bind]. f_equal.
    destruct (Z.ltb_spec v (2 ^ w)) as [Hlt|Hge]; [by rw wrap_small // Z.eqb_refl|].
    pose proof (in_width_wrap w v ltac:(lia)) as [? ?]. by ztest.
  - intros v E. rw /narrow_s E. cbn [mbind option_bind]. f_equal.
    destruct ((- 2 ^ (w - 1) <=? v) && (v <? 2 ^ (w - 1))) eqn:Er; zbool.
    + rw swrap_small; [|lia|lia]. by rw Z.eqb_refl.
    + assert (- 2 ^ (w - 1) ≤ swrap w v < 2 ^ (w - 1)) as Hs.
      { rw /swrap. pose proof (Z.mod_pos_bound (v + 2 ^ (w - 1)) (2 ^ w) ltac:(apply pow2_pos; lia)).
        assert (2 ^ w = 2 * 2 ^ (w - 1)) by (rw -Z.pow_succ_r; [f_equal; lia|lia]). lia. }
      assert (v ≠ swrap w v) by (destruct Er; zbool; lia). by ztest.
  - intros e E. by rw /narrow_u E.
  - intros e E. by rw /narrow_s E.
Qed.

(** The number of an accepted string fits 64 bits. *)
Lemma number_answer_width s base v : base = 0 ∨ 2 ≤ base ≤ 16 → Forall (in_width 8) s → 0 ∈ s → number_answer s base = KOk v → in_width 64 v.
Proof.
  intros Hb Hs Hnul. destruct (fixup_radix s base Hb Hs Hnul) as (_ & Hr & _). rw /number_answer. destruct (split_radix s base) as [s' b]. apply answer_width. cbn in Hr. lia.
Qed.

(** Behind a sign the string goes on. *)
Lemma sign_rest c s : Forall (in_width 8) (c :: s) → 0 ∈ c :: s → Z.of_nat (length (c :: s)) < 2 ^ 31 → c ≠ 0 →
  Forall (in_width 8) s ∧ 0 ∈ s ∧ Z.of_nat (length s) < 2 ^ 31.
Proof.
  intros [_ Hs]%Forall_cons Hnul Hlen Hc. apply elem_of_cons in Hnul as [?|?]; [done|]. cbn in Hlen. split_and!; [done|done|lia].
Qed.

Section answers.
Context (s : list Z) (base : Z).
Hypothesis Hb : base = 0 ∨ 2 ≤ base ≤ 16.
Hypothesis Hs : Forall (in_width 8) s.
Hypothesis Hnul : 0 ∈ s.
Hypothesis Hlen : Z.of_nat (length s) < 2 ^ 31.

Lemma kstrtoull_unsigned : kstrtoull s base = Some (unsigned_answer s base) ∧ ∀ v, unsigned_answer s base = KOk v → in_width 64 v.
Proof using All.
  rw /kstrtoull /unsigned_answer. destruct s as [|c s0]; [by apply elem_of_nil in Hnul|]. change (rd (c :: s0) 0) with (Some c). cbn [mbind option_bind].
  destruct (Z.eqb_spec c 43) as [->|Hc].
  - destruct (sign_rest 43 s0 Hs Hnul Hlen ltac:(done)) as (? & ? & ?). split; [by apply kstrtoull_number|]. intros v. by apply number_answer_width.
  - replace (match c :: s0 with 43 :: s' => s' | _ => c :: s0 end) with (c :: s0).
    + split; [by apply kstrtoull_number|]. intros v. by apply number_answer_width.
    + destruct c as [|c|c]; try done. repeat (destruct c as [c|c|]; try done).
Qed.

Lemma kstrtoll_signed : kstrtoll s base = Some (signed_answer s base).
Proof using All.
  destruct kstrtoull_unsigned as [Eu Hu]. rw /kstrtoll. destruct s as [|c s0]; [by apply elem_of_nil in Hnul|]. change (rd (c :: s0) 0) with (Some c). cbn [mbind option_bind].
  destruct (Z.eqb_spec c 45) as [->|Hc].
  - change (drop 1 (45 :: s0)) with s0; cbn [signed_answer]. destruct (sign_rest 45 s0 Hs Hnul Hlen ltac:(done)) as (H1 & H2 & H3). rewrite -> (kstrtoull_number s0 base) by done. cbn [mbind option_bind].
    destruct (number_answer s0 base) as [e|v] eqn:En; [done|]. destruct (number_answer_width s0 base v Hb H1 H2 En) as [Hv0 Hv].
    destruct (Z.eq_dec v 0) as [->|]; [done|].
    assert (swrap 64 (- v) = swrap 64 (2 ^ 64 - v)) as Hmod.
    { rw /swrap. f_equal. replace (2 ^ 64 - v + 2 ^ (64 - 1)) with (- v + 2 ^ (64 - 1) + 1 * 2 ^ 64) by lia. by rewrite -> Z.mod_add by lia. }
    destruct (Z.leb_spec v (2 ^ 63)) as [Hle|Hgt].
    + rw swrap64_neg; [|lia]. ztest. done.
    + rw Hmod swrap64_cases; [|split; lia]. change (2 ^ 64) with (2 * 2 ^ 63) in *. ztest. done.
  - rw Eu. cbn [mbind option_bind].
    replace (signed_answer (c :: s0) base) with
      (match unsigned_answer (c :: s0) base with KOk v => if v <? 2 ^ 63 then KOk v else KErr (- ERANGE) | KErr e => KErr e end).
    + destruct (unsigned_answer (c :: s0) base) as [e|v]; [done|]. destruct (Hu v eq_refl) as [Hv0 Hv]. rw swrap64_cases; [|done].
      destruct (Z.ltb_spec v (2 ^ 63)); [by ztest|]. change (2 ^ 64) with (2 * 2 ^ 63) in *. by ztest.
    + destruct c as [|c|c]; try done. repeat (destruct c as [c|c|]; try done).
Qed.
End answers.

(** C37: The conversions are exact on every branch, for every 0-terminated string of bytes, every base from 2 to 16 and base 0, and every width.  The digits are those behind an
    optional plus sign and the prefix 0x of base 16 ([split_radix]; with base 0 the prefix decides between 16, 8 and 10); [kstrtoull] answers [-ERANGE] when they denote a number of more than 64 bits,
    [-EINVAL] when there are none or something other than one newline follows them, and otherwise the number; [kstrtoll] without a minus sign accepts those below [2^63], with one it negates
    those between 1 and [2^63], and answers [-ERANGE] otherwise (also for minus zero); the conversions to narrower types accept exactly what the unsigned or signed type can hold. *)
Theorem kstrtox_exact s base w :
  base = 0 ∨ 2 ≤ base ≤ 16 → Forall (in_width 8) s → 0 ∈ s → Z.of_nat (length s) < 2 ^ 31 → 0 < w ≤ 64 →
  kstrtoull s base = Some (unsigned_answer s base) ∧
  kstrtoll s base = Some (signed_answer s base) ∧
  narrow_u w s base = Some (restrict 0 (2 ^ w) (unsigned_answer s base)) ∧
  narrow_s w s base = Some (restrict (- 2 ^ (w - 1)) (2 ^ (w - 1)) (signed_answer s base)).
Proof.
  intros Hb Hs Hnul Hlen Hw. destruct (kstrtoull_unsigned s base Hb Hs Hnul Hlen) as [Eu Hu]. pose proof (kstrtoll_signed s base Hb Hs Hnul Hlen) as Es.
  destruct (narrow_exact w s base Hw) as (H1 & H2 & H3 & H4). split; [exact Eu|]. split; [exact Es|]. split.
  - destruct (unsigned_answer s base) as [e|v]; [by apply H3|]. destruct (Hu v eq_refl) as [Hv _]. rewrite -> (H1 v Eu Hv). cbn [restrict]. by ztest.
  - destruct (signed_answer s base) as [e|v]; [by apply H4|]. by apply H2.
Qed.

(** 0x80 with base 0 as a signed byte: accepted by the 64-bit conversions, too large for the type. *)
Lemma kstrtox_exact_witness :
  kstrtoull [48; 120; 56; 48; 10; 0] 0 = Some (KOk 128) ∧ kstrtoll [48; 120; 56; 48; 10; 0] 0 = Some (KOk 128) ∧
  narrow_u 8 [48; 120; 56; 48; 10; 0] 0 = Some (KOk 128) ∧ narrow_s 8 [48; 120; 56; 48; 10; 0] 0 = Some (KErr (- ERANGE)).
Proof.
  apply (kstrtox_exact [48; 120; 56; 48; 10; 0] 0 8); [left; reflexivity|repeat (constructor; [split; vm_compute; congruence|]); constructor| |cbn; lia|lia].
  do 5 right. left.
Defined.
