(* ===== verification/NumPrint.v ===== *)
(** * Printing integers: put_dec and num_to_str of lib/vsprintf.c

    Characters that are appended to a buffer are the list of those characters; the
    decimal conversion writes the digits from the least significant one. *)
From S2P Require Import Prelude Ctype Kstrtox.

(** ** Decimal conversion *)

(** [(x * (uint64_t)0x1999999a) >> 32] as an [unsigned]; [(x * 0x199a) >> 16] and
    [(x * 0xcd) >> 11] in 32 bits. *)
Definition div10_a (x : Z) : Z := wrap 32 (Z.shiftr (wrap 64 (x * 0x1999999a)) 32).
Definition div10_b (x : Z) : Z := Z.shiftr (wrap 32 (x * 0x199a)) 16.
Definition div10_c (x : Z) : Z := Z.shiftr (wrap 32 (x * 0xcd)) 11.

(** [(x - 10 * q) + '0'] stored into a [char]. *)
Definition digit_of (x q : Z) : Z := wrap 8 (wrap 32 (x - 10 * q) + 48).

Definition put_dec_full9 (buf : list Z) (q : Z) : list Z :=
  let r := div10_a q in
  let buf := buf ++ [digit_of q r] in
  let q := div10_a r in
  let buf := buf ++ [digit_of r q] in
  let r := div10_a q in
  let buf := buf ++ [digit_of q r] in
  let q := div10_a r in
  let buf := buf ++ [digit_of r q] in
  let r := div10_a q in
  let buf := buf ++ [digit_of q r] in
  let q := div10_b r in
  let buf := buf ++ [digit_of r q] in
  let r := div10_c q in
  let buf := buf ++ [digit_of q r] in
  let q := div10_c r in
  let buf := buf ++ [digit_of r q] in
  buf ++ [wrap 8 (q + 48)].

Definition put_dec_trunc8 (buf : list Z) (r : Z) : list Z :=
  let q := div10_a r in
  let buf := buf ++ [digit_of r q] in
  if q =? 0 then buf else
  let r := div10_a q in
  let buf := buf ++ [digit_of q r] in
  if r =? 0 then buf else
  let q := div10_a r in
  let buf := buf ++ [digit_of r q] in
  if q =? 0 then buf else
  let r := div10_a q in
  let buf := buf ++ [digit_of q r] in
  if r =? 0 then buf else
  let q := div10_b r in
  let buf := buf ++ [digit_of r q] in
  if q =? 0 then buf else
  let r := div10_c q in
  let buf := buf ++ [digit_of q r] in
  if r =? 0 then buf else
  let q := div10_c r in
  let buf := buf ++ [digit_of r q] in
  if q =? 0 then buf else
  buf ++ [wrap 8 (q + 48)].

(** The first algorithm (64-bit [long]): groups of nine digits; [do_div] returns the remainder.
    Three groups are enough for 64 bits. *)
Definition put_dec (buf : list Z) (n : Z) : option (list Z) :=
  if 100 * 1000 * 1000 <=? n then
    '(buf, n) ← loop 4
      (λ '(buf, n),
         if 1000 * 1000 * 1000 <=? n
         then Some (Next (put_dec_full9 buf (n mod (1000 * 1000 * 1000)), n / (1000 * 1000 * 1000)))
         else Some (Stop (buf, n)))
      (buf, n);
    if 100 * 1000 * 1000 <=? n then Some (put_dec_full9 buf n)
    else Some (put_dec_trunc8 buf n)
  else Some (put_dec_trunc8 buf n).

Definition put_dec_full4 (buf : list Z) (q : Z) : list Z :=
  let r := Z.shiftr (wrap 32 (q * 0xcccd)) 19 in
  let buf := buf ++ [digit_of q r] in
  let q := div10_b r in
  let buf := buf ++ [digit_of r q] in
  let r := div10_c q in
  let buf := buf ++ [digit_of q r] in
  buf ++ [wrap 8 (r + 48)].

(** [while (buf[-1] == '0') --buf;], on the reversed buffer. *)
Fixpoint strip_zeros (rbuf : list Z) : option (list Z) :=
  match rbuf with
  | [] => None
  | c :: rbuf' => if c =? 48 then strip_zeros rbuf' else Some (c :: rbuf')
  end.

(** The second algorithm (32-bit [long]): 16-bit chunks and groups of four digits. *)
Definition put_dec_chunks (buf : list Z) (n : Z) : option (list Z) :=
  if n <? 100 * 1000 * 1000 then Some (put_dec_trunc8 buf n) else
  let d1 := Z.shiftr (wrap 32 n) 16 in
  let h := wrap 32 (Z.shiftr n 32) in
  let d2 := Z.land h 0xffff in
  let d3 := Z.shiftr h 16 in
  let q := wrap 32 (656 * d3 + 7296 * d2 + 5536 * d1 + Z.land (wrap 32 n) 0xffff) in
  let buf := put_dec_full4 buf (q mod 10000) in
  let q := q / 10000 in
  let d1 := wrap 32 (q + 7671 * d3 + 9496 * d2 + 6 * d1) in
  let buf := put_dec_full4 buf (d1 mod 10000) in
  let q := d1 / 10000 in
  let d2 := wrap 32 (q + 4749 * d3 + 42 * d2) in
  let buf := put_dec_full4 buf (d2 mod 10000) in
  let q := d2 / 10000 in
  let d3 := wrap 32 (q + 281 * d3) in
  let buf :=
    if d3 =? 0 then buf else
    let buf := put_dec_full4 buf (d3 mod 10000) in
    let q := d3 / 10000 in
    if q =? 0 then buf else put_dec_full4 buf q in
  r ← strip_zeros (rev buf);
  Some (rev r).

(** [num_to_str]: the length and the buffer.  [tmp] has 24 bytes. *)
Definition num_to_str (buf : list Z) (size num : Z) : option (Z * list Z) :=
  tmp ← (if num <=? 9 then Some [48 + num] else put_dec [] num);
  if 24 <? Z.of_nat (length tmp) then None else
  let len := Z.of_nat (length tmp) in
  if size <? len then Some (0, buf) else
  buf ← for_each (Z.to_nat len) 0
    (λ idx buf, c ← rd tmp (len - idx - 1); wr buf idx c) buf;
  Some (len, buf).

(** ** Reference: the decimal digits of a number *)

(** [k] digits, the least significant first. *)
Fixpoint dec_full (k : nat) (n : Z) : list Z :=
  match k with
  | O => []
  | S k => n mod 10 + 48 :: dec_full k (n / 10)
  end.

(** As many digits as the number has, at least one, at most [k]. *)
Fixpoint dec_trunc (k : nat) (n : Z) : list Z :=
  match k with
  | O => []
  | S k => n mod 10 + 48 :: (if n / 10 =? 0 then [] else dec_trunc k (n / 10))
  end.

(** The digits of a 64-bit number. *)
Definition decimal (n : Z) : list Z := dec_trunc 20 n.

(** ** The approximate divisions are exact where they are used *)

Lemma div10_a_exact x : 0 ≤ x < 1073741829 → div10_a x = x / 10.
Proof.
  intros Hx. rw /div10_a Z.shiftr_div_pow2 //.
  rw (wrap_small 64); [|split; [lia|change (2 ^ 64) with 18446744073709551616; lia]].
  change (2 ^ 32) with 4294967296. rw wrap_small; [zdm|]. split; [zdm|].
  change (2 ^ 32) with 4294967296. zdm.
Qed.

Lemma div10_b_exact x : 0 ≤ x < 16389 → div10_b x = x / 10.
Proof.
  intros Hx. rw /div10_b Z.shiftr_div_pow2 //.
  rw (wrap_small 32); [|split; [lia|change (2 ^ 32) with 4294967296; lia]].
  change (2 ^ 16) with 65536. zdm.
Qed.

Lemma div10_c_exact x : 0 ≤ x < 1029 → div10_c x = x / 10.
Proof.
  intros Hx. rw /div10_c Z.shiftr_div_pow2 //.
  rw (wrap_small 32); [|split; [lia|change (2 ^ 32) with 4294967296; lia]].
  change (2 ^ 11) with 2048. zdm.
Qed.

Lemma div10_d_exact x : 0 ≤ x < 81920 → Z.shiftr (wrap 32 (x * 0xcccd)) 19 = x / 10.
Proof.
  intros Hx. rw Z.shiftr_div_pow2 //.
  rw (wrap_small 32); [|split; [lia|change (2 ^ 32) with 4294967296; lia]].
  change (2 ^ 19) with 524288. zdm.
Qed.

Lemma digit_of_exact x : 0 ≤ x → digit_of x (x / 10) = x mod 10 + 48.
Proof.
  intros Hx. rw /digit_of. rewrite <- Z.mod_eq by lia.
  pose proof (Z.mod_pos_bound x 10 ltac:(lia)).
  rw (wrap_small 32); [|split; [lia|change (2 ^ 32) with 4294967296; lia]].
  apply wrap_small. split; [lia|]. change (2 ^ 8) with 256. lia.
Qed.

(** ** The groups of digits *)

(** One digit: [x] is below ten times [hi]; go on with [x / 10], which is below [hi]. *)
Ltac dec_step lem x hi y :=
  rewrite -> (lem x) by lia; rewrite -> (digit_of_exact x) by lia; cbn [dec_full dec_trunc];
  let H := fresh in
  assert (0 ≤ x / 10 < hi) as H by zdm;
  revert H; generalize (x / 10); intros y ?.

Lemma last_digit q : 0 ≤ q < 10 → wrap 8 (q + 48) = q mod 10 + 48.
Proof.
  intros Hq. rewrite -> (Z.mod_small q 10) by lia. apply wrap_small. split; [lia|].
  change (2 ^ 8) with 256. lia.
Qed.

Lemma put_dec_full9_spec buf q :
  0 ≤ q < 1000000000 → put_dec_full9 buf q = buf ++ dec_full 9 q.
Proof.
  intros Hq. rw /put_dec_full9. cbv zeta.
  dec_step div10_a_exact q 100000000 x1. dec_step div10_a_exact x1 10000000 x2.
  dec_step div10_a_exact x2 1000000 x3. dec_step div10_a_exact x3 100000 x4.
  dec_step div10_a_exact x4 10000 x5. dec_step div10_b_exact x5 1000 x6.
  dec_step div10_c_exact x6 100 x7. dec_step div10_c_exact x7 10 x8.
  rw last_digit //. by rw -!assoc.
Qed.

Lemma put_dec_full4_spec buf q :
  0 ≤ q < 10000 → put_dec_full4 buf q = buf ++ dec_full 4 q.
Proof.
  intros Hq. rw /put_dec_full4. cbv zeta.
  dec_step div10_d_exact q 1000 x1. dec_step div10_b_exact x1 100 x2. dec_step div10_c_exact x2 10 x3.
  rw last_digit //. by rw -!assoc.
Qed.

Lemma put_dec_trunc8_spec buf r :
  0 ≤ r < 100000000 → put_dec_trunc8 buf r = buf ++ dec_trunc 8 r.
Proof.
  intros Hr. rw /put_dec_trunc8. cbv zeta.
  dec_step div10_a_exact r 10000000 x1. case_if; [done|].
  dec_step div10_a_exact x1 1000000 x2. case_if; [by rw -!assoc|].
  dec_step div10_a_exact x2 100000 x3. case_if; [by rw -!assoc|].
  dec_step div10_a_exact x3 10000 x4. case_if; [by rw -!assoc|].
  dec_step div10_b_exact x4 1000 x5. case_if; [by rw -!assoc|].
  dec_step div10_c_exact x5 100 x6. case_if; [by rw -!assoc|].
  dec_step div10_c_exact x6 10 x7. case_if; [by rw -!assoc|].
  rw last_digit //. rewrite -> (Z.div_small x7 10) by lia. by rw -!assoc.
Qed.

(** ** Splitting the digits of a number *)

Lemma dec_full_mod k n : dec_full k (n mod 10 ^ Z.of_nat k) = dec_full k n.
Proof.
  revert n. induction k as [|k IH]; intros n; [done|]. cbn [dec_full].
  replace (Z.of_nat (S k)) with (1 + Z.of_nat k) by lia. rewrite -> Z.pow_add_r by lia.
  change (10 ^ 1) with 10. assert (10 ^ Z.of_nat k ≠ 0) by (apply Z.pow_nonzero; lia).
  assert (0 < 10 ^ Z.of_nat k) by (apply Z.pow_pos_nonneg; lia).
  rewrite -> Z.rem_mul_r by lia. f_equal.
  - rewrite -> (Z.mul_comm 10), Z.mod_add by lia. by rewrite -> Z.mod_mod by lia.
  - rewrite -> (Z.mul_comm 10), Z.div_add by lia.
    rewrite -> (Z.div_small (n mod 10) 10) by (apply Z.mod_pos_bound; lia). apply IH.
Qed.

Lemma dec_trunc_split j k n :
  10 ^ Z.of_nat j ≤ n → dec_trunc (j + k) n = dec_full j n ++ dec_trunc k (n / 10 ^ Z.of_nat j).
Proof.
  revert n. induction j as [|j IH]; intros n Hn; [by rw Z.div_1_r|].
  cbn [dec_trunc dec_full Nat.add app]. f_equal.
  replace (Z.of_nat (S j)) with (1 + Z.of_nat j) in * by lia. rewrite -> Z.pow_add_r in * by lia.
  change (10 ^ 1) with 10 in *. assert (0 < 10 ^ Z.of_nat j) by (apply Z.pow_pos_nonneg; lia).
  assert (10 ^ Z.of_nat j ≤ n / 10) by (apply Z.div_le_lower_bound; lia). ztest.
  rw IH; [|done]. rewrite -> Z.div_div by lia. done.
Qed.

(** More room than digits makes no difference. *)
Lemma dec_trunc_fuel k k' n :
  0 ≤ n < 10 ^ Z.of_nat k → (0 < k ≤ k')%nat → dec_trunc k' n = dec_trunc k n.
Proof.
  revert k' n. induction k as [|k IH]; intros k' n Hn Hk; [lia|]. destruct k' as [|k']; [lia|].
  cbn [dec_trunc]. f_equal. case_if; [done|].
  replace (Z.of_nat (S k)) with (1 + Z.of_nat k) in Hn by lia. rewrite -> Z.pow_add_r in Hn by lia.
  change (10 ^ 1) with 10 in Hn. assert (0 ≤ n / 10 < 10 ^ Z.of_nat k) as Hd.
  { split; [zdm|]. apply Z.div_lt_upper_bound; lia. }
  destruct k as [|k]; [cbn in Hd; lia|]. apply IH; [done|lia].
Qed.

Lemma dec_full_split j k n :
  dec_full (j + k) n = dec_full j n ++ dec_full k (n / 10 ^ Z.of_nat j).
Proof.
  revert n. induction j as [|j IH]; intros n; [by rw Z.div_1_r|]. cbn [dec_full Nat.add app]. f_equal.
  rw IH. replace (Z.of_nat (S j)) with (1 + Z.of_nat j) by lia. rewrite -> Z.pow_add_r by lia.
  change (10 ^ 1) with 10. rewrite -> Z.div_div by (lia || apply Z.pow_pos_nonneg; lia). done.
Qed.

(** A number with exactly [k + 1] digits. *)
Lemma dec_full_trunc k n : 10 ^ Z.of_nat k ≤ n → dec_full (k + 1) n = dec_trunc (k + 1) n.
Proof. intros Hn. rw dec_full_split dec_trunc_split //. cbn. by case_if. Qed.

(** ** The two algorithms *)

(** A group of nine digits and the rest. *)
Lemma full9_group buf m k :
  1000000000 ≤ m →
  put_dec_full9 buf (m mod 1000000000) ++ dec_trunc k (m / 1000000000) = buf ++ dec_trunc (9 + k) m.
Proof.
  intros Hm. rw put_dec_full9_spec; [|apply Z.mod_pos_bound; lia].
  change 1000000000 with (10 ^ Z.of_nat 9). rw dec_full_mod (dec_trunc_split 9 k m) //. by rw assoc.
Qed.

(** The last group. *)
Lemma last_group buf m k :
  (9 ≤ k)%nat → 0 ≤ m < 1000000000 →
  (if 100000000 <=? m then Some (put_dec_full9 buf m) else Some (put_dec_trunc8 buf m))
  = Some (buf ++ dec_trunc k m).
Proof.
  intros Hk Hm. rw (dec_trunc_fuel 9 k m); [|done|lia]. case_if.
  - rw put_dec_full9_spec //. by rw (dec_full_trunc 8 m).
  - rw put_dec_trunc8_spec; [|lia]. rw (dec_trunc_fuel 8 9 m); [done| |lia].
    change (10 ^ Z.of_nat 8) with 100000000. lia.
Qed.

Lemma put_dec_spec buf n :
  in_width 64 n → put_dec buf n = Some (buf ++ decimal n).
Proof.
  intros [Hn0 Hn]. change (2 ^ 64) with 18446744073709551616 in Hn. rw /put_dec /decimal.
  change (1000 * 1000 * 1000) with 1000000000. change (100 * 1000 * 1000) with 100000000.
  destruct (100000000 <=? n) eqn:E0; zbool.
  2:{ rw put_dec_trunc8_spec; [|lia]. rw (dec_trunc_fuel 8 20 n); [done| |lia].
      change (10 ^ Z.of_nat 8) with 100000000. lia. }
  cbn [loop]. destruct (1000000000 <=? n) eqn:E1; zbool.
  2:{ cbn [mbind option_bind]. rw (last_group buf n 20) //. lia. }
  destruct (1000000000 <=? n / 1000000000) eqn:E2; zbool.
  2:{ cbn [mbind option_bind]. rw (last_group _ (n / 1000000000) 11); [|lia|zdm].
      by rw (full9_group buf n 11). }
  assert (n / 1000000000 / 1000000000 < 1000000000) by zdm. ztest. cbn [mbind option_bind].
  rewrite <- (dec_trunc_fuel 20 27 n); [|change (10 ^ Z.of_nat 20) with 100000000000000000000; lia|lia].
  rw (last_group _ (n / 1000000000 / 1000000000) 9); [|lia|split; [zdm|done]].
  rw (full9_group _ (n / 1000000000) 9) //. by rw (full9_group buf n 18).
Qed.

(** The second algorithm writes groups of four digits, then drops the leading zeros. *)
Lemma strip_zeros_spec k n buf :
  0 < n < 10 ^ Z.of_nat k →
  strip_zeros (rev (buf ++ dec_full k n)) = Some (rev (buf ++ dec_trunc k n)).
Proof.
  induction k as [|k IH]; intros Hn; [cbn in Hn; lia|]. replace (S k) with (k + 1)%nat in * by lia.
  destruct (Z.lt_ge_cases n (10 ^ Z.of_nat k)) as [Hlt|Hge].
  - rw dec_full_split. rewrite -> (Z.div_small n) by lia. cbn [dec_full]. change (0 mod 10 + 48) with 48.
    rw assoc rev_unit. cbn [strip_zeros Z.eqb Pos.eqb]. rw IH; [|lia].
    destruct k as [|k]; [cbn in Hlt; lia|]. by rewrite -> (dec_trunc_fuel (S k) (S k + 1) n) by lia.
  - rewrite <- dec_full_trunc by done. rw dec_full_split. cbn [dec_full]. rw assoc rev_unit. cbn [strip_zeros].
    replace (Z.of_nat (k + 1)) with (Z.of_nat k + 1) in Hn by lia. rewrite -> Z.pow_add_r in Hn by lia.
    assert (0 < 10 ^ Z.of_nat k) by (apply Z.pow_pos_nonneg; lia).
    assert (1 ≤ n / 10 ^ Z.of_nat k < 10) as Hd.
    { split; [apply Z.div_le_lower_bound; lia|apply Z.div_lt_upper_bound; lia]. }
    rewrite -> (Z.mod_small _ 10) by lia. by ztest.
Qed.

(** Two groups of four digits. *)
Lemma group4 j a n :
  0 ≤ n → (n / 10 ^ Z.of_nat j) mod 10000 = a mod 10000 →
  dec_full j n ++ dec_full 4 (a mod 10000) = dec_full (j + 4) n.
Proof.
  intros Hn Ha. rw dec_full_split -Ha. f_equal. change 10000 with (10 ^ Z.of_nat 4). apply dec_full_mod.
Qed.

(** The arithmetic of the 16-bit chunks. *)
Lemma chunks_value d3 d2 d1 d0 :
  0 ≤ d3 < 65536 → 0 ≤ d2 < 65536 → 0 ≤ d1 < 65536 → 0 ≤ d0 < 65536 →
  let n := d3 * 281474976710656 + d2 * 4294967296 + d1 * 65536 + d0 in
  let q := 656 * d3 + 7296 * d2 + 5536 * d1 + d0 in
  let e1 := q / 10000 + 7671 * d3 + 9496 * d2 + 6 * d1 in
  let e2 := e1 / 10000 + 4749 * d3 + 42 * d2 in
  let e3 := e2 / 10000 + 281 * d3 in
  n mod 10000 = q mod 10000 ∧ (n / 10000) mod 10000 = e1 mod 10000 ∧
  (n / 100000000) mod 10000 = e2 mod 10000 ∧ n / 1000000000000 = e3 ∧
  0 ≤ q < 4294967296 ∧ 0 ≤ e1 < 4294967296 ∧ 0 ≤ e2 < 4294967296 ∧ 0 ≤ e3 < 18446745.
Proof.
  intros H3 H2 H1 H0 n q e1 e2 e3.
  assert (0 ≤ q ≤ 884001615) as Hq by (rw /q; lia).
  assert (0 ≤ e1 ≤ 1125520955) as He1 by (rw /e1; zdm).
  assert (0 ≤ e2 ≤ 314090737) as He2 by (rw /e2; zdm).
  assert (0 ≤ e3 < 18446745) as He3 by (rw /e3; zdm).
  assert (n = e3 * 1000000000000 + (e2 mod 10000) * 100000000 + (e1 mod 10000) * 10000 + q mod 10000) as Hn.
  { pose proof (Z.div_mod q 10000 ltac:(lia)). pose proof (Z.div_mod e1 10000 ltac:(lia)).
    pose proof (Z.div_mod e2 10000 ltac:(lia)). rw /n. unfold e3, e2, e1, q in *. lia. }
  pose proof (Z.mod_pos_bound q 10000 ltac:(lia)) as Ba. pose proof (Z.mod_pos_bound e1 10000 ltac:(lia)) as Bb.
  pose proof (Z.mod_pos_bound e2 10000 ltac:(lia)) as Bc. revert Hn Ba Bb Bc.
  generalize (q mod 10000) (e1 mod 10000) (e2 mod 10000).
  clearbody n e3. intros a b c Hn Ba Bb Bc. split_and!; try lia; zdm.
Qed.

Lemma put_dec_chunks_spec n buf :
  in_width 64 n → put_dec_chunks buf n = Some (buf ++ decimal n).
Proof.
  intros [Hn0 Hn]. change (2 ^ 64) with 18446744073709551616 in Hn. rw /put_dec_chunks /decimal.
  change (100 * 1000 * 1000) with 100000000. case_if.
  { rw put_dec_trunc8_spec; [|lia]. rw (dec_trunc_fuel 8 20 n); [done| |lia].
    change (10 ^ Z.of_nat 8) with 100000000. lia. }
  change 65535 with (Z.ones 16). rw !Z.land_ones // !Z.shiftr_div_pow2 // /wrap.
  change (2 ^ 32) with 4294967296. change (2 ^ 16) with 65536.
  set (d1 := n mod 4294967296 / 65536). set (d0 := (n mod 4294967296) mod 65536).
  set (h := (n / 4294967296) mod 4294967296). set (d2 := h mod 65536). set (d3 := h / 65536).
  assert (n = d3 * 281474976710656 + d2 * 4294967296 + d1 * 65536 + d0) as En.
  { rw /d3 /d2 /d1 /d0 /h. zdm. }
  assert (0 ≤ d3 < 65536 ∧ 0 ≤ d2 < 65536 ∧ 0 ≤ d1 < 65536 ∧ 0 ≤ d0 < 65536) as (B3 & B2 & B1 & B0).
  { rw /d3 /d2 /d1 /d0 /h. split_and!; zdm. }
  clearbody d3 d2 d1 d0. clear h.
  pose proof (chunks_value d3 d2 d1 d0 B3 B2 B1 B0) as Hc. cbv zeta in Hc. rw -En in Hc.
  destruct Hc as (M0 & M1 & M2 & M3 & Q0 & Q1 & Q2 & Q3).
  rewrite -> (Z.mod_small (656 * d3 + 7296 * d2 + 5536 * d1 + d0) 4294967296) by lia.
  set (q := 656 * d3 + 7296 * d2 + 5536 * d1 + d0) in *.
  rewrite -> (Z.mod_small (q / 10000 + 7671 * d3 + 9496 * d2 + 6 * d1) 4294967296) by lia.
  set (e1 := q / 10000 + 7671 * d3 + 9496 * d2 + 6 * d1) in *.
  rewrite -> (Z.mod_small (e1 / 10000 + 4749 * d3 + 42 * d2) 4294967296) by lia.
  set (e2 := e1 / 10000 + 4749 * d3 + 42 * d2) in *.
  rewrite -> (Z.mod_small (e2 / 10000 + 281 * d3) 4294967296) by lia.
  set (e3 := e2 / 10000 + 281 * d3) in *. clearbody q e1 e2 e3.
  rewrite -> !(put_dec_full4_spec _ (_ mod 10000)) by (apply Z.mod_pos_bound; lia).
  assert (((buf ++ dec_full 4 (q mod 10000)) ++ dec_full 4 (e1 mod 10000)) ++ dec_full 4 (e2 mod 10000)
    = buf ++ dec_full 12 n) as E12.
  { rw -!assoc. f_equal. rewrite <- M0. change 10000 with (10 ^ Z.of_nat 4) at 1. rw dec_full_mod assoc.
    rw (group4 4 e1 n) //. by rw (group4 8 e2 n). }
  assert (∀ k : nat, (k ≤ 20)%nat → n < 10 ^ Z.of_nat k →
    (r ← strip_zeros (rev (buf ++ dec_full k n)); Some (rev r)) = Some (buf ++ dec_trunc 20 n)) as Hstrip.
  { intros k Hk Hnk. assert (0 < k)%nat by (destruct k; [cbn in Hnk; lia|lia]).
    rw strip_zeros_spec; [|lia]. cbn [mbind option_bind]. by rewrite -> rev_involutive, (dec_trunc_fuel k 20 n) by lia. }
  rw E12. destruct (Z.eqb_spec e3 0) as [E3|E3].
  { apply Hstrip; [lia|]. change (10 ^ Z.of_nat 12) with 1000000000000. zdm. }
  rw -(assoc _ buf). rewrite -> (group4 12 e3 n) by (change (10 ^ Z.of_nat 12) with 1000000000000; congruence || lia).
  destruct (Z.eqb_spec (e3 / 10000) 0) as [E4|E4].
  { apply Hstrip; [lia|]. change (10 ^ Z.of_nat (12 + 4)) with 10000000000000000. zdm. }
  assert (0 ≤ e3 / 10000 < 10000) as B4 by zdm. rw put_dec_full4_spec //. rw -(assoc _ buf).
  assert (dec_full (12 + 4) n ++ dec_full 4 (e3 / 10000) = dec_full (16 + 4) n) as ->.
  2:{ apply Hstrip; [lia|]. change (10 ^ Z.of_nat (16 + 4)) with 100000000000000000000. lia. }
  rewrite <- (group4 16 (e3 / 10000) n); [by rewrite -> (Z.mod_small (e3 / 10000)) by done|lia|].
  change (10 ^ Z.of_nat 16) with (1000000000000 * 10000). rewrite <- Z.div_div by lia. by rw M3.
Qed.

(** Both decimal conversions, the one for 64-bit and the one for 32-bit machines, write exactly the
    decimal digits of every 64-bit number, the least significant first and without leading
    zeros; so they agree. *)
Theorem put_dec_exact buf n :
  in_width 64 n →
  put_dec buf n = Some (buf ++ dec_trunc 20 n) ∧ put_dec_chunks buf n = Some (buf ++ dec_trunc 20 n).
Proof. intros Hn. split; [by apply put_dec_spec|by apply put_dec_chunks_spec]. Qed.

Lemma put_dec_exact_witness :
  put_dec [] 18446744073709551615 = Some (dec_trunc 20 18446744073709551615) ∧
  put_dec_chunks [] 18446744073709551615 = Some (dec_trunc 20 18446744073709551615).
Proof. apply (put_dec_exact [] 18446744073709551615). split; vm_compute; congruence. Defined.

(** ** Printing into a buffer *)

Lemma dec_trunc_length k n : (length (dec_trunc k n) ≤ k)%nat.
Proof. revert n. induction k as [|k IH]; intros n; cbn; [lia|]. case_if; cbn; [lia|]. specialize (IH (n / 10)). lia. Qed.

Lemma dec_trunc_pos k n : (0 < k)%nat → (0 < length (dec_trunc k n))%nat.
Proof. destruct k; cbn; lia. Qed.

(** The loop that reverses [tmp] into [buf]. *)
Lemma reverse_into (tmp buf : list Z) :
  (length tmp ≤ length buf)%nat →
  for_each (length tmp) 0 (λ idx buf, c ← rd tmp (Z.of_nat (length tmp) - idx - 1); wr buf idx c) buf =
  Some (rev tmp ++ drop (length tmp) buf).
Proof.
  intros Hl. set (len := Z.of_nat (length tmp)).
  destruct (for_each_inv (λ k b, b = take (Z.to_nat k) (rev tmp) ++ drop (Z.to_nat k) buf)
    (length tmp) 0 (λ idx buf, c ← rd tmp (len - idx - 1); wr buf idx c) buf) as (b & -> & ->).
  - done.
  - intros j b Hj ->. destruct (rd_in tmp (len - j - 1)) as [c Hc]; [lia|]. rw Hc. cbn [mbind option_bind].
    apply rd_Some in Hc as [_ Hc]. assert (rev tmp !! Z.to_nat j = Some c) as Hr.
    { rw rev_alt. change (rev_append tmp []) with (reverse tmp).
      rw reverse_lookup; [|lia]. rewrite <- Hc. f_equal. lia. }
    assert (length (rev tmp) = length tmp) as Hlr by apply length_rev.
    eexists. rw wr_in; [|rw length_app length_take length_drop; lia]. split; [done|].
    replace (Z.to_nat (j + 1)) with (S (Z.to_nat j)) by lia. rw (take_S_r _ _ c Hr).
    destruct (lookup_lt_is_Some_2 buf (Z.to_nat j)) as [x Hx]; [lia|].
    rewrite -> (drop_S _ x) by done. rw insert_app_r_alt; [|rw length_take; lia].
    rw length_take Nat.min_l; [|lia]. by rw Nat.sub_diag -assoc.
  - f_equal. rw Z.add_0_l Nat2Z.id take_ge; [done|]. by rw length_rev.
Qed.

Lemma num_to_str_spec buf size num :
  in_width 64 num → size ≤ Z.of_nat (length buf) →
  let len := Z.of_nat (length (decimal num)) in
  num_to_str buf size num =
  Some (if size <? len then (0, buf) else (len, rev (decimal num) ++ drop (length (decimal num)) buf)).
Proof.
  intros Hn Hs len. rw /num_to_str.
  assert ((if num <=? 9 then Some [48 + num] else put_dec [] num) = Some (decimal num)) as ->.
  { case_if; [|by apply (put_dec_spec [])]. destruct Hn as [Hn0 _]. rw /decimal. cbn [dec_trunc].
    rewrite -> Z.mod_small, Z.div_small by lia. cbn. by rw Z.add_comm. }
  cbn [mbind option_bind]. pose proof (dec_trunc_length 20 num) as Hl. fold (decimal num) in Hl. ztest.
  fold len. case_if; [done|]. rw Nat2Z.id reverse_into; [done|]. lia.
Qed.

(** ** Reading a printed number back *)

Lemma dec_trunc_digits k n : Forall (λ c, 48 ≤ c ≤ 57) (dec_trunc k n).
Proof.
  revert n. induction k as [|k IH]; intros n; cbn; constructor; [zdm|]. case_if; [constructor|apply IH].
Qed.

Lemma dec_trunc_value k n :
  0 ≤ n < 10 ^ Z.of_nat k → value 10 (map (λ c, c - 48) (rev (dec_trunc k n))) = n.
Proof.
  revert n. induction k as [|k IH]; intros n Hn; [cbn in *; lia|]. cbn [dec_trunc rev].
  rw map_app value_app. cbn [map foldl]. replace (Z.of_nat (S k)) with (Z.of_nat k + 1) in Hn by lia.
  rewrite -> Z.pow_add_r in Hn by lia. case_if; [cbn; zdm|]. rw IH; zdm.
Qed.

Lemma digit_prefix_digits s r base :
  Forall (λ c, 48 ≤ c < 48 + base) s → base ≤ 10 →
  digit_prefix (s ++ 0 :: r) base = map (λ c, c - 48) s.
Proof.
  intros Hs Hb. induction Hs as [|c s Hc _ IH]; [done|]. cbn [digit_prefix app map]. rw /digit_val.
  assert (48 <=? c = true) as -> by (apply Z.leb_le; lia). assert (c <=? 57 = true) as -> by (apply Z.leb_le; lia).
  assert (c =? 0 = false) as -> by (apply Z.eqb_neq; lia). cbn [andb]. ztest. by rw IH.
Qed.

Lemma kstrtoull_digits s r n :
  Forall (λ c, 48 ≤ c ≤ 57) s → s ≠ [] → value 10 (map (λ c, c - 48) s) = n → in_width 64 n →
  Z.of_nat (length (s ++ 0 :: r)) < 2 ^ 31 → kstrtoull (s ++ 0 :: r) 10 = Some (KOk n).
Proof.
  intros Hs Hne Hv [Hn0 Hn] Hlen.
  assert (0 ∈ s ++ 0 :: r) as Hnul by (apply elem_of_app; right; left).
  assert (kstrtoull (s ++ 0 :: r) 10 = _kstrtoull (s ++ 0 :: r) 10) as ->.
  { destruct s as [|c s]; [done|]. inversion_clear Hs. rw /kstrtoull.
    change (rd ((c :: s) ++ 0 :: r) 0) with (Some c). cbn [mbind option_bind]. by ztest. }
  rewrite -> (kstrtoull_tail _ 10 (s ++ 0 :: r) 10) by (done || lia). f_equal. rw /kstrtoull_answer digit_prefix_digits; [|..|lia].
  2:{ eapply Forall_impl; [exact Hs|]. cbn. lia. }
  rw length_map drop_app_length Hv. ztest. by destruct s.
Qed.

(** Printing and parsing are inverse: for every 64-bit number, [num_to_str] into a buffer of at least 20
    bytes writes between 1 and 20 characters, and [kstrtoull] reads the number back from them
    when a 0 byte follows. *)
Theorem num_to_str_roundtrip buf size num r :
  in_width 64 num → 20 ≤ size ≤ Z.of_nat (length buf) → Z.of_nat (length r) < 2 ^ 30 →
  ∃ len buf', num_to_str buf size num = Some (len, buf') ∧ 1 ≤ len ≤ 20 ∧
    length buf' = length buf ∧ drop (Z.to_nat len) buf' = drop (Z.to_nat len) buf ∧
    kstrtoull (take (Z.to_nat len) buf' ++ 0 :: r) 10 = Some (KOk num).
Proof.
  intros Hn Hs Hr. pose proof (dec_trunc_length 20 num) as Hl. pose proof (dec_trunc_pos 20 num ltac:(lia)) as Hp.
  fold (decimal num) in Hl, Hp. rw num_to_str_spec; [|done|lia]. cbv zeta. ztest. do 2 eexists. split; [done|].
  assert (length (rev (decimal num)) = length (decimal num)) as Hlr by apply length_rev.
  rw Nat2Z.id take_app_length' // drop_app_length' //. split; [lia|].
  split; [rw length_app length_drop; lia|]. split; [done|].
  apply kstrtoull_digits; [|intros H; by rw H in Hlr; cbn in Hlr; lia| |done|].
  - apply Forall_rev, dec_trunc_digits.
  - apply dec_trunc_value. destruct Hn as [? Hn]. split; [done|].
    change (2 ^ 64) with 18446744073709551616 in Hn.
    change (10 ^ Z.of_nat 20) with 100000000000000000000. lia.
  - rw length_app Hlr. cbn [length]. change (2 ^ 31) with (2 * 2 ^ 30). lia.
Qed.

Lemma num_to_str_roundtrip_witness :
  ∃ len buf', num_to_str (replicate 21 7) 21 4294967296 = Some (len, buf') ∧ 1 ≤ len ≤ 20 ∧
    length buf' = 21%nat ∧ drop (Z.to_nat len) buf' = drop (Z.to_nat len) (replicate 21 7) ∧
    kstrtoull (take (Z.to_nat len) buf' ++ [0]) 10 = Some (KOk 4294967296).
Proof.
  apply (num_to_str_roundtrip (replicate 21 7) 21 4294967296 []); [split; vm_compute; congruence|cbn; lia|cbn; lia].
Defined.
