(* ===== verification/StringLib.v ===== *)
(** * Strings and memory: lib/string.c

    A pointer into an object is the list of the bytes from there to the end of the object (0 to 255, whatever the
    sign of [char]); reading or writing behind the end is a fault ([None]).  A returned pointer is its
    offset from the argument, [NULL] is an inner [None]. *)
From S2P Require Import Prelude Bitops Ctype.

(** ** Lengths *)

Fixpoint strlen (s : list Z) : option Z :=
  match s with
  | [] => None
  | c :: s' => if c =? 0 then Some 0 else n ← strlen s'; Some (n + 1)
  end.

Fixpoint strnlen (s : list Z) (count : Z) : option Z :=
  if count =? 0 then Some 0 else
  match s with
  | [] => None
  | c :: s' => if c =? 0 then Some 0 else n ← strnlen s' (count - 1); Some (n + 1)
  end.

(** ** Comparing *)

Fixpoint strcmp (cs ct : list Z) : option Z :=
  match cs, ct with
  | c1 :: cs', c2 :: ct' =>
      if negb (c1 =? c2) then Some (if c1 <? c2 then -1 else 1)
      else if c1 =? 0 then Some 0 else strcmp cs' ct'
  | _, _ => None
  end.

Fixpoint strncmp (cs ct : list Z) (count : Z) : option Z :=
  if count =? 0 then Some 0 else
  match cs, ct with
  | c1 :: cs', c2 :: ct' =>
      if negb (c1 =? c2) then Some (if c1 <? c2 then -1 else 1)
      else if c1 =? 0 then Some 0 else strncmp cs' ct' (count - 1)
  | _, _ => None
  end.

(** The loop of [strnicmp], with [len] the characters left (not 0). *)
Fixpoint strnicmp_loop (s1 s2 : list Z) (len : Z) : option Z :=
  match s1, s2 with
  | c1 :: s1', c2 :: s2' =>
      if (c1 =? 0) || (c2 =? 0) then Some (c1 - c2)
      else if c1 =? c2 then
        if len - 1 =? 0 then Some (c1 - c2) else strnicmp_loop s1' s2' (len - 1)
      else
        let c1 := __tolower c1 in
        let c2 := __tolower c2 in
        if negb (c1 =? c2) then Some (c1 - c2)
        else if len - 1 =? 0 then Some (c1 - c2) else strnicmp_loop s1' s2' (len - 1)
  | _, _ => None
  end.

Definition strnicmp (s1 s2 : list Z) (len : Z) : option Z :=
  if len =? 0 then Some 0 else strnicmp_loop s1 s2 len.

Fixpoint strcasecmp (s1 s2 : list Z) : option Z :=
  match s1, s2 with
  | c1 :: s1', c2 :: s2' =>
      let c1 := __tolower c1 in
      let c2 := __tolower c2 in
      if (c1 =? c2) && negb (c1 =? 0) then strcasecmp s1' s2' else Some (c1 - c2)
  | _, _ => None
  end.

(** [n] is a [size_t]: 0 wraps around. *)
Fixpoint strncasecmp (s1 s2 : list Z) (n : Z) : option Z :=
  match s1, s2 with
  | c1 :: s1', c2 :: s2' =>
      let c1 := __tolower c1 in
      let c2 := __tolower c2 in
      let n := wrap 64 (n - 1) in
      if (0 <? n) && (c1 =? c2) && negb (c1 =? 0) then strncasecmp s1' s2' n else Some (c1 - c2)
  | _, _ => None
  end.

(** The first loop leaves the rest of both strings. *)
Fixpoint skip_equal (s1 s2 : list Z) : option (list Z * list Z) :=
  match s1, s2 with
  | c1 :: s1', c2 :: s2' =>
      if negb (c1 =? 0) && (c1 =? c2) then skip_equal s1' s2' else Some (s1, s2)
  | _, _ => None
  end.

Definition sysfs_streq (s1 s2 : list Z) : option bool :=
  '(s1, s2) ← skip_equal s1 s2;
  c1 ← rd s1 0;
  c2 ← rd s2 0;
  if c1 =? c2 then Some true else
  t ← (if (c1 =? 0) && (c2 =? 10) then n ← rd s2 1; Some (n =? 0) else Some false);
  if t : bool then Some true else
  t ← (if c1 =? 10 then n ← rd s1 1; Some ((n =? 0) && (c2 =? 0)) else Some false);
  Some t.

Fixpoint memcmp (cs ct : list Z) (count : Z) : option Z :=
  if count <=? 0 then Some 0 else
  match cs, ct with
  | c1 :: cs', c2 :: ct' => if negb (c1 - c2 =? 0) then Some (c1 - c2) else memcmp cs' ct' (count - 1)
  | _, _ => None
  end.

(** The return value and the boolean stored through [res]. *)
Definition strtobool (s : list Z) (res : bool) : option (Z * bool) :=
  c ← rd s 0;
  Some (if (c =? 121) || (c =? 89) || (c =? 49) then (0, true)
        else if (c =? 110) || (c =? 78) || (c =? 48) then (0, false)
        else (- EINVAL, res)).

(** ** Copying *)

Fixpoint memset (s : list Z) (c count : Z) : option (list Z) :=
  if count =? 0 then Some s else
  match s with
  | [] => None
  | _ :: s' => r ← memset s' c (count - 1); Some (wrap 8 c :: r)
  end.

Fixpoint memcpy (dest src : list Z) (count : Z) : option (list Z) :=
  if count =? 0 then Some dest else
  match dest, src with
  | _ :: dest', c :: src' => r ← memcpy dest' src' (count - 1); Some (c :: r)
  | _, _ => None
  end.

(** Both areas lie in one object; [dest] and [src] are offsets. *)
Definition memmove (mem : list Z) (dest src count : Z) : option (list Z) :=
  if dest <=? src then
    for_each (Z.to_nat count) 0 (λ k mem, c ← rd mem (src + k); wr mem (dest + k) c) mem
  else
    for_each (Z.to_nat count) 0
      (λ k mem, c ← rd mem (src + count - 1 - k); wr mem (dest + count - 1 - k) c) mem.

Fixpoint strcpy (dest src : list Z) : option (list Z) :=
  match dest, src with
  | _ :: dest', c :: src' => if c =? 0 then Some (c :: dest') else r ← strcpy dest' src'; Some (c :: r)
  | _, _ => None
  end.

Fixpoint strncpy (dest src : list Z) (count : Z) : option (list Z) :=
  if count =? 0 then Some dest else
  match dest, src with
  | _ :: dest', c :: src' =>
      r ← strncpy dest' (if negb (c =? 0) then src' else src) (count - 1); Some (c :: r)
  | _, _ => None
  end.

Definition strlcpy (dest src : list Z) (size : Z) : option (Z * list Z) :=
  ret ← strlen src;
  if size =? 0 then Some (ret, dest) else
  let len := if size <=? ret then size - 1 else ret in
  dest ← memcpy dest src len;
  dest ← wr dest len 0;
  Some (ret, dest).

(** Behind the end of [dest]. *)
Fixpoint at_end (dest : list Z) (k : list Z → option (list Z)) : option (list Z) :=
  match dest with
  | [] => None
  | c :: dest' => if c =? 0 then k dest else r ← at_end dest' k; Some (c :: r)
  end.

Definition strcat (dest src : list Z) : option (list Z) := at_end dest (λ dest, strcpy dest src).

Fixpoint strncat_copy (dest src : list Z) (count : Z) : option (list Z) :=
  match dest, src with
  | _ :: dest', c :: src' =>
      if c =? 0 then Some (c :: dest')
      else if count - 1 =? 0 then dest' ← wr dest' 0 0; Some (c :: dest')
      else r ← strncat_copy dest' src' (count - 1); Some (c :: r)
  | _, _ => None
  end.

Definition strncat (dest src : list Z) (count : Z) : option (list Z) :=
  if count =? 0 then Some dest else at_end dest (λ dest, strncat_copy dest src count).

(** [BUG_ON(dsize >= count)] is a fault. *)
Definition strlcat (dest src : list Z) (count : Z) : option (Z * list Z) :=
  dsize ← strlen dest;
  len ← strlen src;
  if count <=? dsize then None else
  let len' := if count - dsize <=? len then count - dsize - 1 else len in
  d ← memcpy (drop (Z.to_nat dsize) dest) src len';
  d ← wr d len' 0;
  Some (dsize + len, take (Z.to_nat dsize) dest ++ d).

(** ** Searching *)

Fixpoint strchr (s : list Z) (c : Z) : option (option Z) :=
  match s with
  | [] => None
  | x :: s' =>
      if x =? wrap 8 c then Some (Some 0)
      else if x =? 0 then Some None else r ← strchr s' c; Some (option_map Z.succ r)
  end.

Definition strrchr (s : list Z) (c : Z) : option (option Z) :=
  len ← strlen s;
  loop (S (S (length s)))
    (λ p, x ← rd s p;
          if x =? wrap 8 c then Some (Stop (Some p))
          else if 0 <=? p - 1 then Some (Next (p - 1)) else Some (Stop None)) len.

Fixpoint strnchr (s : list Z) (count c : Z) : option (option Z) :=
  if count =? 0 then Some None else
  match s with
  | [] => None
  | x :: s' =>
      if x =? 0 then Some None
      else if x =? wrap 8 c then Some (Some 0)
      else r ← strnchr s' (count - 1) c; Some (option_map Z.succ r)
  end.

(** [isspace(c)] is the flag test of [Ctype]. *)
Fixpoint skip_spaces (str : list Z) : option Z :=
  match str with
  | [] => None
  | c :: str' => if isspace c then n ← skip_spaces str'; Some (n + 1) else Some 0
  end.

(** The string and the offset of the result. *)
Definition strim (s : list Z) : option (list Z * Z) :=
  size ← strlen s;
  if size =? 0 then Some (s, 0) else
  e ← loop (S (length s))
    (λ e, if 0 <=? e then
            c ← rd s e;
            if isspace c then Some (Next (e - 1)) else Some (Stop e)
          else Some (Stop e)) (size - 1);
  s ← wr s (e + 1) 0;
  n ← skip_spaces s;
  Some (s, n).

(** The inner loops of the four functions below: does [c] occur in the string? *)
Fixpoint occurs (c : Z) (s : list Z) : option bool :=
  match s with
  | [] => None
  | x :: s' => if x =? 0 then Some false else if c =? x then Some true else occurs c s'
  end.

Fixpoint strspn (s accept : list Z) : option Z :=
  match s with
  | [] => None
  | c :: s' =>
      if c =? 0 then Some 0 else
      b ← occurs c accept;
      if b : bool then n ← strspn s' accept; Some (n + 1) else Some 0
  end.

Fixpoint strcspn (s reject : list Z) : option Z :=
  match s with
  | [] => None
  | c :: s' =>
      if c =? 0 then Some 0 else
      b ← occurs c reject;
      if b : bool then Some 0 else n ← strcspn s' reject; Some (n + 1)
  end.

Fixpoint strpbrk (cs ct : list Z) : option (option Z) :=
  match cs with
  | [] => None
  | c :: cs' =>
      if c =? 0 then Some None else
      b ← occurs c ct;
      if b : bool then Some (Some 0) else r ← strpbrk cs' ct; Some (option_map Z.succ r)
  end.

(** [s] is the offset of [*s] in the object, or [NULL]; the results are the object, the new [*s] and the token. *)
Definition strsep (mem : list Z) (s : option Z) (ct : list Z) : option (list Z * option Z * option Z) :=
  match s with
  | None => Some (mem, None, None)
  | Some sbegin =>
      e ← strpbrk (drop (Z.to_nat sbegin) mem) ct;
      match e with
      | None => Some (mem, None, Some sbegin)
      | Some n => mem ← wr mem (sbegin + n) 0; Some (mem, Some (sbegin + n + 1), Some sbegin)
      end
  end.

(** The offset of the first match, or [size]; [c] is an [int] that is not converted. *)
Fixpoint memscan (addr : list Z) (c size : Z) : option Z :=
  if size =? 0 then Some 0 else
  match addr with
  | [] => None
  | x :: addr' => if x =? c then Some 0 else n ← memscan addr' c (size - 1); Some (n + 1)
  end.

Fixpoint memchr (s : list Z) (c n : Z) : option (option Z) :=
  if n =? 0 then Some None else
  match s with
  | [] => None
  | x :: s' => if wrap 8 c =? x then Some (Some 0) else r ← memchr s' c (n - 1); Some (option_map Z.succ r)
  end.

(** The loop of [strstr] and [strnstr]: [len] characters are left of the text. *)
Fixpoint strstr_loop (s1 s2 : list Z) (l2 len : Z) : option (option Z) :=
  if len <? l2 then Some None else
  r ← memcmp s1 s2 l2;
  if r =? 0 then Some (Some 0) else
  match s1 with
  | [] => None
  | _ :: s1' => r ← strstr_loop s1' s2 l2 (len - 1); Some (option_map Z.succ r)
  end.

Definition strstr (s1 s2 : list Z) : option (option Z) :=
  l2 ← strlen s2;
  if l2 =? 0 then Some (Some 0) else
  l1 ← strlen s1;
  strstr_loop s1 s2 l2 l1.

Definition strnstr (s1 s2 : list Z) (len : Z) : option (option Z) :=
  l2 ← strlen s2;
  if l2 =? 0 then Some (Some 0) else strstr_loop s1 s2 l2 len.

Fixpoint check_bytes8 (start : list Z) (value bytes : Z) : option (option Z) :=
  if bytes =? 0 then Some None else
  match start with
  | [] => None
  | x :: start' =>
      if negb (x =? value) then Some (Some 0)
      else r ← check_bytes8 start' value (bytes - 1); Some (option_map Z.succ r)
  end.

(** [value] in every byte of a 64-bit word: with a fast multiplier, or by shifts. *)
Definition splat (fast : bool) (value : Z) : Z :=
  if fast then wrap 64 (value * 0x0101010101010101) else
  let v := Z.lor value (bshl 64 value 8) in
  let v := Z.lor v (bshl 64 v 16) in
  Z.lor v (bshl 64 v 32).

(** The words of the loop and the bytes behind them. *)
Fixpoint check_words (start : list Z) (value value64 : Z) (words : nat) (tail : Z) : option (option Z) :=
  match words with
  | O => check_bytes8 start value tail
  | S words =>
      if Z.of_nat (length start) <? 8 then None else
      if negb (le (take 8 start) =? value64) then check_bytes8 start value 8
      else r ← check_words (drop 8 start) value value64 words tail; Some (option_map (Z.add 8) r)
  end.

(** [addr] is the address of [start]. *)
Definition memchr_inv (fast : bool) (addr : Z) (start : list Z) (c bytes : Z) : option (option Z) :=
  let value := wrap 8 c in
  if bytes <=? 16 then check_bytes8 start value bytes else
  let value64 := splat fast value in
  let prefix := addr mod 8 in
  let rest off start bytes :=
    r ← check_words start value value64 (Z.to_nat (wrap 32 (bytes / 8))) (bytes mod 8);
    Some (option_map (Z.add off) r) in
  if negb (prefix =? 0) then
    let prefix := 8 - prefix in
    r ← check_bytes8 start value prefix;
    match r with
    | Some r => Some (Some r)
    | None => rest prefix (drop (Z.to_nat prefix) start) (bytes - prefix)
    end
  else rest 0 start bytes.
