(* ===== verification/StringSpec.v ===== *)
(** * What the string and memory functions of lib/string.c compute *)
From S2P Require Import Prelude Bitops Ctype StringLib.

(** ** C strings *)

(** The characters in front of the first 0. *)
Fixpoint cstr (s : list Z) : list Z :=
  match s with
  | [] => []
  | c :: s' => if c =? 0 then [] else c :: cstr s'
  end.

Lemma cstr_split s : 0 ∈ s → ∃ r, s = cstr s ++ 0 :: r.
Proof.
  induction s as [|c s IH]; intros H; [by apply elem_of_nil in H|]. cbn.
  destruct (Z.eqb_spec c 0) as [->|]; [by exists s|].
  apply elem_of_cons in H as [?|H]; [congruence|]. destruct (IH H) as [r Hr]. exists r. cbn. by rewrite <- Hr.
Qed.

Lemma cstr_nonzero s : 0 ∉ cstr s.
Proof.
  induction s as [|c s IH]; cbn; [apply not_elem_of_nil|]. case_if; [apply not_elem_of_nil|].
  apply not_elem_of_cons. split; [congruence|done].
Qed.

Lemma cstr_app a r : 0 ∉ a → cstr (a ++ 0 :: r) = a.
Proof.
  induction a as [|c a IH]; intros H; [done|]. apply not_elem_of_cons in H as [Hc Ha]. cbn. ztest. by rw IH.
Qed.

Lemma cstr_length s : 0 ∈ s → (length (cstr s) < length s)%nat.
Proof. intros H. destruct (cstr_split s H) as [r Hr]. rw {2}Hr length_app. cbn. lia. Qed.

Lemma take_cstr n s : 0 ∈ s → (n ≤ length (cstr s))%nat → take n s = take n (cstr s).
Proof. intros H Hn. destruct (cstr_split s H) as [r Hr]. rw {1}Hr. by apply take_app_le. Qed.

(** Case analysis on a terminated string. *)
Lemma terminated_cons c s : 0 ∈ c :: s → c ≠ 0 → 0 ∈ s.
Proof. intros [?|?]%elem_of_cons ?; [congruence|done]. Qed.

Lemma strlen_spec s : 0 ∈ s → strlen s = Some (Z.of_nat (length (cstr s))).
Proof.
  induction s as [|c s IH]; intros H; [by apply elem_of_nil in H|]. cbn [strlen cstr].
  destruct (Z.eqb_spec c 0); [done|]. rw IH; [|by eapply terminated_cons]. cbn. f_equal. lia.
Qed.

Lemma strnlen_spec s count :
  0 ≤ count → 0 ∈ s ∨ count ≤ Z.of_nat (length s) →
  strnlen s count = Some (Z.min count (Z.of_nat (length (cstr s)))).
Proof.
  revert count. induction s as [|c s IH]; intros count Hc H.
  - destruct H as [H|H]; [by apply elem_of_nil in H|]. cbn in *. ztest. f_equal. lia.
  - cbn [strnlen cstr]. destruct (Z.eqb_spec count 0) as [->|]; [f_equal; lia|].
    destruct (Z.eqb_spec c 0) as [->|]; [cbn; f_equal; lia|].
    rw IH; [cbn; f_equal; lia|lia|]. destruct H as [H|H]; [left; by eapply terminated_cons|right; cbn in H; lia].
Qed.

(** ** Copies *)

Lemma memcpy_spec dest src count :
  0 ≤ count ≤ Z.of_nat (length dest) → count ≤ Z.of_nat (length src) →
  memcpy dest src count = Some (take (Z.to_nat count) src ++ drop (Z.to_nat count) dest).
Proof.
  revert src count. induction dest as [|d dest IH]; intros src count Hd Hs.
  - cbn in Hd. assert (count = 0) as -> by lia. done.
  - cbn [memcpy]. destruct (Z.eqb_spec count 0) as [->|]; [done|]. destruct src as [|c src]; [cbn in Hs; lia|].
    cbn in Hd, Hs. rw IH; [|lia..]. replace (Z.to_nat count) with (S (Z.to_nat (count - 1))) by lia. done.
Qed.

Lemma memset_spec s c count :
  0 ≤ count ≤ Z.of_nat (length s) →
  memset s c count = Some (replicate (Z.to_nat count) (wrap 8 c) ++ drop (Z.to_nat count) s).
Proof.
  revert count. induction s as [|d s IH]; intros count Hd.
  - cbn in Hd. assert (count = 0) as -> by lia. done.
  - cbn [memset]. destruct (Z.eqb_spec count 0) as [->|]; [done|]. cbn in Hd. rw IH; [|lia].
    replace (Z.to_nat count) with (S (Z.to_nat (count - 1))) by lia. done.
Qed.

Lemma strcpy_spec dest src :
  0 ∈ src → (length (cstr src) < length dest)%nat →
  strcpy dest src = Some (cstr src ++ 0 :: drop (S (length (cstr src))) dest).
Proof.
  revert dest. induction src as [|c src IH]; intros dest H Hl; [by apply elem_of_nil in H|].
  destruct dest as [|d dest]; [cbn in Hl; lia|]. cbn [strcpy cstr] in *.
  destruct (Z.eqb_spec c 0) as [->|]; [done|]. cbn in Hl. rw IH; [done|by eapply terminated_cons|lia].
Qed.

Lemma strncpy_spec dest src count :
  0 ∈ src → 0 ≤ count ≤ Z.of_nat (length dest) →
  strncpy dest src count =
  Some (take (Z.to_nat count) (cstr src ++ replicate (Z.to_nat count) 0) ++ drop (Z.to_nat count) dest).
Proof.
  revert src count. induction dest as [|d dest IH]; intros src count H Hc.
  - cbn in Hc. assert (count = 0) as -> by lia. done.
  - cbn [strncpy]. destruct (Z.eqb_spec count 0) as [->|]; [done|]. cbn in Hc.
    destruct src as [|c src]; [by apply elem_of_nil in H|].
    replace (Z.to_nat count) with (S (Z.to_nat (count - 1))) by lia. cbn [cstr].
    destruct (Z.eqb_spec c 0) as [->|]; cbn [negb].
    + rw IH; [|done|lia]. cbn [cstr Z.eqb]. done.
    + rw IH; [|by eapply terminated_cons|lia]. cbn [mbind option_bind take drop app]. do 3 f_equal.
      rw !take_app. f_equal. rw !take_replicate. f_equal. cbn. lia.
Qed.

Lemma strlcpy_spec dest src size :
  0 ∈ src → 0 ≤ size ≤ Z.of_nat (length dest) →
  let s := cstr src in
  let n := Nat.min (length s) (Z.to_nat (size - 1)) in
  strlcpy dest src size =
  Some (Z.of_nat (length s), if size =? 0 then dest else take n s ++ 0 :: drop (S n) dest).
Proof.
  intros H Hs s n. rw /strlcpy strlen_spec //. cbn [mbind option_bind].
  destruct (Z.eqb_spec size 0); [done|]. pose proof (cstr_length src H) as Hl.
  set (len := if size <=? _ then _ else _).
  assert (len = Z.of_nat n) as -> by (rw /len /n /s; case_if; lia).
  rw memcpy_spec; [|rw /n; lia|rw /n /s; lia]. cbn [mbind option_bind]. rw Nat2Z.id.
  assert (take n src = take n s) as -> by (apply take_cstr; [done|rw /n /s; lia]).
  assert (length (take n s) = n) as Hn by (rw length_take /n; lia).
  rw wr_in; [|rw length_app length_drop Hn; lia]. cbn [mbind option_bind]. do 2 f_equal. rw Nat2Z.id.
  rw insert_app_r_alt Hn; [|lia]. rw Nat.sub_diag. f_equal.
  destruct (drop n dest) as [|d t] eqn:E.
  - apply (f_equal length) in E. rw length_drop in E. cbn in E. lia.
  - cbn. f_equal. replace (S n) with (n + 1)%nat by lia. rewrite <- drop_drop. by rw E.
Qed.

Lemma strlcat_spec dest src count :
  0 ∈ dest → 0 ∈ src → Z.of_nat (length (cstr dest)) < count ≤ Z.of_nat (length dest) →
  let d := cstr dest in
  let s := cstr src in
  let n := Nat.min (length s) (Z.to_nat (count - Z.of_nat (length d) - 1)) in
  strlcat dest src count =
  Some (Z.of_nat (length d + length s), d ++ take n s ++ 0 :: drop (length d + S n) dest).
Proof.
  intros Hd H Hc d s n. rw /strlcat !strlen_spec //. cbn [mbind option_bind]. ztest.
  pose proof (cstr_length src H) as Hl. set (len := if _ <=? _ then _ else _).
  assert (len = Z.of_nat n) as -> by (rw /len /n /s /d; case_if; lia).
  rw Nat2Z.id. rw memcpy_spec; [|rw length_drop /n /d; lia|rw /n /s; lia].
  cbn [mbind option_bind]. rw Nat2Z.id.
  assert (take n src = take n s) as -> by (apply take_cstr; [done|rw /n /s; lia]).
  assert (length (take n s) = n) as Hn by (rw length_take /n; lia).
  rw wr_in; [|rw length_app !length_drop Hn /n /d; lia]. cbn [mbind option_bind]. do 2 f_equal; [rw /d /s; lia|].
  change (length (cstr dest)) with (length d).
  assert (take (length d) dest = d) as -> by (rw take_cstr // take_ge //).
  f_equal. rw Nat2Z.id insert_app_r_alt Hn; [|lia]. rw Nat.sub_diag. f_equal. rw drop_drop.
  destruct (drop (length d + n) dest) as [|x t] eqn:E.
  - apply (f_equal length) in E. rw length_drop in E. cbn in E. rw /n /d in E. lia.
  - cbn. f_equal. replace (length d + S n)%nat with (length d + n + 1)%nat by lia. rewrite <- drop_drop. by rw E.
Qed.

(** The bounded copies: [strlcpy] and [strlcat] never write outside the [size] bytes, always leave a
    terminated string, which is the concatenation cut to [size - 1] characters, and return the length
    the whole result would have; [strncpy] copies at most [count] characters and fills up with zeros. *)
Theorem bounded_copies_exact dest src size :
  0 ∈ src → 0 < size ≤ Z.of_nat (length dest) →
  let s := cstr src in
  (∃ m, strlcpy dest src size = Some (Z.of_nat (length s), m) ∧ length m = length dest ∧
     cstr m = take (Z.to_nat (size - 1)) s ∧ drop (Z.to_nat size) m = drop (Z.to_nat size) dest) ∧
  (0 ∈ take (Z.to_nat size) dest →
   ∃ m, strlcat dest src size = Some (Z.of_nat (length (cstr dest ++ s)), m) ∧ length m = length dest ∧
     cstr m = take (Z.to_nat (size - 1)) (cstr dest ++ s) ∧ drop (Z.to_nat size) m = drop (Z.to_nat size) dest) ∧
  strncpy dest src size =
    Some (take (Z.to_nat size) (s ++ replicate (Z.to_nat size) 0) ++ drop (Z.to_nat size) dest).
Proof.
  intros H Hs s. split_and!.
  - eexists. split; [rw strlcpy_spec //; lia|]. ztest. fold s. set (n := Nat.min _ _).
    assert (length (take n s) = n) as Hn by (rw length_take /n; lia). split_and!.
    + rw length_app Hn. cbn. rw length_drop. lia.
    + rw cstr_app.
      * rw /n. destruct (Nat.min_spec (length s) (Z.to_nat (size - 1))) as [[? ->]|[? ->]]; [|done].
        rw !take_ge //; lia.
      * intros Hin. apply (cstr_nonzero src). eapply elem_of_take in Hin as (i & Hi & _). by eapply list_elem_of_lookup_2.
    + rw drop_app_ge Hn; [|rw /n; lia]. destruct (Z.to_nat size - n)%nat as [|k] eqn:Ek; [lia|]. cbn. rw drop_drop. f_equal. lia.
  - intros Hin. assert (0 ∈ dest) as Hd by (eapply elem_of_take in Hin as (i & Hi & _); by eapply list_elem_of_lookup_2).
    assert (Z.of_nat (length (cstr dest)) < size) as Hl.
    { destruct (cstr_split _ Hin) as [q Hq].
      assert (cstr dest = cstr (take (Z.to_nat size) dest)) as ->.
      { rewrite <- (take_drop (Z.to_nat size) dest) at 1. rw Hq -assoc. cbn. rewrite -> !cstr_app by apply cstr_nonzero. done. }
      pose proof (cstr_length _ Hin) as Hlt. rw length_take in Hlt. lia. }
    eexists. split; [rw strlcat_spec //; [|lia]; by rw length_app|]. fold s. set (n := Nat.min _ _).
    assert (length (take n s) = n) as Hn by (rw length_take /n; lia). split_and!.
    + rw !length_app Hn. cbn. rw length_drop. lia.
    + rw assoc cstr_app.
      * rw take_app. f_equal; [rw take_ge //; lia|]. rw /n.
        destruct (Nat.min_spec (length s) (Z.to_nat (size - Z.of_nat (length (cstr dest)) - 1))) as [[? ->]|[? ->]].
        -- rw !take_ge //; lia.
        -- f_equal. lia.
      * rw not_elem_of_app. split; [apply cstr_nonzero|]. intros Hi.
        apply (cstr_nonzero src). eapply elem_of_take in Hi as (i & Hi & _). by eapply list_elem_of_lookup_2.
    + rw assoc drop_app_ge length_app Hn; [|rw /n; lia].
      destruct (Z.to_nat size - (length (cstr dest) + n))%nat as [|k] eqn:Ek; [lia|]. cbn. rw drop_drop. f_equal. lia.
  - apply strncpy_spec; [done|lia].
Qed.

Lemma bounded_copies_exact_witness :
  ∃ m, strlcat [97; 0; 7; 7; 7] [98; 99; 100; 0] 4 = Some (4, m) ∧ length m = 5%nat ∧
    cstr m = [97; 98; 99] ∧ drop 4 m = [7].
Proof.
  apply (bounded_copies_exact [97; 0; 7; 7; 7] [98; 99; 100; 0] 4); [|cbn; lia|].
  - right. right. right. left.
  - right. left.
Defined.

(** ** Overlapping copies *)

(** [m'] is [m] with the area at [src] copied over the area at [dest]. *)
Definition moved_area (m m' : list Z) (dest src lo hi : Z) : Prop :=
  length m' = length m ∧
  ∀ i, rd m' i = if (lo <=? i) && (i <? hi) then rd m (i - dest + src) else rd m i.

Lemma moved_area_step m m' dest src lo hi i :
  moved_area m m' dest src lo hi → 0 ≤ dest → 0 ≤ src →
  0 ≤ i < Z.of_nat (length m) → 0 ≤ i - dest + src < Z.of_nat (length m) →
  ¬ lo ≤ i - dest + src < hi → ¬ lo ≤ i < hi →
  ∃ m2, (c ← rd m' (i - dest + src); wr m' i c) = Some m2 ∧ length m2 = length m ∧
    ∀ j, rd m2 j = if j =? i then rd m (i - dest + src) else rd m' j.
Proof.
  intros [Hl Hm] Hd Hs Hi Hr Hn1 Hn2. destruct (rd_in m (i - dest + src)) as [c Hc]; [lia|].
  assert (rd m' (i - dest + src) = Some c) as Hc' by (rw Hm; case_if; [lia|done]).
  rw Hc'. cbn [mbind option_bind]. exists (<[Z.to_nat i := c]> m'). assert (wr m' i c = Some (<[Z.to_nat i := c]> m')) as Hw
    by (apply wr_in; lia).
  split; [done|]. split; [by rw length_insert|]. intros j. destruct (Z.eqb_spec j i) as [->|].
  - rw Hc. by eapply rd_wr_eq.
  - by eapply rd_wr_ne.
Qed.

Lemma memmove_spec mem dest src count :
  0 ≤ dest → 0 ≤ src → 0 ≤ count → dest + count ≤ Z.of_nat (length mem) → src + count ≤ Z.of_nat (length mem) →
  ∃ m', memmove mem dest src count = Some m' ∧ moved_area mem m' dest src dest (dest + count).
Proof.
  intros Hd Hs Hc Hdl Hsl. rw /memmove. case_if.
  - destruct (for_each_inv (λ k m, moved_area mem m dest src dest (dest + k)) (Z.to_nat count) 0
      (λ k mem, c ← rd mem (src + k); wr mem (dest + k) c) mem) as (m' & -> & Hm').
    + split; [done|]. intros i. case_if; [lia|done].
    + intros k m Hk Hm. destruct (moved_area_step mem m dest src dest (dest + k) (dest + k) Hm) as (m2 & E & Hl & H2); try lia.
      replace (dest + k - dest + src) with (src + k) in * by lia. exists m2. split; [done|]. split; [done|].
      intros i. rw H2. destruct Hm as [_ Hm]. destruct (Z.eqb_spec i (dest + k)) as [->|]; ztest.
      * f_equal. lia.
      * rw Hm. repeat case_if; done || lia.
    + exists m'. split; [done|]. replace (dest + count) with (dest + (0 + Z.of_nat (Z.to_nat count))) by lia. done.
  - destruct (for_each_inv (λ k m, moved_area mem m dest src (dest + count - k) (dest + count)) (Z.to_nat count) 0
      (λ k mem, c ← rd mem (src + count - 1 - k); wr mem (dest + count - 1 - k) c) mem) as (m' & -> & Hm').
    + split; [done|]. intros i. case_if; [lia|done].
    + intros k m Hk Hm. set (i0 := dest + count - 1 - k).
      destruct (moved_area_step mem m dest src (dest + count - k) (dest + count) i0 Hm) as (m2 & E & Hl & H2); try lia.
      replace (i0 - dest + src) with (src + count - 1 - k) in * by lia. exists m2. split; [done|]. split; [done|].
      intros i. rw H2. destruct Hm as [_ Hm]. rw /i0. destruct (Z.eqb_spec i (dest + count - 1 - k)) as [->|]; ztest.
      * f_equal. lia.
      * rw Hm. repeat case_if; done || lia.
    + exists m'. split; [done|]. rw Z.add_0_l Z2Nat.id // in Hm'. by replace (dest + count - count) with dest in Hm' by lia.
Qed.

(** [memmove] copies correctly however the two areas overlap: every byte of the destination is the old byte of
    the source, and every other byte of the object is unchanged. *)
Theorem memmove_overlap mem dest src count :
  0 ≤ dest → 0 ≤ src → 0 ≤ count → dest + count ≤ Z.of_nat (length mem) → src + count ≤ Z.of_nat (length mem) →
  ∃ m', memmove mem dest src count = Some m' ∧ length m' = length mem ∧
    ∀ i, rd m' i = if (dest <=? i) && (i <? dest + count) then rd mem (i - dest + src) else rd mem i.
Proof. apply memmove_spec. Qed.

Lemma memmove_overlap_witness :
  ∃ m', memmove [1; 2; 3; 4; 5] 1 0 4 = Some m' ∧ length m' = 5%nat ∧
    ∀ i, rd m' i = if (1 <=? i) && (i <? 1 + 4) then rd [1; 2; 3; 4; 5] (i - 1 + 0) else rd [1; 2; 3; 4; 5] i.
Proof. apply (memmove_overlap [1; 2; 3; 4; 5] 1 0 4); cbn; lia. Defined.

(** ** Comparisons *)

Lemma memcmp_spec cs ct count :
  0 ≤ count ≤ Z.of_nat (length cs) → count ≤ Z.of_nat (length ct) →
  ∃ r, memcmp cs ct count = Some r ∧ (r = 0 ↔ take (Z.to_nat count) cs = take (Z.to_nat count) ct).
Proof.
  revert ct count. induction cs as [|c1 cs IH]; intros ct count H1 H2.
  - cbn in H1. assert (count = 0) as -> by lia. by exists 0.
  - cbn [memcmp]. destruct (count <=? 0) eqn:E; zbool; [assert (count = 0) as -> by lia; by exists 0|].
    destruct ct as [|c2 ct]; [cbn in H2; lia|]. replace (Z.to_nat count) with (S (Z.to_nat (count - 1))) by lia. cbn [take].
    destruct (Z.eqb_spec (c1 - c2) 0); cbn [negb].
    + cbn in H1, H2. destruct (IH ct (count - 1)) as (r & -> & Hr); [lia..|]. exists r. split; [done|]. rw Hr.
      assert (c1 = c2) as -> by lia. split; [by intros ->|by intros [= ->]].
    + eexists. split; [done|]. split; [done|]. intros [= ->]. lia.
Qed.

(** The lexicographic order of strings, as C compares them. *)
Fixpoint lex (a b : list Z) : Z :=
  match a, b with
  | [], [] => 0
  | [], _ :: _ => -1
  | _ :: _, [] => 1
  | x :: a', y :: b' => if x =? y then lex a' b' else if x <? y then -1 else 1
  end.

Lemma strcmp_spec cs ct :
  0 ∈ cs → 0 ∈ ct → Forall (λ c, 0 ≤ c) cs → Forall (λ c, 0 ≤ c) ct → strcmp cs ct = Some (lex (cstr cs) (cstr ct)).
Proof.
  revert ct. induction cs as [|c1 cs IH]; intros ct H1 H2 P1 P2; [by apply elem_of_nil in H1|].
  destruct ct as [|c2 ct]; [by apply elem_of_nil in H2|]. cbn [strcmp cstr].
  inversion_clear P1. inversion_clear P2. destruct (Z.eqb_spec c1 c2) as [->|Hne]; cbn [negb].
  - destruct (Z.eqb_spec c2 0); [done|]. rw IH; [|by eapply terminated_cons|by eapply terminated_cons|done|done].
    cbn. by rw Z.eqb_refl.
  - destruct (Z.eqb_spec c1 0) as [->|], (Z.eqb_spec c2 0) as [->|]; try done; cbn; ztest; try done.
Qed.

Lemma decide_yes (P : Prop) `{Decision P} : P → Some true = Some (bool_decide P).
Proof. intros HP. f_equal. symmetry. by apply bool_decide_eq_true_2. Qed.

Lemma decide_no (P : Prop) `{Decision P} : ¬ P → Some false = Some (bool_decide P).
Proof. intros HP. f_equal. symmetry. by apply bool_decide_eq_false_2. Qed.

(** Equal up to one trailing newline. *)
Lemma sysfs_streq_spec s1 s2 :
  0 ∈ s1 → 0 ∈ s2 →
  sysfs_streq s1 s2 =
  Some (bool_decide (cstr s1 = cstr s2 ∨ cstr s1 ++ [10] = cstr s2 ∨ cstr s1 = cstr s2 ++ [10])).
Proof.
  revert s2. induction s1 as [|c1 s1 IH]; intros s2 H1 H2; [by apply elem_of_nil in H1|].
  destruct s2 as [|c2 s2]; [by apply elem_of_nil in H2|]. rw /sysfs_streq. cbn [skip_equal cstr].
  destruct (negb (c1 =? 0) && (c1 =? c2)) eqn:E; zbool.
  - subst c2. ztest. specialize (IH s2). rw /sysfs_streq in IH.
    rw IH; [|by eapply terminated_cons|by eapply terminated_cons]. f_equal.
    apply bool_decide_ext. split; [intros [-> | [<- | ->]]; eauto|].
    intros [[= ->]|[[= <-]|[= ->]]]; eauto.
  - cbn [mbind option_bind]. change (rd (c1 :: s1) 0) with (Some c1). change (rd (c2 :: s2) 0) with (Some c2).
    cbn [mbind option_bind]. destruct (Z.eqb_spec c1 c2) as [->|Hne].
    { destruct E as [E|E]; [|done]. zbool. subst. cbn. rw bool_decide_eq_true_2 //. by left. }
    assert (∀ (c : Z) (s : list Z), rd (c :: s) 1 = rd s 0) as Hrd.
    { intros c s. rw /rd. cbn [length]. destruct s; [done|]. cbn [length]. by ztest. }
    destruct (Z.eqb_spec c1 0) as [->|]; cbn [andb].
    + destruct (Z.eqb_spec c2 0) as [->|]; [done|].
      destruct (Z.eqb_spec c2 10) as [->|Hc]; cbn [andb mbind option_bind Z.eqb].
      * apply (terminated_cons 10) in H2; [|done]. destruct s2 as [|d s2]; [by apply elem_of_nil in H2|].
        rw Hrd. change (rd (d :: s2) 0) with (Some d). cbn [mbind option_bind cstr].
        destruct (Z.eqb_spec d 0) as [->|]; cbn [mbind option_bind app].
        -- apply decide_yes. right. by left.
        -- apply decide_no. intros [H|[H|H]]; discriminate H.
      * apply decide_no. cbn [app]. intros [H|[H|H]]; congruence.
    + cbn [mbind option_bind]. destruct (Z.eqb_spec c1 10) as [->|Hc]; cbn [mbind option_bind].
      * apply (terminated_cons 10) in H1; [|done]. destruct s1 as [|d s1]; [by apply elem_of_nil in H1|].
        rw Hrd. change (rd (d :: s1) 0) with (Some d). cbn [mbind option_bind cstr].
        destruct (Z.eqb_spec d 0) as [->|], (Z.eqb_spec c2 0) as [->|]; cbn [andb app].
        -- apply decide_yes. right. by right.
        -- apply decide_no. intros [H|[H|H]]; congruence.
        -- apply decide_no. intros [H|[H|H]]; congruence.
        -- apply decide_no. intros [H|[H|H]]; congruence.
      * apply decide_no. destruct (Z.eqb_spec c2 0) as [->|]; cbn [app]; intros [H|[H|H]]; congruence.
Qed.

(** ** Substrings *)

(** [r] is the first place where [n] occurs in [h], or [None]. *)
Definition first_occurrence (n h : list Z) (r : option Z) : Prop :=
  match r with
  | Some k => 0 ≤ k ∧ n `prefix_of` drop (Z.to_nat k) h ∧
      ∀ j, 0 ≤ j < k → ¬ n `prefix_of` drop (Z.to_nat j) h
  | None => ∀ j, 0 ≤ j → ¬ n `prefix_of` drop (Z.to_nat j) h
  end.

Lemma first_occurrence_next n c h r :
  ¬ n `prefix_of` c :: h → first_occurrence n h r → first_occurrence n (c :: h) (option_map Z.succ r).
Proof.
  intros Hn. assert (∀ j, 0 < j → drop (Z.to_nat j) (c :: h) = drop (Z.to_nat (j - 1)) h) as Hd.
  { intros j Hj. by replace (Z.to_nat j) with (S (Z.to_nat (j - 1))) by lia. }
  destruct r as [k|]; cbn.
  - intros (Hk & Hp & Hf). split; [lia|]. split; [rw Hd; [|lia]; by replace (Z.succ k - 1) with k by lia|].
    intros j Hj. destruct (Z.eq_dec j 0) as [->|]; [done|]. rw Hd; [|lia]. apply Hf. lia.
  - intros Hf j Hj. destruct (Z.eq_dec j 0) as [->|]; [done|]. rw Hd; [|lia]. apply Hf. lia.
Qed.

Lemma prefix_take (n h : list Z) : n `prefix_of` h ↔ take (length n) h = n.
Proof.
  split; [intros [k ->]; apply take_app_length|]. intros H. exists (drop (length n) h).
  by rewrite <- (take_drop (length n) h) at 1; rw H.
Qed.

Lemma strstr_loop_spec s2 hay r :
  0 ∈ s2 → cstr s2 ≠ [] →
  ∃ k, strstr_loop (hay ++ 0 :: r) s2 (Z.of_nat (length (cstr s2))) (Z.of_nat (length hay)) = Some k ∧
    first_occurrence (cstr s2) hay k.
Proof.
  intros H2 Hne. set (n := cstr s2) in *. assert (0 < length n)%nat as Hn by (destruct n; [done|cbn; lia]).
  induction hay as [|c hay IH].
  - exists None. cbn [app strstr_loop length]. ztest. split; [done|]. intros j _ Hp%prefix_length.
    rw drop_nil in Hp. cbn in Hp. lia.
  - cbn [app strstr_loop]. case_if.
    + exists None. split; [done|]. intros j _ Hp%prefix_length. rw length_drop in Hp. lia.
    + assert (length n < length s2)%nat by (by apply cstr_length).
      destruct (memcmp_spec (c :: hay ++ 0 :: r) s2 (Z.of_nat (length n))) as (x & -> & Hx);
        [cbn; rw length_app; cbn in *; lia|lia|]. cbn [mbind option_bind].
      rw Nat2Z.id (take_cstr _ s2) // (take_ge n) // in Hx.
      change (c :: hay ++ 0 :: r) with ((c :: hay) ++ 0 :: r) in Hx. rewrite -> take_app_le in Hx by lia.
      rewrite <- prefix_take in Hx. destruct (Z.eqb_spec x 0) as [Hx0|Hx0].
      * exists (Some 0). split; [done|]. split; [lia|]. split; [by apply Hx|lia].
      * destruct IH as (k & E & Hk). replace (Z.of_nat (length (c :: hay)) - 1) with (Z.of_nat (length hay)) by (cbn; lia).
        rw E. cbn [mbind option_bind]. eexists. split; [done|]. apply first_occurrence_next; [|done]. by rewrite <- Hx.
Qed.

(** [strstr] finds the first occurrence of a string in another, or returns [NULL] when there is none; it reads
    nothing behind the two terminators. *)
Theorem strstr_first s1 s2 :
  0 ∈ s1 → 0 ∈ s2 → ∃ r, strstr s1 s2 = Some r ∧ first_occurrence (cstr s2) (cstr s1) r.
Proof.
  intros H1 H2. rw /strstr !strlen_spec //. cbn [mbind option_bind]. destruct (cstr s2) as [|c n] eqn:E.
  - exists (Some 0). split; [done|]. split; [lia|]. split; [apply prefix_nil|lia].
  - cbn [length]. ztest. destruct (cstr_split s1 H1) as [r Hr].
    destruct (strstr_loop_spec s2 (cstr s1) r H2) as (k & Ek & Hk); [by rw E|].
    rw E -Hr in Ek Hk. by exists k.
Qed.

Lemma strstr_first_witness :
  ∃ r, strstr [97; 98; 97; 98; 99; 0] [97; 98; 99; 0] = Some r ∧
    first_occurrence [97; 98; 99] [97; 98; 97; 98; 99] r.
Proof.
  apply (strstr_first [97; 98; 97; 98; 99; 0] [97; 98; 99; 0]).
  - do 5 right. left.
  - do 3 right. left.
Defined.

(** [strnstr] does not stop at the end of the text: with a bound behind the terminator it reads on. *)
Example strnstr_overread : strnstr [97; 0] [98; 0] 8 = None ∧ strstr [97; 0] [98; 0] = Some None.
Proof. vm_compute. done. Qed.

(** ** Word-wise search *)

(** The search for a byte other than [v], in two parts. *)
Lemma check_bytes8_split s v k n :
  0 ≤ k ≤ n → k ≤ Z.of_nat (length s) →
  check_bytes8 s v n =
  (r ← check_bytes8 s v k;
   match r with
   | Some i => Some (Some i)
   | None => r' ← check_bytes8 (drop (Z.to_nat k) s) v (n - k); Some (option_map (Z.add k) r')
   end).
Proof.
  assert (∀ (s : list Z) n, check_bytes8 s v n =
    (r ← check_bytes8 s v 0;
     match r with
     | Some i => Some (Some i)
     | None => r' ← check_bytes8 (drop (Z.to_nat 0) s) v (n - 0); Some (option_map (Z.add 0) r')
     end)) as H0.
  { intros s' n'. replace (check_bytes8 s' v 0) with (Some (@None Z)) by (by destruct s'). cbn [mbind option_bind].
    rw Z.sub_0_r. change (drop (Z.to_nat 0) s') with s'. by destruct (check_bytes8 s' v n') as [[i|]|]. }
  revert k n. induction s as [|x s IH]; intros k n Hk Hs.
  - cbn in Hs. assert (k = 0) as -> by lia. apply H0.
  - destruct (Z.eq_dec k 0) as [->|]; [apply H0|].
    cbn [check_bytes8]. ztest. destruct (negb (x =? v)); [done|]. cbn in Hs. rw (IH (k - 1) (n - 1)); [|lia..].
    replace (Z.to_nat k) with (S (Z.to_nat (k - 1))) by lia. cbn [drop].
    destruct (check_bytes8 s v (k - 1)) as [[i|]|]; try done. cbn [mbind option_bind option_map].
    replace (n - 1 - (k - 1)) with (n - k) by lia. destruct (check_bytes8 _ v (n - k)) as [[i|]|]; try done.
    cbn. do 2 f_equal. lia.
Qed.

Lemma check_bytes8_total s v n :
  0 ≤ n ≤ Z.of_nat (length s) →
  (check_bytes8 s v n = Some None ↔ take (Z.to_nat n) s = replicate (Z.to_nat n) v) ∧ check_bytes8 s v n ≠ None.
Proof.
  revert n. induction s as [|x s IH]; intros n Hn.
  - cbn in Hn. assert (n = 0) as -> by lia. done.
  - cbn [check_bytes8]. destruct (Z.eqb_spec n 0) as [->|]; [done|]. cbn in Hn.
    replace (Z.to_nat n) with (S (Z.to_nat (n - 1))) by lia. cbn [take replicate].
    destruct (Z.eqb_spec x v) as [->|Hx]; cbn [negb].
    + destruct (IH (n - 1)) as [IH1 IH2]; [lia|]. destruct (check_bytes8 s v (n - 1)) as [[i|]|]; [| |done]; cbn.
      * split; [|done]. split; [done|]. intros [= H]. by apply IH1 in H.
      * split; [|done]. split; [|done]. intros _. f_equal. by apply IH1.
    + split; [|done]. split; [done|]. congruence.
Qed.

Lemma splat_le fast v : in_width 8 v → splat fast v = le (replicate 8 v).
Proof.
  intros Hv. apply Z.eqb_eq. revert Hv.
  destruct fast; [by_bytes (λ v, splat true v =? le (replicate 8 v)) v|by_bytes (λ v, splat false v =? le (replicate 8 v)) v].
Qed.

Lemma le_inj a b : Forall (in_width 8) a → Forall (in_width 8) b → length a = length b → le a = le b → a = b.
Proof.
  intros Ha. revert b. induction Ha as [|x a [Hx0 Hx] Ha IH]; intros [|y b] Hb Hl E; try done.
  inversion_clear Hb as [|? ? [Hy0 Hy] Hb']. cbn in E, Hl. change (2 ^ 8) with 256 in *.
  assert (x = y) as -> by lia. f_equal. apply IH; [done|lia|lia].
Qed.

Lemma check_words_spec fast start v words tail :
  in_width 8 v → Forall (in_width 8) start → 0 ≤ tail → 8 * Z.of_nat words + tail ≤ Z.of_nat (length start) →
  check_words start v (splat fast v) words tail = check_bytes8 start v (8 * Z.of_nat words + tail).
Proof.
  intros Hv Hs Ht. revert start Hs. induction words as [|w IH]; intros start Hs Hl; [done|].
  cbn [check_words]. ztest. rw (check_bytes8_split start v 8 (8 * Z.of_nat (S w) + tail)); [|lia..].
  destruct (check_bytes8_total start v 8) as [Hall Htot]; [lia|]. change (Z.to_nat 8) with 8%nat in *.
  assert (le (take 8 start) = splat fast v ↔ take 8 start = replicate 8 v) as Hw.
  { rw splat_le //. split; [|by intros ->]. apply le_inj; [by apply Forall_take|by apply Forall_replicate|].
    rw length_take length_replicate. lia. }
  destruct (Z.eqb_spec (le (take 8 start)) (splat fast v)) as [E|E]; cbn [negb].
  - apply Hw, Hall in E. rw E. cbn [mbind option_bind].
    replace (8 * Z.of_nat (S w) + tail - 8) with (8 * Z.of_nat w + tail) by lia.
    rw IH; [done|by apply Forall_drop|rw length_drop; lia].
  - destruct (check_bytes8 start v 8) as [[i|]|]; [done| |done]. destruct E. by apply Hw, Hall.
Qed.

(** [memchr_inv], which compares eight bytes at a time from the first aligned address on, gives the same answer
    as the byte-wise search for the first byte other than [c], at every alignment. *)
Theorem memchr_inv_exact fast addr start c bytes :
  Forall (in_width 8) start → 0 ≤ addr → 0 ≤ bytes ≤ Z.of_nat (length start) → bytes < 2 ^ 35 →
  memchr_inv fast addr start c bytes = check_bytes8 start (wrap 8 c) bytes.
Proof.
  intros Hs Ha Hb Hmax. rw /memchr_inv. case_if; [done|].
  assert (in_width 8 (wrap 8 c)) as Hv by (by apply in_width_wrap).
  assert (∀ st n, Forall (in_width 8) st → 0 ≤ n ≤ Z.of_nat (length st) → n < 2 ^ 35 →
    check_words st (wrap 8 c) (splat fast (wrap 8 c)) (Z.to_nat (wrap 32 (n / 8))) (n mod 8) =
    check_bytes8 st (wrap 8 c) n) as Hrest.
  { intros st n Hst Hn Hm. change (2 ^ 35) with 34359738368 in Hm.
    rw (wrap_small 32); [|split; [zdm|change (2 ^ 32) with 4294967296; zdm]].
    rw check_words_spec //; [|zdm|zdm]. f_equal. zdm. }
  assert (0 ≤ addr mod 8 < 8) by zdm. destruct (Z.eqb_spec (addr mod 8) 0) as [E|E]; cbn [negb].
  - rw Hrest //. destruct (check_bytes8 start (wrap 8 c) bytes) as [[i|]|]; done.
  - rw (check_bytes8_split start (wrap 8 c) (8 - addr mod 8) bytes); [|lia..].
    destruct (check_bytes8 start (wrap 8 c) (8 - addr mod 8)) as [[i|]|]; try done. cbn [mbind option_bind].
    rw Hrest //; [by apply Forall_drop|rw length_drop; lia|lia].
Qed.

Lemma memchr_inv_exact_witness :
  memchr_inv true 3 (replicate 30 7 ++ [8]) 7 31 = check_bytes8 (replicate 30 7 ++ [8]) (wrap 8 7) 31.
Proof.
  apply (memchr_inv_exact true 3 (replicate 30 7 ++ [8]) 7 31); [|lia|cbn; lia|lia].
  cbn. words_concrete.
Defined.

(** With [n = 0] the [size_t] wraps around and [strncasecmp] compares the whole strings. *)
Example strncasecmp_zero : strncasecmp [97; 0] [98; 0] 0 = Some (-1) ∧ strnicmp [97; 0] [98; 0] 0 = Some 0.
Proof. vm_compute. done. Qed.
