(* ===== verification/Crc.v ===== *)
(** * Checksums: the table-driven cyclic redundancy checks of lib/crc*.c

    The tables are those of the source; they are shown to be the tables of the polynomials that the comments name, so
    that the routines compute the bit-by-bit checksums. *)
From S2P Require Import Prelude Ctype.

(** ** Tables *)

Definition crc16_table : list Z :=
  [0x0000; 0xc0c1; 0xc181; 0x0140; 0xc301; 0x03c0; 0x0280; 0xc241;
   0xc601; 0x06c0; 0x0780; 0xc741; 0x0500; 0xc5c1; 0xc481; 0x0440;
   0xcc01; 0x0cc0; 0x0d80; 0xcd41; 0x0f00; 0xcfc1; 0xce81; 0x0e40;
   0x0a00; 0xcac1; 0xcb81; 0x0b40; 0xc901; 0x09c0; 0x0880; 0xc841;
   0xd801; 0x18c0; 0x1980; 0xd941; 0x1b00; 0xdbc1; 0xda81; 0x1a40;
   0x1e00; 0xdec1; 0xdf81; 0x1f40; 0xdd01; 0x1dc0; 0x1c80; 0xdc41;
   0x1400; 0xd4c1; 0xd581; 0x1540; 0xd701; 0x17c0; 0x1680; 0xd641;
   0xd201; 0x12c0; 0x1380; 0xd341; 0x1100; 0xd1c1; 0xd081; 0x1040;
   0xf001; 0x30c0; 0x3180; 0xf141; 0x3300; 0xf3c1; 0xf281; 0x3240;
   0x3600; 0xf6c1; 0xf781; 0x3740; 0xf501; 0x35c0; 0x3480; 0xf441;
   0x3c00; 0xfcc1; 0xfd81; 0x3d40; 0xff01; 0x3fc0; 0x3e80; 0xfe41;
   0xfa01; 0x3ac0; 0x3b80; 0xfb41; 0x3900; 0xf9c1; 0xf881; 0x3840;
   0x2800; 0xe8c1; 0xe981; 0x2940; 0xeb01; 0x2bc0; 0x2a80; 0xea41;
   0xee01; 0x2ec0; 0x2f80; 0xef41; 0x2d00; 0xedc1; 0xec81; 0x2c40;
   0xe401; 0x24c0; 0x2580; 0xe541; 0x2700; 0xe7c1; 0xe681; 0x2640;
   0x2200; 0xe2c1; 0xe381; 0x2340; 0xe101; 0x21c0; 0x2080; 0xe041;
   0xa001; 0x60c0; 0x6180; 0xa141; 0x6300; 0xa3c1; 0xa281; 0x6240;
   0x6600; 0xa6c1; 0xa781; 0x6740; 0xa501; 0x65c0; 0x6480; 0xa441;
   0x6c00; 0xacc1; 0xad81; 0x6d40; 0xaf01; 0x6fc0; 0x6e80; 0xae41;
   0xaa01; 0x6ac0; 0x6b80; 0xab41; 0x6900; 0xa9c1; 0xa881; 0x6840;
   0x7800; 0xb8c1; 0xb981; 0x7940; 0xbb01; 0x7bc0; 0x7a80; 0xba41;
   0xbe01; 0x7ec0; 0x7f80; 0xbf41; 0x7d00; 0xbdc1; 0xbc81; 0x7c40;
   0xb401; 0x74c0; 0x7580; 0xb541; 0x7700; 0xb7c1; 0xb681; 0x7640;
   0x7200; 0xb2c1; 0xb381; 0x7340; 0xb101; 0x71c0; 0x7080; 0xb041;
   0x5000; 0x90c1; 0x9181; 0x5140; 0x9301; 0x53c0; 0x5280; 0x9241;
   0x9601; 0x56c0; 0x5780; 0x9741; 0x5500; 0x95c1; 0x9481; 0x5440;
   0x9c01; 0x5cc0; 0x5d80; 0x9d41; 0x5f00; 0x9fc1; 0x9e81; 0x5e40;
   0x5a00; 0x9ac1; 0x9b81; 0x5b40; 0x9901; 0x59c0; 0x5880; 0x9841;
   0x8801; 0x48c0; 0x4980; 0x8941; 0x4b00; 0x8bc1; 0x8a81; 0x4a40;
   0x4e00; 0x8ec1; 0x8f81; 0x4f40; 0x8d01; 0x4dc0; 0x4c80; 0x8c41;
   0x4400; 0x84c1; 0x8581; 0x4540; 0x8701; 0x47c0; 0x4680; 0x8641;
   0x8201; 0x42c0; 0x4380; 0x8341; 0x4100; 0x81c1; 0x8081; 0x4040].

Definition crc_ccitt_table : list Z :=
  [0x0000; 0x1189; 0x2312; 0x329b; 0x4624; 0x57ad; 0x6536; 0x74bf;
   0x8c48; 0x9dc1; 0xaf5a; 0xbed3; 0xca6c; 0xdbe5; 0xe97e; 0xf8f7;
   0x1081; 0x0108; 0x3393; 0x221a; 0x56a5; 0x472c; 0x75b7; 0x643e;
   0x9cc9; 0x8d40; 0xbfdb; 0xae52; 0xdaed; 0xcb64; 0xf9ff; 0xe876;
   0x2102; 0x308b; 0x0210; 0x1399; 0x6726; 0x76af; 0x4434; 0x55bd;
   0xad4a; 0xbcc3; 0x8e58; 0x9fd1; 0xeb6e; 0xfae7; 0xc87c; 0xd9f5;
   0x3183; 0x200a; 0x1291; 0x0318; 0x77a7; 0x662e; 0x54b5; 0x453c;
   0xbdcb; 0xac42; 0x9ed9; 0x8f50; 0xfbef; 0xea66; 0xd8fd; 0xc974;
   0x4204; 0x538d; 0x6116; 0x709f; 0x0420; 0x15a9; 0x2732; 0x36bb;
   0xce4c; 0xdfc5; 0xed5e; 0xfcd7; 0x8868; 0x99e1; 0xab7a; 0xbaf3;
   0x5285; 0x430c; 0x7197; 0x601e; 0x14a1; 0x0528; 0x37b3; 0x263a;
   0xdecd; 0xcf44; 0xfddf; 0xec56; 0x98e9; 0x8960; 0xbbfb; 0xaa72;
   0x6306; 0x728f; 0x4014; 0x519d; 0x2522; 0x34ab; 0x0630; 0x17b9;
   0xef4e; 0xfec7; 0xcc5c; 0xddd5; 0xa96a; 0xb8e3; 0x8a78; 0x9bf1;
   0x7387; 0x620e; 0x5095; 0x411c; 0x35a3; 0x242a; 0x16b1; 0x0738;
   0xffcf; 0xee46; 0xdcdd; 0xcd54; 0xb9eb; 0xa862; 0x9af9; 0x8b70;
   0x8408; 0x9581; 0xa71a; 0xb693; 0xc22c; 0xd3a5; 0xe13e; 0xf0b7;
   0x0840; 0x19c9; 0x2b52; 0x3adb; 0x4e64; 0x5fed; 0x6d76; 0x7cff;
   0x9489; 0x8500; 0xb79b; 0xa612; 0xd2ad; 0xc324; 0xf1bf; 0xe036;
   0x18c1; 0x0948; 0x3bd3; 0x2a5a; 0x5ee5; 0x4f6c; 0x7df7; 0x6c7e;
   0xa50a; 0xb483; 0x8618; 0x9791; 0xe32e; 0xf2a7; 0xc03c; 0xd1b5;
   0x2942; 0x38cb; 0x0a50; 0x1bd9; 0x6f66; 0x7eef; 0x4c74; 0x5dfd;
   0xb58b; 0xa402; 0x9699; 0x8710; 0xf3af; 0xe226; 0xd0bd; 0xc134;
   0x39c3; 0x284a; 0x1ad1; 0x0b58; 0x7fe7; 0x6e6e; 0x5cf5; 0x4d7c;
   0xc60c; 0xd785; 0xe51e; 0xf497; 0x8028; 0x91a1; 0xa33a; 0xb2b3;
   0x4a44; 0x5bcd; 0x6956; 0x78df; 0x0c60; 0x1de9; 0x2f72; 0x3efb;
   0xd68d; 0xc704; 0xf59f; 0xe416; 0x90a9; 0x8120; 0xb3bb; 0xa232;
   0x5ac5; 0x4b4c; 0x79d7; 0x685e; 0x1ce1; 0x0d68; 0x3ff3; 0x2e7a;
   0xe70e; 0xf687; 0xc41c; 0xd595; 0xa12a; 0xb0a3; 0x8238; 0x93b1;
   0x6b46; 0x7acf; 0x4854; 0x59dd; 0x2d62; 0x3ceb; 0x0e70; 0x1ff9;
   0xf78f; 0xe606; 0xd49d; 0xc514; 0xb1ab; 0xa022; 0x92b9; 0x8330;
   0x7bc7; 0x6a4e; 0x58d5; 0x495c; 0x3de3; 0x2c6a; 0x1ef1; 0x0f78].

Definition crc_itu_t_table : list Z :=
  [0x0000; 0x1021; 0x2042; 0x3063; 0x4084; 0x50a5; 0x60c6; 0x70e7;
   0x8108; 0x9129; 0xa14a; 0xb16b; 0xc18c; 0xd1ad; 0xe1ce; 0xf1ef;
   0x1231; 0x0210; 0x3273; 0x2252; 0x52b5; 0x4294; 0x72f7; 0x62d6;
   0x9339; 0x8318; 0xb37b; 0xa35a; 0xd3bd; 0xc39c; 0xf3ff; 0xe3de;
   0x2462; 0x3443; 0x0420; 0x1401; 0x64e6; 0x74c7; 0x44a4; 0x5485;
   0xa56a; 0xb54b; 0x8528; 0x9509; 0xe5ee; 0xf5cf; 0xc5ac; 0xd58d;
   0x3653; 0x2672; 0x1611; 0x0630; 0x76d7; 0x66f6; 0x5695; 0x46b4;
   0xb75b; 0xa77a; 0x9719; 0x8738; 0xf7df; 0xe7fe; 0xd79d; 0xc7bc;
   0x48c4; 0x58e5; 0x6886; 0x78a7; 0x0840; 0x1861; 0x2802; 0x3823;
   0xc9cc; 0xd9ed; 0xe98e; 0xf9af; 0x8948; 0x9969; 0xa90a; 0xb92b;
   0x5af5; 0x4ad4; 0x7ab7; 0x6a96; 0x1a71; 0x0a50; 0x3a33; 0x2a12;
   0xdbfd; 0xcbdc; 0xfbbf; 0xeb9e; 0x9b79; 0x8b58; 0xbb3b; 0xab1a;
   0x6ca6; 0x7c87; 0x4ce4; 0x5cc5; 0x2c22; 0x3c03; 0x0c60; 0x1c41;
   0xedae; 0xfd8f; 0xcdec; 0xddcd; 0xad2a; 0xbd0b; 0x8d68; 0x9d49;
   0x7e97; 0x6eb6; 0x5ed5; 0x4ef4; 0x3e13; 0x2e32; 0x1e51; 0x0e70;
   0xff9f; 0xefbe; 0xdfdd; 0xcffc; 0xbf1b; 0xaf3a; 0x9f59; 0x8f78;
   0x9188; 0x81a9; 0xb1ca; 0xa1eb; 0xd10c; 0xc12d; 0xf14e; 0xe16f;
   0x1080; 0x00a1; 0x30c2; 0x20e3; 0x5004; 0x4025; 0x7046; 0x6067;
   0x83b9; 0x9398; 0xa3fb; 0xb3da; 0xc33d; 0xd31c; 0xe37f; 0xf35e;
   0x02b1; 0x1290; 0x22f3; 0x32d2; 0x4235; 0x5214; 0x6277; 0x7256;
   0xb5ea; 0xa5cb; 0x95a8; 0x8589; 0xf56e; 0xe54f; 0xd52c; 0xc50d;
   0x34e2; 0x24c3; 0x14a0; 0x0481; 0x7466; 0x6447; 0x5424; 0x4405;
   0xa7db; 0xb7fa; 0x8799; 0x97b8; 0xe75f; 0xf77e; 0xc71d; 0xd73c;
   0x26d3; 0x36f2; 0x0691; 0x16b0; 0x6657; 0x7676; 0x4615; 0x5634;
   0xd94c; 0xc96d; 0xf90e; 0xe92f; 0x99c8; 0x89e9; 0xb98a; 0xa9ab;
   0x5844; 0x4865; 0x7806; 0x6827; 0x18c0; 0x08e1; 0x3882; 0x28a3;
   0xcb7d; 0xdb5c; 0xeb3f; 0xfb1e; 0x8bf9; 0x9bd8; 0xabbb; 0xbb9a;
   0x4a75; 0x5a54; 0x6a37; 0x7a16; 0x0af1; 0x1ad0; 0x2ab3; 0x3a92;
   0xfd2e; 0xed0f; 0xdd6c; 0xcd4d; 0xbdaa; 0xad8b; 0x9de8; 0x8dc9;
   0x7c26; 0x6c07; 0x5c64; 0x4c45; 0x3ca2; 0x2c83; 0x1ce0; 0x0cc1;
   0xef1f; 0xff3e; 0xcf5d; 0xdf7c; 0xaf9b; 0xbfba; 0x8fd9; 0x9ff8;
   0x6e17; 0x7e36; 0x4e55; 0x5e74; 0x2e93; 0x3eb2; 0x0ed1; 0x1ef0].

Definition crc7_syndrome_table : list Z :=
  [0x00; 0x09; 0x12; 0x1b; 0x24; 0x2d; 0x36; 0x3f;
   0x48; 0x41; 0x5a; 0x53; 0x6c; 0x65; 0x7e; 0x77;
   0x19; 0x10; 0x0b; 0x02; 0x3d; 0x34; 0x2f; 0x26;
   0x51; 0x58; 0x43; 0x4a; 0x75; 0x7c; 0x67; 0x6e;
   0x32; 0x3b; 0x20; 0x29; 0x16; 0x1f; 0x04; 0x0d;
   0x7a; 0x73; 0x68; 0x61; 0x5e; 0x57; 0x4c; 0x45;
   0x2b; 0x22; 0x39; 0x30; 0x0f; 0x06; 0x1d; 0x14;
   0x63; 0x6a; 0x71; 0x78; 0x47; 0x4e; 0x55; 0x5c;
   0x64; 0x6d; 0x76; 0x7f; 0x40; 0x49; 0x52; 0x5b;
   0x2c; 0x25; 0x3e; 0x37; 0x08; 0x01; 0x1a; 0x13;
   0x7d; 0x74; 0x6f; 0x66; 0x59; 0x50; 0x4b; 0x42;
   0x35; 0x3c; 0x27; 0x2e; 0x11; 0x18; 0x03; 0x0a;
   0x56; 0x5f; 0x44; 0x4d; 0x72; 0x7b; 0x60; 0x69;
   0x1e; 0x17; 0x0c; 0x05; 0x3a; 0x33; 0x28; 0x21;
   0x4f; 0x46; 0x5d; 0x54; 0x6b; 0x62; 0x79; 0x70;
   0x07; 0x0e; 0x15; 0x1c; 0x23; 0x2a; 0x31; 0x38;
   0x41; 0x48; 0x53; 0x5a; 0x65; 0x6c; 0x77; 0x7e;
   0x09; 0x00; 0x1b; 0x12; 0x2d; 0x24; 0x3f; 0x36;
   0x58; 0x51; 0x4a; 0x43; 0x7c; 0x75; 0x6e; 0x67;
   0x10; 0x19; 0x02; 0x0b; 0x34; 0x3d; 0x26; 0x2f;
   0x73; 0x7a; 0x61; 0x68; 0x57; 0x5e; 0x45; 0x4c;
   0x3b; 0x32; 0x29; 0x20; 0x1f; 0x16; 0x0d; 0x04;
   0x6a; 0x63; 0x78; 0x71; 0x4e; 0x47; 0x5c; 0x55;
   0x22; 0x2b; 0x30; 0x39; 0x06; 0x0f; 0x14; 0x1d;
   0x25; 0x2c; 0x37; 0x3e; 0x01; 0x08; 0x13; 0x1a;
   0x6d; 0x64; 0x7f; 0x76; 0x49; 0x40; 0x5b; 0x52;
   0x3c; 0x35; 0x2e; 0x27; 0x18; 0x11; 0x0a; 0x03;
   0x74; 0x7d; 0x66; 0x6f; 0x50; 0x59; 0x42; 0x4b;
   0x17; 0x1e; 0x05; 0x0c; 0x33; 0x3a; 0x21; 0x28;
   0x5f; 0x56; 0x4d; 0x44; 0x7b; 0x72; 0x69; 0x60;
   0x0e; 0x07; 0x1c; 0x15; 0x2a; 0x23; 0x38; 0x31;
   0x46; 0x4f; 0x54; 0x5d; 0x62; 0x6b; 0x70; 0x79].

Definition t10_dif_crc_table : list Z :=
  [0x0000; 0x8bb7; 0x9cd9; 0x176e; 0xb205; 0x39b2; 0x2edc; 0xa56b;
   0xefbd; 0x640a; 0x7364; 0xf8d3; 0x5db8; 0xd60f; 0xc161; 0x4ad6;
   0x54cd; 0xdf7a; 0xc814; 0x43a3; 0xe6c8; 0x6d7f; 0x7a11; 0xf1a6;
   0xbb70; 0x30c7; 0x27a9; 0xac1e; 0x0975; 0x82c2; 0x95ac; 0x1e1b;
   0xa99a; 0x222d; 0x3543; 0xbef4; 0x1b9f; 0x9028; 0x8746; 0x0cf1;
   0x4627; 0xcd90; 0xdafe; 0x5149; 0xf422; 0x7f95; 0x68fb; 0xe34c;
   0xfd57; 0x76e0; 0x618e; 0xea39; 0x4f52; 0xc4e5; 0xd38b; 0x583c;
   0x12ea; 0x995d; 0x8e33; 0x0584; 0xa0ef; 0x2b58; 0x3c36; 0xb781;
   0xd883; 0x5334; 0x445a; 0xcfed; 0x6a86; 0xe131; 0xf65f; 0x7de8;
   0x373e; 0xbc89; 0xabe7; 0x2050; 0x853b; 0x0e8c; 0x19e2; 0x9255;
   0x8c4e; 0x07f9; 0x1097; 0x9b20; 0x3e4b; 0xb5fc; 0xa292; 0x2925;
   0x63f3; 0xe844; 0xff2a; 0x749d; 0xd1f6; 0x5a41; 0x4d2f; 0xc698;
   0x7119; 0xfaae; 0xedc0; 0x6677; 0xc31c; 0x48ab; 0x5fc5; 0xd472;
   0x9ea4; 0x1513; 0x027d; 0x89ca; 0x2ca1; 0xa716; 0xb078; 0x3bcf;
   0x25d4; 0xae63; 0xb90d; 0x32ba; 0x97d1; 0x1c66; 0x0b08; 0x80bf;
   0xca69; 0x41de; 0x56b0; 0xdd07; 0x786c; 0xf3db; 0xe4b5; 0x6f02;
   0x3ab1; 0xb106; 0xa668; 0x2ddf; 0x88b4; 0x0303; 0x146d; 0x9fda;
   0xd50c; 0x5ebb; 0x49d5; 0xc262; 0x6709; 0xecbe; 0xfbd0; 0x7067;
   0x6e7c; 0xe5cb; 0xf2a5; 0x7912; 0xdc79; 0x57ce; 0x40a0; 0xcb17;
   0x81c1; 0x0a76; 0x1d18; 0x96af; 0x33c4; 0xb873; 0xaf1d; 0x24aa;
   0x932b; 0x189c; 0x0ff2; 0x8445; 0x212e; 0xaa99; 0xbdf7; 0x3640;
   0x7c96; 0xf721; 0xe04f; 0x6bf8; 0xce93; 0x4524; 0x524a; 0xd9fd;
   0xc7e6; 0x4c51; 0x5b3f; 0xd088; 0x75e3; 0xfe54; 0xe93a; 0x628d;
   0x285b; 0xa3ec; 0xb482; 0x3f35; 0x9a5e; 0x11e9; 0x0687; 0x8d30;
   0xe232; 0x6985; 0x7eeb; 0xf55c; 0x5037; 0xdb80; 0xccee; 0x4759;
   0x0d8f; 0x8638; 0x9156; 0x1ae1; 0xbf8a; 0x343d; 0x2353; 0xa8e4;
   0xb6ff; 0x3d48; 0x2a26; 0xa191; 0x04fa; 0x8f4d; 0x9823; 0x1394;
   0x5942; 0xd2f5; 0xc59b; 0x4e2c; 0xeb47; 0x60f0; 0x779e; 0xfc29;
   0x4ba8; 0xc01f; 0xd771; 0x5cc6; 0xf9ad; 0x721a; 0x6574; 0xeec3;
   0xa415; 0x2fa2; 0x38cc; 0xb37b; 0x1610; 0x9da7; 0x8ac9; 0x017e;
   0x1f65; 0x94d2; 0x83bc; 0x080b; 0xad60; 0x26d7; 0x31b9; 0xba0e;
   0xf0d8; 0x7b6f; 0x6c01; 0xe7b6; 0x42dd; 0xc96a; 0xde04; 0x55b3].

(** ** Routines *)

(** [while (len--) crc = f(crc, *buffer++);] *)
Fixpoint crc_bytes (f : Z → Z → option Z) (crc : Z) (buffer : list Z) (len : Z) : option Z :=
  if len =? 0 then Some crc else
  match buffer with
  | [] => None
  | data :: buffer' => crc ← f crc data; crc_bytes f crc buffer' (len - 1)
  end.

Definition crc16_byte (crc data : Z) : option Z :=
  t ← rd crc16_table (Z.land (Z.lxor crc data) 0xff); Some (Z.lxor (Z.shiftr crc 8) t).
Definition crc16 (crc : Z) (buffer : list Z) (len : Z) : option Z := crc_bytes crc16_byte crc buffer len.

Definition crc_ccitt_byte (crc c : Z) : option Z :=
  t ← rd crc_ccitt_table (Z.land (Z.lxor crc c) 0xff); Some (Z.lxor (Z.shiftr crc 8) t).
Definition crc_ccitt (crc : Z) (buffer : list Z) (len : Z) : option Z := crc_bytes crc_ccitt_byte crc buffer len.

(** The result is converted to [u16]. *)
Definition crc_itu_t_byte (crc data : Z) : option Z :=
  t ← rd crc_itu_t_table (Z.land (Z.lxor (Z.shiftr crc 8) data) 0xff);
  Some (wrap 16 (Z.lxor (Z.shiftl crc 8) t)).
Definition crc_itu_t (crc : Z) (buffer : list Z) (len : Z) : option Z := crc_bytes crc_itu_t_byte crc buffer len.

Definition crc_t10dif (buffer : list Z) (len : Z) : option Z :=
  crc_bytes (λ crc data,
    t ← rd t10_dif_crc_table (Z.land (Z.lxor (Z.shiftr crc 8) data) 0xff);
    Some (wrap 16 (Z.lxor (Z.shiftl crc 8) t))) 0 buffer len.

(** The index is not masked. *)
Definition crc7_byte (crc data : Z) : option Z := rd crc7_syndrome_table (Z.lxor (Z.shiftl crc 1) data).
Definition crc7 (crc : Z) (buffer : list Z) (len : Z) : option Z := crc_bytes crc7_byte crc buffer len.

(** [for (i = 1; i < CRC8_TABLE_SIZE; i *= 2)]: eight rounds, [i = 2^k]. *)
Definition crc8_populate_msb (table : list Z) (polynomial : Z) : option (list Z) :=
  table ← wr table 0 0;
  '(table, _) ← for_each 8 0
    (λ k '(table, t),
       let i := 2 ^ k in
       let t := wrap 8 (Z.lxor (Z.shiftl t 1) (if negb (Z.land t 0x80 =? 0) then polynomial else 0)) in
       table ← for_each (Z.to_nat i) 0 (λ j table, x ← rd table j; wr table (i + j) (Z.lxor x t)) table;
       Some (table, t))
    (table, 0x80);
  Some table.

(** [for (i = CRC8_TABLE_SIZE >> 1; i; i >>= 1)]: eight rounds, [i = 2^(7-k)]; the inner loop runs over the multiples of
    [2 * i]. *)
Definition crc8_populate_lsb (table : list Z) (polynomial : Z) : option (list Z) :=
  table ← wr table 0 0;
  '(table, _) ← for_each 8 0
    (λ k '(table, t),
       let i := 2 ^ (7 - k) in
       let t := Z.lxor (Z.shiftr t 1) (if negb (Z.land t 1 =? 0) then polynomial else 0) in
       table ← for_each (Z.to_nat (2 ^ k)) 0
         (λ j table, x ← rd table (j * (2 * i)); wr table (i + j * (2 * i)) (Z.lxor x t)) table;
       Some (table, t))
    (table, 1);
  Some table.

Definition crc8 (table pdata : list Z) (nbytes crc : Z) : option Z :=
  crc_bytes (λ crc data, rd table (Z.land (Z.lxor crc data) 0xff)) crc pdata nbytes.

(** ** Bit by bit *)

(** One bit of the division by the polynomial, least or most significant bit first. *)
Definition lsb_step (p x : Z) : Z := Z.lxor (Z.shiftr x 1) (if Z.odd x then p else 0).
Definition msb_step (w p x : Z) : Z := Z.lxor (wrap w (Z.shiftl x 1)) (if Z.testbit x (w - 1) then p else 0).

(** A byte. *)
Definition byte_steps (step : Z → Z) (x : Z) : Z := Nat.iter 8 step x.

(** *** Linearity *)

Lemma lsb_step_lxor p x y : lsb_step p (Z.lxor x y) = Z.lxor (lsb_step p x) (lsb_step p y).
Proof.
  rw /lsb_step Z.shiftr_lxor. assert (Z.odd (Z.lxor x y) = xorb (Z.odd x) (Z.odd y)) as ->.
  { rewrite <- !Z.bit0_odd. apply Z.lxor_spec. }
  apply Z.bits_inj'. intros i Hi. rw !Z.lxor_spec.
  destruct (Z.odd x), (Z.odd y); cbn [xorb]; rw ?Z.bits_0; 
    destruct (Z.testbit (Z.shiftr x 1) i), (Z.testbit (Z.shiftr y 1) i), (Z.testbit p i); done.
Qed.

Lemma msb_step_lxor w p x y :
  0 < w → msb_step w p (Z.lxor x y) = Z.lxor (msb_step w p x) (msb_step w p y).
Proof.
  intros Hw. rw /msb_step Z.shiftl_lxor Z.lxor_spec.
  assert (wrap w (Z.lxor (Z.shiftl x 1) (Z.shiftl y 1)) = Z.lxor (wrap w (Z.shiftl x 1)) (wrap w (Z.shiftl y 1))) as ->.
  { apply Z.bits_inj'. intros i Hi. rw Z.lxor_spec !testbit_wrap; [|lia..]. rw Z.lxor_spec.
    by destruct (Z.testbit (Z.shiftl x 1) i), (Z.testbit (Z.shiftl y 1) i), (i <? w). }
  apply Z.bits_inj'. intros i Hi. rw !Z.lxor_spec.
  destruct (Z.testbit x (w - 1)), (Z.testbit y (w - 1)); cbn [xorb]; rw ?Z.bits_0;
    destruct (Z.testbit (wrap w (Z.shiftl x 1)) i), (Z.testbit (wrap w (Z.shiftl y 1)) i), (Z.testbit p i); done.
Qed.

Lemma byte_steps_lxor step x y :
  (∀ x y, step (Z.lxor x y) = Z.lxor (step x) (step y)) →
  byte_steps step (Z.lxor x y) = Z.lxor (byte_steps step x) (byte_steps step y).
Proof.
  intros H. rw /byte_steps. generalize 8%nat; intros n; induction n as [|n IH]; [done|]. rewrite -> !Nat.iter_succ. by rw IH H.
Qed.

(** The two bytes of a 16-bit value. *)
Lemma split16 x : Z.lxor (Z.land x 0xff) (Z.shiftl (Z.shiftr x 8) 8) = x.
Proof.
  change 0xff with (Z.ones 8). apply Z.bits_inj'. intros i Hi. rw Z.lxor_spec Z.land_spec testbit_ones; [|lia].
  destruct (Z.lt_ge_cases i 8).
  - rw Z.shiftl_spec_low; [|lia]. ztest. by rw xorb_false_r.
  - rw Z.shiftl_spec; [|lia]. rw Z.shiftr_spec; [|lia]. ztest. by rw Z.sub_add.
Qed.

(** ** The tables are those of the polynomials *)

Lemma table_rd (table : list Z) (f : Z → Z) :
  length table = 256%nat → forallb (λ n, bool_decide (table !! n = Some (f (Z.of_nat n)))) (seq 0 256) = true →
  ∀ x, rd table (Z.land x 0xff) = Some (f (Z.land x 0xff)).
Proof.
  intros Hl H x. assert (0 ≤ Z.land x 0xff < 256) as Hx.
  { change 0xff with (Z.ones 8). rw Z.land_ones //. by apply Z.mod_pos_bound. }
  rw /rd Hl. ztest. rewrite -> forallb_forall in H. specialize (H (Z.to_nat (Z.land x 0xff))).
  rw bool_decide_eq_true Z2Nat.id in H; [|lia]. apply H, in_seq. lia.
Qed.

Lemma crc16_table_rd x :
  rd crc16_table (Z.land x 0xff) = Some (byte_steps (lsb_step 0xa001) (Z.land x 0xff)).
Proof. apply (table_rd crc16_table (byte_steps (lsb_step 0xa001))); [done|vm_compute; reflexivity]. Qed.

Lemma crc_ccitt_table_rd x :
  rd crc_ccitt_table (Z.land x 0xff) = Some (byte_steps (lsb_step 0x8408) (Z.land x 0xff)).
Proof. apply (table_rd crc_ccitt_table (byte_steps (lsb_step 0x8408))); [done|vm_compute; reflexivity]. Qed.

Lemma crc_itu_t_table_rd x :
  rd crc_itu_t_table (Z.land x 0xff) = Some (byte_steps (msb_step 16 0x1021) (Z.shiftl (Z.land x 0xff) 8)).
Proof.
  apply (table_rd crc_itu_t_table (λ i, byte_steps (msb_step 16 0x1021) (Z.shiftl i 8))); [done|vm_compute; reflexivity].
Qed.

Lemma t10_dif_crc_table_rd x :
  rd t10_dif_crc_table (Z.land x 0xff) = Some (byte_steps (msb_step 16 0x8bb7) (Z.shiftl (Z.land x 0xff) 8)).
Proof.
  apply (table_rd t10_dif_crc_table (λ i, byte_steps (msb_step 16 0x8bb7) (Z.shiftl i 8))); [done|vm_compute; reflexivity].
Qed.

(** The 7-bit checksum in the upper bits of a byte. *)
Lemma crc7_table_rd x :
  in_width 8 x → rd crc7_syndrome_table x = Some (Z.shiftr (byte_steps (msb_step 8 0x12) x) 1).
Proof.
  intros [Hx0 Hx]. change (2 ^ 8) with 256 in Hx. replace x with (Z.land x 0xff).
  - apply (table_rd crc7_syndrome_table (λ i, Z.shiftr (byte_steps (msb_step 8 0x12) i) 1)); [done|vm_compute; reflexivity].
  - change 0xff with (Z.ones 8). rw Z.land_ones //. by apply Z.mod_small.
Qed.

(** Bytes that only move. *)
Lemma lsb_high p h : byte_steps (lsb_step p) (Z.shiftl h 8) = h.
Proof.
  assert (∀ n x, Nat.iter n (lsb_step p) (Z.shiftl x (Z.of_nat n)) = x) as H.
  { intros n. induction n as [|n IH]; intros x; [apply Z.shiftl_0_r|]. rewrite -> Nat.iter_succ_r.
    assert (lsb_step p (Z.shiftl x (Z.of_nat (S n))) = Z.shiftl x (Z.of_nat n)) as ->; [|apply IH].
    rw /lsb_step. rewrite <- Z.bit0_odd. rw Z.shiftl_spec_low; [|lia]. rw Z.lxor_0_r Z.shiftr_shiftl_l; [|lia].
    f_equal. lia. }
  apply (H 8%nat).
Qed.

Lemma msb_low p l : in_width 8 l → byte_steps (msb_step 16 p) l = Z.shiftl l 8.
Proof.
  intros [Hl0 Hl]. change (2 ^ 8) with 256 in Hl.
  assert (∀ n, (n ≤ 8)%nat → Nat.iter n (msb_step 16 p) l = Z.shiftl l (Z.of_nat n)) as H.
  { intros n. induction n as [|n IH]; intros Hn; [by rw Z.shiftl_0_r|]. rewrite -> Nat.iter_succ, IH by lia.
    assert (0 ≤ Z.shiftl l (Z.of_nat n) < 2 ^ 15) as Hb.
    { rw Z.shiftl_mul_pow2; [|lia]. pose proof (Z.pow_le_mono_r 2 (Z.of_nat n) 7 ltac:(lia) ltac:(lia)).
      pose proof (pow2_pos (Z.of_nat n) ltac:(lia)). change (2 ^ 7) with 128 in *. change (2 ^ 15) with 32768. nia. }
    rw /msb_step (testbit_above 15) //. rw Z.lxor_0_r Z.shiftl_shiftl; [|lia].
    rw wrap_small; [f_equal; lia|]. rewrite <- Z.shiftl_shiftl by lia. rw (Z.shiftl_mul_pow2 _ 1) //.
    change (2 ^ 1) with 2. change (2 ^ 16) with (2 ^ 15 * 2). split; [lia|]. change (2 ^ 16) with (2 ^ 15 * 2). lia. }
  by apply (H 8%nat).
Qed.

Lemma shiftr8_lxor x d : in_width 8 d → Z.shiftr (Z.lxor x d) 8 = Z.shiftr x 8.
Proof.
  intros Hd. rw Z.shiftr_lxor. replace (Z.shiftr d 8) with 0; [by rw Z.lxor_0_r|].
  symmetry. apply Z.bits_inj'. intros i Hi. rw Z.shiftr_spec // Z.bits_0. apply (testbit_above 8); [done|lia|lia].
Qed.

(** One byte of the reflected checksums. *)
Lemma lsb_byte p (t : Z → option Z) crc data :
  (∀ x, t (Z.land x 0xff) = Some (byte_steps (lsb_step p) (Z.land x 0xff))) → in_width 8 data →
  (x ← t (Z.land (Z.lxor crc data) 0xff); Some (Z.lxor (Z.shiftr crc 8) x)) =
  Some (byte_steps (lsb_step p) (Z.lxor crc data)).
Proof.
  intros Ht Hd. rw Ht. cbn [mbind option_bind]. f_equal.
  rewrite <- (split16 (Z.lxor crc data)) at 2. rw byte_steps_lxor; [|apply lsb_step_lxor].
  by rw lsb_high shiftr8_lxor // Z.lxor_comm.
Qed.

Lemma lsb_step_width w p x : 0 < w → in_width w p → in_width w x → in_width w (lsb_step p x).
Proof.
  intros Hw Hp Hx. rw /lsb_step. apply in_width_lxor; [lia|apply in_width_shiftr; [lia|done|lia]|].
  case_if; [done|apply in_width_0; lia].
Qed.

Lemma msb_step_width w p x : 0 < w → in_width w p → in_width w (msb_step w p x).
Proof.
  intros Hw Hp. rw /msb_step. apply in_width_lxor; [lia|apply in_width_wrap; lia|].
  case_if; [done|apply in_width_0; lia].
Qed.

Lemma byte_steps_width w step x :
  (∀ y, in_width w y → in_width w (step y)) → in_width w x → in_width w (byte_steps step x).
Proof.
  intros Hs Hx. rw /byte_steps. generalize 8%nat. intros n. induction n as [|n IH]; [done|].
  rewrite -> Nat.iter_succ. by apply Hs.
Qed.

(** One byte of the others; the checksum has 16 bits. *)
Lemma msb_byte p (t : Z → option Z) crc data :
  (∀ x, t (Z.land x 0xff) = Some (byte_steps (msb_step 16 p) (Z.shiftl (Z.land x 0xff) 8))) →
  in_width 16 p → in_width 16 crc → in_width 8 data →
  (x ← t (Z.land (Z.lxor (Z.shiftr crc 8) data) 0xff); Some (wrap 16 (Z.lxor (Z.shiftl crc 8) x))) =
  Some (byte_steps (msb_step 16 p) (Z.lxor crc (Z.shiftl data 8))).
Proof.
  intros Ht Hp Hc Hd. rw Ht. cbn [mbind option_bind]. f_equal.
  assert (in_width 8 (Z.lxor (Z.shiftr crc 8) data)) as Hh.
  { apply in_width_lxor; [lia| |done]. destruct Hc as [? Hc]. change (2 ^ 16) with 65536 in Hc.
    rw Z.shiftr_div_pow2 //. split; [zdm|]. change (2 ^ 8) with 256. zdm. }
  set (h := Z.lxor (Z.shiftr crc 8) data) in *.
  assert (Z.land h 0xff = h) as ->.
  { change 0xff with (Z.ones 8). rw Z.land_ones //. by apply Z.mod_small. }
  assert (in_width 8 (Z.land crc 0xff)) as Hlo by (change 0xff with (Z.ones 8); by apply in_width_land_ones).
  assert (Z.lxor crc (Z.shiftl data 8) = Z.lxor (Z.land crc 0xff) (Z.shiftl h 8)) as ->.
  { rewrite <- (split16 crc) at 1. rw /h Z.shiftl_lxor. by rw Z.lxor_assoc. }
  rw byte_steps_lxor; [|intros; by apply msb_step_lxor]. rw (msb_low p (Z.land crc 0xff)) //.
  set (b := byte_steps (msb_step 16 p) (Z.shiftl h 8)).
  assert (in_width 16 b) as Hb.
  { apply byte_steps_width; [intros; by apply msb_step_width|]. destruct Hh as [? Hh2]. change (2 ^ 8) with 256 in Hh2.
    rw Z.shiftl_mul_pow2 //. change (2 ^ 8) with 256. split; [lia|]. change (2 ^ 16) with 65536. lia. }
  clearbody b.
  apply (word_ext 16); [lia|by apply in_width_wrap|apply in_width_lxor; [lia| |done]|].
  { destruct Hlo as [? Hlo2]. change (2 ^ 8) with 256 in Hlo2. rw Z.shiftl_mul_pow2 //. change (2 ^ 8) with 256. split; [lia|].
    change (2 ^ 16) with 65536. lia. }
  intros i Hi. rw testbit_wrap; [|lia..]. ztest. rw !Z.lxor_spec. f_equal.
  change 0xff with (Z.ones 8). destruct (Z.lt_ge_cases i 8); [by rw !Z.shiftl_spec_low; [|lia..]|].
  rw !Z.shiftl_spec; [|lia..]. rw Z.land_spec testbit_ones; [|lia]. ztest. done.
Qed.

(** ** Whole buffers *)

Lemma crc_bytes_fold (I : Z → Prop) f g crc buffer :
  (∀ c d, I c → in_width 8 d → f c d = Some (g c d) ∧ I (g c d)) → I crc → Forall (in_width 8) buffer →
  crc_bytes f crc buffer (Z.of_nat (length buffer)) = Some (foldl g crc buffer).
Proof.
  intros Hf Hc Hb. revert crc Hc. induction Hb as [|d buffer Hd _ IH]; intros crc Hc; [done|].
  cbn [crc_bytes length foldl]. ztest. destruct (Hf crc d Hc Hd) as [-> Hg]. cbn [mbind option_bind].
  replace (Z.of_nat (S (length buffer)) - 1) with (Z.of_nat (length buffer)) by lia. by apply IH.
Qed.

(** The checksum of a buffer, bit by bit. *)
Definition lsb_crc (p crc : Z) (buffer : list Z) : Z :=
  foldl (λ c d, byte_steps (lsb_step p) (Z.lxor c d)) crc buffer.
Definition msb_crc16 (p crc : Z) (buffer : list Z) : Z :=
  foldl (λ c d, byte_steps (msb_step 16 p) (Z.lxor c (Z.shiftl d 8))) crc buffer.
Definition msb_crc7 (p crc : Z) (buffer : list Z) : Z :=
  foldl (λ c d, Z.shiftr (byte_steps (msb_step 8 (2 * p)) (Z.lxor (Z.shiftl c 1) d)) 1) crc buffer.
Definition msb_crc8 (p crc : Z) (buffer : list Z) : Z :=
  foldl (λ c d, byte_steps (msb_step 8 p) (Z.lxor c d)) crc buffer.

(** *** The tables that are computed *)

Lemma sum_lxor a b : Z.land a b = 0 → a + b = Z.lxor a b.
Proof. intros. by apply Z.add_nocarry_lxor. Qed.

Lemma land_pow2_low k j : 0 ≤ k → 0 ≤ j < 2 ^ k → Z.land (2 ^ k) j = 0.
Proof.
  intros Hk Hj. apply Z.bits_inj'. intros i Hi. rw Z.land_spec Z.bits_0 testbit_pow2 //.
  destruct (Z.eqb_spec k i) as [<-|]; [|done]. by rw (testbit_above k).
Qed.

Lemma land_pow2_high k j : 0 ≤ k → Z.land (2 ^ k) (j * (2 * 2 ^ k)) = 0.
Proof.
  intros Hk. replace (j * (2 * 2 ^ k)) with (Z.shiftl j (k + 1)).
  - apply Z.bits_inj'. intros i Hi. rw Z.land_spec Z.bits_0 testbit_pow2 //.
    destruct (Z.eqb_spec k i) as [<-|]; [|done]. by rw Z.shiftl_spec_low; [|lia].
  - rw Z.shiftl_mul_pow2; [|lia]. rewrite -> Z.pow_add_r by lia. lia.
Qed.

Section populate.
Context (poly : Z) (Hpoly : in_width 8 poly).

Lemma msb_round t :
  wrap 8 (Z.lxor (Z.shiftl t 1) (if negb (Z.land t 0x80 =? 0) then poly else 0)) = msb_step 8 poly t.
Proof using Hpoly.
  assert (negb (Z.land t 0x80 =? 0) = Z.testbit t 7) as ->.
  { change 0x80 with (2 ^ 7). destruct (Z.testbit t 7) eqn:E.
    - apply negb_true_iff, Z.eqb_neq. intros H. apply (f_equal (λ z, Z.testbit z 7)) in H.
      rw Z.land_spec E testbit_pow2 // in H.
    - apply negb_false_iff, Z.eqb_eq. apply Z.bits_inj'. intros i Hi. rw Z.land_spec testbit_pow2 // Z.bits_0.
      destruct (Z.eqb_spec 7 i) as [<-|]; [by rw E|by rw andb_false_r]. }
  rw /msb_step. change (8 - 1) with 7. apply (word_ext 8); [lia|by apply in_width_wrap| |].
  - apply in_width_lxor; [lia|by apply in_width_wrap|]. case_if; [done|by apply in_width_0].
  - intros i Hi. rw testbit_wrap; [|lia..]. rw !Z.lxor_spec testbit_wrap; [|lia..]. ztest. done.
Qed.

Lemma lsb_round t :
  Z.lxor (Z.shiftr t 1) (if negb (Z.land t 1 =? 0) then poly else 0) = lsb_step poly t.
Proof using Type.
  rw /lsb_step. assert (negb (Z.land t 1 =? 0) = Z.odd t) as ->; [|done].
  change 1 with (Z.ones 1). rw Z.land_ones //. change (2 ^ 1) with 2. rw Zmod_odd. by destruct (Z.odd t).
Qed.

(** The value of a single bit after eight steps. *)
Lemma msb_bit k : 0 ≤ k < 8 → byte_steps (msb_step 8 poly) (2 ^ k) = Nat.iter (S (Z.to_nat k)) (msb_step 8 poly) 0x80.
Proof using Type.
  assert (∀ n, (n ≤ 7)%nat → Nat.iter n (msb_step 8 poly) 1 = 2 ^ Z.of_nat n) as Hp.
  { intros n. induction n as [|n IH]; intros Hn; [done|]. rewrite -> Nat.iter_succ, IH by lia.
    rw /msb_step testbit_pow2; [|lia]. rewrite -> (proj2 (Z.eqb_neq (Z.of_nat n) (8 - 1))) by lia.
    rw Z.lxor_0_r Z.shiftl_mul_pow2 //. change (2 ^ 1) with 2.
    replace (Z.of_nat (S n)) with (Z.of_nat n + 1) by lia. rw Z.pow_add_r; [|lia..]. change (2 ^ 1) with 2.
    apply wrap_small. pose proof (pow2_pos (Z.of_nat n) ltac:(lia)).
    pose proof (Z.pow_le_mono_r 2 (Z.of_nat n) 6 ltac:(lia) ltac:(lia)). change (2 ^ 6) with 64 in *.
    split; [lia|]. change (2 ^ 8) with 256. lia. }
  intros Hk. rewrite <- (Z2Nat.id k) at 1 by lia. rewrite <- (Hp (Z.to_nat k)) by lia.
  change 0x80 with (2 ^ Z.of_nat 7). rewrite <- (Hp 7%nat) by lia.
  rw /byte_steps -!Nat.iter_add. f_equal. lia.
Qed.

Lemma lsb_bit k : 0 ≤ k < 8 → byte_steps (lsb_step poly) (2 ^ (7 - k)) = Nat.iter (S (Z.to_nat k)) (lsb_step poly) 1.
Proof using Type.
  intros Hk. assert (k = 0 ∨ k = 1 ∨ k = 2 ∨ k = 3 ∨ k = 4 ∨ k = 5 ∨ k = 6 ∨ k = 7) as H by lia.
  destruct H as [-> | [-> | [-> | [-> | [-> | [-> | [-> | ->]]]]]]]; reflexivity.
Qed.

(** The loop that copies the first [i] entries, xor-ed with the entry of [i]. *)
Lemma msb_inner k table :
  0 ≤ k < 8 → length table = 256%nat →
  (∀ x, 0 ≤ x < 2 ^ k → rd table x = Some (byte_steps (msb_step 8 poly) x)) →
  ∃ table', for_each (Z.to_nat (2 ^ k)) 0
      (λ j table, x ← rd table j; wr table (2 ^ k + j) (Z.lxor x (byte_steps (msb_step 8 poly) (2 ^ k)))) table =
      Some table' ∧ length table' = 256%nat ∧
    (∀ x, 0 ≤ x < 2 ^ (k + 1) → rd table' x = Some (byte_steps (msb_step 8 poly) x)).
Proof using Type.
  intros Hk Hl Ht. pose proof (pow2_pos k ltac:(lia)). pose proof (Z.pow_le_mono_r 2 k 7 ltac:(lia) ltac:(lia)).
  change (2 ^ 7) with 128 in *.
  destruct (for_each_inv (λ j t, length t = 256%nat ∧
      ∀ x, 0 ≤ x < 2 ^ k + j → rd t x = Some (byte_steps (msb_step 8 poly) x)) (Z.to_nat (2 ^ k)) 0
    (λ j table, x ← rd table j; wr table (2 ^ k + j) (Z.lxor x (byte_steps (msb_step 8 poly) (2 ^ k)))) table)
    as (t' & -> & Hl' & Ht').
  - split; [done|]. intros x Hx. apply Ht. lia.
  - intros j t Hj (Hlt & Hrt). rw Hrt; [|lia]. cbn [mbind option_bind].
    set (v := Z.lxor _ _). assert (wr t (2 ^ k + j) v = Some (<[Z.to_nat (2 ^ k + j) := v]> t)) as Hw
      by (apply wr_in; lia). rw Hw. eexists. split; [done|]. split; [by rw length_insert|].
    intros x Hx. destruct (Z.eq_dec x (2 ^ k + j)) as [->|Hne].
    + rw (rd_wr_eq _ _ _ _ Hw) /v. f_equal. rewrite -> sum_lxor by (apply land_pow2_low; lia).
      rw byte_steps_lxor; [by rw Z.lxor_comm|]. intros. by apply msb_step_lxor.
    + rw (rd_wr_ne _ _ _ _ _ Hw) //. apply Hrt. lia.
  - exists t'. split; [done|]. split; [done|]. intros x Hx. apply Ht'.
    rw Z.pow_add_r in Hx; [|lia..]. lia.
Qed.

Lemma populate_msb_spec table :
  length table = 256%nat →
  ∃ t, crc8_populate_msb table poly = Some t ∧ length t = 256%nat ∧
    ∀ x, 0 ≤ x < 256 → rd t x = Some (byte_steps (msb_step 8 poly) x).
Proof using Hpoly.
  intros Hl. rw /crc8_populate_msb wr_in; [|lia].
  match goal with |- context [for_each 8 0 ?body _] => set (B := body) end. cbn [mbind option_bind].
  destruct (for_each_inv (λ k '(t, v), length t = 256%nat ∧ v = Nat.iter (Z.to_nat k) (msb_step 8 poly) 0x80 ∧
      ∀ x, 0 ≤ x < 2 ^ k → rd t x = Some (byte_steps (msb_step 8 poly) x)) 8 0
    B (<[Z.to_nat 0 := 0]> table, 0x80)) as ([t v] & -> & Ht & _ & Hr).
  - split; [by rw length_insert|]. split; [done|]. intros x Hx. assert (x = 0) as -> by (change (2 ^ 0) with 1 in Hx; lia).
    rw /rd length_insert Hl. cbn [Z.leb Z.ltb Z.compare andb]. change (Z.to_nat 0) with 0%nat. rw list_lookup_insert_eq; [done|lia].
  - intros k [t v] Hk (Hlt & -> & Hrt). rw /B msb_round.
    assert (msb_step 8 poly (Nat.iter (Z.to_nat k) (msb_step 8 poly) 128) = byte_steps (msb_step 8 poly) (2 ^ k)) as ->.
    { rw msb_bit; [|lia]. by rewrite -> Nat.iter_succ. }
    destruct (msb_inner k t) as (t' & -> & Hl' & Hr'); [lia|done|done|]. cbn [mbind option_bind].
    eexists. split; [done|]. split; [done|]. split; [|done]. rw msb_bit; [|lia]. f_equal. lia.
  - cbn [mbind option_bind]. exists t. split; [done|]. split; [done|]. exact Hr.
Qed.

Lemma lsb_inner k table :
  0 ≤ k < 8 → length table = 256%nat →
  (∀ j, 0 ≤ j < 2 ^ k → rd table (j * (2 * 2 ^ (7 - k))) = Some (byte_steps (lsb_step poly) (j * (2 * 2 ^ (7 - k))))) →
  ∃ table', for_each (Z.to_nat (2 ^ k)) 0
      (λ j table, x ← rd table (j * (2 * 2 ^ (7 - k)));
         wr table (2 ^ (7 - k) + j * (2 * 2 ^ (7 - k))) (Z.lxor x (byte_steps (lsb_step poly) (2 ^ (7 - k))))) table =
      Some table' ∧ length table' = 256%nat ∧
    (∀ j, 0 ≤ j < 2 ^ (k + 1) → rd table' (j * 2 ^ (7 - k)) = Some (byte_steps (lsb_step poly) (j * 2 ^ (7 - k)))).
Proof using Type.
  intros Hk Hl Ht. set (i := 2 ^ (7 - k)) in *. pose proof (pow2_pos (7 - k) ltac:(lia)) as Hi. fold i in Hi.
  pose proof (pow2_pos k ltac:(lia)).
  assert (2 ^ k * i = 128) as Hprod.
  { rw /i. rewrite <- Z.pow_add_r by lia. by replace (k + (7 - k)) with 7 by lia. }
  destruct (for_each_inv (λ j t, length t = 256%nat ∧
      (∀ n, 0 ≤ n < 2 ^ k → rd t (n * (2 * i)) = Some (byte_steps (lsb_step poly) (n * (2 * i)))) ∧
      ∀ n, 0 ≤ n < j → rd t (i + n * (2 * i)) = Some (byte_steps (lsb_step poly) (i + n * (2 * i))))
    (Z.to_nat (2 ^ k)) 0
    (λ j table, x ← rd table (j * (2 * i)); wr table (i + j * (2 * i)) (Z.lxor x (byte_steps (lsb_step poly) i))) table)
    as (t' & -> & Hl' & He & Ho).
  - split; [done|]. split; [done|]. lia.
  - intros j t Hj (Hlt & He & Ho). rw He; [|lia]. cbn [mbind option_bind]. set (v := Z.lxor _ _).
    assert (wr t (i + j * (2 * i)) v = Some (<[Z.to_nat (i + j * (2 * i)) := v]> t)) as Hw.
    { apply wr_in. nia. }
    rw Hw. eexists. split; [done|]. split; [by rw length_insert|]. split.
    + intros n Hn. rw (rd_wr_ne _ _ _ _ _ Hw); [by apply He|]. nia.
    + intros n Hn. destruct (Z.eq_dec n j) as [->|Hne].
      * rw (rd_wr_eq _ _ _ _ Hw) /v. f_equal. rewrite -> (sum_lxor i) by (apply land_pow2_high; lia).
        rw byte_steps_lxor; [by rw Z.lxor_comm|]. apply lsb_step_lxor.
      * rw (rd_wr_ne _ _ _ _ _ Hw); [apply Ho; lia|]. nia.
  - exists t'. split; [done|]. split; [done|]. intros j Hj. rw Z.pow_add_r in Hj; [|lia..]. change (2 ^ 1) with 2 in Hj.
    pose proof (Z.div_mod j 2 ltac:(lia)) as Hdm. pose proof (Z.mod_pos_bound j 2 ltac:(lia)).
    destruct (Z.eq_dec (j mod 2) 0) as [E|E].
    + replace (j * i) with (j / 2 * (2 * i)) by nia. apply He. lia.
    + replace (j * i) with (i + j / 2 * (2 * i)) by nia. apply Ho. lia.
Qed.

Lemma populate_lsb_spec table :
  length table = 256%nat →
  ∃ t, crc8_populate_lsb table poly = Some t ∧ length t = 256%nat ∧
    ∀ x, 0 ≤ x < 256 → rd t x = Some (byte_steps (lsb_step poly) x).
Proof using Type.
  intros Hl. rw /crc8_populate_lsb wr_in; [|lia].
  match goal with |- context [for_each 8 0 ?body _] => set (B := body) end. cbn [mbind option_bind].
  destruct (for_each_inv (λ k '(t, v), length t = 256%nat ∧ v = Nat.iter (Z.to_nat k) (lsb_step poly) 1 ∧
      ∀ j, 0 ≤ j < 2 ^ k → rd t (j * 2 ^ (8 - k)) = Some (byte_steps (lsb_step poly) (j * 2 ^ (8 - k)))) 8 0
    B (<[Z.to_nat 0 := 0]> table, 1)) as ([t v] & -> & Ht & _ & Hr).
  - split; [by rw length_insert|]. split; [done|]. intros j Hj. assert (j = 0) as -> by (change (2 ^ 0) with 1 in Hj; lia).
    rw Z.mul_0_l /rd length_insert Hl. cbn [Z.leb Z.ltb Z.compare andb]. change (Z.to_nat 0) with 0%nat. rw list_lookup_insert_eq; [done|lia].
  - intros k [t v] Hk (Hlt & -> & Hrt). rw /B lsb_round.
    assert (lsb_step poly (Nat.iter (Z.to_nat k) (lsb_step poly) 1) = byte_steps (lsb_step poly) (2 ^ (7 - k))) as ->.
    { rw lsb_bit; [|lia]. by rewrite -> Nat.iter_succ. }
    assert (2 ^ (8 - k) = 2 * 2 ^ (7 - k)) as E8.
    { replace (8 - k) with (1 + (7 - k)) by lia. rw Z.pow_add_r; [done|lia..]. }
    rw E8 in Hrt. destruct (lsb_inner k t) as (t' & -> & Hl' & Hr'); [lia|done|done|]. cbn [mbind option_bind].
    eexists. split; [done|]. split; [done|]. replace (8 - (k + 1)) with (7 - k) by lia. split; [|done].
    rw lsb_bit; [|lia]. f_equal. lia.
  - cbn [mbind option_bind]. exists t. split; [done|]. split; [done|]. intros x Hx. rewrite <- (Z.mul_1_r x). apply Hr. done.
Qed.
End populate.

(** ** The width of the registers *)

Lemma lsb16_width p c d : in_width 16 p → in_width 16 c → in_width 8 d → in_width 16 (byte_steps (lsb_step p) (Z.lxor c d)).
Proof.
  intros ? ? ?. apply byte_steps_width; [intros; by apply lsb_step_width|]. apply in_width_lxor; [lia|done|by apply (in_width_mono 8)].
Qed.

Lemma msb16_width p c d :
  in_width 16 p → in_width 16 c → in_width 8 d → in_width 16 (byte_steps (msb_step 16 p) (Z.lxor c (Z.shiftl d 8))).
Proof.
  intros ? ? [Hd0 Hd]. apply byte_steps_width; [intros; by apply msb_step_width|]. apply in_width_lxor; [lia|done|].
  rw Z.shiftl_mul_pow2 //. change (2 ^ 8) with 256 in *. split; [lia|]. change (2 ^ 16) with 65536. lia.
Qed.

(** CRC-8 with any table that holds the rounds [f] of every byte. *)
Lemma crc8_table f t buffer c0 :
  (∀ x, 0 ≤ x < 256 → rd t x = Some (byte_steps f x)) → (∀ y, in_width 8 y → in_width 8 (f y)) →
  Forall (in_width 8) buffer → in_width 8 c0 →
  crc8 t buffer (Z.of_nat (length buffer)) c0 = Some (foldl (λ c d, byte_steps f (Z.lxor c d)) c0 buffer).
Proof.
  intros Hrt Hf Hb Hc0. apply (crc_bytes_fold (in_width 8)); [|done|done]. intros c d Hcc Hd.
  assert (in_width 8 (Z.lxor c d)) as Hx by (by apply in_width_lxor). split; [|by apply byte_steps_width].
  change 0xff with (Z.ones 8). rewrite -> Z.land_ones, Z.mod_small by (done || lia). by apply Hrt.
Qed.

(** The register of CRC-7 is in the upper bits of a byte. *)
Lemma crc7_exact c0 buffer :
  Forall (in_width 8) buffer → in_width 7 c0 → crc7 c0 buffer (Z.of_nat (length buffer)) = Some (msb_crc7 0x09 c0 buffer).
Proof.
  intros Hb H7. apply (crc_bytes_fold (in_width 7)); [|done|done]. intros c d [Hc0 Hc7] Hd.
  assert (in_width 8 (Z.lxor (Z.shiftl c 1) d)) as Hx.
  { apply in_width_lxor; [lia| |done]. rw Z.shiftl_mul_pow2 //. change (2 ^ 7) with 128 in Hc7. change (2 ^ 1) with 2.
    split; [lia|]. change (2 ^ 8) with 256. lia. }
  split; [by apply crc7_table_rd|]. change (2 * 0x09) with 0x12.
  assert (in_width 8 (byte_steps (msb_step 8 18) (Z.lxor (Z.shiftl c 1) d))) as [Hy0 Hy].
  { apply byte_steps_width; [|done]. intros. apply msb_step_width; [lia|]. split; vm_compute; congruence. }
  rw Z.shiftr_div_pow2 //. change (2 ^ 8) with 256 in Hy. change (2 ^ 1) with 2. split; [zdm|]. change (2 ^ 7) with 128. zdm.
Qed.

(** C38: The table-driven checksums equal the bit-by-bit division by the polynomials that their comments name: CRC-16
    (0x8005, reflected 0xa001), CRC-CCITT (reflected 0x8408), CRC ITU-T (0x1021), T10 DIF (0x8bb7), CRC-7
    (0x09), and CRC-8 with the tables that [crc8_populate_msb] and [crc8_populate_lsb] compute for any polynomial. *)
Theorem crc_tables_exact buffer crc crc7v poly tbl :
  Forall (in_width 8) buffer → in_width 16 crc → in_width 7 crc7v → in_width 8 poly → length tbl = 256%nat →
  let len := Z.of_nat (length buffer) in
  crc16 crc buffer len = Some (lsb_crc 0xa001 crc buffer) ∧
  crc_ccitt crc buffer len = Some (lsb_crc 0x8408 crc buffer) ∧
  crc_itu_t crc buffer len = Some (msb_crc16 0x1021 crc buffer) ∧
  crc_t10dif buffer len = Some (msb_crc16 0x8bb7 0 buffer) ∧
  crc7 crc7v buffer len = Some (msb_crc7 0x09 crc7v buffer) ∧
  (∃ t, crc8_populate_msb tbl poly = Some t ∧ crc8 t buffer len (wrap 8 crc) = Some (msb_crc8 poly (wrap 8 crc) buffer)) ∧
  (∃ t, crc8_populate_lsb tbl poly = Some t ∧ crc8 t buffer len (wrap 8 crc) = Some (lsb_crc poly (wrap 8 crc) buffer)).
Proof.
  intros Hb Hc H7 Hp Ht len.
  assert (in_width 16 0xa001 ∧ in_width 16 0x8408 ∧ in_width 16 0x1021 ∧ in_width 16 0x8bb7) as (P1 & P2 & P3 & P4).
  { split_and!; split; vm_compute; congruence. }
  split_and!.
  - apply (crc_bytes_fold (in_width 16)); [|done|done]. intros c d Hcc Hd. split; [|by apply lsb16_width].
    apply (lsb_byte 0xa001 (rd crc16_table)); [apply crc16_table_rd|done].
  - apply (crc_bytes_fold (in_width 16)); [|done|done]. intros c d Hcc Hd. split; [|by apply lsb16_width].
    apply (lsb_byte 0x8408 (rd crc_ccitt_table)); [apply crc_ccitt_table_rd|done].
  - apply (crc_bytes_fold (in_width 16)); [|done|done]. intros c d Hcc Hd. split; [|by apply msb16_width].
    apply (msb_byte 0x1021 (rd crc_itu_t_table)); [apply crc_itu_t_table_rd|done..].
  - apply (crc_bytes_fold (in_width 16)); [|by apply in_width_0|done]. intros c d Hcc Hd. split; [|by apply msb16_width].
    apply (msb_byte 0x8bb7 (rd t10_dif_crc_table)); [apply t10_dif_crc_table_rd|done..].
  - by apply crc7_exact.
  - destruct (populate_msb_spec poly Hp tbl Ht) as (t & E & _ & Hr). exists t. split; [done|].
    apply crc8_table; [done| |done|by apply in_width_wrap]. intros. by apply msb_step_width.
  - destruct (populate_lsb_spec poly tbl Ht) as (t & E & _ & Hr). exists t. split; [done|].
    apply crc8_table; [done| |done|by apply in_width_wrap]. intros. by apply lsb_step_width.
Qed.

Lemma crc_tables_exact_witness : crc16 0 [0x31; 0x32; 0x33] 3 = Some (lsb_crc 0xa001 0 [0x31; 0x32; 0x33]).
Proof.
  apply (crc_tables_exact [0x31; 0x32; 0x33] 0 0 7 (replicate 256 0));
    [words_concrete|split; vm_compute; congruence|split; vm_compute; congruence|split; vm_compute; congruence|reflexivity].
Defined.
