(* ===== verification/Arith.v ===== *)
(** * Integer arithmetic: lib/div64.c (the 32-bit machines), lib/gcd.c, lib/lcm.c, lib/int_sqrt.c, lib/bcd.c

    Division by zero is a fault ([None]). *)
From S2P Require Import Prelude Bitops.

(** ** 64-bit division on a 32-bit machine *)

(** [while ((int64_t)b > 0 && b < rem)]: at most 64 rounds. *)
Definition div64_double (rem b d : Z) : option (Z * Z) :=
  loop 65
    (λ '(b, d),
       if (0 <? swrap 64 b) && (b <? rem) then Some (Next (wrap 64 (b + b), wrap 64 (d + d)))
       else Some (Stop (b, d)))
    (b, d).

(** [do ... while (d)]: at most 64 rounds. *)
Definition div64_subtract (rem res b d : Z) : option (Z * Z) :=
  loop 65
    (λ '(rem, res, b, d),
       let '(rem, res) := if b <=? rem then (wrap 64 (rem - b), wrap 64 (res + d)) else (rem, res) in
       let b := Z.shiftr b 1 in
       let d := Z.shiftr d 1 in
       if negb (d =? 0) then Some (Next (rem, res, b, d)) else Some (Stop (rem, res)))
    (rem, res, b, d).

(** The quotient and the remainder. *)
Definition __div64_32 (n base : Z) : option (Z * Z) :=
  let rem := n in
  let high := wrap 32 (Z.shiftr rem 32) in
  '(rem, res) ←
    (if base <=? high then
       if base =? 0 then None else
       let high := high / base in
       Some (wrap 64 (rem - bshl 64 (wrap 32 (high * base)) 32), bshl 64 high 32)
     else Some (rem, 0));
  '(b, d) ← div64_double rem base 1;
  '(rem, res) ← div64_subtract rem res b d;
  Some (res, wrap 32 rem).

(** [do_div] of asm-generic/div64.h on a 32-bit machine. *)
Definition do_div (n base : Z) : option (Z * Z) :=
  if Z.shiftr n 32 =? 0 then
    if base =? 0 then None else Some (wrap 32 n / base, wrap 32 n mod base)
  else __div64_32 n base.

Definition div_u64_rem (dividend divisor : Z) : option (Z * Z) := do_div dividend divisor.
Definition div_u64 (dividend divisor : Z) : option Z := '(q, _) ← div_u64_rem dividend divisor; Some q.

(** [abs(x)] of a 32-bit number, converted to [u32]. *)
Definition abs32 (x : Z) : Z := wrap 32 (if x <? 0 then - x else x).
(** [abs64(x)], converted to [u64]. *)
Definition abs64 (x : Z) : Z := wrap 64 (if x <? 0 then - x else x).

Definition div_s64_rem (dividend divisor : Z) : option (Z * Z) :=
  if dividend <? 0 then
    '(quotient, remainder) ← div_u64_rem (wrap 64 (- dividend)) (abs32 divisor);
    let remainder := swrap 32 (- swrap 32 remainder) in
    let quotient := if 0 <? divisor then wrap 64 (- quotient) else quotient in
    Some (swrap 64 quotient, remainder)
  else
    '(quotient, remainder) ← div_u64_rem dividend (abs32 divisor);
    let quotient := if divisor <? 0 then wrap 64 (- quotient) else quotient in
    Some (swrap 64 quotient, swrap 32 remainder).

Definition div64_u64 (dividend divisor : Z) : option Z :=
  let high := wrap 32 (Z.shiftr divisor 32) in
  if high =? 0 then div_u64 dividend (wrap 32 divisor)
  else
    let n := 1 + fls high in
    quot ← div_u64 (Z.shiftr dividend n) (wrap 32 (Z.shiftr divisor n));
    let quot := if negb (quot =? 0) then quot - 1 else quot in
    Some (if divisor <=? wrap 64 (dividend - quot * divisor) then wrap 64 (quot + 1) else quot).

Definition div64_s64 (dividend divisor : Z) : option Z :=
  quot ← div64_u64 (abs64 dividend) (abs64 divisor);
  let t := Z.shiftr (Z.lxor dividend divisor) 63 in
  Some (swrap 64 (Z.lxor (swrap 64 quot) t - t)).

(** [__iter_div_u64_rem]: subtract until the rest is small; the counter has 32 bits. *)
Definition iter_div_u64_rem (dividend divisor : Z) : option (Z * Z) :=
  loop (S (Z.to_nat (dividend / divisor)))
    (λ '(dividend, ret),
       if divisor <=? dividend then Some (Next (dividend - divisor, wrap 32 (ret + 1)))
       else Some (Stop (ret, dividend)))
    (dividend, 0).

(** ** Common divisors and multiples *)

(** Euclid's algorithm halves the larger number in every round. *)
Definition gcd (a b : Z) : option Z :=
  let '(a, b) := if a <? b then (b, a) else (a, b) in
  loop (S (Z.to_nat (Z.log2 a + Z.log2 b)))
    (λ '(a, b),
       if b =? 0 then None else
       let r := a mod b in
       if negb (r =? 0) then Some (Next (b, r)) else Some (Stop b))
    (a, b).

Definition lcm (a b : Z) : option Z :=
  if negb (a =? 0) && negb (b =? 0) then
    g ← gcd a b;
    if g =? 0 then None else Some (wrap 64 (a * b) / g)
  else if negb (b =? 0) then Some b
  else Some a.

(** ** Square root *)

(** [while (one > op) one >>= 2;]: it may shift down to 0. *)
Definition sqrt_start (op one : Z) : option Z :=
  loop 33 (λ one, if op <? one then Some (Next (Z.shiftr one 2)) else Some (Stop one)) one.

Definition int_sqrt (x : Z) : option Z :=
  one ← sqrt_start x (bshl 64 1 (BITS_PER_LONG - 2));
  loop 33
    (λ '(op, res, one),
       if negb (one =? 0) then
         let '(op, res) :=
           if wrap 64 (res + one) <=? op
           then (wrap 64 (op - wrap 64 (res + one)), wrap 64 (res + wrap 64 (2 * one)))
           else (op, res) in
         Some (Next (op, res / 2, one / 4))
       else Some (Stop res))
    (x, 0, one).

(** ** Binary-coded decimals *)

Definition bcd2bin (val : Z) : Z := wrap 32 (Z.land val 0x0f + Z.shiftr val 4 * 10).
Definition bin2bcd (val : Z) : Z := wrap 8 (wrap 32 (bshl 32 (val / 10) 4 + val mod 10)).

(** ** Correctness of the 64-bit by 32-bit division *)

Lemma swrap64_pos b : in_width 64 b → (0 <? swrap 64 b) = (0 <? b) && (b <? 2 ^ 63).
Proof.
  intros [Hb0 Hb]. change (2 ^ 64) with (2 * 2 ^ 63) in Hb. rw /swrap. change (2 ^ (64 - 1)) with (2 ^ 63).
  change (2 ^ 64) with (2 * 2 ^ 63). destruct (Z.lt_ge_cases b (2 ^ 63)).
  - rw Z.mod_small; [|lia]. replace (b + 2 ^ 63 - 2 ^ 63) with b by lia. ztest. done.
  - replace (b + 2 ^ 63) with (b - 2 ^ 63 + 1 * (2 * 2 ^ 63)) by lia. rewrite -> Z.mod_add, Z.mod_small by lia.
    assert (0 <? b - 2 ^ 63 - 2 ^ 63 = false) as -> by (apply Z.ltb_ge; lia).
    assert (b <? 2 ^ 63 = false) as -> by (by apply Z.ltb_ge). by rw andb_false_r.
Qed.

(** The divisor is doubled until it is above half of the rest. *)
Lemma div64_double_spec rem base :
  0 < base < 2 ^ 32 → in_width 64 rem →
  ∃ k, 0 ≤ k ≤ 63 ∧ div64_double rem base 1 = Some (base * 2 ^ k, 2 ^ k) ∧ base * 2 ^ k < 2 ^ 64 ∧
    rem < 2 * (base * 2 ^ k).
Proof.
  intros Hbase [Hr0 Hr]. rw /div64_double.
  destruct (loop_inv (λ '(b, d), ∃ k, 0 ≤ k ≤ 63 ∧ b = base * 2 ^ k ∧ d = 2 ^ k ∧ b < 2 ^ 64)
    (λ '(b, d), Z.to_nat (63 - Z.log2 d))
    (λ '(b, d), ∃ k, 0 ≤ k ≤ 63 ∧ b = base * 2 ^ k ∧ d = 2 ^ k ∧ b < 2 ^ 64 ∧ rem < 2 * b)
    (λ '(b, d),
       if (0 <? swrap 64 b) && (b <? rem) then Some (Next (wrap 64 (b + b), wrap 64 (d + d)))
       else Some (Stop (b, d))) 65 (base, 1)) as ([b d] & -> & k & Hk & -> & -> & Hb & Hrem).
  - intros [b d] (k & Hk & -> & -> & Hb). pose proof (pow2_pos k ltac:(lia)) as Hp.
    rw swrap64_pos; [|split; [lia|done]].
    assert (0 <? base * 2 ^ k = true) as -> by (apply Z.ltb_lt; lia). cbn [andb].
    destruct ((base * 2 ^ k <? 2 ^ 63) && (base * 2 ^ k <? rem)) eqn:E; zbool.
    + left. assert (k < 63) as Hk63.
      { destruct (Z.eq_dec k 63) as [->|]; [|lia]. nia. }
      assert (2 ^ (k + 1) = 2 * 2 ^ k) as E2 by (rw Z.pow_add_r; [change (2 ^ 1) with 2; lia|lia..]).
      assert (2 ^ (k + 1) ≤ 2 ^ 63) as Hle by (apply Z.pow_le_mono_r; lia).
      change (2 ^ 64) with (2 * 2 ^ 63) in *.
      rewrite -> !(wrap_small 64) by (split; [lia|change (2 ^ 64) with (2 * 2 ^ 63); lia]).
      eexists. split; [done|]. split.
      * exists (k + 1). split_and!; [lia|lia|lia|lia|lia].
      * replace (2 ^ k + 2 ^ k) with (2 ^ (k + 1)) by lia. rewrite -> !Z.log2_pow2 by lia. lia.
    + right. eexists. split; [done|]. exists k. split_and!; lia.
  - exists 0. split_and!; lia.
  - change (Z.log2 1) with 0. lia.
  - exists k. split_and!; try lia. done.
Qed.

Lemma div64_subtract_spec n base rem res k :
  0 < base → in_width 64 n → 0 ≤ k ≤ 63 → base * 2 ^ k < 2 ^ 64 → 0 ≤ rem < 2 * (base * 2 ^ k) → 0 ≤ res →
  n = res * base + rem → div64_subtract rem res (base * 2 ^ k) (2 ^ k) = Some (n mod base, n / base).
Proof.
  intros Hbase [Hn0 Hn] Hk Hb Hrem Hres En. rw /div64_subtract.
  match goal with |- loop _ ?body _ = _ => set (B := body) end.
  destruct (loop_inv
    (λ '(rem, res, b, d), ∃ k, 0 ≤ k ≤ 63 ∧ b = base * 2 ^ k ∧ d = 2 ^ k ∧ 0 ≤ rem < 2 * b ∧ 0 ≤ res ∧ n = res * base + rem)
    (λ '(rem, res, b, d), Z.to_nat (Z.log2 d))
    (λ '(r, q), 0 ≤ r < base ∧ n = q * base + r) B 65
    (rem, res, base * 2 ^ k, 2 ^ k)) as ([r q] & -> & Hr & Eq).
  - clear k Hk Hb Hrem Hres En rem res. intros [[[rem res] b] d] (k & Hk & -> & -> & Hrem & Hres & En).
    pose proof (pow2_pos k ltac:(lia)) as Hp. rw /B.
    assert ((if base * 2 ^ k <=? rem then (wrap 64 (rem - base * 2 ^ k), wrap 64 (res + 2 ^ k)) else (rem, res)) =
      (if base * 2 ^ k <=? rem then (rem - base * 2 ^ k, res + 2 ^ k) else (rem, res))) as ->.
    { case_if; [|done]. rewrite -> !(wrap_small 64); [done|split; nia|split; nia]. }
    set (p := if base * 2 ^ k <=? rem then _ else _).
    assert (0 ≤ p.1 < base * 2 ^ k ∧ 0 ≤ p.2 ∧ n = p.2 * base + p.1) as Hp3 by (rw /p; case_if; cbn; nia).
    destruct p as [rem' res']. cbn [fst snd] in Hp3. rw !Z.shiftr_div_pow2 //. change (2 ^ 1) with 2.
    destruct (Z.eq_dec k 0) as [->|Hk0].
    + right. change (2 ^ 0 / 2) with 0. cbn [Z.eqb negb]. eexists. split; [done|]. change (2 ^ 0) with 1 in Hp3.
      split; [lia|]. lia.
    + left. assert (2 ^ k = 2 ^ (k - 1) * 2) as Ek.
      { replace k with (k - 1 + 1) at 1 by lia. rw Z.pow_add_r; [done|lia..]. }
      rw Ek. replace (base * (2 ^ (k - 1) * 2)) with (base * 2 ^ (k - 1) * 2) in * by lia.
      rw !Z.div_mul //. pose proof (pow2_pos (k - 1) ltac:(lia)).
      rewrite -> (proj2 (Z.eqb_neq (2 ^ (k - 1)) 0)) by lia. cbn [negb]. eexists. split; [done|]. split.
      * exists (k - 1). split_and!; lia.
      * rewrite <- Ek. rewrite -> !Z.log2_pow2 by lia. lia.
  - exists k. split_and!; lia.
  - rewrite -> Z.log2_pow2 by lia. lia.
  - f_equal. f_equal; [by eapply Z.mod_unique; [left|rewrite Z.mul_comm]|by eapply Z.div_unique; [left|rewrite Z.mul_comm]].
Qed.

Lemma div64_32_spec n base :
  in_width 64 n → 0 < base < 2 ^ 32 → __div64_32 n base = Some (n / base, n mod base).
Proof.
  intros [Hn0 Hn] Hb. change (2 ^ 64) with 18446744073709551616 in Hn. change (2 ^ 32) with 4294967296 in Hb.
  rw /__div64_32 Z.shiftr_div_pow2 //. change (2 ^ 32) with 4294967296.
  rw (wrap_small 32 (n / 4294967296)); [|split; [zdm|change (2 ^ 32) with 4294967296; zdm]].
  set (high := n / 4294967296). assert (0 ≤ high < 4294967296 ∧ n = high * 4294967296 + n mod 4294967296 ∧
    0 ≤ n mod 4294967296 < 4294967296) as (Hh & En & Hlow) by (rw /high; split_and!; zdm).
  assert (∀ rem res, 0 ≤ rem → 0 ≤ res → n = res * base + rem →
    ('(b, d) ← div64_double rem base 1; '(rem, res) ← div64_subtract rem res b d; Some (res, wrap 32 rem)) =
    Some (n / base, n mod base)) as Hrest.
  { intros rem res Hrem Hres E. assert (in_width 64 rem) as Hrw.
    { split; [done|]. change (2 ^ 64) with 18446744073709551616. nia. }
    destruct (div64_double_spec rem base) as (k & Hk & -> & Hmax & Hlt); [done|done|]. cbn [mbind option_bind].
    rewrite -> (div64_subtract_spec n base rem res k) by (done || lia || (split; done)). cbn [mbind option_bind]. do 2 f_equal.
    apply wrap_small. pose proof (Z.mod_pos_bound n base ltac:(lia)). split; [lia|]. change (2 ^ 32) with 4294967296. lia. }
  case_if; [|cbn [mbind option_bind]; apply Hrest; lia]. ztest.
  pose proof (Z.div_mod high base ltac:(lia)) as Hdm. pose proof (Z.mod_pos_bound high base ltac:(lia)).
  assert (0 ≤ high / base) by (apply Z.div_pos; lia).
  assert (0 ≤ high / base * base ≤ high) as Hq by nia.
  rw (wrap_small 32); [|split; [lia|change (2 ^ 32) with 4294967296; lia]].
  assert (∀ x, 0 ≤ x < 4294967296 → bshl 64 x 32 = x * 4294967296) as Hshl.
  { intros x Hx. rw /bshl Z.land_ones // Z.shiftl_mul_pow2 //. change (2 ^ 32) with 4294967296.
    apply Z.mod_small. change (2 ^ 64) with 18446744073709551616. lia. }
  rewrite -> !Hshl by nia. cbn [mbind option_bind].
  rw (wrap_small 64); [|split; [nia|change (2 ^ 64) with 18446744073709551616; nia]].
  apply Hrest; [nia|nia|nia].
Qed.

Lemma do_div_spec n base :
  in_width 64 n → 0 < base < 2 ^ 32 → do_div n base = Some (n / base, n mod base).
Proof.
  intros Hn Hb. rw /do_div. case_if; [|by apply div64_32_spec].
  assert (base =? 0 = false) as -> by (apply Z.eqb_neq; lia).
  rw wrap_small //. rw Z.shiftr_div_pow2 // in Heqb. destruct Hn as [Hn _]. split; [done|].
  change (2 ^ 32) with 4294967296 in *. zdm.
Qed.

Lemma rem_abs_r a b : Z.rem a (Z.abs b) = Z.rem a b.
Proof. destruct (Z.abs_eq_or_opp b) as [-> | ->]; [done|]. apply Z.rem_opp_r'. Qed.

Lemma div_s64_rem_spec dividend divisor :
  - 2 ^ 63 ≤ dividend < 2 ^ 63 → - 2 ^ 31 ≤ divisor < 2 ^ 31 → divisor ≠ 0 →
  div_s64_rem dividend divisor = Some (swrap 64 (Z.quot dividend divisor), Z.rem dividend divisor).
Proof.
  intros Hn Hd Hne. rw /div_s64_rem /div_u64_rem /abs32.
  assert (wrap 32 (if divisor <? 0 then - divisor else divisor) = Z.abs divisor) as ->.
  { change (2 ^ 31) with 2147483648 in Hd. case_if; rw wrap_small; try lia; split; try lia; change (2 ^ 32) with 4294967296; lia. }
  assert (0 < Z.abs divisor < 2 ^ 32) as Ha by (change (2 ^ 32) with (2 * 2 ^ 31); lia).
  assert (∀ x, swrap 64 (wrap 64 x) = swrap 64 x) as Hsw.
  { intros x. rw /swrap /wrap. by rewrite -> Z.add_mod_idemp_l by lia. }
  assert (∀ x, 0 ≤ x → swrap 32 (x mod Z.abs divisor) = x mod Z.abs divisor) as Hs32.
  { intros x Hx. apply swrap_small; [lia|]. pose proof (Z.mod_pos_bound x (Z.abs divisor) ltac:(lia)).
    change (2 ^ (32 - 1)) with (2 ^ 31). change (2 ^ 31) with 2147483648 in *. lia. }
  destruct (Z.ltb_spec dividend 0).
  - assert (wrap 64 (- dividend) = - dividend) as ->.
    { apply wrap_small. split; [lia|]. change (2 ^ 64) with (2 * 2 ^ 63). lia. }
    rw do_div_spec; [|split; [lia|change (2 ^ 64) with (2 * 2 ^ 63); lia]|done]. cbn [mbind option_bind].
    rw Hs32; [|lia]. pose proof (Z.mod_pos_bound (- dividend) (Z.abs divisor) ltac:(lia)).
    assert (swrap 32 (- (- dividend mod Z.abs divisor)) = Z.rem dividend divisor) as ->.
    { rw swrap_small; [|lia|change (2 ^ (32 - 1)) with (2 ^ 31); change (2 ^ 31) with 2147483648 in *; lia].
      rewrite <- (Z.rem_mod_nonneg (- dividend) (Z.abs divisor)) by lia.
      rewrite -> Z.rem_opp_l' by lia. rw rem_abs_r. lia. }
    do 2 f_equal. rewrite <- (Z.quot_div_nonneg (- dividend) (Z.abs divisor)) by lia.
    destruct (Z.ltb_spec 0 divisor).
    + rw Hsw. f_equal. rewrite -> (Z.abs_eq divisor), Z.quot_opp_l by lia. lia.
    + f_equal. rewrite -> (Z.abs_neq divisor), Z.quot_opp_opp by lia. done.
  - rw do_div_spec; [|split; [lia|change (2 ^ 64) with (2 * 2 ^ 63); lia]|done]. cbn [mbind option_bind].
    rw Hs32; [|lia]. f_equal. f_equal.
    + rewrite <- (Z.quot_div_nonneg dividend (Z.abs divisor)) by lia. destruct (Z.ltb_spec divisor 0).
      * rw Hsw. f_equal. rewrite -> (Z.abs_neq divisor), Z.quot_opp_r by lia. lia.
      * f_equal. by rewrite -> (Z.abs_eq divisor) by lia.
    + rewrite <- (Z.rem_mod_nonneg dividend (Z.abs divisor)) by lia. by rw rem_abs_r.
Qed.

(** ** The 64-bit by 64-bit division *)

Lemma highest_set_bounds x n : 0 < x → highest_set x n → 2 ^ n ≤ x < 2 ^ (n + 1).
Proof.
  intros Hx (Hn & Hb & Hab). assert (Z.log2 x = n) as <- by (by apply Z.log2_bits_unique). by apply Z.log2_spec.
Qed.

(** The estimate from the leading bits is the quotient or one more when the estimate is small enough. *)
Lemma quotient_estimate u v P :
  0 < P → 0 ≤ u → 0 < v / P → u / P / (v / P) ≤ v / P →
  u / v ≤ u / P / (v / P) ≤ u / v + 1.
Proof.
  intros HP Hu Hv Hest. pose proof (Z.div_mod u P ltac:(lia)) as Eu. pose proof (Z.div_mod v P ltac:(lia)) as Ev.
  pose proof (Z.mod_pos_bound u P HP) as Bu. pose proof (Z.mod_pos_bound v P HP) as Bv.
  set (u1 := u / P) in *. set (v1 := v / P) in *. set (ur := u mod P) in *. set (vr := v mod P) in *.
  pose proof (Z.div_mod u1 v1 ltac:(lia)) as Eq. pose proof (Z.mod_pos_bound u1 v1 Hv) as Bq. set (q := u1 / v1) in *.
  assert (0 < v) as Hvp by nia. pose proof (Z.div_mod u v ltac:(lia)) as Et. pose proof (Z.mod_pos_bound u v Hvp) as Bt.
  set (t := u / v) in *. assert (0 ≤ t) by (apply Z.div_pos; lia). split.
  - assert (t * v1 < u1 + 1) by nia. assert (t * v1 ≤ u1) by lia. apply Z.div_le_lower_bound; nia.
  - destruct (Z.le_gt_cases q 1); [lia|]. assert ((q - 1) * v ≤ u) as Hle by nia.
    assert (q - 1 ≤ t) by (apply Z.div_le_lower_bound; lia). lia.
Qed.

Lemma div64_u64_spec dividend divisor :
  in_width 64 dividend → in_width 64 divisor → 0 < divisor < 2 ^ 32 ∨ 2 ^ 34 ≤ divisor →
  div64_u64 dividend divisor = Some (dividend / divisor).
Proof.
  intros [Hu0 Hu] [Hv0 Hv] Hcase. rw /div64_u64 Z.shiftr_div_pow2 //.
  assert (wrap 32 (divisor / 2 ^ 32) = divisor / 2 ^ 32) as ->.
  { apply wrap_small. change (2 ^ 64) with (2 ^ 32 * 2 ^ 32) in Hv. split; [by apply Z.div_pos|].
    by apply Z.div_lt_upper_bound. }
  destruct (Z.eqb_spec (divisor / 2 ^ 32) 0) as [E|E].
  { assert (divisor < 2 ^ 32) as Hs by (change (2 ^ 32) with 4294967296 in *; zdm).
    rw wrap_small; [|done]. rw /div_u64 /div_u64_rem do_div_spec //. destruct Hcase; [done|].
    change (2 ^ 34) with (4 * 2 ^ 32) in *. lia. }
  assert (2 ^ 34 ≤ divisor) as Hbig.
  { destruct Hcase as [[_ Hs]|]; [|done]. destruct E. by apply Z.div_small. }
  set (high := divisor / 2 ^ 32) in *.
  assert (4 ≤ high < 2 ^ 32 ∧ high * 2 ^ 32 ≤ divisor < (high + 1) * 2 ^ 32) as [Hh Hhd].
  { rw /high. change (2 ^ 34) with 17179869184 in Hbig. change (2 ^ 64) with 18446744073709551616 in Hv.
    change (2 ^ 32) with 4294967296. zdm. }
  destruct (fls_spec high) as [[? _]|[Hset Hf]]; [split; lia|lia|]. apply highest_set_bounds in Hset; [|lia].
  set (f := fls high) in *. replace (f - 1 + 1) with f in Hset by lia.
  assert (3 ≤ f) as Hf3.
  { destruct (Z.le_gt_cases 3 f); [done|]. pose proof (Z.pow_le_mono_r 2 f 2 ltac:(lia) ltac:(lia)).
    change (2 ^ 2) with 4 in *. lia. }
  rewrite -> !Z.shiftr_div_pow2 by lia. set (P := 2 ^ (1 + f)). pose proof (pow2_pos (1 + f) ltac:(lia)) as HP. fold P in HP.
  assert (P * 2 ^ 30 ≤ divisor < P * 2 ^ 31 ∧ P * 2 ^ (63 - f) = 2 ^ 64 ∧ 2 ^ (63 - f) ≤ 2 ^ 60) as (Hvb & HPu & Hsmall).
  { assert (P = 2 ^ (f - 1) * 4) as E1 by (rw /P; replace (1 + f) with (f - 1 + 2) by lia; rw Z.pow_add_r; [done|lia..]).
    assert (2 ^ f = 2 ^ (f - 1) * 2) as E2 by (replace f with (f - 1 + 1) at 1 by lia; rw Z.pow_add_r; [done|lia..]).
    split_and!; [change (2 ^ 32) with (4 * 2 ^ 30) in *; nia| | |].
    - change (2 ^ 32) with (2 * 2 ^ 31) in *. nia.
    - rw /P. rewrite <- Z.pow_add_r by lia. f_equal. lia.
    - apply Z.pow_le_mono_r; lia. }
  assert (2 ^ 30 ≤ divisor / P < 2 ^ 31) as Hv1.
  { split; [apply Z.div_le_lower_bound; lia|apply Z.div_lt_upper_bound; lia]. }
  assert (0 ≤ dividend / P < 2 ^ (63 - f)) as Hu1.
  { split; [apply Z.div_pos; lia|]. apply Z.div_lt_upper_bound; lia. }
  rw (wrap_small 32 (divisor / P)); [|split; [lia|change (2 ^ 32) with (2 * 2 ^ 31); lia]].
  rw /div_u64 /div_u64_rem do_div_spec; [|split; [lia|change (2 ^ 64) with (16 * 2 ^ 60); lia]|split; [lia|change (2 ^ 32) with (2 * 2 ^ 31); lia]].
  cbn [mbind option_bind].
  assert (dividend / P / (divisor / P) ≤ divisor / P) as Hest.
  { assert (dividend / P / (divisor / P) < 2 ^ 30); [|lia].
    apply Z.div_lt_upper_bound; [lia|]. change (2 ^ 60) with (2 ^ 30 * 2 ^ 30) in Hsmall. nia. }
  pose proof (quotient_estimate dividend divisor P HP Hu0 ltac:(lia) Hest) as Hq.
  set (q := dividend / P / (divisor / P)) in *. set (t := dividend / divisor) in *.
  assert (0 < divisor) as Hvp by lia.
  pose proof (Z.div_mod dividend divisor ltac:(lia)) as Et. pose proof (Z.mod_pos_bound dividend divisor Hvp) as Bt.
  fold t in Et. assert (0 ≤ t) by (apply Z.div_pos; lia).
  set (quot := if negb (q =? 0) then q - 1 else q).
  assert (t - 1 ≤ quot ≤ t ∧ 0 ≤ quot) as Hqt.
  { rw /quot. destruct (Z.eqb_spec q 0); cbn [negb]; lia. }
  f_equal. rw (wrap_small 64 (dividend - quot * divisor)); [|split; nia].
  destruct (Z.leb_spec divisor (dividend - quot * divisor)).
  - assert (quot + 1 = t) as -> by nia. apply wrap_small. split; [done|]. nia.
  - nia.
Qed.

(** [div64_u64] shifts one bit too far for divisors between [2^32] and [2^34] and loses precision: the largest
    64-bit number divided by [2^32 + 3] comes out too large by two. *)
Example div64_u64_wrong : div64_u64 (2 ^ 64 - 1) (2 ^ 32 + 3) = Some ((2 ^ 64 - 1) / (2 ^ 32 + 3) + 2).
Proof. vm_compute. done. Qed.

(** C39: The division routines of the 32-bit machines are exact: the shift-and-subtract division of 64 by 32 bits, [do_div], and the
    signed division with remainder (which truncates towards zero); and [div64_u64] when the divisor is below [2^32]
    or at least [2^34].  In between it is not: the largest 64-bit number divided by [2^32 + 3] is off by two. *)
Theorem div64_exact n d :
  in_width 64 n → 0 < d →
  (d < 2 ^ 32 → __div64_32 n d = Some (n / d, n mod d) ∧ do_div n d = Some (n / d, n mod d)) ∧
  (∀ a b, - 2 ^ 63 ≤ a < 2 ^ 63 → - 2 ^ 31 ≤ b < 2 ^ 31 → b ≠ 0 →
     div_s64_rem a b = Some (swrap 64 (Z.quot a b), Z.rem a b)) ∧
  (d < 2 ^ 32 ∨ 2 ^ 34 ≤ d < 2 ^ 64 → div64_u64 n d = Some (n / d)) ∧
  div64_u64 (2 ^ 64 - 1) (2 ^ 32 + 3) = Some ((2 ^ 64 - 1) / (2 ^ 32 + 3) + 2).
Proof.
  intros Hn Hd. split_and!.
  - intros Hd32. split; [by apply div64_32_spec|by apply do_div_spec].
  - apply div_s64_rem_spec.
  - intros Hc. apply div64_u64_spec; [done| |].
    + split; [lia|]. change (2 ^ 64) with (2 ^ 32 * 2 ^ 32) in *. destruct Hc; lia.
    + destruct Hc; [left|right]; lia.
  - exact div64_u64_wrong.
Qed.

Lemma div64_exact_witness :
  (__div64_32 1000000000000 7 = Some (1000000000000 / 7, 1000000000000 mod 7) ∧
   do_div 1000000000000 7 = Some (1000000000000 / 7, 1000000000000 mod 7)) ∧
  div64_u64 1000000000000 7 = Some (1000000000000 / 7).
Proof.
  destruct (div64_exact 1000000000000 7) as (H1 & _ & H3 & _); [split; vm_compute; congruence|lia|].
  split; [exact (H1 ltac:(lia))|exact (H3 (or_introl (ltac:(lia) : 7 < 2 ^ 32)))].
Defined.

(** ** Common divisors and multiples *)

Lemma gcd_spec a b : 0 < a → 0 < b → gcd a b = Some (Z.gcd a b).
Proof.
  intros Ha Hb. rw /gcd. set (p := if a <? b then (b, a) else (a, b)).
  assert (0 < p.2 ≤ p.1 ∧ Z.gcd p.1 p.2 = Z.gcd a b) as Hp.
  { rw /p. case_if; cbn; split_and!; try lia. apply Z.gcd_comm. }
  destruct p as [a' b']. cbn [fst snd] in Hp.
  match goal with |- loop _ ?body _ = _ => set (B := body) end.
  destruct (loop_inv (λ '(x, y), 0 < y ≤ x ∧ Z.gcd x y = Z.gcd a b) (λ '(x, y), Z.to_nat (Z.log2 x + Z.log2 y))
    (λ g, g = Z.gcd a b) B (S (Z.to_nat (Z.log2 a' + Z.log2 b'))) (a', b')) as (g & -> & ->); [|done|lia|done].
  intros [x y] ([Hy Hx] & E). rw /B. ztest. pose proof (Z.mod_pos_bound x y Hy).
  destruct (Z.eqb_spec (x mod y) 0) as [E0|E0]; cbn [negb].
  - right. eexists. split; [done|]. rewrite <- E. symmetry. rw Z.gcd_comm. apply Z.divide_gcd_iff; [lia|].
    by apply Z.mod_divide; [lia|].
  - left. eexists. split; [done|]. split; [split; [lia|]|].
    + rewrite <- E. rw Z.gcd_comm. rewrite -> Z.gcd_mod by lia. by rw Z.gcd_comm.
    + assert (2 * (x mod y) ≤ x) by (pose proof (Z.div_mod x y ltac:(lia)); assert (1 ≤ x / y) by (apply Z.div_le_lower_bound; lia); nia).
      pose proof (Z.log2_le_mono (2 * (x mod y)) x ltac:(lia)) as Hlog. rewrite -> Z.log2_double in Hlog by lia.
      pose proof (Z.log2_nonneg (x mod y)). pose proof (Z.log2_nonneg y). lia.
Qed.

(** The product is computed in 64 bits. *)
Lemma lcm_spec a b : 0 < a → 0 < b → a * b < 2 ^ 64 → lcm a b = Some (Z.lcm a b).
Proof.
  intros Ha Hb Hm. rw /lcm. ztest. rw gcd_spec //. cbn [mbind option_bind].
  assert (0 < Z.gcd a b) as Hg.
  { pose proof (Z.gcd_nonneg a b). destruct (Z.eq_dec (Z.gcd a b) 0) as [E|]; [|lia].
    apply Z.gcd_eq_0_l in E. lia. }
  ztest. rw wrap_small; [|split; [nia|done]]. f_equal. rw /Z.lcm.
  rewrite -> Z.abs_eq.
  - apply Z.divide_div_mul_exact; [lia|apply Z.gcd_divide_r].
  - apply Z.mul_nonneg_nonneg; [lia|]. apply Z.div_pos; lia.
Qed.

(** When the product does not fit, the result is wrong, and a common multiple with 0 is not 0. *)
Example lcm_overflow : lcm (2 ^ 33) (2 ^ 33) = Some 0 ∧ Z.lcm (2 ^ 33) (2 ^ 33) = 2 ^ 33 ∧ lcm 0 5 = Some 5.
Proof. vm_compute. done. Qed.

(** ** Square root *)

(** [one] for [k] remaining bits of the root. *)
Definition sqrt_one (k : Z) : Z := if k =? 0 then 0 else 4 ^ (k - 1).

Lemma sqrt_one_pos k : 0 < k → sqrt_one k = 2 ^ (k - 1) * 2 ^ (k - 1) ∧ 0 < 2 ^ (k - 1) ∧ 2 ^ k = 2 * 2 ^ (k - 1).
Proof.
  intros Hk. rw /sqrt_one. ztest. split_and!.
  - change 4 with (2 ^ 2). rewrite <- Z.pow_mul_r, <- Z.pow_add_r by lia. f_equal. lia.
  - apply pow2_pos. lia.
  - replace k with (1 + (k - 1)) at 1 by lia. rw Z.pow_add_r; [done|lia..].
Qed.

Lemma sqrt_one_div4 k : 0 < k → sqrt_one k / 4 = sqrt_one (k - 1).
Proof.
  intros Hk. rw /sqrt_one. ztest. destruct (Z.eqb_spec (k - 1) 0) as [->|]; [done|].
  replace (k - 1) with (1 + (k - 1 - 1)) at 1 by lia. rw Z.pow_add_r; [|lia..]. change (4 ^ 1) with 4.
  by rw Z.mul_comm Z.div_mul.
Qed.

Lemma sqrt_start_spec x :
  in_width 64 x → ∃ k, 0 ≤ k ≤ 32 ∧ sqrt_start x (bshl 64 1 (BITS_PER_LONG - 2)) = Some (sqrt_one k) ∧ x < 2 ^ k * 2 ^ k.
Proof.
  intros [Hx0 Hx]. change (bshl 64 1 (BITS_PER_LONG - 2)) with (sqrt_one 32). rw /sqrt_start.
  match goal with |- context [loop _ ?body _] => set (B := body) end.
  assert (∀ n k, (Z.to_nat k < n)%nat → 0 ≤ k ≤ 32 → x < 2 ^ k * 2 ^ k →
    ∃ k', 0 ≤ k' ≤ 32 ∧ loop n B (sqrt_one k) = Some (sqrt_one k') ∧ x < 2 ^ k' * 2 ^ k') as H.
  { intros n. induction n as [|n IH]; intros k Hn Hk Hlt; [lia|]. cbn [loop]. rw {1}/B.
    destruct (Z.ltb_spec x (sqrt_one k)) as [Hc|Hc].
    - assert (0 < k) as Hk0 by (destruct (Z.eq_dec k 0) as [->|]; [cbn in Hc; lia|lia]).
      rw Z.shiftr_div_pow2 //. change (2 ^ 2) with 4. rw sqrt_one_div4 //. apply IH; [lia|lia|].
      destruct (sqrt_one_pos k Hk0) as (E & _ & _). lia.
    - exists k. done. }
  apply (H 33%nat 32); [lia|lia|]. change (2 ^ 32 * 2 ^ 32) with (2 ^ 64). done.
Qed.

(** The partial root [r] has its last [k] bits clear. *)
Definition sqrt_inv (x k r : Z) (st : Z * Z * Z) : Prop :=
  0 ≤ k ≤ 32 ∧ 0 ≤ r ∧ (∃ m, r = m * 2 ^ k) ∧ r < 2 ^ 32 ∧ r * r ≤ x < (r + 2 ^ k) * (r + 2 ^ k) ∧
  st = (x - r * r, r * 2 ^ k, sqrt_one k).

(** The products of one step, for a root below [M] whose step is [h]. *)
Lemma sqrt_step_bounds M r h x :
  0 ≤ r → 0 < h → r + 2 * h ≤ M → 0 ≤ x < M * M →
  0 ≤ r * (2 * h) + h * h < M * M ∧ 0 ≤ 2 * (h * h) < M * M ∧ 0 ≤ r * (2 * h) + 2 * (h * h) < M * M.
Proof.
  intros Hr Hh HM Hx.
  assert ((r + 2 * h) * (r + 2 * h) ≤ M * M) as H by (apply Z.mul_le_mono_nonneg; lia).
  assert (0 ≤ r * h) by (apply Z.mul_nonneg_nonneg; lia). assert (0 < h * h) by (apply Z.mul_pos_pos; lia).
  assert (0 ≤ r * r) by (apply Z.mul_nonneg_nonneg; lia). lia.
Qed.

Lemma sqrt_room k r m h :
  0 < k ≤ 32 → 0 < h → 2 ^ k = 2 * h → r = m * 2 ^ k → r < 2 ^ 32 → r + 2 * h ≤ 2 ^ 32.
Proof.
  intros Hk Hh E -> Hr. assert (2 ^ 32 = 2 ^ (32 - k) * 2 ^ k) as E32.
  { rewrite <- Z.pow_add_r by lia. f_equal. lia. }
  rewrite -> E32 in *. rewrite -> E in *. assert (m < 2 ^ (32 - k)) as Hm.
  { apply Z.mul_lt_mono_pos_r with (2 * h); lia. }
  replace (m * (2 * h) + 2 * h) with ((m + 1) * (2 * h)) by ring. apply Z.mul_le_mono_nonneg_r; lia.
Qed.

Lemma int_sqrt_spec x : in_width 64 x → int_sqrt x = Some (Z.sqrt x).
Proof.
  intros Hx. rw /int_sqrt. destruct (sqrt_start_spec x Hx) as (k0 & Hk0 & -> & Hlt). cbn [mbind option_bind].
  match goal with |- context [loop _ ?body _] => set (B := body) end. destruct Hx as [Hx0 Hx].
  assert (∀ n k r st, (Z.to_nat k < n)%nat → sqrt_inv x k r st → loop n B st = Some (Z.sqrt x)) as H.
  { intros n. induction n as [|n IH]; intros k r st Hn (Hk & Hr & [m Hm] & Hr32 & [Hle Hgt] & ->); [lia|].
    cbn [loop]. rw {1}/B. destruct (Z.eq_dec k 0) as [->|Hkne].
    - cbn [Z.eqb sqrt_one negb]. f_equal. change (2 ^ 0) with 1 in *. symmetry. apply Z.sqrt_unique. lia.
    - destruct (sqrt_one_pos k ltac:(lia)) as (Eo & Hh & E2). set (h := 2 ^ (k - 1)) in *.
      assert (0 < h * h) by (apply Z.mul_pos_pos; lia).
      assert (sqrt_one k =? 0 = false) as -> by (apply Z.eqb_neq; lia). cbn [negb].
      pose proof (sqrt_room k r m h ltac:(lia) Hh E2 Hm Hr32) as Hr2.
      assert (0 ≤ x < 2 ^ 32 * 2 ^ 32) as Hx' by (split; [done|exact Hx]).
      destruct (sqrt_step_bounds _ r h x Hr Hh Hr2 Hx') as (B1 & B2 & B3).
      assert (∀ y, 0 ≤ y < 2 ^ 32 * 2 ^ 32 → wrap 64 y = y) as Hw by (intros y Hy; by apply wrap_small).
      rewrite -> E2 in Hgt, Hm. clear E2 Hx Hk0 Hlt. rw Eo.
      assert (2 ^ k = 2 * h) as E2 by (rw /h; replace k with (1 + (k - 1)) at 1 by lia; by rw Z.pow_add_r; [|lia..]).
      rw E2. rw (Hw (r * (2 * h) + h * h) B1).
      assert (sqrt_one k / 4 = sqrt_one (k - 1)) as Eq by (apply sqrt_one_div4; lia). rewrite -> Eo in Eq.
      destruct (Z.leb_spec (r * (2 * h) + h * h) (x - r * r)) as [Hc|Hc].
      + rw (Hw (x - r * r - (r * (2 * h) + h * h))); [|split; lia]. rw (Hw (2 * (h * h)) B2) (Hw _ B3).
        apply (IH (k - 1) (r + h)); [lia|]. rw /sqrt_inv -/h.
        split_and!; [lia|lia|lia|exists (2 * m + 1); rewrite -> Hm; ring|lia|lia|lia|].
        rw Eq. f_equal. f_equal; [ring|].
        replace (r * (2 * h) + 2 * (h * h)) with ((r + h) * h * 2) by ring. by apply Z.div_mul.
      + apply (IH (k - 1) r); [lia|]. rw /sqrt_inv -/h.
        split_and!; [lia|lia|lia|exists (2 * m); rewrite -> Hm; ring|lia|lia|lia|].
        rw Eq. f_equal. f_equal. replace (r * (2 * h)) with (r * h * 2) by ring. by apply Z.div_mul. }
  apply (H 33%nat k0 0); [lia|]. split_and!; try lia; [by exists 0|]. by rw Z.mul_0_l Z.sub_0_r.
Qed.

(** ** Binary-coded decimals *)

Lemma bcd_roundtrip val : 0 ≤ val < 100 → in_width 8 (bin2bcd val) ∧ bcd2bin (bin2bcd val) = val.
Proof.
  intros Hv. assert (forallb (λ n, let v := Z.of_nat n in
    (0 <=? bin2bcd v) && (bin2bcd v <? 256) && (bcd2bin (bin2bcd v) =? v)) (seq 0 100) = true) as H by (vm_compute; done).
  rewrite -> forallb_forall in H. specialize (H (Z.to_nat val)). cbv zeta in H. rw Z2Nat.id in H; [|lia].
  destruct (andb_prop _ _ (H ltac:(apply in_seq; lia))) as [[H1 H2]%andb_true_iff H3]. zbool. done.
Qed.
