(* ===== verification/KfifoSpec.v ===== *)
(** * What the queues of kernel/kfifo.c promise

    The bytes between the counters of a fifo are a bounded queue ([contents]); the operations of Kfifo implement the queue
    operations, also when the ring and the 32-bit counters wrap around. *)
From S2P Require Import Prelude Bitops Kfifo.

(** ** Rings of bytes *)

(** The byte at a ring position, which need not be reduced. *)
Definition rbyte (d : list Z) (i : Z) : Z := d !!! Z.to_nat (i mod Z.of_nat (length d)).

(** [n] bytes from a position on. *)
Definition ring (d : list Z) (o : Z) (n : nat) : list Z := (λ i, rbyte d (o + Z.of_nat i)) <$> seq 0 n.

Lemma ring_length d o n : length (ring d o n) = n.
Proof. by rw /ring length_fmap length_seq. Qed.

Lemma ring_app d o a b : ring d o (a + b) = ring d o a ++ ring d (o + Z.of_nat a) b.
Proof.
  rw /ring seq_app fmap_app. f_equal. cbn. rewrite <- (Nat.add_0_r a) at 1. rewrite <- fmap_add_seq.
  rewrite <- list_fmap_compose. apply list_fmap_ext. intros i x _. cbn. f_equal. lia.
Qed.

Lemma ring_split d o a n : (a ≤ n)%nat → ring d o n = ring d o a ++ ring d (o + Z.of_nat a) (n - a).
Proof. intros H. rewrite <- ring_app. f_equal. lia. Qed.

Lemma ring_mod d o o' n : o mod Z.of_nat (length d) = o' mod Z.of_nat (length d) → ring d o n = ring d o' n.
Proof.
  intros H. apply list_fmap_ext. intros i x _. rw /rbyte. f_equal. f_equal.
  rewrite <- Zplus_mod_idemp_l. by rw H Zplus_mod_idemp_l.
Qed.

Lemma ring_slice d o n :
  0 ≤ o → o + Z.of_nat n ≤ Z.of_nat (length d) → ring d o n = take n (drop (Z.to_nat o) d).
Proof.
  intros H1 H2. apply list_eq. intros i. destruct (Nat.lt_ge_cases i n) as [Hi|Hi].
  - rw list_lookup_fmap lookup_seq_lt //= lookup_take_lt // lookup_drop /rbyte. rw Z.mod_small; [|lia].
    destruct (lookup_lt_is_Some_2 d (Z.to_nat o + i)) as [x Hx]; [lia|]. rw Hx. f_equal.
    apply list_lookup_total_correct. rewrite <- Hx. f_equal. lia.
  - rewrite -> !lookup_ge_None_2; [done|rw length_take; lia|]. rw length_fmap length_seq. lia.
Qed.

(** The whole ring from a position of it. *)
Lemma ring_rotation d o :
  0 ≤ o ≤ Z.of_nat (length d) → ring d o (length d) = drop (Z.to_nat o) d ++ take (Z.to_nat o) d.
Proof.
  intros Ho. rw (ring_split d o (length d - Z.to_nat o)); [|lia]. f_equal.
  - rw ring_slice; [|lia..]. apply take_ge. rw length_drop. lia.
  - rw (ring_mod d _ 0).
    + rw ring_slice; [|lia..]. cbn. f_equal. lia.
    + replace (o + Z.of_nat (length d - Z.to_nat o)) with (Z.of_nat (length d)) by lia.
      destruct d; [done|]. rw Z_mod_same_full. by rw Zmod_0_l.
Qed.

(** A position at most once around. *)
Lemma ring_wrapped d o n :
  Z.of_nat (length d) ≤ o → o + Z.of_nat n ≤ 2 * Z.of_nat (length d) →
  ring d o n = take n (drop (Z.to_nat (o - Z.of_nat (length d))) d).
Proof.
  intros H1 H2. rw (ring_mod d o (o - Z.of_nat (length d))).
  - apply ring_slice; lia.
  - rewrite <- (Z_mod_plus_full (o - Z.of_nat (length d)) 1). f_equal. lia.
Qed.

(** ** The two copies *)

Lemma copy_bytes_at dst doff src soff n :
  0 ≤ doff → 0 ≤ soff → 0 ≤ n → doff + n ≤ Z.of_nat (length dst) → soff + n ≤ Z.of_nat (length src) →
  copy_bytes dst doff src soff n =
    Some (take (Z.to_nat doff) dst ++ take (Z.to_nat n) (drop (Z.to_nat soff) src) ++ drop (Z.to_nat (doff + n)) dst).
Proof.
  intros H1 H2 H3 H4 H5. rw /copy_bytes /rd_range. ztest. cbn [andb mbind option_bind]. rw /wr_range.
  assert (length (take (Z.to_nat n) (drop (Z.to_nat soff) src)) = Z.to_nat n) as -> by (rw length_take length_drop; lia).
  ztest. cbn [andb]. do 4 f_equal. lia.
Qed.

(** Writing [L] bytes at position [o] of the ring. *)
Lemma ring_store d src o L :
  0 ≤ o < Z.of_nat (length d) → 0 ≤ L ≤ Z.of_nat (length d) → L ≤ Z.of_nat (length src) →
  let l := Z.min L (Z.of_nat (length d) - o) in
  ∃ d1 d2, copy_bytes d o src 0 l = Some d1 ∧ copy_bytes d1 0 src l (L - l) = Some d2 ∧
    length d2 = length d ∧
    ring d2 o (length d) = take (Z.to_nat L) src ++ ring d (o + L) (length d - Z.to_nat L).
Proof.
  intros Ho HL Hs l. set (B := Z.of_nat (length d)) in *.
  rw (copy_bytes_at d o src 0 l); [|lia..]. rw drop_0.
  set (d1 := take _ d ++ _). assert (length d1 = length d) as Hd1.
  { rw /d1 !length_app !length_take length_drop. lia. }
  exists d1. rw (copy_bytes_at d1 0 src l (L - l)); [|lia..]. change (Z.to_nat 0) with 0%nat. rw take_0 app_nil_l Z.add_0_l.
  eexists. split; [done|]. split; [done|].
  assert (∀ d2 : list Z, length d2 = length d → ring d2 o (length d) = drop (Z.to_nat o) d2 ++ take (Z.to_nat o) d2) as Hrot.
  { intros d2 E. rewrite <- E. apply ring_rotation. lia. }
  split; [rw !length_app !length_take !length_drop; lia|].
  rw Hrot; [|rw !length_app !length_take !length_drop; lia].
  destruct (Z.le_gt_cases L (B - o)) as [Hc|Hc].
  - assert (l = L) as -> by lia. rw Z.sub_diag /= drop_0 {1}/d1 drop_app_length'; [|rw length_take; lia].
    rewrite <- app_assoc. f_equal. rw (ring_split d (o + L) (Z.to_nat (B - o - L))); [|lia]. f_equal.
    + rw ring_slice; [|lia..]. symmetry. apply take_ge. rw length_drop. lia.
    + rw /d1 take_app_length'; [|rw length_take; lia]. rw ring_wrapped; [|lia..].
      replace (Z.to_nat (o + L + Z.of_nat (Z.to_nat (B - o - L)) - Z.of_nat (length d))) with 0%nat by lia.
      rw drop_0. f_equal. lia.
  - assert (l = B - o) as El by lia. assert (d1 = take (Z.to_nat o) d ++ take (Z.to_nat l) src) as E1.
    { rw /d1. f_equal. rw (drop_ge d); [|lia]. by rw app_nil_r. }
    assert (length (take (Z.to_nat l) src) = Z.to_nat l) as Hl by (rw length_take; lia).
    assert (length (take (Z.to_nat (L - l)) (drop (Z.to_nat l) src)) = Z.to_nat (L - l)) as Hl2
      by (rw length_take length_drop; lia).
    rw E1 (drop_app_le (take (Z.to_nat o) d)); [|rw length_take; lia]. rewrite -> !app_assoc.
    rw drop_app_length'; [|rw length_app Hl2 length_drop length_take; lia].
    rw take_app_length'; [|rw length_app Hl2 length_drop length_take; lia].
    rewrite -> app_assoc. f_equal.
    + rewrite <- (take_drop (Z.to_nat l) (take (Z.to_nat L) src)). rw take_take skipn_firstn_comm.
      f_equal; f_equal; lia.
    + rw ring_wrapped; [|lia..]. rw skipn_firstn_comm. f_equal; [lia|]. f_equal. lia.
Qed.

(** Reading [L] bytes at position [o] of the ring into a buffer. *)
Lemma ring_load d dst o L :
  0 ≤ o < Z.of_nat (length d) → 0 ≤ L ≤ Z.of_nat (length d) → L ≤ Z.of_nat (length dst) →
  let l := Z.min L (Z.of_nat (length d) - o) in
  ∃ dst1, copy_bytes dst 0 d o l = Some dst1 ∧
    copy_bytes dst1 l d 0 (L - l) = Some (ring d o (Z.to_nat L) ++ drop (Z.to_nat L) dst).
Proof.
  intros Ho HL Hs l. rw (copy_bytes_at dst 0 d o l); [|lia..]. change (Z.to_nat 0) with 0%nat. rw take_0 app_nil_l Z.add_0_l.
  assert (length (take (Z.to_nat l) (drop (Z.to_nat o) d)) = Z.to_nat l) as Hl by (rw length_take length_drop; lia).
  eexists. split; [done|]. rw copy_bytes_at; [|rw ?length_app ?Hl ?length_drop; lia..].
  rw drop_0 take_app_length'; [|lia]. f_equal. rw (ring_split d o (Z.to_nat l) (Z.to_nat L)); [|lia].
  rewrite <- app_assoc. rw ring_slice; [|lia..]. f_equal. f_equal.
  - destruct (Z.le_gt_cases L (Z.of_nat (length d) - o)).
    + replace (L - l) with 0 by lia. replace (Z.to_nat L - Z.to_nat l)%nat with 0%nat by lia. done.
    + rw ring_wrapped; [|lia..]. replace (Z.to_nat (_ + _ - _)) with 0%nat by lia. rw drop_0. f_equal. lia.
  - rw drop_app_ge; [|lia]. rw Hl drop_drop. f_equal. lia.
Qed.

(** [d'] is the ring [d] with the bytes [bs] stored from position [o] on. *)
Definition stored (d d' : list Z) (o : Z) (bs : list Z) : Prop :=
  length d' = length d ∧
  ring d' o (length d) = bs ++ ring d (o + Z.of_nat (length bs)) (length d - length bs).

Lemma ring_app_inv d d' o n a :
  (a ≤ n)%nat → ring d o n = ring d' o n → ring d (o + Z.of_nat a) (n - a) = ring d' (o + Z.of_nat a) (n - a).
Proof.
  intros Ha. rw (ring_split d o a n Ha) (ring_split d' o a n Ha). intros [_ H]%app_inj_1; [done|]. by rw !ring_length.
Qed.

Lemma ring_take d o a n : (a ≤ n)%nat → take a (ring d o n) = ring d o a.
Proof. intros Ha. rw (ring_split d o a n Ha) take_app_length' //. by rw ring_length. Qed.

(** Once around is the same position. *)
Lemma ring_around d o n : ring d (o + Z.of_nat (length d)) n = ring d o n.
Proof. apply ring_mod. replace (o + Z.of_nat (length d)) with (o + 1 * Z.of_nat (length d)) by lia. apply Z_mod_plus_full. Qed.

(** The bytes before the stored ones are kept. *)
Lemma stored_before d d' o bs n :
  stored d d' o bs → (length bs + n ≤ length d)%nat → ring d' (o - Z.of_nat n) n = ring d (o - Z.of_nat n) n.
Proof.
  intros [Hl H] Hn. set (B := length d) in *.
  rw (ring_split d' o (length bs) B) in H; [|lia]. apply app_inj_1 in H as [_ H]; [|by rw ring_length].
  assert (∀ e, length e = B → ring e (o - Z.of_nat n) n = ring e (o + Z.of_nat (length bs) + Z.of_nat (B - length bs - n)) n) as E.
  { intros e He. rewrite <- (ring_around e (o - Z.of_nat n)). f_equal. lia. }
  rw !E //. pose proof (ring_app_inv d' d (o + Z.of_nat (length bs)) (B - length bs) (B - length bs - n) ltac:(lia) H) as H'.
  replace (B - length bs - (B - length bs - n))%nat with n in H' by lia. done.
Qed.

Lemma stored_bytes d d' o bs : stored d d' o bs → (length bs ≤ length d)%nat → ring d' o (length bs) = bs.
Proof.
  intros [Hl H] Hn. rewrite <- (ring_take d' o (length bs) (length d) Hn), H. by apply take_app_length.
Qed.

Lemma stored_app d d1 d2 o a b :
  stored d d1 o a → stored d1 d2 (o + Z.of_nat (length a)) b → (length a + length b ≤ length d)%nat →
  stored d d2 o (a ++ b).
Proof.
  intros S1 S2 Hn. pose proof (stored_bytes _ _ _ _ S1 ltac:(lia)) as Ea. destruct (S1) as [L1 R1], (S2) as [L2 R2].
  pose proof (stored_before _ _ _ _ (length a) S2 ltac:(lia)) as Eb.
  replace (o + Z.of_nat (length a) - Z.of_nat (length a)) with o in Eb by lia. rw Ea in Eb.
  split; [congruence|]. rw length_app. rw (ring_split d2 o (length a)); [|lia]. rw Eb. rewrite <- app_assoc. f_equal.
  rw L1 in R2. rewrite <- (ring_take d2 _ (length d - length a) (length d)) by lia. rw R2 take_app_ge; [|lia]. f_equal.
  rw ring_take; [|lia]. rw (ring_split d1 o (length a) (length d)) in R1; [|lia].
  apply app_inj_1 in R1 as [_ R1]; [|by rw ring_length].
  rw (ring_app_inv _ _ _ _ (length b) _ R1); [|lia]. f_equal; lia.
Qed.

(** ** Well-formed fifos and their contents *)

Record fifo_ok (f : kfifo) : Prop := {
  ok_pow : ∃ k, 1 ≤ k ≤ 31 ∧ fifo_mask f = 2 ^ k - 1;
  ok_esize : 1 ≤ fifo_esize f;
  ok_bytes : (fifo_mask f + 1) * fifo_esize f < 2 ^ 32;
  ok_data : Z.of_nat (length (fifo_data f)) = (fifo_mask f + 1) * fifo_esize f;
  ok_in : in_width 32 (fifo_in f);
  ok_out : in_width 32 (fifo_out f);
  ok_len : wrap 32 (fifo_in f - fifo_out f) ≤ fifo_mask f + 1
}.

(** The number of elements, and their bytes in the order in which they were put in. *)
Definition kfifo_len (f : kfifo) : Z := wrap 32 (fifo_in f - fifo_out f).
Definition contents (f : kfifo) : list Z :=
  ring (fifo_data f) (fifo_out f * fifo_esize f) (Z.to_nat (kfifo_len f * fifo_esize f)).

Lemma mask_pos f : fifo_ok f → 2 ≤ fifo_mask f + 1 ≤ 2 ^ 31.
Proof.
  intros Hok. destruct (ok_pow f Hok) as (k & Hk & ->). split.
  - pose proof (Z.pow_le_mono_r 2 1 k). lia.
  - pose proof (Z.pow_le_mono_r 2 k 31). lia.
Qed.

(** The counters run modulo a multiple of the ring. *)
Lemma ring_divides f : fifo_ok f → (fifo_mask f + 1 | 2 ^ 32).
Proof.
  intros Hok. destruct (ok_pow f Hok) as (k & Hk & ->). exists (2 ^ (32 - k)).
  replace (2 ^ k - 1 + 1) with (2 ^ k) by lia. rewrite <- Z.pow_add_r by lia. f_equal. lia.
Qed.

Lemma kfifo_len_range f : fifo_ok f → 0 ≤ kfifo_len f ≤ fifo_mask f + 1.
Proof. intros Hok. split; [apply (in_width_wrap 32); lia|by apply ok_len]. Qed.

Lemma contents_length f : fifo_ok f → Z.of_nat (length (contents f)) = kfifo_len f * fifo_esize f.
Proof.
  intros Hok. rw ring_length. pose proof (kfifo_len_range f Hok). pose proof (ok_esize f Hok). nia.
Qed.

Lemma kfifo_unused_spec f : fifo_ok f → kfifo_unused f = fifo_mask f + 1 - kfifo_len f.
Proof.
  intros Hok. pose proof (mask_pos f Hok). pose proof (kfifo_len_range f Hok). rw /kfifo_unused -/(kfifo_len f).
  rw (wrap_small 32 (fifo_mask f + 1)); [|split; lia]. apply wrap_small. split; lia.
Qed.

(** Positions of the ring: the counters may be taken without reduction. *)
Lemma counter_position f n m :
  fifo_ok f → wrap 32 n = wrap 32 m →
  (n * fifo_esize f) mod Z.of_nat (length (fifo_data f)) = (m * fifo_esize f) mod Z.of_nat (length (fifo_data f)).
Proof.
  intros Hok H. pose proof (mask_pos f Hok). pose proof (ok_esize f Hok). rw ok_data //.
  rw !Zmult_mod_distr_r. f_equal. destruct (ring_divides f Hok) as [q Hq].
  assert (∀ x, x mod (fifo_mask f + 1) = wrap 32 x mod (fifo_mask f + 1)) as E.
  { intros x. symmetry. apply Z.mod_mod_divide. by exists q. }
  by rw (E n) (E m) H.
Qed.

Lemma ring_counter f d n m c :
  fifo_ok f → length d = length (fifo_data f) → wrap 32 n = wrap 32 m →
  ring d (n * fifo_esize f) c = ring d (m * fifo_esize f) c.
Proof. intros Hok Hd H. apply ring_mod. rw Hd. by apply counter_position. Qed.

Lemma wrap_counter f n : wrap 32 (wrap 32 (fifo_in f + n) - fifo_out f) = wrap 32 (kfifo_len f + n).
Proof. rw /kfifo_len /wrap Zminus_mod_idemp_l Zplus_mod_idemp_l. f_equal. lia. Qed.

Lemma in_position f : fifo_ok f → wrap 32 (fifo_out f + kfifo_len f) = wrap 32 (fifo_in f).
Proof. intros Hok. rw /kfifo_len /wrap Zplus_mod_idemp_r. f_equal. lia. Qed.

(** Advancing [in] over complete elements that were stored there. *)
Lemma append_ok f d' bs n :
  fifo_ok f → stored (fifo_data f) d' (fifo_in f * fifo_esize f) bs →
  Z.of_nat (length bs) ≤ (fifo_mask f + 1 - kfifo_len f) * fifo_esize f →
  0 ≤ n → n * fifo_esize f ≤ Z.of_nat (length bs) →
  let f' := set_in (wrap 32 (fifo_in f + n)) (set_data d' f) in
  fifo_ok f' ∧ kfifo_len f' = kfifo_len f + n ∧
  contents f' = contents f ++ take (Z.to_nat (n * fifo_esize f)) bs.
Proof.
  intros Hok Hst Hbs Hn Hnb f'. pose proof (kfifo_len_range f Hok) as Hl. pose proof (ok_esize f Hok) as He.
  pose proof (mask_pos f Hok) as Hm. pose proof (ok_data f Hok) as Hd. destruct (Hst) as [Hlen _].
  assert (n ≤ fifo_mask f + 1 - kfifo_len f) as Hroom by (apply (Z.mul_le_mono_pos_r _ _ (fifo_esize f)); lia).
  assert (kfifo_len f' = kfifo_len f + n) as Hl'.
  { rw /f' {1}/kfifo_len /=. rw wrap_counter. apply wrap_small. split; lia. }
  assert (0 ≤ kfifo_len f * fifo_esize f) by (apply Z.mul_nonneg_nonneg; lia).
  assert (0 ≤ n * fifo_esize f) by (apply Z.mul_nonneg_nonneg; lia). split_and!; [|done|].
  - split; cbn; try apply Hok; [by rw Hlen|by apply in_width_wrap|].
    change (wrap 32 (wrap 32 (fifo_in f + n) - fifo_out f)) with (kfifo_len f'). lia.
  - rw {1}/contents Hl' /=. rewrite -> Z.mul_add_distr_r, Z2Nat.inj_add by done. rw ring_app.
    assert (length bs ≤ length (fifo_data f))%nat as Hfit by nia. f_equal.
    + pose proof (stored_before _ _ _ _ (Z.to_nat (kfifo_len f * fifo_esize f)) Hst ltac:(nia)) as E.
      rw Z2Nat.id // -Z.mul_sub_distr_r in E.
      assert (wrap 32 (fifo_in f - kfifo_len f) = wrap 32 (fifo_out f)) as Ew.
      { rw /kfifo_len /wrap Zminus_mod_idemp_r. f_equal. lia. }
      by rw !(ring_counter f _ (fifo_in f - kfifo_len f) (fifo_out f)) in E.
    + rw Z2Nat.id //. rewrite <- Z.mul_add_distr_r. rw (ring_counter f d' _ (fifo_in f)); [|done|done|by apply in_position].
      rewrite <- (ring_take d' _ _ (length bs)) by lia. by rw (stored_bytes _ _ _ _ Hst).
Qed.

(** Advancing [out] over elements. *)
Lemma consume_ok f n :
  fifo_ok f → 0 ≤ n ≤ kfifo_len f →
  let f' := set_out (wrap 32 (fifo_out f + n)) f in
  fifo_ok f' ∧ kfifo_len f' = kfifo_len f - n ∧ contents f' = drop (Z.to_nat (n * fifo_esize f)) (contents f).
Proof.
  intros Hok Hn f'. pose proof (kfifo_len_range f Hok) as Hl. pose proof (ok_esize f Hok) as He. pose proof (mask_pos f Hok) as Hm.
  assert (kfifo_len f' = kfifo_len f - n) as Hl'.
  { rw /f' {1}/kfifo_len /=. rewrite <- (wrap_small 32 (kfifo_len f - n)); [|split; lia].
    rw /kfifo_len /wrap Zminus_mod_idemp_r Zminus_mod_idemp_l. f_equal. lia. }
  assert (0 ≤ n * fifo_esize f) by (apply Z.mul_nonneg_nonneg; lia).
  assert (0 ≤ (kfifo_len f - n) * fifo_esize f) by (apply Z.mul_nonneg_nonneg; lia). split_and!; [|done|].
  - split; cbn; try apply Hok; [by apply in_width_wrap|].
    change (wrap 32 (fifo_in f - wrap 32 (fifo_out f + n))) with (kfifo_len f'). lia.
  - rw /contents Hl' /=. replace (kfifo_len f) with (n + (kfifo_len f - n)) at 2 by lia.
    rewrite -> Z.mul_add_distr_r, Z2Nat.inj_add by done. rw ring_app drop_app_length'; [|by rw ring_length].
    rw Z2Nat.id // -Z.mul_add_distr_r. apply ring_counter; [done|done|]. by rw /wrap Zmod_mod.
Qed.

(** ** The copies *)

Lemma ring_span_spec f len off :
  fifo_ok f → 0 ≤ len ≤ fifo_mask f + 1 →
  ring_span f len off =
    ((off * fifo_esize f) mod Z.of_nat (length (fifo_data f)), Z.of_nat (length (fifo_data f)), len * fifo_esize f).
Proof.
  intros Hok Hlen. pose proof (mask_pos f Hok) as Hm. pose proof (ok_esize f Hok) as He. pose proof (ok_bytes f Hok) as Hb.
  rw (ok_data f Hok) /ring_span Zmult_mod_distr_r. rw (wrap_small 32 (fifo_mask f + 1)); [|split; lia].
  assert (Z.land off (fifo_mask f) = off mod (fifo_mask f + 1)) as ->.
  { destruct (ok_pow f Hok) as (k & Hk & E). rw E.
    replace (2 ^ k - 1 + 1) with (2 ^ k) by lia. replace (2 ^ k - 1) with (Z.ones k) by (rw Z.ones_equiv; lia).
    apply Z.land_ones. lia. }
  pose proof (Z.mod_pos_bound off (fifo_mask f + 1) ltac:(lia)) as Ho.
  destruct (Z.eqb_spec (fifo_esize f) 1) as [->|]; [by rw !Z.mul_1_r|].
  rw !(wrap_small 32) //; split; nia.
Qed.

Lemma kfifo_copy_in_ok f src len off :
  fifo_ok f → 0 ≤ len ≤ fifo_mask f + 1 → len * fifo_esize f ≤ Z.of_nat (length src) →
  ∃ d', kfifo_copy_in f src len off = Some (set_data d' f) ∧
    stored (fifo_data f) d' (off * fifo_esize f) (take (Z.to_nat (len * fifo_esize f)) src).
Proof.
  intros Hok Hlen Hsrc. pose proof (mask_pos f Hok) as Hm. pose proof (ok_esize f Hok) as He. pose proof (ok_bytes f Hok) as Hb.
  pose proof (ok_data f Hok) as Hd. rw /kfifo_copy_in ring_span_spec //. set (B := Z.of_nat (length (fifo_data f))) in *.
  pose proof (Z.mod_pos_bound (off * fifo_esize f) B ltac:(nia)) as Ho. set (o := (off * fifo_esize f) mod B) in *.
  assert (0 ≤ len * fifo_esize f ≤ B) as HL by nia.
  rw (wrap_small 32 (B - o)); [|split; lia]. rw (wrap_small 32 (_ - _)); [|split; lia].
  destruct (ring_store (fifo_data f) src o (len * fifo_esize f)) as (d1 & d2 & E1 & E2 & Hl2 & Hr); [done..|].
  fold B in E1, E2. rw E1. cbn [mbind option_bind]. rw E2. exists d2. split; [done|]. split; [done|].
  assert (length (take (Z.to_nat (len * fifo_esize f)) src) = Z.to_nat (len * fifo_esize f)) as -> by (rw length_take; lia).
  rw Z2Nat.id; [|lia]. rw (ring_mod d2 _ o); [|rw Hl2; fold B; rw /o; by rw Zmod_mod]. rw Hr. f_equal. apply ring_mod. fold B.
  rw /o. by rw Zplus_mod_idemp_l.
Qed.

Lemma kfifo_copy_out_ok f dst len off :
  fifo_ok f → 0 ≤ len ≤ fifo_mask f + 1 → len * fifo_esize f ≤ Z.of_nat (length dst) →
  kfifo_copy_out f dst len off =
    Some (ring (fifo_data f) (off * fifo_esize f) (Z.to_nat (len * fifo_esize f)) ++ drop (Z.to_nat (len * fifo_esize f)) dst).
Proof.
  intros Hok Hlen Hdst. pose proof (mask_pos f Hok) as Hm. pose proof (ok_esize f Hok) as He. pose proof (ok_bytes f Hok) as Hb.
  pose proof (ok_data f Hok) as Hd. rw /kfifo_copy_out ring_span_spec //. set (B := Z.of_nat (length (fifo_data f))) in *.
  pose proof (Z.mod_pos_bound (off * fifo_esize f) B ltac:(nia)) as Ho. set (o := (off * fifo_esize f) mod B) in *.
  assert (0 ≤ len * fifo_esize f ≤ B) as HL by nia.
  rw (wrap_small 32 (B - o)); [|split; lia]. rw (wrap_small 32 (_ - _)); [|split; lia].
  destruct (ring_load (fifo_data f) dst o (len * fifo_esize f)) as (d1 & E1 & E2); [done..|].
  fold B in E1, E2. rw E1. cbn [mbind option_bind]. rw E2. do 2 f_equal. apply ring_mod. fold B. rw /o. by rw Zmod_mod.
Qed.

(** ** Creating *)

Lemma is_power_of_2_spec n : 0 < n < 2 ^ 64 → is_power_of_2 n = true → ∃ k, 0 ≤ k ∧ n = 2 ^ k.
Proof.
  intros Hn. rw /is_power_of_2. rw (wrap_small 64); [|split; lia]. intros H. zbool.
  set (k := Z.log2 n). exists k. split; [apply Z.log2_nonneg|].
  pose proof (Z.log2_spec n ltac:(lia)) as Hk. fold k in Hk. destruct (Z.eq_dec n (2 ^ k)) as [|Hne]; [done|].
  exfalso. assert (Z.testbit (Z.land n (n - 1)) k = true) as Hb; [|by rw H0 Z.bits_0 in Hb].
  assert (Z.log2 (n - 1) = k) as E by (apply Z.log2_unique; [apply Z.log2_nonneg|lia]).
  rw Z.land_spec. rw {1}/k Z.bit_log2 //; [|lia]. rewrite <- E. apply Z.bit_log2.
  pose proof (pow2_pos k (Z.log2_nonneg n)). lia.
Qed.

Lemma ring_size_spec size :
  0 < size < 2 ^ 32 → ∃ k, 0 ≤ k ≤ 31 ∧ ring_size size = Some (2 ^ k) ∧ 2 ^ k ≤ size < 2 * 2 ^ k.
Proof.
  intros Hs. rw /ring_size. destruct (is_power_of_2 size) eqn:E.
  - destruct (is_power_of_2_spec size ltac:(lia) E) as (k & Hk & ->). exists k. split_and!; [done| |done|lia|lia].
    destruct (Z.le_gt_cases k 31); [done|]. pose proof (Z.pow_le_mono_r 2 32 k). lia.
  - rw /__rounddown_pow_of_two /fls64. ztest.
    destruct (fls64_spec size) as [(Hh0 & Hh1 & Hh2) Hlt]; [split; lia|lia|]. set (k := __fls size) in *.
    assert (k = Z.log2 size) as Ek.
    { pose proof (Z.bit_log2 size ltac:(lia)) as Hb. pose proof (Z.log2_nonneg size).
      destruct (Z.lt_trichotomy k (Z.log2 size)) as [Hc|[|Hc]]; [|done|].
      - rw Hh2 in Hb; [done|lia].
      - by rw Z.bits_above_log2 in Hh1; [|lia|lia]. }
    pose proof (Z.log2_spec size ltac:(lia)) as Hk. rewrite <- Ek in Hk. rw Z.pow_succ_r in Hk; [|done].
    assert (k ≤ 31) as Hk31 by (destruct (Z.le_gt_cases k 31); [done|]; pose proof (Z.pow_le_mono_r 2 32 k); lia).
    exists k. ztest. cbn [mbind option_bind]. split_and!; [lia|lia| |lia|lia]. f_equal. rw /bshl Z.shiftl_1_l Z.land_ones; [|lia].
    replace (k + 1 - 1) with k by lia. rw Z.mod_small; [|pose proof (Z.pow_le_mono_r 2 k 31); lia].
    apply wrap_small. split; pose proof (Z.pow_le_mono_r 2 k 31); lia.
Qed.

(** A fifo of [size] elements rounded down to a power of two is created empty. *)
Lemma kfifo_alloc_ok kmalloc size esize :
  2 ≤ size < 2 ^ 32 → 1 ≤ esize → size * esize < 2 ^ 32 →
  (∀ n d, kmalloc n = Some d → Z.of_nat (length d) = n) →
  ∃ r f, __kfifo_alloc kmalloc size esize = Some (r, f) ∧
    (r = - ENOMEM ∨ r = 0 ∧ fifo_ok f ∧ contents f = [] ∧ fifo_esize f = esize ∧
     fifo_mask f + 1 ≤ size < 2 * (fifo_mask f + 1)).
Proof.
  intros Hs He Hb Hk. destruct (ring_size_spec size ltac:(lia)) as (k & Hk1 & Hr & Hk2). rw /__kfifo_alloc Hr.
  cbn [mbind option_bind]. assert (2 ≤ 2 ^ k) as H2.
  { destruct (Z.eq_dec k 0) as [->|]; [lia|]. pose proof (Z.pow_le_mono_r 2 1 k). lia. }
  assert (2 ^ k ≤ 2 ^ 31) by (apply Z.pow_le_mono_r; lia). ztest.
  destruct (kmalloc _) as [d|] eqn:E; [|do 2 eexists; split; [done|by left]].
  do 2 eexists. split; [done|right]. apply Hk in E.
  assert (2 ^ k * esize ≤ size * esize) by (apply Z.mul_le_mono_nonneg_r; lia).
  assert (0 < 2 ^ k * esize) by (apply Z.mul_pos_pos; lia).
  rw wrap_small in E; [|split; lia]. assert (esize < 2 ^ 32) by nia.
  rw !(wrap_small 32); [|split; lia..]. split_and!; [done| |done|done|cbn; lia|cbn; lia]. split; cbn.
  - exists k. split; [|done]. destruct (Z.eq_dec k 0) as [->|]; [lia|lia].
  - done.
  - replace (2 ^ k - 1 + 1) with (2 ^ k) by lia. lia.
  - replace (2 ^ k - 1 + 1) with (2 ^ k) by lia. done.
  - by apply in_width_0.
  - by apply in_width_0.
  - change (wrap 32 (0 - 0)) with 0. lia.
Qed.

(** ** The queue *)

Lemma kfifo_in_ok f buf len :
  fifo_ok f → 0 ≤ len → len * fifo_esize f ≤ Z.of_nat (length buf) →
  let n := Z.min len (fifo_mask f + 1 - kfifo_len f) in
  ∃ f', __kfifo_in f buf len = Some (n, f') ∧ fifo_ok f' ∧ fifo_mask f' = fifo_mask f ∧ fifo_esize f' = fifo_esize f ∧
    contents f' = contents f ++ take (Z.to_nat (n * fifo_esize f)) buf.
Proof.
  intros Hok Hlen Hbuf n. pose proof (kfifo_len_range f Hok) as Hl. pose proof (ok_esize f Hok) as He.
  rw /__kfifo_in kfifo_unused_spec //. assert ((if _ <? len then _ else len) = n) as -> by (case_if; lia).
  assert (n * fifo_esize f ≤ len * fifo_esize f) as Hn by (apply Z.mul_le_mono_nonneg_r; lia).
  destruct (kfifo_copy_in_ok f buf n (fifo_in f)) as (d' & E & Hst); [done|lia|lia|]. rw E. cbn [mbind option_bind].
  assert (length (take (Z.to_nat (n * fifo_esize f)) buf) = Z.to_nat (n * fifo_esize f)) as Ht by (rw length_take; lia).
  assert (0 ≤ n * fifo_esize f) by (apply Z.mul_nonneg_nonneg; lia).
  destruct (append_ok f d' _ n Hok Hst) as (Hok' & _ & Hc); [rw Ht; nia|lia|lia|].
  eexists. split; [done|]. split_and!; [done|done|done|]. rw Hc. f_equal. by rw take_take Nat.min_id.
Qed.

Lemma kfifo_out_ok f buf len :
  fifo_ok f → 0 ≤ len → len * fifo_esize f ≤ Z.of_nat (length buf) →
  let n := Z.min len (kfifo_len f) in
  let buf' := take (Z.to_nat (n * fifo_esize f)) (contents f) ++ drop (Z.to_nat (n * fifo_esize f)) buf in
  ∃ f', __kfifo_out_peek f buf len = Some (n, buf') ∧ __kfifo_out f buf len = Some (n, buf', f') ∧
    fifo_ok f' ∧ fifo_mask f' = fifo_mask f ∧ fifo_esize f' = fifo_esize f ∧
    contents f' = drop (Z.to_nat (n * fifo_esize f)) (contents f).
Proof.
  intros Hok Hlen Hbuf n buf'. pose proof (kfifo_len_range f Hok) as Hl. pose proof (ok_esize f Hok) as He.
  assert (n * fifo_esize f ≤ len * fifo_esize f) as Hn by (apply Z.mul_le_mono_nonneg_r; lia).
  assert (n * fifo_esize f ≤ kfifo_len f * fifo_esize f) as Hn' by (apply Z.mul_le_mono_nonneg_r; lia).
  assert (__kfifo_out_peek f buf len = Some (n, buf')) as E.
  { rw /__kfifo_out_peek -/(kfifo_len f). assert ((if _ <? len then _ else len) = n) as -> by (case_if; lia).
    rw kfifo_copy_out_ok //; [|lia|lia]. cbn [mbind option_bind]. rw /buf' /contents ring_take //. lia. }
  destruct (consume_ok f n Hok ltac:(lia)) as (Hok' & _ & Hc).
  eexists. split; [done|]. rw /__kfifo_out E. cbn [mbind option_bind]. split; [done|]. done.
Qed.

(** C29: A fifo is a bounded queue of elements.  Putting [len] elements stores as many of them as there is room for
    behind the contents and returns their number; taking out [len] elements moves as many as there are from the
    front of the contents into the caller's buffer; peeking moves nothing.  The capacity is unchanged; this holds
    wherever the ring and the 32-bit counters wrap around. *)
Theorem kfifo_refines_queue f buf len :
  fifo_ok f → 0 ≤ len → len * fifo_esize f ≤ Z.of_nat (length buf) →
  let bytes n := Z.to_nat (n * fifo_esize f) in
  let put := Z.min len (fifo_mask f + 1 - kfifo_len f) in
  let got := Z.min len (kfifo_len f) in
  let buf' := take (bytes got) (contents f) ++ drop (bytes got) buf in
  (∃ f', __kfifo_in f buf len = Some (put, f') ∧ fifo_ok f' ∧ fifo_mask f' = fifo_mask f ∧
     contents f' = contents f ++ take (bytes put) buf) ∧
  __kfifo_out_peek f buf len = Some (got, buf') ∧
  (∃ f', __kfifo_out f buf len = Some (got, buf', f') ∧ fifo_ok f' ∧ fifo_mask f' = fifo_mask f ∧
     contents f' = drop (bytes got) (contents f)).
Proof.
  intros Hok Hl Hb bytes put got buf'. destruct (kfifo_in_ok f buf len Hok Hl Hb) as (f1 & E1 & H1 & M1 & _ & C1).
  destruct (kfifo_out_ok f buf len Hok Hl Hb) as (f2 & E2 & E3 & H2 & M2 & _ & C2).
  split; [by exists f1|]. split; [done|by exists f2].
Qed.

(** A fifo of four two-byte elements whose counters are about to wrap around. *)
Definition demo_fifo : kfifo :=
  {| fifo_in := 1; fifo_out := 2 ^ 32 - 2; fifo_mask := 3; fifo_esize := 2; fifo_data := [5; 6; 9; 9; 1; 2; 3; 4] |}.

Lemma demo_fifo_ok : fifo_ok demo_fifo.
Proof. split; try (cbn; lia); [by exists 2|split; vm_compute; congruence..|vm_compute; congruence]. Qed.

Lemma kfifo_refines_queue_witness :
  contents demo_fifo = [1; 2; 3; 4; 5; 6] ∧
  (∃ f', __kfifo_in demo_fifo [7; 8; 9; 10] 2 = Some (1, f') ∧ fifo_ok f' ∧ fifo_mask f' = 3 ∧
     contents f' = [1; 2; 3; 4; 5; 6; 7; 8]).
Proof.
  split; [reflexivity|]. destruct (kfifo_refines_queue demo_fifo [7; 8; 9; 10] 2 demo_fifo_ok) as [H _];
    [discriminate|vm_compute; discriminate|exact H].
Defined.
