(* ===== verification/KfifoLockless.v ===== *)
(** * One reader and one writer without a lock (include/linux/kfifo.h, kernel/kfifo.c)

    The comment of include/linux/kfifo.h promises that one reader and one writer need no locking.  Here [__kfifo_in]
    and [__kfifo_out] are cut at their accesses to the counters: each side first looks at the other side's counter,
    then copies, then publishes its own counter, and the steps of the two sides interleave freely.  (The write
    barriers of the code keep the copy before the publication.) *)
From S2P Require Import Prelude Kfifo KfifoSpec.

(** ** The steps *)

(** Where the writer is: it has computed how many elements fit, or has copied them. *)
Inductive writer :=
| W_idle
| W_room (buf : list Z) (len : Z)
| W_copied (buf : list Z) (len : Z).

Inductive reader :=
| R_idle
| R_avail (dst : list Z) (len : Z)
| R_copied (dst : list Z) (len : Z).

(** The fifo, the two sides, and what was put in and taken out so far. *)
Record channel := { ch_fifo : kfifo; ch_w : writer; ch_r : reader; ch_put : list Z; ch_got : list Z }.

(** [__kfifo_in] from its first access to the fifo to the copy. *)
Definition in_room (f : kfifo) (len : Z) : Z := let l := kfifo_unused f in if l <? len then l else len.
Definition in_publish (f : kfifo) (len : Z) : kfifo := set_in (wrap 32 (fifo_in f + len)) f.

Definition out_avail (f : kfifo) (len : Z) : Z :=
  let l := wrap 32 (fifo_in f - fifo_out f) in if l <? len then l else len.
Definition out_publish (f : kfifo) (len : Z) : kfifo := set_out (wrap 32 (fifo_out f + len)) f.

(** The operations are these steps one after the other. *)
Lemma in_steps f buf len :
  __kfifo_in f buf len =
    (f' ← kfifo_copy_in f buf (in_room f len) (fifo_in f); Some (in_room f len, in_publish f' (in_room f len))).
Proof. done. Qed.

Lemma out_steps f buf len :
  __kfifo_out f buf len =
    (buf' ← kfifo_copy_out f buf (out_avail f len) (fifo_out f);
     Some (out_avail f len, buf', out_publish f (out_avail f len))).
Proof. rw /__kfifo_out /__kfifo_out_peek -/(out_avail f len). by destruct (kfifo_copy_out _ _ _ _). Qed.

Inductive channel_step : channel → channel → Prop :=
| Step_in_room f r p g buf len :
    0 ≤ len → len * fifo_esize f ≤ Z.of_nat (length buf) →
    channel_step {| ch_fifo := f; ch_w := W_idle; ch_r := r; ch_put := p; ch_got := g |}
      {| ch_fifo := f; ch_w := W_room buf (in_room f len); ch_r := r; ch_put := p; ch_got := g |}
| Step_in_copy f f' r p g buf len :
    kfifo_copy_in f buf len (fifo_in f) = Some f' →
    channel_step {| ch_fifo := f; ch_w := W_room buf len; ch_r := r; ch_put := p; ch_got := g |}
      {| ch_fifo := f'; ch_w := W_copied buf len; ch_r := r; ch_put := p; ch_got := g |}
| Step_in_publish f r p g buf len :
    channel_step {| ch_fifo := f; ch_w := W_copied buf len; ch_r := r; ch_put := p; ch_got := g |}
      {| ch_fifo := in_publish f len; ch_w := W_idle; ch_r := r;
         ch_put := p ++ take (Z.to_nat (len * fifo_esize f)) buf; ch_got := g |}
| Step_out_avail f w p g dst len :
    0 ≤ len → len * fifo_esize f ≤ Z.of_nat (length dst) →
    channel_step {| ch_fifo := f; ch_w := w; ch_r := R_idle; ch_put := p; ch_got := g |}
      {| ch_fifo := f; ch_w := w; ch_r := R_avail dst (out_avail f len); ch_put := p; ch_got := g |}
| Step_out_copy f w p g dst dst' len :
    kfifo_copy_out f dst len (fifo_out f) = Some dst' →
    channel_step {| ch_fifo := f; ch_w := w; ch_r := R_avail dst len; ch_put := p; ch_got := g |}
      {| ch_fifo := f; ch_w := w; ch_r := R_copied dst' len; ch_put := p; ch_got := g |}
| Step_out_publish f w p g dst len :
    channel_step {| ch_fifo := f; ch_w := w; ch_r := R_copied dst len; ch_put := p; ch_got := g |}
      {| ch_fifo := out_publish f len; ch_w := w; ch_r := R_idle; ch_put := p;
         ch_got := g ++ take (Z.to_nat (len * fifo_esize f)) dst |}.

Definition channel_init (c : channel) : Prop :=
  fifo_ok (ch_fifo c) ∧ ch_w c = W_idle ∧ ch_r c = R_idle ∧ ch_got c = [] ∧ ch_put c = contents (ch_fifo c).

Definition channel_reachable (c : channel) : Prop := ∃ c0, channel_init c0 ∧ rtc channel_step c0 c.

(** ** The invariant *)

(** What the writer knows: its elements fit, whatever the reader does. *)
Definition writer_ok (f : kfifo) (w : writer) : Prop :=
  match w with
  | W_idle => True
  | W_room buf len =>
      0 ≤ len ≤ fifo_mask f + 1 - kfifo_len f ∧ len * fifo_esize f ≤ Z.of_nat (length buf)
  | W_copied buf len =>
      0 ≤ len ≤ fifo_mask f + 1 - kfifo_len f ∧ len * fifo_esize f ≤ Z.of_nat (length buf) ∧
      ring (fifo_data f) (fifo_in f * fifo_esize f) (Z.to_nat (len * fifo_esize f)) =
        take (Z.to_nat (len * fifo_esize f)) buf
  end.

(** What the reader knows: its elements are there, whatever the writer does. *)
Definition reader_ok (f : kfifo) (r : reader) : Prop :=
  match r with
  | R_idle => True
  | R_avail dst len => 0 ≤ len ≤ kfifo_len f ∧ len * fifo_esize f ≤ Z.of_nat (length dst)
  | R_copied dst len =>
      0 ≤ len ≤ kfifo_len f ∧
      take (Z.to_nat (len * fifo_esize f)) dst = take (Z.to_nat (len * fifo_esize f)) (contents f)
  end.

Definition channel_ok (c : channel) : Prop :=
  fifo_ok (ch_fifo c) ∧ writer_ok (ch_fifo c) (ch_w c) ∧ reader_ok (ch_fifo c) (ch_r c) ∧
  ch_put c = ch_got c ++ contents (ch_fifo c).

(** Contents that only grow at the end keep what the reader knows. *)
Lemma reader_ok_mono f f' r l :
  fifo_ok f → fifo_esize f' = fifo_esize f → kfifo_len f ≤ kfifo_len f' → contents f' = contents f ++ l →
  reader_ok f r → reader_ok f' r.
Proof.
  intros Hok He Hl Hc. destruct r as [|dst len|dst len]; cbn; [done| |]; rw He; intros [H1 H2]; (split; [lia|]); [done|].
  pose proof (contents_length f Hok). pose proof (ok_esize f Hok).
  assert (len * fifo_esize f ≤ kfifo_len f * fifo_esize f) by (apply Z.mul_le_mono_nonneg_r; lia).
  rw Hc take_app_le //. lia.
Qed.

(** Storing in the free part of the ring leaves the contents alone. *)
Lemma stored_free f d' bs :
  fifo_ok f → stored (fifo_data f) d' (fifo_in f * fifo_esize f) bs →
  Z.of_nat (length bs) ≤ (fifo_mask f + 1 - kfifo_len f) * fifo_esize f →
  fifo_ok (set_data d' f) ∧ contents (set_data d' f) = contents f.
Proof.
  intros Hok Hst Hb. pose proof (ok_esize f Hok). destruct (append_ok f d' bs 0 Hok Hst Hb) as (Ho & _ & Hc); [lia|lia|].
  rw Z.mul_0_l take_0 app_nil_r Z.add_0_r in Hc Ho. pose proof (ok_in f Hok) as Hin. rw (wrap_small 32) // in Hc Ho.
Qed.

Lemma step_in_copy_ok f f' buf len r :
  fifo_ok f → writer_ok f (W_room buf len) → reader_ok f r → kfifo_copy_in f buf len (fifo_in f) = Some f' →
  fifo_ok f' ∧ writer_ok f' (W_copied buf len) ∧ reader_ok f' r ∧ contents f' = contents f.
Proof.
  intros Hok [Hl Hb] Hr E. pose proof (ok_esize f Hok). pose proof (kfifo_len_range f Hok).
  destruct (kfifo_copy_in_ok f buf len (fifo_in f)) as (d' & E' & Hst); [done|lia|done|]. rw E in E'. injection E' as ->.
  assert (length (take (Z.to_nat (len * fifo_esize f)) buf) = Z.to_nat (len * fifo_esize f)) as Ht by (rw length_take; lia).
  assert (0 ≤ len * fifo_esize f) by (apply Z.mul_nonneg_nonneg; lia).
  assert (len * fifo_esize f ≤ (fifo_mask f + 1 - kfifo_len f) * fifo_esize f) by (apply Z.mul_le_mono_nonneg_r; lia).
  destruct (stored_free f d' _ Hok Hst) as [Ho Hc]; [rw Ht; lia|]. split_and!; [done| | |done].
  - cbn. split_and!; [lia|exact (proj2 Hl)|done|]. rewrite <- Ht at 1. apply stored_bytes with (fifo_data f); [done|].
    pose proof (ok_data f Hok). assert (0 ≤ kfifo_len f * fifo_esize f) by (apply Z.mul_nonneg_nonneg; lia). lia.
  - apply (reader_ok_mono f _ r []); [done|done|done|by rw app_nil_r|done].
Qed.

Lemma step_in_publish_ok f buf len r :
  fifo_ok f → writer_ok f (W_copied buf len) → reader_ok f r →
  fifo_ok (in_publish f len) ∧ reader_ok (in_publish f len) r ∧
  contents (in_publish f len) = contents f ++ take (Z.to_nat (len * fifo_esize f)) buf.
Proof.
  intros Hok (Hl & Hb & Hring) Hr. pose proof (ok_esize f Hok). pose proof (ok_data f Hok). pose proof (kfifo_len_range f Hok).
  assert (0 ≤ len * fifo_esize f) by (apply Z.mul_nonneg_nonneg; lia).
  assert (len * fifo_esize f ≤ (fifo_mask f + 1 - kfifo_len f) * fifo_esize f) by (apply Z.mul_le_mono_nonneg_r; lia).
  assert (0 ≤ kfifo_len f * fifo_esize f) by (apply Z.mul_nonneg_nonneg; lia).
  set (bs := take _ buf) in *. assert (length bs = Z.to_nat (len * fifo_esize f)) as Ht by (rw /bs length_take; lia).
  assert (stored (fifo_data f) (fifo_data f) (fifo_in f * fifo_esize f) bs) as Hst.
  { split; [done|]. rewrite <- Hring at 1. rewrite <- Ht. apply ring_split. lia. }
  destruct (append_ok f (fifo_data f) bs len Hok Hst) as (Ho & Hn & Hc); [lia|lia|lia|].
  assert (set_in (wrap 32 (fifo_in f + len)) (set_data (fifo_data f) f) = in_publish f len) as E by done.
  rw E in Ho Hn Hc. rewrite <- Ht in Hc. rw firstn_all in Hc.
  split_and!; [done| |done]. apply (reader_ok_mono f _ r bs); [done|done|rw Hn; lia|done|done].
Qed.

Lemma step_out_copy_ok f dst dst' len :
  fifo_ok f → reader_ok f (R_avail dst len) → kfifo_copy_out f dst len (fifo_out f) = Some dst' →
  reader_ok f (R_copied dst' len).
Proof.
  intros Hok [Hl Hb]. pose proof (ok_esize f Hok). pose proof (kfifo_len_range f Hok).
  rw kfifo_copy_out_ok //; [|lia]. intros [= <-]. split; [done|].
  assert (len * fifo_esize f ≤ kfifo_len f * fifo_esize f) by (apply Z.mul_le_mono_nonneg_r; lia).
  rw take_app_length'; [|by rw ring_length]. by rw /contents ring_take; [|lia].
Qed.

Lemma step_out_publish_ok f dst len w :
  fifo_ok f → reader_ok f (R_copied dst len) → writer_ok f w →
  fifo_ok (out_publish f len) ∧ writer_ok (out_publish f len) w ∧
  contents f = take (Z.to_nat (len * fifo_esize f)) dst ++ contents (out_publish f len).
Proof.
  intros Hok [Hl Ht] Hw. destruct (consume_ok f len Hok Hl) as (Ho & Hn & Hc). fold (out_publish f len) in Ho, Hn, Hc.
  split_and!; [done| |by rw Hc Ht take_drop]. destruct w as [|buf n|buf n]; cbn in *; [done| |].
  - destruct Hw as [H1 H2]. rw Hn. split; [lia|done].
  - destruct Hw as (H1 & H2 & H3). rw Hn. split_and!; [lia|lia|done|done].
Qed.

Lemma channel_step_ok c c' : channel_ok c → channel_step c c' → channel_ok c'.
Proof.
  intros (Hok & Hw & Hr & Hp) Hs. destruct Hs; cbn in Hok, Hw, Hr, Hp; subst.
  - split_and!; [done| |done|done]. cbn. rw /in_room kfifo_unused_spec //. pose proof (kfifo_len_range f Hok).
    pose proof (ok_esize f Hok). case_if; split; try lia. nia.
  - destruct (step_in_copy_ok f f' buf len r) as (H1 & H2 & H3 & H4); [done..|]. split_and!; [done..|]. cbn. by rw H4.
  - destruct (step_in_publish_ok f buf len r) as (H1 & H2 & H3); [done..|]. split_and!; [done|done|done|]. cbn. by rw H3 app_assoc.
  - split_and!; [done|done| |done]. cbn. rw /out_avail -/(kfifo_len f). pose proof (kfifo_len_range f Hok).
    pose proof (ok_esize f Hok). case_if; split; try lia. nia.
  - split_and!; [done|done| |done]. by eapply step_out_copy_ok.
  - destruct (step_out_publish_ok f dst len w) as (H1 & H2 & H3); [done..|]. split_and!; [done|done|done|].
    cbn. by rw {1}H3 app_assoc.
Qed.

Lemma channel_reachable_ok c : channel_reachable c → channel_ok c.
Proof.
  intros (c0 & (H1 & H2 & H3 & H4 & H5) & Hr). assert (channel_ok c0) as H0.
  { split_and!; [done|by rw H2|by rw H3|by rw H4 H5]. }
  clear H1 H2 H3 H4 H5. induction Hr as [|c1 c2 c3 Hs _ IH]; [done|]. apply IH. by eapply channel_step_ok.
Qed.

(** C23: One reader and one writer need no lock: however their steps interleave, what was taken out followed by
    the contents of the fifo is what was put in, in order and without loss or duplication; no copy leaves the ring or
    the callers' buffers. *)
Theorem kfifo_lockless c :
  channel_reachable c →
  ch_put c = ch_got c ++ contents (ch_fifo c) ∧ fifo_ok (ch_fifo c) ∧
  (∀ buf len, ch_w c = W_room buf len → is_Some (kfifo_copy_in (ch_fifo c) buf len (fifo_in (ch_fifo c)))) ∧
  (∀ dst len, ch_r c = R_avail dst len → is_Some (kfifo_copy_out (ch_fifo c) dst len (fifo_out (ch_fifo c)))).
Proof.
  intros (Hok & Hw & Hr & Hp)%channel_reachable_ok. pose proof (kfifo_len_range _ Hok). split_and!; [done|done| |].
  - intros buf len E. rw E in Hw. destruct Hw as [H1 H2].
    destruct (kfifo_copy_in_ok (ch_fifo c) buf len (fifo_in (ch_fifo c))) as (d' & -> & _); [done|lia|done|by eexists].
  - intros dst len E. rw E in Hr. destruct Hr as [H1 H2]. rewrite -> kfifo_copy_out_ok by (done || lia). by eexists.
Qed.

(** The reader copies while the writer is between its copy and its publication. *)
Definition demo_channel : channel :=
  {| ch_fifo := demo_fifo; ch_w := W_idle; ch_r := R_idle; ch_put := [1; 2; 3; 4; 5; 6]; ch_got := [] |}.

Definition demo_interleaved : channel :=
  {| ch_fifo := {| fifo_in := 1; fifo_out := 0; fifo_mask := 3; fifo_esize := 2; fifo_data := [5; 6; 7; 8; 1; 2; 3; 4] |};
     ch_w := W_copied [7; 8; 9; 10] 1; ch_r := R_idle; ch_put := [1; 2; 3; 4; 5; 6]; ch_got := [1; 2; 3; 4] |}.

Lemma demo_interleaved_reachable : channel_reachable demo_interleaved.
Proof.
  exists demo_channel. split; [split_and!; [exact demo_fifo_ok|done..]|].
  eapply rtc_l; [apply (Step_out_avail demo_fifo W_idle _ _ [0; 0; 0; 0] 2); vm_compute; discriminate|].
  eapply rtc_l; [apply (Step_in_room demo_fifo _ _ _ [7; 8; 9; 10] 2); vm_compute; discriminate|].
  eapply rtc_l; [by apply Step_in_copy|]. eapply rtc_l; [by apply Step_out_copy|].
  eapply rtc_l; [apply Step_out_publish|]. apply rtc_refl.
Qed.

Lemma kfifo_lockless_witness :
  channel_reachable demo_interleaved ∧ ch_put demo_interleaved = ch_got demo_interleaved ++ contents (ch_fifo demo_interleaved).
Proof.
  split; [exact demo_interleaved_reachable|]. exact (proj1 (kfifo_lockless demo_interleaved demo_interleaved_reachable)).
Defined.
