(* ===== verification/KfifoRecords.v ===== *)
(** * Records and copies from user space (kernel/kfifo.c)

    A record fifo holds records of different lengths, each behind a length field of one or two bytes.  The operations on
    records implement a queue of records as long as the lengths fit the field.  Copies from user space can
    stop at any byte; only complete elements are added, but the count reported for a partial copy mixes bytes and
    elements. *)
From S2P Require Import Prelude Kfifo KfifoSpec.

(** ** Single bytes of the ring *)

Lemma ring_cons d o n : ring d o (S n) = rbyte d o :: ring d (o + 1) n.
Proof. rw (ring_app d o 1 n). cbn. by rw Z.add_0_r. Qed.

Lemma stored_mod d d' o o' bs :
  o mod Z.of_nat (length d) = o' mod Z.of_nat (length d) → stored d d' o bs → stored d d' o' bs.
Proof.
  intros Ho [Hl H]. split; [done|]. rw (ring_mod d' o' o); [|by rw Hl]. rw H. f_equal. apply ring_mod.
  rewrite <- (Zplus_mod_idemp_l o), <- (Zplus_mod_idemp_l o'). by rw Ho.
Qed.

Section bytes.
Context (f : kfifo) (Hok : fifo_ok f) (He : fifo_esize f = 1).

Lemma byte_position n : 0 ≤ Z.land n (fifo_mask f) < Z.of_nat (length (fifo_data f)) ∧
  Z.land n (fifo_mask f) = n mod Z.of_nat (length (fifo_data f)).
Proof using All.
  pose proof (mask_pos f Hok). pose proof (ok_data f Hok) as Hd. rw He Z.mul_1_r in Hd.
  assert (Z.land n (fifo_mask f) = n mod Z.of_nat (length (fifo_data f))) as E.
  { pose proof (ring_span_spec f 0 n Hok ltac:(lia)) as E. rw /ring_span He in E. cbn in E. rw Z.mul_1_r in E. by injection E. }
  split; [|done]. rw E. apply Z.mod_pos_bound. lia.
Qed.

Lemma rd_ring n : rd (fifo_data f) (Z.land n (fifo_mask f)) = Some (rbyte (fifo_data f) n).
Proof using All.
  destruct (byte_position n) as [H1 H2]. apply rd_Some. split; [lia|]. rw /rbyte -H2.
  destruct (lookup_lt_is_Some_2 (fifo_data f) (Z.to_nat (Z.land n (fifo_mask f)))) as [x Hx]; [lia|].
  by rw Hx (list_lookup_total_correct _ _ _ Hx).
Qed.

Lemma wr_ring n v :
  ∃ d', wr (fifo_data f) (Z.land n (fifo_mask f)) v = Some d' ∧ stored (fifo_data f) d' n [v].
Proof using All.
  destruct (byte_position n) as [H1 H2]. set (o := Z.land n (fifo_mask f)) in *.
  destruct (ring_store (fifo_data f) [v] o 1) as (d1 & d2 & E1 & E2 & Hl & Hr); [done|lia|done|].
  replace (Z.min 1 (Z.of_nat (length (fifo_data f)) - o)) with 1 in E1, E2 by lia.
  assert (d2 = d1) as -> by (rw copy_bytes_at in E2; [|cbn; lia..]; cbn in E2; by injection E2).
  exists d1. split.
  - rw copy_bytes_at in E1; [|cbn; lia..]. injection E1 as <-. rw /wr. ztest. cbn [andb]. f_equal.
    rw insert_take_drop; [|lia]. cbn. f_equal. f_equal. f_equal. lia.
  - apply (stored_mod _ _ o); [by rw H2 Zmod_mod|]. split; [done|]. exact Hr.
Qed.
End bytes.

(** ** Records *)

(** The length field of a record, least significant byte first, and the record behind it. *)
Definition length_field (recsize n : Z) : list Z := if recsize =? 1 then [wrap 8 n] else [wrap 8 n; wrap 8 (Z.shiftr n 8)].
Definition encode (recsize : Z) (r : list Z) : list Z := length_field recsize (Z.of_nat (length r)) ++ r.

(** A fifo of bytes that holds the records [rs]. *)
Definition holds (recsize : Z) (f : kfifo) (rs : list (list Z)) : Prop :=
  fifo_ok f ∧ fifo_esize f = 1 ∧ contents f = concat (encode recsize <$> rs) ∧
  Forall (λ r, Z.of_nat (length r) < 2 ^ (8 * recsize)) rs.

Lemma length_field_length recsize n : recsize = 1 ∨ recsize = 2 → Z.of_nat (length (length_field recsize n)) = recsize.
Proof. by intros [-> | ->]. Qed.

Lemma max_r_spec len recsize :
  recsize = 1 ∨ recsize = 2 → 0 ≤ len < 2 ^ 32 → __kfifo_max_r len recsize = Z.min len (2 ^ (8 * recsize) - 1).
Proof.
  intros Hr Hl. rw /__kfifo_max_r (wrap_small 32 len) //. destruct Hr as [-> | ->].
  - change (wrap 32 _) with 255. change (2 ^ (8 * 1)) with 256. case_if; lia.
  - change (wrap 32 _) with 65535. change (2 ^ (8 * 2)) with 65536. case_if; lia.
Qed.

Lemma set_data_ok f d' : fifo_ok f → length d' = length (fifo_data f) → fifo_ok (set_data d' f).
Proof. intros Hok Hl. destruct Hok. split; try done. cbn. by rw Hl. Qed.

Lemma poke_ok f n recsize :
  fifo_ok f → fifo_esize f = 1 → recsize = 1 ∨ recsize = 2 →
  ∃ d', __kfifo_poke_n f n recsize = Some (set_data d' f) ∧ stored (fifo_data f) d' (fifo_in f) (length_field recsize n).
Proof.
  intros Hok He Hr. rw /__kfifo_poke_n. destruct (wr_ring f Hok He (fifo_in f) (wrap 8 n)) as (d1 & -> & S1).
  cbn [mbind option_bind]. destruct Hr as [-> | ->]; [by exists d1|]. cbn [Z.ltb Z.compare Pos.compare Pos.compare_cont].
  destruct (S1) as [Hl _].
  destruct (wr_ring (set_data d1 f) (set_data_ok f d1 Hok Hl) He (wrap 32 (fifo_in f + 1)) (wrap 8 (Z.shiftr n 8)))
    as (d2 & E2 & S2). cbn [fifo_data fifo_mask set_data] in E2. rw E2. cbn [mbind option_bind]. exists d2. split; [done|].
  apply (stored_app _ d1 _ _ [wrap 8 n] [_]); [done| |].
  - apply (stored_mod _ _ (wrap 32 (fifo_in f + 1))); [|done]. cbn [fifo_data set_data].
    pose proof (counter_position f (wrap 32 (fifo_in f + 1)) (fifo_in f + 1) Hok) as E. rw He !Z.mul_1_r in E.
    rw Hl. apply E. by rw /wrap Zmod_mod.
  - pose proof (ok_data f Hok). pose proof (mask_pos f Hok). rw He in H. cbn. lia.
Qed.

Lemma peek_ok f recsize r rest :
  fifo_ok f → fifo_esize f = 1 → recsize = 1 ∨ recsize = 2 → Z.of_nat (length r) < 2 ^ (8 * recsize) →
  contents f = encode recsize r ++ rest → __kfifo_peek_n f recsize = Some (Z.of_nat (length r)).
Proof.
  intros Hok He Hr Hlt Hc. rw /contents He Z.mul_1_r in Hc. rw /__kfifo_peek_n (rd_ring f Hok He (fifo_out f)). cbn [mbind option_bind].
  assert (∀ m, Z.to_nat (kfifo_len f * 1) = m → ring (fifo_data f) (fifo_out f) m = encode recsize r ++ rest) as Hm.
  { intros m <-. done. }
  specialize (Hm _ eq_refl). destruct Hr as [-> | ->]; cbn in Hm.
  - destruct (Z.to_nat _); [done|]. rw ring_cons in Hm. injection Hm as Hb _. change (negb (1 - 1 =? 0)) with false. cbv iota. rw Hb. f_equal.
    apply wrap_small. split; [lia|done].
  - destruct (Z.to_nat _) as [|[|m]]; [done|by rw ring_cons in Hm|]. rw !ring_cons in Hm. injection Hm as Hb Hb2 _.
    change (negb (2 - 1 =? 0)) with true. cbv iota. rw (rd_ring f Hok He). cbn [mbind option_bind].
    assert (rbyte (fifo_data f) (wrap 32 (fifo_out f + 1)) = rbyte (fifo_data f) (fifo_out f + 1)) as ->.
    { rw /rbyte. do 2 f_equal. pose proof (counter_position f (wrap 32 (fifo_out f + 1)) (fifo_out f + 1) Hok) as E.
      rw He !Z.mul_1_r in E. apply E. by rw /wrap Zmod_mod. }
    rw Hb Hb2. f_equal. set (n := Z.of_nat (length r)) in *. rw (wrap_small 8 (Z.shiftr n 8)).
    + apply Z.bits_inj'. intros i Hi. rw Z.lor_spec Z.shiftl_spec // testbit_wrap //.
      destruct (Z.lt_ge_cases i 8) as [Hc8|Hc8].
      * ztest. rw (Z.testbit_neg_r _ (i - 8)); [|lia]. rw orb_false_r. cbn. by destruct (0 <=? i).
      * ztest. rw ?andb_false_r /=. rw Z.shiftr_spec; [|lia]. f_equal. lia.
    + rw Z.shiftr_div_pow2 //. split; [apply Z.div_pos; lia|]. apply Z.div_lt_upper_bound; [lia|]. done.
Qed.

Lemma concat_app {A} (l1 l2 : list (list A)) : concat (l1 ++ l2) = concat l1 ++ concat l2.
Proof. induction l1 as [|x l1 IH]; cbn; [done|]. by rw IH app_assoc. Qed.

Lemma in_r_ok recsize f rs buf len :
  holds recsize f rs → recsize = 1 ∨ recsize = 2 → 0 ≤ len ≤ Z.of_nat (length buf) → len < 2 ^ (8 * recsize) →
  if len + recsize <=? kfifo_unused f
  then ∃ f', __kfifo_in_r f buf len recsize = Some (len, f') ∧ holds recsize f' (rs ++ [take (Z.to_nat len) buf])
  else __kfifo_in_r f buf len recsize = Some (0, f).
Proof.
  intros (Hok & He & Hc & Hall) Hr Hlen Hmax. rw /__kfifo_in_r. pose proof (mask_pos f Hok) as Hm. pose proof (kfifo_len_range f Hok).
  assert (2 ^ (8 * recsize) ≤ 65536) as H16 by (by destruct Hr as [-> | ->]).
  rw (wrap_small 64); [|split; lia]. rw kfifo_unused_spec //. destruct (Z.leb_spec (len + recsize) (fifo_mask f + 1 - kfifo_len f)) as [Hfit|Hfull].
  2:{ ztest. done. }
  ztest. destruct (poke_ok f len recsize Hok He Hr) as (d1 & -> & S1). cbn [mbind option_bind]. destruct (S1) as [Hl1 _].
  pose proof (set_data_ok f d1 Hok Hl1) as Hok1.
  destruct (kfifo_copy_in_ok (set_data d1 f) buf len (wrap 32 (fifo_in f + recsize))) as (d2 & E & S2);
    [done|cbn; lia|cbn; rw He; lia|]. cbn [fifo_in set_data] in *. rw E. cbn [mbind option_bind fifo_in set_data]. cbn [fifo_esize fifo_data set_data] in S2.
  rw He !Z.mul_1_r in S2. pose proof (length_field_length recsize len Hr) as Hlf. set (bs := take (Z.to_nat len) buf) in *.
  assert (Z.of_nat (length bs) = len) as Hbl by (rw /bs length_take; lia).
  assert (stored (fifo_data f) d2 (fifo_in f) (length_field recsize len ++ bs)) as S.
  { apply (stored_app _ d1); [done| |]. 
    - apply (stored_mod _ _ (wrap 32 (fifo_in f + recsize))); [|done]. rw Hl1 Hlf.
      pose proof (counter_position f (wrap 32 (fifo_in f + recsize)) (fifo_in f + recsize) Hok) as Ep.
      rw He !Z.mul_1_r in Ep. apply Ep. by rw /wrap Zmod_mod.
    - pose proof (ok_data f Hok) as Hd. rw He in Hd. lia. }
  destruct (append_ok f d2 (length_field recsize len ++ bs) (len + recsize) Hok) as (Hok' & _ & Hc');
    [by rw He Z.mul_1_r|rw He length_app; lia|lia|rw He length_app; lia|].
  eexists. split; [done|]. split_and!; [done|done| |].
  - change (set_in _ (set_data d2 (set_data d1 f))) with (set_in (wrap 32 (fifo_in f + (len + recsize))) (set_data d2 f)).
    rw Hc' Hc fmap_app concat_app. f_equal. cbn. rw app_nil_r /encode Hbl. apply take_ge. rw He length_app. lia.
  - apply Forall_app. split; [done|]. constructor; [|constructor]. lia.
Qed.

Lemma out_r_ok recsize f r rs buf len :
  holds recsize f (r :: rs) → recsize = 1 ∨ recsize = 2 → 0 ≤ len ≤ Z.of_nat (length buf) →
  let n := Z.min len (Z.of_nat (length r)) in
  let buf' := take (Z.to_nat n) r ++ drop (Z.to_nat n) buf in
  ∃ f', __kfifo_out_peek_r f buf len recsize = Some (n, buf') ∧ __kfifo_out_r f buf len recsize = Some (n, buf', f') ∧
    __kfifo_skip_r f recsize = Some f' ∧ __kfifo_len_r f recsize = Some (Z.of_nat (length r)) ∧ holds recsize f' rs.
Proof.
  intros (Hok & He & Hc & Hall) Hr Hlen n buf'. apply Forall_cons in Hall as [Hlt Hall]. cbn in Hc.
  pose proof (peek_ok f recsize r _ Hok He Hr Hlt Hc) as Hpk. pose proof (contents_length f Hok) as Hcl. rw He Z.mul_1_r in Hcl.
  pose proof (length_field_length recsize (Z.of_nat (length r)) Hr) as Hlf. pose proof (kfifo_len_range f Hok) as Hkl.
  assert (kfifo_len f = recsize + Z.of_nat (length r) + Z.of_nat (length (concat (encode recsize <$> rs)))) as Hsum.
  { rewrite <- Hcl. rw Hc /encode !length_app. lia. }
  assert (fifo_in f =? fifo_out f = false) as Hne.
  { apply Z.eqb_neq. intros E. rw /kfifo_len E Z.sub_diag in Hsum. change (wrap 32 0) with 0 in Hsum. lia. }
  assert (kfifo_out_copy_r f buf len recsize = Some (n, buf', Z.of_nat (length r))) as Ecp.
  { rw /kfifo_out_copy_r Hpk. cbn [mbind option_bind]. assert ((if _ <? len then _ else len) = n) as -> by (case_if; lia).
    rw kfifo_copy_out_ok //; [|lia|rw He; lia]. cbn [mbind option_bind]. rw He !Z.mul_1_r. do 3 f_equal.
    assert (ring (fifo_data f) (wrap 32 (fifo_out f + recsize)) (Z.to_nat n) = ring (fifo_data f) (fifo_out f + recsize) (Z.to_nat n)) as ->.
    { pose proof (ring_counter f (fifo_data f) (wrap 32 (fifo_out f + recsize)) (fifo_out f + recsize) (Z.to_nat n) Hok eq_refl) as E.
      rw He !Z.mul_1_r in E. apply E. by rw /wrap Zmod_mod. }
    rw /contents He !Z.mul_1_r in Hc. rw (ring_split _ _ (Z.to_nat recsize)) in Hc; [|lia]. rw /encode -app_assoc in Hc.
    apply app_inj_1 in Hc as [_ Hc]; [|rw ring_length; lia]. rw Z2Nat.id in Hc; [|lia].
    rewrite <- (ring_take _ _ (Z.to_nat n) (Z.to_nat (kfifo_len f) - Z.to_nat recsize)) by lia. rw Hc. rw take_app_le; [done|lia]. }
  destruct (consume_ok f (Z.of_nat (length r) + recsize) Hok) as (Hok' & _ & Hc'); [lia|].
  eexists. rw /__kfifo_out_peek_r /__kfifo_out_r /__kfifo_skip_r /__kfifo_len_r Hne Ecp Hpk. cbn [mbind option_bind].
  split; [done|]. split; [done|]. split; [done|]. split; [done|]. split_and!; [done|done| |done].
  rw Hc' Hc He. apply drop_app_length'. rw /encode length_app. lia.
Qed.

Lemma out_r_empty recsize f buf len :
  holds recsize f [] → __kfifo_out_r f buf len recsize = Some (0, buf, f).
Proof.
  intros (Hok & He & Hc & _). pose proof (contents_length f Hok) as Hcl. rw Hc He Z.mul_1_r /= in Hcl.
  rw /__kfifo_out_r. assert (fifo_in f = fifo_out f) as ->; [|by rw Z.eqb_refl].
  pose proof (in_position f Hok) as E. rewrite <- Hcl in E. rw Z.add_0_r in E.
  rw !wrap_small // in E; [apply (ok_in f Hok)|apply (ok_out f Hok)].
Qed.

(** A record fifo is a queue of records: a record whose length fits the length field is added as a whole at the
    end or, when there is no room for it, not at all (the result is 0); taking out gives the first record, cut to the caller's buffer, and
    removes it as a whole; skipping removes it too, and its length can be asked for; an empty fifo gives 0. *)
Theorem kfifo_records recsize f rs buf len :
  holds recsize f rs → recsize = 1 ∨ recsize = 2 → 0 ≤ len ≤ Z.of_nat (length buf) →
  (len < 2 ^ (8 * recsize) →
   if len + recsize <=? kfifo_unused f
   then ∃ f', __kfifo_in_r f buf len recsize = Some (len, f') ∧ holds recsize f' (rs ++ [take (Z.to_nat len) buf])
   else __kfifo_in_r f buf len recsize = Some (0, f)) ∧
  match rs with
  | [] => __kfifo_out_r f buf len recsize = Some (0, buf, f)
  | r :: rs' =>
      let n := Z.min len (Z.of_nat (length r)) in
      let buf' := take (Z.to_nat n) r ++ drop (Z.to_nat n) buf in
      ∃ f', __kfifo_out_r f buf len recsize = Some (n, buf', f') ∧ __kfifo_skip_r f recsize = Some f' ∧
        __kfifo_len_r f recsize = Some (Z.of_nat (length r)) ∧ holds recsize f' rs'
  end.
Proof.
  intros Hh Hr Hl. split; [intros; by apply in_r_ok|]. destruct rs as [|r rs]; [by apply out_r_empty|].
  destruct (out_r_ok recsize f r rs buf len Hh Hr Hl) as (f' & _ & H). by exists f'.
Qed.

Definition demo_records : kfifo :=
  {| fifo_in := 7; fifo_out := 4; fifo_mask := 7; fifo_esize := 1; fifo_data := [0; 0; 0; 0; 2; 11; 12; 0] |}.

Lemma demo_records_hold : holds 1 demo_records [[11; 12]].
Proof.
  split_and!; [|done|done|by constructor].
  split; try (cbn; lia); [by exists 3|split; vm_compute; congruence..|vm_compute; congruence].
Qed.

Lemma kfifo_records_witness :
  ∃ f', __kfifo_in_r demo_records [21; 22; 23] 3 1 = Some (3, f') ∧ holds 1 f' [[11; 12]; [21; 22; 23]].
Proof.
  destruct (kfifo_records 1 demo_records [[11; 12]] [21; 22; 23] 3 demo_records_hold (or_introl eq_refl)) as [H _];
    [vm_compute; split; congruence|]. exact (H eq_refl).
Defined.

(** A longer record is added all the same, with the wrong length in front of it: the next records are garbage. *)
Example long_record_corrupts :
  let f := {| fifo_in := 0; fifo_out := 0; fifo_mask := 511; fifo_esize := 1; fifo_data := replicate 512 0 |} in
  let r := replicate 256 7 in
  (f ← snd <$> __kfifo_in_r f r 256 1; '(n, _, f) ← __kfifo_out_r f [0; 0] 2 1; n2 ← __kfifo_len_r f 1; Some (n, n2))
    = Some (0, 7).
Proof. vm_compute. reflexivity. Qed.

(** ** Copies from user space *)

(** What [copy_from_user] promises: it stores [n] bytes, all but the last [r] of them from the user's buffer. *)
Class UserReads (copy_from_user : user_reader) (user : list Z) : Prop :=
  user_reads : ∀ off n, 0 ≤ off → 0 ≤ n → off + n ≤ Z.of_nat (length user) →
    let '(r, bs) := copy_from_user off n in
    0 ≤ r ≤ n ∧ Z.of_nat (length bs) = n ∧
    take (Z.to_nat (n - r)) bs = take (Z.to_nat (n - r)) (drop (Z.to_nat off) user).

Section user.
Context (copy_from_user : user_reader) (user : list Z) (UserReads0 : UserReads copy_from_user user).

(** A copy that stops at a byte of the first or of the second part leaves the bytes before it in the ring. *)
Lemma copy_from_user_ok f len off :
  fifo_ok f → 0 ≤ len ≤ fifo_mask f + 1 → len * fifo_esize f ≤ Z.of_nat (length user) →
  ∃ ret d' bs, kfifo_copy_from_user copy_from_user f len off =
      Some (ret, wrap 32 (len * fifo_esize f - ret), set_data d' f) ∧
    stored (fifo_data f) d' (off * fifo_esize f) bs ∧ 0 ≤ ret ≤ len ∧
    (len - ret) * fifo_esize f ≤ Z.of_nat (length bs) ≤ len * fifo_esize f ∧
    take (Z.to_nat ((len - ret) * fifo_esize f)) bs = take (Z.to_nat ((len - ret) * fifo_esize f)) user.
Proof using All.
  intros Hok Hlen Hu. pose proof (mask_pos f Hok) as Hm. pose proof (ok_esize f Hok) as He. pose proof (ok_bytes f Hok) as Hb.
  pose proof (ok_data f Hok) as Hd. rw /kfifo_copy_from_user ring_span_spec //. set (B := Z.of_nat (length (fifo_data f))) in *.
  pose proof (Z.mod_pos_bound (off * fifo_esize f) B ltac:(nia)) as Ho. set (o := (off * fifo_esize f) mod B) in *.
  set (L := len * fifo_esize f) in *. assert (0 ≤ L ≤ B) as HL by nia.
  rw (wrap_small 32 (B - o)); [|split; lia]. set (l := Z.min L (B - o)). rw (wrap_small 32 (L - l)); [|split; lia].
  pose proof (UserReads0 0 l ltac:(lia) ltac:(lia) ltac:(lia)) as H1. destruct (copy_from_user 0 l) as [r1 bs1].
  destruct H1 as (Hr1 & Hl1 & Ht1). rw drop_0 in Ht1.
  assert (wr_range (fifo_data f) o bs1 = copy_bytes (fifo_data f) o bs1 0 l) as ->.
  { rw /copy_bytes /rd_range. ztest. cbn [andb mbind option_bind]. rw drop_0 take_ge //. lia. }
  (* the ceiling of the bytes not copied *)
  assert (∀ x, 0 < x ≤ L → let q := DIV_ROUND_UP x (fifo_esize f) in
     0 < q ≤ len ∧ (len - q) * fifo_esize f ≤ L - x) as Hceil.
  { intros x Hx q. rw /q /DIV_ROUND_UP. pose proof (Z.div_mod (x + fifo_esize f - 1) (fifo_esize f) ltac:(lia)).
    pose proof (Z.mod_pos_bound (x + fifo_esize f - 1) (fifo_esize f) ltac:(lia)).
    set (y := (x + fifo_esize f - 1) / fifo_esize f) in *. split; [split|]; nia. }
  destruct (Z.eqb_spec r1 0) as [->|Hr]; cbn [negb].
  2:{ destruct (ring_store (fifo_data f) bs1 o l) as (d1 & d2 & E1 & E2 & Hl2 & Hst); [done|lia|lia|]. fold B in E1, E2.
      replace (Z.min l (B - o)) with l in E1, E2 by lia. rw Z.sub_diag in E2.
      assert (d2 = d1) as -> by (rw copy_bytes_at in E2; [|lia..]; cbn in E2; by injection E2).
      rw E1. cbn [mbind option_bind]. rw (wrap_small 64); [|split; lia].
      destruct (Hceil (r1 + L - l) ltac:(lia)) as [Hq1 Hq2]. eexists _, d1, bs1. split; [done|].
      split_and!; [|lia|lia|nia|nia|].
      - apply (stored_mod _ _ o); [fold B; rw /o; by rw Zmod_mod|]. split; [done|]. rw Hst. rw take_ge; [|lia].
        f_equal. f_equal; [f_equal|]; lia.
      - set (k := Z.to_nat _). assert (k ≤ Z.to_nat (l - r1))%nat as Hk by (rw /k; lia).
        rewrite <- (Nat.min_l k _ Hk), <- !take_take. by rw Ht1. }
  pose proof (UserReads0 l (L - l) ltac:(lia) ltac:(lia) ltac:(lia)) as H2. destruct (copy_from_user l (L - l)) as [r2 bs2].
  destruct H2 as (Hr2 & Hl2 & Ht2). rw Z.sub_0_r in Ht1.
  destruct (ring_store (fifo_data f) (bs1 ++ bs2) o L) as (d1 & d2 & E1 & E2 & Hld & Hst); [done|lia|rw length_app; lia|].
  fold B in E1, E2. fold l in E1, E2.
  assert (copy_bytes (fifo_data f) o bs1 0 l = Some d1) as ->.
  { rewrite <- E1. rw /copy_bytes /rd_range length_app. ztest. cbn [andb mbind option_bind]. rw !drop_0 take_app_le //. lia. }
  cbn [mbind option_bind]. assert (wr_range d1 0 bs2 = Some d2) as ->.
  { rewrite <- E2. rw /copy_bytes /rd_range length_app. ztest. cbn [andb mbind option_bind]. rw drop_app_length'; [|lia]. rw take_ge //. lia. }
  cbn [mbind option_bind]. eexists _, d2, (bs1 ++ bs2). split; [done|].
  assert (stored (fifo_data f) d2 (off * fifo_esize f) (bs1 ++ bs2)) as S.
  { apply (stored_mod _ _ o); [fold B; rw /o; by rw Zmod_mod|]. split; [done|]. rw Hst. rw take_ge; [|rw length_app; lia].
    f_equal. rw length_app. f_equal; [f_equal|]; lia. }
  assert (take (Z.to_nat (L - r2)) (bs1 ++ bs2) = take (Z.to_nat (L - r2)) user) as Hcopied.
  { assert (length bs1 = Z.to_nat l) as Hl1' by lia. rewrite -> (take_ge bs1) in Ht1 by lia.
    replace (Z.to_nat (L - r2)) with (length bs1 + Z.to_nat (L - l - r2))%nat by lia. rw take_app_add Ht2.
    rewrite -> Ht1 at 1. rw Hl1'. by rw take_take_drop. }
  split; [done|]. destruct (Z.eqb_spec r2 0) as [->|Hr2']; cbn [negb].
  - rw Z.sub_0_r. fold L. rw length_app. split_and!; [lia|lia|lia|lia|]. by rw Z.sub_0_r in Hcopied.
  - destruct (Hceil r2 ltac:(lia)) as [Hq1 Hq2]. rw length_app. split_and!; [lia|lia|lia|lia|].
    set (k := Z.to_nat _). assert (k ≤ Z.to_nat (L - r2))%nat as Hk by (rw /k; lia).
    rewrite <- (Nat.min_l k _ Hk), <- !take_take. by rw Hcopied.
Qed.
End user.

(** [__kfifo_from_user] adds whole elements only: it adds the first [m] elements of the user's buffer, all that fit
    ([n]) when it answers 0, fewer when it answers [-EFAULT].  The byte count it reports is right in
    the first case; in the second it is too large by [(n - m) * (esize - 1)], since the code subtracts elements from bytes. *)
Theorem kfifo_from_user_exact copy_from_user user f len :
  UserReads copy_from_user user → fifo_ok f → 0 ≤ len ≤ Z.of_nat (length user) →
  let n := Z.min (len / fifo_esize f) (fifo_mask f + 1 - kfifo_len f) in
  ∃ m err f', __kfifo_from_user copy_from_user f len =
      Some (err, m * fifo_esize f + (n - m) * (fifo_esize f - 1), f') ∧
    fifo_ok f' ∧ contents f' = contents f ++ take (Z.to_nat (m * fifo_esize f)) user ∧
    (err = 0 ∧ m = n ∨ err = - EFAULT ∧ 0 ≤ m < n).
Proof.
  intros Hur Hok Hlen n. pose proof (mask_pos f Hok) as Hm. pose proof (ok_esize f Hok) as He. pose proof (ok_bytes f Hok) as Hb.
  pose proof (kfifo_len_range f Hok) as Hl. rw /__kfifo_from_user kfifo_unused_spec //.
  assert ((if fifo_esize f =? 1 then len else len / fifo_esize f) = len / fifo_esize f) as ->.
  { case_if; [|done]. assert (fifo_esize f = 1) as -> by lia. by rw Z.div_1_r. }
  assert (0 ≤ len / fifo_esize f) by (apply Z.div_pos; lia).
  assert ((if _ <? len / fifo_esize f then _ else _) = n) as -> by (case_if; lia).
  assert (n * fifo_esize f ≤ len) as Hn.
  { pose proof (Z.mul_div_le len (fifo_esize f) ltac:(lia)). nia. }
  destruct (copy_from_user_ok copy_from_user user Hur f n (fifo_in f)) as (ret & d' & bs & E & Hst & Hret & Hbs & Ht); [done|lia|lia|].
  rw E. cbn [mbind option_bind]. assert (0 ≤ (n - ret) * fifo_esize f) by (apply Z.mul_nonneg_nonneg; lia).
  assert (n * fifo_esize f ≤ (fifo_mask f + 1 - kfifo_len f) * fifo_esize f) by (apply Z.mul_le_mono_nonneg_r; lia).
  assert (0 ≤ kfifo_len f * fifo_esize f) by (apply Z.mul_nonneg_nonneg; lia).
  destruct (append_ok f d' bs (n - ret) Hok Hst) as (Hok' & _ & Hc); [lia|lia|lia|]. rw Ht in Hc.
  exists (n - ret), (if ret =? 0 then 0 else - EFAULT), (set_in (wrap 32 (fifo_in f + (n - ret))) (set_data d' f)).
  assert (n * 1 ≤ n * fifo_esize f) by (apply Z.mul_le_mono_nonneg_l; lia).
  rw (wrap_small 32 (_ - ret)); [|split; lia]. rw (wrap_small 64); [|split; lia].
  replace (n * fifo_esize f - ret) with ((n - ret) * fifo_esize f + (n - (n - ret)) * (fifo_esize f - 1)) by ring.
  split_and!; [|done|done|].
  - destruct (Z.eqb_spec ret 0) as [->|]; cbn [negb]; [by rw Z.sub_0_r|done].
  - destruct (Z.eqb_spec ret 0) as [->|]; [left|right]; lia.
Qed.

(** A user's buffer whose first [k] bytes can be read. *)
Definition user_prefix (user : list Z) (k : Z) : user_reader :=
  λ off n, let m := Z.max 0 (Z.min n (k - off)) in
    (n - m, take (Z.to_nat m) (drop (Z.to_nat off) user) ++ replicate (Z.to_nat (n - m)) 0).

#[export] Instance user_prefix_reads user k : UserReads (user_prefix user k) user.
Proof.
  intros off n Ho Hn Hu. cbn. set (m := Z.max 0 _). assert (length (take (Z.to_nat m) (drop (Z.to_nat off) user)) = Z.to_nat m) as Hl
    by (rw length_take length_drop; lia).
  split_and!; [lia|lia|rw length_app Hl length_replicate; lia|]. replace (n - (n - m)) with m by lia. by rw take_app_length'.
Qed.

(** Elements of four bytes, of which the second cannot be read completely. *)
Lemma kfifo_from_user_exact_witness :
  let f := {| fifo_in := 0; fifo_out := 0; fifo_mask := 3; fifo_esize := 4; fifo_data := replicate 16 0 |} in
  let user := [1; 2; 3; 4; 5; 6; 7; 8] in
  ∃ m err f', __kfifo_from_user (user_prefix user 6) f 8 = Some (err, m * 4 + (2 - m) * (4 - 1), f') ∧
    fifo_ok f' ∧ contents f' = [] ++ take (Z.to_nat (m * 4)) user ∧ (err = 0 ∧ m = 2 ∨ err = - EFAULT ∧ 0 ≤ m < 2).
Proof.
  intros f user. apply (kfifo_from_user_exact (user_prefix user 6) user f 8); [apply user_prefix_reads| |cbn; lia].
  split; try (cbn; lia); [by exists 2|split; vm_compute; congruence..|vm_compute; congruence].
Defined.

(** Then four bytes are added, but seven are reported. *)
Example copied_too_large :
  let f := {| fifo_in := 0; fifo_out := 0; fifo_mask := 3; fifo_esize := 4; fifo_data := replicate 16 0 |} in
  (λ '(err, copied, f), (err, copied, contents f)) <$> __kfifo_from_user (user_prefix [1; 2; 3; 4; 5; 6; 7; 8] 6) f 8
    = Some (- EFAULT, 7, [1; 2; 3; 4]).
Proof. vm_compute. reflexivity. Qed.
