(* ===== verification/Calendar.v ===== *)
(** * Calendar and time arithmetic: kernel/time/timeconv.c, kernel/time.c, include/linux/time.h

    Breaking a time down into a date, building a time from a date, and normalised seconds and nanoseconds.  The
    [long] values of [time_to_tm] stay far inside their 64 bits and are plain numbers here; [mktime] computes in 32 bits
    and its truncations are written out. *)
From S2P Require Import Prelude.

(** ** Broken-down time *)

(** [struct tm]. *)
Record tm := {
  tm_sec : Z; tm_min : Z; tm_hour : Z; tm_mday : Z; tm_mon : Z; tm_year : Z; tm_wday : Z; tm_yday : Z
}.

Definition __isleap (year : Z) : bool :=
  (Z.rem year 4 =? 0) && (negb (Z.rem year 100 =? 0) || (Z.rem year 400 =? 0)).

Definition math_div (a b : Z) : Z := Z.quot a b - Z.b2z (Z.rem a b <? 0).

Definition leaps_between (y1 y2 : Z) : Z :=
  let leaps1 := math_div (y1 - 1) 4 - math_div (y1 - 1) 100 + math_div (y1 - 1) 400 in
  let leaps2 := math_div (y2 - 1) 4 - math_div (y2 - 1) 100 + math_div (y2 - 1) 400 in
  leaps2 - leaps1.

Definition __mon_yday : list (list Z) :=
  [[0; 31; 59; 90; 120; 151; 181; 212; 243; 273; 304; 334; 365];
   [0; 31; 60; 91; 121; 152; 182; 213; 244; 274; 305; 335; 366]].

Definition SECS_PER_HOUR : Z := 60 * 60.
Definition SECS_PER_DAY : Z := SECS_PER_HOUR * 24.

(** The two loops that bring [rem] into a day: at most one round for each day of [rem]. *)
Definition fit_day (days rem : Z) : option (Z * Z) :=
  '(days, rem) ← loop (Z.to_nat (- rem / SECS_PER_DAY) + 2)
    (λ '(days, rem), Some (if rem <? 0 then Next (days - 1, rem + SECS_PER_DAY) else Stop (days, rem))) (days, rem);
  loop (Z.to_nat (rem / SECS_PER_DAY) + 2)
    (λ '(days, rem), Some (if SECS_PER_DAY <=? rem then Next (days + 1, rem - SECS_PER_DAY) else Stop (days, rem)))
    (days, rem).

(** The loop that looks for the year: ten guesses are enough for 64-bit times. *)
Definition find_year (days : Z) : option (Z * Z) :=
  loop 10
    (λ '(y, days),
       Some (if (days <? 0) || ((if __isleap y then 366 else 365) <=? days) then
               let yg := y + math_div days 365 in
               Next (yg, days - ((yg - y) * 365 + leaps_between y yg))
             else Stop (y, days)))
    (1970, days).

Definition time_to_tm (totalsecs offset : Z) : option tm :=
  let days := Z.quot totalsecs SECS_PER_DAY in
  let rem := Z.rem totalsecs SECS_PER_DAY + offset in
  '(days, rem) ← fit_day days rem;
  let hour := Z.quot rem SECS_PER_HOUR in
  let rem := Z.rem rem SECS_PER_HOUR in
  let wday := Z.rem (4 + days) 7 in
  let wday := if wday <? 0 then wday + 7 else wday in
  '(y, days) ← find_year days;
  ip ← rd __mon_yday (Z.b2z (__isleap y));
  '(mon, d) ← loop 13 (λ m, d ← rd ip m; Some (if days <? d then Next (m - 1) else Stop (m, d))) 11;
  Some {| tm_sec := Z.rem rem 60; tm_min := Z.quot rem 60; tm_hour := hour; tm_mday := days - d + 1; tm_mon := mon;
          tm_year := y - 1900; tm_wday := wday; tm_yday := days |}.

(** ** Building a time *)

(** The operands are [unsigned int], the conversion to [unsigned long] comes after the first sum. *)
Definition mktime (year0 mon0 day hour min sec : Z) : Z :=
  let mon := wrap 32 (mon0 - 2) in
  let '(mon, year) := if swrap 32 mon <=? 0 then (wrap 32 (mon + 12), wrap 32 (year0 - 1)) else (mon, year0) in
  let days := wrap 32 (year / 4 - year / 100 + year / 400 + wrap 32 (367 * mon) / 12 + day) in
  wrap 64 ((((days + wrap 32 (year * 365) - 719499) * 24 + hour) * 60 + min) * 60 + sec).

(** ** Seconds and nanoseconds *)

Record timespec := { tv_sec : Z; tv_nsec : Z }.

Definition NSEC_PER_SEC : Z := 1000000000.
Definition TIME_T_MAX : Z := 2 ^ 63 - 1.

Definition set_normalized_timespec (sec nsec : Z) : option timespec :=
  '(sec, nsec) ← loop (Z.to_nat (nsec / NSEC_PER_SEC) + 2)
    (λ '(sec, nsec),
       Some (if NSEC_PER_SEC <=? nsec then Next (swrap 64 (sec + 1), nsec - NSEC_PER_SEC) else Stop (sec, nsec)))
    (sec, nsec);
  '(sec, nsec) ← loop (Z.to_nat (- nsec / NSEC_PER_SEC) + 2)
    (λ '(sec, nsec), Some (if nsec <? 0 then Next (swrap 64 (sec - 1), nsec + NSEC_PER_SEC) else Stop (sec, nsec)))
    (sec, nsec);
  Some {| tv_sec := sec; tv_nsec := nsec |}.

Definition timespec_add (lhs rhs : timespec) : option timespec :=
  set_normalized_timespec (swrap 64 (tv_sec lhs + tv_sec rhs)) (tv_nsec lhs + tv_nsec rhs).

Definition timespec_sub (lhs rhs : timespec) : option timespec :=
  set_normalized_timespec (swrap 64 (tv_sec lhs - tv_sec rhs)) (tv_nsec lhs - tv_nsec rhs).

Definition timespec_add_safe (lhs rhs : timespec) : option timespec :=
  res ← set_normalized_timespec (swrap 64 (tv_sec lhs + tv_sec rhs)) (tv_nsec lhs + tv_nsec rhs);
  Some (if (tv_sec res <? tv_sec lhs) || (tv_sec res <? tv_sec rhs)
        then {| tv_sec := TIME_T_MAX; tv_nsec := tv_nsec res |} else res).

Definition timespec_compare (lhs rhs : timespec) : Z :=
  if tv_sec lhs <? tv_sec rhs then -1 else if tv_sec rhs <? tv_sec lhs then 1
  else swrap 32 (tv_nsec lhs - tv_nsec rhs).

(** [div_s64_rem] is the division of the machine. *)
Definition ns_to_timespec (nsec : Z) : timespec :=
  if nsec =? 0 then {| tv_sec := 0; tv_nsec := 0 |} else
  let sec := Z.quot nsec NSEC_PER_SEC in
  let rem := Z.rem nsec NSEC_PER_SEC in
  if rem <? 0 then {| tv_sec := sec - 1; tv_nsec := rem + NSEC_PER_SEC |} else {| tv_sec := sec; tv_nsec := rem |}.

Definition timespec_to_ns (ts : timespec) : Z := swrap 64 (tv_sec ts * NSEC_PER_SEC + tv_nsec ts).

Example tm_2012 :
  time_to_tm 1342900805 0 =
    Some {| tm_sec := 5; tm_min := 0; tm_hour := 20; tm_mday := 21; tm_mon := 6; tm_year := 112; tm_wday := 6; tm_yday := 202 |} ∧
  mktime 2012 7 21 20 0 5 = 1342900805.
Proof. vm_compute. done. Qed.

Example tm_negative :
  time_to_tm (-1) 0 =
    Some {| tm_sec := 59; tm_min := 59; tm_hour := 23; tm_mday := 31; tm_mon := 11; tm_year := 69; tm_wday := 3; tm_yday := 364 |}.
Proof. vm_compute. done. Qed.

(** ** Loops that subtract or add a period *)

Lemma drop_periods {C} (f : C → C) p fuel c x :
  0 < p → 0 ≤ x → (Z.to_nat (x / p) < fuel)%nat →
  loop fuel (λ '(c, x), Some (if p <=? x then Next (f c, x - p) else Stop (c, x))) (c, x) =
    Some (Nat.iter (Z.to_nat (x / p)) f c, x mod p).
Proof.
  intros Hp. revert c x. induction fuel as [|n IH]; intros c x Hx Hf; [lia|]. cbn [loop]. destruct (Z.leb_spec p x) as [Hc|Hc].
  - assert (x / p = (x - p) / p + 1) as E by (rewrite <- Z.div_add by lia; f_equal; lia).
    assert (0 ≤ (x - p) / p) by (apply Z.div_pos; lia).
    rw IH; [|lia|lia]. do 2 f_equal.
    + rw E. replace (Z.to_nat ((x - p) / p + 1)) with (S (Z.to_nat ((x - p) / p))) by lia. by rewrite -> Nat.iter_succ_r.
    + rewrite <- (Z_mod_plus_full (x - p) 1 p). f_equal. lia.
  - rw Z.div_small; [|lia]. rw Z.mod_small; [|lia]. done.
Qed.

Lemma add_periods {C} (f : C → C) p fuel c x :
  0 < p → x < p → (Z.to_nat (- (x / p)) < fuel)%nat →
  loop fuel (λ '(c, x), Some (if x <? 0 then Next (f c, x + p) else Stop (c, x))) (c, x) =
    Some (Nat.iter (Z.to_nat (- (x / p))) f c, x mod p).
Proof.
  intros Hp. revert c x. induction fuel as [|n IH]; intros c x Hx Hf; [lia|]. cbn [loop]. destruct (Z.ltb_spec x 0) as [Hc|Hc].
  - assert ((x + p) / p = x / p + 1) as E by (replace (x + p) with (x + 1 * p) by lia; by rw Z.div_add; [|lia]).
    assert (x / p < 0) by (apply Z.div_lt_upper_bound; lia). rw IH; [|lia|lia]. do 2 f_equal.
    + rw E. replace (Z.to_nat (- (x / p))) with (S (Z.to_nat (- (x / p + 1)))) by lia. by rewrite -> Nat.iter_succ_r.
    + replace (x + p) with (x + 1 * p) by lia. apply Z_mod_plus_full.
  - rw Z.div_small; [|lia]. rw Z.mod_small; [|lia]. done.
Qed.

Lemma iter_add d n c : Nat.iter n (λ x, x + d) c = c + Z.of_nat n * d.
Proof. induction n as [|n IH]; [cbn; lia|]. rewrite -> Nat.iter_succ, IH. lia. Qed.

Lemma iter_sub d n c : Nat.iter n (λ x, x - d) c = c - Z.of_nat n * d.
Proof. induction n as [|n IH]; [cbn; lia|]. rewrite -> Nat.iter_succ, IH. lia. Qed.

Lemma fit_day_spec days rem :
  fit_day days rem = Some (days + rem / SECS_PER_DAY, rem mod SECS_PER_DAY).
Proof.
  rw /fit_day. assert (0 < SECS_PER_DAY) as Hp by done. set (p := SECS_PER_DAY) in *. destruct (Z.lt_ge_cases rem p) as [Hc|Hc].
  - rw (add_periods (λ d, d - 1) p _ days rem Hp Hc).
    2:{ pose proof (Z.div_mod rem p ltac:(lia)). pose proof (Z.mod_pos_bound rem p Hp).
        pose proof (Z.div_mod (- rem) p ltac:(lia)). pose proof (Z.mod_pos_bound (- rem) p Hp). nia. }
    cbn [mbind option_bind]. pose proof (Z.mod_pos_bound rem p Hp). rw (drop_periods (λ d, d + 1) p); [|lia..].
    rw Z.div_small; [|lia]. rw Zmod_mod. do 2 f_equal. rewrite -> iter_add, iter_sub.
    assert (rem / p < 1) by (apply Z.div_lt_upper_bound; lia). lia.
  - cbn [loop]. replace (Z.to_nat (- rem / p) + 2)%nat with (S (Z.to_nat (- rem / p) + 1)) by lia. cbn [loop]. ztest.
    cbn [mbind option_bind]. rw (drop_periods (λ d, d + 1) p); [|lia..]. do 2 f_equal. rewrite -> iter_add.
    assert (0 ≤ rem / p) by (apply Z.div_pos; lia). lia.
Qed.

(** ** Leap years *)

(** Leap years before a year, and the days from the epoch to its first day. *)
Definition leaps (y : Z) : Z := (y - 1) / 4 - (y - 1) / 100 + (y - 1) / 400.
Definition jan1 (y : Z) : Z := 365 * (y - 1970) + (leaps y - leaps 1970).

Lemma math_div_floor a b : 0 < b → math_div a b = a / b.
Proof.
  intros Hb. rw /math_div. pose proof (Z.quot_rem' a b) as E. pose proof (Z.rem_bound_abs a b ltac:(lia)) as Hr.
  destruct (Z.ltb_spec (Z.rem a b) 0) as [Hc|Hc]; cbn [Z.b2z].
  - apply Z.div_unique with (Z.rem a b + b); lia.
  - apply Z.div_unique with (Z.rem a b); lia.
Qed.

Lemma leaps_between_spec y1 y2 : leaps_between y1 y2 = leaps y2 - leaps y1.
Proof. rw /leaps_between /leaps. by rewrite !math_div_floor. Qed.

Lemma rem_mod_zero y n : n ≠ 0 → (Z.rem y n =? 0) = (y mod n =? 0).
Proof.
  intros Hn. apply eq_true_iff_eq. rewrite -> !Z.eqb_eq. by rewrite -> Z.rem_divide, Z.mod_divide.
Qed.

Lemma leap_year y : leaps (y + 1) - leaps y = Z.b2z (__isleap y).
Proof.
  rw /__isleap. rewrite -> !rem_mod_zero by done. rw /leaps. replace (y + 1 - 1) with y by lia.
  destruct (Z.eqb_spec (y mod 4) 0), (Z.eqb_spec (y mod 100) 0), (Z.eqb_spec (y mod 400) 0); cbn [andb orb negb Z.b2z]; zdm.
Qed.

Lemma leaps_mono y k : 0 ≤ k → 0 ≤ leaps (y + k) - leaps y ≤ (k + 3) / 4.
Proof. intros Hk. rw /leaps. zdm. Qed.

(** ** The year *)

Definition year_len (y : Z) : Z := 365 + Z.b2z (__isleap y).

(** From day [d] of year [y], at most [B] days away from its range, [n] guesses find the year and the day in it. *)
Definition year_found (n : nat) (lo hi : Z) : Prop :=
  ∀ y d, lo ≤ d ≤ hi →
  ∃ y' d', loop n
    (λ '(y, days),
       Some (if (days <? 0) || ((if __isleap y then 366 else 365) <=? days) then
               let yg := y + math_div days 365 in
               Next (yg, days - ((yg - y) * 365 + leaps_between y yg))
             else Stop (y, days))) (y, d) = Some (y', d') ∧
    jan1 y' + d' = jan1 y + d ∧ 0 ≤ d' < year_len y'.

Lemma year_len_if y : (if __isleap y then 366 else 365) = year_len y.
Proof. rw /year_len. by destruct (__isleap y). Qed.

(** One guess. *)
Lemma year_found_step n lo hi lo' hi' :
  year_found n lo' hi' →
  (∀ y d, lo ≤ d ≤ hi → d < 0 ∨ year_len y ≤ d →
     let k := d / 365 in lo' ≤ d - 365 * k - (leaps (y + k) - leaps y) ≤ hi') →
  year_found (S n) lo hi.
Proof.
  intros Hn Hstep y d Hd. cbn [loop]. rw year_len_if.
  destruct ((d <? 0) || (year_len y <=? d)) eqn:E.
  - rw leaps_between_spec math_div_floor //. set (k := d / 365) in *.
    replace (d - ((y + k - y) * 365 + (leaps (y + k) - leaps y))) with (d - 365 * k - (leaps (y + k) - leaps y)) by lia.
    destruct (Hn (y + k) (d - 365 * k - (leaps (y + k) - leaps y))) as (y' & d' & E' & Hj & Hr).
    { apply Hstep; [done|]. zbool. destruct E; zbool; lia. }
    exists y', d'. split_and!; [exact E'| |lia|lia]. rw Hj /jan1. lia.
  - exists y, d. zbool. split_and!; [done|done|lia|lia].
Qed.

(** A guess divides the distance by about 1460. *)
Lemma guess_bound y d B :
  - B ≤ d ≤ B → let k := d / 365 in - (366 + B / 1460) ≤ d - 365 * k - (leaps (y + k) - leaps y) ≤ 366 + B / 1460.
Proof.
  intros Hd k. assert (0 ≤ d - 365 * k < 365) as Hm by (rw /k; zdm).
  assert (- (B / 365 + 1) ≤ k ≤ B / 365) as Hk by (rw /k; zdm).
  assert (Z.abs (leaps (y + k) - leaps y) ≤ 1 + B / 1460); [|lia].
  assert ((B / 365 + 4) / 4 ≤ 1 + B / 1460) as Hb by zdm. destruct (Z.lt_ge_cases k 0) as [Hc|Hc].
  - pose proof (leaps_mono (y + k) (- k) ltac:(lia)) as H. replace (y + k + - k) with y in H by lia.
    assert ((- k + 3) / 4 ≤ (B / 365 + 4) / 4) by (apply Z.div_le_mono; lia). lia.
  - pose proof (leaps_mono y k Hc) as H. assert ((k + 3) / 4 ≤ (B / 365 + 4) / 4) by (apply Z.div_le_mono; lia). lia.
Qed.

Lemma leap_cases y : year_len y = 365 + (leaps (y + 1) - leaps y) ∧ 0 ≤ leaps (y + 1) - leaps y ≤ 1.
Proof. rw leap_year. split; [done|]. by destruct (__isleap y). Qed.

(** The last guesses. *)
Lemma year_found_last : year_found 3 (-1) 365.
Proof.
  assert (year_found 1 0 0) as H0.
  { intros y d Hd. assert (d = 0) as -> by lia. exists y, 0. cbn [loop]. rw year_len_if.
    destruct (leap_cases y) as [? ?]. ztest. split_and!; [done|done|lia|lia]. }
  assert (year_found 2 0 365) as H1.
  { apply (year_found_step 1 0 365 0 0); [done|]. intros y d Hd Hc. destruct (leap_cases y) as [? ?].
    assert (d = 365) as -> by lia. cbv zeta; change (365 / 365) with 1; lia. }
  apply (year_found_step 2 (-1) 365 0 365); [done|]. intros y d Hd Hc. destruct (leap_cases y) as [? ?].
  destruct (Z.lt_ge_cases d 0).
  - assert (d = -1) as -> by lia. cbv zeta; change (-1 / 365) with (-1). destruct (leap_cases (y + -1)) as [_ H'].
    replace (y + -1 + 1) with y in H' by lia. lia.
  - assert (d = 365) as -> by lia. cbv zeta; change (365 / 365) with 1; lia.
Qed.

Lemma year_found_near : year_found 5 (-34800) 34800.
Proof.
  apply (year_found_step 4 _ _ (-389) 389).
  - apply (year_found_step 3 _ _ (-1) 365); [apply year_found_last|]. intros y d Hd Hc k.
    assert (0 ≤ d - 365 * k < 365) as Hm by (rw /k; zdm). assert (-2 ≤ k ≤ 1) as Hk by (rw /k; zdm).
    destruct (Z.lt_ge_cases k 0) as [Hk0|Hk0].
    + pose proof (leaps_mono (y + k) (- k) ltac:(lia)) as H. replace (y + k + - k) with y in H by lia.
      assert ((- k + 3) / 4 ≤ 1) by (clear -Hk Hk0; zdm). lia.
    + pose proof (leaps_mono y k Hk0) as H. assert ((k + 3) / 4 ≤ 1) by (apply Z.div_le_upper_bound; lia). lia.
  - intros y d Hd _. pose proof (guess_bound y d 34800 ltac:(lia)) as H. cbv zeta in *. change (34800 / 1460) with 23 in H. lia.
Qed.

Lemma year_found_far : year_found 8 (-106752000000000) 106752000000000.
Proof.
  apply (year_found_step 7 _ _ (-73200000000) 73200000000).
  2:{ intros y d Hd _. pose proof (guess_bound y d 106752000000000 ltac:(lia)) as H. cbv zeta in *.
      change (106752000000000 / 1460) with 73117808219 in H. lia. }
  apply (year_found_step 6 _ _ (-50200000) 50200000).
  2:{ intros y d Hd _. pose proof (guess_bound y d 73200000000 ltac:(lia)) as H. cbv zeta in *.
      change (73200000000 / 1460) with 50136986 in H. lia. }
  apply (year_found_step 5 _ _ (-34800) 34800); [apply year_found_near|].
  intros y d Hd _. pose proof (guess_bound y d 50200000 ltac:(lia)) as H. cbv zeta in *.
  change (50200000 / 1460) with 34383 in H. lia.
Qed.

Lemma year_found_more n m lo hi : (n ≤ m)%nat → year_found n lo hi → year_found m lo hi.
Proof.
  intros Hnm Hn y d Hd. destruct (Hn y d Hd) as (y' & d' & E & H). exists y', d'. split; [|done]. revert E.
  match goal with |- context [loop _ ?b _] => set (B := b) end. clearbody B. clear -Hnm. revert m Hnm. generalize (y, d).
  induction n as [|n IH]; intros s m Hnm; [done|]. destruct m as [|m]; [lia|]. cbn [loop].
  destruct (B s) as [[s'|r]|]; [|done|done]. apply IH. lia.
Qed.

Lemma find_year_spec days :
  Z.abs days ≤ 106752000000000 →
  ∃ y d, find_year days = Some (y, d) ∧ jan1 y + d = days ∧ 0 ≤ d < year_len y.
Proof.
  intros Hd. destruct (year_found_more 8 10 _ _ ltac:(lia) year_found_far 1970 days ltac:(lia)) as (y & d & E & Hj & Hr).
  exists y, d. split_and!; [exact E| |lia|lia]. rw Hj /jan1. lia.
Qed.

(** ** Months *)

(** The day of the year on which a month starts; month 12 is the end of the year. *)
Definition month_start (y m : Z) : Z := default 0 (ip ← rd __mon_yday (Z.b2z (__isleap y)); rd ip m).

Definition find_month (ip : list Z) (days : Z) : option (Z * Z) :=
  loop 13 (λ m, d ← rd ip m; Some (if days <? d then Next (m - 1) else Stop (m, d))) 11.

(** All days of both kinds of years. *)
Definition month_ok (leap : bool) (days : Z) : bool :=
  match rd __mon_yday (Z.b2z leap) with
  | Some ip =>
      match find_month ip days with
      | Some (m, d) =>
          (0 <=? m) && (m <=? 11) && (d <=? days) && (default 0 (rd ip m) =? d) && (days <? default 0 (rd ip (m + 1)))
      | None => false
      end
  | None => false
  end.

Lemma month_ok_all (leap : bool) : forallb (λ n, month_ok leap (Z.of_nat n)) (seq 0 (if leap then 366 else 365)%nat) = true.
Proof. destruct leap; vm_compute; reflexivity. Qed.

Lemma month_ok_day (leap : bool) days : 0 ≤ days < 365 + Z.b2z leap → month_ok leap days = true.
Proof.
  intros Hd. pose proof (month_ok_all leap) as H. rewrite -> forallb_forall in H.
  rewrite <- (Z2Nat.id days) by lia. apply H, in_seq. destruct leap; cbn [Z.b2z] in Hd; lia.
Qed.

Lemma find_month_spec y days :
  0 ≤ days < year_len y →
  ∃ ip m, rd __mon_yday (Z.b2z (__isleap y)) = Some ip ∧ find_month ip days = Some (m, month_start y m) ∧
    0 ≤ m ≤ 11 ∧ month_start y m ≤ days < month_start y (m + 1).
Proof.
  intros Hd. pose proof (month_ok_day (__isleap y) days Hd) as H. rw /month_ok in H. rw /month_start.
  destruct (rd __mon_yday _) as [ip|]; [|done].
  destruct (find_month ip days) as [[m d]|] eqn:E; [|done]. zbool. exists ip, m. cbn [mbind option_bind].
  split_and!; [done| |lia|lia|lia|lia]. rw E. do 2 f_equal. lia.
Qed.

(** The table against the formula of [mktime]. *)
Lemma month_starts y m :
  0 ≤ m ≤ 11 →
  month_start y m =
    if m <? 2 then 367 * (m + 11) / 12 - 336 else 367 * (m - 1) / 12 + 29 + Z.b2z (__isleap y).
Proof.
  intros Hm. rw /month_start. generalize (__isleap y) as b. intros b.
  assert (m = 0 ∨ m = 1 ∨ m = 2 ∨ m = 3 ∨ m = 4 ∨ m = 5 ∨ m = 6 ∨ m = 7 ∨ m = 8 ∨ m = 9 ∨ m = 10 ∨ m = 11) as H by lia.
  destruct b; repeat (destruct H as [-> | H]; [done|]); by subst.
Qed.

Lemma mktime_spec y m day h mi s :
  1970 ≤ y ≤ 11000000 → 0 ≤ m ≤ 11 → 1 ≤ day ≤ 31 → 0 ≤ h < 24 → 0 ≤ mi < 60 → 0 ≤ s < 60 →
  mktime y (m + 1) day h mi s = (((jan1 y + month_start y m + day - 1) * 24 + h) * 60 + mi) * 60 + s.
Proof.
  intros Hy Hm Hday Hh Hmi Hs. rw month_starts // /mktime. pose proof (leap_year y) as Hl.
  assert (leaps 1970 = 477) as H477 by done. rw /jan1 H477.
  assert (477 ≤ leaps y ≤ 3000000) as Hly.
  { pose proof (leaps_mono 1970 (y - 1970) ltac:(lia)) as Hb. replace (1970 + (y - 1970)) with y in Hb by lia.
    assert ((y - 1970 + 3) / 4 ≤ 2900000) by (apply Z.div_le_upper_bound; lia). lia. }
  destruct (Z.ltb_spec m 2) as [Hc|Hc].
  - assert (swrap 32 (wrap 32 (m + 1 - 2)) <=? 0 = true) as ->.
    { assert (m = 0 ∨ m = 1) as [-> | ->] by lia; done. }
    assert (wrap 32 (wrap 32 (m + 1 - 2) + 12) = m + 11) as ->.
    { rw /wrap Zplus_mod_idemp_l. rw Z.mod_small; lia. }
    rw (wrap_small 32 (y - 1)); [|split; lia]. rw (wrap_small 32 (367 * (m + 11))); [|split; lia].
    change ((y - 1) / 4 - (y - 1) / 100 + (y - 1) / 400) with (leaps y).
    assert (336 ≤ 367 * (m + 11) / 12 ≤ 367) by (clear -Hm Hc; zdm). rw (wrap_small 32 (leaps y + _ + _)); [|split; lia].
    rw (wrap_small 32 ((y - 1) * 365)); [|split; lia]. rw wrap_small; [|split; lia]. lia.
  - rw (wrap_small 32 (m + 1 - 2)); [|split; lia]. assert (swrap 32 (m + 1 - 2) <=? 0 = false) as ->.
    { rw swrap_small //; lia. }
    replace (m + 1 - 2) with (m - 1) by lia. rw (wrap_small 32 (367 * (m - 1))); [|split; lia].
    replace (y / 4 - y / 100 + y / 400) with (leaps (y + 1)) by (rw /leaps; by replace (y + 1 - 1) with y by lia).
    assert (0 ≤ 367 * (m - 1) / 12 ≤ 367) by (clear -Hm Hc; zdm). assert (477 ≤ leaps (y + 1) ≤ 3000001) by (destruct (leap_cases y); lia).
    rw (wrap_small 32 (leaps (y + 1) + _ + _)); [|split; lia].
    rw (wrap_small 32 (y * 365)); [|split; lia]. rw wrap_small; [|split; lia]. lia.
Qed.

(** ** Dates *)

(** A date of the Gregorian calendar with its time of day, day of the week and day of the year, and the seconds since the
    epoch it stands for. *)
Definition tm_valid (r : tm) : Prop :=
  let y := tm_year r + 1900 in
  0 ≤ tm_sec r < 60 ∧ 0 ≤ tm_min r < 60 ∧ 0 ≤ tm_hour r < 24 ∧ 0 ≤ tm_mon r ≤ 11 ∧
  1 ≤ tm_mday r ≤ month_start y (tm_mon r + 1) - month_start y (tm_mon r) ∧
  tm_yday r = month_start y (tm_mon r) + tm_mday r - 1 ∧ tm_wday r = (4 + jan1 y + tm_yday r) mod 7.
Definition tm_seconds (r : tm) : Z :=
  (((jan1 (tm_year r + 1900) + tm_yday r) * 24 + tm_hour r) * 60 + tm_min r) * 60 + tm_sec r.

Lemma weekday d : (if Z.rem d 7 <? 0 then Z.rem d 7 + 7 else Z.rem d 7) = d mod 7.
Proof.
  pose proof (Z.quot_rem' d 7) as E. pose proof (Z.rem_bound_abs d 7 ltac:(lia)) as Hr.
  destruct (Z.ltb_spec (Z.rem d 7) 0) as [Hc|Hc].
  - apply Z.mod_unique with (Z.quot d 7 - 1); lia.
  - apply Z.mod_unique with (Z.quot d 7); lia.
Qed.

Lemma month_length y m : 0 ≤ m ≤ 11 → month_start y (m + 1) - month_start y m ≤ 31.
Proof.
  intros Hm. destruct (Z.eq_dec m 11) as [->|].
  - rw /month_start. by destruct (__isleap y).
  - rw !month_starts; [|lia..]. destruct (Z.ltb_spec m 2), (Z.ltb_spec (m + 1) 2); try lia;
      destruct (__isleap y); cbn [Z.b2z]; zdm.
Qed.

Lemma time_to_tm_spec t offset :
  - 2 ^ 63 ≤ t < 2 ^ 63 → - 2 ^ 31 ≤ offset < 2 ^ 31 →
  ∃ r, time_to_tm t offset = Some r ∧ tm_valid r ∧ tm_seconds r = t + offset.
Proof.
  intros Ht Ho. rw /time_to_tm fit_day_spec. cbn [mbind option_bind].
  set (q := Z.quot t SECS_PER_DAY). set (rm := Z.rem t SECS_PER_DAY + offset).
  pose proof (Z.quot_rem' t SECS_PER_DAY) as Et. pose proof (Z.rem_bound_abs t SECS_PER_DAY ltac:(done)) as Hrem. fold q in Et.
  set (sod := rm mod SECS_PER_DAY). pose proof (Z.div_mod rm SECS_PER_DAY ltac:(done)) as Erm. fold sod in Erm.
  pose proof (Z.mod_pos_bound rm SECS_PER_DAY ltac:(done)) as Hsod. fold sod in Hsod. set (days := q + rm / SECS_PER_DAY) in *.
  change SECS_PER_DAY with 86400 in *. change SECS_PER_HOUR with 3600.
  assert (Z.abs days ≤ 106752000000000) as Hdays by (rw /days; lia).
  rewrite -> !(Z.quot_div_nonneg sod), !(Z.rem_mod_nonneg sod) by lia.
  assert (0 ≤ sod mod 3600 < 3600) as Hsh by (apply Z.mod_pos_bound; lia).
  rewrite -> (weekday (4 + days)). rewrite -> (Z.quot_div_nonneg (sod mod 3600)), (Z.rem_mod_nonneg (sod mod 3600)) by lia.
  destruct (find_year_spec days Hdays) as (y & d & -> & Hj & Hd). cbn [mbind option_bind].
  destruct (find_month_spec y d Hd) as (ip & m & -> & Efm & Hm & Hms). cbn [mbind option_bind].
  fold (find_month ip d). rw Efm. cbn [mbind option_bind]. eexists. split; [done|].
  rw /tm_valid /tm_seconds. cbn [tm_sec tm_min tm_hour tm_mon tm_mday tm_yday tm_year tm_wday].
  replace (y - 1900 + 1900) with y by lia. clear Efm.
  assert (sod = 3600 * (sod / 3600) + sod mod 3600) as E1 by (apply Z.div_mod; lia).
  assert (sod mod 3600 = 60 * (sod mod 3600 / 60) + (sod mod 3600) mod 60) as E2 by (apply Z.div_mod; lia).
  pose proof (Z.mod_pos_bound (sod mod 3600) 60 ltac:(lia)) as H60. set (sh := sod mod 3600) in *. set (hh := sod / 3600) in *.
  set (mm := sh / 60) in *. set (ss := sh mod 60) in *. split_and!; try lia.
  - f_equal. lia.
Qed.

(** C30: Breaking a time down is exact for every 64-bit time and 32-bit offset: the search for the year ends, all fields are in range and
    consistent (month lengths, leap years, day of the week), and they stand for the given number of seconds; and for
    the years from 1970 to 11000000 [mktime] gives the number of seconds back. *)
Theorem calendar_roundtrip t offset :
  - 2 ^ 63 ≤ t < 2 ^ 63 → - 2 ^ 31 ≤ offset < 2 ^ 31 →
  ∃ r, time_to_tm t offset = Some r ∧ tm_valid r ∧ tm_seconds r = t + offset ∧
    (1970 ≤ tm_year r + 1900 ≤ 11000000 →
     mktime (tm_year r + 1900) (tm_mon r + 1) (tm_mday r) (tm_hour r) (tm_min r) (tm_sec r) = t + offset).
Proof.
  intros Ht Ho. destruct (time_to_tm_spec t offset Ht Ho) as (r & E & Hv & Hs). exists r. split_and!; [done..|].
  intros Hy. destruct Hv as (H1 & H2 & H3 & H4 & H5 & H6 & _). pose proof (month_length (tm_year r + 1900) (tm_mon r) H4).
  rw mktime_spec //; [|lia]. rewrite <- Hs. rw /tm_seconds H6. lia.
Qed.

Lemma calendar_roundtrip_witness :
  ∃ r, time_to_tm 1342900805 3600 = Some r ∧ tm_valid r ∧ tm_seconds r = 1342904405 ∧
    (1970 ≤ tm_year r + 1900 ≤ 11000000 →
     mktime (tm_year r + 1900) (tm_mon r + 1) (tm_mday r) (tm_hour r) (tm_min r) (tm_sec r) = 1342904405).
Proof. apply (calendar_roundtrip 1342900805 3600); lia. Defined.

(** ** Seconds and nanoseconds *)

Lemma swrap_swrap_add w x y : 0 < w → swrap w (swrap w x + y) = swrap w (x + y).
Proof.
  intros Hw. rw /swrap. f_equal. set (h := 2 ^ (w - 1)). set (m := 2 ^ w).
  replace ((x + h) mod m - h + y + h) with ((x + h) mod m + y) by lia. rw Zplus_mod_idemp_l. f_equal. lia.
Qed.

Lemma iter_swrap d n c : Nat.iter n (λ x, swrap 64 (x + d)) (swrap 64 c) = swrap 64 (c + Z.of_nat n * d).
Proof.
  induction n as [|n IH]; [cbn [Nat.iter nat_rect]; f_equal; lia|]. rewrite -> Nat.iter_succ, IH.
  rw swrap_swrap_add //. f_equal. lia.
Qed.

(** The nanoseconds are brought into a second and the carry goes to the seconds. *)
Lemma set_normalized_timespec_spec sec nsec :
  set_normalized_timespec (swrap 64 sec) nsec =
    Some {| tv_sec := swrap 64 (sec + nsec / NSEC_PER_SEC); tv_nsec := nsec mod NSEC_PER_SEC |}.
Proof.
  rw /set_normalized_timespec. assert (0 < NSEC_PER_SEC) as Hp by done. set (p := NSEC_PER_SEC) in *.
  destruct (Z.lt_ge_cases nsec 0) as [Hc|Hc].
  - replace (Z.to_nat (nsec / p) + 2)%nat with (S (Z.to_nat (nsec / p) + 1)) by lia. cbn [loop]. ztest. cbn [mbind option_bind].
    rewrite -> (loop_ext _ (λ '(c, x), Some (if x <? 0 then Next (swrap 64 (c + -1), x + p) else Stop (c, x)))).
    2:{ intros [c x]. done. }
    rw (add_periods (λ s, swrap 64 (s + -1)) p); [|done|lia|].
    2:{ pose proof (Z.div_mod nsec p ltac:(lia)). pose proof (Z.mod_pos_bound nsec p Hp).
        pose proof (Z.div_mod (- nsec) p ltac:(lia)). pose proof (Z.mod_pos_bound (- nsec) p Hp). nia. }
    rewrite -> iter_swrap. cbn [mbind option_bind]. do 2 f_equal. f_equal.
    assert (nsec / p < 0) by (apply Z.div_lt_upper_bound; lia). lia.
  - rw (drop_periods (λ s, swrap 64 (s + 1)) p); [|done|lia|lia]. rewrite -> iter_swrap. cbn [mbind option_bind].
    pose proof (Z.mod_pos_bound nsec p Hp).
    replace (Z.to_nat (- (nsec mod p) / p) + 2)%nat with (S (Z.to_nat (- (nsec mod p) / p) + 1)) by lia. cbn [loop]. ztest.
    cbn [mbind option_bind]. do 2 f_equal. f_equal. assert (0 ≤ nsec / p) by (apply Z.div_pos; lia). lia.
Qed.

Definition timespec_ok (ts : timespec) : Prop := 0 ≤ tv_sec ts < 2 ^ 63 ∧ 0 ≤ tv_nsec ts < NSEC_PER_SEC.
Definition nanoseconds (ts : timespec) : Z := tv_sec ts * NSEC_PER_SEC + tv_nsec ts.

(** The safe sum is the sum, or the last second that can be represented when the sum cannot. *)
Lemma timespec_add_safe_spec lhs rhs :
  timespec_ok lhs → timespec_ok rhs →
  ∃ res, timespec_add_safe lhs rhs = Some res ∧ timespec_ok res ∧
    if nanoseconds lhs + nanoseconds rhs <? 2 ^ 63 * NSEC_PER_SEC
    then nanoseconds res = nanoseconds lhs + nanoseconds rhs else tv_sec res = TIME_T_MAX.
Proof.
  intros [Hs1 Hn1] [Hs2 Hn2]. rw /timespec_add_safe set_normalized_timespec_spec. cbn [mbind option_bind tv_sec].
  set (ns := tv_nsec lhs + tv_nsec rhs). rw /nanoseconds. change NSEC_PER_SEC with 1000000000 in *.
  assert (0 ≤ ns / 1000000000 ≤ 1) as Hq by (rw /ns; clear -Hn1 Hn2; zdm).
  pose proof (Z.div_mod ns 1000000000 ltac:(lia)) as En. pose proof (Z.mod_pos_bound ns 1000000000 ltac:(lia)) as Hm.
  set (s := tv_sec lhs + tv_sec rhs + ns / 1000000000).
  assert (s = tv_sec lhs + tv_sec rhs + ns / 1000000000 ∧ ns = tv_nsec lhs + tv_nsec rhs) as [Es Ens] by done.
  clearbody s ns. destruct (Z.lt_ge_cases s (2 ^ 63)) as [Hc|Hc].
  - rw (swrap_small 64 s) //; [|lia]. ztest. eexists. split; [done|]. cbn [tv_sec tv_nsec]. split; [split; cbn [tv_sec tv_nsec]; [lia|exact Hm]|]. lia.
  - assert (swrap 64 s = s - 2 ^ 64) as ->.
    { replace s with (s - 2 ^ 64 + 1 * 2 ^ 64) at 1 by lia. rw /swrap.
      replace (s - 2 ^ 64 + 1 * 2 ^ 64 + 2 ^ (64 - 1)) with (s - 2 ^ 64 + 2 ^ (64 - 1) + 1 * 2 ^ 64) by lia.
      rw Z_mod_plus_full. rw Z.mod_small; lia. }
    ztest. eexists. split; [done|]. split; [split; cbn [tv_sec tv_nsec]; [rw /TIME_T_MAX; lia|exact Hm]|done].
Qed.

Lemma ns_to_timespec_roundtrip nsec :
  - 2 ^ 63 ≤ nsec < 2 ^ 63 →
  0 ≤ tv_nsec (ns_to_timespec nsec) < NSEC_PER_SEC ∧ timespec_to_ns (ns_to_timespec nsec) = nsec.
Proof.
  intros Hn. rw /ns_to_timespec /timespec_to_ns. change NSEC_PER_SEC with 1000000000.
  pose proof (Z.quot_rem' nsec 1000000000) as E. pose proof (Z.rem_bound_abs nsec 1000000000 ltac:(lia)) as Hr.
  destruct (Z.eqb_spec nsec 0) as [->|Hz]; [done|]. destruct (Z.ltb_spec (Z.rem nsec 1000000000) 0); cbn [tv_sec tv_nsec]; (split; [lia|]);
    rw swrap_small //; lia.
Qed.
