(* ===== verification/Cmdline.v ===== *)
(** * Option strings: lib/cmdline.c

    Parsing integers, lists of integers with ranges and sizes with a suffix.  [get_options] stays inside its array for
    strings without ranges; a range can write behind it. *)
From S2P Require Import Prelude Ctype Kstrtox.

(** The pointer is behind the number, at the hyphen; [p] is the index of [*pint].  The result, the pointer and
    the array. *)
Definition get_range (str ints : list Z) (p : Z) : option (Z * list Z * list Z) :=
  let str := drop 1 str in
  '(u, _) ← simple_strtol str 0;
  let upper_range := swrap 32 u in
  x0 ← rd ints p;
  let inc_counter := swrap 32 (upper_range - x0) in
  ints ← for_each (Z.to_nat (upper_range - x0)) x0 (λ x ints, wr ints (p + (x - x0)) x) ints;
  Some (inc_counter, str, ints).

(** The result, the pointer and the array; [None] is the null pointer. *)
Definition get_option (str : option (list Z)) (ints : list Z) (p : Z) : option (Z * option (list Z) * list Z) :=
  match str with
  | None => Some (0, None, ints)
  | Some cur =>
      c ← rd cur 0;
      if c =? 0 then Some (0, Some cur, ints) else
      '(v, e) ← simple_strtol cur 0;
      ints ← wr ints p (swrap 32 v);
      if (length cur =? length e)%nat then Some (0, Some e, ints) else
      d ← rd e 0;
      if d =? 44 then Some (2, Some (drop 1 e), ints)
      else if d =? 45 then Some (3, Some e, ints)
      else Some (1, Some e, ints)
  end.

(** Every round but the last moves the pointer. *)
Definition get_options (str : list Z) (nints : Z) (ints : list Z) : option (list Z * list Z) :=
  '(str, i, ints) ← loop (S (length str))
    (λ '(str, i, ints),
       if i <? nints then
         '(res, str', ints) ← get_option (Some str) ints i;
         str ← str';
         if res =? 0 then Some (Stop (str, i, ints)) else
         r ← (if res =? 3 then
                '(range_nums, str, ints) ← get_range str ints i;
                Some (if range_nums <? 0 then Stop (str, i, ints) else Next (str, i + (range_nums - 1), ints))
              else Some (Next (str, i, ints)));
         match r with
         | Stop st => Some (Stop st)
         | Next (str, i, ints) => Some (if res =? 1 then Stop (str, i + 1, ints) else Next (str, i + 1, ints))
         end
       else Some (Stop (str, i, ints)))
    (str, 1, ints);
  ints ← wr ints 0 (i - 1);
  Some (str, ints).

(** The value and the pointer behind the suffix; the cases fall through. *)
Definition memparse (ptr : list Z) : option (Z * list Z) :=
  '(ret, endptr) ← simple_strtoull ptr 0;
  c ← rd endptr 0;
  let one_of a b := (c =? a) || (c =? b) in
  if one_of 71 103 then Some (bshl 64 (bshl 64 (bshl 64 ret 10) 10) 10, drop 1 endptr)
  else if one_of 77 109 then Some (bshl 64 (bshl 64 ret 10) 10, drop 1 endptr)
  else if one_of 75 107 then Some (bshl 64 ret 10, drop 1 endptr)
  else Some (ret, endptr).

(** "3,0x10,5-7,1" *)
Example get_options_list :
  get_options [51; 44; 48; 120; 49; 48; 44; 53; 45; 55; 44; 49; 0] 10 (replicate 10 99) =
    Some ([0], [6; 3; 16; 5; 6; 7; 1; 99; 99; 99]).
Proof. vm_compute. reflexivity. Qed.

(** "4M" *)
Example memparse_4M : memparse [52; 77; 0] = Some (4194304, [0]).
Proof. vm_compute. reflexivity. Qed.

(** ** Lists without ranges *)

(** A terminated string without a hyphen. *)
Definition plain_string (s : list Z) : Prop := 0 ∈ s ∧ 45 ∉ s ∧ Z.of_nat (length s) < 2 ^ 31.

Lemma plain_drop s k : plain_string s → 0 ∈ drop k s → plain_string (drop k s).
Proof.
  intros (H1 & H2 & H3) H. split_and!; [done| |rw length_drop; lia]. intros Hin. apply H2.
  rewrite <- (take_drop k s). apply elem_of_app. by right.
Qed.

(** Both conversions of a number stop inside the string, and only behind it at a terminator of the number. *)
Lemma get_option_ok s ints p :
  plain_string s → 0 ≤ p < Z.of_nat (length ints) →
  ∃ res k ints', get_option (Some s) ints p = Some (res, Some (drop k s), ints') ∧ plain_string (drop k s) ∧
    (res = 0 ∨ (res = 1 ∨ res = 2) ∧ (0 < k ≤ length s)%nat) ∧ length ints' = length ints ∧ ∀ i, i ≠ p → rd ints' i = rd ints i.
Proof.
  intros Hs Hp. destruct (Hs) as (Hnul & Hhy & Hlen). rw /get_option. destruct (rd_terminated s 0) as [c Ec]; [done|done|].
  rw Ec. cbn [mbind option_bind]. destruct (Z.eqb_spec c 0) as [->|Hc].
  { exists 0, 0%nat, ints. rw drop_0. split; [done|]. split; [done|]. split; [by left|done]. }
  assert (c ≠ 45) as Hc45.
  { intros ->. apply Hhy. apply rd_Some in Ec as [_ Ec]. by eapply list_elem_of_lookup_2. }
  rw /simple_strtol Ec. cbn [mbind option_bind]. ztest. rw /simple_strtoul.
  destruct (simple_strtoull_total s 0 (or_introl eq_refl) Hnul Hlen) as (v & k & -> & Hk). cbn [mbind option_bind].
  pose proof (plain_drop s k Hs Hk) as Hpk. pose proof (wr_in ints p (swrap 32 (swrap 64 v)) Hp) as Ei. set (ints' := <[_ := _]> ints) in Ei. rw Ei. cbn [mbind option_bind].
  assert (length ints' = length ints ∧ ∀ i, i ≠ p → rd ints' i = rd ints i) as [Hl Hr].
  { split; [by eapply wr_length|]. intros i Hi. by eapply rd_wr_ne. }
  destruct (Nat.eqb_spec (length s) (length (drop k s))) as [El|El].
  { exists 0, k, ints'. split; [done|]. split; [done|]. split; [by left|done]. }
  destruct (rd_terminated (drop k s) 0) as [d Ed]; [done|done|]. rw Ed. cbn [mbind option_bind].
  assert (d ≠ 45) as Hd45.
  { intros ->. destruct Hpk as (_ & Hn & _). apply Hn. apply rd_Some in Ed as [_ Ed]. by eapply list_elem_of_lookup_2. }
  destruct (Z.eqb_spec d 44) as [->|].
  - assert (0 ∈ drop (k + 1) s) as Hk1.
    { rewrite <- drop_drop. exact (rd_next (drop k s) 0 44 Hk Ed ltac:(done)). }
    exists 2, (k + 1)%nat, ints'. rw drop_drop. split; [done|]. split; [by apply plain_drop|]. split; [|done]. right. split; [by right|]. split; [lia|]. destruct (decide (k + 1 ≤ length s)%nat); [done|].
    rewrite -> drop_ge in Hk1 by lia. by apply elem_of_nil in Hk1.
  - ztest. exists 1, k, ints'. split; [done|]. split; [done|]. split; [|done]. right. split; [by left|].
    rw length_drop in El. split; [lia|]. destruct (decide (k ≤ length s)%nat); [done|]. rewrite -> drop_ge in Hk by lia. by apply elem_of_nil in Hk.
Qed.

(** [get_options] stays inside an array of [nints] integers when the string has no range: it returns, and the count in
    the first element is below [nints]; at most one element behind the counted ones is written.  With
    a range it does not stop when the array is full: the string 1-9 writes behind an array of four integers. *)
Theorem get_options_bounds str nints ints :
  plain_string str → 1 ≤ nints ≤ Z.of_nat (length ints) →
  (∃ rest ints' n, get_options str nints ints = Some (rest, ints') ∧ length ints' = length ints ∧
     rd ints' 0 = Some n ∧ 0 ≤ n < nints ∧ (∀ i, n + 1 < i ∨ nints ≤ i → rd ints' i = rd ints i)) ∧
  get_options [49; 45; 57; 0] 4 [0; 0; 0; 0] = None.
Proof.
  intros Hs Hn. split; [|vm_compute; reflexivity]. rw /get_options.
  match goal with |- context [loop _ ?body _] => set (B := body) end.
  assert (∃ r, loop (S (length str)) B (str, 1, ints) = Some r ∧
    let '(_, i, ints') := r in 1 ≤ i ≤ nints ∧ length ints' = length ints ∧
      ∀ j, i < j ∨ nints ≤ j → rd ints' j = rd ints j) as ([[rest i] ints'] & -> & Hi & Hl & Hr).
  { apply (loop_inv (λ '(s, i, a), plain_string s ∧ 1 ≤ i ≤ nints ∧ length a = length ints ∧
        ∀ j, i ≤ j → rd a j = rd ints j) (λ '(s, _, _), length s)); [|split; [done|]; split; [lia|done]|cbn; lia].
    intros [[s i] a] (Hp & Hi & Hl & Hr). rw /B. destruct (Z.ltb_spec i nints) as [Hc|Hc].
    2:{ right. eexists. split; [done|]. split_and!; [lia|lia|done|]. intros j Hj. apply Hr. lia. }
    destruct (get_option_ok s a i Hp ltac:(lia)) as (res & k & a' & -> & Hp' & Hres & Hl' & Hr'). cbn [mbind option_bind].
    destruct Hres as [->|[Hres Hk]].
    { right. eexists. split; [done|]. split_and!; [lia|lia|lia|]. intros j Hj. rw Hr'; [|lia]. apply Hr. lia. }
    destruct Hres as [-> | ->]; cbn.
    - right. eexists. split; [done|]. split_and!; [lia|lia|lia|]. intros j Hj. rw Hr'; [|lia]. apply Hr. lia.
    - left. eexists. split; [done|]. split; [|rw length_drop; lia]. split_and!; [apply Hp'..|lia|lia|lia|].
      intros j Hj. rw Hr'; [|lia]. apply Hr. lia. }
  cbn [mbind option_bind]. pose proof (wr_in ints' 0 (i - 1) ltac:(lia)) as Ea. set (a := <[_ := _]> ints') in Ea. rw Ea. cbn [mbind option_bind].
  exists rest, a, (i - 1). split_and!; [done|rewrite -> (wr_length _ _ _ _ Ea); done|by eapply rd_wr_eq|lia|lia|].
  intros j Hj. rw (rd_wr_ne _ _ _ _ _ Ea); [|lia]. apply Hr. lia.
Qed.

Lemma get_options_bounds_witness :
  ∃ rest ints' n, get_options [51; 44; 52; 0] 3 [0; 0; 0; 7] = Some (rest, ints') ∧ length ints' = 4%nat ∧
    rd ints' 0 = Some n ∧ 0 ≤ n < 3 ∧ (∀ i, n + 1 < i ∨ 3 ≤ i → rd ints' i = rd [0; 0; 0; 7] i).
Proof.
  apply (get_options_bounds [51; 44; 52; 0] 3 [0; 0; 0; 7]); [|cbn; lia]. split; [|split; [|done]].
  - do 3 right. left.
  - intros H. repeat (apply elem_of_cons in H as [H|H]; [discriminate|]). by apply elem_of_nil in H.
Defined.

(** Sizes: the suffix multiplies. *)
Lemma memparse_spec s :
  0 ∈ s → Z.of_nat (length s) < 2 ^ 31 →
  ∃ v rest c, simple_strtoull s 0 = Some (v, c :: rest) ∧
    memparse s = Some (if (c =? 71) || (c =? 103) then (wrap 64 (v * 2 ^ 30), rest)
                       else if (c =? 77) || (c =? 109) then (wrap 64 (v * 2 ^ 20), rest)
                       else if (c =? 75) || (c =? 107) then (wrap 64 (v * 2 ^ 10), rest) else (v, c :: rest)).
Proof.
  intros H Hl. destruct (simple_strtoull_total s 0 (or_introl eq_refl) H Hl) as (v & k & E & Hk). destruct (drop k s) as [|c rest] eqn:Ed.
  { by apply elem_of_nil in Hk. }
  exists v, rest, c. split; [done|]. rw /memparse E. cbn [mbind option_bind]. change (rd (c :: rest) 0) with (Some c). cbn [mbind option_bind drop].
  assert (∀ x, bshl 64 x 10 = wrap 64 (x * 2 ^ 10)) as Hb.
  { intros x. rw /bshl Z.shiftl_mul_pow2 // land_ones_wrap //. }
  assert (∀ x a b, wrap 64 (wrap 64 (x * a) * b) = wrap 64 (x * (a * b))) as Hw.
  { intros x a b. rw /wrap Zmult_mod_idemp_l. f_equal. ring. }
  rw !Hb drop_0. rw !Hw. change (2 ^ 10 * 2 ^ 10 * 2 ^ 10) with (2 ^ 30). change (2 ^ 10 * 2 ^ 10) with (2 ^ 20).
  by destruct ((c =? 71) || (c =? 103)), ((c =? 77) || (c =? 109)), ((c =? 75) || (c =? 107)).
Qed.
