(* ===== verification/Rbtree.v ===== *)
(** * Red-black trees: lib/rbtree.c, include/linux/rbtree.h

    The nodes live in a store by address; an address is a positive multiple of four, and 0 is the null pointer.  As in
    the code, a node keeps the address of its parent and its colour in one word.  All functions work on the store and
    the root pointer; following a pointer that is not the address of a node is a fault. *)
From S2P Require Import Prelude.

(** ** Nodes *)

Record rb_node := { rb_parent_color : Z; rb_right : Z; rb_left : Z }.

(** The nodes and [root->rb_node]. *)
Record rb_state := { rb_nodes : gmap Z rb_node; rb_top : Z }.

Definition RB_RED : Z := 0.
Definition RB_BLACK : Z := 1.

Definition rb_parent (n : rb_node) : Z := Z.land (rb_parent_color n) (Z.lnot 3).
Definition rb_color (n : rb_node) : Z := Z.land (rb_parent_color n) 1.

(** Assignments to the fields of the node at an address. *)
Definition upd_node (f : rb_node → rb_node) (p : Z) (s : rb_state) : option rb_state :=
  n ← rb_nodes s !! p; Some {| rb_nodes := <[p := f n]> (rb_nodes s); rb_top := rb_top s |}.
Definition set_parent_color (v : Z) : Z → rb_state → option rb_state :=
  upd_node (λ n, {| rb_parent_color := v; rb_right := rb_right n; rb_left := rb_left n |}).
Definition set_right (p v : Z) : rb_state → option rb_state :=
  upd_node (λ n, {| rb_parent_color := rb_parent_color n; rb_right := v; rb_left := rb_left n |}) p.
Definition set_left (p v : Z) : rb_state → option rb_state :=
  upd_node (λ n, {| rb_parent_color := rb_parent_color n; rb_right := rb_right n; rb_left := v |}) p.
Definition set_top (v : Z) (s : rb_state) : rb_state := {| rb_nodes := rb_nodes s; rb_top := v |}.

Definition rb_set_parent (rb p : Z) (s : rb_state) : option rb_state :=
  n ← rb_nodes s !! rb; set_parent_color (Z.lor (Z.land (rb_parent_color n) 3) p) rb s.
Definition rb_set_color (rb color : Z) (s : rb_state) : option rb_state :=
  n ← rb_nodes s !! rb; set_parent_color (Z.lor (Z.land (rb_parent_color n) (Z.lnot 1)) color) rb s.
Definition rb_set_red (rb : Z) (s : rb_state) : option rb_state :=
  n ← rb_nodes s !! rb; set_parent_color (Z.land (rb_parent_color n) (Z.lnot 1)) rb s.
Definition rb_set_black (rb : Z) (s : rb_state) : option rb_state :=
  n ← rb_nodes s !! rb; set_parent_color (Z.lor (rb_parent_color n) 1) rb s.

Definition left_of (p : Z) (s : rb_state) : option Z := rb_left <$> rb_nodes s !! p.
Definition right_of (p : Z) (s : rb_state) : option Z := rb_right <$> rb_nodes s !! p.
Definition parent_of (p : Z) (s : rb_state) : option Z := rb_parent <$> rb_nodes s !! p.
Definition rb_is_red (p : Z) (s : rb_state) : option bool := (λ n, rb_color n =? 0) <$> rb_nodes s !! p.
(** [!p || rb_is_black(p)]. *)
Definition black_or_null (p : Z) (s : rb_state) : option bool :=
  if p =? 0 then Some true else negb <$> rb_is_red p s.

(** A node that is in no tree is its own parent. *)
Definition RB_EMPTY_NODE (node : Z) (s : rb_state) : option bool := p ← parent_of node s; Some (p =? node).
Definition RB_CLEAR_NODE (node : Z) (s : rb_state) : option rb_state := rb_set_parent node node s.
Definition rb_init_node (rb : Z) (s : rb_state) : option rb_state :=
  s ← upd_node (λ _, {| rb_parent_color := 0; rb_right := 0; rb_left := 0 |}) rb s; RB_CLEAR_NODE rb s.

(** [rb_link_node(node, parent, rb_link)]: [link] is the pointer that becomes [node], the root ([None]) or a child of [parent]. *)
Definition rb_link_node (node parent : Z) (link : option bool) (s : rb_state) : option rb_state :=
  s ← upd_node (λ _, {| rb_parent_color := parent; rb_right := 0; rb_left := 0 |}) node s;
  match link with
  | None => Some (set_top node s)
  | Some true => set_left parent node s
  | Some false => set_right parent node s
  end.

(** ** Rotations *)

Definition __rb_rotate_left (node : Z) (s : rb_state) : option rb_state :=
  right ← right_of node s;
  parent ← parent_of node s;
  m ← left_of right s;
  s ← set_right node m s;
  s ← (if negb (m =? 0) then m ← left_of right s; rb_set_parent m node s else Some s);
  s ← set_left right node s;
  s ← rb_set_parent right parent s;
  s ← (if negb (parent =? 0) then
         l ← left_of parent s;
         if node =? l then set_left parent right s else set_right parent right s
       else Some (set_top right s));
  rb_set_parent node right s.

Definition __rb_rotate_right (node : Z) (s : rb_state) : option rb_state :=
  left ← left_of node s;
  parent ← parent_of node s;
  m ← right_of left s;
  s ← set_left node m s;
  s ← (if negb (m =? 0) then m ← right_of left s; rb_set_parent m node s else Some s);
  s ← set_right left node s;
  s ← rb_set_parent left parent s;
  s ← (if negb (parent =? 0) then
         r ← right_of parent s;
         if node =? r then set_right parent left s else set_left parent left s
       else Some (set_top left s));
  rb_set_parent node left s.

(** ** Insertion *)

(** [if (uncle && rb_is_red(uncle))]: the three nodes change colour. *)
Definition red_uncle (uncle : Z) (s : rb_state) : option bool :=
  if uncle =? 0 then Some false else rb_is_red uncle s.
Definition push_red (uncle parent gparent : Z) (s : rb_state) : option rb_state :=
  s ← rb_set_black uncle s; s ← rb_set_black parent s; rb_set_red gparent s.

(** One round for a red parent: the new [node]. *)
Definition insert_round (node parent : Z) (s : rb_state) : option (Z * rb_state) :=
  gparent ← parent_of parent s;
  gl ← left_of gparent s;
  if parent =? gl then
    uncle ← right_of gparent s;
    red ← red_uncle uncle s;
    if red : bool then s ← push_red uncle parent gparent s; Some (gparent, s) else
    r ← right_of parent s;
    '(node, parent, s) ← (if r =? node then s ← __rb_rotate_left parent s; Some (parent, node, s) else Some (node, parent, s));
    s ← rb_set_black parent s;
    s ← rb_set_red gparent s;
    s ← __rb_rotate_right gparent s;
    Some (node, s)
  else
    uncle ← left_of gparent s;
    red ← red_uncle uncle s;
    if red : bool then s ← push_red uncle parent gparent s; Some (gparent, s) else
    l ← left_of parent s;
    '(node, parent, s) ← (if l =? node then s ← __rb_rotate_right parent s; Some (parent, node, s) else Some (node, parent, s));
    s ← rb_set_black parent s;
    s ← rb_set_red gparent s;
    s ← __rb_rotate_left gparent s;
    Some (node, s).

(** Every round either goes up or is the last but one. *)
Definition rb_insert_color (node : Z) (s : rb_state) : option rb_state :=
  s ← loop (S (S (size (rb_nodes s))))
    (λ '(node, s),
       parent ← parent_of node s;
       red ← (if parent =? 0 then Some false else rb_is_red parent s);
       if red : bool then '(node, s) ← insert_round node parent s; Some (Next (node, s)) else Some (Stop s))
    (node, s);
  rb_set_black (rb_top s) s.

(** ** Removal *)

(** The two halves of a round: [node] is the left child of [parent] and [other] its right child, or the other way
    round. *)
Definition erase_left (parent : Z) (s : rb_state) : option (ctl (Z * Z * rb_state) (Z * rb_state)) :=
  other ← right_of parent s;
  red ← rb_is_red other s;
  '(other, s) ← (if red : bool then
                   s ← rb_set_black other s; s ← rb_set_red parent s; s ← __rb_rotate_left parent s;
                   other ← right_of parent s; Some (other, s)
                 else Some (other, s));
  ol ← left_of other s; orr ← right_of other s;
  bl ← black_or_null ol s; br ← black_or_null orr s;
  if bl && br then
    s ← rb_set_red other s;
    up ← parent_of parent s;
    Some (Next (parent, up, s))
  else
    '(other, s) ← (if br : bool then
                     l ← left_of other s; s ← rb_set_black l s; s ← rb_set_red other s; s ← __rb_rotate_right other s;
                     other ← right_of parent s; Some (other, s)
                   else Some (other, s));
    n ← rb_nodes s !! parent;
    s ← rb_set_color other (rb_color n) s;
    s ← rb_set_black parent s;
    r ← right_of other s;
    s ← rb_set_black r s;
    s ← __rb_rotate_left parent s;
    Some (Stop (rb_top s, s)).

Definition erase_right (parent : Z) (s : rb_state) : option (ctl (Z * Z * rb_state) (Z * rb_state)) :=
  other ← left_of parent s;
  red ← rb_is_red other s;
  '(other, s) ← (if red : bool then
                   s ← rb_set_black other s; s ← rb_set_red parent s; s ← __rb_rotate_right parent s;
                   other ← left_of parent s; Some (other, s)
                 else Some (other, s));
  ol ← left_of other s; orr ← right_of other s;
  bl ← black_or_null ol s; br ← black_or_null orr s;
  if bl && br then
    s ← rb_set_red other s;
    up ← parent_of parent s;
    Some (Next (parent, up, s))
  else
    '(other, s) ← (if bl : bool then
                     r ← right_of other s; s ← rb_set_black r s; s ← rb_set_red other s; s ← __rb_rotate_left other s;
                     other ← left_of parent s; Some (other, s)
                   else Some (other, s));
    n ← rb_nodes s !! parent;
    s ← rb_set_color other (rb_color n) s;
    s ← rb_set_black parent s;
    l ← left_of other s;
    s ← rb_set_black l s;
    s ← __rb_rotate_right parent s;
    Some (Stop (rb_top s, s)).

Definition __rb_erase_color (node parent : Z) (s : rb_state) : option rb_state :=
  '(node, s) ← loop (S (S (size (rb_nodes s))))
    (λ '(node, parent, s),
       black ← black_or_null node s;
       if black && negb (node =? rb_top s) then
         l ← left_of parent s;
         if l =? node then erase_left parent s else erase_right parent s
       else Some (Stop (node, s)))
    (node, parent, s);
  if negb (node =? 0) then rb_set_black node s else Some s.

(** [if (parent) ... else root->rb_node = new]: the pointer to [old] becomes [new]. *)
Definition replace_child (parent old new : Z) (s : rb_state) : option rb_state :=
  if negb (parent =? 0) then
    l ← left_of parent s;
    if l =? old then set_left parent new s else set_right parent new s
  else Some (set_top new s).

(** [while ((left = node->rb_left) != NULL) node = left;]. *)
Definition leftmost (node : Z) (s : rb_state) : option Z :=
  loop (S (size (rb_nodes s))) (λ node, l ← left_of node s; Some (if negb (l =? 0) then Next l else Stop node)) node.
Definition rightmost (node : Z) (s : rb_state) : option Z :=
  loop (S (size (rb_nodes s))) (λ node, r ← right_of node s; Some (if negb (r =? 0) then Next r else Stop node)) node.

(** Taking out a node with at most one child: [child], [parent], [color] and the tree. *)
Definition erase_simple (node child : Z) (s : rb_state) : option (Z * Z * Z * rb_state) :=
  n ← rb_nodes s !! node;
  let parent := rb_parent n in
  let color := rb_color n in
  s ← (if negb (child =? 0) then rb_set_parent child parent s else Some s);
  s ← replace_child parent node child s;
  Some (child, parent, color, s).

(** A node with two children is replaced by its successor. *)
Definition erase_two (old : Z) (s : rb_state) : option (Z * Z * Z * rb_state) :=
  r ← right_of old s;
  node ← leftmost r s;
  up ← parent_of old s;
  s ← replace_child up old node s;
  child ← right_of node s;
  n ← rb_nodes s !! node;
  let parent := rb_parent n in
  let color := rb_color n in
  '(parent, s) ← (if parent =? old then Some (node, s)
                  else
                    s ← (if negb (child =? 0) then rb_set_parent child parent s else Some s);
                    s ← set_left parent child s;
                    r ← right_of old s;
                    s ← set_right node r s;
                    r ← right_of old s;
                    s ← rb_set_parent r node s;
                    Some (parent, s));
  o ← rb_nodes s !! old;
  s ← set_parent_color (rb_parent_color o) node s;
  l ← left_of old s;
  s ← set_left node l s;
  l ← left_of old s;
  s ← rb_set_parent l node s;
  Some (child, parent, color, s).

Definition rb_erase (node : Z) (s : rb_state) : option rb_state :=
  l ← left_of node s;
  r ← right_of node s;
  '(child, parent, color, s) ←
    (if l =? 0 then erase_simple node r s
     else if r =? 0 then erase_simple node l s
     else erase_two node s);
  if color =? RB_BLACK then __rb_erase_color child parent s else Some s.

(** ** Walking *)

Definition rb_first (s : rb_state) : option Z := if rb_top s =? 0 then Some 0 else leftmost (rb_top s) s.
Definition rb_last (s : rb_state) : option Z := if rb_top s =? 0 then Some 0 else rightmost (rb_top s) s.

Definition rb_next (node : Z) (s : rb_state) : option Z :=
  p ← parent_of node s;
  if p =? node then Some 0 else
  r ← right_of node s;
  if negb (r =? 0) then leftmost r s else
  loop (S (size (rb_nodes s)))
    (λ node,
       parent ← parent_of node s;
       if parent =? 0 then Some (Stop parent) else
       r ← right_of parent s;
       Some (if node =? r then Next parent else Stop parent)) node.

Definition rb_prev (node : Z) (s : rb_state) : option Z :=
  p ← parent_of node s;
  if p =? node then Some 0 else
  l ← left_of node s;
  if negb (l =? 0) then rightmost l s else
  loop (S (size (rb_nodes s)))
    (λ node,
       parent ← parent_of node s;
       if parent =? 0 then Some (Stop parent) else
       l ← left_of parent s;
       Some (if node =? l then Next parent else Stop parent)) node.

Definition rb_replace_node (victim new : Z) (s : rb_state) : option rb_state :=
  parent ← parent_of victim s;
  s ← (if negb (parent =? 0) then
         l ← left_of parent s;
         if victim =? l then set_left parent new s else set_right parent new s
       else Some (set_top new s));
  l ← left_of victim s;
  s ← (if negb (l =? 0) then rb_set_parent l new s else Some s);
  r ← right_of victim s;
  s ← (if negb (r =? 0) then rb_set_parent r new s else Some s);
  v ← rb_nodes s !! victim;
  upd_node (λ _, v) new s.

(** ** Augmented trees *)

Section augment.
(** The data of the user and the callback, which may look at the tree. *)
Context {D : Type} (func : Z → rb_state → D → option D).

(** One round per node on the way to the root. *)
Definition rb_augment_path (node : Z) (s : rb_state) (data : D) : option D :=
  loop (S (size (rb_nodes s)))
    (λ '(node, data),
       data ← func node s data;
       parent ← parent_of node s;
       if parent =? 0 then Some (Stop data) else
       l ← left_of parent s;
       r ← right_of parent s;
       data ← (if (node =? l) && negb (r =? 0) then func r s data
               else if negb (l =? 0) then func l s data else Some data);
       Some (Next (parent, data)))
    (node, data).

Definition rb_augment_insert (node : Z) (s : rb_state) (data : D) : option D :=
  l ← left_of node s;
  r ← right_of node s;
  rb_augment_path (if negb (l =? 0) then l else if negb (r =? 0) then r else node) s data.

Definition rb_augment_erase_begin (node : Z) (s : rb_state) : option Z :=
  l ← left_of node s;
  r ← right_of node s;
  if (r =? 0) && (l =? 0) then parent_of node s
  else if r =? 0 then Some l
  else if l =? 0 then Some r
  else
    deepest ← rb_next node s;
    r ← right_of deepest s;
    if negb (r =? 0) then Some r
    else p ← parent_of deepest s; Some (if negb (p =? node) then p else deepest).

Definition rb_augment_erase_end (node : Z) (s : rb_state) (data : D) : option D :=
  if negb (node =? 0) then rb_augment_path node s data else Some data.
End augment.

(** ** Examples: building a tree and taking it apart *)

(** Nodes at the addresses 4, 8, ..., not yet in a tree. *)
Definition demo_nodes (n : nat) : gmap Z rb_node :=
  list_to_map ((λ i, (4 * Z.of_nat i, {| rb_parent_color := 0; rb_right := 0; rb_left := 0 |})) <$> seq 1 n).

(** Insertion by the address as key, as the users of the tree do it. *)
Definition demo_insert (node : Z) (s : rb_state) : option rb_state :=
  '(parent, link) ← loop (S (size (rb_nodes s)))
    (λ '(parent, link, cur),
       if cur =? 0 then Some (Stop (parent, link))
       else if node <? cur then l ← left_of cur s; Some (Next (cur, Some true, l))
       else r ← right_of cur s; Some (Next (cur, Some false, r)))
    (0, None, rb_top s);
  s ← rb_link_node node parent link s;
  rb_insert_color node s.

(** The nodes in order, from [rb_first] and [rb_next]. *)
Fixpoint walk_from (n : nat) (p : Z) (s : rb_state) : option (list Z) :=
  match n with
  | O => Some []
  | S n' => if p =? 0 then Some [] else q ← rb_next p s; l ← walk_from n' q s; Some (p :: l)
  end.

Example rbtree_demo :
  (s ← foldl (λ s a, s ← s; demo_insert a s) (Some {| rb_nodes := demo_nodes 9; rb_top := 0 |}) [4; 8; 12; 16; 20; 36; 32; 28; 24];
   s ← rb_erase 16 s; s ← rb_erase 4 s; s ← rb_erase 28 s;
   p ← rb_first s; walk_from 20 p s) = Some [8; 12; 20; 24; 32; 36].
Proof. vm_compute. reflexivity. Qed.
