(* ===== verification/RbtreeRep.v ===== *)
(** * Red-black trees: the trees that the nodes represent

    [inside s k t] says that the store holds the tree [t] in the context [k]: the nodes of [t] and of the
    path from it to the root, with all their links, colours and parents.  The rotations and the changes of colour are
    described once, here, as steps from one such tree to another; the algorithms are built from them. *)
From S2P Require Import Prelude Rbtree.

(** ** The word that holds parent and colour *)

Definition mk (par : Z) (c : bool) (l r : Z) : rb_node :=
  {| rb_parent_color := par + Z.b2z c; rb_right := r; rb_left := l |}.

Definition ptr_ok (p : Z) : Prop := 0 ≤ p ∧ p mod 4 = 0.

Lemma lnot_ones x n : 0 ≤ n → Z.land x (Z.lnot (Z.ones n)) = x / 2 ^ n * 2 ^ n.
Proof. intros Hn. rewrite <- Z.ldiff_land. by rw Z.ldiff_ones_r // Z.shiftr_div_pow2 // Z.shiftl_mul_pow2. Qed.

Lemma lor_even q (c : bool) : 0 ≤ q → Z.lor (2 * q) (Z.b2z c) = 2 * q + Z.b2z c.
Proof. intros Hq. destruct c; cbn [Z.b2z]; [|by rw Z.lor_0_r Z.add_0_r]. by destruct q. Qed.

Lemma rb_parent_mk par c l r : ptr_ok par → rb_parent (mk par c l r) = par.
Proof.
  intros [H0 H4]. rw /rb_parent /mk. cbn [rb_parent_color]. change 3 with (Z.ones 2). rw lnot_ones //. change (2 ^ 2) with 4.
  destruct c; cbn [Z.b2z]; zdm.
Qed.

Lemma rb_color_mk par c l r : ptr_ok par → rb_color (mk par c l r) = Z.b2z c.
Proof.
  intros [H0 H4]. rw /rb_color /mk. cbn [rb_parent_color]. change 1 with (Z.ones 1). rw Z.land_ones //. change (2 ^ 1) with 2.
  destruct c; cbn [Z.b2z]; zdm.
Qed.

(** The store with one node changed. *)
Definition upd (a : Z) (n : rb_node) (s : rb_state) : rb_state := {| rb_nodes := <[a := n]> (rb_nodes s); rb_top := rb_top s |}.

Section fields.
Context (s : rb_state) (a par : Z) (c : bool) (l r : Z) (Hn : rb_nodes s !! a = Some (mk par c l r)) (Hp : ptr_ok par).

Lemma left_of_mk : left_of a s = Some l.
Proof using Hn. by rw /left_of Hn. Qed.
Lemma right_of_mk : right_of a s = Some r.
Proof using Hn. by rw /right_of Hn. Qed.
Lemma parent_of_mk : parent_of a s = Some par.
Proof using All. rw /parent_of Hn /=. by rw rb_parent_mk. Qed.
Lemma is_red_mk : rb_is_red a s = Some (negb c).
Proof using All. rw /rb_is_red Hn /=. rw rb_color_mk //. by destruct c. Qed.
Lemma set_left_mk v : set_left a v s = Some (upd a (mk par c v r) s).
Proof using Hn. by rw /set_left /upd_node Hn. Qed.
Lemma set_right_mk v : set_right a v s = Some (upd a (mk par c l v) s).
Proof using Hn. by rw /set_right /upd_node Hn. Qed.

Lemma set_pc_mk v par' c' : v = par' + Z.b2z c' → set_parent_color v a s = Some (upd a (mk par' c' l r) s).
Proof using Hn. intros ->. by rw /set_parent_color /upd_node Hn. Qed.

Lemma set_parent_mk p : ptr_ok p → rb_set_parent a p s = Some (upd a (mk p c l r) s).
Proof using All.
  intros [H1 H2]. rw /rb_set_parent Hn. cbn [mbind option_bind]. apply set_pc_mk. cbn [rb_parent_color mk].
  change 3 with (Z.ones 2). rw Z.land_ones // Z.lor_comm. change (2 ^ 2) with 4. destruct Hp as [? ?].
  replace ((par + Z.b2z c) mod 4) with (Z.b2z c) by (destruct c; cbn [Z.b2z]; zdm).
  replace p with (2 * (p / 2)) by zdm. apply lor_even. zdm.
Qed.

Lemma set_black_mk : rb_set_black a s = Some (upd a (mk par true l r) s).
Proof using All.
  rw /rb_set_black Hn. cbn [mbind option_bind]. apply set_pc_mk. cbn [rb_parent_color mk]. destruct Hp as [? ?].
  replace par with (2 * (par / 2)) by zdm. destruct c; cbn [Z.b2z]; [|rw Z.add_0_r; apply (lor_even _ true); zdm].
  assert (0 ≤ par / 2) as H2 by zdm. rewrite <- (lor_even _ true H2) at 1. cbn [Z.b2z]. rewrite <- Z.lor_assoc. by apply (lor_even _ true).
Qed.

Lemma set_red_mk : rb_set_red a s = Some (upd a (mk par false l r) s).
Proof using All.
  rw /rb_set_red Hn. cbn [mbind option_bind]. apply set_pc_mk. cbn [rb_parent_color mk Z.b2z]. destruct Hp as [? ?].
  change 1 with (Z.ones 1) at 1. rw lnot_ones //. change (2 ^ 1) with 2. destruct c; cbn [Z.b2z]; zdm.
Qed.

Lemma set_color_mk (c' : bool) : rb_set_color a (Z.b2z c') s = Some (upd a (mk par c' l r) s).
Proof using All.
  rw /rb_set_color Hn. cbn [mbind option_bind]. apply set_pc_mk. cbn [rb_parent_color mk]. destruct Hp as [? ?].
  change 1 with (Z.ones 1) at 1. rw lnot_ones //. change (2 ^ 1) with 2.
  replace ((par + Z.b2z c) / 2 * 2) with (2 * (par / 2)) by (destruct c; cbn [Z.b2z]; zdm).
  replace par with (2 * (par / 2)) at 2 by zdm. apply lor_even. zdm.
Qed.
End fields.

(** ** Trees and contexts *)

(** Colours are [true] for black. *)
Inductive tree :=
| Leaf
| Node (c : bool) (l : tree) (a : Z) (r : tree).

(** The path from a subtree to the root, innermost first: the subtree is the left child ([In_left]) or the right child of
    the node [a]. *)
Inductive frame :=
| In_left (c : bool) (a : Z) (r : tree)
| In_right (c : bool) (l : tree) (a : Z).
Notation context := (list frame).

Definition fill (f : frame) (t : tree) : tree :=
  match f with In_left c a r => Node c t a r | In_right c l a => Node c l a t end.
Definition plug (k : context) (t : tree) : tree := foldl (λ t f, fill f t) t k.

Definition ptr (t : tree) : Z := match t with Leaf => 0 | Node _ _ a _ => a end.
Definition frame_addr (f : frame) : Z := match f with In_left _ a _ => a | In_right _ _ a => a end.
Definition up (k : context) : Z := match k with [] => 0 | f :: _ => frame_addr f end.

Fixpoint inorder (t : tree) : list Z :=
  match t with Leaf => [] | Node _ l a r => inorder l ++ a :: inorder r end.

(** The addresses before and behind the subtree. *)
Fixpoint before (k : context) : list Z :=
  match k with [] => [] | In_left _ _ _ :: k => before k | In_right _ l a :: k => before k ++ inorder l ++ [a] end.
Fixpoint behind (k : context) : list Z :=
  match k with [] => [] | In_left _ a r :: k => a :: inorder r ++ behind k | In_right _ _ _ :: k => behind k end.

Lemma inorder_plug k t : inorder (plug k t) = before k ++ inorder t ++ behind k.
Proof.
  revert t. induction k as [|f k IH]; intros t; cbn; [by rw app_nil_r|]. rw IH. destruct f; cbn; rewrite <- ?app_assoc; cbn; by rewrite <- ?app_assoc.
Qed.

(** ** What the store holds *)

Fixpoint rep (h : gmap Z rb_node) (par : Z) (t : tree) : Prop :=
  match t with
  | Leaf => True
  | Node c l a r => h !! a = Some (mk par c (ptr l) (ptr r)) ∧ rep h a l ∧ rep h a r
  end.

Fixpoint rep_context (h : gmap Z rb_node) (top hole : Z) (k : context) : Prop :=
  match k with
  | [] => top = hole
  | In_left c a r :: k => h !! a = Some (mk (up k) c hole (ptr r)) ∧ rep h a r ∧ rep_context h top a k
  | In_right c l a :: k => h !! a = Some (mk (up k) c (ptr l) hole) ∧ rep h a l ∧ rep_context h top a k
  end.

Definition addr_ok (a : Z) : Prop := 0 < a ∧ a mod 4 = 0.

(** The nodes outside the tree are those of [h0]: no operation changes them. *)
Record inside (h0 : gmap Z rb_node) (s : rb_state) (k : context) (t : tree) : Prop := {
  in_rep : rep (rb_nodes s) (up k) t;
  in_context : rep_context (rb_nodes s) (rb_top s) (ptr t) k;
  in_nodup : NoDup (before k ++ inorder t ++ behind k);
  in_addr : Forall addr_ok (before k ++ inorder t ++ behind k);
  in_rest : ∀ x, x ∉ before k ++ inorder t ++ behind k → rb_nodes s !! x = h0 !! x
}.

(** Moving the focus. *)
Lemma inside_fill h0 s f k t : inside h0 s (f :: k) t ↔ inside h0 s k (fill f t).
Proof.
  assert (before (f :: k) ++ inorder t ++ behind (f :: k) = before k ++ inorder (fill f t) ++ behind k) as E.
  { destruct f; cbn; rewrite <- ?app_assoc; cbn; [done|]. by rewrite <- ?app_assoc. }
  split; intros [H1 H2 H3 H4 H5]; (split; [| |by rw ?E in H3 *|by rw ?E in H4 *|by rw ?E in H5 *]); destruct f; cbn in *; naive_solver.
Qed.

(** ** Changes elsewhere *)

Lemma rep_frame h h' par t : rep h par t → (∀ a, a ∈ inorder t → h' !! a = h !! a) → rep h' par t.
Proof.
  revert par. induction t as [|c l IHl a r IHr]; intros par; cbn; [done|]. intros (H1 & H2 & H3) Hf. split_and!.
  - rewrite -> Hf; [done|set_solver].
  - apply IHl; [done|]. intros x Hx. apply Hf. set_solver.
  - apply IHr; [done|]. intros x Hx. apply Hf. set_solver.
Qed.

Lemma context_frame h h' top hole k :
  rep_context h top hole k → (∀ a, a ∈ before k ++ behind k → h' !! a = h !! a) → rep_context h' top hole k.
Proof.
  revert hole. induction k as [|f k IH]; intros hole; cbn; [done|]. destruct f as [c a r|c l a]; cbn; intros (H1 & H2 & H3) Hf; split_and!.
  - rewrite -> Hf; [done|set_solver].
  - eapply rep_frame; [done|]. intros x Hx. apply Hf. set_solver.
  - apply IH; [done|]. intros x Hx. apply Hf. set_solver.
  - rewrite -> Hf; [done|set_solver].
  - eapply rep_frame; [done|]. intros x Hx. apply Hf. set_solver.
  - apply IH; [done|]. intros x Hx. apply Hf. set_solver.
Qed.

(** The parent pointer of a subtree, or null, is a pointer. *)
Lemma up_cases k : up k = 0 ∧ k = [] ∨ up k ∈ before k ++ behind k.
Proof. destruct k as [|[]]; cbn; [by left|right; set_solver..]. Qed.

Lemma addr_ptr_ok a : addr_ok a → ptr_ok a.
Proof. intros [? ?]. split; lia. Qed.

Lemma up_ok k : Forall addr_ok (before k ++ behind k) → ptr_ok (up k).
Proof.
  intros H. destruct (up_cases k) as [[-> _]|Hu]; [done|]. rewrite -> Forall_forall in H. by apply addr_ptr_ok, H.
Qed.

Lemma root_ok t : Forall addr_ok (inorder t) → ptr_ok (ptr t).
Proof. destruct t; cbn; [done|]. intros [_ [? _]%Forall_cons]%Forall_app. by apply addr_ptr_ok. Qed.

Lemma ptr_in t : ptr t = 0 ∧ t = Leaf ∨ ptr t ∈ inorder t.
Proof. destruct t; cbn; [by left|right; set_solver]. Qed.

(** Splitting the facts that the addresses are different. *)
Ltac nodup :=
  repeat match goal with
  | H : NoDup (_ ++ _) |- _ => apply NoDup_app in H as (? & ? & ?)
  | H : NoDup (_ :: _) |- _ => apply NoDup_cons in H as [? ?]
  | H : Forall _ (_ ++ _) |- _ => apply Forall_app in H as [? ?]
  | H : Forall _ (_ :: _) |- _ => apply Forall_cons in H as [? ?]
  end.

(** One call of a straight-line part. *)
Tactic Notation "run" constr(H) := rewrite -> H; cbn [mbind option_bind].

(** ** Steps *)

(** Giving a subtree, if there is one, another parent. *)
Lemma reparent_ok s t par p :
  rep (rb_nodes s) par t → NoDup (inorder t) → Forall addr_ok (inorder t) → ptr_ok par → ptr_ok p →
  ∃ s', (if negb (ptr t =? 0) then rb_set_parent (ptr t) p s else Some s) = Some s' ∧ rep (rb_nodes s') p t ∧
    rb_top s' = rb_top s ∧ ∀ x, x ∉ inorder t → rb_nodes s' !! x = rb_nodes s !! x.
Proof.
  intros Hr Hnd Ha Hpar Hp. destruct t as [|c l a r]; cbn [ptr]; [by exists s|]. cbn in Hr, Hnd, Ha. destruct Hr as (H1 & H2 & H3).
  assert (addr_ok a) as [Ha0 _] by (rewrite -> Forall_forall in Ha; apply Ha; set_solver).
  nodup. ztest. cbn [negb].
  rewrite -> (set_parent_mk _ _ _ _ _ _ H1 Hpar p Hp). eexists. split; [done|]. cbn. split_and!.
  - by rewrite lookup_insert_eq.
  - eapply rep_frame; [done|]. intros x Hx. rewrite -> lookup_insert_ne; [done|set_solver].
  - eapply rep_frame; [done|]. intros x Hx. rewrite -> lookup_insert_ne; [done|set_solver].
  - done.
  - intros x Hx. rewrite -> lookup_insert_ne; [done|set_solver].
Qed.

(** The node of a frame, and what pointing it to another subtree does. *)
Definition frame_node (k : context) (f : frame) (hole : Z) : rb_node :=
  match f with In_left c _ r => mk (up k) c hole (ptr r) | In_right c l _ => mk (up k) c (ptr l) hole end.

Lemma frame_node_in h top hole f k : rep_context h top hole (f :: k) → h !! frame_addr f = Some (frame_node k f hole).
Proof. destruct f; cbn; naive_solver. Qed.

Lemma redirect_ok h top hole new f k :
  rep_context h top hole (f :: k) → NoDup (before (f :: k) ++ behind (f :: k)) →
  rep_context (<[frame_addr f := frame_node k f new]> h) top new (f :: k) ∧
  ∀ x, x ∉ before (f :: k) ++ behind (f :: k) → <[frame_addr f := frame_node k f new]> h !! x = h !! x.
Proof.
  destruct f as [c a r|c l a]; cbn; intros (H1 & H2 & H3) Hnd; nodup; split_and!.
  1,5: by rewrite lookup_insert_eq.
  1,4: eapply rep_frame; [done|]; intros x Hx; rewrite -> lookup_insert_ne; [done|set_solver].
  1,3: eapply context_frame; [done|]; intros x Hx; rewrite -> lookup_insert_ne; [done|set_solver].
  all: intros x Hx; rewrite -> lookup_insert_ne; [done|set_solver].
Qed.

(** The pointer to the subtree in its parent, or the root pointer. *)
Lemma replace_child_ok s k hole new :
  rep_context (rb_nodes s) (rb_top s) hole k → NoDup (before k ++ behind k) → Forall addr_ok (before k ++ behind k) →
  hole ≠ 0 → hole ∉ before k ++ behind k →
  ∃ s', replace_child (up k) hole new s = Some s' ∧ rep_context (rb_nodes s') (rb_top s') new k ∧
    ∀ x, x ∉ before k ++ behind k → rb_nodes s' !! x = rb_nodes s !! x.
Proof.
  intros Hc Hnd Ha Hh0 Hh. rw /replace_child. destruct k as [|f k]; [by eexists|].
  assert (addr_ok (frame_addr f)) as [Hu0 _].
  { destruct (up_cases (f :: k)) as [[_ ?]|Hu]; [done|]. rewrite -> Forall_forall in Ha. by apply Ha. }
  cbn [up]. ztest. cbn [negb]. pose proof (frame_node_in _ _ _ _ _ Hc) as Hf. destruct (redirect_ok _ _ _ new _ _ Hc Hnd) as [Hr Hrf].
  exists (upd (frame_addr f) (frame_node k f new) s). split; [|done]. destruct f as [c a r|c l a]; cbn [frame_addr frame_node] in *.
  - run (left_of_mk _ _ _ _ _ _ Hf). rw Z.eqb_refl. by apply (set_left_mk _ _ _ _ _ _ Hf).
  - run (left_of_mk _ _ _ _ _ _ Hf). assert (ptr l ≠ hole) as Hne by (destruct (ptr_in l) as [[-> _]|Hl]; [done|set_solver]). ztest.
    by apply (set_right_mk _ _ _ _ _ _ Hf).
Qed.

(** The code asks for the left or for the right child. *)
Lemma replace_child_left parent hole new s :
  (if negb (parent =? 0) then
     l ← left_of parent s; if hole =? l then set_left parent new s else set_right parent new s
   else Some (set_top new s)) = replace_child parent hole new s.
Proof.
  rw /replace_child. destruct (parent =? 0); [done|]. cbn [negb]. destruct (left_of parent s); [|done]. cbn [mbind option_bind].
  by rewrite Z.eqb_sym.
Qed.

Lemma replace_child_right k hole new s :
  rep_context (rb_nodes s) (rb_top s) hole k → hole ≠ 0 → hole ∉ before k ++ behind k →
  (if negb (up k =? 0) then
     r ← right_of (up k) s; if hole =? r then set_right (up k) new s else set_left (up k) new s
   else Some (set_top new s)) = replace_child (up k) hole new s.
Proof.
  intros Hc Hh0 Hh. rw /replace_child. destruct k as [|f k]; [done|]. destruct (up (f :: k) =? 0); [done|]. cbn [negb].
  destruct f as [c a r|c l a]; cbn in *; destruct Hc as (H1 & H2 & H3).
  - rewrite -> (left_of_mk _ _ _ _ _ _ H1), (right_of_mk _ _ _ _ _ _ H1). cbn [mbind option_bind]. rw Z.eqb_refl.
    assert (hole ≠ ptr r) as Hne by (destruct (ptr_in r) as [[-> _]|Hl]; [done|set_solver]). by ztest.
  - rewrite -> (left_of_mk _ _ _ _ _ _ H1), (right_of_mk _ _ _ _ _ _ H1). cbn [mbind option_bind]. rw Z.eqb_refl.
    assert (ptr l ≠ hole) as Hne by (destruct (ptr_in l) as [[-> _]|Hl]; [done|set_solver]). by ztest.
Qed.

(** Facts about a focused node. *)
Lemma inside_node h0 s k c l a r :
  inside h0 s k (Node c l a r) →
  rb_nodes s !! a = Some (mk (up k) c (ptr l) (ptr r)) ∧ ptr_ok (up k) ∧ addr_ok a ∧
  NoDup (before k ++ behind k) ∧ Forall addr_ok (before k ++ behind k) ∧ a ∉ before k ++ behind k.
Proof.
  intros [H1 H2 H3 H4 _]. cbn in H1. split; [apply H1|].
  assert (before k ++ inorder (Node c l a r) ++ behind k ≡ₚ inorder (Node c l a r) ++ (before k ++ behind k)) as E.
  { rewrite -> !app_assoc. f_equiv. apply Permutation_app_comm. }
  rewrite -> E in H3, H4. apply NoDup_app in H3 as (_ & Hd & Hnd). apply Forall_app in H4 as [Ha Hb].
  split; [by apply up_ok|]. split_and!; [|done|done|].
  - rewrite -> Forall_forall in Ha. apply Ha. cbn. set_solver.
  - apply Hd. cbn. set_solver.
Qed.

Lemma addr_ne0 a : addr_ok a → a ≠ 0.
Proof. intros [? ?]. lia. Qed.

(** Proves that addresses of different parts are different. *)
Ltac apart :=
  solve [ assumption | congruence | intros ->; contradiction | intros <-; contradiction
        | match goal with
          | H : ∀ x, x ∈ ?A → x ∉ ?B, Hx : ?y ∈ ?A |- ?y ∉ ?B => exact (H y Hx)
          | H : ∀ x, x ∈ ?A → x ∉ ?B, Hx : ?y ∈ ?B |- ?y ∉ ?A => exact (λ Hy, H y Hy Hx)
          end ].

(** The parts of a rotation: three subtrees, two nodes and the rest of the tree. *)
Lemma parts_apart (L M R B E : list Z) p q :
  NoDup (B ++ (L ++ p :: M ++ q :: R) ++ E) →
  let K := B ++ E in
  p ≠ q ∧ (p ∉ L ∧ p ∉ M ∧ p ∉ R ∧ p ∉ K) ∧ (q ∉ L ∧ q ∉ M ∧ q ∉ R ∧ q ∉ K) ∧
  ((∀ x, x ∈ L → x ∉ M) ∧ (∀ x, x ∈ L → x ∉ R) ∧ (∀ x, x ∈ M → x ∉ R)) ∧
  ((∀ x, x ∈ L → x ∉ K) ∧ (∀ x, x ∈ M → x ∉ K) ∧ (∀ x, x ∈ R → x ∉ K)) ∧ NoDup L ∧ NoDup M ∧ NoDup R.
Proof.
  intros H K. nodup. split_and!; try done; try (intros x Hx); set_solver.
Qed.

Section rotate.
Context (h0 : gmap Z rb_node) (s : rb_state) (k : context) (c c' : bool) (l m r : tree) (p q : Z).

(** The rotated node, its child that moves up and the subtree between them. *)
Lemma rotate_left_ok :
  inside h0 s k (Node c l p (Node c' m q r)) →
  ∃ s', __rb_rotate_left p s = Some s' ∧ inside h0 s' k (Node c' (Node c l p m) q r).
Proof using Type.
  intros Hin. destruct (inside_node _ _ _ _ _ _ _ Hin) as (Hp & Hup & Hpa & Hknd & Hka & Hpk).
  destruct (inside_node _ _ _ _ _ _ _ (proj2 (inside_fill _ _ (In_right c l p) k _) Hin)) as (Hq & _ & Hqa & _ & _ & _).
  destruct Hin as [(_ & Hl & _ & Hm & Hr) Hctx Hnd Had Hrest].
  assert (inorder (Node c l p (Node c' m q r)) = inorder (Node c' (Node c l p m) q r)) as Ei by (cbn; by rewrite <- app_assoc).
  pose proof Hnd as Hnd0. pose proof Had as Had0. rewrite -> Ei in Hnd0, Had0, Hrest. cbn in Hnd, Had, Hctx.
  assert (Forall addr_ok (inorder m)) as Hma by (clear -Had; nodup; done).
  destruct (parts_apart _ _ _ _ _ _ _ Hnd) as (Hpq & (? & ? & ? & ?) & (? & ? & ? & ?) & (? & ? & ?) & (? & ? & ?) & ? & ? & ?).
  set (K := before k ++ behind k) in *. clear Hnd Had Ei.
  rw /__rb_rotate_left. cbn [up ptr frame_addr] in *. pose proof (addr_ptr_ok _ Hpa) as Hpp. pose proof (addr_ptr_ok _ Hqa) as Hqp.
  run (right_of_mk _ _ _ _ _ _ Hp). run (parent_of_mk _ _ _ _ _ _ Hp Hup). run (left_of_mk _ _ _ _ _ _ Hq).
  run (set_right_mk _ _ _ _ _ _ Hp (ptr m)).
  set (s1 := upd p _ s).
  assert (rb_nodes s1 !! q = Some (mk p c' (ptr m) (ptr r))) as Hq1 by (cbn; by rewrite lookup_insert_ne).
  assert ((if negb (ptr m =? 0) then m0 ← left_of q s1; rb_set_parent m0 p s1 else Some s1) =
          (if negb (ptr m =? 0) then rb_set_parent (ptr m) p s1 else Some s1)) as ->.
  { by rewrite -> (left_of_mk _ _ _ _ _ _ Hq1). }
  destruct (reparent_ok s1 m q p) as (s2 & -> & Hm2 & Ht2 & Hf2); [|done|done|done|done|].
  { eapply rep_frame; [exact Hm|]. intros x Hx. cbn. rewrite -> lookup_insert_ne; [done|apart]. }
  cbn [mbind option_bind]. assert (rb_nodes s2 !! q = Some (mk p c' (ptr m) (ptr r))) as Hq2 by (rewrite -> Hf2; [done|apart]).
  rewrite -> (set_left_mk _ _ _ _ _ _ Hq2). cbn [mbind option_bind]. set (s3 := upd q _ s2).
  assert (rb_nodes s3 !! q = Some (mk p c' p (ptr r))) as Hq3 by (cbn; by rewrite lookup_insert_eq).
  rewrite -> (set_parent_mk _ _ _ _ _ _ Hq3 Hpp _ Hup). cbn [mbind option_bind]. set (s4 := upd q _ s3).
  rewrite -> replace_child_left.
  assert (∀ x, x ≠ p → x ≠ q → x ∉ inorder m → rb_nodes s4 !! x = rb_nodes s !! x) as Hf4.
  { intros x Hx1 Hx2 Hx3. cbn. rewrite -> !lookup_insert_ne by done. rewrite -> Hf2 by done. cbn. by rewrite lookup_insert_ne. }
  destruct (replace_child_ok s4 k p q) as (s5 & -> & Hctx5 & Hf5); [|done|done|by apply addr_ne0|done|].
  { assert (rb_top s4 = rb_top s) as -> by (by cbn; rewrite -> Ht2).
    eapply context_frame; [exact Hctx|]. intros x Hx. apply Hf4; apart. }
  cbn [mbind option_bind].
  assert (rb_nodes s5 !! p = Some (mk (up k) c (ptr l) (ptr m))) as Hp5.
  { rewrite -> Hf5 by done. cbn. rewrite -> !lookup_insert_ne by done. rewrite -> Hf2 by apart. cbn. by rewrite lookup_insert_eq. }
  rewrite -> (set_parent_mk _ _ _ _ _ _ Hp5 Hup _ Hqp). eexists. split; [done|].
  split; cbn.
  - split_and!.
    + rewrite -> lookup_insert_ne by done. rewrite -> Hf5 by done. cbn. by rewrite lookup_insert_eq.
    + by rewrite lookup_insert_eq.
    + eapply rep_frame; [exact Hl|]. intros x Hx. rewrite -> lookup_insert_ne by apart. rewrite -> Hf5 by apart.
      apply Hf4; apart.
    + eapply rep_frame; [exact Hm2|]. intros x Hx. rewrite -> lookup_insert_ne by apart. rewrite -> Hf5 by apart.
      cbn. by rewrite -> !lookup_insert_ne by apart.
    + eapply rep_frame; [exact Hr|]. intros x Hx. rewrite -> lookup_insert_ne by apart. rewrite -> Hf5 by apart.
      apply Hf4; apart.
  - eapply context_frame; [exact Hctx5|]. intros x Hx. rewrite -> lookup_insert_ne; [done|apart].
  - exact Hnd0.
  - exact Had0.
  - intros x Hx. rewrite <- (Hrest x Hx). cbn in Hx.
    assert (x ≠ p ∧ x ≠ q ∧ x ∉ inorder m ∧ x ∉ K) as (? & ? & ? & ?) by (rw /K; clear -Hx; set_solver). rewrite -> lookup_insert_ne by congruence. rewrite -> Hf5 by done. by apply Hf4.
Qed.
Lemma rotate_right_ok :
  inside h0 s k (Node c (Node c' l q m) p r) →
  ∃ s', __rb_rotate_right p s = Some s' ∧ inside h0 s' k (Node c' l q (Node c m p r)).
Proof using Type.
  intros Hin. destruct (inside_node _ _ _ _ _ _ _ Hin) as (Hp & Hup & Hpa & Hknd & Hka & Hpk).
  destruct (inside_node _ _ _ _ _ _ _ (proj2 (inside_fill _ _ (In_left c p r) k _) Hin)) as (Hq & _ & Hqa & _ & _ & _).
  destruct Hin as [(_ & (_ & Hl & Hm) & Hr) Hctx Hnd Had Hrest].
  assert (inorder (Node c (Node c' l q m) p r) = inorder (Node c' l q (Node c m p r))) as Ei by (cbn; by rewrite <- app_assoc).
  rewrite -> Ei in Hnd, Had, Hrest. pose proof Hnd as Hnd0. pose proof Had as Had0. cbn in Hnd, Had, Hctx.
  assert (Forall addr_ok (inorder m)) as Hma by (clear -Had; nodup; done).
  destruct (parts_apart _ _ _ _ _ _ _ Hnd) as (Hpq & (? & ? & ? & ?) & (? & ? & ? & ?) & (? & ? & ?) & (? & ? & ?) & ? & ? & ?).
  set (K := before k ++ behind k) in *. clear Hnd Had Ei.
  rw /__rb_rotate_right. cbn [up ptr frame_addr] in *. pose proof (addr_ptr_ok _ Hpa) as Hpp. pose proof (addr_ptr_ok _ Hqa) as Hqp.
  run (left_of_mk _ _ _ _ _ _ Hp). run (parent_of_mk _ _ _ _ _ _ Hp Hup). run (right_of_mk _ _ _ _ _ _ Hq).
  run (set_left_mk _ _ _ _ _ _ Hp (ptr m)).
  set (s1 := upd p _ s).
  assert (rb_nodes s1 !! q = Some (mk p c' (ptr l) (ptr m))) as Hq1 by (cbn; by rewrite lookup_insert_ne).
  assert ((if negb (ptr m =? 0) then m0 ← right_of q s1; rb_set_parent m0 p s1 else Some s1) =
          (if negb (ptr m =? 0) then rb_set_parent (ptr m) p s1 else Some s1)) as ->.
  { by rewrite -> (right_of_mk _ _ _ _ _ _ Hq1). }
  destruct (reparent_ok s1 m q p) as (s2 & -> & Hm2 & Ht2 & Hf2); [|done|done|done|done|].
  { eapply rep_frame; [exact Hm|]. intros x Hx. cbn. rewrite -> lookup_insert_ne; [done|apart]. }
  cbn [mbind option_bind]. assert (rb_nodes s2 !! q = Some (mk p c' (ptr l) (ptr m))) as Hq2 by (rewrite -> Hf2; [done|apart]).
  rewrite -> (set_right_mk _ _ _ _ _ _ Hq2). cbn [mbind option_bind]. set (s3 := upd q _ s2).
  assert (rb_nodes s3 !! q = Some (mk p c' (ptr l) p)) as Hq3 by (cbn; by rewrite lookup_insert_eq).
  rewrite -> (set_parent_mk _ _ _ _ _ _ Hq3 Hpp _ Hup). cbn [mbind option_bind]. set (s4 := upd q _ s3).
  assert (∀ x, x ≠ p → x ≠ q → x ∉ inorder m → rb_nodes s4 !! x = rb_nodes s !! x) as Hf4.
  { intros x Hx1 Hx2 Hx3. cbn. rewrite -> !lookup_insert_ne by done. rewrite -> Hf2 by done. cbn. by rewrite lookup_insert_ne. }
  assert (rep_context (rb_nodes s4) (rb_top s4) p k) as Hctx4.
  { assert (rb_top s4 = rb_top s) as -> by (by cbn; rewrite -> Ht2).
    eapply context_frame; [exact Hctx|]. intros x Hx. apply Hf4; apart. }
  rewrite -> (replace_child_right k p q s4 Hctx4) by first [by apply addr_ne0|done].
  destruct (replace_child_ok s4 k p q) as (s5 & -> & Hctx5 & Hf5); [done..|by apply addr_ne0|done|].
  cbn [mbind option_bind].
  assert (rb_nodes s5 !! p = Some (mk (up k) c (ptr m) (ptr r))) as Hp5.
  { rewrite -> Hf5 by done. cbn. rewrite -> !lookup_insert_ne by done. rewrite -> Hf2 by apart. cbn. by rewrite lookup_insert_eq. }
  rewrite -> (set_parent_mk _ _ _ _ _ _ Hp5 Hup _ Hqp). eexists. split; [done|].
  split; cbn.
  - split_and!.
    + rewrite -> lookup_insert_ne by done. rewrite -> Hf5 by done. cbn. by rewrite lookup_insert_eq.
    + eapply rep_frame; [exact Hl|]. intros x Hx. rewrite -> lookup_insert_ne by apart. rewrite -> Hf5 by apart.
      apply Hf4; apart.
    + by rewrite lookup_insert_eq.
    + eapply rep_frame; [exact Hm2|]. intros x Hx. rewrite -> lookup_insert_ne by apart. rewrite -> Hf5 by apart.
      cbn. by rewrite -> !lookup_insert_ne by apart.
    + eapply rep_frame; [exact Hr|]. intros x Hx. rewrite -> lookup_insert_ne by apart. rewrite -> Hf5 by apart.
      apply Hf4; apart.
  - eapply context_frame; [exact Hctx5|]. intros x Hx. rewrite -> lookup_insert_ne; [done|apart].
  - exact Hnd0.
  - exact Had0.
  - intros x Hx. rewrite <- (Hrest x Hx). cbn in Hx.
    assert (x ≠ p ∧ x ≠ q ∧ x ∉ inorder m ∧ x ∉ K) as (? & ? & ? & ?) by (rw /K; clear -Hx; set_solver). rewrite -> lookup_insert_ne by congruence. rewrite -> Hf5 by done. by apply Hf4.
Qed.
End rotate.

(** ** Reading and colouring a focused node *)

Definition is_black (t : tree) : bool := match t with Node false _ _ _ => false | _ => true end.

Section focus.
Context (h0 : gmap Z rb_node) (s : rb_state) (k : context) (c : bool) (l : tree) (a : Z) (r : tree).
Context (Hin : inside h0 s k (Node c l a r)).

Lemma left_of_in : left_of a s = Some (ptr l).
Proof using Hin. destruct (inside_node _ _ _ _ _ _ _ Hin) as (H & _). by eapply left_of_mk. Qed.
Lemma right_of_in : right_of a s = Some (ptr r).
Proof using Hin. destruct (inside_node _ _ _ _ _ _ _ Hin) as (H & _). by eapply right_of_mk. Qed.
Lemma parent_of_in : parent_of a s = Some (up k).
Proof using Hin. destruct (inside_node _ _ _ _ _ _ _ Hin) as (H & ? & _). by eapply parent_of_mk. Qed.
Lemma is_red_in : rb_is_red a s = Some (negb c).
Proof using Hin. destruct (inside_node _ _ _ _ _ _ _ Hin) as (H & ? & _). by eapply is_red_mk. Qed.
Lemma addr_in : addr_ok a.
Proof using Hin. by destruct (inside_node _ _ _ _ _ _ _ Hin) as (_ & _ & ? & _). Qed.

Lemma recolor_in c' : inside h0 (upd a (mk (up k) c' (ptr l) (ptr r)) s) k (Node c' l a r).
Proof using Hin.
  destruct (inside_node _ _ _ _ _ _ _ Hin) as (_ & _ & _ & _ & _ & Hk). destruct Hin as [(_ & Hl & Hr) Hc Hnd Ha Hrest].
  assert (a ∉ inorder l ∧ a ∉ inorder r) as [Hal Har] by (cbn in Hnd; clear -Hnd; nodup; set_solver).
  split; cbn; [|by eapply context_frame; [exact Hc|]; intros x Hx; rewrite -> lookup_insert_ne by apart|exact Hnd|exact Ha|].
  - split_and!; [by rewrite lookup_insert_eq| |]; (eapply rep_frame; [eassumption|]); intros x Hx; by rewrite -> lookup_insert_ne by apart.
  - intros x Hx. rewrite -> lookup_insert_ne; [by apply Hrest|]. set_solver.
Qed.

Lemma set_black_in : ∃ s', rb_set_black a s = Some s' ∧ inside h0 s' k (Node true l a r).
Proof using Hin.
  destruct (inside_node _ _ _ _ _ _ _ Hin) as (H & Hp & _). eexists. split; [by eapply set_black_mk|apply recolor_in].
Qed.
Lemma set_red_in : ∃ s', rb_set_red a s = Some s' ∧ inside h0 s' k (Node false l a r).
Proof using Hin.
  destruct (inside_node _ _ _ _ _ _ _ Hin) as (H & Hp & _). eexists. split; [by eapply set_red_mk|apply recolor_in].
Qed.
Lemma set_color_in (c' : bool) : ∃ s', rb_set_color a (Z.b2z c') s = Some s' ∧ inside h0 s' k (Node c' l a r).
Proof using Hin.
  destruct (inside_node _ _ _ _ _ _ _ Hin) as (H & Hp & _). eexists. split; [by eapply set_color_mk|apply recolor_in].
Qed.
End focus.

(** Questions about a subtree that may be empty. *)
Lemma red_uncle_in h0 s k t : inside h0 s k t → red_uncle (ptr t) s = Some (negb (is_black t)).
Proof.
  intros Hin. rw /red_uncle. destruct t as [|c l a r]; [done|]. cbn [ptr]. pose proof (addr_ne0 _ (addr_in _ _ _ _ _ _ _ Hin)). ztest.
  rewrite -> (is_red_in _ _ _ _ _ _ _ Hin). by destruct c.
Qed.

Lemma black_or_null_in h0 s k t : inside h0 s k t → black_or_null (ptr t) s = Some (is_black t).
Proof.
  intros Hin. rw /black_or_null. destruct t as [|c l a r]; [done|]. cbn [ptr]. pose proof (addr_ne0 _ (addr_in _ _ _ _ _ _ _ Hin)). ztest.
  rewrite -> (is_red_in _ _ _ _ _ _ _ Hin). by destruct c.
Qed.

(** The root of a subtree is not the root of another one. *)
Lemma sibling_ne h0 s k c l a r : inside h0 s k (Node c l a r) → ptr l = ptr r → l = Leaf ∧ r = Leaf.
Proof.
  intros [_ _ Hnd Ha _]. cbn in Hnd, Ha. destruct (ptr_in l) as [[-> ->]|Hl], (ptr_in r) as [[-> ->]|Hr]; intros E.
  - done.
  - exfalso. assert (addr_ok 0) as [? _]; [|lia]. rewrite -> Forall_forall in Ha. apply Ha. rw E. set_solver.
  - exfalso. assert (addr_ok 0) as [? _]; [|lia]. rewrite -> Forall_forall in Ha. apply Ha. rewrite <- E. set_solver.
  - exfalso. rw E in Hl. clear -Hnd Hl Hr. nodup. set_solver.
Qed.

(** The parent of a focused node is not null, or the focus is the whole tree. *)
Lemma up_addr h0 s f k t : inside h0 s (f :: k) t → addr_ok (frame_addr f).
Proof. intros Hin%inside_fill. destruct f; by eapply addr_in. Qed.

(** ** The size of the store bounds the depth *)

Lemma rep_dom h par t : rep h par t → ∀ x, x ∈ inorder t → is_Some (h !! x).
Proof. revert par. induction t as [|c l IHl a r IHr]; intros par; cbn; [set_solver|]. intros (H1 & H2 & H3) x Hx. set_solver. Qed.

Lemma inside_plug h0 s k t : inside h0 s k t ↔ inside h0 s [] (plug k t).
Proof. revert t. induction k as [|f k IH]; intros t; cbn; [done|]. rewrite -> inside_fill. apply IH. Qed.

Lemma inside_size h0 s k t : inside h0 s k t → (length (before k ++ inorder t ++ behind k) ≤ size (rb_nodes s))%nat.
Proof.
  intros Hin. assert (∀ x, x ∈ before k ++ inorder t ++ behind k → is_Some (rb_nodes s !! x)) as Hd.
  { rewrite <- inorder_plug. apply inside_plug in Hin as [Hr _ _ _ _]. by eapply rep_dom. }
  rewrite <- size_dom, <- (size_list_to_set (C := gset Z)) by apply Hin. apply subseteq_size. intros x Hx.
  apply elem_of_dom, Hd. by apply elem_of_list_to_set in Hx.
Qed.

Lemma depth_le k : (length k ≤ length (before k ++ behind k))%nat.
Proof.
  induction k as [|f k IH]; cbn; [lia|]. rewrite -> length_app in *. destruct f; cbn; rewrite -> ?length_app; cbn; lia.
Qed.

Lemma inside_depth h0 s k t : inside h0 s k t → (length k ≤ size (rb_nodes s))%nat.
Proof.
  intros H. pose proof (inside_size _ _ _ _ H) as Hs. pose proof (depth_le k). rewrite -> !length_app in *. lia.
Qed.

(** ** A small tree: 8 with the red children 4 and 12, and a node 16 that is not in the tree *)

Definition demo_tree : tree := Node true (Node false Leaf 4 Leaf) 8 (Node false Leaf 12 Leaf).
Definition demo_state : rb_state :=
  {| rb_nodes := <[4 := mk 8 false 0 0]> (<[8 := mk 0 true 4 12]> (<[12 := mk 8 false 0 0]> {[16 := mk 0 false 0 0]})); rb_top := 8 |}.

Lemma demo_inside : inside (rb_nodes demo_state) demo_state [] demo_tree.
Proof.
  split; [cbn; split_and!; done|done| |repeat constructor|done].
  cbn. apply (bool_decide_unpack _). vm_compute. done.
Qed.
