(* ===== verification/RbtreeInsert.v ===== *)
(** * Red-black trees: insertion

    The red-black condition, and that [rb_insert_color] restores it after a red node has been linked at a leaf. *)
From S2P Require Import Prelude Rbtree RbtreeRep.

(** ** The red-black condition *)

(** Every path has [n] black nodes, and the children of a red node are black. *)
Fixpoint balanced (n : nat) (t : tree) : Prop :=
  match t with
  | Leaf => n = O
  | Node true l _ r => match n with O => False | S m => balanced m l ∧ balanced m r end
  | Node false l _ r => is_black l ∧ is_black r ∧ balanced n l ∧ balanced n r
  end.

Definition red_black (t : tree) : Prop := is_black t ∧ ∃ n, balanced n t.

Definition frame_black (f : frame) : bool := match f with In_left c _ _ => c | In_right c _ _ => c end.
(** A red subtree may stand below the context. *)
Definition takes_red (k : context) : bool := match k with [] => true | f :: _ => frame_black f end.

(** A context in which a subtree of black height [n] makes a red-black tree; the root is black. *)
Fixpoint expects (n : nat) (k : context) : Prop :=
  match k with
  | [] => True
  | f :: k =>
      let sib := match f with In_left _ _ r => r | In_right _ l _ => l end in
      balanced n sib ∧
      if frame_black f then expects (S n) k
      else is_black sib ∧ k ≠ [] ∧ takes_red k ∧ expects n k
  end.

Lemma plug_balanced k n t :
  expects n k → balanced n t → is_black t ∨ takes_red k → ∃ m, balanced m (plug k t) ∧ (is_black t ∨ k ≠ [] → is_black (plug k t)).
Proof.
  revert n t. induction k as [|f k IH]; intros n t Hk Ht Hc; cbn; [exists n; naive_solver|].
  cbn in Hk. destruct f as [[] a r|[] l a]; cbn in Hk, Hc |- *.
  - destruct Hk as [H1 H2]. destruct (IH (S n) (Node true t a r)) as (m & Hm & Hb); [done|done|by left|]. exists m. split; [done|].
    intros _. apply Hb. by left.
  - destruct Hk as (H1 & H2 & H3 & H4 & H5). destruct (IH n (Node false t a r)) as (m & Hm & Hb); [done|cbn; naive_solver|by right|].
    exists m. split; [done|]. intros _. apply Hb. by right.
  - destruct Hk as [H1 H2]. destruct (IH (S n) (Node true l a t)) as (m & Hm & Hb); [done|done|by left|]. exists m. split; [done|].
    intros _. apply Hb. by left.
  - destruct Hk as (H1 & H2 & H3 & H4 & H5). destruct (IH n (Node false l a t)) as (m & Hm & Hb); [done|cbn; naive_solver|by right|].
    exists m. split; [done|]. intros _. apply Hb. by right.
Qed.

Lemma plug_unplug k t m :
  balanced m (plug k t) → is_black (plug k t) → ∃ n, balanced n t ∧ expects n k ∧ (is_black t ∨ k ≠ [] ∧ takes_red k).
Proof.
  revert t. induction k as [|f k IH]; intros t Hm Hb; cbn in Hm, Hb; [exists m; naive_solver|].
  destruct (IH _ Hm Hb) as (n & Hn & Hk & Hc). destruct f as [[] a r|[] l a]; cbn in Hn, Hc |- *.
  - destruct n as [|n]; [done|]. exists n. naive_solver.
  - exists n. naive_solver.
  - destruct n as [|n]; [done|]. exists n. naive_solver.
  - exists n. naive_solver.
Qed.

Lemma red_black_plug k t : red_black (plug k t) → ∃ n, balanced n t ∧ expects n k ∧ (is_black t ∨ k ≠ [] ∧ takes_red k).
Proof. intros [Hb [m Hm]]. by eapply plug_unplug. Qed.

(** ** One round *)

(** A red node whose subtrees are balanced, at a place that expects its black height. *)
Record fresh_red (h0 : gmap Z rb_node) (s : rb_state) (k : context) (l : tree) (a : Z) (r : tree) (n : nat) : Prop := {
  fr_inside : inside h0 s k (Node false l a r);
  fr_balanced : balanced n (Node false l a r);
  fr_expects : expects n k
}.

(** What a round does: the red node is higher up, or its parent is black. *)
Definition round_done (h0 : gmap Z rb_node) (k : context) (old : list Z) (res : option (Z * rb_state)) : Prop :=
  ∃ s' k' l a r n, res = Some (a, s') ∧ fresh_red h0 s' k' l a r n ∧ (length k' < length k)%nat ∧
    before k' ++ inorder (Node false l a r) ++ behind k' = old.

Ltac focus_in H f := apply (proj2 (inside_fill _ _ f _ _)) in H.
Ltac focus_out H := apply inside_fill in H; cbn [fill] in H.

Section push.
Context (h0 : gmap Z rb_node) (s : rb_state) (k : context) (p g u : Z) (pl pr ul ur : tree).

(** The parent and the uncle become black, the grandparent red. *)
Lemma push_red_left :
  inside h0 s k (Node true (Node false pl p pr) g (Node false ul u ur)) →
  ∃ s', push_red u p g s = Some s' ∧ inside h0 s' k (Node false (Node true pl p pr) g (Node true ul u ur)).
Proof using Type.
  intros Hin. rw /push_red. focus_in Hin (In_right true (Node false pl p pr) g).
  destruct (set_black_in _ _ _ _ _ _ _ Hin) as (s1 & -> & Hin1). cbn [mbind option_bind]. clear Hin. focus_out Hin1.
  focus_in Hin1 (In_left true g (Node true ul u ur)). destruct (set_black_in _ _ _ _ _ _ _ Hin1) as (s2 & -> & Hin2).
  cbn [mbind option_bind]. focus_out Hin2. apply (set_red_in _ _ _ _ _ _ _ Hin2).
Qed.

Lemma push_red_right :
  inside h0 s k (Node true (Node false ul u ur) g (Node false pl p pr)) →
  ∃ s', push_red u p g s = Some s' ∧ inside h0 s' k (Node false (Node true ul u ur) g (Node true pl p pr)).
Proof using Type.
  intros Hin. rw /push_red. focus_in Hin (In_left true g (Node false pl p pr)).
  destruct (set_black_in _ _ _ _ _ _ _ Hin) as (s1 & -> & Hin1). cbn [mbind option_bind]. clear Hin. focus_out Hin1.
  focus_in Hin1 (In_right true (Node true ul u ur) g). destruct (set_black_in _ _ _ _ _ _ _ Hin1) as (s2 & -> & Hin2).
  cbn [mbind option_bind]. focus_out Hin2. apply (set_red_in _ _ _ _ _ _ _ Hin2).
Qed.
End push.

Section turn.
Context (h0 : gmap Z rb_node) (s : rb_state) (k : context) (p g : Z) (x y u : tree).

(** The parent becomes black and moves above the grandparent, which becomes red. *)
Lemma turn_right (v : Z) :
  inside h0 s k (Node true (Node false x p y) g u) →
  ∃ s', (s ← rb_set_black p s; s ← rb_set_red g s; s ← __rb_rotate_right g s; Some (v, s)) = Some (v, s') ∧
    inside h0 s' k (Node true x p (Node false y g u)).
Proof using Type.
  intros Hin. focus_in Hin (In_left true g u). destruct (set_black_in _ _ _ _ _ _ _ Hin) as (s1 & -> & Hin1). cbn [mbind option_bind].
  focus_out Hin1. destruct (set_red_in _ _ _ _ _ _ _ Hin1) as (s2 & -> & Hin2). cbn [mbind option_bind].
  destruct (rotate_right_ok _ _ _ _ _ _ _ _ _ _ Hin2) as (s3 & -> & Hin3). by exists s3.
Qed.

Lemma turn_left (v : Z) :
  inside h0 s k (Node true u g (Node false y p x)) →
  ∃ s', (s ← rb_set_black p s; s ← rb_set_red g s; s ← __rb_rotate_left g s; Some (v, s)) = Some (v, s') ∧
    inside h0 s' k (Node true (Node false u g y) p x).
Proof using Type.
  intros Hin. focus_in Hin (In_right true u g). destruct (set_black_in _ _ _ _ _ _ _ Hin) as (s1 & -> & Hin1). cbn [mbind option_bind].
  focus_out Hin1. destruct (set_red_in _ _ _ _ _ _ _ Hin1) as (s2 & -> & Hin2). cbn [mbind option_bind].
  destruct (rotate_left_ok _ _ _ _ _ _ _ _ _ _ Hin2) as (s3 & -> & Hin3). by exists s3.
Qed.
End turn.

(** The addresses in order do not change when the shape does. *)
Ltac same_order := cbn; repeat (rewrite <- ?app_assoc; cbn); done.

(** The parent is the left child of the grandparent. *)
Lemma round_left h0 s k f g u l a r n :
  let K := f :: In_left true g u :: k in
  frame_black f = false → fresh_red h0 s K l a r n →
  round_done h0 K (before K ++ inorder (Node false l a r) ++ behind K) (insert_round a (frame_addr f) s).
Proof.
  intros K Hf [Hin Hb Hk]. rw /insert_round.
  destruct f as [? p y|? y p]; cbn in Hf; subst; cbn [frame_addr]; pose proof Hin as Hin1; focus_out Hin1; pose proof Hin1 as Hin2;
    focus_out Hin2; run (parent_of_in _ _ _ _ _ _ _ Hin1); cbn [up frame_addr]; run (left_of_in _ _ _ _ _ _ _ Hin2);
    cbn [ptr]; rw Z.eqb_refl; run (right_of_in _ _ _ _ _ _ _ Hin2);
    pose proof (red_uncle_in _ _ _ _ (proj2 (inside_fill _ _ (In_right true _ g) k u) Hin2)) as ->; cbn [mbind option_bind];
    (destruct (is_black u) eqn:Eu; cbn [negb];
      [|destruct u as [|[] ul u ur]; try done; destruct (push_red_left _ _ _ _ _ _ _ _ _ _ Hin2) as (s' & Hs & Hin'); cbn [ptr]; run Hs;
        eexists s', k, _, g, _, (S n); split_and!; [done| |cbn; lia|]; [split; [exact Hin'|cbn in *; naive_solver..]|same_order]]);
    run (right_of_in _ _ _ _ _ _ _ Hin1).
  - destruct (Z.eqb_spec (ptr y) a) as [E|_].
    { symmetry in E. by destruct (sibling_ne _ _ _ _ _ _ _ Hin1 E) as [? _]. }
    cbn [mbind option_bind]. destruct (turn_right _ _ _ _ _ _ _ _ a Hin2) as (s' & -> & Hin').
    exists s', (In_left true p (Node false y g u) :: k), l, a, r, n. split_and!; [done| |cbn; lia|same_order].
    focus_in Hin' (In_left true p (Node false y g u)). split; [done..|cbn in *; naive_solver].
  - cbn [ptr]. rw Z.eqb_refl. cbn [mbind option_bind]. destruct (rotate_left_ok _ _ _ _ _ _ _ _ _ _ Hin1) as (s1 & -> & Hin3).
    cbn [mbind option_bind]. focus_out Hin3. destruct (turn_right _ _ _ _ _ _ _ _ p Hin3) as (s' & -> & Hin').
    exists s', (In_left true a (Node false r g u) :: k), y, p, l, n. split_and!; [done| |cbn; lia|same_order].
    focus_in Hin' (In_left true a (Node false r g u)). split; [done|cbn in *; naive_solver..].
Qed.

(** The parent is the right child of the grandparent. *)
Lemma round_right h0 s k f g u l a r n :
  let K := f :: In_right true u g :: k in
  frame_black f = false → fresh_red h0 s K l a r n →
  round_done h0 K (before K ++ inorder (Node false l a r) ++ behind K) (insert_round a (frame_addr f) s).
Proof.
  intros K Hf [Hin Hb Hk]. rw /insert_round.
  destruct f as [? p y|? y p]; cbn in Hf; subst; cbn [frame_addr]; pose proof Hin as Hin1; focus_out Hin1; pose proof Hin1 as Hin2;
    focus_out Hin2; run (parent_of_in _ _ _ _ _ _ _ Hin1); cbn [up frame_addr]; run (left_of_in _ _ _ _ _ _ _ Hin2);
    (destruct (Z.eqb_spec p (ptr u)) as [E|_]; [symmetry in E; by destruct (sibling_ne _ _ _ _ _ _ _ Hin2 E) as [_ ?]|]);
    pose proof (red_uncle_in _ _ _ _ (proj2 (inside_fill _ _ (In_left true g _) k u) Hin2)) as ->; cbn [mbind option_bind];
    (destruct (is_black u) eqn:Eu; cbn [negb];
      [|destruct u as [|[] ul u ur]; try done; destruct (push_red_right _ _ _ _ _ _ _ _ _ _ Hin2) as (s' & Hs & Hin'); cbn [ptr]; run Hs;
        eexists s', k, _, g, _, (S n); split_and!; [done| |cbn; lia|]; [split; [exact Hin'|cbn in *; naive_solver..]|same_order]]);
    run (left_of_in _ _ _ _ _ _ _ Hin1).
  - cbn [ptr]. rw Z.eqb_refl. cbn [mbind option_bind]. destruct (rotate_right_ok _ _ _ _ _ _ _ _ _ _ Hin1) as (s1 & -> & Hin3).
    cbn [mbind option_bind]. focus_out Hin3. destruct (turn_left _ _ _ _ _ _ _ _ p Hin3) as (s' & -> & Hin').
    exists s', (In_right true (Node false u g l) a :: k), r, p, y, n. split_and!; [done| |cbn; lia|same_order].
    focus_in Hin' (In_right true (Node false u g l) a). split; [done|cbn in *; naive_solver..].
  - destruct (Z.eqb_spec (ptr y) a) as [E|_].
    { by destruct (sibling_ne _ _ _ _ _ _ _ Hin1 E) as [_ ?]. }
    cbn [mbind option_bind]. destruct (turn_left _ _ _ _ _ _ _ _ a Hin2) as (s' & -> & Hin').
    exists s', (In_right true (Node false u g y) p :: k), l, a, r, n. split_and!; [done| |cbn; lia|same_order].
    focus_in Hin' (In_right true (Node false u g y) p). split; [done..|cbn in *; naive_solver].
Qed.

(** ** All rounds *)

(** The tree without the demand that its root is black. *)
Definition nearly (h0 : gmap Z rb_node) (old : list Z) (s : rb_state) : Prop :=
  ∃ c l a r, inside h0 s [] (Node c l a r) ∧ inorder (Node c l a r) = old ∧ ∃ n, balanced n (Node c l a r).

Lemma plug_node k c l a r : ∃ c' l' a' r', plug k (Node c l a r) = Node c' l' a' r'.
Proof. revert c l a r. induction k as [|f k IH]; intros c l a r; cbn; [eauto|]. destruct f; apply IH. Qed.

Lemma fresh_red_done h0 s k l a r n :
  fresh_red h0 s k l a r n → takes_red k → nearly h0 (before k ++ inorder (Node false l a r) ++ behind k) s.
Proof.
  intros [Hin Hb Hk] Hr. destruct (plug_node k false l a r) as (c' & l' & a' & r' & E). exists c', l', a', r'. rewrite <- E. split_and!.
  - exact (proj1 (inside_plug _ _ _ _) Hin).
  - apply inorder_plug.
  - destruct (plug_balanced k n _ Hk Hb) as (m & Hm & _); [by right|eauto].
Qed.

Definition insert_body : Z * rb_state → option (ctl (Z * rb_state) rb_state) :=
  λ '(node, s),
    parent ← parent_of node s;
    red ← (if parent =? 0 then Some false else rb_is_red parent s);
    if red : bool then '(node, s) ← insert_round node parent s; Some (Next (node, s)) else Some (Stop s).

Lemma insert_loop_ok h0 fuel k s l a r n :
  fresh_red h0 s k l a r n → (length k < fuel)%nat →
  ∃ s', loop fuel insert_body (a, s) = Some s' ∧ nearly h0 (before k ++ inorder (Node false l a r) ++ behind k) s'.
Proof.
  revert k s l a r n. induction fuel as [|fuel IH]; intros k s l a r n Hfr Hlen; [lia|]. pose proof (fr_inside _ _ _ _ _ _ _ Hfr) as Hin.
  cbn [loop]. rw /insert_body. run (parent_of_in _ _ _ _ _ _ _ Hin).
  destruct k as [|f k]; [eexists; split; [done|by eapply fresh_red_done]|].
  cbn [up]. pose proof (addr_ne0 _ (up_addr _ _ _ _ _ Hin)). ztest.
  assert (rb_is_red (frame_addr f) s = Some (negb (frame_black f))) as ->.
  { pose proof Hin as Hin1. focus_out Hin1. destruct f; exact (is_red_in _ _ _ _ _ _ _ Hin1). }
  cbn [mbind option_bind]. destruct (frame_black f) eqn:Ef; cbn [negb]; [eexists; split; [done|eapply fresh_red_done; [done|cbn; by rw Ef]]|].
  assert (round_done h0 (f :: k) (before (f :: k) ++ inorder (Node false l a r) ++ behind (f :: k)) (insert_round a (frame_addr f) s))
    as (s' & k' & l' & a' & r' & n' & -> & Hfr' & Hk' & <-).
  { pose proof (fr_expects _ _ _ _ _ _ _ Hfr) as Hk. cbn in Hk. rw Ef in Hk. destruct Hk as (_ & _ & Hne & Hred & _).
    destruct k as [|[[] g u|[] u g] k]; try done; [by eapply round_left|by eapply round_right]. }
  cbn [mbind option_bind]. eapply IH; [exact Hfr'|]. cbn in *. lia.
Qed.

Lemma rb_insert_color_ok h0 k s l a r n :
  fresh_red h0 s k l a r n →
  ∃ s' t, rb_insert_color a s = Some s' ∧ inside h0 s' [] t ∧ red_black t ∧ inorder t = before k ++ inorder (Node false l a r) ++ behind k.
Proof.
  intros Hfr. pose proof (inside_depth _ _ _ _ (fr_inside _ _ _ _ _ _ _ Hfr)) as Hd.
  rw /rb_insert_color. change (λ '(node, s), _) with insert_body.
  destruct (insert_loop_ok h0 (S (S (size (rb_nodes s)))) k s l a r n Hfr ltac:(lia)) as (s1 & -> & c & l' & a' & r' & Hin & <- & m & Hm).
  cbn [mbind option_bind]. assert (rb_top s1 = a') as -> by apply Hin.
  destruct (set_black_in _ _ _ _ _ _ _ Hin) as (s2 & -> & Hin2). exists s2, (Node true l' a' r'). split_and!; [done|done| |done].
  split; [done|]. destruct c; cbn in Hm; [by exists m|exists (S m); cbn; naive_solver].
Qed.

(** ** Linking a node *)

(** The [rb_link] argument for the place that a context describes. *)
Definition link_of (k : context) : option bool :=
  match k with [] => None | In_left _ _ _ :: _ => Some true | In_right _ _ _ :: _ => Some false end.

Lemma rb_link_node_ok h0 s k a :
  inside h0 s k Leaf → a ∉ before k ++ behind k → addr_ok a → is_Some (rb_nodes s !! a) →
  ∃ s', rb_link_node a (up k) (link_of k) s = Some s' ∧ inside h0 s' k (Node false Leaf a Leaf).
Proof.
  intros [_ Hc Hnd Ha Hrest] Hna Hao [n Hn]. cbn in Hc, Hnd, Ha, Hrest. rw /rb_link_node /upd_node Hn. cbn [mbind option_bind].
  set (s1 := {| rb_nodes := _; rb_top := _ |}).
  assert (s1 = upd a (mk (up k) false 0 0) s) as -> by (rw /s1 /upd /mk /=; by rw Z.add_0_r). set (s1 := upd _ _ _).
  assert (∃ s', match link_of k with None => Some (set_top a s1) | Some true => set_left (up k) a s1 | Some false => set_right (up k) a s1 end = Some s' ∧
    rep_context (rb_nodes s') (rb_top s') a k ∧ ∀ x, x ∉ before k ++ behind k → rb_nodes s' !! x = rb_nodes s1 !! x) as (s' & Hs & Hc' & Hf).
  { assert (rep_context (rb_nodes s1) (rb_top s1) 0 k) as Hc1.
    { eapply context_frame; [exact Hc|]. intros x Hx. cbn. rewrite -> lookup_insert_ne; [done|]. by intros ->. }
    destruct k as [|f k]; [by eexists|]. pose proof (frame_node_in _ _ _ _ _ Hc1) as Hf. destruct (redirect_ok _ _ _ a _ _ Hc1 Hnd) as [Hr Hrf].
    exists (upd (frame_addr f) (frame_node k f a) s1). split; [|done].
    destruct f; [exact (set_left_mk s1 _ _ _ _ _ Hf a)|exact (set_right_mk s1 _ _ _ _ _ Hf a)]. }
  exists s'. split; [done|].
  assert (before k ++ [a] ++ behind k ≡ₚ a :: before k ++ behind k) as Ep by (cbn; symmetry; apply Permutation_middle).
  split; cbn [inorder app]; [|done|rewrite -> Ep; by constructor|rewrite -> Ep; by constructor|].
  - cbn. split; [|done]. rewrite -> Hf by done. cbn. by rewrite lookup_insert_eq.
  - intros x Hx. rewrite -> Hf by set_solver. cbn. rewrite -> lookup_insert_ne by set_solver. apply Hrest. set_solver.
Qed.

Lemma rb_insert_ok h0 s k a :
  inside h0 s [] (plug k Leaf) → red_black (plug k Leaf) →
  a ∉ inorder (plug k Leaf) → addr_ok a → is_Some (rb_nodes s !! a) →
  ∃ s' t, (s1 ← rb_link_node a (up k) (link_of k) s; rb_insert_color a s1) = Some s' ∧
    inside h0 s' [] t ∧ red_black t ∧ inorder t = before k ++ a :: behind k.
Proof.
  intros Hin%inside_plug Hrb Hna Hao Hn. rewrite -> inorder_plug in Hna. cbn in Hna.
  destruct (red_black_plug _ _ Hrb) as (n & Hb & Hk & _). cbn in Hb. subst n.
  destruct (rb_link_node_ok h0 s k a Hin Hna Hao Hn) as (s1 & -> & Hin1). cbn [mbind option_bind].
  destruct (rb_insert_color_ok h0 k s1 Leaf a Leaf 0) as (s' & t & ? & ? & ? & ?); [split; [done|cbn; done|done]|]. eauto 10.
Qed.

(** C11: Inserting a node: for every red-black tree and every place at its border, linking a new node there and calling
    [rb_insert_color] ends without following a bad pointer and gives a red-black tree; its nodes in order are the old ones with the new one at
    its place, all parent and child pointers agree, and nothing outside the tree is written. *)
Theorem rb_insert_correct h0 s k a :
  inside h0 s [] (plug k Leaf) → red_black (plug k Leaf) →
  a ∉ inorder (plug k Leaf) → addr_ok a → is_Some (rb_nodes s !! a) →
  ∃ s' t, (s1 ← rb_link_node a (up k) (link_of k) s; rb_insert_color a s1) = Some s' ∧
    inside h0 s' [] t ∧ red_black t ∧ inorder t = before k ++ a :: behind k.
Proof. apply rb_insert_ok. Qed.

Lemma demo_red_black : red_black demo_tree.
Proof. split; [done|]. exists 1%nat. cbn. done. Qed.

Lemma rb_insert_correct_witness :
  ∃ s' t, (s1 ← rb_link_node 16 12 (Some false) demo_state; rb_insert_color 16 s1) = Some s' ∧
    inside (rb_nodes demo_state) s' [] t ∧ red_black t ∧ inorder t = [4; 8; 12; 16].
Proof.
  apply (rb_insert_correct (rb_nodes demo_state) demo_state [In_right false Leaf 12; In_right true (Node false Leaf 4 Leaf) 8] 16).
  - exact demo_inside.
  - exact demo_red_black.
  - cbn. apply (bool_decide_unpack _). vm_compute. exact I.
  - split; reflexivity.
  - eexists. reflexivity.
Defined.
