(* ===== verification/RbtreeErase.v ===== *)
(** * Red-black trees: rebalancing after a removal

    [__rb_erase_color] is called for a subtree that has one black node too few on its paths; every round ends the
    search or moves the deficit up. *)
From S2P Require Import Prelude Rbtree RbtreeRep RbtreeInsert.

(** ** The deficit *)

(** After its root has been made black the subtree has black height [S n]; a black subtree has height [n]. *)
Definition short (n : nat) (t : tree) : Prop :=
  match t with Node false l _ r => balanced n l ∧ balanced n r | _ => balanced n t end.

Definition blacken (t : tree) : tree := match t with Leaf => Leaf | Node _ l a r => Node true l a r end.

Lemma balanced_short n t : balanced n t → short n t.
Proof. destruct t as [|[] l a r]; cbn; naive_solver. Qed.

Lemma short_black n t : short n t → is_black t → balanced n t.
Proof. by destruct t as [|[] l a r]. Qed.

(** What a round does: the deficit moves up, to a red subtree or to a shorter context, or the tree is done. *)
Definition round_ok (h0 : gmap Z rb_node) (m : nat) (old : list Z) (res : option (ctl (Z * Z * rb_state) (Z * rb_state))) : Prop :=
  (∃ s' k t n, res = Some (Next (ptr t, up k, s')) ∧ inside h0 s' k t ∧ short n t ∧ expects (S n) k ∧
     before k ++ inorder t ++ behind k = old ∧ (is_black t → (length k < m)%nat)) ∨
  (∃ s' t, res = Some (Stop (rb_top s', s')) ∧ inside h0 s' [] t ∧ red_black t ∧ inorder t = old).

(** The tree is done when a subtree of the right height has been put in. *)
Lemma round_stop h0 m old s k n t :
  inside h0 s k t → balanced n t → expects n k → is_black t ∨ takes_red k ∧ k ≠ [] → before k ++ inorder t ++ behind k = old →
  round_ok h0 m old (Some (Stop (rb_top s, s))).
Proof.
  intros Hin Hb Hk Hc <-. right. exists s, (plug k t). destruct (plug_balanced k n t Hk Hb) as (m' & Hm & Hbl); [naive_solver|].
  split_and!; [done|exact (proj1 (inside_plug _ _ _ _) Hin)|split; [naive_solver|by exists m']|apply inorder_plug].
Qed.

Section left.
Context (h0 : gmap Z rb_node) (k : context) (p : Z) (t : tree).

(** A red sibling moves up, its child becomes the sibling. *)
Lemma erase_left_red s a x b y r :
  inside h0 s (In_left true p (Node false (Node true x b y) a r) :: k) t →
  ∃ s', erase_left p s = erase_left p s' ∧ inside h0 s' (In_left false p (Node true x b y) :: In_left true a r :: k) t.
Proof using Type.
  intros Hin. focus_out Hin. rw {1}/erase_left. run (right_of_in _ _ _ _ _ _ _ Hin). focus_in Hin (In_right true t p).
  cbn [ptr]. run (is_red_in _ _ _ _ _ _ _ Hin). cbn [negb]. destruct (set_black_in _ _ _ _ _ _ _ Hin) as (s1 & E1 & H1). run E1. focus_out H1.
  destruct (set_red_in _ _ _ _ _ _ _ H1) as (s2 & E2 & H2). run E2. destruct (rotate_left_ok _ _ _ _ _ _ _ _ _ _ H2) as (s3 & E3 & H3). run E3.
  focus_in H3 (In_left true a r). rewrite -> (right_of_in _ _ _ _ _ _ _ H3). cbn [mbind option_bind ptr]. exists s3. split.
  - rw /erase_left. run (right_of_in _ _ _ _ _ _ _ H3). focus_in H3 (In_right false t p). cbn [ptr]. by run (is_red_in _ _ _ _ _ _ _ H3).
  - by apply (proj2 (inside_fill _ _ (In_left false p (Node true x b y)) _ _)).
Qed.

(** A red left nephew moves up and the sibling becomes its red child. *)
Lemma nephew_left s c x b y a r :
  inside h0 s (In_left c p (Node true (Node false x b y) a r) :: k) t →
  ∃ s', (s ← rb_set_black b s; s ← rb_set_red a s; s ← __rb_rotate_right a s; other ← right_of p s; Some (other, s)) =
      Some (b, s') ∧ inside h0 s' (In_left c p (Node true x b (Node false y a r)) :: k) t.
Proof using Type.
  intros Hin. focus_out Hin. focus_in Hin (In_right c t p). focus_in Hin (In_left true a r).
  destruct (set_black_in _ _ _ _ _ _ _ Hin) as (s1 & E1 & H1). run E1. focus_out H1.
  destruct (set_red_in _ _ _ _ _ _ _ H1) as (s2 & E2 & H2). run E2. destruct (rotate_right_ok _ _ _ _ _ _ _ _ _ _ H2) as (s3 & E3 & H3). run E3.
  focus_out H3. run (right_of_in _ _ _ _ _ _ _ H3). exists s3. split; [done|]. by apply (proj2 (inside_fill _ _ (In_left _ _ _) _ _)).
Qed.

(** A red right nephew becomes black, the sibling takes the place and the colour of the parent. *)
Lemma finish_left s c x a l b r :
  inside h0 s (In_left c p (Node true x a (Node false l b r)) :: k) t →
  ∃ s', (n ← rb_nodes s !! p; s ← rb_set_color a (rb_color n) s; s ← rb_set_black p s; r ← right_of a s; s ← rb_set_black r s;
         s ← __rb_rotate_left p s; Some (Stop (rb_top s, s))) =
      Some (Stop (S := Z * Z * rb_state) (rb_top s', s')) ∧ inside h0 s' k (Node c (Node true t p x) a (Node true l b r)).
Proof using Type.
  intros Hin. focus_out Hin. destruct (inside_node _ _ _ _ _ _ _ Hin) as (Hn & Hup & _). run Hn. rw rb_color_mk //.
  focus_in Hin (In_right c t p). destruct (set_color_in _ _ _ _ _ _ _ Hin c) as (s1 & E1 & H1). run E1. focus_out H1.
  destruct (set_black_in _ _ _ _ _ _ _ H1) as (s2 & E2 & H2). run E2. focus_in H2 (In_right true t p). run (right_of_in _ _ _ _ _ _ _ H2).
  focus_in H2 (In_right c x a). cbn [ptr]. destruct (set_black_in _ _ _ _ _ _ _ H2) as (s3 & E3 & H3). run E3. focus_out H3. focus_out H3.
  destruct (rotate_left_ok _ _ _ _ _ _ _ _ _ _ H3) as (s4 & E4 & H4). run E4. by exists s4.
Qed.

(** A black sibling: the deficit moves up, or rotations repair it. *)
Lemma erase_left_black s c o n m :
  inside h0 s (In_left c p o :: k) t → is_black o → short n t → is_black t → expects (S n) (In_left c p o :: k) →
  (c → (length k < m)%nat) →
  round_ok h0 m (before (In_left c p o :: k) ++ inorder t ++ behind (In_left c p o :: k)) (erase_left p s).
Proof using Type.
  intros Hin Hob Hsh Htb Hk Hm. pose proof (short_black _ _ Hsh Htb) as Ht. destruct Hk as [Ho Hk].
  destruct o as [|[] ol a orr]; [done| |done]. destruct Ho as [Hol Hor]. cbn [frame_black is_black] in Hk. clear Hob Hsh.
  focus_out Hin. rw /erase_left. run (right_of_in _ _ _ _ _ _ _ Hin). focus_in Hin (In_right c t p). cbn [ptr].
  run (is_red_in _ _ _ _ _ _ _ Hin). cbn [negb mbind option_bind]. run (left_of_in _ _ _ _ _ _ _ Hin). run (right_of_in _ _ _ _ _ _ _ Hin).
  run (black_or_null_in _ _ _ _ (proj2 (inside_fill _ _ (In_left true a orr) _ ol) Hin)).
  run (black_or_null_in _ _ _ _ (proj2 (inside_fill _ _ (In_right true ol a) _ orr) Hin)).
  destruct (is_black ol && is_black orr) eqn:Eb.
  { apply andb_true_iff in Eb as [El Er]. destruct (set_red_in _ _ _ _ _ _ _ Hin) as (s1 & E1 & H1). run E1. focus_out H1.
    run (parent_of_in _ _ _ _ _ _ _ H1). left.
    exists s1, k, (Node c t p (Node false ol a orr)), (if c then S n else n). split_and!; [done|done| | |same_order|by destruct c].
    - destruct c; cbn in *; naive_solver.
    - destruct c; naive_solver. }
  destruct orr as [|[] l b r]; cbn [is_black andb] in *.
  1, 2: destruct ol as [|[] x z y]; try done; focus_out Hin; apply (proj2 (inside_fill _ _ (In_left c p _) _ t)) in Hin;
    destruct (nephew_left _ _ _ _ _ _ _ Hin) as (s1 & E1 & H1); cbn [ptr]; run E1; destruct (finish_left _ _ _ _ _ _ _ H1) as (s2 & E2 & H2); rw E2;
    (eapply (round_stop _ _ _ _ k (if c then S (S n) else S n)); [exact H2|destruct c; cbn in *; naive_solver..|same_order]).
  focus_out Hin; apply (proj2 (inside_fill _ _ (In_left c p _) _ t)) in Hin. destruct (finish_left _ _ _ _ _ _ _ Hin) as (s2 & E2 & H2). cbn [mbind option_bind]. rw E2.
  eapply (round_stop _ _ _ _ k (if c then S (S n) else S n)); [exact H2|destruct c; cbn in *; naive_solver..|same_order].
Qed.
End left.

Section right.
Context (h0 : gmap Z rb_node) (k : context) (p : Z) (t : tree).

Lemma erase_right_red s a x b y l :
  inside h0 s (In_right true (Node false l a (Node true x b y)) p :: k) t →
  ∃ s', erase_right p s = erase_right p s' ∧ inside h0 s' (In_right false (Node true x b y) p :: In_right true l a :: k) t.
Proof using Type.
  intros Hin. focus_out Hin. rw {1}/erase_right. run (left_of_in _ _ _ _ _ _ _ Hin). focus_in Hin (In_left true p t).
  cbn [ptr]. run (is_red_in _ _ _ _ _ _ _ Hin). cbn [negb]. destruct (set_black_in _ _ _ _ _ _ _ Hin) as (s1 & E1 & H1). run E1. focus_out H1.
  destruct (set_red_in _ _ _ _ _ _ _ H1) as (s2 & E2 & H2). run E2. destruct (rotate_right_ok _ _ _ _ _ _ _ _ _ _ H2) as (s3 & E3 & H3). run E3.
  focus_in H3 (In_right true l a). rewrite -> (left_of_in _ _ _ _ _ _ _ H3). cbn [mbind option_bind ptr]. exists s3. split.
  - rw /erase_right. run (left_of_in _ _ _ _ _ _ _ H3). focus_in H3 (In_left false p t). cbn [ptr]. by run (is_red_in _ _ _ _ _ _ _ H3).
  - by apply (proj2 (inside_fill _ _ (In_right false (Node true x b y) p) _ _)).
Qed.

Lemma nephew_right s c x b y a l :
  inside h0 s (In_right c (Node true l a (Node false x b y)) p :: k) t →
  ∃ s', (s ← rb_set_black b s; s ← rb_set_red a s; s ← __rb_rotate_left a s; other ← left_of p s; Some (other, s)) =
      Some (b, s') ∧ inside h0 s' (In_right c (Node true (Node false l a x) b y) p :: k) t.
Proof using Type.
  intros Hin. focus_out Hin. focus_in Hin (In_left c p t). focus_in Hin (In_right true l a).
  destruct (set_black_in _ _ _ _ _ _ _ Hin) as (s1 & E1 & H1). run E1. focus_out H1.
  destruct (set_red_in _ _ _ _ _ _ _ H1) as (s2 & E2 & H2). run E2. destruct (rotate_left_ok _ _ _ _ _ _ _ _ _ _ H2) as (s3 & E3 & H3). run E3.
  focus_out H3. run (left_of_in _ _ _ _ _ _ _ H3). exists s3. split; [done|]. by apply (proj2 (inside_fill _ _ (In_right _ _ _) _ _)).
Qed.

Lemma finish_right s c x a l b r :
  inside h0 s (In_right c (Node true (Node false l b r) a x) p :: k) t →
  ∃ s', (n ← rb_nodes s !! p; s ← rb_set_color a (rb_color n) s; s ← rb_set_black p s; l ← left_of a s; s ← rb_set_black l s;
         s ← __rb_rotate_right p s; Some (Stop (rb_top s, s))) =
      Some (Stop (S := Z * Z * rb_state) (rb_top s', s')) ∧ inside h0 s' k (Node c (Node true l b r) a (Node true x p t)).
Proof using Type.
  intros Hin. focus_out Hin. destruct (inside_node _ _ _ _ _ _ _ Hin) as (Hn & Hup & _). run Hn. rw rb_color_mk //.
  focus_in Hin (In_left c p t). destruct (set_color_in _ _ _ _ _ _ _ Hin c) as (s1 & E1 & H1). run E1. focus_out H1.
  destruct (set_black_in _ _ _ _ _ _ _ H1) as (s2 & E2 & H2). run E2. focus_in H2 (In_left true p t). run (left_of_in _ _ _ _ _ _ _ H2).
  focus_in H2 (In_left c a x). cbn [ptr]. destruct (set_black_in _ _ _ _ _ _ _ H2) as (s3 & E3 & H3). run E3. focus_out H3. focus_out H3.
  destruct (rotate_right_ok _ _ _ _ _ _ _ _ _ _ H3) as (s4 & E4 & H4). run E4. by exists s4.
Qed.

Lemma erase_right_black s c o n m :
  inside h0 s (In_right c o p :: k) t → is_black o → short n t → is_black t → expects (S n) (In_right c o p :: k) →
  (c → (length k < m)%nat) →
  round_ok h0 m (before (In_right c o p :: k) ++ inorder t ++ behind (In_right c o p :: k)) (erase_right p s).
Proof using Type.
  intros Hin Hob Hsh Htb Hk Hm. pose proof (short_black _ _ Hsh Htb) as Ht. destruct Hk as [Ho Hk].
  destruct o as [|[] ol a orr]; [done| |done]. destruct Ho as [Hol Hor]. cbn [frame_black is_black] in Hk. clear Hob Hsh.
  focus_out Hin. rw /erase_right. run (left_of_in _ _ _ _ _ _ _ Hin). focus_in Hin (In_left c p t). cbn [ptr].
  run (is_red_in _ _ _ _ _ _ _ Hin). cbn [negb mbind option_bind]. run (left_of_in _ _ _ _ _ _ _ Hin). run (right_of_in _ _ _ _ _ _ _ Hin).
  run (black_or_null_in _ _ _ _ (proj2 (inside_fill _ _ (In_left true a orr) _ ol) Hin)).
  run (black_or_null_in _ _ _ _ (proj2 (inside_fill _ _ (In_right true ol a) _ orr) Hin)).
  destruct (is_black ol && is_black orr) eqn:Eb.
  { apply andb_true_iff in Eb as [El Er]. destruct (set_red_in _ _ _ _ _ _ _ Hin) as (s1 & E1 & H1). run E1. focus_out H1.
    run (parent_of_in _ _ _ _ _ _ _ H1). left.
    exists s1, k, (Node c (Node false ol a orr) p t), (if c then S n else n). split_and!; [done|done| | |same_order|by destruct c].
    - destruct c; cbn in *; naive_solver.
    - destruct c; naive_solver. }
  destruct ol as [|[] l b r]; cbn [is_black andb] in *.
  1, 2: destruct orr as [|[] x z y]; try done; focus_out Hin; apply (proj2 (inside_fill _ _ (In_right c _ p) _ t)) in Hin;
    destruct (nephew_right _ _ _ _ _ _ _ Hin) as (s1 & E1 & H1); cbn [ptr]; run E1; destruct (finish_right _ _ _ _ _ _ _ H1) as (s2 & E2 & H2); rw E2;
    (eapply (round_stop _ _ _ _ k (if c then S (S n) else S n)); [exact H2|destruct c; cbn in *; naive_solver..|same_order]).
  focus_out Hin; apply (proj2 (inside_fill _ _ (In_right c _ p) _ t)) in Hin. destruct (finish_right _ _ _ _ _ _ _ Hin) as (s2 & E2 & H2).
  cbn [mbind option_bind]. rw E2.
  eapply (round_stop _ _ _ _ k (if c then S (S n) else S n)); [exact H2|destruct c; cbn in *; naive_solver..|same_order].
Qed.
End right.

(** ** All rounds *)

(** A round: the sibling is not empty, and a red sibling has black children. *)
Lemma erase_round h0 s f k t n :
  inside h0 s (f :: k) t → short n t → is_black t → expects (S n) (f :: k) →
  round_ok h0 (S (length k)) (before (f :: k) ++ inorder t ++ behind (f :: k))
    (l ← left_of (frame_addr f) s; if l =? ptr t then erase_left (frame_addr f) s else erase_right (frame_addr f) s).
Proof.
  intros Hin Hsh Htb Hk. pose proof Hin as Hin0. focus_out Hin0. destruct f as [c p o|c o p]; cbn [fill frame_addr] in *; run (left_of_in _ _ _ _ _ _ _ Hin0).
  - rw Z.eqb_refl. destruct (is_black o) eqn:Eo; [eapply erase_left_black; [done|by rw Eo|done..|lia]|].
    destruct o as [|[] ol a orr]; try done. destruct c; [|cbn in Hk; naive_solver].
    destruct Hk as [(Hlb & Hrb & Hl & Hr) Hk]. destruct ol as [|[] x b y]; try done.
    destruct (erase_left_red _ _ _ _ _ _ _ _ _ _ Hin) as (s1 & -> & H1).
    eapply (erase_left_black _ _ _ _ _ _ _ _ (S (length k))) in H1; [|done..|cbn in *; naive_solver|done].
    revert H1. rw /round_ok. cbn. repeat (rewrite <- ?app_assoc; cbn). done.
  - destruct (Z.eqb_spec (ptr o) (ptr t)) as [E|_].
    { destruct (sibling_ne _ _ _ _ _ _ _ Hin0 E) as [-> _]. by destruct Hk. }
    destruct (is_black o) eqn:Eo; [eapply erase_right_black; [done|by rw Eo|done..|lia]|].
    destruct o as [|[] ol a orr]; try done. destruct c; [|cbn in Hk; naive_solver].
    destruct Hk as [(Hlb & Hrb & Hl & Hr) Hk]. destruct orr as [|[] x b y]; try done.
    destruct (erase_right_red _ _ _ _ _ _ _ _ _ _ Hin) as (s1 & -> & H1).
    eapply (erase_right_black _ _ _ _ _ _ _ _ (S (length k))) in H1; [|done..|cbn in *; naive_solver|done].
    revert H1. rw /round_ok. cbn. repeat (rewrite <- ?app_assoc; cbn). done.
Qed.

(** The root is not a proper part of the tree. *)
Lemma top_in_context k t : k ≠ [] → ptr (plug k t) ∈ before k ++ behind k.
Proof.
  revert t. induction k as [|f k IH]; intros t; [done|]. intros _. cbn. destruct k as [|g k].
  - destruct f; cbn; set_solver.
  - assert (ptr (plug (g :: k) (fill f t)) ∈ before (g :: k) ++ behind (g :: k)) as H by by apply IH.
    destruct f; cbn [before behind]; set_solver.
Qed.

Lemma top_ne h0 s f k t : inside h0 s (f :: k) t → ptr t ≠ rb_top s.
Proof.
  intros Hin. assert (rb_top s = ptr (plug (f :: k) t)) as -> by (by apply inside_plug in Hin; apply Hin).
  pose proof (top_in_context (f :: k) t ltac:(done)) as Ht. destruct Hin as [_ _ Hnd Ha _]. intros E. rewrite <- E in Ht.
  destruct (ptr_in t) as [[E0 _]|Hp].
  - rewrite -> E0 in Ht. assert (addr_ok 0) as [? _]; [|lia]. rewrite -> Forall_forall in Ha. apply Ha. set_solver.
  - clear -Hnd Ht Hp. nodup. set_solver.
Qed.

Definition erase_body : Z * Z * rb_state → option (ctl (Z * Z * rb_state) (Z * rb_state)) :=
  λ '(node, parent, s),
    black ← black_or_null node s;
    if black && negb (node =? rb_top s) then
      l ← left_of parent s;
      if l =? node then erase_left parent s else erase_right parent s
    else Some (Stop (node, s)).

(** When the loop ends, making its subtree black completes the tree. *)
Definition loop_ended (h0 : gmap Z rb_node) (old : list Z) (res : Z * rb_state) : Prop :=
  ∃ k t, res.1 = ptr t ∧ inside h0 res.2 k t ∧ red_black (plug k (blacken t)) ∧ before k ++ inorder t ++ behind k = old.

Lemma erase_loop_ok h0 fuel k s t n :
  inside h0 s k t → short n t → expects (S n) k → ((if is_black t then S (length k) else 0) < fuel)%nat →
  ∃ res, loop fuel erase_body (ptr t, up k, s) = Some res ∧ loop_ended h0 (before k ++ inorder t ++ behind k) res.
Proof.
  revert k s t n. induction fuel as [|fuel IH]; intros k s t n Hin Hsh Hk Hf; [lia|]. cbn [loop]. rw {1}/erase_body.
  run (black_or_null_in _ _ _ _ Hin). destruct (is_black t) eqn:Eb; cbn [andb].
  - destruct k as [|f k].
    + assert (rb_top s = ptr t) as -> by apply Hin. rw Z.eqb_refl. cbn [negb]. eexists. split; [done|]. exists [], t. split_and!; [done..| |done].
      destruct t as [|[] l a r]; [split; [done|by exists n]..|done].
    + pose proof (top_ne _ _ _ _ _ Hin). ztest. cbn [negb up].
      destruct (erase_round _ _ _ _ _ _ Hin Hsh ltac:(by rw Eb) Hk) as [(s' & k' & t' & n' & -> & Hin' & Hsh' & Hk' & <- & Hm)|(s' & t' & -> & Hin' & Hrb & <-)].
      * eapply IH; [done..|]. destruct (is_black t'); [cbn in *; specialize (Hm I)|]; cbn in Hf; lia.
      * eexists. split; [done|]. exists [], t'. split_and!; [by apply Hin'|done| |by cbn; rw app_nil_r]. cbn.
        destruct t' as [|[] l a r]; [done|done|by destruct Hrb].
  - eexists. split; [done|]. exists k, t. split_and!; [done..| |done]. destruct t as [|[] l a r]; try done.
    destruct (plug_balanced k (S n) (Node true l a r) Hk Hsh) as (m & Hm & Hb); [by left|]. split; [apply Hb; by left|by exists m].
Qed.

(** The rebalancing after a removal. *)
Lemma rb_erase_color_ok h0 k s t n :
  inside h0 s k t → short n t → expects (S n) k →
  ∃ s' t', __rb_erase_color (ptr t) (up k) s = Some s' ∧ inside h0 s' [] t' ∧ red_black t' ∧
    inorder t' = before k ++ inorder t ++ behind k.
Proof.
  intros Hin Hsh Hk. pose proof (inside_depth _ _ _ _ Hin) as Hd. rw /__rb_erase_color. change (λ '(node, parent, s), _) with erase_body.
  destruct (erase_loop_ok h0 (S (S (size (rb_nodes s)))) k s t n Hin Hsh Hk) as ([node s1] & -> & k' & t' & Hn & Hin' & Hrb & <-);
    [destruct (is_black t); lia|]. cbn [mbind option_bind fst snd] in *. subst node. destruct t' as [|c l a r]; cbn [ptr].
  - exists s1, (plug k' Leaf). split_and!; [done|by apply (proj1 (inside_plug _ _ _ _))|done|apply inorder_plug].
  - pose proof (addr_ne0 _ (addr_in _ _ _ _ _ _ _ Hin')). ztest. cbn [negb]. destruct (set_black_in _ _ _ _ _ _ _ Hin') as (s2 & -> & Hin2).
    exists s2, (plug k' (Node true l a r)). split_and!; [done|by apply (proj1 (inside_plug _ _ _ _))|done|by rw inorder_plug].
Qed.
