(* ===== verification/RbtreeWalk.v ===== *)
(** * Red-black trees: walking in order

    [rb_first], [rb_last], [rb_next] and [rb_prev] go through the nodes of the tree in order, down along the children
    and up along the parent pointers. *)
From S2P Require Import Prelude Rbtree RbtreeRep.

(** The first and the last address of a list, 0 if there is none. *)
Notation first_of l := (default 0 (head l)).
Notation last_of l := (default 0 (last l)).

(** ** Going down *)

Lemma leftmost_loop h0 s k c l a r fuel :
  inside h0 s k (Node c l a r) → (length (inorder l) < fuel)%nat →
  loop fuel (λ node, l ← left_of node s; Some (if negb (l =? 0) then Next l else Stop node)) a = Some (first_of (inorder (Node c l a r))).
Proof.
  revert k c a r fuel. induction l as [|c' l' IH a' r' _]; intros k c a r fuel Hin Hf; (destruct fuel as [|fuel]; [lia|]); cbn [loop];
    run (left_of_in _ _ _ _ _ _ _ Hin); cbn [ptr].
  - done.
  - apply (proj2 (inside_fill _ _ (In_left c a r) _ _)) in Hin. pose proof (addr_ne0 _ (addr_in _ _ _ _ _ _ _ Hin)). ztest. cbn [negb].
    rewrite -> (IH _ _ _ _ _ Hin) by (cbn in Hf; rewrite -> length_app in Hf; cbn in Hf; lia). cbn. f_equal. by destruct (inorder l').
Qed.

Lemma rightmost_loop h0 s k c l a r fuel :
  inside h0 s k (Node c l a r) → (length (inorder r) < fuel)%nat →
  loop fuel (λ node, r ← right_of node s; Some (if negb (r =? 0) then Next r else Stop node)) a = Some (last_of (inorder (Node c l a r))).
Proof.
  revert k c l a fuel. induction r as [|c' l' _ a' r' IH]; intros k c l a fuel Hin Hf; (destruct fuel as [|fuel]; [lia|]); cbn [loop];
    run (right_of_in _ _ _ _ _ _ _ Hin); cbn [ptr].
  - cbn. by rewrite last_snoc.
  - apply (proj2 (inside_fill _ _ (In_right c l a) _ _)) in Hin. pose proof (addr_ne0 _ (addr_in _ _ _ _ _ _ _ Hin)). ztest. cbn [negb].
    rewrite -> (IH _ _ _ _ _ Hin) by (cbn in Hf; rewrite -> length_app in Hf; cbn in Hf; lia). cbn. do 2 f_equal.
    rewrite -> (last_app_cons (inorder l)). destruct (inorder l'); cbn; done.
Qed.

Lemma leftmost_ok h0 s k c l a r : inside h0 s k (Node c l a r) → leftmost a s = Some (first_of (inorder (Node c l a r))).
Proof.
  intros Hin. eapply leftmost_loop; [done|]. pose proof (inside_size _ _ _ _ Hin) as Hs. rewrite -> !length_app in Hs. cbn in Hs.
  rewrite -> length_app in Hs. lia.
Qed.

Lemma rightmost_ok h0 s k c l a r : inside h0 s k (Node c l a r) → rightmost a s = Some (last_of (inorder (Node c l a r))).
Proof.
  intros Hin. eapply rightmost_loop; [done|]. pose proof (inside_size _ _ _ _ Hin) as Hs. rewrite -> !length_app in Hs. cbn in Hs.
  rewrite -> length_app in Hs. cbn in Hs. lia.
Qed.

(** ** Going up *)

Section up.
Context (h0 : gmap Z rb_node) (s : rb_state).

Lemma climb_next k c l a r fuel :
  inside h0 s k (Node c l a r) → (length k < fuel)%nat →
  loop fuel
    (λ node, parent ← parent_of node s; if parent =? 0 then Some (Stop parent) else
             r ← right_of parent s; Some (if node =? r then Next parent else Stop parent)) a = Some (first_of (behind k)).
Proof using Type.
  revert c l a r fuel. induction k as [|f k IH]; intros c l a r fuel Hin Hf; (destruct fuel as [|fuel]; [lia|]); cbn [loop];
    run (parent_of_in _ _ _ _ _ _ _ Hin); cbn [up]; [done|]. pose proof (addr_ne0 _ (up_addr _ _ _ _ _ Hin)). ztest.
  apply inside_fill in Hin. destruct f as [c' p y|c' y p]; cbn [fill frame_addr] in *; run (right_of_in _ _ _ _ _ _ _ Hin).
  - destruct (Z.eqb_spec a (ptr y)) as [E|_]; [by destruct (sibling_ne _ _ _ _ _ _ _ Hin E)|done].
  - cbn [ptr]. rw Z.eqb_refl. eapply IH; [exact Hin|cbn in Hf; lia].
Qed.

Lemma climb_prev k c l a r fuel :
  inside h0 s k (Node c l a r) → (length k < fuel)%nat →
  loop fuel
    (λ node, parent ← parent_of node s; if parent =? 0 then Some (Stop parent) else
             l ← left_of parent s; Some (if node =? l then Next parent else Stop parent)) a = Some (last_of (before k)).
Proof using Type.
  revert c l a r fuel. induction k as [|f k IH]; intros c l a r fuel Hin Hf; (destruct fuel as [|fuel]; [lia|]); cbn [loop];
    run (parent_of_in _ _ _ _ _ _ _ Hin); cbn [up]; [done|]. pose proof (addr_ne0 _ (up_addr _ _ _ _ _ Hin)). ztest.
  apply inside_fill in Hin. destruct f as [c' p y|c' y p]; cbn [fill frame_addr] in *; run (left_of_in _ _ _ _ _ _ _ Hin).
  - cbn [ptr]. rw Z.eqb_refl. eapply IH; [exact Hin|cbn in Hf; lia].
  - destruct (Z.eqb_spec a (ptr y)) as [E|_]; [symmetry in E; by destruct (sibling_ne _ _ _ _ _ _ _ Hin E)|].
    cbn [before]. rewrite -> app_assoc. by rewrite last_snoc.
Qed.

(** A node of a tree is not its own parent. *)
Lemma up_not_self k c l a r : inside h0 s k (Node c l a r) → (up k =? a) = false.
Proof using Type.
  intros Hin. apply Z.eqb_neq. destruct (inside_node _ _ _ _ _ _ _ Hin) as (_ & _ & Ha & _ & _ & Hk). apply addr_ne0 in Ha.
  destruct (up_cases k) as [[-> _]|Hu]; [congruence|]. by intros E; rw E in Hu.
Qed.

Lemma rb_next_ok k c l a r : inside h0 s k (Node c l a r) → rb_next a s = Some (first_of (inorder r ++ behind k)).
Proof using Type.
  intros Hin. rw /rb_next. run (parent_of_in _ _ _ _ _ _ _ Hin). rw (up_not_self _ _ _ _ _ Hin). run (right_of_in _ _ _ _ _ _ _ Hin).
  destruct r as [|c' l' a' r']; cbn [ptr].
  - rewrite -> Z.eqb_refl. eapply climb_next; [done|]. pose proof (inside_depth _ _ _ _ Hin). lia.
  - apply (proj2 (inside_fill _ _ (In_right c l a) _ _)) in Hin. pose proof (addr_ne0 _ (addr_in _ _ _ _ _ _ _ Hin)). ztest. cbn [negb].
    rewrite -> (leftmost_ok _ _ _ _ _ _ _ Hin). cbn. f_equal. by destruct (inorder l').
Qed.

Lemma rb_prev_ok k c l a r : inside h0 s k (Node c l a r) → rb_prev a s = Some (last_of (before k ++ inorder l)).
Proof using Type.
  intros Hin. rw /rb_prev. run (parent_of_in _ _ _ _ _ _ _ Hin). rw (up_not_self _ _ _ _ _ Hin). run (left_of_in _ _ _ _ _ _ _ Hin).
  destruct l as [|c' l' a' r']; cbn [ptr].
  - rewrite -> Z.eqb_refl. cbn [inorder]. rewrite -> app_nil_r. eapply climb_prev; [done|]. pose proof (inside_depth _ _ _ _ Hin). lia.
  - apply (proj2 (inside_fill _ _ (In_left c a r) _ _)) in Hin. pose proof (addr_ne0 _ (addr_in _ _ _ _ _ _ _ Hin)). ztest. cbn [negb].
    rewrite -> (rightmost_ok _ _ _ _ _ _ _ Hin). cbn. by rewrite -> app_assoc, !last_app_cons.
Qed.
End up.

(** ** Every node of a tree can be focused *)

Lemma focus_on t a : a ∈ inorder t → ∃ k c l r, t = plug k (Node c l a r).
Proof.
  intros Ha. assert (∀ k0 : context, ∃ k c l r, plug k0 t = plug k (Node c l a r)) as H; [|exact (H [])].
  induction t as [|c l IHl b r IHr]; cbn in Ha; [set_solver|]. intros k0. apply elem_of_app in Ha as [Ha|[->|Ha]%elem_of_cons].
  - exact (IHl Ha (In_left c b r :: k0)).
  - by exists k0, c, l, r.
  - exact (IHr Ha (In_right c l b :: k0)).
Qed.

Lemma nodup_split {A} (a : A) x1 y1 x2 y2 : NoDup (x1 ++ a :: y1) → x1 ++ a :: y1 = x2 ++ a :: y2 → x1 = x2 ∧ y1 = y2.
Proof.
  revert x2. induction x1 as [|b x1 IH]; intros [|b' x2]; cbn; intros Hnd E.
  - by simplify_eq.
  - simplify_eq. apply NoDup_cons in Hnd as [H _]. set_solver.
  - simplify_eq. apply NoDup_cons in Hnd as [H _]. set_solver.
  - injection E as -> E. apply NoDup_cons in Hnd as [_ Hnd]. destruct (IH _ Hnd E) as [-> ->]. done.
Qed.

Lemma rb_first_ok h0 s t : inside h0 s [] t → rb_first s = Some (first_of (inorder t)).
Proof.
  intros Hin. assert (rb_top s = ptr t) as Ht by apply Hin. rw /rb_first Ht. destruct t as [|c l a r]; [done|]. cbn [ptr].
  pose proof (addr_ne0 _ (addr_in _ _ _ _ _ _ _ Hin)). ztest. by eapply leftmost_ok.
Qed.

Lemma rb_last_ok h0 s t : inside h0 s [] t → rb_last s = Some (last_of (inorder t)).
Proof.
  intros Hin. assert (rb_top s = ptr t) as Ht by apply Hin. rw /rb_last Ht. destruct t as [|c l a r]; [done|]. cbn [ptr].
  pose proof (addr_ne0 _ (addr_in _ _ _ _ _ _ _ Hin)). ztest. by eapply rightmost_ok.
Qed.

(** The place of a node in the order determines the context and the subtree at it. *)
Lemma focus_split h0 s t xs a ys :
  inside h0 s [] t → inorder t = xs ++ a :: ys →
  ∃ k c l r, t = plug k (Node c l a r) ∧ inside h0 s k (Node c l a r) ∧ xs = before k ++ inorder l ∧ ys = inorder r ++ behind k.
Proof.
  intros Hin E. destruct (focus_on t a) as (k & c & l & r & ->); [rw E; set_solver|]. exists k, c, l, r.
  pose proof (in_nodup _ _ _ _ Hin) as Hnd. cbn -[plug] in Hnd. rewrite -> app_nil_r in Hnd. rw inorder_plug in Hnd. rw inorder_plug in E.
  cbn in Hnd, E. rewrite <- app_assoc in Hnd, E. cbn in Hnd, E. rewrite -> app_assoc in Hnd, E.
  destruct (nodup_split _ _ _ _ _ Hnd E) as [<- <-]. apply inside_plug in Hin. done.
Qed.

Lemma rb_next_at h0 s t xs a ys : inside h0 s [] t → inorder t = xs ++ a :: ys → rb_next a s = Some (first_of ys).
Proof. intros Hin E. destruct (focus_split _ _ _ _ _ _ Hin E) as (k & c & l & r & _ & H & _ & ->). by eapply rb_next_ok. Qed.

Lemma rb_prev_at h0 s t xs a ys : inside h0 s [] t → inorder t = xs ++ a :: ys → rb_prev a s = Some (last_of xs).
Proof. intros Hin E. destruct (focus_split _ _ _ _ _ _ Hin E) as (k & c & l & r & _ & H & -> & _). by eapply rb_prev_ok. Qed.

(** Walking goes through the nodes in order: [rb_first] and [rb_last] return the first and the last node of a tree (null for the empty
    one), and for every node [rb_next] returns the node behind it and [rb_prev] the one before it, null at the
    ends.  All walks end without following a bad pointer. *)
Theorem rb_walk_correct h0 s t :
  inside h0 s [] t →
  rb_first s = Some (first_of (inorder t)) ∧ rb_last s = Some (last_of (inorder t)) ∧
  ∀ xs a ys, inorder t = xs ++ a :: ys → rb_next a s = Some (first_of ys) ∧ rb_prev a s = Some (last_of xs).
Proof.
  intros Hin. split_and!; [by eapply rb_first_ok|by eapply rb_last_ok|].
  intros xs a ys E. split; [by eapply rb_next_at|by eapply rb_prev_at].
Qed.

Lemma rb_walk_correct_witness : rb_first demo_state = Some 4 ∧ rb_next 8 demo_state = Some 12 ∧ rb_prev 4 demo_state = Some 0.
Proof.
  destruct (rb_walk_correct (rb_nodes demo_state) demo_state demo_tree demo_inside) as (F & _ & W).
  split; [exact F|]. split; [exact (proj1 (W [4] 8 [12] eq_refl))|exact (proj2 (W [] 4 [8; 12] eq_refl))].
Defined.
