(* ===== verification/RbtreeRemove.v ===== *)
(** * Red-black trees: removal and replacement of a node

    [rb_erase] takes a node out of the tree, directly when it has at most one child and otherwise by putting its
    successor in its place, and rebalances when a black node is gone.  [rb_replace_node] puts another node in the place of one. *)
From S2P Require Import Prelude Rbtree RbtreeRep RbtreeInsert RbtreeErase RbtreeWalk.

(** ** Taking out a node with at most one child *)

Section simple.
Context (h0 : gmap Z rb_node) (s : rb_state) (k : context) (c : bool) (l : tree) (a : Z) (r t : tree).
Context (Hin : inside h0 s k (Node c l a r)) (Ht : l = Leaf ∧ t = r ∨ r = Leaf ∧ t = l).

Lemma erase_simple_ok :
  ∃ s', erase_simple a (ptr t) s = Some (ptr t, up k, Z.b2z c, s') ∧ inside (<[a := mk (up k) c (ptr l) (ptr r)]> h0) s' k t.
Proof using Hin Ht.
  destruct (inside_node _ _ _ _ _ _ _ Hin) as (Ha & Hup & Hao & Hknd & Hka & Hak). destruct Hin as [Hrep Hctx Hnd Had Hrest].
  assert (rep (rb_nodes s) a t ∧ inorder (Node c l a r) ≡ₚ a :: inorder t) as [Hrt Hp].
  { destruct Hrep as (_ & Hl & Hr). destruct Ht as [[-> ->]|[-> ->]]; cbn; split; try done. symmetry. apply Permutation_cons_append. }
  assert (before k ++ inorder (Node c l a r) ++ behind k ≡ₚ a :: before k ++ inorder t ++ behind k) as Hp'.
  { rewrite -> Hp. cbn. symmetry. apply Permutation_middle. }
  rewrite -> Hp' in Hnd, Had. apply NoDup_cons in Hnd as [Hna Hnd]. apply Forall_cons in Had as [_ Had].
  assert (NoDup (inorder t) ∧ Forall addr_ok (inorder t)) as [Hndt Hat] by (clear -Hnd Had; nodup; done).
  assert (∀ x, x ∈ inorder t → x ∉ before k ++ behind k) as Hdis by (clear -Hnd; nodup; set_solver).
  rw /erase_simple. run Ha. rewrite -> rb_parent_mk, rb_color_mk by done. cbn in Hctx.
  destruct (reparent_ok s t a (up k) Hrt Hndt Hat (addr_ptr_ok _ Hao) Hup) as (s1 & -> & Hrt1 & Htop & Hf1). cbn [mbind option_bind].
  destruct (replace_child_ok s1 k a (ptr t)) as (s2 & -> & Hctx2 & Hf2); [|done|done|by apply addr_ne0|done|].
  { rw Htop. eapply context_frame; [exact Hctx|]. intros x Hx. apply Hf1. intros Hxt. exact (Hdis _ Hxt Hx). }
  cbn [mbind option_bind]. exists s2. split; [done|]. split; [|done|done|done|].
  - eapply rep_frame; [exact Hrt1|]. intros x Hx. apply Hf2. by apply Hdis.
  - intros x Hx. rewrite -> Hf2, Hf1 by set_solver. destruct (decide (x = a)) as [->|Hxa]; [by rewrite lookup_insert_eq|].
    rewrite -> lookup_insert_ne by done. apply Hrest. rewrite -> Hp'. set_solver.
Qed.
End simple.

(** ** A path inside a subtree *)

Definition up_or (par : Z) (k : context) : Z := match k with [] => par | f :: _ => frame_addr f end.

Fixpoint rep_path (h : gmap Z rb_node) (par hole : Z) (k : context) : Prop :=
  match k with
  | [] => True
  | In_left c a r :: k => h !! a = Some (mk (up_or par k) c hole (ptr r)) ∧ rep h a r ∧ rep_path h par a k
  | In_right c l a :: k => h !! a = Some (mk (up_or par k) c (ptr l) hole) ∧ rep h a l ∧ rep_path h par a k
  end.

Lemma rep_plug h par k t : rep h par (plug k t) ↔ rep_path h par (ptr t) k ∧ rep h (up_or par k) t.
Proof.
  revert t. induction k as [|f k IH]; intros t; [cbn; naive_solver|].
  change (plug (f :: k) t) with (plug k (fill f t)). rewrite -> IH. destruct f; cbn; naive_solver.
Qed.

Lemma plug_app k1 k2 t : plug (k1 ++ k2) t = plug k2 (plug k1 t).
Proof. apply foldl_app. Qed.

Lemma up_app k f k2 : up (k ++ f :: k2) = up_or (frame_addr f) k.
Proof. by destruct k. Qed.

Lemma inside_app h0 s k k2 t : inside h0 s (k2 ++ k) t ↔ inside h0 s k (plug k2 t).
Proof. rewrite -> (inside_plug h0 s (k2 ++ k)), (inside_plug h0 s k), plug_app. done. Qed.

(** ** The smallest node of a subtree *)

Definition lefts (k : context) : Prop := Forall (λ f, match f with In_left _ _ _ => True | _ => False end) k.

Lemma smallest t : t ≠ Leaf → ∃ k c y r, lefts k ∧ t = plug k (Node c Leaf y r).
Proof.
  intros Hne. assert (∀ k0, lefts k0 → ∃ k c y r, lefts k ∧ plug k0 t = plug k (Node c Leaf y r)) as H.
  { induction t as [|c l IH a r _]; [done|]. intros k0 Hk0. destruct l as [|c' l' a' r'].
    - by exists k0, c, a, r.
    - destruct (IH ltac:(done) (In_left c a r :: k0)) as (k & H); [by constructor|]. by exists k. }
  destruct (H [] (Forall_nil_2 _)) as (k & Hk). by exists k.
Qed.

Lemma lefts_before k : lefts k → before k = [].
Proof. induction 1 as [|f k Hf _ IH]; [done|]. by destruct f. Qed.

Lemma ptr_plug k c y l r t : k ≠ [] → ptr (plug k (Node c l y r)) = ptr (plug k t).
Proof.
  destruct k as [|f k]; [done|]. intros _. cbn. assert (∀ t1 t2, ptr t1 = ptr t2 → ptr (plug k t1) = ptr (plug k t2)) as H.
  { induction k as [|g k IH]; intros t1 t2 E; cbn; [done|]. apply IH. by destruct g. }
  apply H. by destruct f.
Qed.

Lemma path_frame h h' par hole k :
  rep_path h par hole k → (∀ a, a ∈ before k ++ behind k → h' !! a = h !! a) → rep_path h' par hole k.
Proof.
  revert hole. induction k as [|f k IH]; intros hole; cbn; [done|].
  destruct f as [c a r|c l a]; cbn; intros (H1 & H2 & H3) Hf; (split_and!; [rewrite -> Hf; [done|set_solver]|eapply rep_frame; [done|]|apply IH; [done|]]);
    intros x Hx; apply Hf; set_solver.
Qed.

(** The right child of the smallest node takes its place. *)
Lemma unlink_smallest s par f k cy y ry :
  lefts (f :: k) → rep (rb_nodes s) par (plug (f :: k) (Node cy Leaf y ry)) →
  NoDup (inorder (plug (f :: k) ry)) → Forall addr_ok (inorder (plug (f :: k) ry)) → addr_ok y →
  ∃ s', (s ← (if negb (ptr ry =? 0) then rb_set_parent (ptr ry) (frame_addr f) s else Some s); set_left (frame_addr f) (ptr ry) s) = Some s' ∧
    rep (rb_nodes s') par (plug (f :: k) ry) ∧ rb_top s' = rb_top s ∧
    ∀ x, x ∉ inorder (plug (f :: k) ry) → rb_nodes s' !! x = rb_nodes s !! x.
Proof.
  intros Hl [Hpath (_ & _ & Hry)]%rep_plug Hnd Had Hy. rewrite -> inorder_plug in *.
  assert (NoDup (inorder ry) ∧ Forall addr_ok (inorder ry)) as [Hndr Hadr] by (clear -Hnd Had; nodup; done).
  destruct f as [c g rr|]; [|by apply Forall_cons in Hl as [? _]]. rewrite -> (lefts_before _ Hl) in *. cbn [frame_addr app] in *.
  assert (addr_ok g) as Hg by (rewrite -> Forall_forall in Had; apply Had; cbn; set_solver).
  destruct (reparent_ok s ry y g Hry Hndr Hadr (addr_ptr_ok _ Hy) (addr_ptr_ok _ Hg)) as (s1 & -> & Hry1 & Htop & Hf1). cbn [mbind option_bind].
  assert (g ∉ inorder ry ∧ g ∉ inorder rr ∧ g ∉ behind k ∧ ∀ x, x ∈ inorder ry → x ∉ inorder rr ++ behind k) as (G1 & G2 & G3 & G4).
  { clear -Hnd. cbn in Hnd. nodup. set_solver. }
  cbn [ptr rep_path] in Hpath. destruct Hpath as (Hn & Hrr & Hpath).
  assert (rb_nodes s1 !! g = Some (mk (up_or par k) c y (ptr rr))) as Hn1 by (by rewrite -> Hf1).
  rewrite -> (set_left_mk _ _ _ _ _ _ Hn1). eexists. split; [done|]. cbn [rb_nodes rb_top upd].
  apply Forall_cons in Hl as [_ Hl]. assert (before k = []) as Hbk by by apply lefts_before. split_and!; [|done|].
  - apply rep_plug. split; cbn [rep_path up_or].
    + split_and!; [by rewrite lookup_insert_eq|eapply rep_frame; [exact Hrr|]|eapply path_frame; [exact Hpath|]]; intros x Hx;
        [|rw Hbk in Hx]; (rewrite -> lookup_insert_ne by set_solver); apply Hf1; set_solver.
    + eapply rep_frame; [exact Hry1|]. intros x Hx. rewrite -> lookup_insert_ne; [done|]. cbn. congruence.
  - intros x Hx. cbn in Hx. rewrite -> lookup_insert_ne by set_solver. apply Hf1. set_solver.
Qed.

(** ** Putting the successor in the place of a node with two children *)

Lemma in_plug_behind k x t : x ∈ before k ++ behind k → x ∈ inorder (plug k t).
Proof. rewrite -> inorder_plug. set_solver. Qed.

(** The code between the change of the upper link and that of the node: the successor [y] leaves its place and becomes the parent of
    the rest [plug k ry] of the right subtree. *)
Lemma take_successor s old u c pl k cy y ry :
  lefts k → rep (rb_nodes s) old (plug k (Node cy Leaf y ry)) →
  rb_nodes s !! old = Some (mk u c pl (ptr (plug k (Node cy Leaf y ry)))) →
  NoDup (inorder (plug k ry)) → Forall addr_ok (inorder (plug k ry)) → addr_ok y → addr_ok old →
  y ∉ inorder (plug k ry) → old ∉ inorder (plug k ry) → old ≠ y →
  ∃ s' p', (if up_or old k =? old then Some (y, s)
          else
            s ← (if negb (ptr ry =? 0) then rb_set_parent (ptr ry) (up_or old k) s else Some s);
            s ← set_left (up_or old k) (ptr ry) s;
            r ← right_of old s;
            s ← set_right y r s;
            r ← right_of old s;
            s ← rb_set_parent r y s;
            Some (up_or old k, s)) = Some (up_or y k, s') ∧
    rep (rb_nodes s') y (plug k ry) ∧ rb_nodes s' !! y = Some (mk p' cy 0 (ptr (plug k ry))) ∧ rb_top s' = rb_top s ∧
    ∀ x, x ≠ y → x ∉ inorder (plug k ry) → rb_nodes s' !! x = rb_nodes s !! x.
Proof.
  intros Hl Hrep Hold Hnd Had Hy Ho Hyr Hor Hne. destruct k as [|f k].
  { cbn [up_or]. rw Z.eqb_refl. destruct Hrep as (Hn & _ & Hry). by exists s, old. }
  assert (frame_addr f ∈ inorder (plug (f :: k) ry)) as Hfin by (apply in_plug_behind; destruct f; cbn; set_solver).
  cbn [up_or]. assert (frame_addr f ≠ old) as Hfo by congruence. ztest.
  pose proof (proj2 (proj1 (rep_plug _ _ _ _) Hrep)) as (Hyn & _ & _).
  destruct (unlink_smallest s old f k cy y ry Hl Hrep Hnd Had Hy) as (s2 & (sx & Ex & E2)%bind_Some & Hrep2 & Htop2 & Hf2). run Ex. run E2.
  assert (rb_nodes s2 !! old = rb_nodes s !! old) as Hold2 by (by apply Hf2). rw Hold in Hold2.
  assert (rb_nodes s2 !! y = rb_nodes s !! y) as Hy2 by (by apply Hf2). rw Hyn in Hy2.
  rewrite -> (right_of_mk _ _ _ _ _ _ Hold2). cbn [mbind option_bind]. rewrite -> (set_right_mk _ _ _ _ _ _ Hy2). cbn [mbind option_bind].
  set (s3 := upd _ _ s2). assert (rb_nodes s3 !! old = Some (mk u c pl (ptr (plug (f :: k) (Node cy Leaf y ry))))) as Hold3 by (cbn; by rewrite lookup_insert_ne).
  rewrite -> (right_of_mk _ _ _ _ _ _ Hold3). cbn [mbind option_bind]. rewrite -> (ptr_plug _ _ _ _ _ ry) by done.
  destruct (reparent_ok s3 (plug (f :: k) ry) old y) as (s4 & E4 & Hrep4 & Htop4 & Hf4); [|done|done|by apply addr_ptr_ok..|].
  { eapply rep_frame; [exact Hrep2|]. intros x Hx. cbn. rewrite -> lookup_insert_ne; [done|]. by intros ->. }
  assert (ptr (plug (f :: k) ry) ≠ 0) as Hp0.
  { apply addr_ne0. rewrite -> Forall_forall in Had. apply Had, in_plug_behind, top_in_context. done. }
  revert E4. ztest. cbn [negb]. intros E4. run E4. exists s4, (frame_addr f). split_and!; [done|done| |by rw Htop4|].
  - rewrite -> Hf4 by done. rw /s3. cbn [rb_nodes upd]. rewrite -> lookup_insert_eq. cbn [up_or]. by rewrite -> (ptr_plug _ _ _ _ _ ry) by done.
  - intros x Hx1 Hx2. rewrite -> Hf4 by done. cbn. rewrite -> lookup_insert_ne by congruence. by apply Hf2.
Qed.

Section two.
Context (h0 : gmap Z rb_node) (s : rb_state) (k : context) (c : bool) (l : tree) (a : Z).
Context (k2 : context) (cy : bool) (y : Z) (ry : tree).
Notation R := (plug k2 (Node cy Leaf y ry)).
Notation R' := (plug k2 ry).
Context (Hin : inside h0 s k (Node c l a R)) (Hk2 : lefts k2) (Hl : l ≠ Leaf).

Lemma inorder_smallest : inorder R = y :: inorder R'.
Proof using Hk2. by rewrite -> !inorder_plug, (lefts_before _ Hk2). Qed.

Lemma leftmost_right : leftmost (ptr R) s = Some y.
Proof using Hin Hk2.
  pose proof (proj2 (inside_fill _ _ (In_right c l a) _ _) Hin) as H1. pose proof inorder_smallest as E.
  destruct (plug_node k2 cy Leaf y ry) as (c' & l' & a' & r' & ER). rw ER in H1 E *. cbn [ptr].
  rewrite -> (leftmost_ok _ _ _ _ _ _ _ H1), E. done.
Qed.

(** The last assignments: the successor takes over the colour, the parent and the left child. *)
Lemma take_place s4 p' pr :
  rb_nodes s4 !! a = Some (mk (up k) c (ptr l) pr) → rb_nodes s4 !! y = Some (mk p' cy 0 (ptr R')) → rep (rb_nodes s4) a l →
  NoDup (inorder l) → Forall addr_ok (inorder l) → addr_ok y → addr_ok a → a ∉ inorder l → y ∉ inorder l → a ≠ y →
  ∃ s', (o ← rb_nodes s4 !! a; s ← set_parent_color (rb_parent_color o) y s4; l ← left_of a s; s ← set_left y l s; l ← left_of a s;
         rb_set_parent l y s) = Some s' ∧
    rb_nodes s' !! y = Some (mk (up k) c (ptr l) (ptr R')) ∧ rep (rb_nodes s') y l ∧ rb_top s' = rb_top s4 ∧
    ∀ x, x ≠ y → x ∉ inorder l → rb_nodes s' !! x = rb_nodes s4 !! x.
Proof using Hin Hl.
  intros Ha Hy Hrl Hnd Had Hyo Hao Hal Hyl Hne. run Ha. rewrite -> (set_pc_mk _ _ _ _ _ _ Hy _ (up k) c) by done. cbn [mbind option_bind].
  set (s5 := upd _ _ s4). assert (rb_nodes s5 !! a = Some (mk (up k) c (ptr l) pr)) as Ha5 by (cbn; by rewrite lookup_insert_ne).
  assert (rb_nodes s5 !! y = Some (mk (up k) c 0 (ptr R'))) as Hy5 by (rw /s5; cbn [rb_nodes upd]; by rewrite lookup_insert_eq).
  rewrite -> (left_of_mk _ _ _ _ _ _ Ha5). cbn [mbind option_bind]. rewrite -> (set_left_mk _ _ _ _ _ _ Hy5). cbn [mbind option_bind].
  set (s6 := upd _ _ s5). assert (rb_nodes s6 !! a = Some (mk (up k) c (ptr l) pr)) as Ha6 by (cbn; by rewrite !lookup_insert_ne).
  rewrite -> (left_of_mk _ _ _ _ _ _ Ha6). cbn [mbind option_bind].
  destruct (reparent_ok s6 l a y) as (s7 & E7 & Hrl7 & Htop7 & Hf7); [|done|done|by apply addr_ptr_ok..|].
  { eapply rep_frame; [exact Hrl|]. intros x Hx. cbn. rewrite -> !lookup_insert_ne; [done|by intros ->..]. }
  assert (ptr l ≠ 0) as Hp0. { destruct (ptr_in l) as [[_ ?]|Hp]; [done|]. apply addr_ne0. rewrite -> Forall_forall in Had. by apply Had. }
  revert E7. ztest. cbn [negb]. intros E7. exists s7. split_and!; [done| |done|by rw Htop7|].
  - rewrite -> Hf7 by done. rw /s6. cbn [rb_nodes upd]. by rewrite lookup_insert_eq.
  - intros x Hx1 Hx2. rewrite -> Hf7 by done. cbn. by rewrite -> !lookup_insert_ne by congruence.
Qed.

Lemma erase_two_ok :
  ∃ s', erase_two a s = Some (ptr ry, up (k2 ++ In_right c l y :: k), Z.b2z cy, s') ∧
    inside (<[a := mk (up k) c (ptr l) (ptr R)]> h0) s' (k2 ++ In_right c l y :: k) ry.
Proof using Hin Hk2 Hl.
  pose proof leftmost_right as Hlm. pose proof inorder_smallest as ER.
  destruct (inside_node _ _ _ _ _ _ _ Hin) as (Ha & Hup & Hao & Hknd & Hka & Hak).
  destruct Hin as [(_ & Hrl & HrR) Hctx Hnd Had Hrest]. cbn in Hctx.
  assert (inorder (Node c l a R) = inorder l ++ a :: [] ++ y :: inorder R') as Ei by (by cbn; rewrite -> ER).
  rewrite -> Ei in Hnd, Had, Hrest.
  destruct (parts_apart _ _ _ _ _ _ _ Hnd) as (Hay & (? & _ & ? & _) & (Hyl & _ & HyR & HyK) & (_ & HlR & _) & (HlK & _ & HRK) & Hndl & _ & HndR).
  assert (Forall addr_ok (inorder l) ∧ addr_ok y ∧ Forall addr_ok (inorder R')) as (Hadl & Hyo & HadR) by (clear -Had; nodup; done).
  rw /erase_two. run (right_of_mk _ _ _ _ _ _ Ha). run Hlm. run (parent_of_mk _ _ _ _ _ _ Ha Hup).
  destruct (replace_child_ok s k a y Hctx Hknd Hka (addr_ne0 _ Hao) Hak) as (s1 & -> & Hctx1 & Hf1). cbn [mbind option_bind].
  assert (rep (rb_nodes s1) a R) as HrR1.
  { eapply rep_frame; [exact HrR|]. intros x Hx. apply Hf1. rewrite -> ER in Hx. apply elem_of_cons in Hx as [->|Hx]; [done|by apply HRK]. }
  pose proof (proj2 (proj1 (rep_plug _ _ _ _) HrR1)) as (Hyn & _ & _).
  run (right_of_mk _ _ _ _ _ _ Hyn). run Hyn.
  assert (ptr_ok (up_or a k2)) as Hupo.
  { destruct k2 as [|f k3]; [by apply addr_ptr_ok|]. apply addr_ptr_ok. rewrite -> Forall_forall in HadR. apply HadR, in_plug_behind.
    destruct f; cbn; set_solver. }
  rewrite -> rb_parent_mk, rb_color_mk by done.
  assert (rb_nodes s1 !! a = Some (mk (up k) c (ptr l) (ptr R))) as Ha1 by (by rewrite -> Hf1).
  destruct (take_successor s1 a (up k) c (ptr l) k2 cy y ry) as (s4 & p' & E4 & Hr4 & Hy4 & Htop4 & Hf4); [done..|]. run E4.
  destruct (take_place s4 p' (ptr R)) as (s7 & E7 & Hy7 & Hl7 & Htop7 & Hf7); [by rewrite -> Hf4|done| |done..|].
  { eapply rep_frame; [exact Hrl|]. intros x Hx. rewrite -> Hf4; [apply Hf1; by apply HlK|by intros ->|by apply HlR]. }
  apply bind_Some in E7 as (o & Eo & E7). run Eo. apply bind_Some in E7 as (s5 & E5 & E7). run E5.
  apply bind_Some in E7 as (l1 & El1 & E7). run El1. apply bind_Some in E7 as (s6 & E6 & E7). run E6.
  apply bind_Some in E7 as (l2 & El2 & E7). run El2. run E7. exists s7. split; [by rw up_app|].
  apply inside_app. apply inside_fill. cbn [fill].
  assert (∀ x, x ≠ y → x ∉ inorder R' → x ∉ inorder l → rb_nodes s7 !! x = rb_nodes s1 !! x) as Hf71.
  { intros x X1 X2 X3. rewrite -> Hf7 by done. by apply Hf4. }
  assert (before k ++ (inorder l ++ a :: [] ++ y :: inorder R') ++ behind k ≡ₚ a :: before k ++ (inorder l ++ y :: inorder R') ++ behind k) as Ep.
  { cbn [app]. rewrite <- (Permutation_middle (inorder l) (y :: inorder R') a). cbn [app]. by rewrite <- Permutation_middle. }
  rewrite -> Ep in Hnd, Had. apply NoDup_cons in Hnd as [Hna Hnd]. apply Forall_cons in Had as [_ Had]. split; [| |done|done|].
  - cbn. split_and!; [done|done|]. eapply rep_frame; [exact Hr4|]. intros x Hx. apply Hf7; [by intros ->|]. intros Hxl. by apply (HlR x).
  - cbn. rw Htop7 Htop4. eapply context_frame; [exact Hctx1|]. intros x Hx. apply Hf71; [by intros ->|intros Hx'; by apply (HRK x)|intros Hx'; by apply (HlK x)].
  - intros x Hx. cbn in Hx. rewrite -> Hf71 by set_solver. rewrite -> Hf1 by set_solver.
    destruct (decide (x = a)) as [->|Hxa]; [by rewrite lookup_insert_eq|]. rewrite -> lookup_insert_ne by done. apply Hrest. rewrite -> Ep. set_solver.
Qed.
End two.

(** ** Removal *)

(** Rebalancing is needed when a black node has gone. *)
Lemma erase_finish h0 s k t n (c : bool) :
  inside h0 s k t → balanced n t → expects (if c then S n else n) k → (c = false → is_black t) →
  ∃ s' t', (if Z.b2z c =? RB_BLACK then __rb_erase_color (ptr t) (up k) s else Some s) = Some s' ∧
    inside h0 s' [] t' ∧ red_black t' ∧ inorder t' = before k ++ inorder t ++ behind k.
Proof.
  intros Hin Hb Hk Hc. destruct c; cbn -[__rb_erase_color plug].
  - eapply rb_erase_color_ok; [done|by apply balanced_short|done].
  - exists s, (plug k t). destruct (plug_balanced k n t Hk Hb) as (m & Hm & Hbl); [left; by apply Hc|].
    split_and!; [done|by apply (proj1 (inside_plug _ _ _ _))|split; [apply Hbl; left; by apply Hc|by exists m]|apply inorder_plug].
Qed.

(** The addresses do not matter for the shape. *)
Lemma expects_rename k2 n c l a b k : expects n (k2 ++ In_right c l a :: k) → expects n (k2 ++ In_right c l b :: k).
Proof.
  revert n. induction k2 as [|f k2 IH]; intros n; [done|]. cbn. intros [H1 H2]. split; [done|]. destruct (frame_black f); [by apply IH|].
  destruct H2 as (? & _ & H3 & H4). split_and!; [done|by destruct k2|by destruct k2|by apply IH].
Qed.

Lemma child_balanced n (c : bool) l a r t :
  balanced n (Node c l a r) → l = Leaf ∧ t = r ∨ r = Leaf ∧ t = l →
  ∃ m, balanced m t ∧ n = (if c then S m else m) ∧ (c = false → is_black t).
Proof. destruct c; cbn; [destruct n as [|n]; [done|]; exists n|exists n]; naive_solver. Qed.

Lemma rb_erase_ok h0 s k c l a r :
  inside h0 s k (Node c l a r) → red_black (plug k (Node c l a r)) →
  ∃ s' t', rb_erase a s = Some s' ∧ inside (<[a := mk (up k) c (ptr l) (ptr r)]> h0) s' [] t' ∧ red_black t' ∧
    inorder t' = before k ++ (inorder l ++ inorder r) ++ behind k.
Proof.
  intros Hin Hrb. rw /rb_erase. run (left_of_in _ _ _ _ _ _ _ Hin). run (right_of_in _ _ _ _ _ _ _ Hin).
  assert (∀ t, l = Leaf ∧ t = r ∨ r = Leaf ∧ t = l →
    ∃ s' t', ('(child, parent, color, s) ← erase_simple a (ptr t) s; if color =? RB_BLACK then __rb_erase_color child parent s else Some s) = Some s' ∧
      inside (<[a := mk (up k) c (ptr l) (ptr r)]> h0) s' [] t' ∧ red_black t' ∧ inorder t' = before k ++ (inorder l ++ inorder r) ++ behind k) as Hsimple.
  { intros t Ht. destruct (erase_simple_ok _ _ _ _ _ _ _ _ Hin Ht) as (s1 & E1 & H1). run E1.
    destruct (red_black_plug _ _ Hrb) as (n & Hb & Hk & _). destruct (child_balanced _ _ _ _ _ _ Hb Ht) as (m & Hm & -> & Hc).
    replace (inorder l ++ inorder r) with (inorder t) by (destruct Ht as [[-> ->]|[-> ->]]; cbn; by rewrite ?app_nil_r).
    by eapply erase_finish. }
  assert (∀ t k', inside h0 s k' t → (ptr t =? 0) = true → t = Leaf) as H0.
  { intros t k' Ht E. destruct t; [done|]. apply addr_in in Ht as [? _]. cbn in E. lia. }
  destruct (ptr l =? 0) eqn:El.
  { apply Hsimple. left. split; [|done]. exact (H0 _ _ (proj2 (inside_fill _ _ (In_left c a r) _ _) Hin) El). }
  destruct (ptr r =? 0) eqn:Er.
  { apply Hsimple. right. split; [|done]. exact (H0 _ _ (proj2 (inside_fill _ _ (In_right c l a) _ _) Hin) Er). }
  destruct (smallest r) as (k2 & cy & y & ry & Hk2 & ->); [by intros ->|].
  destruct (erase_two_ok _ _ _ _ _ _ _ _ _ _ Hin Hk2) as (s1 & E1 & H1); [by intros ->|]. run E1.
  assert (red_black (plug (k2 ++ In_right c l a :: k) (Node cy Leaf y ry))) as Hrb' by (by rewrite -> plug_app).
  destruct (red_black_plug _ _ Hrb') as (n & Hb & Hk & _).
  destruct (child_balanced n cy Leaf y ry ry Hb) as (m & Hm & -> & Hc); [by left|].
  destruct (erase_finish _ _ _ _ m cy H1 Hm) as (s' & t' & ? & ? & ? & Ho); [by eapply expects_rename|done|].
  exists s', t'. split_and!; [done..|]. rw Ho. rewrite <- inorder_plug, plug_app. cbn [plug foldl fill]. change (foldl _ ?t k) with (plug k t).
  rw inorder_plug. cbn [inorder]. by rewrite -> (inorder_smallest _ cy y ry Hk2).
Qed.

(** ** Replacement *)

Lemma rb_replace_node_ok h0 s k c l v r new :
  inside h0 s k (Node c l v r) → new ∉ before k ++ inorder (Node c l v r) ++ behind k → addr_ok new → is_Some (rb_nodes s !! new) →
  ∃ s', rb_replace_node v new s = Some s' ∧ inside (<[v := mk (up k) c (ptr l) (ptr r)]> h0) s' k (Node c l new r).
Proof.
  intros Hin Hnew Hno [old Hold]. destruct (inside_node _ _ _ _ _ _ _ Hin) as (Hv & Hup & Hvo & Hknd & Hka & Hvk).
  destruct Hin as [(_ & Hl & Hr) Hctx Hnd Had Hrest]. cbn in Hctx, Hnew, Hnd, Had, Hrest.
  assert (NoDup (inorder l) ∧ NoDup (inorder r) ∧ Forall addr_ok (inorder l) ∧ Forall addr_ok (inorder r)) as (Hndl & Hndr & Hal & Har)
    by (clear -Hnd Had; nodup; done).
  assert (v ∉ inorder l ∧ v ∉ inorder r ∧ (∀ x, x ∈ inorder l → x ∉ inorder r) ∧
    (∀ x, x ∈ inorder l → x ∉ before k ++ behind k) ∧ (∀ x, x ∈ inorder r → x ∉ before k ++ behind k)) as (Hvl & Hvr & Hlr & HlK & HrK).
  { clear -Hnd. nodup. set_solver. }
  assert (new ∉ inorder l ∧ new ∉ inorder r ∧ new ∉ before k ++ behind k ∧ v ≠ new) as (Hnl & Hnr & HnK & Hvn) by (clear -Hnew; set_solver).
  rw /rb_replace_node. run (parent_of_mk _ _ _ _ _ _ Hv Hup). rewrite -> replace_child_left.
  destruct (replace_child_ok s k v new Hctx Hknd Hka (addr_ne0 _ Hvo) Hvk) as (s1 & -> & Hctx1 & Hf1). cbn [mbind option_bind].
  assert (rb_nodes s1 !! v = Some (mk (up k) c (ptr l) (ptr r))) as Hv1 by (by rewrite -> Hf1). run (left_of_mk _ _ _ _ _ _ Hv1).
  destruct (reparent_ok s1 l v new) as (s2 & -> & Hl2 & Ht2 & Hf2); [|done|done|by apply addr_ptr_ok..|].
  { eapply rep_frame; [exact Hl|]. intros x Hx. by apply Hf1, HlK. }
  cbn [mbind option_bind]. assert (rb_nodes s2 !! v = Some (mk (up k) c (ptr l) (ptr r))) as Hv2 by (by rewrite -> Hf2).
  run (right_of_mk _ _ _ _ _ _ Hv2).
  destruct (reparent_ok s2 r v new) as (s3 & -> & Hr3 & Ht3 & Hf3); [|done|done|by apply addr_ptr_ok..|].
  { eapply rep_frame; [exact Hr|]. intros x Hx. rewrite -> Hf2; [by apply Hf1, HrK|]. intros Hxl. by apply (Hlr x). }
  cbn [mbind option_bind]. rewrite -> Hf3, Hv2 by done. cbn [mbind option_bind]. rw /upd_node.
  assert (rb_nodes s3 !! new = Some old) as Hn3 by (rewrite -> Hf3, Hf2, Hf1 by done; done). run Hn3.
  eexists. split; [done|].
  assert (∀ x, before k ++ (inorder l ++ x :: inorder r) ++ behind k ≡ₚ x :: before k ++ (inorder l ++ inorder r) ++ behind k) as Ep.
  { intros x. rewrite <- (Permutation_middle (inorder l)). cbn [app]. by rewrite <- Permutation_middle. }
  rewrite -> Ep in Hnd, Had. apply NoDup_cons in Hnd as [_ Hnd]. apply Forall_cons in Had as [_ Had].
  split; cbn [rb_nodes rb_top inorder ptr rep].
  - split_and!; [by rewrite lookup_insert_eq|eapply rep_frame; [exact Hl2|]|eapply rep_frame; [exact Hr3|]]; intros x Hx.
    + rewrite -> lookup_insert_ne by (by intros ->). apply Hf3. by apply Hlr.
    + by rewrite -> lookup_insert_ne by (by intros ->).
  - rw Ht3 Ht2. eapply context_frame; [exact Hctx1|]. intros x Hx. rewrite -> lookup_insert_ne by (by intros ->).
    rewrite -> Hf3, Hf2; [done|intros Hx'; by apply (HlK x)|intros Hx'; by apply (HrK x)].
  - rewrite -> Ep. constructor; [set_solver|done].
  - rewrite -> Ep. by constructor.
  - intros x Hx. rewrite -> Ep in Hx. rewrite -> lookup_insert_ne by set_solver. rewrite -> Hf3, Hf2, Hf1 by set_solver.
    destruct (decide (x = v)) as [->|Hxv]; [by rewrite lookup_insert_eq|]. rewrite -> lookup_insert_ne by done. apply Hrest. rewrite -> Ep. set_solver.
Qed.

(** The node at a place does not matter for the shape. *)
Lemma red_black_rename k c l a b r : red_black (plug k (Node c l a r)) → red_black (plug k (Node c l b r)).
Proof.
  intros H. destruct (red_black_plug _ _ H) as (n & Hb & Hk & Hc).
  destruct (plug_balanced k n (Node c l b r) Hk Hb) as (m & Hm & Hbl); [destruct c; naive_solver|].
  split; [apply Hbl; destruct c; naive_solver|by exists m].
Qed.

Lemma rb_erase_at h0 s t a xs ys :
  inside h0 s [] t → red_black t → inorder t = xs ++ a :: ys →
  ∃ s' t' node, rb_nodes s !! a = Some node ∧ rb_erase a s = Some s' ∧ inside (<[a := node]> h0) s' [] t' ∧ red_black t' ∧
    inorder t' = xs ++ ys.
Proof.
  intros Hin Hrb E. destruct (focus_split _ _ _ _ _ _ Hin E) as (k & c & l & r & -> & H & -> & ->).
  destruct (rb_erase_ok _ _ _ _ _ _ _ H Hrb) as (s' & t' & ? & ? & ? & Ho). eexists s', t', _.
  split_and!; [by destruct (inside_node _ _ _ _ _ _ _ H) as (? & _)|done..|]. rw Ho. by rewrite <- !app_assoc.
Qed.

(** C12: Removing and replacing: for every node of a red-black tree [rb_erase] ends without following a bad pointer and leaves a
    red-black tree of the other nodes in the same order; [rb_replace_node] puts a new node exactly in its place.  Neither writes the
    removed node or anything outside the tree. *)
Theorem rb_erase_correct h0 s t a xs ys :
  inside h0 s [] t → red_black t → inorder t = xs ++ a :: ys →
  ∃ node, rb_nodes s !! a = Some node ∧
  (∃ s' t', rb_erase a s = Some s' ∧ inside (<[a := node]> h0) s' [] t' ∧ red_black t' ∧ inorder t' = xs ++ ys) ∧
  ∀ new, new ∉ inorder t → addr_ok new → is_Some (rb_nodes s !! new) →
    ∃ s' t', rb_replace_node a new s = Some s' ∧ inside (<[a := node]> h0) s' [] t' ∧ red_black t' ∧ inorder t' = xs ++ new :: ys.
Proof.
  intros Hin Hrb E. destruct (rb_erase_at _ _ _ _ _ _ Hin Hrb E) as (s' & t' & node & Hn & He & Hin' & Hrb' & Ho).
  exists node. split; [done|]. split; [by exists s', t'|]. intros new Hnew Hno Hs.
  destruct (focus_split _ _ _ _ _ _ Hin E) as (k & c & l & r & -> & H & -> & ->).
  destruct (inside_node _ _ _ _ _ _ _ H) as (Hn' & _). rw Hn in Hn'. injection Hn' as ->.
  rw inorder_plug in Hnew. destruct (rb_replace_node_ok _ _ _ _ _ _ _ new H Hnew Hno Hs) as (s2 & ? & Hin2).
  exists s2, (plug k (Node c l new r)). split_and!; [done|by apply (proj1 (inside_plug _ _ _ _))|by eapply red_black_rename|].
  rw inorder_plug. cbn. by rewrite <- !app_assoc.
Qed.

Lemma rb_erase_correct_witness :
  (∃ s' t', rb_erase 8 demo_state = Some s' ∧ red_black t' ∧ inorder t' = [4; 12]) ∧
  ∃ s' t', rb_replace_node 8 16 demo_state = Some s' ∧ red_black t' ∧ inorder t' = [4; 16; 12].
Proof.
  destruct (rb_erase_correct (rb_nodes demo_state) demo_state demo_tree 8 [4] [12] demo_inside demo_red_black eq_refl)
    as (node & _ & (s1 & t1 & E1 & _ & R1 & O1) & H).
  split; [exists s1, t1; exact (conj E1 (conj R1 O1))|]. destruct (H 16) as (s2 & t2 & E2 & _ & R2 & O2).
  - cbn. apply (bool_decide_unpack _). vm_compute. exact I.
  - split; reflexivity.
  - eexists. reflexivity.
  - exists s2, t2. exact (conj E2 (conj R2 O2)).
Defined.
