(* ===== verification/RbtreeAugment.v ===== *)
(** * Red-black trees: data kept per subtree

    The users of an augmented tree keep a value for every node that depends on the node and on the values of its children.
    [rb_augment_path] brings the values up to date on the way from a node to the root and at the siblings beside it. *)
From S2P Require Import Prelude Rbtree RbtreeRep RbtreeInsert RbtreeErase RbtreeWalk RbtreeRemove.

(** The parts of a node are apart. *)
Lemma node_apart h0 s k c l a r :
  inside h0 s k (Node c l a r) →
  (∀ x, x ∈ inorder l → x ≠ a ∧ x ∉ inorder r ∧ x ∉ before k ++ behind k) ∧ (∀ x, x ∈ inorder r → x ≠ a ∧ x ∉ before k ++ behind k) ∧
  a ∉ before k ++ behind k.
Proof.
  intros Hin. apply in_nodup in Hin. cbn in Hin. nodup. split_and!; [intros x Hx; split_and!|intros x Hx; split_and!|]; set_solver.
Qed.

Definition sibling (f : frame) : tree := match f with In_left _ _ r => r | In_right _ l _ => l end.

Lemma siblings_in k f x : f ∈ k → x ∈ inorder (sibling f) → x ∈ before k ++ behind k.
Proof.
  induction k as [|g k IH]; [set_solver|]. intros [->|Hf]%elem_of_cons Hx; [destruct g; cbn in *; set_solver|].
  specialize (IH Hf Hx). destruct g; cbn; set_solver.
Qed.

Section values.
(** The value of a node from those of its children, [None] for no child. *)
Context {V : Type} (combine : Z → option V → option V → V).

(** The callback of such a user. *)
Definition recompute (a : Z) (s : rb_state) (d : gmap Z V) : option (gmap Z V) :=
  l ← left_of a s; r ← right_of a s; Some (<[a := combine a (d !! l) (d !! r)]> d).

Fixpoint value (t : tree) : option V :=
  match t with Leaf => None | Node _ l a r => Some (combine a (value l) (value r)) end.

(** The data agree with the tree; [below]: except perhaps at its root. *)
Fixpoint agrees (d : gmap Z V) (t : tree) : Prop :=
  match t with Leaf => True | Node _ l a r => d !! a = value t ∧ agrees d l ∧ agrees d r end.
Definition below (d : gmap Z V) (t : tree) : Prop :=
  match t with Leaf => True | Node _ l _ r => agrees d l ∧ agrees d r end.

Lemma agrees_frame d d' t : agrees d t → (∀ x, x ∈ inorder t → d' !! x = d !! x) → agrees d' t.
Proof using Type.
  induction t as [|c l IHl a r IHr]; cbn; [done|]. intros (H1 & H2 & H3) Hf.
  split_and!; [rewrite -> Hf; [done|set_solver]|apply IHl; set_solver|apply IHr; set_solver].
Qed.

Lemma below_frame d d' t : below d t → (∀ x, x ∈ inorder t → d' !! x = d !! x) → below d' t.
Proof using Type.
  destruct t as [|c l a r]; cbn; [done|]. intros [H1 H2] Hf. split; (eapply agrees_frame; [done|]); set_solver.
Qed.

(** The value stored for a subtree, none for the empty one. *)
Lemma agrees_value d t : agrees d t → d !! 0 = None → d !! ptr t = value t.
Proof using Type. destruct t; cbn; naive_solver. Qed.

(** Null has no data. *)
Notation no_null d := (d !! 0 = None).

(** One call of the callback. *)
Lemma recompute_ok h0 s k c l a r d :
  inside h0 s k (Node c l a r) → agrees d l → agrees d r → no_null d →
  ∃ d', recompute a s d = Some d' ∧ agrees d' (Node c l a r) ∧ no_null d' ∧ ∀ x, x ≠ a → d' !! x = d !! x.
Proof using Type.
  intros Hin Hl Hr H0. rw /recompute. run (left_of_in _ _ _ _ _ _ _ Hin). run (right_of_in _ _ _ _ _ _ _ Hin).
  rewrite -> (agrees_value d l), (agrees_value d r) by done. pose proof (addr_ne0 _ (addr_in _ _ _ _ _ _ _ Hin)).
  assert (a ∉ inorder l ∧ a ∉ inorder r) as [Hal Har] by (apply in_nodup in Hin; cbn in Hin; clear -Hin; nodup; set_solver).
  eexists. split; [done|]. split_and!; [|by rewrite lookup_insert_ne|intros x Hx; by rewrite lookup_insert_ne].
  cbn. rewrite -> lookup_insert_eq. split_and!; [done|..]; (eapply agrees_frame; [done|]); intros x Hx; rewrite -> lookup_insert_ne by congruence; done.
Qed.


(** Recomputing the root of a subtree that agrees below it; changes outside do not matter. *)
Lemma recompute_below h0 s k t d :
  inside h0 s k t → below d t → no_null d → t ≠ Leaf →
  ∃ d', recompute (ptr t) s d = Some d' ∧ agrees d' t ∧ no_null d' ∧ ∀ x, x ∉ inorder t → d' !! x = d !! x.
Proof using Type.
  intros Hin Hb H0 Hne. destruct t as [|c l a r]; [done|]. destruct Hb as [Hl Hr].
  destruct (recompute_ok _ _ _ _ _ _ _ d Hin Hl Hr H0) as (d' & E & Ha & Hn & Hf). exists d'. split_and!; [done|done|done|].
  intros x Hx. apply Hf. cbn in Hx. set_solver.
Qed.

(** The call for the sibling: both children of the parent are up to date. *)
Lemma recompute_sibling h0 s f k t d :
  inside h0 s (f :: k) t → t ≠ Leaf → agrees d t → below d (sibling f) → no_null d →
  ∃ l r d', left_of (frame_addr f) s = Some l ∧ right_of (frame_addr f) s = Some r ∧
    (if (ptr t =? l) && negb (r =? 0) then recompute r s d else if negb (l =? 0) then recompute l s d else Some d) = Some d' ∧
    below d' (fill f t) ∧ no_null d' ∧ ∀ x, x ∈ before k ++ behind k → d' !! x = d !! x.
Proof using Type.
  intros Hin Hne Ht Hs H0. pose proof Hin as Hup. focus_out Hup. destruct t as [|c tl a tr]; [done|]. cbn [ptr].
  assert (below d (Node c tl a tr)) as Htb by (destruct Ht as (_ & ? & ?); done).
  destruct f as [cf p y|cf y p]; cbn [fill frame_addr sibling] in *; pose proof (node_apart _ _ _ _ _ _ _ Hup) as (D1 & D2 & D3);
    [exists a, (ptr y)|exists (ptr y), a]; rewrite -> (left_of_in _ _ _ _ _ _ _ Hup), (right_of_in _ _ _ _ _ _ _ Hup).
  - pose proof (addr_ne0 _ (addr_in _ _ _ _ _ _ _ Hin)) as Ha0. cbn [ptr]. rw Z.eqb_refl. cbn [andb].
    pose proof (proj2 (inside_fill _ _ (In_right cf (Node c tl a tr) p) k y) Hup) as Hy. destruct y as [|cy yl ya yr].
    + cbn [ptr]. rw Z.eqb_refl. cbn [negb]. ztest. cbn [negb].
      destruct (recompute_below _ _ _ _ d Hin Htb H0 Hne) as (d' & E & A & N & F). exists d'. split_and!; [done..|].
      intros x Hx. apply F. intros Hxt. by destruct (D1 x Hxt) as (_ & _ & ?).
    + pose proof (addr_ne0 _ (addr_in _ _ _ _ _ _ _ Hy)) as Hy0. cbn [ptr]. ztest. cbn [negb].
      destruct (recompute_below _ _ _ _ d Hy Hs H0 ltac:(done)) as (d' & E & A & N & F). exists d'. split_and!; [done..| |done|].
      * split; [|done]. eapply agrees_frame; [exact Ht|]. intros x Hx. apply F. by destruct (D1 x Hx) as (_ & ? & _).
      * intros x Hx. apply F. intros Hxt. by destruct (D2 x Hxt) as (_ & ?).
  - cbn [ptr]. pose proof (proj2 (inside_fill _ _ (In_left cf p (Node c tl a tr)) k y) Hup) as Hy.
    destruct (Z.eqb_spec a (ptr y)) as [E|_]; [symmetry in E; by destruct (sibling_ne _ _ _ _ _ _ _ Hup E)|]. cbn [andb].
    destruct y as [|cy yl ya yr]; [cbn; by exists d|]. pose proof (addr_ne0 _ (addr_in _ _ _ _ _ _ _ Hy)) as Hy0. cbn [ptr]. ztest. cbn [negb].
    destruct (recompute_below _ _ _ _ d Hy Hs H0 ltac:(done)) as (d' & E & A & N & F). exists d'. split_and!; [done..| |done|].
    + split; [done|]. eapply agrees_frame; [exact Ht|]. intros x Hx. apply F. intros Hxy. by destruct (D1 x Hxy) as (_ & ? & _).
    + intros x Hx. apply F. intros Hxt. by destruct (D1 x Hxt) as (_ & _ & ?).
Qed.

Definition augment_body (s : rb_state) : Z * gmap Z V → option (ctl (Z * gmap Z V) (gmap Z V)) :=
  λ '(node, data),
    data ← recompute node s data;
    parent ← parent_of node s;
    if parent =? 0 then Some (Stop data) else
    l ← left_of parent s;
    r ← right_of parent s;
    data ← (if (node =? l) && negb (r =? 0) then recompute r s data
            else if negb (l =? 0) then recompute l s data else Some data);
    Some (Next (parent, data)).

Lemma augment_loop h0 s fuel k t d :
  inside h0 s k t → t ≠ Leaf → below d t → (∀ f, f ∈ k → below d (sibling f)) → no_null d → (length k < fuel)%nat →
  ∃ d', loop fuel (augment_body s) (ptr t, d) = Some d' ∧ agrees d' (plug k t) ∧ no_null d'.
Proof using Type.
  revert fuel t d. induction k as [|f k IH]; intros fuel t d Hin Hne Hb Hs H0 Hf; (destruct fuel as [|fuel]; [lia|]); cbn [loop]; rw {1}/augment_body;
    destruct (recompute_below _ _ _ _ d Hin Hb H0 Hne) as (d1 & E1 & A1 & N1 & F1); run E1; (destruct t as [|c l a r]; [done|]); cbn [ptr];
    run (parent_of_in _ _ _ _ _ _ _ Hin); cbn [up].
  - by exists d1.
  - pose proof (addr_ne0 _ (up_addr _ _ _ _ _ Hin)). ztest.
    assert (∀ x, x ∈ before (f :: k) ++ behind (f :: k) → x ∉ inorder (Node c l a r)) as D.
    { intros x Hx. apply in_nodup in Hin. intros Hxt. clear -Hin Hx Hxt. nodup. set_solver. }
    assert (∀ g, g ∈ f :: k → below d1 (sibling g)) as Hs1.
    { intros g Hg. eapply below_frame; [by apply Hs|]. intros x Hx. by apply F1, D, (siblings_in _ g). }
    destruct (recompute_sibling _ _ _ _ _ d1 Hin Hne A1 (Hs1 f ltac:(set_solver)) N1) as (pl & pr & d2 & El & Er & E2 & B2 & N2 & F2).
    cbn [ptr] in E2. run El. run Er. run E2. pose proof Hin as Hup. focus_out Hup. replace (frame_addr f) with (ptr (fill f (Node c l a r))) by (by destruct f).
    apply (IH fuel (fill f (Node c l a r)) d2); [done|by destruct f|done| |done|cbn in Hf; lia].
    intros g Hg. eapply below_frame; [apply Hs1; set_solver|]. intros x Hx. by apply F2, (siblings_in _ g).
Qed.

(** Walking up from a node brings all data up to date when the node, its ancestors and the siblings beside the way are the only
    ones that may be wrong. *)
Theorem rb_augment_path_ok h0 s k t d :
  inside h0 s k t → t ≠ Leaf → below d t → (∀ f, f ∈ k → below d (sibling f)) → no_null d →
  ∃ d', rb_augment_path recompute (ptr t) s d = Some d' ∧ agrees d' (plug k t).
Proof using Type.
  intros Hin Hne Hb Hs H0. rw /rb_augment_path. change (λ '(node, data), _) with (augment_body s). pose proof (inside_depth _ _ _ _ Hin).
  destruct (augment_loop h0 s (S (size (rb_nodes s))) k t d Hin Hne Hb Hs H0) as (d' & E & A & _); [lia|]. by exists d'.
Qed.
End values.
