(* ===== verification/RbtreeClient.v ===== *)
(** * Red-black trees: what the tree promises to its users

    The users of lib/rbtree.c look for the place of a new node themselves and keep their own order.  The class
    [OrderedTree] says what they may rely on, in terms of the list of the nodes in order; the instance is proved from the theorems
    about the pointers. *)
From S2P Require Import Prelude Rbtree RbtreeRep RbtreeInsert RbtreeErase RbtreeWalk RbtreeRemove.

(** ** Looking for a place *)

(** The pointer [*p]: the root or a child of [parent]. *)
Definition read_link (parent : Z) (link : option bool) (s : rb_state) : option Z :=
  match link with None => Some (rb_top s) | Some true => left_of parent s | Some false => right_of parent s end.

(** [while ( *p ) { parent = *p; p = goes left ? &( *p )->rb_left : &( *p )->rb_right; }]. *)
Definition find_place (goes : Z → option bool) (s : rb_state) : option (Z * option bool) :=
  loop (S (size (rb_nodes s)))
    (λ '(parent, link),
       cur ← read_link parent link s;
       if cur =? 0 then Some (Stop (parent, link)) else
       left ← goes cur; Some (Next (cur, Some left)))
    (0, None).

(** ** The promises *)

Class OrderedTree (holds : rb_state → list Z → Prop) : Prop := {
  ot_empty h : holds {| rb_nodes := h; rb_top := 0 |} [];
  ot_nodup s L : holds s L → NoDup L;
  ot_node s L a : holds s L → a ∈ L → addr_ok a ∧ is_Some (rb_nodes s !! a) ∧ RB_EMPTY_NODE a s = Some false;
  ot_outside s L x n : holds s L → x ∉ L → holds (upd x n s) L;
  ot_insert s xs ys goes :
    holds s (xs ++ ys) → (∀ x, x ∈ xs → goes x = Some false) → (∀ y, y ∈ ys → goes y = Some true) →
    ∃ parent link, find_place goes s = Some (parent, link) ∧
      ∀ a, a ∉ xs ++ ys → addr_ok a → is_Some (rb_nodes s !! a) →
        ∃ s', (s1 ← rb_link_node a parent link s; rb_insert_color a s1) = Some s' ∧ holds s' (xs ++ a :: ys) ∧
          ∀ x, x ∉ xs ++ a :: ys → rb_nodes s' !! x = rb_nodes s !! x;
  ot_erase s xs a ys :
    holds s (xs ++ a :: ys) →
    ∃ s', rb_erase a s = Some s' ∧ holds s' (xs ++ ys) ∧ ∀ x, x ∉ xs ++ ys → rb_nodes s' !! x = rb_nodes s !! x;
  ot_first s L : holds s L → rb_first s = Some (first_of L);
  ot_next s xs a ys : holds s (xs ++ a :: ys) → rb_next a s = Some (first_of ys)
}.

(** ** The red-black trees keep them *)

Definition rb_holds (s : rb_state) (L : list Z) : Prop := ∃ t, inside (rb_nodes s) s [] t ∧ red_black t ∧ inorder t = L.

Lemma holds_intro h0 s t : inside h0 s [] t → red_black t → rb_holds s (inorder t).
Proof. intros [H1 H2 H3 H4 _] Hrb. exists t. split_and!; [split; done|done|done]. Qed.

Lemma read_link_ok h0 s k t : inside h0 s k t → read_link (up k) (link_of k) s = Some (ptr t).
Proof.
  intros Hin. destruct k as [|f k]; [by cbn; rewrite -> (in_context _ _ _ _ Hin)|].
  focus_out Hin. destruct f; [by eapply left_of_in|by eapply right_of_in].
Qed.

Lemma find_place_ok h0 s goes t k xs ys fuel :
  inside h0 s k t → inorder t = xs ++ ys → (∀ x, x ∈ xs → goes x = Some false) → (∀ y, y ∈ ys → goes y = Some true) →
  (length (inorder t) < fuel)%nat →
  ∃ k', loop fuel
      (λ '(parent, link), cur ← read_link parent link s; if cur =? 0 then Some (Stop (parent, link)) else
         left ← goes cur; Some (Next (cur, Some left))) (up k, link_of k) = Some (up k', link_of k') ∧
    plug k' Leaf = plug k t ∧ before k' = before k ++ xs ∧ behind k' = ys ++ behind k.
Proof.
  revert k xs ys fuel. induction t as [|c l IHl a r IHr]; intros k xs ys fuel Hin E Hx Hy Hf; (destruct fuel as [|fuel]; [lia|]); cbn [loop].
  all: run (read_link_ok _ _ _ _ Hin); cbn [ptr].
  - symmetry in E. apply app_nil in E as [-> ->]. exists k. by rewrite app_nil_r.
  - pose proof (addr_ne0 _ (addr_in _ _ _ _ _ _ _ Hin)). ztest. cbn in E, Hf. rewrite -> length_app in Hf. cbn in Hf.
    apply app_eq_app in E as (m & [(El & Er)|(El & Er)]).
    + rewrite -> Hy by (rw Er; set_solver). cbn [mbind option_bind]. focus_in Hin (In_left c a r).
      destruct (IHl _ xs m fuel Hin El Hx) as (k' & E' & Hp & Hb & Hh); [intros y Hyin; apply Hy; rw Er; set_solver|lia|].
      exists k'. rewrite <- E', Er. split_and!; [done|done|done|]. rw Hh. cbn. by rewrite <- app_assoc.
    + destruct m as [|a' m].
      * cbn in Er. rewrite -> app_nil_r in El. subst xs. rewrite -> Hy by (rewrite <- Er; set_solver). cbn [mbind option_bind]. focus_in Hin (In_left c a r).
        destruct (IHl _ (inorder l) [] fuel Hin) as (k' & E' & Hp & Hb & Hh); [by rewrite app_nil_r|done|set_solver|lia|].
        exists k'. rewrite <- E', <- Er. split_and!; [done|done|done|]. by rw Hh.
      * injection Er as <- Er. rewrite -> Hx by (rw El; set_solver). cbn [mbind option_bind]. focus_in Hin (In_right c l a).
        destruct (IHr _ m ys fuel Hin Er) as (k' & E' & Hp & Hb & Hh); [intros x Hxin; apply Hx; rw El; set_solver|done|lia|].
        exists k'. rewrite <- E', El. split_and!; [done|done| |done]. rw Hb. cbn. by rewrite <- !app_assoc.
Qed.

#[export] Instance rb_ordered_tree : OrderedTree rb_holds.
Proof.
  split.
  - intros h. exists Leaf. split_and!; [split; try done; constructor|split; [done|by exists O]|done].
  - intros s L (t & Hin & _ & <-). apply in_nodup in Hin. cbn in Hin. by rewrite app_nil_r in Hin.
  - intros s L a (t & Hin & _ & <-) Ha. destruct (focus_on t a Ha) as (k & c & l & r & ->). apply inside_plug in Hin.
    destruct (inside_node _ _ _ _ _ _ _ Hin) as (Hn & _ & Hao & _). split_and!; [done|by eexists|].
    rw /RB_EMPTY_NODE. run (parent_of_in _ _ _ _ _ _ _ Hin). by rw (up_not_self _ _ _ _ _ _ _ Hin).
  - intros s L x n (t & [H1 H2 H3 H4 H5] & Hrb & <-) Hx. exists t. split_and!; [|done|done]. split; [| |done|done|done].
    + eapply rep_frame; [exact H1|]. intros y Hy. cbn. rewrite -> lookup_insert_ne; [done|]. by intros ->.
    + exact H2.
  - intros s xs ys goes (t & Hin & Hrb & Ei) Hx Hy. pose proof (inside_size _ _ _ _ Hin) as Hs. cbn in Hs. rewrite -> app_nil_r in Hs.
    destruct (find_place_ok _ s goes t [] xs ys (S (size (rb_nodes s))) Hin Ei Hx Hy) as (k & E & Hp & Hb & Hh); [lia|].
    exists (up k), (link_of k). split; [done|]. cbn in Hp, Hb, Hh. rewrite -> app_nil_r in Hh. subst t. intros a Ha Hao Hn.
    rewrite <- Ei in Ha. destruct (rb_insert_ok _ _ _ _ Hin Hrb Ha Hao Hn) as (s' & t' & ? & Hin' & Hrb' & Ho).
    rewrite -> Hb, Hh in Ho. exists s'. split_and!; [done|rewrite <- Ho; by eapply holds_intro|]. intros x Hxn. apply Hin'. cbn. by rewrite -> app_nil_r, Ho.
  - intros s xs a ys (t & Hin & Hrb & Ei). destruct (rb_erase_at _ _ _ _ _ _ Hin Hrb Ei) as (s' & t' & node & Hn & ? & Hin' & Hrb' & Ho).
    exists s'. rewrite <- Ho. split_and!; [done|by eapply holds_intro|]. intros x Hx. rewrite -> (in_rest _ _ _ _ Hin') by (cbn; by rewrite -> app_nil_r).
    destruct (decide (x = a)) as [->|Hxa]; [by rewrite lookup_insert_eq|by rewrite lookup_insert_ne].
  - intros s L (t & Hin & _ & <-). by eapply rb_first_ok.
  - intros s xs a ys (t & Hin & _ & Ei). by eapply rb_next_at.
Qed.
