(* ===== verification/Timerqueue.v ===== *)
(** * Timer queues: lib/timerqueue.c, include/linux/timerqueue.h

    A timer queue is a red-black tree of timers ordered by expiry time with a pointer to the earliest one.  Everything here is
    proved from the class [OrderedTree]; nothing depends on how the tree is balanced. *)
From S2P Require Import Prelude Rbtree RbtreeRep RbtreeWalk RbtreeClient.

(** ** The code *)

(** [struct timerqueue_head] with the memory of the nodes: [tq_expires] is the field [expires.tv64] of the timers, a
    timer has the address of its tree node. *)
Record timerqueue_head := { tq_tree : rb_state; tq_next : Z; tq_expires : gmap Z Z }.

Definition timerqueue_init_head (nodes : gmap Z rb_node) (expires : gmap Z Z) : timerqueue_head :=
  {| tq_tree := {| rb_nodes := nodes; rb_top := 0 |}; tq_next := 0; tq_expires := expires |}.

Definition timerqueue_init (node : Z) (q : timerqueue_head) : option timerqueue_head :=
  s ← rb_init_node node (tq_tree q); Some {| tq_tree := s; tq_next := tq_next q; tq_expires := tq_expires q |}.

(** The first result is the condition of [WARN_ON_ONCE]. *)
Definition timerqueue_add (node : Z) (q : timerqueue_head) : option (bool * timerqueue_head) :=
  let s := tq_tree q in
  empty ← RB_EMPTY_NODE node s;
  e ← tq_expires q !! node;
  '(parent, p) ← find_place (λ ptr, e' ← tq_expires q !! ptr; Some (e <? e')) s;
  s ← rb_link_node node parent p s;
  s ← rb_insert_color node s;
  next ← (if tq_next q =? 0 then Some node else en ← tq_expires q !! tq_next q; Some (if e <? en then node else tq_next q));
  Some (negb empty, {| tq_tree := s; tq_next := next; tq_expires := tq_expires q |}).

Definition timerqueue_del (node : Z) (q : timerqueue_head) : option (bool * timerqueue_head) :=
  let s := tq_tree q in
  empty ← RB_EMPTY_NODE node s;
  next ← (if tq_next q =? node then rb_next node s else Some (tq_next q));
  s ← rb_erase node s;
  s ← RB_CLEAR_NODE node s;
  Some (empty, {| tq_tree := s; tq_next := next; tq_expires := tq_expires q |}).

Definition timerqueue_getnext (q : timerqueue_head) : Z := tq_next q.

Definition timerqueue_iterate_next (node : Z) (q : timerqueue_head) : option Z :=
  if node =? 0 then Some 0 else rb_next node (tq_tree q).

(** ** What a queue holds *)

(** The expiry time of a timer. *)
Notation expiry q a := (default 0 (tq_expires q !! a)).

(** A sorted list splits at a time: the timers up to it and the later ones. *)
Lemma split_at q (L : list Z) e :
  StronglySorted (λ a b, expiry q a ≤ expiry q b) L →
  ∃ xs ys, L = xs ++ ys ∧ (∀ x, x ∈ xs → expiry q x ≤ e) ∧ (∀ y, y ∈ ys → e < expiry q y).
Proof.
  induction 1 as [|a L Hs (xs & ys & -> & Hx & Hy) Ha]; [exists [], []; set_solver|].
  destruct (decide (expiry q a ≤ e)) as [Hae|Hae].
  - exists (a :: xs), ys. split_and!; [done| |done]. intros x [->|Hxs]%elem_of_cons; [done|by apply Hx].
  - exists [], (a :: xs ++ ys). split_and!; [done|set_solver|]. rewrite -> Forall_forall in Ha. intros y [->|Hyin]%elem_of_cons; [lia|].
    specialize (Ha y Hyin). lia.
Qed.

Lemma sorted_insert q xs a ys :
  StronglySorted (λ a b, expiry q a ≤ expiry q b) (xs ++ ys) → (∀ x, x ∈ xs → expiry q x ≤ expiry q a) → (∀ y, y ∈ ys → expiry q a < expiry q y) →
  StronglySorted (λ a b, expiry q a ≤ expiry q b) (xs ++ a :: ys).
Proof.
  induction xs as [|x xs IH]; cbn; intros Hs Hx Hy.
  - constructor; [done|]. apply Forall_forall. intros y Hyin. specialize (Hy y Hyin). lia.
  - apply StronglySorted_inv in Hs as [Hs Hall]. constructor; [apply IH; [done|set_solver|done]|].
    apply Forall_app in Hall as [? ?]. apply Forall_app. split; [done|]. constructor; [apply Hx; set_solver|done].
Qed.

Lemma sorted_remove {A} (R : A → A → Prop) xs a ys : StronglySorted R (xs ++ a :: ys) → StronglySorted R (xs ++ ys).
Proof.
  induction xs as [|x xs IH]; cbn; intros [Hs Hall]%StronglySorted_inv; [done|]. constructor; [by apply IH|].
  apply Forall_app in Hall as [? [_ ?]%Forall_cons]. by apply Forall_app.
Qed.

(** Making a node its own parent. *)
Lemma cleared_parent v a : addr_ok a → Z.land (Z.lor (Z.land v 3) a) (Z.lnot 3) = a.
Proof.
  intros [H0 H4]. rewrite -> Z.land_lor_distr_l, <- Z.land_assoc, Z.land_lnot_diag, Z.land_0_r, Z.lor_0_l. change 3 with (Z.ones 2).
  rw lnot_ones //. change (2 ^ 2) with 4. zdm.
Qed.

Section queue.
Context {holds : rb_state → list Z → Prop} {tree : OrderedTree holds}.

(** The timers [L] by time, the earliest one first. *)
Record queue_ok (q : timerqueue_head) (L : list Z) : Prop := {
  q_holds : holds (tq_tree q) L;
  q_sorted : StronglySorted (λ a b, expiry q a ≤ expiry q b) L;
  q_next : tq_next q = first_of L;
  q_expires : ∀ a, a ∈ L → is_Some (tq_expires q !! a)
}.

(** A timer that is not in the queue, initialised or removed before. *)
Definition idle (q : timerqueue_head) (a : Z) : Prop :=
  addr_ok a ∧ is_Some (rb_nodes (tq_tree q) !! a) ∧ is_Some (tq_expires q !! a).

Lemma timerqueue_add_ok q L a :
  queue_ok q L → a ∉ L → idle q a →
  ∃ xs ys w q', L = xs ++ ys ∧ (∀ x, x ∈ xs → expiry q x ≤ expiry q a) ∧ (∀ y, y ∈ ys → expiry q a < expiry q y) ∧
    timerqueue_add a q = Some (w, q') ∧ queue_ok q' (xs ++ a :: ys) ∧ tq_expires q' = tq_expires q ∧
    (RB_EMPTY_NODE a (tq_tree q) = Some true → w = false) ∧
    ∀ x, x ∉ xs ++ a :: ys → rb_nodes (tq_tree q') !! x = rb_nodes (tq_tree q) !! x.
Proof using tree.
  intros [Hh Hs Hn He] Ha (Hao & [n Hna] & [e Hea]). destruct (split_at q L e Hs) as (xs & ys & -> & Hx & Hy).
  assert (expiry q a = e) as Ee by (by rw Hea).
  destruct (ot_insert (tq_tree q) xs ys (λ ptr, e' ← tq_expires q !! ptr; Some (e <? e'))) as (par & link & Ef & Hins); [done| | |].
  { intros x Hxin. destruct (He x) as [ex Eex]; [set_solver|]. specialize (Hx x Hxin). rw Eex in Hx. cbn in Hx. rw Eex. cbn. f_equal. lia. }
  { intros y Hyin. destruct (He y) as [ey Eey]; [set_solver|]. specialize (Hy y Hyin). rw Eey in Hy. cbn in Hy. rw Eey. cbn. f_equal. lia. }
  destruct (Hins a Ha Hao) as (s' & (s1 & El & Ec)%bind_Some & Hh' & Hf); [by eexists|].
  rw /timerqueue_add. assert (∃ b, RB_EMPTY_NODE a (tq_tree q) = Some b) as [b Eb] by (rw /RB_EMPTY_NODE /parent_of Hna; by eexists).
  run Eb. run Hea. run Ef. run El. run Ec.
  assert ((if tq_next q =? 0 then Some a else en ← tq_expires q !! tq_next q; Some (if e <? en then a else tq_next q)) = Some (first_of (xs ++ a :: ys))) as ->.
  { rw Hn. destruct xs as [|x xs]; cbn.
    - destruct ys as [|y ys]; cbn; [done|]. destruct (He y) as [ey Eey]; [set_solver|]. destruct (ot_node _ _ y Hh) as ([Hy0 _] & _); [set_solver|].
      ztest. rw Eey. cbn. specialize (Hy y ltac:(set_solver)). rw Eey in Hy. cbn in Hy. by ztest.
    - destruct (He x) as [ex Eex]; [set_solver|]. destruct (ot_node _ _ x Hh) as ([Hx0 _] & _); [set_solver|].
      ztest. rw Eex. cbn. specialize (Hx x ltac:(set_solver)). rw Eex in Hx. cbn in Hx. by ztest. }
  cbn [mbind option_bind]. eexists xs, ys, _, _. change (default 0 (Some e)) with e. split_and!; [done..| |done| |done].
  - split; cbn; [done| |done|].
    + apply sorted_insert; [done|by rw Ee|by rw Ee].
    + intros x. rewrite -> elem_of_app, elem_of_cons. intros [?|[->|?]]; [apply He; set_solver|by eexists|apply He; set_solver].
  - by intros [= ->].
Qed.

Lemma timerqueue_del_ok q xs a ys :
  queue_ok q (xs ++ a :: ys) →
  ∃ q', timerqueue_del a q = Some (false, q') ∧ queue_ok q' (xs ++ ys) ∧ tq_expires q' = tq_expires q ∧ idle q' a ∧
    RB_EMPTY_NODE a (tq_tree q') = Some true ∧
    ∀ x, x ≠ a → x ∉ xs ++ ys → rb_nodes (tq_tree q') !! x = rb_nodes (tq_tree q) !! x.
Proof using tree.
  intros [Hh Hs Hn He]. destruct (ot_node _ _ a Hh) as (Hao & [n Hna] & Hem); [set_solver|]. pose proof (ot_nodup _ _ Hh) as Hnd.
  assert (a ∉ xs ++ ys) as Hnot by (clear -Hnd; nodup; set_solver).
  destruct (ot_erase _ xs a ys Hh) as (s' & Ee & Hh' & Hf). rw /timerqueue_del. run Hem.
  assert ((if tq_next q =? a then rb_next a (tq_tree q) else Some (tq_next q)) = Some (first_of (xs ++ ys))) as ->.
  { rw Hn. destruct xs as [|x xs]; cbn.
    - rw Z.eqb_refl. by rewrite -> (ot_next _ [] a ys Hh).
    - assert (x ≠ a) by (clear -Hnd; cbn in Hnd; nodup; set_solver). by ztest. }
  cbn [mbind option_bind]. run Ee. rewrite <- (Hf a Hnot) in Hna. rw /RB_CLEAR_NODE /rb_set_parent Hna. cbn [mbind option_bind].
  rw /set_parent_color /upd_node Hna. cbn [mbind option_bind]. set (n' := {| rb_parent_color := _; rb_right := _; rb_left := _ |}).
  assert (rb_parent n' = a) as Hpar by by apply cleared_parent.
  eexists. split; [done|]. split_and!; cbn [tq_tree tq_next tq_expires]; [|done| | |].
  - split; [by apply ot_outside|by eapply sorted_remove|done|]. intros x Hx. apply He. set_solver.
  - split_and!; [by apply Hao..|by cbn; rewrite lookup_insert_eq|apply He; set_solver].
  - rw /RB_EMPTY_NODE /parent_of. cbn. rewrite -> lookup_insert_eq. cbn. rw Hpar. by rw Z.eqb_refl.
  - intros x Hxa Hx. cbn. rewrite -> lookup_insert_ne by done. by apply Hf.
Qed.
End queue.

(** ** Sequences of operations *)

Inductive timer_op := Add (a : Z) | Del (a : Z).

(** The specification: a list of timers.  A new one goes behind those that do not expire later; adding a timer twice and removing one that
    is not there are errors of the caller. *)
Fixpoint spec_add (time : Z → Z) (a : Z) (L : list Z) : list Z :=
  match L with [] => [a] | b :: L' => if time b <=? time a then b :: spec_add time a L' else a :: L end.

Definition spec_step (time : Z → Z) (L : list Z) (op : timer_op) : option (list Z) :=
  match op with
  | Add a => if bool_decide (a ∈ L) then None else Some (spec_add time a L)
  | Del a => if bool_decide (a ∈ L) then Some (filter (λ b, b ≠ a) L) else None
  end.

Definition queue_step (q : timerqueue_head) (op : timer_op) : option (bool * timerqueue_head) :=
  match op with Add a => timerqueue_add a q | Del a => timerqueue_del a q end.

Fixpoint spec_run (time : Z → Z) (L : list Z) (ops : list timer_op) : option (list Z) :=
  match ops with [] => Some L | op :: ops => L ← spec_step time L op; spec_run time L ops end.

(** The operations until one warns. *)
Fixpoint queue_run (q : timerqueue_head) (ops : list timer_op) : option (bool * timerqueue_head) :=
  match ops with
  | [] => Some (false, q)
  | op :: ops => '(warned, q) ← queue_step q op; if warned : bool then Some (true, q) else queue_run q ops
  end.

Definition op_timer (op : timer_op) : Z := match op with Add a => a | Del a => a end.

Lemma spec_add_split time a xs ys :
  (∀ x, x ∈ xs → time x ≤ time a) → (∀ y, y ∈ ys → time a < time y) → spec_add time a (xs ++ ys) = xs ++ a :: ys.
Proof.
  induction xs as [|x xs IH]; cbn; intros Hx Hy.
  - destruct ys as [|y ys]; [done|]. cbn. specialize (Hy y ltac:(set_solver)). by ztest.
  - specialize (Hx x ltac:(set_solver)) as Hx0. ztest. rw IH; [done|set_solver|done].
Qed.

Lemma filter_remove (a : Z) xs ys : NoDup (xs ++ a :: ys) → filter (λ b, b ≠ a) (xs ++ a :: ys) = xs ++ ys.
Proof.
  intros Hnd. assert (∀ l : list Z, a ∉ l → filter (λ b, b ≠ a) l = l) as H.
  { induction l as [|b l IH]; intros Hl; [done|]. rewrite -> filter_cons_True by set_solver. f_equal. apply IH. set_solver. }
  rewrite -> filter_app, filter_cons_False by naive_solver. rewrite -> !H; [done|clear -Hnd; nodup; set_solver..].
Qed.

(** The queue against the specification: the timers that are not queued can be added without a warning. *)
Record simulates (exp : gmap Z Z) (q : timerqueue_head) (L : list Z) : Prop := {
  sim_queue : queue_ok (holds := rb_holds) q L;
  sim_expires : tq_expires q = exp;
  sim_idle : ∀ a, is_Some (exp !! a) → a ∉ L → idle q a ∧ RB_EMPTY_NODE a (tq_tree q) = Some true
}.

(** Nodes outside the changed part keep what [idle] says. *)
Lemma idle_frame q q' a :
  rb_nodes (tq_tree q') !! a = rb_nodes (tq_tree q) !! a → tq_expires q' = tq_expires q →
  idle q a → RB_EMPTY_NODE a (tq_tree q) = Some true → idle q' a ∧ RB_EMPTY_NODE a (tq_tree q') = Some true.
Proof. intros E1 E2 (H1 & H2 & H3) H4. rw /idle /RB_EMPTY_NODE /parent_of E1 E2. done. Qed.

Lemma simulates_step exp q L op L' :
  simulates exp q L → is_Some (exp !! op_timer op) → spec_step (λ a, default 0 (exp !! a)) L op = Some L' →
  ∃ q', queue_step q op = Some (false, q') ∧ simulates exp q' L'.
Proof.
  intros [Hq He Hid] Hop. destruct op as [a|a]; cbn in Hop |- *; case_bool_decide as Ha; intros [= <-].
  - destruct (Hid a Hop Ha) as [Hi Hem].
    destruct (timerqueue_add_ok q L a Hq Ha Hi) as (xs & ys & w & q' & -> & Hx & Hy & E & Hq' & He' & Hw & Hf).
    rewrite -> He in *. exists q'. rw E (Hw Hem). split; [done|]. rw spec_add_split //. split; [done|done|].
    intros b Hb Hbn. destruct (Hid b Hb) as [Hib Heb]; [set_solver|]. eapply idle_frame; [by apply Hf|by rewrite -> He|done..].
  - apply list_elem_of_split in Ha as (xs & ys & ->). pose proof (ot_nodup _ _ (q_holds _ _ Hq)) as Hnd. rw filter_remove //.
    destruct (timerqueue_del_ok q xs a ys Hq) as (q' & E & Hq' & He' & Hia & Hea & Hf). exists q'. split; [done|].
    split; [done|by rewrite -> He'|]. intros b Hb Hbn. destruct (decide (b = a)) as [->|Hba]; [done|].
    destruct (Hid b Hb) as [Hib Heb]; [set_solver|]. eapply idle_frame; [by apply Hf|by rewrite -> He'|done..].
Qed.

Lemma simulates_run exp ops q L L' :
  simulates exp q L → Forall (λ op, is_Some (exp !! op_timer op)) ops → spec_run (λ a, default 0 (exp !! a)) L ops = Some L' →
  ∃ q', queue_run q ops = Some (false, q') ∧ simulates exp q' L'.
Proof.
  revert q L. induction ops as [|op ops IH]; intros q L Hs Hops E; cbn in E; [exists q; by injection E as <-|].
  apply Forall_cons in Hops as [Hop Hops]. apply bind_Some in E as (L1 & E1 & E).
  destruct (simulates_step exp q L op L1 Hs Hop E1) as (q1 & Eq & Hs1). destruct (IH q1 L1 Hs1 Hops E) as (q' & Eq' & Hs').
  exists q'. split; [|done]. cbn. by run Eq.
Qed.

(** C13: A timer queue is a list of timers sorted by time, first come first served among equal times: for every sequence of
    additions and removals that the specification allows, on initialised timers, the code runs without a fault or a
    warning, [timerqueue_getnext] is the earliest timer of the specified list, and [timerqueue_iterate_next] goes through the list. *)
Theorem timerqueue_refines nodes exp ops L :
  (∀ a, is_Some (exp !! a) → addr_ok a ∧ RB_EMPTY_NODE a {| rb_nodes := nodes; rb_top := 0 |} = Some true) →
  Forall (λ op, is_Some (exp !! op_timer op)) ops →
  spec_run (λ a, default 0 (exp !! a)) [] ops = Some L →
  ∃ q, queue_run (timerqueue_init_head nodes exp) ops = Some (false, q) ∧ timerqueue_getnext q = first_of L ∧
    StronglySorted (λ a b, default 0 (exp !! a) ≤ default 0 (exp !! b)) L ∧
    ∀ xs a ys, L = xs ++ a :: ys → timerqueue_iterate_next a q = Some (first_of ys).
Proof.
  intros Hn Hops Hrun. destruct (simulates_run exp ops (timerqueue_init_head nodes exp) [] L) as (q & Eq & [Hq He _]); [|done|done|].
  - split; [|done|].
    + split; [apply ot_empty|constructor|done|set_solver].
    + intros a Ha _. destruct (Hn a Ha) as [Hao Hem]. split; [|done]. split_and!; [by apply Hao..| |done]. cbn.
      rw /RB_EMPTY_NODE /parent_of in Hem. cbn in Hem. by destruct (nodes !! a).
  - exists q. split; [done|]. destruct Hq as [Hh Hs Hnx _]. rewrite -> He in Hs. split_and!; [done|done|]. intros xs a ys ->.
    rw /timerqueue_iterate_next. destruct (ot_node _ _ a Hh) as ([Ha0 _] & _); [set_solver|]. ztest. exact (ot_next _ xs a ys Hh).
Qed.

Definition demo_timers : gmap Z Z := <[4 := 10]> (<[8 := 5]> {[12 := 10]}).
Definition demo_timer_nodes : gmap Z rb_node := (λ _, mk 0 false 0 0) <$> demo_timers.

Lemma timerqueue_refines_witness :
  ∃ q q', (q0 ← timerqueue_init 4 (timerqueue_init_head demo_timer_nodes demo_timers); q1 ← timerqueue_init 8 q0; timerqueue_init 12 q1) = Some q ∧
    queue_run q [Add 4; Add 8; Add 12; Del 8] = Some (false, q') ∧ timerqueue_getnext q' = 4 ∧ timerqueue_iterate_next 4 q' = Some 12.
Proof.
  set (nodes := <[4 := mk 4 false 0 0]> (<[8 := mk 8 false 0 0]> {[12 := mk 12 false 0 0]} : gmap Z rb_node)).
  destruct (timerqueue_refines nodes demo_timers [Add 4; Add 8; Add 12; Del 8] [4; 12]) as (q' & E & N & _ & W).
  - intros a [e He]. unfold demo_timers in He. apply lookup_insert_Some in He as [[<- _]|[_ He]]; [split; [split; reflexivity|reflexivity]|].
    apply lookup_insert_Some in He as [[<- _]|[_ He]]; [split; [split; reflexivity|reflexivity]|].
    apply lookup_singleton_Some in He as [<- _]. split; [split; reflexivity|reflexivity].
  - repeat constructor; eexists; reflexivity.
  - vm_compute. reflexivity.
  - exists (timerqueue_init_head nodes demo_timers), q'. split; [vm_compute; reflexivity|].
    split; [exact E|]. split; [exact N|exact (W [] 4 [12] eq_refl)].
Defined.
