(* ===== verification/Llist.v ===== *)
(** * Lock-less lists: lib/llist.c, include/linux/llist.h

    Any number of producers and one consumer share a list without a lock.  The functions are cut at their accesses to shared memory; between
    two accesses of one thread the others may do anything.  The steps of [llist_add] are those of [llist_add_batch] for a batch of one. *)
From S2P Require Import Prelude.

(** ** The accesses *)

(** [cmpxchg(ptr, old, new)]: the value found and the value left. *)
Definition cmpxchg (found old new : Z) : Z * Z := (found, if found =? old then new else found).

(** A producer: outside, before the store to [new_last->next] and before the [cmpxchg]; the batch is the
    list of its nodes, [new_first] is its first and [new_last] its last. *)
Inductive adder :=
| Add_idle
| Add_store (batch : list Z) (entry : Z)
| Add_cas (batch : list Z) (old_entry : Z).

(** The consumer: outside, before the load of [entry->next] and before the [cmpxchg]. *)
Inductive deleter :=
| Del_idle
| Del_load (entry : Z)
| Del_cas (old_entry next : Z).

Record llist_sys := { ll_first : Z; ll_next : gmap Z Z; ll_adders : list adder; ll_deleter : deleter }.

(** Completed calls with what they return. *)
Inductive llist_event :=
| Added (batch : list Z) (was_empty : bool)
| Deleted_first (entry : Z)
| Deleted_all (entry : Z).

(** The shared memory after an access, and the new local state or the result. *)
Definition add_enter (batch : list Z) (first : Z) : adder := Add_store batch first.

Definition add_store (batch : list Z) (entry : Z) (next : gmap Z Z) : option (gmap Z Z * adder) :=
  new_last ← last batch; _ ← next !! new_last; Some (<[new_last := entry]> next, Add_cas batch entry).

Definition add_cas (batch : list Z) (old_entry first : Z) : option (Z * (adder * option llist_event)) :=
  new_first ← head batch;
  let '(entry, first') := cmpxchg first old_entry new_first in
  Some (first', if entry =? old_entry then (Add_idle, Some (Added batch (old_entry =? 0))) else (Add_store batch entry, None)).

(** [entry] has just been loaded: the test for NULL. *)
Definition del_test (entry : Z) : deleter * option llist_event :=
  if entry =? 0 then (Del_idle, Some (Deleted_first 0)) else (Del_load entry, None).

Definition del_load (entry : Z) (next : gmap Z Z) : option deleter := n ← next !! entry; Some (Del_cas entry n).

Definition del_cas (old_entry next first : Z) : Z * (deleter * option llist_event) :=
  let '(entry, first') := cmpxchg first old_entry next in
  (first', if entry =? old_entry then (Del_idle, Some (Deleted_first entry)) else del_test entry).

(** [xchg(&head->first, NULL)]. *)
Definition llist_del_all (first : Z) : Z * llist_event := (0, Deleted_all first).

Definition llist_empty (first : Z) : bool := first =? 0.

(** ** Without other threads *)

(** The whole functions: the loops end after one round. *)
Definition llist_add_batch (batch : list Z) (first : Z) (next : gmap Z Z) : option (bool * Z * gmap Z Z) :=
  loop 1 (λ '(a, first, next),
      match a with
      | Add_store b entry =>
          '(next, a) ← add_store b entry next;
          match a with
          | Add_cas b old =>
              '(first, (a, ev)) ← add_cas b old first;
              Some (match ev with Some (Added _ e) => Stop (e, first, next) | _ => Next (a, first, next) end)
          | _ => None
          end
      | _ => None
      end) (add_enter batch first, first, next).

Definition llist_del_first (first : Z) (next : gmap Z Z) : option (Z * Z) :=
  match del_test first with
  | (_, Some _) => Some (0, first)
  | (Del_load entry, None) =>
      d ← del_load entry next;
      match d with Del_cas old n => let '(first', (_, ev)) := del_cas old n first in Some (match ev with Some (Deleted_first e) => e | _ => 0 end, first')
      | _ => None end
  | _ => None
  end.

Example llist_demo :
  let next0 : gmap Z Z := <[4 := 8]> (<[8 := 0]> {[12 := 0]}) in
  ('(e1, f1, n1) ← llist_add_batch [4; 8] 0 next0; '(e2, f2, n2) ← llist_add_batch [12] f1 n1;
   '(d, f3) ← llist_del_first f2 n2; '(d', f4) ← llist_del_first f3 n2; Some (e1, e2, d, d', f4)) = Some (true, false, 12, 4, 8).
Proof. vm_compute. reflexivity. Qed.

(** ** All interleavings *)

Definition batch_of (a : adder) : list Z := match a with Add_idle => [] | Add_store b _ => b | Add_cas b _ => b end.

(** The nodes of a batch point to each other. *)
Fixpoint linked (next : gmap Z Z) (b : list Z) : Prop :=
  match b with
  | a :: ((a' :: _) as b') => next !! a = Some a' ∧ linked next b'
  | _ => True
  end.

(** The nodes in the list. *)
Fixpoint chain (next : gmap Z Z) (first : Z) (L : list Z) : Prop :=
  match L with [] => first = 0 | a :: L' => first = a ∧ ∃ n, next !! a = Some n ∧ chain next n L' end.

(** A caller may add nodes that are in no list and in no other batch; it has linked them. *)
Definition may_add (s : llist_sys) (next' : gmap Z Z) (b : list Z) : Prop :=
  b ≠ [] ∧ NoDup b ∧ Forall (λ a, 0 < a) b ∧ linked next' b ∧ (∀ a, a ∈ b → is_Some (next' !! a)) ∧
  (∀ a, a ∉ b → next' !! a = ll_next s !! a) ∧
  (∀ a, a ∈ b → a ∉ concat (batch_of <$> ll_adders s)) ∧
  ∀ L, chain (ll_next s) (ll_first s) L → ∀ a, a ∈ b → a ∉ L.

Inductive llist_step : llist_sys → option llist_event → llist_sys → Prop :=
| step_enter s i b next' :
    ll_adders s !! i = Some Add_idle → may_add s next' b →
    llist_step s None {| ll_first := ll_first s; ll_next := next'; ll_adders := <[i := add_enter b (ll_first s)]> (ll_adders s);
                         ll_deleter := ll_deleter s |}
| step_store s i b entry next' a' :
    ll_adders s !! i = Some (Add_store b entry) → add_store b entry (ll_next s) = Some (next', a') →
    llist_step s None {| ll_first := ll_first s; ll_next := next'; ll_adders := <[i := a']> (ll_adders s); ll_deleter := ll_deleter s |}
| step_add_cas s i b old first' a' ev :
    ll_adders s !! i = Some (Add_cas b old) → add_cas b old (ll_first s) = Some (first', (a', ev)) →
    llist_step s ev {| ll_first := first'; ll_next := ll_next s; ll_adders := <[i := a']> (ll_adders s); ll_deleter := ll_deleter s |}
| step_del s d' ev :
    ll_deleter s = Del_idle → del_test (ll_first s) = (d', ev) →
    llist_step s ev {| ll_first := ll_first s; ll_next := ll_next s; ll_adders := ll_adders s; ll_deleter := d' |}
| step_load s entry d' :
    ll_deleter s = Del_load entry → del_load entry (ll_next s) = Some d' →
    llist_step s None {| ll_first := ll_first s; ll_next := ll_next s; ll_adders := ll_adders s; ll_deleter := d' |}
| step_del_cas s old n first' d' ev :
    ll_deleter s = Del_cas old n → del_cas old n (ll_first s) = (first', (d', ev)) →
    llist_step s ev {| ll_first := first'; ll_next := ll_next s; ll_adders := ll_adders s; ll_deleter := d' |}
| step_del_all s first' ev :
    ll_deleter s = Del_idle → llist_del_all (ll_first s) = (first', ev) →
    llist_step s (Some ev) {| ll_first := first'; ll_next := ll_next s; ll_adders := ll_adders s; ll_deleter := Del_idle |}.

(** A run with the calls that completed, in order. *)
Inductive llist_run : llist_sys → list llist_event → llist_sys → Prop :=
| run_nil s : llist_run s [] s
| run_snoc s0 evs s ev s' : llist_run s0 evs s → llist_step s ev s' → llist_run s0 (evs ++ option_list ev) s'.

Definition llist_init (s : llist_sys) : Prop :=
  ll_first s = 0 ∧ Forall (λ a, a = Add_idle) (ll_adders s) ∧ ll_deleter s = Del_idle.
