(* ===== verification/LlistSafe.v ===== *)
(** * Lock-less lists: every interleaving is a stack, and some call always completes *)
From S2P Require Import Prelude Llist.

(** ** The specification: calls take effect at once *)

Definition spec_event (L : list Z) (ev : llist_event) : option (list Z) :=
  match ev with
  | Added b e => if eqb e (bool_decide (L = [])) then Some (b ++ L) else None
  | Deleted_first e => match L with [] => if e =? 0 then Some [] else None | a :: L' => if e =? a then Some L' else None end
  | Deleted_all e => if e =? default 0 (head L) then Some [] else None
  end.

Fixpoint spec_events (L : list Z) (evs : list llist_event) : option (list Z) :=
  match evs with [] => Some L | ev :: evs => L ← spec_event L ev; spec_events L evs end.

Lemma spec_events_app L evs1 evs2 : spec_events L (evs1 ++ evs2) = (L ← spec_events L evs1; spec_events L evs2).
Proof. revert L. induction evs1 as [|ev evs1 IH]; intros L; cbn; [done|]. destruct (spec_event L ev); cbn; [apply IH|done]. Qed.

(** ** Memory that others do not change *)

Lemma chain_frame next next' first L : chain next first L → (∀ a, a ∈ L → next' !! a = next !! a) → chain next' first L.
Proof.
  revert first. induction L as [|a L IH]; intros first; cbn; [done|]. intros [-> (n & Hn & Hc)] Hf. split; [done|]. exists n.
  rewrite -> Hf by set_solver. split; [done|]. apply IH; [done|]. set_solver.
Qed.

Lemma batch_linked_cons next a b : linked next (a :: b) ↔ (∀ a', head b = Some a' → next !! a = Some a') ∧ linked next b.
Proof. destruct b; cbn; naive_solver. Qed.

Lemma linked_frame next next' b : linked next b → (∀ a, a ∈ b → next' !! a = next !! a) → linked next' b.
Proof.
  induction b as [|a b IH]; [done|]. rewrite -> !batch_linked_cons. intros [H1 H2] Hf. split; [|apply IH; set_solver].
  intros a' Ha. rewrite -> Hf by set_solver. by apply H1.
Qed.

(** The store to the last node keeps the links inside the batch. *)
Lemma linked_last next b l e : NoDup b → last b = Some l → linked next b → linked (<[l := e]> next) b.
Proof.
  induction b as [|a b IH]; [done|]. intros [Ha Hnd]%NoDup_cons Hl. rewrite -> !batch_linked_cons. intros [H1 H2]. destruct b as [|a' b]; [done|].
  rewrite -> last_cons_cons in Hl. split; [|by apply IH]. intros x Hx. rewrite -> lookup_insert_ne; [by apply H1|].
  intros ->. apply Ha. by apply last_Some_elem_of.
Qed.

(** A batch in front of a list. *)
Lemma chain_app next b f l first L :
  head b = Some f → last b = Some l → linked next b → next !! l = Some first → chain next first L → chain next f (b ++ L).
Proof.
  revert f. induction b as [|a b IH]; intros f; [done|]. intros [= ->] Hl [H1 H2]%batch_linked_cons Hn Hc. cbn. split; [done|].
  destruct b as [|a' b].
  - injection Hl as ->. by exists first.
  - exists a'. split; [by apply H1|]. by apply IH.
Qed.

Lemma chain_null next first L : chain next first L → Forall (λ a, 0 < a) L → bool_decide (L = []) = (first =? 0).
Proof.
  destruct L as [|a L]; cbn; [by intros ->|]. intros [-> _] [Ha _]%Forall_cons. by ztest.
Qed.

Lemma chain_head next first L : chain next first L → first = default 0 (head L).
Proof. destruct L; cbn; [done|]. by intros [-> _]. Qed.

(** The batches of all threads when one thread changes. *)
Lemma batches_split (l : list adder) i a :
  l !! i = Some a → ∃ C1 C2, concat (batch_of <$> l) = C1 ++ batch_of a ++ C2 ∧
    ∀ x, concat (batch_of <$> <[i := x]> l) = C1 ++ batch_of x ++ C2.
Proof.
  intros Hi. exists (concat (batch_of <$> take i l)), (concat (batch_of <$> drop (S i) l)). split.
  - rewrite <- (take_drop_middle l i a Hi) at 1. by rewrite -> fmap_app, fmap_cons, concat_app.
  - intros x. pose proof (lookup_lt_Some _ _ _ Hi). rewrite -> insert_take_drop by done. by rewrite -> fmap_app, fmap_cons, concat_app.
Qed.

(** ** The invariant *)

Definition adder_ok (next : gmap Z Z) (a : adder) : Prop :=
  match a with
  | Add_idle => True
  | Add_store b _ => b ≠ [] ∧ linked next b ∧ ∀ x, x ∈ b → is_Some (next !! x)
  | Add_cas b old => b ≠ [] ∧ linked next b ∧ (∀ x, x ∈ b → is_Some (next !! x)) ∧ ∀ l, last b = Some l → next !! l = Some old
  end.

Definition deleter_ok (next : gmap Z Z) (L : list Z) (d : deleter) : Prop :=
  match d with Del_idle => True | Del_load e => e ∈ L | Del_cas e n => e ∈ L ∧ next !! e = Some n end.

Notation batches s := (concat (batch_of <$> ll_adders s)).

Record llist_ok (s : llist_sys) (L : list Z) : Prop := {
  l_chain : chain (ll_next s) (ll_first s) L;
  l_nodup : NoDup (L ++ batches s);
  l_pos : Forall (λ a, 0 < a) (L ++ batches s);
  l_adders : ∀ i a, ll_adders s !! i = Some a → adder_ok (ll_next s) a;
  l_deleter : deleter_ok (ll_next s) L (ll_deleter s)
}.

Lemma adder_frame next next' a : adder_ok next a → (∀ x, x ∈ batch_of a → next' !! x = next !! x) → adder_ok next' a.
Proof.
  destruct a as [|b e|b e]; cbn; [done|..].
  - intros (H1 & H2 & H3) Hf. split_and!; [done|by eapply linked_frame|]. intros x Hx. rewrite -> Hf by done. by apply H3.
  - intros (H1 & H2 & H3 & H4) Hf. split_and!; [done|by eapply linked_frame| |].
    + intros x Hx. rewrite -> Hf by done. by apply H3.
    + intros l Hl. rewrite -> Hf by by apply last_Some_elem_of. by apply H4.
Qed.

Lemma deleter_frame next next' L d : deleter_ok next L d → (∀ x, x ∈ L → next' !! x = next !! x) → deleter_ok next' L d.
Proof. destruct d as [|e|e n]; cbn; [done..|]. intros [H1 H2] Hf. by rewrite -> Hf. Qed.

(** Threads other than the one that moves: their batches are apart from its batch. *)
Lemma others_ok s i a a' next' :
  ll_adders s !! i = Some a → NoDup (batches s) → (∀ j a, ll_adders s !! j = Some a → adder_ok (ll_next s) a) → adder_ok next' a' →
  (∀ j b x, j ≠ i → ll_adders s !! j = Some b → x ∈ batch_of b → next' !! x = ll_next s !! x) →
  ∀ j b, <[i := a']> (ll_adders s) !! j = Some b → adder_ok next' b.
Proof.
  intros Hi Hnd Hok Ha' Hf j b Hj. apply list_lookup_insert_Some in Hj as [(-> & <- & _)|[Hne Hj]]; [done|].
  eapply adder_frame; [by eapply Hok|]. intros x Hx. by eapply Hf.
Qed.

Lemma batches_disjoint (l : list adder) i j a b x :
  NoDup (concat (batch_of <$> l)) → l !! i = Some a → l !! j = Some b → i ≠ j → x ∈ batch_of a → x ∉ batch_of b.
Proof.
  intros Hnd Hi Hj Hne Ha Hb. destruct (batches_split l i a Hi) as (C1 & C2 & E & Hx). specialize (Hx Add_idle).
  assert (x ∈ C1 ++ C2) as Hin.
  { change (C1 ++ C2) with (C1 ++ batch_of Add_idle ++ C2). rewrite <- Hx. apply list_elem_of_In, in_concat.
    exists (batch_of b). split; [|by apply list_elem_of_In]. apply list_elem_of_In, list_elem_of_fmap. exists b. split; [done|].
    apply (list_elem_of_lookup_2 _ j). by rewrite -> list_lookup_insert_ne. }
  rw E in Hnd. apply NoDup_app in Hnd as (_ & H1 & (_ & H2 & _)%NoDup_app). set_solver.
Qed.

(** ** Every step keeps it *)

Definition after (L : list Z) (ev : option llist_event) : option (list Z) := match ev with None => Some L | Some ev => spec_event L ev end.

Lemma step_enter_ok s L i b next' :
  llist_ok s L → ll_adders s !! i = Some Add_idle → may_add s next' b →
  llist_ok {| ll_first := ll_first s; ll_next := next'; ll_adders := <[i := add_enter b (ll_first s)]> (ll_adders s); ll_deleter := ll_deleter s |} L.
Proof.
  intros [Hc Hnd Hp Ha Hd] Hi (Hb & Hbn & Hbp & Hbl & Hbs & Hf & Hbb & HbL). specialize (HbL L Hc).
  destruct (batches_split _ _ _ Hi) as (C1 & C2 & E & Hx). cbn in E. specialize (Hx (add_enter b (ll_first s))). cbn in Hx.
  rewrite -> E in Hnd, Hp, Hbb. split; cbn; rewrite -> ?Hx.
  - eapply chain_frame; [done|]. intros a HaL. apply Hf. intros Hab. by eapply HbL.
  - assert (L ++ C1 ++ b ++ C2 ≡ₚ b ++ L ++ C1 ++ C2) as -> by solve_Permutation.
    apply NoDup_app. split_and!; [done| |done]. intros x Hxb. specialize (HbL x Hxb). specialize (Hbb x Hxb). set_solver.
  - assert (L ++ C1 ++ b ++ C2 ≡ₚ b ++ L ++ C1 ++ C2) as -> by solve_Permutation. by apply Forall_app.
  - apply (others_ok s i Add_idle); [done|by rewrite -> E; apply NoDup_app in Hnd as (_ & _ & ?)|done|done|].
    intros j a x Hj Hja Hxa. apply Hf. intros Hxb. apply (Hbb x Hxb). rewrite <- E. apply list_elem_of_In, in_concat. exists (batch_of a).
    split; [|by apply list_elem_of_In]. apply list_elem_of_In, list_elem_of_fmap. exists a. split; [done|]. by eapply list_elem_of_lookup_2.
  - eapply deleter_frame; [done|]. intros x HxL. apply Hf. intros Hxb. by eapply HbL.
Qed.

Lemma step_store_ok s L i b entry next' a' :
  llist_ok s L → ll_adders s !! i = Some (Add_store b entry) → add_store b entry (ll_next s) = Some (next', a') →
  llist_ok {| ll_first := ll_first s; ll_next := next'; ll_adders := <[i := a']> (ll_adders s); ll_deleter := ll_deleter s |} L.
Proof.
  intros [Hc Hnd Hp Ha Hd] Hi Hs. destruct (Ha _ _ Hi) as (Hb & Hbl & Hbs). rw /add_store in Hs.
  apply bind_Some in Hs as (l & Hl & (n & Hn & [= <- <-])%bind_Some).
  destruct (batches_split _ _ _ Hi) as (C1 & C2 & E & Hx). cbn in E. specialize (Hx (Add_cas b entry)). cbn in Hx.
  pose proof (last_Some_elem_of _ _ Hl) as Hlb. pose proof Hnd as (_ & HL & Hndb)%NoDup_app.
  assert (∀ x, x ∈ L → <[l := entry]> (ll_next s) !! x = ll_next s !! x) as Hf.
  { intros x HxL. rewrite -> lookup_insert_ne; [done|]. intros ->. apply (HL _ HxL). rw E. set_solver. }
  split; cbn; rewrite -> ?Hx; [by eapply chain_frame|by rewrite <- E|by rewrite <- E| |by eapply deleter_frame].
  eapply others_ok; [done|done|done| |].
  - cbn. split_and!; [done| | |].
    + apply linked_last; [|done|done]. rewrite -> E in Hndb. clear -Hndb. apply NoDup_app in Hndb as (_ & _ & (? & _ & _)%NoDup_app). done.
    + intros x Hxb. destruct (decide (x = l)) as [->|Hxl]; [by rewrite lookup_insert_eq|]. rewrite -> lookup_insert_ne by done. by apply Hbs.
    + intros l' Hl'. rw Hl in Hl'. injection Hl' as <-. by rewrite lookup_insert_eq.
  - intros j a x Hj Hja Hxa. rewrite -> lookup_insert_ne; [done|]. intros <-. by apply (batches_disjoint _ i j _ _ l Hndb Hi Hja).
Qed.

Lemma step_add_cas_ok s L i b old first' a' ev :
  llist_ok s L → ll_adders s !! i = Some (Add_cas b old) → add_cas b old (ll_first s) = Some (first', (a', ev)) →
  ∃ L', after L ev = Some L' ∧
    llist_ok {| ll_first := first'; ll_next := ll_next s; ll_adders := <[i := a']> (ll_adders s); ll_deleter := ll_deleter s |} L'.
Proof.
  intros [Hc Hnd Hp Ha Hd] Hi Hs. destruct (Ha _ _ Hi) as (Hb & Hbl & Hbs & Hlast). rw /add_cas in Hs.
  apply bind_Some in Hs as (f & Hfirst & Hs). rw /cmpxchg in Hs.
  destruct (batches_split _ _ _ Hi) as (C1 & C2 & E & Hx). cbn in E. destruct (Z.eqb_spec (ll_first s) old) as [<-|Hne]; injection Hs as <- <- <-.
  - exists (b ++ L). specialize (Hx Add_idle). cbn in Hx. split.
    { cbn. assert (Forall (λ a, 0 < a) L) as HpL by (by apply Forall_app in Hp as [? _]). rewrite <- (chain_null _ _ _ Hc HpL). by rewrite eqb_reflx. }
    assert (L ++ C1 ++ b ++ C2 ≡ₚ (b ++ L) ++ C1 ++ C2) as Ep by solve_Permutation. rewrite -> E, Ep in Hnd, Hp.
    split; cbn; rewrite -> ?Hx; [|done|done| |].
    + destruct (last b) as [l|] eqn:El; [|by apply last_None in El]. by eapply chain_app; [..|by apply Hlast|].
    + intros j a Hj. apply list_lookup_insert_Some in Hj as [(-> & <- & _)|[_ Hj]]; [done|by eapply Ha].
    + destruct (ll_deleter s); cbn in *; set_solver.
  - exists L. specialize (Hx (Add_store b (ll_first s))). cbn in Hx. split; [done|].
    split; cbn; rewrite -> ?Hx; [done|by rewrite <- E|by rewrite <- E| |done].
    intros j a Hj. apply list_lookup_insert_Some in Hj as [(-> & <- & _)|[_ Hj]]; [done|by eapply Ha].
Qed.

(** The consumer found [entry] as the first node. *)
Lemma del_test_ok s L entry d' ev :
  llist_ok s L → entry = ll_first s → del_test entry = (d', ev) →
  ∃ L', after L ev = Some L' ∧ llist_ok {| ll_first := ll_first s; ll_next := ll_next s; ll_adders := ll_adders s; ll_deleter := d' |} L'.
Proof.
  intros [Hc Hnd Hp Ha Hd] -> Ht. rw /del_test in Ht. exists L. destruct L as [|a L]; cbn in Hc.
  - rw Hc in Ht. injection Ht as <- <-. split; [done|]. by split.
  - destruct Hc as [E Hc]. assert (0 < a) by (by apply Forall_cons in Hp as [? _]). rw E in Ht. revert Ht. ztest. intros [= <- <-].
    split; [done|]. split; [by split|done|done|done|]. cbn. set_solver.
Qed.

Lemma step_del_cas_ok s L old n first' d' ev :
  llist_ok s L → ll_deleter s = Del_cas old n → del_cas old n (ll_first s) = (first', (d', ev)) →
  ∃ L', after L ev = Some L' ∧ llist_ok {| ll_first := first'; ll_next := ll_next s; ll_adders := ll_adders s; ll_deleter := d' |} L'.
Proof.
  intros Hok Hdel Hs. pose proof (l_deleter _ _ Hok) as Hd. rw Hdel in Hd. destruct Hd as [Hin Hn]. rw /del_cas /cmpxchg in Hs.
  destruct (Z.eqb_spec (ll_first s) old) as [E|Hne].
  - injection Hs as <- <- <-. destruct Hok as [Hc Hnd Hp Ha _]. destruct L as [|a L]; cbn in Hc; [set_solver|]. destruct Hc as [Ea (n' & Hn' & Hc)].
    assert (a = old) as -> by congruence. assert (n' = n) as -> by congruence. exists L. cbn. rw E Z.eqb_refl. split; [done|].
    apply NoDup_cons in Hnd as [_ Hnd]. apply Forall_cons in Hp as [_ Hp]. by split.
  - injection Hs as <- Hs. by eapply del_test_ok.
Qed.

Lemma llist_step_ok s L ev s' : llist_ok s L → llist_step s ev s' → ∃ L', after L ev = Some L' ∧ llist_ok s' L'.
Proof.
  intros Hok Hs. destruct Hs as [s i b next' Hi Hm|s i b entry next' a' Hi Hs|s i b old first' a' ev Hi Hs|s d' ev Hi Hs|s entry d' Hi Hs|s old n first' d' ev Hi Hs|s first' ev Hi Hs].
  - exists L. split; [done|]. by eapply step_enter_ok.
  - exists L. split; [done|]. by eapply step_store_ok.
  - by eapply step_add_cas_ok.
  - by eapply del_test_ok.
  - exists L. split; [done|]. rw /del_load in Hs. apply bind_Some in Hs as (n & Hn & [= <-]). destruct Hok as [Hc Hnd Hp Ha Hd]. rw Hi in Hd. by split.
  - by eapply step_del_cas_ok.
  - injection Hs as <- <-. exists []. destruct Hok as [Hc Hnd Hp Ha _]. cbn. rw (chain_head _ _ _ Hc) Z.eqb_refl. split; [done|].
    apply NoDup_app in Hnd as (_ & _ & ?). apply Forall_app in Hp as [_ ?]. by split.
Qed.

Lemma llist_init_ok s : llist_init s → llist_ok s [].
Proof.
  intros (Hf & Hi & Hd). assert (batches s = []) as E.
  { induction Hi as [|a l -> _ IH]; [done|]. exact IH. }
  split; rewrite -> ?E; [done|constructor|constructor| |by rw Hd].
  intros i a Ha. rewrite -> Forall_lookup in Hi. by rewrite -> (Hi i a Ha).
Qed.

Lemma llist_run_ok s0 evs s : llist_init s0 → llist_run s0 evs s → ∃ L, spec_events [] evs = Some L ∧ llist_ok s L.
Proof.
  intros H0. induction 1 as [s|s0 evs s ev s' _ IH Hs]; [exists []; split; [done|by apply llist_init_ok]|].
  destruct (IH H0) as (L & E & Hok). destruct (llist_step_ok _ _ _ _ Hok Hs) as (L' & E' & Hok'). exists L'. split; [|done].
  rewrite -> spec_events_app, E. cbn. destruct ev; cbn in *; [by rw E'|done].
Qed.

(** A thread inside a call can always make its next access. *)
Definition no_fault (s : llist_sys) : Prop :=
  (∀ i b e, ll_adders s !! i = Some (Add_store b e) → is_Some (add_store b e (ll_next s))) ∧
  (∀ i b e, ll_adders s !! i = Some (Add_cas b e) → is_Some (add_cas b e (ll_first s))) ∧
  (∀ e, ll_deleter s = Del_load e → is_Some (del_load e (ll_next s))).

Lemma llist_ok_no_fault s L : llist_ok s L → no_fault s.
Proof.
  intros [Hc _ _ Ha Hd]. split_and!.
  - intros i b e Hi. destruct (Ha _ _ Hi) as (Hb & _ & Hbs). rw /add_store. destruct (last b) as [l|] eqn:El; [|by apply last_None in El].
    destruct (Hbs l) as [n Hn]; [by apply last_Some_elem_of|]. cbn. rw Hn. by eexists.
  - intros i b e Hi. destruct (Ha _ _ Hi) as (Hb & _). rw /add_cas. destruct b; [done|]. by eexists.
  - intros e He. rw He in Hd. cbn in Hd. clear He. revert Hd Hc. generalize (ll_first s). induction L as [|a L IH]; intros f; [set_solver|].
    intros [->|Hin]%elem_of_cons [_ (n & Hn & Hc)]; [rw /del_load Hn; by eexists|by eapply IH].
Qed.

(** C14: However the accesses of any number of producers and one consumer interleave, the calls behave as if each took effect at
    once: the completed calls in order, with the values they returned, are a run of a stack of nodes, the memory holds exactly the nodes of that
    stack, and no thread ever follows a bad pointer. *)
Theorem llist_linearizable s0 evs s :
  llist_init s0 → llist_run s0 evs s →
  ∃ L, spec_events [] evs = Some L ∧ chain (ll_next s) (ll_first s) L ∧ NoDup L ∧ no_fault s.
Proof.
  intros H0 Hr. destruct (llist_run_ok _ _ _ H0 Hr) as (L & E & Hok). exists L. split_and!; [done|apply Hok| |by eapply llist_ok_no_fault].
  pose proof (l_nodup _ _ Hok) as Hnd. by apply NoDup_app in Hnd as (? & _).
Qed.

(** ** Progress *)

(** How many accesses a thread can make before it completes or another thread does. *)
Definition adder_left (first : Z) (a : adder) : nat :=
  match a with
  | Add_idle => 3%nat
  | Add_store _ e => if e =? first then 2%nat else 4%nat
  | Add_cas _ e => if e =? first then 1%nat else 3%nat
  end.

Definition deleter_left (first : Z) (d : deleter) : nat :=
  match d with
  | Del_idle => 3%nat
  | Del_load e => if e =? first then 2%nat else 4%nat
  | Del_cas e _ => if e =? first then 1%nat else 3%nat
  end.

Definition accesses_left (s : llist_sys) : nat :=
  (deleter_left (ll_first s) (ll_deleter s) + sum_list (adder_left (ll_first s) <$> ll_adders s))%nat.

Lemma accesses_bound s : (accesses_left s ≤ 4 * S (length (ll_adders s)))%nat.
Proof.
  assert (∀ l, (sum_list (adder_left (ll_first s) <$> l) ≤ 4 * length l)%nat) as H.
  { induction l as [|a l IH]; cbn; [lia|]. assert (adder_left (ll_first s) a ≤ 4)%nat by (destruct a; cbn; repeat case_if; lia). lia. }
  rw /accesses_left. specialize (H (ll_adders s)). assert (deleter_left (ll_first s) (ll_deleter s) ≤ 4)%nat by (destruct (ll_deleter s); cbn; repeat case_if; lia).
  lia.
Qed.

Lemma sum_insert (l : list adder) f i a x :
  l !! i = Some a → (sum_list (f <$> <[i := x]> l) + f a = sum_list (f <$> l) + f x)%nat.
Proof.
  revert i. induction l as [|b l IH]; intros [|i]; cbn; [done..| |].
  - intros [= ->]. lia.
  - intros Hi. specialize (IH i Hi). rewrite <- !Nat.add_assoc. f_equal. exact IH.
Qed.

(** A step that completes no call uses up an access. *)
Lemma silent_step s s' : llist_step s None s' → (accesses_left s' < accesses_left s)%nat ∧ length (ll_adders s') = length (ll_adders s).
Proof.
  intros Hs. remember None as ev eqn:Eev. destruct Hs as [s i b next' Hi Hm|s i b entry next' a' Hi Hs|s i b old first' a' ev Hi Hs|s d' ev Hi Hs|s entry d' Hi Hs|s old n first' d' ev Hi Hs|s first' ev Hi Hs];
    try done; rw /accesses_left; cbn; (split; [|by rewrite ?length_insert]).
  - pose proof (sum_insert _ (adder_left (ll_first s)) i _ (add_enter b (ll_first s)) Hi) as E. cbn in E. rw Z.eqb_refl in E. lia.
  - rw /add_store in Hs. apply bind_Some in Hs as (l & Hl & (n & Hn & [= <- <-])%bind_Some).
    pose proof (sum_insert _ (adder_left (ll_first s)) i _ (Add_cas b entry) Hi) as E. cbn in E. destruct (entry =? ll_first s); lia.
  - subst ev. rw /add_cas /cmpxchg in Hs. apply bind_Some in Hs as (f & Hf & Hs). destruct (Z.eqb_spec (ll_first s) old) as [->|Hne]; [done|].
    injection Hs as <- <-. pose proof (sum_insert _ (adder_left (ll_first s)) i _ (Add_store b (ll_first s)) Hi) as E. cbn in E.
    rw Z.eqb_refl in E. revert E. ztest. lia.
  - subst ev. rw Hi. rw /del_test in Hs. destruct (ll_first s =? 0); [done|]. injection Hs as <-. cbn. rw Z.eqb_refl. lia.
  - rw Hi. rw /del_load in Hs. apply bind_Some in Hs as (n & Hn & [= <-]). cbn. destruct (entry =? ll_first s); lia.
  - subst ev. rw Hi. rw /del_cas /cmpxchg in Hs. destruct (Z.eqb_spec (ll_first s) old) as [->|Hne]; [done|]. injection Hs as <- Hs.
    rw /del_test in Hs. destruct (ll_first s =? 0); [done|]. injection Hs as <-. cbn. rw Z.eqb_refl. ztest. lia.
Qed.

(** C15: The list is lock-free: in any state, however the threads are scheduled, among more than four accesses per thread some call completes; the
    retries of a thread are always paid for by the success of another. *)
Theorem llist_lock_free s n s' :
  nsteps (λ s s', llist_step s None s') n s s' → (n ≤ 4 * S (length (ll_adders s)))%nat.
Proof.
  intros H. assert (n + accesses_left s' ≤ accesses_left s)%nat as Hn.
  { induction H as [s|n s s1 s' H1 _ IH]; [lia|]. destruct (silent_step _ _ H1) as [? _]. lia. }
  pose proof (accesses_bound s). lia.
Qed.

(** ** Two producers that get into each other's way *)

Definition demo_sys (first : Z) (next : gmap Z Z) (a b : adder) : llist_sys :=
  {| ll_first := first; ll_next := next; ll_adders := [a; b]; ll_deleter := Del_idle |}.
Definition demo_next (x y : Z) : gmap Z Z := <[4 := x]> {[8 := y]}.

Lemma demo_empty L : chain (demo_next 0 0) 0 L → L = [].
Proof. destruct L as [|a L]; [done|]. intros [<- (n & Hn & _)]. done. Qed.

Lemma demo_enter_4 : llist_step (demo_sys 0 (demo_next 0 0) Add_idle Add_idle) None (demo_sys 0 (demo_next 0 0) (Add_store [4] 0) Add_idle).
Proof.
  apply (step_enter (demo_sys 0 (demo_next 0 0) Add_idle Add_idle) 0 [4] (demo_next 0 0)); [done|].
  split_and!; [done|by repeat constructor; set_solver|by repeat constructor|done| |done|set_solver|].
  - intros a ->%list_elem_of_singleton. by eexists.
  - intros L ->%demo_empty. set_solver.
Qed.

Lemma demo_enter_8 :
  llist_step (demo_sys 0 (demo_next 0 0) (Add_store [4] 0) Add_idle) None (demo_sys 0 (demo_next 0 0) (Add_store [4] 0) (Add_store [8] 0)).
Proof.
  apply (step_enter (demo_sys 0 (demo_next 0 0) (Add_store [4] 0) Add_idle) 1 [8] (demo_next 0 0)); [done|].
  split_and!; [done|by repeat constructor; set_solver|by repeat constructor|done| |done|set_solver|].
  - intros a ->%list_elem_of_singleton. by eexists.
  - intros L ->%demo_empty. set_solver.
Qed.

(** Both store what they loaded, NULL, behind their nodes; the first [cmpxchg] succeeds. *)
Lemma demo_store_4 :
  llist_step (demo_sys 0 (demo_next 0 0) (Add_store [4] 0) (Add_store [8] 0)) None
    (demo_sys 0 (demo_next 0 0) (Add_cas [4] 0) (Add_store [8] 0)).
Proof.
  exact (step_store (demo_sys 0 (demo_next 0 0) (Add_store [4] 0) (Add_store [8] 0)) 0 [4] 0 (demo_next 0 0)
    (Add_cas [4] 0) eq_refl eq_refl).
Qed.

Lemma demo_store_8 :
  llist_step (demo_sys 0 (demo_next 0 0) (Add_cas [4] 0) (Add_store [8] 0)) None
    (demo_sys 0 (demo_next 0 0) (Add_cas [4] 0) (Add_cas [8] 0)).
Proof.
  exact (step_store (demo_sys 0 (demo_next 0 0) (Add_cas [4] 0) (Add_store [8] 0)) 1 [8] 0 (demo_next 0 0)
    (Add_cas [8] 0) eq_refl eq_refl).
Qed.

Lemma demo_cas_4 :
  llist_step (demo_sys 0 (demo_next 0 0) (Add_cas [4] 0) (Add_cas [8] 0)) (Some (Added [4] true))
    (demo_sys 4 (demo_next 0 0) Add_idle (Add_cas [8] 0)).
Proof.
  exact (step_add_cas (demo_sys 0 (demo_next 0 0) (Add_cas [4] 0) (Add_cas [8] 0)) 0 [4] 0 4 Add_idle
    (Some (Added [4] true)) eq_refl eq_refl).
Qed.

(** The second [cmpxchg] finds 4 instead of NULL and fails: the producer stores 4 and tries again. *)
Lemma demo_retry_8 :
  llist_step (demo_sys 4 (demo_next 0 0) Add_idle (Add_cas [8] 0)) None
    (demo_sys 4 (demo_next 0 0) Add_idle (Add_store [8] 4)).
Proof.
  exact (step_add_cas (demo_sys 4 (demo_next 0 0) Add_idle (Add_cas [8] 0)) 1 [8] 0 4 (Add_store [8] 4) None
    eq_refl eq_refl).
Qed.

Lemma demo_store_again_8 :
  llist_step (demo_sys 4 (demo_next 0 0) Add_idle (Add_store [8] 4)) None
    (demo_sys 4 (demo_next 0 4) Add_idle (Add_cas [8] 4)).
Proof.
  exact (step_store (demo_sys 4 (demo_next 0 0) Add_idle (Add_store [8] 4)) 1 [8] 4 (demo_next 0 4)
    (Add_cas [8] 4) eq_refl eq_refl).
Qed.

Lemma demo_cas_8 :
  llist_step (demo_sys 4 (demo_next 0 4) Add_idle (Add_cas [8] 4)) (Some (Added [8] false))
    (demo_sys 8 (demo_next 0 4) Add_idle Add_idle).
Proof.
  exact (step_add_cas (demo_sys 4 (demo_next 0 4) Add_idle (Add_cas [8] 4)) 1 [8] 4 8 Add_idle
    (Some (Added [8] false)) eq_refl eq_refl).
Qed.

(** The whole race: both nodes get into the list. *)
Lemma demo_race :
  llist_run (demo_sys 0 (demo_next 0 0) Add_idle Add_idle) [Added [4] true; Added [8] false]
    (demo_sys 8 (demo_next 0 4) Add_idle Add_idle).
Proof.
  eapply (run_snoc _ [Added [4] true] _ (Some _)); [|exact demo_cas_8].
  eapply (run_snoc _ [Added [4] true] _ None); [|exact demo_store_again_8].
  eapply (run_snoc _ [Added [4] true] _ None); [|exact demo_retry_8].
  eapply (run_snoc _ [] _ (Some _)); [|exact demo_cas_4].
  eapply (run_snoc _ [] _ None); [|exact demo_store_8].
  eapply (run_snoc _ [] _ None); [|exact demo_store_4].
  apply (run_snoc _ [] _ None _ (run_snoc _ [] _ None _ (run_nil _) demo_enter_4) demo_enter_8).
Qed.

Lemma llist_linearizable_witness :
  ∃ L, spec_events [] [Added [4] true; Added [8] false] = Some L ∧ L = [8; 4] ∧ chain (demo_next 0 4) 8 L.
Proof.
  destruct (llist_linearizable (demo_sys 0 (demo_next 0 0) Add_idle Add_idle) [Added [4] true; Added [8] false]
    (demo_sys 8 (demo_next 0 4) Add_idle Add_idle)) as (L & E & C & _).
  - split_and!; [reflexivity|repeat constructor|reflexivity].
  - exact demo_race.
  - exists L. split; [exact E|]. split; [|exact C]. vm_compute in E. injection E as <-. reflexivity.
Defined.

(** The race again, cut at the completed call: four accesses without a completed call, the [cmpxchg] that
    completes the first one, then a failed [cmpxchg] and the store that follows it.  Both runs without
    a completed call are as short as the theorem says. *)
Lemma llist_lock_free_witness :
  let s0 := demo_sys 0 (demo_next 0 0) Add_idle Add_idle in
  let s1 := demo_sys 0 (demo_next 0 0) (Add_cas [4] 0) (Add_cas [8] 0) in
  let s2 := demo_sys 4 (demo_next 0 0) Add_idle (Add_cas [8] 0) in
  let s3 := demo_sys 4 (demo_next 0 4) Add_idle (Add_cas [8] 4) in
  nsteps (λ s s', llist_step s None s') 4 s0 s1 ∧ (4 ≤ 4 * S (length (ll_adders s0)))%nat ∧
  llist_step s1 (Some (Added [4] true)) s2 ∧
  llist_step s2 None (demo_sys 4 (demo_next 0 0) Add_idle (Add_store [8] 4)) ∧
  nsteps (λ s s', llist_step s None s') 2 s2 s3 ∧
  (∀ n s, nsteps (λ s s', llist_step s None s') n s3 s → (2 + n ≤ 4 * S (length (ll_adders s2)))%nat).
Proof.
  cbn zeta.
  assert (H1 : nsteps (λ s s', llist_step s None s') 4 (demo_sys 0 (demo_next 0 0) Add_idle Add_idle)
    (demo_sys 0 (demo_next 0 0) (Add_cas [4] 0) (Add_cas [8] 0))).
  { eapply nsteps_l; [exact demo_enter_4|]. eapply nsteps_l; [exact demo_enter_8|].
    eapply nsteps_l; [exact demo_store_4|]. eapply nsteps_l; [exact demo_store_8|]. apply nsteps_O. }
  assert (H2 : nsteps (λ s s', llist_step s None s') 2 (demo_sys 4 (demo_next 0 0) Add_idle (Add_cas [8] 0))
    (demo_sys 4 (demo_next 0 4) Add_idle (Add_cas [8] 4))).
  { eapply nsteps_l; [exact demo_retry_8|]. eapply nsteps_l; [exact demo_store_again_8|]. apply nsteps_O. }
  split; [exact H1|]. split; [exact (llist_lock_free _ _ _ H1)|]. split; [exact demo_cas_4|].
  split; [exact demo_retry_8|]. split; [exact H2|]. intros n s Hn.
  exact (llist_lock_free _ _ _ (nsteps_trans _ _ _ _ _ H2 Hn)).
Defined.

(** The comment in the source asks for a single consumer, with reason: here a second consumer takes 4 and 8 and puts 4 back while
    the first one is between its load and its [cmpxchg]; the [cmpxchg] succeeds and makes 8, which is not in the list, the first node. *)
Example two_consumers_break :
  let next0 := demo_next 8 0 in
  (d ← del_load 4 next0;
   '(e1, f1) ← llist_del_first 4 next0; '(e2, f2) ← llist_del_first f1 next0; '(e3, f3, next3) ← llist_add_batch [4] f2 next0;
   match d with Del_cas old n => Some (e1, e2, f3, next3 !! 4, (del_cas old n f3).1) | _ => None end) = Some (4, 8, 4, Some 0, 8).
Proof. vm_compute. reflexivity. Qed.
