(* ===== verification/Memblock.v ===== *)
(** * Early memory: mm/memblock.c, include/linux/memblock.h

    Two sorted arrays of regions describe the memory of the machine and the parts of it in use before the page allocator
    exists.  An array is a list of [mt_max] regions of which the first [mt_cnt] are in use; an access outside it is a fault, and so is
    a [BUG_ON] whose condition holds.  [WARN_ON] and the debug messages only print and are left out.  [phys_addr_t] has 64 bits; regions carry
    a node id (CONFIG_HAVE_MEMBLOCK_NODE_MAP). *)
From S2P Require Import Prelude.

(** ** Data *)


Definition PAGE_SIZE : Z := 4096.
(** [1 << NODES_SHIFT], the node id that stands for all nodes. *)
Definition MAX_NUMNODES : Z := 64.
Definition MEMBLOCK_ALLOC_ANYWHERE : Z := ULLONG_MAX.
Definition MEMBLOCK_ALLOC_ACCESSIBLE : Z := 0.
Definition INIT_MEMBLOCK_REGIONS : Z := 128.

Record memblock_region := { rg_base : Z; rg_size : Z; rg_nid : Z }.

(** [mt_array] is the physical address of an array that is not the static one. *)
Record memblock_type := {
  mt_cnt : Z; mt_max : Z; mt_total_size : Z; mt_regions : list memblock_region; mt_array : option Z
}.

(** Which of the two arrays. *)
Inductive memblock_kind := Memory | Reserved.

Record memblock := {
  mb_current_limit : Z; mb_memory : memblock_type; mb_reserved : memblock_type;
  mb_can_resize : bool; mb_memory_in_slab : bool; mb_reserved_in_slab : bool
}.

Definition get_type (k : memblock_kind) (mb : memblock) : memblock_type :=
  match k with Memory => mb_memory mb | Reserved => mb_reserved mb end.
Definition set_type (k : memblock_kind) (t : memblock_type) (mb : memblock) : memblock :=
  {| mb_current_limit := mb_current_limit mb;
     mb_memory := match k with Memory => t | Reserved => mb_memory mb end;
     mb_reserved := match k with Memory => mb_reserved mb | Reserved => t end;
     mb_can_resize := mb_can_resize mb; mb_memory_in_slab := mb_memory_in_slab mb; mb_reserved_in_slab := mb_reserved_in_slab mb |}.
Definition in_slab (k : memblock_kind) (mb : memblock) : bool :=
  match k with Memory => mb_memory_in_slab mb | Reserved => mb_reserved_in_slab mb end.
Definition set_in_slab (k : memblock_kind) (v : bool) (mb : memblock) : memblock :=
  {| mb_current_limit := mb_current_limit mb; mb_memory := mb_memory mb; mb_reserved := mb_reserved mb; mb_can_resize := mb_can_resize mb;
     mb_memory_in_slab := match k with Memory => v | Reserved => mb_memory_in_slab mb end;
     mb_reserved_in_slab := match k with Memory => mb_reserved_in_slab mb | Reserved => v end |}.

Definition set_regions (t : memblock_type) (cnt total : Z) (l : list memblock_region) : memblock_type :=
  {| mt_cnt := cnt; mt_max := mt_max t; mt_total_size := total; mt_regions := l; mt_array := mt_array t |}.

Definition zero_region : memblock_region := {| rg_base := 0; rg_size := 0; rg_nid := 0 |}.
Definition empty_type (max : Z) : memblock_type :=
  {| mt_cnt := 1; mt_max := max; mt_total_size := 0; mt_regions := replicate (Z.to_nat max) zero_region; mt_array := None |}.
(** The initial value of [memblock]. *)
Definition memblock_init : memblock :=
  {| mb_current_limit := MEMBLOCK_ALLOC_ANYWHERE; mb_memory := empty_type INIT_MEMBLOCK_REGIONS; mb_reserved := empty_type INIT_MEMBLOCK_REGIONS;
     mb_can_resize := false; mb_memory_in_slab := false; mb_reserved_in_slab := false |}.

(** ** Arithmetic *)

Definition memblock_cap_size (base size : Z) : Z := Z.min size (ULLONG_MAX - base).

Definition memblock_addrs_overlap (base1 size1 base2 size2 : Z) : bool :=
  (base1 <? wrap 64 (base2 + size2)) && (base2 <? wrap 64 (base1 + size1)).

Definition round_mask (y : Z) : Z := wrap 64 (y - 1).
Definition round_up (x y : Z) : Z := wrap 64 (Z.lor (wrap 64 (x - 1)) (round_mask y) + 1).
Definition round_down (x y : Z) : Z := Z.land x (bnot 64 (round_mask y)).
Definition PAGE_ALIGN (addr : Z) : Z := Z.land (wrap 64 (addr + PAGE_SIZE - 1)) (bnot 64 (PAGE_SIZE - 1)).

Definition clamp (val min max : Z) : Z := let val := if val <? min then min else val in if max <? val then max else val.

(** [rgn->base + rgn->size]. *)
Definition rg_end (r : memblock_region) : Z := wrap 64 (rg_base r + rg_size r).

(** ** Arrays of regions *)

(** [memmove(&regions[dst], &regions[src], n * sizeof( *regions))]. *)
Definition move_regions (l : list memblock_region) (dst src n : Z) : option (list memblock_region) :=
  if (0 <=? dst) && (0 <=? src) && (0 <=? n) && (dst + n <=? Z.of_nat (length l)) && (src + n <=? Z.of_nat (length l))
  then Some (take (Z.to_nat dst) l ++ take (Z.to_nat n) (drop (Z.to_nat src) l) ++ drop (Z.to_nat (dst + n)) l) else None.

Definition memblock_remove_region (t : memblock_type) (r : Z) : option memblock_type :=
  rgn ← rd (mt_regions t) r;
  let total := wrap 64 (mt_total_size t - rg_size rgn) in
  l ← move_regions (mt_regions t) r (r + 1) (mt_cnt t - (r + 1));
  let cnt := mt_cnt t - 1 in
  if cnt =? 0 then
    l ← wr l 0 {| rg_base := 0; rg_size := 0; rg_nid := MAX_NUMNODES |};
    Some (set_regions t 1 total l)
  else Some (set_regions t cnt total l).

Definition memblock_insert_region (t : memblock_type) (idx base size nid : Z) : option memblock_type :=
  if mt_max t <=? mt_cnt t then None else
  l ← move_regions (mt_regions t) (idx + 1) idx (mt_cnt t - idx);
  l ← wr l idx {| rg_base := base; rg_size := size; rg_nid := nid |};
  Some (set_regions t (mt_cnt t + 1) (wrap 64 (mt_total_size t + size)) l).

(** The number of regions moved is one too many: [regions[cnt]] is read. *)
Definition merge_step '((i, t) : Z * memblock_type) : option (ctl (Z * memblock_type) memblock_type) :=
  if negb (i <? mt_cnt t - 1) then Some (Stop t) else
  this ← rd (mt_regions t) i;
  next ← rd (mt_regions t) (i + 1);
  if negb (rg_end this =? rg_base next) || negb (rg_nid this =? rg_nid next) then
    if rg_base next <? rg_end this then None else Some (Next (i + 1, t))
  else
    l ← wr (mt_regions t) i {| rg_base := rg_base this; rg_size := wrap 64 (rg_size this + rg_size next); rg_nid := rg_nid this |};
    l ← move_regions l (i + 1) (i + 2) (mt_cnt t - (i + 1));
    Some (Next (i, set_regions t (mt_cnt t - 1) (mt_total_size t) l)).

Definition memblock_merge_regions (t : memblock_type) : option memblock_type := loop (Z.to_nat (mt_cnt t)) merge_step (0, t).

(** [for (i = 0; i < type->cnt; i++)] up to the first region that overlaps. *)
Definition memblock_overlaps_region (t : memblock_type) (base size : Z) : option Z :=
  r ← for_up (Z.to_nat (mt_cnt t)) 0
    (λ i _, rgn ← rd (mt_regions t) i;
            Some (if memblock_addrs_overlap base size (rg_base rgn) (rg_size rgn) then Stop i else Next tt)) tt;
  Some (match r with Stop i => i | Next _ => -1 end).

Definition search_step (t : memblock_type) (addr : Z) '((lo, hi) : Z * Z) : option (ctl (Z * Z) Z) :=
  let mid := (hi + lo) / 2 in
  rgn ← rd (mt_regions t) mid;
  if addr <? rg_base rgn then Some (if lo <? mid then Next (lo, mid) else Stop (-1))
  else if rg_end rgn <=? addr then Some (if mid + 1 <? hi then Next (mid + 1, hi) else Stop (-1))
  else Some (Stop mid).

Definition memblock_search (t : memblock_type) (addr : Z) : option Z := loop (S (Z.to_nat (mt_cnt t))) (search_step t addr) (0, mt_cnt t).

(** ** Adding a range *)

(** One pass over the regions counts what is needed or inserts it: the index, the base, the number and the array. *)
Notation add_state := (Z * Z * Z * memblock_type)%type.
Definition add_step (insert : bool) (end_ nid : Z) '((i, base, nr_new, t) : add_state) : option (ctl add_state add_state) :=
  if negb (i <? mt_cnt t) then Some (Stop (i, base, nr_new, t)) else
  rgn ← rd (mt_regions t) i;
  let rbase := rg_base rgn in
  let rend := rg_end rgn in
  if end_ <=? rbase then Some (Stop (i, base, nr_new, t))
  else if rend <=? base then Some (Next (i + 1, base, nr_new, t))
  else
    '(i, nr_new, t) ←
      (if base <? rbase then
         if insert then t ← memblock_insert_region t i base (rbase - base) nid; Some (i + 1, nr_new + 1, t)
         else Some (i, nr_new + 1, t)
       else Some (i, nr_new, t));
    Some (Next (i + 1, Z.min rend end_, nr_new, t)).

(** What is left behind the last region. *)
Definition add_rest (insert : bool) (end_ nid : Z) '((i, base, nr_new, t) : add_state) : option (Z * memblock_type) :=
  if base <? end_ then
    t ← (if insert then memblock_insert_region t i base (end_ - base) nid else Some t);
    Some (nr_new + 1, t)
  else Some (nr_new, t).

Definition add_pass (insert : bool) (base end_ nid : Z) (t : memblock_type) : option (Z * memblock_type) :=
  loop (S (Z.to_nat (mt_cnt t))) (add_step insert end_ nid) (0, base, 0, t) ≫= add_rest insert end_ nid.

Section operations.
(** [memblock_double_array], which calls some of the functions below. *)
Context (double_array : memblock_kind → Z → Z → memblock → option (Z * memblock)).

(** [while (type->cnt + more > type->max) if (memblock_double_array(...) < 0) return -ENOMEM;]: whether there is room now. *)
Definition make_room (k : memblock_kind) (start size more : Z) (mb : memblock) : option (bool * memblock) :=
  loop (S (Z.to_nat (mt_cnt (get_type k mb) + more)))
    (λ mb,
       if mt_max (get_type k mb) <? mt_cnt (get_type k mb) + more then
         '(r, mb) ← double_array k start size mb;
         Some (if r <? 0 then Stop (false, mb) else Next mb)
       else Some (Stop (true, mb))) mb.

Definition memblock_add_region (k : memblock_kind) (base size0 nid : Z) (mb : memblock) : option (Z * memblock) :=
  let size := memblock_cap_size base size0 in
  let end_ := base + size in
  let t := get_type k mb in
  if size =? 0 then Some (0, mb) else
  r0 ← rd (mt_regions t) 0;
  if rg_size r0 =? 0 then
    l ← wr (mt_regions t) 0 {| rg_base := base; rg_size := size; rg_nid := nid |};
    Some (0, set_type k (set_regions t (mt_cnt t) size l) mb)
  else
    '(nr_new, _) ← add_pass false base end_ nid t;
    '(room, mb) ← make_room k base size nr_new mb;
    if negb room then Some (- ENOMEM, mb) else
    '(_, t) ← add_pass true base end_ nid (get_type k mb);
    t ← memblock_merge_regions t;
    Some (0, set_type k t mb).

(** The loop of [memblock_isolate_range]: [start_rgn], [end_rgn] and the array. *)
Definition isolate_step (base end_ : Z) '((i, start_rgn, end_rgn, t) : add_state) : option (ctl add_state (Z * Z * memblock_type)) :=
  if negb (i <? mt_cnt t) then Some (Stop (start_rgn, end_rgn, t)) else
  rgn ← rd (mt_regions t) i;
  let rbase := rg_base rgn in
  let rend := rg_end rgn in
  if end_ <=? rbase then Some (Stop (start_rgn, end_rgn, t))
  else if rend <=? base then Some (Next (i + 1, start_rgn, end_rgn, t))
  else if rbase <? base then
    l ← wr (mt_regions t) i {| rg_base := base; rg_size := rg_size rgn - (base - rbase); rg_nid := rg_nid rgn |};
    t ← memblock_insert_region (set_regions t (mt_cnt t) (wrap 64 (mt_total_size t - (base - rbase))) l) i rbase (base - rbase) (rg_nid rgn);
    Some (Next (i + 1, start_rgn, end_rgn, t))
  else if end_ <? rend then
    l ← wr (mt_regions t) i {| rg_base := end_; rg_size := rg_size rgn - (end_ - rbase); rg_nid := rg_nid rgn |};
    t ← memblock_insert_region (set_regions t (mt_cnt t) (wrap 64 (mt_total_size t - (end_ - rbase))) l) i rbase (end_ - rbase) (rg_nid rgn);
    Some (Next (i - 1 + 1, start_rgn, end_rgn, t))
  else Some (Next (i + 1, (if end_rgn =? 0 then i else start_rgn), i + 1, t)).

Definition isolate_pass (base end_ : Z) (t : memblock_type) : option (Z * Z * memblock_type) :=
  loop (S (S (S (Z.to_nat (mt_cnt t))))) (isolate_step base end_) (0, 0, 0, t).

Definition memblock_isolate_range (k : memblock_kind) (base size0 : Z) (mb : memblock) : option (Z * (Z * Z) * memblock) :=
  let size := memblock_cap_size base size0 in
  let end_ := base + size in
  if size =? 0 then Some (0, (0, 0), mb) else
  '(room, mb) ← make_room k base size 2 mb;
  if negb room then Some (- ENOMEM, (0, 0), mb) else
  '(start_rgn, end_rgn, t) ← isolate_pass base end_ (get_type k mb);
  Some (0, (start_rgn, end_rgn), set_type k t mb).

(** [for (i = end_rgn - 1; i >= start_rgn; i--) memblock_remove_region(type, i);]. *)
Definition remove_step (start_rgn : Z) '((i, t) : Z * memblock_type) : option (ctl (Z * memblock_type) memblock_type) :=
  if i <? start_rgn then Some (Stop t) else t ← memblock_remove_region t i; Some (Next (i - 1, t)).
Definition remove_regions (start_rgn end_rgn : Z) (t : memblock_type) : option memblock_type :=
  loop (S (Z.to_nat (end_rgn - start_rgn))) (remove_step start_rgn) (end_rgn - 1, t).

Definition __memblock_remove (k : memblock_kind) (base size : Z) (mb : memblock) : option (Z * memblock) :=
  '(ret, (start_rgn, end_rgn), mb) ← memblock_isolate_range k base size mb;
  if negb (ret =? 0) then Some (ret, mb) else
  t ← remove_regions start_rgn end_rgn (get_type k mb);
  Some (0, set_type k t mb).

Definition memblock_add_node (base size nid : Z) : memblock → option (Z * memblock) := memblock_add_region Memory base size nid.
Definition memblock_add (base size : Z) : memblock → option (Z * memblock) := memblock_add_region Memory base size MAX_NUMNODES.
Definition memblock_remove (base size : Z) : memblock → option (Z * memblock) := __memblock_remove Memory base size.
Definition memblock_free (base size : Z) : memblock → option (Z * memblock) := __memblock_remove Reserved base size.
Definition memblock_reserve (base size : Z) : memblock → option (Z * memblock) := memblock_add_region Reserved base size MAX_NUMNODES.

(** [type->regions[i].nid = nid] for the regions of the range. *)
Definition set_nodes (start_rgn end_rgn nid : Z) (l : list memblock_region) : option (list memblock_region) :=
  for_each (Z.to_nat (end_rgn - start_rgn)) start_rgn
    (λ i l, rgn ← rd l i; wr l i {| rg_base := rg_base rgn; rg_size := rg_size rgn; rg_nid := nid |}) l.

Definition memblock_set_node (base size nid : Z) (mb : memblock) : option (Z * memblock) :=
  '(ret, (start_rgn, end_rgn), mb) ← memblock_isolate_range Memory base size mb;
  if negb (ret =? 0) then Some (ret, mb) else
  let t := mb_memory mb in
  l ← set_nodes start_rgn end_rgn nid (mt_regions t);
  t ← memblock_merge_regions (set_regions t (mt_cnt t) (mt_total_size t) l);
  Some (0, set_type Memory t mb).

(** The loop that looks for the region in which the limit is reached. *)
Definition limit_addr (limit : Z) (t : memblock_type) : option Z :=
  r ← for_up (Z.to_nat (mt_cnt t)) 0
    (λ i limit, r ← rd (mt_regions t) i;
       Some (if limit <=? rg_size r then Stop (wrap 64 (rg_base r + limit)) else Next (limit - rg_size r))) limit;
  Some (match r with Stop a => a | Next _ => ULLONG_MAX end).

Definition memblock_enforce_memory_limit (limit : Z) (mb : memblock) : option memblock :=
  if limit =? 0 then Some mb else
  max_addr ← limit_addr limit (mb_memory mb);
  '(_, mb) ← __memblock_remove Memory max_addr ULLONG_MAX mb;
  '(_, mb) ← __memblock_remove Reserved max_addr ULLONG_MAX mb;
  Some mb.
End operations.

(** ** Looking for free memory *)

(** The area before reserved region [ri]: from the end of the one before to its start. *)
Definition gap_bounds (rsv : memblock_type) (ri : Z) : option (Z * Z) :=
  r_start ← (if negb (ri =? 0) then r ← rd (mt_regions rsv) (ri - 1); Some (rg_end r) else Some 0);
  r_end ← (if ri <? mt_cnt rsv then r ← rd (mt_regions rsv) ri; Some (rg_base r) else Some ULLONG_MAX);
  Some (r_start, r_end).

Definition pack_idx (mi ri : Z) : Z := Z.lor (wrap 32 mi) (wrap 64 (Z.shiftl ri 32)).

(** The new index and, unless the iteration is over, the start, the end and the node of an area. *)
Definition __next_free_mem_range (mb : memblock) (idx nid : Z) : option (Z * option (Z * Z * Z)) :=
  let mem := mb_memory mb in
  let rsv := mb_reserved mb in
  loop (S (Z.to_nat (mt_cnt mem)))
    (λ '(mi, ri),
       if negb (mi <? mt_cnt mem) then Some (Stop (ULLONG_MAX, None)) else
       m ← rd (mt_regions mem) mi;
       if negb (nid =? MAX_NUMNODES) && negb (nid =? rg_nid m) then Some (Next (mi + 1, ri)) else
       r ← loop (S (S (Z.to_nat (mt_cnt rsv))))
         (λ ri,
            if negb (ri <? mt_cnt rsv + 1) then Some (Stop (inl ri)) else
            '(r_start, r_end) ← gap_bounds rsv ri;
            if rg_end m <=? r_start then Some (Stop (inl ri))
            else if rg_base m <? r_end then
              Some (Stop (inr (ri, (Z.max (rg_base m) r_start, Z.min (rg_end m) r_end, rg_nid m), rg_end m <=? r_end)))
            else Some (Next (ri + 1))) ri;
       Some (match r with
             | inl ri => Next (mi + 1, ri)
             | inr (ri, area, mem_first) =>
                 Stop (if mem_first : bool then pack_idx (mi + 1) ri else pack_idx mi (ri + 1), Some area)
             end))
    (swrap 32 (Z.land idx 0xffffffff), swrap 32 (Z.shiftr idx 32)).

(** The inner loop: the reservation at which it stops, and the area found there with whether the memory region is used up. *)
Definition rev_inner (rsv : memblock_type) (m : memblock_region) (ri : Z) : option (ctl Z (Z + Z * (Z * Z * Z) * bool)) :=
  if ri <? 0 then Some (Stop (inl ri)) else
  '(r_start, r_end) ← gap_bounds rsv ri;
  if r_end <=? rg_base m then Some (Stop (inl ri))
  else if r_start <? rg_end m then
    Some (Stop (inr (ri, (Z.max (rg_base m) r_start, Z.min (rg_end m) r_end, rg_nid m), r_start <=? rg_base m)))
  else Some (Next (ri - 1)).

Definition rev_outer (mem rsv : memblock_type) (nid : Z) '((mi, ri) : Z * Z) : option (ctl (Z * Z) (Z * option (Z * Z * Z))) :=
  if mi <? 0 then Some (Stop (ULLONG_MAX, None)) else
  m ← rd (mt_regions mem) mi;
  if negb (nid =? MAX_NUMNODES) && negb (nid =? rg_nid m) then Some (Next (mi - 1, ri)) else
  r ← loop (S (S (Z.to_nat (mt_cnt rsv)))) (rev_inner rsv m) ri;
  Some (match r with
        | inl ri => Next (mi - 1, ri)
        | inr (ri, area, mem_first) =>
            Stop (if mem_first : bool then pack_idx (mi - 1) ri else pack_idx mi (ri - 1), Some area)
        end).

Definition __next_free_mem_range_rev (mb : memblock) (idx nid : Z) : option (Z * option (Z * Z * Z)) :=
  let mem := mb_memory mb in
  let rsv := mb_reserved mb in
  loop (S (Z.to_nat (mt_cnt mem))) (rev_outer mem rsv nid)
    (if idx =? ULLONG_MAX then (mt_cnt mem - 1, mt_cnt rsv) else (swrap 32 (Z.land idx 0xffffffff), swrap 32 (Z.shiftr idx 32))).

(** One iteration of the search. *)
Definition find_step (start end_ size align nid : Z) (mb : memblock) (idx : Z) : option (ctl Z Z) :=
  '(idx, area) ← __next_free_mem_range_rev mb idx nid;
  match area with
  | None => Some (Stop 0)
  | Some (s, e, _) =>
      if idx =? ULLONG_MAX then Some (Stop 0) else
      let this_start := clamp s start end_ in
      let this_end := clamp e start end_ in
      if this_end <? size then Some (Next idx) else
      let cand := round_down (this_end - size) align in
      Some (if this_start <=? cand then Stop cand else Next idx)
  end.

(** Every call of the iterator moves one of the two indices. *)
Definition memblock_find_in_range_node (start0 end0 size align nid : Z) (mb : memblock) : option Z :=
  let end1 := if end0 =? MEMBLOCK_ALLOC_ACCESSIBLE then mb_current_limit mb else end0 in
  let start := Z.max start0 PAGE_SIZE in
  let end_ := Z.max start end1 in
  loop (S (S (Z.to_nat (mt_cnt (mb_memory mb)) + Z.to_nat (mt_cnt (mb_reserved mb)))))
    (find_step start end_ size align nid mb) ULLONG_MAX.

Definition memblock_find_in_range (start end_ size align : Z) : memblock → option Z :=
  memblock_find_in_range_node start end_ size align MAX_NUMNODES.

(** ** Page frames *)

Definition PAGE_SHIFT : Z := 12.
Definition PFN_UP (x : Z) : Z := Z.shiftr (wrap 64 (x + PAGE_SIZE - 1)) PAGE_SHIFT.
Definition PFN_DOWN (x : Z) : Z := Z.shiftr x PAGE_SHIFT.

(** The next region of the node with a whole page: the index, the frames and the node; index -1 at the end. *)
Definition __next_mem_pfn_range (mb : memblock) (idx nid : Z) : option (Z * option (Z * Z * Z)) :=
  let t := mb_memory mb in
  loop (S (Z.to_nat (mt_cnt t)))
    (λ idx,
       let idx := idx + 1 in
       if negb (idx <? mt_cnt t) then Some (Stop (-1, None)) else
       r ← rd (mt_regions t) idx;
       if PFN_DOWN (rg_end r) <=? PFN_UP (rg_base r) then Some (Next idx)
       else if (nid =? MAX_NUMNODES) || (nid =? rg_nid r) then Some (Stop (idx, Some (PFN_UP (rg_base r), PFN_DOWN (rg_end r), rg_nid r)))
       else Some (Next idx)) idx.

(** ** Doubling an array *)

Definition sizeof_memblock_region : Z := 24.

(** The size and the address of a reserved array that is not the static one. *)
Definition get_allocated_memblock_reserved_regions_info (mb : memblock) : Z * option Z :=
  match mt_array (mb_reserved mb) with
  | None => (0, None)
  | Some addr => (PAGE_ALIGN (wrap 64 (sizeof_memblock_region * mt_max (mb_reserved mb))), Some addr)
  end.

(** The slab allocator: whether it is up, and the address it returns, 0 if it fails. *)
Record slab_env := { slab_is_available : bool; kmalloc_pa : Z → Z }.

(** The calls go at most from the memory array to the reserved array and to itself once more. *)
Fixpoint memblock_double_array (env : slab_env) (fuel : nat) (k : memblock_kind) (new_area_start0 new_area_size0 : Z) (mb : memblock)
  : option (Z * memblock) :=
  match fuel with
  | O => None
  | S fuel =>
      if negb (mb_can_resize mb) then Some (-1, mb) else
      let t := get_type k mb in
      let old_size := wrap 64 (mt_max t * sizeof_memblock_region) in
      let new_size := wrap 64 (Z.shiftl old_size 1) in
      let old_alloc_size := PAGE_ALIGN old_size in
      let new_alloc_size := PAGE_ALIGN new_size in
      addr ←
        (if slab_is_available env then Some (kmalloc_pa env new_size)
         else
           let '(st, sz) := match k with Reserved => (new_area_start0, new_area_size0) | Memory => (0, 0) end in
           addr ← memblock_find_in_range (wrap 64 (st + sz)) (mb_current_limit mb) new_alloc_size PAGE_SIZE mb;
           if (addr =? 0) && negb (sz =? 0)
           then memblock_find_in_range 0 (Z.min st (mb_current_limit mb)) new_alloc_size PAGE_SIZE mb else Some addr);
      if addr =? 0 then Some (-1, mb) else
      let l := mt_regions t ++ replicate (Z.to_nat (mt_max t)) zero_region in
      let mb := set_type k {| mt_cnt := mt_cnt t; mt_max := mt_max t * 2; mt_total_size := mt_total_size t; mt_regions := l; mt_array := Some addr |} mb in
      mb ← (if in_slab k mb then Some mb
            else match mt_array t with
                 | None => Some mb
                 | Some old => '(_, mb) ← memblock_free (memblock_double_array env fuel) old old_alloc_size mb; Some mb
                 end);
      mb ← (if slab_is_available env then Some mb
            else '(r, mb) ← memblock_reserve (memblock_double_array env fuel) addr new_alloc_size mb; if negb (r =? 0) then None else Some mb);
      Some (0, set_in_slab k (slab_is_available env) mb)
  end.

(** ** Allocation *)

Section allocation.
Context (double_array : memblock_kind → Z → Z → memblock → option (Z * memblock)).

Definition memblock_alloc_base_nid (size0 align max_addr nid : Z) (mb : memblock) : option (Z * memblock) :=
  let size := round_up size0 align in
  found ← memblock_find_in_range_node 0 max_addr size align nid mb;
  if found =? 0 then Some (0, mb) else
  '(r, mb) ← memblock_reserve double_array found size mb;
  Some (if r =? 0 then found else 0, mb).

Definition memblock_alloc_nid (size align nid : Z) : memblock → option (Z * memblock) :=
  memblock_alloc_base_nid size align MEMBLOCK_ALLOC_ACCESSIBLE nid.
Definition __memblock_alloc_base (size align max_addr : Z) : memblock → option (Z * memblock) :=
  memblock_alloc_base_nid size align max_addr MAX_NUMNODES.
(** [panic] is a fault. *)
Definition memblock_alloc_base (size align max_addr : Z) (mb : memblock) : option (Z * memblock) :=
  '(alloc, mb) ← __memblock_alloc_base size align max_addr mb; if alloc =? 0 then None else Some (alloc, mb).
Definition memblock_alloc (size align : Z) : memblock → option (Z * memblock) := memblock_alloc_base size align MEMBLOCK_ALLOC_ACCESSIBLE.
Definition memblock_alloc_try_nid (size align nid : Z) (mb : memblock) : option (Z * memblock) :=
  '(res, mb) ← memblock_alloc_nid size align nid mb;
  if negb (res =? 0) then Some (res, mb) else memblock_alloc_base size align MEMBLOCK_ALLOC_ACCESSIBLE mb.
End allocation.

(** ** Questions *)

Definition memblock_phys_mem_size (mb : memblock) : Z := mt_total_size (mb_memory mb).
Definition memblock_start_of_DRAM (mb : memblock) : option Z := r ← rd (mt_regions (mb_memory mb)) 0; Some (rg_base r).
Definition memblock_end_of_DRAM (mb : memblock) : option Z :=
  r ← rd (mt_regions (mb_memory mb)) (mt_cnt (mb_memory mb) - 1); Some (rg_end r).
Definition memblock_is_reserved (addr : Z) (mb : memblock) : option bool := i ← memblock_search (mb_reserved mb) addr; Some (negb (i =? -1)).
Definition memblock_is_memory (addr : Z) (mb : memblock) : option bool := i ← memblock_search (mb_memory mb) addr; Some (negb (i =? -1)).
Definition memblock_is_region_memory (base size : Z) (mb : memblock) : option bool :=
  idx ← memblock_search (mb_memory mb) base;
  let end_ := base + memblock_cap_size base size in
  if idx =? -1 then Some false else
  r ← rd (mt_regions (mb_memory mb)) idx;
  Some ((rg_base r <=? base) && (end_ <=? rg_end r)).
Definition memblock_is_region_reserved (base size : Z) (mb : memblock) : option bool :=
  i ← memblock_overlaps_region (mb_reserved mb) base (memblock_cap_size base size); Some (0 <=? i).

Definition memblock_set_current_limit (limit : Z) (mb : memblock) : memblock :=
  {| mb_current_limit := limit; mb_memory := mb_memory mb; mb_reserved := mb_reserved mb; mb_can_resize := mb_can_resize mb;
     mb_memory_in_slab := mb_memory_in_slab mb; mb_reserved_in_slab := mb_reserved_in_slab mb |}.
Definition memblock_allow_resize (mb : memblock) : memblock :=
  {| mb_current_limit := mb_current_limit mb; mb_memory := mb_memory mb; mb_reserved := mb_reserved mb; mb_can_resize := true;
     mb_memory_in_slab := mb_memory_in_slab mb; mb_reserved_in_slab := mb_reserved_in_slab mb |}.

(** ** A small machine *)

Definition no_slab : slab_env := {| slab_is_available := false; kmalloc_pa := λ _, 0 |}.
Definition live_regions (t : memblock_type) : list (Z * Z) := (λ r, (rg_base r, rg_size r)) <$> take (Z.to_nat (mt_cnt t)) (mt_regions t).

Example memblock_demo :
  let d := memblock_double_array no_slab 4 in
  ('(_, mb) ← memblock_add d 0x1000 0x9f000 memblock_init;
   '(_, mb) ← memblock_add d 0x100000 0x700000 mb;
   '(_, mb) ← memblock_add d 0x90000 0x10000 mb;
   '(_, mb) ← memblock_reserve d 0x100000 0x200000 mb;
   '(a, mb) ← memblock_alloc d 0x3000 0x1000 mb;
   '(_, mb) ← memblock_free d 0x180000 0x1000 mb;
   m ← memblock_is_region_memory 0x2000 0x1000 mb;
   Some (a, m, live_regions (mb_memory mb), live_regions (mb_reserved mb))) =
  Some (0x7fd000, true, [(0x1000, 0x9f000); (0x100000, 0x700000)],
        [(0x100000, 0x80000); (0x181000, 0x17f000); (0x7fd000, 0x3000)]).
Proof. vm_compute. reflexivity. Qed.

(** With resizing allowed, the arrays grow into memory that is then reserved. *)
Example memblock_resize_demo :
  let d := memblock_double_array no_slab 4 in
  let mb0 := {| mb_current_limit := 0x800000; mb_memory := empty_type 8; mb_reserved := empty_type 4;
                mb_can_resize := true; mb_memory_in_slab := false; mb_reserved_in_slab := false |} in
  ('(_, mb) ← memblock_add d 0x1000 0x7ff000 mb0;
   '(_, mb) ← memblock_reserve d 0x10000 0x1000 mb; '(_, mb) ← memblock_reserve d 0x20000 0x1000 mb;
   '(_, mb) ← memblock_reserve d 0x30000 0x1000 mb; '(_, mb) ← memblock_reserve d 0x40000 0x1000 mb;
   '(r, mb) ← memblock_reserve d 0x50000 0x1000 mb;
   Some (r, mt_max (mb_reserved mb), live_regions (mb_reserved mb))) =
  Some (0, 8, [(0x10000, 0x1000); (0x20000, 0x1000); (0x30000, 0x1000); (0x40000, 0x1000); (0x50000, 0x1000); (0x7ff000, 0x1000)]).
Proof. vm_compute. reflexivity. Qed.

(** The merge reads behind a full array: filling the gap between two regions of an array of three. *)
Example merge_reads_behind_array :
  let d := memblock_double_array no_slab 4 in
  let mb0 := {| mb_current_limit := ULLONG_MAX; mb_memory := empty_type 3; mb_reserved := empty_type 3;
                mb_can_resize := false; mb_memory_in_slab := false; mb_reserved_in_slab := false |} in
  ('(_, mb) ← memblock_add d 0x1000 0x1000 mb0; '(_, mb) ← memblock_add d 0x3000 0x1000 mb; memblock_add d 0x2000 0x1000 mb) = None.
Proof. vm_compute. reflexivity. Qed.
