(* ===== verification/MemblockRep.v ===== *)
(** * Early memory: what the arrays of regions stand for

    A sorted list of regions stands for a map from addresses to nodes ([owner]).  This file has the arrays as lists ([array]), the
    primitive operations on them, and merging. *)
From S2P Require Import Prelude Memblock.

(** ** Lists of regions *)

Notation rg_top r := (rg_base r + rg_size r).

Definition region_ok (r : memblock_region) : Prop := 0 ≤ rg_base r ∧ 0 ≤ rg_size r ∧ rg_top r ≤ ULLONG_MAX.

(** Sorted and disjoint, from address [lo] on. *)
Fixpoint sorted (lo : Z) (l : list memblock_region) : Prop :=
  match l with [] => True | r :: l => lo ≤ rg_base r ∧ region_ok r ∧ sorted (rg_top r) l end.

(** The node of the region that contains an address. *)
Definition within (r : memblock_region) (x : Z) : bool := (rg_base r <=? x) && (x <? rg_top r).
Fixpoint owner (l : list memblock_region) (x : Z) : option Z :=
  match l with [] => None | r :: l => if within r x then Some (rg_nid r) else owner l x end.

Fixpoint sizes (l : list memblock_region) : Z := match l with [] => 0 | r :: l => rg_size r + sizes l end.

(** Two neighbours that belong together. *)
Definition adjacent (r r' : memblock_region) : bool := (rg_top r =? rg_base r') && (rg_nid r =? rg_nid r').
Fixpoint minimal (l : list memblock_region) : Prop :=
  match l with r :: ((r' :: _) as l') => adjacent r r' = false ∧ minimal l' | _ => True end.

#[export] Instance memblock_region_eq_dec : EqDecision memblock_region.
Proof. solve_decision. Defined.

Notation positive := (Forall (λ r, 0 < rg_size r)).

Lemma within_spec r x : within r x = true ↔ rg_base r ≤ x < rg_top r.
Proof. rw /within. rewrite -> andb_true_iff, Z.leb_le, Z.ltb_lt. lia. Qed.

Lemma sorted_mono lo lo' l : lo' ≤ lo → sorted lo l → sorted lo' l.
Proof. destruct l as [|r l]; cbn; [done|]. intros ? (? & ? & ?). split_and!; [lia|done|done]. Qed.

Lemma sorted_app lo l1 l2 : sorted lo (l1 ++ l2) → sorted lo l1 ∧ sorted lo l2.
Proof.
  revert lo. induction l1 as [|r l1 IH]; intros lo; cbn; [done|]. intros (H1 & H2 & H3). destruct (IH _ H3) as [H4 H5]. destruct H2 as (? & ? & ?).
  split; [split_and!; done|]. eapply sorted_mono; [|exact H5]. lia.
Qed.

Lemma sorted_ok lo l r : sorted lo l → r ∈ l → region_ok r ∧ lo ≤ rg_base r.
Proof.
  revert lo. induction l as [|r' l IH]; intros lo; cbn; [set_solver|]. intros (H1 & H2 & H3) [->|Hr]%elem_of_cons; [done|].
  destruct (IH _ H3 Hr) as [H4 H5]. split; [done|]. destruct H2 as (? & ? & ?). lia.
Qed.

Lemma rg_end_top r : region_ok r → rg_end r = rg_top r.
Proof. intros (? & ? & ?). rw /ULLONG_MAX in H1. rw /rg_end. apply wrap_small. split; lia. Qed.

Lemma owner_app l1 l2 x : owner (l1 ++ l2) x = match owner l1 x with Some n => Some n | None => owner l2 x end.
Proof. induction l1 as [|r l1 IH]; cbn; [done|]. by destruct (within r x). Qed.

Lemma owner_below lo l x : sorted lo l → x < lo → owner l x = None.
Proof.
  revert lo. induction l as [|r l IH]; intros lo; cbn; [done|]. intros (H1 & (? & ? & ?) & H3) Hx. rw /within. ztest. cbn [andb].
  eapply IH; [exact H3|lia].
Qed.

Lemma owner_above l x hi : (∀ r, r ∈ l → rg_top r ≤ hi) → hi ≤ x → owner l x = None.
Proof.
  induction l as [|r l IH]; cbn; [done|]. intros Hl Hx. specialize (Hl r ltac:(set_solver)) as Hr. rw /within.
  destruct (Z.leb_spec (rg_base r) x); cbn [andb]; ztest; apply IH; set_solver.
Qed.

(** A region of a sorted list owns its addresses. *)
Lemma owner_in lo l r x : sorted lo l → r ∈ l → rg_base r ≤ x < rg_top r → owner l x = Some (rg_nid r).
Proof.
  revert lo. induction l as [|r' l IH]; intros lo; cbn; [set_solver|]. intros (H1 & H2 & H3) [->|Hr]%elem_of_cons Hx.
  - by rewrite -> (proj2 (within_spec r' x)).
  - destruct (sorted_ok _ _ _ H3 Hr) as [_ Hlo]. destruct (within r' x) eqn:E; [apply within_spec in E; lia|]. by eapply IH.
Qed.

Lemma owner_Some l x n : owner l x = Some n → ∃ r, r ∈ l ∧ rg_base r ≤ x < rg_top r ∧ rg_nid r = n.
Proof.
  induction l as [|r l IH]; cbn; [done|]. destruct (within r x) eqn:E.
  - intros [= <-]. apply within_spec in E. exists r. set_solver.
  - intros H. destruct (IH H) as (r' & ? & ?). exists r'. set_solver.
Qed.

Lemma sizes_app l1 l2 : sizes (l1 ++ l2) = sizes l1 + sizes l2.
Proof. induction l1 as [|r l1 IH]; cbn; lia. Qed.

Lemma sizes_bound lo l : 0 ≤ lo ≤ ULLONG_MAX → sorted lo l → 0 ≤ sizes l ≤ ULLONG_MAX - lo.
Proof.
  revert lo. induction l as [|r l IH]; intros lo Hlo; cbn; [lia|]. intros (H1 & (? & ? & ?) & H3). specialize (IH (rg_top r) ltac:(lia) H3). lia.
Qed.

(** ** Arrays *)

(** The array holds [L] and has room for [room] more regions. *)
Definition array (t : memblock_type) (L : list memblock_region) (room : nat) : Prop :=
  ∃ rest, mt_regions t = L ++ rest ∧ length rest = room ∧ mt_cnt t = Z.of_nat (length L) ∧ mt_max t = Z.of_nat (length L + room) ∧
    mt_total_size t = wrap 64 (sizes L).

Lemma array_rd t pre r suf room k : array t (pre ++ r :: suf) room → k = Z.of_nat (length pre) → rd (mt_regions t) k = Some r.
Proof. intros (rest & -> & _) ->. rewrite <- app_assoc. cbn. by apply rd_middle. Qed.

Lemma move_regions_ok (a b c d : list memblock_region) dst src n :
  dst = Z.of_nat (length a) → src = Z.of_nat (length b) → n = Z.of_nat (length c) → ∀ l, l = b ++ c ++ d → take (length a) l = a → (length a ≤ length l)%nat →
  (length a + length c ≤ length l)%nat →
  move_regions l dst src n = Some (a ++ c ++ drop (length a + length c) l).
Proof.
  intros -> -> -> l El Ha Hla Hlen. rw /move_regions.
  assert (length l = length b + length c + length d)%nat as Hl by (rw El !length_app; lia).
  rewrite -> !(proj2 (Z.leb_le _ _)) by lia. cbn [andb]. rewrite -> !Nat2Z.id, Ha.
  replace (Z.to_nat (Z.of_nat (length a) + Z.of_nat (length c))) with (length a + length c)%nat by lia.
  rewrite -> El at 1. rewrite -> drop_app_length', take_app_length' by done. done.
Qed.

Lemma wrap_sizes x y : wrap 64 (wrap 64 x + y) = wrap 64 (x + y).
Proof. rw /wrap. by rewrite Zplus_mod_idemp_l. Qed.

Lemma insert_ok t pre suf room idx base size nid :
  array t (pre ++ suf) (S room) → idx = Z.of_nat (length pre) →
  ∃ t', memblock_insert_region t idx base size nid = Some t' ∧
    array t' (pre ++ {| rg_base := base; rg_size := size; rg_nid := nid |} :: suf) room ∧ mt_array t' = mt_array t.
Proof.
  intros (rest & Er & Hr & Hc & Hm & Ht) ->. destruct rest as [|x rest]; [done|]. injection Hr as Hr. rw /memblock_insert_region Hc Hm !length_app.
  ztest. rw Er.
  rewrite -> (move_regions_ok (pre ++ take 1 (suf ++ x :: rest)) pre suf (x :: rest)).
  2: { rw length_app length_take length_app. cbn [length]. lia. }
  2-3: lia.
  2: by rewrite -> app_assoc.
  2: { rewrite <- app_assoc. rw length_app length_take length_app. cbn [length]. replace (1 `min` (length suf + S (length rest)))%nat with 1%nat by lia.
       rewrite -> take_app_add. done. }
  2-3: rewrite -> !length_app, ?length_take, ?length_app; cbn [length]; lia.
  cbn [mbind option_bind].
  assert (∃ z zs, (pre ++ take 1 (suf ++ x :: rest)) ++ suf ++ drop (length (pre ++ take 1 (suf ++ x :: rest)) + length suf) ((pre ++ suf) ++ x :: rest) =
    pre ++ z :: zs ∧ zs = suf ++ rest) as (z & zs & -> & ->).
  { rewrite -> length_app, length_take, length_app. cbn [length]. replace (1 `min` (length suf + S (length rest)))%nat with 1%nat by lia.
    replace (length pre + 1 + length suf)%nat with (length (pre ++ suf) + 1)%nat by (rewrite -> length_app; lia). rewrite -> drop_app_add. cbn [drop].
    destruct suf as [|z suf]; cbn; [exists x, rest|exists z, (z :: suf ++ rest)]; rewrite <- app_assoc; done. }
  rewrite -> wr_middle by done. cbn [mbind option_bind]. eexists. split; [done|]. split; [|done]. exists rest. cbn.
  split_and!; [by rewrite <- app_assoc|done|rewrite -> !length_app in *; cbn; lia|rewrite -> !length_app in *; cbn; lia|].
  rw Ht wrap_sizes !sizes_app. cbn. f_equal. lia.
Qed.

(** Region [i] changed by itself. *)
Lemma replace_ok t pre r r' suf room idx tot :
  array t (pre ++ r :: suf) room → idx = Z.of_nat (length pre) → tot = wrap 64 (sizes (pre ++ r' :: suf)) →
  ∃ l, wr (mt_regions t) idx r' = Some l ∧ array (set_regions t (mt_cnt t) tot l) (pre ++ r' :: suf) room.
Proof.
  intros (rest & Er & Hr & Hc & Hm & Ht) -> ->. exists (pre ++ r' :: suf ++ rest). rewrite -> Er, <- app_assoc. cbn.
  rewrite -> wr_middle by done. split; [done|]. exists rest. cbn. rewrite -> !length_app in *. cbn [length] in *.
  split_and!; [by rewrite <- app_assoc|done|lia|lia|done].
Qed.

(** The entry that stands for an empty list. *)
Definition dummy : memblock_region := {| rg_base := 0; rg_size := 0; rg_nid := MAX_NUMNODES |}.

Lemma remove_ok t pre r suf room idx :
  array t (pre ++ r :: suf) room → idx = Z.of_nat (length pre) →
  ∃ t', memblock_remove_region t idx = Some t' ∧ mt_array t' = mt_array t ∧
    match pre ++ suf with [] => array t' [dummy] room | L => array t' L (S room) end.
Proof.
  intros (rest & Er & Hr & Hc & Hm & Ht) ->. rewrite -> !length_app in *. cbn [length] in *. rw /memblock_remove_region Er.
  rewrite <- app_assoc. cbn [app]. rewrite -> rd_middle by done. cbn [mbind option_bind]. rw Hc.
  rewrite -> (move_regions_ok pre (pre ++ [r]) suf rest); first last.
  1-2: rewrite -> ?length_app; cbn [length]; rewrite -> ?length_app; lia.
  { by rewrite -> take_app_length. }
  { by rewrite <- app_assoc. }
  { lia. }
  { rewrite -> length_app. cbn. lia. }
  { done. }
  cbn [mbind option_bind]. rewrite -> drop_app_add.
  assert (∃ x, drop (length suf) (r :: suf ++ rest) = x :: rest) as (x & ->).
  { destruct (exists_last (l := r :: suf)) as (p & y & Ep); [done|]. exists y. change (r :: suf ++ rest) with ((r :: suf) ++ rest). rw Ep.
    rewrite <- app_assoc. apply drop_app_length'. apply (f_equal length) in Ep. rewrite -> length_app in Ep. cbn in Ep. lia. }
  assert (wrap 64 (mt_total_size t - rg_size r) = wrap 64 (sizes (pre ++ suf))) as Etot.
  { rw Ht /Z.sub wrap_sizes !sizes_app. cbn. f_equal. lia. }
  assert (length pre + length suf = length (pre ++ suf))%nat as Elen by (by rewrite -> length_app). rewrite -> app_assoc, Etot.
  destruct (pre ++ suf) as [|z L]; cbn [length app] in *.
  - ztest. cbn. eexists. split_and!; [done|done|]. exists rest. cbn. split_and!; [done|done|done|lia|done].
  - ztest. eexists. split_and!; [done|done|]. exists (x :: rest). cbn. split_and!; [done|lia|lia|lia|done].
Qed.

(** An empty list is stored as one empty entry. *)
Definition stored (l : list memblock_region) : list memblock_region := match l with [] => [dummy] | _ => l end.

Lemma stored_owner l x : owner (stored l) x = owner l x.
Proof. destruct l; [|done]. cbn. rw /within. cbn. repeat case_if; try done. lia. Qed.

Lemma remove_stored t pre r suf room idx :
  array t (pre ++ r :: suf) room → idx = Z.of_nat (length pre) →
  ∃ t' room', memblock_remove_region t idx = Some t' ∧ mt_array t' = mt_array t ∧ array t' (stored (pre ++ suf)) room' ∧
    (length (stored (pre ++ suf)) + room' = S (length (pre ++ suf)) + room)%nat.
Proof.
  intros Ha Hi. destruct (remove_ok t pre r suf room idx Ha Hi) as (t' & Hr & Harr & Ha'). exists t', (match pre ++ suf with [] => room | _ => S room end).
  destruct (pre ++ suf); cbn in *; split_and!; done || lia.
Qed.

(** ** Merging *)

Definition join (r r' : memblock_region) : memblock_region := {| rg_base := rg_base r; rg_size := rg_size r + rg_size r'; rg_nid := rg_nid r |}.

Fixpoint merge_from (r : memblock_region) (l : list memblock_region) : list memblock_region :=
  match l with
  | [] => [r]
  | r' :: l => if adjacent r r' then merge_from (join r r') l else r :: merge_from r' l
  end.

Lemma adjacent_spec r r' : adjacent r r' = true ↔ rg_top r = rg_base r' ∧ rg_nid r = rg_nid r'.
Proof. rw /adjacent. by rewrite -> andb_true_iff, !Z.eqb_eq. Qed.

Lemma merge_sizes r l : sizes (merge_from r l) = sizes (r :: l).
Proof. revert r. induction l as [|r' l IH]; intros r; cbn; [done|]. destruct (adjacent r r'); cbn; rw IH; cbn; lia. Qed.

Lemma merge_length r l : (1 ≤ length (merge_from r l) ≤ S (length l))%nat.
Proof.
  revert r. induction l as [|r' l IH]; intros r; cbn; [lia|]. destruct (adjacent r r'); [specialize (IH (join r r'))|specialize (IH r')]; cbn; lia.
Qed.

Lemma sorted_join lo r r' l : sorted lo (r :: r' :: l) → adjacent r r' = true → sorted lo (join r r' :: l).
Proof.
  cbn. rw /region_ok. intros (Hl & (? & ? & ?) & Hb & (? & ? & ?) & Hs) [E _]%adjacent_spec. cbn.
  split_and!; try lia. replace (rg_base r + (rg_size r + rg_size r')) with (rg_top r') by lia. done.
Qed.

Lemma merge_sorted lo r l : sorted lo (r :: l) → sorted lo (merge_from r l).
Proof.
  revert lo r. induction l as [|r' l IH]; intros lo r Hs; [done|]. cbn [merge_from]. destruct (adjacent r r') eqn:E.
  - apply IH. by apply sorted_join.
  - destruct Hs as (H1 & H2 & H3). split_and!; [done|done|by apply IH].
Qed.

Lemma merge_owner lo r l x : sorted lo (r :: l) → owner (merge_from r l) x = owner (r :: l) x.
Proof.
  revert lo r. induction l as [|r' l IH]; intros lo r Hs; [done|]. cbn [merge_from]. destruct (adjacent r r') eqn:E.
  - rewrite -> (IH lo) by (by apply sorted_join). apply adjacent_spec in E as [E1 E2]. destruct Hs as (Hl & (? & ? & ?) & Hb & (? & ? & ?) & Hs).
    cbn. rw /within. cbn. repeat case_if; rewrite -> ?E2; try done; lia.
  - destruct Hs as (H1 & H2 & H3). cbn [owner]. by rewrite -> (IH (rg_top r)).
Qed.

Lemma merge_head r l : ∃ r' l', merge_from r l = r' :: l' ∧ rg_base r' = rg_base r ∧ rg_nid r' = rg_nid r.
Proof.
  revert r. induction l as [|r' l IH]; intros r; cbn; [by exists r, []|]. destruct (adjacent r r'); [|by exists r, (merge_from r' l)].
  destruct (IH (join r r')) as (? & ? & -> & ? & ?). eauto.
Qed.

Lemma merge_minimal r l : minimal (merge_from r l).
Proof.
  revert r. induction l as [|r' l IH]; intros r; cbn [merge_from]; [done|]. destruct (adjacent r r') eqn:E; [apply IH|].
  specialize (IH r'). destruct (merge_head r' l) as (r2 & l2 & E2 & Hb & Hn). rw E2 in IH. rw E2. split; [|done].
  rw /adjacent Hb Hn. exact E.
Qed.

Lemma merge_pos r l : positive (r :: l) → positive (merge_from r l).
Proof.
  revert r. induction l as [|r' l IH]; intros r Hf; [done|]. cbn [merge_from]. apply Forall_cons in Hf as [Hr [Hr' Hl]%Forall_cons].
  destruct (adjacent r r'); [apply IH|]; constructor; try done; [cbn; lia|]. apply IH. by constructor.
Qed.

(** One merge: the regions behind are moved down, together with one entry that is not in use. *)
Lemma merge_move t pre r r' suf room :
  array t (pre ++ r :: r' :: suf) room → (1 ≤ room)%nat →
  ∃ l l', wr (mt_regions t) (Z.of_nat (length pre)) (join r r') = Some l ∧
    move_regions l (Z.of_nat (length pre) + 1) (Z.of_nat (length pre) + 2) (mt_cnt t - (Z.of_nat (length pre) + 1)) = Some l' ∧
    array (set_regions t (mt_cnt t - 1) (mt_total_size t) l') (pre ++ join r r' :: suf) (S room).
Proof.
  intros (rest & Er & Hr & Hc & Hm & Ht) Hroom. destruct rest as [|x rest]; [cbn in Hr; lia|]. cbn [length] in Hr.
  rewrite -> Er, <- app_assoc. cbn [app]. rewrite -> wr_middle by done. eexists _, (pre ++ join r r' :: suf ++ x :: x :: rest). split; [done|].
  rewrite -> !length_app in *. cbn [length] in *. split.
  - rewrite -> (move_regions_ok (pre ++ [join r r']) (pre ++ [join r r'; r']) (suf ++ [x]) rest);
      rewrite -> ?length_app; cbn [length]; rewrite -> ?length_app; cbn [length]; try lia.
    + f_equal. replace (length pre + 1 + (length suf + 1))%nat with (length pre + (length suf + 2))%nat by lia.
      rewrite -> drop_app_add. rewrite -> Nat.add_comm. cbn. rewrite -> drop_app_length. by rewrite <- !app_assoc.
    + by rewrite <- !app_assoc.
    + rewrite -> take_app_add. done.
  - exists (x :: x :: rest). cbn. rewrite -> !length_app. cbn. split_and!; [by rewrite <- app_assoc|lia|lia|lia|].
    rw Ht !sizes_app. cbn. f_equal. lia.
Qed.

(** Without a free entry the loop must have nothing to merge. *)
Lemma merge_loop t pre r suf room fuel lo :
  array t (pre ++ r :: suf) room → sorted lo (r :: suf) → (1 ≤ room)%nat ∨ merge_from r suf = r :: suf → (length suf < fuel)%nat →
  ∃ t', loop fuel merge_step (Z.of_nat (length pre), t) = Some t' ∧ mt_array t' = mt_array t ∧
    array t' (pre ++ merge_from r suf) (room + S (length suf) - length (merge_from r suf)).
Proof.
  revert t pre r room fuel lo. induction suf as [|r' suf IH]; intros t pre r room fuel lo Ha Hs Hroom Hf; (destruct fuel as [|fuel]; [cbn in Hf; lia|]);
    cbn [loop]; rw {1}/merge_step; pose proof Ha as (rest & Er & Hr & Hc & Hm & Ht); rewrite -> !length_app in *; cbn [length] in *; rw Hc.
  - ztest. exists t. split_and!; [done|done|]. cbn. by replace (room + 1 - 1)%nat with room by lia.
  - ztest. rewrite -> (array_rd _ _ _ _ _ _ Ha eq_refl). cbn [mbind option_bind].
    assert (array t ((pre ++ [r]) ++ r' :: suf) room) as Ha' by (by rewrite <- app_assoc).
    rewrite -> (array_rd _ _ _ _ _ _ Ha') by (rewrite -> length_app; cbn; lia). cbn [mbind option_bind].
    pose proof Hs as (H1 & Hok & H2 & Hok' & H3). rewrite -> (rg_end_top r) by done. cbn [merge_from] in *. destruct (adjacent r r') eqn:E.
    + pose proof (merge_length (join r r') suf). destruct Hroom as [Hroom|Hroom]; [|apply (f_equal length) in Hroom; cbn in Hroom; lia].
      pose proof E as [E1 E2]%adjacent_spec. ztest.
      destruct (merge_move t pre r r' suf room) as (l & l' & Hw & Hmv & Ha2); [done|lia|].
      assert (wrap 64 (rg_size r + rg_size r') = rg_size r + rg_size r') as Ew.
      { apply wrap_small. destruct Hok as (? & ? & ?), Hok' as (? & ? & Hu). rw /ULLONG_MAX in Hu. rw /in_width. lia. }
      rewrite -> Ew. change {| rg_base := rg_base r; rg_size := rg_size r + rg_size r'; rg_nid := rg_nid r |} with (join r r'). rw Hw. cbn [mbind option_bind].
      rewrite -> Hc in Hmv. rw Hmv. cbn [mbind option_bind].
      edestruct (IH _ _ _ (S room) fuel lo Ha2) as (t' & Hl & Hrest & Ha3); [by apply sorted_join|lia|lia|]. exists t'. rewrite -> Hc in Hl.
      split_and!; [done|done|]. by replace (room + S (S (length suf)) - length (merge_from (join r r') suf))%nat
        with (S room + S (length suf) - length (merge_from (join r r') suf))%nat by lia.
    + pose proof (merge_length r' suf).
      assert (negb (rg_top r =? rg_base r') || negb (rg_nid r =? rg_nid r') = true) as -> by (rewrite <- negb_andb; by apply negb_true_iff).
      ztest. destruct (IH t (pre ++ [r]) r' room fuel (rg_top r)) as (t' & Hl & Hrest & Ha3); [done|done| |lia|].
      { destruct Hroom as [|Hroom]; [by left|right]. by injection Hroom. }
      rewrite -> length_app in Hl. cbn in Hl. rewrite -> Nat2Z.inj_add in Hl. rewrite <- app_assoc in Ha3. exists t'. split_and!; [done|done|].
      cbn. by replace (room + S (S (length suf)) - S (length (merge_from r' suf)))%nat with (room + S (length suf) - length (merge_from r' suf))%nat by lia.
Qed.

Lemma merge_regions_ok t r l room :
  array t (r :: l) room → sorted 0 (r :: l) → (1 ≤ room)%nat ∨ merge_from r l = r :: l →
  ∃ t', memblock_merge_regions t = Some t' ∧ mt_array t' = mt_array t ∧ array t' (merge_from r l) (room + S (length l) - length (merge_from r l)).
Proof.
  intros Ha Hs Hroom. rw /memblock_merge_regions. pose proof Ha as (_ & _ & _ & -> & _). apply (merge_loop t [] r l room _ 0); [done|done|done|].
  rewrite -> Nat2Z.id. cbn. lia.
Qed.

(** The merge of a full array reads behind it. *)
Lemma merge_loop_full t pre r suf fuel lo :
  array t (pre ++ r :: suf) 0 → sorted lo (r :: suf) → merge_from r suf ≠ r :: suf → loop fuel merge_step (Z.of_nat (length pre), t) = None.
Proof.
  revert t pre r fuel lo. induction suf as [|r' suf IH]; intros t pre r fuel lo Ha Hs Hne; [done|]. destruct fuel as [|fuel]; [done|].
  cbn [loop]; rw {1}/merge_step; pose proof Ha as (rest & Er & Hr & Hc & Hm & Ht). apply nil_length_inv in Hr as ->. rewrite -> app_nil_r in Er.
  rewrite -> !length_app in *. cbn [length] in *; rw Hc. ztest. rewrite -> (array_rd _ _ _ _ _ _ Ha eq_refl). cbn [mbind option_bind].
  assert (array t ((pre ++ [r]) ++ r' :: suf) 0) as Ha' by (by rewrite <- app_assoc).
  rewrite -> (array_rd _ _ _ _ _ _ Ha') by (rewrite -> length_app; cbn; lia). cbn [mbind option_bind].
  pose proof Hs as (H1 & Hok & H2 & Hok' & H3). rewrite -> (rg_end_top r) by done. cbn [merge_from] in *. destruct (adjacent r r') eqn:E.
  - pose proof E as [E1 E2]%adjacent_spec. ztest. rewrite -> Er, wr_middle by done. cbn [mbind option_bind]. rw /move_regions.
    rewrite -> length_app. cbn [length]. ztest. done.
  - assert (negb (rg_top r =? rg_base r') || negb (rg_nid r =? rg_nid r') = true) as -> by (rewrite <- negb_andb; by apply negb_true_iff).
    ztest. specialize (IH t (pre ++ [r]) r' fuel (rg_top r) Ha' ltac:(done)). rewrite -> length_app, Nat2Z.inj_add in IH. apply IH. congruence.
Qed.

(** ** The invariant of an array *)

(** Sorted and disjoint regions, none empty and no two that should be one; an entry of size 0 stands for no regions. *)
Definition region_list (L : list memblock_region) : Prop :=
  sorted 0 L ∧ minimal L ∧ (positive L ∧ L ≠ [] ∨ ∃ nid, L = [{| rg_base := 0; rg_size := 0; rg_nid := nid |}]).

Lemma region_list_nonempty L : region_list L → L ≠ [].
Proof. by intros (_ & _ & [[_ ?]|(n & ->)]). Qed.

Definition type_ok (t : memblock_type) (L : list memblock_region) (room : nat) : Prop := array t L room ∧ region_list L.

(** Merging gives the invariant; it faults only if the array is full and there is something to merge. *)
Lemma merge_total t N room :
  array t N room → sorted 0 N → (positive N ∧ N ≠ [] ∨ region_list N) →
  match memblock_merge_regions t with
  | Some t' => mt_array t' = mt_array t ∧ ∃ L' room', type_ok t' L' room' ∧ (∀ x, owner L' x = owner N x) ∧ (length L' + room' = length N + room)%nat
  | None => room = 0%nat
  end.
Proof.
  intros Ha Hs Hk. destruct N as [|r l]; [by destruct Hk as [[_ ?]|?%region_list_nonempty]|]. destruct (decide (room = 0%nat ∧ merge_from r l ≠ r :: l)) as [[-> Hm]|Hm].
  { rw /memblock_merge_regions. by rewrite -> (merge_loop_full t [] r l _ 0). }
  destruct (merge_regions_ok t r l _ Ha Hs) as (t2 & -> & Harr2 & Ha2).
  { destruct (decide (merge_from r l = r :: l)); [by right|left]. destruct room; [by exfalso; apply Hm|lia]. }
  pose proof (merge_length r l). split; [done|]. do 2 eexists. split_and!; [split; [exact Ha2|]|intros x; by apply (merge_owner 0)|cbn in *; lia].
  split_and!; [by apply merge_sorted|apply merge_minimal|]. destruct Hk as [[Hp _]|(_ & _ & [[Hp _]|(n & [= -> ->])])]; [left|left|right; by exists n].
  all: split; [by apply merge_pos|]; by destruct (merge_head r l) as (? & ? & -> & _).
Qed.

Lemma type_total t L room : type_ok t L room → mt_total_size t = sizes L.
Proof.
  intros [(_ & _ & _ & _ & _ & ->) [Hs _]]. apply wrap_small. pose proof (sizes_bound 0 L). rw /ULLONG_MAX in H. rw /in_width. rewrite -> Z.sub_0_r in H.
  assert (0 ≤ sizes L ≤ 2 ^ 64 - 1) by (apply H; [lia|done]). lia.
Qed.

Lemma get_set_type k t mb : get_type k (set_type k t mb) = t.
Proof. by destruct k. Qed.

Lemma set_get_type k mb : set_type k (get_type k mb) mb = mb.
Proof. by destruct mb, k. Qed.

(** Everything but the array of kind [k] is the same. *)
Definition same_rest (k : memblock_kind) (mb mb' : memblock) : Prop :=
  mb_current_limit mb' = mb_current_limit mb ∧
  match k with Memory => mb_reserved mb' = mb_reserved mb | Reserved => mb_memory mb' = mb_memory mb end.

#[export] Instance same_rest_preorder k : PreOrder (same_rest k).
Proof. split; [by destruct k|]. intros a b c [? ?] [? ?]. split; [congruence|]. destruct k; congruence. Qed.

Lemma same_rest_set k t mb : same_rest k mb (set_type k t mb).
Proof. by destruct k. Qed.

(** ** Growing an array *)

(** What [memblock_double_array] promises in the states [P]: it fails and changes nothing, or the array gets larger. *)
Class Resizer (d : memblock_kind → Z → Z → memblock → option (Z * memblock)) (P : memblock → Prop) := {
  resize_ok k start size mb : P mb → ∃ r mb', d k start size mb = Some (r, mb') ∧ P mb' ∧
    (r < 0 ∧ mb' = mb ∨
     0 ≤ r ∧ same_rest k mb mb' ∧
       ∀ L room, array (get_type k mb) L room → ∃ room', (room < room')%nat ∧ array (get_type k mb') L room');
  resize_set k t mb : P mb → mt_array t = mt_array (get_type k mb) → mt_max t = mt_max (get_type k mb) → P (set_type k t mb)
}.

(** Resizing is not allowed. *)
#[export] Instance no_resize env fuel : Resizer (memblock_double_array env (S fuel)) (λ mb, mb_can_resize mb = false).
Proof.
  split; [|done]. intros k start size mb Hmb. cbn [memblock_double_array]. rw Hmb. cbn. by exists (-1), mb; split_and!; [..|left].
Qed.

(** The slab allocator is up, and the arrays are the static ones or come from it. *)
Definition slab_arrays (mb : memblock) : Prop :=
  ∀ k, 0 < mt_max (get_type k mb) ∧ (in_slab k mb = true ∨ mt_array (get_type k mb) = None).

#[export] Instance slab_resize pa fuel : Resizer (memblock_double_array {| slab_is_available := true; kmalloc_pa := pa |} (S fuel)) slab_arrays.
Proof.
  split.
  - intros k start size mb Hmb. cbn [memblock_double_array slab_is_available kmalloc_pa]. destruct (mb_can_resize mb); cbn [negb mbind option_bind]; [|by exists (-1), mb; split_and!; [..|left]].
    case_if; [by exists (-1), mb; split_and!; [..|left]|]. set (mb1 := set_type k _ mb).
    assert ((if in_slab k mb1 then Some mb1
      else match mt_array (get_type k mb) with
           | Some old => '(_, mb2) ← memblock_free (memblock_double_array {| slab_is_available := true; kmalloc_pa := pa |} fuel) old
               (PAGE_ALIGN (wrap 64 (mt_max (get_type k mb) * sizeof_memblock_region))) mb1; Some mb2
           | None => Some mb1
           end) = Some mb1) as ->.
    { destruct (Hmb k) as [_ [Hk|Hk]]; [by destruct k; rw /mb1 /= in Hk *; rw Hk|]. rw Hk. by destruct (in_slab k mb1). }
    cbn [mbind option_bind]. do 2 eexists. split; [done|]. split; [|right]; [|split_and!; [done|by destruct k|]].
    + intros k'. destruct (Hmb k') as [Hpos Hk']. destruct k, k'; cbn in *; split; try lia; auto.
    + intros L room (rest & Er & Hr & Hc & Hm & Ht). pose proof (proj1 (Hmb k)). exists (room + (length L + room))%nat. split; [lia|].
      exists (rest ++ replicate (Z.to_nat (mt_max (get_type k mb))) zero_region).
      destruct k; cbn in *; rewrite -> Er, length_app, length_replicate, Hm, app_assoc; split_and!; done || lia.
  - intros k t mb Hmb Harr Hmax k'. destruct (Hmb k), (Hmb k'). destruct k, k'; cbn in *; rewrite -> ?Harr, ?Hmax; auto.
Qed.

Lemma make_room_ok `{Resizer d P} k start size (more : nat) mb L room :
  P mb → array (get_type k mb) L room →
  ∃ b mb' room', make_room d k start size (Z.of_nat more) mb = Some (b, mb') ∧ P mb' ∧ same_rest k mb mb' ∧ array (get_type k mb') L room' ∧
    (room ≤ room')%nat ∧ (if b : bool then (more ≤ room')%nat else (room' < more)%nat) ∧ ((more ≤ room)%nat → mb' = mb).
Proof.
  intros HP Ha. rw /make_room. pose proof Ha as (_ & _ & _ & -> & _).
  assert (more - room < S (Z.to_nat (Z.of_nat (length L) + Z.of_nat more)))%nat as Hf by lia. revert Hf.
  generalize (S (Z.to_nat (Z.of_nat (length L) + Z.of_nat more))). intros fuel. revert mb room HP Ha.
  induction fuel as [|fuel IH]; intros mb room HP Ha Hf; [lia|]. cbn [loop]. pose proof Ha as (_ & _ & _ & -> & -> & _).
  destruct (Z.ltb_spec (Z.of_nat (length L + room)) (Z.of_nat (length L) + Z.of_nat more)).
  - destruct (resize_ok k start size mb HP) as (r & mb1 & -> & HP1 & [[Hr ->]|(Hr & Hsame & Hgrow)]); cbn [mbind option_bind]; ztest.
    + exists false, mb, room. split_and!; try done. lia.
    + destruct (Hgrow L room Ha) as (room1 & Hlt & Ha1). destruct (IH mb1 room1) as (b & mb' & room' & -> & ? & ? & ? & ? & ? & _); [done|done|lia|].
      exists b, mb', room'. split_and!; try done; [by etrans|lia|lia].
  - exists true, mb, room. split_and!; try done. lia.
Qed.

(** ** The initial state *)

Lemma empty_type_ok max : 0 < max → type_ok (empty_type max) [zero_region] (Z.to_nat max - 1).
Proof.
  intros Hmax. split.
  - exists (replicate (Z.to_nat max - 1) zero_region). cbn [empty_type mt_regions mt_cnt mt_max mt_total_size]. rewrite -> length_replicate.
    split_and!; [by destruct (Z.to_nat max) as [|n] eqn:E; [lia|]; cbn; rewrite -> Nat.sub_0_r|done|done|cbn; lia|done].
  - split; [|split; [done|right; by exists 0]]. cbn. rw /region_ok. by cbn.
Qed.

Lemma init_ok k : type_ok (get_type k memblock_init) [zero_region] 127.
Proof. destruct k; apply (empty_type_ok 128); lia. Qed.
