(* ===== verification/MemblockAdd.v ===== *)
(** * Early memory: adding a range (memblock_add_region)

    [fill] is the list of regions with the gaps of a range filled; the two passes count and insert exactly its new regions. *)
From S2P Require Import Prelude Memblock MemblockRep.

Definition piece (base end_ nid : Z) : list memblock_region :=
  if base <? end_ then [{| rg_base := base; rg_size := end_ - base; rg_nid := nid |}] else [].

Fixpoint fill (base end_ nid : Z) (l : list memblock_region) : list memblock_region :=
  match l with
  | [] => piece base end_ nid
  | r :: l' =>
      if end_ <=? rg_base r then piece base end_ nid ++ l
      else if rg_top r <=? base then r :: fill base end_ nid l'
      else piece base (rg_base r) nid ++ r :: fill (Z.min (rg_top r) end_) end_ nid l'
  end.

Definition in_range (base end_ x : Z) : bool := (base <=? x) && (x <? end_).

Lemma in_range_spec base end_ x : in_range base end_ x = true ↔ base ≤ x < end_.
Proof. rw /in_range. rewrite -> andb_true_iff, Z.leb_le, Z.ltb_lt. lia. Qed.

Lemma piece_owner base end_ nid x : owner (piece base end_ nid) x = if in_range base end_ x then Some nid else None.
Proof.
  rw /piece /in_range. case_if; cbn; [|by repeat case_if; try done; lia]. rw /within. cbn. by replace (base + (end_ - base)) with end_ by lia.
Qed.

Lemma piece_length base end_ nid : (length (piece base end_ nid) ≤ 1)%nat.
Proof. rw /piece. case_if; cbn; lia. Qed.

Lemma fill_length base end_ nid l : (length l ≤ length (fill base end_ nid l) ≤ 2 * length l + 1)%nat.
Proof.
  revert base. induction l as [|r l IH]; intros base; cbn [fill]; [pose proof (piece_length base end_ nid); cbn; lia|].
  pose proof (piece_length base end_ nid). pose proof (piece_length base (rg_base r) nid).
  destruct (end_ <=? rg_base r); [rewrite -> length_app; cbn; lia|].
  destruct (rg_top r <=? base); [specialize (IH base); cbn; lia|]. specialize (IH (Z.min (rg_top r) end_)). rewrite -> length_app. cbn. lia.
Qed.

Lemma fill_owner base end_ nid l lo x : sorted lo l → base ≤ end_ →
  owner (fill base end_ nid l) x = match owner l x with Some n => Some n | None => if in_range base end_ x then Some nid else None end.
Proof.
  revert base lo. induction l as [|r l IH]; intros base lo Hs Hbe; cbn [fill]; [apply piece_owner|].
  pose proof Hs as (Hlo & (? & ? & ?) & Hl). destruct (Z.leb_spec end_ (rg_base r)).
  - rewrite -> owner_app, piece_owner. destruct (in_range base end_ x) eqn:E; [|by destruct (owner (r :: l) x)].
    apply in_range_spec in E. by rewrite -> (owner_below (rg_base r) (r :: l)) by (lia || (split_and!; done || lia)).
  - destruct (Z.leb_spec (rg_top r) base).
    + cbn. destruct (within r x); [done|]. by eapply IH.
    + rewrite -> owner_app, piece_owner. cbn [owner]. rewrite -> (IH _ (rg_top r)) by (done || lia).
      destruct (in_range base (rg_base r) x) eqn:E1; [apply in_range_spec in E1|].
      * rw /within. ztest. rewrite -> (owner_below (rg_top r) l) by (done || lia). by rewrite -> (proj2 (in_range_spec base end_ x)) by lia.
      * destruct (within r x) eqn:E2; [done|]. destruct (owner l x); [done|]. rw /within in E2. rw /in_range in E1. rw /in_range.
        repeat case_if; try done; zbool; lia.
Qed.

Lemma sorted_piece lo base end_ nid l : 0 ≤ base → lo ≤ base → end_ ≤ ULLONG_MAX → lo ≤ end_ → sorted end_ l → sorted lo (piece base end_ nid ++ l).
Proof.
  intros. rw /piece. case_if; cbn; [|by eapply sorted_mono; [|done]; lia].
  split_and!; [done|rw /region_ok; cbn; lia|by replace (base + (end_ - base)) with end_ by lia].
Qed.

Lemma fill_full base end_ nid l lo : sorted lo l → end_ ≤ base → fill base end_ nid l = l.
Proof.
  revert base lo. induction l as [|r l IH]; intros base lo Hs Hbe; cbn [fill]; rw /piece; [by ztest|].
  pose proof Hs as (Hlo & (? & ? & ?) & Hl). repeat case_if; try done; try lia; cbn; f_equal; eapply IH; try done; lia.
Qed.

Lemma fill_sorted base end_ nid l lo : sorted lo l → 0 ≤ base → lo ≤ base ≤ end_ → end_ ≤ ULLONG_MAX → sorted lo (fill base end_ nid l).
Proof.
  revert base lo. induction l as [|r l IH]; intros base lo Hs Hb Hlb He; cbn [fill].
  { rewrite <- (app_nil_r (piece _ _ _)). by apply sorted_piece; try lia. }
  pose proof Hs as (Hlo & (? & ? & ?) & Hl). repeat case_if.
  - apply sorted_piece; try lia. done.
  - split_and!; [done|done|]. apply IH; try done. lia.
  - apply sorted_piece; try lia. split_and!; [lia|done|]. destruct (Z.leb_spec end_ (rg_top r)).
    + rewrite -> (fill_full _ _ _ _ (rg_top r)) by (done || lia). done.
    + apply IH; try done; lia.
Qed.

Lemma fill_pos base end_ nid l : positive l → positive (fill base end_ nid l).
Proof.
  assert (∀ b e, positive (piece b e nid)) as Hp by (intros b e; rw /piece; case_if; constructor; [cbn; lia|done]).
  revert base. induction l as [|r l IH]; intros base Hl; cbn [fill]; [apply Hp|]. apply Forall_cons in Hl as [Hr Hl].
  repeat case_if; rewrite -> ?Forall_app, ?Forall_cons; auto.
Qed.

(** ** The passes *)

Lemma array_cnt t pre suf room : array t (pre ++ suf) room → mt_cnt t = Z.of_nat (length pre) + Z.of_nat (length suf).
Proof. intros (_ & _ & _ & -> & _). rewrite -> length_app. lia. Qed.

Lemma array_max t L room t' L' room' : array t L room → array t' L' room' → (length L' + room' = length L + room)%nat → mt_max t' = mt_max t.
Proof. intros (_ & _ & _ & _ & -> & _) (_ & _ & _ & _ & -> & _) ->. done. Qed.

Lemma array_step t pre r suf room : array t (pre ++ r :: suf) room → array t ((pre ++ [r]) ++ suf) room.
Proof. by rewrite <- app_assoc. Qed.

Lemma length_snoc {A} (l : list A) x : Z.of_nat (length (l ++ [x])) = Z.of_nat (length l) + 1.
Proof. rewrite -> length_app. cbn. lia. Qed.

(** The first pass counts the new regions. *)
Lemma add_count t pre suf room lo base end_ nid nr fuel :
  array t (pre ++ suf) room → sorted lo suf → (length suf < fuel)%nat →
  loop fuel (add_step false end_ nid) (Z.of_nat (length pre), base, nr, t) ≫= add_rest false end_ nid =
    Some (nr + Z.of_nat (length (fill base end_ nid suf)) - Z.of_nat (length suf), t).
Proof.
  revert pre lo base nr fuel. induction suf as [|r suf IH]; intros pre lo base nr fuel Ha Hs Hf; (destruct fuel as [|fuel]; [cbn in Hf; lia|]);
    cbn [loop]; rw {1}/add_step; rewrite -> (array_cnt _ _ _ _ Ha); cbn [length].
  - ztest. cbn [mbind option_bind add_rest fill]. rw /piece. case_if; cbn; do 2 f_equal; lia.
  - ztest. rewrite -> (array_rd _ _ _ _ _ _ Ha eq_refl). cbn [mbind option_bind]. pose proof Hs as (Hlo & Hok & Hl). rewrite -> rg_end_top by done.
    cbn [fill length]. cbn in Hf. apply array_step in Ha. destruct (Z.leb_spec end_ (rg_base r)).
    { cbn [mbind option_bind add_rest]. rewrite -> length_app. rw /piece. case_if; cbn; do 2 f_equal; lia. }
    rewrite <- length_snoc with (x := r). destruct (Z.leb_spec (rg_top r) base).
    { rewrite -> (IH _ (rg_top r)) by (done || lia). cbn. do 2 f_equal. lia. }
    rewrite -> length_app. cbn [length]. rw /piece. case_if; cbn [mbind option_bind]; rewrite <- ?length_snoc with (x := r); rewrite -> (IH _ (rg_top r)) by (done || lia);
      cbn [length]; do 2 f_equal; lia.
Qed.

Lemma add_pass_count t L room base end_ nid :
  array t L room → sorted 0 L → add_pass false base end_ nid t = Some (Z.of_nat (length (fill base end_ nid L) - length L), t).
Proof.
  intros Ha Hs. rw /add_pass. pose proof Ha as (_ & _ & _ & -> & _). pose proof (fill_length base end_ nid L). rewrite -> Nat2Z.inj_sub by lia.
  apply (add_count t [] L room 0 base end_ nid 0); [done|done|lia].
Qed.

(** A piece that is not empty is inserted. *)
Lemma insert_piece t pre suf room base end_ nid :
  array t (pre ++ suf) room → (length (piece base end_ nid) ≤ room)%nat →
  ∃ t', (if base <? end_ then memblock_insert_region t (Z.of_nat (length pre)) base (end_ - base) nid else Some t) = Some t' ∧
    mt_array t' = mt_array t ∧ array t' (pre ++ piece base end_ nid ++ suf) (room - length (piece base end_ nid)).
Proof.
  intros Ha Hroom. rw /piece in Hroom. rw /piece. destruct (base <? end_); cbn in *.
  - destruct room as [|room]; [lia|]. edestruct (insert_ok t pre suf room) as (t' & -> & Ha' & Harr); [done|done|]. exists t'.
    by rewrite -> Nat.sub_succ, Nat.sub_0_r.
  - exists t. by rewrite -> Nat.sub_0_r.
Qed.

(** The second pass inserts them. *)
Lemma add_insert t pre suf room lo base end_ nid nr fuel :
  array t (pre ++ suf) room → sorted lo suf → (length suf < fuel)%nat → (length (fill base end_ nid suf) ≤ room + length suf)%nat →
  ∃ n t', loop fuel (add_step true end_ nid) (Z.of_nat (length pre), base, nr, t) ≫= add_rest true end_ nid = Some (n, t') ∧
    mt_array t' = mt_array t ∧ array t' (pre ++ fill base end_ nid suf) (room + length suf - length (fill base end_ nid suf)).
Proof.
  revert t pre room lo base nr fuel. induction suf as [|r suf IH]; intros t pre room lo base nr fuel Ha Hs Hf Hroom; (destruct fuel as [|fuel]; [cbn in Hf; lia|]);
    cbn [loop]; rw {1}/add_step; rewrite -> (array_cnt _ _ _ _ Ha); cbn [length].
  - ztest. cbn [mbind option_bind add_rest fill length] in *. destruct (insert_piece t pre [] room base end_ nid) as (t' & Hi & Harr & Ha'); [done|lia|].
    rewrite -> app_nil_r in Ha'. rewrite -> Nat.add_0_r. destruct (base <? end_); [rw Hi|injection Hi as ->]; eauto.
  - ztest. rewrite -> (array_rd _ _ _ _ _ _ Ha eq_refl). cbn [mbind option_bind]. pose proof Hs as (Hlo & Hok & Hl). rewrite -> rg_end_top by done.
    cbn [fill length] in *. destruct (Z.leb_spec end_ (rg_base r)).
    { cbn [mbind option_bind add_rest]. rewrite -> length_app in *. cbn [length] in *.
      destruct (insert_piece t pre (r :: suf) room base end_ nid) as (t' & Hi & Harr & Ha'); [done|lia|].
      replace (room + S (length suf) - (length (piece base end_ nid) + S (length suf)))%nat with (room - length (piece base end_ nid))%nat by lia.
      destruct (base <? end_); [rw Hi|injection Hi as ->]; eauto. }
    destruct (Z.leb_spec (rg_top r) base).
    { cbn [length] in *. destruct (IH t (pre ++ [r]) room (rg_top r) base nr fuel) as (n & t' & Hl' & Harr & Ha'); [by apply array_step|done|lia|lia|].
      rewrite -> length_snoc in Hl'. rewrite <- app_assoc in Ha'. rewrite -> Nat.add_succ_r, Nat.sub_succ. eauto. }
    rewrite -> length_app in *. cbn [length] in *. set (p := piece base (rg_base r) nid) in *.
    pose proof (fill_length (Z.min (rg_top r) end_) end_ nid suf).
    destruct (insert_piece t pre (r :: suf) room base (rg_base r) nid) as (t1 & Hi & Harr1 & Ha1); [done|fold p; lia|]. fold p in Ha1.
    destruct (IH t1 (pre ++ p ++ [r]) (room - length p)%nat (rg_top r) (Z.min (rg_top r) end_)
      (nr + Z.of_nat (length p)) fuel) as (n & t' & Hl' & Harr & Ha'); [by rewrite <- !app_assoc|done|lia|lia|].
    exists n, t'. split_and!; [|congruence|].
    + rewrite -> !length_app in Hl'. cbn [length] in Hl'. revert Hi Hl'. rw /p /piece. destruct (base <? rg_base r); cbn [mbind option_bind].
      * intros ->. cbn [mbind option_bind length]. rewrite -> !Nat2Z.inj_add, Z.add_assoc. done.
      * intros [= ->]. cbn [length]. rewrite -> Nat.add_0_l, Nat2Z.inj_add, Z.add_0_r. done.
    + rewrite <- !app_assoc in Ha'. cbn [app] in Ha'.
      by replace (room + S (length suf) - (length p + S (length (fill (Z.min (rg_top r) end_) end_ nid suf))))%nat
        with (room - length p + length suf - length (fill (Z.min (rg_top r) end_) end_ nid suf))%nat by lia.
Qed.

(** ** The operation *)

Lemma cap_size_spec base size : 0 ≤ base ≤ ULLONG_MAX → 0 ≤ size → 0 ≤ memblock_cap_size base size ∧ base + memblock_cap_size base size ≤ ULLONG_MAX.
Proof. rw /memblock_cap_size. lia. Qed.

(** The addresses of a range are added to those that have a node already. *)
Definition added (L : list memblock_region) (base end_ nid : Z) (L' : list memblock_region) : Prop :=
  ∀ x, owner L' x = match owner L x with Some n => Some n | None => if in_range base end_ x then Some nid else None end.

(** Inserting and merging: a fault of the merge if the array is full then. *)
Lemma add_passes t L room base end_ nid :
  array t L room → sorted 0 L → positive L → L ≠ [] → 0 ≤ base ≤ end_ → end_ ≤ ULLONG_MAX → (length (fill base end_ nid L) ≤ length L + room)%nat →
  ∃ n t1, add_pass true base end_ nid t = Some (n, t1) ∧
    match memblock_merge_regions t1 with
    | Some t2 => mt_array t2 = mt_array t ∧ ∃ L' room', type_ok t2 L' room' ∧ added L base end_ nid L' ∧ (length L' + room' = length L + room)%nat
    | None => (length (fill base end_ nid L) = length L + room)%nat
    end.
Proof.
  intros Ha Hs Hp Hne Hb He Hroom. rw /add_pass.
  destruct (add_insert t [] L room 0 base end_ nid 0 (S (Z.to_nat (mt_cnt t)))) as (n & t1 & Hl & Harr1 & Ha1); [done|done| |lia|].
  { pose proof Ha as (_ & _ & _ & -> & _). lia. }
  cbn [length app] in *. rw Hl. exists n, t1. split; [done|].
  pose proof (fill_sorted base end_ nid L 0 Hs ltac:(lia) ltac:(lia) ltac:(lia)) as Hs1.
  pose proof (λ x, fill_owner base end_ nid L 0 x Hs ltac:(lia)) as Ho. pose proof (fill_pos base end_ nid L Hp) as Hp1.
  pose proof (fill_length base end_ nid L) as Hlen.
  assert (fill base end_ nid L ≠ []) as Hne1 by (intros E; rw E in Hlen; destruct L; cbn in *; [done|lia]).
  pose proof (merge_total t1 _ _ Ha1 Hs1 (or_introl (conj Hp1 Hne1))) as Hm. destruct (memblock_merge_regions t1) as [t2|]; [|lia].
  destruct Hm as (Harr2 & L' & room' & Hok & HoL & HlenL). split; [congruence|]. exists L', room'. split_and!; [done| |lia]. intros x. by rewrite -> HoL.
Qed.

(** An array that stands for no regions gets its first one. *)
Lemma add_first t n0 room base size nid :
  array t [{| rg_base := 0; rg_size := 0; rg_nid := n0 |}] room → 0 ≤ base → 0 < size → base + size ≤ ULLONG_MAX →
  ∃ l, wr (mt_regions t) 0 {| rg_base := base; rg_size := size; rg_nid := nid |} = Some l ∧
    type_ok (set_regions t (mt_cnt t) size l) [{| rg_base := base; rg_size := size; rg_nid := nid |}] room.
Proof.
  intros Ha Hb Hsz He. rw /ULLONG_MAX in He.
  destruct (replace_ok t [] _ {| rg_base := base; rg_size := size; rg_nid := nid |} [] room 0 size Ha eq_refl) as (l & Hw & Ha').
  { cbn. rewrite -> Z.add_0_r. symmetry. apply wrap_small. rw /in_width. lia. }
  exists l. split; [done|]. split; [exact Ha'|]. split; [|split; [exact I|left; split; [by repeat constructor|done]]].
  cbn. rw /region_ok /ULLONG_MAX. cbn. lia.
Qed.

Section add.
Context `{HR : Resizer d P} (k : memblock_kind) (base size nid : Z) (mb : memblock) (L : list memblock_region) (room : nat).
Let end_ := base + memblock_cap_size base size.

(** The outcomes: the range is added, there is no memory, or the array would be exactly full (the merge reads behind it). *)
Lemma add_region_ok :
  0 ≤ base ≤ ULLONG_MAX → 0 ≤ size → P mb → type_ok (get_type k mb) L room →
  ∃ room', (room ≤ room')%nat ∧
  match memblock_add_region d k base size nid mb with
  | Some (r, mb') =>
      P mb' ∧ same_rest k mb mb' ∧
      (r = 0 ∧ (∃ L' room1, type_ok (get_type k mb') L' room1 ∧ added L base end_ nid L' ∧ (length L + room ≤ length L' + room1)%nat) ∨
       r = - ENOMEM ∧ type_ok (get_type k mb') L room' ∧ (length L + room' < length (fill base end_ nid L))%nat)
  | None => (length (fill base end_ nid L) = length L + room')%nat
  end.
Proof using HR.
  intros Hb Hsz HP [Ha (Hs & Hm & Hc)]. destruct (cap_size_spec base size Hb Hsz) as [Hcap He]. fold end_ in He. rw /memblock_add_region. fold end_.
  destruct (Z.eqb_spec (memblock_cap_size base size) 0) as [E0|E0].
  { exists room. split_and!; [lia|done|done|left]. split; [done|]. exists L, room. split_and!; [done| |lia]. intros x.
    destruct (owner L x); [done|]. rw /in_range. case_if; [lia|done]. }
  destruct Hc as [[Hp Hne]|(n0 & ->)].
  - destruct L as [|r l]; [done|]. rewrite -> (array_rd _ [] _ _ _ 0 Ha eq_refl). cbn [mbind option_bind]. apply Forall_cons in Hp as [Hr Hp]. ztest.
    rewrite -> (add_pass_count _ (r :: l) room) by done. cbn [mbind option_bind]. pose proof (fill_length base end_ nid (r :: l)).
    destruct (make_room_ok k base (memblock_cap_size base size) (length (fill base end_ nid (r :: l)) - length (r :: l)) mb (r :: l) room HP Ha)
      as (b & mb1 & room' & -> & HP1 & Hsame & Ha1 & Hle & Hb' & _). cbn [mbind option_bind]. exists room'. split; [done|]. destruct b; cbn [negb].
    + destruct (add_passes (get_type k mb1) (r :: l) room' base end_ nid) as (n & t1 & -> & Hmerge); try done; [by constructor|lia|lia|].
      cbn [mbind option_bind]. destruct (memblock_merge_regions t1) as [t2|]; [|done]. cbn [mbind option_bind]. destruct Hmerge as (Harr & L' & room1 & Hok & Had & Hlen).
      split_and!; [apply resize_set; [done|done|by apply (array_max _ _ _ _ _ _ Ha1 (proj1 Hok))]|etrans; [done|apply same_rest_set]|left]. split; [done|]. exists L', room1. rewrite -> get_set_type. split_and!; [done|done|lia].
    + split_and!; [done|done|right]. split_and!; [done| |lia]. split; [done|]. split_and!; [done|done|left]. split; [by constructor|done].
  - rewrite -> (array_rd _ [] _ _ _ 0 Ha eq_refl). cbn [mbind option_bind rg_size]. ztest.
    destruct (add_first (get_type k mb) n0 room base (memblock_cap_size base size) nid Ha) as (l & -> & Hok); [lia|lia|done|]. cbn [mbind option_bind].
    exists room. split_and!; [lia|by apply resize_set|apply same_rest_set|left]. split; [done|]. eexists _, room. rewrite -> get_set_type. split_and!; [done| |done].
    intros x. cbn. rw /within /in_range. cbn. fold end_. repeat case_if; try done; lia.
Qed.
End add.
