(* ===== verification/MemblockRemove.v ===== *)
(** * Early memory: isolating, removing and recolouring a range

    [split_at] cuts a list of regions at an address.  Isolating a range makes its two ends borders of regions, after which the regions of the
    range are removed (memblock_remove, memblock_free) or get another node (memblock_set_node). *)
From S2P Require Import Prelude Memblock MemblockRep MemblockAdd.

Definition low (r : memblock_region) (x : Z) : memblock_region := {| rg_base := rg_base r; rg_size := x - rg_base r; rg_nid := rg_nid r |}.
Definition high (r : memblock_region) (x : Z) : memblock_region := {| rg_base := x; rg_size := rg_size r - (x - rg_base r); rg_nid := rg_nid r |}.

(** The regions below and above an address. *)
Fixpoint split_at (x : Z) (l : list memblock_region) : list memblock_region * list memblock_region :=
  match l with
  | [] => ([], [])
  | r :: l' =>
      if rg_top r <=? x then let '(a, b) := split_at x l' in (r :: a, b)
      else if x <=? rg_base r then ([], l)
      else ([low r x], high r x :: l')
  end.

(** ** Cutting a list *)

Lemma split_sorted x l lo a b : sorted lo l → split_at x l = (a, b) → sorted lo (a ++ b) ∧ sorted x b ∧ Forall (λ r, rg_top r ≤ x) a.
Proof.
  revert lo a b. induction l as [|r l IH]; intros lo a b; cbn; [by intros _ [= <- <-]|]. intros (Hlo & (? & ? & ?) & Hl). destruct (Z.leb_spec (rg_top r) x).
  - destruct (split_at x l) as [a' b']. intros [= <- <-]. destruct (IH _ _ _ Hl eq_refl) as (? & ? & ?). split_and!; try done. by constructor.
  - case_if; intros [= <- <-]; [by split_and!|]. cbn. rw /region_ok. cbn.
    replace (x + (rg_size r - (x - rg_base r))) with (rg_top r) by lia. split_and!; try done; try lia. repeat constructor; cbn; lia.
Qed.

Lemma split_owner x l lo a b y : sorted lo l → split_at x l = (a, b) → owner (a ++ b) y = owner l y.
Proof.
  revert lo a b. induction l as [|r l IH]; intros lo a b; cbn; [by intros _ [= <- <-]|]. intros (Hlo & Hok & Hl). destruct (Z.leb_spec (rg_top r) x).
  - destruct (split_at x l) as [a' b']. intros [= <- <-]. cbn. by rewrite -> (IH _ _ _ Hl eq_refl).
  - case_if; intros [= <- <-]; [done|]. destruct Hok as (? & ? & ?). cbn. rw /within. cbn. repeat case_if; try done; lia.
Qed.

Lemma split_length x l a b : split_at x l = (a, b) → (length l ≤ length a + length b ≤ S (length l))%nat.
Proof.
  revert a b. induction l as [|r l IH]; intros a b; cbn; [by intros [= <- <-]; cbn; lia|]. destruct (rg_top r <=? x).
  - destruct (split_at x l) as [a' b']. intros [= <- <-]. specialize (IH _ _ eq_refl). cbn. lia.
  - case_if; intros [= <- <-]; cbn; lia.
Qed.

Lemma split_pos x l a b : positive l → split_at x l = (a, b) → positive a ∧ positive b.
Proof.
  revert a b. induction l as [|r l IH]; intros a b Hp; cbn; [by intros [= <- <-]|]. pose proof Hp as [Hr Hl]%Forall_cons. destruct (Z.leb_spec (rg_top r) x).
  - destruct (split_at x l) as [a' b']. intros [= <- <-]. destruct (IH _ _ Hl eq_refl). split; [by constructor|done].
  - case_if; intros [= <- <-]; [done|]. split; repeat (constructor; cbn); try lia; done.
Qed.

Lemma split_minimal x l a b : minimal l → split_at x l = (a, b) → minimal a ∧ minimal b.
Proof.
  revert a b. induction l as [|r l IH]; intros a b Hm; cbn [split_at]; [by intros [= <- <-]|].
  assert (minimal l) as Hl by (destruct l; [done|apply Hm]). destruct (Z.leb_spec (rg_top r) x).
  - destruct (split_at x l) as [a' b'] eqn:E. intros [= <- <-]. destruct (IH _ _ Hl eq_refl) as [Ha Hb]. split; [|done].
    destruct l as [|r' l]; [by injection E as <- <-|]. destruct Hm as [Hadj _]. cbn in E.
    destruct (rg_top r' <=? x); [destruct (split_at x l); injection E as <- <-; by split|]. destruct (x <=? rg_base r'); injection E as <- <-; [done|]. by split.
  - case_if; intros [= <- <-]; [done|]. split; [done|]. destruct l as [|r' l]; [done|]. destruct Hm as [Hadj _]. split; [|done].
    rw /adjacent in Hadj. rw /adjacent. cbn. by replace (x + (rg_size r - (x - rg_base r))) with (rg_top r) by lia.
Qed.

(** ** The steps of the loop *)

Lemma split_ok t pre r suf room x :
  array t (pre ++ r :: suf) (S room) →
  ∃ l t', wr (mt_regions t) (Z.of_nat (length pre)) (high r x) = Some l ∧
    memblock_insert_region (set_regions t (mt_cnt t) (wrap 64 (mt_total_size t - (x - rg_base r))) l) (Z.of_nat (length pre))
      (rg_base r) (x - rg_base r) (rg_nid r) = Some t' ∧
    mt_array t' = mt_array t ∧ array t' (pre ++ low r x :: high r x :: suf) room.
Proof.
  intros Ha. destruct (replace_ok t pre r (high r x) suf (S room) (Z.of_nat (length pre)) (wrap 64 (mt_total_size t - (x - rg_base r))) Ha eq_refl)
    as (l & Hw & Ha1).
  { pose proof Ha as (_ & _ & _ & _ & _ & ->). rw /Z.sub wrap_sizes !sizes_app. cbn. f_equal. lia. }
  destruct (insert_ok _ pre (high r x :: suf) room _ (rg_base r) (x - rg_base r) (rg_nid r) Ha1 eq_refl) as (t' & Hi & Ha2 & Harr). eauto 6.
Qed.

Section isolate.
Context (base end_ : Z) (Hbe : base < end_).

Lemma step_stop t pre suf room s e lo :
  array t (pre ++ suf) room → sorted lo suf → end_ ≤ lo → isolate_step base end_ (Z.of_nat (length pre), s, e, t) = Some (Stop (s, e, t)).
Proof using Hbe.
  intros Ha Hs Hlo. rw /isolate_step. rewrite -> (array_cnt _ _ _ _ Ha). destruct suf as [|r suf]; cbn [length]; [by ztest|]. destruct Hs as (? & Hok & _).
  ztest. rewrite -> (array_rd _ _ _ _ _ _ Ha eq_refl). cbn [mbind option_bind]. by ztest.
Qed.

Lemma step_skip t pre r suf room s e :
  array t (pre ++ r :: suf) room → region_ok r → rg_base r < end_ → rg_top r ≤ base →
  isolate_step base end_ (Z.of_nat (length pre), s, e, t) = Some (Next (Z.of_nat (length (pre ++ [r])), s, e, t)).
Proof using Hbe.
  intros Ha Hok He Hb. rw /isolate_step. rewrite -> (array_cnt _ _ _ _ Ha), length_snoc. cbn [length].
  ztest. rewrite -> (array_rd _ _ _ _ _ _ Ha eq_refl). cbn [mbind option_bind]. rewrite -> rg_end_top by done. by ztest.
Qed.

Lemma step_in t pre r suf room s e :
  array t (pre ++ r :: suf) room → region_ok r → base ≤ rg_base r → base < rg_top r → rg_base r < end_ → rg_top r ≤ end_ →
  isolate_step base end_ (Z.of_nat (length pre), s, e, t) =
    Some (Next (Z.of_nat (length (pre ++ [r])), (if e =? 0 then Z.of_nat (length pre) else s), Z.of_nat (length (pre ++ [r])), t)).
Proof using Hbe.
  intros Ha Hok Hb Hb' He Ht. rw /isolate_step. rewrite -> (array_cnt _ _ _ _ Ha), length_snoc. cbn [length].
  ztest. rewrite -> (array_rd _ _ _ _ _ _ Ha eq_refl). cbn [mbind option_bind]. rewrite -> rg_end_top by done.
  rewrite -> (proj2 (Z.leb_gt end_ (rg_base r))), (proj2 (Z.leb_gt (rg_top r) base)), (proj2 (Z.ltb_ge (rg_base r) base)), (proj2 (Z.ltb_ge end_ (rg_top r))) by lia.
  done.
Qed.

Lemma step_base t pre r suf room s e :
  array t (pre ++ r :: suf) (S room) → region_ok r → rg_base r < base < rg_top r →
  ∃ t', isolate_step base end_ (Z.of_nat (length pre), s, e, t) = Some (Next (Z.of_nat (length (pre ++ [low r base])), s, e, t')) ∧
    mt_array t' = mt_array t ∧ array t' ((pre ++ [low r base]) ++ high r base :: suf) room.
Proof using Hbe.
  intros Ha Hok Hb. destruct (split_ok t pre r suf room base Ha) as (l & t' & Hw & Hi & Harr & Ha'). exists t'. rw /isolate_step.
  rewrite -> (array_cnt _ _ _ _ Ha), length_snoc. cbn [length].
  ztest. rewrite -> (array_rd _ _ _ _ _ _ Ha eq_refl). cbn [mbind option_bind]. rewrite -> rg_end_top by done. ztest.
  rewrite -> (array_cnt _ _ _ _ Ha) in Hi. cbn [length] in Hi.
  rw /high in Hw. rw Hw. cbn [mbind option_bind]. rw Hi. cbn [mbind option_bind]. rewrite <- app_assoc. done.
Qed.

Lemma step_end t pre r suf room s e :
  array t (pre ++ r :: suf) (S room) → region_ok r → base ≤ rg_base r → rg_base r < end_ < rg_top r →
  ∃ t', isolate_step base end_ (Z.of_nat (length pre), s, e, t) = Some (Next (Z.of_nat (length pre), s, e, t')) ∧
    mt_array t' = mt_array t ∧ array t' (pre ++ low r end_ :: high r end_ :: suf) room.
Proof using Hbe.
  intros Ha Hok Hb He. destruct (split_ok t pre r suf room end_ Ha) as (l & t' & Hw & Hi & Harr & Ha'). exists t'. rw /isolate_step.
  rewrite -> (array_cnt _ _ _ _ Ha). cbn [length].
  ztest. rewrite -> (array_rd _ _ _ _ _ _ Ha eq_refl). cbn [mbind option_bind]. rewrite -> rg_end_top by done. ztest.
  rewrite -> (array_cnt _ _ _ _ Ha) in Hi. cbn [length] in Hi.
  rw /high in Hw. rw Hw. cbn [mbind option_bind]. rw Hi. cbn [mbind option_bind]. by replace (Z.of_nat (length pre) - 1 + 1) with (Z.of_nat (length pre)) by lia.
Qed.

(** The regions of the range, and where they start and end in the array. *)
Lemma isolate_inside t pre suf room s e m c fuel lo :
  array t (pre ++ suf) room → base ≤ lo → sorted lo suf → positive suf → split_at end_ suf = (m, c) →
  (length m + length c ≤ room + length suf)%nat → (S (length suf) < fuel)%nat →
  ∃ t', loop fuel (isolate_step base end_) (Z.of_nat (length pre), s, e, t) =
      Some (match m with [] => (s, e, t') | _ => (if e =? 0 then Z.of_nat (length pre) else s, Z.of_nat (length pre + length m), t') end) ∧
    mt_array t' = mt_array t ∧ array t' (pre ++ m ++ c) (room + length suf - (length m + length c)).
Proof using Hbe.
  revert t pre room s e m c fuel lo. induction suf as [|r suf IH]; intros t pre room s e m c fuel lo Ha Hlo Hs Hp Hsp Hroom Hf; (destruct fuel as [|fuel]; [lia|]).
  { injection Hsp as <- <-. cbn [loop]. rewrite -> (step_stop t pre [] room s e end_) by done. exists t. cbn. rewrite -> Nat.add_0_r, Nat.sub_0_r. done. }
  pose proof Hs as (Hr & Hok & Hl). pose proof Hp as [Hpr Hpl]%Forall_cons. cbn [split_at] in Hsp. cbn [length] in *. destruct (Z.leb_spec (rg_top r) end_).
  - destruct (split_at end_ suf) as [m' c'] eqn:E. injection Hsp as <- <-. cbn [loop length] in *. rewrite -> (step_in _ _ r suf room) by (done || lia).
    apply array_step in Ha. edestruct (IH t (pre ++ [r]) room) as (t' & -> & Harr & Ha'); [done| |done|done|done|lia| |]; [lia|lia|].
    exists t'. rewrite <- app_assoc in Ha'. rewrite -> (proj2 (Z.eqb_neq (Z.of_nat (length (pre ++ [r]))) 0)) by (rewrite -> length_snoc; lia).
    split_and!; [|done|by replace (room + S (length suf) - (S (length m') + length c'))%nat with (room + length suf - (length m' + length c'))%nat by lia].
    destruct m'; cbn [length]; rewrite -> length_app; cbn; do 3 f_equal; lia.
  - destruct (Z.leb_spec end_ (rg_base r)).
    + injection Hsp as <- <-. cbn [loop length] in *. rewrite -> (step_stop t pre (r :: suf) room s e end_) by (done || (split_and!; [lia|done|done])).
      exists t. split_and!; [done|done|]. by replace (room + S (length suf) - (0 + S (length suf)))%nat with room by lia.
    + injection Hsp as <- <-. cbn [length] in *. destruct room as [|room]; [lia|]. cbn [loop].
      destruct (step_end t pre r suf room s e Ha Hok ltac:(lia) ltac:(lia)) as (t1 & -> & Harr1 & Ha1). destruct fuel as [|[|fuel]]; [lia|lia|]. cbn [loop].
      assert (region_ok (low r end_)) as Hlow by (destruct Hok as (? & ? & ?); rw /region_ok; cbn; lia).
      rewrite -> (step_in t1 pre (low r end_) (high r end_ :: suf) room) by (done || (cbn; lia)). apply array_step in Ha1.
      erewrite (step_stop t1 _ _ _ _ _ end_); [|exact Ha1| |lia].
      2: { destruct Hok as (? & ? & ?). cbn. rw /region_ok. cbn. replace (end_ + (rg_size r - (end_ - rg_base r))) with (rg_top r) by lia. split_and!; done || lia. }
      exists t1. rewrite -> length_snoc. split_and!; [do 3 f_equal; cbn; lia|done|]. rewrite <- app_assoc in Ha1.
      by replace (S room + S (length suf) - (1 + S (length suf)))%nat with room by lia.
Qed.

(** The regions before the range are passed, the range is cut out of the rest. *)
Lemma isolate_loop t pre suf room a b m c fuel lo :
  array t (pre ++ suf) room → sorted lo suf → positive suf → split_at base suf = (a, b) → split_at end_ b = (m, c) →
  (length a + length m + length c ≤ room + length suf)%nat → (S (S (length suf)) < fuel)%nat →
  ∃ t', loop fuel (isolate_step base end_) (Z.of_nat (length pre), 0, 0, t) =
      Some (match m with [] => (0, 0, t') | _ => (Z.of_nat (length pre + length a), Z.of_nat (length pre + length a + length m), t') end) ∧
    mt_array t' = mt_array t ∧ array t' (pre ++ a ++ m ++ c) (room + length suf - (length a + length m + length c)).
Proof using Hbe.
  revert t pre room a b fuel lo. induction suf as [|r suf IH]; intros t pre room a b fuel lo Ha Hs Hp Hsp Hspe Hroom Hf; (destruct fuel as [|fuel]; [lia|]).
  { injection Hsp as <- <-. injection Hspe as <- <-. cbn [loop]. rewrite -> (step_stop t pre [] room 0 0 end_) by done. exists t. cbn.
    rewrite -> Nat.add_0_r, Nat.sub_0_r. done. }
  pose proof Hs as (Hr & Hok & Hl). pose proof Hp as [Hpr Hpl]%Forall_cons. cbn [split_at] in Hsp. cbn [length] in *. destruct (Z.leb_spec (rg_top r) base).
  - destruct (split_at base suf) as [a' b'] eqn:E. injection Hsp as <- <-. cbn [loop length] in *. rewrite -> (step_skip _ _ r suf room) by (done || lia).
    apply array_step in Ha. edestruct (IH t (pre ++ [r]) room) as (t' & -> & Harr & Ha'); [done|done|done|done|done|lia| |]; [lia|].
    exists t'. rewrite <- app_assoc in Ha'. rewrite -> !length_app. cbn [length]. split_and!; [|done|].
    + destruct m; [done|]. do 3 f_equal; lia.
    + by replace (room + S (length suf) - (S (length a') + length m + length c))%nat with (room + length suf - (length a' + length m + length c))%nat by lia.
  - destruct (Z.leb_spec base (rg_base r)).
    + injection Hsp as <- <-. assert (sorted base (r :: suf)) as Hsb by (split_and!; done || lia). destruct (isolate_inside t pre (r :: suf) room 0 0 m c (S fuel) base) as (t' & -> & Harr & Ha'); try done; [cbn [length] in *; lia|].
      exists t'. cbn [length Z.eqb] in *. rewrite -> Nat.add_0_r. split_and!; done.
    + injection Hsp as <- <-. cbn [length] in *. pose proof (split_length _ _ _ _ Hspe) as Hsl. cbn [length] in Hsl. destruct room as [|room]; [lia|]. cbn [loop].
      destruct (step_base t pre r suf room 0 0 Ha Hok ltac:(lia)) as (t1 & -> & Harr1 & Ha1).
      destruct (isolate_inside t1 _ _ room 0 0 m c fuel base Ha1) as (t' & -> & Harr & Ha'); try done; [| |cbn; lia|cbn; lia|].
      * destruct Hok as (? & ? & ?). cbn. rw /region_ok. cbn. replace (base + (rg_size r - (base - rg_base r))) with (rg_top r) by lia. split_and!; done || lia.
      * constructor; [cbn; lia|done].
      * exists t'. rewrite <- app_assoc in Ha'. rewrite -> !length_app. cbn [length Z.eqb] in *. split_and!; [done|congruence|].
        by replace (S room + S (length suf) - (1 + length m + length c))%nat with (room + S (length suf) - (length m + length c))%nat by lia.
Qed.
End isolate.

(** ** What isolating leaves *)

(** The regions before, in and behind the range. *)
Record isolated (L : list memblock_region) (base end_ : Z) (A M C : list memblock_region) : Prop := {
  iso_sorted : sorted 0 (A ++ M ++ C);
  iso_owner x : owner (A ++ M ++ C) x = owner L x;
  iso_A : Forall (λ r, rg_top r ≤ base) A;
  iso_M : sorted base M ∧ Forall (λ r, rg_top r ≤ end_) M;
  iso_C : sorted end_ C;
  iso_minimal : minimal A ∧ minimal C;
  iso_kind : positive (A ++ M ++ C) ∧ A ++ M ++ C ≠ [] ∨ A = L ∧ M = [] ∧ C = []
}.

Lemma sorted_app_r lo a l l' x : sorted lo (a ++ l) → Forall (λ r, rg_top r ≤ x) a → lo ≤ x → (∀ lo', lo' ≤ x → sorted lo' l → sorted lo' l') → sorted lo (a ++ l').
Proof.
  revert lo. induction a as [|r a IH]; intros lo Hs Hf Hlo Hl; cbn in *; [by apply Hl|]. destruct Hs as (? & ? & ?). apply Forall_cons in Hf as [Hr Hf].
  split_and!; [done|done|]. by apply IH.
Qed.

Lemma split_isolated L base end_ A B M C :
  region_list L → 0 ≤ base < end_ → split_at base L = (A, B) → split_at end_ B = (M, C) → isolated L base end_ A M C.
Proof.
  intros (Hs & Hmin & Hkind) Hbe HA HM. destruct (split_sorted _ _ _ _ _ Hs HA) as (Hs1 & Hs2 & HfA).
  destruct (split_sorted _ _ _ _ _ Hs2 HM) as (Hs3 & Hs4 & HfM). pose proof (split_minimal _ _ _ _ Hmin HA) as [HmA HmB].
  pose proof (split_minimal _ _ _ _ HmB HM) as [_ HmC]. pose proof (sorted_app _ _ _ Hs3) as [HsM _].
  assert (∀ lo x, sorted lo B → owner (M ++ C) x = owner B x) as HoB by (intros lo x Hlo; by eapply split_owner).
  split; try done.
  - eapply sorted_app_r; [exact Hs1|exact HfA|lia|]. intros lo' Hlo' _. eapply sorted_mono; [|exact Hs3]. done.
  - intros x. rewrite <- (split_owner _ _ _ _ _ x Hs HA), !owner_app. destruct (owner A x); [done|]. rewrite <- (HoB base), owner_app by done. done.
  - destruct Hkind as [[Hp Hne]|(n & ->)].
    + left. destruct (split_pos _ _ _ _ Hp HA) as [HpA HpB]. destruct (split_pos _ _ _ _ HpB HM) as [HpM HpC]. split; [by rewrite -> !Forall_app|].
      pose proof (split_length _ _ _ _ HA). pose proof (split_length _ _ _ _ HM). intros E. apply (f_equal length) in E. rewrite -> !length_app in E.
      destruct L; [done|]. cbn in *. lia.
    + right. cbn [split_at] in HA. rewrite -> (proj2 (Z.leb_le _ base)) in HA by (cbn; lia). injection HA as <- <-. by injection HM as <- <-.
Qed.

Definition recolour (nid : Z) (r : memblock_region) : memblock_region := {| rg_base := rg_base r; rg_size := rg_size r; rg_nid := nid |}.

Lemma recolour_owner M nid x : owner (recolour nid <$> M) x = (λ _, nid) <$> owner M x.
Proof. induction M as [|r M IH]; cbn; [done|]. change (within (recolour nid r) x) with (within r x). destruct (within r x); [done|]. apply IH. Qed.

Section after.
Context (L : list memblock_region) (base end_ : Z) (A M C : list memblock_region) (Hiso : isolated L base end_ A M C) (Hbe : base ≤ end_).

(** Only the middle part has addresses of the range. *)
Lemma iso_where x : if in_range base end_ x then owner A x = None ∧ owner C x = None else owner M x = None.
Proof using Hiso Hbe.
  destruct (iso_M _ _ _ _ _ _ Hiso) as [HM HM']. destruct (in_range base end_ x) eqn:E.
  - apply in_range_spec in E. split; [apply (owner_above A x base); [by apply Forall_forall, (iso_A _ _ _ _ _ _ Hiso)|lia]|].
    apply (owner_below end_ C); [apply (iso_C _ _ _ _ _ _ Hiso)|lia].
  - assert (x < base ∨ end_ ≤ x) as [Hx|Hx]; [|by apply (owner_below base)|by apply (owner_above M x end_ (proj1 (Forall_forall _ _) HM'))].
    destruct (Z.lt_ge_cases x base); [by left|right]. apply Z.nlt_ge. intros ?. rewrite -> (proj2 (in_range_spec base end_ x)) in E by lia. done.
Qed.

Lemma iso_removed x : owner (A ++ C) x = if in_range base end_ x then None else owner L x.
Proof using Hiso Hbe.
  pose proof (iso_where x) as Hx. rewrite <- (iso_owner _ _ _ _ _ _ Hiso), !owner_app.
  destruct (in_range base end_ x); [destruct Hx as [-> ->]|rewrite -> Hx]; done.
Qed.

Lemma iso_recoloured nid x : owner (A ++ (recolour nid <$> M) ++ C) x = if in_range base end_ x then (λ _, nid) <$> owner L x else owner L x.
Proof using Hiso Hbe.
  pose proof (iso_where x) as Hx. rewrite <- (iso_owner _ _ _ _ _ _ Hiso), !owner_app, recolour_owner.
  destruct (in_range base end_ x); [destruct Hx as [-> ->]|rewrite -> Hx]; [by destruct (owner M x)|done].
Qed.

Lemma iso_rest_sorted : sorted 0 (A ++ C).
Proof using Hiso.
  pose proof (iso_sorted _ _ _ _ _ _ Hiso) as Hs. clear -Hs. revert Hs. generalize 0. induction A as [|r l IH]; intros lo Hs; cbn in *; [exact (proj2 (sorted_app _ _ _ Hs))|].
  destruct Hs as (? & ? & ?). by split_and!; [| |apply IH].
Qed.

Lemma iso_rest_minimal : base < end_ → minimal (A ++ C).
Proof using Hiso.
  intros Hlt. pose proof (iso_A _ _ _ _ _ _ Hiso) as HA. pose proof (iso_C _ _ _ _ _ _ Hiso) as HC. destruct (iso_minimal _ _ _ _ _ _ Hiso) as [HmA HmC].
  clear Hiso. induction A as [|r l IH]; [done|]. apply Forall_cons in HA as [Hr HA]. destruct l as [|r' l].
  - cbn. destruct C as [|c C']; [done|]. split; [|done]. destruct HC as (Hc & _). destruct (adjacent r c) eqn:E; [apply adjacent_spec in E; lia|done].
  - destruct HmA as [Hadj HmA]. split; [done|]. by apply IH.
Qed.

Lemma iso_rest_list : base < end_ → region_list (stored (A ++ C)) ∨ A ++ C = L ∧ M = [].
Proof using Hiso.
  intros Hlt. destruct (iso_kind _ _ _ _ _ _ Hiso) as [[Hp Hne]|(-> & -> & ->)]; [left|right; by rewrite -> app_nil_r]. pose proof iso_rest_sorted. pose proof (iso_rest_minimal Hlt).
  rewrite -> !Forall_app in Hp. destruct (A ++ C) as [|r l] eqn:E; cbn.
  - split_and!; try done. right. by exists MAX_NUMNODES.
  - split_and!; [done|done|left]. split; [rewrite <- E; rewrite -> Forall_app; tauto|done].
Qed.
End after.

(** ** Isolating a range *)

Lemma isolate_pass_ok t L room base end_ :
  type_ok t L room → 0 ≤ base < end_ → (2 ≤ room)%nat →
  ∃ t' A M C room', isolated L base end_ A M C ∧ mt_array t' = mt_array t ∧ array t' (A ++ M ++ C) room' ∧
    (length (A ++ M ++ C) + room' = length L + room)%nat ∧ (room ≤ 2 + room')%nat ∧
    isolate_pass base end_ t = Some (match M with [] => (0, 0, t') | _ => (Z.of_nat (length A), Z.of_nat (length A + length M), t') end).
Proof.
  intros [Ha Hl] Hbe Hroom. rw /isolate_pass. pose proof Ha as (_ & _ & _ & -> & _). rewrite -> Nat2Z.id.
  destruct (split_at base L) as [A B] eqn:HA. destruct (split_at end_ B) as [M C] eqn:HM. pose proof (split_length _ _ _ _ HA). pose proof (split_length _ _ _ _ HM).
  pose proof (split_isolated _ _ _ _ _ _ _ Hl Hbe HA HM) as Hiso. pose proof Hl as (Hs & _ & [[Hp _]|(n & ->)]).
  - destruct (isolate_loop base end_ ltac:(lia) t [] L room A B M C (S (S (S (length L)))) 0) as (t' & Hlp & Harr & Ha'); try done; [lia..|].
    do 5 eexists. split_and!; [exact Hiso|exact Harr|exact Ha'|rewrite -> !length_app; lia|lia|exact Hlp].
  - exists t, A, M, C, room. destruct (iso_kind _ _ _ _ _ _ Hiso) as [[Hp _]|(-> & -> & ->)].
    + exfalso. cbn [split_at] in HA. rewrite -> (proj2 (Z.leb_le _ base)) in HA by (cbn; lia). injection HA as <- <-.
      apply Forall_app in Hp as [[Hp _]%Forall_cons _]. cbn in Hp. lia.
    + split_and!; [done|done|done|cbn; lia|lia|]. cbn [length loop].
      change 0 with (Z.of_nat (length (@nil memblock_region))) at 1. destruct Hs as (_ & Hok & _).
      rewrite -> (step_skip base end_ ltac:(lia) t [] {| rg_base := 0; rg_size := 0; rg_nid := n |} [] room) by (done || (cbn; lia)).
      by rewrite -> (step_stop base end_ ltac:(lia) t ([] ++ [{| rg_base := 0; rg_size := 0; rg_nid := n |}]) [] room 0 0 end_).
Qed.

(** ** Removing and recolouring the isolated regions *)

Lemma remove_loop t A M C room fuel :
  array t (A ++ M ++ C) room → A ++ M ++ C ≠ [] → (length M < fuel)%nat →
  ∃ t' room', loop fuel (remove_step (Z.of_nat (length A))) (Z.of_nat (length A + length M) - 1, t) = Some t' ∧ mt_array t' = mt_array t ∧
    array t' (stored (A ++ C)) room' ∧ (length (stored (A ++ C)) + room' = length (A ++ M ++ C) + room)%nat.
Proof.
  revert t room fuel. induction M as [|r M IH] using rev_ind; intros t room fuel Ha Hne Hf; (destruct fuel as [|fuel]; [lia|]); cbn [loop]; rw {1}/remove_step.
  - cbn [length]. ztest. exists t, room. cbn [app] in *. by destruct (A ++ C).
  - rewrite -> length_app in *. cbn [length] in *. ztest. assert (array t ((A ++ M) ++ r :: C) room) as Ha1 by (by rewrite <- !app_assoc in *).
    destruct (remove_stored t (A ++ M) r C room (Z.of_nat (length A + (length M + 1)) - 1) Ha1) as (t1 & room1 & -> & Harr1 & Ha2 & Hlen1); [rewrite -> length_app; lia|].
    cbn [mbind option_bind]. rewrite <- app_assoc in *. destruct (decide (A ++ M ++ C = [])) as [E|E].
    + destruct A, M, C; try done. destruct fuel as [|fuel]; [cbn in *; lia|]. cbn [loop remove_step length app]. ztest. exists t1, room1. done.
    + destruct (IH t1 room1 fuel) as (t' & room' & Hl & Harr & Ha3 & Hlen); [by destruct (A ++ M ++ C)|done|lia|].
      exists t', room'. replace (Z.of_nat (length A + (length M + 1)) - 1 - 1) with (Z.of_nat (length A + length M) - 1) by lia.
      assert (length (stored (A ++ M ++ C)) = length (A ++ M ++ C)) as Est by (by destruct (A ++ M ++ C)).
      split_and!; [done|congruence|done|]. rewrite -> !length_app in *. cbn [length]. lia.
Qed.

Lemma set_nodes_ok A M C nid : set_nodes (Z.of_nat (length A)) (Z.of_nat (length A + length M)) nid (A ++ M ++ C) = Some (A ++ (recolour nid <$> M) ++ C).
Proof.
  rw /set_nodes. replace (Z.to_nat (Z.of_nat (length A + length M) - Z.of_nat (length A))) with (length M) by lia. revert A.
  induction M as [|r M IH]; intros A; [done|]. cbn [length for_each app]. rewrite -> rd_middle by done. cbn [mbind option_bind]. rewrite -> wr_middle by done.
  cbn [mbind option_bind]. rewrite <- length_snoc with (x := recolour nid r). specialize (IH (A ++ [recolour nid r])). rewrite <- !app_assoc in IH. exact IH.
Qed.

Lemma recolour_sorted A M C nid lo : sorted lo (A ++ M ++ C) → sorted lo (A ++ (recolour nid <$> M) ++ C).
Proof.
  revert lo. induction A as [|r A IH]; intros lo; cbn; [|intros (? & ? & ?); split_and!; auto].
  revert lo. induction M as [|r M IH]; intros lo; cbn; [done|]. intros (? & ? & ?). split_and!; auto.
Qed.

Section remove.
Context `{HR : Resizer d P} (k : memblock_kind) (base size : Z) (mb : memblock) (L : list memblock_region) (room : nat).
Context (Hb : 0 ≤ base ≤ ULLONG_MAX) (Hsz : 0 ≤ size) (HP : P mb) (Hok : type_ok (get_type k mb) L room).
Let end_ := base + memblock_cap_size base size.

Lemma isolate_range_ok :
  memblock_cap_size base size = 0 ∧ memblock_isolate_range d k base size mb = Some (0, (0, 0), mb) ∨
  base < end_ ∧ ∃ mb', P mb' ∧ same_rest k mb mb' ∧
    ((room < 2)%nat ∧ (∃ room', type_ok (get_type k mb') L room') ∧ memblock_isolate_range d k base size mb = Some (- ENOMEM, (0, 0), mb') ∨
     ∃ A M C room', isolated L base end_ A M C ∧ array (get_type k mb') (A ++ M ++ C) room' ∧ (length L + room ≤ length (A ++ M ++ C) + room')%nat ∧
       (room ≤ 2 + room')%nat ∧
       memblock_isolate_range d k base size mb =
         Some (0, match M with [] => (0, 0) | _ => (Z.of_nat (length A), Z.of_nat (length A + length M)) end, mb')).
Proof using HR Hb Hsz HP Hok.
  destruct (cap_size_spec base size Hb Hsz) as [Hcap He]. rw /memblock_isolate_range. fold end_.
  destruct (Z.eqb_spec (memblock_cap_size base size) 0) as [E0|E0]; [by left|right]. split; [lia|]. destruct Hok as [Ha Hl].
  destruct (make_room_ok k base (memblock_cap_size base size) 2 mb L room HP Ha) as (b & mb1 & room1 & Hmk & HP1 & Hsame & Ha1 & Hle & Hb' & _).
  change (Z.of_nat 2) with 2 in Hmk. rw Hmk. cbn [mbind option_bind]. destruct b; cbn [negb].
  - destruct (isolate_pass_ok (get_type k mb1) L room1 base end_) as (t' & A & M & C & room' & Hiso & Harr & Ha' & Hlen & Hr' & ->); [done|lia|done|].
    exists (set_type k t' mb1). split_and!.
    + apply resize_set; [done|done|]. by apply (array_max _ _ _ _ _ _ Ha1 Ha').
    + etrans; [done|apply same_rest_set].
    + right. exists A, M, C, room'. rewrite -> get_set_type. split_and!; [done|done|lia|lia|]. destruct M; done.
  - exists mb1. split_and!; [done|done|left]. split_and!; [lia| |done]. by exists room1.
Qed.

(** Removing a range: no address in it has an owner, all others keep theirs. *)
Lemma remove_range_ok :
  ∃ r mb', __memblock_remove d k base size mb = Some (r, mb') ∧ P mb' ∧ same_rest k mb mb' ∧
    (r = 0 ∧ (∃ L' room', type_ok (get_type k mb') L' room' ∧ (∀ x, owner L' x = if in_range base end_ x then None else owner L x) ∧
                (length L + room ≤ length L' + room')%nat) ∨
     r = - ENOMEM ∧ (room < 2)%nat ∧ ∃ room', type_ok (get_type k mb') L room').
Proof using HR Hb Hsz HP Hok.
  rw /__memblock_remove. destruct isolate_range_ok as [[E0 ->]|(Hlt & mb1 & HP1 & Hsame & [(Hroom & (room' & Hok') & ->)|(A & M & C & room1 & Hiso & Ha & Hlen & _ & ->)])];
    cbn [mbind option_bind].
  - exists 0, mb. change (remove_regions 0 0 (get_type k mb)) with (Some (get_type k mb)).
    split_and!; [cbn [mbind option_bind Z.eqb negb]; by rewrite -> set_get_type|done|done|left]. split; [done|]. exists L, room. split_and!; [done| |lia].
    intros x. rw /in_range /end_. rewrite -> E0. case_if; [lia|done].
  - exists (- ENOMEM), mb1. split_and!; [done|done|done|right]. eauto.
  - assert (∀ x, owner (stored (A ++ C)) x = if in_range base end_ x then None else owner L x) as Ho.
    { intros x. rewrite -> stored_owner. apply (iso_removed _ _ _ _ _ _ Hiso). lia. }
    assert (∃ t' room', remove_regions (match M with [] => 0 | _ => Z.of_nat (length A) end) (match M with [] => 0 | _ => Z.of_nat (length A + length M) end) (get_type k mb1) = Some t' ∧
      mt_array t' = mt_array (get_type k mb1) ∧ array t' (stored (A ++ C)) room' ∧ (length (stored (A ++ C)) + room' = length (A ++ M ++ C) + room1)%nat)
      as (t' & room' & Hrm & Harr & Ha' & Hlen').
    { assert (A ++ M ++ C ≠ []) as Hne.
      { destruct (iso_kind _ _ _ _ _ _ Hiso) as [[_ ?]|(-> & -> & ->)]; [done|]. rewrite -> app_nil_r. apply region_list_nonempty, Hok. }
      rw /remove_regions. destruct M as [|r M'] eqn:EM.
      - exists (get_type k mb1), room1. cbn [app] in *. split_and!; [done|done|by destruct (A ++ C)|by destruct (A ++ C)].
      - apply (remove_loop (get_type k mb1) A (r :: M') C room1); [done|done|lia]. }
    exists 0, (set_type k t' mb1). split_and!; [by destruct M; cbn [mbind option_bind negb Z.eqb]; rw Hrm| |etrans; [done|apply same_rest_set]|left].
    + apply resize_set; [done|done|]. by apply (array_max _ _ _ _ _ _ Ha Ha').
    + split; [done|]. exists (stored (A ++ C)), room'. rewrite -> get_set_type. split_and!; [split; [done|]|done|lia].
      destruct (iso_rest_list _ _ _ _ _ _ Hiso Hlt) as [|[-> _]]; [done|]. destruct Hok as [_ Hl]. destruct L; [|done]. by destruct Hl as (_ & _ & [[_ ?]|(? & ?)]).
Qed.
End remove.

(** ** Setting the node of a range *)

Lemma recolour_sizes M nid : sizes (recolour nid <$> M) = sizes M.
Proof. induction M as [|r M IH]; cbn; [done|]. by rw IH. Qed.

Lemma recolour_array t A M C room nid :
  array t (A ++ M ++ C) room →
  ∃ l, (let '(s, e) := match M with [] => (0, 0) | _ => (Z.of_nat (length A), Z.of_nat (length A + length M)) end in set_nodes s e nid (mt_regions t)) = Some l ∧
    array (set_regions t (mt_cnt t) (mt_total_size t) l) (A ++ (recolour nid <$> M) ++ C) room.
Proof.
  intros (rest & Er & Hr & Hc & Hm & Ht). exists (A ++ (recolour nid <$> M) ++ C ++ rest). split.
  - rewrite -> Er, <- !app_assoc. destruct M as [|r M]; [done|]. apply (set_nodes_ok A (r :: M) (C ++ rest)).
  - exists rest. cbn. rewrite -> !length_app in *. rewrite -> length_fmap.
    split_and!; [by rewrite <- !app_assoc|done|done|done|]. by rw Ht !sizes_app recolour_sizes.
Qed.

Section set_node.
Context `{HR : Resizer d P} (base size nid : Z) (mb : memblock) (L : list memblock_region) (room : nat).
Context (Hb : 0 ≤ base ≤ ULLONG_MAX) (Hsz : 0 ≤ size) (HP : P mb) (Hok : type_ok (mb_memory mb) L room).
Let end_ := base + memblock_cap_size base size.

(** The addresses of the range that have a node get the new one; a fault of the merge if the array is full. *)
Lemma set_node_ok :
  match memblock_set_node d base size nid mb with
  | Some (r, mb') =>
      P mb' ∧ same_rest Memory mb mb' ∧
      (r = 0 ∧ (∃ L' room', type_ok (mb_memory mb') L' room' ∧
                  ∀ x, owner L' x = if in_range base end_ x then (λ _, nid) <$> owner L x else owner L x) ∨
       r = - ENOMEM ∧ (room < 2)%nat ∧ ∃ room', type_ok (mb_memory mb') L room')
  | None => (room ≤ 2)%nat
  end.
Proof using HR Hb Hsz HP Hok.
  rw /memblock_set_node.
  destruct (isolate_range_ok Memory base size mb L room Hb Hsz HP Hok) as [[E0 ->]|(Hlt & mb1 & HP1 & Hsame & [(Hroom & (room' & Hok') & ->)|(A & M & C & room1 & Hiso & Ha & Hlen & Hr1 & ->)])];
    cbn [mbind option_bind Z.eqb negb].
  - change (set_nodes 0 0 nid ?l) with (Some l). cbn [mbind option_bind]. destruct Hok as [Ha Hl].
    assert (array (set_regions (mb_memory mb) (mt_cnt (mb_memory mb)) (mt_total_size (mb_memory mb)) (mt_regions (mb_memory mb))) L room) as Ha' by exact Ha.
    pose proof (merge_total _ _ _ Ha' (proj1 Hl) (or_intror Hl)) as Hm. destruct (memblock_merge_regions _) as [t'|]; cbn [mbind option_bind]; [|lia].
    destruct Hm as (Harr & L' & room' & Hok' & Ho & Hlen).
    split_and!; [by apply (resize_set Memory); [done|done|apply (array_max _ _ _ _ _ _ Ha (proj1 Hok') Hlen)]|done|left]. split; [done|]. exists L', room'.
    split; [done|]. intros x. rw Ho /in_range /end_ E0. case_if; [lia|done].
  - split_and!; [done|done|right]. eauto.
  - destruct (recolour_array _ A M C room1 nid Ha) as (l & Hset & Ha2).
    assert (positive (A ++ (recolour nid <$> M) ++ C) ∧ A ++ (recolour nid <$> M) ++ C ≠ [] ∨ region_list (A ++ (recolour nid <$> M) ++ C)) as Hk.
    { destruct (iso_kind _ _ _ _ _ _ Hiso) as [[Hp Hne]|(-> & -> & ->)]; [left|right; cbn; rewrite -> app_nil_r; apply Hok].
      rewrite -> !Forall_app in Hp. rewrite -> !Forall_app, Forall_fmap. split; [done|]. intros E. apply Hne, nil_length_inv. apply (f_equal length) in E.
      rewrite -> !length_app, length_fmap in E. rewrite -> !length_app. exact E. }
    pose proof (merge_total _ _ _ Ha2 (recolour_sorted _ _ _ nid _ (iso_sorted _ _ _ _ _ _ Hiso)) Hk) as Hm. revert Hset. destruct (match M with [] => _ | _ => _ end) as [s e].
    intros Hset. change (mt_regions (get_type Memory mb1)) with (mt_regions (mb_memory mb1)) in Hset. rw Hset. cbn [mbind option_bind get_type] in *.
    destruct (memblock_merge_regions _) as [t'|]; cbn [mbind option_bind]; [|lia]. destruct Hm as (Harr & L' & room' & Hok' & Ho & Hlen').
    split_and!; [apply (resize_set Memory); [done|done|by apply (array_max _ _ _ _ _ _ Ha2 (proj1 Hok'))]|etrans; [done|apply same_rest_set]|left].
    split; [done|]. exists L', room'. split; [done|]. intros x. rw Ho. apply (iso_recoloured _ _ _ _ _ _ Hiso). lia.
Qed.
End set_node.

(** ** The theorems *)

(** removing a range from an array that satisfies the invariant never faults: no address of the range has an owner afterwards, all others keep
    theirs, the regions are sorted, disjoint and as few as possible and the total is their size; or, if fewer than two entries are free and the array
    cannot grow, -ENOMEM and nothing changed. *)
Theorem memblock_remove_correct d P (HR : Resizer d P) k base size mb L room
    (Hb : 0 ≤ base ≤ ULLONG_MAX) (Hsz : 0 ≤ size) (HP : P mb) (Hok : type_ok (get_type k mb) L room) :
  ∃ r mb', __memblock_remove d k base size mb = Some (r, mb') ∧ same_rest k mb mb' ∧
    (r = 0 ∧ (∃ L' room', type_ok (get_type k mb') L' room' ∧ mt_total_size (get_type k mb') = sizes L' ∧
                ∀ x, owner L' x = if in_range base (base + memblock_cap_size base size) x then None else owner L x) ∨
     r = - ENOMEM ∧ (room < 2)%nat ∧ ∃ room', type_ok (get_type k mb') L room').
Proof.
  destruct (remove_range_ok k base size mb L room Hb Hsz HP Hok) as (r & mb' & Hr & _ & Hsame & Hres). exists r, mb'. split_and!; [done|done|].
  destruct Hres as [(-> & L' & room' & Hok' & Ho & _)|Hres]; [left|by right]. split; [done|]. exists L', room'. split_and!; [done|by eapply type_total|done].
Qed.

Lemma memblock_remove_correct_witness :
  ∃ r mb', memblock_free (memblock_double_array no_slab 4) 0x1000 0x2000 memblock_init = Some (r, mb') ∧ same_rest Reserved memblock_init mb' ∧
    (r = 0 ∧ (∃ L' room', type_ok (mb_reserved mb') L' room' ∧ mt_total_size (mb_reserved mb') = sizes L' ∧
                ∀ x, owner L' x = if in_range 0x1000 0x3000 x then None else owner [zero_region] x) ∨
     r = - ENOMEM ∧ (127 < 2)%nat ∧ ∃ room', type_ok (mb_reserved mb') [zero_region] room').
Proof.
  refine (memblock_remove_correct _ _ (no_resize no_slab 3) Reserved 0x1000 0x2000 memblock_init [zero_region] 127 _ _ eq_refl (init_ok Reserved)); [by vm_compute|lia].
Defined.

(** setting the node of a range gives the new node to exactly the addresses of the range that have one; regions with the same node that touch become one.
    Failure is -ENOMEM with nothing changed; the merge can read behind the array only if at most two entries were free. *)
Theorem memblock_set_node_correct d P (HR : Resizer d P) base size nid mb L room
    (Hb : 0 ≤ base ≤ ULLONG_MAX) (Hsz : 0 ≤ size) (HP : P mb) (Hok : type_ok (mb_memory mb) L room) :
  match memblock_set_node d base size nid mb with
  | Some (r, mb') =>
      same_rest Memory mb mb' ∧
      (r = 0 ∧ (∃ L' room', type_ok (mb_memory mb') L' room' ∧
                  ∀ x, owner L' x = if in_range base (base + memblock_cap_size base size) x then (λ _, nid) <$> owner L x else owner L x) ∨
       r = - ENOMEM ∧ (room < 2)%nat ∧ ∃ room', type_ok (mb_memory mb') L room')
  | None => (room ≤ 2)%nat
  end.
Proof.
  pose proof (set_node_ok base size nid mb L room Hb Hsz HP Hok) as Hres. destruct (memblock_set_node d base size nid mb) as [[r mb']|]; [|done]. by destruct Hres as (_ & ? & ?).
Qed.

Lemma memblock_set_node_correct_witness :
  match memblock_set_node (memblock_double_array no_slab 4) 0x1000 0x2000 1 memblock_init with
  | Some (r, mb') => same_rest Memory memblock_init mb' ∧
      (r = 0 ∧ (∃ L' room', type_ok (mb_memory mb') L' room' ∧
                  ∀ x, owner L' x = if in_range 0x1000 0x3000 x then (λ _, 1) <$> owner [zero_region] x else owner [zero_region] x) ∨
       r = - ENOMEM ∧ (127 < 2)%nat ∧ ∃ room', type_ok (mb_memory mb') [zero_region] room')
  | None => (127 ≤ 2)%nat
  end.
Proof.
  refine (memblock_set_node_correct _ _ (no_resize no_slab 3) 0x1000 0x2000 1 memblock_init [zero_region] 127 _ _ eq_refl (init_ok Memory)); [by vm_compute|lia].
Defined.
