(* ===== verification/MemblockFind.v ===== *)
(** * Early memory: looking up addresses and finding free memory

    Binary search in an array; the reverse iterator over the free areas; memblock_find_in_range_node finds a block exactly if one fits; and what
    allocation returns is free memory that is reserved afterwards. *)
From S2P Require Import Prelude Memblock MemblockRep MemblockAdd.

(** ** Positions *)

Lemma array_lookup t L room (i : nat) r : array t L room → L !! i = Some r → rd (mt_regions t) (Z.of_nat i) = Some r.
Proof. intros Ha Hi. apply take_drop_middle in Hi as E. rewrite <- E in Ha. eapply array_rd; [exact Ha|]. apply lookup_lt_Some in Hi. rewrite -> length_take. lia. Qed.

Lemma sorted_lookup lo L i j r r' : sorted lo L → (i < j)%nat → L !! i = Some r → L !! j = Some r' → rg_top r ≤ rg_base r'.
Proof.
  revert lo i j. induction L as [|r0 L IH]; intros lo i j Hs Hij Hi Hj; [done|]. destruct Hs as (_ & Hok & Hl). destruct j as [|j]; [lia|]. cbn in Hj.
  destruct i as [|i]; cbn in Hi.
  - injection Hi as ->. apply (sorted_ok _ _ _ Hl). by apply list_elem_of_lookup_2 in Hj.
  - eapply IH; [done| |done|done]. lia.
Qed.

Lemma sorted_lookup_ok lo L i r : sorted lo L → L !! i = Some r → region_ok r.
Proof. intros Hs Hi. eapply sorted_ok; [done|]. by apply list_elem_of_lookup_2 in Hi. Qed.

Lemma owner_None L x : (∀ i r, L !! i = Some r → within r x = false) → owner L x = None.
Proof.
  induction L as [|r L IH]; [done|]. intros H. cbn. rewrite -> (H 0%nat r eq_refl). apply IH. intros i r' Hi. by apply (H (S i)).
Qed.

(** ** memblock_search *)

Lemma search_ok t L room addr : type_ok t L room → ∃ i, memblock_search t addr = Some i ∧
  (i = -1 ∧ owner L addr = None ∨ ∃ j r, i = Z.of_nat j ∧ L !! j = Some r ∧ rg_base r ≤ addr < rg_top r).
Proof.
  intros [Ha Hl]. pose proof Hl as (Hs & _). pose proof (region_list_nonempty _ Hl). pose proof Ha as (_ & _ & _ & Hc & _). rw /memblock_search.
  apply (loop_inv (λ '(lo, hi), 0 ≤ lo < hi ∧ hi ≤ Z.of_nat (length L) ∧ ∀ j r, L !! j = Some r → within r addr = true → lo ≤ Z.of_nat j < hi) (λ '(lo, hi), Z.to_nat (hi - lo))).
  - intros [lo hi] (Hlo & Hhi & Hin). rw /search_step. set (mid := (hi + lo) / 2). assert (lo ≤ mid < hi) as Hmid by (rw /mid; zdm).
    destruct (lookup_lt_is_Some_2 L (Z.to_nat mid)) as [r Hr]; [lia|]. pose proof (array_lookup _ _ _ _ _ Ha Hr) as Hrd. rewrite -> Z2Nat.id in Hrd by lia. rw Hrd.
    cbn [mbind option_bind]. pose proof (sorted_lookup_ok _ _ _ _ Hs Hr) as Hok. rewrite -> rg_end_top by done. pose proof Hok as (? & ? & ?).
    assert (∀ j r', L !! j = Some r' → within r' addr = true → (addr < rg_base r → Z.of_nat j < mid) ∧ (rg_top r ≤ addr → mid < Z.of_nat j)) as Hcmp.
    { intros j r' Hj Hw. apply within_spec in Hw. destruct (Nat.lt_trichotomy j (Z.to_nat mid)) as [Hlt|[->|Hlt]].
      - pose proof (sorted_lookup _ _ _ _ _ _ Hs Hlt Hj Hr). lia.
      - simplify_eq. lia.
      - pose proof (sorted_lookup _ _ _ _ _ _ Hs Hlt Hr Hj). lia. }
    assert (∀ lo' hi', (∀ j r', L !! j = Some r' → within r' addr = true → lo' ≤ Z.of_nat j < hi') → hi' ≤ lo' → owner L addr = None) as Hnone.
    { intros lo' hi' Hin' Hle. apply owner_None. intros j r' Hj. destruct (within r' addr) eqn:E; [|done]. specialize (Hin' j r' Hj E). lia. }
    destruct (Z.ltb_spec addr (rg_base r)).
    + assert (∀ j r', L !! j = Some r' → within r' addr = true → lo ≤ Z.of_nat j < mid) as Hin'.
      { intros j r' Hj Hw. pose proof (Hin j r' Hj Hw). destruct (Hcmp j r' Hj Hw) as [Hc1 _]. specialize (Hc1 ltac:(lia)). lia. }
      destruct (Z.ltb_spec lo mid); [left; eexists; split; [done|]; split_and!; try done; lia|]. right. eexists. split; [done|]. left. split; [done|].
      by apply (Hnone _ _ Hin').
    + destruct (Z.leb_spec (rg_top r) addr).
      * assert (∀ j r', L !! j = Some r' → within r' addr = true → mid + 1 ≤ Z.of_nat j < hi) as Hin'.
        { intros j r' Hj Hw. pose proof (Hin j r' Hj Hw). destruct (Hcmp j r' Hj Hw) as [_ Hc1]. specialize (Hc1 ltac:(lia)). lia. }
        destruct (Z.ltb_spec (mid + 1) hi); [left; eexists; split; [done|]; split_and!; try done; lia|]. right. eexists. split; [done|]. left. split; [done|].
        by apply (Hnone _ _ Hin').
      * right. eexists. split; [done|]. right. exists (Z.to_nat mid), r. split_and!; [lia|done|lia|lia].
  - rewrite -> Hc. split_and!; [lia|destruct L; [done|cbn; lia]|lia|]. intros j r Hj _. apply lookup_lt_Some in Hj. lia.
  - rewrite -> Hc. lia.
Qed.

(** ** Rounding and packed indices *)

Lemma round_down_spec x p : in_width 64 x → 0 ≤ p < 64 → round_down x (2 ^ p) = x - x mod 2 ^ p.
Proof.
  intros Hx Hp. rw /round_down /round_mask. pose proof (pow2_pos p ltac:(lia)). pose proof (Z.pow_lt_mono_r 2 p 64 ltac:(lia) ltac:(lia) ltac:(lia)).
  rewrite -> wrap_small by (rw /in_width; lia). rewrite -> Z.sub_1_r, <- Z.ones_equiv. rewrite -> Z.mod_eq by lia.
  replace (x - (x - 2 ^ p * (x / 2 ^ p))) with ((x / 2 ^ p) * 2 ^ p) by lia. rewrite <- Z.shiftr_div_pow2, <- Z.shiftl_mul_pow2 by lia.
  apply Z.bits_inj'. intros i Hi. rewrite -> Z.land_spec, testbit_bnot, testbit_ones by lia.
  destruct (Z.lt_ge_cases i p); [rewrite -> Z.shiftl_spec_low by lia; ztest; done|]. rewrite -> Z.shiftl_spec, Z.shiftr_spec by lia.
  replace (i - p + p) with i by lia. ztest. destruct (Z.ltb_spec i 64); [by rewrite -> andb_true_r|]. rewrite -> (testbit_above 64) by (done || lia). done.
Qed.

(** The loop index of the iterator as a pair. *)
Definition unpack (idx : Z) : Z * Z := (swrap 32 (Z.land idx 0xffffffff), swrap 32 (Z.shiftr idx 32)).

Lemma pack_value mi ri : pack_idx mi ri = wrap 32 mi + 2 ^ 32 * wrap 32 ri.
Proof.
  rw /pack_idx. assert (wrap 64 (Z.shiftl ri 32) = Z.shiftl (wrap 32 ri) 32) as ->.
  { rewrite -> !Z.shiftl_mul_pow2 by lia. rw /wrap. change (2 ^ 64) with (2 ^ 32 * 2 ^ 32). rewrite -> Z.mul_mod_distr_r by lia. done. }
  rewrite <- Z.add_nocarry_lor.
  - rewrite -> Z.shiftl_mul_pow2 by lia. lia.
  - apply Z.bits_inj'. intros i Hi. rewrite -> Z.land_spec, Z.bits_0. destruct (Z.lt_ge_cases i 32); [rewrite -> Z.shiftl_spec_low by lia; apply andb_false_r|].
    rewrite -> (testbit_above 32 (wrap 32 mi)) by (lia || (apply in_width_wrap; lia)). done.
Qed.

Lemma unpack_pack mi ri : -1 ≤ mi < 2 ^ 31 → -1 ≤ ri < 2 ^ 31 → unpack (pack_idx mi ri) = (mi, ri).
Proof.
  intros Hm Hr. rw /unpack pack_value. change 0xffffffff with (Z.ones 32). rewrite -> Z.land_ones, Z.shiftr_div_pow2 by lia. rw /wrap /swrap. f_equal; zdm.
Qed.

Lemma pack_not_max mi ri : -1 ≤ mi < 2 ^ 31 → -1 ≤ ri < 2 ^ 31 → -1 ≤ mi + ri → pack_idx mi ri ≠ ULLONG_MAX.
Proof. intros Hm Hr Hmr. rw pack_value /ULLONG_MAX /wrap. zdm. Qed.

(** ** The free areas *)

Lemma clamp_spec v lo hi : lo ≤ hi → clamp v lo hi = Z.min hi (Z.max lo v).
Proof. intros. rw /clamp. cbn zeta. destruct (Z.ltb_spec v lo); case_if; lia. Qed.

(** The area before reservation [g]. *)
Definition gap_start (R : list memblock_region) (g : nat) : Z :=
  match g with O => 0 | S g => match R !! g with Some r => rg_top r | None => 0 end end.
Definition gap_end (R : list memblock_region) (g : nat) : Z := match R !! g with Some r => rg_base r | None => ULLONG_MAX end.

Lemma gap_order R g g' : sorted 0 R → (g < g' ≤ length R)%nat → gap_end R g ≤ gap_start R g'.
Proof.
  intros Hs Hg. rw /gap_end /gap_start. destruct g' as [|g']; [lia|]. destruct (lookup_lt_is_Some_2 R g) as [r Hr]; [lia|].
  destruct (lookup_lt_is_Some_2 R g') as [r' Hr']; [lia|]. rw Hr Hr'. pose proof (sorted_lookup_ok _ _ _ _ Hs Hr') as (? & ? & ?).
  destruct (decide (g = g')) as [->|]; [simplify_eq; lia|]. pose proof (sorted_lookup_ok _ _ _ _ Hs Hr) as (? & ? & ?).
  pose proof (sorted_lookup _ _ g g' _ _ Hs ltac:(lia) Hr Hr'). lia.
Qed.

Lemma gap_le R g : sorted 0 R → (g ≤ length R)%nat → 0 ≤ gap_start R g ≤ gap_end R g ∧ gap_end R g ≤ ULLONG_MAX.
Proof.
  intros Hs Hg. assert (0 ≤ ULLONG_MAX) by done. rw /gap_end /gap_start. destruct (R !! g) as [r|] eqn:Er; [pose proof (sorted_lookup_ok _ _ _ _ Hs Er) as (? & ? & ?)|];
    (destruct g as [|g]; [cbn; lia|]);
    (destruct (lookup_lt_is_Some_2 R g) as [r' Hr']; [lia|]); rw Hr'; pose proof (sorted_lookup_ok _ _ _ _ Hs Hr') as (? & ? & ?); [|lia].
  pose proof (sorted_lookup _ _ g (S g) _ _ Hs ltac:(lia) Hr' Er). lia.
Qed.

Lemma gap_bounds_ok t R room g : array t R room → sorted 0 R → (g ≤ length R)%nat → gap_bounds t (Z.of_nat g) = Some (gap_start R g, gap_end R g).
Proof.
  intros Ha Hs Hg. rw /gap_bounds. pose proof Ha as (_ & _ & _ & -> & _). rw /gap_start /gap_end.
  assert ((if Z.of_nat g <? Z.of_nat (length R) then r ← rd (mt_regions t) (Z.of_nat g); Some (rg_base r) else Some ULLONG_MAX) =
    Some (match R !! g with Some r => rg_base r | None => ULLONG_MAX end)) as ->.
  { destruct (R !! g) as [r|] eqn:E.
    - apply lookup_lt_Some in E as Hlt. ztest. by rewrite -> (array_lookup _ _ _ _ _ Ha E).
    - apply lookup_ge_None in E. by ztest. }
  destruct g as [|g]; [done|]. ztest. replace (Z.of_nat (S g) - 1) with (Z.of_nat g) by lia. destruct (lookup_lt_is_Some_2 R g) as [r Hr]; [lia|].
  rewrite -> (array_lookup _ _ _ _ _ Ha Hr), Hr. cbn [mbind option_bind]. by rewrite -> rg_end_top by (by eapply sorted_lookup_ok).
Qed.

Section iterate.
Context (tm tr : memblock_type) (Lm Lr : list memblock_region) (rm rr : nat) (nid : Z).
Context (Hm : array tm Lm rm) (Hsm : sorted 0 Lm) (Hr : array tr Lr rr) (Hsr : sorted 0 Lr).
Context (Hlm : Z.of_nat (length Lm) < 2 ^ 31) (Hlr : Z.of_nat (length Lr) < 2 ^ 31).

Definition node_ok (m : memblock_region) : Prop := nid = MAX_NUMNODES ∨ nid = rg_nid m.

(** Memory region [j] and free area [g] have something in common. *)
Definition meets (m : memblock_region) (g : nat) : Prop := gap_start Lr g < rg_top m ∧ rg_base m < gap_end Lr g.

Lemma rev_inner_ok m ri : region_ok m → -1 ≤ ri ≤ Z.of_nat (length Lr) →
  ∃ res, loop (S (S (Z.to_nat (mt_cnt tr)))) (rev_inner tr m) ri = Some res ∧
    match res with
    | inl ri' => -1 ≤ ri' ≤ ri ∧ (∀ g : nat, Z.of_nat g ≤ ri → ¬ meets m g) ∧ (∀ g : nat, ri' < Z.of_nat g ≤ ri → rg_top m ≤ gap_start Lr g)
    | inr (ri', area, first) => ∃ g : nat, ri' = Z.of_nat g ∧ ri' ≤ ri ∧ meets m g ∧ (∀ g : nat, ri' < Z.of_nat g ≤ ri → rg_top m ≤ gap_start Lr g) ∧
        area = (Z.max (rg_base m) (gap_start Lr g), Z.min (rg_top m) (gap_end Lr g), rg_nid m) ∧ first = (gap_start Lr g <=? rg_base m)
    end.
Proof using Hr Hsr.
  clear Hm Hsm Hlm Hlr. intros Hok Hri. apply (loop_inv (λ r, -1 ≤ r ≤ ri ∧ ∀ g : nat, r < Z.of_nat g ≤ ri → rg_top m ≤ gap_start Lr g) (λ r, Z.to_nat (r + 1))).
  - intros r (Hrb & Hskip). rw /rev_inner. destruct (Z.ltb_spec r 0).
    { right. eexists. split; [done|]. split_and!; [lia|lia| |done]. intros g Hg [Hg1 _]. specialize (Hskip g ltac:(lia)). lia. }
    replace r with (Z.of_nat (Z.to_nat r)) by lia. set (g := Z.to_nat r). rewrite -> (gap_bounds_ok tr Lr rr) by (done || lia). cbn [mbind option_bind].
    rewrite -> rg_end_top by done. destruct (Z.leb_spec (gap_end Lr g) (rg_base m)).
    { right. eexists. split; [done|]. split_and!; [lia|lia| |intros g' Hg'; apply Hskip; lia]. intros g' Hg' [Hg1 Hg2]. destruct (Nat.lt_trichotomy g' g) as [Hlt|[->|Hlt]]; [|lia|].
      - pose proof (gap_order Lr g' g Hsr ltac:(lia)). pose proof (gap_le Lr g Hsr ltac:(lia)). lia.
      - specialize (Hskip g' ltac:(lia)). lia. }
    destruct (Z.ltb_spec (gap_start Lr g) (rg_top m)).
    + right. eexists. split; [done|]. cbn. exists g. split_and!; try done; try lia. intros g' Hg'. apply Hskip. lia.
    + left. eexists. split; [done|]. split; [|lia]. split; [lia|]. intros g' Hg'. destruct (decide (g' = g)) as [->|]; [lia|]. apply Hskip. lia.
  - split; [lia|]. lia.
  - pose proof Hr as (_ & _ & _ & -> & _). lia.
Qed.

(** The pairs of a region of the node and an area that meet, up to given indices. *)
Definition pair_at (j g : nat) : Prop := ∃ m, Lm !! j = Some m ∧ node_ok m ∧ (g ≤ length Lr)%nat ∧ meets m g.

(** What one call of the iterator gives: the last pair with its area and indices from which all others are found, or nothing if there is none. *)
Definition iterator_post (mi0 ri0 : Z) (res : Z * option (Z * Z * Z)) : Prop :=
  match res with
  | (idx, None) => ∀ j g, pair_at j g → ¬ (Z.of_nat j ≤ mi0 ∧ Z.of_nat g ≤ ri0)
  | (idx, Some area) => ∃ (j g : nat) m mi ri, idx = pack_idx mi ri ∧ Z.of_nat j ≤ mi0 ∧ Z.of_nat g ≤ ri0 ∧ -1 ≤ mi ∧ -1 ≤ ri ∧ mi ≤ mi0 ∧ ri ≤ ri0 ∧
      -1 ≤ mi + ri < mi0 + ri0 ∧ Lm !! j = Some m ∧ node_ok m ∧ (g ≤ length Lr)%nat ∧ meets m g ∧
      area = (Z.max (rg_base m) (gap_start Lr g), Z.min (rg_top m) (gap_end Lr g), rg_nid m) ∧
      (∀ j' g', pair_at j' g' → Z.of_nat j' ≤ mi0 ∧ Z.of_nat g' ≤ ri0 → j' = j ∧ g' = g ∨ Z.of_nat j' ≤ mi ∧ Z.of_nat g' ≤ ri)
  end.

Lemma below_later j' j m' m : Lm !! j' = Some m' → Lm !! j = Some m → (j' < j)%nat → rg_top m' ≤ rg_base m.
Proof using Hsm. intros H1 H2 H3. exact (sorted_lookup _ _ _ _ _ _ Hsm H3 H1 H2). Qed.

Lemma rev_outer_ok mi0 ri0 :
  -1 ≤ mi0 < Z.of_nat (length Lm) → -1 ≤ ri0 ≤ Z.of_nat (length Lr) →
  ∃ res, loop (S (Z.to_nat (mt_cnt tm))) (rev_outer tm tr nid) (mi0, ri0) = Some res ∧ iterator_post mi0 ri0 res.
Proof using Hm Hsm Hr Hsr Hlm Hlr.
  intros Hmi Hri.
  apply (loop_inv (λ '(mi, ri), -1 ≤ mi ≤ mi0 ∧ -1 ≤ ri ≤ ri0 ∧
    ∀ j g, pair_at j g → Z.of_nat j ≤ mi0 ∧ Z.of_nat g ≤ ri0 → Z.of_nat j ≤ mi ∧ Z.of_nat g ≤ ri) (λ '(mi, _), Z.to_nat (mi + 1))).
  - intros [mi ri] (Hmi1 & Hri1 & Hall). rw /rev_outer. destruct (Z.ltb_spec mi 0).
    { right. eexists. split; [done|]. intros j g Hp Hjg. specialize (Hall j g Hp Hjg). lia. }
    destruct (lookup_lt_is_Some_2 Lm (Z.to_nat mi)) as [m Hj]; [lia|]. set (j := Z.to_nat mi) in *. replace mi with (Z.of_nat j) in * by lia.
    rewrite -> (array_lookup _ _ _ _ _ Hm Hj). cbn [mbind option_bind]. pose proof (sorted_lookup_ok _ _ _ _ Hsm Hj) as Hok.
    destruct (negb (nid =? MAX_NUMNODES) && negb (nid =? rg_nid m)) eqn:En; zbool.
    { left. eexists. split; [done|]. split; [|lia]. split_and!; [lia|lia|lia|lia|]. intros j' g Hp Hjg. specialize (Hall j' g Hp Hjg).
      destruct (decide (j' = j)) as [->|]; [|lia]. destruct Hp as (m' & Hj' & Hn & _). simplify_eq. destruct Hn; lia. }
    destruct (rev_inner_ok m ri Hok ltac:(lia)) as ([ri'|[[ri' area] first]] & -> & Hres); cbn [mbind option_bind].
    + destruct Hres as (Hri' & Hno & Hskip). left. eexists. split; [done|]. split; [|lia]. split_and!; [lia|lia|lia|lia|]. intros j' g Hp Hjg. specialize (Hall j' g Hp Hjg).
      destruct Hp as (m' & Hj' & Hn & Hgl & Hmeet). destruct (decide (j' = j)) as [->|]; [simplify_eq; exfalso; by apply (Hno g); [lia|]|]. split; [lia|].
      apply Z.nlt_ge. intros Hlt. specialize (Hskip g ltac:(lia)). pose proof (below_later j' j m' m Hj' Hj ltac:(lia)). destruct Hmeet, Hok as (? & ? & ?). lia.
    + destruct Hres as (g & -> & Hgri & Hmeet & Hskip & -> & ->). right. eexists. split; [done|].
      assert (node_ok m) as Hn by (rw /node_ok; destruct En; zbool; auto).
      assert (∀ j' g', pair_at j' g' → Z.of_nat j' ≤ mi0 ∧ Z.of_nat g' ≤ ri0 → (j' ≤ j)%nat ∧ (g' ≤ g)%nat ∧
        (gap_start Lr g ≤ rg_base m → j' = j → g' = g) ∧ (rg_base m < gap_start Lr g → g' = g → j' = j)) as Hcmp.
      { intros j' g' Hp Hjg. specialize (Hall j' g' Hp Hjg). destruct Hp as (m' & Hj' & _ & Hgl & [Hm1 Hm2]). pose proof Hok as (? & ? & ?).
        assert (j' = j ∧ m' = m ∨ (j' < j)%nat ∧ rg_top m' ≤ rg_base m) as Hjj.
        { destruct (decide (j' = j)) as [->|]; [left; by simplify_eq|right]. split; [lia|]. apply (below_later j' j); done || lia. }
        assert (g' ≤ g)%nat as Hg'. { apply Nat.nlt_ge. intros Hlt. specialize (Hskip g' ltac:(lia)). destruct Hjj as [[_ ->]|]; lia. }
        split_and!; [lia|done| |].
        - intros Hle ->. destruct (decide (g' = g)); [done|]. pose proof (gap_order Lr g' g Hsr ltac:(lia)). destruct Hjj as [[_ ->]|]; lia.
        - intros Hlt ->. destruct Hjj as [[-> _]|[_ ?]]; [done|lia]. }
      destruct (Z.leb_spec (gap_start Lr g) (rg_base m)); exists j, g, m; [exists (Z.of_nat j - 1), (Z.of_nat g)|exists (Z.of_nat j), (Z.of_nat g - 1)];
        split_and!; try done; try lia; intros j' g' Hp Hjg; destruct (Hcmp j' g' Hp Hjg) as (? & ? & Hc1 & Hc2); destruct (decide (j' = j)), (decide (g' = g)); auto; try lia.
  - split; [lia|]. split; [lia|]. done.
  - pose proof Hm as (_ & _ & _ & -> & _). lia.
Qed.

(** ** memblock_find_in_range_node *)

(** An aligned block that lies in a region of the node and in one free area. *)
Definition block_at (start end_ size align c : Z) (j g : nat) : Prop :=
  ∃ m, Lm !! j = Some m ∧ node_ok m ∧ (g ≤ length Lr)%nat ∧ start ≤ c ∧ c + size ≤ end_ ∧ (align | c) ∧
    rg_base m ≤ c ∧ c + size ≤ rg_top m ∧ gap_start Lr g ≤ c ∧ c + size ≤ gap_end Lr g.

Definition index_pair (idx : Z) : Z * Z := if idx =? ULLONG_MAX then (Z.of_nat (length Lm) - 1, Z.of_nat (length Lr)) else unpack idx.

Lemma block_meets start end_ size align c j g : 0 < size → block_at start end_ size align c j g → pair_at j g.
Proof using. clear Hlm Hlr. intros Hsz (m & Hj & Hn & Hg & Hb). exists m. rw /meets. split_and!; try done; lia. Qed.

Section find.
Context (mb : memblock) (Emem : mb_memory mb = tm) (Ersv : mb_reserved mb = tr).
Context (start end_ size p : Z) (Hstart : 0 < start) (Hend : start ≤ end_ < 2 ^ 64) (Hsize : 0 < size < 2 ^ 64) (Hp : 0 ≤ p < 64).
Notation block := (block_at start end_ size (2 ^ p)).

(** The place tried in an area is the highest one. *)
Lemma candidate_ok j g m s e :
  Lm !! j = Some m → node_ok m → (g ≤ length Lr)%nat → s = Z.max (rg_base m) (gap_start Lr g) → e = Z.min (rg_top m) (gap_end Lr g) →
  let this_end := clamp e start end_ in
  let cand := round_down (this_end - size) (2 ^ p) in
  (this_end < size → ∀ c, ¬ block c j g) ∧
  (size ≤ this_end → if clamp s start end_ <=? cand then cand ≠ 0 ∧ block cand j g else ∀ c, ¬ block c j g).
Proof using Hstart Hend Hsize Hp Hsm Hsr.
  clear Emem Ersv Hm Hr Hlm Hlr. intros Hj Hn Hg -> ->. cbn zeta. rewrite -> !clamp_spec by lia. remember (Z.min end_ (Z.max start (Z.min (rg_top m) (gap_end Lr g)))) as te eqn:Ete.
  pose proof (sorted_lookup_ok _ _ _ _ Hsm Hj) as (? & ? & ?). pose proof (gap_le Lr g Hsr Hg) as [Hgap1 Hgap2]. pose proof (pow2_pos p ltac:(lia)) as Hpow.
  assert (∀ c, block c j g → c + size ≤ te ∧ (2 ^ p | c) ∧ Z.min end_ (Z.max start (Z.max (rg_base m) (gap_start Lr g))) ≤ c ∧ 0 ≤ c) as Hblk.
  { intros c (m' & Hj' & _ & _ & H1' & H2' & Hd & H3' & H4' & H5' & H6'). simplify_eq. split_and!; [lia|done|lia|lia]. }
  split; [intros Hlt c Hc; destruct (Hblk c Hc) as (? & _ & _ & ?); lia|]. intros Hle.
  rewrite -> round_down_spec by (rw /in_width; lia). pose proof (Z.mod_pos_bound (te - size) (2 ^ p) Hpow) as Hmod. remember (te - size) as x eqn:Ex.
  assert ((2 ^ p | x - x mod 2 ^ p)) as Hdiv. { exists (x / 2 ^ p). rewrite -> Z.mod_eq by lia. lia. }
  destruct (Z.leb_spec (Z.min end_ (Z.max start (Z.max (rg_base m) (gap_start Lr g)))) (x - x mod 2 ^ p)) as [Hfit|Hfit].
  - split; [lia|]. exists m. split_and!; done || lia.
  - intros c Hc. destruct (Hblk c Hc) as (Hc1 & [q ->] & Hc2 & _). assert (q ≤ x / 2 ^ p) by (apply Z.div_le_lower_bound; lia).
    rewrite -> Z.mod_eq in Hfit by lia. assert (q * 2 ^ p ≤ x / 2 ^ p * 2 ^ p) by (by apply Z.mul_le_mono_nonneg_r; [lia|]). lia.
Qed.

Lemma next_ok idx mi ri : index_pair idx = (mi, ri) → -1 ≤ mi < Z.of_nat (length Lm) → -1 ≤ ri ≤ Z.of_nat (length Lr) →
  ∃ res, __next_free_mem_range_rev mb idx nid = Some res ∧ iterator_post mi ri res.
Proof using Emem Ersv Hm Hsm Hr Hsr Hlm Hlr.
  intros Hidx Hmi Hri. rw /__next_free_mem_range_rev. rewrite -> Emem, Ersv. pose proof Hm as (_ & _ & _ & Hc & _). pose proof Hr as (_ & _ & _ & Hc' & _).
  destruct (rev_outer_ok mi ri Hmi Hri) as (res & Hl & Hpost). exists res. split; [|done]. rewrite <- Hl, <- Hidx. rw /index_pair /unpack. by rewrite -> Hc, Hc'.
Qed.

Lemma find_loop_ok :
  ∃ c, loop (S (S (Z.to_nat (mt_cnt tm) + Z.to_nat (mt_cnt tr)))) (find_step start end_ size (2 ^ p) nid mb) ULLONG_MAX = Some c ∧
    (c = 0 ∧ (∀ c' j g, ¬ block c' j g) ∨ c ≠ 0 ∧ ∃ j g, block c j g).
Proof using Emem Ersv Hm Hsm Hr Hsr Hlm Hlr Hstart Hend Hsize Hp.
  apply (loop_inv (λ idx, ∃ mi ri, index_pair idx = (mi, ri) ∧ -1 ≤ mi < Z.of_nat (length Lm) ∧ -1 ≤ ri ≤ Z.of_nat (length Lr) ∧ -1 ≤ mi + ri ∧
      ∀ c j g, block c j g → Z.of_nat j ≤ mi ∧ Z.of_nat g ≤ ri) (λ idx, Z.to_nat ((index_pair idx).1 + (index_pair idx).2 + 2))).
  - intros idx (mi & ri & Hidx & Hmi & Hri & Hsum & Hall). rw /find_step. destruct (next_ok idx mi ri Hidx Hmi Hri) as ([idx' [[[s e] n]|]] & -> & Hpost);
      cbn [mbind option_bind].
    + destruct Hpost as (j & g & m & mi' & ri' & -> & Hj1 & Hg1 & ? & ? & ? & ? & Hlt & Hj & Hn & Hg & Hmeet & [= -> -> ->] & Hnext).
      destruct (candidate_ok j g m _ _ Hj Hn Hg eq_refl eq_refl) as [Hc1 Hc2].
      assert (pack_idx mi' ri' ≠ ULLONG_MAX) as Hpk by (apply pack_not_max; lia). rewrite -> (proj2 (Z.eqb_neq _ _) Hpk).
      assert (index_pair (pack_idx mi' ri') = (mi', ri')) as Hidx' by (rw /index_pair; rewrite -> (proj2 (Z.eqb_neq _ _) Hpk); apply unpack_pack; lia).
      assert ((∀ c, ¬ block c j g) → ∀ c j' g', block c j' g' → Z.of_nat j' ≤ mi' ∧ Z.of_nat g' ≤ ri') as Hgo.
      { intros Hno c j' g' Hb. destruct (Hnext j' g') as [[-> ->]|]; [by apply (block_meets start end_ size (2 ^ p) c); [lia|]|by eapply Hall|by apply Hno in Hb|done]. }
      cbn zeta. destruct (Z.ltb_spec (clamp (Z.min (rg_top m) (gap_end Lr g)) start end_) size) as [Hsm1|Hsm1]; [|specialize (Hc2 Hsm1); case_if].
      * left. eexists. split; [done|]. rewrite -> Hidx, Hidx'. split; [|cbn; lia]. exists mi', ri'. split_and!; try done; try lia. by apply Hgo, Hc1.
      * right. eexists. split; [done|]. right. destruct Hc2. eauto.
      * left. eexists. split; [done|]. rewrite -> Hidx, Hidx'. split; [|cbn; lia]. exists mi', ri'. split_and!; try done; try lia. by apply Hgo.
    + right. eexists. split; [done|]. left. split; [done|]. intros c j g Hb. apply (Hpost j g); [by apply (block_meets start end_ size (2 ^ p) c); [lia|]|by eapply Hall].
  - exists (Z.of_nat (length Lm) - 1), (Z.of_nat (length Lr)). split; [done|]. split_and!; try lia. intros c j g (m & Hj & _ & Hg & _). apply lookup_lt_Some in Hj. lia.
  - pose proof Hm as (_ & _ & _ & -> & _). pose proof Hr as (_ & _ & _ & -> & _). rw /index_pair Z.eqb_refl. cbn [fst snd]. lia.
Qed.
End find.
End iterate.

(** ** Free blocks *)

(** A block in one region of memory of the node that touches no reservation. *)
Definition free_block (Lm Lr : list memblock_region) (nid start end_ size align c : Z) : Prop :=
  start ≤ c ∧ c + size ≤ end_ ∧ (align | c) ∧
  (∃ m, m ∈ Lm ∧ node_ok nid m ∧ rg_base m ≤ c ∧ c + size ≤ rg_top m) ∧ ∀ x, c ≤ x < c + size → owner Lr x = None.

Lemma gap_owner R g x : sorted 0 R → (g ≤ length R)%nat → gap_start R g ≤ x < gap_end R g → owner R x = None.
Proof.
  intros Hs Hg Hx. apply owner_None. intros i r Hi. destruct (within r x) eqn:E; [apply within_spec in E|done]. pose proof (sorted_lookup_ok _ _ _ _ Hs Hi) as (? & ? & ?).
  rw /gap_start /gap_end in Hx. destruct (decide (i < g)%nat).
  - destruct g as [|g]; [lia|]. destruct (lookup_lt_is_Some_2 R g) as [r' Hr']; [lia|]. rw Hr' in Hx. destruct (decide (i = g)) as [->|]; [simplify_eq; lia|].
    pose proof (sorted_lookup _ _ i g _ _ Hs ltac:(lia) Hi Hr'). pose proof (sorted_lookup_ok _ _ _ _ Hs Hr') as (? & ? & ?). lia.
  - destruct (decide (i = g)) as [->|]; [rw Hi in Hx; lia|]. destruct (R !! g) as [r'|] eqn:Er; [|apply lookup_ge_None in Er; apply lookup_lt_Some in Hi; lia].
    pose proof (sorted_lookup _ _ g i _ _ Hs ltac:(lia) Er Hi). pose proof (sorted_lookup_ok _ _ _ _ Hs Er) as (? & ? & ?). lia.
Qed.

Lemma gap_exists R lo c size :
  sorted lo R → (∀ r, r ∈ R → 0 < rg_size r ∨ rg_top r ≤ c) → lo ≤ c → 0 < size → c + size ≤ ULLONG_MAX → (∀ x, c ≤ x < c + size → owner R x = None) →
  ∃ g : nat, (g ≤ length R)%nat ∧ (match g with O => lo | S g => match R !! g with Some r => rg_top r | None => lo end end) ≤ c ∧ c + size ≤ gap_end R g.
Proof.
  revert lo. induction R as [|r R IH]; intros lo Hs Hpos Hlo Hsz Hmax Ho; [by exists 0%nat|]. destruct Hs as (Hr & Hok & Hs). destruct (Z.le_gt_cases (rg_top r) c).
  - destruct (IH (rg_top r)) as (g & Hg & Hg1 & Hg2); try done; [intros; apply Hpos; set_solver| |].
    { intros x Hx. specialize (Ho x Hx). cbn in Ho. by destruct (within r x). }
    exists (S g). cbn. split_and!; [lia| |done]. destruct g as [|g]; [done|]. cbn. by destruct (R !! g).
  - exists 0%nat. split_and!; [lia|done|]. rw /gap_end. cbn. apply Z.nlt_ge. intros Hlt. destruct (Hpos r ltac:(set_solver)); [|lia].
    specialize (Ho (Z.max c (rg_base r)) ltac:(lia)). cbn in Ho. rewrite -> (proj2 (within_spec r (Z.max c (rg_base r)))) in Ho by lia. done.
Qed.

Lemma block_free Lm Lr nid start end_ size align c :
  region_list Lm → region_list Lr → 0 < start → 0 < size → (∃ j g, block_at Lm Lr nid start end_ size align c j g) ↔ free_block Lm Lr nid start end_ size align c.
Proof.
  intros (Hsm & _) (Hsr & _ & Hk) Hst Hsz. split.
  - intros (j & g & m & Hj & Hn & Hg & H1 & H2 & Hd & H3 & H4 & H5 & H6). split_and!; try done.
    + exists m. split_and!; try done. by apply list_elem_of_lookup_2 in Hj.
    + intros x Hx. apply (gap_owner Lr g); done || lia.
  - intros (H1 & H2 & Hd & (m & Hm & Hn & H3 & H4) & Ho). apply list_elem_of_lookup in Hm as [j Hj].
    destruct (gap_exists Lr 0 c size) as (g & Hg & Hg1 & Hg2); try done; [|lia| |].
    + intros r Hr. destruct Hk as [[Hp _]|(n & ->)]; [left; by eapply Forall_forall in Hp|right]. apply list_elem_of_singleton in Hr as ->. cbn. lia.
    + pose proof (sorted_lookup_ok _ _ _ _ Hsm Hj) as (? & ? & ?). lia.
    + exists j, g, m. by split_and!.
Qed.

Lemma find_ok start0 end0 size p nid mb Lm Lr rm rr :
  type_ok (mb_memory mb) Lm rm → type_ok (mb_reserved mb) Lr rr → Z.of_nat (length Lm) < 2 ^ 31 → Z.of_nat (length Lr) < 2 ^ 31 →
  in_width 64 start0 → in_width 64 end0 → in_width 64 (mb_current_limit mb) → 0 < size < 2 ^ 64 → 0 ≤ p < 64 →
  let start := Z.max start0 PAGE_SIZE in
  let end_ := Z.max start (if end0 =? MEMBLOCK_ALLOC_ACCESSIBLE then mb_current_limit mb else end0) in
  ∃ c, memblock_find_in_range_node start0 end0 size (2 ^ p) nid mb = Some c ∧
    (c = 0 ∧ (∀ c', ¬ free_block Lm Lr nid start end_ size (2 ^ p) c') ∨ c ≠ 0 ∧ free_block Lm Lr nid start end_ size (2 ^ p) c).
Proof.
  intros [Ham Hlm] [Har Hlr] Hnm Hnr [Hs0 Hs0'] [He0 He0'] [Hcl Hcl'] Hsz Hp start end_. assert (0 < start) as Hst by (rw /start /PAGE_SIZE; lia).
  assert (start ≤ end_ < 2 ^ 64) as Hend by (rw /end_ /start /PAGE_SIZE; destruct (end0 =? _); lia).
  destruct (find_loop_ok (mb_memory mb) (mb_reserved mb) Lm Lr rm rr nid Ham (proj1 Hlm) Har (proj1 Hlr) Hnm Hnr mb eq_refl eq_refl start end_ size p Hst Hend Hsz Hp)
    as (c & Hl & Hc). exists c. split; [exact Hl|]. destruct Hc as [[-> Hno]|[Hne Hb]]; [left|right]; (split; [done|]).
  - intros c' Hf. apply block_free in Hf as (j & g & Hb); try done; [|lia]. by eapply Hno.
  - apply block_free; try done. lia.
Qed.

(** ** Allocation *)

Lemma round_up_spec x p : 0 < x → 0 ≤ p < 64 → x + 2 ^ p ≤ 2 ^ 64 →
  x ≤ round_up x (2 ^ p) < x + 2 ^ p ∧ (2 ^ p | round_up x (2 ^ p)).
Proof.
  intros Hx Hp Hmax. pose proof (pow2_pos p ltac:(lia)) as Hpow. assert (round_up x (2 ^ p) = ((x - 1) / 2 ^ p + 1) * 2 ^ p) as ->.
  { rw /round_up /round_mask. rewrite -> !(wrap_small 64 (_ - 1)) by (rw /in_width; lia). rewrite -> (Z.sub_1_r (2 ^ p)), <- Z.ones_equiv.
    assert (Z.lor (x - 1) (Z.ones p) = (x - 1) / 2 ^ p * 2 ^ p + Z.ones p) as ->.
    { rewrite <- Z.shiftl_mul_pow2, <- Z.shiftr_div_pow2 by lia. rewrite -> Z.add_nocarry_lor.
      - apply Z.bits_inj'. intros i Hi. rewrite -> !Z.lor_spec, !testbit_ones by lia. ztest.
        destruct (Z.ltb_spec i p); [by rewrite -> !orb_true_r|]. rewrite -> !orb_false_r, Z.shiftl_spec, Z.shiftr_spec by lia. f_equal. lia.
      - apply Z.bits_inj'. intros i Hi. rewrite -> Z.land_spec, testbit_ones, Z.bits_0 by lia. destruct (Z.lt_ge_cases i p); [rewrite -> Z.shiftl_spec_low by lia; done|].
        ztest. done. }
    rewrite -> Z.ones_equiv. replace ((x - 1) / 2 ^ p * 2 ^ p + Z.pred (2 ^ p) + 1) with (((x - 1) / 2 ^ p + 1) * 2 ^ p) by lia. apply wrap_small.
    pose proof (Z.mul_div_le (x - 1) (2 ^ p) Hpow). rw /in_width. pose proof (Z.div_pos (x - 1) (2 ^ p) ltac:(lia) Hpow). nia. }
  split; [|by exists ((x - 1) / 2 ^ p + 1)]. pose proof (Z.div_mod (x - 1) (2 ^ p) ltac:(lia)). pose proof (Z.mod_pos_bound (x - 1) (2 ^ p) Hpow). lia.
Qed.

(** A free range is one new region. *)
Lemma fill_free base end_ nid l lo :
  sorted lo l → (∀ r, r ∈ l → 0 < rg_size r ∨ rg_top r ≤ base) → base < end_ → (∀ x, base ≤ x < end_ → owner l x = None) →
  length (fill base end_ nid l) = S (length l).
Proof.
  revert lo. induction l as [|r l IH]; intros lo Hs Hpos Hbe Ho; cbn [fill]; rw /piece; [by ztest|]. destruct Hs as (_ & _ & Hs). destruct (Z.leb_spec end_ (rg_base r)); [by ztest|].
  destruct (Z.leb_spec (rg_top r) base).
  - cbn. f_equal. eapply IH; [done|intros; apply Hpos; set_solver|done|]. intros x Hx. specialize (Ho x Hx). cbn in Ho. by destruct (within r x).
  - destruct (Hpos r ltac:(set_solver)); [|lia]. specialize (Ho (Z.max base (rg_base r)) ltac:(lia)). cbn in Ho.
    rewrite -> (proj2 (within_spec r (Z.max base (rg_base r)))) in Ho by lia. done.
Qed.
