(* ===== verification/MemblockGrow.v ===== *)
(** * Early memory: growing the arrays

    With entries to spare [memblock_double_array] is not called, and an operation does not depend on it.  Without them the array grows:
    through the slab allocator, or into memory that memblock itself finds and reserves, which calls the operations again.  [keeps] is what
    every growth guarantees; it is proved of the real function by induction on the depth of the calls. *)
From S2P Require Import Prelude Memblock MemblockRep MemblockAdd MemblockRemove MemblockFind.

Notation doubler := (memblock_kind → Z → Z → memblock → option (Z * memblock)).

(** Both arrays are well formed. *)
Definition memblock_ok (mb : memblock) : Prop := ∀ k, ∃ L room, type_ok (get_type k mb) L room.

(** ** Enough room *)

(** An array that cannot grow. *)
Definition never_double : doubler := λ _ _ _ mb, Some (-1, mb).

#[export] Instance never_resize : Resizer never_double (λ _, True).
Proof. split; [|done]. intros k start size mb _. exists (-1), mb. split_and!; [done|done|by left]. Qed.

Lemma make_room_enough (d : doubler) k start size (more : nat) mb L room :
  array (get_type k mb) L room → (more ≤ room)%nat → make_room d k start size (Z.of_nat more) mb = Some (true, mb).
Proof. intros (_ & _ & _ & Hc & Hm & _) Hle. rw /make_room. cbn [loop]. rw Hc Hm. by ztest. Qed.

(** With room for the new regions it does not matter how arrays grow. *)
Lemma add_region_any (d d' : doubler) k base size nid mb L room :
  type_ok (get_type k mb) L room → (length (fill base (base + memblock_cap_size base size) nid L) ≤ length L + room)%nat →
  memblock_add_region d k base size nid mb = memblock_add_region d' k base size nid mb.
Proof.
  intros [Ha (Hs & _)] Hroom. rw /memblock_add_region. destruct (memblock_cap_size base size =? 0); [done|].
  destruct (rd (mt_regions (get_type k mb)) 0) as [r0|]; [|done]. cbn [mbind option_bind]. destruct (rg_size r0 =? 0); [done|].
  rewrite -> (add_pass_count _ L room) by done. cbn [mbind option_bind]. by rewrite -> !(make_room_enough _ _ _ _ _ _ L room) by (done || lia).
Qed.

(** ** Arrays never shrink *)

(** Arrays do not get smaller, and resizing stays allowed. *)
Definition le_max (mb mb' : memblock) : Prop :=
  (mb_can_resize mb' = false → mb_can_resize mb = false) ∧
  ∀ k, 0 ≤ mt_max (get_type k mb) → mt_max (get_type k mb) ≤ mt_max (get_type k mb').

#[export] Instance le_max_preorder : PreOrder le_max.
Proof. split; [done|]. intros a b c [R1 H1] [R2 H2]. split; [auto|]. intros k Hk. specialize (H1 k Hk). specialize (H2 k ltac:(lia)). lia. Qed.

(** What only growing changes: the size of the array and where it is. *)
Definition frame (t : memblock_type) : Z * option Z := (mt_max t, mt_array t).

Lemma le_max_set k t mb : frame t = frame (get_type k mb) → le_max mb (set_type k t mb).
Proof. intros [= E _]. split; [done|]. intros k' _. destruct k, k'; cbn in *; lia. Qed.

Lemma insert_frame t idx base size nid t' : memblock_insert_region t idx base size nid = Some t' → frame t' = frame t.
Proof. rw /memblock_insert_region. case_if; [done|]. destruct (move_regions _ _ _ _); [|done]. cbn [mbind option_bind]. destruct (wr _ _ _); [|done]. by intros [= <-]. Qed.

Lemma remove_region_frame t r t' : memblock_remove_region t r = Some t' → frame t' = frame t.
Proof.
  rw /memblock_remove_region. destruct (rd _ _); [|done]. cbn [mbind option_bind]. destruct (move_regions _ _ _ _); [|done]. cbn [mbind option_bind].
  case_if; [|by intros [= <-]]. destruct (wr _ _ _); [|done]. by intros [= <-].
Qed.

Lemma merge_frame t t' : memblock_merge_regions t = Some t' → frame t' = frame t.
Proof.
  intros H. assert (∀ i t1 x, merge_step (i, t1) = Some x → match x with Next (_, t2) => frame t2 = frame t1 | Stop t2 => frame t2 = frame t1 end) as Hstep.
  { intros i t1 x. rw /merge_step. case_if; [by intros [= <-]|]. destruct (rd _ i); [|done]. cbn [mbind option_bind]. destruct (rd _ (i + 1)); [|done]. cbn [mbind option_bind].
    case_if; [case_if; [done|by intros [= <-]]|]. destruct (wr _ _ _); [|done]. cbn [mbind option_bind]. destruct (move_regions _ _ _ _); [|done]. by intros [= <-]. }
  apply (loop_last (λ '(_, t1), frame t1 = frame t)) in H as ([i t1] & HI & Hs); [|done|].
  - apply Hstep in Hs. congruence.
  - intros [i1 t1] [i2 t2] HI Hs. apply Hstep in Hs. congruence.
Qed.

Lemma add_pass_frame base end_ nid t n t' : add_pass true base end_ nid t = Some (n, t') → frame t' = frame t.
Proof.
  assert (∀ i b m t1 x, add_step true end_ nid (i, b, m, t1) = Some x → match x with Next s | Stop s => frame s.2 = frame t1 end) as Hstep.
  { intros i b m t1 x. rw /add_step. case_if; [by intros [= <-]|]. destruct (rd _ i); [|done]. cbn [mbind option_bind].
    case_if; [by intros [= <-]|]. case_if; [by intros [= <-]|]. case_if; [|by intros [= <-]].
    destruct (memblock_insert_region _ _ _ _ _) as [t2|] eqn:E; [|done]. intros [= <-]. by apply insert_frame in E. }
  rw /add_pass. destruct (loop _ _ _) as [[[[i b] m] t1]|] eqn:E; [|done]. cbn [mbind option_bind add_rest].
  apply (loop_last (λ s, frame s.2 = frame t)) in E as ([[[i1 b1] m1] t2] & HI & Hs); [|done|].
  - apply Hstep in Hs. cbn in *. case_if; [|intros [= _ <-]; congruence].
    destruct (memblock_insert_region _ _ _ _ _) as [t3|] eqn:Ei; [|done]. intros [= _ <-]. apply insert_frame in Ei. congruence.
  - intros [[[i1 b1] m1] t2] s2 HI Hs. apply Hstep in Hs. cbn in *. congruence.
Qed.

Lemma isolate_pass_frame base end_ t s e t' : isolate_pass base end_ t = Some (s, e, t') → frame t' = frame t.
Proof.
  assert (∀ st x, isolate_step base end_ st = Some x → match x with Next s => frame s.2 = frame st.2 | Stop s => frame s.2 = frame st.2 end) as Hstep.
  { intros [[[i s0] e0] t1] x. rw /isolate_step. cbn [snd]. case_if; [by intros [= <-]|]. destruct (rd _ i) as [r|]; [|done]. cbn [mbind option_bind].
    case_if; [by intros [= <-]|]. case_if; [by intros [= <-]|].
    case_if; [|case_if; [|by intros [= <-]]]; (destruct (wr _ _ _); [|done]); cbn [mbind option_bind];
      (destruct (memblock_insert_region _ _ _ _ _) as [t2|] eqn:E; [|done]); intros [= <-]; by apply insert_frame in E. }
  intros H. apply (loop_last (λ s, frame s.2 = frame t)) in H as (st & HI & Hs); [|done|].
  - apply Hstep in Hs. cbn in *. congruence.
  - intros s1 s2 HI Hs. apply Hstep in Hs. cbn in *. congruence.
Qed.

Lemma remove_regions_frame s e t t' : remove_regions s e t = Some t' → frame t' = frame t.
Proof.
  assert (∀ st x, remove_step s st = Some x → match x with Next s => frame s.2 = frame st.2 | Stop t => frame t = frame st.2 end) as Hstep.
  { intros [i t1] x. rw /remove_step. case_if; [by intros [= <-]|]. destruct (memblock_remove_region t1 i) eqn:E; [|done]. intros [= <-]. by apply remove_region_frame in E. }
  intros H. apply (loop_last (λ s, frame s.2 = frame t)) in H as (st & HI & Hs); [|done|].
  - apply Hstep in Hs. congruence.
  - intros s1 s2 HI Hs. apply Hstep in Hs. congruence.
Qed.

(** The operations do not shrink arrays if growing does not. *)
Section max.
Context (d : doubler) (Hd : ∀ k start size mb r mb', d k start size mb = Some (r, mb') → le_max mb mb').

Lemma make_room_max k start size more mb b mb' : make_room d k start size more mb = Some (b, mb') → le_max mb mb'.
Proof using Hd.
  intros H. apply (loop_last (le_max mb)) in H as (mb1 & HI & Hs); [|done|].
  - revert Hs. case_if; [|by intros [= <- <-]]. destruct (d k start size mb1) as [[r mb2]|] eqn:E; [|done]. cbn [mbind option_bind]. case_if; [|done].
    intros [= <- <-]. etrans; [exact HI|by eapply Hd].
  - intros mb1 mb2 HI. case_if; [|done]. destruct (d k start size mb1) as [[r mb3]|] eqn:E; [|done]. cbn [mbind option_bind]. case_if; [done|].
    intros [= <-]. etrans; [exact HI|by eapply Hd].
Qed.

Lemma add_region_max k base size nid mb r mb' : memblock_add_region d k base size nid mb = Some (r, mb') → le_max mb mb'.
Proof using Hd.
  rw /memblock_add_region. case_if; [by intros [= _ <-]|]. destruct (rd _ 0) as [r0|]; [|done]. cbn [mbind option_bind]. case_if.
  { destruct (wr _ _ _); [|done]. intros [= _ <-]. by apply le_max_set. }
  destruct (add_pass false _ _ _ _) as [[n t0]|]; [|done]. cbn [mbind option_bind]. destruct (make_room _ _ _ _ _ _) as [[b mb1]|] eqn:Em; [|done]. cbn [mbind option_bind].
  apply make_room_max in Em. case_if; [by intros [= _ <-]|]. destruct (add_pass true _ _ _ _) as [[n1 t1]|] eqn:Ep; [|done]. cbn [mbind option_bind].
  destruct (memblock_merge_regions t1) as [t2|] eqn:Eg; [|done]. intros [= _ <-]. apply add_pass_frame in Ep. apply merge_frame in Eg. etrans; [exact Em|]. apply le_max_set. congruence.
Qed.

Lemma isolate_range_max k base size mb r se mb' : memblock_isolate_range d k base size mb = Some (r, se, mb') → le_max mb mb'.
Proof using Hd.
  rw /memblock_isolate_range. case_if; [by intros [= _ _ <-]|]. destruct (make_room _ _ _ _ _ _) as [[b mb1]|] eqn:Em; [|done]. cbn [mbind option_bind].
  apply make_room_max in Em. case_if; [by intros [= _ _ <-]|]. destruct (isolate_pass _ _ _) as [[[s e] t1]|] eqn:Ep; [|done]. intros [= _ _ <-].
  apply isolate_pass_frame in Ep. etrans; [exact Em|]. by apply le_max_set.
Qed.

Lemma remove_max k base size mb r mb' : __memblock_remove d k base size mb = Some (r, mb') → le_max mb mb'.
Proof using Hd.
  rw /__memblock_remove. destruct (memblock_isolate_range _ _ _ _ _) as [[[r0 [s e]] mb1]|] eqn:E; [|done]. cbn [mbind option_bind]. apply isolate_range_max in E.
  case_if; [by intros [= _ <-]|]. destruct (remove_regions _ _ _) as [t1|] eqn:Er; [|done]. intros [= _ <-]. apply remove_regions_frame in Er. etrans; [exact E|]. by apply le_max_set.
Qed.

Lemma set_node_max base size nid mb r mb' : memblock_set_node d base size nid mb = Some (r, mb') → le_max mb mb'.
Proof using Hd.
  rw /memblock_set_node. destruct (memblock_isolate_range _ _ _ _ _) as [[[r0 [s e]] mb1]|] eqn:E; [|done]. cbn [mbind option_bind]. apply isolate_range_max in E.
  case_if; [by intros [= _ <-]|]. destruct (set_nodes _ _ _ _) as [l|]; [|done]. cbn [mbind option_bind]. destruct (memblock_merge_regions _) as [t1|] eqn:Er; [|done].
  intros [= _ <-]. apply merge_frame in Er. etrans; [exact E|]. by apply (le_max_set Memory).
Qed.
End max.

Lemma double_array_max env fuel k start size mb r mb' : memblock_double_array env fuel k start size mb = Some (r, mb') → le_max mb mb'.
Proof.
  revert k start size mb r mb'. induction fuel as [|fuel IH]; intros k start size mb r mb'; [done|]. cbn [memblock_double_array]. case_if; [by intros [= _ <-]|]. cbn zeta.
  destruct (if slab_is_available env then _ else _) as [addr|]; [|done]. cbn [mbind option_bind]. case_if; [by intros [= _ <-]|]. set (mb1 := set_type k _ mb).
  assert (le_max mb mb1) as H1 by (split; [done|]; intros k'; destruct k, k'; cbn; lia).
  destruct (if in_slab k mb1 then _ else _) as [mb2|] eqn:E2; [|done]. cbn [mbind option_bind].
  assert (le_max mb1 mb2) as H2.
  { revert E2. case_if; [by intros [= <-]|]. destruct (mt_array (get_type k mb)) as [old|]; [|by intros [= <-]].
    destruct (memblock_free _ _ _ _) as [[r0 mb3]|] eqn:E; [|done]. intros [= <-]. by apply remove_max in E. }
  destruct (if slab_is_available env then Some mb2 else _) as [mb3|] eqn:E3; [|done]. intros [= _ <-].
  assert (le_max mb2 mb3) as H3.
  { revert E3. case_if; [by intros [= <-]|]. destruct (memblock_reserve _ _ _ _) as [[r0 mb4]|] eqn:E; [|done]. cbn [mbind option_bind]. case_if; [done|]. intros [= <-].
    by apply add_region_max in E. }
  trans mb1; [done|]. trans mb2; [done|]. trans mb3; [done|]. split; [done|]. intros k' _. by destruct k, k'.
Qed.

(** ** Passes that return *)

(** The pass that inserts, if it returns, inserts what [fill] says. *)
Lemma insert_returns t pre suf room base size nid t' :
  array t (pre ++ suf) room → memblock_insert_region t (Z.of_nat (length pre)) base size nid = Some t' →
  ∃ room', array t' (pre ++ {| rg_base := base; rg_size := size; rg_nid := nid |} :: suf) room'.
Proof.
  intros Ha. destruct room as [|room].
  - pose proof Ha as (_ & _ & _ & Hc & Hm & _). rw /memblock_insert_region Hc Hm. by ztest.
  - destruct (insert_ok t pre suf room _ base size nid Ha eq_refl) as (t1 & -> & Ha1 & _). intros [= <-]. eauto.
Qed.

Lemma piece_returns t pre suf room base end_ nid t' :
  array t (pre ++ suf) room →
  (if base <? end_ then memblock_insert_region t (Z.of_nat (length pre)) base (end_ - base) nid else Some t) = Some t' →
  ∃ room', array t' (pre ++ piece base end_ nid ++ suf) room'.
Proof. intros Ha. rw /piece. destruct (base <? end_); [by apply (insert_returns t _ _ room)|]. intros [= <-]. eauto. Qed.

Lemma add_returns t pre suf room lo base end_ nid nr fuel n t' :
  array t (pre ++ suf) room → sorted lo suf →
  loop fuel (add_step true end_ nid) (Z.of_nat (length pre), base, nr, t) ≫= add_rest true end_ nid = Some (n, t') →
  ∃ room', array t' (pre ++ fill base end_ nid suf) room'.
Proof.
  revert t pre room lo base nr fuel. induction suf as [|r suf IH]; intros t pre room lo base nr fuel Ha Hs; (destruct fuel as [|fuel]; [done|]);
    cbn [loop]; rw {1}/add_step; rewrite -> (array_cnt _ _ _ _ Ha); cbn [length fill].
  - ztest. cbn [mbind option_bind add_rest]. intros H. rewrite <- (app_nil_r (piece _ _ _)). apply (piece_returns t _ _ room _ _ _ t' Ha).
    destruct (base <? end_); [by destruct (memblock_insert_region _ _ _ _ _); [injection H as _ <-|]|by injection H as _ <-].
  - ztest. rewrite -> (array_rd _ _ _ _ _ _ Ha eq_refl). cbn [mbind option_bind]. pose proof Hs as (Hlo & Hok & Hl). rewrite -> rg_end_top by done.
    destruct (Z.leb_spec end_ (rg_base r)).
    { cbn [mbind option_bind add_rest]. intros H'. apply (piece_returns t _ _ room _ _ _ t' Ha).
      destruct (base <? end_); [by destruct (memblock_insert_region _ _ _ _ _); [injection H' as _ <-|]|by injection H' as _ <-]. }
    destruct (Z.leb_spec (rg_top r) base).
    { rewrite <- length_snoc with (x := r). intros H'. apply (IH t (pre ++ [r]) room (rg_top r)) in H' as (room' & Ha'); [|by apply array_step|done].
      exists room'. by rewrite <- app_assoc in Ha'. }
    destruct (if base <? rg_base r then memblock_insert_region t (Z.of_nat (length pre)) base (rg_base r - base) nid else Some t) as [t1|] eqn:Ei.
    2: { by destruct (base <? rg_base r); [rw Ei|]. }
    destruct (piece_returns t pre (r :: suf) room base (rg_base r) nid t1 Ha Ei) as (room1 & Ha1). set (p := piece base (rg_base r) nid) in *.
    assert (array t1 ((pre ++ p ++ [r]) ++ suf) room1) as Ha2 by (by rewrite <- !app_assoc).
    intros H'. destruct (IH t1 (pre ++ p ++ [r]) room1 (rg_top r) (Z.min (rg_top r) end_) (nr + Z.of_nat (length p)) fuel Ha2 Hl) as (room' & Ha').
    + rewrite -> !length_app. cbn [length]. revert Ei H'. rw /p /piece. destruct (base <? rg_base r); cbn [mbind option_bind].
      * intros ->. cbn [mbind option_bind length]. rewrite -> !Nat2Z.inj_add, Z.add_assoc. done.
      * intros [= ->]. cbn [mbind option_bind length]. rewrite -> Nat.add_0_l, Nat2Z.inj_add, Z.add_0_r. done.
    + exists room'. by rewrite <- !app_assoc in Ha'.
Qed.

Lemma add_pass_returns t L room base end_ nid n t' :
  array t L room → sorted 0 L → add_pass true base end_ nid t = Some (n, t') → ∃ room', array t' (fill base end_ nid L) room'.
Proof. intros Ha Hs. rw /add_pass. exact (add_returns t [] L room 0 base end_ nid 0 _ n t' Ha Hs). Qed.


(** ** What growing keeps *)

(** Arrays that may grow into memory of memblock fit the machine: 2^32 regions take 96 GB. *)
Definition fits (env : slab_env) (mb : memblock) : Prop :=
  slab_is_available env = true ∨ mb_can_resize mb = false ∨ ∀ k, mt_max (get_type k mb) ≤ 2 ^ 32.

(** The array holds at least one region. *)
Definition busy (t : memblock_type) : Prop := ∃ L room, type_ok t L room ∧ positive L.

(** Where the arrays come from: static, or all from the slab allocator, or all from memblock. *)
Definition arrays_from (env : slab_env) (mb : memblock) : Prop :=
  ∀ k, if slab_is_available env then in_slab k mb = true ∨ mt_array (get_type k mb) = None
       else ∀ a, mt_array (get_type k mb) = Some a → 0 ≤ a < ULLONG_MAX.

(** The arrays stay well formed, the memory map stays as it is and no array becomes empty. *)
Record keeps (env : slab_env) (mb mb' : memblock) : Prop := {
  keep_ok : memblock_ok mb';
  keep_arrays : arrays_from env mb';
  keep_memory L room : type_ok (mb_memory mb) L room → ∃ room', type_ok (mb_memory mb') L room';
  keep_busy k : busy (get_type k mb) → busy (get_type k mb')
}.

Definition grows (env : slab_env) (d : doubler) : Prop := ∀ k start size mb r mb',
  d k start size mb = Some (r, mb') → memblock_ok mb → arrays_from env mb → fits env mb' → keeps env mb mb'.

Lemma fits_mono env mb mb' : le_max mb mb' → fits env mb' → fits env mb.
Proof.
  intros [Hr Hle] [?|[?|Hs]]; [by left|right; left; auto|right; right]. intros k. specialize (Hle k). specialize (Hs k).
  destruct (Z.le_gt_cases 0 (mt_max (get_type k mb))); lia.
Qed.

Lemma grow_keeps_refl env mb : memblock_ok mb → arrays_from env mb → keeps env mb mb.
Proof. intros Hok Ha. split; eauto. Qed.

Lemma grow_keeps_trans env mb1 mb2 mb3 : keeps env mb1 mb2 → keeps env mb2 mb3 → keeps env mb1 mb3.
Proof. intros [_ _ Hm1 Hb1] [Hok Ha Hm2 Hb2]. split; auto. intros L room HL. destruct (Hm1 L room HL) as (room' & H'). eauto. Qed.

Lemma memblock_ok_set k t mb L room : memblock_ok mb → type_ok t L room → memblock_ok (set_type k t mb).
Proof. intros Hok Ht k'. specialize (Hok k'). destruct k, k'; cbn in *; eauto. Qed.

Lemma memblock_ok_rest k mb mb' L room : memblock_ok mb → same_rest k mb mb' → type_ok (get_type k mb') L room → memblock_ok mb'.
Proof. intros Hok [_ Hsame] Ht k'. specialize (Hok k'). destruct k, k'; cbn in *; rewrite -> ?Hsame; eauto. Qed.

Lemma arrays_from_set env k t mb : arrays_from env mb → frame t = frame (get_type k mb) → arrays_from env (set_type k t mb).
Proof. intros Ha [= _ E] k'. specialize (Ha k'). destruct k, k', (slab_is_available env); cbn in *; rw ?E //. Qed.

#[export] Instance never_resize_arrays env : Resizer never_double (arrays_from env).
Proof.
  split; [|intros k t mb Ha E1 E2; apply arrays_from_set; [done|]; by rw /frame E1 E2].
  intros k start size mb Ha. exists (-1), mb. split_and!; [done|done|by left].
Qed.

Lemma busy_owner t L room x n : type_ok t L room → owner L x = Some n → positive L.
Proof. intros [_ (_ & _ & [[? _]|(m & ->)])]; [done|]. cbn. rw /within. cbn. repeat case_if; try done. lia. Qed.

Section keep.
Context (env : slab_env) (d : doubler) (Hmax : ∀ k start size mb r mb', d k start size mb = Some (r, mb') → le_max mb mb') (Hd : grows env d).

Lemma make_room_keeps k start size more mb b mb' :
  make_room d k start size more mb = Some (b, mb') → memblock_ok mb → arrays_from env mb → fits env mb' →
  keeps env mb mb' ∧ (b = true → mt_cnt (get_type k mb') + more ≤ mt_max (get_type k mb')).
Proof using Hmax Hd.
  intros H Hok Ha Hsm.
  assert (∀ mb1 r mb2, (fits env mb1 → keeps env mb mb1) → d k start size mb1 = Some (r, mb2) → fits env mb2 → keeps env mb mb2) as Hstep.
  { intros mb1 r mb2 HI E Hs2. assert (fits env mb1) as Hs1 by (by eapply fits_mono; [eapply Hmax|]). specialize (HI Hs1).
    eapply grow_keeps_trans; [exact HI|]. by eapply Hd; [exact E|apply HI|apply HI|]. }
  apply (loop_last (λ mb1, fits env mb1 → keeps env mb mb1)) in H as (mb1 & HI & Hs).
  - revert Hs. destruct (Z.ltb_spec (mt_max (get_type k mb1)) (mt_cnt (get_type k mb1) + more)).
    + destruct (d k start size mb1) as [[r mb2]|] eqn:E; [|done]. cbn [mbind option_bind]. case_if; [|done]. intros [= <- <-]. split; [|done]. by eapply Hstep.
    + intros [= <- <-]. split; [auto|lia].
  - intros _. by apply grow_keeps_refl.
  - intros mb1 mb2 HI. case_if; [|done]. destruct (d k start size mb1) as [[r mb3]|] eqn:E; [|done]. cbn [mbind option_bind]. case_if; [done|].
    intros [= <-]. by eapply Hstep.
Qed.

(** Adding returns 0 or -ENOMEM.  After 0 the range has been added to what the array held when there was room; after -ENOMEM nothing has. *)
Lemma add_region_returns k base size nid mb r mb' :
  memblock_add_region d k base size nid mb = Some (r, mb') → 0 ≤ base ≤ ULLONG_MAX → 0 ≤ size → memblock_ok mb → arrays_from env mb → fits env mb' →
  memblock_ok mb' ∧ arrays_from env mb' ∧ ∃ mb1, keeps env mb mb1 ∧
    (r = - ENOMEM ∧ mb' = mb1 ∨
     r = 0 ∧ same_rest k mb1 mb' ∧ ∃ L room L' room', type_ok (get_type k mb1) L room ∧ type_ok (get_type k mb') L' room' ∧
       added L base (base + memblock_cap_size base size) nid L').
Proof using Hmax Hd.
  intros H Hb Hsz Hok Har Hsm. revert H.
  destruct (Hok k) as (L & room & Hk). destruct (cap_size_spec base size Hb Hsz) as [Hcap He].
  set (end_ := base + memblock_cap_size base size) in *. rw /memblock_add_region. fold end_.
  destruct (Z.eqb_spec (memblock_cap_size base size) 0) as [E0|E0].
  { intros [= <- <-]. split_and!; [done|done|]. exists mb. split; [by apply grow_keeps_refl|right]. split_and!; [done|done|]. exists L, room, L, room. split_and!; [done|done|].
    intros x. destruct (owner L x); [done|]. rw /in_range. case_if; [lia|done]. }
  pose proof Hk as [Ha (Hs & Hm & [[Hp Hne]|(n0 & ->)])].
  - destruct L as [|r0 l]; [done|]. rewrite -> (array_rd _ [] _ _ _ 0 Ha eq_refl). cbn [mbind option_bind]. apply Forall_cons in Hp as Hp2. destruct Hp2 as [Hr0 _]. ztest.
    rewrite -> (add_pass_count _ (r0 :: l) room) by done. cbn [mbind option_bind].
    destruct (make_room _ _ _ _ _ _) as [[b mb1]|] eqn:Emk; [|done]. cbn [mbind option_bind]. destruct b; cbn [negb].
    2: { intros [= <- <-]. destruct (make_room_keeps _ _ _ _ _ _ _ Emk Hok Har Hsm) as [Hkeep _]. split_and!; [apply Hkeep|apply Hkeep|]. exists mb1. split; [done|by left]. }
    destruct (add_pass true base end_ nid (get_type k mb1)) as [[n t1]|] eqn:Ep; [|done]. cbn [mbind option_bind].
    destruct (memblock_merge_regions t1) as [t2|] eqn:Em; [|done]. cbn [mbind option_bind]. intros [= <- <-].
    assert (frame t2 = frame (get_type k mb1)) as Hfr by (apply add_pass_frame in Ep; apply merge_frame in Em; congruence).
    assert (fits env mb1) as Hsm1 by (eapply fits_mono; [by apply (le_max_set k)|exact Hsm]).
    destruct (make_room_keeps _ _ _ _ _ _ _ Emk Hok Har Hsm1) as [Hkeep _].
    destruct (keep_busy _ _ _ Hkeep k) as (L1 & room1 & Hk1 & Hp1); [by exists (r0 :: l), room|]. pose proof Hk1 as [Ha1 (Hs1 & _ & _)].
    destruct (add_pass_returns _ _ _ _ _ _ _ _ Ha1 Hs1 Ep) as (room2 & Ha2). pose proof (region_list_nonempty _ (proj2 Hk1)) as Hne1.
    pose proof (fill_sorted base end_ nid L1 0 Hs1 ltac:(lia) ltac:(lia) ltac:(lia)) as Hs2. pose proof (fill_length base end_ nid L1) as Hlen.
    assert (fill base end_ nid L1 ≠ []) as Hne2 by (intros E; rw E in Hlen; destruct L1; cbn in *; [done|lia]).
    pose proof (merge_total t1 _ _ Ha2 Hs2 (or_introl (conj (fill_pos base end_ nid L1 Hp1) Hne2))) as Hmg. rw Em in Hmg. destruct Hmg as (_ & L' & room' & Hk' & Ho & _).
    split_and!; [eapply memblock_ok_set; [apply Hkeep|exact Hk']|by apply arrays_from_set; [apply Hkeep|]|]. exists mb1. split; [done|right]. split_and!; [done|apply same_rest_set|].
    exists L1, room1, L', room'. rewrite -> get_set_type. split_and!; [done|done|]. intros x. rewrite -> Ho. apply (fill_owner _ _ _ _ 0 x Hs1). lia.
  - rewrite -> (array_rd _ [] _ _ _ 0 Ha eq_refl). cbn [mbind option_bind rg_size]. ztest.
    destruct (add_first (get_type k mb) n0 room base (memblock_cap_size base size) nid Ha) as (l & -> & Hok'); [lia|lia|done|]. cbn [mbind option_bind].
    intros [= <- <-]. split_and!; [by eapply memblock_ok_set|by apply arrays_from_set|]. exists mb. split; [by apply grow_keeps_refl|right]. split_and!; [done|apply same_rest_set|].
    do 4 eexists. rewrite -> get_set_type. split_and!; [done|done|]. intros x. cbn. rw /within /in_range. cbn. fold end_. repeat case_if; try done; lia.
Qed.

(** With two free entries isolating does not grow the array. *)
Lemma isolate_returns k base size mb r se mb' :
  memblock_isolate_range d k base size mb = Some (r, se, mb') → memblock_ok mb → arrays_from env mb → fits env mb' →
  ∃ mb1, keeps env mb mb1 ∧ (r = - ENOMEM ∧ mb' = mb1 ∨ r = 0 ∧ memblock_isolate_range never_double k base size mb1 = Some (r, se, mb')).
Proof using Hmax Hd.
  intros H Hok Har Hsm. revert H. rw /memblock_isolate_range. case_if.
  { intros [= <- <- <-]. exists mb. split; [by apply grow_keeps_refl|by right]. }
  destruct (make_room _ _ _ _ _ mb) as [[b mb1]|] eqn:Emk; [|done]. cbn [mbind option_bind]. destruct b; cbn [negb].
  2: { intros [= <- _ <-]. destruct (make_room_keeps _ _ _ _ _ _ _ Emk Hok Har Hsm) as [Hkeep _]. exists mb1. split; [done|by left]. }
  destruct (isolate_pass _ _ _) as [[[s e] t]|] eqn:Ep; [|done]. cbn [mbind option_bind]. intros [= <- <- <-].
  assert (fits env mb1) as Hsm1 by (eapply fits_mono; [by apply (le_max_set k t); eapply isolate_pass_frame|exact Hsm]).
  destruct (make_room_keeps _ _ _ _ _ _ _ Emk Hok Har Hsm1) as [Hkeep Hroom]. specialize (Hroom eq_refl).
  destruct (keep_ok _ _ _ Hkeep k) as (L1 & room1 & Hk1). exists mb1. split; [done|right]. split; [done|].
  rewrite -> (make_room_enough never_double k _ _ 2 mb1 L1 room1) by (apply Hk1 || (destruct Hk1 as [(_ & _ & _ & Hc & Hm & _) _]; lia)).
  cbn [mbind option_bind negb]. rw Ep. done.
Qed.

Lemma remove_returns k base size mb r mb' :
  __memblock_remove d k base size mb = Some (r, mb') → 0 ≤ base ≤ ULLONG_MAX → 0 ≤ size → memblock_ok mb → arrays_from env mb → fits env mb' →
  memblock_ok mb' ∧ arrays_from env mb' ∧ ∃ mb1, keeps env mb mb1 ∧ same_rest k mb1 mb'.
Proof using Hmax Hd.
  intros H Hb Hsz Hok Har Hsm. revert H. rw /__memblock_remove. destruct (memblock_isolate_range d k base size mb) as [[[r0 [s e]] mb1]|] eqn:Ei; [|done].
  cbn [mbind option_bind]. case_if; [intros [= <- <-]|].
  { destruct (isolate_returns _ _ _ _ _ _ _ Ei Hok Har Hsm) as (mb2 & Hkeep & [[_ ->]|[? _]]); [|lia]. split_and!; [apply Hkeep|apply Hkeep|by exists mb2]. }
  destruct (remove_regions s e (get_type k mb1)) as [t|] eqn:Er; [|done]. cbn [mbind option_bind]. intros [= <- <-].
  assert (fits env mb1) as Hsm1 by (eapply fits_mono; [by apply (le_max_set k t); eapply remove_regions_frame|exact Hsm]).
  destruct (isolate_returns _ _ _ _ _ _ _ Ei Hok Har Hsm1) as (mb2 & Hkeep & [[? _]|[_ E2]]); [by subst|]. destruct (keep_ok _ _ _ Hkeep k) as (L2 & room2 & Hk2).
  destruct (remove_range_ok (d := never_double) (P := arrays_from env) k base size mb2 L2 room2 Hb Hsz (keep_arrays _ _ _ Hkeep) Hk2) as (r' & mb3 & E3 & Har3 & Hsame & Hcase).
  revert E3. rw /__memblock_remove E2. cbn [mbind option_bind]. subst r0. cbn [Z.eqb negb]. rw Er. cbn [mbind option_bind]. intros [= <- <-].
  split_and!; [|done|by exists mb2]. assert (∃ L' room', type_ok (get_type k (set_type k t mb1)) L' room') as (L' & room' & Hk').
  { destruct Hcase as [(_ & L' & room' & ? & _)|(_ & _ & room' & ?)]; eauto. }
  by eapply memblock_ok_rest; [apply Hkeep|exact Hsame|exact Hk'].
Qed.

Lemma set_node_returns base size nid mb r mb' :
  memblock_set_node d base size nid mb = Some (r, mb') → 0 ≤ base ≤ ULLONG_MAX → 0 ≤ size → memblock_ok mb → arrays_from env mb → fits env mb' →
  memblock_ok mb' ∧ arrays_from env mb'.
Proof using Hmax Hd.
  intros H Hb Hsz Hok Har Hsm. revert H. rw /memblock_set_node. destruct (memblock_isolate_range d Memory base size mb) as [[[r0 [s e]] mb1]|] eqn:Ei; [|done].
  cbn [mbind option_bind]. case_if; [intros [= <- <-]|].
  { destruct (isolate_returns _ _ _ _ _ _ _ Ei Hok Har Hsm) as (mb2 & Hkeep & [[_ ->]|[? _]]); [|lia]. split; apply Hkeep. }
  destruct (set_nodes _ _ _ _) as [l|] eqn:Es; [|done]. cbn [mbind option_bind]. destruct (memblock_merge_regions _) as [t|] eqn:Em; [|done]. cbn [mbind option_bind]. intros [= <- <-].
  assert (fits env mb1) as Hsm1 by (eapply fits_mono; [by apply (le_max_set Memory t); eapply merge_frame in Em|exact Hsm]).
  destruct (isolate_returns _ _ _ _ _ _ _ Ei Hok Har Hsm1) as (mb2 & Hkeep & [[? _]|[_ E2]]); [by subst|]. destruct (keep_ok _ _ _ Hkeep Memory) as (L2 & room2 & Hk2).
  pose proof (set_node_ok (d := never_double) (P := arrays_from env) base size nid mb2 L2 room2 Hb Hsz (keep_arrays _ _ _ Hkeep) Hk2) as Hres.
  revert Hres. rw /memblock_set_node E2. cbn [mbind option_bind]. subst r0. cbn [Z.eqb negb]. rw Es. cbn [mbind option_bind]. rw Em. cbn [mbind option_bind].
  intros (Har3 & Hsame & Hcase). split; [|done]. assert (∃ L' room', type_ok (get_type Memory (set_type Memory t mb1)) L' room') as (L' & room' & Hk').
  { destruct Hcase as [(_ & L' & room' & ? & _)|(_ & _ & room' & ?)]; eauto. }
  by eapply memblock_ok_rest; [apply Hkeep|exact Hsame|exact Hk'].
Qed.
End keep.

(** ** The real function *)

(** What is found for a new array is an address of a page, or 0. *)
Lemma find_page start end_ size mb c :
  memblock_find_in_range start end_ size PAGE_SIZE mb = Some c → 0 ≤ c < ULLONG_MAX.
Proof.
  intros H. assert (c = 0 ∨ ∃ y, 0 ≤ y ∧ c = round_down y PAGE_SIZE) as [->|(y & Hy & ->)].
  - apply (loop_last (λ _, True)) in H as (idx & _ & Hs); [|done|done]. revert Hs. rw /find_step.
    destruct (__next_free_mem_range_rev mb idx MAX_NUMNODES) as [[idx' [[[s e] n]|]]|]; cbn [mbind option_bind]; [|intros [= <-]; by left|done].
    destruct (idx' =? ULLONG_MAX); [intros [= <-]; by left|]. cbn zeta.
    destruct (Z.ltb_spec (clamp e (Z.max start PAGE_SIZE) (Z.max (Z.max start PAGE_SIZE) (if end_ =? MEMBLOCK_ALLOC_ACCESSIBLE then mb_current_limit mb else end_))) size); [done|].
    case_if; [|done]. intros [= <-]. right. eexists. split; [|done]. lia.
  - done.
  - assert (in_width 64 (round_down y PAGE_SIZE)) as [Hc Hc'].
    { rw /round_down Z.land_comm. apply in_width_land; [done|by apply in_width_bnot|done]. }
    split; [done|]. rw /ULLONG_MAX. assert (round_down y PAGE_SIZE ≠ 2 ^ 64 - 1); [|lia]. intros E. apply (f_equal (λ z, Z.testbit z 0)) in E. revert E.
    rw /round_down Z.land_spec. change (Z.testbit (bnot 64 (round_mask PAGE_SIZE)) 0) with false. rw andb_false_r. done.
Qed.

(** A doubled array has a size. *)
Lemma new_size_pos max : 0 < max ≤ 2 ^ 32 → 0 < PAGE_ALIGN (wrap 64 (Z.shiftl (wrap 64 (max * sizeof_memblock_region)) 1)).
Proof.
  intros Hm. rw /sizeof_memblock_region. rewrite -> Z.shiftl_mul_pow2 by lia. rewrite -> !wrap_small by (rw /in_width; rewrite -> ?wrap_small by (rw /in_width; lia); lia).
  rw /PAGE_ALIGN /PAGE_SIZE. rewrite -> wrap_small by (rw /in_width; lia). pose proof (round_down_spec (max * 24 * 2 ^ 1 + 4096 - 1) 12 ltac:(rw /in_width; lia) ltac:(lia)) as E.
  rw /round_down /round_mask in E. change (wrap 64 (2 ^ 12 - 1)) with (4096 - 1) in E. rw E. pose proof (Z.mod_pos_bound (max * 24 * 2 ^ 1 + 4096 - 1) (2 ^ 12) ltac:(lia)). lia.
Qed.

(** The doubled array holds what the old one held. *)
Lemma doubled_ok t L room addr :
  type_ok t L room →
  type_ok {| mt_cnt := mt_cnt t; mt_max := mt_max t * 2; mt_total_size := mt_total_size t;
             mt_regions := mt_regions t ++ replicate (Z.to_nat (mt_max t)) zero_region; mt_array := Some addr |} L (room + (length L + room)).
Proof.
  intros [(rest & Er & Hr & Hc & Hm & Ht) Hl]. split; [|done]. exists (rest ++ replicate (Z.to_nat (mt_max t)) zero_region). cbn.
  rewrite -> Er, <- app_assoc, length_app, length_replicate. split_and!; [done|lia|done|lia|done].
Qed.

Lemma double_keeps env k addr mb :
  memblock_ok mb → arrays_from env mb → slab_is_available env = false → 0 ≤ addr < ULLONG_MAX →
  let t := get_type k mb in
  keeps env mb (set_type k {| mt_cnt := mt_cnt t; mt_max := mt_max t * 2; mt_total_size := mt_total_size t;
    mt_regions := mt_regions t ++ replicate (Z.to_nat (mt_max t)) zero_region; mt_array := Some addr |} mb).
Proof.
  intros Hok Har Henv Hm t. split.
  - destruct (Hok k) as (L & room & Hk). eapply memblock_ok_set; [done|]. by apply doubled_ok.
  - intros k'. specialize (Har k'). rw Henv in Har |- *. intros a. destruct k, k'; cbn; try (by intros [= <-]); apply Har.
  - intros L room HL. destruct k; cbn; [|eauto]. eexists. by apply doubled_ok.
  - intros k' (L & room & Hk & Hp). assert (busy t → busy (get_type k (set_type k {| mt_cnt := mt_cnt t; mt_max := mt_max t * 2; mt_total_size := mt_total_size t;
      mt_regions := mt_regions t ++ replicate (Z.to_nat (mt_max t)) zero_region; mt_array := Some addr |} mb))) as Hb.
    { intros (L' & room' & Hk' & Hp'). rewrite -> get_set_type. eexists _, _. split; [by apply doubled_ok|done]. }
    destruct k, k'; cbn; (apply Hb || idtac); by exists L, room.
Qed.

(** Freeing the old array and reserving the new one. *)
Section boot.
Context (env : slab_env) (fuel : nat).
Let d := memblock_double_array env fuel.
Context (Hd : grows env d).

Lemma free_keeps old size mb mb' :
  ('(_, mb) ← memblock_free d old size mb; Some mb) = Some mb' → 0 ≤ old ≤ ULLONG_MAX → 0 ≤ size → memblock_ok mb → arrays_from env mb → fits env mb' →
  memblock_ok mb' ∧ arrays_from env mb' ∧ ∀ L room, type_ok (mb_memory mb) L room → ∃ room', type_ok (mb_memory mb') L room'.
Proof using Hd.
  intros H Ho Hsz Hok Har Hsm. destruct (memblock_free d old size mb) as [[r mb1]|] eqn:E; [|done]. injection H as <-.
  destruct (remove_returns env d (double_array_max env fuel) Hd _ _ _ _ _ _ E Ho Hsz Hok Har Hsm) as (Hok1 & Har1 & mb2 & Hkeep & [_ Hsame]).
  split_and!; [done|done|]. cbn in Hsame. rewrite -> Hsame. apply Hkeep.
Qed.

Lemma reserve_keeps addr size mb mb' :
  ('(r, mb) ← memblock_reserve d addr size mb; if negb (r =? 0) then None else Some mb) = Some mb' → 0 ≤ addr < ULLONG_MAX → 0 < size → memblock_ok mb → arrays_from env mb → fits env mb' →
  memblock_ok mb' ∧ arrays_from env mb' ∧ (∀ L room, type_ok (mb_memory mb) L room → ∃ room', type_ok (mb_memory mb') L room') ∧ busy (mb_reserved mb').
Proof using Hd.
  intros H Ha Hsz Hok Har Hsm. destruct (memblock_reserve d addr size mb) as [[r mb1]|] eqn:E; [|done]. cbn [mbind option_bind] in H. revert H. case_if; [done|]. intros [= <-].
  destruct (add_region_returns env d (double_array_max env fuel) Hd _ _ _ _ _ _ _ E ltac:(lia) ltac:(lia) Hok Har Hsm) as (Hok1 & Har1 & mb2 & Hkeep & [[? _]|(_ & [_ Hsame] & L & room & L' & room' & _ & Hk' & Hadd)]);
    [by subst|].
  split_and!; [done|done|cbn in Hsame; rewrite -> Hsame; apply Hkeep|]. exists L', room'. split; [done|]. specialize (Hadd addr).
  rewrite -> (proj2 (in_range_spec _ _ _)) in Hadd by (rw /memblock_cap_size; lia). destruct (owner L addr) as [n|]; by apply (busy_owner _ _ _ addr _ Hk' Hadd).
Qed.
End boot.

(** Growing through the slab allocator. *)
Lemma slab_grow_keeps env k start size fuel mb r mb' :
  slab_is_available env = true → memblock_double_array env (S fuel) k start size mb = Some (r, mb') → memblock_ok mb → arrays_from env mb → keeps env mb mb'.
Proof.
  intros Henv H Hok Har. revert H. cbn [memblock_double_array]. case_if; [intros [= _ <-]; by apply grow_keeps_refl|]. cbn zeta. rw Henv. cbn [mbind option_bind].
  case_if; [intros [= _ <-]; by apply grow_keeps_refl|]. set (mb1 := set_type k _ mb).
  replace (if in_slab k mb1 then Some mb1 else _) with (Some mb1).
  2: { pose proof (Har k) as Hk. rw Henv in Hk. assert (in_slab k mb1 = in_slab k mb) as -> by (by destruct k). destruct Hk as [-> | ->]; [done|]. by destruct (in_slab k mb). }
  cbn [mbind option_bind]. intros [= _ <-].
  assert (∀ L room, type_ok (get_type k mb) L room → type_ok (get_type k mb1) L (room + (length L + room))) as Hdbl.
  { intros L room HL. rw /mb1 get_set_type. by apply doubled_ok. }
  assert (∀ k', k' ≠ k → get_type k' mb1 = get_type k' mb) as Hoth by (intros k' Hne; by destruct k, k').
  assert (∀ k', get_type k' (set_in_slab k true mb1) = get_type k' mb1) as Hty by (intros k'; by destruct k, k').
  assert (∀ k' : memblock_kind, k' = k ∨ k' ≠ k) as Hdec by (intros k'; destruct k, k'; auto).
  split.
  - intros k'. rw Hty. destruct (Hok k') as (L & room & HL). destruct (Hdec k') as [->|Hne]; [eauto|rewrite -> Hoth by done; eauto].
  - intros k'. pose proof (Har k') as Hk. rw Henv in Hk |- *. destruct k, k'; cbn in *; auto.
  - intros L room HL. change (mb_memory ?m) with (get_type Memory m). rw Hty. destruct (Hdec Memory) as [<-|Hne]; [eauto|rewrite -> Hoth by done; eauto].
  - intros k' (L & room & HL & Hp). rw Hty. destruct (Hdec k') as [->|Hne]; [|rewrite -> Hoth by done; by exists L, room]. exists L. eexists. split; [by apply Hdbl|done].
Qed.

(** Growing into memory of memblock. *)
Lemma boot_grow_keeps env k start size fuel mb r mb' :
  grows env (memblock_double_array env fuel) → slab_is_available env = false → memblock_double_array env (S fuel) k start size mb = Some (r, mb') →
  memblock_ok mb → arrays_from env mb → fits env mb' → keeps env mb mb'.
Proof.
  intros Hd Henv H Hok Har Hsm. pose proof (double_array_max _ _ _ _ _ _ _ _ H) as Hle. pose proof (fits_mono _ _ _ Hle Hsm) as Hsm0.
  revert H. cbn [memblock_double_array]. case_if; [intros [= _ <-]; by apply grow_keeps_refl|]. cbn zeta. rw Henv.
  set (st := match k with Memory => (0, 0) | Reserved => (start, size) end). destruct st as [st sz].
  destruct (memblock_find_in_range (wrap 64 (st + sz)) _ _ _ _) as [a0|] eqn:E0; [|done]. cbn [mbind option_bind]. apply find_page in E0.
  destruct (if (a0 =? 0) && negb (sz =? 0) then _ else Some a0) as [addr|] eqn:E1; [|done]. cbn [mbind option_bind].
  assert (0 ≤ addr < ULLONG_MAX) as Haddr by (revert E1; case_if; [apply find_page|by intros [= <-]]).
  case_if; [intros [= _ <-]; by apply grow_keeps_refl|]. set (mb1 := set_type k _ mb).
  assert (keeps env mb mb1) as K1 by (by apply double_keeps).
  destruct (if in_slab k mb1 then _ else _) as [mb2|] eqn:E2; [|done]. cbn [mbind option_bind].
  destruct ('(r0, mb3) ← memblock_reserve _ _ _ mb2; _) as [mb3|] eqn:E3; [|done]. cbn [mbind option_bind]. intros [= _ <-].
  assert (fits env mb3) as Hsm3 by (destruct Hsm as [?|[?|Hs]]; [by left|by right; left|right; right]; intros k'; specialize (Hs k'); by destruct k, k').
  assert (fits env mb2) as Hsm2.
  { eapply fits_mono; [|exact Hsm3]. revert E3. destruct (memblock_reserve _ _ _ mb2) as [[r0 mb4]|] eqn:E; [|done]. cbn [mbind option_bind]. case_if; [done|]. intros [= <-].
    eapply add_region_max; [|exact E]. apply double_array_max. }
  assert (memblock_ok mb2 ∧ arrays_from env mb2 ∧ ∀ L room, type_ok (mb_memory mb1) L room → ∃ room', type_ok (mb_memory mb2) L room') as (Hok2 & Har2 & Hmem2).
  { revert E2. case_if; [intros [= <-]; split_and!; [apply K1|apply K1|eauto]|]. pose proof (Har k) as Hk. rw Henv in Hk.
    destruct (mt_array (get_type k mb)) as [old|]; [|intros [= <-]; split_and!; [apply K1|apply K1|eauto]]. specialize (Hk old eq_refl). intros E2.
    eapply free_keeps; [exact Hd|exact E2|lia| |apply K1|apply K1|done]. rw /PAGE_ALIGN. apply Z.land_nonneg. left. apply in_width_wrap. done. }
  destruct (reserve_keeps _ _ Hd _ _ _ _ E3) as (Hok3 & Har3 & Hmem3 & Hbusy); try done.
  { apply new_size_pos. split; [|by destruct Hsm0 as [?|[?|?]]; congruence || auto]. destruct (Hok k) as (L & room & [(_ & _ & _ & _ & -> & _) Hl]). apply region_list_nonempty in Hl. destruct L; [done|cbn; lia]. }
  assert (∀ k', get_type k' (set_in_slab k false mb3) = get_type k' mb3) as Hty by (intros k'; by destruct k, k').
  assert (∀ L room, type_ok (mb_memory mb) L room → ∃ room', type_ok (mb_memory mb3) L room') as Hmem.
  { intros L room HL. destruct (keep_memory _ _ _ K1 L room HL) as (? & H1). destruct (Hmem2 _ _ H1) as (? & H2). eauto. }
  split.
  - intros k'. rw Hty. apply Hok3.
  - intros k'. rw Hty. specialize (Har3 k'). by rw Henv in Har3 |- *.
  - intros L room HL. change (mb_memory ?m) with (get_type Memory m). rw Hty. by eapply Hmem.
  - intros k' Hb. rw Hty. destruct k'; [|done]. destruct Hb as (L & room & HL & Hp). destruct (Hmem _ _ HL) as (room' & H3). by exists L, room'.
Qed.

Lemma double_array_grows env fuel : grows env (memblock_double_array env fuel).
Proof.
  induction fuel as [|fuel IH]; intros k start size mb r mb' H Hok Har Hsm; [done|].
  destruct (slab_is_available env) eqn:Henv; [by eapply slab_grow_keeps|by eapply boot_grow_keeps].
Qed.
