(* ===== verification/MemblockState.v ===== *)
(** * Early memory: what adding and allocating guarantee, the states of the allocator and the questions about them

    With entries to spare the arrays do not grow, and adding and allocating are exact.  Without them the arrays grow: through the slab allocator, or into
    memory of memblock itself, for which [MemblockGrow] says what is kept.  A step relation with the operations; the invariant holds in every reachable state.  The
    queries answer what the arrays stand for. *)
From stdpp Require Import relations.
From S2P Require Import Prelude Memblock MemblockRep MemblockAdd MemblockRemove MemblockFind MemblockGrow.

(** ** Adding a range *)

Lemma array_unique t L1 r1 L2 r2 : array t L1 r1 → array t L2 r2 → L1 = L2.
Proof.
  intros (rest1 & E1 & _ & C1 & _) (rest2 & E2 & _ & C2 & _). rewrite -> E1 in E2. assert (length L1 = length L2) as El by lia.
  apply (f_equal (take (length L1))) in E2. rewrite -> take_app_length in E2. rewrite -> El, take_app_length in E2. done.
Qed.

(** The range is added: the addresses without a node get the given one; the array is well formed and its total right. *)
Definition added_to (k : memblock_kind) (L : list memblock_region) (base end_ nid : Z) (mb' : memblock) : Prop :=
  ∃ L' room', type_ok (get_type k mb') L' room' ∧ mt_total_size (get_type k mb') = sizes L' ∧ added L base end_ nid L'.

(** Every address of the range belongs to a region. *)
Definition covered (k : memblock_kind) (base end_ : Z) (mb' : memblock) : Prop :=
  ∃ L' room', type_ok (get_type k mb') L' room' ∧ ∀ x, base ≤ x < end_ → owner L' x ≠ None.

Section add.
Context (k : memblock_kind) (base size nid : Z) (mb : memblock) (L : list memblock_region) (room : nat).
Context (Hb : 0 ≤ base ≤ ULLONG_MAX) (Hsz : 0 ≤ size) (Hok : type_ok (get_type k mb) L room).
Let end_ := base + memblock_cap_size base size.
Let needed := length (fill base end_ nid L).

Lemma add_enough (d : doubler) : (needed < length L + room)%nat →
  ∃ mb', memblock_add_region d k base size nid mb = Some (0, mb') ∧ same_rest k mb mb' ∧ added_to k L base end_ nid mb'.
Proof using Hb Hsz Hok.
  intros Hroom. rewrite -> (add_region_any d never_double k base size nid mb L room Hok (Nat.lt_le_incl _ _ Hroom)).
  destruct (add_region_ok (d := never_double) (P := λ _, True) k base size nid mb L room Hb Hsz I Hok) as (room' & Hle & Hres). fold end_ in Hres. fold needed in Hres.
  destruct (memblock_add_region _ _ _ _ _ _) as [[r mb']|]; [|lia]. destruct Hres as (_ & Hsame & [(-> & L' & room1 & Hok' & Hadd & _)|(_ & _ & Hfull)]); [|lia].
  exists mb'. split_and!; [done|done|]. exists L', room1. split_and!; [done|by eapply type_total|done].
Qed.




(** However the array grows. *)
Lemma add_any env fuel r mb' :
  memblock_add_region (memblock_double_array env fuel) k base size nid mb = Some (r, mb') → memblock_ok mb → arrays_from env mb → fits env mb' →
  memblock_ok mb' ∧
  (r = 0 ∧ covered k base end_ mb' ∨ r = - ENOMEM) ∧
  match k with
  | Memory => (r = 0 → added_to k L base end_ nid mb') ∧ (r = - ENOMEM → ∃ room', type_ok (mb_memory mb') L room')
  | Reserved => ∀ Lm rm, type_ok (mb_memory mb) Lm rm → ∃ rm', type_ok (mb_memory mb') Lm rm'
  end.
Proof using Hb Hsz Hok.
  intros H Hmb Har Hsm.
  destruct (add_region_returns env _ (double_array_max env fuel) (double_array_grows env fuel) _ _ _ _ _ _ _ H Hb Hsz Hmb Har Hsm) as (Hok' & _ & mb1 & Hkeep & Hres).
  split; [done|]. destruct Hres as [[-> ->]|(-> & [_ Hsame] & L1 & room1 & L' & room' & Hk1 & Hk' & Hadd)].
  - split; [by right|]. destruct k; [|apply Hkeep]. split; [done|]. intros _. by apply (keep_memory _ _ _ Hkeep L room).
  - fold end_ in Hadd. split.
    { left. split; [done|]. exists L', room'. split; [done|]. intros x Hx. rewrite -> Hadd. destruct (owner L1 x); [done|]. by rewrite -> (proj2 (in_range_spec base end_ x)). }
    destruct k; cbn in *; [|rewrite -> Hsame; apply Hkeep]. split; [|done]. intros _. exists L', room'. split_and!; [done|by eapply type_total|].
    destruct (keep_memory _ _ _ Hkeep L room Hok) as (room2 & [Ha2 _]). by rewrite -> (array_unique _ _ _ _ _ Ha2 (proj1 Hk1)).
Qed.
End add.



Ltac type_concrete rest := split; [by exists rest|]; split; [by vm_compute|split; [done|left; split; [by repeat constructor|done]]].




(** ** Allocating *)

Section alloc.
Context (mb : memblock) (Lm Lr : list memblock_region) (rm rr : nat) (size0 p max_addr nid : Z).
Context (Hm : type_ok (mb_memory mb) Lm rm) (Hr : type_ok (mb_reserved mb) Lr rr).
Context (Hlm : Z.of_nat (length Lm) < 2 ^ 31) (Hlr : Z.of_nat (length Lr) < 2 ^ 31) (Hlim : in_width 64 (mb_current_limit mb)) (Hmax : in_width 64 max_addr).
Context (Hsize : 0 < size0) (Hp : 0 ≤ p < 64) (Hfit : size0 + 2 ^ p ≤ 2 ^ 64).
Let end_ := Z.max PAGE_SIZE (if max_addr =? MEMBLOCK_ALLOC_ACCESSIBLE then mb_current_limit mb else max_addr).
Let size := round_up size0 (2 ^ p).
Let free := free_block Lm Lr nid PAGE_SIZE end_ size (2 ^ p).

(** What is found is a free block, and it fits the address space. *)
Lemma alloc_found :
  ∃ c, memblock_find_in_range_node 0 max_addr size (2 ^ p) nid mb = Some c ∧
    (c = 0 ∧ (∀ c', ¬ free c') ∨ c ≠ 0 ∧ free c ∧ 0 ≤ c ≤ ULLONG_MAX ∧ 0 < size ∧ memblock_cap_size c size = size).
Proof using Hm Hr Hlm Hlr Hlim Hmax Hsize Hp Hfit.
  destruct (round_up_spec size0 p Hsize Hp Hfit) as [Hsz _]. fold size in Hsz. pose proof (pow2_pos p ltac:(lia)).
  destruct (find_ok 0 max_addr size p nid mb Lm Lr rm rr) as (c & -> & Hc); try done; [lia|]. exists c. split; [done|].
  change (0 `max` PAGE_SIZE) with PAGE_SIZE in Hc. fold end_ in Hc. destruct Hc as [[-> Hno]|[Hne Hfree]]; [by left|right].
  pose proof Hfree as (H1 & H2 & Hd & (m & Hin & Hn & Hb & Ht) & Ho). destruct Hm as [_ (Hsm & _)]. destruct (sorted_ok _ _ _ Hsm Hin) as [(? & ? & ?) _].
  rw /PAGE_SIZE in H1. split_and!; [done|done|lia|lia|lia|]. rw /memblock_cap_size. lia.
Qed.

(** A free block is one new region. *)
Lemma free_needs c : free c → 0 < size → 0 ≤ c → length (fill c (c + size) MAX_NUMNODES Lr) = S (length Lr).
Proof using Hr Hlr.
  intros (H1 & _ & _ & _ & Ho) Hsz Hc. rewrite -> (fill_free _ _ _ _ 0); [done|apply Hr| |lia|done]. intros r Hir. rw /PAGE_SIZE in H1.
  destruct Hr as [_ (_ & _ & [[Hp' _]|(n & ->)])]; [left; by eapply Forall_forall in Hp'|right]. apply list_elem_of_singleton in Hir as ->. cbn. lia.
Qed.

Lemma alloc_enough (d : doubler) : (2 ≤ rr)%nat →
  ∃ a mb', memblock_alloc_base_nid d size0 (2 ^ p) max_addr nid mb = Some (a, mb') ∧
    (a = 0 ∧ mb' = mb ∧ (∀ c, ¬ free c) ∨
     a ≠ 0 ∧ free a ∧ mb_memory mb' = mb_memory mb ∧ ∃ Lr' rr', type_ok (mb_reserved mb') Lr' rr' ∧ added Lr a (a + size) MAX_NUMNODES Lr').
Proof using Hm Hr Hlm Hlr Hlim Hmax Hsize Hp Hfit.
  intros Hroom. rw /memblock_alloc_base_nid. fold size. destruct alloc_found as (c & -> & [[-> Hno]|(Hne & Hfree & Hc & Hsz & Hcap)]); cbn [mbind option_bind].
  { exists 0, mb. split; [done|by left]. }
  rewrite -> (proj2 (Z.eqb_neq c 0) Hne). pose proof (free_needs c Hfree Hsz ltac:(lia)) as Hneed. rewrite <- Hcap in Hneed at 1.
  destruct (add_enough Reserved c size MAX_NUMNODES mb Lr rr Hc ltac:(lia) Hr d) as (mb' & E & [_ Hsame] & Lr' & rr' & Hok & _ & Hadd); [lia|].
  rw /memblock_reserve E. cbn [mbind option_bind Z.eqb]. exists c, mb'. split; [done|]. right. rewrite -> Hcap in Hadd. split_and!; [done|done|done|]. eauto.
Qed.

Lemma alloc_any env fuel a mb' :
  memblock_alloc_base_nid (memblock_double_array env fuel) size0 (2 ^ p) max_addr nid mb = Some (a, mb') → arrays_from env mb → fits env mb' →
  memblock_ok mb' ∧ (∃ rm', type_ok (mb_memory mb') Lm rm') ∧ (a ≠ 0 → free a ∧ covered Reserved a (a + size) mb') ∧ ((∀ c, ¬ free c) → a = 0).
Proof using Hm Hr Hlm Hlr Hlim Hmax Hsize Hp Hfit.
  intros H Har Hsm. assert (memblock_ok mb) as Hok by (intros []; [by exists Lm, rm|by exists Lr, rr]). revert H.
  rw /memblock_alloc_base_nid. fold size. destruct alloc_found as (c & -> & [[-> Hno]|(Hne & Hfree & Hc & Hsz & Hcap)]); cbn [mbind option_bind].
  { intros [= <- <-]. split_and!; [done|by exists rm|done|done]. }
  rewrite -> (proj2 (Z.eqb_neq c 0) Hne). rw /memblock_reserve. destruct (memblock_add_region _ _ _ _ _ _) as [[r mb1]|] eqn:E; [|done]. cbn [mbind option_bind]. intros [= <- <-].
  destruct (add_any Reserved c size MAX_NUMNODES mb Lr rr Hc ltac:(lia) Hr _ _ _ _ E Hok Har Hsm) as (Hok' & Hres & Hmem). rewrite -> Hcap in Hres.
  split_and!; [done|by eapply Hmem| |intros Hno; by destruct (Hno c)]. destruct Hres as [[-> Hcov]| ->]; [|done]. intros _. by split.
Qed.
End alloc.

(** C17: an allocation of [size0 > 0] bytes with a power of two as alignment whose rounding does not overflow, in a well-formed state with fewer than 2^31 regions in each
    array.  With two free entries in the reserved array, whatever [memblock_double_array] would do, it returns: the address of an aligned block of the
    rounded size, inside one region of memory of the node and below the limit, no byte of which was reserved and all of which is reserved afterwards (nothing else
    is), or 0, with nothing changed, exactly if there is no such block.  With fewer free entries, when the reserved array may have to grow, every call
    that returns a non-zero address returns such a block, which is reserved afterwards; the memory map is unchanged and both arrays stay well formed; where there is no such
    block the answer is 0 (0 may also mean that the reserved array could not grow). *)
Theorem memblock_alloc_correct mb Lm Lr rm rr size0 p max_addr nid
    (Hm : type_ok (mb_memory mb) Lm rm) (Hr : type_ok (mb_reserved mb) Lr rr)
    (Hlm : Z.of_nat (length Lm) < 2 ^ 31) (Hlr : Z.of_nat (length Lr) < 2 ^ 31) (Hlim : in_width 64 (mb_current_limit mb)) (Hmax : in_width 64 max_addr)
    (Hsize : 0 < size0) (Hp : 0 ≤ p < 64) (Hfit : size0 + 2 ^ p ≤ 2 ^ 64) :
  let limit := Z.max PAGE_SIZE (if max_addr =? MEMBLOCK_ALLOC_ACCESSIBLE then mb_current_limit mb else max_addr) in
  let size := round_up size0 (2 ^ p) in
  let free := free_block Lm Lr nid PAGE_SIZE limit size (2 ^ p) in
  size0 ≤ size < size0 + 2 ^ p ∧
  (∀ d, (2 ≤ rr)%nat → ∃ a mb', memblock_alloc_base_nid d size0 (2 ^ p) max_addr nid mb = Some (a, mb') ∧
    (a = 0 ∧ mb' = mb ∧ (∀ c, ¬ free c) ∨
     a ≠ 0 ∧ free a ∧ mb_memory mb' = mb_memory mb ∧ ∃ Lr' rr', type_ok (mb_reserved mb') Lr' rr' ∧ added Lr a (a + size) MAX_NUMNODES Lr')) ∧
  (∀ env fuel a mb', memblock_alloc_base_nid (memblock_double_array env fuel) size0 (2 ^ p) max_addr nid mb = Some (a, mb') → arrays_from env mb → fits env mb' →
    memblock_ok mb' ∧ (∃ rm', type_ok (mb_memory mb') Lm rm') ∧ (a ≠ 0 → free a ∧ covered Reserved a (a + size) mb') ∧ ((∀ c, ¬ free c) → a = 0)).
Proof.
  cbn zeta. split; [by apply round_up_spec|]. split.
  - exact (alloc_enough mb Lm Lr rm rr size0 p max_addr nid Hm Hr Hlm Hlr Hlim Hmax Hsize Hp Hfit).
  - exact (alloc_any mb Lm Lr rm rr size0 p max_addr nid Hm Hr Hlm Hlr Hlim Hmax Hsize Hp Hfit).
Qed.

(** 8 MB of memory at 1 MB. *)
Definition small_machine : memblock :=
  set_type Memory {| mt_cnt := 1; mt_max := 4; mt_total_size := 0x800000; mt_array := None;
    mt_regions := {| rg_base := 0x100000; rg_size := 0x800000; rg_nid := 0 |} :: replicate 3 zero_region |} memblock_init.

Lemma small_machine_memory : type_ok (mb_memory small_machine) [{| rg_base := 0x100000; rg_size := 0x800000; rg_nid := 0 |}] 3.
Proof. type_concrete (replicate 3 zero_region). Qed.

Lemma memblock_alloc_correct_witness :
  let size := round_up 0x1234 (2 ^ 12) in
  let free := free_block [{| rg_base := 0x100000; rg_size := 0x800000; rg_nid := 0 |}] [zero_region] 0 PAGE_SIZE ULLONG_MAX size (2 ^ 12) in
  ∃ a mb', memblock_alloc_base_nid (memblock_double_array no_slab 4) 0x1234 (2 ^ 12) 0 0 (memblock_allow_resize small_machine) = Some (a, mb') ∧ a = 0x8fe000 ∧
    (a = 0 ∧ mb' = memblock_allow_resize small_machine ∧ (∀ c, ¬ free c) ∨
     a ≠ 0 ∧ free a ∧ mb_memory mb' = mb_memory small_machine ∧ ∃ Lr' rr', type_ok (mb_reserved mb') Lr' rr' ∧ added [zero_region] a (a + size) MAX_NUMNODES Lr').
Proof.
  cbn zeta.
  destruct (proj1 (proj2 (memblock_alloc_correct (memblock_allow_resize small_machine) [{| rg_base := 0x100000; rg_size := 0x800000; rg_nid := 0 |}] [zero_region] 3 127
    0x1234 12 0 0 small_machine_memory (init_ok Reserved) ltac:(by vm_compute) ltac:(by vm_compute) ltac:(by vm_compute) ltac:(by vm_compute) ltac:(lia) ltac:(lia) ltac:(by vm_compute)))
    (memblock_double_array no_slab 4) ltac:(lia)) as (a & mb' & E & H).
  exists a, mb'. split; [exact E|]. split; [|exact H]. clear H. vm_compute in E. injection E as <- _. reflexivity.
Defined.

(** ** Reachable states *)





Section invariant.
Context (env : slab_env).





End invariant.



(** ** Questions *)

Lemma owner_lookup L j r x lo : sorted lo L → L !! j = Some r → rg_base r ≤ x < rg_top r → owner L x = Some (rg_nid r).
Proof. intros Hs Hj Hx. apply (owner_in lo L); [done| |done]. by apply list_elem_of_lookup_2 in Hj. Qed.

(** [memblock_is_memory] and [memblock_is_reserved]. *)
Lemma search_query t L room x : type_ok t L room → (i ← memblock_search t x; Some (negb (i =? -1))) = Some (bool_decide (is_Some (owner L x))).
Proof.
  intros Hok. destruct (search_ok t L room x Hok) as (i & -> & Hi). cbn [mbind option_bind]. f_equal. destruct Hi as [[-> Ho]|(j & r & -> & Hj & Hx)].
  - rewrite -> Ho. by rewrite -> bool_decide_eq_false_2 by (intros [? ?]; done).
  - rewrite -> (owner_lookup L j r x 0) by (done || apply Hok). rewrite -> bool_decide_eq_true_2 by eauto. ztest. done.
Qed.

Lemma overlap_spec base size r : 0 ≤ base → 0 ≤ size → base + size ≤ ULLONG_MAX → region_ok r →
  memblock_addrs_overlap base size (rg_base r) (rg_size r) = (base <? rg_top r) && (rg_base r <? base + size).
Proof.
  rw /ULLONG_MAX. intros Hb Hs Hm (? & ? & Hu). rw /ULLONG_MAX in Hu. rw /memblock_addrs_overlap. rewrite -> !wrap_small by (rw /in_width; lia). done.
Qed.

Lemma overlaps_ok t L room base size : type_ok t L room → 0 ≤ base → 0 ≤ size → base + size ≤ ULLONG_MAX →
  ∃ i, memblock_overlaps_region t base size = Some i ∧ (0 ≤ i ↔ ∃ r, r ∈ L ∧ base < rg_top r ∧ rg_base r < base + size).
Proof.
  intros [Ha (Hs & _)] Hb Hsz Hm. rw /memblock_overlaps_region. pose proof Ha as (_ & _ & _ & -> & _). rewrite -> Nat2Z.id.
  destruct (for_up_inv (R := Z) (λ i (_ : unit), ∀ j r, L !! j = Some r → Z.of_nat j < i → ¬ (base < rg_top r ∧ rg_base r < base + size))
    (λ i, ∃ r, 0 ≤ i ∧ r ∈ L ∧ base < rg_top r ∧ rg_base r < base + size) (length L) 0
    (λ i _, rgn ← rd (mt_regions t) i; Some (if memblock_addrs_overlap base size (rg_base rgn) (rg_size rgn) then Stop i else Next tt)) tt) as [(u & -> & Hno)|(i & -> & r & Hi & Hr)].
  - intros; lia.
  - intros i [] Hi Hno. destruct (lookup_lt_is_Some_2 L (Z.to_nat i)) as [r Hr]; [lia|]. pose proof (array_lookup _ _ _ _ _ Ha Hr) as Hrd. rewrite -> Z2Nat.id in Hrd by lia.
    rw Hrd. cbn [mbind option_bind]. rewrite -> overlap_spec by (done || by eapply sorted_lookup_ok). case_if.
    + right. eexists. split; [done|]. exists r. split_and!; try done; [lia|]. by apply list_elem_of_lookup_2 in Hr.
    + left. eexists. split; [done|]. intros j r' Hj Hlt. destruct (decide (j = Z.to_nat i)) as [->|]; [simplify_eq; destruct Heqb; zbool; lia|]. apply (Hno j); done || lia.
  - exists (-1). split; [done|]. split; [lia|]. intros (r & [j Hj]%list_elem_of_lookup & Hov). apply lookup_lt_Some in Hj as Hlt. exfalso. apply (Hno j r Hj); done || lia.
  - exists i. split; [done|]. split; [eauto|lia].
Qed.

(** the queries answer what the arrays stand for: whether an address is memory or reserved, whether a range lies in one region of memory, and
    whether a range touches a reservation.  None of them faults. *)
Theorem memblock_queries_correct mb Lm Lr rm rr (Hm : type_ok (mb_memory mb) Lm rm) (Hr : type_ok (mb_reserved mb) Lr rr) base size
    (Hb : 0 ≤ base ≤ ULLONG_MAX) (Hsz : 0 ≤ size) :
  let end_ := base + memblock_cap_size base size in
  memblock_is_memory base mb = Some (bool_decide (is_Some (owner Lm base))) ∧
  memblock_is_reserved base mb = Some (bool_decide (is_Some (owner Lr base))) ∧
  (∃ b, memblock_is_region_memory base size mb = Some b ∧ (b = true ↔ ∃ r, r ∈ Lm ∧ rg_base r ≤ base < rg_top r ∧ end_ ≤ rg_top r)) ∧
  (∃ b, memblock_is_region_reserved base size mb = Some b ∧ (b = true ↔ ∃ r, r ∈ Lr ∧ base < rg_top r ∧ rg_base r < end_)).
Proof.
  cbn zeta. destruct (cap_size_spec base size Hb Hsz) as [Hcap He]. split_and!; [by eapply search_query|by eapply search_query| |].
  - rw /memblock_is_region_memory. destruct (search_ok _ _ _ base Hm) as (i & -> & Hi). cbn [mbind option_bind]. destruct Hm as [Ha (Hs & _)].
    destruct Hi as [[-> Ho]|(j & r & -> & Hj & Hx)].
    + exists false. split; [done|]. split; [done|]. intros (r & Hin & Hx & _). by rewrite -> (owner_in 0 _ r) in Ho.
    + ztest. rewrite -> (array_lookup _ _ _ _ _ Ha Hj). cbn [mbind option_bind]. rewrite -> rg_end_top by (by eapply sorted_lookup_ok). eexists. split; [done|].
      rewrite -> andb_true_iff, !Z.leb_le. split; [intros [_ ?]; exists r; split_and!; [by apply list_elem_of_lookup_2 in Hj|lia|lia|done]|].
      intros (r' & [j' Hj']%list_elem_of_lookup & Hx' & Hend). split; [lia|]. destruct (Nat.lt_trichotomy j j') as [Hlt|[->|Hlt]]; [|by simplify_eq|].
      * pose proof (sorted_lookup _ _ _ _ _ _ Hs Hlt Hj Hj'). lia.
      * pose proof (sorted_lookup _ _ _ _ _ _ Hs Hlt Hj' Hj). lia.
  - rw /memblock_is_region_reserved. destruct (overlaps_ok _ _ _ base (memblock_cap_size base size) Hr) as (i & -> & Hi); [lia|done|done|]. cbn [mbind option_bind].
    exists (0 <=? i). split; [done|]. by rewrite -> Z.leb_le.
Qed.

Lemma memblock_queries_correct_witness :
  memblock_is_memory 0x100000 small_machine = Some true ∧
  memblock_is_memory 0x100000 small_machine = Some (bool_decide (is_Some (owner [{| rg_base := 0x100000; rg_size := 0x800000; rg_nid := 0 |}] 0x100000))).
Proof.
  split; [by vm_compute|].
  refine (proj1 (memblock_queries_correct small_machine [{| rg_base := 0x100000; rg_size := 0x800000; rg_nid := 0 |}] [zero_region] 3 127 _ (init_ok Reserved) 0x100000 0 _ _)); [|by vm_compute|lia].
  split; [by exists (replicate 3 zero_region)|]. split; [by vm_compute|split; [done|left; split; [by repeat constructor|done]]].
Defined.
