(* ===== verification/Vsprintf.v ===== *)
(** * Formatted output: lib/vsprintf.c

    The functions that produce text write a character and advance, [if (buf < end) *buf = c; ++buf]; here they go to a [Sink], which is
    a buffer with its bounds or the text itself.  The interpreter of a format takes its arguments from a class [Args], which is a list of C arguments
    for [vsnprintf] and a buffer of bytes for [bstr_printf].  Fields of [struct printf_spec] keep their width ([u8], [s16]). *)
From Stdlib Require Import Ascii String.
From S2P Require Import Prelude Ctype NumPrint StringLib.
#[local] Open Scope Z_scope.

(** ** Characters *)

Definition ch (a : ascii) : Z := Z.of_N (N_of_ascii a).
Fixpoint chars (s : string) : list Z := match s with EmptyString => [] | String a s => ch a :: chars s end.
(** A string constant with its terminator. *)
Definition cstr (s : string) : list Z := chars s ++ [0].

(** The byte at an offset of an object. *)
Notation byte_at := rd.

(** ** Data *)

Inductive format_type :=
| FORMAT_TYPE_NONE | FORMAT_TYPE_WIDTH | FORMAT_TYPE_PRECISION | FORMAT_TYPE_CHAR | FORMAT_TYPE_STR | FORMAT_TYPE_PTR
| FORMAT_TYPE_PERCENT_CHAR | FORMAT_TYPE_INVALID | FORMAT_TYPE_LONG_LONG | FORMAT_TYPE_ULONG | FORMAT_TYPE_LONG | FORMAT_TYPE_UBYTE
| FORMAT_TYPE_BYTE | FORMAT_TYPE_USHORT | FORMAT_TYPE_SHORT | FORMAT_TYPE_UINT | FORMAT_TYPE_INT | FORMAT_TYPE_NRCHARS
| FORMAT_TYPE_SIZE_T | FORMAT_TYPE_PTRDIFF.

#[export] Instance format_type_eq_dec : EqDecision format_type.
Proof. solve_decision. Defined.

Definition ZEROPAD : Z := 1.
Definition SIGN : Z := 2.
Definition PLUS : Z := 4.
Definition SPACE : Z := 8.
Definition LEFT : Z := 16.
Definition SMALL : Z := 32.
Definition SPECIAL : Z := 64.

Record printf_spec := {
  ps_type : format_type; ps_flags : Z; ps_base : Z; ps_qualifier : Z; ps_field_width : Z; ps_precision : Z
}.

(** [struct printf_spec spec = {0}]. *)
Definition zero_spec : printf_spec :=
  {| ps_type := FORMAT_TYPE_NONE; ps_flags := 0; ps_base := 0; ps_qualifier := 0; ps_field_width := 0; ps_precision := 0 |}.

Definition set_ps_type (t : format_type) (s : printf_spec) : printf_spec :=
  {| ps_type := t; ps_flags := ps_flags s; ps_base := ps_base s; ps_qualifier := ps_qualifier s; ps_field_width := ps_field_width s; ps_precision := ps_precision s |}.
Definition set_ps_flags (f : Z) (s : printf_spec) : printf_spec :=
  {| ps_type := ps_type s; ps_flags := f; ps_base := ps_base s; ps_qualifier := ps_qualifier s; ps_field_width := ps_field_width s; ps_precision := ps_precision s |}.
Definition set_ps_base (b : Z) (s : printf_spec) : printf_spec :=
  {| ps_type := ps_type s; ps_flags := ps_flags s; ps_base := b; ps_qualifier := ps_qualifier s; ps_field_width := ps_field_width s; ps_precision := ps_precision s |}.
Definition set_ps_qualifier (q : Z) (s : printf_spec) : printf_spec :=
  {| ps_type := ps_type s; ps_flags := ps_flags s; ps_base := ps_base s; ps_qualifier := q; ps_field_width := ps_field_width s; ps_precision := ps_precision s |}.
(** The two [s16] fields. *)
Definition set_ps_width (w : Z) (s : printf_spec) : printf_spec :=
  {| ps_type := ps_type s; ps_flags := ps_flags s; ps_base := ps_base s; ps_qualifier := ps_qualifier s; ps_field_width := swrap 16 w; ps_precision := ps_precision s |}.
Definition set_ps_precision (p : Z) (s : printf_spec) : printf_spec :=
  {| ps_type := ps_type s; ps_flags := ps_flags s; ps_base := ps_base s; ps_qualifier := ps_qualifier s; ps_field_width := ps_field_width s; ps_precision := swrap 16 p |}.

(** [spec.flags & f]. *)
Definition flag (f : Z) (s : printf_spec) : bool := negb (Z.land (ps_flags s) f =? 0).
(** [spec.flags |= f]. *)
Definition or_flag (f : Z) (s : printf_spec) : printf_spec := set_ps_flags (Z.lor (ps_flags s) f) s.

(** ** Where the text goes *)

Class Sink (Out : Type) := {
  (** [if (buf < end) *buf = c; ++buf]. *)
  put : Z → Out → option Out;
  (** [if (str < end) { copy = min(read, end - str); memcpy(str, s, copy) } str += read]. *)
  put_text : list Z → Out → option Out;
  (** [buf += call(buf, end > buf ? end - buf : 0)]: a function writes into what is left of the buffer and returns a length. *)
  put_call : (list Z → Z → option (list Z * Z)) → Out → option Out;
  (** [str - buf]. *)
  position : Out → Z
}.

(** A buffer, the position [str] and [end], as offsets. *)
Record outbuf := { ob_buf : list Z; ob_str : Z; ob_end : Z }.

#[export] Instance outbuf_sink : Sink outbuf := {
  put c o :=
    b ← (if ob_str o <? ob_end o then wr (ob_buf o) (ob_str o) c else Some (ob_buf o));
    Some {| ob_buf := b; ob_str := ob_str o + 1; ob_end := ob_end o |};
  put_text s o :=
    let read := Z.of_nat (length s) in
    b ← (if ob_str o <? ob_end o
         then wr_range (ob_buf o) (ob_str o) (take (Z.to_nat (if ob_end o - ob_str o <? read then ob_end o - ob_str o else read)) s)
         else Some (ob_buf o));
    Some {| ob_buf := b; ob_str := ob_str o + read; ob_end := ob_end o |};
  put_call call o :=
    if ob_str o <? 0 then None else
    '(b, n) ← call (drop (Z.to_nat (ob_str o)) (ob_buf o)) (if ob_str o <? ob_end o then ob_end o - ob_str o else 0);
    Some {| ob_buf := take (Z.to_nat (ob_str o)) (ob_buf o) ++ b; ob_str := ob_str o + n; ob_end := ob_end o |};
  position := ob_str
}.

(** All the text; that of a function is what it writes if there is room for all of it. *)
#[export] Instance text_sink : Sink (list Z) := {
  put c t := Some (t ++ [c]);
  put_text s t := Some (t ++ s);
  put_call call t :=
    '(_, n) ← call [] 0;
    '(b, _) ← call (replicate (Z.to_nat (n + 1)) 0) (n + 1);
    Some (t ++ take (Z.to_nat n) b);
  position t := Z.of_nat (length t)
}.

(** A count that goes down by one from an [s16] and wraps around at most once. *)
Definition s16_rounds : nat := Z.to_nat 65537.

(** ** Numbers and strings *)

(** [digits], and [digits[k] | locase]. *)
Definition digit_chars : list Z := chars "0123456789ABCDEF".
Definition digit_char (k locase : Z) : option Z := d ← rd digit_chars k; Some (Z.lor d locase).

(** The digits in octal or hexadecimal, the last one first: 22 octal digits at most. *)
Definition pow2_digits (mask shift locase num : Z) : option (list Z) :=
  loop 23
    (λ '(num, tmp),
       d ← digit_char (Z.land (wrap 8 num) mask) locase;
       let num := Z.shiftr num shift in
       Some (if num =? 0 then Stop (tmp ++ [d]) else Next (num, tmp ++ [d])))
    (num, []).

Definition number_digits (base locase num : Z) : option (list Z) :=
  if num <? base then d ← digit_char num locase; Some [d]
  else if negb (base =? 10) then pow2_digits (base - 1) (if base =? 16 then 4 else 3) locase num
  else put_dec [] num.

(** The sign, the absolute value and the width that is left. *)
Definition number_sign (spec : printf_spec) (num : Z) : option Z * Z * Z :=
  if flag SIGN spec then
    if swrap 64 num <? 0 then (Some (ch "-"), wrap 64 (- swrap 64 num), swrap 16 (ps_field_width spec - 1))
    else if flag PLUS spec then (Some (ch "+"), num, swrap 16 (ps_field_width spec - 1))
    else if flag SPACE spec then (Some (ch " "), num, swrap 16 (ps_field_width spec - 1))
    else (None, num, ps_field_width spec)
  else (None, num, ps_field_width spec).

Section output.
Context `{Sink Out}.

(** [while (--spec.field_width >= 0) ...]: the width afterwards. *)
Definition pad_width (c fw : Z) (o : Out) : option (Z * Out) :=
  loop s16_rounds
    (λ '(fw, o),
       let fw := swrap 16 (fw - 1) in
       if fw <? 0 then Some (Stop (fw, o)) else o ← put c o; Some (Next (fw, o))) (fw, o).

(** [while (i <= --spec.precision) ...]. *)
Definition pad_precision (i precision : Z) (o : Out) : option Out :=
  loop s16_rounds
    (λ '(precision, o),
       let precision := swrap 16 (precision - 1) in
       if precision <? i then Some (Stop o) else o ← put (ch "0") o; Some (Next (precision, o))) (precision, o).

(** [while (--i >= 0) ... tmp[i]]: the digits, the last of [tmp] first. *)
Fixpoint put_all (s : list Z) (o : Out) : option Out :=
  match s with [] => Some o | c :: s => o ← put c o; put_all s o end.

Definition put_opt (c : option Z) (o : Out) : option Out := match c with Some c => put c o | None => Some o end.

Definition number (num : Z) (spec : printf_spec) (o : Out) : option Out :=
  let need_pfx := flag SPECIAL spec && negb (ps_base spec =? 10) in
  let is_zero := num =? 0 in
  let locase := Z.land (ps_flags spec) SMALL in
  let spec := if flag LEFT spec then set_ps_flags (Z.land (ps_flags spec) (bnot 8 ZEROPAD)) spec else spec in
  let '(sign, num, fw) := number_sign spec num in
  let fw :=
    if need_pfx then
      if ps_base spec =? 16 then swrap 16 (fw - 2) else if negb is_zero then swrap 16 (fw - 1) else fw
    else fw in
  tmp ← number_digits (ps_base spec) locase num;
  let i := Z.of_nat (length tmp) in
  if 66 <? i then None else
  let precision := if ps_precision spec <? i then i else ps_precision spec in
  let fw := swrap 16 (fw - precision) in
  '(fw, o) ← (if negb (flag (ZEROPAD + LEFT) spec) then pad_width (ch " ") fw o else Some (fw, o));
  o ← put_opt sign o;
  o ← (if need_pfx then
         o ← (if (ps_base spec =? 16) || negb is_zero then put (ch "0") o else Some o);
         if ps_base spec =? 16 then put (Z.lor (ch "X") locase) o else Some o
       else Some o);
  '(fw, o) ← (if negb (flag LEFT spec) then pad_width (if flag ZEROPAD spec then ch "0" else ch " ") fw o else Some (fw, o));
  o ← pad_precision i precision o;
  o ← put_all (rev tmp) o;
  '(_, o) ← pad_width (ch " ") fw o;
  Some o.

(** [while (len < spec.field_width--) ...]. *)
Definition pad_string (len fw : Z) (o : Out) : option (Z * Out) :=
  loop s16_rounds
    (λ '(fw, o),
       let fw' := swrap 16 (fw - 1) in
       if negb (len <? fw) then Some (Stop (fw', o)) else o ← put (ch " ") o; Some (Next (fw', o))) (fw, o).

(** [s] is the address and the object there. *)
Definition string_out (s : Z * list Z) (spec : printf_spec) (o : Out) : option Out :=
  let obj := if s.1 <? 4096 then cstr "(null)" else s.2 in
  len ← strnlen obj (wrap 64 (ps_precision spec));
  '(fw, o) ← (if negb (flag LEFT spec) then pad_string len (ps_field_width spec) o else Some (ps_field_width spec, o));
  o ← put_all (take (Z.to_nat len) obj) o;
  '(_, o) ← pad_string len fw o;
  Some o.
End output.

(** ** Pointers *)

(** Little-endian values in memory. *)
Fixpoint le_bytes (n : nat) (v : Z) : list Z := match n with O => [] | S n => wrap 8 v :: le_bytes n (Z.shiftr v 8) end.
Fixpoint le_value (l : list Z) : Z := match l with [] => 0 | b :: l => b + 256 * le_value l end.
Definition read_le (obj : list Z) (off n : Z) : option Z := le_value <$> rd_range obj off n.

(** The memory that pointers point to, the names of symbols (if the kernel has them: extension letter, address), what [%pK] asks, and the recursive call of [%pV]:
    vsnprintf with a buffer, its size, and the format and arguments of the [struct va_format] at an address ([nest] below ties the knot). *)
Record fmt_env := {
  fe_mem : Z → option (list Z); fe_kallsyms : option (Z → Z → list Z);
  fe_in_interrupt : bool; fe_kptr_restrict : Z; fe_cap_syslog : bool;
  fe_vaf : Z → list Z → Z → option (list Z * Z)
}.
Definition set_fe_vaf (f : Z → list Z → Z → option (list Z * Z)) (env : fmt_env) : fmt_env :=
  {| fe_mem := fe_mem env; fe_kallsyms := fe_kallsyms env; fe_in_interrupt := fe_in_interrupt env; fe_kptr_restrict := fe_kptr_restrict env;
     fe_cap_syslog := fe_cap_syslog env; fe_vaf := f |}.

(** A local array of [n] bytes that the code filled from its start. *)
Definition local_array (n : Z) (p : list Z) : option (list Z) := if n <? Z.of_nat (length p) then None else Some p.

Definition hex_asc : list Z := chars "0123456789abcdef".
Definition hex_asc_lo (x : Z) : Z := nth (Z.to_nat (Z.land x 0x0f)) hex_asc 0.
Definition hex_asc_hi (x : Z) : Z := nth (Z.to_nat (Z.shiftr (Z.land x 0xf0) 4)) hex_asc 0.
Definition hex_byte_pack (p : list Z) (byte : Z) : list Z := p ++ [hex_asc_hi byte; hex_asc_lo byte].

(** [mac_addr] has [sizeof("xx:xx:xx:xx:xx:xx")] bytes. *)
Definition mac_address (addr fmt : list Z) : option (list Z) :=
  f0 ← byte_at fmt 0;
  f1 ← byte_at fmt 1;
  let separator := if f1 =? ch "F" then ch "-" else ch ":" in
  p ← for_each 6 0
    (λ i p, b ← rd addr i;
            let p := hex_byte_pack p b in
            Some (if (f0 =? ch "M") && negb (i =? 5) then p ++ [separator] else p)) [];
  local_array 18 (p ++ [0]).

(** The machine is little-endian. *)
Definition ip4_order (f2 : Z) : Z * Z := if (f2 =? ch "h") || (f2 =? ch "l") then (3, -1) else (0, 1).

Definition ip4_string (p addr fmt : list Z) : option (list Z) :=
  f0 ← byte_at fmt 0;
  f2 ← byte_at fmt 2;
  let leading_zeros := f0 =? ch "i" in
  let '(index, step) := ip4_order f2 in
  '(p, _) ← for_each 4 0
    (λ i '(p, index),
       b ← rd addr index;
       temp ← local_array 3 (put_dec_trunc8 [] b);
       let digits := Z.of_nat (length temp) in
       let p := if leading_zeros && (digits <? 3) then p ++ [ch "0"] else p in
       let p := if leading_zeros && (digits <? 2) then p ++ [ch "0"] else p in
       let p := p ++ rev temp in
       let p := if i <? 3 then p ++ [ch "."] else p in
       Some (p, index + step)) (p, index);
  Some (p ++ [0]).

(** [s6_addr16[j]] and [s6_addr32[j]]. *)
Definition s6_addr16 (in6 : list Z) (j : Z) : option Z := read_le in6 (2 * j) 2.
Definition s6_addr32 (in6 : list Z) (j : Z) : option Z := read_le in6 (4 * j) 4.

(** [htonl(0x0000ffff)], [htonl(0x02000000)] and [htonl(0x02005EFE)] on a little-endian machine. *)
Definition ipv6_addr_v4mapped (in6 : list Z) : option bool :=
  a0 ← s6_addr32 in6 0; a1 ← s6_addr32 in6 1; a2 ← s6_addr32 in6 2;
  Some (Z.lor (Z.lor a0 a1) (Z.lxor a2 0xffff0000) =? 0).
Definition ipv6_addr_is_isatap (in6 : list Z) : option bool :=
  a2 ← s6_addr32 in6 2; Some (Z.lor a2 0x00000002 =? 0xfe5e0002).

(** The length of the run of zero words from [i] on. *)
Definition zero_run (in6 : list Z) (range i : Z) : option Z :=
  r ← for_up (Z.to_nat (range - i)) i
    (λ j n, w ← s6_addr16 in6 j; Some (if negb (w =? 0) then Stop n else Next (n + 1))) 0;
  Some (match r with Stop n => n | Next n => n end).

(** The start and the length of the first longest run of at least two zero words, start -1 if there is none. *)
Definition longest_run (in6 : list Z) (range : Z) : option (Z * Z) :=
  '(longest, colonpos) ← for_each (Z.to_nat range) 0
    (λ i '(longest, colonpos), n ← zero_run in6 range i; Some (if longest <? n then (n, i) else (longest, colonpos))) (1, -1);
  Some (if longest =? 1 then -1 else colonpos, longest).

(** A word in hexadecimal without leading zeros. *)
Definition hex_word (p : list Z) (word : Z) : list Z :=
  let hi := Z.shiftr word 8 in
  let lo := Z.land word 0xff in
  if negb (hi =? 0) then hex_byte_pack (if 0x0f <? hi then hex_byte_pack p hi else p ++ [hex_asc_lo hi]) lo
  else if 0x0f <? lo then hex_byte_pack p lo else p ++ [hex_asc_lo lo].

Definition ntohs (w : Z) : Z := Z.lor (Z.shiftr w 8) (Z.shiftl (Z.land w 0xff) 8).

Definition ip6_compressed_string (addr : list Z) : option (list Z) :=
  in6 ← rd_range addr 0 16;
  mapped ← ipv6_addr_v4mapped in6;
  isatap ← (if mapped : bool then Some false else ipv6_addr_is_isatap in6);
  let useIPv4 := mapped || isatap in
  let range := if useIPv4 then 6 else 8 in
  '(colonpos, longest) ← longest_run in6 range;
  '(needcolon, p) ← loop 9
    (λ '(i, needcolon, p),
       if negb (i <? range) then Some (Stop (needcolon, p)) else
       if i =? colonpos then
         let p := if needcolon || (i =? 0) then p ++ [ch ":"] else p in
         Some (Next (i + (longest - 1) + 1, false, p ++ [ch ":"]))
       else
         let p := if needcolon : bool then p ++ [ch ":"] else p in
         w ← s6_addr16 in6 i;
         Some (Next (i + 1, true, hex_word p (ntohs w))))
    (0, false, []);
  if useIPv4 then
    let p := if needcolon : bool then p ++ [ch ":"] else p in
    quad ← rd_range in6 12 4;
    ip4_string p quad (cstr "I4")
  else Some (p ++ [0]).

Definition ip6_string (addr fmt : list Z) : option (list Z) :=
  f0 ← byte_at fmt 0;
  p ← for_each 8 0
    (λ i p, a ← rd addr (2 * i); b ← rd addr (2 * i + 1);
            let p := hex_byte_pack (hex_byte_pack p a) b in
            Some (if (f0 =? ch "I") && negb (i =? 7) then p ++ [ch ":"] else p)) [];
  Some (p ++ [0]).

(** [uuid] has [sizeof("xxxxxxxx-xxxx-xxxx-xxxx-xxxxxxxxxxxx")] bytes. *)
Definition uuid_be : list Z := [0; 1; 2; 3; 4; 5; 6; 7; 8; 9; 10; 11; 12; 13; 14; 15].
Definition uuid_le : list Z := [3; 2; 1; 0; 5; 4; 7; 6; 8; 9; 10; 11; 12; 13; 14; 15].
Definition uuid_text (addr fmt : list Z) : option (list Z) :=
  f1 ← byte_at fmt 1;
  let index := if (f1 =? ch "L") || (f1 =? ch "l") then uuid_le else uuid_be in
  let uc := (f1 =? ch "L") || (f1 =? ch "B") in
  p ← for_each 16 0
    (λ i p, k ← rd index i; b ← rd addr k;
            let p := hex_byte_pack p b in
            Some (if (i =? 3) || (i =? 5) || (i =? 7) || (i =? 9) then p ++ [ch "-"] else p)) [];
  local_array 37 ((if uc then __toupper <$> p else p) ++ [0]).

(** [*p++ = c] without a test. *)
Definition put_raw (c : Z) (o : outbuf) : option outbuf :=
  b ← wr (ob_buf o) (ob_str o) c; Some {| ob_buf := b; ob_str := ob_str o + 1; ob_end := ob_end o |}.

Definition mk_spec (base width precision flags : Z) : printf_spec :=
  {| ps_type := FORMAT_TYPE_NONE; ps_flags := flags; ps_base := base; ps_qualifier := 0; ps_field_width := width; ps_precision := precision |}.
Definition io_spec : printf_spec := mk_spec 16 6 (-1) (SPECIAL + SMALL + ZEROPAD).
Definition mem_spec : printf_spec := mk_spec 16 10 (-1) (SPECIAL + SMALL + ZEROPAD).
Definition bus_spec : printf_spec := mk_spec 16 2 (-1) (SMALL + ZEROPAD).
Definition dec_spec : printf_spec := mk_spec 10 0 (-1) 0.
Definition str_spec : printf_spec := mk_spec 0 (-1) 10 LEFT.
Definition flag_spec : printf_spec := mk_spec 16 0 (-1) (SPECIAL + SMALL).

Definition IORESOURCE_IO : Z := 0x00000100.
Definition IORESOURCE_MEM : Z := 0x00000200.
Definition IORESOURCE_IRQ : Z := 0x00000400.
Definition IORESOURCE_DMA : Z := 0x00000800.
Definition IORESOURCE_BUS : Z := 0x00001000.
Definition IORESOURCE_PREFETCH : Z := 0x00002000.
Definition IORESOURCE_MEM_64 : Z := 0x00100000.
Definition IORESOURCE_WINDOW : Z := 0x00200000.
Definition IORESOURCE_DISABLED : Z := 0x10000000.

(** The start, the end and the flags of a [struct resource]. *)
Record resource := { rs_start : Z; rs_end : Z; rs_flags : Z }.
Definition load_resource (obj : list Z) : option resource :=
  s ← read_le obj 0 8; e ← read_le obj 8 8; f ← read_le obj 24 8; Some {| rs_start := s; rs_end := e; rs_flags := f |}.

(** The name of the kind, the format of the addresses, and whether the flags can be decoded. *)
Definition resource_kind (flags : Z) : string * printf_spec * bool :=
  let has f := negb (Z.land flags f =? 0) in
  if has IORESOURCE_IO then ("io  "%string, io_spec, true)
  else if has IORESOURCE_MEM then ("mem "%string, mem_spec, true)
  else if has IORESOURCE_IRQ then ("irq "%string, dec_spec, true)
  else if has IORESOURCE_DMA then ("dma "%string, dec_spec, true)
  else if has IORESOURCE_BUS then ("bus "%string, bus_spec, true)
  else ("??? "%string, mem_spec, false).

(** A string constant, which has an address. *)
Definition constant (s : string) : Z * list Z := (4096, cstr s).

(** [max(2 * 20 + 35, 2 * 20 + 16 + 17)] bytes. *)
Definition SYM_SIZE : Z := 75.

Definition resource_text (res : resource) (fmt : list Z) : option (list Z) :=
  f0 ← byte_at fmt 0;
  let has f := negb (Z.land (rs_flags res) f =? 0) in
  let '(name, spec, known) := resource_kind (rs_flags res) in
  let decode := (f0 =? ch "R") && known in
  p ← put_raw (ch "[") {| ob_buf := replicate (Z.to_nat SYM_SIZE) 0; ob_str := 0; ob_end := SYM_SIZE |};
  p ← string_out (constant name) str_spec p;
  p ← number (rs_start res) spec p;
  p ← (if negb (rs_start res =? rs_end res) then p ← put_raw (ch "-") p; number (rs_end res) spec p else Some p);
  p ← (if decode then
         p ← (if has IORESOURCE_MEM_64 then string_out (constant " 64bit") str_spec p else Some p);
         p ← (if has IORESOURCE_PREFETCH then string_out (constant " pref") str_spec p else Some p);
         p ← (if has IORESOURCE_WINDOW then string_out (constant " window") str_spec p else Some p);
         if has IORESOURCE_DISABLED then string_out (constant " disabled") str_spec p else Some p
       else
         p ← string_out (constant " flags ") str_spec p;
         number (rs_flags res) flag_spec p);
  p ← put_raw (ch "]") p;
  b ← wr (ob_buf p) (ob_str p) 0;
  Some b.

Section pointers.
Context `{Sink Out} (env : fmt_env).

(** A local array as the string to print. *)
Definition local_string (s : list Z) : printf_spec → Out → option Out := string_out (4096, s).

Definition resource_string (obj fmt : list Z) (spec : printf_spec) (o : Out) : option Out :=
  res ← load_resource obj; sym ← resource_text res fmt; local_string sym spec o.
Definition mac_address_string (addr fmt : list Z) (spec : printf_spec) (o : Out) : option Out :=
  s ← mac_address addr fmt; local_string s spec o.
Definition ip4_addr_string (addr fmt : list Z) (spec : printf_spec) (o : Out) : option Out :=
  s ← ip4_string [] addr fmt; s ← local_array 16 s; local_string s spec o.
(** [ip6_addr] has [sizeof("xxxx:xxxx:xxxx:xxxx:xxxx:xxxx:255.255.255.255")] bytes. *)
Definition ip6_addr_string (addr fmt : list Z) (spec : printf_spec) (o : Out) : option Out :=
  f0 ← byte_at fmt 0;
  f2 ← (if f0 =? ch "I" then byte_at fmt 2 else Some 0);
  s ← (if (f0 =? ch "I") && (f2 =? ch "c") then ip6_compressed_string addr else ip6_string addr fmt);
  s ← local_array 46 s;
  local_string s spec o.
Definition uuid_string (addr fmt : list Z) (spec : printf_spec) (o : Out) : option Out :=
  s ← uuid_text addr fmt; local_string s spec o.

Definition netdev_feature_string (addr : list Z) (spec : printf_spec) (o : Out) : option Out :=
  let spec := or_flag (SPECIAL + SMALL + ZEROPAD) spec in
  let spec := if ps_field_width spec =? -1 then set_ps_width (2 + 2 * 8) spec else spec in
  v ← read_le addr 0 8;
  number v (set_ps_base 16 spec) o.

(** With and without CONFIG_KALLSYMS. *)
Definition symbol_string (value : Z) (spec : printf_spec) (ext : Z) (o : Out) : option Out :=
  match fe_kallsyms env with
  | Some sprint => local_string (sprint ext value) spec o
  | None => number value (set_ps_base 16 (or_flag (SPECIAL + SMALL + ZEROPAD) (set_ps_width (2 * 8) spec))) o
  end.

(** [%p] without an extension. *)
Definition plain_pointer (default_width ptr : Z) (spec : printf_spec) (o : Out) : option Out :=
  let spec := or_flag SMALL spec in
  let spec := if ps_field_width spec =? -1 then or_flag ZEROPAD (set_ps_width default_width spec) else spec in
  number ptr (set_ps_base 16 spec) o.

(** [fmt] is what follows the [p]. *)
Definition pointer (fmt : list Z) (ptr : Z) (spec : printf_spec) (o : Out) : option Out :=
  let default_width := 2 * 8 + (if flag SPECIAL spec then 2 else 0) in
  f0 ← byte_at fmt 0;
  if (ptr =? 0) && negb (f0 =? ch "K") then
    string_out (constant "(null)") (if ps_field_width spec =? -1 then set_ps_width default_width spec else spec) o
  else
  let has c := f0 =? ch c in
  let plain := plain_pointer default_width in
  if has "F"%char || has "f"%char || has "S"%char || has "s"%char || has "B"%char then symbol_string ptr spec f0 o
  else if has "R"%char || has "r"%char then obj ← fe_mem env ptr; resource_string obj fmt spec o
  else if has "M"%char || has "m"%char then obj ← fe_mem env ptr; mac_address_string obj fmt spec o
  else if has "I"%char || has "i"%char then
    f1 ← byte_at fmt 1;
    if f1 =? ch "6" then obj ← fe_mem env ptr; ip6_addr_string obj fmt spec o
    else if f1 =? ch "4" then obj ← fe_mem env ptr; ip4_addr_string obj fmt spec o
    else plain ptr spec o
  else if has "U"%char then obj ← fe_mem env ptr; uuid_string obj fmt spec o
  else if has "V"%char then put_call (fe_vaf env ptr) o
  else if has "K"%char then
    if fe_in_interrupt env then
      string_out (constant "pK-error") (if ps_field_width spec =? -1 then set_ps_width default_width spec else spec) o
    else
      let hidden := negb ((fe_kptr_restrict env =? 0) || ((fe_kptr_restrict env =? 1) && fe_cap_syslog env)) in
      plain (if hidden then 0 else ptr) spec o
  else if has "N"%char then
    f1 ← byte_at fmt 1;
    if f1 =? ch "F" then obj ← fe_mem env ptr; netdev_feature_string obj spec o else plain ptr spec o
  else plain ptr spec o.
End pointers.

(** ** Decoding a format *)

(** A pointer into the format is the rest of the string, with its terminator. *)
Definition cur (fmt : list Z) : option Z := byte_at fmt 0.

Fixpoint skip_atoi_from (i : Z) (s : list Z) : option (Z * list Z) :=
  match s with
  | [] => None
  | c :: s' => if isdigit c then skip_atoi_from (swrap 32 (i * 10 + c - ch "0")) s' else Some (i, s)
  end.
Definition skip_atoi (s : list Z) : option (Z * list Z) := skip_atoi_from 0 s.

(** The next [%] or the end. *)
Fixpoint to_percent (fmt : list Z) : option (list Z) :=
  match fmt with
  | [] => None
  | c :: fmt' => if (c =? 0) || (c =? ch "%") then Some fmt else to_percent fmt'
  end.

Definition flag_of (c : Z) : option Z :=
  if c =? ch "-" then Some LEFT else if c =? ch "+" then Some PLUS else if c =? ch " " then Some SPACE
  else if c =? ch "#" then Some SPECIAL else if c =? ch "0" then Some ZEROPAD else None.

Fixpoint decode_flags (flags : Z) (fmt : list Z) : option (Z * list Z) :=
  match fmt with
  | [] => None
  | c :: fmt' => match flag_of c with Some f => decode_flags (Z.lor flags f) fmt' | None => Some (flags, fmt) end
  end.

(** The type of an integer conversion. *)
Definition number_type (spec : printf_spec) : format_type :=
  let q := ps_qualifier spec in
  let sign := flag SIGN spec in
  if q =? ch "L" then FORMAT_TYPE_LONG_LONG
  else if q =? ch "l" then if sign then FORMAT_TYPE_LONG else FORMAT_TYPE_ULONG
  else if _tolower q =? ch "z" then FORMAT_TYPE_SIZE_T
  else if q =? ch "t" then FORMAT_TYPE_PTRDIFF
  else if q =? ch "H" then if sign then FORMAT_TYPE_BYTE else FORMAT_TYPE_UBYTE
  else if q =? ch "h" then if sign then FORMAT_TYPE_SHORT else FORMAT_TYPE_USHORT
  else if sign then FORMAT_TYPE_INT else FORMAT_TYPE_UINT.

Definition decode_conversion (fmt : list Z) (spec : printf_spec) : option (list Z * printf_spec) :=
  let spec := set_ps_base 10 spec in
  c ← cur fmt;
  let next := drop 1 fmt in
  let integer spec := Some (next, set_ps_type (number_type spec) spec) in
  if c =? ch "c" then Some (next, set_ps_type FORMAT_TYPE_CHAR spec)
  else if c =? ch "s" then Some (next, set_ps_type FORMAT_TYPE_STR spec)
  else if c =? ch "p" then Some (fmt, set_ps_type FORMAT_TYPE_PTR spec)
  else if c =? ch "n" then Some (next, set_ps_type FORMAT_TYPE_NRCHARS spec)
  else if c =? ch "%" then Some (next, set_ps_type FORMAT_TYPE_PERCENT_CHAR spec)
  else if c =? ch "o" then integer (set_ps_base 8 spec)
  else if c =? ch "x" then integer (set_ps_base 16 (or_flag SMALL spec))
  else if c =? ch "X" then integer (set_ps_base 16 spec)
  else if (c =? ch "d") || (c =? ch "i") then integer (or_flag SIGN spec)
  else if c =? ch "u" then integer spec
  else Some (fmt, set_ps_type FORMAT_TYPE_INVALID spec).

(** [qualifier:]; the [u8] that is not a qualifier is 255. *)
Definition decode_qualifier (fmt : list Z) (spec : printf_spec) : option (list Z * printf_spec) :=
  c ← cur fmt;
  if (c =? ch "h") || (_tolower c =? ch "l") || (_tolower c =? ch "z") || (c =? ch "t") then
    let fmt := drop 1 fmt in
    c' ← cur fmt;
    if c =? c' then
      if c =? ch "l" then decode_conversion (drop 1 fmt) (set_ps_qualifier (ch "L") spec)
      else if c =? ch "h" then decode_conversion (drop 1 fmt) (set_ps_qualifier (ch "H") spec)
      else decode_conversion fmt (set_ps_qualifier c spec)
    else decode_conversion fmt (set_ps_qualifier c spec)
  else decode_conversion fmt (set_ps_qualifier 255 spec).

(** [precision:]. *)
Definition decode_precision (fmt : list Z) (spec : printf_spec) : option (list Z * printf_spec) :=
  let spec := set_ps_precision (-1) spec in
  c ← cur fmt;
  if c =? ch "." then
    let fmt := drop 1 fmt in
    c ← cur fmt;
    if isdigit c then
      '(p, fmt) ← skip_atoi fmt;
      let spec := set_ps_precision p spec in
      decode_qualifier fmt (if ps_precision spec <? 0 then set_ps_precision 0 spec else spec)
    else if c =? ch "*" then Some (drop 1 fmt, set_ps_type FORMAT_TYPE_PRECISION spec)
    else decode_qualifier fmt spec
  else decode_qualifier fmt spec.

(** After the flags. *)
Definition decode_width (fmt : list Z) (spec : printf_spec) : option (list Z * printf_spec) :=
  let spec := set_ps_width (-1) spec in
  c ← cur fmt;
  if isdigit c then '(w, fmt) ← skip_atoi fmt; decode_precision fmt (set_ps_width w spec)
  else if c =? ch "*" then Some (drop 1 fmt, set_ps_type FORMAT_TYPE_WIDTH spec)
  else decode_precision fmt spec.

(** A new token: the text up to the next [%], or a conversion. *)
Definition decode_token (fmt : list Z) (spec : printf_spec) : option (list Z * printf_spec) :=
  let spec := set_ps_type FORMAT_TYPE_NONE spec in
  fmt' ← to_percent fmt;
  c ← cur fmt';
  if negb (length fmt' =? length fmt)%nat || (c =? 0) then Some (fmt', spec) else
  '(flags, fmt) ← decode_flags 0 (drop 1 fmt');
  decode_width fmt (set_ps_flags flags spec).

(** What follows the token, and its specification. *)
Definition format_decode (fmt : list Z) (spec : printf_spec) : option (list Z * printf_spec) :=
  match ps_type spec with
  | FORMAT_TYPE_WIDTH =>
      let spec := if ps_field_width spec <? 0 then or_flag LEFT (set_ps_width (- ps_field_width spec) spec) else spec in
      decode_precision fmt (set_ps_type FORMAT_TYPE_NONE spec)
  | FORMAT_TYPE_PRECISION =>
      let spec := if ps_precision spec <? 0 then set_ps_precision 0 spec else spec in
      decode_qualifier fmt (set_ps_type FORMAT_TYPE_NONE spec)
  | _ => decode_token fmt spec
  end.

(** ** Arguments *)

Class Args (A : Type) := {
  next_int : A → option (Z * A);
  next_char : A → option (Z * A);
  next_str : fmt_env → A → option ((Z * list Z) * A);
  next_ptr : A → option (Z * A);
  (** The number to print, as an [unsigned long long]. *)
  next_num : format_type → A → option (Z * A);
  (** [%n] with its qualifier and the number of characters. *)
  count_out : Z → Z → A → option A
}.

(** An [int], or an argument of 64 bits: a [long], a [size_t] or a pointer. *)
Inductive varg := VInt (z : Z) | VLong (z : Z).

(** The arguments that are left, and what was stored through the arguments of [%n]: address, size, value. *)
Record va_list := { va_args : list varg; va_stores : list (Z * Z * Z) }.

Definition va_int (a : va_list) : option (Z * va_list) :=
  match va_args a with VInt z :: l => Some (z, {| va_args := l; va_stores := va_stores a |}) | _ => None end.
Definition va_long (a : va_list) : option (Z * va_list) :=
  match va_args a with VLong z :: l => Some (z, {| va_args := l; va_stores := va_stores a |}) | _ => None end.

(** The conversions of the last [switch]. *)
Definition va_num (t : format_type) (a : va_list) : option (Z * va_list) :=
  match t with
  | FORMAT_TYPE_LONG_LONG | FORMAT_TYPE_ULONG | FORMAT_TYPE_LONG | FORMAT_TYPE_SIZE_T | FORMAT_TYPE_PTRDIFF => va_long a
  | FORMAT_TYPE_UBYTE => '(z, a) ← va_int a; Some (wrap 8 z, a)
  | FORMAT_TYPE_BYTE => '(z, a) ← va_int a; Some (wrap 64 (swrap 8 z), a)
  | FORMAT_TYPE_USHORT => '(z, a) ← va_int a; Some (wrap 16 z, a)
  | FORMAT_TYPE_SHORT => '(z, a) ← va_int a; Some (wrap 64 (swrap 16 z), a)
  | FORMAT_TYPE_INT => '(z, a) ← va_int a; Some (wrap 64 z, a)
  | _ => '(z, a) ← va_int a; Some (wrap 32 z, a)
  end.

#[export] Instance va_list_args : Args va_list := {
  next_int := va_int;
  next_char a := '(z, a) ← va_int a; Some (wrap 8 z, a);
  next_str env a := '(p, a) ← va_long a; obj ← (if p <? 4096 then Some [] else fe_mem env p); Some ((p, obj), a);
  next_ptr := va_long;
  next_num := va_num;
  count_out q n a :=
    '(p, a) ← va_long a;
    let size := if (q =? ch "l") || (_tolower q =? ch "z") then 8 else 4 in
    Some {| va_args := va_args a; va_stores := va_stores a ++ [(p, size, wrap (8 * size) n)] |}
}.

(** A binary buffer and the offset of the next argument; the buffer is aligned. *)
Record bin_args := { ba_buf : list Z; ba_pos : Z }.

Definition PTR_ALIGN (p a : Z) : Z := Z.land (p + (a - 1)) (Z.lnot (a - 1)).
(** Arguments of 8 bytes are aligned to 4. *)
Definition arg_align (n : Z) : Z := if n =? 8 then 4 else n.

Definition get_arg (n : Z) (a : bin_args) : option (Z * bin_args) :=
  let p := PTR_ALIGN (ba_pos a) (arg_align n) in
  v ← read_le (ba_buf a) p n;
  Some (v, {| ba_buf := ba_buf a; ba_pos := p + n |}).

Definition bin_num (t : format_type) (a : bin_args) : option (Z * bin_args) :=
  match t with
  | FORMAT_TYPE_LONG_LONG | FORMAT_TYPE_ULONG | FORMAT_TYPE_LONG | FORMAT_TYPE_SIZE_T | FORMAT_TYPE_PTRDIFF => get_arg 8 a
  | FORMAT_TYPE_UBYTE => get_arg 1 a
  | FORMAT_TYPE_BYTE => '(z, a) ← get_arg 1 a; Some (wrap 64 (swrap 8 z), a)
  | FORMAT_TYPE_USHORT => get_arg 2 a
  | FORMAT_TYPE_SHORT => '(z, a) ← get_arg 2 a; Some (wrap 64 (swrap 16 z), a)
  | FORMAT_TYPE_UINT => get_arg 4 a
  | _ => '(z, a) ← get_arg 4 a; Some (wrap 64 (swrap 32 z), a)
  end.

#[export] Instance bin_args_args : Args bin_args := {
  next_int a := '(z, a) ← get_arg 4 a; Some (swrap 32 z, a);
  next_char := get_arg 1;
  next_str _ a :=
    let obj := drop (Z.to_nat (ba_pos a)) (ba_buf a) in
    len ← strlen obj;
    Some ((4096, obj), {| ba_buf := ba_buf a; ba_pos := ba_pos a + (len + 1) |});
  next_ptr := get_arg 8;
  next_num := bin_num;
  count_out _ _ a := Some a
}.

(** ** The interpreter *)

(** [while (isalnum( *fmt)) fmt++]. *)
Fixpoint skip_alnum (fmt : list Z) : option (list Z) :=
  match fmt with [] => None | c :: fmt' => if isalnum c then skip_alnum fmt' else Some fmt end.

Section interpreter.
Context `{Sink Out} `{Args A} (env : fmt_env).
Notation state := (list Z * printf_spec * A * Out)%type.

(** [while (--spec.field_width > 0) ...]. *)
Definition pad_char (fw : Z) (o : Out) : option (Z * Out) :=
  loop s16_rounds
    (λ '(fw, o),
       let fw := swrap 16 (fw - 1) in
       if negb (0 <? fw) then Some (Stop (fw, o)) else o ← put (ch " ") o; Some (Next (fw, o))) (fw, o).

Definition char_out (args : A) (spec : printf_spec) (o : Out) : option (A * printf_spec * Out) :=
  '(fw, o) ← (if negb (flag LEFT spec) then pad_char (ps_field_width spec) o else Some (ps_field_width spec, o));
  '(c, args) ← next_char args;
  o ← put c o;
  '(fw, o) ← pad_char fw o;
  Some (args, set_ps_width fw spec, o).

Definition printf_step '((fmt, spec, args, o) : state) : option (ctl state (A * Out)) :=
  c ← cur fmt;
  if c =? 0 then Some (Stop (args, o)) else
  '(fmt', spec) ← format_decode fmt spec;
  match ps_type spec with
  | FORMAT_TYPE_NONE => o ← put_text (take (length fmt - length fmt')%nat fmt) o; Some (Next (fmt', spec, args, o))
  | FORMAT_TYPE_WIDTH => '(w, args) ← next_int args; Some (Next (fmt', set_ps_width w spec, args, o))
  | FORMAT_TYPE_PRECISION => '(p, args) ← next_int args; Some (Next (fmt', set_ps_precision p spec, args, o))
  | FORMAT_TYPE_CHAR => '(args, spec, o) ← char_out args spec o; Some (Next (fmt', spec, args, o))
  | FORMAT_TYPE_STR => '(s, args) ← next_str env args; o ← string_out s spec o; Some (Next (fmt', spec, args, o))
  | FORMAT_TYPE_PTR =>
      '(p, args) ← next_ptr args;
      o ← pointer env (drop 1 fmt') p spec o;
      fmt' ← skip_alnum fmt';
      Some (Next (fmt', spec, args, o))
  | FORMAT_TYPE_PERCENT_CHAR | FORMAT_TYPE_INVALID => o ← put (ch "%") o; Some (Next (fmt', spec, args, o))
  | FORMAT_TYPE_NRCHARS => args ← count_out (ps_qualifier spec) (position o) args; Some (Next (fmt', spec, args, o))
  | t => '(num, args) ← next_num t args; o ← number num spec o; Some (Next (fmt', spec, args, o))
  end.

(** A token that reads nothing follows one that reads a width or a precision. *)
Definition format (fmt : list Z) (args : A) (o : Out) : option (A * Out) :=
  loop (2 * length fmt + 2)%nat printf_step (fmt, zero_spec, args, o).
End interpreter.

(** The buffer is at [addr]; the end must not wrap around. *)
Definition buffer_end (addr size : Z) : Z := if 2 ^ 64 <=? addr + size then 2 ^ 64 - 1 - addr else size.

(** [if (size > 0) ...], and the length. *)
Definition terminate (o : outbuf) : option (list Z * Z) :=
  b ← (if 0 <? ob_end o then wr (ob_buf o) (if ob_str o <? ob_end o then ob_str o else ob_end o - 1) 0 else Some (ob_buf o));
  Some (b, swrap 32 (ob_str o)).

(** The arguments that are left, the buffer and the result. *)
Definition vsnprintf (env : fmt_env) (addr : Z) (buf : list Z) (size : Z) (fmt : list Z) (args : va_list) : option (va_list * list Z * Z) :=
  if swrap 32 size <? 0 then Some (args, buf, 0) else
  '(args, o) ← format env fmt args {| ob_buf := buf; ob_str := 0; ob_end := buffer_end addr size |};
  '(b, n) ← terminate o;
  Some (args, b, n).

Definition vscnprintf (env : fmt_env) (addr : Z) (buf : list Z) (size : Z) (fmt : list Z) (args : va_list) : option (va_list * list Z * Z) :=
  '(args, b, i) ← vsnprintf env addr buf size fmt args;
  Some (args, b, if wrap 64 i <? size then i else if negb (size =? 0) then swrap 32 (size - 1) else 0).

Definition snprintf (env : fmt_env) (addr : Z) (buf : list Z) (size : Z) (fmt : list Z) (args : list varg) : option (va_list * list Z * Z) :=
  vsnprintf env addr buf size fmt {| va_args := args; va_stores := [] |}.
Definition scnprintf (env : fmt_env) (addr : Z) (buf : list Z) (size : Z) (fmt : list Z) (args : list varg) : option (va_list * list Z * Z) :=
  vscnprintf env addr buf size fmt {| va_args := args; va_stores := [] |}.
(** The recursion of [%pV]: [objs] holds the [struct va_format]s, a format and its arguments at an address.  Each level of nesting takes a frame of the stack, of which
    there are [depth]; one that is nested deeper faults.  The end of what is left of a buffer does not wrap around (the first call has seen to that), so that the
    address does not matter.  The call works on a copy of the arguments; what a nested [%n] stores is not recorded. *)
Fixpoint nest (objs : Z → option (list Z * list varg)) (depth : nat) (env : fmt_env) : fmt_env :=
  match depth with
  | O => set_fe_vaf (λ _ _ _, None) env
  | S depth =>
      set_fe_vaf (λ ptr buf size,
        '(fmt, args) ← objs ptr;
        '(_, b, n) ← snprintf (nest objs depth env) 0 buf size fmt args;
        Some (b, n)) env
  end.

(** [INT_MAX] stands for a buffer of unknown size. *)
Definition vsprintf (env : fmt_env) (addr : Z) (buf : list Z) (fmt : list Z) (args : va_list) : option (va_list * list Z * Z) :=
  vsnprintf env addr buf (2 ^ 31 - 1) fmt args.
Definition sprintf (env : fmt_env) (addr : Z) (buf : list Z) (fmt : list Z) (args : list varg) : option (va_list * list Z * Z) :=
  vsnprintf env addr buf (2 ^ 31 - 1) fmt {| va_args := args; va_stores := [] |}.

Definition bstr_printf (env : fmt_env) (addr : Z) (buf : list Z) (size : Z) (fmt bin_buf : list Z) : option (list Z * Z) :=
  if swrap 32 size <? 0 then Some (buf, 0) else
  '(_, o) ← format env fmt {| ba_buf := bin_buf; ba_pos := 0 |} {| ob_buf := buf; ob_str := 0; ob_end := buffer_end addr size |};
  terminate o.

(** ** Arguments as binary data *)

(** [save_arg(type)] for a type of [n] bytes; [end] is the size of the buffer in bytes. *)
Definition save_arg (n end_ value : Z) (bin : list Z) (str : Z) : option (list Z * Z) :=
  let str := PTR_ALIGN str (arg_align n) in
  bin ← (if str + n <=? end_ then wr_range bin str (le_bytes (Z.to_nat n) value) else Some bin);
  Some (bin, str + n).

(** The size of the argument of an integer conversion. *)
Definition num_size (t : format_type) : Z :=
  match t with
  | FORMAT_TYPE_LONG_LONG | FORMAT_TYPE_ULONG | FORMAT_TYPE_LONG | FORMAT_TYPE_SIZE_T | FORMAT_TYPE_PTRDIFF => 8
  | FORMAT_TYPE_UBYTE | FORMAT_TYPE_BYTE => 1
  | FORMAT_TYPE_USHORT | FORMAT_TYPE_SHORT => 2
  | _ => 4
  end.

(** [va_arg(args, unsigned long long)] or [va_arg(args, int)], then [save_arg]. *)
Definition save_next (n end_ : Z) (args : va_list) (bin : list Z) (str : Z) : option (va_list * list Z * Z) :=
  '(v, args) ← (if n =? 8 then va_long args else va_int args);
  '(bin, str) ← save_arg n end_ v bin str;
  Some (args, bin, str).

(** A string is copied with its terminator, unless it would reach the end. *)
Definition save_str (env : fmt_env) (end_ : Z) (args : va_list) (bin : list Z) (str : Z) : option (va_list * list Z * Z) :=
  '(p, args) ← va_long args;
  obj ← (if (2 ^ 64 - 4096 <? p) || (p <? 4096) then Some (cstr "(null)") else fe_mem env p);
  n ← strlen obj;
  let len := n + 1 in
  bin ← (if str + len <? end_ then wr_range bin str (take (Z.to_nat len) obj) else Some bin);
  Some (args, bin, str + len).

Notation bin_state := (list Z * printf_spec * va_list * list Z * Z)%type.
Definition vbin_step (env : fmt_env) (end_ : Z) '((fmt, spec, args, bin, str) : bin_state) : option (ctl bin_state (va_list * list Z * Z)) :=
  c ← cur fmt;
  if c =? 0 then Some (Stop (args, bin, str)) else
  '(fmt, spec) ← format_decode fmt spec;
  match ps_type spec with
  | FORMAT_TYPE_NONE | FORMAT_TYPE_INVALID | FORMAT_TYPE_PERCENT_CHAR => Some (Next (fmt, spec, args, bin, str))
  | FORMAT_TYPE_WIDTH | FORMAT_TYPE_PRECISION => '(args, bin, str) ← save_next 4 end_ args bin str; Some (Next (fmt, spec, args, bin, str))
  | FORMAT_TYPE_CHAR => '(args, bin, str) ← save_next 1 end_ args bin str; Some (Next (fmt, spec, args, bin, str))
  | FORMAT_TYPE_STR => '(args, bin, str) ← save_str env end_ args bin str; Some (Next (fmt, spec, args, bin, str))
  | FORMAT_TYPE_PTR =>
      '(args, bin, str) ← save_next 8 end_ args bin str;
      fmt ← skip_alnum fmt;
      Some (Next (fmt, spec, args, bin, str))
  | FORMAT_TYPE_NRCHARS => '(_, args) ← va_long args; Some (Next (fmt, spec, args, bin, str))
  | t => '(args, bin, str) ← save_next (num_size t) end_ args bin str; Some (Next (fmt, spec, args, bin, str))
  end.

(** The arguments that are left, the buffer, and the number of bytes that are needed; [size] is a number of words. *)
Definition vbin_save (env : fmt_env) (bin : list Z) (size : Z) (fmt : list Z) (args : va_list) : option (va_list * list Z * Z) :=
  loop (2 * length fmt + 2)%nat (vbin_step env (4 * size)) (fmt, zero_spec, args, bin, 0).

(** The result is the number of words that are needed. *)
Definition vbin_printf (env : fmt_env) (bin : list Z) (size : Z) (fmt : list Z) (args : va_list) : option (va_list * list Z * Z) :=
  '(args, bin, str) ← vbin_save env bin size fmt args;
  Some (args, bin, swrap 32 (PTR_ALIGN str 4 / 4)).

Definition bprintf (env : fmt_env) (bin : list Z) (size : Z) (fmt : list Z) (args : list varg) : option (va_list * list Z * Z) :=
  vbin_printf env bin size fmt {| va_args := args; va_stores := [] |}.

(** ** Examples *)

Definition plain_env : fmt_env :=
  {| fe_mem := λ p, if p =? 0x10000 then Some (cstr "abc") else if p =? 0x20000 then Some [192; 168; 0; 17] 
                    else if p =? 0x30000 then Some [0x20; 1; 0xd; 0xb8; 0; 0; 0; 0; 0; 0; 0; 0; 0; 0; 0; 1] else None;
     fe_kallsyms := None; fe_in_interrupt := false; fe_kptr_restrict := 0; fe_cap_syslog := false; fe_vaf := λ _ _ _, None |}.
Definition output (r : option (va_list * list Z * Z)) : option (list Z * Z) := '(_, b, n) ← r; Some (b, n).

Example printf_demo :
  output (snprintf plain_env 0 (replicate 40 7) 40 (cstr "%s=%-5d|%#06x|%*u%%") [VLong 0x10000; VInt (-42); VInt 255; VInt 4; VInt 7]) =
  Some (cstr "abc=-42  |0x00ff|   7%" ++ replicate 17 7, 22).
Proof. vm_compute. reflexivity. Qed.

Example printf_pointers :
  output (snprintf plain_env 0 (replicate 40 7) 40 (cstr "%pI4 %pI6c %p") [VLong 0x20000; VLong 0x30000; VLong 0]) =
  Some (cstr "192.168.0.17 2001:db8::1           (nul", 41).
Proof. vm_compute. reflexivity. Qed.

(** A format in a format, in a format; the last buffer is too short, and the call of [%pV] ends what it writes, too. *)
Definition nested_formats (p : Z) : option (list Z * list varg) :=
  if p =? 0x40000 then Some (cstr "%s-%d", [VLong 0x10000; VInt 7]) else if p =? 0x50000 then Some (cstr "[%pV]", [VLong 0x40000]) else None.
Example printf_nested :
  let print env size := output (snprintf env 0 (replicate 12 7) size (cstr "<%pV>") [VLong 0x50000]) in
  print (nest nested_formats 2 plain_env) 12 = Some (cstr "<[abc-7]>" ++ [7; 7], 9) ∧
  print (nest nested_formats 2 plain_env) 6 = Some (cstr "<[abc" ++ replicate 6 7, 9) ∧
  print (nest nested_formats 1 plain_env) 12 = None.
Proof. by vm_compute. Qed.

(** The text of a format. *)
Definition text_of (env : fmt_env) (fmt : list Z) (args : list varg) : option (list Z) :=
  '(_, t) ← format env fmt {| va_args := args; va_stores := [] |} []; Some t.

(** With a precision close to the limit of the [s16] the width that is left wraps around, and spaces are printed. *)
Example precision_wraps_width : output (snprintf plain_env 0 [] 0 (cstr "%.32765d") [VInt 1]) = Some ([], 65533).
Proof. vm_compute. reflexivity. Qed.

(** A string that fits exactly is not stored, but the result says that the buffer is large enough. *)
Example exact_fit_is_lost : output (bprintf plain_env [7; 7; 7; 7] 1 (cstr "%s") [VLong 0x10000]) = Some ([7; 7; 7; 7], 1).
Proof. vm_compute. reflexivity. Qed.
