(* ===== verification/VsprintfText.v ===== *)
(** * Formatted output: buffers and text

    Every function of the formatter does the same for all sinks: a relation between two sinks that characters preserve is preserved by
    the whole interpreter ([format_related]).  A buffer is related to the text of which it holds the beginning, so that what vsnprintf writes is the
    beginning of a text that depends on the format and the arguments only ([render]).  The recursive call of [%pV] is one more such function ([renders]): what is
    proved of vsnprintf at one depth of nesting is what the next one relies on ([nest_ok]). *)
From Stdlib Require Import String.
From S2P Require Import Prelude Ctype NumPrint StringLib Vsprintf.
#[local] Open Scope Z_scope.

(** ** Related results *)

Definition orel {A B} (R : A → B → Prop) (x : option A) (y : option B) : Prop :=
  match x, y with Some a, Some b => R a b | None, None => True | _, _ => False end.

Definition ctl_rel {S1 S2 R1 R2} (RS : S1 → S2 → Prop) (RR : R1 → R2 → Prop) (x : ctl S1 R1) (y : ctl S2 R2) : Prop :=
  match x, y with Next a, Next b => RS a b | Stop a, Stop b => RR a b | _, _ => False end.

Lemma orel_bind {A B A' B'} (R : A → B → Prop) (R' : A' → B' → Prop) x y (f : A → option A') (g : B → option B') :
  orel R x y → (∀ a b, R a b → orel R' (f a) (g b)) → orel R' (x ≫= f) (y ≫= g).
Proof. destruct x, y; cbn; try done. intros ? H. by apply H. Qed.

(** A step both sides take alike. *)
Lemma orel_same {A A' B'} (R' : A' → B' → Prop) (x : option A) (f : A → option A') (g : A → option B') :
  (∀ a, x = Some a → orel R' (f a) (g a)) → orel R' (x ≫= f) (x ≫= g).
Proof. destruct x; cbn; [|done]. intros H. by apply H. Qed.

Lemma orel_loop {S1 S2 R1 R2} (RS : S1 → S2 → Prop) (RR : R1 → R2 → Prop) fuel b1 b2 s1 s2 :
  RS s1 s2 → (∀ a b, RS a b → orel (ctl_rel RS RR) (b1 a) (b2 b)) → orel RR (loop fuel b1 s1) (loop fuel b2 s2).
Proof.
  intros Hs Hb. revert s1 s2 Hs. induction fuel as [|fuel IH]; intros s1 s2 Hs; cbn; [done|]. specialize (Hb s1 s2 Hs).
  destruct (b1 s1) as [[a|r]|], (b2 s2) as [[b|r']|]; cbn in *; try done. by apply IH.
Qed.

(** What vsnprintf leaves in a buffer and returns for the text [t]: its beginning with a terminator, the length. *)
Definition render (t buf : list Z) (size : Z) : list Z * Z :=
  let k := Nat.min (length t) (Z.to_nat size - 1) in
  (if size =? 0 then buf else take k t ++ 0 :: drop (S k) buf, swrap 32 (Z.of_nat (length t))).

(** A function that does so with one text for all buffers, or faults with all of them. *)
Definition renders (call : list Z → Z → option (list Z * Z)) : Prop :=
  (∃ t, Z.of_nat (length t) < 2 ^ 31 - 1 ∧ ∀ buf size, 0 ≤ size ≤ Z.of_nat (length buf) → size < 2 ^ 31 → call buf size = Some (render t buf size)) ∨
  (∀ buf size, 0 ≤ size ≤ Z.of_nat (length buf) → size < 2 ^ 31 → call buf size = None).

(** What the interpreter expects of the calls of [%pV]. *)
Class NestedOk (env : fmt_env) := nested_ok ptr : renders (fe_vaf env ptr).

(** A relation between two sinks that output preserves. *)
Class SinkRel {O1 O2} `{Sink O1} `{Sink O2} (R : O1 → O2 → Prop) := {
  rel_put c o1 o2 : R o1 o2 → orel R (put c o1) (put c o2);
  rel_text s o1 o2 : R o1 o2 → orel R (put_text s o1) (put_text s o2);
  rel_call call o1 o2 : renders call → R o1 o2 → orel R (put_call call o1) (put_call call o2);
  rel_position o1 o2 : R o1 o2 → position o1 = position o2
}.

(** The second component of a pair. *)
Definition rel_snd {A O1 O2} (R : O1 → O2 → Prop) (x : A * O1) (y : A * O2) : Prop := x.1 = y.1 ∧ R x.2 y.2.

Section related.
Context {O1 O2} `{Sink O1} `{Sink O2} (R : O1 → O2 → Prop) `{HR : !SinkRel R}.

#[local] Hint Resolve rel_put rel_text : core.

Lemma pad_loop_related (go : Z → bool) c fw o1 o2 : R o1 o2 →
  orel (rel_snd R)
    (loop s16_rounds (λ '(fw, o), let fw := swrap 16 (fw - 1) in if go fw then Some (Stop (fw, o)) else o ← put c o; Some (Next (fw, o))) (fw, o1))
    (loop s16_rounds (λ '(fw, o), let fw := swrap 16 (fw - 1) in if go fw then Some (Stop (fw, o)) else o ← put c o; Some (Next (fw, o))) (fw, o2)).
Proof using HR.
  intros Ho. apply (orel_loop (rel_snd R)); [done|]. intros [fw1 a] [fw2 b] [E Hab]. cbn in E, Hab. subst fw2. cbn zeta.
  destruct (go _); [done|]. eapply orel_bind; [by apply rel_put|]. by intros a' b' Hab'.
Qed.

Lemma pad_width_related c fw o1 o2 : R o1 o2 → orel (rel_snd R) (pad_width c fw o1) (pad_width c fw o2).
Proof using HR. apply (pad_loop_related (λ fw, fw <? 0)). Qed.

Lemma pad_char_related fw o1 o2 : R o1 o2 → orel (rel_snd R) (pad_char fw o1) (pad_char fw o2).
Proof using HR. apply (pad_loop_related (λ fw, negb (0 <? fw))). Qed.

Lemma pad_precision_related i p o1 o2 : R o1 o2 → orel R (pad_precision i p o1) (pad_precision i p o2).
Proof using HR.
  intros Ho. apply (orel_loop (rel_snd R)); [done|]. intros [p1 a] [p2 b] [E Hab]. cbn in E, Hab. subst p2. cbn zeta.
  case_if; [done|]. eapply orel_bind; [by apply rel_put|]. by intros a' b' Hab'.
Qed.

Lemma pad_string_related len fw o1 o2 : R o1 o2 → orel (rel_snd R) (pad_string len fw o1) (pad_string len fw o2).
Proof using HR.
  intros Ho. apply (orel_loop (rel_snd R)); [done|]. intros [fw1 a] [fw2 b] [E Hab]. cbn in E, Hab. subst fw2. cbn zeta.
  destruct (negb _); [done|]. eapply orel_bind; [by apply rel_put|]. by intros a' b' Hab'.
Qed.

Lemma put_all_related s o1 o2 : R o1 o2 → orel R (put_all s o1) (put_all s o2).
Proof using HR.
  revert o1 o2. induction s as [|c s IH]; intros o1 o2 Ho; cbn; [done|]. eapply orel_bind; [by apply rel_put|]. intros a b Hab. by apply IH.
Qed.

Lemma put_opt_related c o1 o2 : R o1 o2 → orel R (put_opt c o1) (put_opt c o2).
Proof using HR. destruct c; cbn; [apply rel_put|done]. Qed.

(** Steps through a function that both sides run. *)
Ltac related :=
  repeat match goal with
  | |- orel _ (Some _) (Some _) => done
  | |- orel _ None None => done
  | |- orel _ (if ?b then _ else _) (if ?b then _ else _) => destruct b
  | |- orel _ (let '(_, _) := ?x in _) (let '(_, _) := ?x in _) => destruct x
  | |- orel _ (match ?x with Some _ => _ | None => _ end) _ => destruct x
  | |- orel _ (?x ≫= _) (?x ≫= _) => apply orel_same; intros ? ?
  | |- orel _ (_ ≫= _) (_ ≫= _) => eapply orel_bind; [|intros ?a ?b ?Hab]
  | H : rel_snd R ?x ?y |- _ => destruct x as [? ?], y as [? ?], H as [?E ?Hab]; cbn in E, Hab; subst
  | |- orel (rel_snd R) (Some _) (Some _) => split; [done|assumption]
  | |- orel _ (pad_width _ _ _) (pad_width _ _ _) => by apply pad_width_related
  | |- orel _ (pad_char _ _) (pad_char _ _) => by apply pad_char_related
  | |- orel _ (pad_precision _ _ _) (pad_precision _ _ _) => by apply pad_precision_related
  | |- orel _ (pad_string _ _ _) (pad_string _ _ _) => by apply pad_string_related
  | |- orel _ (put_all _ _) (put_all _ _) => by apply put_all_related
  | |- orel _ (put_opt _ _) (put_opt _ _) => by apply put_opt_related
  | |- orel _ (put _ _) (put _ _) => by apply rel_put
  | |- orel _ (put_text _ _) (put_text _ _) => by apply rel_text
  end.

Lemma number_related num spec o1 o2 : R o1 o2 → orel R (number num spec o1) (number num spec o2).
Proof using HR. intros Ho. rw /number. cbn zeta. related. Qed.

Lemma string_related s spec o1 o2 : R o1 o2 → orel R (string_out s spec o1) (string_out s spec o2).
Proof using HR. intros Ho. rw /string_out. cbn zeta. related. Qed.

Lemma pointer_related env `{!NestedOk env} fmt ptr spec o1 o2 : R o1 o2 → orel R (pointer env fmt ptr spec o1) (pointer env fmt ptr spec o2).
Proof using HR.
  intros Ho. rw /pointer /symbol_string /resource_string /mac_address_string /ip4_addr_string /ip6_addr_string /uuid_string /netdev_feature_string /plain_pointer /local_string.
  cbn zeta. related; (by apply string_related) || (by apply number_related) || (by apply rel_call).
Qed.

Context `{Args A} (env : fmt_env) `{Hnest : !NestedOk env}.

Lemma char_related args spec o1 o2 : R o1 o2 → orel (rel_snd R) (char_out args spec o1) (char_out args spec o2).
Proof using HR. intros Ho. rw /char_out. related. Qed.

(** The interpreter states agree in everything but the sink. *)
Definition state_rel (x : list Z * printf_spec * A * O1) (y : list Z * printf_spec * A * O2) : Prop := x.1 = y.1 ∧ R x.2 y.2.

Lemma step_related x y : state_rel x y → orel (ctl_rel state_rel (rel_snd R)) (printf_step env x) (printf_step env y).
Proof using HR Hnest.
  destruct x as [[[fmt spec] args] o1], y as [[[fmt2 spec2] args2] o2]. intros [[= <- <- <-] Ho]. cbn in Ho. rw /printf_step.
  apply orel_same. intros c _. destruct (c =? 0); [done|]. apply orel_same. intros [fmt' spec'] _.
  destruct (ps_type spec');
    [ | | |eapply orel_bind; [by apply char_related|]; by intros [[a spec1] b1] [[a' spec1'] b2] [[= <- <-] Hb]|..];
    rewrite -> ?(rel_position o1 o2) by done; related; (by apply string_related) || (by apply number_related) || (by apply pointer_related).
Qed.

Lemma format_related fmt args o1 o2 : R o1 o2 → orel (rel_snd R) (format env fmt args o1) (format env fmt args o2).
Proof using HR Hnest. intros Ho. apply (orel_loop state_rel); [done|]. apply step_related. Qed.
End related.

(** ** Buffers *)

(** The buffer [b0], of which [e] bytes may be written, after the text [t]: its beginning is in the buffer, and the rest is as before.  The byte at which the terminator
    will be put may have any value: a call of [%pV] puts its own there. *)
Definition shows (b0 : list Z) (e : Z) (o : outbuf) (t : list Z) : Prop :=
  let k := Nat.min (length t) (Z.to_nat e - 1) in
  ob_end o = e ∧ ob_str o = Z.of_nat (length t) ∧ length (ob_buf o) = length b0 ∧ (e = 0 → ob_buf o = b0) ∧
  take k (ob_buf o) = take k t ∧ drop (S k) (ob_buf o) = drop (S k) b0.

Section buffer.
Context (b0 : list Z) (e : Z) (He : 0 ≤ e ≤ Z.of_nat (length b0)) (Hint : e < 2 ^ 31).

(** Behind the end of the buffer nothing is written. *)
Lemma shows_behind o t s : shows b0 e o t → e ≤ Z.of_nat (length t) →
  shows b0 e {| ob_buf := ob_buf o; ob_str := ob_str o + Z.of_nat (length s); ob_end := ob_end o |} (t ++ s).
Proof using He.
  intros (Ee & Es & El & E0 & Et & Ed) Hend. rw /shows. cbn. rewrite -> length_app, Ee, Es. rewrite -> Nat.min_r in Et, Ed |- * by lia.
  split_and!; [done|lia|done|done| |done]. by rewrite -> take_app_le by lia.
Qed.

(** Before it, the text is in the buffer, and writing goes on behind it. *)
Lemma shows_before o t : shows b0 e o t → Z.of_nat (length t) < e → take (length t) (ob_buf o) = t ∧ drop (S (length t)) (ob_buf o) = drop (S (length t)) b0.
Proof using He. intros (_ & _ & _ & _ & Et & Ed) Ht. rewrite -> Nat.min_l, (take_ge t) in Et by lia. by rewrite -> Nat.min_l in Ed by lia. Qed.

(** [w] is written for the text [s]. *)
Lemma shows_write o t w s (j := Nat.min (length s) (Z.to_nat e - 1 - length t)) : shows b0 e o t → Z.of_nat (length t) < e →
  (j ≤ length w ≤ S j)%nat → take j w = take j s →
  shows b0 e {| ob_buf := take (length t) (ob_buf o) ++ w ++ drop (length t + length w) (ob_buf o); ob_str := ob_str o + Z.of_nat (length s); ob_end := ob_end o |} (t ++ s).
Proof using He.
  intros Hs Ht Hw Hj. destruct (shows_before o t Hs Ht) as [Et Ed]. destruct Hs as (Ee & Es & El & _). rw /shows. cbn. rewrite -> Et, !length_app, length_drop, Ee, Es, El.
  replace (Nat.min (length t + length s) (Z.to_nat e - 1)) with (length t + j)%nat by (rw /j; lia). rw /j in Hw, Hj |- *.
  split_and!; [done|lia|lia|lia| |].
  - rewrite -> !take_app_add. f_equal. rewrite -> take_app_le by lia. exact Hj.
  - replace (S (length t + _)) with (length t + S j)%nat by (rw /j; lia). rewrite -> drop_app_add, drop_app_ge, drop_drop by (rw /j; lia).
    replace (length t + S j)%nat with (S (length t) + j)%nat by lia. rewrite <- (drop_drop b0), <- Ed, drop_drop. f_equal. rw /j. lia.
Qed.

Lemma shows_put c o t : shows b0 e o t → orel (shows b0 e) (put c o) (put c t).
Proof using He.
  intros Hs. pose proof Hs as (Ee & Es & El & _). cbn [put outbuf_sink text_sink]. destruct (Z.ltb_spec (ob_str o) (ob_end o)) as [Hlt|Hge].
  - rw /wr. rewrite -> Es in *. rewrite -> (proj2 (Z.leb_le 0 _)), (proj2 (Z.ltb_lt _ (Z.of_nat (length (ob_buf o))))) by lia. cbn [andb mbind option_bind orel].
    rewrite -> Nat2Z.id, insert_take_drop by lia.
    pose proof (shows_write o t [c] [c] Hs ltac:(lia) ltac:(cbn [length]; lia) eq_refl) as H. rewrite -> Es in H. cbn [length] in H. rewrite -> Nat.add_1_r in H. exact H.
  - apply (shows_behind o t [c] Hs). lia.
Qed.

Lemma shows_text s o t : shows b0 e o t → orel (shows b0 e) (put_text s o) (put_text s t).
Proof using He.
  intros Hs. pose proof Hs as (Ee & Es & El & _). cbn [put_text outbuf_sink text_sink]. destruct (Z.ltb_spec (ob_str o) (ob_end o)) as [Hlt|Hge]; [|apply (shows_behind o t s Hs); lia].
  rewrite -> Ee, Es in *. set (n := Z.to_nat (if e - Z.of_nat (length t) <? Z.of_nat (length s) then e - Z.of_nat (length t) else Z.of_nat (length s))). assert (n = Nat.min (length s) (Z.to_nat e - length t)) as Hn by (rw /n; case_if; lia).
  rw /wr_range. rewrite -> length_take, El, (proj2 (Z.leb_le 0 _)), (proj2 (Z.leb_le _ (Z.of_nat (length b0)))) by lia. cbn [andb mbind option_bind orel].
  pose proof (shows_write o t (take n s) s Hs ltac:(lia)) as H. rewrite -> length_take, Ee, Es in H. rewrite -> Nat2Z.id. apply H; [lia|]. rewrite -> take_take. f_equal. lia.
Qed.

Lemma shows_call call o t : renders call → shows b0 e o t → orel (shows b0 e) (put_call call o) (put_call call t).
Proof using He Hint.
  intros Hcall Hs. pose proof Hs as (Ee & Es & El & _). cbn [put_call outbuf_sink text_sink]. rewrite -> Ee, Es, (proj2 (Z.ltb_ge (Z.of_nat (length t)) 0)), Nat2Z.id by lia.
  set (left := if Z.of_nat (length t) <? e then e - Z.of_nat (length t) else 0). assert (0 ≤ left ≤ Z.of_nat (length (drop (length t) (ob_buf o))) ∧ left < 2 ^ 31) as [Hleft Hleft'] by (rw /left; rewrite -> length_drop; case_if; lia).
  destruct Hcall as [(s & Hl & Hcall)|Hcall]; [|by rewrite -> !Hcall by (done || cbn; lia)].
  rewrite -> (Hcall [] 0), Hcall by (done || cbn; lia). rw /render. cbn [mbind option_bind]. rewrite -> swrap_small by (cbn; lia).
  rewrite -> Hcall by (rewrite ?length_replicate; lia). rw /render. cbn [mbind option_bind orel]. rewrite -> (proj2 (Z.eqb_neq (Z.of_nat (length s) + 1) 0)) by lia.
  replace (Nat.min (length s) (Z.to_nat (Z.of_nat (length s) + 1) - 1)) with (length s) by lia. rewrite -> Nat2Z.id, (take_ge s (length s)), take_app_length by lia.
  rw /left. destruct (Z.ltb_spec (Z.of_nat (length t)) e) as [Hlt|Hge].
  - rewrite -> (proj2 (Z.eqb_neq (e - _) 0)) by lia. set (j := Nat.min (length s) _). assert (length (take j s) = j) as Hj by (rewrite -> length_take; rw /j; lia).
    pose proof (shows_write o t (take j s ++ [0]) s Hs Hlt) as H. rewrite -> length_app, Hj, Ee, Es in H. cbn [length] in H. rewrite -> Nat.add_1_r in H. rewrite <- app_assoc in H. cbn [app] in H.
    rewrite -> drop_drop. apply H; [rw /j; lia|]. rewrite -> take_app_le by (rewrite -> Hj; rw /j; lia). rewrite -> take_take. f_equal. rw /j. lia.
  - cbn. rewrite -> take_drop. pose proof (shows_behind o t s Hs Hge) as H. by rewrite -> Ee, Es in H.
Qed.

#[local] Instance shows_rel : SinkRel (shows b0 e).
Proof using He Hint. split; [apply shows_put|apply shows_text|apply shows_call|]. intros o t (_ & E & _). exact E. Qed.

Lemma format_shows `{Args A} env `{!NestedOk env} fmt (args : A) :
  orel (λ x y, x.1 = y.1 ∧ shows b0 e x.2 y.2) (format env fmt args {| ob_buf := b0; ob_str := 0; ob_end := e |}) (format env fmt args []).
Proof using He Hint. apply (format_related (shows b0 e)); [done|]. by repeat split. Qed.

(** The terminator. *)
Lemma terminate_shows o t : shows b0 e o t → terminate o = Some (render t b0 e).
Proof using He Hint.
  intros (Ee & Es & El & E0 & Et & Ed). rw /terminate /render. rewrite -> Ee, Es. destruct (Z.ltb_spec 0 e).
  - rewrite -> (proj2 (Z.eqb_neq e 0)) by lia. set (k := Nat.min (length t) (Z.to_nat e - 1)) in *.
    replace (if Z.of_nat (length t) <? e then Z.of_nat (length t) else e - 1) with (Z.of_nat k) by (rw /k; case_if; lia).
    rw /wr. rewrite -> (proj2 (Z.leb_le 0 _)), (proj2 (Z.ltb_lt _ (Z.of_nat (length (ob_buf o))))) by (rw /k; lia). cbn [andb mbind option_bind].
    rewrite -> Nat2Z.id, insert_take_drop by (rw /k; lia). by rewrite -> Et, Ed.
  - assert (e = 0) as -> by lia. cbn. by rewrite -> E0.
Qed.
End buffer.

(** ** Strings *)

Lemma strlen_split s n : strlen s = Some n → ∃ s1 r, s = s1 ++ 0 :: r ∧ Z.of_nat (length s1) = n ∧ Forall (λ c, c ≠ 0) s1.
Proof.
  revert n. induction s as [|c s IH]; intros n; cbn; [done|]. destruct (Z.eqb_spec c 0) as [->|Hc]; [intros [= <-]; by exists [], s|].
  destruct (strlen s) as [m|]; [|done]. intros [= <-]. destruct (IH m eq_refl) as (s1 & r & -> & Hl & Hn). exists (c :: s1), r. split_and!; [done|cbn; lia|by constructor].
Qed.

Lemma strlen_text s r : Forall (λ c, c ≠ 0) s → strlen (s ++ 0 :: r) = Some (Z.of_nat (length s)).
Proof. induction 1 as [|c s Hc _ IH]; [done|]. cbn [app strlen length]. rewrite -> IH. ztest. cbn. f_equal. lia. Qed.

Lemma strnlen_text s r k : Forall (λ c, c ≠ 0) s → 0 ≤ k → strnlen (s ++ 0 :: r) k = Some (Z.min k (Z.of_nat (length s))).
Proof.
  intros Hs. revert k. induction Hs as [|c s Hc _ IH]; intros k Hk; cbn [app strnlen length]; destruct (Z.eqb_spec k 0); cbn [Z.eqb]; try (f_equal; lia).
  rewrite -> IH by lia. ztest. cbn [mbind option_bind]. f_equal. lia.
Qed.

(** ** The interpreter ends *)

(** A width or a precision has been read and the token goes on. *)
Definition busy (spec : printf_spec) : bool := match ps_type spec with FORMAT_TYPE_WIDTH | FORMAT_TYPE_PRECISION => true | _ => false end.

Lemma cur_cons fmt c : cur fmt = Some c → ∃ l, fmt = c :: l.
Proof. rw /cur rd_Some. intros [_ H]. destruct fmt as [|x l]; [done|]. injection H as ->. eauto. Qed.

Lemma number_type_idle spec spec' : busy (set_ps_type (number_type spec) spec') = false.
Proof. rw /number_type. repeat case_if; done. Qed.

Lemma skip_atoi_len i s n r : skip_atoi_from i s = Some (n, r) → (length r ≤ length s)%nat.
Proof. revert i. induction s as [|c s IH]; intros i; cbn; [done|]. case_if; [intros ?%IH; lia|]. intros [= <- <-]. cbn. lia. Qed.

Lemma conversion_len fmt spec fmt' spec' : decode_conversion fmt spec = Some (fmt', spec') → (length fmt' ≤ length fmt)%nat ∧ busy spec' = false.
Proof.
  rw /decode_conversion. destruct (cur fmt) as [c|] eqn:Ec; [|done]. cbn [mbind option_bind].
  repeat case_if; intros [= <- <-]; (split; [rewrite -> ?length_drop; lia|]); (done || apply number_type_idle).
Qed.

Lemma qualifier_len fmt spec fmt' spec' : decode_qualifier fmt spec = Some (fmt', spec') → (length fmt' ≤ length fmt)%nat ∧ busy spec' = false.
Proof.
  rw /decode_qualifier. destruct (cur fmt) as [c|]; [|done]. cbn [mbind option_bind]. case_if; [|apply conversion_len].
  destruct (cur (drop 1 fmt)) as [c'|]; [|done]. cbn [mbind option_bind]. repeat case_if; intros [Hl Hb]%conversion_len; rewrite -> ?length_drop in Hl; (split; [lia|done]).
Qed.

Lemma precision_len fmt spec fmt' spec' :
  decode_precision fmt spec = Some (fmt', spec') → (length fmt' ≤ length fmt)%nat ∧ (busy spec' = true → (length fmt' < length fmt)%nat).
Proof.
  rw /decode_precision. destruct (cur fmt) as [c|] eqn:Ec; [|done]. apply cur_cons in Ec as [l ->]. cbn [mbind option_bind].
  case_if; [|intros [Hl Hb]%qualifier_len; split; [done|congruence]]. change (drop 1 (c :: l)) with l. destruct (cur l) as [c'|] eqn:Ec; [|done]. apply cur_cons in Ec as [l' ->].
  cbn [mbind option_bind]. case_if.
  - destruct (skip_atoi _) as [[n r]|] eqn:Ea; [|done]. apply skip_atoi_len in Ea. cbn [mbind option_bind]. intros [Hl Hb]%qualifier_len. cbn in *. split; [lia|congruence].
  - case_if; [intros [= <- <-]; cbn; rewrite -> ?drop_0; lia|]. intros [Hl Hb]%qualifier_len. cbn in *. split; [lia|congruence].
Qed.

Lemma width_len fmt spec fmt' spec' : decode_width fmt spec = Some (fmt', spec') → (length fmt' ≤ length fmt)%nat.
Proof.
  rw /decode_width. destruct (cur fmt) as [c|] eqn:Ec; [|done]. cbn [mbind option_bind]. case_if.
  - destruct (skip_atoi _) as [[n r]|] eqn:Ea; [|done]. apply skip_atoi_len in Ea. cbn [mbind option_bind]. intros [Hl _]%precision_len. lia.
  - case_if; [intros [= <- <-]; rewrite -> length_drop; lia|]. by intros [? _]%precision_len.
Qed.

Lemma flags_len f fmt f' fmt' : decode_flags f fmt = Some (f', fmt') → (length fmt' ≤ length fmt)%nat.
Proof. revert f. induction fmt as [|c fmt IH]; intros f; cbn; [done|]. destruct (flag_of c); [intros ?%IH; lia|]. intros [= <- <-]. cbn. lia. Qed.

Lemma to_percent_len fmt fmt' : to_percent fmt = Some fmt' → (length fmt' ≤ length fmt)%nat.
Proof. induction fmt as [|c fmt IH]; cbn; [done|]. case_if; [intros [= <-]; cbn; lia|]. intros ?%IH. lia. Qed.

(** Twice the rest of the format, one more in the middle of a token. *)
Definition format_measure (fmt : list Z) (spec : printf_spec) : nat := (2 * length fmt + if busy spec then 1 else 0)%nat.

Lemma token_len fmt spec fmt' spec' c : cur fmt = Some c → c ≠ 0 → decode_token fmt spec = Some (fmt', spec') → (length fmt' < length fmt)%nat.
Proof.
  intros Hc Hc0. rw /decode_token. destruct (to_percent fmt) as [fmt1|] eqn:Ep; [|done]. apply to_percent_len in Ep as Hlen. cbn [mbind option_bind].
  destruct (cur fmt1) as [c1|] eqn:Ec; [|done]. cbn [mbind option_bind]. destruct (length fmt1 =? length fmt)%nat eqn:El; cbn [negb orb].
  - apply Nat.eqb_eq in El. apply cur_cons in Hc as [l ->]. apply cur_cons in Ec as [l1 ->]. destruct (Z.eqb_spec c1 0) as [->|].
    + exfalso. revert Ep. cbn. case_if; [intros [= ? ?]; congruence|]. intros Ep%to_percent_len. cbn in *. lia.
    + change (drop 1 (c1 :: l1)) with l1. destruct (decode_flags 0 l1) as [[f fmt2]|] eqn:Ef; [|done]. apply flags_len in Ef. cbn [mbind option_bind]. intros ?%width_len.
      cbn in *. lia.
  - intros [= <- <-]. apply Nat.eqb_neq in El. lia.
Qed.

Lemma decode_progress fmt spec fmt' spec' c :
  cur fmt = Some c → c ≠ 0 → format_decode fmt spec = Some (fmt', spec') → (length fmt' ≤ length fmt)%nat ∧ (format_measure fmt' spec' < format_measure fmt spec)%nat.
Proof.
  intros Hc Hc0. rw /format_decode /format_measure. destruct (busy spec) eqn:Hb; rw /busy in Hb; destruct (ps_type spec) eqn:Et; try done;
    try (intros Hl%(token_len _ _ _ _ _ Hc Hc0); destruct (busy spec'); lia).
  - intros [Hl Hb']%precision_len. split; [done|]. destruct (busy spec'); [|lia]. specialize (Hb' eq_refl). lia.
  - intros [Hl ->]%qualifier_len. split; [done|]. lia.
Qed.

Lemma skip_alnum_len fmt fmt' : skip_alnum fmt = Some fmt' → (length fmt' ≤ length fmt)%nat.
Proof. induction fmt as [|c fmt IH]; cbn; [done|]. case_if; [intros ?%IH; lia|]. intros [= <-]. cbn. lia. Qed.

Section ends.
Context `{Sink Out} `{Args A} (env : fmt_env).

Lemma char_type (args : A) spec (o : Out) args' spec' o' : char_out args spec o = Some (args', spec', o') → ps_type spec' = ps_type spec.
Proof using.
  rw /char_out. intros Hs. unbind Hs. by injection Hs as <- <- <-.
Qed.

Lemma step_measure fmt spec (args : A) (o : Out) fmt' spec' args' o' :
  printf_step env (fmt, spec, args, o) = Some (Next (fmt', spec', args', o')) → (format_measure fmt' spec' < format_measure fmt spec)%nat.
Proof using.
  rw /printf_step. destruct (cur fmt) as [c|] eqn:Ec; [|done]. cbn [mbind option_bind]. destruct (Z.eqb_spec c 0); [done|].
  destruct (format_decode fmt spec) as [[fmt1 spec1]|] eqn:Ed; [|done]. cbn [mbind option_bind]. destruct (decode_progress _ _ _ _ _ Ec n Ed) as [Hl Hm].
  assert (∀ fmt2 spec2, (length fmt2 ≤ length fmt1)%nat → ps_type spec2 = ps_type spec1 → (format_measure fmt2 spec2 < format_measure fmt spec)%nat) as Hok.
  { intros fmt2 spec2 Hl2 E. rw /format_measure /busy E. rw /format_measure /busy in Hm. lia. }
  destruct (ps_type spec1) eqn:Et; intros Hs; unbind Hs; injection Hs as <- <- <- <-; apply Hok; rewrite ?Et; try done; [|by apply skip_alnum_len].
  by rewrite -> (char_type _ _ _ _ _ _ Heqo0).
Qed.

Lemma format_runs fmt (args : A) (o : Out) : runs (printf_step env) (fmt, zero_spec, args, o) (format env fmt args o).
Proof using.
  apply (loop_runs (λ '(fmt, spec, _, _), format_measure fmt spec)); [|rw /format_measure; cbn; lia].
  intros [[[fmt1 spec1] args1] o1] [[[fmt2 spec2] args2] o2]. apply step_measure.
Qed.
End ends.

(** ** The buffer functions *)

(** What a format and its arguments produce does not depend on the buffer. *)
Lemma vsnprintf_render env `{!NestedOk env} addr buf size fmt args :
  0 ≤ size ≤ Z.of_nat (length buf) → size < 2 ^ 31 → addr + size < 2 ^ 64 →
  orel (λ '(rest, buf', n) t, (buf', n) = render t buf size) (vsnprintf env addr buf size fmt {| va_args := args; va_stores := [] |}) (text_of env fmt args).
Proof.
  intros Hsz Hint Haddr. rw /vsnprintf /text_of. rewrite -> swrap_small by (rw /=; lia). ztest.
  assert (buffer_end addr size = size) as -> by (rw /buffer_end; by ztest).
  eapply orel_bind; [by apply (format_shows buf size Hsz)|]. intros [rest o] [rest' t] [_ Hs]. cbn in Hs. by rewrite -> (terminate_shows buf size Hsz Hint o t Hs).
Qed.

(** ** The calls of %pV *)

Lemma renders_snprintf env `{!NestedOk env} fmt args : (∀ t, text_of env fmt args = Some t → Z.of_nat (length t) < 2 ^ 31 - 1) →
  renders (λ buf size, '(_, b, n) ← snprintf env 0 buf size fmt args; Some (b, n)).
Proof.
  intros Hshort. rw /renders. destruct (text_of env fmt args) as [t|] eqn:Et; [left; exists t; split; [by apply Hshort|]|right];
    intros buf size Hsz Hint; pose proof (vsnprintf_render env 0 buf size fmt args Hsz Hint ltac:(lia)) as H; rewrite -> Et in H; rw /snprintf;
    destruct (vsnprintf _ _ _ _ _ _) as [[[rest b] n]|]; try done.
  cbn in *. by rewrite -> H.
Qed.

(** The texts of the [struct va_format]s, which vsnprintf returns the length of as an [int], are short enough for it. *)
Definition short_texts (objs : Z → option (list Z * list varg)) (env : fmt_env) : Prop :=
  ∀ depth ptr fmt args t, objs ptr = Some (fmt, args) → text_of (nest objs depth env) fmt args = Some t → Z.of_nat (length t) < 2 ^ 31 - 1.

Lemma nest_ok objs env depth : short_texts objs env → NestedOk (nest objs depth env).
Proof.
  intros Hshort. induction depth as [|depth IH]; intros ptr; [by right|]. cbn [nest fe_vaf set_fe_vaf]. destruct (objs ptr) as [[fmt args]|] eqn:E; [|by right].
  apply renders_snprintf; [done|]. intros t. by apply (Hshort depth ptr).
Qed.

(** *** More calls that return *)

(** A sink in which a call that returns more often makes a difference only where the other one faults. *)
Class SinkMono (Out : Type) `{Sink Out} := put_call_mono (call call' : list Z → Z → option (list Z * Z)) o o' :
  (∀ buf size r, call buf size = Some r → call' buf size = Some r) → put_call call o = Some o' → put_call call' o = Some o'.

#[export] Instance outbuf_mono : SinkMono outbuf.
Proof. intros call call' o o' Hc. cbn. case_if; [done|]. intros H. unbind H. cbn in *. erewrite -> Hc by done. exact H. Qed.
#[export] Instance text_mono : SinkMono (list Z).
Proof. intros call call' o o' Hc. cbn. intros H. unbind H. cbn in *. erewrite -> Hc by done. cbn. erewrite -> Hc by done. exact H. Qed.

Lemma loop_mono {S R} (body body' : S → option (ctl S R)) fuel s r :
  (∀ s c, body s = Some c → body' s = Some c) → loop fuel body s = Some r → loop fuel body' s = Some r.
Proof.
  intros Hb. revert s. induction fuel as [|fuel IH]; intros s; cbn; [done|]. destruct (body s) as [c|] eqn:E; [|done]. rewrite -> (Hb _ _ E). destruct c; [apply IH|done].
Qed.

Section mono.
Context (env : fmt_env) (f f' : Z → list Z → Z → option (list Z * Z)) (Hf : ∀ p buf size r, f p buf size = Some r → f' p buf size = Some r).
Notation E := (set_fe_vaf f env).
Notation E' := (set_fe_vaf f' env).

Lemma pointer_mono `{SinkMono Out} fmt ptr spec (o o' : Out) : pointer E fmt ptr spec o = Some o' → pointer E' fmt ptr spec o = Some o'.
Proof using Hf.
  rw /pointer. cbn zeta. cbn [fe_mem fe_kallsyms fe_in_interrupt fe_kptr_restrict fe_cap_syslog fe_vaf set_fe_vaf].
  destruct (byte_at fmt 0) as [c|]; [|done]. cbn [mbind option_bind]. repeat (case_if; [done|]). case_if; [|done]. apply put_call_mono. intros. by apply Hf.
Qed.

Lemma step_mono `{SinkMono Out} (s : list Z * printf_spec * va_list * Out) c : printf_step E s = Some c → printf_step E' s = Some c.
Proof using Hf.
  destruct s as [[[fmt spec] args] o]. rw /printf_step. destruct (cur fmt) as [c0|]; [|done]. cbn [mbind option_bind]. case_if; [done|].
  destruct (format_decode fmt spec) as [[fmt' spec']|]; [|done]. cbn [mbind option_bind]. destruct (ps_type spec'); try done.
  destruct (next_ptr args) as [[p args']|]; [|done]. cbn [mbind option_bind]. destruct (pointer E _ _ _ _) as [o'|] eqn:Ep; [|done]. by rewrite -> (pointer_mono _ _ _ _ _ Ep).
Qed.

Lemma format_mono `{SinkMono Out} fmt (args : va_list) (o : Out) r : format E fmt args o = Some r → format E' fmt args o = Some r.
Proof using Hf. apply loop_mono. intros. by apply step_mono. Qed.

Lemma vsnprintf_mono addr buf size fmt args r : vsnprintf E addr buf size fmt args = Some r → vsnprintf E' addr buf size fmt args = Some r.
Proof using Hf.
  rw /vsnprintf. case_if; [done|]. intros H. destruct (format E _ _ _) as [ao|] eqn:Ef; [|done]. by rewrite -> (format_mono _ _ _ _ Ef).
Qed.

Lemma text_mono_of fmt args t : text_of E fmt args = Some t → text_of E' fmt args = Some t.
Proof using Hf. rw /text_of. intros H. destruct (format E _ _ _) as [ao|] eqn:Ef; [|done]. by rewrite -> (format_mono _ _ _ _ Ef). Qed.
End mono.

(** One more level of nesting changes nothing that returned without it. *)
Lemma nest_vaf objs depth env : nest objs depth env = set_fe_vaf (fe_vaf (nest objs depth env)) env.
Proof. by destruct depth. Qed.

Lemma nest_call objs depth env ptr buf size :
  fe_vaf (nest objs (S depth) env) ptr buf size = ('(fmt, args) ← objs ptr; '(_, b, n) ← snprintf (nest objs depth env) 0 buf size fmt args; Some (b, n)).
Proof. done. Qed.

Lemma nest_deeper objs env depth ptr buf size r : fe_vaf (nest objs depth env) ptr buf size = Some r → fe_vaf (nest objs (S depth) env) ptr buf size = Some r.
Proof.
  revert ptr buf size r. induction depth as [|depth IH]; intros ptr buf size r; [done|]. rewrite -> (nest_call _ depth), (nest_call _ (S depth)).
  assert (∀ fmt va x, vsnprintf (nest objs depth env) 0 buf size fmt va = Some x → vsnprintf (nest objs (S depth) env) 0 buf size fmt va = Some x) as Hv.
  { intros fmt va x. rewrite -> (nest_vaf _ depth), (nest_vaf _ (S depth)). by apply vsnprintf_mono. }
  revert Hv. clear IH. generalize (nest objs depth env) (nest objs (S depth) env). intros e1 e2 Hv.
  destruct (objs ptr) as [[fmt args]|]; cbn [mbind option_bind]; [|intros [=]]. rw /snprintf. intros H. destruct (vsnprintf e1 _ _ _ _ _) as [x|] eqn:E; [|done]. by rewrite -> (Hv _ _ _ E).
Qed.

Lemma text_deeper objs env depth depth' fmt args t : (depth ≤ depth')%nat → text_of (nest objs depth env) fmt args = Some t → text_of (nest objs depth' env) fmt args = Some t.
Proof.
  induction 1 as [|depth' _ IH]; [done|]. intros H. specialize (IH H). rewrite -> nest_vaf in IH |- *. revert IH. apply text_mono_of. apply nest_deeper.
Qed.

(** *** Formats without it *)

Definition no_vaf : fmt_env → fmt_env := set_fe_vaf (λ _ _ _, None).
#[export] Instance no_vaf_ok env : NestedOk (no_vaf env).
Proof. intros ptr. by right. Qed.

(** The parts of a buffer that a text is in. *)
Lemma render_parts t buf size buf' n : 0 ≤ size ≤ Z.of_nat (length buf) → (buf', n) = render t buf size →
  n = swrap 32 (Z.of_nat (length t)) ∧ length buf' = length buf ∧ drop (Z.to_nat size) buf' = drop (Z.to_nat size) buf ∧
  (0 < size → take (S (Nat.min (length t) (Z.to_nat size - 1))) buf' = take (Z.to_nat size - 1) t ++ [0]).
Proof.
  intros Hsz [= -> ->]. split; [done|]. destruct (Z.eqb_spec size 0) as [-> |]; [split_and!; [done|done|lia]|]. set (k := Nat.min (length t) (Z.to_nat size - 1)).
  assert (length (take k t) = k) as Hk by (rewrite -> length_take; rw /k; lia).
  split_and!; [rewrite -> length_app, Hk; cbn; rewrite -> length_drop; rw /k; lia| |intros _].
  - rewrite -> drop_app_ge, Hk by (rewrite -> Hk; rw /k; lia). destruct (Z.to_nat size - k)%nat as [|j] eqn:Ej; [rw /k in Ej; lia|].
    cbn. rewrite -> drop_drop. f_equal. lia.
  - rewrite -> take_app_ge, Hk by (rewrite -> Hk; lia). replace (S k - k)%nat with 1%nat by lia. cbn. f_equal.
    rw /k. destruct (Nat.le_gt_cases (length t) (Z.to_nat size - 1)); [rewrite -> Nat.min_l, !take_ge by lia; done|by rewrite -> Nat.min_r by lia].
Qed.

Lemma vsnprintf_text env addr buf size fmt args t :
  0 ≤ size ≤ Z.of_nat (length buf) → size < 2 ^ 31 → addr + size < 2 ^ 64 → text_of (no_vaf env) fmt args = Some t →
  ∃ rest buf', vsnprintf env addr buf size fmt {| va_args := args; va_stores := [] |} = Some (rest, buf', swrap 32 (Z.of_nat (length t))) ∧
    length buf' = length buf ∧ drop (Z.to_nat size) buf' = drop (Z.to_nat size) buf ∧
    (0 < size → take (S (Nat.min (length t) (Z.to_nat size - 1))) buf' = take (Z.to_nat size - 1) t ++ [0]).
Proof.
  intros Hsz Hint Haddr Ht. pose proof (vsnprintf_render (no_vaf env) addr buf size fmt args Hsz Hint Haddr) as H. rewrite -> Ht in H.
  destruct (vsnprintf (no_vaf env) _ _ _ _ _) as [[[rest b] n]|] eqn:E; [|done]. cbn in H. destruct (render_parts t buf size b n Hsz H) as (-> & Hp). exists rest, b. split; [|exact Hp].
  apply (vsnprintf_mono env _ (fe_vaf env)) in E; [|done]. by destruct env.
Qed.
