(* ===== verification/VsprintfNumber.v ===== *)
(** * Formatted output: numbers, strings and the contract of vsnprintf

    The text of an integer conversion is [number_text], as long as the width that is left does not leave the range of the [s16] it is kept in.  It is compared with
    the text that C99 asks for ([c99_text]), which the comment at vsnprintf refers to: the two differ in four cases, and in no other ([c99_agrees]).  The text of a
    string is [field_text].  Every run of the interpreter ends: the rounds of its loop by the measure of VsprintfText, and the loops inside a conversion because their
    counters are [s16]s that go down ([number_total], [string_total], [pad_char_total]).  Together with what VsprintfText shows of the buffer this is the contract of
    vsnprintf. *)
From Stdlib Require Import Ascii String.
From S2P Require Import Prelude Ctype Kstrtox NumPrint StringLib Vsprintf VsprintfText.
#[local] Open Scope Z_scope.

(** ** Reference *)

(** A digit as a character; [locase] is 0 or 0x20. *)
Definition digit_ref (d locase : Z) : Z := if d <? 10 then 48 + d else 65 + (d - 10) + locase.

(** The digits of a number, the last one first. *)
Fixpoint digits_rev (k : nat) (base locase v : Z) : list Z :=
  match k with
  | O => []
  | S k => digit_ref (v mod base) locase :: (if v / base =? 0 then [] else digits_rev k base locase (v / base))
  end.
(** 22 octal digits are the most 64 bits need. *)
Definition digits_of (base locase v : Z) : list Z := rev (digits_rev 22 base locase v).

Definition sign_text (spec : printf_spec) (num : Z) : list Z :=
  if flag SIGN spec then
    if swrap 64 num <? 0 then [45] else if flag PLUS spec then [43] else if flag SPACE spec then [32] else []
  else [].
Definition abs_value (spec : printf_spec) (num : Z) : Z := if flag SIGN spec && (swrap 64 num <? 0) then - swrap 64 num else num.
Definition prefix_text (spec : printf_spec) (num : Z) : list Z :=
  if flag SPECIAL spec then
    if ps_base spec =? 16 then [48; 88 + Z.land (ps_flags spec) SMALL] else if (ps_base spec =? 8) && negb (num =? 0) then [48] else []
  else [].
(** At least as many digits as the precision. *)
Definition body_text (spec : printf_spec) (num : Z) : list Z :=
  let ds := digits_of (ps_base spec) (Z.land (ps_flags spec) SMALL) (abs_value spec num) in
  replicate (Z.to_nat (ps_precision spec) - length ds) 48 ++ ds.

(** What is left of the field. *)
Definition free_width (spec : printf_spec) (num : Z) : Z :=
  ps_field_width spec - Z.of_nat (length (sign_text spec num) + length (prefix_text spec num) + length (body_text spec num)).

Definition number_text (spec : printf_spec) (num : Z) : list Z :=
  let fill c := replicate (Z.to_nat (free_width spec num)) c in
  if flag LEFT spec then sign_text spec num ++ prefix_text spec num ++ body_text spec num ++ fill 32
  else if flag ZEROPAD spec then sign_text spec num ++ prefix_text spec num ++ fill 48 ++ body_text spec num
  else fill 32 ++ sign_text spec num ++ prefix_text spec num ++ body_text spec num.

(** ** Digits *)

Lemma digit_char_ref k locase : 0 ≤ k < 16 → locase = 0 ∨ locase = 32 → digit_char k locase = Some (digit_ref k locase).
Proof.
  intros Hk Hl. assert (k ∈ seqZ 0 16) as Hin by (apply elem_of_seqZ; lia). clear Hk. revert k Hin. apply Forall_forall.
  destruct Hl as [-> | ->]; repeat constructor.
Qed.

Lemma digits_rev_fuel k k' base locase v : 2 ≤ base → 0 ≤ v < base ^ Z.of_nat k → (k ≤ k')%nat → (0 < k)%nat → digits_rev k base locase v = digits_rev k' base locase v.
Proof.
  intros Hb. revert k' v. induction k as [|k IH]; intros k' v Hv Hk Hpos; [lia|]. destruct k' as [|k']; [lia|]. cbn. f_equal.
  destruct (Z.eqb_spec (v / base) 0); [done|]. destruct k as [|k].
  { exfalso. apply n. apply Z.div_small. cbn in Hv. lia. }
  apply IH; [|lia|lia]. split; [apply Z.div_pos; lia|]. apply Z.div_lt_upper_bound; [lia|]. rewrite -> Nat2Z.inj_succ, Z.pow_succ_r in Hv by lia. lia.
Qed.

Lemma decimal_digits k v : 0 ≤ v → dec_trunc k v = digits_rev k 10 0 v.
Proof.
  revert v. induction k as [|k IH]; intros v Hv; [done|]. cbn. pose proof (Z.mod_pos_bound v 10). rw /digit_ref. ztest. f_equal; [lia|].
  case_if; [done|]. apply IH. apply Z.div_pos; lia.
Qed.

Lemma decimal_locase k v : digits_rev k 10 32 v = digits_rev k 10 0 v.
Proof.
  revert v. induction k as [|k IH]; intros v; [done|]. cbn. pose proof (Z.mod_pos_bound v 10). rw /digit_ref. ztest. f_equal. case_if; [done|]. apply IH.
Qed.

Section pow2.
Context (s base mask locase : Z) (Hs : s = 3 ∨ s = 4) (Hbase : base = 2 ^ s) (Hmask : mask = base - 1) (Hl : locase = 0 ∨ locase = 32).

Lemma pow2_loop num k tmp : 0 ≤ num < base ^ Z.of_nat k → (0 < k)%nat →
  loop k (λ '(num, tmp),
       d ← digit_char (Z.land (wrap 8 num) mask) locase;
       let num := Z.shiftr num s in
       Some (if num =? 0 then Stop (tmp ++ [d]) else Next (num, tmp ++ [d]))) (num, tmp) = Some (tmp ++ digits_rev k base locase num).
Proof using Hs Hbase Hmask Hl.
  assert (8 ≤ base ≤ 16) as Hb by (destruct Hs; subst; lia).
  revert num tmp. induction k as [|k IH]; intros num tmp Hn Hpos; [lia|]. cbn [loop].
  assert (Z.land (wrap 8 num) mask = num mod base) as ->.
  { rewrite -> Hmask, Hbase, Z.sub_1_r, <- Z.ones_equiv, Z.land_ones by lia. rw /wrap. destruct Hs as [-> | ->]; zdm. }
  rewrite -> digit_char_ref by (done || (pose proof (Z.mod_pos_bound num base); lia)). cbn [mbind option_bind].
  rewrite -> Z.shiftr_div_pow2, <- Hbase by lia. cbn [digits_rev].
  destruct (Z.eqb_spec (num / base) 0); [done|]. rewrite -> IH; [by rewrite <- app_assoc| |destruct k; [|lia]].
  - split; [apply Z.div_pos; lia|]. apply Z.div_lt_upper_bound; [lia|]. rewrite -> Nat2Z.inj_succ, Z.pow_succ_r in Hn by lia. lia.
  - exfalso. apply n. apply Z.div_small. change (Z.of_nat 1) with 1 in Hn. rewrite -> Z.pow_1_r in Hn. lia.
Qed.

Lemma pow2_digits_ref num : in_width 64 num → pow2_digits mask s locase num = Some (digits_rev 22 base locase num).
Proof using Hs Hbase Hmask Hl.
  intros [Hn0 Hn]. assert (0 ≤ num < base ^ Z.of_nat 22) as H22.
  { split; [done|]. eapply Z.lt_le_trans; [exact Hn|]. rewrite -> Hbase, <- Z.pow_mul_r by lia. apply Z.pow_le_mono_r; lia. }
  assert (2 ≤ base) by (destruct Hs; subst; lia). rw /pow2_digits. rewrite -> pow2_loop.
  - cbn [app]. rewrite <- (digits_rev_fuel 22 23); [done|lia|exact H22|lia|lia].
  - split; [done|]. eapply Z.lt_le_trans; [apply H22|]. apply Z.pow_le_mono_r; lia.
  - lia.
Qed.
End pow2.

Lemma digits_small base locase v : 0 ≤ v < base → digits_rev 22 base locase v = [digit_ref v locase].
Proof. intros Hv. cbn. rewrite -> Z.mod_small, Z.div_small by lia. done. Qed.

Lemma number_digits_ref base locase num : base = 8 ∨ base = 10 ∨ base = 16 → locase = 0 ∨ locase = 32 → in_width 64 num →
  number_digits base locase num = Some (digits_rev 22 base locase num).
Proof.
  intros Hb Hl [Hn0 Hn]. rw /number_digits. destruct (Z.ltb_spec num base).
  { rewrite -> digit_char_ref by (done || lia). cbn [mbind option_bind]. by rewrite -> digits_small by lia. }
  destruct Hb as [-> | [-> | ->]]; cbn [Z.eqb negb Pos.eqb].
  - apply pow2_digits_ref; done || auto.
  - rewrite -> put_dec_spec by done. cbn [app]. rw /decimal. rewrite -> decimal_digits by lia.
    rewrite -> (digits_rev_fuel 20 22); [|lia|change (10 ^ Z.of_nat 20) with 100000000000000000000; lia|lia|lia]. destruct Hl as [-> | ->]; [done|]. by rewrite -> decimal_locase.
  - apply pow2_digits_ref; done || auto.
Qed.

(** ** Padding *)

Section padding.
(** [Z.to_nat fw] characters; the counter ends below 0. *)
Lemma pad_width_loop c fuel fw t : -32768 < fw ≤ 32767 → (Z.to_nat fw < fuel)%nat →
  loop fuel (λ '(fw, o), let fw := swrap 16 (fw - 1) in if fw <? 0 then Some (Stop (fw, o)) else o ← put c o; Some (Next (fw, o))) (fw, t) =
  Some (Z.min fw 0 - 1, t ++ replicate (Z.to_nat fw) c).
Proof.
  revert fw t. induction fuel as [|fuel IH]; intros fw t Hfw Hf; [lia|]. cbn [loop]. rewrite -> swrap_small by (cbn; lia). destruct (Z.ltb_spec (fw - 1) 0).
  - replace (Z.to_nat fw) with O by lia. cbn. rewrite -> app_nil_r. do 2 f_equal. lia.
  - cbn [put text_sink mbind option_bind]. rewrite -> IH by lia. replace (Z.to_nat fw) with (S (Z.to_nat (fw - 1))) by lia. cbn [replicate].
    rewrite <- app_assoc. do 2 f_equal. lia.
Qed.

Lemma pad_width_text c fw t : -32768 < fw ≤ 32767 → pad_width c fw t = Some (Z.min fw 0 - 1, t ++ replicate (Z.to_nat fw) c).
Proof. intros Hfw. apply pad_width_loop; [done|]. rw /s16_rounds. lia. Qed.

Lemma pad_precision_loop i fuel p t : 0 < i ≤ 32767 → i ≤ p ≤ 32767 → (Z.to_nat (p - i) < fuel)%nat →
  loop fuel (λ '(precision, o), let precision := swrap 16 (precision - 1) in if precision <? i then Some (Stop o) else o ← put (ch "0") o; Some (Next (precision, o)))
    (p, t) = Some (t ++ replicate (Z.to_nat (p - i)) 48).
Proof.
  intros Hi. revert p t. induction fuel as [|fuel IH]; intros p t Hp Hf; [lia|]. cbn [loop]. rewrite -> swrap_small by (cbn; lia). destruct (Z.ltb_spec (p - 1) i).
  - replace (Z.to_nat (p - i)) with O by lia. cbn. by rewrite -> app_nil_r.
  - cbn [put text_sink mbind option_bind]. rewrite -> IH by lia. replace (Z.to_nat (p - i)) with (S (Z.to_nat (p - 1 - i))) by lia. cbn [replicate].
    by rewrite <- app_assoc.
Qed.

Lemma pad_precision_text i p t : 0 < i ≤ 32767 → i ≤ p ≤ 32767 → pad_precision i p t = Some (t ++ replicate (Z.to_nat (p - i)) 48).
Proof. intros Hi Hp. apply pad_precision_loop; [done|done|]. rw /s16_rounds. lia. Qed.

Lemma put_all_text s t : put_all s t = Some (t ++ s).
Proof. revert t. induction s as [|c s IH]; intros t; cbn; [by rewrite -> app_nil_r|]. rewrite -> IH. by rewrite <- app_assoc. Qed.
End padding.

(** ** Strings *)

Lemma pad_string_loop len fuel fw t : 0 ≤ len → -32768 < fw ≤ 32767 → (Z.to_nat (fw - len) < fuel)%nat →
  loop fuel (λ '(fw, o), let fw' := swrap 16 (fw - 1) in if negb (len <? fw) then Some (Stop (fw', o)) else o ← put (ch " ") o; Some (Next (fw', o))) (fw, t) =
  Some (Z.min fw len - 1, t ++ replicate (Z.to_nat (fw - len)) 32).
Proof.
  intros Hlen. revert fw t. induction fuel as [|fuel IH]; intros fw t Hfw Hf; [lia|]. cbn [loop]. rewrite -> swrap_small by (cbn; lia). destruct (Z.ltb_spec len fw); cbn [negb].
  - cbn [put text_sink mbind option_bind]. rewrite -> IH by lia. replace (Z.to_nat (fw - len)) with (S (Z.to_nat (fw - 1 - len))) by lia. cbn [replicate].
    rewrite <- app_assoc. do 2 f_equal. lia.
  - replace (Z.to_nat (fw - len)) with O by lia. cbn. rewrite -> app_nil_r. do 2 f_equal. lia.
Qed.

Lemma pad_string_text len fw t : 0 ≤ len → -32768 < fw ≤ 32767 → pad_string len fw t = Some (Z.min fw len - 1, t ++ replicate (Z.to_nat (fw - len)) 32).
Proof. intros Hl Hfw. apply pad_string_loop; [done|done|]. rw /s16_rounds. lia. Qed.

(** The first characters of a string in a field. *)
Definition field_text (spec : printf_spec) (s : list Z) : list Z :=
  let s := take (Z.to_nat (wrap 64 (ps_precision spec))) s in
  let fill := replicate (Z.to_nat (ps_field_width spec - Z.of_nat (length s))) 32 in
  if flag LEFT spec then s ++ fill else fill ++ s.

Lemma string_ok p s r spec t : 4096 ≤ p → Forall (λ c, c ≠ 0) s → -32767 < ps_field_width spec ≤ 32767 →
  string_out (p, s ++ 0 :: r) spec t = Some (t ++ field_text spec s).
Proof.
  intros Hp Hs Hfw. rw /string_out. cbn [fst snd]. rewrite -> (proj2 (Z.ltb_ge p 4096)) by done. cbn zeta. pose proof (in_width_wrap 64 (ps_precision spec) ltac:(lia)) as [Hw _].
  rewrite -> strnlen_text by done. cbn [mbind option_bind]. set (len := Z.min _ _). change (ch " ") with 32.
  assert (take (Z.to_nat len) (s ++ 0 :: r) = take (Z.to_nat (wrap 64 (ps_precision spec))) s) as ->.
  { rw /len. rewrite -> take_app_le by lia. destruct (Z.le_gt_cases (wrap 64 (ps_precision spec)) (Z.of_nat (length s))); [by rewrite -> Z.min_l by done|]. by rewrite -> !take_ge by lia. }
  rw /field_text. set (s' := take _ s). assert (Z.of_nat (length s') = len) as -> by (rw /s' /len; rewrite -> length_take; lia). destruct (flag LEFT spec); cbn [negb mbind option_bind].
  - rewrite -> put_all_text. cbn [mbind option_bind]. rewrite -> pad_string_text by lia. cbn [mbind option_bind]. by rewrite <- app_assoc.
  - rewrite -> pad_string_text by lia. cbn [mbind option_bind]. rewrite -> put_all_text. cbn [mbind option_bind]. rewrite -> pad_string_text by lia. cbn [mbind option_bind].
    replace (Z.to_nat (Z.min (ps_field_width spec) len - 1 - len)) with O by lia. cbn. by rewrite -> app_nil_r, <- app_assoc.
Qed.

(** ** Flags *)

Lemma small_locase f : Z.land f SMALL = 0 ∨ Z.land f SMALL = 32.
Proof.
  destruct (Z.testbit f 5) eqn:E; [right|left]; apply Z.bits_inj'; intros i Hi; rewrite -> Z.land_spec; change SMALL with (2 ^ 5); [change 32 with (2 ^ 5)|rewrite -> Z.bits_0];
    rewrite -> !Z.pow2_bits_eqb by lia; destruct (Z.eqb_spec 5 i) as [<-|]; rewrite ?E; by rewrite ?andb_false_r.
Qed.

(** Clearing ZEROPAD leaves the other flags. *)
Lemma flag_clear m s : Z.land 254 m = m → flag m (set_ps_flags (Z.land (ps_flags s) (bnot 8 ZEROPAD)) s) = flag m s.
Proof. intros Hm. rw /flag. cbn [ps_flags set_ps_flags]. change (bnot 8 ZEROPAD) with 254. by rewrite <- Z.land_assoc, Hm. Qed.

Lemma flag_pad s : flag (ZEROPAD + LEFT) s = flag LEFT s || flag ZEROPAD s.
Proof.
  rw /flag. change (ZEROPAD + LEFT) with (Z.lor LEFT ZEROPAD). rewrite -> Z.land_lor_distr_r. rewrite <- negb_andb. f_equal. apply eq_true_iff_eq.
  rewrite -> andb_true_iff, !Z.eqb_eq. apply Z.lor_eq_0_iff.
Qed.

(** ** The text of a number *)

Section number.
Context (num : Z) (spec : printf_spec) (Hnum : in_width 64 num) (Hbase : ps_base spec = 8 ∨ ps_base spec = 10 ∨ ps_base spec = 16)
  (Hwidth : -32768 ≤ ps_field_width spec ≤ 32767) (Hprec : -32768 ≤ ps_precision spec ≤ 32767) (Hfree : -32765 ≤ free_width spec num).

Lemma abs_value_width : in_width 64 (abs_value spec num).
Proof using Hnum.
  rw /abs_value. destruct (flag SIGN spec && _) eqn:E; [|done]. apply andb_true_iff in E as [_ E]. destruct Hnum as [H0 H1]. zbool. rw /in_width.
  revert E. rw /swrap. change (64 - 1) with 63. zdm.
Qed.

Lemma digits_nonempty k base locase v : (0 < k)%nat → (0 < length (digits_rev k base locase v))%nat.
Proof using. destruct k; cbn; lia. Qed.

Lemma digits_rev_length k base locase v : (length (digits_rev k base locase v) ≤ k)%nat.
Proof using. revert v. induction k as [|k IH]; intros v; cbn; [lia|]. case_if; [cbn; lia|]. specialize (IH (v / base)). lia. Qed.

Definition opt_text (c : option Z) : list Z := match c with Some c => [c] | None => [] end.
Lemma put_opt_text c t : put_opt c t = Some (t ++ opt_text c).
Proof using. destruct c; cbn; [done|by rewrite -> app_nil_r]. Qed.

(** The sign that is printed, the absolute value, and the width behind the sign. *)
Lemma number_sign_text spec' : (∀ m, Z.land 254 m = m → flag m spec' = flag m spec) → ps_field_width spec' = ps_field_width spec →
  ∃ c, number_sign spec' num = (c, abs_value spec num, swrap 16 (ps_field_width spec - Z.of_nat (length (opt_text c)))) ∧ opt_text c = sign_text spec num.
Proof using Hnum Hwidth.
  intros Hf Hw. pose proof abs_value_width as Ha. rw /abs_value in Ha. rw /number_sign /sign_text /abs_value. rewrite -> !Hf, !Hw by done.
  assert (swrap 16 (ps_field_width spec - Z.of_nat 0) = ps_field_width spec) as E0 by (rewrite -> Z.sub_0_r; apply swrap_small; cbn; lia).
  destruct (flag SIGN spec); [|exists None; cbn [opt_text length]; by rewrite -> E0]. destruct (swrap 64 num <? 0).
  - exists (Some 45). cbn in Ha. by rewrite -> wrap_small.
  - destruct (flag PLUS spec); [by exists (Some 43)|]. destruct (flag SPACE spec); [by exists (Some 32)|]. exists None. cbn [opt_text length]. by rewrite -> E0.
Qed.

Lemma prefix_cases : flag SPECIAL spec && negb (ps_base spec =? 10) = true ∨ prefix_text spec num = [].
Proof using Hbase. rw /prefix_text. destruct (flag SPECIAL spec); [|by right]. destruct Hbase as [-> | [-> | ->]]; cbn; auto. Qed.

(** The prefix that is printed. *)
Lemma put_prefix_text t :
  (if flag SPECIAL spec && negb (ps_base spec =? 10)
   then o ← (if (ps_base spec =? 16) || negb (num =? 0) then put 48 t else Some t);
        if ps_base spec =? 16 then put (Z.lor 88 (Z.land (ps_flags spec) SMALL)) o else Some o
   else Some t) = Some (t ++ prefix_text spec num).
Proof using Hbase.
  rw /prefix_text. destruct (flag SPECIAL spec); cbn [andb]; [|by rewrite -> app_nil_r].
  destruct Hbase as [-> | [-> | ->]]; cbn [Z.eqb Pos.eqb negb orb andb]; [destruct (num =? 0); cbn; by rewrite -> ?app_nil_r|by rewrite -> app_nil_r|].
  cbn. rewrite <- app_assoc. cbn. destruct (small_locase (ps_flags spec)) as [-> | ->]; done.
Qed.

Lemma prefix_width w : -32766 ≤ w - Z.of_nat (length (prefix_text spec num)) → w ≤ 32767 →
  (if flag SPECIAL spec && negb (ps_base spec =? 10)
   then if ps_base spec =? 16 then swrap 16 (w - 2) else if negb (num =? 0) then swrap 16 (w - 1) else w
   else w) = w - Z.of_nat (length (prefix_text spec num)).
Proof using Hbase.
  rw /prefix_text. destruct (flag SPECIAL spec); cbn [andb]; [|cbn; lia].
  destruct Hbase as [-> | [-> | ->]]; cbn [Z.eqb Pos.eqb negb andb]; [destruct (num =? 0); cbn [negb length]|cbn; lia|cbn [length]]; intros; try (apply swrap_small; cbn); lia.
Qed.
Lemma body_length : Z.of_nat (length (body_text spec num)) =
  Z.max (Z.of_nat (length (digits_rev 22 (ps_base spec) (Z.land (ps_flags spec) SMALL) (abs_value spec num)))) (ps_precision spec).
Proof using. rw /body_text /digits_of. rewrite -> length_app, length_replicate, length_rev. lia. Qed.

Lemma number_ok t : number num spec t = Some (t ++ number_text spec num).
Proof using Hnum Hbase Hwidth Hprec Hfree.
  rw /number. cbn zeta. set (spec' := if flag LEFT spec then _ else spec).
  assert (∀ m, Z.land 254 m = m → flag m spec' = flag m spec) as Hf by (intros m Hm; rw /spec'; destruct (flag LEFT spec); [by apply flag_clear|done]).
  assert (flag ZEROPAD spec' = negb (flag LEFT spec) && flag ZEROPAD spec) as Hz.
  { rw /spec'. destruct (flag LEFT spec); [|done]. rw /flag. cbn [ps_flags set_ps_flags]. change (bnot 8 ZEROPAD) with 254. by rewrite <- Z.land_assoc, Z.land_0_r. }
  assert (ps_base spec' = ps_base spec) as -> by (rw /spec'; by case_if). assert (ps_precision spec' = ps_precision spec) as -> by (rw /spec'; by case_if).
  destruct (number_sign_text spec' Hf ltac:(rw /spec'; by case_if)) as (c & -> & Hc). cbn beta iota zeta.
  pose proof body_length as Hb. pose proof Hfree as Hfr. rw /free_width in Hfr.
  change (ch "0") with 48. change (ch "X") with 88. change (ch " ") with 32.
  rewrite -> (number_digits_ref _ _ _ Hbase (small_locase _) abs_value_width). cbn [mbind option_bind].
  rewrite -> Hc, (swrap_small 16 (ps_field_width spec - Z.of_nat (length (sign_text spec num)))), prefix_width by (cbn; lia).
  set (ds := digits_rev 22 _ _ _) in *. assert (0 < length ds ≤ 22)%nat as Hds by (split; [by apply digits_nonempty; lia|apply digits_rev_length]). ztest.
  replace (if ps_precision spec <? Z.of_nat (length ds) then Z.of_nat (length ds) else ps_precision spec) with (Z.of_nat (length (body_text spec num))) by (case_if; lia).
  rewrite -> swrap_small by (cbn; lia).
  replace (ps_field_width spec - Z.of_nat (length (sign_text spec num)) - Z.of_nat (length (prefix_text spec num)) - Z.of_nat (length (body_text spec num)))
    with (free_width spec num) by (rw /free_width; lia).
  assert (-32765 ≤ free_width spec num ≤ 32767) as Hfw by (rw /free_width; lia). rewrite -> flag_pad, Hz, (Hf LEFT) by done.
  assert (body_text spec num = replicate (Z.to_nat (Z.of_nat (length (body_text spec num)) - Z.of_nat (length ds))) 48 ++ rev ds) as Hbt.
  { rewrite -> Hb. rw /body_text /digits_of. fold ds. do 2 f_equal. rewrite -> length_rev. lia. }
  assert (∀ t fw, -32768 < fw ≤ 32767 → (o ← pad_precision (Out:=list Z) (Z.of_nat (length ds)) (Z.of_nat (length (body_text spec num))) t; o ← put_all (rev ds) o; '(_, o) ← pad_width 32 fw o; Some o)
    = Some (t ++ body_text spec num ++ replicate (Z.to_nat fw) 32)) as Htail.
  { intros t' fw Hr. rewrite -> pad_precision_text by lia. cbn [mbind option_bind]. rewrite -> put_all_text. cbn [mbind option_bind]. rewrite -> pad_width_text by lia. cbn [mbind option_bind].
    rewrite <- !app_assoc. by rewrite -> (app_assoc (replicate _ 48)), <- Hbt. }
  rw /number_text. destruct (flag LEFT spec); cbn [negb andb orb mbind option_bind].
  - rewrite -> put_opt_text, Hc. cbn [mbind option_bind]. rewrite -> put_prefix_text. cbn [mbind option_bind]. rewrite -> Htail by lia. by rewrite <- !app_assoc.
  - destruct (flag ZEROPAD spec); cbn [negb mbind option_bind].
    + rewrite -> put_opt_text, Hc. cbn [mbind option_bind]. rewrite -> put_prefix_text. cbn [mbind option_bind]. rewrite -> pad_width_text by lia.
      cbn [mbind option_bind]. rewrite -> Htail by lia. replace (Z.to_nat (Z.min _ 0 - 1)) with O by lia. cbn. rewrite -> app_nil_r. by rewrite <- !app_assoc.
    + rewrite -> pad_width_text by lia. cbn [mbind option_bind]. rewrite -> put_opt_text, Hc. cbn [mbind option_bind]. rewrite -> put_prefix_text.
      cbn [mbind option_bind]. rewrite -> pad_width_text by lia. cbn [mbind option_bind]. rewrite -> Htail by lia.
      replace (Z.to_nat (Z.min (free_width spec num) 0 - 1)) with O by lia. replace (Z.to_nat (Z.min _ 0 - 1)) with O by lia. cbn. rewrite -> !app_nil_r.
      by rewrite <- !app_assoc.
Qed.
End number.

(** ** Reading a number back *)

Fixpoint vals_rev (k : nat) (base v : Z) : list Z :=
  match k with O => [] | S k => v mod base :: (if v / base =? 0 then [] else vals_rev k base (v / base)) end.

Lemma digits_vals k base locase v : digits_rev k base locase v = map (λ d, digit_ref d locase) (vals_rev k base v).
Proof. revert v. induction k as [|k IH]; intros v; cbn; [done|]. f_equal. case_if; [done|apply IH]. Qed.

Lemma vals_bound k base v : 0 < base → Forall (λ d, 0 ≤ d < base) (vals_rev k base v).
Proof. intros Hb. revert v. induction k as [|k IH]; intros v; cbn; constructor; [by apply Z.mod_pos_bound|]. case_if; [constructor|apply IH]. Qed.

Lemma vals_value k base v : 0 < base → 0 ≤ v < base ^ Z.of_nat k → value base (rev (vals_rev k base v)) = v.
Proof.
  intros Hb. revert v. induction k as [|k IH]; intros v Hv; [cbn in *; lia|]. cbn [vals_rev rev]. rewrite -> value_app. cbn [foldl].
  pose proof (Z.div_mod v base). destruct (Z.eqb_spec (v / base) 0); [cbn; lia|]. rewrite -> IH; [lia|]. rewrite -> Nat2Z.inj_succ, Z.pow_succ_r in Hv by lia.
  split; [apply Z.div_pos; lia|]. apply Z.div_lt_upper_bound; lia.
Qed.

(** The first digit is not 0, except of the number 0. *)
Lemma vals_first k base v : 1 < base → 0 < v < base ^ Z.of_nat k → ∃ d l, rev (vals_rev k base v) = d :: l ∧ d ≠ 0.
Proof.
  intros Hb. revert v. induction k as [|k IH]; intros v Hv; [cbn in *; lia|]. cbn [vals_rev rev]. pose proof (Z.div_mod v base ltac:(lia)).
  destruct (Z.eqb_spec (v / base) 0); [exists (v mod base), []; split; [done|lia]|]. rewrite -> Nat2Z.inj_succ, Z.pow_succ_r in Hv by lia.
  destruct (IH (v / base)) as (d & l & -> & Hd); [|by exists d, (l ++ [v mod base])].
  split; [assert (0 ≤ v / base) by (apply Z.div_pos; lia); lia|]. apply Z.div_lt_upper_bound; lia.
Qed.

Lemma vals_small base d : 0 ≤ d < base → vals_rev 22 base d = [d].
Proof. intros Hd. cbn. by rewrite -> Z.mod_small, Z.div_small by lia. Qed.

(** A digit is read as its value, and is none of the other characters that matter. *)
Lemma digit_read d locase : 0 ≤ d < 16 → locase = 0 ∨ locase = 32 →
  digit_val (digit_ref d locase) = Some d ∧ digit_ref d locase ≠ 0 ∧ (digit_ref d locase =? 43) = false ∧ (digit_ref d locase =? 48) = (d =? 0) ∧
  (_tolower (digit_ref d locase) =? 120) = false ∧ isxdigit (digit_ref d locase) = true.
Proof.
  intros Hk Hl. assert (d ∈ seqZ 0 16) as Hin by (apply elem_of_seqZ; lia). clear Hk. revert d Hin. apply Forall_forall.
  destruct Hl as [-> | ->]; repeat constructor; done.
Qed.

Section read_back.
Context (base locase : Z) (Hb : 2 ≤ base ≤ 16) (Hl : locase = 0 ∨ locase = 32).
Notation dig := (λ d, digit_ref d locase).

Lemma digit_prefix_vals ds r : Forall (λ d, 0 ≤ d < base) ds → digit_prefix (map dig ds ++ 0 :: r) base = ds.
Proof using Hb Hl.
  induction 1 as [|d ds Hd _ IH]; [done|]. cbn [map app digit_prefix]. destruct (digit_read d locase ltac:(lia) Hl) as (-> & Hne & _). ztest. by rewrite -> IH.
Qed.

Lemma answer_vals ds r : Forall (λ d, 0 ≤ d < base) ds → ds ≠ [] → value base ds < 2 ^ 64 → kstrtoull_answer (map dig ds ++ 0 :: r) base = KOk (value base ds).
Proof using Hb Hl.
  intros Hds Hne Hv. rw /kstrtoull_answer. rewrite -> digit_prefix_vals by done. ztest. rewrite -> bool_decide_eq_false_2 by done.
  rewrite -> drop_app_length' by (symmetry; apply length_map). done.
Qed.

(** With a radix the prefix shows, or none. *)
Lemma kstrtoull_vals s ds r : _parse_integer_fixup_radix s 0 = Some (map dig ds ++ 0 :: r, base) → rd s 0 ≠ Some 43 → rd s 0 ≠ None →
  Forall (λ d, 0 ≤ d < base) ds → ds ≠ [] → value base ds < 2 ^ 64 → Z.of_nat (length ds + S (length r)) < 2 ^ 31 → kstrtoull s 0 = Some (KOk (value base ds)).
Proof using Hb Hl.
  intros Hfix Hplus Hs Hds Hne Hv Hlen. rw /kstrtoull. destruct (rd s 0) as [c|]; [|done]. cbn [mbind option_bind].
  destruct (Z.eqb_spec c 43) as [->|]; [done|]. rewrite -> (kstrtoull_tail _ _ _ _ Hfix); [by rewrite -> answer_vals|done| |].
  - apply elem_of_app. right. left.
  - rewrite -> length_app, length_map. exact Hlen.
Qed.
End read_back.

Lemma rd_second {A} (a b : A) l : rd (a :: b :: l) 1 = Some b.
Proof. by apply (rd_middle [a]). Qed.
Lemma rd_third {A} (a b c : A) l : rd (a :: b :: c :: l) 2 = Some c.
Proof. by apply (rd_middle [a; b]). Qed.

(** The radix of a text that a conversion with [#] printed. *)
Lemma fixup_hex locase x ds r : _tolower x = 120 → locase = 0 ∨ locase = 32 → Forall (λ d, 0 ≤ d < 16) ds → ds ≠ [] →
  _parse_integer_fixup_radix (48 :: x :: map (λ d, digit_ref d locase) ds ++ 0 :: r) 0 = Some (map (λ d, digit_ref d locase) ds ++ 0 :: r, 16).
Proof.
  intros Hx Hl Hds Hne. destruct Hds as [|d ds Hd Hds]; [done|]. rw /_parse_integer_fixup_radix. destruct (digit_read d locase Hd Hl) as (_ & _ & _ & _ & _ & Hxd).
  cbn [map app]. change (rd (48 :: ?l) 0) with (Some 48). rewrite -> rd_second, rd_third.
  cbn [mbind option_bind Z.eqb Pos.eqb]. rewrite -> Hx, Hxd. done.
Qed.

Lemma fixup_oct locase ds r : locase = 0 ∨ locase = 32 → Forall (λ d, 0 ≤ d < 8) ds →
  _parse_integer_fixup_radix (map (λ d, digit_ref d locase) (0 :: ds) ++ 0 :: r) 0 = Some (map (λ d, digit_ref d locase) (0 :: ds) ++ 0 :: r, 8).
Proof.
  intros Hl Hds. rw /_parse_integer_fixup_radix. cbn [map app]. change (digit_ref 0 locase) with 48. change (rd (48 :: ?l) 0) with (Some 48).
  cbn [mbind option_bind Z.eqb Pos.eqb]. destruct Hds as [|d ds Hd Hds]; [cbn [map app]; by rewrite -> rd_second|]. cbn [map app]. rewrite -> rd_second.
  cbn [mbind option_bind]. by destruct (digit_read d locase ltac:(lia) Hl) as (_ & _ & _ & _ & -> & _).
Qed.

Lemma fixup_dec locase d ds r : locase = 0 ∨ locase = 32 → 0 < d < 10 →
  _parse_integer_fixup_radix (map (λ d, digit_ref d locase) (d :: ds) ++ 0 :: r) 0 = Some (map (λ d, digit_ref d locase) (d :: ds) ++ 0 :: r, 10).
Proof.
  intros Hl Hd. rw /_parse_integer_fixup_radix. cbn [map app]. change (rd (?x :: ?l) 0) with (Some x). cbn [mbind option_bind].
  destruct (digit_read d locase ltac:(lia) Hl) as (_ & _ & _ & -> & _). by ztest.
Qed.

(** All digits of a 64-bit number. *)
Lemma vals_ok base num (ds := rev (vals_rev 22 base num)) : base = 8 ∨ base = 10 ∨ base = 16 → in_width 64 num →
  Forall (λ d, 0 ≤ d < base) ds ∧ ds ≠ [] ∧ value base ds = num ∧ (length ds ≤ 22)%nat.
Proof.
  intros Hb [H0 Hn]. split_and!.
  - apply Forall_rev, vals_bound. lia.
  - rw /ds. cbn. by intros [_ ?]%app_nil.
  - apply vals_value; [lia|]. split; [done|]. eapply Z.lt_le_trans; [exact Hn|]. destruct Hb as [-> | [-> | ->]]; by vm_compute.
  - rw /ds. rewrite -> length_rev. pose proof (digits_rev_length 22 base 0 num) as Hl. rewrite -> digits_vals, length_map in Hl. exact Hl.
Qed.

(** The text with its prefix, base by base. *)
Lemma oct_read_back ds r locase (dig := λ d, digit_ref d locase) : locase = 0 ∨ locase = 32 → Forall (λ d, 0 ≤ d < 8) ds → value 8 ds < 2 ^ 64 →
  Z.of_nat (length ds + S (S (length r))) < 2 ^ 31 → kstrtoull (48 :: map dig ds ++ 0 :: r) 0 = Some (KOk (value 8 ds)).
Proof.
  intros Hl Hds Hv Hlen. change (value 8 ds) with (value 8 (0 :: ds)) in *. change (48 :: map dig ds ++ 0 :: r) with (map dig (0 :: ds) ++ 0 :: r).
  apply (kstrtoull_vals 8 locase ltac:(lia) Hl _ _ r); [by apply fixup_oct|done|done|constructor; [lia|done]|done|done|cbn [length]; lia].
Qed.

Lemma hex_read_back ds r locase (dig := λ d, digit_ref d locase) : locase = 0 ∨ locase = 32 → Forall (λ d, 0 ≤ d < 16) ds → ds ≠ [] → value 16 ds < 2 ^ 64 →
  Z.of_nat (length ds + S (length r)) < 2 ^ 31 → kstrtoull (48 :: 88 + locase :: map dig ds ++ 0 :: r) 0 = Some (KOk (value 16 ds)).
Proof.
  intros Hl Hds Hne Hv Hlen. apply (kstrtoull_vals 16 locase ltac:(lia) Hl _ _ r); [|done|done|done|done|done|done]. apply fixup_hex; [|done|done|done].
  by destruct Hl as [-> | ->].
Qed.

Lemma dec_read_back d ds r locase (dig := λ d, digit_ref d locase) : locase = 0 ∨ locase = 32 → Forall (λ d, 0 ≤ d < 10) (d :: ds) → d ≠ 0 →
  value 10 (d :: ds) < 2 ^ 64 → Z.of_nat (S (length ds) + S (length r)) < 2 ^ 31 → kstrtoull (map dig (d :: ds) ++ 0 :: r) 0 = Some (KOk (value 10 (d :: ds))).
Proof.
  intros Hl Hds Hne Hv Hlen. pose proof (Forall_inv Hds) as Hd. cbn in Hd.
  apply (kstrtoull_vals 10 locase ltac:(lia) Hl _ _ r); [apply fixup_dec; [done|lia]| |done|done|done|done|done].
  cbn [map app]. change (rd (?x :: ?l) 0) with (Some x). destruct (digit_read d locase ltac:(lia) Hl) as (_ & _ & H43 & _). intros [= E]. rw /dig in E. by rewrite -> E in H43.
Qed.

(** ** The C standard

    C99, 7.19.6.1: a precision is given when it is not negative; precision 0 of the value 0 prints no digits; [#] puts 0x before a value that is not 0, and makes the
    first octal digit a 0; the flag 0 is ignored if there is a precision. *)

Definition c99_body (spec : printf_spec) (num : Z) : list Z :=
  let ds := if (ps_precision spec =? 0) && (num =? 0) then [] else digits_of (ps_base spec) (Z.land (ps_flags spec) SMALL) (abs_value spec num) in
  replicate (Z.to_nat (ps_precision spec) - length ds) 48 ++ ds.

Definition c99_prefix (spec : printf_spec) (num : Z) : list Z :=
  if flag SPECIAL spec then
    if ps_base spec =? 16 then if num =? 0 then [] else [48; 88 + Z.land (ps_flags spec) SMALL]
    else if ps_base spec =? 8 then if default 0 (head (c99_body spec num)) =? 48 then [] else [48] else []
  else [].

Definition c99_text (spec : printf_spec) (num : Z) : list Z :=
  let front := sign_text spec num ++ c99_prefix spec num in
  let fill c := replicate (Z.to_nat (ps_field_width spec - Z.of_nat (length front + length (c99_body spec num)))) c in
  if flag LEFT spec then front ++ c99_body spec num ++ fill 32
  else if flag ZEROPAD spec && (ps_precision spec <? 0) then front ++ fill 48 ++ c99_body spec num
  else fill 32 ++ front ++ c99_body spec num.

(** The cases in which number departs from it: 0x before the value 0; zeros as padding although there is a precision; a digit for precision 0 of 0, where [#] with
    octal does not ask for one; a further octal 0 where the precision puts one. *)
Definition c99_agrees (spec : printf_spec) (num : Z) : bool :=
  negb (flag SPECIAL spec && (ps_base spec =? 16) && (num =? 0)) &&
  negb (flag ZEROPAD spec && negb (flag LEFT spec) && (0 <=? ps_precision spec) && (0 <? free_width spec num)) &&
  negb ((ps_precision spec =? 0) && (num =? 0) && negb (flag SPECIAL spec && (ps_base spec =? 8))) &&
  negb (flag SPECIAL spec && (ps_base spec =? 8) && negb (num =? 0) &&
        (Z.of_nat (length (digits_of (ps_base spec) (Z.land (ps_flags spec) SMALL) (abs_value spec num))) <? ps_precision spec)).

(** [%#x] of 0, [%08.3d] of 5, [%.0d] of 0 and [%#.3o] of 8. *)
Example c99_departures :
  let conv flags base width prec :=
    {| ps_type := FORMAT_TYPE_INT; ps_flags := flags; ps_base := base; ps_qualifier := -1; ps_field_width := width; ps_precision := prec |} in
  let both spec num := (number num spec [], c99_text spec num) in
  both (conv (SPECIAL + SMALL) 16 (-1) (-1)) 0 = (Some (chars "0x0"), chars "0") ∧
  both (conv (SIGN + ZEROPAD) 10 8 3) 5 = (Some (chars "00000005"), chars "     005") ∧
  both (conv SIGN 10 (-1) 0) 0 = (Some (chars "0"), []) ∧
  both (conv SPECIAL 8 (-1) 3) 8 = (Some (chars "0010"), chars "010").
Proof. by vm_compute. Qed.

Section c99.
Context (num : Z) (spec : printf_spec) (Hnum : in_width 64 num) (Hbase : ps_base spec = 8 ∨ ps_base spec = 10 ∨ ps_base spec = 16).
Let digits := digits_of (ps_base spec) (Z.land (ps_flags spec) SMALL) (abs_value spec num).

(** The digits of a value that is not 0 do not start with 0. *)
Lemma digits_first : (num = 0 ∧ digits = [48]) ∨ (num ≠ 0 ∧ ∃ c l, digits = c :: l ∧ c ≠ 48).
Proof using Hnum Hbase.
  pose proof (abs_value_width num spec Hnum) as [Ha0 Ha]. pose proof (small_locase (ps_flags spec)) as Hl. rw /digits /digits_of.
  destruct (Z.eq_dec num 0) as [-> |Hnz]; [left|right]; (split; [done|]).
  - assert (abs_value spec 0 = 0) as -> by (rw /abs_value; by case_if). by rewrite -> digits_small by lia.
  - assert (abs_value spec num ≠ 0) as Hanz by (rw /abs_value; destruct (flag SIGN spec), (Z.ltb_spec (swrap 64 num) 0); cbn; lia).
    rewrite -> digits_vals, <- map_rev. destruct (vals_first 22 (ps_base spec) (abs_value spec num)) as (d & l & E & Hd); [lia| |].
    { split; [lia|]. eapply Z.lt_le_trans; [exact Ha|]. destruct Hbase as [-> | [-> | ->]]; by vm_compute. }
    rewrite -> E. cbn [map]. do 2 eexists. split; [done|]. pose proof (vals_bound 22 (ps_base spec) (abs_value spec num) ltac:(lia)) as Hds. apply Forall_rev in Hds.
    rewrite -> E in Hds. apply Forall_inv in Hds. destruct (digit_read d _ ltac:(lia) Hl) as (_ & _ & _ & H48 & _). ztest. lia.
Qed.
(** Characters that are not blanks. *)
Definition ink (l : list Z) : nat := length (filter (λ c, c ≠ 32) l).

Lemma ink_app a b : ink (a ++ b) = (ink a + ink b)%nat.
Proof using. rw /ink. by rewrite -> filter_app, length_app. Qed.
Lemma ink_full l : 32 ∉ l → ink l = length l.
Proof using. rw /ink. induction l as [|c l IH]; intros Hl; [done|]. rewrite -> filter_cons_True by (intros ->; apply Hl; left). cbn [length]. rewrite -> IH; [done|]. intros H. apply Hl. by right. Qed.
Lemma ink_zeros n : ink (replicate n 48) = n.
Proof using. rewrite -> ink_full, length_replicate; [done|]. by intros [? _]%elem_of_replicate. Qed.
Lemma ink_blanks n : ink (replicate n 32) = O.
Proof using. induction n as [|n IH]; [done|exact IH]. Qed.

Lemma digits_ink : 32 ∉ digits.
Proof using Hbase.
  rw /digits /digits_of. rewrite -> digits_vals, <- map_rev. intros (d & E & Hd)%list_elem_of_fmap. pose proof (small_locase (ps_flags spec)) as Hl.
  pose proof (vals_bound 22 (ps_base spec) (abs_value spec num) ltac:(lia)) as Hds. apply Forall_rev in Hds.
  rewrite -> Forall_forall in Hds. specialize (Hds d Hd). cbn in Hds. rw /digit_ref in E. revert E. case_if; lia.
Qed.

(** The number of zeros the precision asks for is 0, or they come first. *)
Lemma head_zeros n (l : list Z) : head (replicate n 48 ++ l) = if decide (n = O) then head l else Some 48.
Proof using. by destruct n. Qed.

(** Where prefix and digits differ, number has more of them. *)
Lemma c99_front : flag SPECIAL spec && (ps_base spec =? 16) && (num =? 0) = false →
  if ((ps_precision spec =? 0) && (num =? 0) && negb (flag SPECIAL spec && (ps_base spec =? 8))) ||
     (flag SPECIAL spec && (ps_base spec =? 8) && negb (num =? 0) && (Z.of_nat (length digits) <? ps_precision spec))
  then 0 ≤ ps_precision spec ∧ (length (c99_prefix spec num) + length (c99_body spec num) < length (prefix_text spec num) + length (body_text spec num))%nat
  else prefix_text spec num ++ body_text spec num = c99_prefix spec num ++ c99_body spec num ∧ (ps_precision spec < 0 → prefix_text spec num = c99_prefix spec num).
Proof using Hnum Hbase.
  intros Hhex. rw /prefix_text /c99_prefix /body_text /c99_body. fold digits. destruct digits_first as [[Hz Hd]|[Hz (c & l & Hd & Hc)]].
  - rewrite -> Hd. rewrite -> Hz in *. cbn [Z.eqb]. rewrite -> !andb_true_r, ?andb_false_r in *. cbn [negb] in *. rewrite -> ?andb_false_r. cbn [andb orb]. rewrite -> ?orb_false_r.
    destruct (Z.eqb_spec (ps_precision spec) 0) as [-> |Hp]; cbn [andb].
    + change (Z.to_nat 0) with O. destruct (flag SPECIAL spec); [|cbn; lia]. cbn [andb] in *. rewrite -> Hhex. destruct (ps_base spec =? 8); cbn; (split; [done|lia]).
    + assert (default 0 (head (replicate (Z.to_nat (ps_precision spec) - length [48]) 48 ++ [48])) = 48) as -> by (by destruct (_ - _)%nat).
      destruct (flag SPECIAL spec); [|done]. cbn [andb] in *. rewrite -> Hhex. by destruct (ps_base spec =? 8).
  - assert ((num =? 0) = false) as -> by (by apply Z.eqb_neq). rewrite -> !andb_false_r. cbn [negb orb]. rewrite -> !andb_true_r, Hd, head_zeros.
    destruct (flag SPECIAL spec); [|done]. cbn [andb]. destruct Hbase as [-> | [-> | ->]]; cbn [Z.eqb Pos.eqb andb]; [|done|done].
    destruct (Z.ltb_spec (Z.of_nat (length (c :: l))) (ps_precision spec)).
    + rewrite -> decide_False by lia. cbn. lia.
    + rewrite -> decide_True by lia. cbn. apply Z.eqb_neq in Hc. by rewrite -> Hc.
Qed.
Lemma number_ink : ink (number_text spec num) = (ink (sign_text spec num) + length (prefix_text spec num) + length (body_text spec num) +
  (if flag ZEROPAD spec && negb (flag LEFT spec) then Z.to_nat (free_width spec num) else 0))%nat.
Proof using Hnum Hbase.
  assert (ink (prefix_text spec num) = length (prefix_text spec num)) as Hp.
  { apply ink_full. rw /prefix_text. destruct (small_locase (ps_flags spec)) as [-> | ->]; repeat case_if; set_solver by lia. }
  assert (ink (body_text spec num) = length (body_text spec num)) as Hb.
  { rw /body_text. fold digits. rewrite -> ink_app, ink_zeros, ink_full, length_app, length_replicate by apply digits_ink. done. }
  rw /number_text. destruct (flag LEFT spec), (flag ZEROPAD spec); cbn [andb negb]; rewrite -> !ink_app, Hp, Hb, ?ink_zeros, ?ink_blanks; lia.
Qed.

Lemma c99_ink : 0 ≤ ps_precision spec → ink (c99_text spec num) = (ink (sign_text spec num) + length (c99_prefix spec num) + length (c99_body spec num))%nat.
Proof using Hnum Hbase.
  intros Hprec. assert (ink (c99_prefix spec num) = length (c99_prefix spec num)) as Hp.
  { apply ink_full. rw /c99_prefix. destruct (small_locase (ps_flags spec)) as [-> | ->]; repeat case_if; set_solver by lia. }
  assert (ink (c99_body spec num) = length (c99_body spec num)) as Hb.
  { rw /c99_body. fold digits. rewrite -> ink_app, ink_zeros, ink_full, length_app, length_replicate; [done|]. case_if; [set_solver|apply digits_ink]. }
  rw /c99_text. rewrite -> (proj2 (Z.ltb_ge (ps_precision spec) 0)), andb_false_r by done. destruct (flag LEFT spec); rewrite -> !ink_app, Hp, Hb, ?ink_blanks; lia.
Qed.

(** 0x before 0. *)
Lemma hex_zero_differs : flag SPECIAL spec && (ps_base spec =? 16) && (num =? 0) = true → number_text spec num ≠ c99_text spec num.
Proof using Hnum Hbase.
  intros [[Hs H16]%andb_true_iff H0]%andb_true_iff E. set (x := 88 + Z.land (ps_flags spec) SMALL).
  assert (x ≠ 48 ∧ x ≠ 32 ∧ x ≠ 45 ∧ x ≠ 43) as (H48 & H32 & H45 & H43) by (rw /x; destruct (small_locase (ps_flags spec)); lia).
  assert (x ∈ prefix_text spec num) as Hin by (rw /prefix_text; rewrite -> Hs, H16; set_solver).
  assert (x ∈ number_text spec num) as Hx by (rw /number_text; repeat case_if; rewrite -> !elem_of_app; tauto).
  assert (x ∉ sign_text spec num) as Hsign by (rw /sign_text; repeat case_if; rewrite -> ?list_elem_of_singleton, ?elem_of_nil; tauto).
  assert (∀ n c, x ≠ c → x ∉ replicate n c) as Hrep by (intros n c Hc [? _]%elem_of_replicate; done).
  assert (c99_prefix spec num = []) as Hpre by (rw /c99_prefix; by rewrite -> Hs, H16, H0).
  assert (x ∉ c99_body spec num) as Hbody.
  { rw /c99_body. fold digits. intros [Hr|Hr]%elem_of_app; [exact (Hrep _ 48 H48 Hr)|]. destruct digits_first as [[_ Hd]|[Hz _]]; [|zbool; lia]. rewrite -> Hd in Hr. revert Hr. case_if; set_solver. }
  rewrite -> E in Hx. revert Hx. rw /c99_text. rewrite -> Hpre. repeat case_if; rewrite -> !elem_of_app, ?elem_of_nil; pose proof (Hrep (Z.to_nat (ps_field_width spec - Z.of_nat (length (sign_text spec num ++ []) + length (c99_body spec num))))); intuition eauto.
Qed.

(** The same prefix and digits make the same text, unless there are zeros that the standard does not ask for. *)
Lemma c99_same_front : prefix_text spec num ++ body_text spec num = c99_prefix spec num ++ c99_body spec num →
  (ps_precision spec < 0 → prefix_text spec num = c99_prefix spec num) →
  flag ZEROPAD spec && negb (flag LEFT spec) && (0 <=? ps_precision spec) && (0 <? free_width spec num) = false → number_text spec num = c99_text spec num.
Proof using Hnum Hbase.
  intros Hf Hp Hz. rw /number_text /c99_text.
  assert (ps_field_width spec - Z.of_nat (length (sign_text spec num ++ c99_prefix spec num) + length (c99_body spec num)) = free_width spec num) as ->.
  { apply (f_equal length) in Hf. rewrite -> !length_app in *. rw /free_width. lia. }
  rewrite <- !app_assoc. destruct (flag LEFT spec); [rewrite -> !(app_assoc (prefix_text _ _)), !(app_assoc (c99_prefix _ _)); by rewrite -> Hf|].
  destruct (flag ZEROPAD spec); cbn [andb negb] in *; [|by rewrite -> Hf]. destruct (Z.ltb_spec (ps_precision spec) 0).
  - rewrite -> Hp in * by done. apply app_inv_head in Hf. by rewrite -> Hf.
  - rewrite -> (proj2 (Z.leb_le 0 (ps_precision spec))) in Hz by done. apply Z.ltb_ge in Hz. replace (Z.to_nat (free_width spec num)) with O by lia. cbn. by rewrite -> Hf.
Qed.

Lemma c99_exact : number_text spec num = c99_text spec num ↔ c99_agrees spec num = true.
Proof using Hnum Hbase.
  rw /c99_agrees. fold digits. destruct (flag SPECIAL spec && (ps_base spec =? 16) && (num =? 0)) eqn:Hhex.
  { cbn. split; [|done]. by intros ?%hex_zero_differs. }
  pose proof (c99_front Hhex) as Hf. cbn [negb andb]. set (pad := _ && (0 <? _)). set (d3 := _ && negb (_ && _)) in *. set (d4 := _ && (Z.of_nat _ <? _)) in *.
  destruct (d3 || d4) eqn:Hd.
  - destruct Hf as [Hp Hlt]. split; intros E.
    + apply (f_equal ink) in E. rewrite -> number_ink, c99_ink in E by done. lia.
    + apply orb_true_iff in Hd. destruct d3, d4, pad; naive_solver.
  - apply orb_false_iff in Hd as [-> ->]. destruct Hf as [Hf Hp]. rewrite -> !andb_true_r. destruct pad eqn:Hpad; [|split; [done|by intros; apply c99_same_front]].
    split; [|done]. intros E. apply andb_true_iff in Hpad as [[Hz Hprec]%andb_true_iff Hw]. apply Z.leb_le in Hprec. apply Z.ltb_lt in Hw. apply (f_equal ink) in E. rewrite -> number_ink, c99_ink, Hz in E by done.
    apply (f_equal length) in Hf. rewrite -> !length_app in Hf. lia.
Qed.
End c99.

(** ** Claims *)

(** C33: number prints the sign, the prefix of the alternative form, at least as many digits as the precision and the padding that the flags ask for, blanks or
    zeros, at least as many characters as the width ([number_text]).  It does so in every base that the interpreter uses, for all flags, as long as the width that
    is left does not get out of the range of its 16 bits.  The digits denote the absolute value.  This is the text of the C99 standard, which the comment at
    vsnprintf refers to, unless one of four conditions holds, and then it is not: [#] with base 16 of the value 0; padding with zeros although a precision is given;
    precision 0 of the value 0 (but not with [#] and base 8); [#] with base 8 of another value whose digits are fewer than the precision. *)
Theorem number_exact num spec t
    (Hnum : in_width 64 num) (Hbase : ps_base spec = 8 ∨ ps_base spec = 10 ∨ ps_base spec = 16)
    (Hwidth : -32768 ≤ ps_field_width spec ≤ 32767) (Hprec : -32768 ≤ ps_precision spec ≤ 32767) (Hfree : -32765 ≤ free_width spec num) :
  number num spec t = Some (t ++ number_text spec num) ∧
  Z.of_nat (length (number_text spec num)) =
    Z.max (ps_field_width spec) (Z.of_nat (length (sign_text spec num) + length (prefix_text spec num) + length (body_text spec num))) ∧
  (number_text spec num = c99_text spec num ↔ c99_agrees spec num = true) ∧
  value (ps_base spec) (digit_prefix (body_text spec num ++ [0]) (ps_base spec)) = abs_value spec num.
Proof.
  split_and!; [by apply number_ok| |by apply c99_exact|].
  - rw /number_text. destruct (flag LEFT spec), (flag ZEROPAD spec); rewrite -> !length_app, length_replicate; rw /free_width; lia.
  - rw /body_text /digits_of. rewrite -> digits_vals, <- map_rev. set (loc := Z.land _ SMALL). set (vs := vals_rev _ _ _). set (z := (_ - _)%nat).
    replace (replicate z 48) with (map (λ d, digit_ref d loc) (replicate z 0)) by (induction z; cbn; [done|by f_equal]).
    rewrite <- map_app. rewrite -> digit_prefix_vals; [|lia|apply small_locase|].
    + rewrite -> value_app. replace (value _ (replicate z 0)) with 0; [|clear; induction z; cbn; [done|exact IHz]].
      apply vals_ok; [done|by apply abs_value_width].
    + apply Forall_app. split; [apply Forall_replicate; lia|]. apply Forall_rev, vals_bound. lia.
Qed.

(** [%#08X] of 255, which is as in the standard, and [%08.3d] of 5, which is not. *)
Lemma number_exact_witness :
  let spec := {| ps_type := FORMAT_TYPE_UINT; ps_flags := SPECIAL + ZEROPAD; ps_base := 16; ps_qualifier := -1; ps_field_width := 8; ps_precision := -1 |} in
  let spec' := {| ps_type := FORMAT_TYPE_INT; ps_flags := SIGN + ZEROPAD; ps_base := 10; ps_qualifier := -1; ps_field_width := 8; ps_precision := 3 |} in
  (number 255 spec [] = Some ([] ++ number_text spec 255) ∧ number_text spec 255 = chars "0X0000FF" ∧ number_text spec 255 = c99_text spec 255) ∧
  (number 5 spec' [] = Some ([] ++ number_text spec' 5) ∧ number_text spec' 5 = chars "00000005" ∧ number_text spec' 5 ≠ c99_text spec' 5).
Proof.
  cbn zeta.
  split.
  - match goal with |- number _ ?s _ = _ ∧ _ => destruct (number_exact 255 s []) as (H & _ & C & _); [split; by vm_compute|cbn; lia|cbn; lia|cbn; lia|by vm_compute|] end.
    split; [exact H|]. split; [by vm_compute|]. apply C. by vm_compute.
  - match goal with |- number _ ?s _ = _ ∧ _ => destruct (number_exact 5 s []) as (H & _ & C & _); [split; by vm_compute|cbn; lia|cbn; lia|cbn; lia|by vm_compute|] end.
    split; [exact H|]. split; [by vm_compute|]. rewrite -> C. by vm_compute.
Defined.

(** What a conversion with [#] prints, kstrtoull reads back with the base it finds itself: octal, decimal and hexadecimal with digits of either case. *)
Theorem number_roundtrip base small num r
    (Hbase : base = 8 ∨ base = 10 ∨ base = 16) (Hnum : in_width 64 num) (Hr : Z.of_nat (length r) < 2 ^ 30) :
  ∃ t, number num {| ps_type := FORMAT_TYPE_LONG_LONG; ps_flags := SPECIAL + (if small : bool then SMALL else 0); ps_base := base; ps_qualifier := ch "L";
                     ps_field_width := -1; ps_precision := -1 |} [] = Some t ∧
    kstrtoull (t ++ 0 :: r) 0 = Some (KOk num).
Proof.
  set (spec := {| ps_type := _ |}). set (loc := if small then 32 else 0). assert (loc = 0 ∨ loc = 32) as Hl by (rw /loc; destruct small; auto).
  destruct (vals_ok base num Hbase Hnum) as (Hds & Hne & Hv & Hlen). set (ds := rev _) in *.
  assert (number num spec [] = Some (prefix_text spec num ++ map (λ d, digit_ref d loc) ds)) as ->.
  { assert (body_text spec num = map (λ d, digit_ref d loc) ds) as Hbody.
    { rw /body_text /digits_of /abs_value. rewrite -> digits_vals, <- map_rev. rw /loc. by destruct small. }
    assert (length (prefix_text spec num) ≤ 2)%nat by (rw /prefix_text; repeat case_if; cbn; lia).
    assert (free_width spec num < 0) as Hfw by (rw /free_width; cbn [ps_field_width spec]; lia).
    rewrite -> number_ok; cbn [ps_base ps_field_width ps_precision spec]; [|done|done|lia|lia|].
    - rw /number_text. rewrite -> Hbody. replace (Z.to_nat (free_width spec num)) with O by lia. by destruct small.
    - rw /free_width. rewrite -> Hbody, length_map. cbn [ps_field_width spec]. replace (sign_text spec num) with (@nil Z) by (by destruct small). cbn [length]. lia. }
  eexists. split; [done|]. rewrite <- app_assoc. destruct Hnum as [H0 H64].
  assert (flag SPECIAL spec = true) as Hsp by (by destruct small). rw /prefix_text. rewrite -> Hsp. cbn [ps_base spec].
  assert (num = 0 → ds = [0]) as Hzero by (intros ->; rw /ds; by rewrite -> vals_small by lia).
  assert (Z.of_nat (length ds + S (S (length r))) < 2 ^ 31) as Hbig by (change (2 ^ 31) with (2 * 2 ^ 30); lia). rewrite <- Hv in H64.
  destruct (Z.eqb_spec num 0) as [->|Hnz]; [specialize (Hzero eq_refl)|]; destruct Hbase as [-> | [-> | ->]]; cbn [Z.eqb Pos.eqb negb andb app].
  - rewrite -> Hzero. apply (oct_read_back [] r loc Hl); [done|done|cbn [length]; lia].
  - rewrite -> Hzero. apply (oct_read_back [] r loc Hl); [done|done|cbn [length]; lia].
  - replace (Z.land (ps_flags spec) SMALL) with loc by (by destruct small). rewrite <- Hv. apply hex_read_back; [done..|lia].
  - rewrite <- Hv. by apply oct_read_back.
  - destruct (vals_first 22 10 num) as (d & l & E & Hd); [lia| |].
    { split; [lia|]. rewrite -> Hv in H64. eapply Z.lt_le_trans; [exact H64|]. by vm_compute. }
    fold ds in E. rewrite -> E in *. rewrite <- Hv. apply dec_read_back; [done..|cbn [length] in *; lia].
  - replace (Z.land (ps_flags spec) SMALL) with loc by (by destruct small). rewrite <- Hv. apply hex_read_back; [done..|lia].
Qed.

Lemma number_roundtrip_witness :
  ∃ t, number 48879 {| ps_type := FORMAT_TYPE_LONG_LONG; ps_flags := SPECIAL + SMALL; ps_base := 16; ps_qualifier := ch "L"; ps_field_width := -1; ps_precision := -1 |} [] =
    Some t ∧ kstrtoull (t ++ [0]) 0 = Some (KOk 48879).
Proof. apply (number_roundtrip 16 true 48879 []); [lia|split; by vm_compute|cbn; lia]. Defined.

(** ** The loops of a conversion end *)

Definition in_s16 (x : Z) : Prop := -32768 ≤ x ≤ 32767.

Lemma in_s16_swrap x : in_s16 (swrap 16 x).
Proof. rw /in_s16 /swrap. change (16 - 1) with 15. zdm. Qed.

(** A counter that goes down while it is not negative; -32768 wraps around once. *)
Lemma count_down {R} (body : Z * list Z → option (ctl (Z * list Z) R)) fw (t : list Z) :
  (∀ fw t, in_s16 fw → (∃ r, body (fw, t) = Some (Stop r)) ∨ (∃ t', body (fw, t) = Some (Next (swrap 16 (fw - 1), t')) ∧ 0 ≤ swrap 16 (fw - 1))) →
  in_s16 fw → is_Some (loop s16_rounds body (fw, t)).
Proof.
  intros Hb Hfw. set (μ := λ s : Z * list Z, if s.1 =? -32768 then Z.to_nat 40000 else Z.to_nat s.1).
  destruct (loop_inv (λ s, in_s16 s.1) μ (λ _, True) body s16_rounds (fw, t)) as (r & E & _); [|done| |by eexists].
  - intros [f u] Hf. destruct (Hb f u Hf) as [[r ->]|(u' & -> & Hpos)]; [right; by exists r|left]. eexists. split; [done|]. split; [apply in_s16_swrap|].
    rw /μ. cbn [fst]. rw /in_s16 in Hf. cbn [fst] in Hf. destruct (Z.eqb_spec f (-32768)) as [-> |Hne]; [change (swrap 16 _) with 32767; cbn [Z.eqb]; lia|].
    rewrite -> swrap_small in Hpos |- * by (cbn; lia). ztest. lia.
  - rw /μ /s16_rounds. cbn. rw /in_s16 in Hfw. case_if; lia.
Qed.

Lemma pad_width_total c fw t : in_s16 fw → is_Some (pad_width c fw t).
Proof. apply (count_down _ fw t). intros f u _. cbn. destruct (Z.ltb_spec (swrap 16 (f - 1)) 0); [left; by eexists|right; by eexists]. Qed.
Lemma pad_char_total fw t : in_s16 fw → is_Some (pad_char fw t).
Proof. apply (count_down _ fw t). intros f u _. cbn. destruct (Z.ltb_spec 0 (swrap 16 (f - 1))); [right; eexists; split; [done|lia]|left; by eexists]. Qed.
Lemma pad_precision_total i p t : 0 ≤ i → in_s16 p → is_Some (pad_precision i p t).
Proof. intros Hi. apply (count_down _ p t). intros f u _. cbn. destruct (Z.ltb_spec (swrap 16 (f - 1)) i); [left; by eexists|right; eexists; split; [done|lia]]. Qed.
Lemma pad_string_total len fw t : 0 ≤ len → in_s16 fw → is_Some (pad_string len fw t).
Proof.
  intros Hl. apply (count_down _ fw t). intros f u Hf. cbn. destruct (Z.ltb_spec len f); [right; eexists; split; [done|]|left; by eexists].
  rw /in_s16 in Hf. rewrite -> swrap_small by (cbn; lia). lia.
Qed.

(** The counter after the padding is one of them, too. *)
Lemma pad_width_s16 c fw t fw' t' : pad_width c fw t = Some (fw', t') → in_s16 fw'.
Proof.
  intros H. destruct (loop_last (λ _, True) _ _ _ _ I (λ _ _ _ _, I) H) as ([f u] & _ & E). cbn in E. revert E. case_if; [|done]. intros [= <- <-]. apply in_s16_swrap.
Qed.
Lemma pad_string_s16 len fw t fw' t' : pad_string len fw t = Some (fw', t') → in_s16 fw'.
Proof.
  intros H. destruct (loop_last (λ _, True) _ _ _ _ I (λ _ _ _ _, I) H) as ([f u] & _ & E). cbn in E. revert E. case_if; [|done]. intros [= <- <-]. apply in_s16_swrap.
Qed.
Lemma pad_char_s16 fw t fw' t' : pad_char fw t = Some (fw', t') → in_s16 fw'.
Proof.
  intros H. destruct (loop_last (λ _, True) _ _ _ _ I (λ _ _ _ _, I) H) as ([f u] & _ & E). cbn in E. revert E. case_if; [|done]. intros [= <- <-]. apply in_s16_swrap.
Qed.

(** ** Conversions return *)

Lemma number_sign_ok spec num c n fw : in_width 64 num → in_s16 (ps_field_width spec) → number_sign spec num = (c, n, fw) → in_width 64 n ∧ in_s16 fw.
Proof. intros Hn Hw. rw /number_sign. repeat case_if; intros [= <- <- <-]; auto using in_width_wrap, in_s16_swrap with lia. Qed.

Lemma number_total num spec t : in_width 64 num → ps_base spec = 8 ∨ ps_base spec = 10 ∨ ps_base spec = 16 → in_s16 (ps_field_width spec) → in_s16 (ps_precision spec) →
  is_Some (number num spec t).
Proof.
  intros Hn Hb Hw Hp. rw /number. cbn zeta. set (spec' := if flag LEFT spec then _ else spec).
  assert (ps_base spec' = ps_base spec ∧ ps_field_width spec' = ps_field_width spec ∧ ps_precision spec' = ps_precision spec) as (Eb & Ew & Ep) by (rw /spec'; by case_if).
  rewrite <- Eb in Hb. rewrite <- Ew in Hw. rewrite <- Ep in Hp. clearbody spec'. destruct (number_sign spec' num) as [[c n] fw] eqn:Es.
  destruct (number_sign_ok _ _ _ _ _ Hn Hw Es) as [Hn' Hfw]. set (fw' := if flag SPECIAL spec && _ then _ else _).
  rewrite -> (number_digits_ref _ _ n Hb (small_locase _) Hn'). cbn [mbind option_bind].
  pose proof (digits_rev_length 22 (ps_base spec') (Z.land (ps_flags spec) SMALL) n) as Hlen. set (tmp := digits_rev _ _ _ _) in *.
  rewrite -> (proj2 (Z.ltb_ge 66 _)) by lia. set (prec := if _ <? _ then _ else _). assert (in_s16 prec) as Hprec by (rw /prec; rw /in_s16 in Hp |- *; case_if; lia).
  pose proof (in_s16_swrap (fw' - prec)) as Hf. set (fw1 := swrap 16 (fw' - prec)) in *. clearbody fw1.
  assert (∀ b c f (u : list Z), in_s16 f → ∃ f' u', (if b : bool then pad_width c f u else Some (f, u)) = Some (f', u') ∧ in_s16 f') as Hpad.
  { intros [] c' f u Hf'; [|by exists f, u]. destruct (pad_width_total c' f u Hf') as [[f' u'] E]. exists f', u'. split; [done|]. by eapply pad_width_s16. }
  destruct (Hpad (negb (flag (ZEROPAD + LEFT) spec')) (ch " ") fw1 t Hf) as (f2 & t2 & -> & Hf2). cbn [mbind option_bind]. rewrite -> put_opt_text. cbn [mbind option_bind].
  set (pfx := if flag SPECIAL spec && _ then _ else _). assert (∃ t3, pfx = Some t3) as [t3 ->] by (rw /pfx; repeat case_if; by eexists). cbn [mbind option_bind].
  destruct (Hpad (negb (flag LEFT spec')) (if flag ZEROPAD spec' then ch "0" else ch " ") f2 t3 Hf2) as (f4 & t4 & -> & Hf4). cbn [mbind option_bind].
  destruct (pad_precision_total (Z.of_nat (length tmp)) prec t4 ltac:(lia) Hprec) as [t5 ->]. cbn [mbind option_bind]. rewrite -> put_all_text. cbn [mbind option_bind].
  destruct (pad_width_total (ch " ") f4 (t5 ++ rev tmp) Hf4) as [[f6 t6] ->]. by eexists.
Qed.

Lemma strnlen_nonneg s k n : strnlen s k = Some n → 0 ≤ n.
Proof. revert k n. induction s as [|c s IH]; intros k n; cbn; repeat case_if; try done; try (intros [= <-]; lia). destruct (strnlen s (k - 1)) as [m|] eqn:E; [|done]. intros [= <-]. specialize (IH _ _ E). lia. Qed.

(** A string is printed if its end, or as many characters as the precision says, can be read. *)
Lemma string_total s spec t : in_s16 (ps_field_width spec) → is_Some (strnlen (if s.1 <? 4096 then cstr "(null)" else s.2) (wrap 64 (ps_precision spec))) → is_Some (string_out s spec t).
Proof.
  intros Hw [len E]. rw /string_out. cbn zeta. rewrite -> E. cbn [mbind option_bind]. apply strnlen_nonneg in E as Hlen.
  assert (∃ f u, (if negb (flag LEFT spec) then pad_string len (ps_field_width spec) t else Some (ps_field_width spec, t)) = Some (f, u) ∧ in_s16 f) as (f & u & -> & Hf).
  { destruct (negb _); [|by eexists _, _]. destruct (pad_string_total len (ps_field_width spec) t Hlen Hw) as [[f u] Ep]. exists f, u. split; [done|]. by eapply pad_string_s16. }
  cbn [mbind option_bind]. rewrite -> put_all_text. cbn [mbind option_bind]. by destruct (pad_string_total len f (u ++ take (Z.to_nat len) (if s.1 <? 4096 then cstr "(null)" else s.2)) Hlen Hf) as [[f' u'] ->].
Qed.

(** ** The contract of vsnprintf *)

(** The texts that the formats of the example below print, at any depth of nesting. *)
Lemma nested_short : short_texts nested_formats plain_env.
Proof.
  assert (∀ depth fmt args t t0, text_of (nest nested_formats depth plain_env) fmt args = Some t → text_of (nest nested_formats 2 plain_env) fmt args = Some t0 → t = t0) as Hone.
  { intros depth fmt args t t0 Ht Ht0. apply (text_deeper _ _ _ (depth + 2)) in Ht; [|lia]. apply (text_deeper _ _ _ (depth + 2)) in Ht0; [|lia]. congruence. }
  intros depth ptr fmt args t. rw /nested_formats. case_if; [|case_if; [|done]]; intros [= <- <-] Ht.
  - rewrite -> (Hone _ _ _ _ (chars "abc-7") Ht); [cbn; lia|by vm_compute].
  - rewrite -> (Hone _ _ _ _ (chars "[abc-7]") Ht); [cbn; lia|by vm_compute].
Qed.

(** C31: vsnprintf ends: the loop of the interpreter leaves after finitely many rounds, with its result or with a fault of a conversion, for the buffer as for the text
    alone, and the loops inside a conversion always return: numbers of 64 bits in the three bases with all widths and precisions of 16 bits, strings whose end or
    as many characters as the precision can be read, and characters.  It produces a text that depends on the format and the arguments only, which nested formats
    ([%pV], at most [depth] in each other) are part of; more depth does not change it.  vsnprintf returns the length of that text whatever the buffer, writes at
    most [size] bytes, leaves the bytes behind them alone and ends the text, cut if it does not fit, with a zero byte; it faults exactly if the interpreter of the
    text does.  vscnprintf returns the number of characters that are in the buffer.  The texts of nested formats, whose lengths are [int]s, are shorter than 2^31 - 1. *)
Theorem vsnprintf_bounded env objs depth addr buf size fmt args
    (Hshort : short_texts objs env) (Hsize : 0 ≤ size ≤ Z.of_nat (length buf)) (Hint : size < 2 ^ 31) (Haddr : addr + size < 2 ^ 64) :
  let env' := nest objs depth env in
  let va := {| va_args := args; va_stores := [] |} in
  let o := {| ob_buf := buf; ob_str := 0; ob_end := size |} in
  runs (printf_step env') (fmt, zero_spec, va, []) (format env' fmt va []) ∧
  runs (printf_step env') (fmt, zero_spec, va, o) (format env' fmt va o) ∧
  (∀ num spec t, in_width 64 num → ps_base spec = 8 ∨ ps_base spec = 10 ∨ ps_base spec = 16 → in_s16 (ps_field_width spec) → in_s16 (ps_precision spec) →
     is_Some (number num spec t)) ∧
  (∀ s spec t, in_s16 (ps_field_width spec) → is_Some (strnlen (if s.1 <? 4096 then cstr "(null)" else s.2) (wrap 64 (ps_precision spec))) →
     is_Some (string_out s spec t)) ∧
  (∀ fw t, in_s16 fw → is_Some (pad_char fw t)) ∧
  match text_of env' fmt args with
  | None => vsnprintf env' addr buf size fmt va = None
  | Some t => (∀ depth', (depth ≤ depth')%nat → text_of (nest objs depth' env) fmt args = Some t) ∧ ∃ rest buf',
      vsnprintf env' addr buf size fmt va = Some (rest, buf', swrap 32 (Z.of_nat (length t))) ∧
      length buf' = length buf ∧ drop (Z.to_nat size) buf' = drop (Z.to_nat size) buf ∧
      (0 < size → take (S (Nat.min (length t) (Z.to_nat size - 1))) buf' = take (Z.to_nat size - 1) t ++ [0]) ∧
      (Z.of_nat (length t) < 2 ^ 31 →
       vscnprintf env' addr buf size fmt va = Some (rest, buf', if size =? 0 then 0 else Z.min (Z.of_nat (length t)) (size - 1)))
  end.
Proof.
  cbn zeta. pose proof (nest_ok objs env depth Hshort) as Hok.
  split_and!; [apply format_runs|apply format_runs|apply number_total|apply string_total|apply pad_char_total|].
  pose proof (vsnprintf_render (nest objs depth env) addr buf size fmt args Hsize Hint Haddr) as Hr.
  destruct (text_of (nest objs depth env) fmt args) as [t|] eqn:Et; [split; [intros depth' Hd; by apply (text_deeper objs env depth)|]|]; rw /vscnprintf;
    destruct (vsnprintf _ _ _ _ _ _) as [[[rest buf'] n]|]; try done. cbn [orel] in Hr. destruct (render_parts t buf size buf' n Hsize Hr) as (-> & Hl & Hd & Ht).
  exists rest, buf'. split_and!; [done|done|done|done|]. intros Hlt. cbn [mbind option_bind]. do 2 f_equal. rewrite -> (swrap_small 32 (Z.of_nat (length t))) by (cbn; lia).
  rewrite -> wrap_small by (rw /in_width; lia). destruct (Z.ltb_spec (Z.of_nat (length t)) size); [by ztest; lia|]. destruct (Z.eqb_spec size 0); [done|]. cbn [negb].
  rewrite -> swrap_small by (cbn; lia). lia.
Qed.

(** A format with another one in it, which has a third one in it: a text of 9 characters in a buffer of 6. *)
Lemma vsnprintf_bounded_witness :
  let env := nest nested_formats 2 plain_env in
  ∃ rest buf', vsnprintf env 0 (replicate 12 7) 6 (cstr "<%pV>") {| va_args := [VLong 0x50000]; va_stores := [] |} = Some (rest, buf', 9) ∧
    take 6 buf' = chars "<[abc" ++ [0] ∧
    vscnprintf env 0 (replicate 12 7) 6 (cstr "<%pV>") {| va_args := [VLong 0x50000]; va_stores := [] |} = Some (rest, buf', 5).
Proof.
  cbn zeta.
  destruct (vsnprintf_bounded plain_env nested_formats 2 0 (replicate 12 7) 6 (cstr "<%pV>") [VLong 0x50000] nested_short ltac:(cbn; lia) ltac:(lia) ltac:(lia))
    as (_ & _ & _ & _ & _ & H).
  assert (text_of (nest nested_formats 2 plain_env) (cstr "<%pV>") [VLong 0x50000] = Some (chars "<[abc-7]>")) as E by (vm_compute; reflexivity). rewrite -> E in H.
  destruct H as (_ & rest & buf' & H1 & _ & _ & H2 & H3). exists rest, buf'. split; [exact H1|]. split; [exact (H2 ltac:(lia))|]. exact (H3 ltac:(cbn; lia)).
Defined.
