(* ===== verification/VsprintfBinary.v ===== *)
(** * Formatted output: arguments as binary data

    vbin_printf stores the arguments of a format in a buffer, bstr_printf prints them later.  The two together print what vsnprintf prints:
    the three loops run in step, and whatever vbin_printf has stored is never overwritten ([vbin_step_grows]) and is what bstr_printf reads
    ([get_saved], [str_saved]). *)
From Stdlib Require Import Ascii String.
From S2P Require Import Prelude Ctype NumPrint StringLib Vsprintf VsprintfText.
#[local] Open Scope Z_scope.

(** ** Bytes *)

Lemma le_bytes_length n v : length (le_bytes n v) = n.
Proof. revert v. induction n as [|n IH]; intros v; cbn; [done|]. by rewrite -> IH. Qed.

Lemma le_value_bytes n v : le_value (le_bytes n v) = wrap (8 * Z.of_nat n) v.
Proof.
  revert v. induction n as [|n IH]; intros v; [cbn; rw /wrap; by rewrite -> Z.mod_1_r|]. cbn [le_bytes le_value]. rewrite -> IH, Z.shiftr_div_pow2 by lia. rw /wrap.
  replace (8 * Z.of_nat (S n)) with (8 + 8 * Z.of_nat n) by lia. rewrite -> Z.pow_add_r by lia. change (2 ^ 8) with 256.
  rewrite -> (Z.rem_mul_r v 256) by lia. done.
Qed.

Lemma align_ge p a : a = 1 ∨ a = 2 ∨ a = 4 → 0 ≤ p → p ≤ PTR_ALIGN p a.
Proof.
  intros Ha Hp. rw /PTR_ALIGN. assert (∃ k, a = 2 ^ k ∧ 0 ≤ k ≤ 2) as (k & -> & Hk).
  { destruct Ha as [-> | [-> | ->]]; [exists 0|exists 1|exists 2]; done. }
  replace (2 ^ k - 1) with (Z.ones k) by (rewrite -> Z.ones_equiv; lia). rewrite <- Z.ldiff_land, -> Z.ldiff_ones_r, Z.shiftl_mul_pow2, Z.shiftr_div_pow2 by lia.
  rewrite -> Z.ones_equiv. pose proof (pow2_pos k ltac:(lia)). pose proof (Z.div_mod (p + Z.pred (2 ^ k)) (2 ^ k) ltac:(lia)).
  pose proof (Z.mod_pos_bound (p + Z.pred (2 ^ k)) (2 ^ k) ltac:(lia)). lia.
Qed.

Lemma arg_align_cases n : n = 1 ∨ n = 2 ∨ n = 4 ∨ n = 8 → arg_align n = 1 ∨ arg_align n = 2 ∨ arg_align n = 4.
Proof. intros [-> | [-> | [-> | ->]]]; cbn; auto. Qed.

(** ** What is stored stays *)

(** The buffer [F] has what is before [str] in [bin]. *)
Definition keeps (F bin : list Z) (str : Z) : Prop := length F = length bin ∧ take (Z.to_nat str) F = take (Z.to_nat str) bin.

Lemma keeps_trans F bin bin' str str' : keeps F bin' str' → keeps bin' bin str → str ≤ str' → keeps F bin str.
Proof.
  intros [Hl Ht] [Hl' Ht'] Hs. split; [congruence|]. rewrite <- Ht'. rewrite <- (Nat.min_l (Z.to_nat str) (Z.to_nat str')), <- !take_take by lia. by rewrite -> Ht.
Qed.

Lemma keeps_range F bin str p n : keeps F bin str → 0 ≤ p → 0 ≤ n → p + n ≤ str → rd_range F p n = rd_range bin p n.
Proof.
  intros [Hl Ht] Hp Hn Hs. rw /rd_range. rewrite -> Hl. case_if; [|done]. f_equal. rewrite -> !take_drop_commute. f_equal.
  rewrite <- (Nat.min_l (Z.to_nat p + Z.to_nat n) (Z.to_nat str)), <- !take_take by lia. by rewrite -> Ht.
Qed.

Lemma wr_range_keeps l off bs l' : wr_range l off bs = Some l' → keeps l' l off.
Proof.
  intros (H0 & H1 & ->)%wr_range_Some. split; [rewrite -> !length_app, length_take, length_drop; lia|].
  rewrite -> take_app_le, take_take by (rewrite -> length_take; lia). f_equal. lia.
Qed.

Lemma rd_wr_range l off bs l' : wr_range l off bs = Some l' → rd_range l' off (Z.of_nat (length bs)) = Some bs.
Proof.
  intros Hw. destruct (wr_range_keeps _ _ _ _ Hw) as [Hl _]. apply wr_range_Some in Hw as (H0 & H1 & E). rw /rd_range. ztest. cbn [andb]. ztest. f_equal. rewrite -> E.
  rewrite -> drop_app_length' by (rewrite -> length_take; lia). by rewrite -> Nat2Z.id, take_app_length.
Qed.

Lemma rd_range_drop l off n bs : rd_range l off n = Some bs → ∃ r, drop (Z.to_nat off) l = bs ++ r.
Proof. rw /rd_range. case_if; [|done]. intros [= <-]. exists (drop (Z.to_nat n) (drop (Z.to_nat off) l)). by rewrite -> take_drop. Qed.

Lemma keeps_refl bin str : keeps bin bin str.
Proof. done. Qed.
#[local] Hint Resolve keeps_refl : core.

Notation arg_size n := (n = 1 ∨ n = 2 ∨ n = 4 ∨ n = 8).

Lemma save_arg_grows n end_ v bin str bin' str' : save_arg n end_ v bin str = Some (bin', str') → arg_size n → 0 ≤ str → keeps bin' bin str ∧ str ≤ str'.
Proof.
  rw /save_arg. cbn zeta. intros Hs Hn H0. pose proof (align_ge str _ (arg_align_cases n Hn) H0) as Ha. set (p := PTR_ALIGN str (arg_align n)) in *.
  destruct (if p + n <=? end_ then _ else _) as [b|] eqn:Ew; [|done]. injection Hs as <- <-. split; [|destruct Hn as [-> | [-> | [-> | ->]]]; lia]. destruct (p + n <=? end_); [|by injection Ew as <-].
  apply wr_range_keeps in Ew. eapply keeps_trans; [exact Ew|done|done].
Qed.

(** Storing an argument and reading it in the final buffer. *)
Lemma get_saved n end_ v bin str bin' str' F : save_arg n end_ v bin str = Some (bin', str') → arg_size n → 0 ≤ str → str' ≤ end_ → keeps F bin' str' →
  get_arg n {| ba_buf := F; ba_pos := str |} = Some (wrap (8 * n) v, {| ba_buf := F; ba_pos := str' |}).
Proof.
  rw /save_arg /get_arg. cbn [ba_buf ba_pos]. cbn zeta. intros Hs Hn H0 He HF. pose proof (align_ge str _ (arg_align_cases n Hn) H0) as Ha.
  set (p := PTR_ALIGN str (arg_align n)) in *. destruct (if p + n <=? end_ then _ else _) as [b|] eqn:Ew; [|done]. injection Hs as <- <-.
  rewrite -> (proj2 (Z.leb_le (p + n) end_)) in Ew by lia. apply rd_wr_range in Ew. rewrite -> le_bytes_length, Z2Nat.id in Ew by lia.
  rw /read_le. rewrite -> (keeps_range F b (p + n) p n HF), Ew by lia. cbn. rewrite -> le_value_bytes. do 3 f_equal. lia.
Qed.

(** ** Strings *)

(** Objects with the same string print alike. *)
Lemma string_same `{Sink Out} s r r' p p' spec (o : Out) : Forall (λ c, c ≠ 0) s → 4096 ≤ p → 4096 ≤ p' →
  string_out (p, s ++ 0 :: r) spec o = string_out (p', s ++ 0 :: r') spec o.
Proof.
  intros Hs Hp Hp'. rw /string_out. cbn [fst snd]. rewrite -> (proj2 (Z.ltb_ge p 4096)), (proj2 (Z.ltb_ge p' 4096)) by done. cbn zeta.
  pose proof (in_width_wrap 64 (ps_precision spec) ltac:(lia)) as [Hw _]. rewrite -> !strnlen_text by done. cbn [mbind option_bind].
  by rewrite -> !take_app_le by lia.
Qed.

Lemma string_null `{Sink Out} p obj spec (o : Out) : p < 4096 → string_out (p, obj) spec o = string_out (4096, cstr "(null)") spec o.
Proof. intros Hp. rw /string_out. cbn [fst snd]. by rewrite -> (proj2 (Z.ltb_lt p 4096)). Qed.

Section strings.
Context (env : fmt_env) (Htop : ∀ p, 2 ^ 64 - 4096 < p → fe_mem env p = None).

Lemma save_str_grows end_ args bin str args' bin' str' : save_str env end_ args bin str = Some (args', bin', str') → keeps bin' bin str ∧ str ≤ str'.
Proof using.
  rw /save_str. destruct (va_long args) as [[p args1]|]; [|done]. cbn [mbind option_bind]. destruct (if (_ <? p) || _ then _ else _) as [obj|]; [|done].
  cbn [mbind option_bind]. destruct (strlen obj) as [n|] eqn:El; [|done]. apply strlen_split in El as (s & r & -> & <- & _). cbn [mbind option_bind].
  destruct (if str + _ <? end_ then _ else _) as [b|] eqn:Ew; [|done]. cbn [mbind option_bind]. intros [= <- <- <-]. split; [|lia].
  destruct (_ <? end_); [by eapply wr_range_keeps|by injection Ew as <-].
Qed.

(** A string that was stored and is read in the final buffer. *)
Lemma str_saved `{Sink Out} end_ args args0 bin str args' bin' str' F s args1 spec (o : Out) :
  save_str env end_ args bin str = Some (args', bin', str') → va_args args0 = va_args args → next_str env args0 = Some (s, args1) → str' < end_ → keeps F bin' str' →
  va_args args1 = va_args args' ∧
  ∃ s', next_str env {| ba_buf := F; ba_pos := str |} = Some (s', {| ba_buf := F; ba_pos := str' |}) ∧ string_out s' spec o = string_out s spec o.
Proof using Htop.
  rw /save_str. cbn [next_str va_list_args bin_args_args ba_buf ba_pos]. rw /va_long. intros Hs Ea Hn He HF. rewrite -> Ea in Hn.
  destruct (va_args args) as [|[z|p] l]; try done. cbn [mbind option_bind] in Hs, Hn.
  destruct (if (2 ^ 64 - 4096 <? p) || (p <? 4096) then _ else _) as [obj|] eqn:Eobj; [|done]. cbn [mbind option_bind] in Hs.
  destruct (strlen obj) as [n|] eqn:El; [|done]. apply strlen_split in El as (t & r & -> & <- & Ht). cbn [mbind option_bind] in Hs.
  destruct (if str + _ <? end_ then _ else _) as [b|] eqn:Ew; [|done]. cbn [mbind option_bind] in Hs. injection Hs as <- <- <-.
  rewrite -> (proj2 (Z.ltb_lt _ end_)) in Ew by lia. destruct (wr_range_Some _ _ _ _ Ew) as (H0 & _ & _). apply rd_wr_range in Ew.
  rewrite -> (app_assoc t [0] r : t ++ 0 :: r = (t ++ [0]) ++ r), take_app_length' in Ew by (rewrite -> length_app; cbn; lia).
  rewrite <- (keeps_range F b _ str _ HF) in Ew by (rewrite ?length_app; cbn; lia). apply rd_range_drop in Ew as [r' Ew]. rewrite <- app_assoc in Ew. cbn [app] in Ew.
  destruct (Z.ltb_spec p 4096).
  - rewrite -> orb_true_r in Eobj. injection Eobj as Eobj. cbn [mbind option_bind] in Hn. injection Hn as <- <-. split; [done|]. exists (4096, t ++ 0 :: r').
    rewrite -> Ew, strlen_text by done. split; [done|]. rewrite -> (string_null p) by done. rewrite -> Eobj. by apply string_same.
  - rewrite -> orb_false_r in Eobj. destruct (Z.ltb_spec (2 ^ 64 - 4096) p); [by rewrite -> Htop in Hn by done|].
    rewrite -> Eobj in Hn. cbn [mbind option_bind] in Hn. injection Hn as <- <-. split; [done|]. exists (4096, t ++ 0 :: r').
    rewrite -> Ew, strlen_text by done. split; [done|]. by apply string_same.
Qed.
End strings.

(** ** Specifications up to widths *)

(** vbin_printf does not keep the widths and precisions that are arguments: its specifications differ in them, and in the flag that a negative width sets. *)
Definition alike (s1 s2 : printf_spec) : Prop :=
  ps_type s1 = ps_type s2 ∧ ps_qualifier s1 = ps_qualifier s2 ∧ Z.land (ps_flags s1) (Z.lnot LEFT) = Z.land (ps_flags s2) (Z.lnot LEFT).

#[export] Instance alike_equiv : Equivalence alike.
Proof.
  split.
  - done.
  - intros s1 s2 (? & ? & ?). done.
  - intros s1 s2 s3 (E1 & E2 & E3) (? & ? & ?). split_and!; [by rewrite -> E1|by rewrite -> E2|by rewrite -> E3].
Qed.

#[export] Instance set_ps_type_proper t : Proper (alike ==> alike) (set_ps_type t).
Proof. by intros s1 s2 (? & ? & ?). Qed.
#[export] Instance set_ps_flags_proper f : Proper (alike ==> alike) (set_ps_flags f).
Proof. by intros s1 s2 (? & ? & ?). Qed.
#[export] Instance set_ps_base_proper b : Proper (alike ==> alike) (set_ps_base b).
Proof. by intros s1 s2 (? & ? & ?). Qed.
#[export] Instance set_ps_qualifier_proper q : Proper (alike ==> alike) (set_ps_qualifier q).
Proof. by intros s1 s2 (? & ? & ?). Qed.
#[export] Instance or_flag_proper f : Proper (alike ==> alike) (or_flag f).
Proof. intros s1 s2 (? & ? & E). split_and!; [done|done|]. cbn [or_flag set_ps_flags ps_flags]. rewrite -> !Z.land_lor_distr_l. by rewrite -> E. Qed.

(** Widths make no difference. *)
Lemma set_ps_width_alike w s : alike (set_ps_width w s) s.
Proof. done. Qed.
Lemma set_ps_precision_alike p s : alike (set_ps_precision p s) s.
Proof. done. Qed.
Lemma left_alike s : alike (or_flag LEFT s) s.
Proof. split_and!; [done|done|]. cbn [or_flag set_ps_flags ps_flags]. rewrite -> Z.land_lor_distr_l. by rewrite -> (Z.land_lnot_diag LEFT), Z.lor_0_r. Qed.

Lemma flag_alike m s1 s2 : alike s1 s2 → Z.land (Z.lnot LEFT) m = m → flag m s1 = flag m s2.
Proof. intros (_ & _ & E) Hm. rw /flag. rewrite <- Hm, !Z.land_assoc. by rewrite -> E. Qed.

Lemma number_type_alike s1 s2 : alike s1 s2 → number_type s1 = number_type s2.
Proof. intros Ha. rw /number_type. rewrite -> (flag_alike SIGN s1 s2 Ha eq_refl). destruct Ha as (_ & -> & _). done. Qed.

Notation decoded := (orel (rel_snd (A:=list Z) alike)).

#[export] Instance decode_conversion_proper fmt : Proper (alike ==> decoded) (decode_conversion fmt).
Proof.
  intros s1 s2 Ha. rw /decode_conversion. cbn zeta. apply orel_same. intros c _.
  assert (∀ t1 t2 f, alike t1 t2 → decoded (Some (f, set_ps_type (number_type t1) t1)) (Some (f, set_ps_type (number_type t2) t2))) as Hint.
  { intros t1 t2 f Ht. split; [done|]. cbn [snd]. rewrite -> (number_type_alike t1 t2 Ht). by rewrite -> Ht. }
  repeat (case_if; [first [apply Hint; by rewrite -> Ha | split; [done|]; cbn [snd]; by rewrite -> Ha]|]). split; [done|]. cbn [snd]. by rewrite -> Ha.
Qed.

#[export] Instance decode_qualifier_proper fmt : Proper (alike ==> decoded) (decode_qualifier fmt).
Proof.
  intros s1 s2 Ha. rw /decode_qualifier. apply orel_same. intros c _. case_if; [|apply decode_conversion_proper; by rewrite -> Ha].
  cbn zeta. apply orel_same. intros c' _. repeat case_if; apply decode_conversion_proper; by rewrite -> Ha.
Qed.

(** [if (x < 0) x = ...] on a width. *)
Lemma alike_if (b1 b2 : bool) s1 s2 t1 t2 : alike s1 s2 → alike t1 s1 → alike t2 s2 → alike (if b1 then t1 else s1) (if b2 then t2 else s2).
Proof. intros H1 H2 H3. destruct b1, b2; by rewrite -> ?H2, ?H3, ?H1. Qed.

#[export] Instance decode_precision_proper fmt : Proper (alike ==> decoded) (decode_precision fmt).
Proof.
  intros s1 s2 Ha. rw /decode_precision. cbn zeta. apply orel_same. intros c _.
  assert (alike (set_ps_precision (-1) s1) (set_ps_precision (-1) s2)) as H1 by (by rewrite -> !set_ps_precision_alike).
  case_if; [|by apply decode_qualifier_proper]. apply orel_same. intros c' _. repeat case_if.
  - apply orel_same. intros [p fmt'] _. apply decode_qualifier_proper. apply alike_if; by rewrite -> ?set_ps_precision_alike.
  - split; [done|]. cbn [snd]. by rewrite -> H1.
  - by apply decode_qualifier_proper.
Qed.

#[export] Instance decode_width_proper fmt : Proper (alike ==> decoded) (decode_width fmt).
Proof.
  intros s1 s2 Ha. rw /decode_width. cbn zeta. apply orel_same. intros c _.
  assert (alike (set_ps_width (-1) s1) (set_ps_width (-1) s2)) as H1 by (by rewrite -> !set_ps_width_alike). repeat case_if.
  - apply orel_same. intros [w fmt'] _. apply decode_precision_proper. by rewrite -> !set_ps_width_alike.
  - split; [done|]. cbn [snd]. by rewrite -> H1.
  - by apply decode_precision_proper.
Qed.

#[export] Instance format_decode_proper fmt : Proper (alike ==> decoded) (format_decode fmt).
Proof.
  intros s1 s2 Ha. assert (decoded (decode_token fmt s1) (decode_token fmt s2)) as Htok.
  { rw /decode_token. cbn zeta. apply orel_same. intros fmt' _. apply orel_same. intros c _. case_if; [split; [done|]; cbn [snd]; by rewrite -> Ha|].
    apply orel_same. intros [f fmt2] _. apply decode_width_proper. by rewrite -> Ha. }
  rw /format_decode. destruct Ha as (Et & Hq & Hf) eqn:E. clear E. assert (alike s1 s2) as Ha' by done. rewrite <- Et. destruct (ps_type s1); try exact Htok.
  - apply decode_precision_proper. apply set_ps_type_proper. apply alike_if; [done|by rewrite -> left_alike, set_ps_width_alike..].
  - apply decode_qualifier_proper. apply set_ps_type_proper. apply alike_if; [done|by rewrite -> set_ps_precision_alike..].
Qed.

(** ** The three loops *)

(** Arguments as C passes them. *)
Definition arg_ok (a : varg) : Prop := match a with VInt z => - 2 ^ 31 ≤ z < 2 ^ 31 | VLong z => in_width 64 z end.

Lemma num_size_ok t : arg_size (num_size t).
Proof. destruct t; cbn; auto. Qed.

(** A step of both loops with one argument: the lemma says what is read. *)
Ltac printed lem :=
  match goal with Hp : _ = Some (Next (_, _, _, ?o1)), Hv : _ = Some (Next (_, _, _, ?bin, ?str)), Hok : Forall arg_ok _, Hsame : va_args _ = va_args _, H0 : 0 ≤ ?s,
                  HF : keeps _ _ _ |- _ =>
    unbind Hp; unbind Hv; injection Hp as <- <- <- <-; injection Hv as <- <- <- <- <-; edestruct lem as [E1 E2];
      [exact Hok|exact Hsame|exact H0| |exact HF|(eassumption || reflexivity)..|]; [lia|]
  end.

Section loops.
Context (env : fmt_env) (Htop : ∀ p, 2 ^ 64 - 4096 < p → fe_mem env p = None) (end_ : Z).

Lemma save_next_grows n args bin str args' bin' str' :
  save_next n end_ args bin str = Some (args', bin', str') → arg_size n → 0 ≤ str → keeps bin' bin str ∧ str ≤ str'.
Proof using.
  rw /save_next. destruct (if n =? 8 then _ else _) as [[v args1]|]; [|done]. cbn [mbind option_bind]. destruct (save_arg _ _ _ _ _) as [[b s]|] eqn:Es; [|done].
  cbn [mbind option_bind]. intros [= <- <- <-]. by eapply save_arg_grows.
Qed.

Lemma vbin_step_grows fmt spec args bin str fmt' spec' args' bin' str' :
  vbin_step env end_ (fmt, spec, args, bin, str) = Some (Next (fmt', spec', args', bin', str')) → 0 ≤ str → keeps bin' bin str ∧ str ≤ str'.
Proof using.
  rw /vbin_step. destruct (cur fmt) as [c|]; [|done]. cbn [mbind option_bind]. destruct (c =? 0); [done|]. destruct (format_decode fmt spec) as [[fmt1 spec1]|]; [|done].
  cbn [mbind option_bind]. pose proof (num_size_ok (ps_type spec1)) as Hn. intros Hs H0. destruct (ps_type spec1) eqn:Et; cbn [num_size] in *; unbind Hs; injection Hs as <- <- <- <- <-; (split; [done|lia]) || (eapply save_next_grows; [eassumption|auto|done]) || (by eapply save_str_grows).
Qed.

(** What save_next stored and the interpreter reads: the value cut to its size. *)
Lemma next_saved n args bin str args' bin' str' F : save_next n end_ args bin str = Some (args', bin', str') → arg_size n → 0 ≤ str → str' ≤ end_ → keeps F bin' str' →
  ∃ a l, va_args args = a :: l ∧ va_args args' = l ∧ (if n =? 8 then ∃ z, a = VLong z else ∃ z, a = VInt z) ∧
    get_arg n {| ba_buf := F; ba_pos := str |} = Some (wrap (8 * n) (match a with VInt z | VLong z => z end), {| ba_buf := F; ba_pos := str' |}).
Proof using.
  rw /save_next /va_long /va_int. intros Hs Hn H0 He HF. destruct (va_args args) as [|a l] eqn:Ea; [by destruct (n =? 8)|]. exists a, l. split; [done|].
  destruct (n =? 8), a as [z|z]; try done; cbn [mbind option_bind] in Hs; (destruct (save_arg _ _ _ _ _) as [[b s]|] eqn:Es; [|done]); cbn [mbind option_bind] in Hs;
    injection Hs as <- <- <-; (split_and!; [done|eauto|by eapply get_saved]).
Qed.

(** The interpreter reads the same value from the list and from the final buffer [F]. *)
Section saved.
Context (args args0 args' : va_list) (bin bin' F : list Z) (str str' : Z)
  (Hok : Forall arg_ok (va_args args)) (Hsame : va_args args0 = va_args args) (Hstr : 0 ≤ str) (Hend : str' ≤ end_) (HF : keeps F bin' str').
Notation from := {| ba_buf := F; ba_pos := str |}.
Notation to := {| ba_buf := F; ba_pos := str' |}.

(** The first argument, and what is stored of it. *)
Lemma first_saved n : save_next n end_ args bin str = Some (args', bin', str') → arg_size n →
  ∃ a, va_args args0 = a :: va_args args' ∧ arg_ok a ∧ (if n =? 8 then ∃ z, a = VLong z else ∃ z, a = VInt z) ∧
    get_arg n from = Some (wrap (8 * n) (match a with VInt z | VLong z => z end), to).
Proof using Hok Hsame Hstr Hend HF.
  intros Hs Hn. eapply next_saved in Hs as (a & l & E & El & Hty & Hg); [|done|done|done|exact HF]. exists a. rewrite -> Hsame, E, El. rewrite -> E in Hok.
  by apply Forall_inv in Hok as Ha.
Qed.

(** An integer conversion. *)
Definition is_number (t : format_type) : bool :=
  match t with
  | FORMAT_TYPE_LONG_LONG | FORMAT_TYPE_ULONG | FORMAT_TYPE_LONG | FORMAT_TYPE_UBYTE | FORMAT_TYPE_BYTE | FORMAT_TYPE_USHORT | FORMAT_TYPE_SHORT | FORMAT_TYPE_UINT
  | FORMAT_TYPE_INT | FORMAT_TYPE_SIZE_T | FORMAT_TYPE_PTRDIFF => true
  | _ => false
  end.

Lemma num_saved t z args1 : save_next (num_size t) end_ args bin str = Some (args', bin', str') → va_num t args0 = Some (z, args1) → is_number t = true →
  bin_num t from = Some (z, to) ∧ va_args args1 = va_args args'.
Proof using Hok Hsame Hstr Hend HF.
  intros Hs Hn Ht. destruct (first_saved _ Hs (num_size_ok t)) as (a & E & Ha & Hty & Hg).
  destruct t; try done; cbn [num_size Z.eqb Pos.eqb] in *; destruct Hty as [z' ->]; cbn [arg_ok] in Ha; cbn [va_num bin_num] in *; rw /va_long /va_int in Hn; rewrite -> E in Hn;
    change (8 * 8) with 64 in Hg; change (8 * 4) with 32 in Hg; rewrite -> Hg; cbn [mbind option_bind] in *; injection Hn as <- <-; (split; [|done]); do 2 f_equal;
    rewrite -> ?swrap_of_wrap, ?(wrap_small 64 z'), ?(swrap_small 32 z') by (done || lia || (cbn; lia)); done.
Qed.

Lemma int_saved z args1 : save_next 4 end_ args bin str = Some (args', bin', str') → va_int args0 = Some (z, args1) →
  next_int from = Some (z, to) ∧ va_args args1 = va_args args'.
Proof using Hok Hsame Hstr Hend HF.
  intros Hs Hn. destruct (first_saved _ Hs ltac:(auto)) as (a & E & Ha & [z' ->] & Hg). rw /va_int in Hn. rewrite -> E in Hn. injection Hn as <- <-.
  cbn [next_int bin_args_args]. rewrite -> Hg. cbn [mbind option_bind]. by rewrite -> swrap_of_wrap, swrap_small by (cbn in *; lia).
Qed.

Lemma char_saved z args1 : save_next 1 end_ args bin str = Some (args', bin', str') → next_char args0 = Some (z, args1) →
  next_char from = Some (z, to) ∧ va_args args1 = va_args args'.
Proof using Hok Hsame Hstr Hend HF.
  intros Hs Hn. destruct (first_saved _ Hs ltac:(auto)) as (a & E & Ha & [z' ->] & Hg). cbn [next_char va_list_args] in Hn. rw /va_int in Hn. rewrite -> E in Hn.
  injection Hn as <- <-. done.
Qed.

Lemma ptr_saved z args1 : save_next 8 end_ args bin str = Some (args', bin', str') → va_long args0 = Some (z, args1) →
  next_ptr from = Some (z, to) ∧ va_args args1 = va_args args'.
Proof using Hok Hsame Hstr Hend HF.
  intros Hs Hn. destruct (first_saved _ Hs ltac:(auto)) as (a & E & Ha & [z' ->] & Hg). rw /va_long in Hn. rewrite -> E in Hn. injection Hn as <- <-.
  cbn [next_ptr bin_args_args]. rewrite -> Hg, wrap_small by done. done.
Qed.
End saved.

Lemma save_next_args P n args bin str args' bin' str' : save_next n end_ args bin str = Some (args', bin', str') → Forall P (va_args args) → Forall P (va_args args').
Proof using.
  rw /save_next /va_long /va_int. intros Hs HP. destruct (va_args args) as [|a l]; [by destruct (n =? 8)|]. apply Forall_inv_tail in HP.
  destruct (n =? 8), a as [z|z]; try done; cbn [mbind option_bind] in Hs; (destruct (save_arg _ _ _ _ _) as [[b s]|]; [|done]); by injection Hs as <- <- <-.
Qed.

Lemma va_long_args P args z args' : va_long args = Some (z, args') → Forall P (va_args args) → Forall P (va_args args').
Proof using. rw /va_long. intros Hs HP. destruct (va_args args) as [|[y|y] l]; try done. injection Hs as <- <-. by apply Forall_inv_tail in HP. Qed.

Lemma save_str_args P args bin str args' bin' str' : save_str env end_ args bin str = Some (args', bin', str') → Forall P (va_args args) → Forall P (va_args args').
Proof using.
  rw /save_str. intros Hs HP. unbind Hs. injection Hs as <- <- <-. by eapply va_long_args.
Qed.

Lemma vbin_step_args P fmt spec args bin str fmt' spec' args' bin' str' :
  vbin_step env end_ (fmt, spec, args, bin, str) = Some (Next (fmt', spec', args', bin', str')) → Forall P (va_args args) → Forall P (va_args args').
Proof using.
  rw /vbin_step. intros Hs HP. unbind Hs. destruct (_ =? 0); [done|]. unbind Hs. destruct (ps_type _); unbind Hs;
    injection Hs as <- <- <- <- <-; done || (by eapply save_next_args) || (by eapply save_str_args) || (by eapply va_long_args).
Qed.

(** A character in its field. *)
Lemma char_out_saved `{Sink Out} args args0 args' bin bin' F str str' spec (o : Out) args1 spec1 o1 :
  Forall arg_ok (va_args args) → va_args args0 = va_args args → 0 ≤ str → str' ≤ end_ → keeps F bin' str' →
  save_next 1 end_ args bin str = Some (args', bin', str') → char_out args0 spec o = Some (args1, spec1, o1) →
  char_out {| ba_buf := F; ba_pos := str |} spec o = Some ({| ba_buf := F; ba_pos := str' |}, spec1, o1) ∧ va_args args1 = va_args args' ∧ alike spec1 spec.
Proof using.
  intros Hok Hsame H0 He HF Hs Hc. rw /char_out in Hc. rw /char_out. destruct (if negb (flag LEFT spec) then _ else _) as [[fw o2]|]; [|done]. cbn [mbind option_bind] in *.
  destruct (next_char args0) as [[c a]|] eqn:En; [|done]. destruct (char_saved _ _ _ _ _ _ _ _ Hok Hsame H0 He HF _ _ Hs En) as [-> E]. cbn [mbind option_bind] in *.
  unbind Hc. injection Hc as <- <- <-. cbn [mbind option_bind]. rewrite -> Heqo1. cbn [mbind option_bind]. split_and!; [done|done|by rewrite -> set_ps_width_alike].
Qed.

(** A step that prints an argument from the list, and the step that prints it from the final buffer. *)
Lemma step_stored `{Sink Out} fmt spec spec' args0 args (o : Out) bin str F fmt1 spec1 args1 o1 fmt2 spec2 args2 bin2 str2 :
  alike spec spec' → Forall arg_ok (va_args args) → va_args args0 = va_args args → 0 ≤ str →
  printf_step env (fmt, spec, args0, o) = Some (Next (fmt1, spec1, args1, o1)) →
  vbin_step env end_ (fmt, spec', args, bin, str) = Some (Next (fmt2, spec2, args2, bin2, str2)) → str2 < end_ → keeps F bin2 str2 →
  fmt1 = fmt2 ∧ alike spec1 spec2 ∧ va_args args1 = va_args args2 ∧
  printf_step env (fmt, spec, {| ba_buf := F; ba_pos := str |}, o) = Some (Next (fmt1, spec1, {| ba_buf := F; ba_pos := str2 |}, o1)).
Proof using Htop.
  intros Ha Hok Hsame H0 Hp Hv He HF. rw /printf_step in Hp. rw /vbin_step in Hv. rw /printf_step. destruct (cur fmt) as [c|]; [|done]. cbn [mbind option_bind] in *.
  destruct (c =? 0); [done|]. pose proof (format_decode_proper fmt spec spec' Ha) as Hd. destruct (format_decode fmt spec) as [[f s]|]; [|done].
  destruct (format_decode fmt spec') as [[f' s']|]; [|done]. destruct Hd as [E Hs]. cbn in E, Hs. subst f'. cbn [mbind option_bind] in *.
  assert (ps_type s' = ps_type s) as Et by (by destruct Hs). rewrite -> Et in Hv. clear Et. destruct (is_number (ps_type s)) eqn:Ety.
  { destruct (ps_type s); try done; printed num_saved; (split_and!; [done|done|done|]); change (next_num ?t ?x) with (bin_num t x); rewrite -> E1;
      cbn [mbind option_bind]; by rewrite -> Heqo1. }
  destruct (ps_type s); try done; clear Ety.
  - unbind Hp. injection Hp as <- <- <- <-. by injection Hv as <- <- <- <- <-.
  - printed int_saved. split_and!; [done|by rewrite -> set_ps_width_alike|done|]. by rewrite -> E1.
  - printed int_saved. split_and!; [done|by rewrite -> set_ps_precision_alike|done|]. by rewrite -> E1.
  - destruct (char_out args0 s o) as [[[a s1] o2]|] eqn:Ec; [|done]. cbn [mbind option_bind] in Hp. unbind Hv. injection Hp as <- <- <- <-. injection Hv as <- <- <- <- <-.
    edestruct char_out_saved as (E1 & E2 & E3); [exact Hok|exact Hsame|exact H0| |exact HF|eassumption|exact Ec|]; [lia|]. split_and!; [done|by rewrite -> E3|done|by rewrite -> E1].
  - unbind Hp. unbind Hv. injection Hp as <- <- <- <-. injection Hv as <- <- <- <- <-.
    edestruct (str_saved env Htop) as (E1 & s2 & E2 & E3); [eassumption|exact Hsame|eassumption|exact He|exact HF|]. split_and!; [done|done|done|]. rewrite -> E2. cbn [mbind option_bind].
    rewrite -> E3. by rewrite -> Heqo1.
  - printed ptr_saved. split_and!; [congruence|done|done|]. rewrite -> E1. cbn [mbind option_bind]. by rewrite -> Heqo1.
  - unbind Hp. injection Hp as <- <- <- <-. by injection Hv as <- <- <- <- <-.
  - unbind Hp. injection Hp as <- <- <- <-. by injection Hv as <- <- <- <- <-.
  - cbn [count_out va_list_args bin_args_args] in *. rw /va_long in Hp Hv. rewrite -> Hsame in Hp. destruct (va_args args) as [|[z|z] l]; try done. cbn [mbind option_bind] in *.
    injection Hp as <- <- <- <-. by injection Hv as <- <- <- <- <-.
Qed.

Lemma printf_stop `{Sink Out, Args A} fmt spec (args : A) (o : Out) r : printf_step env (fmt, spec, args, o) = Some (Stop r) → cur fmt = Some 0.
Proof using.
  rw /printf_step. destruct (cur fmt) as [c|]; [|done]. cbn [mbind option_bind]. destruct (Z.eqb_spec c 0) as [->|Hc]; [done|].
  intros Hs. unbind Hs. destruct (ps_type _); unbind Hs; congruence.
Qed.

Lemma vbin_stop fmt spec args bin str r : vbin_step env end_ (fmt, spec, args, bin, str) = Some (Stop r) → cur fmt = Some 0.
Proof using.
  rw /vbin_step. destruct (cur fmt) as [c|]; [|done]. cbn [mbind option_bind]. destruct (Z.eqb_spec c 0) as [->|Hc]; [done|].
  intros Hs. unbind Hs. destruct (ps_type _); unbind Hs; congruence.
Qed.

Lemma vbin_loop_grows fuel fmt spec args bin str rest F last :
  loop fuel (vbin_step env end_) (fmt, spec, args, bin, str) = Some (rest, F, last) → 0 ≤ str → keeps F bin str ∧ str ≤ last.
Proof using.
  revert fmt spec args bin str. induction fuel as [|fuel IH]; intros fmt spec args bin str Hv H0; [done|]. cbn [loop] in Hv.
  destruct (vbin_step env end_ (fmt, spec, args, bin, str)) as [[[[[[f2 s2] a2] b2] t2]|r]|] eqn:E2; [| |done].
  - destruct (vbin_step_grows _ _ _ _ _ _ _ _ _ _ E2 H0) as [Hk Hle]. destruct (IH _ _ _ _ _ Hv ltac:(lia)) as [HF Hl]. split; [|lia]. by eapply keeps_trans.
  - injection Hv as ->. apply vbin_stop in E2 as Hc. rw /vbin_step in E2. rewrite -> Hc in E2. injection E2 as -> -> ->. done.
Qed.

Lemma loops_stored `{Sink Out} fuel fmt spec spec' args0 args (o o' : Out) bin str F last rest rest' :
  alike spec spec' → Forall arg_ok (va_args args) → va_args args0 = va_args args → 0 ≤ str →
  loop fuel (printf_step env) (fmt, spec, args0, o) = Some (rest, o') → loop fuel (vbin_step env end_) (fmt, spec', args, bin, str) = Some (rest', F, last) → last < end_ →
  ∃ a, loop fuel (printf_step env) (fmt, spec, {| ba_buf := F; ba_pos := str |}, o) = Some (a, o').
Proof using Htop.
  intros Ha Hok Hsame H0 Hp Hv Hlast. revert fmt spec spec' args0 args o bin str Ha Hok Hsame H0 Hp Hv.
  induction fuel as [|fuel IH]; intros fmt spec spec' args0 args o bin str Ha Hok Hsame H0 Hp Hv; [done|]. cbn [loop] in *.
  destruct (decide (cur fmt = Some 0)) as [Hc|Hc].
  - assert (∀ A `{Args A} (a : A), printf_step env (fmt, spec, a, o) = Some (Stop (a, o))) as Es by (intros A HA a; rw /printf_step; by rewrite -> Hc).
    assert (vbin_step env end_ (fmt, spec', args, bin, str) = Some (Stop (args, bin, str))) as Ev by (rw /vbin_step; by rewrite -> Hc).
    rewrite -> Es in Hp. rewrite -> Ev in Hv. injection Hp as <- <-. injection Hv as <- <- <-. rewrite -> Es. by eexists.
  - destruct (printf_step env (fmt, spec, args0, o)) as [[[[[f1 s1] a1] o1]|r]|] eqn:E1; [|by apply printf_stop in E1|done].
    destruct (vbin_step env end_ (fmt, spec', args, bin, str)) as [[[[[[f2 s2] a2] b2] t2]|r]|] eqn:E2; [|by apply vbin_stop in E2|done].
    destruct (vbin_step_grows _ _ _ _ _ _ _ _ _ _ E2 H0) as [_ Hle]. assert (0 ≤ t2) as H2 by lia.
    destruct (vbin_loop_grows _ _ _ _ _ _ _ _ _ Hv H2) as [HF Hlast'].
    destruct (step_stored _ _ _ _ _ _ _ _ F _ _ _ _ _ _ _ _ _ Ha Hok Hsame H0 E1 E2 (Z.le_lt_trans _ _ _ Hlast' Hlast) HF) as (<- & Hs & Hargs & ->).
    apply (IH _ _ _ _ _ _ _ _ Hs (vbin_step_args _ _ _ _ _ _ _ _ _ _ _ E2 Hok) Hargs H2 Hp Hv).
Qed.
End loops.

(** ** Claims *)

(** C32: Printing in two steps is printing: if vbin_printf has stored the arguments of a format in a buffer that is larger than they need, bstr_printf prints from that buffer
    exactly what vsnprintf prints from the arguments, with the same result.  This covers widths and precisions that are arguments, all integer types, characters,
    strings, which are copied, and pointers.  Strings are not in the last page of the address space. *)
Theorem bstr_printf_equiv env addr buf size fmt args bin bsize rest bin' bytes rest' buf' n
    (Htop : ∀ p, 2 ^ 64 - 4096 < p → fe_mem env p = None) (Hargs : Forall arg_ok args)
    (Hsave : vbin_save env bin bsize fmt {| va_args := args; va_stores := [] |} = Some (rest, bin', bytes)) (Hfit : bytes < 4 * bsize)
    (Hprint : vsnprintf env addr buf size fmt {| va_args := args; va_stores := [] |} = Some (rest', buf', n)) :
  bstr_printf env addr buf size fmt bin' = Some (buf', n) ∧ length bin' = length bin ∧
  vbin_printf env bin bsize fmt {| va_args := args; va_stores := [] |} = Some (rest, bin', swrap 32 (PTR_ALIGN bytes 4 / 4)).
Proof.
  split_and!; [| |rw /vbin_printf; by rewrite -> Hsave].
  - rw /vsnprintf in Hprint. rw /bstr_printf. destruct (_ <? 0); [by injection Hprint as <- <- <-|]. unbind Hprint. injection Hprint as <- <- <-.
    edestruct (loops_stored env Htop) as [a E]; [reflexivity|by apply (Hargs : Forall arg_ok (va_args {| va_args := args; va_stores := [] |}))|reflexivity|reflexivity|exact Heqo|exact Hsave|exact Hfit|].
    rw /format. rewrite -> E. exact Heqo0.
  - eapply vbin_loop_grows in Hsave as [[Hl _] _]; done.
Qed.

Lemma bstr_printf_equiv_witness :
  let fmt := cstr "%s=%*d %c" in let args := [VLong 0x10000; VInt 5; VInt (-42); VInt 33] in
  ∃ rest bin' bytes rest' buf' n, vbin_save plain_env (replicate 20 0) 5 fmt {| va_args := args; va_stores := [] |} = Some (rest, bin', bytes) ∧
    vsnprintf plain_env 0 (replicate 16 7) 16 fmt {| va_args := args; va_stores := [] |} = Some (rest', buf', n) ∧
    bstr_printf plain_env 0 (replicate 16 7) 16 fmt bin' = Some (buf', n) ∧ take 12 buf' = cstr "abc=  -42 !".
Proof.
  cbn zeta. do 6 eexists. split; [vm_compute; reflexivity|]. split; [vm_compute; reflexivity|]. split; [|vm_compute; reflexivity].
  refine (proj1 (bstr_printf_equiv _ _ _ _ _ [VLong 0x10000; VInt 5; VInt (-42); VInt 33] (replicate 20 0) 5 _ _ _ _ _ _ _ _ _ _ _)).
  - intros p Hp. cbn. repeat (case_if; [zbool; lia|]). done.
  - repeat constructor; vm_compute; congruence.
  - vm_compute. reflexivity.
  - vm_compute. reflexivity.
  - vm_compute. reflexivity.
Defined.
