(* ===== verification/Inet.v ===== *)
(** * Addresses as text: net/core/utils.c and lib/hexdump.c

    The parsers of IPv4, IPv6 and hardware addresses.  A pointer into the text is an offset; [in6_pton] is a state machine whose state is a set of
    flags that say what may come next. *)
From Stdlib Require Import Ascii String.
From S2P Require Import Prelude Ctype NumPrint StringLib Vsprintf.
#[local] Open Scope Z_scope.

(** ** Hexadecimal digits *)

Definition hex_to_bin (c : Z) : Z :=
  if (ch "0" <=? c) && (c <=? ch "9") then c - ch "0" else
  let c := __tolower c in
  if (ch "a" <=? c) && (c <=? ch "f") then c - ch "a" + 10 else -1.

(** The result and the bytes; the text is read two digits at a time. *)
Fixpoint hex2bin (count : nat) (dst src : list Z) (d s : Z) : option (Z * list Z) :=
  match count with
  | O => Some (0, dst)
  | S count =>
      c ← rd src s; c' ← rd src (s + 1);
      let hi := hex_to_bin c in
      let lo := hex_to_bin c' in
      if (hi <? 0) || (lo <? 0) then Some (-1, dst) else
      dst ← wr dst d (wrap 8 (Z.lor (Z.shiftl hi 4) lo));
      hex2bin count dst src (d + 1) (s + 2)
  end.

(** ** IPv4, without checks *)

(** [while ( *str != '\0' && *str != '.' && *str != '\n')]: the number, 32 bits, and the rest. *)
Fixpoint aton_number (str : list Z) (val : Z) : option (Z * list Z) :=
  match str with
  | [] => None
  | c :: str' =>
      if (c =? 0) || (c =? ch ".") || (c =? 10) then Some (val, str)
      else aton_number str' (wrap 32 (wrap 32 (val * 10) + (swrap 8 c - ch "0")))
  end.

(** The value in host order; [htonl] makes it big-endian. *)
Definition in_aton (str : list Z) : option Z :=
  '(_, l) ← for_each 4 0
    (λ _ '(str, l),
       let l := wrap 64 (Z.shiftl l 8) in
       c ← rd str 0;
       if c =? 0 then Some (str, l) else
       '(val, str) ← aton_number str 0;
       let l := Z.lor l val in
       c ← rd str 0;
       Some (if c =? 0 then str else drop 1 str, l)) (str, 0);
  Some (wrap 32 l).

(** ** IPv4 and IPv6 *)

Definition IN6PTON_XDIGIT : Z := 0x00010000.
Definition IN6PTON_DIGIT : Z := 0x00020000.
Definition IN6PTON_COLON_MASK : Z := 0x00700000.
Definition IN6PTON_COLON_1 : Z := 0x00100000.
Definition IN6PTON_COLON_2 : Z := 0x00200000.
Definition IN6PTON_COLON_1_2 : Z := 0x00400000.
Definition IN6PTON_DOT : Z := 0x00800000.
Definition IN6PTON_DELIM : Z := 0x10000000.
Definition IN6PTON_NULL : Z := 0x20000000.
Definition IN6PTON_UNKNOWN : Z := 0x40000000.

(** [c & flags]. *)
Definition meets (c flags : Z) : bool := negb (Z.land c flags =? 0).

(** [c] is a byte, [char] is signed. *)
Definition xdigit2bin (c delim : Z) : Z :=
  if (swrap 8 c =? delim) || (c =? 0) then IN6PTON_DELIM
  else if c =? ch ":" then IN6PTON_COLON_MASK
  else if c =? ch "." then IN6PTON_DOT
  else
    let val := hex_to_bin c in
    if 0 <=? val then Z.lor (Z.lor val IN6PTON_XDIGIT) (if val <? 10 then IN6PTON_DIGIT else 0)
    else if delim =? -1 then IN6PTON_DELIM else IN6PTON_UNKNOWN.

(** [xdigit2bin(srclen > 0 ? *s : '\0', delim)]. *)
Definition next_class (src : list Z) (s srclen delim : Z) : option Z :=
  c ← (if 0 <? srclen then rd src s else Some 0);
  Some (xdigit2bin c delim).

(** [if (srclen < 0) srclen = strlen(src)]. *)
Definition source_length (src : list Z) (srclen : Z) : option Z := if srclen <? 0 then strlen src else Some srclen.

Record in4_state := { q_s : Z; q_srclen : Z; q_dbuf : list Z; q_d : Z; q_i : Z; q_w : Z }.

(** [cont:]. *)
Definition in4_cont (q : in4_state) : option (ctl in4_state (bool * list Z * Z)) :=
  Some (if 4 <=? q_i q then Stop (false, q_dbuf q, q_s q)
        else Next {| q_s := q_s q + 1; q_srclen := q_srclen q - 1; q_dbuf := q_dbuf q; q_d := q_d q; q_i := q_i q; q_w := q_w q |}).

(** Success or [goto out], the four bytes and [s]. *)
Definition in4_step (src : list Z) (delim : Z) (q : in4_state) : option (ctl in4_state (bool * list Z * Z)) :=
  let out := Some (Stop (false, q_dbuf q, q_s q)) in
  c ← next_class src (q_s q) (q_srclen q) delim;
  if negb (meets c (Z.lor (Z.lor IN6PTON_DIGIT IN6PTON_DOT) (Z.lor IN6PTON_DELIM IN6PTON_COLON_MASK))) then out else
  if meets c (Z.lor IN6PTON_DOT (Z.lor IN6PTON_DELIM IN6PTON_COLON_MASK)) then
    if q_w q =? 0 then out else
    b ← wr (q_dbuf q) (q_d q) (Z.land (q_w q) 0xff);
    let q := {| q_s := q_s q; q_srclen := q_srclen q; q_dbuf := b; q_d := q_d q + 1; q_i := q_i q + 1; q_w := 0 |} in
    if meets c (Z.lor IN6PTON_DELIM IN6PTON_COLON_MASK) then Some (Stop (q_i q =? 4, b, q_s q))
    else in4_cont q
  else
    let w := swrap 32 (q_w q * 10 + c) in
    let q := {| q_s := q_s q; q_srclen := q_srclen q; q_dbuf := q_dbuf q; q_d := q_d q; q_i := q_i q; q_w := w |} in
    if 255 <? Z.land w 0xffff then out else in4_cont q.

(** The result, the memory at [dst] and the end; the bytes go to offset [off] of [dst]. *)
Definition in4_pton (src : list Z) (srclen : Z) (dst : list Z) (off delim : Z) : option (Z * list Z * Z) :=
  srclen ← source_length src srclen;
  '(ok, dbuf, s) ← loop (Z.to_nat srclen + 2) (in4_step src delim)
                     {| q_s := 0; q_srclen := srclen; q_dbuf := replicate 4 0; q_d := 0; q_i := 0; q_w := 0 |};
  if ok : bool then dst ← wr_range dst off dbuf; Some (1, dst, s) else Some (0, dst, s).

Record in6_state := { p_s : Z; p_srclen : Z; p_tok : option Z; p_d : Z; p_dc : option Z; p_dbuf : list Z; p_state : Z; p_w : Z }.

Definition has_dc (q : in6_state) : bool := match p_dc q with Some _ => true | None => false end.

(** [cont:]; [sizeof(dbuf)] is 16. *)
Definition in6_cont (q : in6_state) : in6_state :=
  let state := p_state q in
  let state := if (has_dc q && (p_d q + 4 <? 16)) || (p_d q + 4 =? 16) then Z.lor state IN6PTON_DOT else state in
  let state := if 16 <=? p_d q then Z.land state (bnot 32 (Z.lor IN6PTON_XDIGIT IN6PTON_COLON_MASK)) else state in
  {| p_s := p_s q + 1; p_srclen := p_srclen q - 1; p_tok := p_tok q; p_d := p_d q; p_dc := p_dc q; p_dbuf := p_dbuf q; p_state := state; p_w := p_w q |}.

(** A colon: the pointer [dc] and the new state. *)
Definition colon_state (q : in6_state) : option Z * Z :=
  let m := Z.land (p_state q) IN6PTON_COLON_MASK in
  if m =? IN6PTON_COLON_2 then
    (Some (p_d q), Z.lor (Z.lor IN6PTON_XDIGIT IN6PTON_DELIM) (if 16 <=? p_d q then IN6PTON_NULL else 0))
  else if m =? Z.lor IN6PTON_COLON_1 IN6PTON_COLON_1_2 then (p_dc q, Z.lor IN6PTON_XDIGIT IN6PTON_COLON_2)
  else if m =? IN6PTON_COLON_1 then (p_dc q, IN6PTON_XDIGIT)
  else if m =? IN6PTON_COLON_1_2 then (p_dc q, IN6PTON_COLON_2)
  else (p_dc q, 0).

(** The state after a digit. *)
Definition digit_state (dc : bool) (d w : Z) : Z :=
  let state := Z.lor IN6PTON_COLON_1 IN6PTON_DELIM in
  let state := if negb (meets w 0xf000) then Z.lor state IN6PTON_XDIGIT else state in
  let state := if negb dc && (d + 2 <? 16) then Z.land (Z.lor state IN6PTON_COLON_1_2) (bnot 32 IN6PTON_DELIM) else state in
  if 16 <=? d + 2 then Z.land state (bnot 32 (Z.lor IN6PTON_COLON_1 IN6PTON_COLON_1_2)) else state.

(** One word of 16 bits, unless the state says that there is none. *)
Definition put_word (q : in6_state) : option in6_state :=
  '(b, d) ← (if meets (p_state q) IN6PTON_NULL then Some (p_dbuf q, p_d q)
             else b ← wr (p_dbuf q) (p_d q) (Z.land (Z.shiftr (p_w q) 8) 0xff);
                  b ← wr b (p_d q + 1) (Z.land (p_w q) 0xff);
                  Some (b, p_d q + 2));
  Some {| p_s := p_s q; p_srclen := p_srclen q; p_tok := p_tok q; p_d := d; p_dc := p_dc q; p_dbuf := b; p_state := p_state q; p_w := 0 |}.

Definition in6_step (src : list Z) (delim : Z) (q : in6_state) : option (ctl in6_state (bool * in6_state)) :=
  c ← next_class src (p_s q) (p_srclen q) delim;
  if negb (meets c (p_state q)) then Some (Stop (false, q)) else
  if meets c (Z.lor IN6PTON_DELIM IN6PTON_COLON_MASK) then
    q ← put_word q;
    if meets c IN6PTON_DELIM then Some (Stop (true, q)) else
    let '(dc, state) := colon_state q in
    Some (Next (in6_cont {| p_s := p_s q; p_srclen := p_srclen q; p_tok := Some (p_s q + 1); p_d := p_d q; p_dc := dc; p_dbuf := p_dbuf q; p_state := state; p_w := 0 |}))
  else if meets c IN6PTON_DOT then
    tok ← p_tok q;
    '(ret, b, e) ← in4_pton (drop (Z.to_nat tok) src) (p_srclen q + (p_s q - tok)) (p_dbuf q) (p_d q) delim;
    let done d := {| p_s := tok + e; p_srclen := p_srclen q; p_tok := p_tok q; p_d := d; p_dc := p_dc q; p_dbuf := b; p_state := p_state q; p_w := p_w q |} in
    Some (if 0 <? ret then Stop (true, done (p_d q + 4)) else Stop (false, done (p_d q)))
  else
    let w := Z.lor (Z.shiftl (p_w q) 4) (Z.land 0xff c) in
    Some (Next (in6_cont {| p_s := p_s q; p_srclen := p_srclen q; p_tok := p_tok q; p_d := p_d q; p_dc := p_dc q; p_dbuf := p_dbuf q;
                            p_state := digit_state (has_dc q) (p_d q) w; p_w := w |})).

(** [while (d >= dc) dst[i--] = *d--]. *)
Fixpoint copy_down (n : nat) (dst dbuf : list Z) (i d : Z) : option (list Z) :=
  match n with O => Some dst | S n => x ← rd dbuf d; dst ← wr dst i x; copy_down n dst dbuf (i - 1) (d - 1) end.
(** [while (i >= dc - dbuf) dst[i--] = 0]. *)
Fixpoint zero_down (n : nat) (dst : list Z) (i : Z) : option (list Z) :=
  match n with O => Some dst | S n => dst ← wr dst i 0; zero_down n dst (i - 1) end.

(** The bytes behind [::] go to the end. *)
Definition spread (dst dbuf : list Z) (d dc : Z) : option (list Z) :=
  let n := Z.to_nat (d - dc) in
  dst ← copy_down n dst dbuf 15 (d - 1);
  let i := 15 - Z.of_nat n in
  let m := Z.to_nat (i - dc + 1) in
  dst ← zero_down m dst i;
  let i := i - Z.of_nat m in
  copy_down (Z.to_nat (i + 1)) dst dbuf i (d - 1 - Z.of_nat n).

Definition in6_pton (src : list Z) (srclen : Z) (dst : list Z) (delim : Z) : option (Z * list Z * Z) :=
  srclen ← source_length src srclen;
  '(ok, q) ← loop (Z.to_nat srclen + 2) (in6_step src delim)
               {| p_s := 0; p_srclen := srclen; p_tok := None; p_d := 0; p_dc := None; p_dbuf := replicate 16 0;
                  p_state := Z.lor (Z.lor IN6PTON_COLON_1_2 IN6PTON_XDIGIT) IN6PTON_NULL; p_w := 0 |};
  if ok : bool then
    dst ← (match p_dc q with Some dc => spread dst (p_dbuf q) (p_d q) dc | None => wr_range dst 0 (p_dbuf q) end);
    Some (1, dst, p_s q)
  else Some (0, dst, p_s q).

(** ** Hardware addresses *)

Definition mac_digits : list Z := cstr "0123456789abcdefABCDEF".
Definition is_mac_digit (c : Z) : option bool := r ← strchr mac_digits c; Some (match r with Some _ => true | None => false end).

Definition mac_pton (s mac : list Z) : option (Z * list Z) :=
  n ← strlen s;
  if n <? 3 * 6 - 1 then Some (0, mac) else
  r ← for_up 6 0
    (λ i _,
       a ← rd s (i * 3); ok ← is_mac_digit a;
       if negb ok then Some (Stop tt) else
       b ← rd s (i * 3 + 1); ok ← is_mac_digit b;
       if negb ok then Some (Stop tt) else
       if i =? 5 then Some (Next tt) else
       c ← rd s (i * 3 + 2);
       Some (if negb (c =? ch ":") then Stop tt else Next tt)) tt;
  match r with
  | Stop _ => Some (0, mac)
  | Next _ =>
      mac ← for_each 6 0
        (λ i mac, a ← rd s (i * 3); b ← rd s (i * 3 + 1);
                  wr mac i (wrap 8 (Z.lor (Z.shiftl (hex_to_bin a) 4) (hex_to_bin b)))) mac;
      Some (1, mac)
  end.

(** ** Examples *)

Example in4_demo : in4_pton (cstr "192.168.0.17") (-1) (replicate 4 7) 0 (-1) = Some (1, [192; 168; 0; 17], 12).
Proof. vm_compute. reflexivity. Qed.

Example in6_demo :
  in6_pton (cstr "2001:db8::ffff:10.0.0.1") (-1) (replicate 16 7) (-1) = Some (1, [0x20; 1; 0xd; 0xb8; 0; 0; 0; 0; 0; 0; 255; 255; 10; 0; 0; 1], 23).
Proof. vm_compute. reflexivity. Qed.

Example in6_edges :
  in6_pton (cstr "::") (-1) (replicate 16 7) (-1) = Some (1, replicate 16 0, 2) ∧
  in6_pton (cstr "1:2:3:4:5:6:7::") (-1) (replicate 16 7) (-1) = Some (1, [0; 1; 0; 2; 0; 3; 0; 4; 0; 5; 0; 6; 0; 7; 0; 0], 15) ∧
  in6_pton (cstr "1:2:3:4:5:6:7:8:9") (-1) (replicate 16 7) (-1) = Some (0, replicate 16 7, 15).
Proof. vm_compute. auto. Qed.

Example mac_demo : mac_pton (cstr "00:1a:2B:3c:4d:5e") (replicate 6 7) = Some (1, [0; 0x1a; 0x2b; 0x3c; 0x4d; 0x5e]).
Proof. vm_compute. reflexivity. Qed.
