(* ===== verification/InetText.v ===== *)
(** * Addresses as text: what is printed

    The texts of the pointer extensions for addresses, as words of hexadecimal digits and decimal numbers with separators.  None of them
    overflows the array on the stack that it is built in. *)
From Stdlib Require Import Ascii String.
From S2P Require Import Prelude Ctype Kstrtox NumPrint StringLib Vsprintf VsprintfNumber.
#[local] Open Scope Z_scope.

(** ** Hexadecimal *)

Definition hexc (d : Z) : Z := nth (Z.to_nat d) hex_asc 0.
Definition byte_digits (b : Z) : list Z := [b / 16; b mod 16].

(** A word without leading zeros. *)
Definition word_digits (w : Z) : list Z :=
  let hi := w / 256 in
  let lo := w mod 256 in
  if hi =? 0 then (if 15 <? lo then byte_digits lo else [lo]) else (if 15 <? hi then byte_digits hi else [hi]) ++ byte_digits lo.

Lemma pack_digits p b : in_width 8 b → hex_byte_pack p b = p ++ map hexc (byte_digits b).
Proof.
  intros Hb. assert (Z.shiftr (Z.land b 0xf0) 4 = b / 16) as Hhi by (apply Z.eqb_eq; revert Hb; by_bytes (λ b, Z.shiftr (Z.land b 0xf0) 4 =? b / 16) b).
  assert (Z.land b 0x0f = b mod 16) as Hlo by (apply Z.eqb_eq; revert Hb; by_bytes (λ b, Z.land b 0x0f =? b mod 16) b).
  rw /hex_byte_pack /hex_asc_hi /hex_asc_lo. by rewrite -> Hhi, Hlo.
Qed.

(** The digits of a word: at most four, with its value. *)
Definition is_word (w : Z) (ds : list Z) : Prop := (1 ≤ length ds ≤ 4)%nat ∧ Forall (λ d, 0 ≤ d < 16) ds ∧ value 16 ds = w.

Lemma hex_word_digits p w : in_width 16 w → hex_word p w = p ++ map hexc (word_digits w) ∧ is_word w (word_digits w).
Proof.
  intros [H0 H1]. rw /hex_word /word_digits. cbn zeta. rewrite -> Z.shiftr_div_pow2 by lia. change 0xff with (Z.ones 8). rewrite -> Z.land_ones by lia.
  change (2 ^ 8) with 256. assert (in_width 8 (w / 256)) as Hhi by (split; zdm). assert (in_width 8 (w mod 256)) as Hlo by (split; zdm).
  assert (∀ d, 0 ≤ d < 16 → hex_asc_lo d = hexc d) as Hone.
  { intros d Hd. rw /hex_asc_lo /hexc. change 0x0f with (Z.ones 4). rewrite -> Z.land_ones, Z.mod_small by lia. done. }
  assert (∀ d, in_width 8 d → 0 ≤ d / 16 < 16 ∧ 0 ≤ d mod 16 < 16 ∧ d / 16 * 16 + d mod 16 = d) as Hdig by (intros d [? ?]; zdm).
  destruct (Hdig _ Hhi) as (? & ? & Ehi), (Hdig _ Hlo) as (? & ? & Elo). pose proof (Z.div_mod w 256 ltac:(lia)).
  destruct (Z.eqb_spec (w / 256) 0) as [E|E]; cbn [negb]; (destruct (Z.ltb_spec 15 (w / 256)); [try lia|]); try (destruct (Z.ltb_spec 15 (w mod 256)));
    rewrite -> ?pack_digits, ?Hone, ?map_app, <- ?app_assoc by (done || (destruct Hhi, Hlo; lia)); (split; [done|]); rw /is_word /byte_digits; cbn; split_and!; repeat constructor; try lia.
Qed.

(** ** Bytes and loops *)

Definition byte (addr : list Z) (i : Z) : Z := nth (Z.to_nat i) addr 0.

Lemma rd_byte addr i : 0 ≤ i < Z.of_nat (length addr) → rd addr i = Some (byte addr i).
Proof. intros Hi. apply rd_Some. split; [lia|]. rw /byte. rewrite -> nth_lookup. destruct (lookup_lt_is_Some_2 addr (Z.to_nat i)) as [x ->]; [lia|done]. Qed.

Lemma byte_width addr i : Forall (in_width 8) addr → in_width 8 (byte addr i).
Proof.
  intros Hb. rw /byte. rewrite -> nth_lookup. destruct (addr !! Z.to_nat i) eqn:E; [|by apply in_width_0]. cbn. by apply (Forall_lookup_1 _ _ _ _ Hb E).
Qed.

(** A loop that appends a piece in every round. *)
Lemma for_each_app (piece : Z → list Z) n k (body : Z → list Z → option (list Z)) p :
  (∀ i p, k ≤ i < k + Z.of_nat n → body i p = Some (p ++ piece i)) → for_each n k body p = Some (p ++ concat (map piece (seqZ k (Z.of_nat n)))).
Proof.
  revert k p. induction n as [|n IH]; intros k p Hb; [cbn; by rewrite -> app_nil_r|]. cbn [for_each]. rewrite -> Hb by lia. cbn [mbind option_bind].
  rewrite -> IH by (intros i p' Hi; apply Hb; lia). rewrite -> (seqZ_cons k) by lia. cbn [map concat]. rewrite <- app_assoc. by replace (Z.pred (Z.of_nat (S n))) with (Z.of_nat n) by lia.
Qed.

(** ** Hardware addresses and UUIDs *)

Definition mac_text (f0 f1 : Z) (addr : list Z) : list Z :=
  concat (map (λ i, map hexc (byte_digits (byte addr i)) ++ (if (f0 =? ch "M") && negb (i =? 5) then [if f1 =? ch "F" then ch "-" else ch ":"] else [])) (seqZ 0 6)).

Lemma mac_address_text addr fmt f0 f1 : Forall (in_width 8) addr → (6 ≤ length addr)%nat → rd fmt 0 = Some f0 → rd fmt 1 = Some f1 →
  mac_address addr fmt = Some (mac_text f0 f1 addr ++ [0]).
Proof.
  intros Hb Hl H0 H1. rw /mac_address. rewrite -> H0, H1. cbn [mbind option_bind]. cbn zeta.
  erewrite for_each_app with (piece := λ i, map hexc (byte_digits (byte addr i)) ++ (if (f0 =? ch "M") && negb (i =? 5) then [if f1 =? ch "F" then ch "-" else ch ":"] else [])).
  - cbn [mbind option_bind app]. change (Z.of_nat 6) with 6. fold (mac_text f0 f1 addr). rw /local_array. rewrite -> (proj2 (Z.ltb_ge _ _)); [done|]. rw /mac_text. change (seqZ 0 6) with [0; 1; 2; 3; 4; 5].
    destruct (f0 =? ch "M"); cbn [map concat app byte_digits Z.eqb Pos.eqb negb andb length]; lia.
  - intros i p Hi. rewrite -> rd_byte by lia. cbn [mbind option_bind]. rewrite -> pack_digits by (by apply byte_width). case_if; [by rewrite <- app_assoc|by rewrite -> app_nil_r].
Qed.

Definition uuid_index (f1 : Z) : list Z := if (f1 =? ch "L") || (f1 =? ch "l") then uuid_le else uuid_be.
Definition uuid_words (f1 : Z) (addr : list Z) : list Z :=
  concat (map (λ i, map hexc (byte_digits (byte addr (byte (uuid_index f1) i))) ++ (if (i =? 3) || (i =? 5) || (i =? 7) || (i =? 9) then [ch "-"] else [])) (seqZ 0 16)).

Lemma uuid_text_ok addr fmt f1 : Forall (in_width 8) addr → (16 ≤ length addr)%nat → rd fmt 1 = Some f1 →
  uuid_text addr fmt = Some ((if (f1 =? ch "L") || (f1 =? ch "B") then __toupper <$> uuid_words f1 addr else uuid_words f1 addr) ++ [0]).
Proof.
  intros Hb Hl H1. rw /uuid_text. rewrite -> H1. cbn [mbind option_bind]. cbn zeta. fold (uuid_index f1).
  assert (length (uuid_index f1) = 16%nat ∧ ∀ i, 0 ≤ i < 16 → 0 ≤ byte (uuid_index f1) i < 16) as [Hli Hidx].
  { rw /uuid_index. split; [by destruct (_ || _)|]. intros i Hi. assert (i ∈ seqZ 0 16) as Hin by (apply elem_of_seqZ; lia). clear Hi. revert i Hin. apply Forall_forall.
    destruct (_ || _); apply (bool_decide_unpack _); vm_compute; exact I. }
  erewrite for_each_app with (piece := λ i, map hexc (byte_digits (byte addr (byte (uuid_index f1) i))) ++ (if (i =? 3) || (i =? 5) || (i =? 7) || (i =? 9) then [ch "-"] else [])).
  - cbn [mbind option_bind app]. change (Z.of_nat 16) with 16. fold (uuid_words f1 addr). rw /local_array. rewrite -> (proj2 (Z.ltb_ge _ _)); [done|].
    rw /uuid_words.
    change (seqZ 0 16) with [0; 1; 2; 3; 4; 5; 6; 7; 8; 9; 10; 11; 12; 13; 14; 15].
    destruct (_ || _); rewrite -> length_app, ?length_fmap; cbn [map concat app byte_digits Z.eqb Pos.eqb orb length]; lia.
  - intros i p Hi. rewrite -> (rd_byte (uuid_index f1)) by lia. cbn [mbind option_bind]. rewrite -> rd_byte by (specialize (Hidx i ltac:(lia)); lia). cbn [mbind option_bind].
    rewrite -> pack_digits by (by apply byte_width). case_if; [by rewrite <- app_assoc|by rewrite -> app_nil_r].
Qed.

(** ** IPv4 *)

(** The decimal digits of a byte, the first one first. *)
Definition byte_vals (b : Z) : list Z := rev (vals_rev 8 10 b).

(** A decimal number of at most three digits. *)
Definition is_octet (b : Z) (ds : list Z) : Prop := (1 ≤ length ds ≤ 3)%nat ∧ Forall (λ d, 0 ≤ d < 10) ds ∧ value 10 ds = b.

Definition octet_digits (lz : bool) (b : Z) : list Z := (if lz then replicate (3 - length (byte_vals b)) 0 else []) ++ byte_vals b.
Definition decc (d : Z) : Z := 48 + d.

(** Four numbers with dots. *)
Definition quad_text (lz : bool) (bs : list Z) : list Z :=
  concat (map (λ i, map decc (octet_digits lz (byte bs i)) ++ (if i <? 3 then [ch "."] else [])) (seqZ 0 4)).

Lemma byte_vals_ok b : in_width 8 b → is_octet b (byte_vals b) ∧ put_dec_trunc8 [] b = map decc (rev (byte_vals b)).
Proof.
  intros [H0 H1]. assert (0 ≤ b < 10 ^ Z.of_nat 8) as Hb by (cbn; lia). split.
  - split_and!.
    + rw /byte_vals. rewrite -> length_rev. cbn. lia.
    + apply Nat.leb_le. assert (in_width 8 b) as Hw by done. revert Hw. by_bytes (λ b, (length (byte_vals b) <=? 3)%nat) b.
    + apply Forall_rev, vals_bound. lia.
    + by apply vals_value.
  - rewrite -> put_dec_trunc8_spec by lia. cbn [app]. rw /byte_vals. rewrite -> rev_involutive, decimal_digits, digits_vals by lia. apply map_ext_in. intros d Hd.
    assert (0 ≤ d < 10) as Hr by (apply (Forall_forall (λ d, 0 ≤ d < 10) (vals_rev 8 10 b)); [apply vals_bound; lia|by apply list_elem_of_In]). rw /digit_ref /decc. by ztest.
Qed.

Lemma octet_ok lz b : in_width 8 b → is_octet b (octet_digits lz b).
Proof.
  intros Hb. destruct (byte_vals_ok b Hb) as [(Hl & Hd & Hv) _]. destruct lz; rw /octet_digits; [|done]. split_and!.
  - rewrite -> length_app, length_replicate. lia.
  - rewrite -> length_app, length_replicate. lia.
  - apply Forall_app. split; [apply Forall_replicate; lia|done].
  - rewrite -> value_app. replace (value 10 (replicate _ 0)) with 0; [done|]. generalize (3 - length (byte_vals b))%nat. clear. intros z. induction z; [done|exact IHz].
Qed.

(** The order in which the bytes are printed. *)
Definition quad_order (f2 : Z) (bs : list Z) : list Z := if (f2 =? ch "h") || (f2 =? ch "l") then rev bs else bs.

Lemma ip4_string_text p addr fmt f0 f2 : Forall (in_width 8) addr → (4 ≤ length addr)%nat → rd fmt 0 = Some f0 → rd fmt 2 = Some f2 →
  ip4_string p addr fmt = Some (p ++ quad_text (f0 =? ch "i") (quad_order f2 (take 4 addr)) ++ [0]).
Proof.
  intros Hb Hl H0 H2. rw /ip4_string. rewrite -> H0, H2. cbn [mbind option_bind]. cbn zeta. destruct (ip4_order f2) as [index step] eqn:Eo.
  assert (∀ i, 0 ≤ i < 4 → 0 ≤ index + i * step < 4 ∧ byte (quad_order f2 (take 4 addr)) i = byte addr (index + i * step)) as Hidx.
  { destruct addr as [|a [|b [|c [|d r]]]]; cbn in Hl; try lia. rw /ip4_order in Eo. rw /quad_order. intros i Hi.
    assert (i = 0 ∨ i = 1 ∨ i = 2 ∨ i = 3) as Hc by lia. destruct (_ || _); injection Eo as <- <-; destruct Hc as [-> | [-> | [-> | ->]]]; done. }
  set (piece := λ i, map decc (octet_digits (f0 =? ch "i") (byte (quad_order f2 (take 4 addr)) i)) ++ (if i <? 3 then [ch "."] else [])).
  edestruct (for_each_inv (λ i '(p', ix), ix = index + i * step ∧ p' = p ++ concat (map piece (seqZ 0 i))) 4 0) as ([p' ix] & -> & _ & ->).
  - split; [lia|]. cbn. by rewrite -> app_nil_r.
  - intros j [p' ix] Hj (-> & ->). destruct (Hidx j ltac:(lia)) as [Hr Ebyte]. rewrite -> rd_byte by lia. cbn [mbind option_bind].
    destruct (byte_vals_ok _ (byte_width addr (index + j * step) Hb)) as [((Hl1 & Hl2) & _) ->].
    rw /local_array. rewrite -> (proj2 (Z.ltb_ge 3 _)) by (rewrite -> length_map, length_rev; lia). cbn [mbind option_bind].
    eexists. split; [done|]. split; [lia|]. rewrite -> (seqZ_app 0 j 1), map_app, concat_app by lia. cbn [seqZ]. rewrite -> length_map, length_rev, <- map_rev, rev_involutive.
    change (seqZ (0 + j) 1) with [0 + j]. rewrite -> Z.add_0_l. cbn [map concat]. rewrite -> app_nil_r, (app_assoc p). generalize (p ++ concat (map piece (seqZ 0 j))). intros P.
    rw /piece /octet_digits. rewrite -> Ebyte. revert Hl1 Hl2. generalize (byte_vals (byte addr (index + j * step))). intros vs Hl1 Hl2.
    assert (length vs = 1 ∨ length vs = 2 ∨ length vs = 3)%nat as Hc by lia. destruct (f0 =? ch "i"), Hc as [-> | [-> | ->]], (j <? 3); cbn; ztest; rewrite <- ?app_assoc; by rewrite -> ?app_nil_r.
  - cbn [mbind option_bind]. by rewrite <- app_assoc.
Qed.

(** ** IPv6 *)

(** The word in network order. *)
Definition word (addr : list Z) (j : Z) : Z := byte addr (2 * j) * 256 + byte addr (2 * j + 1).

(** Texts with colons between them, and with a colon behind each. *)
Definition joined (ws : list (list Z)) : list Z := match ws with [] => [] | w :: ws => w ++ concat (map (λ w, ch ":" :: w) ws) end.
Definition colonised (ws : list (list Z)) : list Z := concat (map (λ w, w ++ [ch ":"]) ws).

Lemma joined_snoc ws w : joined (ws ++ [w]) = colonised ws ++ w.
Proof.
  destruct ws as [|a ws]; [cbn; by rewrite -> app_nil_r|]. cbn [joined app]. rw /colonised. revert a. induction ws as [|b ws IH]; intros a.
  - cbn. by rewrite -> !app_nil_r, <- app_assoc.
  - specialize (IH b). cbn [app map concat] in *. rewrite -> IH. by rewrite <- !app_assoc.
Qed.

Lemma joined_colon ws : ws ≠ [] → joined ws ++ [ch ":"] = colonised ws.
Proof.
  destruct ws as [|a ws] using rev_ind; [done|]. intros _. rewrite -> joined_snoc. rw /colonised. rewrite -> map_app, concat_app. cbn. by rewrite -> app_nil_r, <- app_assoc.
Qed.

(** The digits of the words from [a] on. *)
Definition word_texts (addr : list Z) (a n : Z) : list (list Z) := map (λ j, map hexc (word_digits (word addr j))) (seqZ a n).

Lemma pair_at addr j : length addr = 16%nat → 0 ≤ j < 8 → take (Z.to_nat 2) (drop (Z.to_nat (2 * j)) addr) = [byte addr (2 * j); byte addr (2 * j + 1)].
Proof.
  intros Hl Hj. rewrite -> (drop_S addr (byte addr (2 * j))), (drop_S addr (byte addr (2 * j + 1))); [done| |].
  - replace (S (Z.to_nat (2 * j))) with (Z.to_nat (2 * j + 1)) by lia. apply (rd_Some addr (2 * j + 1)), rd_byte. lia.
  - apply (rd_Some addr (2 * j)), rd_byte. lia.
Qed.

Section ip6.
Context (addr : list Z) (Hbytes : Forall (in_width 8) addr) (Hlen : length addr = 16%nat).

Lemma word_width j : in_width 16 (word addr j).
Proof using Hbytes. clear Hlen. destruct (byte_width addr (2 * j) Hbytes), (byte_width addr (2 * j + 1) Hbytes). rw /word. split; lia. Qed.

Lemma s6_addr16_word j : 0 ≤ j < 8 → ∃ w, s6_addr16 addr j = Some w ∧ ntohs w = word addr j ∧ (w = 0 ↔ word addr j = 0).
Proof using Hbytes Hlen.
  intros Hj. rw /s6_addr16 /read_le /rd_range. rewrite -> Hlen. rewrite -> (proj2 (Z.leb_le 0 (2 * j))), (proj2 (Z.leb_le (2 * j + 2) _)) by lia. cbn [andb Z.leb Z.compare fmap option_fmap option_map].
  assert (take (Z.to_nat 2) (drop (Z.to_nat (2 * j)) addr) = [byte addr (2 * j); byte addr (2 * j + 1)]) as ->.
  { by apply pair_at. }
  eexists. split; [done|]. cbn [le_value]. rw /ntohs /word. destruct (byte_width addr (2 * j) Hbytes) as [? Hx], (byte_width addr (2 * j + 1) Hbytes) as [? Hy].
  set (x := byte addr (2 * j)) in *. set (y := byte addr (2 * j + 1)) in *. change (2 ^ 8) with 256 in *. split; [|lia].
  change 0xff with (Z.ones 8). rewrite -> Z.land_ones, Z.shiftr_div_pow2 by lia. change (2 ^ 8) with 256.
  replace ((x + 256 * (y + 256 * 0)) / 256) with y by zdm. replace ((x + 256 * (y + 256 * 0)) mod 256) with x by zdm.
  rewrite <- Z.add_nocarry_lor, Z.shiftl_mul_pow2; [lia|lia|]. apply Z.bits_inj'. intros i Hi. rewrite -> Z.land_spec, Z.bits_0, Z.shiftl_spec by lia.
  destruct (Z.lt_ge_cases i 8); [rewrite -> (Z.testbit_neg_r x) by lia; apply andb_false_r|]. by rewrite -> (testbit_above 8 y) by done.
Qed.

Definition all_zero (i n : Z) : Prop := ∀ j, i ≤ j < i + n → word addr j = 0.

Lemma zero_run_ok range i : range ≤ 8 → 0 ≤ i ≤ range → ∃ n, zero_run addr range i = Some n ∧ 0 ≤ n ∧ i + n ≤ range ∧ all_zero i n.
Proof using Hbytes Hlen.
  intros Hr Hi. rw /zero_run.
  destruct (for_up_inv (λ j n, n = j - i ∧ i ≤ j ∧ all_zero i n) (λ n, 0 ≤ n ∧ i + n ≤ range ∧ all_zero i n) (Z.to_nat (range - i)) i
    (λ j n, w ← s6_addr16 addr j; Some (if negb (w =? 0) then Stop n else Next (n + 1))) 0) as [(n & -> & -> & Hn & Hz)|(n & -> & H1 & H2 & Hz)].
  - split; [lia|]. split; [lia|]. intros j Hj. lia.
  - intros j n Hj (-> & Hij & Hz). destruct (s6_addr16_word j ltac:(lia)) as (w & -> & _ & Hw0). cbn [mbind option_bind]. destruct (Z.eqb_spec w 0) as [E|E]; cbn [negb].
    + left. eexists. split; [done|]. split; [lia|]. split; [lia|]. intros k Hk. destruct (Z.eq_dec k j) as [->|]; [by apply Hw0|]. apply Hz. lia.
    + right. eexists. split; [done|]. split; [lia|]. split; [lia|done].
  - cbn [mbind option_bind]. eexists. split; [done|]. split_and!; [lia|lia|done].
  - cbn [mbind option_bind]. by exists n.
Qed.

Lemma longest_run_ok range : 0 ≤ range ≤ 8 → ∃ pos len, longest_run addr range = Some (pos, len) ∧
  (pos = -1 ∨ (0 ≤ pos ∧ 2 ≤ len ∧ pos + len ≤ range ∧ all_zero pos len)).
Proof using Hbytes Hlen.
  intros Hr. rw /longest_run.
  edestruct (for_each_inv (λ _ '(longest, pos), (longest = 1 ∧ pos = -1) ∨ (0 ≤ pos ∧ 2 ≤ longest ∧ pos + longest ≤ range ∧ all_zero pos longest)) (Z.to_nat range) 0)
    as ([longest pos] & -> & Hinv).
  - by left.
  - intros i [longest pos] Hi Hinv. destruct (zero_run_ok range i) as (n & -> & Hn); [lia|lia|]. cbn [mbind option_bind]. eexists. split; [done|].
    destruct (Z.ltb_spec longest n); [|done]. right. destruct Hinv as [[-> ->]|Hinv]; split_and!; lia || apply Hn.
  - cbn [mbind option_bind]. eexists _, _. split; [done|]. destruct Hinv as [[-> ->]|Hinv]; [by left|]. right. by ztest.
Qed.

(** The loop that prints the words [a .. b), which the run does not touch. *)
Definition emit_step (range pos len : Z) : Z * bool * list Z → option (ctl (Z * bool * list Z) (bool * list Z)) :=
  λ '(i, needcolon, p),
     if negb (i <? range) then Some (Stop (needcolon, p)) else
     if i =? pos then
       let p := if needcolon || (i =? 0) then p ++ [ch ":"] else p in
       Some (Next (i + (len - 1) + 1, false, p ++ [ch ":"]))
     else
       let p := if needcolon : bool then p ++ [ch ":"] else p in
       w ← s6_addr16 addr i;
       Some (Next (i + 1, true, hex_word p (ntohs w))).

Lemma emit_words n range pos len fuel a (nc : bool) p : 0 ≤ a → a + Z.of_nat n ≤ range ≤ 8 → (pos < a ∨ a + Z.of_nat n ≤ pos) →
  loop (n + fuel) (emit_step range pos len) (a, nc, p) =
  loop fuel (emit_step range pos len) (a + Z.of_nat n, nc || bool_decide (n ≠ O),
     p ++ if nc then concat (map (λ w, ch ":" :: w) (word_texts addr a (Z.of_nat n))) else joined (word_texts addr a (Z.of_nat n))).
Proof using Hbytes Hlen.
  revert a nc p. induction n as [|n IH]; intros a nc p H0 Hr Hpos.
  - cbn. rewrite -> Z.add_0_r, orb_false_r. destruct nc; by rewrite -> app_nil_r.
  - cbn [Nat.add loop]. rw {1}/emit_step. rewrite -> (proj2 (Z.ltb_lt a range)) by lia. cbn [negb]. rewrite -> (proj2 (Z.eqb_neq a pos)) by lia.
    destruct (s6_addr16_word a ltac:(lia)) as (w & -> & Hn & _). cbn [mbind option_bind]. rewrite -> Hn. destruct (hex_word_digits (if nc then p ++ [ch ":"] else p) (word addr a) (word_width a)) as [-> _].
    rewrite -> IH by lia. rewrite -> orb_true_r. rw /word_texts. rewrite -> (seqZ_cons a (Z.of_nat (S n))) by lia. replace (Z.pred (Z.of_nat (S n))) with (Z.of_nat n) by lia.
    replace (Z.succ a) with (a + 1) by lia. f_equal. cbn [map concat joined orb]. f_equal; [f_equal; lia|]. destruct nc; cbn [app]; rewrite <- !app_assoc; done.
Qed.

(** The last four bytes are printed in decimal only behind a word that is not 0. *)
Lemma s6_addr32_ok j : 0 ≤ j < 4 → ∃ w, s6_addr32 addr j = Some w ∧ Z.shiftr w 16 = byte addr (4 * j + 2) + 256 * byte addr (4 * j + 3).
Proof using Hbytes Hlen.
  intros Hj. rw /s6_addr32 /read_le /rd_range. rewrite -> Hlen. rewrite -> (proj2 (Z.leb_le 0 (4 * j))), (proj2 (Z.leb_le (4 * j + 4) _)) by lia. cbn [andb Z.leb Z.compare fmap option_fmap option_map].
  replace (Z.to_nat (4 * j)) with (Z.to_nat (2 * (2 * j))) by lia. change (Z.to_nat 4) with (Z.to_nat 2 + Z.to_nat 2)%nat. rewrite <- take_take_drop, drop_drop, (pair_at addr (2 * j)) by lia.
  replace (Z.to_nat (2 * (2 * j)) + Z.to_nat 2)%nat with (Z.to_nat (2 * (2 * j + 1))) by lia. rewrite -> (pair_at addr (2 * j + 1)) by lia. cbn [app le_value]. eexists. split; [done|].
  rewrite -> Z.shiftr_div_pow2 by lia. change (2 ^ 16) with 65536.
  destruct (byte_width addr (2 * (2 * j)) Hbytes) as [? Hx], (byte_width addr (2 * (2 * j) + 1) Hbytes) as [? Hy]. replace (4 * j + 2) with (2 * (2 * j + 1)) by lia.
  replace (4 * j + 3) with (2 * (2 * j + 1) + 1) by lia. change (2 ^ 8) with 256 in *. zdm.
Qed.

Lemma use_ipv4 : ∃ mapped isatap, ipv6_addr_v4mapped addr = Some mapped ∧ ipv6_addr_is_isatap addr = Some isatap ∧ (mapped || isatap = true → word addr 5 ≠ 0).
Proof using Hbytes Hlen.
  rw /ipv6_addr_v4mapped /ipv6_addr_is_isatap. destruct (s6_addr32_ok 0 ltac:(lia)) as (a0 & -> & _), (s6_addr32_ok 1 ltac:(lia)) as (a1 & -> & _), (s6_addr32_ok 2 ltac:(lia)) as (a2 & -> & H2).
  cbn [mbind option_bind]. eexists _, _. split; [done|]. split; [done|]. change (4 * 2 + 2) with 10 in H2. change (4 * 2 + 3) with 11 in H2. rw /word. change (2 * 5) with 10. change (10 + 1) with 11.
  intros E Hw. assert (Z.shiftr a2 16 = 0) as Hz by (rewrite -> H2; destruct (byte_width addr 10 Hbytes), (byte_width addr 11 Hbytes); lia).
  apply orb_true_iff in E as [E|E]; zbool.
  - apply Z.lor_eq_0_iff in E as [_ E]. apply Z.lxor_eq in E. by rewrite -> E in Hz.
  - apply (f_equal (λ x, Z.shiftr x 16)) in E. by rewrite -> Z.shiftr_lor, Hz in E.
Qed.

(** The forms of a compressed address. *)
Inductive ip6_form : list Z → Prop :=
| form_full : ip6_form (joined (word_texts addr 0 8))
| form_run pos len : 0 ≤ pos → 2 ≤ len → pos + len ≤ 8 → all_zero pos len →
    ip6_form (joined (word_texts addr 0 pos) ++ [ch ":"; ch ":"] ++ joined (word_texts addr (pos + len) (8 - (pos + len))))
| form_quad : ip6_form (joined (word_texts addr 0 6) ++ [ch ":"] ++ quad_text false (drop 12 addr))
| form_run_quad pos len : 0 ≤ pos → 2 ≤ len → pos + len < 6 → all_zero pos len →
    ip6_form (joined (word_texts addr 0 pos) ++ [ch ":"; ch ":"] ++ joined (word_texts addr (pos + len) (6 - (pos + len))) ++ [ch ":"] ++ quad_text false (drop 12 addr)).

(** What the loop prints: all words, or those before and behind the run. *)
Lemma emit_all range pos len : (range = 6 ∨ range = 8) → (pos = -1 ∨ (0 ≤ pos ∧ 2 ≤ len ∧ pos + len ≤ range ∧ all_zero pos len)) →
  loop 9 (emit_step range pos len) (0, false, []) =
  Some (if pos =? -1 then (true, joined (word_texts addr 0 range))
        else (bool_decide (pos + len < range), joined (word_texts addr 0 pos) ++ [ch ":"; ch ":"] ++ joined (word_texts addr (pos + len) (range - (pos + len))))).
Proof using Hbytes Hlen.
  intros Hr [->|(H0 & H2 & Hl & _)].
  - replace 9%nat with (Z.to_nat range + (9 - Z.to_nat range))%nat by lia. rewrite -> emit_words by lia. rewrite -> Z2Nat.id by lia. cbn [app].
    replace (9 - Z.to_nat range)%nat with (S (8 - Z.to_nat range)) by lia. cbn [loop]. rw {1}/emit_step. rewrite -> Z.add_0_l, Z.ltb_irrefl. cbn [negb Z.eqb].
    by rewrite -> bool_decide_eq_true_2 by lia.
  - set (m := Z.to_nat (range - (pos + len))). replace 9%nat with (Z.to_nat pos + S (m + (8 - Z.to_nat pos - m)))%nat by lia. rewrite -> emit_words by lia. rewrite -> Z2Nat.id, Z.add_0_l by lia.
    cbn [app loop orb]. rw {1}/emit_step. rewrite -> (proj2 (Z.ltb_lt pos range)), Z.eqb_refl by lia. cbn [negb].
    assert (bool_decide (Z.to_nat pos ≠ 0%nat) || (pos =? 0) = true) as ->.
    { destruct (Z.eqb_spec pos 0); [apply orb_true_r|]. by rewrite -> bool_decide_eq_true_2 by lia. }
    replace (pos + (len - 1) + 1) with (pos + len) by lia. rewrite -> emit_words by lia. replace (8 - Z.to_nat pos - m)%nat with (S (7 - Z.to_nat pos - m)) by lia. cbn [loop orb].
    rw {1}/emit_step. replace (pos + len + Z.of_nat m) with range by lia. rewrite -> Z.ltb_irrefl. cbn [negb]. rewrite -> (proj2 (Z.eqb_neq pos (-1))) by lia.
    replace (Z.of_nat m) with (range - (pos + len)) by lia. rewrite <- !app_assoc. do 2 f_equal. apply bool_decide_ext. lia.
Qed.

Lemma ip6_compressed_text : ∃ t, ip6_compressed_string addr = Some (t ++ [0]) ∧ ip6_form t.
Proof using Hbytes Hlen.
  rw /ip6_compressed_string. assert (rd_range addr 0 16 = Some addr) as -> by (rw /rd_range; rewrite -> Hlen; cbn; by rewrite -> drop_0, take_ge by (rewrite -> Hlen; done)).
  cbn [mbind option_bind]. destruct use_ipv4 as (mapped & isatap & -> & Hi & H5). cbn [mbind option_bind].
  assert ((if mapped then Some false else ipv6_addr_is_isatap addr) = Some (negb mapped && isatap)) as -> by (destruct mapped; [done|by rewrite -> Hi]). cbn [mbind option_bind].
  replace (mapped || (negb mapped && isatap)) with (mapped || isatap) by (by destruct mapped). set (quad := mapped || isatap) in *. set (range := if quad then 6 else 8).
  assert (range = 6 ∨ range = 8) as Hr by (rw /range; destruct quad; auto).
  destruct (longest_run_ok range ltac:(lia)) as (pos & len & -> & Hrun). cbn [mbind option_bind]. 
  rewrite -> (loop_ext _ (emit_step range pos len)) by (intros [[i nc] p]; done). rewrite -> emit_all by done. cbn [mbind option_bind].
  assert (∃ q, rd_range addr 12 4 = Some q ∧ q = drop 12 addr) as (q & -> & ->).
  { rw /rd_range. rewrite -> Hlen. eexists. split; [reflexivity|]. by rewrite -> take_ge by (rewrite -> length_drop, Hlen; done). }
  assert (∀ p, ip4_string p (drop 12 addr) (cstr "I4") = Some (p ++ quad_text false (drop 12 addr) ++ [0])) as Hq.
  { intros p. rewrite -> (ip4_string_text p _ _ (ch "I") 0); [|by apply Forall_drop|rewrite -> length_drop, Hlen; lia|done|done]. cbn [Z.eqb ch]. do 4 f_equal.
    rewrite -> take_ge by (rewrite -> length_drop, Hlen; lia). done. }
  destruct (Z.eqb_spec pos (-1)) as [->|Hp]; cbn [mbind option_bind]; destruct quad eqn:Eq.
  - rewrite -> Hq. eexists. split; [by rewrite -> app_assoc|]. rewrite <- app_assoc. apply form_quad.
  - eexists. split; [done|]. apply form_full.
  - destruct Hrun as [?|(H0 & H2 & Hl & Hz)]; [done|]. assert (pos + len < 6) as Hlt.
    { destruct (Z.lt_ge_cases (pos + len) 6); [done|]. exfalso. apply (H5 eq_refl). apply Hz. rw /range in Hl. lia. }
    rewrite -> bool_decide_eq_true_2 by done. rewrite -> Hq. eexists. split; [by rewrite -> app_assoc|]. rewrite <- !app_assoc. by apply form_run_quad.
  - destruct Hrun as [?|(H0 & H2 & Hl & Hz)]; [done|]. eexists. split; [done|]. by apply form_run.
Qed.
End ip6.

(** The digits of a word with leading zeros. *)
Definition full_texts (addr : list Z) : list (list Z) := map (λ j, map hexc (byte_digits (byte addr (2 * j)) ++ byte_digits (byte addr (2 * j + 1)))) (seqZ 0 8).

Lemma ip6_string_text addr fmt f0 : Forall (in_width 8) addr → (16 ≤ length addr)%nat → rd fmt 0 = Some f0 →
  ip6_string addr fmt = Some ((if f0 =? ch "I" then joined (full_texts addr) else concat (full_texts addr)) ++ [0]).
Proof.
  intros Hb Hl H0. rw /ip6_string. rewrite -> H0. cbn [mbind option_bind].
  erewrite for_each_app with (piece := λ i, map hexc (byte_digits (byte addr (2 * i)) ++ byte_digits (byte addr (2 * i + 1))) ++ (if (f0 =? ch "I") && negb (i =? 7) then [ch ":"] else [])).
  - cbn [mbind option_bind app]. do 2 f_equal. change (seqZ 0 (Z.of_nat 8)) with [0; 1; 2; 3; 4; 5; 6; 7]. rw /full_texts. change (seqZ 0 8) with [0; 1; 2; 3; 4; 5; 6; 7].
    destruct (f0 =? ch "I"); done.
  - intros i p Hi. rewrite -> rd_byte by lia. cbn [mbind option_bind]. rewrite -> rd_byte by lia. cbn [mbind option_bind]. rewrite -> !pack_digits by (by apply byte_width).
    rewrite -> map_app. case_if; rewrite <- !app_assoc; [done|by rewrite -> app_nil_r].
Qed.

Lemma compressed_take addr : (16 ≤ length addr)%nat → ip6_compressed_string addr = ip6_compressed_string (take 16 addr).
Proof.
  intros Hl. rw /ip6_compressed_string. assert (∀ l, (16 ≤ length l)%nat → rd_range l 0 16 = Some (take 16 l)) as Hr.
  { intros l H. rw /rd_range. by rewrite -> (proj2 (Z.leb_le (0 + 16) _)) by lia. }
  rewrite -> !Hr; [|rewrite -> length_take; lia|done]. cbn [mbind option_bind]. rewrite -> take_take. done.
Qed.
