(* ===== verification/VsprintfPointer.v ===== *)
(** * Formatted output: pointers

    The extensions of [%p] build their text in arrays on the stack: every text fits its array. *)
From Stdlib Require Import Ascii String.
From S2P Require Import Prelude Ctype Kstrtox NumPrint StringLib Vsprintf VsprintfText VsprintfNumber InetText.
#[local] Open Scope Z_scope.

(** ** Resources *)

(** The array [sym] of [resource_string], which has the text [t] so far. *)
Definition sym_shows : outbuf → list Z → Prop := shows (replicate (Z.to_nat SYM_SIZE) 0) SYM_SIZE.

#[local] Instance sym_rel : SinkRel sym_shows.
Proof.
  assert (0 ≤ SYM_SIZE ≤ Z.of_nat (length (replicate (Z.to_nat SYM_SIZE) 0))) as Hs by (rewrite -> length_replicate; done).
  split; [by apply shows_put|by apply shows_text|by apply shows_call|]. intros o t (_ & E & _). exact E.
Qed.

Lemma put_raw_shows c p t : sym_shows p t → Z.of_nat (length t) < SYM_SIZE → ∃ p', put_raw c p = Some p' ∧ sym_shows p' (t ++ [c]).
Proof.
  intros Hp Ht. pose proof (rel_put c p t Hp) as Hr. destruct Hp as (Ee & Es & _). cbn [put outbuf_sink text_sink] in Hr. rewrite -> Ee, Es, (proj2 (Z.ltb_lt _ SYM_SIZE)) in Hr by done.
  rw /put_raw. rewrite -> Es. destruct (wr (ob_buf p) (Z.of_nat (length t)) c); [|done]. cbn [mbind option_bind] in *. eexists. split; [done|]. by rewrite -> Ee.
Qed.

(** The length of a number without sign and precision. *)
Definition longest_number (spec : printf_spec) : Z := Z.max (ps_field_width spec) (if ps_base spec =? 10 then 20 else if flag SPECIAL spec then 18 else 16).

Lemma number_shows v spec p t : sym_shows p t → in_width 64 v → ps_base spec = 10 ∨ ps_base spec = 16 → ps_precision spec = -1 → 0 ≤ ps_field_width spec ≤ 16 → flag SIGN spec = false →
  ∃ p' s, number v spec p = Some p' ∧ sym_shows p' (t ++ s) ∧ Z.of_nat (length s) ≤ longest_number spec.
Proof.
  intros Hp Hv Hb Hprec Hw Hs. pose proof (number_related sym_shows v spec p t Hp) as Hr.
  assert (sign_text spec v = []) as Hsign by (rw /sign_text; by rewrite -> Hs).
  assert (abs_value spec v = v) as Habs by (rw /abs_value; by rewrite -> Hs).
  set (loc := Z.land (ps_flags spec) SMALL).
  assert (length (digits_rev 22 (ps_base spec) loc v) ≤ if (ps_base spec =? 10)%Z then 20 else 16)%nat as Hd.
  { destruct Hv as [H0 H1]. destruct Hb as [-> | ->]; cbn [Z.eqb Pos.eqb].
    - rewrite <- (digits_rev_fuel 20 22); [apply digits_rev_length|lia|split; [done|eapply Z.lt_le_trans; [exact H1|by vm_compute]]|lia|lia].
    - rewrite <- (digits_rev_fuel 16 22); [apply digits_rev_length|lia|split; [done|eapply Z.lt_le_trans; [exact H1|by vm_compute]]|lia|lia]. }
  assert (length (body_text spec v) ≤ if (ps_base spec =? 10)%Z then 20 else 16)%nat as Hbody.
  { rw /body_text /digits_of. rewrite -> Habs, Hprec, length_app, length_replicate, length_rev. fold loc. cbn [Z.to_nat]. lia. }
  assert (length (prefix_text spec v) ≤ if (ps_base spec =? 10)%Z then 0 else if flag SPECIAL spec then 2 else 0)%nat as Hpfx.
  { rw /prefix_text. destruct (flag SPECIAL spec), Hb as [-> | ->]; cbn; lia. }
  rewrite -> number_ok in Hr; [|done|lia|lia|lia|rw /free_width; rewrite -> Hsign; destruct (ps_base spec =? 10), (flag SPECIAL spec); cbn [length]; lia].
  destruct (number v spec p) as [p'|]; [|done]. exists p', (number_text spec v). split; [done|]. split; [exact Hr|].
  assert (Z.of_nat (length (number_text spec v)) = Z.max (ps_field_width spec) (Z.of_nat (length (sign_text spec v) + length (prefix_text spec v) + length (body_text spec v)))) as ->.
  { rw /number_text. destruct (flag LEFT spec), (flag ZEROPAD spec); rewrite -> !length_app, length_replicate; rw /free_width; lia. }
  rewrite -> Hsign. rw /longest_number. destruct (ps_base spec =? 10), (flag SPECIAL spec); cbn [length]; lia.
Qed.

Lemma name_shows name p t : sym_shows p t → Forall (λ c, c ≠ 0) (chars name) → (length (chars name) ≤ 10)%nat →
  ∃ p', string_out (constant name) str_spec p = Some p' ∧ sym_shows p' (t ++ chars name).
Proof.
  intros Hp Hn Hl. pose proof (string_related sym_shows (constant name) str_spec p t Hp) as Hr. rw /constant /cstr in Hr. rewrite -> string_ok in Hr by (done || (cbn; lia)).
  assert (field_text str_spec (chars name) = chars name) as E.
  { rw /field_text. change (Z.to_nat (wrap 64 (ps_precision str_spec))) with 10%nat. rewrite -> take_ge by done. change (flag LEFT str_spec) with true. cbn [ps_field_width str_spec mk_spec].
    replace (Z.to_nat (-1 - _)) with O by lia. by rewrite -> app_nil_r. }
  rewrite -> E in Hr. rw /constant /cstr. destruct (string_out _ str_spec p) as [p'|]; [|done]. by exists p'.
Qed.

Lemma opt_shows (b : bool) name p t : sym_shows p t → Forall (λ c, c ≠ 0) (chars name) → (length (chars name) ≤ 10)%nat →
  ∃ p' s, (if b then string_out (constant name) str_spec p else Some p) = Some p' ∧ sym_shows p' (t ++ s) ∧ (length s ≤ length (chars name))%nat.
Proof.
  intros Hp Hn Hl. destruct b; [|exists p, []; rewrite -> app_nil_r; split_and!; [done|done|cbn; lia]]. destruct (name_shows name p t Hp Hn Hl) as (p' & -> & Hp'). by exists p', (chars name).
Qed.

(** The kinds of resources. *)
Lemma resource_kind_ok flags : let '(name, spec, known) := resource_kind flags in
  Forall (λ c, c ≠ 0) (chars name) ∧ length (chars name) = 4%nat ∧ (ps_base spec = 10 ∨ ps_base spec = 16) ∧ ps_precision spec = -1 ∧ 0 ≤ ps_field_width spec ≤ 16 ∧
  flag SIGN spec = false ∧ longest_number spec ≤ 20.
Proof. rw /resource_kind. cbn zeta. repeat case_if; (split; [by apply (bool_decide_unpack _)|]); split_and!; cbn; auto; vm_compute; congruence. Qed.

Lemma resource_text_fits res fmt f0 : rd fmt 0 = Some f0 → in_width 64 (rs_start res) → in_width 64 (rs_end res) → in_width 64 (rs_flags res) →
  ∃ t r, resource_text res fmt = Some (t ++ 0 :: r) ∧ Z.of_nat (length t) < SYM_SIZE.
Proof.
  intros H0 Hs He Hf. rw /resource_text. rewrite -> H0. cbn [mbind option_bind]. cbn zeta. pose proof (resource_kind_ok (rs_flags res)) as Hk.
  destruct (resource_kind (rs_flags res)) as [[name spec] known]. destruct Hk as (Hn & Hnl & Hb & Hprec & Hw & Hsign & Hlong).
  set (p0 := {| ob_buf := _ |}). assert (sym_shows p0 []) as Hp by (by split_and!).
  destruct (put_raw_shows (ch "[") p0 [] Hp ltac:(rw /SYM_SIZE; cbn; lia)) as (p1 & -> & Hp1). cbn [mbind option_bind app] in *.
  destruct (name_shows name p1 _ Hp1 Hn ltac:(lia)) as (p2 & -> & Hp2). cbn [mbind option_bind].
  destruct (number_shows (rs_start res) spec p2 _ Hp2 Hs Hb Hprec Hw Hsign) as (p3 & s3 & -> & Hp3 & Hl3). cbn [mbind option_bind].
  set (t3 := ([ch "["] ++ chars name) ++ s3) in *. assert (Z.of_nat (length t3) ≤ 25) as Ht3 by (rw /t3; rewrite -> length_app; cbn; lia). clearbody t3.
  assert (∃ p4 s4, (if negb (rs_start res =? rs_end res) then p ← put_raw (ch "-") p3; number (rs_end res) spec p else Some p3) = Some p4 ∧ sym_shows p4 (t3 ++ s4) ∧ Z.of_nat (length s4) ≤ 21)
    as (p4 & s4 & -> & Hp4 & Hl4).
  { destruct (negb _); [|exists p3, []; rewrite -> app_nil_r; split_and!; [done|done|cbn; lia]]. destruct (put_raw_shows (ch "-") p3 t3 Hp3 ltac:(rw /SYM_SIZE; lia)) as (p & -> & Hp'). cbn [mbind option_bind].
    destruct (number_shows (rs_end res) spec p _ Hp' He Hb Hprec Hw Hsign) as (p4 & s & -> & Hp4 & Hl). exists p4, (ch "-" :: s). split; [done|]. split; [by rewrite <- app_assoc in Hp4|cbn; lia]. }
  cbn [mbind option_bind]. set (t4 := t3 ++ s4) in *. assert (Z.of_nat (length t4) ≤ 46) as Ht4 by (rw /t4; rewrite -> length_app; lia). clearbody t4.
  set (tail := if _ && known then _ else _). assert (∃ p5 s5, tail = Some p5 ∧ sym_shows p5 (t4 ++ s5) ∧ Z.of_nat (length s5) ≤ 27) as (p5 & s5 & -> & Hp5 & Hl5).
  { rw /tail. destruct (_ && known).
    - destruct (opt_shows (negb (Z.land (rs_flags res) IORESOURCE_MEM_64 =? 0)) " 64bit" p4 t4 Hp4 ltac:(by apply (bool_decide_unpack _)) ltac:(cbn; lia)) as (a & sa & -> & Ha & Hla). cbn [mbind option_bind].
      destruct (opt_shows (negb (Z.land (rs_flags res) IORESOURCE_PREFETCH =? 0)) " pref" a _ Ha ltac:(by apply (bool_decide_unpack _)) ltac:(cbn; lia)) as (b & sb & -> & Hb' & Hlb). cbn [mbind option_bind].
      destruct (opt_shows (negb (Z.land (rs_flags res) IORESOURCE_WINDOW =? 0)) " window" b _ Hb' ltac:(by apply (bool_decide_unpack _)) ltac:(cbn; lia)) as (c & sc & -> & Hc & Hlc). cbn [mbind option_bind].
      destruct (opt_shows (negb (Z.land (rs_flags res) IORESOURCE_DISABLED =? 0)) " disabled" c _ Hc ltac:(by apply (bool_decide_unpack _)) ltac:(cbn; lia)) as (d & sd & -> & Hd & Hld).
      exists d, (sa ++ sb ++ sc ++ sd). rewrite <- !app_assoc in Hd. split; [done|]. split; [done|]. cbn in Hla, Hlb, Hlc, Hld. rewrite -> !length_app. lia.
    - destruct (name_shows " flags " p4 t4 Hp4 ltac:(by apply (bool_decide_unpack _)) ltac:(cbn; lia)) as (a & -> & Ha). cbn [mbind option_bind].
      destruct (number_shows (rs_flags res) flag_spec a _ Ha Hf ltac:(cbn; auto) ltac:(done) ltac:(cbn; lia) ltac:(done)) as (b & sb & -> & Hb' & Hlb).
      exists b, (chars " flags " ++ sb). split; [done|]. rewrite <- app_assoc in Hb'. split; [done|]. rewrite -> length_app. change (longest_number flag_spec) with 18 in Hlb. cbn. lia. }
  cbn [mbind option_bind]. destruct (put_raw_shows (ch "]") p5 _ Hp5) as (p6 & -> & Hp6); [rw /SYM_SIZE; rewrite -> length_app; lia|]. cbn [mbind option_bind].
  set (t6 := _ ++ [ch "]"]) in *. assert (Z.of_nat (length t6) < SYM_SIZE) as Ht6 by (rw /t6 /SYM_SIZE; rewrite -> !length_app; cbn; lia). clearbody t6.
  destruct Hp6 as (_ & Es & El & _ & Et & _). rewrite -> Nat.min_l, (take_ge t6) in Et by lia. rewrite -> length_replicate in El.
  rw /wr. rewrite -> Es, (proj2 (Z.leb_le 0 _)), (proj2 (Z.ltb_lt _ (Z.of_nat (length (ob_buf p6))))) by lia. cbn [andb mbind option_bind].
  rewrite -> Nat2Z.id, insert_take_drop, Et by lia. by exists t6, (drop (S (length t6)) (ob_buf p6)).
Qed.

(** ** Addresses *)

Lemma joined_length ws : Forall (λ w, length w ≤ 4)%nat ws → (length (joined ws) ≤ 5 * length ws - 1)%nat.
Proof.
  destruct ws as [|w ws]; intros Hw; [done|]. cbn [joined]. rewrite -> length_app. inversion Hw as [|? ? Hw1 Hws]; subst. assert (length (concat (map (λ w, ch ":" :: w) ws)) ≤ 5 * length ws)%nat.
  { induction Hws as [|v ws Hv _ IH]; cbn; [lia|]. rewrite -> length_app. cbn in IH. inversion Hw; subst. specialize (IH ltac:(constructor; [done|by inversion H2])). lia. }
  cbn. lia.
Qed.

Lemma word_texts_length addr a n : Forall (in_width 8) addr → 0 ≤ n → (length (joined (word_texts addr a n)) ≤ 5 * Z.to_nat n - 1)%nat.
Proof.
  intros Hb Hn. pose proof (joined_length (word_texts addr a n)) as Hj. assert (length (word_texts addr a n) = Z.to_nat n) as Hl by (rw /word_texts; by rewrite -> length_map, length_seqZ).
  rewrite -> Hl in Hj. apply Hj. rw /word_texts. apply Forall_map, Forall_true. intros j. rewrite -> length_map.
  by destruct (hex_word_digits [] (word addr j) (word_width addr Hb j)) as [_ ((? & ?) & _)].
Qed.

Lemma quad_text_length lz bs : Forall (in_width 8) bs → (length (quad_text lz bs) ≤ 15)%nat.
Proof.
  intros Hb. rw /quad_text. change (seqZ 0 4) with [0; 1; 2; 3]. assert (∀ i, length (octet_digits lz (byte bs i)) ≤ 3)%nat as Ho.
  { intros i. by destruct (octet_ok lz _ (byte_width bs i Hb)) as ((? & ?) & _). }
  cbn [map concat Z.ltb Z.compare Pos.compare Pos.compare_cont]. rewrite -> !length_app, !length_map. pose proof (Ho 0). pose proof (Ho 1). pose proof (Ho 2). pose proof (Ho 3). cbn [length]. lia.
Qed.

Lemma ip6_form_length addr t : Forall (in_width 8) addr → ip6_form addr t → (length t ≤ 45)%nat.
Proof.
  intros Hb. assert (length (quad_text false (drop 12 addr)) ≤ 15)%nat as Hq by (by apply quad_text_length, Forall_drop).
  destruct 1 as [|pos len H0 H2 Hl _| |pos len H0 H2 Hl _]; rewrite -> ?length_app; cbn [length].
  - pose proof (word_texts_length addr 0 8 Hb). lia.
  - pose proof (word_texts_length addr 0 pos Hb H0). pose proof (word_texts_length addr (pos + len) (8 - (pos + len)) Hb). lia.
  - pose proof (word_texts_length addr 0 6 Hb). lia.
  - pose proof (word_texts_length addr 0 pos Hb H0). pose proof (word_texts_length addr (pos + len) (6 - (pos + len)) Hb). lia.
Qed.

(** ** Claims *)

(** The texts that the extensions of %p build on the stack fit their arrays, whatever the bytes: hardware addresses 18 bytes, IPv4 addresses 16, IPv6 addresses in
    full or compressed 46, UUIDs 37 and resources 75, the terminator included; no access leaves the arrays, the object or the format. *)
Theorem pointer_texts_fit obj fmt f0 f1 f2 res
    (Hbytes : Forall (in_width 8) obj) (H0 : rd fmt 0 = Some f0) (H1 : rd fmt 1 = Some f1) (H2 : rd fmt 2 = Some f2)
    (Hstart : in_width 64 (rs_start res)) (Hend : in_width 64 (rs_end res)) (Hflags : in_width 64 (rs_flags res)) :
  ((6 ≤ length obj)%nat → ∃ s, mac_address obj fmt = Some s ∧ (length s ≤ 18)%nat) ∧
  ((4 ≤ length obj)%nat → ∃ s, ip4_string [] obj fmt = Some s ∧ (length s ≤ 16)%nat) ∧
  ((16 ≤ length obj)%nat → (∃ s, ip6_string obj fmt = Some s ∧ (length s ≤ 46)%nat) ∧ (∃ s, ip6_compressed_string obj = Some s ∧ (length s ≤ 46)%nat) ∧
                           (∃ s, uuid_text obj fmt = Some s ∧ (length s ≤ 37)%nat)) ∧
  (∃ t r, resource_text res fmt = Some (t ++ 0 :: r) ∧ Z.of_nat (length t) < SYM_SIZE).
Proof.
  split; [|split; [|split]].
  - intros Hl. rewrite -> (mac_address_text _ _ f0 f1) by done. eexists. split; [done|]. rewrite -> length_app. rw /mac_text. change (seqZ 0 6) with [0; 1; 2; 3; 4; 5].
    destruct (f0 =? ch "M"); cbn [map concat app byte_digits Z.eqb Pos.eqb negb andb length]; lia.
  - intros Hl. rewrite -> (ip4_string_text _ _ _ f0 f2) by done. eexists. split; [done|]. cbn [app]. rewrite -> length_app.
    assert (length (quad_text (f0 =? ch "i")%Z (quad_order f2 (take 4 obj))) ≤ 15)%nat as Hq by (apply quad_text_length; rw /quad_order; case_if; [apply Forall_rev|]; by apply Forall_take).
    cbn [length]. lia.
  - intros Hl. split; [|split].
    + rewrite -> (ip6_string_text _ _ f0) by done. eexists. split; [done|]. rewrite -> length_app. rw /full_texts. change (seqZ 0 8) with [0; 1; 2; 3; 4; 5; 6; 7].
      destruct (f0 =? ch "I"); cbn [map joined concat app byte_digits length]; lia.
    + rewrite -> compressed_take by done. assert (Forall (in_width 8) (take 16 obj)) as Hb by (by apply Forall_take).
      destruct (ip6_compressed_text (take 16 obj) Hb ltac:(rewrite -> length_take; lia)) as (t & -> & Ht). eexists. split; [done|]. rewrite -> length_app.
      pose proof (ip6_form_length _ _ Hb Ht). cbn [length]. lia.
    + rewrite -> (uuid_text_ok _ _ f1) by done. eexists. split; [done|]. rewrite -> length_app. rw /uuid_words. change (seqZ 0 16) with [0; 1; 2; 3; 4; 5; 6; 7; 8; 9; 10; 11; 12; 13; 14; 15].
      destruct (_ || _); rewrite -> ?length_fmap; cbn [map concat app byte_digits Z.eqb Pos.eqb orb length]; lia.
  - by apply (resource_text_fits res fmt f0).
Qed.

(** All bytes 255, and a resource whose text is as long as it can be. *)
Lemma pointer_texts_fit_witness :
  let obj := replicate 16 255 in
  let res := {| rs_start := 2 ^ 64 - 2; rs_end := 2 ^ 64 - 1; rs_flags := 0x10302400 |} in
  (∃ s, ip6_compressed_string obj = Some s ∧ (length s ≤ 46)%nat) ∧ (∃ t r, resource_text res (cstr "R4c") = Some (t ++ 0 :: r) ∧ Z.of_nat (length t) < SYM_SIZE).
Proof.
  cbn zeta.
  destruct (pointer_texts_fit (replicate 16 255) (cstr "R4c") (ch "R") (ch "4") (ch "c") {| rs_start := 2 ^ 64 - 2; rs_end := 2 ^ 64 - 1; rs_flags := 0x10302400 |})
    as (_ & _ & H & Hr); [apply Forall_replicate; split; by vm_compute|done|done|done|split; by vm_compute|split; by vm_compute|split; by vm_compute|].
  split; [|exact Hr]. apply H. vm_compute. lia.
Defined.

Example resource_exact_fit :
  ∃ s, resource_text {| rs_start := 2 ^ 64 - 2; rs_end := 2 ^ 64 - 1; rs_flags := 0x10302400 |} (cstr "R") = Some (s ++ [0]) ∧ Z.of_nat (length s) + 1 = SYM_SIZE.
Proof. exists (chars "[irq 18446744073709551614-18446744073709551615 64bit pref window disabled]"). split; vm_compute; reflexivity. Qed.
