(* ===== verification/InetSafe.v ===== *)
(** * Addresses as text: the parsers are safe

    Whatever the text, the parsers end, stay inside their buffers and write the destination only when they succeed.  For IPv6 this is a property of the automaton of
    states, write positions and flags ([control]): its reachable states are computed and checked. *)
From Stdlib Require Import Ascii String.
From S2P Require Import Prelude Ctype NumPrint StringLib Vsprintf Inet.
#[local] Open Scope Z_scope.

(** ** Classes of characters *)

Definition digit_class (v : Z) : Z := Z.lor (Z.lor v IN6PTON_XDIGIT) (if v <? 10 then IN6PTON_DIGIT else 0).

(** What [xdigit2bin] can answer. *)
Definition classes : list Z := [IN6PTON_DELIM; IN6PTON_COLON_MASK; IN6PTON_DOT; IN6PTON_UNKNOWN] ++ map digit_class (seqZ 0 16).

Lemma hex_to_bin_range c : -1 ≤ hex_to_bin c < 16.
Proof. rw /hex_to_bin. cbn zeta. change (ch "0") with 48. change (ch "9") with 57. change (ch "a") with 97. change (ch "f") with 102. repeat case_if; zbool; lia. Qed.

Lemma xdigit2bin_class c delim : xdigit2bin c delim ∈ classes.
Proof.
  rw /xdigit2bin. cbn zeta. pose proof (hex_to_bin_range c) as Hr. destruct (_ || _); [by apply (bool_decide_unpack _)|].
  destruct (c =? ch ":"); [by apply (bool_decide_unpack _)|]. destruct (c =? ch "."); [by apply (bool_decide_unpack _)|].
  destruct (Z.leb_spec 0 (hex_to_bin c)); [|destruct (delim =? -1); by apply (bool_decide_unpack _)].
  apply elem_of_app. right. apply list_elem_of_fmap. exists (hex_to_bin c). split; [done|apply elem_of_seqZ; lia].
Qed.

(** Reading the next character never fails inside the text. *)
Lemma next_class_ok src s srclen delim n : 0 ≤ s → s + srclen = n → n ≤ Z.of_nat (length src) →
  ∃ c, next_class src s srclen delim = Some c ∧ c ∈ classes ∧ (srclen ≤ 0 → c = IN6PTON_DELIM).
Proof.
  intros Hs Hn Hlen. rw /next_class. destruct (Z.ltb_spec 0 srclen).
  - destruct (rd_in src s) as [c ->]; [lia|]. eexists. split; [done|]. split; [apply xdigit2bin_class|lia].
  - eexists. split; [done|]. split; [apply xdigit2bin_class|]. intros _. rw /xdigit2bin. by rewrite -> orb_true_r.
Qed.

Lemma source_length_ok src srclen : (srclen < 0 → 0 ∈ src) → srclen ≤ Z.of_nat (length src) → ∃ n, source_length src srclen = Some n ∧ 0 ≤ n ≤ Z.of_nat (length src).
Proof.
  intros Hz Hl. rw /source_length. destruct (Z.ltb_spec srclen 0); [|exists srclen; split; [done|lia]]. specialize (Hz ltac:(lia)). clear Hl H.
  induction src as [|c src IH]; [by apply elem_of_nil in Hz|]. cbn [strlen length]. destruct (Z.eqb_spec c 0); [exists 0; split; [done|lia]|].
  destruct IH as (m & -> & Hm); [by apply elem_of_cons in Hz as [?|?]|]. exists (m + 1). split; [done|lia].
Qed.

Lemma wr_range_in l off bs : 0 ≤ off → off + Z.of_nat (length bs) ≤ Z.of_nat (length l) → ∃ l', wr_range l off bs = Some l'.
Proof. intros. rw /wr_range. rewrite -> (proj2 (Z.leb_le 0 off)), (proj2 (Z.leb_le (off + Z.of_nat (length bs)) _)) by lia. by eexists. Qed.

(** ** IPv4 *)

(** A round that ends the loop. *)
Ltac stops := right; eexists; split; [done|]; cbn; split_and!; done || lia.

Lemma in4_loop_safe src n delim : 0 ≤ n ≤ Z.of_nat (length src) →
  ∃ r, loop (Z.to_nat n + 2) (in4_step src delim) {| q_s := 0; q_srclen := n; q_dbuf := replicate 4 0; q_d := 0; q_i := 0; q_w := 0 |} = Some r ∧
    length r.1.2 = 4%nat ∧ Forall (in_width 8) r.1.2 ∧ 0 ≤ r.2 ≤ n.
Proof.
  intros Hn.
  apply (loop_inv (λ q, 0 ≤ q_s q ∧ 0 ≤ q_srclen q ∧ q_s q + q_srclen q = n ∧ length (q_dbuf q) = 4%nat ∧ Forall (in_width 8) (q_dbuf q) ∧ 0 ≤ q_i q < 4 ∧ q_d q = q_i q)
           (λ q, Z.to_nat (q_srclen q))); [|cbn; split_and!; try lia; repeat (constructor; [by apply in_width_0|]); constructor|cbn; lia].
  intros q (H0 & H1 & H2 & Hb & Hw & Hi & Hd). rw /in4_step. destruct (next_class_ok src (q_s q) (q_srclen q) delim n) as (c & -> & Hc & Hdelim); [lia..|]. cbn [mbind option_bind].
  assert (q_d q < 4 → ∃ b, wr (q_dbuf q) (q_d q) (Z.land (q_w q) 0xff) = Some b ∧ length b = 4%nat ∧ Forall (in_width 8) b) as Hwr.
  { intros Hd4. rewrite -> wr_in by lia. eexists. split; [done|]. rewrite -> length_insert. split; [done|]. apply Forall_insert; [done|].
    change 0xff with (Z.ones 8). by apply in_width_land_ones. }
  destruct (Hwr ltac:(lia)) as (b & -> & Hb' & Hw'). cbn [mbind option_bind]. destruct (Z.eq_dec (q_srclen q) 0) as [E|Hpos].
  { right. rewrite -> Hdelim by lia. cbn. destruct (q_w q =? 0); eexists; (split; [done|]); cbn; split_and!; done || lia. }
  destruct (negb _); [stops|].
  destruct (meets c _); [destruct (q_w q =? 0); [stops|]; destruct (meets c _);
    [stops|]|].
  - rw /in4_cont. cbn [q_i q_s q_srclen q_dbuf q_d q_w]. case_if; [stops|].
    left. eexists. split; [done|]. zbool. cbn. split_and!; done || lia.
  - destruct (255 <? _); [stops|]. rw /in4_cont. cbn [q_i q_s q_srclen q_dbuf q_d q_w]. ztest.
    left. eexists. split; [done|]. cbn. split_and!; done || lia.
Qed.

Lemma in4_pton_ok src srclen dst off delim :
  (srclen < 0 → 0 ∈ src) → srclen ≤ Z.of_nat (length src) → 0 ≤ off → off + 4 ≤ Z.of_nat (length dst) →
  ∃ n ret dst' e, source_length src srclen = Some n ∧ in4_pton src srclen dst off delim = Some (ret, dst', e) ∧ 0 ≤ e ≤ n ∧
    ((ret = 0 ∧ dst' = dst) ∨ (ret = 1 ∧ ∃ bs, wr_range dst off bs = Some dst' ∧ length bs = 4%nat ∧ Forall (in_width 8) bs)).
Proof.
  intros Hz Hl H0 Hoff. destruct (source_length_ok src srclen Hz Hl) as (n & E & Hn). exists n. rw /in4_pton. rewrite -> E. cbn [mbind option_bind].
  destruct (in4_loop_safe src n delim Hn) as ([[ok b] e] & -> & Hb & Hw & He). cbn in Hb, Hw, He. cbn [mbind option_bind]. destruct ok.
  - destruct (wr_range_in dst off b) as [dst' Hd]; [lia|lia|]. rewrite -> Hd. cbn. exists 1, dst', e. split_and!; [done|done|lia|lia|]. right. split; [done|]. by exists b.
  - exists 0, dst, e. split_and!; [done|done|lia|lia|]. by left.
Qed.

(** ** The automaton of IPv6 *)

(** The flags, the write position, whether [::] and whether a colon was seen. *)
Definition control := (Z * Z * bool * bool)%type.

Definition control_of (q : in6_state) : control := (p_state q, p_d q, has_dc q, match p_tok q with Some _ => true | None => false end).

(** [cont:] on the flags. *)
Definition cont_state (dc : bool) (d state : Z) : Z :=
  let state := if (dc && (d + 4 <? 16)) || (d + 4 =? 16) then Z.lor state IN6PTON_DOT else state in
  if 16 <=? d then Z.land state (bnot 32 (Z.lor IN6PTON_XDIGIT IN6PTON_COLON_MASK)) else state.

Definition colon_control (state d : Z) (dc : bool) : bool * Z :=
  let m := Z.land state IN6PTON_COLON_MASK in
  if m =? IN6PTON_COLON_2 then (true, Z.lor (Z.lor IN6PTON_XDIGIT IN6PTON_DELIM) (if 16 <=? d then IN6PTON_NULL else 0))
  else if m =? Z.lor IN6PTON_COLON_1 IN6PTON_COLON_1_2 then (dc, Z.lor IN6PTON_XDIGIT IN6PTON_COLON_2)
  else if m =? IN6PTON_COLON_1 then (dc, IN6PTON_XDIGIT)
  else if m =? IN6PTON_COLON_1_2 then (dc, IN6PTON_COLON_2)
  else (dc, 0).

(** The control state after a character that does not end the loop. *)
Definition next_control (x : control) (c w : Z) : option control :=
  let '(state, d, dc, tok) := x in
  if negb (meets c state) then None else
  if meets c (Z.lor IN6PTON_DELIM IN6PTON_COLON_MASK) then
    let d := if meets state IN6PTON_NULL then d else d + 2 in
    if meets c IN6PTON_DELIM then None else
    let '(dc, state) := colon_control state d dc in
    Some (cont_state dc d state, d, dc, true)
  else if meets c IN6PTON_DOT then None
  else Some (cont_state dc d (digit_state dc d w), d, dc, tok).

(** What the writes of a round need. *)
Definition control_safe (x : control) (c : Z) : bool :=
  let '(state, d, dc, tok) := x in
  if negb (meets c state) then true else
  if meets c (Z.lor IN6PTON_DELIM IN6PTON_COLON_MASK) then meets state IN6PTON_NULL || (d + 2 <=? 16)
  else if meets c IN6PTON_DOT then tok && (d + 4 <=? 16) else true.

Definition initial_control : control := (Z.lor (Z.lor IN6PTON_COLON_1_2 IN6PTON_XDIGIT) IN6PTON_NULL, 0, false, false).

(** The flags depend on a word only through its highest digit. *)
Definition successors (x : control) : list control := c ← classes; w ← [0; 0xf000]; option_list (next_control x c w).

Fixpoint reachable (n : nat) (todo seen : list control) : list control :=
  match n with
  | O => seen
  | S n =>
      let new := remove_dups (filter (λ x, x ∉ seen) (todo ≫= successors)) in
      match new with [] => seen | _ => reachable n new (new ++ seen) end
  end.

Definition controls : list control := Eval vm_compute in reachable 40 [initial_control] [initial_control].

(** All that is reachable is safe and stays reachable. *)
Definition control_ok (x : control) : bool :=
  forallb (λ c, control_safe x c && forallb (λ w, match next_control x c w with Some y => bool_decide (y ∈ controls) | None => true end) [0; 0xf000]) classes.

Lemma controls_ok : forallb control_ok controls = true.
Proof. vm_compute. reflexivity. Qed.

Lemma digit_state_high dc d w : digit_state dc d w = digit_state dc d (if meets w 0xf000 then 0xf000 else 0).
Proof. rw /digit_state. cbn zeta. by destruct (meets w 0xf000). Qed.

Lemma next_control_high x c w : next_control x c w = next_control x c (if meets w 0xf000 then 0xf000 else 0).
Proof. destruct x as [[[state d] dc] tok]. rw /next_control. by rewrite -> (digit_state_high dc d w). Qed.

Lemma control_inv x c w : x ∈ controls → c ∈ classes → control_safe x c = true ∧ (∀ y, next_control x c w = Some y → y ∈ controls).
Proof.
  intros Hx Hc. pose proof controls_ok as Hok. rewrite -> forallb_forall in Hok. specialize (Hok x ltac:(by apply list_elem_of_In)). rw /control_ok in Hok.
  rewrite -> forallb_forall in Hok. specialize (Hok c ltac:(by apply list_elem_of_In)). apply andb_true_iff in Hok as [Hsafe Hnext]. split; [done|].
  intros y. rewrite -> next_control_high. rewrite -> forallb_forall in Hnext. set (w' := if meets w 0xf000 then 0xf000 else 0). intros E.
  specialize (Hnext w' ltac:(rw /w'; case_if; cbn; auto)). rewrite -> E in Hnext. by apply bool_decide_eq_true in Hnext.
Qed.

Lemma controls_range x : x ∈ controls → let '(_, d, _, _) := x in 0 ≤ d ≤ 16.
Proof.
  intros Hx. assert (forallb (λ '(_, d, _, _), (0 <=? d) && (d <=? 16)) controls = true) as Hall by (vm_compute; reflexivity).
  rewrite -> forallb_forall in Hall. specialize (Hall x ltac:(by apply list_elem_of_In)). destruct x as [[[? d] ?] ?]. zbool. lia.
Qed.

(** ** IPv6 *)

Record in6_inv (n : Z) (q : in6_state) : Prop := {
  iv_s : 0 ≤ p_s q; iv_len : 0 ≤ p_srclen q; iv_sum : p_s q + p_srclen q = n;
  iv_dbuf : length (p_dbuf q) = 16%nat; iv_bytes : Forall (in_width 8) (p_dbuf q);
  iv_control : control_of q ∈ controls;
  iv_dc : ∀ k, p_dc q = Some k → 0 ≤ k ≤ p_d q;
  iv_tok : ∀ t, p_tok q = Some t → 0 ≤ t ≤ p_s q
}.

(** When the loop ends with success. *)
Definition in6_done (n : Z) (r : bool * in6_state) : Prop :=
  0 ≤ p_s r.2 ≤ n ∧ (r.1 = true → length (p_dbuf r.2) = 16%nat ∧ Forall (in_width 8) (p_dbuf r.2) ∧ p_d r.2 ≤ 16 ∧ ∀ k, p_dc r.2 = Some k → 0 ≤ k ≤ p_d r.2).

Lemma put_word_ok q : length (p_dbuf q) = 16%nat → Forall (in_width 8) (p_dbuf q) → 0 ≤ p_d q → meets (p_state q) IN6PTON_NULL || (p_d q + 2 <=? 16) = true →
  ∃ b, put_word q = Some {| p_s := p_s q; p_srclen := p_srclen q; p_tok := p_tok q; p_d := if meets (p_state q) IN6PTON_NULL then p_d q else p_d q + 2; p_dc := p_dc q; p_dbuf := b;
                            p_state := p_state q; p_w := 0 |} ∧ length b = 16%nat ∧ Forall (in_width 8) b.
Proof.
  intros Hb Hw H0 Hd. rw /put_word. destruct (meets (p_state q) IN6PTON_NULL); [by eexists|]. cbn [orb] in Hd. zbool. rewrite -> !wr_in by (rewrite ?length_insert; lia).
  cbn [mbind option_bind]. rewrite -> wr_in by (rewrite -> length_insert; lia). eexists. split; [done|]. rewrite -> !length_insert. split; [done|].
  change 0xff with (Z.ones 8). apply Forall_insert; [apply Forall_insert; [done|]|]; by apply in_width_land_ones.
Qed.

Lemma in6_cont_control q : control_of (in6_cont q) = (cont_state (has_dc q) (p_d q) (p_state q), p_d q, has_dc q, match p_tok q with Some _ => true | None => false end).
Proof. done. Qed.

Lemma colon_state_control q : colon_control (p_state q) (p_d q) (has_dc q) = (match (colon_state q).1 with Some _ => true | None => false end, (colon_state q).2).
Proof. rw /colon_control /colon_state /has_dc. cbn zeta. repeat case_if; done. Qed.

Lemma colon_state_dc q k : (∀ k, p_dc q = Some k → 0 ≤ k ≤ p_d q) → 0 ≤ p_d q → (colon_state q).1 = Some k → 0 ≤ k ≤ p_d q.
Proof. intros Hdc H0. rw /colon_state. cbn zeta. destruct (_ =? IN6PTON_COLON_2); [cbn [fst]; intros [= <-]; lia|]. repeat case_if; apply Hdc. Qed.

Lemma in6_step_safe src delim n q : n ≤ Z.of_nat (length src) → in6_inv n q →
  (∃ q', in6_step src delim q = Some (Next q') ∧ in6_inv n q' ∧ (Z.to_nat (p_srclen q') < Z.to_nat (p_srclen q))%nat) ∨
  (∃ r, in6_step src delim q = Some (Stop r) ∧ in6_done n r).
Proof.
  intros Hn [Hs Hl Hsum Hb Hw Hc Hdc Htok]. rw /in6_step. destruct (next_class_ok src (p_s q) (p_srclen q) delim n) as (c & -> & Hcl & Hdelim); [lia..|]. cbn [mbind option_bind].
  pose proof (controls_range _ Hc) as Hr. cbn in Hr.
  assert (∀ w, control_safe (control_of q) c = true ∧ (∀ y, next_control (control_of q) c w = Some y → y ∈ controls)) as Hinv by (intros w; by apply control_inv).
  destruct (Hinv 0) as [Hsafe _]. rw /control_safe /control_of in Hsafe. rw /next_control /control_of in Hinv.
  destruct (negb (meets c (p_state q))) eqn:Est; [right; eexists; split; [done|]; split; cbn; [lia|done]|].
  assert (c ≠ IN6PTON_DELIM → 0 < p_srclen q) as Hpos by (intros Hne; destruct (Z.le_gt_cases (p_srclen q) 0); [by apply Hdelim in H|lia]).
  destruct (meets c (Z.lor IN6PTON_DELIM IN6PTON_COLON_MASK)) eqn:Ecl.
  - destruct (put_word_ok q Hb Hw ltac:(lia) Hsafe) as (b & -> & Hb' & Hw'). cbn [mbind option_bind]. destruct (meets c IN6PTON_DELIM) eqn:Edl.
    { right. eexists. split; [done|]. split; [cbn; lia|]. cbn. intros _. split_and!; [done|done|case_if; [lia|]; cbn in Hsafe; zbool; lia|].
      intros k Hk. specialize (Hdc k Hk). case_if; lia. }
    set (q1 := {| p_dbuf := b |}). pose proof (colon_state_control q1) as Hcc. change (p_state q1) with (p_state q) in Hcc. change (has_dc q1) with (has_dc q) in Hcc.
    assert (0 ≤ p_d q1) as Hd1 by (cbn; case_if; lia).
    pose proof (colon_state_dc q1) as Hk. destruct (colon_state q1) as [dc state]. cbn in Hcc. destruct (Hinv 0) as [_ Hy]. rewrite -> Hcc in Hy. specialize (Hy _ eq_refl).
    assert (0 < p_srclen q) as Hp by (apply Hpos; intros ->; done). left. eexists. split; [done|]. split; [|cbn; lia].
    split; cbn [in6_cont p_s p_srclen p_tok p_d p_dc p_dbuf]; [cbn; lia|cbn; lia|cbn; lia|done|done|exact Hy| |intros t [= <-]; cbn; lia].
    intros k E. apply (Hk k); [|done|done]. intros k' Hk'. specialize (Hdc k' Hk'). cbn. case_if; lia.
  - assert (c ≠ IN6PTON_DELIM) as Hne by (by intros ->). specialize (Hpos Hne). destruct (meets c IN6PTON_DOT) eqn:Edt.
    + destruct (p_tok q) as [t|] eqn:Et; [|done]. cbn [andb] in Hsafe. zbool. destruct (Htok t eq_refl) as [Ht0 Ht]. cbn [mbind option_bind].
      destruct (in4_pton_ok (drop (Z.to_nat t) src) (p_srclen q + (p_s q - t)) (p_dbuf q) (p_d q) delim) as (m & ret & b & e & Hm & -> & He & Hres);
        [lia|rewrite -> length_drop; lia|lia|lia|]. rw /source_length in Hm. rewrite -> (proj2 (Z.ltb_ge _ 0)) in Hm by lia. injection Hm as <-. cbn [mbind option_bind]. right.
      destruct Hres as [[-> ->]|[-> (bs & Hwr & Hlb & Hbs)]]; (eexists; split; [done|]); [split; cbn; [lia|done]|]. split; [cbn; lia|]. cbn. intros _.
      apply wr_range_length in Hwr as Hl'. apply wr_range_Some in Hwr as (_ & _ & ->). split_and!; [congruence| |lia|].
      * apply Forall_app. split; [by apply Forall_take|]. apply Forall_app. split; [done|by apply Forall_drop].
      * intros k Hk. specialize (Hdc k Hk). lia.
    + left. eexists. split; [done|]. destruct (Hinv (Z.lor (Z.shiftl (p_w q) 4) (Z.land 0xff c))) as [_ Hy]. specialize (Hy _ eq_refl).
      split; [|cbn; lia]. split; cbn [in6_cont p_s p_srclen p_tok p_d p_dc p_dbuf]; [cbn; lia|cbn; lia|cbn; lia|done|done|exact Hy|done|]. intros t E. specialize (Htok t E). lia.
Qed.

Lemma copy_down_ok n dst dbuf i d : length dst = 16%nat → length dbuf = 16%nat → i < 16 → d < 16 → Z.of_nat n ≤ i + 1 → Z.of_nat n ≤ d + 1 →
  ∃ dst', copy_down n dst dbuf i d = Some dst' ∧ length dst' = 16%nat.
Proof.
  revert dst i d. induction n as [|n IH]; intros dst i d Hl Hb Hi Hd Hn Hn'; cbn [copy_down]; [by eexists|]. destruct (rd_in dbuf d) as [x ->]; [lia|]. cbn [mbind option_bind].
  rewrite -> wr_in by lia. cbn [mbind option_bind]. apply IH; [by rewrite -> length_insert|done|lia..].
Qed.

Lemma zero_down_ok n dst i : length dst = 16%nat → i < 16 → Z.of_nat n ≤ i + 1 → ∃ dst', zero_down n dst i = Some dst' ∧ length dst' = 16%nat.
Proof.
  revert dst i. induction n as [|n IH]; intros dst i Hl Hi Hn; cbn [zero_down]; [by eexists|]. rewrite -> wr_in by lia. cbn [mbind option_bind].
  apply IH; [by rewrite -> length_insert|lia..].
Qed.

Lemma spread_ok dst dbuf d dc : length dst = 16%nat → length dbuf = 16%nat → 0 ≤ dc ≤ d → d ≤ 16 → ∃ dst', spread dst dbuf d dc = Some dst' ∧ length dst' = 16%nat.
Proof.
  intros Hl Hb Hdc Hd. rw /spread. cbn zeta. destruct (copy_down_ok (Z.to_nat (d - dc)) dst dbuf 15 (d - 1)) as (d1 & -> & Hl1); [done|done|lia..|]. cbn [mbind option_bind].
  destruct (zero_down_ok (Z.to_nat (15 - Z.of_nat (Z.to_nat (d - dc)) - dc + 1)) d1 (15 - Z.of_nat (Z.to_nat (d - dc)))) as (d2 & -> & Hl2); [done|lia..|]. cbn [mbind option_bind].
  apply copy_down_ok; [done|done|lia..].
Qed.

(** ** Claims *)

(** The parsers of addresses are safe on every text: in4_pton and in6_pton end, never write behind their buffers of 4 and 16 bytes or read behind the text, answer 0 or 1, leave
    the destination alone when they answer 0, write 4 and 16 bytes when they answer 1, and report an end inside the text. *)
Theorem address_parsers_safe src srclen dst4 dst6 delim
    (Htext : srclen < 0 → 0 ∈ src) (Hlen : srclen ≤ Z.of_nat (length src)) (H4 : length dst4 = 4%nat) (H6 : length dst6 = 16%nat) :
  ∃ n, source_length src srclen = Some n ∧
  (∃ ret dst' e, in4_pton src srclen dst4 0 delim = Some (ret, dst', e) ∧ 0 ≤ e ≤ n ∧ length dst' = 4%nat ∧ (ret = 0 ∧ dst' = dst4 ∨ ret = 1)) ∧
  (∃ ret dst' e, in6_pton src srclen dst6 delim = Some (ret, dst', e) ∧ 0 ≤ e ≤ n ∧ length dst' = 16%nat ∧ (ret = 0 ∧ dst' = dst6 ∨ ret = 1)).
Proof.
  destruct (in4_pton_ok src srclen dst4 0 delim Htext Hlen ltac:(lia) ltac:(lia)) as (n & ret & dst' & e & Hn & E4 & He & Hres). exists n. split; [done|]. split.
  { exists ret, dst', e. split_and!; [done|lia|lia| |]; destruct Hres as [[-> ->]|[-> (bs & Hwr & Hl & _)]]; auto.
    by rewrite -> (wr_range_length _ _ _ _ Hwr). }
  destruct (source_length_ok src srclen Htext Hlen) as (n' & Hn' & Hle). assert (n' = n) as -> by congruence. rw /in6_pton. rewrite -> Hn. cbn [mbind option_bind].
  destruct (loop_inv (in6_inv n) (λ q, Z.to_nat (p_srclen q)) (in6_done n) (in6_step src delim) (Z.to_nat n + 2)
    {| p_s := 0; p_srclen := n; p_tok := None; p_d := 0; p_dc := None; p_dbuf := replicate 16 0; p_state := Z.lor (Z.lor IN6PTON_COLON_1_2 IN6PTON_XDIGIT) IN6PTON_NULL; p_w := 0 |})
    as ([ok q] & -> & Hs & Hok).
  - intros q Hq. apply in6_step_safe; [lia|done].
  - split; cbn; try lia; try done; [repeat (constructor; [by apply in_width_0|]); constructor|]. by apply (bool_decide_unpack _).
  - cbn. lia.
  - cbn [mbind option_bind]. cbn in Hs, Hok. destruct ok; [|exists 0, dst6, (p_s q); split_and!; [done|lia|lia|done|by left]].
    destruct (Hok eq_refl) as (Hb & _ & Hd & Hdc). destruct (p_dc q) as [dc|].
    + destruct (spread_ok dst6 (p_dbuf q) (p_d q) dc H6 Hb ltac:(by apply Hdc) Hd) as (d' & -> & Hl'). exists 1, d', (p_s q). split_and!; [done|lia|lia|done|by right].
    + destruct (wr_range_in dst6 0 (p_dbuf q)) as [d' Hd']; [lia|lia|]. rewrite -> Hd'. exists 1, d', (p_s q). split_and!; [done|lia|lia| |by right].
      by rewrite -> (wr_range_length _ _ _ _ Hd').
Qed.

(** A text with too many words. *)
Lemma address_parsers_safe_witness :
  ∃ n, source_length (cstr "1:2:3:4:5:6:7:8:9") (-1) = Some n ∧
  (∃ ret dst' e, in4_pton (cstr "1:2:3:4:5:6:7:8:9") (-1) (replicate 4 7) 0 (-1) = Some (ret, dst', e) ∧ 0 ≤ e ≤ n ∧ length dst' = 4%nat ∧ (ret = 0 ∧ dst' = replicate 4 7 ∨ ret = 1)) ∧
  (∃ ret dst' e, in6_pton (cstr "1:2:3:4:5:6:7:8:9") (-1) (replicate 16 7) (-1) = Some (ret, dst', e) ∧ 0 ≤ e ≤ n ∧ length dst' = 16%nat ∧ (ret = 0 ∧ dst' = replicate 16 7 ∨ ret = 1)).
Proof. apply address_parsers_safe; [intros _; by apply (bool_decide_unpack _)|vm_compute; congruence|done|done]. Defined.
