(* ===== verification/InetRoundtrip.v ===== *)
(** * Addresses as text: reading back what was printed

    in6_pton reads words of up to four digits, a run of zeros and a decimal tail; the text of every address is made of them, so that reading gives the address again. *)
From Stdlib Require Import Ascii String.
From S2P Require Import Prelude Ctype Kstrtox NumPrint StringLib Vsprintf VsprintfText VsprintfNumber Inet InetText InetSafe.
#[local] Open Scope Z_scope.

(** The characters of addresses. *)
Definition address_chars : list Z := chars "0123456789abcdef:.".

Section reading.
Context (text after : list Z) (delim : Z) (Hdelim : delim ∉ address_chars).
Notation src := (text ++ 0 :: after).
Notation len := (Z.of_nat (length text)).

(** ** Characters *)

Lemma class_char c : c ∈ address_chars → xdigit2bin c delim = xdigit2bin c 0.
Proof using Hdelim.
  intros Hc. rw /xdigit2bin. assert (forallb (λ c, (swrap 8 c =? c) && negb (c =? 0) && ((c =? ch ":") || (c =? ch ".") || (0 <=? hex_to_bin c))) address_chars = true) as Hall by (vm_compute; reflexivity).
  rewrite -> forallb_forall in Hall. specialize (Hall c ltac:(by apply list_elem_of_In)). apply andb_true_iff in Hall as [Hall H3]. apply andb_true_iff in Hall as [H1 H2]. apply Z.eqb_eq in H1.
  rewrite -> H1. rewrite -> (proj2 (Z.eqb_neq c delim)) by (intros ->; done). apply negb_true_iff in H2. rewrite -> H2. cbn [orb]. destruct (c =? ch ":"); [done|]. destruct (c =? ch "."); [done|].
  cbn [orb] in H3. cbn zeta. by rewrite -> H3.
Qed.

Lemma class_hex d : 0 ≤ d < 16 → xdigit2bin (hexc d) delim = digit_class d.
Proof using Hdelim.
  intros Hd. assert (d ∈ seqZ 0 16) as Hin by (apply elem_of_seqZ; lia). clear Hd. rewrite -> class_char.
  - revert d Hin. apply Forall_forall. repeat constructor.
  - revert d Hin. apply Forall_forall. apply (bool_decide_unpack _). vm_compute. exact I.
Qed.

Lemma class_dec d : 0 ≤ d < 10 → xdigit2bin (decc d) delim = digit_class d.
Proof using Hdelim.
  intros Hd. rewrite <- class_hex by lia. assert (d ∈ seqZ 0 10) as Hin by (apply elem_of_seqZ; lia). clear Hd. f_equal. revert d Hin. apply Forall_forall. repeat constructor.
Qed.

Lemma class_colon : xdigit2bin (ch ":") delim = IN6PTON_COLON_MASK.
Proof using Hdelim. rewrite -> class_char by (by apply (bool_decide_unpack _)). done. Qed.

Lemma class_dot : xdigit2bin (ch ".") delim = IN6PTON_DOT.
Proof using Hdelim. rewrite -> class_char by (by apply (bool_decide_unpack _)). done. Qed.

(** The next character of the text, or its end. *)
Lemma class_at k c rest : 0 ≤ k → drop (Z.to_nat k) text = c :: rest → next_class src k (len - k) delim = Some (xdigit2bin c delim) ∧ drop (Z.to_nat (k + 1)) text = rest ∧ k < len.
Proof using.
  clear Hdelim. intros H0 Hd. assert (k < len) as Hk by (apply (f_equal length) in Hd; rewrite -> length_drop in Hd; cbn in Hd; lia). split_and!; [|replace (Z.to_nat (k + 1)) with (Z.to_nat k + 1)%nat by lia; rewrite <- drop_drop, Hd; done|done].
  rw /next_class. rewrite -> (proj2 (Z.ltb_lt 0 _)) by lia. assert (rd src k = Some c) as ->; [|done]. apply rd_Some. split; [done|]. rewrite -> lookup_app_l by lia.
  rewrite <- (Nat.add_0_r (Z.to_nat k)), <- lookup_drop, Hd. done.
Qed.

Lemma class_end k : 0 ≤ k → drop (Z.to_nat k) text = [] → next_class src k (len - k) delim = Some IN6PTON_DELIM.
Proof using.
  clear Hdelim. intros H0 Hd. apply (f_equal length) in Hd. rewrite -> length_drop in Hd. cbn in Hd. rw /next_class. rewrite -> (proj2 (Z.ltb_ge 0 _)) by lia. cbn.
  rw /xdigit2bin. by rewrite -> orb_true_r.
Qed.

(** ** IPv4 *)

(** The loop of in4_pton at [k], with the bytes [X] behind it. *)
Definition at4 (k : Z) (X : list Z) (w : Z) : in4_state :=
  {| q_s := k; q_srclen := len - k; q_dbuf := X ++ replicate (4 - length X) 0; q_d := Z.of_nat (length X); q_i := Z.of_nat (length X); q_w := w |}.

(** The flags of the digits that are in [w] with the value. *)
Fixpoint flag_sum (j : nat) : Z := match j with O => 0 | S j => flag_sum j * 10 + 0x30000 end.

Lemma flag_sum_mod j : flag_sum j mod 2 ^ 16 = 0.
Proof using. induction j as [|j IH]; [done|]. cbn [flag_sum]. rewrite -> Z.add_mod, Z.mul_mod, IH by lia. done. Qed.

Lemma flag_sum_bound j : (j ≤ 3)%nat → 0 ≤ flag_sum j ≤ 111 * 0x30000 ∧ ((0 < j)%nat → 0 < flag_sum j).
Proof using. intros Hj. destruct j as [|[|[|[|j]]]]; [..|lia]; cbn; lia. Qed.

Lemma octet_class d : 0 ≤ d < 10 →
  digit_class d = d + 0x30000 ∧ meets (digit_class d) (Z.lor (Z.lor IN6PTON_DIGIT IN6PTON_DOT) (Z.lor IN6PTON_DELIM IN6PTON_COLON_MASK)) = true ∧
  meets (digit_class d) (Z.lor IN6PTON_DOT (Z.lor IN6PTON_DELIM IN6PTON_COLON_MASK)) = false.
Proof using.
  intros Hd. assert (d ∈ seqZ 0 10) as Hin by (apply elem_of_seqZ; clear Hdelim; lia). clear Hd. revert d Hin. apply Forall_forall. repeat constructor.
Qed.

Lemma octet_loop ds j v k X rest f : (j + length ds ≤ 3)%nat → Forall (λ d, 0 ≤ d < 10) ds → 0 ≤ v → foldl (λ v d, v * 10 + d) v ds ≤ 255 → 0 ≤ k → (length X < 4)%nat →
  drop (Z.to_nat k) text = map decc ds ++ rest →
  loop (length ds + f) (in4_step src delim) (at4 k X (v + flag_sum j)) =
  loop f (in4_step src delim) (at4 (k + Z.of_nat (length ds)) X (foldl (λ v d, v * 10 + d) v ds + flag_sum (j + length ds))) ∧ drop (Z.to_nat (k + Z.of_nat (length ds))) text = rest.
Proof using Hdelim.
  revert j v k. induction ds as [|d ds IH]; intros j v k Hj Hds Hv H255 Hk HX Hd.
  { cbn in *. by rewrite -> Z.add_0_r, Nat.add_0_r. }
  inversion Hds as [|? ? Hd10 Hds']; subst. cbn [map app length] in *. destruct (class_at k _ _ Hk Hd) as (Ec & Hd' & Hlt). cbn [Nat.add loop]. rw {1}/in4_step.
  change (q_s (at4 k X (v + flag_sum j))) with k. change (q_srclen (at4 k X (v + flag_sum j))) with (len - k). rewrite -> Ec, class_dec by done. cbn [mbind option_bind].
  destruct (octet_class d Hd10) as (E1 & E2 & E3).
  rewrite -> E2, E3, E1. cbn [negb]. cbn [at4 q_w q_s q_srclen q_dbuf q_d q_i].
  assert (v * 10 + d ≤ foldl (λ v d, v * 10 + d) v (d :: ds)) as Hmono.
  { cbn [foldl]. assert (0 ≤ v * 10 + d) as Hp by lia. revert Hp. generalize (v * 10 + d). clear -Hds'. induction Hds' as [|e ds He _ IH]; intros x Hx; cbn; [lia|]. specialize (IH (x * 10 + e) ltac:(lia)). lia. }
  destruct (flag_sum_bound j ltac:(lia)) as [Hfs _]. assert (swrap 32 ((v + flag_sum j) * 10 + (d + 0x30000)) = v * 10 + d + flag_sum (S j)) as ->.
  { cbn [flag_sum]. rewrite -> swrap_small; [lia|lia|]. cbn. lia. }
  assert (Z.land (v * 10 + d + flag_sum (S j)) 0xffff = v * 10 + d) as ->.
  { change 0xffff with (Z.ones 16). rewrite -> Z.land_ones, Z.add_mod, flag_sum_mod, Z.add_0_r, Z.mod_mod by lia. apply Z.mod_small. lia. }
  rewrite -> (proj2 (Z.ltb_ge 255 _)) by lia. rw /in4_cont. cbn [q_i q_s q_srclen q_dbuf q_d q_w]. rewrite -> (proj2 (Z.leb_gt 4 _)) by lia.
  replace (len - k - 1) with (len - (k + 1)) by lia. fold (at4 (k + 1) X (v * 10 + d + flag_sum (S j))).
  destruct (IH (S j) (v * 10 + d) (k + 1)) as [-> Hrest]; [lia|done|lia|done|lia|done|done|]. cbn [foldl].
  replace (k + Z.of_nat (S (length ds))) with (k + 1 + Z.of_nat (length ds)) by lia. by replace (j + S (length ds))%nat with (S j + length ds)%nat by lia.
Qed.

Lemma octet_value b j : 0 ≤ b ≤ 255 → (0 < j ≤ 3)%nat → b + flag_sum j ≠ 0 ∧ Z.land (b + flag_sum j) 0xff = b.
Proof using.
  clear Hdelim. intros Hb Hj. destruct (flag_sum_bound j ltac:(lia)) as [Hfs Hpos]. specialize (Hpos ltac:(lia)). split; [lia|]. change 0xff with (Z.ones 8).
  rewrite -> Z.land_ones by lia. pose proof (flag_sum_mod j) as Hm. apply Z.mod_divide in Hm as [q Hq]; [|lia]. rewrite -> Hq.
  replace (b + q * 2 ^ 16) with (b + (q * 256) * 2 ^ 8) by lia. rewrite -> Z.mod_add by lia. apply Z.mod_small. lia.
Qed.

(** A number and the dot behind it. *)
Lemma octet_dot b ds k X rest f : is_octet b ds → 0 ≤ b ≤ 255 → 0 ≤ k → (length X < 3)%nat → drop (Z.to_nat k) text = map decc ds ++ ch "." :: rest →
  loop (length ds + (1 + f)) (in4_step src delim) (at4 k X 0) = loop f (in4_step src delim) (at4 (k + Z.of_nat (length ds) + 1) (X ++ [b]) 0) ∧
  drop (Z.to_nat (k + Z.of_nat (length ds) + 1)) text = rest.
Proof using Hdelim.
  intros (Hl & Hd & Hv) Hb Hk HX Ht. destruct (octet_loop ds 0 0 k X _ (1 + f) ltac:(lia) Hd ltac:(lia) ltac:(rw /value in Hv; lia) Hk ltac:(lia) Ht) as [E Hr].
  change (0 + flag_sum 0) with 0 in E. rewrite -> E. fold (value 10 ds). rewrite -> Hv. clear E. set (k' := k + Z.of_nat (length ds)) in *.
  destruct (class_at k' _ _ ltac:(lia) Hr) as (Ec & Hd' & Hlt). split; [|done]. cbn [Nat.add loop]. rw {1}/in4_step.
  destruct (octet_value b (length ds) Hb ltac:(lia)) as [Hne Hland]. cbn [at4 q_w q_s q_srclen q_dbuf q_d q_i]. rewrite -> Ec, class_dot. cbn [mbind option_bind]. change (meets IN6PTON_DOT _) with true at 1. cbn [negb].
  change (meets IN6PTON_DOT (Z.lor IN6PTON_DOT (Z.lor IN6PTON_DELIM IN6PTON_COLON_MASK))) with true. change (meets IN6PTON_DOT (Z.lor IN6PTON_DELIM IN6PTON_COLON_MASK)) with false.
  rewrite -> (proj2 (Z.eqb_neq _ 0)), Hland by done.
  destruct (4 - length X)%nat as [|m] eqn:Em; [lia|]. cbn [replicate]. rewrite -> wr_middle by done. cbn [mbind option_bind]. rw /in4_cont. cbn [q_i q_s q_srclen q_dbuf q_d q_w].
  rewrite -> (proj2 (Z.leb_gt 4 _)) by lia. f_equal. rw /at4. rewrite -> length_app. cbn [length]. f_equal; [lia| |lia|lia]. rewrite <- app_assoc. cbn [app]. do 3 f_equal. lia.
Qed.

(** The last number. *)
Lemma octet_end b ds k X f : is_octet b ds → 0 ≤ b ≤ 255 → 0 ≤ k → length X = 3%nat → drop (Z.to_nat k) text = map decc ds →
  loop (length ds + (1 + f)) (in4_step src delim) (at4 k X 0) = Some (true, X ++ [b], k + Z.of_nat (length ds)).
Proof using Hdelim.
  intros (Hl & Hd & Hv) Hb Hk HX Ht. rewrite <- (app_nil_r (map decc ds)) in Ht.
  destruct (octet_loop ds 0 0 k X _ (1 + f) ltac:(lia) Hd ltac:(lia) ltac:(rw /value in Hv; lia) Hk ltac:(lia) Ht) as [E Hr].
  change (0 + flag_sum 0) with 0 in E. rewrite -> E. fold (value 10 ds). rewrite -> Hv. clear E. set (k' := k + Z.of_nat (length ds)) in *. cbn [Nat.add loop]. rw {1}/in4_step.
  destruct (octet_value b (length ds) Hb ltac:(lia)) as [Hne Hland]. cbn [at4 q_w q_s q_srclen q_dbuf q_d q_i]. rewrite -> class_end by (done || lia). cbn [mbind option_bind].
  change (meets IN6PTON_DELIM _) with true at 1. cbn [negb]. change (meets IN6PTON_DELIM (Z.lor IN6PTON_DOT (Z.lor IN6PTON_DELIM IN6PTON_COLON_MASK))) with true.
  change (meets IN6PTON_DELIM (Z.lor IN6PTON_DELIM IN6PTON_COLON_MASK)) with true. rewrite -> (proj2 (Z.eqb_neq _ 0)), Hland by done.
  rewrite -> HX. cbn [Nat.sub replicate]. rewrite -> wr_middle by (by rewrite -> HX). done.
Qed.

Lemma quad_loop lz bs k f : length bs = 4%nat → Forall (in_width 8) bs → 0 ≤ k → drop (Z.to_nat k) text = quad_text lz bs →
  loop (length (quad_text lz bs) + (1 + f)) (in4_step src delim) (at4 k [] 0) = Some (true, bs, len).
Proof using Hdelim.
  intros Hl Hb Hk Ht. assert (k + Z.of_nat (length (quad_text lz bs)) = len) as Hlen.
  { rewrite <- Ht, length_drop. assert (quad_text lz bs ≠ []) as Hne by (rw /quad_text; change (seqZ 0 4) with [0; 1; 2; 3]; cbn; by intros [[_ ?]%app_nil _]%app_nil).
    destruct (Z.le_gt_cases k len); [lia|]. exfalso. apply Hne. rewrite <- Ht. apply drop_ge. lia. }
  revert Hlen. destruct bs as [|b0 [|b1 [|b2 [|b3 [|? ?]]]]]; try done.
  assert (∀ b, b ∈ [b0; b1; b2; b3] → is_octet b (octet_digits lz b) ∧ 0 ≤ b ≤ 255) as Ho.
  { intros b Hin. apply (proj1 (Forall_forall _ _) Hb) in Hin as Hw. split; [by apply octet_ok|]. destruct Hw. change (2 ^ 8) with 256 in *. lia. }
  destruct (Ho b0 ltac:(set_solver)) as [O0 R0], (Ho b1 ltac:(set_solver)) as [O1 R1], (Ho b2 ltac:(set_solver)) as [O2 R2], (Ho b3 ltac:(set_solver)) as [O3 R3].
  rw /quad_text in Ht. rw /quad_text. change (seqZ 0 4) with [0; 1; 2; 3] in *. cbn [map concat Z.ltb Z.compare Pos.compare Pos.compare_cont] in *.
  change (byte [b0; b1; b2; b3] 0) with b0 in *. change (byte [b0; b1; b2; b3] 1) with b1 in *. change (byte [b0; b1; b2; b3] 2) with b2 in *. change (byte [b0; b1; b2; b3] 3) with b3 in *.
  set (d0 := octet_digits lz b0) in *. set (d1 := octet_digits lz b1) in *. set (d2 := octet_digits lz b2) in *. set (d3 := octet_digits lz b3) in *.
  rewrite -> !length_app, !length_map. cbn [length]. rewrite -> !app_nil_r, <- !app_assoc in Ht. cbn [app] in Ht. intros Hlen.
  replace (length d0 + 1 + (length d1 + 1 + (length d2 + 1 + (length d3 + 0 + 0))) + (1 + f))%nat
    with (length d0 + (1 + (length d1 + (1 + (length d2 + (1 + (length d3 + (1 + f))))))))%nat by lia.
  destruct (octet_dot b0 d0 k [] _ (length d1 + (1 + (length d2 + (1 + (length d3 + (1 + f)))))) O0 R0 Hk ltac:(cbn; lia) Ht) as [-> Ht1].
  set (k1 := k + Z.of_nat (length d0) + 1) in *. cbn [app].
  destruct (octet_dot b1 d1 k1 [b0] _ (length d2 + (1 + (length d3 + (1 + f)))) O1 R1 ltac:(lia) ltac:(cbn; lia) Ht1) as [-> Ht2].
  set (k2 := k1 + Z.of_nat (length d1) + 1) in *. cbn [app].
  destruct (octet_dot b2 d2 k2 [b0; b1] _ (length d3 + (1 + f)) O2 R2 ltac:(lia) ltac:(cbn; lia) Ht2) as [-> Ht3].
  set (k3 := k2 + Z.of_nat (length d2) + 1) in *. cbn [app].
  rewrite -> (octet_end b3 d3 k3 [b0; b1; b2] f O3 R3 ltac:(lia) ltac:(done) Ht3). do 2 f_equal. lia.
Qed.
End reading.

(** in4_pton reads what ip4_string prints. *)
Lemma in4_reads lz bs after delim dst off : delim ∉ address_chars → length bs = 4%nat → Forall (in_width 8) bs →
  in4_pton (quad_text lz bs ++ 0 :: after) (Z.of_nat (length (quad_text lz bs))) dst off delim =
  (dst' ← wr_range dst off bs; Some (1, dst', Z.of_nat (length (quad_text lz bs)))).
Proof.
  intros Hdelim Hl Hb. rw /in4_pton /source_length. rewrite -> (proj2 (Z.ltb_ge _ 0)) by lia. cbn [mbind option_bind]. rewrite -> Nat2Z.id.
  pose proof (quad_loop (quad_text lz bs) after delim Hdelim lz bs 0 1 Hl Hb ltac:(lia) ltac:(done)) as E. rw /at4 in E. rewrite -> Z.sub_0_r in E. cbn [length Nat.sub app Z.of_nat] in E.
  change (1 + 1)%nat with 2%nat in E. change (Z.of_nat 0) with 0 in E. by rewrite -> E.
Qed.

(** Bytes written over the zeros behind [X]. *)
Lemma wr_range_zeros X bs n : (length X + length bs ≤ n)%nat → wr_range (X ++ replicate (n - length X) 0) (Z.of_nat (length X)) bs = Some (X ++ bs ++ replicate (n - length X - length bs) 0).
Proof.
  intros Hn. rw /wr_range. rewrite -> length_app, length_replicate. rewrite -> (proj2 (Z.leb_le 0 _)), (proj2 (Z.leb_le (_ + _) _)) by lia. cbn [andb]. rewrite -> Nat2Z.id, take_app_length, drop_app_ge by lia.
  replace (length X + length bs - length X)%nat with (length bs) by lia. by rewrite -> drop_replicate.
Qed.

Section reading6.
Context (text after : list Z) (delim : Z) (Hdelim : delim ∉ address_chars).
Notation src := (text ++ 0 :: after).
Notation len := (Z.of_nat (length text)).

(** ** IPv6: words *)

(** The loop of in6_pton at [k], with the bytes [X] behind it. *)
Definition at6 (k : Z) (tok : option Z) (X : list Z) (dc : option Z) (st w : Z) : in6_state :=
  {| p_s := k; p_srclen := len - k; p_tok := tok; p_d := Z.of_nat (length X); p_dc := dc; p_dbuf := X ++ replicate (16 - length X) 0; p_state := st; p_w := w |}.

(** The positions where a word begins. *)
Definition word_places : list nat := [0; 2; 4; 6; 8; 10; 12; 14]%nat.

Definition seen (dc : option Z) : bool := match dc with Some _ => true | None => false end.
(** The flags behind a digit. *)
Definition after_digit (dc : bool) (n : nat) (w : Z) : Z := cont_state dc (Z.of_nat n) (digit_state dc (Z.of_nat n) w).

Lemma digit_facts d : 0 ≤ d < 16 →
  Z.testbit (digit_class d) 16 = true ∧ meets (digit_class d) (Z.lor IN6PTON_DELIM IN6PTON_COLON_MASK) = false ∧ meets (digit_class d) IN6PTON_DOT = false ∧ Z.land 0xff (digit_class d) = d.
Proof using.
  intros Hd. assert (d ∈ seqZ 0 16) as Hin by (apply elem_of_seqZ; clear Hdelim; lia). clear Hd. revert d Hin. apply Forall_forall. repeat constructor.
Qed.

Lemma meets_bit c st i : Z.testbit c i = true → Z.testbit st i = true → meets c st = true.
Proof using. intros Hc Hst. rw /meets. destruct (Z.eqb_spec (Z.land c st) 0) as [E|]; [|done]. apply (f_equal (λ x, Z.testbit x i)) in E. by rewrite -> Z.land_spec, Hc, Hst, Z.bits_0 in E. Qed.

Lemma short_word w : 0 ≤ w < 4096 → meets w 0xf000 = false.
Proof using.
  clear Hdelim. intros Hw. rw /meets. apply negb_false_iff, Z.eqb_eq. apply Z.bits_inj'. intros i Hi. rewrite -> Z.land_spec, Z.bits_0. change 0xf000 with (Z.shiftl 15 12). rewrite -> Z.shiftl_spec by lia.
  destruct (Z.lt_ge_cases i 12); [rewrite -> (Z.testbit_neg_r 15) by lia; apply andb_false_r|]. by rewrite -> (testbit_above 12 w) by (done || split; cbn; lia).
Qed.

Lemma after_digit_xdigit dc n w : n ∈ word_places → 0 ≤ w < 4096 → Z.testbit (after_digit dc n w) 16 = true.
Proof using.
  intros Hn Hw. rw /after_digit. rewrite -> digit_state_high, short_word by done. clear Hw. revert n Hn. apply Forall_forall. destruct dc; repeat constructor.
Qed.

Lemma shift_digit w d : 0 ≤ w → 0 ≤ d < 16 → Z.lor (Z.shiftl w 4) d = w * 16 + d.
Proof using.
  clear Hdelim. intros Hw Hd. rewrite <- Z.add_nocarry_lor; [rewrite -> Z.shiftl_mul_pow2 by lia; lia|]. apply Z.bits_inj'. intros i Hi. rewrite -> Z.land_spec, Z.bits_0, Z.shiftl_spec by lia.
  destruct (Z.lt_ge_cases i 4); [by rewrite -> (Z.testbit_neg_r w) by lia|]. rewrite -> (testbit_above 4 d) by (done || split; cbn; lia). apply andb_false_r.
Qed.

Lemma in6_cont_at6 k tok X dc st w : in6_cont (at6 k tok X dc st w) = at6 (k + 1) tok X dc (cont_state (seen dc) (Z.of_nat (length X)) st) w.
Proof using. rw /in6_cont /at6. cbn [p_s p_srclen p_tok p_d p_dc p_dbuf p_state p_w]. f_equal. clear Hdelim. lia. Qed.

Lemma word_loop ds j w st k tok X dc rest f : (j + length ds ≤ 4)%nat → Forall (λ d, 0 ≤ d < 16) ds → 0 ≤ w < 16 ^ Z.of_nat j → Z.testbit st 16 = true → length X ∈ word_places → 0 ≤ k →
  drop (Z.to_nat k) text = map hexc ds ++ rest →
  loop (length ds + f) (in6_step src delim) (at6 k tok X dc st w) =
  loop f (in6_step src delim) (at6 (k + Z.of_nat (length ds)) tok X dc (match ds with [] => st | _ => after_digit (seen dc) (length X) (foldl (λ v d, v * 16 + d) w ds) end)
                                   (foldl (λ v d, v * 16 + d) w ds)) ∧ drop (Z.to_nat (k + Z.of_nat (length ds))) text = rest.
Proof using Hdelim.
  revert j w st k. induction ds as [|d ds IH]; intros j w st k Hj Hds Hw Hst HX Hk Hd.
  { cbn in *. by rewrite -> Z.add_0_r. }
  inversion Hds as [|? ? Hd16 Hds']; subst. cbn [map app length] in *. destruct (class_at text after delim k _ _ Hk Hd) as (Ec & Hd' & Hlt). cbn [Nat.add loop]. rw {1}/in6_step.
  change (p_s (at6 k tok X dc st w)) with k. change (p_srclen (at6 k tok X dc st w)) with (len - k). rewrite -> Ec, class_hex by done. cbn [mbind option_bind].
  destruct (digit_facts d Hd16) as (F1 & F2 & F3 & F4). cbn [at6 p_state]. rewrite -> (meets_bit _ _ _ F1 Hst), F2, F3, F4. cbn [negb].
  change (p_w (at6 k tok X dc st w)) with w. rewrite -> (shift_digit w d (proj1 Hw) Hd16). set (w' := w * 16 + d).
  change (in6_cont _) with (in6_cont (at6 k tok X dc (digit_state (seen dc) (Z.of_nat (length X)) w') w')). rewrite -> in6_cont_at6. fold (after_digit (seen dc) (length X) w').
  cbn [foldl]. fold w'. assert (0 ≤ w' < 16 ^ Z.of_nat (S j)) as Hw' by (rewrite -> Nat2Z.inj_succ, Z.pow_succ_r by lia; rw /w'; lia).
  destruct ds as [|e ds]; [cbn [foldl length Nat.add]; split; [done|]; exact Hd'|].
  assert (Z.testbit (after_digit (seen dc) (length X) w') 16 = true) as Hst'.
  { apply after_digit_xdigit; [done|]. split; [lia|]. eapply Z.lt_le_trans; [apply Hw'|]. change 4096 with (16 ^ 3). apply Z.pow_le_mono_r; [lia|]. cbn [length] in Hj. lia. }
  destruct (IH (S j) w' (after_digit (seen dc) (length X) w') (k + 1)) as [-> Hrest]; [lia|done|done|done|done|lia|done|].
  by replace (k + Z.of_nat (S (length (e :: ds)))) with (k + 1 + Z.of_nat (length (e :: ds))) by lia.
Qed.

(** The fields of a loop state. *)
Ltac fields :=
  repeat change (p_s (at6 ?k ?t ?X ?dc ?st ?w)) with k; repeat change (p_srclen (at6 ?k ?t ?X ?dc ?st ?w)) with (len - k);
  repeat change (p_state (at6 ?k ?t ?X ?dc ?st ?w)) with st; repeat change (p_w (at6 ?k ?t ?X ?dc ?st ?w)) with w; repeat change (p_tok (at6 ?k ?t ?X ?dc ?st ?w)) with t;
  repeat change (p_dc (at6 ?k ?t ?X ?dc ?st ?w)) with dc; repeat change (p_d (at6 ?k ?t ?X ?dc ?st ?w)) with (Z.of_nat (length X));
  repeat change (p_dbuf (at6 ?k ?t ?X ?dc ?st ?w)) with (X ++ replicate (16 - length X) 0).

Definition word_bytes (w : Z) : list Z := [w / 256; w mod 256].

Lemma put_word_at6 k tok X dc st w : 0 ≤ w < 65536 → (length X ≤ 14)%nat → meets st IN6PTON_NULL = false → put_word (at6 k tok X dc st w) = Some (at6 k tok (X ++ word_bytes w) dc st 0).
Proof using.
  clear Hdelim. intros Hw HX Hn. rw /put_word. cbn [at6 p_state p_dbuf p_d p_w p_s p_srclen p_tok p_dc]. rewrite -> Hn.
  destruct (16 - length X)%nat as [|[|m]] eqn:Em; [lia|lia|]. cbn [replicate]. rewrite -> wr_middle by done. cbn [mbind option_bind].
  rewrite -> (app_assoc X [_] (0 :: replicate m 0) : X ++ _ :: 0 :: replicate m 0 = (X ++ [_]) ++ 0 :: replicate m 0).
  rewrite -> wr_middle by (rewrite -> length_app; cbn; lia). cbn [mbind option_bind]. rw /at6 /word_bytes. f_equal. rewrite -> length_app. cbn [length].
  assert (Z.land (Z.shiftr w 8) 0xff = w / 256) as ->.
  { change 0xff with (Z.ones 8). rewrite -> Z.land_ones, Z.shiftr_div_pow2 by lia. change (2 ^ 8) with 256. apply Z.mod_small. zdm. }
  assert (Z.land w 0xff = w mod 256) as -> by (change 0xff with (Z.ones 8); by rewrite -> Z.land_ones by lia).
  f_equal; [lia|]. rewrite <- !app_assoc. cbn [app]. do 4 f_equal. lia.
Qed.

(** The flags where a colon can follow a word. *)
Lemma colon_facts (dc : bool) n w : n ∈ word_places → (n ≤ 12)%nat → let st := after_digit dc n w in
  meets IN6PTON_COLON_MASK st = true ∧ meets st IN6PTON_NULL = false ∧ Z.land st IN6PTON_COLON_MASK = (if dc then IN6PTON_COLON_1 else Z.lor IN6PTON_COLON_1 IN6PTON_COLON_1_2).
Proof using.
  intros Hn Hle. cbn zeta. rw /after_digit. rewrite -> digit_state_high. set (hi := if meets w 0xf000 then 0xf000 else 0).
  assert (hi = 0xf000 ∨ hi = 0) as Hhi by (rw /hi; destruct (meets w 0xf000); auto). clearbody hi.
  assert (n = 0 ∨ n = 2 ∨ n = 4 ∨ n = 6 ∨ n = 8 ∨ n = 10 ∨ n = 12)%nat as Hc by (rw /word_places !elem_of_cons in Hn; lia || (destruct Hn as [?|[?|[?|[?|[?|[?|[?|[?|?]]]]]]]]; lia || by apply elem_of_nil in H)).
  clear Hn Hle. destruct dc, Hhi as [-> | ->]; repeat destruct Hc as [-> | Hc]; try done; by rewrite -> Hc.
Qed.

(** What is expected behind a colon. *)
Definition after_colon (dc : bool) (n : nat) : Z := cont_state dc (Z.of_nat n) (if dc then IN6PTON_XDIGIT else Z.lor IN6PTON_XDIGIT IN6PTON_COLON_2).

Lemma step_colon k tok X dc w rest : length X ∈ word_places → (length X ≤ 12)%nat → 0 ≤ w < 65536 → 0 ≤ k → drop (Z.to_nat k) text = ch ":" :: rest →
  in6_step src delim (at6 k tok X dc (after_digit (seen dc) (length X) w) w) = Some (Next (at6 (k + 1) (Some (k + 1)) (X ++ word_bytes w) dc (after_colon (seen dc) (length X + 2)) 0)).
Proof using Hdelim.
  intros HX Hle Hw Hk Hd. destruct (class_at text after delim k _ _ Hk Hd) as (Ec & Hd' & Hlt). destruct (colon_facts (seen dc) (length X) w HX Hle) as (F1 & F2 & F3).
  rw {1}/in6_step. fields. rewrite -> Ec, class_colon by done. cbn [mbind option_bind]. rewrite -> F1. cbn [negb].
  change (meets IN6PTON_COLON_MASK (Z.lor IN6PTON_DELIM IN6PTON_COLON_MASK)) with true. change (meets IN6PTON_COLON_MASK IN6PTON_DELIM) with false.
  rewrite -> put_word_at6 by (done || lia). cbn [mbind option_bind]. rw /colon_state. fields. rewrite -> F3. 
  assert (length (X ++ word_bytes w) = length X + 2)%nat as Hl by (by rewrite -> length_app).
  transitivity (Some (Next (R := bool * in6_state) (in6_cont (at6 k (Some (k + 1)) (X ++ word_bytes w) dc (if seen dc then IN6PTON_XDIGIT else Z.lor IN6PTON_XDIGIT IN6PTON_COLON_2) 0)))); [by destruct dc|].
  rewrite -> in6_cont_at6, Hl. by destruct dc.
Qed.

(** The flags behind a colon. *)
Lemma after_colon_facts (dc : bool) n : n ∈ word_places → Z.testbit (after_colon dc n) 16 = true.
Proof using. revert n. apply Forall_forall. destruct dc; repeat constructor. Qed.

Lemma word_range w ds : is_word w ds → 0 ≤ w < 65536.
Proof using.
  clear Hdelim. intros (Hl & Hds & <-). assert (∀ v, 0 ≤ v → 0 ≤ foldl (λ v d, v * 16 + d) v ds < (v + 1) * 16 ^ Z.of_nat (length ds)) as Hf.
  { clear Hl. induction Hds as [|d ds Hd _ IH]; intros v Hv; cbn [foldl length]; [cbn; lia|]. specialize (IH (v * 16 + d) ltac:(lia)). rewrite -> Nat2Z.inj_succ, Z.pow_succ_r by lia.
    pose proof (Z.pow_pos_nonneg 16 (Z.of_nat (length ds)) ltac:(lia) ltac:(lia)). nia. }
  specialize (Hf 0 ltac:(lia)). rw /value. assert (16 ^ Z.of_nat (length ds) ≤ 16 ^ 4) by (apply Z.pow_le_mono_r; lia). change (16 ^ 4) with 65536 in *. lia.
Qed.

Lemma place_next n : n ∈ word_places → (n ≤ 12)%nat → (n + 2)%nat ∈ word_places.
Proof using. rw /word_places !elem_of_cons. intros Hn Hle. repeat destruct Hn as [-> | Hn]; cbn; auto 10; [lia|by apply elem_of_nil in Hn]. Qed.

(** Words with a colon behind each. *)
Lemma words_loop ws dss st k tok X dc rest f : Forall2 is_word ws dss → Z.testbit st 16 = true → length X ∈ word_places → (length X + 2 * length ws ≤ 14)%nat → 0 ≤ k →
  drop (Z.to_nat k) text = colonised (map (map hexc) dss) ++ rest →
  ∃ k' st' tok', loop (length (colonised (map (map hexc) dss)) + f) (in6_step src delim) (at6 k tok X dc st 0) =
      loop f (in6_step src delim) (at6 k' tok' (X ++ concat (map word_bytes ws)) dc st' 0) ∧
    k' = k + Z.of_nat (length (colonised (map (map hexc) dss))) ∧ drop (Z.to_nat k') text = rest ∧ Z.testbit st' 16 = true ∧
    (ws = [] ∧ st' = st ∧ tok' = tok ∨ ws ≠ [] ∧ st' = after_colon (seen dc) (length X + 2 * length ws) ∧ tok' = Some k').
Proof using Hdelim.
  intros Hws. revert st k tok X. induction Hws as [|w ds ws dss Hw Hws IH]; intros st k tok X Hst HX Hlen Hk Hd.
  { exists k, st, tok. cbn in *. rewrite -> app_nil_r, Z.add_0_r. split_and!; [done|done|done|done|]. by left. }
  destruct Hw as (Hl & Hds & Hv). cbn [map colonised concat] in *. fold (colonised (map (map hexc) dss)) in *. rewrite <- !app_assoc in Hd. cbn [app] in Hd.
  destruct (word_loop ds 0 0 st k tok X dc _ (1 + (length (colonised (map (map hexc) dss)) + f)) ltac:(lia) Hds ltac:(lia) Hst HX Hk Hd) as [E Hd1].
  rewrite -> !length_app, !length_map. cbn [length]. replace (length ds + 1 + length (colonised (map (map hexc) dss)) + f)%nat with (length ds + (1 + (length (colonised (map (map hexc) dss)) + f)))%nat by lia.
  rewrite -> E. fold (value 16 ds). rewrite -> Hv. clear E. destruct ds as [|d0 ds0] eqn:Eds; [cbn in Hl; lia|]. rewrite <- Eds in *. clear Eds.
  set (k1 := k + Z.of_nat (length ds)) in *. cbn [Nat.add loop].
  assert (0 ≤ w < 65536) as Hwr by (by apply (word_range w ds)).
  cbn [length] in Hlen. rewrite -> (step_colon k1 tok X dc w _ HX ltac:(lia) Hwr ltac:(lia) Hd1). destruct (class_at text after delim k1 _ _ ltac:(lia) Hd1) as (_ & Hd2 & _).
  assert (length (X ++ word_bytes w) = length X + 2)%nat as Hl' by (by rewrite -> length_app). assert (length X + 2 ∈ word_places)%nat as Hp by (apply place_next; [done|lia]).
  destruct (IH (after_colon (seen dc) (length X + 2)) (k1 + 1) (Some (k1 + 1)) (X ++ word_bytes w)) as (k' & st' & tok' & E & Ek & Hr & Hb & Hcase);
    [by apply after_colon_facts|by rewrite -> Hl'|rewrite -> Hl'; lia|lia|done|].
  exists k', st', tok'. rewrite -> E, <- app_assoc. split_and!; [done|lia|done|done|]. right. split; [done|]. rewrite -> Hl' in Hcase.
  destruct Hcase as [(-> & -> & ->)|(_ & -> & ->)]; [|by replace (length X + 2 * S (length ws))%nat with (length X + 2 + 2 * length ws)%nat by lia].
  inversion Hws; subst. cbn. split; [f_equal; lia|]. f_equal. lia.
Qed.

(** ** IPv6: runs and ends *)

Lemma delim_facts (dc : bool) n w : n ∈ word_places → dc = true ∨ n = 14%nat → let st := after_digit dc n w in meets IN6PTON_DELIM st = true ∧ meets st IN6PTON_NULL = false.
Proof using.
  intros Hn Hle. cbn zeta. rw /after_digit. rewrite -> digit_state_high. set (hi := if meets w 0xf000 then 0xf000 else 0).
  assert (hi = 0xf000 ∨ hi = 0) as Hhi by (rw /hi; destruct (meets w 0xf000); auto). clearbody hi.
  destruct Hle as [-> | ->]; [|destruct dc, Hhi as [-> | ->]; done]. rw /word_places !elem_of_cons in Hn. destruct Hhi as [-> | ->]; repeat destruct Hn as [-> | Hn]; try done; by apply elem_of_nil in Hn.
Qed.

(** The last word. *)
Lemma word_end w ds st k tok X dc f : is_word w ds → Z.testbit st 16 = true → length X ∈ word_places → seen dc = true ∨ length X = 14%nat → 0 ≤ k → drop (Z.to_nat k) text = map hexc ds →
  ∃ st', loop (length ds + (1 + f)) (in6_step src delim) (at6 k tok X dc st 0) = Some (true, at6 len tok (X ++ word_bytes w) dc st' 0).
Proof using Hdelim.
  intros Hword Hst HX Hend Hk Hd. pose proof (word_range w ds Hword) as Hr. destruct Hword as (Hl & Hds & Hv). rewrite <- (app_nil_r (map hexc ds)) in Hd.
  destruct (word_loop ds 0 0 st k tok X dc _ (1 + f) ltac:(lia) Hds ltac:(lia) Hst HX Hk Hd) as [E Hd1]. rewrite -> E. fold (value 16 ds). rewrite -> Hv. clear E.
  assert (k + Z.of_nat (length ds) = len) as Hk1.
  { apply (f_equal length) in Hd. rewrite -> length_drop, app_nil_r, length_map in Hd. lia. }
  destruct ds as [|d0 ds0] eqn:Eds; [cbn in Hl; lia|]. rewrite <- Eds in *. rewrite -> Hk1 in *. cbn [Nat.add loop]. rw {1}/in6_step. fields. rewrite -> (class_end text after delim len) by (done || lia). cbn [mbind option_bind].
  destruct (delim_facts (seen dc) (length X) w HX Hend) as (F1 & F2). rewrite -> F1. cbn [negb]. change (meets IN6PTON_DELIM (Z.lor IN6PTON_DELIM IN6PTON_COLON_MASK)) with true.
  change (meets IN6PTON_DELIM IN6PTON_DELIM) with true. rewrite -> put_word_at6 by (done || (rw /word_places !elem_of_cons in HX; repeat destruct HX as [-> | HX]; lia || by apply elem_of_nil in HX)).
  cbn [mbind option_bind]. by eexists.
Qed.

(** Behind a run. *)
Definition after_run (n : nat) : Z := cont_state true (Z.of_nat n) (Z.lor (Z.lor IN6PTON_XDIGIT IN6PTON_DELIM) (if 16 <=? Z.of_nat n then IN6PTON_NULL else 0)).

(** The second colon of a run. *)
Lemma step_run k tok X st rest : meets IN6PTON_COLON_MASK st = true → meets st IN6PTON_NULL = false → Z.land st IN6PTON_COLON_MASK = IN6PTON_COLON_2 → (length X ≤ 14)%nat → 0 ≤ k →
  drop (Z.to_nat k) text = ch ":" :: rest →
  in6_step src delim (at6 k tok X None st 0) = Some (Next (at6 (k + 1) (Some (k + 1)) (X ++ [0; 0]) (Some (Z.of_nat (length X + 2))) (after_run (length X + 2)) 0)).
Proof using Hdelim.
  intros F1 F2 F3 HX Hk Hd. destruct (class_at text after delim k _ _ Hk Hd) as (Ec & Hd' & Hlt). rw {1}/in6_step. fields. rewrite -> Ec, class_colon by done. cbn [mbind option_bind]. rewrite -> F1. cbn [negb].
  change (meets IN6PTON_COLON_MASK (Z.lor IN6PTON_DELIM IN6PTON_COLON_MASK)) with true. change (meets IN6PTON_COLON_MASK IN6PTON_DELIM) with false.
  rewrite -> put_word_at6 by (done || lia). cbn [mbind option_bind]. rw /colon_state. fields. rewrite -> F3. change (word_bytes 0) with [0; 0].
  assert (length (X ++ [0%Z; 0%Z]) = length X + 2)%nat as Hl by (by rewrite -> length_app). rewrite -> Hl.
  transitivity (Some (Next (R := bool * in6_state) (in6_cont (at6 k (Some (k + 1)) (X ++ [0; 0]) (Some (Z.of_nat (length X + 2)))
    (Z.lor (Z.lor IN6PTON_XDIGIT IN6PTON_DELIM) (if 16 <=? Z.of_nat (length X + 2) then IN6PTON_NULL else 0)) 0)))); [rw /at6; by rewrite -> Hl|].
  rewrite -> in6_cont_at6, Hl. done.
Qed.

Lemma after_colon_run n : n ∈ word_places → let st := after_colon false n in meets IN6PTON_COLON_MASK st = true ∧ meets st IN6PTON_NULL = false ∧ Z.land st IN6PTON_COLON_MASK = IN6PTON_COLON_2.
Proof using. revert n. apply Forall_forall. repeat constructor. Qed.

(** The flags at the beginning. *)
Definition start : in6_state := at6 0 None [] None (Z.lor (Z.lor IN6PTON_COLON_1_2 IN6PTON_XDIGIT) IN6PTON_NULL) 0.

(** A run at the beginning. *)
Lemma start_run rest f : text = ch ":" :: ch ":" :: rest →
  loop (2 + f) (in6_step src delim) start = loop f (in6_step src delim) (at6 2 (Some 2) [0; 0] (Some 2) (after_run 2) 0).
Proof using Hdelim.
  intros Ht. assert (drop (Z.to_nat 0) text = ch ":" :: ch ":" :: rest) as Hd0 by (by rewrite -> Ht). destruct (class_at text after delim 0 _ _ ltac:(lia) Hd0) as (Ec & Hd1 & _).
  assert (in6_step src delim start = Some (Next (in6_cont (at6 0 (Some 1) [] None IN6PTON_COLON_2 0)))) as E0.
  { rw {1}/in6_step. rw /start. fields. rewrite -> Ec, class_colon by done. done. }
  cbn [Nat.add loop]. rewrite -> E0, in6_cont_at6. change (0 + 1) with 1 in *. change (cont_state (seen None) (Z.of_nat (length [])) IN6PTON_COLON_2) with IN6PTON_COLON_2.
  rewrite -> (step_run 1 (Some 1) [] IN6PTON_COLON_2 rest); [done|done|done|done|cbn; lia|lia|done].
Qed.

Lemma after_run_facts n : n ∈ word_places → let st := after_run n in Z.testbit st 16 = true ∧ meets IN6PTON_DELIM st = true ∧ meets st IN6PTON_NULL = false.
Proof using. revert n. apply Forall_forall. repeat constructor. Qed.

Lemma place_bound n : n ∈ word_places → (n ≤ 14)%nat.
Proof using. revert n. apply Forall_forall. repeat constructor. Qed.

(** A run at the end. *)
Lemma run_end tok X c f : length X ∈ word_places →
  loop (1 + f) (in6_step src delim) (at6 len tok X (Some c) (after_run (length X)) 0) = Some (true, at6 len tok (X ++ word_bytes 0) (Some c) (after_run (length X)) 0).
Proof using.
  clear Hdelim. intros HX. destruct (after_run_facts (length X) HX) as (_ & F1 & F2). cbn [Nat.add loop]. rw {1}/in6_step. fields.
  rewrite -> (class_end text after delim len) by (lia || (apply drop_ge; lia)). cbn [mbind option_bind]. rewrite -> F1. cbn [negb].
  change (meets IN6PTON_DELIM (Z.lor IN6PTON_DELIM IN6PTON_COLON_MASK)) with true. change (meets IN6PTON_DELIM IN6PTON_DELIM) with true.
  rewrite -> put_word_at6 by (done || by apply place_bound). done.
Qed.

(** ** IPv6: the decimal tail *)

Lemma dot_facts (dc : bool) n w : n ∈ word_places → n = 12%nat ∨ dc = true ∧ (n ≤ 12)%nat → meets IN6PTON_DOT (after_digit dc n w) = true.
Proof using.
  intros Hn Hle. rw /after_digit. rewrite -> digit_state_high. set (hi := if meets w 0xf000 then 0xf000 else 0).
  assert (hi = 0xf000 ∨ hi = 0) as Hhi by (rw /hi; destruct (meets w 0xf000); auto). clearbody hi.
  destruct Hle as [-> | [-> Hle]]; [destruct dc, Hhi as [-> | ->]; done|]. rw /word_places !elem_of_cons in Hn.
  destruct Hhi as [-> | ->]; repeat destruct Hn as [-> | Hn]; try done; try (exfalso; clear Hdelim; lia); by apply elem_of_nil in Hn.
Qed.

Lemma hex_dec ds : Forall (λ d, 0 ≤ d < 10) ds → map decc ds = map hexc ds.
Proof using.
  intros Hds. apply map_ext_in. intros d Hd%list_elem_of_In. apply (proj1 (Forall_forall _ _) Hds) in Hd. assert (d ∈ seqZ 0 10) as Hin by (apply elem_of_seqZ; clear Hdelim; lia). clear Hd.
  revert d Hin. apply Forall_forall. repeat constructor.
Qed.

(** The state in which the loop ends: the bytes [X] are in the buffer. *)
Definition done6 (X : list Z) (dc : option Z) (q : in6_state) : Prop :=
  p_s q = len ∧ p_dc q = dc ∧ p_d q = Z.of_nat (length X) ∧ p_dbuf q = X ++ replicate (16 - length X) 0.

Lemma done_at6 tok X dc st w : done6 X dc (at6 len tok X dc st w).
Proof using. done. Qed.

Lemma quad_end bs st k X dc f : length bs = 4%nat → Forall (in_width 8) bs → Z.testbit st 16 = true → length X ∈ word_places → length X = 12%nat ∨ seen dc = true ∧ (length X ≤ 12)%nat →
  0 ≤ k → drop (Z.to_nat k) text = quad_text false bs →
  ∃ q, loop (length (quad_text false bs) + f) (in6_step src delim) (at6 k (Some k) X dc st 0) = Some (true, q) ∧ done6 (X ++ bs) dc q.
Proof using Hdelim.
  intros Hl Hb Hst HX HX12 Hk Hd.
  assert (∃ rest, quad_text false bs = map decc (octet_digits false (byte bs 0)) ++ ch "." :: rest) as [rest Hq].
  { rw /quad_text. change (seqZ 0 4) with [0; 1; 2; 3]. cbn [map concat Z.ltb Z.compare Pos.compare Pos.compare_cont]. rewrite <- app_assoc. by eexists. }
  destruct (octet_ok false (byte bs 0) ltac:(by apply byte_width)) as (Ho & Hds & Hv). set (ds := octet_digits false (byte bs 0)) in *.
  pose proof Hd as Hd0. rewrite -> Hq, (hex_dec ds Hds) in Hd0.
  assert (len - k = Z.of_nat (length (quad_text false bs))) as Hlen.
  { rewrite <- Hd, length_drop. assert (length (quad_text false bs) ≠ 0%nat) as Hne by (rewrite -> Hq, length_app; cbn; lia). rewrite <- Hd, length_drop in Hne. lia. }
  assert (length (quad_text false bs) = length ds + S (length rest))%nat as Hlq by (by rewrite -> Hq, length_app, length_map).
  replace (length (quad_text false bs) + f)%nat with (length ds + (1 + (length rest + f)))%nat by lia.
  assert (Forall (λ d, 0 ≤ d < 16) ds) as Hds16 by (eapply Forall_impl; [done|]; intros d ?; cbn in *; lia).
  destruct (word_loop ds 0 0 st k (Some k) X dc _ (1 + (length rest + f)) ltac:(lia) Hds16 ltac:(lia) Hst HX Hk Hd0) as [-> Hd1].
  set (w := foldl (λ v d, v * 16 + d) 0 ds). destruct ds as [|d0 ds0] eqn:Eds; [cbn in Ho; lia|]. rewrite <- Eds in *. set (k1 := k + Z.of_nat (length ds)) in *.
  destruct (class_at text after delim k1 _ _ ltac:(lia) Hd1) as (Ec & _ & Hlt). cbn [Nat.add loop]. rw {1}/in6_step. fields. rewrite -> Ec, class_dot by done. cbn [mbind option_bind].
  rewrite -> dot_facts by done. change (meets IN6PTON_DOT (Z.lor IN6PTON_DELIM IN6PTON_COLON_MASK)) with false. change (meets IN6PTON_DOT IN6PTON_DOT) with true. cbn [negb].
  replace (len - k1 + (k1 - k)) with (len - k) by lia. rewrite -> (drop_app_le text), Hd, Hlen, in4_reads by (done || lia).
  rewrite -> (wr_range_zeros X bs 16) by lia. cbn [mbind option_bind]. change (0 <? 1) with true. eexists. split; [done|]. split_and!; cbn.
  - lia.
  - done.
  - rewrite -> length_app. lia.
  - rewrite -> length_app, <- app_assoc. do 3 f_equal. lia.
Qed.
End reading6.

(** ** The bytes behind a run *)

Lemma copy_down_spec n A B C P Q R i d : length B = n → length Q = n → i = Z.of_nat (length A + n) - 1 → d = Z.of_nat (length P + n) - 1 →
  copy_down n (A ++ B ++ C) (P ++ Q ++ R) i d = Some (A ++ Q ++ C).
Proof.
  revert B C Q R i d. induction n as [|n IH]; intros B C Q R i d HB HQ -> ->.
  { apply nil_length_inv in HB as ->, HQ as ->. done. }
  destruct B as [|b B _] using rev_ind; [done|]. destruct Q as [|q Q _] using rev_ind; [done|]. rewrite -> length_app in HB, HQ. cbn [length] in HB, HQ. cbn [copy_down].
  rewrite <- (app_assoc Q), (app_assoc P), <- (app_assoc B), (app_assoc A). cbn [app]. rewrite -> rd_middle by (rewrite -> length_app; lia). cbn [mbind option_bind].
  rewrite -> wr_middle by (rewrite -> length_app; lia). cbn [mbind option_bind]. rewrite <- !app_assoc. rewrite -> (IH B (q :: C) Q (q :: R)) by lia. done.
Qed.

Lemma zero_down_spec n A B C i : length B = n → i = Z.of_nat (length A + n) - 1 → zero_down n (A ++ B ++ C) i = Some (A ++ replicate n 0 ++ C).
Proof.
  revert B C i. induction n as [|n IH]; intros B C i HB ->.
  { by apply nil_length_inv in HB as ->. }
  destruct B as [|b B _] using rev_ind; [done|]. rewrite -> length_app in HB. cbn [length] in HB. cbn [zero_down].
  rewrite <- (app_assoc B), (app_assoc A). cbn [app]. rewrite -> wr_middle by (rewrite -> length_app; lia). cbn [mbind option_bind]. rewrite <- app_assoc. rewrite -> (IH B (0 :: C)) by lia.
  by rewrite -> replicate_S_end, <- app_assoc.
Qed.

(** The bytes before the run stay, those behind it go to the end. *)
Lemma spread_spec X Y dst : length dst = 16%nat → (length X + length Y ≤ 16)%nat →
  spread dst (X ++ Y ++ replicate (16 - length X - length Y) 0) (Z.of_nat (length X + length Y)) (Z.of_nat (length X)) = Some (X ++ replicate (16 - length X - length Y) 0 ++ Y).
Proof.
  intros Hd Hl. set (m := (16 - length X - length Y)%nat). rewrite <- (take_drop (length X) dst). rewrite <- (take_drop m (drop (length X) dst)).
  set (A := take (length X) dst). set (B := take m (drop (length X) dst)). set (C := drop m (drop (length X) dst)).
  assert (length A = length X) as HA by (rw /A; rewrite -> length_take; lia). assert (length B = m) as HB by (rw /B; rewrite -> length_take, length_drop; lia).
  assert (length C = length Y) as HC by (rw /C; rewrite -> !length_drop; lia). clearbody A B C. rw /spread. cbn zeta.
  replace (Z.to_nat (Z.of_nat (length X + length Y) - Z.of_nat (length X))) with (length Y) by lia.
  rewrite -> (app_assoc A B C), <- (app_nil_r C), (copy_down_spec (length Y) (A ++ B) C [] X Y) by (rewrite -> ?length_app; lia). cbn [mbind option_bind].
  replace (Z.to_nat (15 - Z.of_nat (length Y) - Z.of_nat (length X) + 1)) with m by lia. rewrite -> app_nil_r, <- app_assoc, (zero_down_spec m A B Y) by lia. cbn [mbind option_bind].
  replace (Z.to_nat (15 - Z.of_nat (length Y) - Z.of_nat m + 1)) with (length X) by lia.
  apply (copy_down_spec (length X) [] A (replicate m 0 ++ Y) [] X (Y ++ replicate m 0)); cbn; lia.
Qed.

(** ** Whole addresses *)

Section whole.
Context (after : list Z) (delim : Z) (Hdelim : delim ∉ address_chars).

(** The loop of in6_pton ends well, with the bytes of [addr]. *)
Definition reads6 (text addr : list Z) : Prop :=
  ∃ q, loop (length text + 2) (in6_step (text ++ 0 :: after) delim) (start text) = Some (true, q) ∧
    (done6 text addr None q ∧ length addr = 16%nat ∨
     ∃ X Y, done6 text (X ++ Y) (Some (Z.of_nat (length X))) q ∧ (length X + length Y ≤ 16)%nat ∧ addr = X ++ replicate (16 - length X - length Y) 0 ++ Y).

Definition bytes_of (ws : list Z) : list Z := concat (map word_bytes ws).

Lemma bytes_length ws : length (bytes_of ws) = (2 * length ws)%nat.
Proof using. clear Hdelim. induction ws as [|w ws IH]; [done|]. cbn. fold (bytes_of ws). lia. Qed.

Lemma even_place n : (n ≤ 7)%nat → (2 * n)%nat ∈ word_places.
Proof using. clear Hdelim. intros Hn. do 8 (destruct n as [|n]; [by apply (bool_decide_unpack _)|]). lia. Qed.

(** Eight words. *)
Lemma full_reads ws dss : Forall2 is_word ws dss → length ws = 8%nat → reads6 (joined (map (map hexc) dss)) (bytes_of ws).
Proof using Hdelim.
  intros Hws Hl. destruct ws as [|w ws _] using rev_ind; [done|]. apply Forall2_app_inv_l in Hws as (dss1 & dss2 & Hws & Hw & ->). inversion Hw as [|? ds ? ? Hword Hnil]; subst. inversion Hnil; subst.
  rewrite -> length_app in Hl. cbn [length] in Hl. rewrite -> map_app. cbn [map]. rewrite -> joined_snoc. set (text := colonised (map (map hexc) dss1) ++ map hexc ds).
  destruct (words_loop text after delim Hdelim ws dss1 (Z.lor (Z.lor IN6PTON_COLON_1_2 IN6PTON_XDIGIT) IN6PTON_NULL) 0 None [] None (map hexc ds) (length ds + 2) Hws)
    as (k & st & tok & E & Ek & Hd & Hst & _); [done|apply (even_place 0); lia|cbn; lia|lia|done|].
  fold (bytes_of ws) in E. cbn [app] in E. destruct (word_end text after delim Hdelim w ds st k tok (bytes_of ws) None 1 Hword Hst) as (st' & E');
    [rewrite -> bytes_length; apply even_place; lia|right; rewrite -> bytes_length; lia|lia|done|].
  exists (at6 text (Z.of_nat (length text)) tok (bytes_of ws ++ word_bytes w) None st' 0). split; [|left].
  - rw /start. replace (length text + 2)%nat with (length (colonised (map (map hexc) dss1)) + (length ds + 2))%nat by (rw /text; rewrite -> length_app, length_map; lia). rewrite -> E. exact E'.
  - assert (bytes_of (ws ++ [w]) = bytes_of ws ++ word_bytes w) as -> by (rw /bytes_of; rewrite -> map_app, concat_app; cbn; done). split; [apply done_at6|].
    rewrite -> length_app, bytes_length. cbn. lia.
Qed.

(** Six words and a decimal tail. *)
Lemma quad_reads ws dss bs : Forall2 is_word ws dss → length ws = 6%nat → length bs = 4%nat → Forall (in_width 8) bs →
  reads6 (joined (map (map hexc) dss) ++ ch ":" :: quad_text false bs) (bytes_of ws ++ bs).
Proof using Hdelim.
  intros Hws Hl Hb Hw8. assert (length dss = 6%nat) as Hl' by (by rewrite <- (Forall2_length _ _ _ Hws)).
  rewrite -> (app_assoc _ [ch ":"] _ : _ ++ ch ":" :: quad_text false bs = _), joined_colon by (by destruct dss). set (text := colonised (map (map hexc) dss) ++ quad_text false bs).
  destruct (words_loop text after delim Hdelim ws dss (Z.lor (Z.lor IN6PTON_COLON_1_2 IN6PTON_XDIGIT) IN6PTON_NULL) 0 None [] None (quad_text false bs) (length (quad_text false bs) + 2) Hws)
    as (k & st & tok & E & Ek & Hd & Hst & Hcase); [done|apply (even_place 0); lia|cbn; lia|lia|done|].
  destruct Hcase as [[-> _]|(_ & _ & ->)]; [done|]. fold (bytes_of ws) in E. cbn [app] in E.
  destruct (quad_end text after delim Hdelim bs st k (bytes_of ws) None 2 Hb Hw8 Hst) as (q & E' & Hdone); [rewrite -> bytes_length; apply even_place; lia|left; rewrite -> bytes_length; lia|lia|done|].
  exists q. split; [|left].
  - rw /start. replace (length text + 2)%nat with (length (colonised (map (map hexc) dss)) + (length (quad_text false bs) + 2))%nat by (rw /text; rewrite -> length_app; lia). rewrite -> E. exact E'.
  - split; [done|]. rewrite -> length_app, bytes_length. lia.
Qed.

(** The words before a run, and the run. *)
Lemma run_prefix ws dss rest f : Forall2 is_word ws dss → (length ws ≤ 6)%nat → let text := joined (map (map hexc) dss) ++ ch ":" :: ch ":" :: rest in
  ∃ k, loop (Z.to_nat k + f) (in6_step (text ++ 0 :: after) delim) (start text) =
      loop f (in6_step (text ++ 0 :: after) delim) (at6 text k (Some k) (bytes_of ws ++ [0; 0]) (Some (Z.of_nat (length (bytes_of ws ++ [0; 0])))) (after_run (length (bytes_of ws ++ [0; 0]))) 0) ∧
    0 ≤ k ∧ drop (Z.to_nat k) text = rest ∧ Z.of_nat (length text) = k + Z.of_nat (length rest).
Proof using Hdelim.
  intros Hws Hl text. assert (length (bytes_of ws ++ [0%Z; 0%Z]) = 2 * length ws + 2)%nat as Hlb by (rewrite -> length_app, bytes_length; done). destruct ws as [|w0 ws0] eqn:Ews.
  { inversion Hws; subst. exists 2. split; [|split_and!; [lia|done|cbn; lia]]. apply (start_run text after delim Hdelim rest). done. }
  rewrite <- Ews in *. assert (dss ≠ []) as Hne by (intros ->; inversion Hws; by subst).
  assert (text = colonised (map (map hexc) dss) ++ ch ":" :: rest) as Htext.
  { rw /text. rewrite -> (app_assoc _ [ch ":"] _ : _ ++ ch ":" :: ch ":" :: rest = _), joined_colon; [done|]. by destruct dss. }
  destruct (words_loop text after delim Hdelim ws dss (Z.lor (Z.lor IN6PTON_COLON_1_2 IN6PTON_XDIGIT) IN6PTON_NULL) 0 None [] None (ch ":" :: rest) (S f) Hws)
    as (k & st & tok & E & Ek & Hd & Hst & Hcase); [done|apply (even_place 0); lia|cbn; lia|lia|done|].
  destruct Hcase as [[-> _]|(_ & -> & ->)]; [done|]. fold (bytes_of ws) in E. cbn [app] in E. cbn [length Nat.add seen] in E.
  destruct (after_colon_run (2 * length ws) ltac:(apply even_place; lia)) as (F1 & F2 & F3).
  exists (k + 1). destruct (class_at text after delim k _ _ ltac:(lia) Hd) as (_ & Hd' & _). split; [|split_and!; [lia|done|]].
  - rw /start. replace (Z.to_nat (k + 1) + f)%nat with (length (colonised (map (map hexc) dss)) + S f)%nat by lia. rewrite -> E. cbn [loop].
    rewrite -> (step_run text after delim Hdelim k (Some k) (bytes_of ws) _ rest) by (done || (rewrite -> ?bytes_length; lia)). by rewrite -> Hlb, bytes_length.
  - rewrite -> Htext, length_app. cbn [length]. lia.
Qed.

(** The zeros of the run, two of which stand before [dc]. *)
Lemma run_zeros (A B : list Z) n : (2 ≤ n)%nat → n = (16 - length A - length B)%nat → (A ++ [0; 0]) ++ replicate (16 - length (A ++ [0; 0]) - length B) 0 ++ B = A ++ replicate n 0 ++ B.
Proof using.
  clear Hdelim. intros H2 ->. rewrite -> length_app. cbn [length]. replace (16 - length A - length B)%nat with (2 + (16 - (length A + 2) - length B))%nat by lia. rewrite -> replicate_add. by rewrite <- !app_assoc.
Qed.

Lemma run_reads ws1 dss1 ws2 dss2 : Forall2 is_word ws1 dss1 → Forall2 is_word ws2 dss2 → (length ws1 + length ws2 ≤ 6)%nat →
  reads6 (joined (map (map hexc) dss1) ++ ch ":" :: ch ":" :: joined (map (map hexc) dss2)) (bytes_of ws1 ++ replicate (16 - 2 * length ws1 - 2 * length ws2) 0 ++ bytes_of ws2).
Proof using Hdelim.
  intros H1 H2 Hl. destruct (run_prefix ws1 dss1 (joined (map (map hexc) dss2)) (length (joined (map (map hexc) dss2)) + 2) H1 ltac:(lia)) as (k & E & H0 & Hd & Hlen).
  set (text := joined (map (map hexc) dss1) ++ ch ":" :: ch ":" :: joined (map (map hexc) dss2)) in *. replace (Z.to_nat k + (length (joined (map (map hexc) dss2)) + 2))%nat with (length text + 2)%nat in E by lia.
  set (X := bytes_of ws1 ++ [0; 0]) in *. assert (length X = 2 * (length ws1 + 1))%nat as HX by (rw /X; rewrite -> length_app, bytes_length; cbn; lia).
  assert (length X ∈ word_places) as HXp by (rewrite -> HX; apply even_place; lia). destruct (after_run_facts (length X) HXp) as (Hst & _).
  assert (∀ Y q, loop (length text + 2) (in6_step (text ++ 0 :: after) delim) (start text) = Some (true, q) → done6 text (X ++ Y) (Some (Z.of_nat (length X))) q → (length X + length Y ≤ 16)%nat →
    bytes_of ws1 ++ replicate (16 - 2 * length ws1 - 2 * length ws2) 0 ++ bytes_of ws2 = X ++ replicate (16 - length X - length Y) 0 ++ Y →
    reads6 text (bytes_of ws1 ++ replicate (16 - 2 * length ws1 - 2 * length ws2) 0 ++ bytes_of ws2)) as Hout.
  { intros Y q Hq Hdone Hle Heq. exists q. split; [done|]. right. by exists X, Y. }
  destruct ws2 as [|w ws2 _] using rev_ind.
  - inversion H2; subst. cbn [map joined length Nat.add] in *. assert (k = Z.of_nat (length text)) as -> by lia.
    rewrite -> (run_end text after delim (Some (Z.of_nat (length text))) X _ 1 HXp : loop 2 _ _ = _) in E. eapply (Hout (word_bytes 0)); [exact E|apply done_at6|cbn; lia|].
    change (bytes_of []) with (@nil Z). rewrite -> app_nil_r. rw /X. change (word_bytes 0) with [0; 0]. rewrite -> (run_zeros (bytes_of ws1) [0; 0] (14 - 2 * length ws1)) by (rewrite -> ?bytes_length; cbn; lia).
    f_equal. change [0; 0] with (replicate 2 0). rewrite <- replicate_add. f_equal. lia.
  - apply Forall2_app_inv_l in H2 as (dssa & dssb & Hws & Hw & ->). inversion Hw as [|? ds ? ? Hword Hnil]; subst. inversion Hnil; subst. rewrite -> length_app in Hl. cbn [length] in Hl.
    rewrite -> map_app in Hd, E. cbn [map] in Hd, E. rewrite -> joined_snoc in Hd, E.
    destruct (words_loop text after delim Hdelim ws2 dssa (after_run (length X)) k (Some k) X (Some (Z.of_nat (length X))) (map hexc ds) (length ds + 2) Hws Hst HXp)
      as (k' & st & tok & E2 & Ek & Hd' & Hst' & _); [lia|lia|done|]. rewrite -> length_app, length_map, <- Nat.add_assoc, E2 in E. clear E2.
    assert (length (X ++ bytes_of ws2) = 2 * (length ws1 + length ws2 + 1))%nat as HXw by (rewrite -> length_app, bytes_length; lia). fold (bytes_of ws2) in E.
    destruct (word_end text after delim Hdelim w ds st k' tok (X ++ bytes_of ws2) (Some (Z.of_nat (length X))) 1 Hword Hst') as (st' & E2);
      [rewrite -> HXw; apply even_place; lia|by left|lia|done|]. rewrite -> (E2 : loop (length ds + 2) _ _ = _) in E. rewrite <- app_assoc in E.
    assert (bytes_of (ws2 ++ [w]) = bytes_of ws2 ++ word_bytes w) as Eb by (rw /bytes_of; rewrite -> map_app, concat_app; cbn; done).
    eapply (Hout (bytes_of ws2 ++ word_bytes w)); [exact E|apply done_at6|rewrite -> length_app, bytes_length; cbn; lia|]. rewrite -> Eb. symmetry. apply run_zeros; [rewrite -> length_app; cbn; lia|].
    rewrite -> !length_app, !bytes_length. cbn. lia.
Qed.

Lemma run_quad_reads ws1 dss1 ws2 dss2 bs : Forall2 is_word ws1 dss1 → Forall2 is_word ws2 dss2 → (length ws1 + length ws2 ≤ 4)%nat → ws2 ≠ [] → length bs = 4%nat → Forall (in_width 8) bs →
  reads6 (joined (map (map hexc) dss1) ++ ch ":" :: ch ":" :: joined (map (map hexc) dss2) ++ ch ":" :: quad_text false bs)
    (bytes_of ws1 ++ replicate (12 - 2 * length ws1 - 2 * length ws2) 0 ++ bytes_of ws2 ++ bs).
Proof using Hdelim.
  intros H1 H2 Hl Hne Hb Hw8. assert (dss2 ≠ []) as Hne2 by (intros ->; inversion H2; by subst).
  rewrite -> (app_assoc _ [ch ":"] (quad_text false bs) : joined (map (map hexc) dss2) ++ ch ":" :: quad_text false bs = _), joined_colon by (by destruct dss2).
  set (rest := colonised (map (map hexc) dss2) ++ quad_text false bs). destruct (run_prefix ws1 dss1 rest (length rest + 2) H1 ltac:(lia)) as (k & E & H0 & Hd & Hlen).
  set (text := joined (map (map hexc) dss1) ++ ch ":" :: ch ":" :: rest) in *. replace (Z.to_nat k + (length rest + 2))%nat with (length text + 2)%nat in E by lia.
  set (X := bytes_of ws1 ++ [0; 0]) in *. assert (length X = 2 * (length ws1 + 1))%nat as HX by (rw /X; rewrite -> length_app, bytes_length; cbn; lia).
  assert (length X ∈ word_places) as HXp by (rewrite -> HX; apply even_place; lia). destruct (after_run_facts (length X) HXp) as (Hst & _).
  destruct (words_loop text after delim Hdelim ws2 dss2 (after_run (length X)) k (Some k) X (Some (Z.of_nat (length X))) (quad_text false bs) (length (quad_text false bs) + 2) H2 Hst HXp)
    as (k' & st & tok & E2 & Ek & Hd' & Hst' & Hcase); [lia|lia|done|]. destruct Hcase as [[-> _]|(_ & _ & ->)]; [done|].
  rw /rest in E. rewrite -> length_app, <- Nat.add_assoc, E2 in E. clear E2. fold (bytes_of ws2) in E.
  assert (length (X ++ bytes_of ws2) = 2 * (length ws1 + length ws2 + 1))%nat as HXw by (rewrite -> length_app, bytes_length; lia).
  destruct (quad_end text after delim Hdelim bs st k' (X ++ bytes_of ws2) (Some (Z.of_nat (length X))) 2 Hb Hw8 Hst') as (q & E2 & Hdone);
    [rewrite -> HXw; apply even_place; lia|right; split; [done|lia]|lia|done|]. rewrite -> E2 in E. rewrite <- app_assoc in Hdone.
  exists q. split; [done|]. right. exists X, (bytes_of ws2 ++ bs). split; [done|]. split; [rewrite -> length_app, bytes_length; lia|]. symmetry.
  apply run_zeros; [lia|]. rewrite -> length_app, !bytes_length. lia.
Qed.
End whole.

(** in6_pton after its loop. *)
Lemma in6_reads after delim text addr srclen dst : reads6 after delim text addr → Forall (λ c, c ≠ 0) text → srclen < 0 ∨ srclen = Z.of_nat (length text) → length dst = 16%nat →
  in6_pton (text ++ 0 :: after) srclen dst delim = Some (1, addr, Z.of_nat (length text)).
Proof.
  intros (q & E & Hq) Hnz Hlen Hdst. rw /in6_pton. assert (source_length (text ++ 0 :: after) srclen = Some (Z.of_nat (length text))) as ->.
  { rw /source_length. destruct Hlen as [Hlen | ->]; [rewrite -> (proj2 (Z.ltb_lt _ _)) by done; by apply strlen_text|]. by rewrite -> (proj2 (Z.ltb_ge _ _)) by lia. }
  cbn [mbind option_bind]. rewrite -> Nat2Z.id. rw /start /at6 in E. rewrite -> Z.sub_0_r in E. cbn [length app Nat.sub] in E. change (Z.of_nat 0) with 0 in E. rewrite -> E. cbn [mbind option_bind].
  destruct Hq as [[(Hs & Hdc & Hd & Hb) H16]|(X & Y & (Hs & Hdc & Hd & Hb) & Hl & Haddr)]; rewrite -> Hdc, Hb, Hs.
  - rewrite -> H16. cbn [Nat.sub replicate]. rewrite -> app_nil_r. rw /wr_range. rewrite -> Hdst, H16. cbn. by rewrite -> drop_ge, app_nil_r by lia.
  - rewrite -> Hd, length_app, <- app_assoc, Nat.sub_add_distr, (spread_spec X Y dst Hdst Hl), <- Haddr. done.
Qed.

(** ** The words of an address *)

Section words.
Context (addr : list Z) (Hbytes : Forall (in_width 8) addr) (Hlen : length addr = 16%nat).

Definition words (a n : Z) : list Z := map (word addr) (seqZ a n).

Lemma words_length a n : length (words a n) = Z.to_nat n.
Proof using. rw /words. by rewrite -> length_map, length_seqZ. Qed.

Lemma words_bytes a n : 0 ≤ a → a + Z.of_nat n ≤ 8 → bytes_of (words a (Z.of_nat n)) = take (2 * n) (drop (Z.to_nat (2 * a)) addr).
Proof using Hbytes Hlen.
  revert a. induction n as [|n IH]; intros a H0 H8; [done|]. rw /words. rewrite -> (seqZ_cons a) by lia. replace (Z.pred (Z.of_nat (S n))) with (Z.of_nat n) by lia. cbn [map].
  rw /bytes_of. cbn [map concat]. fold (words (Z.succ a) (Z.of_nat n)). fold (bytes_of (words (Z.succ a) (Z.of_nat n))). rewrite -> IH by lia.
  replace (2 * S n)%nat with (2 + 2 * n)%nat by lia. rewrite <- (take_take_drop _ 2 (2 * n)). change 2%nat with (Z.to_nat 2) at 2. rewrite -> (pair_at addr a) by lia.
  rewrite -> drop_drop. replace (Z.to_nat (2 * a) + 2)%nat with (Z.to_nat (2 * Z.succ a)) by lia. f_equal. rw /word_bytes /word.
  destruct (byte_width addr (2 * a) Hbytes), (byte_width addr (2 * a + 1) Hbytes). change (2 ^ 8) with 256 in *. f_equal; [zdm|]. f_equal. zdm.
Qed.

Lemma words_texts a n : word_texts addr a n = map (map hexc) (map word_digits (words a n)) ∧ Forall2 is_word (words a n) (map word_digits (words a n)).
Proof using Hbytes.
  rw /word_texts /words. rewrite -> !map_map. split; [done|]. induction (seqZ a n) as [|j js IH]; constructor; [|done]. apply (hex_word_digits []). by apply word_width.
Qed.

Lemma full_words : Forall2 is_word (words 0 8) (map (λ j, byte_digits (byte addr (2 * j)) ++ byte_digits (byte addr (2 * j + 1))) (seqZ 0 8)).
Proof using Hbytes.
  clear Hlen. rw /words. induction (seqZ 0 8) as [|j js IH]; constructor; [|done]. destruct (byte_width addr (2 * j) Hbytes), (byte_width addr (2 * j + 1) Hbytes). change (2 ^ 8) with 256 in *.
  split_and!; [cbn; lia|cbn; lia| |].
  - repeat (constructor; [zdm|]). constructor.
  - rw /value /word /byte_digits. cbn [app foldl]. zdm.
Qed.

Lemma zero_words pos len : all_zero addr pos len → 0 ≤ len → bytes_of (words pos len) = replicate (2 * Z.to_nat len) 0.
Proof using.
  clear Hlen. intros Hz H0. rw /words. assert (Forall (λ j, word addr j = 0) (seqZ pos len)) as Hall by (apply Forall_forall; intros j Hj%elem_of_seqZ; apply Hz; lia).
  rewrite <- (length_seqZ pos len). induction Hall as [|j js Hj _ IH]; [done|]. rw /bytes_of. cbn [map concat length]. rewrite -> Hj. fold (bytes_of (map (word addr) js)). rewrite -> IH.
  by replace (2 * S (length js))%nat with (2 + 2 * length js)%nat by lia.
Qed.

Lemma words_split a n m : 0 ≤ n → 0 ≤ m → bytes_of (words a (n + m)) = bytes_of (words a n) ++ bytes_of (words (a + n) m).
Proof using. clear Hlen. intros Hn Hm. rw /words. rewrite -> seqZ_app by done. rw /bytes_of. by rewrite -> !map_app, concat_app. Qed.

Lemma words_all : bytes_of (words 0 8) = addr.
Proof using Hbytes Hlen. change 8 with (Z.of_nat 8). rewrite -> (words_bytes 0 8) by lia. change (Z.to_nat (2 * 0)) with 0%nat. rewrite -> drop_0. apply take_ge. lia. Qed.
End words.

(** Every form of a compressed address is read back. *)
Lemma form_reads addr after delim t : delim ∉ address_chars → Forall (in_width 8) addr → length addr = 16%nat → ip6_form addr t → reads6 after delim t addr.
Proof.
  intros Hdelim Hb Hl Hf. destruct Hf as [|pos len H0 H2 H8 Hz| |pos len H0 H2 H8 Hz].
  - destruct (words_texts addr Hb 0 8) as [-> Hw]. rewrite <- (words_all addr Hb Hl) at 2. apply full_reads; [done|done|by rewrite -> words_length].
  - destruct (words_texts addr Hb 0 pos) as [-> Hw1]. destruct (words_texts addr Hb (pos + len) (8 - (pos + len))) as [-> Hw2].
    pose proof (run_reads after delim Hdelim _ _ _ _ Hw1 Hw2 ltac:(rewrite -> !words_length; lia)) as Hr. rewrite -> !words_length in Hr.
    replace (bytes_of (words addr 0 pos) ++ _) with addr in Hr; [done|]. rewrite <- (words_all addr Hb Hl) at 1. replace 8 with (pos + (len + (8 - (pos + len)))) at 1 by lia.
    rewrite -> words_split, words_split, (zero_words addr (0 + pos) len) by (done || lia). do 3 f_equal; f_equal; lia.
  - destruct (words_texts addr Hb 0 6) as [-> Hw]. replace addr with (bytes_of (words addr 0 6) ++ drop 12 addr) at 3.
    + apply quad_reads; [done|done|by rewrite -> words_length|rewrite -> length_drop; lia|by apply Forall_drop].
    + change 6 with (Z.of_nat 6). rewrite -> (words_bytes addr Hb Hl 0 6) by lia. apply take_drop.
  - destruct (words_texts addr Hb 0 pos) as [-> Hw1]. destruct (words_texts addr Hb (pos + len) (6 - (pos + len))) as [-> Hw2].
    pose proof (run_quad_reads after delim Hdelim _ _ _ _ (drop 12 addr) Hw1 Hw2 ltac:(rewrite -> !words_length; lia)) as Hr. rewrite -> !words_length in Hr.
    replace (bytes_of (words addr 0 pos) ++ _) with addr in Hr.
    + apply Hr; [|rewrite -> length_drop; lia|by apply Forall_drop]. intros E. apply (f_equal length) in E. rewrite -> words_length in E. cbn in E. lia.
    + rewrite <- (take_drop 12 addr) at 1. rewrite <- (words_bytes addr Hb Hl 0 6 ltac:(lia) ltac:(lia) : _ = take 12 addr). replace (Z.of_nat 6) with (pos + (len + (6 - (pos + len)))) by lia.
      rewrite -> words_split, words_split, (zero_words addr (0 + pos) len), <- !app_assoc by (done || lia). do 3 f_equal; f_equal; lia.
Qed.

(** ** No text contains the terminator *)

Notation nonzero := (Forall (λ c, c ≠ 0)).

Lemma hex_nonzero ds : Forall (λ d, 0 ≤ d < 16) ds → nonzero (map hexc ds).
Proof.
  intros Hds. apply Forall_map. eapply Forall_impl; [done|]. intros d Hd. cbn in Hd. assert (d ∈ seqZ 0 16) as Hin by (apply elem_of_seqZ; lia). clear Hd. revert d Hin. apply Forall_forall.
  by apply (bool_decide_unpack _).
Qed.

Lemma joined_nonzero ws dss : Forall2 is_word ws dss → nonzero (joined (map (map hexc) dss)).
Proof.
  intros H. assert (Forall (λ ds, nonzero (map hexc ds)) dss) as Hall by (induction H as [|w ds ws dss (_ & Hds & _) _ IH]; constructor; [by apply hex_nonzero|done]).
  destruct Hall as [|ds dss Hds Hall]; [constructor|]. cbn [map joined]. apply Forall_app. split; [done|]. clear Hds H. induction Hall as [|e dss He _ IH]; [constructor|].
  cbn [map concat app]. constructor; [done|]. by apply Forall_app.
Qed.

Lemma quad_nonzero lz bs : Forall (in_width 8) bs → nonzero (quad_text lz bs).
Proof.
  intros Hb. rw /quad_text. induction (seqZ 0 4) as [|i js IH]; [constructor|]. cbn [map concat]. apply Forall_app. split; [|done]. apply Forall_app. split; [|case_if; repeat constructor; done].
  destruct (octet_ok lz (byte bs i) ltac:(by apply byte_width)) as (_ & Hds & _). apply Forall_map. eapply Forall_impl; [done|]. intros d Hd. rw /decc. cbn in *. lia.
Qed.

Lemma form_nonzero addr t : Forall (in_width 8) addr → ip6_form addr t → nonzero t.
Proof.
  intros Hb Hf. assert (∀ a n, nonzero (joined (word_texts addr a n))) as Hj by (intros a n; destruct (words_texts addr Hb a n) as [-> Hw]; by apply (joined_nonzero _ _ Hw)).
  assert (nonzero (quad_text false (drop 12 addr))) as Hq by (by apply quad_nonzero, Forall_drop).
  assert (nonzero [ch ":"]) as H1 by (repeat constructor; done). assert (nonzero [ch ":"; ch ":"]) as H2 by (repeat constructor; done).
  destruct Hf; rewrite -> ?Forall_app; auto 10.
Qed.

(** ** Hardware addresses *)

Lemma mac_char d : 0 ≤ d < 16 → is_mac_digit (hexc d) = Some true ∧ hex_to_bin (hexc d) = d.
Proof. intros Hd. assert (d ∈ seqZ 0 16) as Hin by (apply elem_of_seqZ; lia). clear Hd. revert d Hin. apply Forall_forall. repeat constructor. Qed.

Lemma mac_chars addr after i : 0 ≤ i < 6 → let s := mac_text (ch "M") 0 addr ++ 0 :: after in
  rd s (i * 3) = Some (hexc (byte addr i / 16)) ∧ rd s (i * 3 + 1) = Some (hexc (byte addr i mod 16)) ∧ (i < 5 → rd s (i * 3 + 2) = Some (ch ":")).
Proof.
  intros Hi. cbn zeta. assert (i = 0 ∨ i = 1 ∨ i = 2 ∨ i = 3 ∨ i = 4 ∨ i = 5) as Hc by lia. clear Hi. rw /mac_text. change (seqZ 0 6) with [0; 1; 2; 3; 4; 5].
  repeat destruct Hc as [-> | Hc]; [..|subst i]; split_and!; try lia; try intros _; apply rd_Some; done.
Qed.

Lemma mac_reads addr after mac : Forall (in_width 8) addr → length addr = 6%nat → length mac = 6%nat → mac_pton (mac_text (ch "M") 0 addr ++ 0 :: after) mac = Some (1, addr).
Proof.
  intros Hb Hl Hm. assert (∀ i, 0 ≤ byte addr i / 16 < 16 ∧ 0 ≤ byte addr i mod 16 < 16) as Hd by (intros i; destruct (byte_width addr i Hb); change (2 ^ 8) with 256 in *; zdm).
  pose proof (mac_chars addr after) as Hc. rw /mac_pton. rewrite -> strlen_text.
  2: { rw /mac_text. induction (seqZ 0 6) as [|i js IH]; [constructor|]. cbn [map concat]. apply Forall_app. split; [|done]. apply Forall_app. split; [|case_if; repeat constructor; done].
       apply hex_nonzero. destruct (Hd i). repeat constructor; lia. }
  cbn [mbind option_bind]. change (Z.of_nat (length (mac_text (ch "M") 0 addr))) with 17. change (17 <? 3 * 6 - 1) with false. set (s := mac_text (ch "M") 0 addr ++ 0 :: after) in *. cbn zeta in Hc.
  edestruct (for_up_inv (λ _ (_ : unit), True) (λ _ : unit, False) 6 0) as [(u & -> & _)|(r & _ & [])]; [done| |].
  { intros i [] Hi _. left. exists tt. split; [|done]. destruct (Hc i ltac:(lia)) as (-> & -> & H5), (Hd i) as [H1 H2]. cbn [mbind option_bind]. destruct (mac_char _ H1) as [-> _], (mac_char _ H2) as [-> _].
    cbn [mbind option_bind negb]. destruct (Z.eqb_spec i 5); [done|]. rewrite -> H5 by lia. done. }
  edestruct (for_each_inv (λ i m, m = take (Z.to_nat i) addr ++ drop (Z.to_nat i) mac) 6 0) as (m & -> & ->).
  - by rewrite -> take_0, drop_0.
  - intros i m Hi ->. destruct (Hc i ltac:(lia)) as (-> & -> & _), (Hd i) as [H1 H2]. cbn [mbind option_bind]. destruct (mac_char _ H1) as [_ ->], (mac_char _ H2) as [_ ->].
    assert (wrap 8 (Z.lor (Z.shiftl (byte addr i / 16) 4) (byte addr i mod 16)) = byte addr i) as ->.
    { apply Z.eqb_eq. pose proof (byte_width addr i Hb) as Hw. revert Hw. generalize (byte addr i). intros b. by_bytes (λ b, wrap 8 (Z.lor (Z.shiftl (b / 16) 4) (b mod 16)) =? b) b. }
    destruct (lookup_lt_is_Some_2 mac (Z.to_nat i)) as [x Hx]; [lia|]. rewrite -> (drop_S _ _ _ Hx), wr_middle by (rewrite -> length_take; lia). eexists. split; [done|].
    replace (Z.to_nat (i + 1)) with (S (Z.to_nat i)) by lia. rewrite -> (take_S_r addr _ (byte addr i)), <- app_assoc; [done|]. apply (rd_Some addr i), rd_byte. lia.
  - cbn [mbind option_bind]. change (Z.to_nat (0 + Z.of_nat 6)) with 6%nat. rewrite -> take_ge, drop_ge, app_nil_r by lia. done.
Qed.

(** C36: What the kernel prints for an address, its parsers read back: the text of %pI4 or %pi4 gives in4_pton the four bytes, the texts of %pI6 and %pI6c (full words, a run of zeros written "::", a
    decimal tail) give in6_pton the sixteen bytes, the text of %pM gives mac_pton the six, whether the length of the text is given or not, and the end reported is the end of the text. *)
Theorem address_roundtrip addr4 addr6 mac after delim dst4 dst6 dstm
    (Hdelim : delim ∉ address_chars) (H4 : Forall (in_width 8) addr4 ∧ length addr4 = 4%nat) (H6 : Forall (in_width 8) addr6 ∧ length addr6 = 16%nat)
    (Hm : Forall (in_width 8) mac ∧ length mac = 6%nat) (Hd4 : length dst4 = 4%nat) (Hd6 : length dst6 = 16%nat) (Hdm : length dstm = 6%nat) :
  (∀ fmt, fmt ∈ [cstr "I4"; cstr "i4"] → ∃ t, ip4_string [] addr4 fmt = Some (t ++ [0]) ∧
     ∀ srclen, srclen = -1 ∨ srclen = Z.of_nat (length t) → in4_pton (t ++ 0 :: after) srclen dst4 0 delim = Some (1, addr4, Z.of_nat (length t))) ∧
  (∀ print, print ∈ [ip6_string addr6 (cstr "I6"); ip6_compressed_string addr6] → ∃ t, print = Some (t ++ [0]) ∧
     ∀ srclen, srclen = -1 ∨ srclen = Z.of_nat (length t) → in6_pton (t ++ 0 :: after) srclen dst6 delim = Some (1, addr6, Z.of_nat (length t))) ∧
  (∃ t, mac_address mac (cstr "M") = Some (t ++ [0]) ∧ mac_pton (t ++ 0 :: after) dstm = Some (1, mac)).
Proof.
  destruct H4 as [Hb4 Hl4], H6 as [Hb6 Hl6], Hm as [Hbm Hlm]. split; [|split].
  - assert (∀ lz srclen, srclen = -1 ∨ srclen = Z.of_nat (length (quad_text lz addr4)) →
      in4_pton (quad_text lz addr4 ++ 0 :: after) srclen dst4 0 delim = Some (1, addr4, Z.of_nat (length (quad_text lz addr4)))) as Hread.
    { intros lz srclen Hs. replace (in4_pton _ srclen dst4 0 delim) with (in4_pton (quad_text lz addr4 ++ 0 :: after) (Z.of_nat (length (quad_text lz addr4))) dst4 0 delim).
      - rewrite -> in4_reads by done. rw /wr_range. rewrite -> Hd4, Hl4. cbn. by rewrite -> drop_ge, app_nil_r by lia.
      - destruct Hs as [-> | ->]; [|done]. rw /in4_pton. rw {1}/source_length. rewrite -> (proj2 (Z.ltb_ge _ _)) by lia. by rewrite -> (strlen_text _ _ (quad_nonzero lz addr4 Hb4) : source_length _ (-1) = _). }
    intros fmt [-> | [-> | []%elem_of_nil]%elem_of_cons]%elem_of_cons; eexists; (split; [|apply Hread]); rewrite -> (ip4_string_text [] addr4 _ _ 0 Hb4) by (done || lia);
      cbn [app]; by rewrite -> take_ge by lia.
  - intros pr [-> | [-> | []%elem_of_nil]%elem_of_cons]%elem_of_cons.
    + rewrite -> (ip6_string_text addr6 _ (ch "I") Hb6) by (done || lia). cbn [Z.eqb Pos.eqb ch]. eexists. split; [done|]. intros srclen Hs.
      assert (full_texts addr6 = map (map hexc) (map (λ j, byte_digits (byte addr6 (2 * j)) ++ byte_digits (byte addr6 (2 * j + 1))) (seqZ 0 8))) as Ef by (rw /full_texts; by rewrite -> map_map).
      rewrite -> Ef in *. pose proof (full_words addr6 Hb6) as Hw. apply in6_reads; [|by apply (joined_nonzero _ _ Hw)|lia|done].
      pose proof (full_reads after delim Hdelim _ _ Hw ltac:(done)) as Hr. by rewrite -> (words_all addr6 Hb6 Hl6) in Hr.
    + destruct (ip6_compressed_text addr6 Hb6 Hl6) as (t & -> & Hf). exists t. split; [done|]. intros srclen Hs. apply in6_reads; [by apply form_reads|by apply (form_nonzero addr6)|lia|done].
  - rewrite -> (mac_address_text mac _ (ch "M") 0 Hbm) by (done || lia). eexists. split; [done|]. by apply mac_reads.
Qed.

(** An address with the longest run in the middle and a decimal tail: "fe80::5efe:192.168.7.1". *)
Lemma address_roundtrip_witness :
  ∃ t, ip6_compressed_string [0xfe; 0x80; 0; 0; 0; 0; 0; 0; 0; 0; 0x5e; 0xfe; 192; 168; 7; 1] = Some (t ++ [0]) ∧
  ∀ srclen, srclen = -1 ∨ srclen = Z.of_nat (length t) →
    in6_pton (t ++ [0]) srclen (replicate 16 7) (-1) = Some (1, [0xfe; 0x80; 0; 0; 0; 0; 0; 0; 0; 0; 0x5e; 0xfe; 192; 168; 7; 1], Z.of_nat (length t)).
Proof.
  apply (address_roundtrip [10; 0; 0; 1] [0xfe; 0x80; 0; 0; 0; 0; 0; 0; 0; 0; 0x5e; 0xfe; 192; 168; 7; 1] [0; 1; 2; 3; 4; 5] [] (-1) (replicate 4 7) (replicate 16 7) (replicate 6 7)).
  - by apply (bool_decide_unpack _).
  - split; [repeat constructor|]; done.
  - split; [repeat constructor|]; done.
  - split; [repeat constructor|]; done.
  - done.
  - done.
  - done.
  - right. left.
Defined.
