(* ===== verification/VsprintfScan.v ===== *)
(** * Formatted input: vsscanf of lib/vsprintf.c

    The pointers [fmt] and [str] are the bytes that are left; the arguments are addresses, and what is stored through them is a list
    of addresses with bytes. *)
From Stdlib Require Import Ascii String.
From S2P Require Import Prelude Ctype Kstrtox NumPrint StringLib Vsprintf.
#[local] Open Scope Z_scope.

Record scan := { sc_fmt : list Z; sc_str : list Z; sc_args : list Z; sc_stores : list (Z * list Z); sc_num : Z }.

(** The pointers moved. *)
Definition at_chars (fmt str : list Z) (st : scan) : scan :=
  {| sc_fmt := fmt; sc_str := str; sc_args := sc_args st; sc_stores := sc_stores st; sc_num := sc_num st |}.

(** [*va_arg(args, ...) = ...]; [inc] is 1 where [num++] follows. *)
Definition store_arg (bytes : list Z) (inc : Z) (st : scan) : option scan :=
  match sc_args st with
  | [] => None
  | p :: args => Some {| sc_fmt := sc_fmt st; sc_str := sc_str st; sc_args := args; sc_stores := sc_stores st ++ [(p, bytes)]; sc_num := sc_num st + inc |}
  end.

(** [s = skip_spaces(s)]. *)
Definition past_spaces (s : list Z) : option (list Z) := n ← skip_spaces s; Some (drop (Z.to_nat n) s).

(** [while (!isspace( *fmt) && *fmt != '%' && *fmt) fmt++]. *)
Fixpoint skip_conversion (fmt : list Z) : option (list Z) :=
  match fmt with [] => None | c :: fmt' => if negb (isspace c) && negb (c =? ch "%") && negb (c =? 0) then skip_conversion fmt' else Some fmt end.
(** [while (!isspace( *str) && *str) str++]. *)
Fixpoint skip_word (str : list Z) : option (list Z) :=
  match str with [] => None | c :: str' => if negb (isspace c) && negb (c =? 0) then skip_word str' else Some str end.

(** The width, an [s16]. *)
Definition scan_width (fmt : list Z) : option (Z * list Z) :=
  c ← cur fmt;
  if isdigit c then '(w, fmt) ← skip_atoi fmt; Some (swrap 16 w, fmt) else Some (-1, fmt).

Definition scan_qualifier (fmt : list Z) : option (Z * list Z) :=
  c ← cur fmt;
  if (c =? ch "h") || (_tolower c =? ch "l") || (_tolower c =? ch "z") then
    let fmt := drop 1 fmt in
    c' ← cur fmt;
    Some (if c =? c' then
            if c =? ch "h" then (ch "H", drop 1 fmt) else if c =? ch "l" then (ch "L", drop 1 fmt) else (c, fmt)
          else (c, fmt))
  else Some (255, fmt).

(** [do { *s++ = *str++; } while (--field_width > 0 && *str)]: what is copied, and the rest. *)
Fixpoint copy_chars (fw : Z) (str : list Z) : option (list Z * list Z) :=
  match str with
  | [] => None
  | c :: str' =>
      let fw := swrap 16 (fw - 1) in
      if 0 <? fw then
        c' ← cur str';
        if c' =? 0 then Some ([c], str') else '(cs, r) ← copy_chars fw str'; Some (c :: cs, r)
      else Some ([c], str')
  end.

(** [while ( *str && !isspace( *str) && field_width--) *s++ = *str++]. *)
Fixpoint copy_word (fw : Z) (str : list Z) : option (list Z * list Z) :=
  match str with
  | [] => None
  | c :: str' =>
      if (c =? 0) || isspace c || (fw =? 0) then Some ([], str)
      else '(cs, r) ← copy_word (swrap 16 (fw - 1)) str'; Some (c :: cs, r)
  end.

(** Is there a digit to read? *)
Definition scan_digit (base digit : Z) : bool :=
  negb ((digit =? 0) || (base =? 16) && negb (isxdigit digit) || (base =? 10) && negb (isdigit digit)
        || (base =? 8) && (negb (isdigit digit) || (ch "7" <? digit)) || (base =? 0) && negb (isdigit digit)).

(** The number of bytes and the value stored for a qualifier, and the rest. *)
Definition scan_value (qualifier : Z) (is_sign : bool) (str : list Z) (base : Z) : option (nat * Z * list Z) :=
  let result n (r : option (Z * list Z)) := '(v, next) ← r; Some (n, v, next) in
  if qualifier =? ch "H" then result 1%nat (if is_sign then simple_strtol str base else simple_strtoul str base)
  else if qualifier =? ch "h" then result 2%nat (if is_sign then simple_strtol str base else simple_strtoul str base)
  else if qualifier =? ch "l" then result 8%nat (if is_sign then simple_strtol str base else simple_strtoul str base)
  else if qualifier =? ch "L" then result 8%nat (if is_sign then simple_strtoll str base else simple_strtoull str base)
  else if (qualifier =? ch "Z") || (qualifier =? ch "z") then result 8%nat (simple_strtoul str base)
  else result 4%nat (if is_sign then simple_strtol str base else simple_strtoul str base).

(** An integer conversion; [Stop (true, _)] leaves the loop. *)
Definition scan_integer (base : Z) (is_sign : bool) (qualifier : Z) (st : scan) : option (ctl scan (bool * scan)) :=
  str ← past_spaces (sc_str st);
  let st := at_chars (sc_fmt st) str st in
  digit ← cur str;
  digit ← (if is_sign && (digit =? ch "-") then rd str 1 else Some digit);
  if negb (scan_digit base digit) then Some (Stop (true, st)) else
  '(n, v, next) ← scan_value qualifier is_sign str base;
  st ← store_arg (le_bytes n v) 1 st;
  Some (Next (at_chars (sc_fmt st) next st)).

(** [switch ( *fmt++)]; [Stop (false, _)] returns at once. *)
Definition scan_conversion (buf : list Z) (field_width qualifier : Z) (st : scan) : option (ctl scan (bool * scan)) :=
  c ← cur (sc_fmt st);
  let fmt := drop 1 (sc_fmt st) in
  let str := sc_str st in
  let st := at_chars fmt str st in
  if c =? ch "c" then
    '(cs, str) ← copy_chars (if field_width =? -1 then 1 else field_width) str;
    st ← store_arg cs 1 st;
    Some (Next (at_chars fmt str st))
  else if c =? ch "s" then
    str ← past_spaces str;
    '(cs, str) ← copy_word (if field_width =? -1 then 2 ^ 15 - 1 else field_width) str;
    st ← store_arg (cs ++ [0]) 1 st;
    Some (Next (at_chars fmt str st))
  else if c =? ch "n" then
    st ← store_arg (le_bytes 4 (Z.of_nat (length buf - length str))) 0 st;
    Some (Next st)
  else if c =? ch "o" then scan_integer 8 false qualifier st
  else if (c =? ch "x") || (c =? ch "X") then scan_integer 16 false qualifier st
  else if c =? ch "i" then scan_integer 0 true qualifier st
  else if c =? ch "d" then scan_integer 10 true qualifier st
  else if c =? ch "u" then scan_integer 10 false qualifier st
  else if c =? ch "%" then
    s ← cur str;
    Some (if negb (s =? ch "%") then Stop (false, st) else Next (at_chars fmt (drop 1 str) st))
  else Some (Stop (false, st)).

(** One round of [while ( *fmt && *str)]. *)
Definition scan_step (buf : list Z) (st : scan) : option (ctl scan (bool * scan)) :=
  f ← cur (sc_fmt st);
  if f =? 0 then Some (Stop (true, st)) else
  s ← cur (sc_str st);
  if s =? 0 then Some (Stop (true, st)) else
  '(fmt, str) ← (if isspace f then fmt ← past_spaces (drop 1 (sc_fmt st)); str ← past_spaces (sc_str st); Some (fmt, str)
                 else Some (sc_fmt st, sc_str st));
  f ← cur fmt;
  if negb (f =? ch "%") && negb (f =? 0) then
    s ← cur str;
    let st := at_chars (drop 1 fmt) (drop 1 str) st in
    Some (if negb (f =? s) then Stop (true, st) else Next st)
  else if f =? 0 then Some (Stop (true, at_chars fmt str st))
  else
    let fmt := drop 1 fmt in
    f ← cur fmt;
    if f =? ch "*" then
      fmt ← skip_conversion fmt;
      str ← skip_word str;
      Some (Next (at_chars fmt str st))
    else
      '(field_width, fmt) ← scan_width fmt;
      '(qualifier, fmt) ← scan_qualifier fmt;
      let st := at_chars fmt str st in
      f ← cur fmt;
      if f =? 0 then Some (Stop (true, st)) else
      s ← cur str;
      if s =? 0 then Some (Stop (true, st)) else
      scan_conversion buf field_width qualifier st.

(** The number of conversions and what was stored; every round consumes a character of the format. *)
Definition vsscanf (buf fmt args : list Z) : option (Z * list (Z * list Z)) :=
  '(goes_on, st) ← loop (length fmt + 1) (scan_step buf) {| sc_fmt := fmt; sc_str := buf; sc_args := args; sc_stores := []; sc_num := 0 |};
  if goes_on : bool then
    f ← cur (sc_fmt st);
    n ← (if f =? ch "%" then f' ← rd (sc_fmt st) 1; Some (f' =? ch "n") else Some false);
    st ← (if n : bool then store_arg (le_bytes 4 (Z.of_nat (length buf - length (sc_str st)))) 0 st else Some st);
    Some (sc_num st, sc_stores st)
  else Some (sc_num st, sc_stores st).

Definition sscanf (buf fmt args : list Z) : option (Z * list (Z * list Z)) := vsscanf buf fmt args.

(** ** Examples *)

Example scan_demo :
  sscanf (cstr "pci 0000:1f.7 rev -12 ok") (cstr "pci %x:%2hhx.%o rev %hd %3s%n") [10; 20; 30; 40; 50; 60] =
  Some (5, [(10, [0; 0; 0; 0]); (20, [0x1f]); (30, [7; 0; 0; 0]); (40, [244; 255]); (50, cstr "ok"); (60, [24; 0; 0; 0])]).
Proof. vm_compute. reflexivity. Qed.

(** The position is stored although the text does not match the format. *)
Example scan_count_of_mismatch : sscanf (cstr "abx") (cstr "aby%n") [10] = Some (0, [(10, [3; 0; 0; 0])]).
Proof. vm_compute. reflexivity. Qed.

(** A negative number for [%zd] gives 0, and its text is not consumed; the width of an integer is ignored. *)
Example scan_negative_size : sscanf (cstr "-5") (cstr "%zd%d") [10; 20] = Some (2, [(10, replicate 8 0); (20, [251; 255; 255; 255])]).
Proof. vm_compute. reflexivity. Qed.
Example scan_width_ignored : sscanf (cstr "1234") (cstr "%2d%2d") [10; 20] = Some (1, [(10, [210; 4; 0; 0])]).
Proof. vm_compute. reflexivity. Qed.
