(* ===== verification/VsprintfScanSafe.v ===== *)
(** * Formatted input: safety

    vsscanf ends on every pair of terminated texts, reads neither behind its end, and stores through its arguments in order. *)
From Stdlib Require Import Ascii String.
From S2P Require Import Prelude Ctype Kstrtox NumPrint StringLib Vsprintf VsprintfText VsprintfNumber VsprintfScan.
#[local] Open Scope Z_scope.

(** [r] is what is left of the terminated text [s]. *)
Definition tail_of (s r : list Z) : Prop := 0 ∈ r ∧ r `suffix_of` s.

Lemma tail_refl s : 0 ∈ s → tail_of s s.
Proof. done. Qed.

Lemma tail_trans s r t : tail_of s r → tail_of r t → tail_of s t.
Proof. intros [_ H1] [H H2]. split; [done|]. by trans r. Qed.

Lemma tail_length s r : tail_of s r → (length r ≤ length s)%nat.
Proof. intros [_ H]. by apply suffix_length. Qed.

Lemma tail_drop k s : 0 ∈ drop k s → tail_of s (drop k s).
Proof. intros H. split; [done|]. exists (take k s). by rewrite -> take_drop. Qed.

Lemma tail_next c s : 0 ∈ c :: s → c ≠ 0 → tail_of (c :: s) s.
Proof. intros [?|H]%elem_of_cons Hc; [done|]. split; [done|]. by exists [c]. Qed.

(** A terminated text has a first character, and something behind it unless it is the terminator. *)
Lemma tail_cur s : 0 ∈ s → ∃ c r, s = c :: r ∧ cur s = Some c ∧ (c ≠ 0 → tail_of s r).
Proof. destruct s as [|c r]; [by intros ?%elem_of_nil|]. intros H. exists c, r. split_and!; [done|done|]. intros Hc. by apply tail_next. Qed.

(** ** The loops over characters *)

(** A search for the first character with some property, which the terminator has. *)
Lemma find_tail (stop : Z → bool) (find : list Z → option (list Z)) : stop 0 = true →
  (∀ c s, find (c :: s) = if stop c then Some (c :: s) else find s) → ∀ s, 0 ∈ s → ∃ r, find s = Some r ∧ tail_of s r.
Proof.
  intros H0 Hf s. induction s as [|c s IH]; intros Hs; [by apply elem_of_nil in Hs|]. rewrite -> Hf. destruct (stop c) eqn:Ec; [by exists (c :: s)|].
  assert (c ≠ 0) as Hc by (intros ->; congruence). pose proof (tail_next c s Hs Hc) as Ht. destruct (IH (proj1 Ht)) as (r & -> & Hr). exists r. split; [done|]. by eapply tail_trans.
Qed.

Lemma skip_spaces_Some s : 0 ∈ s → ∃ n, skip_spaces s = Some n ∧ 0 ≤ n.
Proof.
  induction s as [|c s IH]; intros Hs; [by apply elem_of_nil in Hs|]. cbn. destruct (isspace c) eqn:E; [|by exists 0]. assert (c ≠ 0) as Hc by (intros ->; by vm_compute in E).
  destruct (IH (proj1 (tail_next c s Hs Hc))) as (n & -> & Hn). exists (n + 1). split; [done|lia].
Qed.

Lemma past_spaces_cons c s : 0 ∈ c :: s → past_spaces (c :: s) = if isspace c then past_spaces s else Some (c :: s).
Proof.
  intros Hs. rw /past_spaces. cbn [skip_spaces]. destruct (isspace c) eqn:E; [|done]. assert (c ≠ 0) as Hc by (intros ->; by vm_compute in E).
  destruct (skip_spaces_Some s (proj1 (tail_next c s Hs Hc))) as (n & -> & Hn). cbn [mbind option_bind]. by replace (Z.to_nat (n + 1)) with (S (Z.to_nat n)) by lia.
Qed.

Lemma past_spaces_tail s : 0 ∈ s → ∃ r, past_spaces s = Some r ∧ tail_of s r.
Proof.
  induction s as [|c s IH]; intros Hs; [by apply elem_of_nil in Hs|]. rewrite -> past_spaces_cons by done. destruct (isspace c) eqn:E; [|by exists (c :: s)].
  assert (c ≠ 0) as Hc by (intros ->; by vm_compute in E). pose proof (tail_next c s Hs Hc) as Ht. destruct (IH (proj1 Ht)) as (r & -> & Hr). exists r. split; [done|]. by eapply tail_trans.
Qed.

Lemma skip_conversion_tail s : 0 ∈ s → ∃ r, skip_conversion s = Some r ∧ tail_of s r.
Proof. apply (find_tail (λ c, negb (negb (isspace c) && negb (c =? ch "%") && negb (c =? 0)))); [done|]. intros c r. cbn. by case_if. Qed.

Lemma skip_word_tail s : 0 ∈ s → ∃ r, skip_word s = Some r ∧ tail_of s r.
Proof. apply (find_tail (λ c, negb (negb (isspace c) && negb (c =? 0)))); [done|]. intros c r. cbn. by case_if. Qed.

Lemma skip_atoi_tail i s : 0 ∈ s → ∃ n r, skip_atoi_from i s = Some (n, r) ∧ tail_of s r.
Proof.
  revert i. induction s as [|c s IH]; intros i Hs; [by apply elem_of_nil in Hs|]. cbn. destruct (isdigit c) eqn:E; [|by exists i, (c :: s)].
  assert (c ≠ 0) as Hc by (intros ->; by vm_compute in E). pose proof (tail_next c s Hs Hc) as Ht. destruct (IH (swrap 32 (i * 10 + c - ch "0")) (proj1 Ht)) as (n & r & -> & Hr). exists n, r. split; [done|].
  by eapply tail_trans.
Qed.

Lemma scan_width_tail s : 0 ∈ s → ∃ w r, scan_width s = Some (w, r) ∧ tail_of s r.
Proof.
  intros Hs. destruct (tail_cur s Hs) as (c & r & E & Ec & _). rw /scan_width. rewrite -> Ec. cbn [mbind option_bind]. case_if; [|by exists (-1), s].
  destruct (skip_atoi_tail 0 s Hs) as (n & r' & Ea & Hr). rw /skip_atoi. rewrite -> Ea. by exists (swrap 16 n), r'.
Qed.

Lemma scan_qualifier_tail s : 0 ∈ s → ∃ q r, scan_qualifier s = Some (q, r) ∧ tail_of s r.
Proof.
  intros Hs. destruct (tail_cur s Hs) as (c & r & E & Ec & Hr). rw /scan_qualifier. rewrite -> Ec. cbn [mbind option_bind]. destruct (_ || _) eqn:Eq; [|by exists 255, s].
  assert (c ≠ 0) as Hc by (intros ->; by vm_compute in Eq). specialize (Hr Hc). rewrite -> E in *. cbn [drop]. rewrite -> ?drop_0. destruct (tail_cur r (proj1 Hr)) as (c' & r' & E' & Ec' & Hr'). rewrite -> Ec'. cbn [mbind option_bind].
  destruct (Z.eqb_spec c c') as [<-|]; [|by exists c, r]. specialize (Hr' Hc). rewrite -> E' in *. cbn [drop]. rewrite -> ?drop_0. pose proof (tail_trans _ _ _ Hr Hr'). repeat case_if; eexists _, _; eauto.
Qed.

Lemma copy_chars_tail fw s c r : s = c :: r → c ≠ 0 → 0 ∈ s → ∃ cs r, copy_chars fw s = Some (cs, r) ∧ tail_of s r.
Proof.
  revert fw c r. induction s as [|x s IH]; intros fw c r; [done|]. intros [= <- <-] Hc Hs. pose proof (tail_next x s Hs Hc) as Ht. cbn. case_if; [|by exists [x], s].
  destruct (tail_cur s (proj1 Ht)) as (c' & r' & E' & -> & _). cbn [mbind option_bind]. destruct (Z.eqb_spec c' 0) as [->|Hc']; [by exists [x], s|].
  destruct (IH (swrap 16 (fw - 1)) c' r' E' Hc' (proj1 Ht)) as (cs & t & -> & Hr). exists (x :: cs), t. split; [done|]. by eapply tail_trans.
Qed.

Lemma copy_word_tail fw s : 0 ∈ s → ∃ cs r, copy_word fw s = Some (cs, r) ∧ tail_of s r.
Proof.
  revert fw. induction s as [|x s IH]; intros fw Hs; [by apply elem_of_nil in Hs|]. cbn. destruct (Z.eqb_spec x 0) as [->|Hx]; cbn [orb]; [by exists [], (0 :: s)|].
  case_if; [by exists [], (x :: s)|]. pose proof (tail_next x s Hs Hx) as Ht. destruct (IH (swrap 16 (fw - 1)) (proj1 Ht)) as (cs & r & -> & Hr). exists (x :: cs), r. split; [done|]. by eapply tail_trans.
Qed.

Lemma scan_value_tail q sign s base : base = 0 ∨ 2 ≤ base ≤ 16 → 0 ∈ s → Z.of_nat (length s) < 2 ^ 31 → ∃ n v r, scan_value q sign s base = Some (n, v, r) ∧ tail_of s r.
Proof.
  intros Hb Hs Hl. assert (∀ t, tail_of s t → ∃ v r, simple_strtoull t base = Some (v, r) ∧ tail_of s r) as Hu.
  { intros t Ht. destruct (simple_strtoull_total t base Hb (proj1 Ht)) as (v & k & -> & Hk); [pose proof (tail_length s t Ht); lia|]. exists v, (drop k t). split; [done|].
    eapply tail_trans; [done|]. by apply tail_drop. }
  assert (∃ v r, simple_strtoll s base = Some (v, r) ∧ tail_of s r) as (v & r & El & Hr).
  { destruct (tail_cur s Hs) as (c & t & E & Ec & Ht). rw /simple_strtoll. rewrite -> (Ec : rd s 0 = _). cbn [mbind option_bind]. destruct (Z.eqb_spec c 45) as [->|].
    - rewrite -> E in *. cbn [drop]. rewrite -> ?drop_0. destruct (Hu t (Ht ltac:(done))) as (v & r & -> & Hr). by exists (swrap 64 (- v)), r.
    - destruct (Hu s (tail_refl s Hs)) as (v & r & -> & Hr). by exists (swrap 64 v), r. }
  destruct (Hu s (tail_refl s Hs)) as (v' & r' & Eu & Hr'). rw /scan_value. change (simple_strtol s base) with (simple_strtoll s base). rw /simple_strtoul. rewrite -> El, Eu.
  destruct sign; cbn [mbind option_bind]; repeat case_if; eexists _, _, _; eauto.
Qed.

(** ** The interpreter *)

Section safe.
Context (buf args : list Z) (Hbuf : Z.of_nat (length buf) < 2 ^ 31).

(** The number of conversions that can follow. *)
Definition percents (s : list Z) : nat := length (filter (λ c, c = ch "%") s).
#[local] Arguments percents : simpl never.

Lemma percents_tail s r : tail_of s r → (percents r ≤ percents s)%nat.
Proof using. clear Hbuf. intros [_ [l ->]]. rw /percents. rewrite -> filter_app, length_app. lia. Qed.

(** A state of the loop, with room for [k] more arguments than the format can use. *)
Record scan_ok (k : nat) (st : scan) : Prop := {
  ok_fmt : 0 ∈ sc_fmt st;
  ok_str : tail_of buf (sc_str st);
  ok_args : args = map fst (sc_stores st) ++ sc_args st;
  ok_room : (percents (sc_fmt st) + k ≤ length (sc_args st))%nat;
  ok_num : 0 ≤ sc_num st ≤ Z.of_nat (length (sc_stores st))
}.

Lemma move_ok k st fmt str : scan_ok k st → tail_of (sc_fmt st) fmt → tail_of (sc_str st) str → scan_ok k (at_chars fmt str st).
Proof using.
  clear Hbuf. intros [Hf Hs Ha Hr Hn] Htf Hts. split; cbn; [apply Htf|by eapply tail_trans|done| |done]. pose proof (percents_tail _ _ Htf). lia.
Qed.

Lemma weaken_ok k st : scan_ok k st → scan_ok 0 st.
Proof using. clear Hbuf. intros []. split; try done; lia. Qed.

Lemma store_ok bytes inc st : scan_ok 1 st → 0 ≤ inc ≤ 1 → ∃ st', store_arg bytes inc st = Some st' ∧ scan_ok 0 st' ∧ sc_fmt st' = sc_fmt st ∧ sc_str st' = sc_str st.
Proof using.
  clear Hbuf. intros [Hf Hs Ha Hr Hn] Hi. rw /store_arg. destruct (sc_args st) as [|p l] eqn:E; [cbn in Hr; lia|]. eexists. split; [done|]. split_and!; [|done|done]. split; cbn in *.
  - done.
  - done.
  - rewrite -> Ha, map_app, <- app_assoc. done.
  - lia.
  - rewrite -> length_app. cbn. lia.
Qed.

(** Where the loop is left. *)
Definition scan_done (r : bool * scan) : Prop :=
  args = map fst (sc_stores r.2) ++ sc_args r.2 ∧ 0 ≤ sc_num r.2 ≤ Z.of_nat (length (sc_stores r.2)) ∧
  (r.1 = true → 0 ∈ sc_fmt r.2 ∧ (percents (sc_fmt r.2) ≤ length (sc_args r.2))%nat).

Lemma stop_ok k b st : scan_ok k st → scan_done (b, st).
Proof using. clear Hbuf. intros [? ? ? Hr ?]. split; [done|]. split; [done|]. intros _. split; [done|]. cbn. lia. Qed.

(** A round that started with [n] characters of the format. *)
Definition good (n : nat) (r : option (ctl scan (bool * scan))) : Prop :=
  (∃ st, r = Some (Next st) ∧ scan_ok 0 st ∧ (length (sc_fmt st) ≤ n)%nat) ∨ (∃ res, r = Some (Stop res) ∧ scan_done res).

Lemma good_next n st : scan_ok 0 st → (length (sc_fmt st) ≤ n)%nat → good n (Some (Next st)).
Proof using. clear Hbuf. intros. left. eauto. Qed.
Lemma good_stop n b k st : scan_ok k st → good n (Some (Stop (b, st))).
Proof using. clear Hbuf. intros. right. eexists. split; [done|]. by eapply stop_ok. Qed.

(** Storing something and moving on in the text. *)
Lemma good_store n bytes inc st str : scan_ok 1 st → 0 ≤ inc ≤ 1 → tail_of (sc_str st) str → (length (sc_fmt st) ≤ n)%nat →
  good n (st' ← store_arg bytes inc st; Some (Next (at_chars (sc_fmt st) str st'))).
Proof using.
  clear Hbuf. intros Hok Hi Ht Hl. destruct (store_ok bytes inc st Hok Hi) as (st' & -> & Hok' & Ef & Es). cbn [mbind option_bind]. apply good_next; [|done].
  apply move_ok; [done|rewrite -> Ef; by apply tail_refl, Hok|by rewrite -> Es].
Qed.

Lemma scan_integer_good n base sign q st : base = 0 ∨ 2 ≤ base ≤ 16 → scan_ok 1 st → (length (sc_fmt st) ≤ n)%nat → good n (scan_integer base sign q st).
Proof using Hbuf.
  intros Hb Hok Hl. rw /scan_integer. destruct (past_spaces_tail (sc_str st) (proj1 (ok_str _ _ Hok))) as (str & -> & Hs). cbn [mbind option_bind].
  assert (scan_ok 1 (at_chars (sc_fmt st) str st)) as Hok1 by (apply move_ok; [done|apply tail_refl, Hok|done]).
  destruct (tail_cur str (proj1 Hs)) as (c & r & E & Ec & Hr). rewrite -> Ec. cbn [mbind option_bind].
  assert (∃ d, (if sign && (c =? ch "-") then rd str 1 else Some c) = Some d) as [d ->].
  { destruct (sign && _) eqn:Em; [|by eexists]. apply andb_true_iff in Em as [_ Em]. apply Z.eqb_eq in Em. destruct (tail_cur r (proj1 (Hr ltac:(by rewrite -> Em)))) as (d & r' & -> & _). rewrite -> E, rd_second. by exists d. }
  cbn [mbind option_bind]. case_if; [by eapply good_stop|].
  destruct (scan_value_tail q sign str base Hb (proj1 Hs)) as (m & v & next & -> & Hn).
  { pose proof (tail_length _ _ (ok_str _ _ Hok1)) as Hle. cbn in Hle. lia. }
  cbn [mbind option_bind]. destruct (store_ok (le_bytes m v) 1 _ Hok1 ltac:(lia)) as (st' & -> & Hok' & Ef & Es). cbn [mbind option_bind]. apply good_next; [|by rewrite -> Ef].
  apply move_ok; [done|apply tail_refl; rewrite -> Ef; apply Hok1|by rewrite -> Es].
Qed.

Lemma scan_conversion_good n fw q st c r d t : scan_ok 1 st → sc_fmt st = c :: r → c ≠ 0 → sc_str st = d :: t → d ≠ 0 → (length (sc_fmt st) ≤ S n)%nat → good n (scan_conversion buf fw q st).
Proof using Hbuf.
  intros Hok Ef Hc Es Hd Hl. pose proof (tail_next c r ltac:(rewrite <- Ef; apply Hok) Hc) as Hr. pose proof (proj1 (ok_str _ _ Hok)) as Hs. rw /scan_conversion. rewrite -> Ef. cbn [drop]. rewrite -> ?drop_0.
  change (cur (c :: r)) with (Some c). cbn [mbind option_bind]. rewrite -> Ef in Hl. cbn [length] in Hl.
  assert (scan_ok 1 (at_chars r (sc_str st) st)) as Hok1 by (apply move_ok; [done|by rewrite -> Ef|by apply tail_refl]).
  case_if.
  { destruct (copy_chars_tail (if fw =? -1 then 1 else fw) (sc_str st) d t Es Hd Hs) as (cs & str & -> & Ht). cbn [mbind option_bind]. by apply (good_store n cs 1 (at_chars r (sc_str st) st)); [|lia| |cbn; lia]. }
  case_if.
  { destruct (past_spaces_tail (sc_str st) Hs) as (s1 & -> & H1). cbn [mbind option_bind]. destruct (copy_word_tail (if fw =? -1 then 2 ^ 15 - 1 else fw) s1 (proj1 H1)) as (cs & str & -> & Ht). cbn [mbind option_bind].
    apply (good_store n (cs ++ [0]) 1 (at_chars r (sc_str st) st)); [done|lia|by eapply tail_trans|cbn; lia]. }
  case_if.
  { destruct (store_ok (le_bytes 4 (Z.of_nat (length buf - length (sc_str st)))) 0 _ Hok1 ltac:(lia)) as (st' & -> & Hok' & Ef' & _). cbn [mbind option_bind]. apply good_next; [done|rewrite -> Ef'; cbn; lia]. }
  do 5 (case_if; [apply scan_integer_good; [lia|done|cbn; lia]|]). case_if; [|by eapply good_stop].
  rewrite -> Es. change (cur (d :: t)) with (Some d). cbn [mbind option_bind drop]. rewrite -> ?drop_0. rewrite <- Es. case_if; [by eapply good_stop|]. apply good_next; [|cbn; lia]. eapply weaken_ok. apply move_ok; [done|apply tail_refl, Hr|].
  cbn. rewrite -> Es. apply tail_next; [by rewrite <- Es|done].
Qed.

(** A conversion was announced: the room for it. *)
Lemma percent_room fmt r str st : scan_ok 0 st → tail_of (sc_fmt st) fmt → fmt = ch "%" :: r → tail_of (sc_str st) str → 0 ∈ r → scan_ok 1 (at_chars r str st).
Proof using.
  clear Hbuf. intros Hok Hf -> Hs Hr. pose proof (percents_tail _ _ Hf) as Hp. destruct Hok as [? ? ? Hroom ?]. split; cbn; try done; [by eapply tail_trans|].
  rw {1}/percents in Hp. rewrite -> filter_cons_True in Hp by done. cbn [length] in Hp. fold (percents r) in Hp. lia.
Qed.

Lemma scan_step_good st : scan_ok 0 st → good (length (sc_fmt st) - 1) (scan_step buf st).
Proof using Hbuf.
  intros Hok. pose proof (proj1 (ok_str _ _ Hok)) as Hs0. pose proof (ok_fmt _ _ Hok) as Hf0. rw /scan_step. destruct (tail_cur _ Hf0) as (f & fr & Ef & -> & Hfr). cbn [mbind option_bind].
  destruct (Z.eqb_spec f 0) as [->|Hf]; [by eapply good_stop|]. specialize (Hfr Hf). destruct (tail_cur _ Hs0) as (s & sr & Es & -> & _). cbn [mbind option_bind].
  destruct (Z.eqb_spec s 0) as [->|Hs]; [by eapply good_stop|].
  assert (∃ fmt str, (if isspace f then fmt ← past_spaces (drop 1 (sc_fmt st)); str ← past_spaces (sc_str st); Some (fmt, str) else Some (sc_fmt st, sc_str st)) = Some (fmt, str) ∧
    tail_of (sc_fmt st) fmt ∧ tail_of (sc_str st) str) as (fmt & str & -> & Htf & Hts).
  { case_if; [|by exists (sc_fmt st), (sc_str st)]. rewrite -> Ef. cbn [drop]. rewrite -> ?drop_0. rewrite <- Ef. destruct (past_spaces_tail fr (proj1 Hfr)) as (r1 & -> & H1), (past_spaces_tail _ Hs0) as (r2 & -> & H2). cbn [mbind option_bind].
    exists r1, r2. split_and!; [done|by eapply tail_trans|done]. }
  cbn [mbind option_bind]. pose proof (tail_length _ _ Htf) as Hlf. clear f fr Ef Hf Hfr. destruct (tail_cur fmt (proj1 Htf)) as (f & fr & Ef & -> & Hfr). cbn [mbind option_bind].
  destruct (Z.eqb_spec f 0) as [->|Hf].
  { cbn [negb andb]. rewrite -> andb_false_r. eapply good_stop. by apply move_ok. }
  specialize (Hfr Hf). destruct (Z.eqb_spec f (ch "%")) as [->|Hpc]; cbn [negb andb].
  2: { destruct (tail_cur str (proj1 Hts)) as (c & sr' & Esr & -> & Hsr). cbn [mbind option_bind]. rewrite -> Ef. cbn [drop]. rewrite -> ?drop_0. 
       assert (tail_of (sc_fmt st) fr) as Htr by (by eapply tail_trans). destruct (Z.eqb_spec f c) as [<-|]; cbn [negb].
       - rewrite -> Esr. cbn [drop]. rewrite -> ?drop_0. apply good_next; [apply move_ok; [done|done|eapply tail_trans; [done|by apply Hsr]]|]. cbn. rewrite -> Ef in Hlf. cbn in Hlf. lia.
       - right. eexists. split; [done|]. destruct Hok as [? ? ? Hroom ?]. split; [done|]. split; [done|]. intros _. cbn. split; [apply Htr|]. pose proof (percents_tail _ _ Htr). lia. }
  pose proof (percent_room fmt fr str st Hok Htf Ef Hts (proj1 Hfr)) as Hok1. rewrite -> Ef. cbn [drop]. rewrite -> ?drop_0. rewrite -> Ef in Hlf. cbn in Hlf. clear Hf. destruct (tail_cur fr (proj1 Hfr)) as (f & fr' & Ef' & -> & _).
  cbn [mbind option_bind]. destruct (Z.eqb_spec f (ch "*")) as [->|_].
  { destruct (skip_conversion_tail fr (proj1 Hfr)) as (r1 & -> & H1), (skip_word_tail str (proj1 Hts)) as (r2 & -> & H2). cbn [mbind option_bind]. apply good_next.
    - eapply weaken_ok. by apply (move_ok 1 (at_chars fr str st)).
    - cbn. pose proof (tail_length _ _ H1). lia. }
  destruct (scan_width_tail fr (proj1 Hfr)) as (w & r1 & -> & H1). cbn [mbind option_bind]. destruct (scan_qualifier_tail r1 (proj1 H1)) as (q & r2 & -> & H2). cbn [mbind option_bind].
  assert (tail_of fr r2) as H12 by (by eapply tail_trans). assert (scan_ok 1 (at_chars r2 str st)) as Hok2 by (apply (move_ok 1 (at_chars fr str st)); [done|done|by apply tail_refl, Hts]).
  destruct (tail_cur r2 (proj1 H2)) as (f2 & fr2 & Ef2 & -> & _). cbn [mbind option_bind]. destruct (Z.eqb_spec f2 0) as [->|Hf2]; [by eapply good_stop|].
  destruct (tail_cur str (proj1 Hts)) as (s2 & sr2 & Es2 & -> & _). cbn [mbind option_bind]. destruct (Z.eqb_spec s2 0) as [->|Hs2]; [by eapply good_stop|].
  eapply scan_conversion_good; [done|done|done|done|done|]. cbn. pose proof (tail_length _ _ H12). lia.
Qed.
End safe.

(** C35: vsscanf ends on every text and format that are terminated, reads neither of them behind its end, never runs out of arguments if there is one for every percent sign, and
    stores through the arguments in order, each at most once; it counts no more conversions than it stored values. *)
Theorem vsscanf_safe buf fmt args
    (Hbuf : 0 ∈ buf) (Hlen : Z.of_nat (length buf) < 2 ^ 31) (Hfmt : 0 ∈ fmt) (Hargs : (length (filter (λ c, c = ch "%") fmt) ≤ length args)%nat) :
  ∃ num stores, vsscanf buf fmt args = Some (num, stores) ∧ map fst stores = take (length stores) args ∧ 0 ≤ num ≤ Z.of_nat (length stores).
Proof.
  assert (∀ (stores : list (Z * list Z)) l, args = map fst stores ++ l → map fst stores = take (length stores) args) as Htake.
  { intros stores l ->. by rewrite -> take_app_length' by (by rewrite -> length_map). }
  rw /vsscanf. destruct (loop_inv (scan_ok buf args 0) (λ st, length (sc_fmt st)) (scan_done args) (scan_step buf) (length fmt + 1)
    {| sc_fmt := fmt; sc_str := buf; sc_args := args; sc_stores := []; sc_num := 0 |}) as ([go st] & -> & Ha & Hn & Hgo).
  - intros st Hok. destruct (scan_step_good buf args Hlen st Hok) as [(st' & -> & Hok' & Hl)|(res & -> & Hd)]; [left|right]; eexists; split; try done. split; [done|].
    pose proof (ok_fmt _ _ _ _ Hok) as H0. destruct (sc_fmt st); [by apply elem_of_nil in H0|]. cbn in *. lia.
  - split; cbn; [done|by apply tail_refl|done| |lia]. rw /percents. lia.
  - cbn. lia.
  - cbn in Ha, Hn, Hgo. cbn [mbind option_bind]. destruct go; [|by eauto 10]. destruct (Hgo eq_refl) as (Hf & Hroom). destruct (tail_cur _ Hf) as (f & r & Ef & -> & Hr). cbn [mbind option_bind].
    destruct (Z.eqb_spec f (ch "%")) as [->|]; cbn [mbind option_bind]; [|by eauto 10]. destruct (tail_cur r (proj1 (Hr ltac:(done)))) as (f' & r' & Er & _ & _).
    rewrite -> Ef, Er. rewrite -> rd_second. cbn [mbind option_bind]. destruct (f' =? ch "n"); [|by eauto 10].
    rw /store_arg. destruct (sc_args st) as [|p l] eqn:E; cbn [mbind option_bind sc_num sc_stores].
    + rewrite -> Ef in Hroom. rw /percents in Hroom. rewrite -> filter_cons_True in Hroom by done. cbn in Hroom. lia.
    + eexists _, _. split; [done|]. split; [apply (Htake _ l); rewrite -> Ha, map_app, <- app_assoc; done|]. rewrite -> length_app. lia.
Qed.

(** A position stored at the end of the text. *)
Lemma vsscanf_safe_witness :
  ∃ num stores, vsscanf (cstr "12 of") (cstr "%d of%n") [100; 200; 300] = Some (num, stores) ∧ map fst stores = take (length stores) [100; 200; 300] ∧ 0 ≤ num ≤ Z.of_nat (length stores).
Proof. apply vsscanf_safe; [by apply (bool_decide_unpack _)|done|by apply (bool_decide_unpack _)|vm_compute; lia]. Defined.
