(* ===== verification/VsprintfScanRoundtrip.v ===== *)
(** * Formatted input: reading back what was printed

    A format of integer conversions with characters between them is used twice: vsnprintf prints values with it, vsscanf reads them back. *)
From Stdlib Require Import Ascii String.
From S2P Require Import Prelude Ctype Kstrtox NumPrint StringLib Vsprintf VsprintfText VsprintfNumber VsprintfScan VsprintfScanSafe.
#[local] Open Scope Z_scope.

(** ** Formats *)

(** The size of an integer: [hh], [h], nothing, [l], [ll]. *)
Inductive int_size := Char | Short | Int | Long | LongLong.
Inductive int_letter := Dec | Unsigned | LowerHex | UpperHex | Octal.
#[export] Instance int_letter_eq_dec : EqDecision int_letter.
Proof. solve_decision. Defined.
Inductive item := Lit (c : Z) | Conv (q : int_size) (k : int_letter).

Definition size_text (q : int_size) : list Z := match q with Char => chars "hh" | Short => chars "h" | Int => [] | Long => chars "l" | LongLong => chars "ll" end.
Definition size_bytes (q : int_size) : nat := match q with Char => 1 | Short => 2 | Int => 4 | Long | LongLong => 8 end.
Definition letter_char (k : int_letter) : Z := match k with Dec => ch "d" | Unsigned => ch "u" | LowerHex => ch "x" | UpperHex => ch "X" | Octal => ch "o" end.
Definition letter_base (k : int_letter) : Z := match k with Dec | Unsigned => 10 | LowerHex | UpperHex => 16 | Octal => 8 end.
Definition letter_case (k : int_letter) : Z := match k with LowerHex => 32 | _ => 0 end.

Definition item_fmt (i : item) : list Z := match i with Lit c => [c] | Conv q k => ch "%" :: size_text q ++ [letter_char k] end.
Definition items_fmt (its : list item) : list Z := concat (map item_fmt its).

(** The values of a conversion. *)
Definition in_range (q : int_size) (k : int_letter) (z : Z) : Prop :=
  let w := 8 * Z.of_nat (size_bytes q) in
  match k with Dec => - 2 ^ (w - 1) ≤ z < 2 ^ (w - 1) | _ => 0 ≤ z < 2 ^ w end.

(** The argument that is passed for a value. *)
Definition int_arg (q : int_size) (z : Z) : varg := match q with Long | LongLong => VLong (wrap 64 z) | _ => VInt (swrap 32 z) end.

(** A character that is neither blank nor part of a number or a conversion. *)
Definition plain (c : Z) : Prop := in_width 8 c ∧ negb (isspace c || isalnum c || (c =? 0) || (c =? ch "%")) = true.

(** No conversion follows another one at once; the values fit. *)
Fixpoint readable (its : list item) (zs : list Z) : Prop :=
  match its, zs with
  | [], [] => True
  | Lit c :: its, _ => plain c ∧ readable its zs
  | Conv q k :: its, z :: zs => in_range q k z ∧ match its with Conv _ _ :: _ => False | _ => True end ∧ readable its zs
  | _, _ => False
  end.

Fixpoint sizes (its : list item) : list int_size := match its with [] => [] | Lit _ :: its => sizes its | Conv q _ :: its => q :: sizes its end.

(** ** The text *)

Definition num_text (k : int_letter) (z : Z) : list Z := (if z <? 0 then [ch "-"] else []) ++ digits_of (letter_base k) (letter_case k) (Z.abs z).

Fixpoint items_text (its : list item) (zs : list Z) : list Z :=
  match its, zs with
  | Lit c :: its, _ => c :: items_text its zs
  | Conv _ k :: its, z :: zs => num_text k z ++ items_text its zs
  | _, _ => []
  end.

Lemma plain_facts c : plain c → c ≠ 0 ∧ c ≠ ch "%" ∧ isspace c = false ∧ digit_val c = None ∧ (_tolower c =? 120) = false.
Proof.
  intros [Hw Hp]. assert (implb (negb (isspace c || isalnum c || (c =? 0) || (c =? ch "%")))
    (negb (c =? 0) && negb (c =? ch "%") && negb (isspace c) && bool_decide (digit_val c = None) && negb (_tolower c =? 120)) = true) as H.
  { clear Hp. revert Hw. by_bytes (λ c, implb (negb (isspace c || isalnum c || (c =? 0) || (c =? ch "%")))
    (negb (c =? 0) && negb (c =? ch "%") && negb (isspace c) && bool_decide (digit_val c = None) && negb (_tolower c =? 120))) c. }
  rewrite -> Hp in H. cbn [implb] in H. rewrite -> !andb_true_iff, !negb_true_iff, !Z.eqb_neq, bool_decide_eq_true in H. destruct H as [[[[? ?] ?] ?] ?]. split_and!; try done. by apply Z.eqb_neq.
Qed.

(** ** Printing *)

Definition conv_spec (q : int_size) (k : int_letter) : printf_spec :=
  let signed := match k with Dec => true | _ => false end in
  {| ps_type := match q with LongLong => FORMAT_TYPE_LONG_LONG | Long => if signed then FORMAT_TYPE_LONG else FORMAT_TYPE_ULONG
                | Char => if signed then FORMAT_TYPE_BYTE else FORMAT_TYPE_UBYTE | Short => if signed then FORMAT_TYPE_SHORT else FORMAT_TYPE_USHORT
                | Int => if signed then FORMAT_TYPE_INT else FORMAT_TYPE_UINT end;
     ps_flags := match k with Dec => SIGN | LowerHex => SMALL | _ => 0 end; ps_base := letter_base k;
     ps_qualifier := match q with Char => ch "H" | Short => ch "h" | Int => 255 | Long => ch "l" | LongLong => ch "L" end; ps_field_width := -1; ps_precision := -1 |}.

Lemma decode_conv q k rest spec : busy spec = false → format_decode (item_fmt (Conv q k) ++ rest) spec = Some (rest, conv_spec q k).
Proof.
  intros Hb. assert (format_decode (item_fmt (Conv q k) ++ rest) spec = decode_token (item_fmt (Conv q k) ++ rest) spec) as ->.
  { rw /format_decode. rw /busy in Hb. destruct (ps_type spec); done. }
  rw /decode_token. cbn [item_fmt app to_percent]. change ((ch "%" =? 0) || (ch "%" =? ch "%")) with true. cbn [mbind option_bind].
  change (cur (ch "%" :: ?l)) with (Some (ch "%")). cbn [mbind option_bind]. rewrite -> Nat.eqb_refl. cbn [negb orb].
  destruct q, k; cbn; rewrite -> ?drop_0; done.
Qed.

Lemma range_wide q k z : in_range q k z → (k = Dec → - 2 ^ 63 ≤ z < 2 ^ 63) ∧ (k ≠ Dec → 0 ≤ z < 2 ^ 64).
Proof. rw /in_range. destruct q, k; cbn; split; try done; intros; lia. Qed.

Lemma next_conv q k z l s : in_range q k z →
  va_num (ps_type (conv_spec q k)) {| va_args := int_arg q z :: l; va_stores := s |} = Some (wrap 64 z, {| va_args := l; va_stores := s |}).
Proof.
  rw /in_range. intros Hz. assert (∀ w, 0 < w ≤ 64 → in_width w z → wrap w z = wrap 64 z) as Hw.
  { intros w Hw Hin. rewrite -> !wrap_small; [done| |done]. destruct Hin. split; [done|]. eapply Z.lt_le_trans; [done|]. apply Z.pow_le_mono_r; lia. }
  assert (∀ w, 0 < w → - 2 ^ (w - 1) ≤ z < 2 ^ (w - 1) → swrap w z = z) as Hs by (intros w H0 H; apply swrap_small; lia).
  destruct q, k; cbn in Hz |- *; f_equal; f_equal; try done; rewrite -> ?(Hs 32) by (cbn; lia); rewrite -> ?(Hs 8), ?(Hs 16) by (cbn; lia); try done; try (apply Hw; [lia|split; cbn; lia]);
    (transitivity (wrap 32 z); [rw /wrap /swrap; change (2 ^ 32) with 4294967296; change (2 ^ (32 - 1)) with 2147483648; zdm|apply Hw; [lia|split; cbn; lia]]).
Qed.

Lemma number_conv q k z t : in_range q k z → number (wrap 64 z) (conv_spec q k) t = Some (t ++ num_text k z).
Proof.
  intros Hr. destruct (range_wide q k z Hr) as [Hdec Huns]. set (spec := conv_spec q k).
  assert (in_width 64 (wrap 64 z)) as Hw by (apply Z.mod_pos_bound; lia).
  assert (sign_text spec (wrap 64 z) = (if z <? 0 then [ch "-"] else []) ∧ abs_value spec (wrap 64 z) = Z.abs z) as [Hsign Habs].
  { destruct (decide (k = Dec)) as [->|Hk].
    - specialize (Hdec eq_refl). rw /sign_text /abs_value. rewrite -> swrap_of_wrap, (swrap_small 64 z) by (cbn; lia). change (flag SIGN spec) with true. change (flag PLUS spec) with false. change (flag SPACE spec) with false.
      cbn [andb]. destruct (Z.ltb_spec z 0); [split; [done|lia]|]. rewrite -> wrap_small by (split; lia). split; [done|lia].
    - specialize (Huns Hk). rewrite -> wrap_small by done. rw /sign_text /abs_value. assert (flag SIGN spec = false) as -> by (by destruct k). cbn [andb]. rewrite -> (proj2 (Z.ltb_ge z 0)) by lia. split; [done|lia]. }
  assert (Z.land (ps_flags spec) SMALL = letter_case k) as Hcase by (by destruct k).
  assert (prefix_text spec (wrap 64 z) = []) as Hpre by (by destruct k).
  assert (body_text spec (wrap 64 z) = digits_of (letter_base k) (letter_case k) (Z.abs z)) as Hbody by (rw /body_text; by rewrite -> Hcase, Habs).
  assert (length (body_text spec (wrap 64 z)) ≤ 22)%nat as Hlen by (rewrite -> Hbody; rw /digits_of; rewrite -> length_rev; apply digits_rev_length).
  assert (free_width spec (wrap 64 z) < 0) as Hneg by (rw /free_width; cbn [ps_field_width spec conv_spec]; lia).
  rewrite -> number_ok; [|done|destruct k; cbn; lia|cbn; lia|cbn; lia|].
  - rw /number_text. replace (Z.to_nat (free_width spec (wrap 64 z))) with 0%nat by lia. rewrite -> Hsign, Hpre, Hbody. destruct k; done.
  - rw /free_width. rewrite -> Hpre, Hsign. cbn [ps_field_width spec conv_spec]. destruct (z <? 0); cbn [length]; lia.
Qed.

(** A conversion of the interpreter. *)
Lemma print_conv env q k z rest spec l s t : busy spec = false → in_range q k z →
  printf_step env (item_fmt (Conv q k) ++ rest, spec, {| va_args := int_arg q z :: l; va_stores := s |}, t) =
  Some (Next (rest, conv_spec q k, {| va_args := l; va_stores := s |}, t ++ num_text k z)).
Proof.
  intros Hb Hr. rw /printf_step. change (cur (item_fmt (Conv q k) ++ rest)) with (Some (ch "%")). cbn [mbind option_bind]. change (ch "%" =? 0) with false. rewrite -> decode_conv by done. cbn [mbind option_bind].
  transitivity ('(num, args) ← next_num (ps_type (conv_spec q k)) {| va_args := int_arg q z :: l; va_stores := s |}; o ← number num (conv_spec q k) t; Some (Next (R := va_list * list Z) (rest, conv_spec q k, args, o))).
  { by destruct q, k. }
  change (next_num (ps_type (conv_spec q k))) with (va_num (ps_type (conv_spec q k))). rewrite -> next_conv by done. cbn [mbind option_bind]. rewrite -> (number_conv q k z t Hr). done.
Qed.

(** Characters up to the next conversion, or the end. *)
Lemma print_lits env cs c rest spec (args : va_list) t : cs ≠ [] → Forall plain cs → c = ch "%" ∨ c = 0 → busy spec = false →
  ∃ spec', busy spec' = false ∧ printf_step env (cs ++ c :: rest, spec, args, t) = Some (Next (c :: rest, spec', args, t ++ cs)).
Proof.
  intros Hne Hp Hc Hb. assert (∀ l, Forall plain l → to_percent (l ++ c :: rest) = Some (c :: rest)) as Hto.
  { clear Hne. induction 1 as [|x l Hx _ IH]; cbn [app to_percent]; [destruct Hc as [-> | ->]; done|]. destruct (plain_facts x Hx) as (H1 & H2 & _). by ztest. }
  exists (set_ps_type FORMAT_TYPE_NONE spec). split; [done|]. rw /printf_step. destruct cs as [|x cs]; [done|]. pose proof (Forall_inv Hp) as Hx. destruct (plain_facts x Hx) as (H0 & _).
  change (cur ((x :: cs) ++ c :: rest)) with (Some x). cbn [mbind option_bind]. rewrite -> (proj2 (Z.eqb_neq x 0)) by done.
  assert (format_decode ((x :: cs) ++ c :: rest) spec = decode_token ((x :: cs) ++ c :: rest) spec) as -> by (rw /format_decode; rw /busy in Hb; destruct (ps_type spec); done).
  rw /decode_token. rewrite -> Hto by done. cbn [mbind option_bind]. change (cur (c :: rest)) with (Some c). cbn [mbind option_bind].
  assert ((length (c :: rest) =? length ((x :: cs) ++ c :: rest))%nat = false) as -> by (apply Nat.eqb_neq; rewrite -> length_app; cbn; lia). cbn [negb orb mbind option_bind].
  change (ps_type (set_ps_type FORMAT_TYPE_NONE spec)) with FORMAT_TYPE_NONE. cbn iota. cbn [put_text text_sink mbind option_bind]. do 3 f_equal.
  f_equal. rewrite -> length_app. replace (length (x :: cs) + length (c :: rest) - length (c :: rest))%nat with (length (x :: cs)) by lia. apply take_app_length.
Qed.

Fixpoint items_args (its : list item) (zs : list Z) : list varg :=
  match its, zs with
  | Lit _ :: its, _ => items_args its zs
  | Conv q _ :: its, z :: zs => int_arg q z :: items_args its zs
  | _, _ => []
  end.

(** The characters at the beginning of a format. *)
Lemma split_lits its zs : readable its zs → ∃ cs its', Forall plain cs ∧ readable its' zs ∧ (length its = length cs + length its')%nat ∧
  items_text its zs = cs ++ items_text its' zs ∧ items_fmt its = cs ++ items_fmt its' ∧ items_args its zs = items_args its' zs ∧
  (its' = [] ∧ zs = [] ∨ ∃ q k its'' z zs', its' = Conv q k :: its'' ∧ zs = z :: zs' ∧ in_range q k z ∧ readable its'' zs').
Proof.
  induction its as [|[c|q k] its IH]; intros Hr.
  - exists [], []. split_and!; try done. left. by destruct zs.
  - destruct Hr as [Hc Hr]. destruct (IH Hr) as (cs & its' & H1 & H2 & H3 & H4 & H5 & H6 & H7). exists (c :: cs), its'. cbn [items_text items_fmt map concat item_fmt items_args length app].
    fold (items_fmt its). rewrite -> H3, H4, H5. split_and!; try done. by constructor.
  - exists [], (Conv q k :: its). split_and!; try done. right. destruct zs as [|z zs]; [done|]. destruct Hr as (? & ? & ?). by exists q, k, its, z, zs.
Qed.

Lemma print_items env n its zs r spec s t fuel : (length its ≤ n)%nat → readable its zs → busy spec = false → (length its < fuel)%nat →
  loop fuel (printf_step env) (items_fmt its ++ 0 :: r, spec, {| va_args := items_args its zs; va_stores := s |}, t) =
  Some ({| va_args := []; va_stores := s |}, t ++ items_text its zs).
Proof.
  revert its zs spec t fuel. induction n as [|n IH]; intros its zs spec t fuel Hn Hr Hb Hf.
  all: destruct fuel as [|fuel]; [lia|].
  - destruct its; [|cbn in Hn; lia]. destruct zs; [|done]. cbn. by rewrite -> app_nil_r.
  - destruct (split_lits its zs Hr) as (cs & its' & Hp & Hr' & Hl & -> & -> & -> & Hcase). rewrite <- app_assoc. cbn [loop]. destruct cs as [|c cs].
    + cbn [app length] in *. destruct Hcase as [[-> ->]|(q & k & its'' & z & zs' & -> & -> & Hz & Hr'')]; [cbn; by rewrite -> app_nil_r|]. cbn [items_args items_fmt map concat items_text length] in *.
      fold (items_fmt its''). rewrite <- app_assoc, (print_conv env q k z _ spec _ s t Hb Hz), IH, <- app_assoc; [done|lia|done|by destruct q, k|lia].
    + assert (∃ c0 r0, items_fmt its' ++ 0 :: r = c0 :: r0 ∧ (c0 = ch "%" ∨ c0 = 0)) as (c0 & r0 & E & Hc0).
      { destruct Hcase as [[-> ->]|(q & k & its'' & z & zs' & -> & _)]; [exists 0, r; auto|]. eexists _, _. split; [cbn; done|]. by left. }
      rewrite -> E. destruct (print_lits env (c :: cs) c0 r0 spec {| va_args := items_args its' zs; va_stores := s |} t ltac:(done) Hp Hc0 Hb) as (spec' & Hb' & ->).
      rewrite <- E. cbn [length] in Hl. rewrite -> IH, <- app_assoc by (done || lia). done.
Qed.

Lemma items_length its : (length its ≤ length (items_fmt its))%nat.
Proof. induction its as [|[c|q k] its IH]; [done| |]; cbn [items_fmt map concat item_fmt]; fold (items_fmt its); rewrite -> length_app; cbn [length]; lia. Qed.

Lemma print_text env its zs r : readable its zs → text_of env (items_fmt its ++ 0 :: r) (items_args its zs) = Some (items_text its zs).
Proof.
  intros Hr. rw /text_of /format. rewrite -> (print_items env (length its) its zs r) by (done || (rewrite -> length_app; pose proof (items_length its); lia)). done.
Qed.

(** ** Reading *)

(** What stands behind a number. *)
Definition stops (t : list Z) : Prop := ∃ c r, t = c :: r ∧ (c = 0 ∨ plain c).

Lemma stops_facts t : stops t → ∃ c r, t = c :: r ∧ digit_val c = None ∧ (_tolower c =? 120) = false ∧ (c ≠ 0 → isspace c = false).
Proof. intros (c & r & -> & [->|Hc]); exists c, r || exists 0, r; [done|]. destruct (plain_facts c Hc) as (? & ? & ? & ? & ?). done. Qed.

Section digits.
Context (base locase : Z) (Hb : base = 8 ∨ base = 10 ∨ base = 16) (Hl : locase = 0 ∨ locase = 32).
Notation dig := (λ d, digit_ref d locase).

Lemma prefix_stops ds t : Forall (λ d, 0 ≤ d < base) ds → stops t → digit_prefix (map dig ds ++ t) base = ds.
Proof using Hb Hl.
  intros Hds Ht. induction Hds as [|d ds Hd _ IH].
  - destruct (stops_facts t Ht) as (c & r & -> & Hc & _). cbn. rewrite -> Hc. by destruct (c =? 0).
  - cbn [map app digit_prefix]. destruct (digit_read d locase ltac:(lia) Hl) as (-> & Hne & _). ztest. by rewrite -> IH.
Qed.

Lemma fixup_stops ds t : Forall (λ d, 0 ≤ d < base) ds → ds ≠ [] → stops t → _parse_integer_fixup_radix (map dig ds ++ t) base = Some (map dig ds ++ t, base).
Proof using Hb Hl.
  intros Hds Hne Ht. rw /_parse_integer_fixup_radix. rewrite -> (proj2 (Z.eqb_neq base 0)) by lia. cbn [mbind option_bind]. destruct (Z.eqb_spec base 16) as [E|]; [|done].
  destruct Hds as [|d ds Hd Hds]; [done|]. cbn [map app]. change (rd (?x :: ?l) 0) with (Some x). cbn [mbind option_bind]. destruct (_ =? 48); [|done].
  assert (∃ c r, map dig ds ++ t = c :: r ∧ (_tolower c =? 120) = false) as (c & r & -> & Hx).
  { destruct Hds as [|e ds He Hds]; [destruct (stops_facts t Ht) as (c & r & -> & _ & ? & _); by exists c, r|]. eexists _, _. split; [done|]. by destruct (digit_read e locase ltac:(lia) Hl) as (_ & _ & _ & _ & ? & _). }
  rewrite -> rd_second. cbn [mbind option_bind]. by rewrite -> Hx.
Qed.

(** The unchecked conversion reads the digits. *)
Lemma read_digits v t : in_width 64 v → stops t → 0 ∈ t → Z.of_nat (length t) + 22 < 2 ^ 31 → simple_strtoull (digits_of base locase v ++ t) base = Some (v, t).
Proof using Hb Hl.
  intros Hv Ht H0 Hlen. destruct (vals_ok base v Hb Hv) as (Hds & Hne & Hval & Hl22). rw /digits_of. rewrite -> digits_vals, <- map_rev. set (ds := rev (vals_rev 22 base v)) in *.
  destruct (simple_strtoull_at _ base _ base (fixup_stops ds t Hds Hne Ht)) as (res & -> & _ & Hres); [lia|apply elem_of_app; by right|rewrite -> length_app, length_map; lia|].
  rewrite -> prefix_stops, Hval in Hres by done. rewrite -> prefix_stops, Hres by (done || apply Hv). by rewrite -> drop_app_length' by (by rewrite -> length_map).
Qed.

(** The first digit. *)
Lemma first_digit v t : in_width 64 v → ∃ c r, digits_of base locase v ++ t = c :: r ∧ c ≠ 0 ∧ c ≠ ch "-" ∧ isspace c = false ∧ scan_digit base c = true.
Proof using Hb Hl.
  intros Hv. destruct (vals_ok base v Hb Hv) as (Hds & Hne & _ & _). rw /digits_of. rewrite -> digits_vals, <- map_rev. set (ds := rev (vals_rev 22 base v)) in *. destruct Hds as [|d ds Hd _]; [done|].
  exists (digit_ref d locase), (map dig ds ++ t). split; [done|]. assert (d ∈ seqZ 0 base) as Hin by (apply elem_of_seqZ; lia). clear -Hin Hb Hl. revert d Hin. apply Forall_forall.
  destruct Hb as [-> | [-> | ->]], Hl as [-> | ->]; apply (bool_decide_unpack _); vm_compute; exact I.
Qed.
End digits.

Definition letter_signed (k : int_letter) : bool := match k with Dec => true | _ => false end.
Definition size_code (q : int_size) : Z := match q with Char => ch "H" | Short => ch "h" | Int => 255 | Long => ch "l" | LongLong => ch "L" end.

Lemma letter_ok k : (letter_base k = 8 ∨ letter_base k = 10 ∨ letter_base k = 16) ∧ (letter_case k = 0 ∨ letter_case k = 32).
Proof. destruct k; cbn; auto. Qed.

(** The conversion of the text of a number. *)
Lemma read_value q k z t : in_range q k z → stops t → 0 ∈ t → Z.of_nat (length t) + 22 < 2 ^ 31 →
  scan_value (size_code q) (letter_signed k) (num_text k z ++ t) (letter_base k) = Some (size_bytes q, z, t).
Proof.
  intros Hr Ht H0 Hlen. destruct (range_wide q k z Hr) as [Hdec Huns]. destruct (letter_ok k) as [Hb Hl].
  assert (in_width 64 (Z.abs z)) as Hw by (destruct (decide (k = Dec)) as [Hk|Hk]; [specialize (Hdec Hk)|specialize (Huns Hk)]; split; lia).
  pose proof (read_digits _ _ Hb Hl (Z.abs z) t Hw Ht H0 Hlen) as Hread. rw /num_text. destruct (decide (k = Dec)) as [->|Hk].
  - specialize (Hdec eq_refl). assert (simple_strtoll ((if z <? 0 then [ch "-"] else []) ++ digits_of (letter_base Dec) (letter_case Dec) (Z.abs z) ++ t) (letter_base Dec) = Some (z, t)) as El.
    { rw /simple_strtoll. destruct (Z.ltb_spec z 0) as [Hz|Hz]; cbn [app].
      - change (rd (ch "-" :: ?l) 0) with (Some (ch "-")). cbn [mbind option_bind]. change (ch "-" =? 45) with true. cbn [drop]. rewrite -> drop_0, Hread. cbn [mbind option_bind]. rewrite -> swrap_small by lia. do 2 f_equal. lia.
      - destruct (first_digit _ _ Hb Hl (Z.abs z) t Hw) as (c & r & E & _ & Hc & _). rewrite -> E. change (rd (c :: r) 0) with (Some c). cbn [mbind option_bind]. rewrite -> (proj2 (Z.eqb_neq c 45)) by done.
        rewrite <- E, Hread. cbn [mbind option_bind]. rewrite -> swrap_small by lia. do 2 f_equal. lia. }
    rewrite <- app_assoc. rw /scan_value. change (simple_strtol ?s ?b) with (simple_strtoll s b). cbn [letter_signed]. rewrite -> El. by destruct q.
  - specialize (Huns Hk). rewrite -> (proj2 (Z.ltb_ge z 0)) by lia. cbn [app]. assert (letter_signed k = false) as -> by (by destruct k). rw /scan_value /simple_strtoul. rewrite -> Hread, (Z.abs_eq z) by lia. by destruct q.
Qed.

(** The first character of a number, and the one that decides whether there is a number. *)
Lemma num_first q k z t : in_range q k z → ∃ c r, num_text k z ++ t = c :: r ∧ c ≠ 0 ∧ isspace c = false ∧
  ∃ d, (if letter_signed k && (c =? ch "-") then rd (c :: r) 1 else Some c) = Some d ∧ scan_digit (letter_base k) d = true.
Proof.
  intros Hr. destruct (range_wide q k z Hr) as [Hdec Huns]. destruct (letter_ok k) as [Hb Hl].
  assert (in_width 64 (Z.abs z)) as Hw by (destruct (decide (k = Dec)) as [Hk|Hk]; [specialize (Hdec Hk)|specialize (Huns Hk)]; split; lia).
  destruct (first_digit _ _ Hb Hl (Z.abs z) t Hw) as (c & r & E & H0 & Hm & Hs & Hd). rw /num_text. rewrite <- app_assoc, E. destruct (Z.ltb_spec z 0).
  - assert (k = Dec) as -> by (destruct (decide (k = Dec)) as [|Hk]; [done|specialize (Huns Hk); lia]). cbn [app]. exists (ch "-"), (c :: r). split_and!; try done. exists c. rewrite -> rd_second. done.
  - cbn [app]. exists c, r. split_and!; try done. exists c. rewrite -> (proj2 (Z.eqb_neq c (ch "-"))), andb_false_r by done. done.
Qed.

Lemma conv_head q k rest : ∃ f, cur (size_text q ++ letter_char k :: rest) = Some f ∧ (f =? ch "*") = false.
Proof. destruct q, k; eexists; split; cbn; done. Qed.

Lemma conv_width q k rest : scan_width (size_text q ++ letter_char k :: rest) = Some (-1, size_text q ++ letter_char k :: rest).
Proof. destruct q, k; done. Qed.

Lemma conv_qualifier q k rest : scan_qualifier (size_text q ++ letter_char k :: rest) = Some (size_code q, letter_char k :: rest).
Proof. destruct q, k; cbn; rewrite -> ?drop_0; done. Qed.

Section reading.
Context (buf : list Z).

Lemma scan_conv q k z frest t p args ss n : in_range q k z → stops t → 0 ∈ t → Z.of_nat (length t) + 22 < 2 ^ 31 →
  scan_step buf {| sc_fmt := item_fmt (Conv q k) ++ frest; sc_str := num_text k z ++ t; sc_args := p :: args; sc_stores := ss; sc_num := n |} =
  Some (Next {| sc_fmt := frest; sc_str := t; sc_args := args; sc_stores := ss ++ [(p, le_bytes (size_bytes q) z)]; sc_num := n + 1 |}).
Proof using.
  intros Hr Ht H0 Hlen. destruct (num_first q k z t Hr) as (c & r & E & Hc & Hs & d & Ed & Hd). rw /scan_step. cbn [sc_fmt sc_str]. change (cur (item_fmt (Conv q k) ++ frest)) with (Some (ch "%")). cbn [mbind option_bind].
  change (ch "%" =? 0) with false. rewrite -> E. change (cur (c :: r)) with (Some c). cbn [mbind option_bind]. rewrite -> (proj2 (Z.eqb_neq c 0)) by done. change (isspace (ch "%")) with false. cbn [mbind option_bind].
  change (cur (item_fmt (Conv q k) ++ frest)) with (Some (ch "%")). cbn [mbind option_bind]. change (ch "%" =? ch "%") with true. change (ch "%" =? 0) with false. cbn [negb andb].
  change (drop 1 (item_fmt (Conv q k) ++ frest)) with (drop 0 ((size_text q ++ [letter_char k]) ++ frest)). rewrite -> drop_0, <- app_assoc. cbn [app].
  destruct (conv_head q k frest) as (f & -> & Hstar). cbn [mbind option_bind]. rewrite -> Hstar, conv_width. cbn [mbind option_bind]. rewrite -> conv_qualifier. cbn [mbind option_bind].
  change (cur (letter_char k :: frest)) with (Some (letter_char k)). cbn [mbind option_bind]. assert ((letter_char k =? 0) = false) as -> by (by destruct k).
  change (cur (c :: r)) with (Some c). cbn [mbind option_bind]. rewrite -> (proj2 (Z.eqb_neq c 0)) by done.
  rw /scan_conversion. cbn [sc_fmt sc_str at_chars]. change (cur (letter_char k :: frest)) with (Some (letter_char k)). cbn [mbind option_bind].
  set (st0 := at_chars _ _ (at_chars _ _ _)).
  transitivity (scan_integer (letter_base k) (letter_signed k) (size_code q) st0); [by destruct k|].
  assert (sc_fmt st0 = frest ∧ sc_str st0 = c :: r ∧ sc_args st0 = p :: args ∧ sc_stores st0 = ss ∧ sc_num st0 = n) as (F1 & F2 & F3 & F4 & F5) by done. clearbody st0.
  rw /scan_integer /store_arg. rewrite -> F1, F2. rewrite -> past_spaces_cons, Hs by (rewrite <- E; apply elem_of_app; by right). cbn [mbind option_bind at_chars sc_fmt sc_str sc_args sc_stores sc_num].
  change (cur (c :: r)) with (Some c). cbn [mbind option_bind]. rewrite -> Ed. cbn [mbind option_bind]. rewrite -> Hd. cbn [negb]. rewrite <- E, (read_value q k z t Hr Ht H0 Hlen). cbn [mbind option_bind].
  rewrite -> F3, F4, F5. done.
Qed.

Lemma scan_lit c frest t args ss n : plain c →
  scan_step buf {| sc_fmt := c :: frest; sc_str := c :: t; sc_args := args; sc_stores := ss; sc_num := n |} =
  Some (Next {| sc_fmt := frest; sc_str := t; sc_args := args; sc_stores := ss; sc_num := n |}).
Proof using.
  intros Hc. destruct (plain_facts c Hc) as (H0 & Hp & Hs & _). rw /scan_step. cbn [sc_fmt sc_str]. change (cur (c :: ?l)) with (Some c). cbn [mbind option_bind]. rewrite -> (proj2 (Z.eqb_neq c 0)), Hs by done.
  change (cur (c :: ?l)) with (Some c). cbn [mbind option_bind]. change (cur (c :: ?l)) with (Some c). cbn [mbind option_bind]. rewrite -> (proj2 (Z.eqb_neq c 0)), (proj2 (Z.eqb_neq c (ch "%"))) by done. cbn [negb andb].
  rewrite -> Z.eqb_refl. cbn [negb drop]. by rewrite -> !drop_0.
Qed.

(** What is stored: the bytes of the values, at the addresses in order. *)
Definition items_stores (its : list item) (zs ptrs : list Z) : list (Z * list Z) := zip ptrs (zip_with (λ q z, le_bytes (size_bytes q) z) (sizes its) zs).

Lemma text_stops its zs r : readable its zs → match its with Conv _ _ :: _ => False | _ => True end → stops (items_text its zs ++ 0 :: r).
Proof using.
  intros Hr He. destruct its as [|[c|q k] its]; [exists 0, r; auto| |done]. destruct Hr as [Hc _]. cbn. eexists _, _. split; [done|]. by right.
Qed.

Lemma scan_items its zs ptrs fr r ss n fuel : readable its zs → length ptrs = length zs → Z.of_nat (length (items_text its zs ++ 0 :: r)) + 22 < 2 ^ 31 → (length its < fuel)%nat →
  ∃ st, loop fuel (scan_step buf) {| sc_fmt := items_fmt its ++ 0 :: fr; sc_str := items_text its zs ++ 0 :: r; sc_args := ptrs; sc_stores := ss; sc_num := n |} = Some (true, st) ∧
    sc_fmt st = 0 :: fr ∧ sc_stores st = ss ++ items_stores its zs ptrs ∧ sc_num st = n + Z.of_nat (length zs).
Proof using.
  revert zs ptrs ss n fuel. induction its as [|[c|q k] its IH]; intros zs ptrs ss n fuel Hr Hp Hlen Hf; (destruct fuel as [|fuel]; [lia|]); cbn [length] in Hf.
  - destruct zs; [|done]. destruct ptrs; [|done]. eexists. split; [reflexivity|]. cbn. rewrite -> app_nil_r, Z.add_0_r. done.
  - destruct Hr as [Hc Hr]. cbn [items_fmt map concat item_fmt items_text app] in *. fold (items_fmt its) in *. cbn [loop]. rewrite -> scan_lit by done. cbn [length] in Hlen.
    apply (IH zs ptrs ss n fuel Hr Hp); [lia|lia].
  - destruct zs as [|z zs]; [done|]. destruct ptrs as [|p ptrs]; [done|]. destruct Hr as (Hz & He & Hr). cbn [items_fmt map concat items_text] in *. fold (items_fmt its) in *. rewrite <- !app_assoc in *. cbn [loop].
    rewrite -> length_app in Hlen. rewrite -> scan_conv; [|done|by apply text_stops|apply elem_of_app; right; left|lia].
    destruct (IH zs ptrs (ss ++ [(p, le_bytes (size_bytes q) z)]) (n + 1) fuel Hr) as (st & -> & H1 & H2 & H3); [by injection Hp|lia|lia|]. exists st. split_and!; [done|done| |cbn [length]; lia].
    rewrite -> H2, <- app_assoc. done.
Qed.
End reading.

(** C34: What vsnprintf prints for a format of integer conversions and punctuation, vsscanf reads back with the same format: if the text fits the buffer, every conversion succeeds and the bytes of
    every value are stored through its argument.  The conversions are signed and unsigned decimal, octal and hexadecimal of either case, of the sizes hh, h, none, l and ll (not z and t), without
    flags, width or precision.  There is at least one character between two of them, and these characters are punctuation: neither blanks, letters or digits, nor [%] ([plain]). *)
Theorem printf_scanf_roundtrip env addr buf size its zs ptrs
    (Hits : readable its zs) (Hptrs : length ptrs = length zs) (Hsize : 0 ≤ size ≤ Z.of_nat (length buf)) (Hlen : Z.of_nat (length buf) + 22 < 2 ^ 31) (Haddr : addr + size < 2 ^ 64) :
  let fmt := items_fmt its ++ [0] in
  ∃ rest buf', vsnprintf env addr buf size fmt {| va_args := items_args its zs; va_stores := [] |} = Some (rest, buf', swrap 32 (Z.of_nat (length (items_text its zs)))) ∧
    (Z.of_nat (length (items_text its zs)) < size → vsscanf buf' fmt ptrs = Some (Z.of_nat (length zs), items_stores its zs ptrs)).
Proof.
  cbn zeta. destruct (vsnprintf_text env addr buf size (items_fmt its ++ [0]) (items_args its zs) _ Hsize ltac:(lia) Haddr (print_text (no_vaf env) its zs [] Hits)) as (rest & buf' & -> & Hl & _ & Ht). exists rest, buf'. split; [done|]. intros Hfit. specialize (Ht ltac:(lia)).
  set (t := items_text its zs) in *. rewrite -> Nat.min_l in Ht by lia. rewrite -> (take_ge t) in Ht by lia. rewrite <- (take_drop (S (length t)) buf'), Ht, <- app_assoc. cbn [app]. set (junk := drop _ _).
  assert (Z.of_nat (length (t ++ 0 :: junk)) + 22 < 2 ^ 31) as Hlt.
  { rewrite <- (take_drop (S (length t)) buf'), Ht, <- app_assoc in Hl. cbn [app] in Hl. fold junk in Hl. lia. }
  rw /vsscanf. destruct (scan_items (t ++ 0 :: junk) its zs ptrs [] junk [] 0 (length (items_fmt its ++ [0]) + 1) Hits Hptrs Hlt) as (st & E & Hf & Hs & Hn).
  { rewrite -> length_app. pose proof (items_length its). lia. }
  fold t in E. rewrite -> E. cbn [mbind option_bind]. rewrite -> Hf. change (cur [0]) with (Some 0). cbn [mbind option_bind]. change (0 =? ch "%") with false. cbn [mbind option_bind]. by rewrite -> Hs, Hn.
Qed.

(** "%d/%llx:%hho" of -7, 2^63 and 255. *)
Lemma printf_scanf_roundtrip_witness :
  let fmt := cstr "%d/%llx:%hho" in
  ∃ rest buf', vsnprintf plain_env 0 (replicate 40 7) 32 fmt {| va_args := [VInt (-7); VLong (2 ^ 63); VInt 255]; va_stores := [] |} = Some (rest, buf', 23) ∧
    vsscanf buf' fmt [100; 200; 300] = Some (3, [(100, [249; 255; 255; 255]); (200, [0; 0; 0; 0; 0; 0; 0; 128]); (300, [255])]).
Proof.
  cbn zeta.
  destruct (printf_scanf_roundtrip plain_env 0 (replicate 40 7) 32 [Conv Int Dec; Lit (ch "/"); Conv LongLong LowerHex; Lit (ch ":"); Conv Char Octal] [-7; 2 ^ 63; 255] [100; 200; 300])
    as (rest & buf' & E & H); [cbn; rw /plain; repeat split; done|done|cbn; lia|cbn; lia|lia|].
  exists rest, buf'. split; [exact E|]. apply H. by vm_compute.
Defined.
