(* ===== verification/BitmapText.v ===== *)
(** * Bitmaps as text: the printing and parsing functions of lib/bitmap.c

    A bitmap is written as groups of eight hexadecimal digits or as a list of decimal numbers and ranges.  The printers append to a buffer with scnprintf; the parsers
    read a text in the kernel, where an access behind its end is a fault, or one of a user, where [get_user] can refuse. *)
From Stdlib Require Import Ascii String.
From S2P Require Import Prelude Bitops FindBit Bitmap BitmapShift BitmapMap Ctype StringLib Vsprintf Inet.
#[local] Open Scope Z_scope.

Definition CHUNKSZ : Z := 32.
Definition nbits_to_hold_value (val : Z) : Z := fls val.
Definition EOVERFLOW : Z := 75.

(** [ALIGN] of an [int] that is not negative. *)
Definition ALIGN (x a : Z) : Z := Z.land (x + (a - 1)) (Z.lnot (a - 1)).

(** [scnprintf(buf + len, size, ...)]: the buffer and the result. *)
Definition scnprintf_at (env : fmt_env) (addr : Z) (buf : list Z) (len size : Z) (fmt : list Z) (args : list varg) : option (list Z * Z) :=
  if (len <? 0) || (Z.of_nat (length buf) <? len) then None else
  '(_, b, n) ← scnprintf env (addr + len) (drop (Z.to_nat len) buf) size fmt args;
  Some (take (Z.to_nat len) buf ++ b, n).

(** ** Hexadecimal *)

(** [empty] and [comma] are the addresses of the two separators. *)
Definition bitmap_scnprintf (env : fmt_env) (empty comma addr : Z) (buf : list Z) (buflen : Z) (maskp : list Z) (nmaskbits : Z) : option (list Z * Z) :=
  let chunksz := Z.land nmaskbits (CHUNKSZ - 1) in
  let chunksz := if chunksz =? 0 then CHUNKSZ else chunksz in
  let i := ALIGN nmaskbits CHUNKSZ - CHUNKSZ in
  loop (Z.to_nat (i / CHUNKSZ) + 2)
    (λ '(i, chunksz, sep, buf, len),
       if i <? 0 then Some (Stop (buf, len)) else
       let chunkmask := wrap 32 (Z.shiftl 1 chunksz - 1) in
       let word := i ÷ BITS_PER_LONG in
       let bit := Z.rem i BITS_PER_LONG in
       w ← rd maskp word;
       let val := Z.land (Z.shiftr w bit) chunkmask in
       '(buf, n) ← scnprintf_at env addr buf len (wrap 32 (buflen - len)) (cstr "%s%0*lx") [VLong sep; VInt ((chunksz + 3) ÷ 4); VLong val];
       Some (Next (i - CHUNKSZ, CHUNKSZ, comma, buf, swrap 32 (len + n))))
    (i, chunksz, empty, buf, 0).

(** Where a text is. *)
Inductive text_src := Kernel (buf : list Z) | User (get_user : Z → option Z).

(** [c = *buf++], or [__get_user(c, ubuf++)], which can refuse. *)
Definition fetch (src : text_src) (k : Z) : option (option Z) :=
  match src with Kernel buf => c ← rd buf k; Some (Some c) | User get_user => Some (get_user k) end.

(** The locals of the loop over a chunk; [ck_pos] counts the characters that were read. *)
Record chunk_state := { ck_pos : Z; ck_len : Z; ck_c : Z; ck_total : Z; ck_chunk : Z; ck_ndigits : Z }.

(** [while (buflen)]: an error, or the chunk. *)
Definition chunk_step (src : text_src) (k : chunk_state) : option (ctl chunk_state (Z + chunk_state)) :=
  if ck_len k =? 0 then Some (Stop (inr k)) else
  let old_c := ck_c k in
  r ← fetch src (ck_pos k);
  match r with
  | None => Some (Stop (inl (- EFAULT)))
  | Some c =>
      let k := {| ck_pos := ck_pos k + 1; ck_len := ck_len k - 1; ck_c := c; ck_total := ck_total k; ck_chunk := ck_chunk k; ck_ndigits := ck_ndigits k |} in
      if isspace c then Some (Next k) else
      if negb (ck_total k =? 0) && negb (c =? 0) && isspace old_c then Some (Stop (inl (- EINVAL))) else
      if (c =? 0) || (c =? ch ",") then Some (Stop (inr k)) else
      if negb (isxdigit c) then Some (Stop (inl (- EINVAL))) else
      if negb (Z.land (ck_chunk k) (bnot 64 (Z.shiftl 1 (CHUNKSZ - 4) - 1)) =? 0) then Some (Stop (inl (- EOVERFLOW))) else
      Some (Next {| ck_pos := ck_pos k; ck_len := ck_len k; ck_c := c; ck_total := ck_total k + 1;
                    ck_chunk := Z.lor (bshl 32 (ck_chunk k) 4) (hex_to_bin c); ck_ndigits := ck_ndigits k + 1 |})
  end.

(** The locals of the outer loop. *)
Record parse_state := { ps_at : Z; ps_left : Z; ps_c : Z; ps_totaldigits : Z; ps_nchunks : Z; ps_nbits : Z; ps_mask : list Z }.

(** A chunk goes into the mask, unless it is a leading zero: the new counts and mask, and whether the mask is too small. *)
Definition put_chunk (nmaskbits chunk : Z) (s : parse_state) : option (Z * Z * list Z * bool) :=
  if (ps_nchunks s =? 0) && (chunk =? 0) then Some (ps_nchunks s, ps_nbits s, ps_mask s, false) else
  maskp ← __bitmap_shift_left true (ps_mask s) (ps_mask s) CHUNKSZ nmaskbits;
  w ← rd maskp 0;
  maskp ← wr maskp 0 (Z.lor w chunk);
  let nchunks := ps_nchunks s + 1 in
  let nbits := ps_nbits s + (if nchunks =? 1 then nbits_to_hold_value chunk else CHUNKSZ) in
  Some (nchunks, nbits, maskp, nmaskbits <? nbits).

Definition parse_step (src : text_src) (nmaskbits : Z) (s : parse_state) : option (ctl parse_state (Z * list Z)) :=
  r ← loop (Z.to_nat (ps_left s) + 1) (chunk_step src)
        {| ck_pos := ps_at s; ck_len := ps_left s; ck_c := ps_c s; ck_total := ps_totaldigits s; ck_chunk := 0; ck_ndigits := 0 |};
  match r with
  | inl e => Some (Stop (e, ps_mask s))
  | inr k =>
      if ck_ndigits k =? 0 then Some (Stop (- EINVAL, ps_mask s)) else
      '(nchunks, nbits, maskp, over) ← put_chunk nmaskbits (ck_chunk k) s;
      if over : bool then Some (Stop (- EOVERFLOW, maskp)) else
      if negb (ck_len k =? 0) && (ck_c k =? ch ",")
      then Some (Next {| ps_at := ck_pos k; ps_left := ck_len k; ps_c := ck_c k; ps_totaldigits := ck_total k; ps_nchunks := nchunks; ps_nbits := nbits; ps_mask := maskp |})
      else Some (Stop (0, maskp))
  end.

(** The result and the bitmap. *)
Definition __bitmap_parse (src : text_src) (buflen : Z) (maskp : list Z) (nmaskbits : Z) : option (Z * list Z) :=
  maskp ← bitmap_zero maskp nmaskbits;
  loop (Z.to_nat buflen + 1) (parse_step src nmaskbits)
    {| ps_at := 0; ps_left := buflen; ps_c := 0; ps_totaldigits := 0; ps_nchunks := 0; ps_nbits := 0; ps_mask := maskp |}.

Definition bitmap_parse (buf : list Z) (buflen : Z) (maskp : list Z) (nmaskbits : Z) : option (Z * list Z) := __bitmap_parse (Kernel buf) buflen maskp nmaskbits.

(** [access_ok] is what the check of the range of addresses says. *)
Definition bitmap_parse_user (access_ok : bool) (get_user : Z → option Z) (ulen : Z) (maskp : list Z) (nmaskbits : Z) : option (Z * list Z) :=
  if negb access_ok then Some (- EFAULT, maskp) else __bitmap_parse (User get_user) ulen maskp nmaskbits.

(** ** Lists *)

Definition bscnl_emit (env : fmt_env) (addr : Z) (buf : list Z) (buflen rbot rtop len : Z) : option (list Z * Z) :=
  '(buf, len) ← (if 0 <? len then '(buf, n) ← scnprintf_at env addr buf len (wrap 64 (buflen - len)) (cstr ",") []; Some (buf, len + n) else Some (buf, len));
  '(buf, n) ← (if rbot =? rtop then scnprintf_at env addr buf len (wrap 64 (buflen - len)) (cstr "%d") [VInt rbot]
               else scnprintf_at env addr buf len (wrap 64 (buflen - len)) (cstr "%d-%d") [VInt rbot; VInt rtop]);
  Some (buf, len + n).

Definition bitmap_scnlistprintf (env : fmt_env) (addr : Z) (buf : list Z) (buflen : Z) (maskp : list Z) (nmaskbits : Z) : option (list Z * Z) :=
  if buflen =? 0 then Some (buf, 0) else
  buf ← wr buf 0 0;
  cur ← find_first_bit maskp nmaskbits;
  loop (Z.to_nat nmaskbits + 1)
    (λ '(cur, rbot, buf, len),
       if negb (cur <? nmaskbits) then Some (Stop (buf, len)) else
       let rtop := cur in
       cur ← find_next_bit maskp nmaskbits (cur + 1);
       if (nmaskbits <=? cur) || (rtop + 1 <? cur) then
         '(buf, len) ← bscnl_emit env addr buf (swrap 32 buflen) rbot rtop len;
         Some (Next (cur, cur, buf, len))
       else Some (Next (cur, rbot, buf, len)))
    (cur, cur, buf, 0).

(** The locals of the loop over a number or a range. *)
Record range_state := { rg_pos : Z; rg_len : Z; rg_c : Z; rg_total : Z; rg_a : Z; rg_b : Z; rg_exp : bool; rg_in : bool }.

(** [while (buflen)]: an error, or the range. *)
Definition range_step (src : text_src) (k : range_state) : option (ctl range_state (Z + range_state)) :=
  if rg_len k =? 0 then Some (Stop (inr k)) else
  let old_c := rg_c k in
  r ← fetch src (rg_pos k);
  match r with
  | None => Some (Stop (inl (- EFAULT)))
  | Some c =>
      let k := {| rg_pos := rg_pos k + 1; rg_len := rg_len k - 1; rg_c := c; rg_total := rg_total k; rg_a := rg_a k; rg_b := rg_b k; rg_exp := rg_exp k; rg_in := rg_in k |} in
      if isspace c then Some (Next k) else
      if negb (rg_total k =? 0) && negb (c =? 0) && isspace old_c then Some (Stop (inl (- EINVAL))) else
      if (c =? 0) || (c =? ch ",") then Some (Stop (inr k)) else
      if c =? ch "-" then
        if rg_exp k || rg_in k then Some (Stop (inl (- EINVAL))) else
        Some (Next {| rg_pos := rg_pos k; rg_len := rg_len k; rg_c := c; rg_total := rg_total k; rg_a := rg_a k; rg_b := 0; rg_exp := true; rg_in := true |})
      else if negb (isdigit c) then Some (Stop (inl (- EINVAL))) else
        let b := wrap 32 (rg_b k * 10 + (c - ch "0")) in
        Some (Next {| rg_pos := rg_pos k; rg_len := rg_len k; rg_c := c; rg_total := rg_total k + 1; rg_a := if negb (rg_in k) then b else rg_a k; rg_b := b; rg_exp := false; rg_in := rg_in k |})
  end.

(** [while (a <= b) { set_bit(a, maskp); a++; }]. *)
Definition set_range (a b : Z) (maskp : list Z) : option (list Z) := for_each (Z.to_nat (b - a + 1)) a set_bit maskp.

Definition list_step (src : text_src) (nmaskbits : Z) : Z * Z * Z * Z * list Z → option (ctl (Z * Z * Z * Z * list Z) (Z * list Z)) :=
  λ '(pos, buflen, c, totaldigits, maskp),
    r ← loop (Z.to_nat buflen + 1) (range_step src)
          {| rg_pos := pos; rg_len := buflen; rg_c := c; rg_total := totaldigits; rg_a := 0; rg_b := 0; rg_exp := true; rg_in := false |};
    match r with
    | inl e => Some (Stop (e, maskp))
    | inr k =>
        if negb (rg_a k <=? rg_b k) then Some (Stop (- EINVAL, maskp)) else
        if wrap 32 nmaskbits <=? rg_b k then Some (Stop (- ERANGE, maskp)) else
        maskp ← set_range (rg_a k) (rg_b k) maskp;
        if negb (rg_len k =? 0) && (rg_c k =? ch ",") then Some (Next (rg_pos k, rg_len k, rg_c k, rg_total k, maskp)) else Some (Stop (0, maskp))
    end.

Definition __bitmap_parselist (src : text_src) (buflen : Z) (maskp : list Z) (nmaskbits : Z) : option (Z * list Z) :=
  maskp ← bitmap_zero maskp nmaskbits;
  loop (Z.to_nat buflen + 1) (list_step src nmaskbits) (0, buflen, 0, 0, maskp).

Definition bitmap_parselist (bp maskp : list Z) (nmaskbits : Z) : option (Z * list Z) :=
  nl ← strchr bp 10;
  len ← (match nl with Some nl => Some nl | None => strlen bp end);
  __bitmap_parselist (Kernel bp) (swrap 32 len) maskp nmaskbits.

Definition bitmap_parselist_user (access_ok : bool) (get_user : Z → option Z) (ulen : Z) (maskp : list Z) (nmaskbits : Z) : option (Z * list Z) :=
  if negb access_ok then Some (- EFAULT, maskp) else __bitmap_parselist (User get_user) ulen maskp nmaskbits.

(** ** Examples *)

Definition sep_env : fmt_env := {| fe_mem := λ p, if p =? 5000 then Some [0] else if p =? 6000 then Some [44; 0] else None; fe_kallsyms := None; fe_in_interrupt := false; fe_kptr_restrict := 0; fe_cap_syslog := false; fe_vaf := λ _ _ _, None |}.

Example bitmap_text_demo :
  ('(b, n) ← bitmap_scnprintf sep_env 5000 6000 0x10000 (replicate 30 7) 30 [0xf00000001; 0x5] 70; Some (take (Z.to_nat n + 1) b)) = Some (cstr "05,0000000f,00000001") ∧
  ('(b, n) ← bitmap_scnlistprintf sep_env 0x10000 (replicate 30 7) 30 [0xf00000001; 0x5] 70; Some (take (Z.to_nat n + 1) b)) = Some (cstr "0,32-35,64,66") ∧
  __bitmap_parse (Kernel (cstr "05,0000000f,00000001")) 20 [1; 1] 70 = Some (0, [0xf00000001; 0x5]) ∧
  bitmap_parselist (cstr " 0,32-35,64,66") [1; 1] 70 = Some (0, [0xf00000001; 0x5]) ∧
  bitmap_parselist (cstr "5-3") [1; 1] 70 = Some (- EINVAL, [0; 0]) ∧ bitmap_parselist (cstr "70") [1; 1] 70 = Some (- ERANGE, [0; 0]).
Proof. vm_compute. split_and!; reflexivity. Qed.

(** A text without a number stands for bit 0, and a number that does not fit 32 bits is taken modulo 2^32. *)
Example parselist_surprises : bitmap_parselist (cstr "") [0; 0] 70 = Some (0, [1; 0]) ∧ bitmap_parselist (cstr "3,") [0; 0] 70 = Some (0, [8; 0]) ∧ bitmap_parselist (cstr "4294967298") [0; 0] 70 = Some (0, [4; 0]).
Proof. vm_compute. split_and!; reflexivity. Qed.
