(* ===== verification/BitmapTextList.v ===== *)
(** * Bitmaps as text: lists of numbers and ranges

    What a list of ranges looks like as text, that the parser reads such a text, and that the printer writes the text of the runs of a bitmap. *)
From Stdlib Require Import Ascii String.
From S2P Require Import Prelude Bitops FindBit Bitmap BitmapShift BitmapMap BitmapLaws Ctype Kstrtox NumPrint StringLib Vsprintf VsprintfText VsprintfNumber VsprintfScanRoundtrip Inet BitmapText.
#[local] Open Scope Z_scope.

(** ** Texts *)

Definition range_text '((a, b) : Z * Z) : list Z := if a =? b then num_text Dec a else num_text Dec a ++ ch "-" :: num_text Dec b.

Fixpoint list_text (rs : list (Z * Z)) : list Z :=
  match rs with [] => [] | r :: rs => range_text r ++ match rs with [] => [] | _ => ch "," :: list_text rs end end.

(** The numbers of a list of ranges. *)
Definition in_ranges (rs : list (Z * Z)) (i : Z) : bool := existsb (λ '(a, b), (a <=? i) && (i <=? b)) rs.

(** Ranges of bit numbers. *)
Definition ranges_ok (n : Z) (rs : list (Z * Z)) : Prop := Forall (λ '(a, b), 0 ≤ a ≤ b ∧ b < n) rs.

(** A text at a position of the source. *)
Definition src_at (src : text_src) (pos : Z) (t : list Z) : Prop := ∀ i c, t !! i = Some c → fetch src (pos + Z.of_nat i) = Some (Some c).

Lemma src_at_cons src pos c t : src_at src pos (c :: t) → fetch src pos = Some (Some c) ∧ src_at src (pos + 1) t.
Proof. intros H. split; [rewrite <- (H 0%nat c eq_refl); f_equal; lia|]. intros i x Hi. rewrite <- (H (S i) x Hi). f_equal. lia. Qed.

Lemma src_at_app src pos t t' : src_at src pos (t ++ t') → src_at src pos t ∧ src_at src (pos + Z.of_nat (length t)) t'.
Proof.
  intros H. split; intros i x Hi; [apply H; by apply lookup_app_l_Some|]. rewrite <- (H (length t + i)%nat x); [f_equal; lia|]. rewrite -> lookup_app_r by lia. by replace (length t + i - length t)%nat with i by lia.
Qed.

Lemma src_at_kernel t r : src_at (Kernel (t ++ r)) 0 t.
Proof.
  intros i c Hi. cbn [fetch]. assert (rd (t ++ r) (0 + Z.of_nat i) = Some c) as ->; [|done]. apply rd_Some. split; [lia|]. replace (Z.to_nat (0 + Z.of_nat i)) with i by lia. by apply lookup_app_l_Some.
Qed.

(** ** Words of a bitmap *)

(** Nothing but the words of the bitmap changed. *)
Definition frame (n : Z) (m m' : list Z) : Prop := length m' = length m ∧ words m' ∧ ∀ i, 64 * BITS_TO_LONGS n ≤ i → bitat m' i = bitat m i.

Lemma frame_ok n m m' : bitmap_ok m n → frame n m m' → bitmap_ok m' n.
Proof. intros [_ Hc] (Hl & Hw & _). split; [done|]. rw /covers. by rewrite -> Hl. Qed.

Lemma frame_trans n m m' m'' : frame n m m' → frame n m' m'' → frame n m m''.
Proof. intros (H1 & H2 & H3) (H4 & H5 & H6). split; [congruence|]. split; [done|]. intros i Hi. by rewrite -> H6, H3. Qed.

Lemma zero_frame m n : bitmap_ok m n → ∃ d, bitmap_zero m n = Some d ∧ frame n m d ∧ ∀ i, 0 ≤ i < 64 * BITS_TO_LONGS n → bitat d i = false.
Proof.
  intros [Hw Hc]. pose proof (covers_longs _ _ Hc) as HL. destruct (clear_words_spec (λ _, false) m 0 (BITS_TO_LONGS n)) as (d & E & Hl & Hwd & Hb); [done|lia|lia|lia|done|].
  exists d. split; [done|]. split; [split_and!; try done|]; intros i Hi; rewrite -> Hb by lia; by ztest.
Qed.

(** ** Reading a number *)

Notation dec_char := (λ d, digit_ref d 0).

Lemma dec_char_facts d : 0 ≤ d < 10 → dec_char d - ch "0" = d ∧ isspace (dec_char d) = false ∧ (dec_char d =? 0) = false ∧ (dec_char d =? ch ",") = false ∧ (dec_char d =? ch "-") = false ∧ isdigit (dec_char d) = true.
Proof. intros Hd. assert (d ∈ seqZ 0 10) as Hin by (apply elem_of_seqZ; lia). clear Hd. revert d Hin. apply Forall_forall. apply (bool_decide_unpack _). vm_compute. exact I. Qed.

(** The digits of a number that is not negative. *)
Lemma dec_digits z : 0 ≤ z < 2 ^ 31 → ∃ ds, num_text Dec z = map dec_char ds ∧ Forall (λ d, 0 ≤ d < 10) ds ∧ ds ≠ [] ∧ value 10 ds = z.
Proof.
  intros Hz. exists (rev (vals_rev 22 10 z)). destruct (vals_ok 10 z ltac:(auto) ltac:(split; lia)) as (H1 & H2 & H3 & _). split_and!; try done.
  rw /num_text. rewrite -> (proj2 (Z.ltb_ge z 0)) by lia. cbn [app letter_base letter_case]. rw /digits_of. rewrite -> Z.abs_eq, digits_vals, <- map_rev by lia. done.
Qed.

Lemma range_text_length a b : 0 ≤ a < 2 ^ 31 → (1 ≤ length (range_text (a, b)))%nat.
Proof. intros Ha. destruct (dec_digits a Ha) as (ds & E & _ & Hds & _). cbn [range_text]. destruct (a =? b); rewrite -> ?length_app, E, length_map; destruct ds; done || (cbn [length]; lia). Qed.

Lemma list_text_length n rs : n ≤ 2 ^ 31 → ranges_ok n rs → (length rs ≤ length (list_text rs))%nat.
Proof.
  intros Hn Hok. induction Hok as [|[a b] rs [Ha Hb] Hok IH]; [done|]. pose proof (range_text_length a b ltac:(lia)) as H1. cbn [list_text]. rewrite -> length_app. destruct rs; cbn [length] in *; lia.
Qed.

Notation add_digits := (foldl (λ v d, v * 10 + d)).

Lemma add_digits_ge ds v : Forall (λ d, 0 ≤ d < 10) ds → 0 ≤ v → v ≤ add_digits v ds.
Proof. intros Hds. revert v. induction Hds as [|d ds Hd _ IH]; intros v Hv; cbn [foldl]; [lia|]. specialize (IH (v * 10 + d)). lia. Qed.

Section reading.
Context (src : text_src).

Lemma range_digit d k : 0 ≤ d < 10 → fetch src (rg_pos k) = Some (Some (dec_char d)) → 0 < rg_len k → isspace (rg_c k) = false → 0 ≤ rg_b k * 10 + d < 2 ^ 32 →
  range_step src k = Some (Next {| rg_pos := rg_pos k + 1; rg_len := rg_len k - 1; rg_c := dec_char d; rg_total := rg_total k + 1; rg_a := if rg_in k then rg_a k else rg_b k * 10 + d;
    rg_b := rg_b k * 10 + d; rg_exp := false; rg_in := rg_in k |}).
Proof using.
  intros Hd Hf Hl Hs Hv. destruct (dec_char_facts d Hd) as (Ed & E1 & E2 & E3 & E4 & E5). rw /range_step. rewrite -> (proj2 (Z.eqb_neq (rg_len k) 0)), Hf by lia.
  cbn [mbind option_bind rg_total rg_b rg_in rg_pos rg_len rg_a rg_exp]. rewrite -> E1, Hs, andb_false_r, E2, E3, E4, E5, Ed, wrap_small by done. cbn [orb negb]. by destruct (rg_in k).
Qed.

Lemma range_digits ds k n : Forall (λ d, 0 ≤ d < 10) ds → ds ≠ [] → src_at src (rg_pos k) (map dec_char ds) → Z.of_nat (length ds) ≤ rg_len k → isspace (rg_c k) = false → 0 ≤ rg_b k → add_digits (rg_b k) ds < 2 ^ 32 →
  ∃ c, isspace c = false ∧ loop (length ds + n) (range_step src) k =
    loop n (range_step src) {| rg_pos := rg_pos k + Z.of_nat (length ds); rg_len := rg_len k - Z.of_nat (length ds); rg_c := c; rg_total := rg_total k + Z.of_nat (length ds);
      rg_a := if rg_in k then rg_a k else add_digits (rg_b k) ds; rg_b := add_digits (rg_b k) ds; rg_exp := false; rg_in := rg_in k |}.
Proof using.
  intros Hds. revert k. induction Hds as [|d ds Hd Hds IH]; intros k Hne Hat Hl Hs Hb Hv; [done|]. cbn [length] in Hl. cbn [map] in Hat. apply src_at_cons in Hat as [Hf Hat].
  cbn [length Nat.add loop foldl] in *. pose proof (add_digits_ge ds (rg_b k * 10 + d) Hds ltac:(lia)) as Hge. rewrite -> (range_digit d k) by (done || lia). destruct (dec_char_facts d Hd) as (_ & E1 & _).
  destruct ds as [|d' ds].
  - exists (dec_char d). split; [done|]. by destruct (rg_in k).
  - destruct (IH {| rg_pos := rg_pos k + 1; rg_len := rg_len k - 1; rg_c := dec_char d; rg_total := rg_total k + 1; rg_a := if rg_in k then rg_a k else rg_b k * 10 + d;
      rg_b := rg_b k * 10 + d; rg_exp := false; rg_in := rg_in k |} ltac:(done) Hat) as (c & Hc & E); [cbn [rg_len]; lia|done|cbn [rg_b]; lia|done|].
    exists c. split; [done|]. rewrite -> E. cbn [rg_pos rg_len rg_total rg_a rg_b rg_in]. do 2 f_equal; [lia|lia|lia|]. by destruct (rg_in k).
Qed.

(** A number of the text. *)
Lemma range_number z k n : 0 ≤ z < 2 ^ 31 → src_at src (rg_pos k) (num_text Dec z) → Z.of_nat (length (num_text Dec z)) ≤ rg_len k → isspace (rg_c k) = false → rg_b k = 0 →
  ∃ c, isspace c = false ∧ loop (length (num_text Dec z) + n) (range_step src) k =
    loop n (range_step src) {| rg_pos := rg_pos k + Z.of_nat (length (num_text Dec z)); rg_len := rg_len k - Z.of_nat (length (num_text Dec z)); rg_c := c;
      rg_total := rg_total k + Z.of_nat (length (num_text Dec z)); rg_a := if rg_in k then rg_a k else z; rg_b := z; rg_exp := false; rg_in := rg_in k |}.
Proof using.
  intros Hz. destruct (dec_digits z Hz) as (ds & -> & Hds & Hne & Hval). rewrite -> length_map. rw /value in Hval. intros Hat Hl Hs Hb.
  destruct (range_digits ds k n Hds Hne Hat Hl Hs) as (c & Hc & E); [lia|rewrite -> Hb; lia|]. exists c. split; [done|]. rewrite -> E, Hb, Hval. done.
Qed.

Lemma range_dash k : fetch src (rg_pos k) = Some (Some (ch "-")) → 0 < rg_len k → isspace (rg_c k) = false → rg_exp k = false → rg_in k = false →
  range_step src k = Some (Next {| rg_pos := rg_pos k + 1; rg_len := rg_len k - 1; rg_c := ch "-"; rg_total := rg_total k; rg_a := rg_a k; rg_b := 0; rg_exp := true; rg_in := true |}).
Proof using.
  intros Hf Hl Hs He Hi. rw /range_step. rewrite -> (proj2 (Z.eqb_neq (rg_len k) 0)), Hf by lia. cbn [mbind option_bind rg_total rg_b rg_in rg_pos rg_len rg_a rg_exp].
  change (isspace (ch "-")) with false. rewrite -> Hs, andb_false_r, He, Hi. done.
Qed.

(** The digits of a range. *)
Lemma range_body a b k n : 0 ≤ a < 2 ^ 31 → 0 ≤ b < 2 ^ 31 → src_at src (rg_pos k) (range_text (a, b)) → Z.of_nat (length (range_text (a, b))) ≤ rg_len k → isspace (rg_c k) = false →
  rg_b k = 0 → rg_in k = false → ∃ k', loop (length (range_text (a, b)) + n) (range_step src) k = loop n (range_step src) k' ∧
    rg_pos k' = rg_pos k + Z.of_nat (length (range_text (a, b))) ∧ rg_len k' = rg_len k - Z.of_nat (length (range_text (a, b))) ∧ isspace (rg_c k') = false ∧ rg_a k' = a ∧ rg_b k' = b.
Proof using.
  intros Ha Hb Hat Hl Hs H0 Hi. cbn [range_text] in *. destruct (Z.eqb_spec a b) as [->|Hab].
  - destruct (range_number b k n Hb Hat Hl Hs H0) as (c & Hc & E). eexists. split; [exact E|]. cbn. rewrite -> Hi. done.
  - apply src_at_app in Hat as [Hat Hat']. apply src_at_cons in Hat' as [Hf Hat']. rewrite -> length_app in *. cbn [length] in *.
    destruct (range_number a k (S (length (num_text Dec b)) + n) Ha Hat ltac:(lia) Hs H0) as (c & Hc & E). rewrite -> Nat.add_assoc in E. rewrite -> E. cbn [Nat.add loop].
    rewrite -> range_dash by (done || cbn; lia). cbn [rg_pos rg_len rg_total rg_a].
    match goal with |- context [loop _ _ ?s] => destruct (range_number b s n Hb) as (c' & Hc' & E') end; cbn [rg_pos rg_len rg_c rg_b]; [done|lia|done|done|].
    rewrite -> E'. eexists. split; [done|]. cbn. rewrite -> Hi. split_and!; [lia|lia|done|done|done].
Qed.

(** A range of the text, with what ends it. *)
Lemma range_end k n : (rg_len k = 0 ∨ 0 < rg_len k ∧ isspace (rg_c k) = false ∧ ∃ c, fetch src (rg_pos k) = Some (Some c) ∧ (c = ch "," ∨ c = 0)) →
  ∃ k', loop (S n) (range_step src) k = Some (inr k') ∧ rg_a k' = rg_a k ∧ rg_b k' = rg_b k ∧
    (rg_len k = 0 ∧ rg_len k' = 0 ∨ 0 < rg_len k ∧ rg_len k' = rg_len k - 1 ∧ rg_pos k' = rg_pos k + 1 ∧ fetch src (rg_pos k) = Some (Some (rg_c k'))).
Proof using.
  intros [H0|(Hl & Hs & c & Hf & Hc)]; cbn [loop]; rw /range_step.
  - rewrite -> H0. exists k. split_and!; try done. by left.
  - rewrite -> (proj2 (Z.eqb_neq (rg_len k) 0)), Hf by lia. cbn [mbind option_bind]. assert (isspace c = false ∧ (c =? 0) || (c =? ch ",") = true) as [E1 E2] by (by destruct Hc as [-> | ->]).
    rewrite -> E1, Hs, andb_false_r, E2. cbn. eexists. split; [done|]. cbn. split_and!; try done. by right.
Qed.
End reading.

(** ** Reading a list *)

Lemma set_range_spec a b m : words m → 0 ≤ a ≤ b → b < 64 * Z.of_nat (length m) →
  ∃ m', set_range a b m = Some m' ∧ length m' = length m ∧ words m' ∧ ∀ i, 0 ≤ i → bitat m' i = (a <=? i) && (i <=? b) || bitat m i.
Proof.
  intros Hw Hab Hb. rw /set_range.
  destruct (for_each_inv (λ k m', length m' = length m ∧ words m' ∧ ∀ i, 0 ≤ i → bitat m' i = (a <=? i) && (i <? k) || bitat m i) (Z.to_nat (b - a + 1)) a set_bit m) as (m' & E & Hl & Hw' & Hm').
  - split_and!; try done. intros i Hi. destruct (Z.leb_spec a i), (Z.ltb_spec i a); done || lia.
  - intros j m1 Hj (Hl1 & Hw1 & Hm1). destruct (set_bit_spec j m1 Hw1 ltac:(lia)) as (m2 & E & Hl2 & Hw2 & Hm2). exists m2. split; [done|]. split; [congruence|]. split; [done|].
    intros i Hi. rewrite -> Hm2, Hm1, orb_assoc by done. f_equal. destruct (Z.eqb_spec i j), (Z.leb_spec a i), (Z.ltb_spec i j), (Z.ltb_spec i (j + 1)); done || lia.
  - exists m'. split_and!; try done. intros i Hi. rewrite -> Hm' by done. do 2 f_equal. destruct (Z.ltb_spec i (a + Z.of_nat (Z.to_nat (b - a + 1)))), (Z.leb_spec i b); done || lia.
Qed.

(** A text of [len] characters at [pos] ends there: the buffer does, or a zero byte follows. *)
Definition text_ends (src : text_src) (pos len left : Z) : Prop := left = len ∨ len < left ∧ fetch src (pos + len) = Some (Some 0).

Section lists.
Context (src : text_src) (n : Z) (Hn : 0 ≤ n < 2 ^ 31).

(** One range. *)
Lemma list_step_range a b t pos left c total m : 0 ≤ a ≤ b → b < n → src_at src pos (range_text (a, b) ++ t) →
  (t = [] ∧ text_ends src pos (Z.of_nat (length (range_text (a, b)))) left ∨ (∃ t', t = ch "," :: t') ∧ Z.of_nat (length (range_text (a, b))) + 1 < left) →
  isspace c = false → words m → covers m n →
  ∃ m', length m' = length m ∧ words m' ∧ (∀ i, 0 ≤ i → bitat m' i = (a <=? i) && (i <=? b) || bitat m i) ∧
    match t with
    | [] => list_step src n (pos, left, c, total, m) = Some (Stop (0, m'))
    | _ => ∃ total', list_step src n (pos, left, c, total, m) = Some (Next (pos + Z.of_nat (length (range_text (a, b))) + 1, left - Z.of_nat (length (range_text (a, b))) - 1, ch ",", total', m'))
    end.
Proof using Hn.
  intros Hab Hb Hat Hend Hc Hw [[_ Hcov] _]. destruct (set_range_spec a b m Hw Hab ltac:(lia)) as (m' & Em & Hl & Hw' & Hm'). exists m'. split_and!; try done.
  apply src_at_app in Hat as [Hat Ht]. set (L := Z.of_nat (length (range_text (a, b)))) in *. rw /list_step.
  assert (L ≤ left) as HL by (destruct Hend as [[_ [?|[? _]]]|[_ ?]]; lia).
  replace (Z.to_nat left + 1)%nat with (length (range_text (a, b)) + S (Z.to_nat (left - L)))%nat by (rw /L; lia).
  match goal with |- context [loop _ _ ?s] => destruct (range_body src a b s (S (Z.to_nat (left - L))) ltac:(lia) ltac:(lia) Hat ltac:(cbn [rg_len]; lia) Hc eq_refl eq_refl) as (k & -> & Hpos & Hlen & Hsp & Ha & Hb') end.
  cbn [rg_pos rg_len] in Hpos, Hlen. fold L in Hpos, Hlen. destruct (range_end src k (Z.to_nat (left - L))) as (k' & -> & Ea & Eb & Hk).
  { rewrite -> Hpos, Hlen. destruct Hend as [[-> [->|[? Hf]]]|[[t' ->] Hlt]]; [left; lia|right; split_and!; [lia|done|exists 0; auto]|]. apply src_at_cons in Ht as [Hf _]. right. split_and!; [lia|done|by eauto]. }
  cbn [mbind option_bind]. rewrite -> Ea, Eb, Ha, Hb', wrap_small by (split; lia). rewrite -> (proj2 (Z.leb_le a b)), (proj2 (Z.leb_gt n b)) by lia. cbn [negb]. rewrite -> Em. cbn [mbind option_bind].
  destruct Hend as [[-> Hend]|[[t' ->] Hlt]].
  - destruct Hk as [(_ & ->)|(Hk & _ & _ & Hf)]; [done|]. destruct Hend as [->|[_ Hf']]; [lia|]. rewrite -> Hpos, Hf' in Hf. injection Hf as <-. by rewrite -> andb_false_r.
  - apply src_at_cons in Ht as [Hf' _]. destruct Hk as [(? & _)|(Hk & -> & -> & Hf)]; [lia|]. rewrite -> Hpos, Hf' in Hf. injection Hf as <-. exists (rg_total k').
    rewrite -> Hpos, Hlen, (proj2 (Z.eqb_neq _ 0)) by lia. done.
Qed.

Lemma list_read rs : rs ≠ [] → ranges_ok n rs → ∀ pos left c total m fuel, src_at src pos (list_text rs) → text_ends src pos (Z.of_nat (length (list_text rs))) left →
  isspace c = false → words m → covers m n → (length rs ≤ fuel)%nat →
  ∃ m', loop fuel (list_step src n) (pos, left, c, total, m) = Some (0, m') ∧ length m' = length m ∧ words m' ∧ ∀ i, 0 ≤ i → bitat m' i = in_ranges rs i || bitat m i.
Proof using Hn.
  intros Hne Hok. induction Hok as [|[a b] rs [Hab Hb] Hok IH]; [done|]. intros pos left c total m fuel Hat Hend Hc Hw Hcov Hf. cbn [length] in Hf. destruct fuel as [|fuel]; [lia|].
  destruct rs as [|r rs].
  - cbn [list_text] in *. destruct (list_step_range a b [] pos left c total m Hab Hb Hat) as (m' & Hl & Hw' & Hm' & E); [left; by rewrite -> app_nil_r in Hend|done|done|done|].
    exists m'. cbn [loop]. rewrite -> E. split_and!; try done. intros i Hi. rewrite -> Hm' by done. cbn. by rewrite -> orb_false_r.
  - set (rest := list_text (r :: rs)) in *. change (list_text ((a, b) :: r :: rs)) with (range_text (a, b) ++ ch "," :: rest) in *. rewrite -> length_app in Hend. cbn [length] in Hend.
    assert (0 < Z.of_nat (length rest)) as Hpos.
    { pose proof (list_text_length n (r :: rs) ltac:(lia) Hok) as H. subst rest. cbn [length] in H. lia. }
    destruct (list_step_range a b (ch "," :: rest) pos left c total m Hab Hb Hat) as (m1 & Hl & Hw1 & Hm1 & total' & E); [right; split; [by eauto|destruct Hend as [?|[? _]]; lia]|done|done|done|].
    cbn [loop]. rewrite -> E. apply src_at_app in Hat as [_ Hat]. apply src_at_cons in Hat as [_ Hat].
    destruct (IH ltac:(done) (pos + Z.of_nat (length (range_text (a, b))) + 1) (left - Z.of_nat (length (range_text (a, b))) - 1) (ch ",") total' m1 fuel) as (m' & -> & Hl' & Hw' & Hm').
    + exact Hat.
    + destruct Hend as [->|[Hlt Hf0]]; [left; lia|right; split; [lia|]]. rewrite <- Hf0. f_equal. lia.
    + done.
    + done.
    + rw /covers. rewrite -> Hl. exact Hcov.
    + lia.
    + exists m'. split_and!; [done|congruence|done|]. intros i Hi. rewrite -> Hm', Hm1, orb_assoc by done. f_equal. change (in_ranges ((a, b) :: r :: rs) i) with ((a <=? i) && (i <=? b) || in_ranges (r :: rs) i). apply orb_comm.
Qed.

(** The text of a list of ranges is read as their numbers. *)
Lemma parselist_text rs m left : rs ≠ [] → ranges_ok n rs → src_at src 0 (list_text rs) → text_ends src 0 (Z.of_nat (length (list_text rs))) left → bitmap_ok m n →
  ∃ m', __bitmap_parselist src left m n = Some (0, m') ∧ bitmap_ok m' n ∧ length m' = length m ∧ ∀ i, 0 ≤ i < n → bitat m' i = in_ranges rs i.
Proof using Hn.
  intros Hne Hok Hat Hend [Hw Hcov]. rw /__bitmap_parselist. destruct (bitmap_zero_spec m n Hw Hcov) as (d & -> & Hl & Hwd & Hd). cbn [mbind option_bind].
  pose proof (list_text_length n rs ltac:(lia) Hok) as Hlen.
  destruct (list_read rs Hne Hok 0 left 0 0 d (Z.to_nat left + 1)%nat Hat Hend eq_refl Hwd) as (m' & -> & Hl' & Hw' & Hm').
  - rw /covers. by rewrite -> Hl.
  - destruct Hend as [->|[? _]]; lia.
  - exists m'. split; [done|]. split; [split; [done|]; rw /covers; by rewrite -> Hl', Hl|]. split; [congruence|]. intros i Hi. rewrite -> Hm', Hd, orb_false_r by lia. done.
Qed.
End lists.
