(* ===== verification/BitmapTextPrint.v ===== *)
(** * Bitmaps as text: the printers

    A printer appends pieces with scnprintf.  Whatever the size of the buffer, it holds the beginning of the whole text. *)
From Stdlib Require Import Ascii String.
From S2P Require Import Prelude Bitops FindBit Bitmap BitmapShift BitmapMap BitmapLaws Ctype Kstrtox NumPrint StringLib Vsprintf VsprintfText VsprintfNumber VsprintfScanRoundtrip Inet BitmapText BitmapTextList.
#[local] Open Scope Z_scope.

(** ** Pieces *)

(** The buffer holds the first [L] characters of a text and what it held behind them; there is a zero byte between them. *)
Definition begins (L : nat) (buf0 buf T : list Z) : Prop := length buf = length buf0 ∧ drop (S L) buf = drop (S L) buf0 ∧ take (Nat.min (length T) L) buf = take L T.
Definition holds (L : nat) (buf0 buf T : list Z) : Prop :=
  length buf = length buf0 ∧ drop (S L) buf = drop (S L) buf0 ∧ take (S (Nat.min (length T) L)) buf = take L T ++ [0].

Lemma holds_begins L buf0 buf T : holds L buf0 buf T → begins L buf0 buf T.
Proof.
  intros (Hl & Hd & Ht). split; [done|]. split; [done|]. set (n := Nat.min (length T) L) in *. apply (f_equal (take n)) in Ht. rewrite -> take_take, Nat.min_l in Ht by lia.
  rewrite -> Ht, take_app_le by (rewrite -> length_take; lia). rewrite -> take_ge; [done|]. rewrite -> length_take. lia.
Qed.

Lemma list_text_snoc rs r : rs ≠ [] → list_text (rs ++ [r]) = list_text rs ++ ch "," :: range_text r.
Proof.
  induction rs as [|r0 [|r1 rs] IH]; intros Hne; [done|cbn [app list_text]; by rewrite -> !app_nil_r|]. specialize (IH ltac:(done)).
  change (list_text ((r0 :: r1 :: rs) ++ [r])) with (range_text r0 ++ ch "," :: list_text ((r1 :: rs) ++ [r])). rewrite -> IH. change (list_text (r0 :: r1 :: rs)) with (range_text r0 ++ ch "," :: list_text (r1 :: rs)). by rewrite <- app_assoc.
Qed.

Lemma num_text_length k z : (length (num_text k z) ≤ 23)%nat.
Proof. rw /num_text /digits_of. rewrite -> length_app, length_rev. pose proof (digits_rev_length 22 (letter_base k) (letter_case k) (Z.abs z)). destruct (z <? 0); cbn [length]; lia. Qed.

(** Ranges from [lo] on, in order, with a gap between any two. *)
Fixpoint runs_from (lo : Z) (rs : list (Z * Z)) : Prop := match rs with [] => True | (a, b) :: rs => lo ≤ a ≤ b ∧ runs_from (b + 2) rs end.

Lemma runs_snoc lo rs a b : runs_from lo rs → Forall (λ r, r.2 + 1 < a) rs → lo ≤ a ≤ b → runs_from lo (rs ++ [(a, b)]).
Proof. revert lo. induction rs as [|[a' b'] rs IH]; intros lo Hr Hf Hab; [done|]. apply Forall_cons in Hf as [Hb' Hf]. cbn in Hb'. destruct Hr as [Ha Hr]. split; [done|]. apply IH; [done|done|lia]. Qed.

(** The runs of a set of numbers below [n]. *)
Definition runs_of (f : Z → bool) (n : Z) (rs : list (Z * Z)) : Prop := runs_from 0 rs ∧ ranges_ok n rs ∧ ∀ i, 0 ≤ i < n → f i = in_ranges rs i.

Lemma in_ranges_snoc rs a b i : in_ranges (rs ++ [(a, b)]) i = in_ranges rs i || (a <=? i) && (i <=? b).
Proof. rw /in_ranges. rewrite -> existsb_app. cbn. by rewrite -> orb_false_r. Qed.

Lemma in_ranges_above rs i : Forall (λ r, r.2 < i) rs → in_ranges rs i = false.
Proof. induction 1 as [|[a b] rs Hb _ IH]; [done|]. cbn [in_ranges existsb]. fold (in_ranges rs i). rewrite -> IH, orb_false_r. cbn in Hb. apply andb_false_iff. right. apply Z.leb_gt. lia. Qed.

Section pieces.
Context (env : fmt_env) (addr : Z) (buf0 : list Z) (buflen : Z) (Hsize : 0 < buflen ≤ Z.of_nat (length buf0)) (Hint : buflen < 2 ^ 31) (Haddr : addr + buflen < 2 ^ 64).
Let L : nat := (Z.to_nat buflen - 1)%nat.
Notation cut T := (Z.of_nat (Nat.min (length T) L)).

Lemma print_piece buf T fmt args p : text_of (no_vaf env) fmt args = Some p → Z.of_nat (length p) < 2 ^ 31 → begins L buf0 buf T →
  ∃ buf' k, scnprintf_at env addr buf (cut T) (buflen - cut T) fmt args = Some (buf', k) ∧ cut T + k = cut (T ++ p) ∧ holds L buf0 buf' (T ++ p).
Proof using Hsize Hint Haddr.
  intros Hp Hlen (Hl & Hd & Htn). rw /scnprintf_at. set (n := Nat.min (length T) L) in *. assert (n ≤ L)%nat as HnL by lia. assert (Z.of_nat L = buflen - 1) as HL by lia. clearbody L.
  rewrite -> (proj2 (Z.ltb_ge _ _)), (proj2 (Z.ltb_ge _ _)) by lia. cbn [orb]. rewrite -> Nat2Z.id. rw /scnprintf /vscnprintf.
  destruct (vsnprintf_text env (addr + Z.of_nat n) (drop n buf) (buflen - Z.of_nat n) fmt args p ltac:(rewrite -> length_drop; lia) ltac:(lia) ltac:(lia) Hp) as (rest & b & -> & Hlb & Hdb & Htb). specialize (Htb ltac:(lia)). cbn [mbind option_bind].
  replace (Z.to_nat (buflen - Z.of_nat n)) with (S (L - n)) in * by lia. replace (S (L - n) - 1)%nat with (L - n)%nat in * by lia. rewrite -> length_drop in Hlb.
  eexists _, _. split; [done|]. rewrite -> (swrap_small 32 (Z.of_nat (length p))), (swrap_small 32 (buflen - Z.of_nat n - 1)), wrap_small by (lia || split; lia).
  assert (length T ≤ L ∧ n = length T ∨ L < length T ∧ n = L)%nat as Hcase by lia. rewrite -> length_app. split; [|split_and!].
  - destruct (Z.ltb_spec (Z.of_nat (length p)) (buflen - Z.of_nat n)); [|rewrite -> (proj2 (Z.eqb_neq _ 0)) by lia; cbn [negb]]; lia.
  - rewrite -> length_app, length_take. lia.
  - rewrite -> drop_app_ge by (rewrite -> length_take; lia). rewrite -> length_take, Nat.min_l by lia. replace (S L - n)%nat with (S (L - n)) by lia. rewrite -> Hdb, drop_drop, <- Hd. f_equal. lia.
  - rewrite -> length_app. replace (Nat.min (length T + length p) L) with (n + Nat.min (length p) (L - n))%nat by lia. rewrite -> take_app_ge by (rewrite -> length_take; lia). rewrite -> length_take, (Nat.min_l n) by lia.
    replace (S (n + Nat.min (length p) (L - n)) - n)%nat with (S (Nat.min (length p) (L - n))) by lia. rewrite -> Htb, Htn, take_app, <- app_assoc. do 3 f_equal. lia.
Qed.

(** ** Lists *)

Lemma emit_range rs a b buf : 0 ≤ a < 2 ^ 31 → 0 ≤ b < 2 ^ 31 → ranges_ok (2 ^ 31) rs → holds L buf0 buf (list_text rs) →
  ∃ buf', bscnl_emit env addr buf buflen a b (cut (list_text rs)) = Some (buf', cut (list_text (rs ++ [(a, b)]))) ∧ holds L buf0 buf' (list_text (rs ++ [(a, b)])).
Proof using Hsize Hint Haddr.
  intros Ha Hb Hok Hh. rw /bscnl_emit.
  assert (∃ buf1 T, (if 0 <? cut (list_text rs) then '(buf, k) ← scnprintf_at env addr buf (cut (list_text rs)) (wrap 64 (buflen - cut (list_text rs))) (cstr ",") []; Some (buf, cut (list_text rs) + k)
      else Some (buf, cut (list_text rs))) = Some (buf1, cut T) ∧ holds L buf0 buf1 T ∧ (T ++ range_text (a, b) = list_text (rs ++ [(a, b)]) ∨ L = 0%nat)) as (buf1 & T & -> & Hh1 & HT).
  { destruct (Z.ltb_spec 0 (cut (list_text rs))) as [Hpos|Hpos].
    - destruct (print_piece buf (list_text rs) (cstr ",") [] [ch ","] (print_text (no_vaf env) [Lit (ch ",")] [] [] ltac:(done)) ltac:(cbn; lia) (holds_begins _ _ _ _ Hh)) as (buf1 & k & E & Hk & Hh1).
      rewrite -> wrap_small, E by (split; lia). cbn [mbind option_bind]. exists buf1, (list_text rs ++ [ch ","]). rewrite -> Hk. split_and!; try done. left. rewrite -> list_text_snoc, <- app_assoc by (by intros ->). done.
    - exists buf, (list_text rs). split_and!; try done. destruct rs as [|r rs]; [left; cbn [list_text app]; by rewrite -> app_nil_r|]. right. pose proof (list_text_length (2 ^ 31) (r :: rs) ltac:(lia) Hok) as Hl. cbn [length] in Hl. lia. }
  cbn [mbind option_bind]. rewrite -> wrap_small by (split; lia).
  assert (∃ buf2 k, (if a =? b then scnprintf_at env addr buf1 (cut T) (buflen - cut T) (cstr "%d") [VInt a] else scnprintf_at env addr buf1 (cut T) (buflen - cut T) (cstr "%d-%d") [VInt a; VInt b]) = Some (buf2, k) ∧
      cut T + k = cut (T ++ range_text (a, b)) ∧ holds L buf0 buf2 (T ++ range_text (a, b))) as (buf2 & k & -> & Hk & Hh2).
  { pose proof (num_text_length Dec a) as La. pose proof (num_text_length Dec b) as Lb. assert (in_range Int Dec a ∧ in_range Int Dec b) as [Ra Rb] by (split; rw /in_range; cbn; lia).
    replace (VInt a) with (VInt (swrap 32 a)) by (by rewrite -> swrap_small by (cbn; lia)). replace (VInt b) with (VInt (swrap 32 b)) by (by rewrite -> swrap_small by (cbn; lia)). cbn [range_text]. destruct (Z.eqb_spec a b) as [->|Hab].
    - apply (print_piece buf1 T (cstr "%d") [VInt (swrap 32 b)] _); [|lia|by apply holds_begins]. rewrite <- (app_nil_r (num_text Dec b)). apply (print_text (no_vaf env) [Conv Int Dec] [b] []). cbn; auto.
    - apply (print_piece buf1 T (cstr "%d-%d") [VInt (swrap 32 a); VInt (swrap 32 b)] _); [|rewrite -> length_app; cbn [length]; lia|by apply holds_begins]. rewrite <- (app_nil_r (num_text Dec b)).
      apply (print_text (no_vaf env) [Conv Int Dec; Lit (ch "-"); Conv Int Dec] [a; b] []). cbn [readable]. by split_and!. }
  cbn [mbind option_bind]. rewrite -> Hk. exists buf2. destruct HT as [<-|HL]; [done|]. rewrite -> HL, !Nat.min_0_r in *. split; [done|]. rw /holds in Hh2 *. by rewrite -> !Nat.min_0_r, !take_0 in *.
Qed.

Section runs.
Context (m : list Z) (n : Z) (Hm : bitmap_ok m n) (Hn : n < 2 ^ 31).

(** Runs up to [rbot], and ones from there to [cur]. *)
Definition printed (cur rbot : Z) (buf : list Z) (len : Z) (rs : list (Z * Z)) : Prop :=
  (holds L buf0 buf (list_text rs) ∧ len = cut (list_text rs)) ∧ 0 ≤ rbot ≤ cur ∧ cur ≤ n ∧ runs_from 0 rs ∧ ranges_ok n rs ∧ (rbot < n → Forall (λ r, r.2 + 1 < rbot) rs) ∧
  (∀ i, 0 ≤ i < rbot → bitat m i = in_ranges rs i) ∧ (∀ i, rbot ≤ i < cur → bitat m i = true) ∧ (cur < n → bitat m cur = true) ∧ (cur = n → rbot = n).

Lemma printed_emit cur rbot buf len rs cur' : printed cur rbot buf len rs → cur < n → is_next (bitat m) (cur + 1) n cur' → n ≤ cur' ∨ cur + 1 < cur' →
  ∃ buf', bscnl_emit env addr buf buflen rbot cur len = Some (buf', cut (list_text (rs ++ [(rbot, cur)]))) ∧ printed cur' cur' buf' (cut (list_text (rs ++ [(rbot, cur)]))) (rs ++ [(rbot, cur)]).
Proof using Hsize Hint Haddr Hn.
  intros ((Hh & ->) & Hr & Hc & Hruns & Hok & Hgap & Hlow & Hone & Hcur & _) Hlt Hnext Hout. specialize (Hgap ltac:(lia)).
  pose proof (is_next_range (bitat m) (cur + 1) n cur' ltac:(lia) Hnext) as Hr'.
  destruct (emit_range rs rbot cur buf ltac:(lia) ltac:(lia)) as (buf' & E & Hh').
  { eapply Forall_impl; [exact Hok|]. intros [a b] [? ?]. split; lia. } { done. }
  exists buf'. split; [done|]. split; [done|]. split; [lia|]. split; [lia|]. split; [apply runs_snoc; [done|done|lia]|]. split; [apply Forall_app; split; [done|constructor; [split; lia|done]]|].
  split; [intros; apply Forall_app; split; [eapply Forall_impl; [exact Hgap|]; cbn; intros; lia|constructor; [cbn; lia|done]]|]. split; [|split; [intros; lia|split; [|lia]]].
  - intros i Hi. rewrite -> in_ranges_snoc. destruct (Z.leb_spec rbot i); [|cbn [andb]; rewrite -> orb_false_r; apply Hlow; lia].
    rewrite -> in_ranges_above by (eapply Forall_impl; [exact Hgap|]; cbn; intros; lia). cbn [orb andb]. destruct (Z.leb_spec i cur).
    + destruct (decide (i = cur)) as [->|]; [by apply Hcur|]. apply Hone. lia.
    + destruct Hnext as [(_ & _ & Hz)|[_ Hz]]; apply Hz; lia.
  - intros Hlt'. destruct Hnext as [(_ & Ht & _)|[? _]]; [done|lia].
Qed.

(** Whatever the size of the buffer: the runs of the bitmap. *)
Lemma scnlistprintf_text : ∃ rs buf', runs_of (bitat m) n rs ∧ bitmap_scnlistprintf env addr buf0 buflen m n = Some (buf', cut (list_text rs)) ∧ holds L buf0 buf' (list_text rs).
Proof using Hsize Hint Haddr Hm Hn.
  destruct Hm as [Hw Hcov]. pose proof Hcov as [[H0 _] _]. rw /bitmap_scnlistprintf. rewrite -> (proj2 (Z.eqb_neq buflen 0)), wr_in by lia. cbn [mbind option_bind].
  assert (holds L buf0 (<[0%nat:=0]> buf0) []) as Hh0.
  { destruct buf0 as [|x l] eqn:Eb; [cbn in Hsize; lia|]. rw /holds. cbn. by rewrite -> take_nil, take_0. }
  destruct (find_first_bit_next m n Hw Hcov) as (c0 & -> & Hc0). cbn [mbind option_bind]. rewrite -> (swrap_small 32 buflen) by lia. pose proof (is_next_range _ _ _ _ H0 Hc0) as Hr0.
  match goal with |- context [loop ?f ?b ?s] =>
    destruct (loop_index (λ μ '(cur, rbot, buf, len), (∃ rs, printed cur rbot buf len rs) ∧ μ = Z.to_nat (n - cur)) (λ '(buf, len), ∃ rs, runs_of (bitat m) n rs ∧ holds L buf0 buf (list_text rs) ∧ len = cut (list_text rs)) b f s (Z.to_nat (n - c0))) as ([buf' len] & -> & rs & Hruns & Hh & ->) end.
  - intros μ [[[cur rbot] buf] len] [[rs Hp] ->]. destruct (Z.ltb_spec cur n) as [Hlt|Hge]; cbn [negb].
    + destruct (next_bit m n (cur + 1) Hw Hcov) as (cur' & -> & Hnext); [destruct Hp as (_ & ? & _); lia|]. cbn [mbind option_bind]. pose proof (is_next_range (bitat m) (cur + 1) n cur' ltac:(lia) Hnext) as Hr'. left.
      destruct ((n <=? cur') || (cur + 1 <? cur')) eqn:Eo.
      * destruct (printed_emit cur rbot buf len rs cur' Hp Hlt Hnext) as (buf' & -> & Hp'); [apply orb_true_iff in Eo as [?|?]; zbool; lia|]. cbn [mbind option_bind]. eexists _, _. split; [done|]. split; [split; [by eexists|done]|lia].
      * apply orb_false_iff in Eo as [E1 E2]. zbool. assert (cur' = cur + 1) as -> by lia. eexists _, _. split; [done|]. split; [split; [exists rs|done]|lia].
        destruct Hp as (? & ? & _ & ? & ? & ? & ? & Hone & Hcur & _). split; [done|]. split; [lia|]. split; [lia|]. do 4 (split; [done|]). split; [|split; [|lia]].
        -- intros i Hi. destruct (decide (i = cur)) as [->|]; [by apply Hcur|apply Hone; lia].
        -- intros _. destruct Hnext as [(_ & Ht & _)|[? _]]; [done|lia].
    + right. eexists. split; [done|]. exists rs. destruct Hp as ((Hh & ->) & _ & Hc & Hruns & Hok & _ & Hlow & _ & _ & Hend). rewrite -> Hend in Hlow by lia. done.
  - split; [|done]. exists []. split; [split; [done|by rewrite -> Nat.min_0_l]|]. split; [lia|]. split; [lia|]. split; [done|]. split; [constructor|]. split; [constructor|].
    split; [intros i Hi; destruct Hc0 as [(_ & _ & Hz)|[? Hz]]; apply Hz; lia|]. split; [intros; lia|]. split; [|done]. intros. destruct Hc0 as [(_ & ? & _)|[? _]]; [done|lia].
  - lia.
  - exists rs, buf'. done.
Qed.
End runs.
End pieces.
