(* ===== verification/BitmapTextHex.v ===== *)
(** * Bitmaps as text: groups of hexadecimal digits

    The printer writes a bitmap as the values of its groups of 32 bits, the highest first; the parser shifts the groups into a bitmap. *)
From Stdlib Require Import Ascii String.
From S2P Require Import Prelude Bitops FindBit Bitmap BitmapShift BitmapMap BitmapLaws Ctype Kstrtox NumPrint StringLib Vsprintf VsprintfText VsprintfNumber VsprintfScanRoundtrip Inet BitmapText BitmapTextList BitmapTextPrint.
#[local] Open Scope Z_scope.

Notation hex_char := (λ d, digit_ref d 32).

(** ** The digits of a group *)

(** [v] with [w] digits. *)
Definition hex_vals (w : nat) (v : Z) : list Z := let ds := rev (vals_rev 22 16 v) in replicate (w - length ds) 0 ++ ds.
Definition hex_text (w : nat) (v : Z) : list Z := map hex_char (hex_vals w v).

Lemma vals_length k base v w : 2 ≤ base → (1 ≤ w)%nat → 0 ≤ v < base ^ Z.of_nat w → (length (vals_rev k base v) ≤ w)%nat.
Proof.
  intros Hb. revert v w. induction k as [|k IH]; intros v w Hw Hv; cbn [vals_rev length]; [lia|]. destruct (Z.eqb_spec (v / base) 0) as [|Hd]; [cbn; lia|]. destruct w as [|[|w]]; [lia| |].
  - rewrite -> Z.div_small in Hd by (change (Z.of_nat 1) with 1 in Hv; lia). done.
  - apply le_n_S, (IH (v / base) (S w)); [lia|]. rewrite -> (Nat2Z.inj_succ (S w)), Z.pow_succ_r in Hv by lia. split; [apply Z.div_pos; lia|]. apply Z.div_lt_upper_bound; lia.
Qed.

Lemma value_zeros k base ds : value base (replicate k 0 ++ ds) = value base ds.
Proof. rw /value. induction k as [|k IH]; [done|]. cbn. exact IH. Qed.

Lemma hex_vals_ok w v : (1 ≤ w ≤ 16)%nat → 0 ≤ v < 16 ^ Z.of_nat w → Forall (λ d, 0 ≤ d < 16) (hex_vals w v) ∧ length (hex_vals w v) = w ∧ value 16 (hex_vals w v) = v.
Proof.
  intros Hw Hv. assert (in_width 64 v) as Hv64. { split; [lia|]. eapply Z.lt_le_trans; [apply Hv|]. change (2 ^ 64) with (16 ^ 16). apply Z.pow_le_mono_r; lia. }
  destruct (vals_ok 16 v ltac:(auto) Hv64) as (H1 & H2 & H3 & _). pose proof (vals_length 22 16 v w ltac:(lia) ltac:(lia) Hv) as Hl. rw /hex_vals. cbn zeta. split_and!.
  - apply Forall_app. split; [apply Forall_replicate; lia|done].
  - rewrite -> length_app, length_replicate, length_rev. lia.
  - by rewrite -> value_zeros.
Qed.

Lemma group_text env sep s r w v : fe_mem env sep = Some (s ++ 0 :: r) → 4096 ≤ sep → Forall (λ c, c ≠ 0) s → (1 ≤ w ≤ 8)%nat → 0 ≤ v < 16 ^ Z.of_nat w → Z.of_nat (length s) < 2 ^ 31 →
  text_of env (cstr "%s%0*lx") [VLong sep; VInt (Z.of_nat w); VLong v] = Some (s ++ hex_text w v).
Proof.
  intros Hmem Hsep Hs Hw Hv Hls. rw /text_of /format. change (2 * length (cstr "%s%0*lx") + 2)%nat with (S (S (S (S 14)))). cbn [loop].
  set (spec1 := {| ps_type := FORMAT_TYPE_STR; ps_flags := 0; ps_base := 10; ps_qualifier := 255; ps_field_width := -1; ps_precision := -1 |}).
  set (spec2 := {| ps_type := FORMAT_TYPE_WIDTH; ps_flags := ZEROPAD; ps_base := 10; ps_qualifier := 255; ps_field_width := -1; ps_precision := -1 |}).
  set (spec3 := {| ps_type := FORMAT_TYPE_ULONG; ps_flags := ZEROPAD + SMALL; ps_base := 16; ps_qualifier := ch "l"; ps_field_width := Z.of_nat w; ps_precision := -1 |}).
  assert (printf_step env (cstr "%s%0*lx", zero_spec, {| va_args := [VLong sep; VInt (Z.of_nat w); VLong v]; va_stores := [] |}, []) =
    Some (Next (R := va_list * list Z) (cstr "%0*lx", spec1, {| va_args := [VInt (Z.of_nat w); VLong v]; va_stores := [] |}, s))) as ->.
  { rw /printf_step. change (cur (cstr "%s%0*lx")) with (Some (ch "%")). cbn [mbind option_bind]. change (ch "%" =? 0) with false. change (format_decode (cstr "%s%0*lx") zero_spec) with (Some (cstr "%0*lx", spec1)). cbn [mbind option_bind].
    change (ps_type spec1) with FORMAT_TYPE_STR. cbn iota.
    change (next_str env {| va_args := VLong sep :: ?l; va_stores := ?st |}) with (obj ← (if sep <? 4096 then Some [] else fe_mem env sep); Some ((sep, obj), {| va_args := l; va_stores := st |})).
    rewrite -> (proj2 (Z.ltb_ge sep 4096)), Hmem by done. cbn [mbind option_bind]. rewrite -> (string_ok sep s r spec1 []) by (done || cbn; lia). cbn [mbind option_bind app]. do 3 f_equal.
    rw /field_text. change (wrap 64 (ps_precision spec1)) with (2 ^ 64 - 1). rewrite -> take_ge by lia. change (flag LEFT spec1) with false. change (ps_field_width spec1) with (-1). replace (Z.to_nat (-1 - _)) with O by lia. done. }
  assert (printf_step env (cstr "%0*lx", spec1, {| va_args := [VInt (Z.of_nat w); VLong v]; va_stores := [] |}, s) =
    Some (Next (R := va_list * list Z) (cstr "lx", set_ps_width (Z.of_nat w) spec2, {| va_args := [VLong v]; va_stores := [] |}, s))) as -> by done.
  assert (printf_step env (cstr "lx", set_ps_width (Z.of_nat w) spec2, {| va_args := [VLong v]; va_stores := [] |}, s) =
    Some (Next (R := va_list * list Z) (cstr "", spec3, {| va_args := []; va_stores := [] |}, s ++ hex_text w v))) as ->; [|done].
  rw /printf_step. change (cur (cstr "lx")) with (Some (ch "l")). cbn [mbind option_bind]. change (ch "l" =? 0) with false.
  assert (format_decode (cstr "lx") (set_ps_width (Z.of_nat w) spec2) = Some (cstr "", spec3)) as -> by (do 9 (destruct w as [|w]; [done || lia|]); lia).
  cbn [mbind option_bind]. change (ps_type spec3) with FORMAT_TYPE_ULONG. cbn iota. change (next_num FORMAT_TYPE_ULONG {| va_args := [VLong v]; va_stores := [] |}) with (Some (v, {| va_args := []; va_stores := [] |})). cbn [mbind option_bind].
  assert (in_width 64 v) as Hv64. { split; [lia|]. eapply Z.lt_le_trans; [apply Hv|]. change (2 ^ 64) with (16 ^ 16). apply Z.pow_le_mono_r; lia. }
  assert (body_text spec3 v = digits_of 16 32 v) as Hbody by done. assert (length (digits_of 16 32 v) = length (rev (vals_rev 22 16 v))) as Hl by (rw /digits_of; by rewrite -> digits_vals, <- map_rev, length_map).
  assert (free_width spec3 v = Z.of_nat w - Z.of_nat (length (rev (vals_rev 22 16 v)))) as Hfree by (rw /free_width; rewrite -> Hbody, Hl; done).
  pose proof (vals_length 22 16 v w ltac:(lia) ltac:(lia) Hv) as Hl'. rewrite <- length_rev in Hl'.
  rewrite -> number_ok; [|done|cbn; lia|cbn; lia|cbn; lia|rewrite -> Hfree; lia]. cbn [mbind option_bind]. do 4 f_equal.
  rw /number_text. rewrite -> Hfree, Hbody. change (flag LEFT spec3) with false. change (flag ZEROPAD spec3) with true. cbn iota. change (sign_text spec3 v) with (@nil Z). change (prefix_text spec3 v) with (@nil Z). cbn [app].
  rw /hex_text /hex_vals. cbn zeta. rewrite -> map_app, (fmap_replicate hex_char : ∀ n x, map hex_char (replicate n x) = replicate n (hex_char x)). rw /digits_of. rewrite -> digits_vals, <- map_rev. change (hex_char 0) with 48. do 2 f_equal. lia.
Qed.

(** ** Groups of 32 bits *)

(** The number of bits of group [k] of [n] bits, and its value. *)
Definition group_bits (n : Z) (k : nat) : Z := Z.min 32 (n - 32 * Z.of_nat k).
Definition group (m : list Z) (n : Z) (k : nat) : Z := wrap (group_bits n k) (Z.shiftr (nth (k / 2) m 0) (32 * Z.of_nat (k mod 2))).
Definition group_digits (n : Z) (k : nat) : nat := Z.to_nat ((group_bits n k + 3) / 4).

(** The groups below [k], each behind a comma; the text of [k + 1] groups. *)
Fixpoint low_groups (m : list Z) (n : Z) (k : nat) : list Z :=
  match k with O => [] | S k => ch "," :: hex_text (group_digits n k) (group m n k) ++ low_groups m n k end.
Definition groups_text (m : list Z) (n : Z) (k : nat) : list Z := hex_text (group_digits n k) (group m n k) ++ low_groups m n k.
(** The number of the highest group. *)
Definition top_group (n : Z) : nat := Z.to_nat ((n - 1) / 32).

Lemma top_group_spec n : 0 < n → 32 * Z.of_nat (top_group n) < n ≤ 32 * Z.of_nat (top_group n) + 32.
Proof. intros. rw /top_group. rewrite -> Z2Nat.id by (apply Z.div_pos; lia). zdm. Qed.

Section groups.
Context (m : list Z) (n : Z) (Hm : bitmap_ok m n) (Hn : 0 < n < 2 ^ 31).

Lemma group_word k : 32 * Z.of_nat k < n → ∃ w, rd m (32 * Z.of_nat k / 64) = Some w ∧ in_width 64 w ∧ nth (k / 2) m 0 = w ∧ 32 * Z.of_nat (k mod 2) = (32 * Z.of_nat k) mod 64 ∧ 0 ≤ 32 * Z.of_nat k / 64.
Proof using Hm.
  intros Hk. destruct Hm as [Hw [[Hn0 Hl] _]]. destruct (rd_in m (32 * Z.of_nat k / 64)) as [w Hr]; [zdm|]. exists w. split; [done|]. split; [by eapply words_rd|].
  pose proof (Nat.div_mod_eq k 2) as Hdm. pose proof (Nat.mod_upper_bound k 2 ltac:(lia)) as Hub. split; [|split; zdm]. apply rd_Some in Hr as [_ Hr]. apply nth_lookup_Some. rewrite <- Hr. f_equal. zdm.
Qed.

Lemma group_bit k i : 32 * Z.of_nat k < n → 0 ≤ i → Z.testbit (group m n k) i = (i <? group_bits n k) && bitat m (32 * Z.of_nat k + i).
Proof using Hm.
  intros Hk Hi. destruct (group_word k Hk) as (w & Hr & Hw & Enth & Emod & Hdiv). rw /group. rewrite -> testbit_wrap, Enth, Emod by (rw /group_bits; lia). rewrite -> andb_comm.
  destruct (Z.ltb_spec i (group_bits n k)) as [Hlt|]; [|done]. cbn [andb]. rw /group_bits in Hlt. rewrite -> Z.shiftr_spec, <- (bitat_word m _ w) by (done || zdm). f_equal. zdm.
Qed.

Lemma group_range k : 32 * Z.of_nat k < n → 0 ≤ group m n k < 2 ^ group_bits n k.
Proof using. intros Hk. rw /group. apply Z.mod_pos_bound. apply pow2_pos. rw /group_bits. lia. Qed.

Lemma group_digits_ok k : 32 * Z.of_nat k < n → (1 ≤ group_digits n k ≤ 8)%nat ∧ 0 ≤ group m n k < 16 ^ Z.of_nat (group_digits n k).
Proof using.
  intros Hk. pose proof (group_range k Hk) as [H0 Hr]. assert (1 ≤ group_bits n k ≤ 32) as Hb by (rw /group_bits; lia). rw /group_digits. split; [zdm|]. split; [done|]. eapply Z.lt_le_trans; [exact Hr|].
  change 16 with (2 ^ 4). rewrite <- Z.pow_mul_r by lia. apply Z.pow_le_mono_r; [lia|]. zdm.
Qed.

Lemma group_code k w : 32 * Z.of_nat k < n → rd m (32 * Z.of_nat k / 64) = Some w → Z.land (Z.shiftr w ((32 * Z.of_nat k) mod 64)) (wrap 32 (Z.shiftl 1 (group_bits n k) - 1)) = group m n k.
Proof using Hm.
  intros Hk Hr. destruct (group_word k Hk) as (w' & Hr' & _ & Enth & Emod & _). assert (w' = w) as -> by congruence. rw /group. rewrite -> Enth, Emod. assert (1 ≤ group_bits n k ≤ 32) as Hb by (rw /group_bits; lia).
  rewrite -> Z.shiftl_1_l. replace (2 ^ group_bits n k - 1) with (Z.ones (group_bits n k)) by (rewrite -> Z.ones_equiv; lia). rewrite -> wrap_small by (rewrite -> Z.ones_equiv; pose proof (Z.pow_le_mono_r 2 (group_bits n k) 32 ltac:(lia) ltac:(lia)); pose proof (pow2_pos (group_bits n k) ltac:(lia)); split; lia).
  apply land_ones_wrap. lia.
Qed.

Lemma group_text_length k : 32 * Z.of_nat k < n → length (hex_text (group_digits n k) (group m n k)) = group_digits n k.
Proof using. intros Hk. destruct (group_digits_ok k Hk) as [Hw Hv]. rw /hex_text. rewrite -> length_map. by destruct (hex_vals_ok (group_digits n k) (group m n k) ltac:(clear -Hw; lia) Hv) as (_ & -> & _). Qed.

Lemma groups_text_long k : 32 * Z.of_nat k < n → (k < length (groups_text m n k))%nat.
Proof using.
  induction k as [|k IH]; intros Hk; rw /groups_text; rewrite -> length_app, group_text_length by (clear -Hk; lia); destruct (group_digits_ok _ Hk) as [Hw _]; [clear -Hw; lia|]. cbn [low_groups length]. fold (groups_text m n k).
  specialize (IH ltac:(clear -Hk; lia)). clear -Hw IH. lia.
Qed.

(** ** Printing *)

Section printing.
Context (env : fmt_env) (empty comma addr : Z) (buf0 : list Z) (buflen : Z) (Hsize : 0 < buflen ≤ Z.of_nat (length buf0)) (Hint : buflen < 2 ^ 31) (Haddr : addr + buflen < 2 ^ 64).
Context (Hempty : 4096 ≤ empty ∧ ∃ r, fe_mem env empty = Some (0 :: r)) (Hcomma : 4096 ≤ comma ∧ ∃ r, fe_mem env comma = Some (ch "," :: 0 :: r)).
Let L : nat := (Z.to_nat buflen - 1)%nat.
Notation cut T := (Z.of_nat (Nat.min (length T) L)).
Notation whole := (groups_text m n (top_group n)).

(** [k] groups are left, the separator is [s]. *)
Definition printing (k : nat) '((i, chunksz, sep, buf, len) : Z * Z * Z * list Z * Z) : Prop :=
  ∃ T s r, i = 32 * Z.of_nat k - 32 ∧ len = cut T ∧ (k ≤ S (top_group n))%nat ∧ begins L buf0 buf T ∧
    (4096 ≤ sep ∧ fe_mem env sep = Some (s ++ 0 :: r) ∧ (s = [] ∨ s = [ch ","])) ∧
    match k with O => holds L buf0 buf T ∧ T = whole | S k => chunksz = group_bits n k ∧ T ++ s ++ groups_text m n k = whole end.

Lemma printing_step k i chunksz sep buf len : printing (S k) (i, chunksz, sep, buf, len) → ∃ w buf' x, rd m (i ÷ BITS_PER_LONG) = Some w ∧
  scnprintf_at env addr buf len (wrap 32 (buflen - len)) (cstr "%s%0*lx") [VLong sep; VInt ((chunksz + 3) ÷ 4); VLong (Z.land (Z.shiftr w (Z.rem i BITS_PER_LONG)) (wrap 32 (Z.shiftl 1 chunksz - 1)))] = Some (buf', x) ∧
  printing k (i - CHUNKSZ, CHUNKSZ, comma, buf', swrap 32 (len + x)).
Proof using Hm Hn Hsize Hint Haddr Hcomma.
  intros (T & s & r & -> & -> & Hk & Hh & (Hsep & Hmem & Hs) & -> & Hwhole). pose proof (top_group_spec n ltac:(lia)) as Htop. replace (32 * Z.of_nat (S k) - 32) with (32 * Z.of_nat k) by lia.
  assert (32 * Z.of_nat k < n) as Hkn by lia. destruct (group_word k Hkn) as (w & Hr & _). change BITS_PER_LONG with 64. rewrite -> Z.quot_div_nonneg, Z.rem_mod_nonneg by lia. exists w. rewrite -> Hr, (group_code k w Hkn Hr).
  destruct (group_digits_ok k Hkn) as [Hd Hg]. assert ((group_bits n k + 3) ÷ 4 = Z.of_nat (group_digits n k)) as ->.
  { rw /group_digits. assert (1 ≤ group_bits n k) by (rw /group_bits; lia). rewrite -> Z.quot_div_nonneg, Z2Nat.id by (lia || apply Z.div_pos; lia). done. }
  destruct (print_piece env addr buf0 buflen Hsize Hint Haddr buf T (cstr "%s%0*lx") _ _ (group_text (no_vaf env) sep s r _ _ Hmem Hsep ltac:(destruct Hs as [-> | ->]; repeat constructor; done) Hd Hg ltac:(destruct Hs as [-> | ->]; cbn; lia))) as (buf' & x & E & Hx & Hh').
  { rewrite -> length_app, (group_text_length k Hkn). destruct Hs as [-> | ->]; cbn [length]; lia. } { exact Hh. }
  fold L in E, Hx, Hh'. exists buf', x. split; [done|]. split; [rewrite -> wrap_small by (split; lia); exact E|]. rewrite -> Hx. clear E Hx. set (T' := T ++ s ++ hex_text _ _) in *.
  assert (T' ++ low_groups m n k = whole) as Hrest by (rw /T'; rewrite <- !app_assoc; exact Hwhole). destruct Hcomma as [Hc [r' Hc']].
  exists T', [ch ","], r'. split; [rw /CHUNKSZ; lia|]. split; [apply swrap_small; lia|]. split; [lia|]. split; [by apply holds_begins|]. split; [by auto|].
  destruct k as [|k]; [by rewrite -> app_nil_r in Hrest|]. split; [rw /group_bits /CHUNKSZ; lia|exact Hrest].
Qed.

Lemma scnprintf_groups : ∃ buf', bitmap_scnprintf env empty comma addr buf0 buflen m n = Some (buf', cut whole) ∧ holds L buf0 buf' whole.
Proof using Hm Hn Hsize Hint Haddr Hempty Hcomma.
  pose proof (top_group_spec n ltac:(lia)) as Htop. rw /bitmap_scnprintf.
  assert (ALIGN n CHUNKSZ - CHUNKSZ = 32 * Z.of_nat (top_group n)) as ->.
  { rw /ALIGN /CHUNKSZ. change (32 - 1) with (Z.ones 5). rewrite <- Z.ldiff_land, Z.ldiff_ones_r, Z.shiftl_mul_pow2, Z.shiftr_div_pow2 by lia. change (2 ^ 5) with 32. change (Z.ones 5) with 31. zdm. }
  assert ((if Z.land n (CHUNKSZ - 1) =? 0 then CHUNKSZ else Z.land n (CHUNKSZ - 1)) = group_bits n (top_group n)) as ->.
  { change (CHUNKSZ - 1) with (Z.ones 5). rewrite -> Z.land_ones by lia. change (2 ^ 5) with 32. rw /CHUNKSZ /group_bits. destruct (Z.eqb_spec (n mod 32) 0); zdm. }
  match goal with |- context [loop ?f ?b ?s] =>
    destruct (loop_index printing (λ '(buf, len), holds L buf0 buf whole ∧ len = cut whole) b f s (S (top_group n))) as ([buf' len] & -> & Hh & ->) end.
  - intros k [[[[i chunksz] sep] buf] len] Hp. destruct k as [|k].
    + destruct Hp as (T & s & r & -> & -> & _ & _ & _ & Hh & ->). right. eexists. split; [done|]. done.
    + pose proof Hp as (_ & _ & _ & Ei & _). left. rewrite -> (proj2 (Z.ltb_ge i 0)) by lia. cbn zeta. destruct (printing_step _ _ _ _ _ _ Hp) as (w & buf' & x & -> & E & Hp'). cbn [mbind option_bind]. rewrite -> E. cbn [mbind option_bind].
      eexists _, _. split; [done|]. split; [exact Hp'|lia].
  - destruct Hempty as [He [r He']]. exists [], [], r. split; [lia|]. split; [by rewrite -> Nat.min_0_l|]. split; [lia|]. split; [split_and!; [done|done|by rewrite -> take_nil, take_0]|]. split; [by auto|]. done.
  - rw /CHUNKSZ. zdm.
  - by exists buf'.
Qed.
End printing.
End groups.

(** ** Reading a group *)

Notation add_hex := (foldl (λ v d, v * 16 + d)).

Lemma add_hex_ge ds v : Forall (λ d, 0 ≤ d < 16) ds → 0 ≤ v → v ≤ add_hex v ds.
Proof. intros Hds. revert v. induction Hds as [|d ds Hd _ IH]; intros v Hv; cbn [foldl]; [lia|]. specialize (IH (v * 16 + d)). lia. Qed.

Lemma hex_char_facts d : 0 ≤ d < 16 → hex_to_bin (hex_char d) = d ∧ isspace (hex_char d) = false ∧ (hex_char d =? 0) = false ∧ (hex_char d =? ch ",") = false ∧ isxdigit (hex_char d) = true.
Proof. intros Hd. assert (d ∈ seqZ 0 16) as Hin by (apply elem_of_seqZ; lia). clear Hd. revert d Hin. apply Forall_forall. apply (bool_decide_unpack _). vm_compute. exact I. Qed.

Lemma push_digit v d : 0 ≤ v → 0 ≤ d < 16 → v * 16 + d < 2 ^ 32 → Z.land v (bnot 64 (Z.shiftl 1 (CHUNKSZ - 4) - 1)) = 0 ∧ Z.lor (bshl 32 v 4) d = v * 16 + d.
Proof.
  intros Hv Hd Hlt. split.
  - change (Z.shiftl 1 (CHUNKSZ - 4) - 1) with (Z.ones 28). apply Z.bits_inj'. intros i Hi. rewrite -> Z.land_spec, testbit_bnot, Z.bits_0, testbit_ones by lia.
    destruct (Z.lt_ge_cases i 28); [ztest; by rewrite -> ?andb_false_r|]. rewrite -> (testbit_above 28 v) by (done || split; lia). done.
  - rw /bshl. rewrite -> Z.shiftl_mul_pow2, land_ones_wrap, wrap_small by (lia || split; lia). change (2 ^ 4) with 16. rewrite <- Z.add_nocarry_lor; [done|].
    change 16 with (2 ^ 4). rewrite <- Z.shiftl_mul_pow2 by lia. apply Z.bits_inj'. intros i Hi. rewrite -> Z.land_spec, Z.shiftl_spec, Z.bits_0 by done.
    destruct (Z.lt_ge_cases i 4); [by rewrite -> Z.testbit_neg_r by lia|]. rewrite -> (testbit_above 4 d) by (done || split; lia). apply andb_false_r.
Qed.

Section reading.
Context (src : text_src).

Lemma chunk_digit d k : 0 ≤ d < 16 → fetch src (ck_pos k) = Some (Some (hex_char d)) → 0 < ck_len k → isspace (ck_c k) = false → 0 ≤ ck_chunk k → ck_chunk k * 16 + d < 2 ^ 32 →
  chunk_step src k = Some (Next {| ck_pos := ck_pos k + 1; ck_len := ck_len k - 1; ck_c := hex_char d; ck_total := ck_total k + 1; ck_chunk := ck_chunk k * 16 + d; ck_ndigits := ck_ndigits k + 1 |}).
Proof using.
  intros Hd Hf Hl Hs H0 Hv. destruct (hex_char_facts d Hd) as (Ed & E1 & E2 & E3 & E4). destruct (push_digit (ck_chunk k) d H0 Hd Hv) as [P1 P2]. rw /chunk_step. rewrite -> (proj2 (Z.eqb_neq (ck_len k) 0)), Hf by lia.
  cbn [mbind option_bind ck_pos ck_len ck_total ck_chunk ck_ndigits]. rewrite -> E1, Hs, andb_false_r, E2, E3, E4, P1, Ed, P2. done.
Qed.

Lemma chunk_digits ds k n : Forall (λ d, 0 ≤ d < 16) ds → src_at src (ck_pos k) (map hex_char ds) → Z.of_nat (length ds) ≤ ck_len k → isspace (ck_c k) = false → 0 ≤ ck_chunk k → add_hex (ck_chunk k) ds < 2 ^ 32 →
  ∃ k', loop (length ds + n) (chunk_step src) k = loop n (chunk_step src) k' ∧ ck_pos k' = ck_pos k + Z.of_nat (length ds) ∧ ck_len k' = ck_len k - Z.of_nat (length ds) ∧ isspace (ck_c k') = false ∧
    ck_chunk k' = add_hex (ck_chunk k) ds ∧ ck_ndigits k' = ck_ndigits k + Z.of_nat (length ds).
Proof using.
  intros Hds. revert k. induction Hds as [|d ds Hd Hds IH]; intros k Hat Hl Hs H0 Hv; [exists k; split_and!; try done; cbn; lia|]. cbn [length] in Hl. cbn [map] in Hat. apply src_at_cons in Hat as [Hf Hat].
  cbn [length Nat.add loop foldl] in *. pose proof (add_hex_ge ds (ck_chunk k * 16 + d) Hds ltac:(lia)) as Hge. rewrite -> (chunk_digit d k) by (done || lia). destruct (hex_char_facts d Hd) as (_ & E1 & _).
  match goal with |- context [loop _ _ ?s] => destruct (IH s) as (k' & -> & P1 & P2 & P3 & P4 & P5) end; cbn [ck_pos ck_len ck_c ck_chunk ck_ndigits] in *; [done|lia|done|lia|done|].
  exists k'. split_and!; try done; lia.
Qed.

(** A group of the text, with what ends it. *)
Lemma chunk_end k n : (ck_len k = 0 ∨ 0 < ck_len k ∧ isspace (ck_c k) = false ∧ ∃ c, fetch src (ck_pos k) = Some (Some c) ∧ (c = ch "," ∨ c = 0)) →
  ∃ k', loop (S n) (chunk_step src) k = Some (inr k') ∧ ck_chunk k' = ck_chunk k ∧ ck_ndigits k' = ck_ndigits k ∧
    (ck_len k = 0 ∧ ck_len k' = 0 ∨ 0 < ck_len k ∧ ck_len k' = ck_len k - 1 ∧ ck_pos k' = ck_pos k + 1 ∧ fetch src (ck_pos k) = Some (Some (ck_c k'))).
Proof using.
  intros [H0|(Hl & Hs & c & Hf & Hc)]; cbn [loop]; rw /chunk_step.
  - rewrite -> H0. exists k. split_and!; try done. by left.
  - rewrite -> (proj2 (Z.eqb_neq (ck_len k) 0)), Hf by lia. cbn [mbind option_bind]. assert (isspace c = false ∧ (c =? 0) || (c =? ch ",") = true) as [E1 E2] by (by destruct Hc as [-> | ->]).
    rewrite -> E1, Hs, andb_false_r, E2. cbn. eexists. split; [done|]. cbn. split_and!; try done. by right.
Qed.

(** The whole group, from the start of a chunk. *)
Lemma chunk_read w v t pos left c total : (1 ≤ w ≤ 8)%nat → 0 ≤ v < 16 ^ Z.of_nat w → src_at src pos (hex_text w v ++ t) → isspace c = false →
  (t = [] ∧ text_ends src pos (Z.of_nat w) left ∨ (∃ t', t = ch "," :: t') ∧ Z.of_nat w + 1 < left) →
  ∃ k, loop (Z.to_nat left + 1) (chunk_step src) {| ck_pos := pos; ck_len := left; ck_c := c; ck_total := total; ck_chunk := 0; ck_ndigits := 0 |} = Some (inr k) ∧ ck_chunk k = v ∧ ck_ndigits k = Z.of_nat w ∧
    match t with [] => negb (ck_len k =? 0) && (ck_c k =? ch ",") = false | _ => negb (ck_len k =? 0) && (ck_c k =? ch ",") = true ∧ ck_pos k = pos + Z.of_nat w + 1 ∧ ck_len k = left - Z.of_nat w - 1 ∧ isspace (ck_c k) = false end.
Proof using.
  intros Hw Hv Hat Hc Hend. destruct (hex_vals_ok w v ltac:(lia) Hv) as (Hds & Hlen & Hval). rw /value in Hval. apply src_at_app in Hat as [Hat Ht]. rw /hex_text in Ht. rewrite -> length_map, Hlen in Ht.
  assert (v < 2 ^ 32) as H32. { eapply Z.lt_le_trans; [apply Hv|]. change (2 ^ 32) with (16 ^ 8). apply Z.pow_le_mono_r; lia. }
  assert (Z.of_nat w ≤ left) as HL by (destruct Hend as [[_ [?|[? _]]]|[_ ?]]; lia).
  replace (Z.to_nat left + 1)%nat with (length (hex_vals w v) + S (Z.to_nat (left - Z.of_nat w)))%nat by lia.
  match goal with |- context [loop _ _ ?s] => destruct (chunk_digits (hex_vals w v) s (S (Z.to_nat (left - Z.of_nat w))) Hds Hat) as (k & -> & Hpos & Hl & Hsp & Hch & Hnd) end; [cbn [ck_len]; lia|done|cbn; lia|cbn [ck_chunk]; by rewrite -> Hval|].
  cbn [ck_pos ck_len ck_chunk ck_ndigits] in *. rewrite -> Hlen in *. destruct (chunk_end k (Z.to_nat (left - Z.of_nat w))) as (k' & -> & E1 & E2 & Hk).
  { rewrite -> Hpos, Hl. destruct Hend as [[-> [->|[? Hf]]]|[[t' ->] Hlt]]; [left; lia|right; split_and!; [lia|done|exists 0; auto]|]. apply src_at_cons in Ht as [Hf _]. right. split_and!; [lia|done|by eauto]. }
  exists k'. split; [done|]. split; [congruence|]. split; [lia|]. destruct Hend as [[-> Hend]|[[t' ->] Hlt]].
  - destruct Hk as [(_ & ->)|(Hk & _ & _ & Hf)]; [done|]. destruct Hend as [->|[_ Hf']]; [lia|]. rewrite -> Hpos, Hf' in Hf. injection Hf as <-. apply andb_false_r.
  - apply src_at_cons in Ht as [Hf' _]. destruct Hk as [(? & _)|(Hk & -> & -> & Hf)]; [lia|]. rewrite -> Hpos, Hf' in Hf. injection Hf as <-. rewrite -> (proj2 (Z.eqb_neq _ 0)) by lia. split_and!; [done|lia|lia|done].
Qed.
End reading.

(** ** Shifting groups into a bitmap *)

Lemma fls_bound x b : 0 ≤ b ≤ 32 → 0 ≤ x < 2 ^ b → 0 ≤ fls x ≤ b.
Proof.
  intros Hb Hx. assert (in_width 32 x) as Hw by (split; [lia|]; eapply Z.lt_le_trans; [apply Hx|apply Z.pow_le_mono_r; lia]). destruct (fls_spec x Hw) as [[_ ->]|[[_ [Ht _]] Hr]]; [lia|].
  split; [lia|]. apply Z.le_ngt. intros Hlt. rewrite -> (testbit_above b x) in Ht by (done || lia). done.
Qed.

(** [__bitmap_shift_left(maskp, maskp, CHUNKSZ, nmaskbits); *maskp |= chunk]. *)
Lemma shift_in mask n v : bitmap_ok mask n → 0 < n → in_width 32 v → ∃ d w d', __bitmap_shift_left true mask mask CHUNKSZ n = Some d ∧ rd d 0 = Some w ∧ wr d 0 (Z.lor w v) = Some d' ∧
  frame n mask d' ∧ ∀ i, 0 ≤ i < 64 * BITS_TO_LONGS n → bitat d' i = Z.testbit v i || (i <? n) && ((32 <=? i) && bitat mask (i - 32)).
Proof.
  intros Hok Hn Hv. pose proof Hok as [Hw Hcov]. pose proof (longs_cover n ltac:(lia)) as Hlc. assert (1 ≤ BITS_TO_LONGS n) by (rw /BITS_TO_LONGS /BITS_PER_LONG; zdm).
  destruct (shift_left_spec true mask mask CHUNKSZ n Hw Hcov Hok eq_refl) as (d & E & Hl & Hwd & Hd); [rw /CHUNKSZ; lia|]. pose proof Hcov as [[_ Hlen] _].
  destruct (rd_in d 0 ltac:(lia)) as [w Hr]. pose proof (words_rd _ _ _ Hwd Hr) as Hww. exists d, w. rewrite -> (wr_in d 0) by lia. eexists. split; [done|]. split; [done|]. split; [done|].
  assert (in_width 64 (Z.lor w v)) as Hor by (apply in_width_lor; [lia|done|by apply (in_width_mono 32)]).
  split; [split; [by rewrite -> length_insert|]; split; [by apply words_insert|]|]; intros i Hi; change (<[Z.to_nat 0:=_]> d) with (<[Z.to_nat 0:=Z.lor w v]> d); rewrite -> bitat_insert by lia.
  { rewrite -> (proj2 (Z.ltb_ge i (64 * 0 + 64))), andb_false_r, Hd by lia. by rewrite -> (proj2 (Z.ltb_ge i _)) by lia. }
  assert (bitat d i = (i <? n) && ((32 <=? i) && bitat mask (i - 32))) as Hdi. { rewrite -> Hd by lia. by rewrite -> (proj2 (Z.ltb_lt i (64 * BITS_TO_LONGS n))) by lia. }
  destruct (Z.lt_ge_cases i 64) as [H64|H64].
  - rewrite -> (proj2 (Z.leb_le (64 * 0) i)), (proj2 (Z.ltb_lt i (64 * 0 + 64))) by lia. cbn [andb]. rewrite -> Z.mul_0_r, Z.sub_0_r, Z.lor_spec, <- (bitat_word d 0 w i Hr) by lia. rewrite -> Z.mul_0_r, Z.add_0_l, Hdi. apply orb_comm.
  - rewrite -> (proj2 (Z.ltb_ge i (64 * 0 + 64))), andb_false_r, Hdi by lia. rewrite -> (testbit_above 32 v i) by (done || lia). done.
Qed.

Section parsing.
Context (src : text_src) (m : list Z) (n : Z) (Hm : bitmap_ok m n) (Hn : 0 < n < 2 ^ 31).

(** The groups from [k] on are in the mask. *)
Definition shifted (k : nat) (nchunks nbits : Z) (mask : list Z) : Prop :=
  bitmap_ok mask n ∧ (∀ i, 0 ≤ i < n → bitat mask i = (32 * Z.of_nat k + i <? n) && bitat m (32 * Z.of_nat k + i)) ∧ 0 ≤ nchunks ∧
  (nchunks = 0 → nbits = 0 ∧ ∀ i, 32 * Z.of_nat k ≤ i < n → bitat m i = false) ∧ (nchunks ≠ 0 → nbits ≤ n - 32 * Z.of_nat k).

Lemma shifted_zero k nbits mask : 32 * Z.of_nat k < n → shifted (S k) 0 nbits mask → group m n k = 0 → shifted k 0 nbits mask.
Proof using Hm.
  intros Hk (Hok & Hb & _ & H0 & _) Hg. destruct (H0 eq_refl) as [-> Hz]. assert (∀ i, 32 * Z.of_nat k ≤ i < n → bitat m i = false) as Hz'.
  { intros i Hi. destruct (Z.lt_ge_cases i (32 * Z.of_nat (S k))); [|apply Hz; lia]. pose proof (group_bit m n Hm k (i - 32 * Z.of_nat k) Hk ltac:(lia)) as E. rewrite -> Hg, Z.bits_0 in E.
    rewrite -> (proj2 (Z.ltb_lt _ (group_bits n k))) in E by (rw /group_bits; lia). cbn [andb] in E. replace (32 * Z.of_nat k + (i - 32 * Z.of_nat k)) with i in E by lia. done. }
  split; [done|]. split; [|split_and!; [lia|done|lia]]. intros i Hi. rewrite -> Hb by done. destruct (Z.ltb_spec (32 * Z.of_nat k + i) n); cbn [andb].
  - rewrite -> (Hz' (32 * Z.of_nat k + i)) by lia. destruct (Z.ltb_spec (32 * Z.of_nat (S k) + i) n); [|done]. cbn [andb]. apply Hz. lia.
  - by rewrite -> (proj2 (Z.ltb_ge _ n)) by lia.
Qed.

Lemma shifted_next k nchunks nbits mask : 32 * Z.of_nat k < n → shifted (S k) nchunks nbits mask → ∃ d w d', __bitmap_shift_left true mask mask CHUNKSZ n = Some d ∧ rd d 0 = Some w ∧ wr d 0 (Z.lor w (group m n k)) = Some d' ∧
  length d' = length mask ∧ shifted k (nchunks + 1) (nbits + (if nchunks + 1 =? 1 then nbits_to_hold_value (group m n k) else CHUNKSZ)) d' ∧
  nbits + (if nchunks + 1 =? 1 then nbits_to_hold_value (group m n k) else CHUNKSZ) ≤ n.
Proof using Hm Hn.
  intros Hk (Hok & Hb & Hnc & H0 & H1). pose proof (group_range m n k Hk) as Hg. assert (1 ≤ group_bits n k ≤ 32) as Hgb by (rw /group_bits; lia).
  destruct (shift_in mask n (group m n k) Hok ltac:(lia)) as (d & w & d' & E1 & E2 & E3 & Hfr & Hd').
  { split; [lia|]. eapply Z.lt_le_trans; [apply Hg|apply Z.pow_le_mono_r; lia]. }
  assert (nbits + (if nchunks + 1 =? 1 then nbits_to_hold_value (group m n k) else CHUNKSZ) ≤ n - 32 * Z.of_nat k) as Hnb.
  { destruct (Z.eqb_spec (nchunks + 1) 1) as [E|E].
    - destruct (H0 ltac:(lia)) as [-> _]. pose proof (fls_bound (group m n k) (group_bits n k) ltac:(lia) Hg). rw /nbits_to_hold_value. rw /group_bits in H. lia.
    - specialize (H1 ltac:(lia)). rw /CHUNKSZ. lia. }
  exists d, w, d'. do 3 (split; [done|]). split; [apply Hfr|]. split; [|lia]. split; [by eapply frame_ok|]. split; [|split_and!; lia]. pose proof (longs_cover n ltac:(lia)). intros i Hi. rewrite -> Hd', group_bit, (proj2 (Z.ltb_lt i n)) by (done || lia). destruct (Z.leb_spec 32 i) as [H32|H32]; cbn [andb].
  - rewrite -> (proj2 (Z.ltb_ge i (group_bits n k))), Hb by lia. cbn [andb orb]. replace (32 * Z.of_nat (S k) + (i - 32)) with (32 * Z.of_nat k + i) by lia. done.
  - rewrite -> orb_false_r. f_equal. rw /group_bits. destruct (Z.ltb_spec i (Z.min 32 (n - 32 * Z.of_nat k))), (Z.ltb_spec (32 * Z.of_nat k + i) n); done || lia.
Qed.

(** A group of the text goes into the mask. *)
Lemma parse_group k s : 32 * Z.of_nat k < n → shifted (S k) (ps_nchunks s) (ps_nbits s) (ps_mask s) → src_at src (ps_at s) (groups_text m n k) → text_ends src (ps_at s) (Z.of_nat (length (groups_text m n k))) (ps_left s) → isspace (ps_c s) = false →
  ∃ nchunks nbits mask, length mask = length (ps_mask s) ∧ shifted k nchunks nbits mask ∧
    match k with
    | O => parse_step src n s = Some (Stop (0, mask))
    | S k' => ∃ s', parse_step src n s = Some (Next s') ∧ ps_nchunks s' = nchunks ∧ ps_nbits s' = nbits ∧ ps_mask s' = mask ∧ isspace (ps_c s') = false ∧
        src_at src (ps_at s') (groups_text m n k') ∧ text_ends src (ps_at s') (Z.of_nat (length (groups_text m n k'))) (ps_left s')
    end.
Proof using Hm Hn.
  intros Hk Hsh Hat Hend Hc. destruct (group_digits_ok m n k Hk) as [Hw Hv]. pose proof (group_text_length m n k Hk) as Hlen.
  rw /groups_text in Hat Hend. rewrite -> length_app in Hend. rewrite -> Hlen in Hend.
  destruct (chunk_read src (group_digits n k) (group m n k) (low_groups m n k) (ps_at s) (ps_left s) (ps_c s) (ps_totaldigits s) Hw Hv Hat Hc) as (ck & E & Hch & Hnd & Hnext).
  { destruct k as [|k]; [left; split; [done|]; cbn [low_groups length] in Hend; by rewrite -> Nat.add_0_r in Hend|]. right. split; [by eexists|]. cbn [low_groups length] in Hend. rewrite -> length_app in Hend.
    pose proof (group_text_length m n k ltac:(lia)) as Hlen'. pose proof (proj1 (group_digits_ok m n k ltac:(lia))) as Hw'. destruct Hend as [?|[? _]]; lia. }
  rw /parse_step. rewrite -> E. cbn [mbind option_bind]. rewrite -> Hnd, (proj2 (Z.eqb_neq _ 0)), Hch by lia.
  assert (∃ nchunks nbits mask, length mask = length (ps_mask s) ∧ shifted k nchunks nbits mask ∧ put_chunk n (group m n k) s = Some (nchunks, nbits, mask, false)) as (nchunks & nbits & mask & Hl & Hsh' & ->).
  { rw /put_chunk. destruct ((ps_nchunks s =? 0) && (group m n k =? 0)) eqn:Ez.
    - apply andb_true_iff in Ez as [Ez1 Ez2]. zbool. rewrite -> Ez1 in *. exists 0, (ps_nbits s), (ps_mask s). split_and!; try done. by apply shifted_zero.
    - destruct (shifted_next k _ _ _ Hk Hsh) as (d & w & d' & -> & Ew & Ed & Hl & Hsh' & Hle). cbn [mbind option_bind]. rewrite -> Ew. cbn [mbind option_bind]. rewrite -> Ed. cbn [mbind option_bind]. cbn zeta.
      eexists _, _, d'. split; [done|]. split; [exact Hsh'|]. by rewrite -> (proj2 (Z.ltb_ge n _)) by done. }
  cbn [mbind option_bind]. exists nchunks, nbits, mask. split; [done|]. split; [done|]. destruct k as [|k]; cbn [low_groups] in Hnext; [by rewrite -> Hnext|]. destruct Hnext as (-> & Hpos & Hleft & Hsp).
  eexists. split; [done|]. cbn [ps_nchunks ps_nbits ps_mask ps_c ps_at ps_left]. do 4 (split; [done|]). apply src_at_app in Hat as [_ Hat]. rewrite -> Hlen in Hat. cbn [low_groups] in Hat.
  apply src_at_cons in Hat as [_ Hat]. rewrite -> Hpos, Hleft. split; [exact Hat|]. cbn [low_groups length] in Hend. fold (groups_text m n k) in Hend. destruct Hend as [->|[Hlt Hf]]; [left; lia|right; split; [lia|]]. rewrite <- Hf. f_equal. lia.
Qed.

Lemma parse_groups k s fuel : 32 * Z.of_nat k < n → shifted (S k) (ps_nchunks s) (ps_nbits s) (ps_mask s) → src_at src (ps_at s) (groups_text m n k) → text_ends src (ps_at s) (Z.of_nat (length (groups_text m n k))) (ps_left s) → isspace (ps_c s) = false →
  (k < fuel)%nat → ∃ nchunks nbits mask, loop fuel (parse_step src n) s = Some (0, mask) ∧ length mask = length (ps_mask s) ∧ shifted 0 nchunks nbits mask.
Proof using Hm Hn.
  revert s fuel. induction k as [|k IH]; intros s fuel Hk Hsh Hat Hend Hc Hf; (destruct fuel as [|fuel]; [lia|]); cbn [loop]; destruct (parse_group _ s Hk Hsh Hat Hend Hc) as (nchunks & nbits & mask & Hl & Hsh' & H).
  - rewrite -> H. by exists nchunks, nbits, mask.
  - destruct H as (s' & -> & <- & <- & <- & Hc' & Hat' & Hend'). destruct (IH s' fuel ltac:(lia) Hsh' Hat' Hend' Hc' ltac:(lia)) as (nc & nb & mask & -> & Hl' & Hsh''). exists nc, nb, mask. split; [done|]. split; [congruence|done].
Qed.

(** The text of the groups is read as the bitmap. *)
Lemma parse_text mask left : bitmap_ok mask n → src_at src 0 (groups_text m n (top_group n)) → text_ends src 0 (Z.of_nat (length (groups_text m n (top_group n)))) left →
  ∃ mask', __bitmap_parse src left mask n = Some (0, mask') ∧ bitmap_ok mask' n ∧ length mask' = length mask ∧ ∀ i, 0 ≤ i < n → bitat mask' i = bitat m i.
Proof using Hm Hn.
  intros [Hw Hcov] Hat Hend. rw /__bitmap_parse. destruct (bitmap_zero_spec mask n Hw Hcov) as (d & -> & Hl & Hwd & Hd). cbn [mbind option_bind]. pose proof (top_group_spec n ltac:(lia)) as Htop.
  match goal with |- context [loop ?f _ ?s] => destruct (parse_groups (top_group n) s f) as (nc & nb & mask' & -> & Hl' & (Hok' & Hb & _)) end.
  - lia.
  - split_and!; try done; [split; [done|]; rw /covers; cbn [ps_mask]; by rewrite -> Hl|..].
    + cbn [ps_mask]. intros i Hi. rewrite -> (proj2 (Z.ltb_ge _ n)) by lia. by apply Hd.
    + intros _. split; [done|]. lia.
  - done.
  - done.
  - done.
  - pose proof (groups_text_long m n (top_group n) ltac:(lia)) as Hlen. destruct Hend as [->|[? _]]; lia.
  - exists mask'. split; [done|]. split; [done|]. split; [cbn in Hl'; congruence|]. intros i Hi. rewrite -> Hb by done. cbn [Z.of_nat]. rewrite -> Z.mul_0_r, Z.add_0_l, (proj2 (Z.ltb_lt i n)) by lia. done.
Qed.
End parsing.
