(* ===== verification/BitmapTextSpec.v ===== *)
(** * Bitmaps as text: what the printers and the parsers promise

    A text from a user can be anything.  The parsers end, read nothing behind the text, and write nothing but the words of the bitmap.  What the printers wrote, they
    read back. *)
From Stdlib Require Import Ascii String.
From S2P Require Import Prelude Bitops FindBit Bitmap BitmapShift BitmapMap BitmapLaws Ctype StringLib Vsprintf VsprintfText VsprintfNumber VsprintfScanRoundtrip Inet BitmapText BitmapTextList BitmapTextPrint BitmapTextHex.
#[local] Open Scope Z_scope.

(** ** The parsers on any text *)

(** [len] characters can be read: they are in the buffer, or [get_user] answers. *)
Definition source_ok (src : text_src) (len : Z) : Prop :=
  0 ≤ len ∧ match src with Kernel buf => len ≤ Z.of_nat (length buf) ∧ Forall (in_width 8) buf | User get_user => ∀ k c, get_user k = Some c → in_width 8 c end.

(** The user's memory is missing. *)
Definition source_fails (src : text_src) (len : Z) : Prop := match src with Kernel _ => False | User get_user => ∃ k, 0 ≤ k < len ∧ get_user k = None end.

Lemma fetch_ok src len k : source_ok src len → 0 ≤ k < len → ∃ r, fetch src k = Some r ∧ match r with Some c => in_width 8 c | None => source_fails src len end.
Proof.
  intros [_ Hs] Hk. destruct src as [buf|f]; cbn [fetch source_fails].
  - destruct Hs as [Hl Hb]. destruct (rd_in buf k ltac:(lia)) as [c Hc]. rewrite -> Hc. exists (Some c). split; [done|]. apply rd_Some in Hc as [_ Hc]. by eapply Forall_lookup_1.
  - exists (f k). split; [done|]. destruct (f k) as [c|] eqn:E; [by eapply Hs|by exists k].
Qed.

(** The results of the parsers. *)
Definition parse_result (src : text_src) (len limit r : Z) : Prop := r = 0 ∨ r = - EINVAL ∨ r = - limit ∨ r = - EFAULT ∧ source_fails src len.

Lemma xdigit_value c : in_width 8 c → isxdigit c = true → 0 ≤ hex_to_bin c < 16.
Proof.
  intros Hc Hx. assert (implb (isxdigit c) ((0 <=? hex_to_bin c) && (hex_to_bin c <? 16)) = true) as H by (clear Hx; revert Hc; by_bytes (λ c, implb (isxdigit c) ((0 <=? hex_to_bin c) && (hex_to_bin c <? 16))) c).
  rewrite -> Hx in H. cbn [implb] in H. apply andb_true_iff in H as [? ?]. zbool. lia.
Qed.

Lemma fls_above_zero x i : in_width 32 x → fls x ≤ i → Z.testbit x i = false.
Proof. intros Hx Hi. destruct (fls_spec x Hx) as [[-> _]|[(_ & _ & Hh) Hr]]; [apply Z.bits_0|]. apply Hh. lia. Qed.

Section sources.
Context (src : text_src) (len n : Z) (Hsrc : source_ok src len) (Hn : 0 < n < 2 ^ 31).

(** ** Lists *)

Lemma range_safe pos left c total : 0 ≤ pos → 0 ≤ left → pos + left = len →
  ∃ r, loop (Z.to_nat left + 1) (range_step src) {| rg_pos := pos; rg_len := left; rg_c := c; rg_total := total; rg_a := 0; rg_b := 0; rg_exp := true; rg_in := false |} = Some r ∧
    match r with
    | inl e => e = - EINVAL ∨ e = - EFAULT ∧ source_fails src len
    | inr k => 0 ≤ rg_a k ∧ in_width 32 (rg_b k) ∧ 0 ≤ rg_pos k ∧ 0 ≤ rg_len k ≤ left ∧ rg_pos k + rg_len k = len ∧ (0 < left → rg_len k < left)
    end.
Proof using Hsrc.
  intros Hp Hl Hsum. apply (loop_inv (λ k, 0 ≤ rg_a k ∧ in_width 32 (rg_b k) ∧ 0 ≤ rg_pos k ∧ 0 ≤ rg_len k ≤ left ∧ rg_pos k + rg_len k = len) (λ k, Z.to_nat (rg_len k))); [|cbn; split_and!; lia || by apply in_width_0|cbn; lia].
  intros k (Ha & Hb & Hkp & Hkl & Hks). rw /range_step. destruct (Z.eqb_spec (rg_len k) 0) as [H0|H0].
  { right. eexists. split; [done|]. cbn. split_and!; try done; lia. }
  destruct (fetch_ok src len (rg_pos k) Hsrc ltac:(lia)) as ([c'|] & -> & Hr); cbn [mbind option_bind]; [|right; eexists; split; [done|]; by right].
  cbn [rg_total rg_exp rg_in rg_pos rg_len rg_a rg_b]. destruct (isspace c'); [left; eexists; split; [done|]; cbn; split; [split_and!; done || lia|lia]|].
  destruct (negb _ && _ && _); [right; eexists; split; [done|]; by left|]. destruct (_ || _).
  { right. eexists. split; [done|]. cbn. split_and!; try done; lia. }
  destruct (c' =? ch "-").
  - destruct (_ || _); [right; eexists; split; [done|]; by left|]. left. eexists. split; [done|]. cbn. split; [split_and!; done || lia|lia].
  - destruct (isdigit c'); cbn [negb]; [|right; eexists; split; [done|]; by left]. left. eexists. split; [done|]. pose proof (in_width_wrap 32 (rg_b k * 10 + (c' - ch "0")) ltac:(lia)) as Hw. cbn.
    split; [|lia]. split; [destruct (rg_in k); [done|apply Hw]|]. split_and!; done || lia.
Qed.

Lemma set_range_frame a b m : bitmap_ok m n → 0 ≤ a ≤ b → b < n → ∃ m', set_range a b m = Some m' ∧ frame n m m' ∧ ∀ i, n ≤ i → bitat m' i = bitat m i.
Proof using Hn.
  intros [Hw [[_ Hc] _]] Hab Hb. destruct (set_range_spec a b m Hw Hab ltac:(lia)) as (m' & E & Hl & Hw' & Hm'). exists m'. split; [done|]. pose proof (longs_cover n ltac:(lia)) as Hlc.
  assert (∀ i, n ≤ i → bitat m' i = bitat m i) as Hi by (intros i Hi; rewrite -> Hm' by lia; rewrite -> (proj2 (Z.leb_gt i b)), andb_false_r by lia; done). split; [|done]. split_and!; try done. intros i Hi'. apply Hi. lia.
Qed.

Lemma parselist_safe m : bitmap_ok m n → ∃ r m', __bitmap_parselist src len m n = Some (r, m') ∧ parse_result src len ERANGE r ∧ frame n m m' ∧ clean m' n.
Proof using Hsrc Hn.
  intros Hm. rw /__bitmap_parselist. destruct (zero_frame m n Hm) as (d & -> & Hfr & Hz). cbn [mbind option_bind]. pose proof Hsrc as [Hlen _].
  destruct (loop_inv (λ '(pos, rest, c, total, m'), 0 ≤ pos ∧ 0 ≤ rest ∧ pos + rest = len ∧ frame n m m' ∧ clean m' n) (λ '(pos, rest, c, total, m'), Z.to_nat rest)
    (λ '(r, m'), parse_result src len ERANGE r ∧ frame n m m' ∧ clean m' n) (list_step src n) (Z.to_nat len + 1) (0, len, 0, 0, d)) as ([r m'] & -> & H).
  - intros [[[[pos left] c] total] m1] (Hp & Hl & Hs & Hf & Hcl). rw /list_step. destruct (range_safe pos left c total Hp Hl Hs) as ([e|k] & -> & Hk); cbn [mbind option_bind].
    { right. eexists. split; [done|]. split; [|done]. rw /parse_result. destruct Hk; auto. }
    destruct Hk as (Ha & Hb & Hkp & Hkl & Hks & Hlt). destruct (Z.leb_spec (rg_a k) (rg_b k)) as [Hab|]; cbn [negb]; [|right; eexists; split; [done|]; split; [|done]; rw /parse_result; auto].
    rewrite -> wrap_small by (split; lia). destruct (Z.leb_spec n (rg_b k)) as [|Hbn]; [right; eexists; split; [done|]; split; [|done]; rw /parse_result; auto|].
    destruct (set_range_frame (rg_a k) (rg_b k) m1 (frame_ok _ _ _ Hm Hf) ltac:(lia) Hbn) as (m2 & -> & Hf2 & Hb2). cbn [mbind option_bind].
    assert (frame n m m2 ∧ clean m2 n) as [Hf' Hcl'] by (split; [by eapply frame_trans|]; intros i Hi; rewrite -> Hb2 by lia; by apply Hcl).
    destruct (Z.eqb_spec (rg_len k) 0); cbn [negb andb]; [right; eexists; split; [done|]; split; [by left|done]|]. destruct (rg_c k =? ch ","); [left|right; eexists; split; [done|]; split; [by left|done]].
    eexists. split; [done|]. split; [|lia]. split; [done|]. split; [lia|]. done.
  - split_and!; try done; try lia. intros i Hi. apply Hz. lia.
  - lia.
  - by exists r, m'.
Qed.

(** ** Hexadecimal *)

Lemma chunk_safe pos left c total : 0 ≤ pos → 0 ≤ left → pos + left = len →
  ∃ r, loop (Z.to_nat left + 1) (chunk_step src) {| ck_pos := pos; ck_len := left; ck_c := c; ck_total := total; ck_chunk := 0; ck_ndigits := 0 |} = Some r ∧
    match r with
    | inl e => e = - EINVAL ∨ e = - EOVERFLOW ∨ e = - EFAULT ∧ source_fails src len
    | inr k => in_width 32 (ck_chunk k) ∧ 0 ≤ ck_pos k ∧ 0 ≤ ck_len k ≤ left ∧ ck_pos k + ck_len k = len ∧ (0 < left → ck_len k < left)
    end.
Proof using Hsrc.
  intros Hp Hl Hsum. apply (loop_inv (λ k, in_width 32 (ck_chunk k) ∧ 0 ≤ ck_pos k ∧ 0 ≤ ck_len k ≤ left ∧ ck_pos k + ck_len k = len) (λ k, Z.to_nat (ck_len k))); [|cbn; split_and!; lia || by apply in_width_0|cbn; lia].
  intros k (Hb & Hkp & Hkl & Hks). rw /chunk_step. destruct (Z.eqb_spec (ck_len k) 0) as [H0|H0].
  { right. eexists. split; [done|]. cbn. split_and!; try done; lia. }
  destruct (fetch_ok src len (ck_pos k) Hsrc ltac:(lia)) as ([c'|] & -> & Hr); cbn [mbind option_bind]; [|right; eexists; split; [done|]; by right; right].
  cbn [ck_total ck_pos ck_len ck_chunk ck_ndigits]. destruct (isspace c'); [left; eexists; split; [done|]; cbn; split; [split_and!; done || lia|lia]|].
  destruct (negb _ && _ && _); [right; eexists; split; [done|]; by left|]. destruct (_ || _).
  { right. eexists. split; [done|]. cbn. split_and!; try done; lia. }
  destruct (isxdigit c') eqn:Ex; cbn [negb]; [|right; eexists; split; [done|]; by left]. destruct (negb _); [right; eexists; split; [done|]; by right; left|]. left. eexists. split; [done|].
  pose proof (xdigit_value c' Hr Ex) as Hd. assert (in_width 32 (Z.lor (bshl 32 (ck_chunk k) 4) (hex_to_bin c'))) as Hw by (apply in_width_lor; [lia|by apply in_width_bshl|split; lia]). cbn. split; [split_and!; done || lia|lia].
Qed.

(** A mask that was built from chunks of [nbits] bits. *)
Definition chunks_in (m : list Z) (nchunks nbits : Z) (mask : list Z) : Prop :=
  frame n m mask ∧ 0 ≤ nchunks ∧ 0 ≤ nbits ∧ (nchunks = 0 → nbits = 0) ∧ ∀ i, nbits ≤ i < 64 * BITS_TO_LONGS n → bitat mask i = false.

Lemma chunks_clean m nchunks nbits mask : chunks_in m nchunks nbits mask → nbits ≤ n → clean mask n.
Proof using. intros (_ & _ & _ & _ & Hz) Hle i Hi. apply Hz. clear -Hle Hi. lia. Qed.

Lemma put_chunk_safe m s chunk : bitmap_ok m n → in_width 32 chunk → chunks_in m (ps_nchunks s) (ps_nbits s) (ps_mask s) → ps_nbits s ≤ n →
  ∃ nchunks nbits mask over, put_chunk n chunk s = Some (nchunks, nbits, mask, over) ∧ chunks_in m nchunks nbits mask ∧ (over = false → nbits ≤ n).
Proof using Hn.
  intros Hm Hc Hin Hle. pose proof Hin as (Hf & Hnc & Hnb & H0 & Hz). rw /put_chunk. destruct ((ps_nchunks s =? 0) && (chunk =? 0)) eqn:Ez; [eexists _, _, _, _; split; [done|]; done|].
  destruct (shift_in (ps_mask s) n chunk (frame_ok _ _ _ Hm Hf) ltac:(lia) Hc) as (d & w & d' & -> & Ew & Ed & Hf' & Hd'). cbn [mbind option_bind]. rewrite -> Ew. cbn [mbind option_bind]. rewrite -> Ed. cbn [mbind option_bind]. cbn zeta.
  eexists _, _, _, _. split; [done|]. split; [|intros ?; zbool; lia]. split; [by eapply frame_trans|]. split; [lia|]. pose proof (fls_bound chunk 32 ltac:(lia) Hc) as Hfl. rw /nbits_to_hold_value /CHUNKSZ.
  destruct (Z.eqb_spec (ps_nchunks s + 1) 1) as [E|E].
  - rewrite -> H0 in * by lia. split; [lia|]. split; [lia|]. intros i Hi. rewrite -> Hd' by lia. apply orb_false_iff. split; [apply fls_above_zero; [done|lia]|]. destruct (Z.leb_spec 32 i); [|apply andb_false_r]. cbn [andb]. rewrite -> Hz by lia. apply andb_false_r.
  - split; [lia|]. split; [lia|]. intros i Hi. rewrite -> Hd' by lia. apply orb_false_iff. split; [apply (testbit_above 32); [done|lia|lia]|]. rewrite -> (Hz (i - 32)) by lia. by rewrite -> !andb_false_r.
Qed.

Lemma parse_safe m : bitmap_ok m n → ∃ r m', __bitmap_parse src len m n = Some (r, m') ∧ parse_result src len EOVERFLOW r ∧ frame n m m' ∧ (r = 0 → clean m' n).
Proof using Hsrc Hn.
  intros Hm. rw /__bitmap_parse. destruct (zero_frame m n Hm) as (d & -> & Hfr & Hz). cbn [mbind option_bind]. pose proof Hsrc as [Hlen _].
  destruct (loop_inv (λ s, 0 ≤ ps_at s ∧ 0 ≤ ps_left s ∧ ps_at s + ps_left s = len ∧ chunks_in m (ps_nchunks s) (ps_nbits s) (ps_mask s) ∧ ps_nbits s ≤ n) (λ s, Z.to_nat (ps_left s))
    (λ '(r, m'), parse_result src len EOVERFLOW r ∧ frame n m m' ∧ (r = 0 → clean m' n)) (parse_step src n) (Z.to_nat len + 1) {| ps_at := 0; ps_left := len; ps_c := 0; ps_totaldigits := 0; ps_nchunks := 0; ps_nbits := 0; ps_mask := d |}) as ([r m'] & -> & H).
  - intros s (Hp & Hl & Hs & Hin & Hle). pose proof Hin as (Hf & _). rw /parse_step. destruct (chunk_safe (ps_at s) (ps_left s) (ps_c s) (ps_totaldigits s) Hp Hl Hs) as ([e|k] & -> & Hk); cbn [mbind option_bind].
    { right. eexists. split; [done|]. split; [rw /parse_result; naive_solver|]. split; [done|]. by destruct Hk as [-> |[-> |[-> _]]]. }
    destruct Hk as (Hc & Hkp & Hkl & Hks & Hlt). destruct (ck_ndigits k =? 0); [right; eexists; split; [done|]; split; [by right; left|done]|].
    destruct (put_chunk_safe m s (ck_chunk k) Hm Hc Hin Hle) as (nc & nb & mask & over & -> & Hin' & Hover). cbn [mbind option_bind]. pose proof Hin' as (Hf' & _).
    destruct over; [right; eexists; split; [done|]; split; [by right; right; left|done]|]. specialize (Hover eq_refl).
    destruct (Z.eqb_spec (ck_len k) 0); cbn [negb andb]; [|destruct (ck_c k =? ch ","); [left|]].
    1, 3: right; eexists; split; [done|]; split; [by left|]; split; [done|]; intros _; by eapply chunks_clean.
    eexists. split; [done|]. cbn [ps_at ps_left ps_nchunks ps_nbits ps_mask]. split; [|lia]. split; [done|]. split; [lia|]. done.
  - cbn [ps_at ps_left ps_nchunks ps_nbits ps_mask]. split; [done|]. split; [done|]. split; [lia|]. split; [|lia]. split_and!; done || lia.
  - cbn [ps_left]. lia.
  - by exists r, m'.
Qed.
End sources.

(** ** Lemmas *)

Lemma bits_of_same m m' n : (∀ i, 0 ≤ i < n → bitat m' i = bitat m i) → bits_of m' n = bits_of m n.
Proof. intros H. apply set_eq. intros i. rewrite -> !elem_of_bits_of. split; intros [Hi Hb]; (split; [done|]); [by rewrite <- H|by rewrite -> H]. Qed.

Lemma strchr_none t r c : Forall (λ x, x ≠ 0 ∧ x ≠ c) t → in_width 8 c → c ≠ 0 → strchr (t ++ 0 :: r) c = Some None.
Proof.
  intros Ht Hw Hc. induction Ht as [|x t [H0 Hx] _ IH]; cbn [app strchr]; rewrite -> (wrap_small 8 c) by done.
  - rewrite -> (proj2 (Z.eqb_neq 0 c)) by congruence. done.
  - rewrite -> (proj2 (Z.eqb_neq x c)), (proj2 (Z.eqb_neq x 0)), IH by done. done.
Qed.

Lemma num_text_chars z : 0 ≤ z < 2 ^ 31 → Forall (λ x, x ≠ 0 ∧ x ≠ 10) (num_text Dec z).
Proof.
  intros Hz. destruct (dec_digits z Hz) as (ds & -> & Hds & _). apply Forall_map. eapply Forall_impl; [exact Hds|]. intros d Hd. destruct (dec_char_facts d Hd) as [E _]. change (ch "0") with 48 in E. cbn beta in *. lia.
Qed.

Lemma list_text_chars n rs : n ≤ 2 ^ 31 → ranges_ok n rs → Forall (λ x, x ≠ 0 ∧ x ≠ 10) (list_text rs).
Proof.
  intros Hn Hok. induction Hok as [|[a b] rs [Ha Hb] _ IH]; [constructor|]. cbn [list_text]. apply Forall_app. split.
  - cbn [range_text]. pose proof (num_text_chars a ltac:(lia)). pose proof (num_text_chars b ltac:(lia)). destruct (a =? b); [done|]. apply Forall_app. split; [done|]. by constructor.
  - destruct rs; [constructor|]. by constructor.
Qed.

(** A text that fits. *)
Lemma holds_fits L buf0 buf T : holds L buf0 buf T → (length T ≤ L)%nat → ∃ r, buf = T ++ 0 :: r.
Proof.
  intros (_ & _ & Ht) Hl. rewrite -> Nat.min_l, (take_ge T) in Ht by lia. exists (drop (S (length T)) buf). rewrite <- (take_drop (S (length T)) buf) at 1. rewrite -> Ht, <- app_assoc. done.
Qed.

Lemma parselist_string T r m n : Forall (λ x, x ≠ 0 ∧ x ≠ 10) T → Z.of_nat (length T) < 2 ^ 31 → bitmap_parselist (T ++ 0 :: r) m n = __bitmap_parselist (Kernel (T ++ 0 :: r)) (Z.of_nat (length T)) m n.
Proof.
  intros HT Hl. rw /bitmap_parselist. rewrite -> strchr_none by (done || split; lia). cbn [mbind option_bind]. rewrite -> strlen_text by (eapply Forall_impl; [exact HT|]; by intros x [? _]). cbn [mbind option_bind]. by rewrite -> swrap_small by lia.
Qed.

Lemma runs_empty m n rs : runs_of (bitat m) n rs → bits_of m n = ∅ ↔ rs = [].
Proof.
  intros (_ & Hok & Hb). rewrite -> bits_of_empty. split.
  - intros He. destruct Hok as [|[a b] rs [Ha Hb'] Hok]; [done|]. specialize (Hb a ltac:(lia)). rewrite -> He in Hb by lia. cbn in Hb. rewrite -> (proj2 (Z.leb_le a a)), (proj2 (Z.leb_le a b)) in Hb by lia. done.
  - intros -> i Hi. by rewrite -> Hb.
Qed.

(** A text without a number. *)
Lemma parselist_nothing r m n : bitmap_ok m n → 0 < n < 2 ^ 31 → ∃ m', __bitmap_parselist (Kernel r) 0 m n = Some (0, m') ∧ bits_of m' n = {[0]}.
Proof.
  intros Hm Hn. rw /__bitmap_parselist. destruct (zero_frame m n Hm) as (d & -> & Hf & Hz). cbn [mbind option_bind]. change (Z.to_nat 0 + 1)%nat with 1%nat. cbn [loop]. rw /list_step.
  match goal with |- context [loop ?f (range_step ?src) ?s] => change (loop f (range_step src) s) with (Some (inr s : Z + range_state)) end. cbn [mbind option_bind rg_a rg_b rg_len rg_c]. change (negb (0 <=? 0)) with false. cbn iota.
  destruct (frame_ok _ _ _ Hm Hf) as [Hw [[_ Hc] _]]. rewrite -> (proj2 (Z.leb_gt (wrap 32 n) 0)) by (rewrite -> wrap_small by (split; lia); lia).
  destruct (set_range_spec 0 0 d Hw ltac:(lia) ltac:(lia)) as (m' & -> & _ & _ & Hm'). cbn [mbind option_bind]. exists m'. split; [done|]. apply set_eq. intros i. rewrite -> elem_of_bits_of, elem_of_singleton. pose proof (longs_cover n ltac:(lia)). split.
  - intros [Hi Hb]. rewrite -> Hm', Hz, orb_false_r in Hb by lia. zbool. lia.
  - intros ->. split; [lia|]. by rewrite -> Hm' by lia.
Qed.

(** ** Lists of numbers and ranges *)

(** C27: bitmap_scnlistprintf writes the runs of a bitmap in order, and a buffer that is too small holds the beginning of that text, ended by a zero byte, and nothing else of the buffer changes.
    bitmap_parselist, and bitmap_parselist_user for a text in user memory, read a text that fits back as the same set, unless the set is empty: the text is empty then, and the parser takes it for bit 0. *)
Theorem bitmap_list_roundtrip env addr buf buflen m m0 n
    (Hm : bitmap_ok m n) (Hm0 : bitmap_ok m0 n) (Hn : 0 < n < 2 ^ 31) (Hsize : 0 < buflen ≤ Z.of_nat (length buf)) (Hint : buflen < 2 ^ 31) (Haddr : addr + buflen < 2 ^ 64) :
  let L := (Z.to_nat buflen - 1)%nat in
  ∃ rs buf', runs_of (bitat m) n rs ∧ bitmap_scnlistprintf env addr buf buflen m n = Some (buf', Z.of_nat (Nat.min (length (list_text rs)) L)) ∧ holds L buf buf' (list_text rs) ∧
    (bits_of m n ≠ ∅ → (length (list_text rs) ≤ L)%nat → ∃ m', bitmap_parselist buf' m0 n = Some (0, m') ∧ bits_of m' n = bits_of m n) ∧
    (bits_of m n ≠ ∅ → ∀ get_user ulen, src_at (User get_user) 0 (list_text rs) → text_ends (User get_user) 0 (Z.of_nat (length (list_text rs))) ulen →
       ∃ m', bitmap_parselist_user true get_user ulen m0 n = Some (0, m') ∧ bits_of m' n = bits_of m n) ∧
    (bits_of m n = ∅ → list_text rs = [] ∧ ∃ m', bitmap_parselist buf' m0 n = Some (0, m') ∧ bits_of m' n = {[0]}).
Proof.
  cbn zeta. destruct (scnlistprintf_text env addr buf buflen Hsize Hint Haddr m n Hm ltac:(lia)) as (rs & buf' & Hruns & E & Hh). exists rs, buf'. do 3 (split; [done|]). pose proof Hruns as (_ & Hok & Hb).
  pose proof (list_text_chars n rs ltac:(lia) Hok) as Hch. pose proof (runs_empty m n rs Hruns) as Hempty. split_and!.
  - intros Hne Hfit. destruct (holds_fits _ _ _ _ Hh Hfit) as (r & ->). rewrite -> parselist_string by (done || lia).
    destruct (parselist_text (Kernel (list_text rs ++ 0 :: r)) n ltac:(lia) rs m0 _ ltac:(tauto) Hok (src_at_kernel _ _) (or_introl eq_refl) Hm0) as (m' & -> & _ & _ & Hm'). exists m'. split; [done|].
    apply bits_of_same. intros i Hi. by rewrite -> Hm', Hb.
  - intros Hne get_user ulen Hat Hend. destruct (parselist_text (User get_user) n ltac:(lia) rs m0 ulen ltac:(tauto) Hok Hat Hend Hm0) as (m' & E' & _ & _ & Hm'). exists m'. split; [exact E'|].
    apply bits_of_same. intros i Hi. by rewrite -> Hm', Hb.
  - intros He. apply Hempty in He as ->. split; [done|]. destruct (holds_fits _ _ _ [] Hh ltac:(cbn; lia)) as (r & ->). rewrite -> parselist_string by (done || cbn; lia). by apply parselist_nothing.
Qed.

Lemma bitmap_list_roundtrip_witness : ∃ buf' m', bitmap_scnlistprintf sep_env 0x10000 (replicate 30 7) 30 [0xf00000001; 0x5] 70 = Some (buf', 13) ∧
  bitmap_parselist buf' [1; 1] 70 = Some (0, m') ∧ bits_of m' 70 = bits_of [0xf00000001; 0x5] 70.
Proof.
  destruct (bitmap_list_roundtrip sep_env 0x10000 (replicate 30 7) 30 [0xf00000001; 0x5] [1; 1] 70) as (rs & buf' & _ & E & _ & Hread & _); [split; [words_concrete|split; cbn; lia]|split; [words_concrete|split; cbn; lia]|lia|cbn; lia|lia|lia|].
  assert (snd <$> bitmap_scnlistprintf sep_env 0x10000 (replicate 30 7) 30 [0xf00000001; 0x5] 70 = Some 13) as E13 by (vm_compute; reflexivity). rewrite -> E in E13. injection E13 as E13.
  destruct Hread as (m' & E' & Hm'); [|change (Z.to_nat 30 - 1)%nat with 29%nat in *; lia|].
  { intros H. apply (bits_of_empty [0xf00000001; 0x5] 70) with (i := 0) in H; [discriminate H|lia]. }
  exists buf', m'. split; [rewrite -> E; f_equal; f_equal; exact E13|split; [exact E'|exact Hm']].
Defined.

(** ** Groups of hexadecimal digits *)

(** C28: bitmap_scnprintf writes the values of the groups of 32 bits, highest first, with all their digits; a buffer that is too small holds the beginning of that text, and nothing else of it changes.
    bitmap_parse reads a text that fits back as the same set, and bitmap_parse_user one in user memory, whatever the bitmap held before. *)
Theorem bitmap_hex_roundtrip env empty comma addr buf buflen m m0 n
    (Hempty : 4096 ≤ empty ∧ ∃ r, fe_mem env empty = Some (0 :: r)) (Hcomma : 4096 ≤ comma ∧ ∃ r, fe_mem env comma = Some (ch "," :: 0 :: r))
    (Hm : bitmap_ok m n) (Hm0 : bitmap_ok m0 n) (Hn : 0 < n < 2 ^ 31) (Hsize : 0 < buflen ≤ Z.of_nat (length buf)) (Hint : buflen < 2 ^ 31) (Haddr : addr + buflen < 2 ^ 64) :
  let L := (Z.to_nat buflen - 1)%nat in
  let text := groups_text m n (top_group n) in
  ∃ buf', bitmap_scnprintf env empty comma addr buf buflen m n = Some (buf', Z.of_nat (Nat.min (length text) L)) ∧ holds L buf buf' text ∧
    ((length text ≤ L)%nat → ∀ len, Z.of_nat (length text) ≤ len → ∃ m', bitmap_parse buf' len m0 n = Some (0, m') ∧ bits_of m' n = bits_of m n) ∧
    (∀ get_user ulen, src_at (User get_user) 0 text → text_ends (User get_user) 0 (Z.of_nat (length text)) ulen →
       ∃ m', bitmap_parse_user true get_user ulen m0 n = Some (0, m') ∧ bits_of m' n = bits_of m n).
Proof.
  cbn zeta. destruct (scnprintf_groups m n Hm Hn env empty comma addr buf buflen Hsize Hint Haddr Hempty Hcomma) as (buf' & E & Hh). exists buf'. do 2 (split; [done|]). set (text := groups_text _ _ _) in *. split.
  - intros Hfit len Hlen. destruct (holds_fits _ _ _ _ Hh Hfit) as (r & ->). destruct (parse_text (Kernel (text ++ 0 :: r)) m n Hm Hn m0 len Hm0 (src_at_kernel _ _)) as (m' & E' & _ & _ & Hm').
    { fold text. destruct (Z.eq_dec len (Z.of_nat (length text))) as [->|]; [by left|]. right. split; [lia|]. cbn [fetch]. rewrite -> (rd_middle text r 0 (0 + Z.of_nat (length text))) by lia. done. }
    exists m'. split; [exact E'|]. by apply bits_of_same.
  - intros get_user ulen Hat Hend. destruct (parse_text (User get_user) m n Hm Hn m0 ulen Hm0 Hat Hend) as (m' & E' & _ & _ & Hm'). exists m'. split; [exact E'|]. by apply bits_of_same.
Qed.

Lemma bitmap_hex_roundtrip_witness : ∃ buf', bitmap_scnprintf sep_env 5000 6000 0x10000 (replicate 30 7) 30 [0xf00000001; 0x5] 70 = Some (buf', 20) ∧
  ∃ m', bitmap_parse buf' 20 [1; 1] 70 = Some (0, m') ∧ bits_of m' 70 = bits_of [0xf00000001; 0x5] 70.
Proof.
  destruct (bitmap_hex_roundtrip sep_env 5000 6000 0x10000 (replicate 30 7) 30 [0xf00000001; 0x5] [1; 1] 70) as (buf' & E & _ & Hread & _);
    [split; [lia|by exists []]|split; [lia|by exists []]|split; [words_concrete|split; cbn; lia]|split; [words_concrete|split; cbn; lia]|lia|cbn; lia|lia|lia|].
  exists buf'. split; [exact E|]. apply Hread; vm_compute; [lia|done].
Defined.

(** ** Any text *)

(** For any text, in the kernel or of a user, the two parsers end without reading behind the text or writing outside the words of the bitmap.  They return 0, -EINVAL, -EOVERFLOW (hexadecimal) or
    -ERANGE (lists), and -EFAULT only if the text of a user cannot be read.  A bitmap that was read has no bit above its size. *)
Theorem bitmap_parsers_safe src len m n (Hsrc : source_ok src len) (Hm : bitmap_ok m n) (Hn : 0 < n < 2 ^ 31) :
  (∃ r m', __bitmap_parse src len m n = Some (r, m') ∧ parse_result src len EOVERFLOW r ∧ frame n m m' ∧ (r = 0 → clean m' n)) ∧
  (∃ r m', __bitmap_parselist src len m n = Some (r, m') ∧ parse_result src len ERANGE r ∧ frame n m m' ∧ clean m' n).
Proof. split; [by apply parse_safe|by apply parselist_safe]. Qed.

Lemma bitmap_parsers_safe_witness : (∃ r m', __bitmap_parse (Kernel (cstr " f,,")) 4 [1; 1] 70 = Some (r, m') ∧ parse_result (Kernel (cstr " f,,")) 4 EOVERFLOW r) ∧
  (∃ r m', __bitmap_parselist (Kernel (cstr " f,,")) 4 [1; 1] 70 = Some (r, m') ∧ clean m' 70).
Proof.
  destruct (bitmap_parsers_safe (Kernel (cstr " f,,")) 4 [1; 1] 70) as [(r & m' & E & Hr & _) (r2 & m2 & E2 & _ & _ & Hc)];
    [split; [lia|split; [cbn; lia|repeat constructor; vm_compute; congruence]]|split; [words_concrete|split; cbn; lia]|lia|].
  split; [by exists r, m'|by exists r2, m2].
Defined.
