(* ===== verification/Idr.v ===== *)
(** * Small integers for pointers: lib/idr.c

    A tree of layers with 64 slots each; a leaf holds the pointers of the users.  Layers live in a store, NULL is address 0, and an access to an address without a layer
    is a fault.  A layer carries a bitmap (a slot that is set has no room left), the number of its slots in use and its distance from
    the leaves.  Layers that were preallocated hang in a list through their first slot.  The callers serialise all of these functions. *)
From S2P Require Import Prelude Bitops FindBit.
#[local] Open Scope Z_scope.

Definition IDR_BITS : Z := 6.
Definition IDR_FULL : Z := 0xffffffffffffffff.
Definition IDR_SIZE : Z := Z.shiftl 1 IDR_BITS.
Definition IDR_MASK : Z := Z.shiftl 1 IDR_BITS - 1.
Definition MAX_ID_SHIFT : Z := 31.
Definition MAX_ID_BIT : Z := Z.shiftl 1 MAX_ID_SHIFT.
Definition MAX_ID_MASK : Z := MAX_ID_BIT - 1.
Definition MAX_LEVEL : Z := (MAX_ID_SHIFT + IDR_BITS - 1) / IDR_BITS.
Definition IDR_FREE_MAX : Z := MAX_LEVEL + MAX_LEVEL.
Definition IDR_NEED_TO_GROW : Z := -2.
Definition IDR_NOMORE_SPACE : Z := -3.
Definition EAGAIN : Z := 11.
Definition ENOSPC : Z := 28.
Definition _idr_rc_to_errno (rc : Z) : Z := if rc =? -1 then - EAGAIN else - ENOSPC.

Record idr_layer := { bitmap : Z; ary : list Z; count : Z; layer : Z }.

(** [struct idr] with the store of layers, and the layers that were given to [call_rcu]. *)
Record idr := { top : Z; id_free : Z; layers : Z; id_free_cnt : Z; store : gmap Z idr_layer; rcu : list Z }.

(** What [kmem_cache_zalloc] returns. *)
Definition zero_layer : idr_layer := {| bitmap := 0; ary := replicate 64 0; count := 0; layer := 0 |}.

Definition set_bitmap (b : Z) (ly : idr_layer) : idr_layer := {| bitmap := b; ary := ary ly; count := count ly; layer := layer ly |}.
Definition set_ary (a : list Z) (ly : idr_layer) : idr_layer := {| bitmap := bitmap ly; ary := a; count := count ly; layer := layer ly |}.
Definition set_count (c : Z) (ly : idr_layer) : idr_layer := {| bitmap := bitmap ly; ary := ary ly; count := c; layer := layer ly |}.
Definition set_layer (l : Z) (ly : idr_layer) : idr_layer := {| bitmap := bitmap ly; ary := ary ly; count := count ly; layer := l |}.

Definition with_top (p : Z) (s : idr) : idr := {| top := p; id_free := id_free s; layers := layers s; id_free_cnt := id_free_cnt s; store := store s; rcu := rcu s |}.
Definition set_layers (n : Z) (s : idr) : idr := {| top := top s; id_free := id_free s; layers := n; id_free_cnt := id_free_cnt s; store := store s; rcu := rcu s |}.
Definition set_free (p n : Z) (s : idr) : idr := {| top := top s; id_free := p; layers := layers s; id_free_cnt := n; store := store s; rcu := rcu s |}.
Definition set_store (h : gmap Z idr_layer) (s : idr) : idr := {| top := top s; id_free := id_free s; layers := layers s; id_free_cnt := id_free_cnt s; store := h; rcu := rcu s |}.
Definition add_rcu (p : Z) (s : idr) : idr := {| top := top s; id_free := id_free s; layers := layers s; id_free_cnt := id_free_cnt s; store := store s; rcu := rcu s ++ [p] |}.

(** [*p]. *)
Definition at_layer (p : Z) (s : idr) : option idr_layer := store s !! p.
(** [*p = f( *p)]. *)
Definition upd_layer (p : Z) (f : idr_layer → option idr_layer) (s : idr) : option idr :=
  ly ← at_layer p s; ly ← f ly; Some (set_store (<[p := ly]> (store s)) s).
(** [p->ary[n]] and [p->ary[n] = q]. *)
Definition slot (p n : Z) (s : idr) : option Z := ly ← at_layer p s; rd (ary ly) n.
Definition set_slot (n q : Z) (ly : idr_layer) : option idr_layer := a ← wr (ary ly) n q; Some (set_ary a ly).

(** [__set_bit] and [__clear_bit] on one word. *)
Definition __set_bit (nr w : Z) : Z := Z.lor w (Z.shiftl 1 nr).
Definition __clear_bit (nr w : Z) : Z := Z.ldiff w (Z.shiftl 1 nr).

(** ** The list of preallocated layers *)

Definition get_from_free_list (s : idr) : option (Z * idr) :=
  let p := id_free s in
  if p =? 0 then Some (0, s) else
  next ← slot p 0 s;
  let s := set_free next (id_free_cnt s - 1) s in
  s ← upd_layer p (set_slot 0 0) s;
  Some (p, s).

Definition free_layer (p : Z) (s : idr) : idr := add_rcu p s.

Definition __move_to_free_list (p : Z) (s : idr) : option idr :=
  s ← upd_layer p (set_slot 0 (id_free s)) s;
  Some (set_free p (id_free_cnt s + 1) s).
Definition move_to_free_list (p : Z) (s : idr) : option idr := __move_to_free_list p s.

(** [kmem_cache_free]. *)
Definition kmem_cache_free (p : Z) (s : idr) : idr := set_store (delete p (store s)) s.

(** [alloc] is [kmem_cache_zalloc]: an address, or 0. *)
Definition idr_pre_get (alloc : gmap Z idr_layer → Z) (s : idr) : option (Z * idr) :=
  loop (Z.to_nat (IDR_FREE_MAX - id_free_cnt s) + 1)
    (λ s,
       if id_free_cnt s <? IDR_FREE_MAX then
         let new := alloc (store s) in
         if new =? 0 then Some (Stop (0, s)) else
         s ← move_to_free_list new (set_store (<[new := zero_layer]> (store s)) s);
         Some (Next s)
       else Some (Stop (1, s))) s.

(** ** Allocation *)

Definition idr_mark_full (pa : list Z) (id : Z) (s : idr) : option idr :=
  p ← rd pa 0;
  s ← upd_layer p (λ ly, Some (set_bitmap (__set_bit (Z.land id IDR_MASK) (bitmap ly)) ly)) s;
  loop (length pa)
    (λ '(p, l, id, s),
       ly ← at_layer p s;
       if negb (bitmap ly =? IDR_FULL) then Some (Stop s) else
       let l := l + 1 in
       p ← rd pa l;
       if p =? 0 then Some (Stop s) else
       let id := Z.shiftr id IDR_BITS in
       s ← upd_layer p (λ ly, Some (set_bitmap (__set_bit (Z.land id IDR_MASK) (bitmap ly)) ly)) s;
       Some (Next (p, l, id, s)))
    (p, 0, id, s).

(** The locals of [sub_alloc]. *)
Record alloc_state := { al_p : Z; al_l : Z; al_id : Z; al_pa : list Z; al_s : idr }.

(** [restart:]. *)
Definition alloc_restart (id : Z) (pa : list Z) (s : idr) : option alloc_state :=
  pa ← wr pa (layers s) 0;
  Some {| al_p := top s; al_l := layers s - 1; al_id := id; al_pa := pa; al_s := s |}.

(** No room in this layer: [Next] goes on one layer up or restarts. *)
Definition alloc_up (a : alloc_state) : option (ctl alloc_state (Z * alloc_state)) :=
  let s := al_s a in
  let l := al_l a + 1 in
  let oid := al_id a in
  let id := swrap 32 (Z.lor oid (swrap 32 (Z.shiftl 1 (IDR_BITS * l)) - 1) + 1) in
  if swrap 32 (Z.shiftl 1 (layers s * IDR_BITS)) <=? id then
    Some (Stop (IDR_NEED_TO_GROW, {| al_p := al_p a; al_l := l; al_id := id; al_pa := al_pa a; al_s := s |}))
  else
    p ← rd (al_pa a) l;
    if p =? 0 then None else
    let sh := IDR_BITS * (l + 1) in
    if Z.shiftr oid sh =? Z.shiftr id sh
    then Some (Next {| al_p := p; al_l := l; al_id := id; al_pa := al_pa a; al_s := s |})
    else a ← alloc_restart id (al_pa a) s; Some (Next a).

(** The child in slot [m], which is made if it is missing; 0 if that fails. *)
Definition alloc_child (p m l : Z) (s : idr) : option (Z * idr) :=
  q ← slot p m s;
  if negb (q =? 0) then Some (q, s) else
  '(new, s) ← get_from_free_list s;
  if new =? 0 then Some (0, s) else
  s ← upd_layer new (λ ly, Some (set_layer (l - 1) ly)) s;
  s ← upd_layer p (set_slot m new) s;
  s ← upd_layer p (λ ly, Some (set_count (count ly + 1) ly)) s;
  Some (new, s).

Definition alloc_step (a : alloc_state) : option (ctl alloc_state (Z * alloc_state)) :=
  let '(p, l, id, s) := (al_p a, al_l a, al_id a, al_s a) in
  ly ← at_layer p s;
  let n := Z.land (Z.shiftr id (IDR_BITS * l)) IDR_MASK in
  m ← find_next_bit [bnot 64 (bitmap ly)] IDR_SIZE n;
  if m =? IDR_SIZE then alloc_up a else
  let sh := IDR_BITS * l in
  let id := if negb (m =? n) then swrap 32 (Z.shiftl (Z.lxor (Z.lxor (Z.shiftr id sh) n) m) sh) else id in
  if (MAX_ID_BIT <=? wrap 32 id) || (id <? 0) then
    Some (Stop (IDR_NOMORE_SPACE, {| al_p := p; al_l := l; al_id := id; al_pa := al_pa a; al_s := s |}))
  else if l =? 0 then
    pa ← wr (al_pa a) l p;
    Some (Stop (id, {| al_p := p; al_l := l; al_id := id; al_pa := pa; al_s := s |}))
  else
    '(q, s) ← alloc_child p m l s;
    if q =? 0 then Some (Stop (-1, {| al_p := p; al_l := l; al_id := id; al_pa := al_pa a; al_s := s |})) else
    pa ← wr (al_pa a) l p;
    Some (Next {| al_p := q; al_l := l - 1; al_id := id; al_pa := pa; al_s := s |}).

(** The result, the new value of [*starting_id], the path and the handle. *)
Definition sub_alloc (s : idr) (starting_id : Z) (pa : list Z) : option (Z * Z * list Z * idr) :=
  a ← alloc_restart starting_id pa s;
  '(v, a) ← loop (Z.to_nat ((layers s + 2) * (layers s + 2))) alloc_step a;
  Some (v, if v =? IDR_NEED_TO_GROW then al_id a else starting_id, al_pa a, al_s a).

(** The layers that were built are given back. *)
Definition tear_down (p : Z) (s : idr) : option idr :=
  loop (Z.to_nat MAX_LEVEL + 1)
    (λ '(p, s),
       if (p =? 0) || (p =? top s) then Some (Stop s) else
       let new := p in
       p ← slot p 0 s;
       s ← upd_layer new (set_slot 0 0) s;
       s ← upd_layer new (λ ly, Some (set_bitmap 0 (set_count 0 ly))) s;
       s ← __move_to_free_list new s;
       Some (Next (p, s))) (p, s).

(** The new layer above [p]. *)
Definition push_layer (new p nlayers : Z) (s : idr) : option idr :=
  s ← upd_layer new (set_slot 0 p) s;
  s ← upd_layer new (λ nw, Some (set_layer (nlayers - 1) (set_count 1 nw))) s;
  ly ← at_layer p s;
  if bitmap ly =? IDR_FULL then upd_layer new (λ nw, Some (set_bitmap (__set_bit 0 (bitmap nw)) nw)) s else Some s.

(** [while ((layers < (MAX_LEVEL - 1)) && (id >= (1 << (layers*IDR_BITS))))]: the top and the number of layers, or no memory. *)
Definition grow (id p nlayers : Z) (s : idr) : option (option (Z * Z) * idr) :=
  loop (Z.to_nat MAX_LEVEL + 1)
    (λ '(p, nlayers, s),
       if (nlayers <? MAX_LEVEL - 1) && (swrap 32 (Z.shiftl 1 (nlayers * IDR_BITS)) <=? id) then
         let nlayers := nlayers + 1 in
         ly ← at_layer p s;
         if count ly =? 0 then
           s ← upd_layer p (λ ly, Some (set_layer (layer ly + 1) ly)) s;
           Some (Next (p, nlayers, s))
         else
           '(new, s) ← get_from_free_list s;
           if new =? 0 then s ← tear_down p s; Some (Stop (None, s)) else
           s ← push_layer new p nlayers s;
           Some (Next (new, nlayers, s))
       else Some (Stop (Some (p, nlayers), s))) (p, nlayers, s).

(** One round from [build_up:]. *)
Definition slot_step : Z * list Z * idr → option (ctl (Z * list Z * idr) (Z * list Z * idr)) :=
  λ '(id, pa, s),
    '(p, nlayers, s) ← (if top s =? 0 then
                          '(p, s) ← get_from_free_list s;
                          if p =? 0 then Some (0, 0, s) else
                          s ← upd_layer p (λ ly, Some (set_layer 0 ly)) s; Some (p, 1, s)
                        else Some (top s, layers s, s));
    if p =? 0 then Some (Stop (-1, pa, s)) else
    '(r, s) ← grow id p nlayers s;
    match r with
    | None => Some (Stop (-1, pa, s))
    | Some (p, nlayers) =>
        let s := set_layers nlayers (with_top p s) in
        '(v, id, pa, s) ← sub_alloc s id pa;
        Some (if v =? IDR_NEED_TO_GROW then Next (id, pa, s) else Stop (v, pa, s))
    end.

Definition idr_get_empty_slot (s : idr) (starting_id : Z) (pa : list Z) : option (Z * list Z * idr) :=
  loop (Z.to_nat MAX_LEVEL + 1) slot_step (starting_id, pa, s).

Definition idr_get_new_above_int (s : idr) (ptr starting_id : Z) : option (Z * idr) :=
  '(id, pa, s) ← idr_get_empty_slot s starting_id (replicate (Z.to_nat MAX_LEVEL) 0);
  if 0 <=? id then
    p ← rd pa 0;
    s ← upd_layer p (set_slot (Z.land id IDR_MASK) ptr) s;
    s ← upd_layer p (λ ly, Some (set_count (count ly + 1) ly)) s;
    s ← idr_mark_full pa id s;
    Some (id, s)
  else Some (id, s).

(** The result, the id ([id] is untouched on an error) and the handle. *)
Definition idr_get_new_above (s : idr) (ptr starting_id id : Z) : option (Z * Z * idr) :=
  '(rv, s) ← idr_get_new_above_int s ptr starting_id;
  Some (if rv <? 0 then (_idr_rc_to_errno rv, id, s) else (0, rv, s)).
Definition idr_get_new (s : idr) (ptr id : Z) : option (Z * Z * idr) :=
  '(rv, s) ← idr_get_new_above_int s ptr 0;
  Some (if rv <? 0 then (_idr_rc_to_errno rv, id, s) else (0, rv, s)).

(** ** Removal *)

(** A place where a pointer to a layer is kept: [&idp->top] or [&p->ary[n]]. *)
Inductive link := Top | Slot (p n : Z).
Definition follow_link (k : link) (s : idr) : option Z := match k with Top => Some (top s) | Slot p n => slot p n s end.
Definition write_link (k : link) (q : Z) (s : idr) : option idr := match k with Top => Some (with_top q s) | Slot p n => upd_layer p (set_slot n q) s end.

(** [while ((shift > 0) && p)]: the layer and the links to it, the last one first. *)
Fixpoint remove_walk (fuel : nat) (shift id p : Z) (paa : list link) (s : idr) : option (Z * list link * idr) :=
  match fuel with
  | O => None
  | S fuel =>
      if (0 <? shift) && negb (p =? 0) then
        let n := Z.land (Z.shiftr id shift) IDR_MASK in
        s ← upd_layer p (λ ly, Some (set_bitmap (__clear_bit n (bitmap ly)) ly)) s;
        q ← slot p n s;
        remove_walk fuel (shift - IDR_BITS) id q (Slot p n :: paa) s
      else Some (p, paa, s)
  end.

(** [while( *paa && ! --(( **paa)->count))]: the links that are left and the last layer. *)
Fixpoint release (paa : list link) (to_free : Z) (s : idr) : option (list link * Z * idr) :=
  match paa with
  | [] => Some ([], to_free, s)
  | k :: paa' =>
      q ← follow_link k s;
      s ← upd_layer q (λ ly, Some (set_count (count ly - 1) ly)) s;
      ly ← at_layer q s;
      if count ly =? 0 then
        let s := if negb (to_free =? 0) then free_layer to_free s else s in
        s ← write_link k 0 s;
        release paa' q s
      else Some (paa, to_free, s)
  end.

(** [true] for the warning. *)
Definition sub_remove (s : idr) (shift id : Z) : option (bool * idr) :=
  '(p, paa, s) ← remove_walk (Z.to_nat MAX_LEVEL + 1) shift id (top s) [Top] s;
  let n := Z.land id IDR_MASK in
  set ← (if p =? 0 then Some false else ly ← at_layer p s; Some (Z.testbit (bitmap ly) n));
  if set : bool then
    s ← upd_layer p (λ ly, Some (set_bitmap (__clear_bit n (bitmap ly)) ly)) s;
    s ← upd_layer p (set_slot n 0) s;
    '(paa, to_free, s) ← release paa 0 s;
    let s := match paa with [] => set_layers 0 s | _ => s end in
    Some (false, if negb (to_free =? 0) then free_layer to_free s else s)
  else Some (true, s).

(** [while (idp->id_free_cnt >= IDR_FREE_MAX)]. *)
Definition trim (s : idr) : option idr :=
  loop (Z.to_nat (id_free_cnt s) + 1)
    (λ s, if IDR_FREE_MAX <=? id_free_cnt s then '(p, s) ← get_from_free_list s; Some (Next (kmem_cache_free p s)) else Some (Stop s)) s.

(** A tree whose top has only its first slot loses a layer. *)
Definition shrink (s : idr) : option idr :=
  if top s =? 0 then Some s else
  ly ← at_layer (top s) s;
  if (count ly =? 1) && (1 <? layers s) then
    p ← slot (top s) 0 s;
    if p =? 0 then Some s else
    let to_free := top s in
    let s := set_layers (layers s - 1) (with_top p s) in
    s ← upd_layer to_free (λ ly, Some (set_bitmap 0 (set_count 0 ly))) s;
    Some (free_layer to_free s)
  else Some s.

Definition idr_remove (s : idr) (id : Z) : option (bool * idr) :=
  let id := Z.land id MAX_ID_MASK in
  '(warned, s) ← sub_remove s ((layers s - 1) * IDR_BITS) id;
  s ← shrink s;
  s ← trim s;
  Some (warned, s).

Definition idr_destroy (s : idr) : option idr :=
  loop (Z.to_nat (id_free_cnt s) + 1)
    (λ s, if id_free_cnt s =? 0 then Some (Stop s) else '(p, s) ← get_from_free_list s; Some (Next (kmem_cache_free p s))) s.

(** ** Lookup *)

(** [while (n > 0 && p)]; the layer says how far it is from the leaves. *)
Fixpoint find_walk (fuel : nat) (n id p : Z) (s : idr) : option Z :=
  match fuel with
  | O => None
  | S fuel =>
      if (0 <? n) && negb (p =? 0) then
        let n := n - IDR_BITS in
        ly ← at_layer p s;
        if negb (n =? layer ly * IDR_BITS) then None else
        q ← slot p (Z.land (Z.shiftr id n) IDR_MASK) s;
        find_walk fuel n id q s
      else Some p
  end.

Definition idr_find (s : idr) (id : Z) : option Z :=
  let p := top s in
  if p =? 0 then Some 0 else
  ly ← at_layer p s;
  let n := (layer ly + 1) * IDR_BITS in
  let id := Z.land id MAX_ID_MASK in
  if swrap 32 (Z.shiftl 1 n) <=? id then Some 0 else
  if n =? 0 then None else
  find_walk (Z.to_nat MAX_LEVEL + 1) n id p s.

(** [while ((n > 0) && p)]. *)
Fixpoint replace_walk (fuel : nat) (n id p : Z) (s : idr) : option Z :=
  match fuel with
  | O => None
  | S fuel =>
      if (0 <? n) && negb (p =? 0) then
        q ← slot p (Z.land (Z.shiftr id n) IDR_MASK) s;
        replace_walk fuel (n - IDR_BITS) id q s
      else Some p
  end.

(** The old pointer, or a negative error number ([ERR_PTR]). *)
Definition idr_replace (s : idr) (ptr id : Z) : option (Z * idr) :=
  let p := top s in
  if p =? 0 then Some (- EINVAL, s) else
  ly ← at_layer p s;
  let n := (layer ly + 1) * IDR_BITS in
  let id := Z.land id MAX_ID_MASK in
  if swrap 32 (Z.shiftl 1 n) <=? id then Some (- EINVAL, s) else
  p ← replace_walk (Z.to_nat MAX_LEVEL + 1) (n - IDR_BITS) id p s;
  let n := Z.land id IDR_MASK in
  set ← (if p =? 0 then Some false else ly ← at_layer p s; Some (Z.testbit (bitmap ly) n));
  if negb set then Some (- ENOENT, s) else
  old_p ← slot p n s;
  s ← upd_layer p (set_slot n ptr) s;
  Some (old_p, s).

Definition idr_init : idr := {| top := 0; id_free := 0; layers := 0; id_free_cnt := 0; store := ∅; rcu := [] |}.

(** ** Walks through the tree *)

(** [while (n > low && p)]: the walk down, with the layers above, the last one first. *)
Fixpoint walk_down (fuel : nat) (low n id p : Z) (paa : list Z) (s : idr) : option (Z * Z * list Z) :=
  match fuel with
  | O => None
  | S fuel =>
      if (low <? n) && negb (p =? 0) then
        let n := n - IDR_BITS in
        q ← slot p (Z.land (Z.shiftr id n) IDR_MASK) s;
        walk_down fuel low n id q (p :: paa) s
      else Some (n, p, paa)
  end.

(** [while (n < fls(id)) { n += IDR_BITS; p = *--paa; }]; the last round reads below the array, and [below] is what it finds there. *)
Fixpoint walk_up (fuel : nat) (n bits p below : Z) (paa : list Z) : option (Z * Z * list Z) :=
  match fuel with
  | O => None
  | S fuel =>
      if n <? bits then
        match paa with
        | p :: paa => walk_up fuel (n + IDR_BITS) bits p below paa
        | [] => if n + IDR_BITS <? bits then None else Some (n + IDR_BITS, below, [])
        end
      else Some (n, p, paa)
  end.

(** The pointer and [*nextidp]. *)
Definition idr_get_next (s : idr) (below nextid : Z) : option (Z * Z) :=
  let p := top s in
  if p =? 0 then Some (0, nextid) else
  ly ← at_layer p s;
  let n := (layer ly + 1) * IDR_BITS in
  let max := swrap 32 (Z.shiftl 1 n) in
  loop (65 * size (store s) + 65)
    (λ '(n, id, p, paa),
       if max <=? id then Some (Stop (0, nextid)) else
       '(n, p, paa) ← walk_down (Z.to_nat MAX_LEVEL + 1) 0 n id p paa s;
       if negb (p =? 0) then Some (Stop (p, id)) else
       let id := swrap 32 (id + Z.shiftl 1 n) in
       '(n, p, paa) ← walk_up (Z.to_nat MAX_LEVEL + 1) n (fls (wrap 32 id)) p below paa;
       Some (Next (n, id, p, paa)))
    (n, nextid, p, []).

(** The result of the callback that is not 0, or 0; the callback [fn] works on the data of the caller. *)
Definition idr_for_each {D} (fn : Z → Z → D → Z * D) (s : idr) (below : Z) (data : D) : option (Z * D) :=
  let n := layers s * IDR_BITS in
  let max := swrap 32 (Z.shiftl 1 n) in
  loop (65 * size (store s) + 65)
    (λ '(n, id, p, paa, data),
       if max <=? id then Some (Stop (0, data)) else
       '(n, p, paa) ← walk_down (Z.to_nat MAX_LEVEL + 1) 0 n id p paa s;
       let '(error, data) := if negb (p =? 0) then fn id p data else (0, data) in
       if negb (error =? 0) then Some (Stop (error, data)) else
       let id := swrap 32 (id + Z.shiftl 1 n) in
       '(n, p, paa) ← walk_up (Z.to_nat MAX_LEVEL + 1) n (fls (wrap 32 id)) p below paa;
       Some (Next (n, id, p, paa, data)))
    (n, 0, top s, [], data).

(** [if (p) free_layer(p)] in the walk up. *)
Fixpoint free_up (fuel : nat) (n bits p below : Z) (paa : list Z) (s : idr) : option (Z * Z * list Z * idr) :=
  match fuel with
  | O => None
  | S fuel =>
      if n <? bits then
        let s := if negb (p =? 0) then free_layer p s else s in
        match paa with
        | p :: paa => free_up fuel (n + IDR_BITS) bits p below paa s
        | [] => if n + IDR_BITS <? bits then None else Some (n + IDR_BITS, below, [], s)
        end
      else Some (n, p, paa, s)
  end.

Definition idr_remove_all (s : idr) (below : Z) : option idr :=
  let n := layers s * IDR_BITS in
  let p := top s in
  let s := with_top 0 s in
  let max := swrap 32 (Z.shiftl 1 n) in
  s ← loop (65 * size (store s) + 65)
    (λ '(n, id, p, paa, s),
       if max <=? id then Some (Stop s) else
       '(n, p, paa) ← walk_down (Z.to_nat MAX_LEVEL + 1) IDR_BITS n id p paa s;
       let bt_mask := id in
       let id := swrap 32 (id + Z.shiftl 1 n) in
       '(n, p, paa, s) ← free_up (Z.to_nat MAX_LEVEL + 1) n (fls (wrap 32 (Z.lxor id bt_mask))) p below paa s;
       Some (Next (n, id, p, paa, s)))
    (n, 0, p, [], s);
  Some (set_layers 0 s).

(** ** Examples *)

Definition demo_alloc (h : gmap Z idr_layer) : Z := 1 + foldr Z.max 0 (map_to_list h).*1.

(** A new idr with the given ids; the pointer of an id is 7 more. *)
Definition demo_idr (ids : list Z) : option idr :=
  foldl (λ s id, s ← s; '(_, s) ← idr_pre_get demo_alloc s; '(_, _, s) ← idr_get_new_above s (id + 7) id 0; Some s) (Some idr_init) ids.

Example idr_demo :
  (s ← demo_idr [0; 0; 5; 70; 5000];
   a ← idr_find s 0; b ← idr_find s 1; c ← idr_find s 70; d ← idr_find s 6;
   '(_, n, _) ← idr_get_new_above s 9 5 0;
   '(w, s) ← idr_remove s 5000;
   '(ids) ← idr_for_each (λ id p l, (0, l ++ [(id, p)])) s 0 [];
   Some (a, b, c, d, n, w, layers s, ids)) = Some (7, 7, 77, 0, 6, false, 2, (0, [(0, 7); (1, 7); (5, 12); (70, 77)])).
Proof. vm_compute. reflexivity. Qed.

(** Ids from 2^30 on: the id that is handed out is not the one that is stored. *)
Example idr_high_id :
  (s ← demo_idr [2 ^ 30 + 5]; '(_, n, s) ← idr_get_new_above s 99 (2 ^ 30 + 5) 0; a ← idr_find s n; b ← idr_find s 6; Some (n - 2 ^ 30, a, b)) = Some (6, 0, 99).
Proof. vm_compute. reflexivity. Qed.

(** Removing an id outside the tree removes another one. *)
Example idr_remove_alias : (s ← demo_idr [3]; '(w, s) ← idr_remove s 67; a ← idr_find s 3; Some (w, a)) = Some (false, 0).
Proof. vm_compute. reflexivity. Qed.

(** A search that starts in a layer that is missing skips ids. *)
Example idr_next_skips : (s ← demo_idr [64; 65; 127]; a ← idr_get_next s 0 63; b ← idr_get_next s 0 64; Some (a, b)) = Some ((134, 127), (71, 64)).
Proof. vm_compute. reflexivity. Qed.
