(* ===== verification/IdrRep.v ===== *)
(** * Small integers for pointers: the tree that a store holds

    A tree is described without pointers: [sh_addr l k] is the address of the layer at distance [l] from the leaves that covers the ids [k * 64^(l+1)] up to
    [(k+1) * 64^(l+1)], or 0; [sh_ids] maps the ids in use to their pointers; [sh_mark] and [sh_count] are the bits and the counters.  [holds] says that the store contains
    just this, [shape_ok] that the parts fit together.  The bit of a slot is kept for the slot's own level and index, so that the slot [i] of the layer [(l, k)] is
    [(l-1, 64 k + i)], and an id is a slot of level -1. *)
From S2P Require Import Prelude Bitops FindBit Idr.
#[local] Open Scope Z_scope.

(** ** Levels *)

(** The index at level [l] of the slot that an id is in: the id itself at level -1. *)
Definition idx (l id : Z) : Z := id / 64 ^ (l + 1).

Lemma idx_id id : idx (-1) id = id.
Proof. rw /idx. change (64 ^ (-1 + 1)) with 1. apply Z.div_1_r. Qed.

Lemma pow64_pos n : 0 ≤ n → 0 < 64 ^ n.
Proof. intros Hn. apply Z.pow_pos_nonneg; lia. Qed.

Lemma idx_up l id : -1 ≤ l → idx l id / 64 = idx (l + 1) id.
Proof.
  intros Hl. rw /idx. pose proof (pow64_pos (l + 1) ltac:(lia)). rewrite -> Z.div_div by lia. replace (l + 1 + 1) with (Z.succ (l + 1)) by lia. rewrite -> Z.pow_succ_r by lia. by rewrite -> (Z.mul_comm 64).
Qed.

Lemma idx_nonneg l id : -1 ≤ l → 0 ≤ id → 0 ≤ idx l id.
Proof. intros Hl Hid. apply Z.div_pos; [done|]. apply pow64_pos. lia. Qed.

Lemma idx_bound l id n : -1 ≤ l → l + 1 ≤ n → 0 ≤ id < 64 ^ n → idx l id < 64 ^ (n - 1 - l).
Proof.
  intros Hl Hn Hid. rw /idx. apply Z.div_lt_upper_bound; [apply pow64_pos; lia|]. rewrite <- Z.pow_add_r by lia. replace (l + 1 + (n - 1 - l)) with n by lia. lia.
Qed.

Lemma idx_top id n : 1 ≤ n → 0 ≤ id < 64 ^ n → idx (n - 1) id = 0.
Proof. intros Hn Hid. rw /idx. replace (n - 1 + 1) with n by lia. by apply Z.div_small. Qed.

(** The digit of an id in the layer at level [l], as the code computes it. *)
Definition digit (l id : Z) : Z := Z.land (Z.shiftr id (IDR_BITS * l)) IDR_MASK.

Lemma shift_idx l id : 0 ≤ l → Z.shiftr id (IDR_BITS * l) = idx (l - 1) id.
Proof. intros Hl. rw /IDR_BITS /idx. rewrite -> Z.shiftr_div_pow2, Z.pow_mul_r by lia. by replace (l - 1 + 1) with l by lia. Qed.

Lemma digit_mod l id : 0 ≤ l → digit l id = idx (l - 1) id mod 64.
Proof. intros Hl. rw /digit. rewrite -> shift_idx by done. change IDR_MASK with (Z.ones 6). by rewrite -> Z.land_ones by lia. Qed.

Lemma digit_range l id : 0 ≤ l → 0 ≤ digit l id < 64.
Proof. intros Hl. rewrite -> digit_mod by done. apply Z.mod_pos_bound. lia. Qed.

(** The slot of an id in its layer. *)
Lemma digit_idx l id : 0 ≤ l → 64 * idx l id + digit l id = idx (l - 1) id.
Proof. intros Hl. rewrite -> digit_mod by done. replace l with (l - 1 + 1) at 1 by lia. rewrite <- idx_up by lia. pose proof (Z.div_mod (idx (l - 1) id) 64). lia. Qed.

(** ** Shapes *)

Record shape := { sh_addr : Z → Z → Z; sh_ids : gmap Z Z; sh_mark : Z → Z → bool; sh_count : Z → Z → Z }.

(** What a slot contains: a layer, or the pointer of an id. *)
Definition cell (sh : shape) (l j : Z) : Z := if l =? -1 then default 0 (sh_ids sh !! j) else sh_addr sh l j.
Definition used (sh : shape) (l j : Z) : bool := if l =? -1 then bool_decide (is_Some (sh_ids sh !! j)) else negb (sh_addr sh l j =? 0).
(** All ids of a slot are in use. *)
Definition full (F : gmap Z Z) (l j : Z) : Prop := ∀ id, idx l id = j → is_Some (F !! id).

(** The slots in use of a layer. *)
Definition uses (f : Z → bool) : Z := Z.of_nat (length (filter (λ i, f i = true) (seqZ 0 64))).

Record node_is (sh : shape) (l k : Z) (ly : idr_layer) : Prop := {
  is_layer : layer ly = l;
  is_length : length (ary ly) = 64%nat;
  is_ary : ∀ i, 0 ≤ i < 64 → rd (ary ly) i = Some (cell sh (l - 1) (64 * k + i));
  is_width : in_width 64 (bitmap ly);
  is_bits : ∀ i, 0 ≤ i < 64 → Z.testbit (bitmap ly) i = sh_mark sh (l - 1) (64 * k + i);
  is_count : count ly = sh_count sh l k
}.

Definition holds (h : gmap Z idr_layer) (sh : shape) : Prop :=
  ∀ l k, sh_addr sh l k ≠ 0 → ∃ ly, h !! sh_addr sh l k = Some ly ∧ node_is sh l k ly.

(** How the layers of a tree of [n] levels hang together. *)
Record linked (sh : shape) (n : Z) : Prop := {
  lk_levels : 0 ≤ n ≤ 5;
  lk_top : 0 < n → sh_addr sh (n - 1) 0 ≠ 0;
  lk_range l k : sh_addr sh l k ≠ 0 → 0 ≤ l < n ∧ 0 ≤ k < 64 ^ (n - 1 - l);
  lk_parent l k : sh_addr sh l k ≠ 0 → l + 1 < n → sh_addr sh (l + 1) (k / 64) ≠ 0;
  lk_inj l k l' k' : sh_addr sh l k ≠ 0 → sh_addr sh l k = sh_addr sh l' k' → l = l' ∧ k = k';
  lk_ids id : is_Some (sh_ids sh !! id) → sh_addr sh 0 (idx 0 id) ≠ 0
}.
Definition marked (sh : shape) : Prop := ∀ l j, -1 ≤ l → sh_mark sh l j = true ↔ full (sh_ids sh) l j.
Definition counted (sh : shape) : Prop := ∀ l k, sh_addr sh l k ≠ 0 → sh_count sh l k = uses (λ i, used sh (l - 1) (64 * k + i)).

Record shape_ok (sh : shape) (n : Z) : Prop := { so_linked : linked sh n; so_marked : marked sh; so_counted : counted sh }.

(** ** The list of preallocated layers *)

Definition blank (next : Z) (ly : idr_layer) : Prop := bitmap ly = 0 ∧ ary ly = next :: replicate 63 0 ∧ count ly = 0.

Fixpoint chain (h : gmap Z idr_layer) (p : Z) (fl : list Z) : Prop :=
  match fl with
  | [] => p = 0
  | a :: fl => p = a ∧ a ≠ 0 ∧ ∃ ly next, h !! a = Some ly ∧ blank next ly ∧ chain h next fl
  end.

(** Every layer of the store is in one place: in the tree, or once among the addresses [P]. *)
Record places (h : gmap Z idr_layer) (sh : shape) (P : list Z) : Prop := {
  pl_nodup : NoDup P;
  pl_apart l k : sh_addr sh l k ≠ 0 → sh_addr sh l k ∉ P;
  pl_in a : a ∈ P → a ≠ 0 ∧ is_Some (h !! a);
  pl_owned a : is_Some (h !! a) → a ∈ P ∨ ∃ l k, sh_addr sh l k = a ∧ a ≠ 0
}.

(** The list of preallocated layers, and the layers [X] that are between places. *)
Record spare (s : idr) (sh : shape) (X fl : list Z) : Prop := {
  sp_chain : chain (store s) (id_free s) fl;
  sp_count : id_free_cnt s = Z.of_nat (length fl);
  sp_places : places (store s) sh (X ++ fl ++ rcu s)
}.

(** The handle holds a tree; nothing is between places. *)
Record idr_rep (s : idr) (sh : shape) (fl : list Z) : Prop := {
  rep_shape : shape_ok sh (layers s);
  rep_holds : holds (store s) sh;
  rep_top : top s = if layers s =? 0 then 0 else sh_addr sh (layers s - 1) 0;
  rep_spare : spare s sh [] fl
}.

(** ** Reading *)

Lemma slot_cell s sh l k i : holds (store s) sh → sh_addr sh l k ≠ 0 → 0 ≤ i < 64 → slot (sh_addr sh l k) i s = Some (cell sh (l - 1) (64 * k + i)).
Proof. intros Hh Ha Hi. destruct (Hh l k Ha) as (ly & E & Hn). rw /slot /at_layer. rewrite -> E. cbn [mbind option_bind]. by apply Hn. Qed.

(** The slot of an id. *)
Lemma slot_digit s sh l id : holds (store s) sh → 0 ≤ l → sh_addr sh l (idx l id) ≠ 0 → slot (sh_addr sh l (idx l id)) (digit l id) s = Some (cell sh (l - 1) (idx (l - 1) id)).
Proof. intros Hh Hl Ha. rewrite -> (slot_cell s sh l (idx l id) (digit l id) Hh Ha) by (by apply digit_range). by rewrite -> digit_idx. Qed.

Lemma cell_addr sh l j : 0 ≤ l → cell sh l j = sh_addr sh l j.
Proof. intros Hl. rw /cell. by rewrite -> (proj2 (Z.eqb_neq l (-1))) by lia. Qed.

Lemma shift_levels n : 0 ≤ n ≤ 5 → swrap 32 (Z.shiftl 1 (n * IDR_BITS)) = 64 ^ n.
Proof. intros Hn. assert (n ∈ seqZ 0 6) as Hin by (apply elem_of_seqZ; lia). clear Hn. revert n Hin. apply Forall_forall. repeat constructor. Qed.

Lemma mask_id id : 0 ≤ id < 2 ^ 31 → Z.land id MAX_ID_MASK = id.
Proof. intros Hid. change MAX_ID_MASK with (Z.ones 31). rewrite -> Z.land_ones by lia. by apply Z.mod_small. Qed.

Section linked.
Context (sh : shape) (n : Z) (Hk : linked sh n).

(** A layer has all layers above it. *)
Lemma present_up l l' id : 0 ≤ l ≤ l' → l' < n → sh_addr sh l (idx l id) ≠ 0 → sh_addr sh l' (idx l' id) ≠ 0.
Proof using Hk.
  intros [Hl Hle] Hn Ha. assert (∀ m : nat, l + Z.of_nat m < n → sh_addr sh (l + Z.of_nat m) (idx (l + Z.of_nat m) id) ≠ 0) as H.
  { induction m as [|m IH]; intros Hm; [by rewrite -> Z.add_0_r|]. specialize (IH ltac:(lia)). pose proof (lk_parent sh n Hk _ _ IH ltac:(lia)) as Hp. rewrite -> idx_up in Hp by lia.
    by replace (l + Z.of_nat (S m)) with (l + Z.of_nat m + 1) by lia. }
  specialize (H (Z.to_nat (l' - l))). rewrite -> Z2Nat.id in H by lia. replace (l + (l' - l)) with l' in H by lia. by apply H.
Qed.

Lemma id_present l id : is_Some (sh_ids sh !! id) → 0 ≤ l < n → sh_addr sh l (idx l id) ≠ 0.
Proof using Hk. intros Hid Hl. apply (present_up 0 l); [lia|lia|]. by apply (lk_ids sh n Hk). Qed.

Lemma absent_none l id : 0 ≤ l < n → sh_addr sh l (idx l id) = 0 → sh_ids sh !! id = None.
Proof using Hk. intros Hl Ha. destruct (sh_ids sh !! id) eqn:E; [|done]. exfalso. by apply (id_present l id); [rewrite -> E|..]. Qed.

Lemma id_range id : is_Some (sh_ids sh !! id) → 0 ≤ id < 64 ^ n.
Proof using Hk.
  intros Hid. apply (lk_ids sh n Hk) in Hid. destruct (lk_range sh n Hk _ _ Hid) as [Hn [H0 H1]]. rw /idx in H0, H1. change (64 ^ (0 + 1)) with 64 in *. rewrite -> Z.sub_0_r in H1.
  replace n with (Z.succ (n - 1)) by lia. rewrite -> Z.pow_succ_r by lia. zdm.
Qed.

Lemma child_parent l k i : 0 ≤ i < 64 → 0 < l → sh_addr sh (l - 1) (64 * k + i) ≠ 0 → l < n → sh_addr sh l k ≠ 0.
Proof using Hk.
  intros Hi Hl Ha Hn. pose proof (lk_parent sh n Hk _ _ Ha ltac:(lia)) as Hp. replace (l - 1 + 1) with l in Hp by lia. by replace ((64 * k + i) / 64) with k in Hp by zdm.
Qed.
End linked.

(** ** Lookup *)

Lemma find_walk_ok s sh n l id fuel : linked sh n → holds (store s) sh → -1 ≤ l < n → (Z.to_nat (l + 1) < fuel)%nat →
  find_walk fuel ((l + 1) * IDR_BITS) id (cell sh l (idx l id)) s = Some (default 0 (sh_ids sh !! id)).
Proof.
  intros Hk Hh. revert l. induction fuel as [|fuel IH]; intros l Hl Hf; [lia|]. cbn [find_walk]. rw /IDR_BITS. destruct (Z.eq_dec l (-1)) as [->|Hne].
  { change (0 <? (-1 + 1) * 6) with false. cbn [andb]. rw /cell. by rewrite -> idx_id. }
  rewrite -> (cell_addr sh l) by lia. rewrite -> (proj2 (Z.ltb_lt 0 ((l + 1) * 6))) by lia. destruct (Z.eqb_spec (sh_addr sh l (idx l id)) 0) as [E|Ha]; cbn [andb negb].
  { rewrite -> E. by rewrite -> (absent_none sh n Hk l id) by (done || lia). }
  destruct (Hh _ _ Ha) as (ly & E & Hn). rw /at_layer. rewrite -> E. cbn [mbind option_bind]. rewrite -> (is_layer _ _ _ _ Hn). replace ((l + 1) * 6 - 6) with (6 * l) by lia.
  rewrite -> (proj2 (Z.eqb_eq (6 * l) (l * 6))) by lia. cbn [negb]. change (Z.land (Z.shiftr id (6 * l)) IDR_MASK) with (digit l id). rewrite -> (slot_digit s sh l id Hh ltac:(lia) Ha). cbn [mbind option_bind].
  replace (6 * l) with ((l - 1 + 1) * IDR_BITS) by (rw /IDR_BITS; lia). apply IH; lia.
Qed.

Lemma top_cases s sh fl : idr_rep s sh fl →
  layers s = 0 ∧ top s = 0 ∧ (∀ id, sh_ids sh !! id = None) ∨
  1 ≤ layers s ≤ 5 ∧ top s = sh_addr sh (layers s - 1) 0 ∧ top s ≠ 0.
Proof.
  intros [Hs Hh Ht _]. destruct (so_linked _ _ Hs) as [Hn Htop Hr _ _ Hi]. destruct (Z.eqb_spec (layers s) 0) as [E|]; [left|right].
  - split_and!; [done|done|]. intros id. destruct (sh_ids sh !! id) eqn:Ei; [|done]. exfalso. destruct (Hr 0 (idx 0 id)); [apply Hi; by rewrite -> Ei|lia].
  - split_and!; [lia|lia|done|]. rewrite -> Ht. apply Htop. lia.
Qed.

Lemma idr_find_ok s sh fl id : idr_rep s sh fl → 0 ≤ id < 2 ^ 31 → idr_find s id = Some (default 0 (sh_ids sh !! id)).
Proof.
  intros Hrep Hid. rw /idr_find. destruct (top_cases s sh fl Hrep) as [(_ & -> & Hnone)|(Hn & Ht & Hne)]; [by rewrite -> Hnone|]. destruct Hrep as [Hs Hh _ _]. pose proof (so_linked _ _ Hs) as Hk.
  rewrite -> (proj2 (Z.eqb_neq _ 0)) by done. rewrite -> Ht in *. destruct (Hh _ _ Hne) as (ly & E & Hnode). rw /at_layer. rewrite -> E. cbn [mbind option_bind]. rewrite -> (is_layer _ _ _ _ Hnode).
  replace (layers s - 1 + 1) with (layers s) by lia. rewrite -> shift_levels, mask_id by (done || lia). destruct (Z.leb_spec (64 ^ layers s) id) as [Hbig|Hsmall].
  { destruct (sh_ids sh !! id) eqn:Ei; [|done]. exfalso. pose proof (id_range sh _ Hk id ltac:(by rewrite -> Ei)). lia. }
  rw /IDR_BITS. rewrite -> (proj2 (Z.eqb_neq (layers s * 6) 0)) by lia. pose proof (find_walk_ok s sh (layers s) (layers s - 1) id (Z.to_nat MAX_LEVEL + 1) Hk Hh ltac:(lia)) as Hf.
  rewrite -> cell_addr, idx_top in Hf by lia. replace (layers s - 1 + 1) with (layers s) in Hf by lia. apply Hf. change (Z.to_nat MAX_LEVEL) with 6%nat. lia.
Qed.

(** ** Writing *)

Definition fset {A} (f : Z → Z → A) (l k : Z) (v : A) : Z → Z → A := λ l' k', if (l' =? l) && (k' =? k) then v else f l' k'.

Lemma fset_eq {A} (f : Z → Z → A) l k v : fset f l k v l k = v.
Proof. rw /fset. by rewrite -> !Z.eqb_refl. Qed.
Lemma fset_ne {A} (f : Z → Z → A) l k v l' k' : l' ≠ l ∨ k' ≠ k → fset f l k v l' k' = f l' k'.
Proof. intros H. rw /fset. destruct (Z.eqb_spec l' l), (Z.eqb_spec k' k); done || lia. Qed.

Definition set_mark (sh : shape) (l j : Z) (b : bool) : shape := {| sh_addr := sh_addr sh; sh_ids := sh_ids sh; sh_mark := fset (sh_mark sh) l j b; sh_count := sh_count sh |}.
Definition set_cnt (sh : shape) (l k c : Z) : shape := {| sh_addr := sh_addr sh; sh_ids := sh_ids sh; sh_mark := sh_mark sh; sh_count := fset (sh_count sh) l k c |}.
Definition set_addr (sh : shape) (l k a : Z) : shape := {| sh_addr := fset (sh_addr sh) l k a; sh_ids := sh_ids sh; sh_mark := sh_mark sh; sh_count := sh_count sh |}.
Definition set_ids (sh : shape) (F : gmap Z Z) : shape := {| sh_addr := sh_addr sh; sh_ids := F; sh_mark := sh_mark sh; sh_count := sh_count sh |}.

(** The same places, seen from the layer [(l, k)]: what [node_is] looks at. *)
Lemma node_ext sh sh' l k ly :
  (∀ i, 0 ≤ i < 64 → cell sh' (l - 1) (64 * k + i) = cell sh (l - 1) (64 * k + i) ∧ sh_mark sh' (l - 1) (64 * k + i) = sh_mark sh (l - 1) (64 * k + i)) →
  sh_count sh' l k = sh_count sh l k → node_is sh l k ly → node_is sh' l k ly.
Proof.
  intros Hc Hn [H1 H2 H3 H4 H5 H6]. split; [done|done| |done| |by rewrite -> Hn].
  - intros i Hi. rewrite -> (proj1 (Hc i Hi)). by apply H3.
  - intros i Hi. rewrite -> (proj2 (Hc i Hi)). by apply H5.
Qed.

(** Slots of different layers are different. *)
Lemma slot_inj k i k' i' : 0 ≤ i < 64 → 0 ≤ i' < 64 → 64 * k + i = 64 * k' + i' → k = k' ∧ i = i'.
Proof. lia. Qed.

(** The handle after a store to the layer at [a]. *)
Definition stored (a : Z) (s s' : idr) : Prop := ∃ ly, is_Some (store s !! a) ∧ s' = set_store (<[a := ly]> (store s)) s.

Lemma holds_upd s sh sh' n l k f ly ly' : linked sh n → holds (store s) sh → sh_addr sh l k ≠ 0 → store s !! sh_addr sh l k = Some ly → f ly = Some ly' →
  sh_addr sh' = sh_addr sh → node_is sh' l k ly' → (∀ l' k' ly0, l' ≠ l ∨ k' ≠ k → node_is sh l' k' ly0 → node_is sh' l' k' ly0) →
  ∃ s', upd_layer (sh_addr sh l k) f s = Some s' ∧ holds (store s') sh' ∧ stored (sh_addr sh l k) s s'.
Proof.
  intros Hk Hh Ha E Ef Hsame Hnode Hrest. rw /upd_layer /at_layer. rewrite -> E. cbn [mbind option_bind]. rewrite -> Ef. cbn [mbind option_bind]. eexists. split; [done|]. split; [|exists ly'; by rewrite -> E].
  intros l' k' Ha'. rewrite -> Hsame in *. cbn [store set_store]. destruct (decide (l' = l ∧ k' = k)) as [[-> ->]|Hne].
  - exists ly'. by rewrite -> lookup_insert_eq.
  - rewrite -> lookup_insert_ne by (intros Hc; apply Hne; destruct (lk_inj sh n Hk l k l' k' Ha Hc); done). destruct (Hh l' k' Ha') as (ly0 & E0 & Hn0). exists ly0. split; [done|]. apply Hrest; [lia|done].
Qed.

Lemma testbit_set i w j : 0 ≤ i → 0 ≤ j → Z.testbit (__set_bit i w) j = (j =? i) || Z.testbit w j.
Proof. intros Hi Hj. rw /__set_bit. rewrite -> Z.lor_spec, Z.shiftl_1_l, Z.pow2_bits_eqb, orb_comm by lia. by rewrite -> Z.eqb_sym. Qed.
Lemma testbit_clear i w j : 0 ≤ i → 0 ≤ j → Z.testbit (__clear_bit i w) j = negb (j =? i) && Z.testbit w j.
Proof. intros Hi Hj. rw /__clear_bit. rewrite -> Z.ldiff_spec, Z.shiftl_1_l, Z.pow2_bits_eqb, andb_comm by lia. by rewrite -> Z.eqb_sym. Qed.

Lemma width_set i w : 0 ≤ i < 64 → in_width 64 w → in_width 64 (__set_bit i w).
Proof.
  intros Hi Hw. rw /__set_bit. rewrite -> Z.shiftl_1_l. apply in_width_lor; [lia|done|]. split; [apply Z.pow_nonneg; lia|]. apply Z.pow_lt_mono_r; lia.
Qed.
Lemma width_clear i w : 0 ≤ i → in_width 64 w → in_width 64 (__clear_bit i w).
Proof.
  intros Hi Hw. rw /__clear_bit. assert (Z.ldiff w (Z.shiftl 1 i) = Z.land (Z.ldiff w (Z.shiftl 1 i)) (Z.ones 64)) as ->.
  { apply Z.bits_inj'. intros j Hj. rewrite -> Z.land_spec, Z.ldiff_spec. destruct (Z_lt_le_dec j 64); [rewrite -> Z.ones_spec_low by lia; by rewrite -> andb_true_r|].
    rewrite -> (testbit_above 64 w) by (done || lia). done. }
  rewrite -> Z.land_ones by lia. apply Z.mod_pos_bound. lia.
Qed.

Section write.
Context (s : idr) (sh : shape) (n : Z) (Hk : linked sh n) (Hh : holds (store s) sh).

(** A bit of a layer. *)
Lemma upd_mark l k i (b : bool) : sh_addr sh l k ≠ 0 → 0 ≤ i < 64 →
  ∃ s', upd_layer (sh_addr sh l k) (λ ly, Some (set_bitmap ((if b then __set_bit else __clear_bit) i (bitmap ly)) ly)) s = Some s' ∧
    holds (store s') (set_mark sh (l - 1) (64 * k + i) b) ∧ stored (sh_addr sh l k) s s'.
Proof using Hk Hh.
  intros Ha Hi. destruct (Hh l k Ha) as (ly & E & Hn). eapply (holds_upd s sh); [done|done|done|done|done|done| |].
  - destruct Hn as [H1 H2 H3 H4 H5 H6]. split; cbn; [done|done|exact H3| | |done].
    + destruct b; [by apply width_set|apply width_clear; [lia|done]].
    + intros j Hj. destruct (Z.eqb_spec j i) as [->|Hne].
      * rewrite -> fset_eq. destruct b; [rewrite -> testbit_set|rewrite -> testbit_clear]; try lia; by rewrite -> Z.eqb_refl.
      * rewrite -> fset_ne by lia. destruct b; [rewrite -> testbit_set|rewrite -> testbit_clear]; try lia; rewrite -> (proj2 (Z.eqb_neq j i)) by done; cbn; by apply H5.
  - intros l' k' ly0 Hne. apply node_ext; [|done]. intros j Hj. split; [done|]. cbn. apply fset_ne. lia.
Qed.

(** The counter of a layer. *)
Lemma upd_count l k d : sh_addr sh l k ≠ 0 →
  ∃ s', upd_layer (sh_addr sh l k) (λ ly, Some (set_count (count ly + d) ly)) s = Some s' ∧ holds (store s') (set_cnt sh l k (sh_count sh l k + d)) ∧ stored (sh_addr sh l k) s s'.
Proof using Hk Hh.
  intros Ha. destruct (Hh l k Ha) as (ly & E & Hn). eapply (holds_upd s sh); [done|done|done|done|done|done| |].
  - destruct Hn as [H1 H2 H3 H4 H5 H6]. split; cbn; [done|done|exact H3|done|exact H5|]. by rewrite -> fset_eq, H6.
  - intros l' k' ly0 Hne. apply node_ext; [done|]. cbn. apply fset_ne. lia.
Qed.

Lemma wr_slot ly i v : length (ary ly) = 64%nat → 0 ≤ i < 64 → ∃ a, set_slot i v ly = Some (set_ary a ly) ∧ length a = 64%nat ∧ ∀ j, 0 ≤ j < 64 → rd a j = if j =? i then Some v else rd (ary ly) j.
Proof using.
  clear. intros Hl Hi. rw /set_slot. rewrite -> wr_in by lia. cbn [mbind option_bind]. eexists. split; [done|]. split; [by rewrite -> length_insert|]. intros j Hj.
  rw /rd. rewrite -> length_insert, Hl. rewrite -> (proj2 (Z.leb_le 0 j)), (proj2 (Z.ltb_lt j _)) by lia. cbn [andb]. destruct (Z.eqb_spec j i) as [->|Hne]; [apply list_lookup_insert_eq; lia|].
  apply list_lookup_insert_ne. lia.
Qed.

(** The pointer of an id. *)
Lemma upd_id k i v F' : sh_addr sh 0 k ≠ 0 → 0 ≤ i < 64 → default 0 (F' !! (64 * k + i)) = v → (∀ j, j ≠ 64 * k + i → F' !! j = sh_ids sh !! j) →
  ∃ s', upd_layer (sh_addr sh 0 k) (set_slot i v) s = Some s' ∧ holds (store s') (set_ids sh F') ∧ stored (sh_addr sh 0 k) s s'.
Proof using Hk Hh.
  intros Ha Hi Hv HF. destruct (Hh 0 k Ha) as (ly & E & Hn). destruct (wr_slot ly i v (is_length _ _ _ _ Hn) Hi) as (a & Es & Hla & Hra).
  eapply (holds_upd s sh); [done|done|done|done|exact Es|done| |].
  - destruct Hn as [H1 H2 H3 H4 H5 H6]. split; cbn; [done|done| |done|exact H5|done]. intros j Hj. rewrite -> Hra by done. rw /cell. cbn. destruct (Z.eqb_spec j i) as [->|Hne]; [by rewrite -> Hv|].
    rewrite -> H3 by done. rw /cell. cbn. by rewrite -> HF by lia.
  - intros l' k' ly0 Hne. apply node_ext; [|done]. intros j Hj. split; [|done]. rw /cell. cbn. destruct (Z.eqb_spec (l' - 1) (-1)); [|done]. rewrite -> HF by lia. done.
Qed.

(** The child in a slot; a new child is already in the store. *)
Lemma upd_child l k i q : 0 < l → sh_addr sh l k ≠ 0 → 0 ≤ i < 64 →
  q = 0 ∨ q ≠ sh_addr sh l k ∧ (∃ ly, store s !! q = Some ly ∧ node_is (set_addr sh (l - 1) (64 * k + i) q) (l - 1) (64 * k + i) ly) →
  ∃ s', upd_layer (sh_addr sh l k) (set_slot i q) s = Some s' ∧ holds (store s') (set_addr sh (l - 1) (64 * k + i) q) ∧ stored (sh_addr sh l k) s s'.
Proof using Hk Hh.
  intros Hl Ha Hi Hq. destruct (Hh l k Ha) as (ly & E & Hn). destruct (wr_slot ly i q (is_length _ _ _ _ Hn) Hi) as (a & Es & Hla & Hra).
  rw /upd_layer /at_layer. rewrite -> E. cbn [mbind option_bind]. rewrite -> Es. cbn [mbind option_bind]. eexists. split; [done|]. split; [|exists (set_ary a ly); by rewrite -> E].
  set (sh' := set_addr sh (l - 1) (64 * k + i) q) in *. intros l' k' Ha'. cbn [store set_store]. destruct (decide (l' = l - 1 ∧ k' = 64 * k + i)) as [[-> ->]|Hnew].
  - assert (sh_addr sh' (l - 1) (64 * k + i) = q) as Eq by (cbn; apply fset_eq). rewrite -> Eq in *. destruct Hq as [->|(Hqa & lyq & Elq & Hnq)]; [done|]. exists lyq. by rewrite -> lookup_insert_ne by done.
  - assert (sh_addr sh' l' k' = sh_addr sh l' k') as Eq by (cbn; apply fset_ne; lia). rewrite -> Eq in *. destruct (decide (l' = l ∧ k' = k)) as [[-> ->]|Hne].
    + exists (set_ary a ly). rewrite -> lookup_insert_eq. split; [done|]. destruct Hn as [H1 H2 H3 H4 H5 H6]. split; cbn; [done|done| |done|exact H5|done]. intros j Hj. rewrite -> Hra by done.
      rewrite -> (cell_addr sh') by lia. cbn. destruct (Z.eqb_spec j i) as [->|]; [by rewrite -> fset_eq|]. rewrite -> fset_ne by lia. rewrite -> H3 by done. by rewrite -> cell_addr by lia.
    + rewrite -> lookup_insert_ne by (intros Hc; apply Hne; destruct (lk_inj sh n Hk l k l' k' Ha Hc); done). destruct (Hh l' k' Ha') as (ly0 & E0 & Hn0). exists ly0. split; [done|].
      revert Hn0. apply node_ext; [|done]. intros j Hj. split; [|done]. rw /cell. cbn. destruct (Z.eqb_spec (l' - 1) (-1)); [done|]. apply fset_ne. lia.
Qed.
End write.

(** ** Layers between places *)

#[export] Instance places_proper h sh : Proper ((≡ₚ) ==> iff) (places h sh).
Proof.
  assert (∀ P Q, P ≡ₚ Q → places h sh P → places h sh Q) as H.
  { intros P Q HP [H1 H2 H3 H4]. split.
    - by rewrite <- HP.
    - intros l k Ha. rewrite <- HP. by apply H2.
    - intros a Ha. rewrite <- HP in Ha. by apply H3.
    - intros a Ha. rewrite <- HP. by apply H4. }
  intros P Q HP. split; apply H; [done|by symmetry].
Qed.

Lemma chain_upd h p fl a ly : a ∉ fl → chain h p fl → chain (<[a := ly]> h) p fl.
Proof.
  revert p. induction fl as [|b fl IH]; intros p Ha; [done|]. apply not_elem_of_cons in Ha as [Hab Ha]. intros (-> & H0 & lb & next & E & Hb & Hc). split_and!; [done|done|].
  exists lb, next. rewrite -> lookup_insert_ne by done. auto.
Qed.

Lemma chain_del h p fl a : a ∉ fl → chain h p fl → chain (delete a h) p fl.
Proof.
  revert p. induction fl as [|b fl IH]; intros p Ha; [done|]. apply not_elem_of_cons in Ha as [Hab Ha]. intros (-> & H0 & lb & next & E & Hb & Hc). split_and!; [done|done|].
  exists lb, next. rewrite -> lookup_delete_ne by done. auto.
Qed.

(** A store to a layer that exists moves nothing. *)
Lemma places_upd h sh P a ly : is_Some (h !! a) → places h sh P → places (<[a := ly]> h) sh P.
Proof.
  intros Ha [H1 H2 H3 H4]. split; [done|done| |].
  - intros b Hb. split; [by apply H3|]. destruct (decide (b = a)) as [->|]; [by rewrite -> lookup_insert_eq|]. rewrite -> lookup_insert_ne by done. by apply H3.
  - intros b Hb. apply H4. destruct (decide (b = a)) as [->|]; [done|]. by rewrite -> lookup_insert_ne in Hb.
Qed.

Lemma places_shape h sh sh' P : sh_addr sh' = sh_addr sh → places h sh P → places h sh' P.
Proof. intros E [H1 H2 H3 H4]. split; rewrite -> ?E; done. Qed.

Lemma spare_shape s sh sh' X fl : sh_addr sh' = sh_addr sh → spare s sh X fl → spare s sh' X fl.
Proof. intros E [H1 H2 H3]. split; [done|done|]. by apply (places_shape _ sh). Qed.

(** A store to a layer outside the list. *)
Lemma spare_stored s s' sh X fl a : stored a s s' → a ∉ fl → spare s sh X fl → spare s' sh X fl.
Proof. intros (ly & Ha & ->) Hf [H1 H2 H3]. split; cbn; [by apply chain_upd|done|by apply places_upd]. Qed.

Lemma tree_not_free s sh X fl l k : spare s sh X fl → sh_addr sh l k ≠ 0 → sh_addr sh l k ∉ fl.
Proof. intros [_ _ Hp] Ha Hin. apply (pl_apart _ _ _ Hp l k Ha). set_solver. Qed.

Lemma spare_node s s' sh sh' X fl l k : stored (sh_addr sh l k) s s' → sh_addr sh l k ≠ 0 → sh_addr sh' = sh_addr sh → spare s sh X fl → spare s' sh' X fl.
Proof. intros Hs Ha E Hsp. apply (spare_shape _ sh); [done|]. eapply spare_stored; [done|by eapply tree_not_free|done]. Qed.

Lemma loose_not_free s sh a X fl : spare s sh (a :: X) fl → a ∉ fl ∧ a ≠ 0 ∧ is_Some (store s !! a).
Proof.
  intros [_ _ Hp]. split; [|by apply (pl_in _ _ _ Hp); left]. pose proof (pl_nodup _ _ _ Hp) as Hn. cbn in Hn. apply NoDup_cons in Hn as [Hn _]. set_solver.
Qed.

Lemma holds_loose h sh P a ly : places h sh P → a ∈ P → holds h sh → holds (<[a := ly]> h) sh.
Proof. intros Hp Ha Hh l k Hl. rewrite -> lookup_insert_ne by (intros ->; by apply (pl_apart _ _ _ Hp l k Hl)). by apply Hh. Qed.

(** The list is empty, or its first layer is taken. *)
Lemma get_free_ok s sh X fl : spare s sh X fl → holds (store s) sh →
  match fl with
  | [] => get_from_free_list s = Some (0, s)
  | a :: fl' => ∃ s' ly, get_from_free_list s = Some (a, s') ∧ store s' !! a = Some ly ∧ blank 0 ly ∧ spare s' sh (a :: X) fl' ∧ holds (store s') sh ∧
      top s' = top s ∧ layers s' = layers s ∧ rcu s' = rcu s ∧ (∀ b, b ≠ a → store s' !! b = store s !! b)
  end.
Proof.
  intros [Hc Hn Hp] Hh. rw /get_from_free_list. destruct fl as [|a fl]; [cbn in Hc; by rewrite -> Hc|]. destruct Hc as (Ea & H0 & ly & next & E & (Hb & Hary & Hcnt) & Hc). rewrite -> Ea.
  rewrite -> (proj2 (Z.eqb_neq a 0)) by done. rw /slot /at_layer. rewrite -> E. cbn [mbind option_bind]. rewrite -> Hary. change (rd (next :: ?l) 0) with (Some next). cbn [mbind option_bind].
  rw /upd_layer /at_layer. cbn [store set_free]. rewrite -> E. cbn [mbind option_bind]. rw /set_slot. rewrite -> Hary. change (wr (next :: replicate 63 0) 0 0) with (Some (0 :: replicate 63 0)). cbn [mbind option_bind].
  assert (places (store s) sh ((a :: X) ++ fl ++ rcu s)) as Hp'.
  { assert ((a :: X) ++ fl ++ rcu s ≡ₚ X ++ (a :: fl) ++ rcu s) as HP by (cbn [app]; by rewrite -> Permutation_middle). by rewrite -> HP. }
  eexists _, (set_ary (0 :: replicate 63 0) ly). split; [done|]. cbn [store set_store set_free top layers rcu]. rewrite -> lookup_insert_eq. split_and!; try done.
  - split; cbn [store set_store set_free id_free id_free_cnt rcu].
    + apply chain_upd; [|done]. pose proof (pl_nodup _ _ _ Hp') as Hnd. apply NoDup_cons in Hnd as [Hnd _]. set_solver.
    + cbn [length] in Hn. lia.
    + apply places_upd; [by rewrite -> E|done].
  - eapply (holds_loose _ _ ((a :: X) ++ fl ++ rcu s)); [done|set_solver|done].
  - intros b Hb'. by rewrite -> lookup_insert_ne.
Qed.

(** A layer becomes part of the tree, or leaves it. *)
Lemma places_attach h sh sh' a P l k : places h sh (a :: P) → sh_addr sh l k = 0 → sh_addr sh' = fset (sh_addr sh) l k a → places h sh' P.
Proof.
  intros [H1 H2 H3 H4] H0 E. apply NoDup_cons in H1 as [H1 H1']. destruct (H3 a ltac:(left)) as [Ha0 Ha]. split; [done| | |].
  - intros l' k'. rewrite -> E. rw /fset. destruct (_ && _); [done|]. intros Ha'. specialize (H2 l' k' Ha'). set_solver.
  - intros b Hb. apply H3. by right.
  - intros b Hb. destruct (H4 b Hb) as [[->|Hin]%elem_of_cons|(l' & k' & Eb & Hb0)]; [right|by left|right].
    + exists l, k. rewrite -> E, fset_eq. done.
    + exists l', k'. rewrite -> E, fset_ne; [done|]. destruct (decide (l' = l ∧ k' = k)) as [[-> ->]|]; [congruence|lia].
Qed.

Lemma places_detach h sh sh' a P l k n : linked sh n → holds h sh → places h sh P → sh_addr sh l k = a → a ≠ 0 → sh_addr sh' = fset (sh_addr sh) l k 0 → places h sh' (a :: P).
Proof.
  intros Hk Hh [H1 H2 H3 H4] Ea Ha E. split.
  - apply NoDup_cons. split; [|done]. rewrite <- Ea. apply H2. by rewrite -> Ea.
  - intros l' k'. rewrite -> E. rw /fset. destruct ((l' =? l) && (k' =? k)) eqn:Eb; [done|]. intros Ha' [Hc|Hin]%elem_of_cons; [|by apply (H2 l' k')].
    rewrite <- Ea in Hc. destruct (lk_inj sh n Hk l' k' l k Ha' Hc) as [-> ->]. by rewrite -> !Z.eqb_refl in Eb.
  - intros b [->|Hb]%elem_of_cons; [|by apply H3]. split; [done|]. rewrite <- Ea. destruct (Hh l k ltac:(by rewrite -> Ea)) as (ly & -> & _). done.
  - intros b Hb. destruct (H4 b Hb) as [Hin|(l' & k' & Eb & Hb0)]; [left; by right|]. destruct (decide (b = a)) as [->|Hne]; [left; left|right]. exists l', k'. rewrite -> E, fset_ne; [done|].
    destruct (decide (l' = l ∧ k' = k)) as [[-> ->]|]; [congruence|lia].
Qed.
