(* ===== verification/IdrAlloc.v ===== *)
(** * Small integers for pointers: allocation

    sub_alloc finds the lowest free id from a given one on, and makes the layers above it. *)
From S2P Require Import Prelude Bitops FindBit Idr IdrRep.
#[local] Open Scope Z_scope.

(** ** Counting slots *)

Lemma filter_same (f g : Z → bool) (l : list Z) : (∀ i, i ∈ l → f i = g i) → filter (λ i, f i = true) l = filter (λ i, g i = true) l.
Proof.
  induction l as [|x l IH]; intros H; [done|]. rewrite -> !filter_cons, (H x) by left. rewrite -> IH by (intros i Hi; apply H; by right). done.
Qed.

Lemma uses_ext f g : (∀ i, 0 ≤ i < 64 → f i = g i) → uses f = uses g.
Proof. intros H. rw /uses. do 2 f_equal. apply filter_same. intros i Hi%elem_of_seqZ. apply H. lia. Qed.

Lemma uses_set f g i : 0 ≤ i < 64 → f i = false → g i = true → (∀ j, 0 ≤ j < 64 → j ≠ i → g j = f j) → uses g = uses f + 1.
Proof.
  intros Hi Hf Hg H. rw /uses. assert (∀ l : list Z, NoDup l → i ∈ l → (∀ j, j ∈ l → j ≠ i → g j = f j) →
    length (filter (λ i, g i = true) l) = S (length (filter (λ i, f i = true) l))) as Hl.
  { clear H. induction l as [|x l IH]; intros Hn Hin Hj; [by apply elem_of_nil in Hin|]. apply NoDup_cons in Hn as [Hx Hn]. destruct (decide (x = i)) as [->|Hne].
    - rewrite -> filter_cons_True, filter_cons_False by congruence. cbn. do 2 f_equal. apply filter_same. intros j Hjl. apply Hj; [by right|by intros ->].
    - apply elem_of_cons in Hin as [?|Hin]; [done|]. specialize (IH Hn Hin ltac:(intros j Hjl; apply Hj; by right)). rewrite -> !filter_cons, Hj by (done || left). case_decide; cbn; by rewrite -> IH. }
  rewrite -> Hl; [lia|apply NoDup_seqZ|apply elem_of_seqZ; lia|]. intros j Hj%elem_of_seqZ. apply H. lia.
Qed.

Lemma uses_none f : (∀ i, 0 ≤ i < 64 → f i = false) → uses f = 0.
Proof. intros H. rewrite -> (uses_ext f (λ _, false)) by done. reflexivity. Qed.

Lemma uses_zero f i : uses f = 0 → 0 ≤ i < 64 → f i = false.
Proof.
  intros H Hi. destruct (f i) eqn:E; [|done]. exfalso. assert (i ∈ filter (λ i, f i = true) (seqZ 0 64)) as Hin by (apply list_elem_of_filter; split; [done|apply elem_of_seqZ; lia]).
  rw /uses in H. destruct (filter _ _); [by apply elem_of_nil in Hin|cbn in H; lia].
Qed.

(** ** Full slots *)

Lemma full_split F l j : 0 ≤ l → full F l j ↔ ∀ i, 0 ≤ i < 64 → full F (l - 1) (64 * j + i).
Proof.
  intros Hl. split.
  - intros H i Hi id Hid. apply H. replace l with (l - 1 + 1) by lia. rewrite <- idx_up, Hid by lia. zdm.
  - intros H id Hid. apply (H (digit l id)); [by apply digit_range|]. rewrite <- digit_idx, Hid by lia. done.
Qed.

Lemma full_word w : in_width 64 w → w = IDR_FULL ↔ ∀ i, 0 ≤ i < 64 → Z.testbit w i = true.
Proof.
  intros Hw. change IDR_FULL with (Z.ones 64). split.
  - intros -> i Hi. apply Z.ones_spec_low. lia.
  - intros H. apply Z.bits_inj'. intros i Hi. destruct (Z_lt_le_dec i 64); [rewrite -> Z.ones_spec_low by lia; apply H; lia|]. rewrite -> Z.ones_spec_high by lia. by apply (testbit_above 64).
Qed.

(** The first clear bit. *)
Lemma next_clear w i : in_width 64 w → 0 ≤ i < 64 →
  ∃ m, find_next_bit [bnot 64 w] IDR_SIZE i = Some m ∧ i ≤ m ≤ 64 ∧ (∀ j, i ≤ j < m → Z.testbit w j = true) ∧ (m < 64 → Z.testbit w m = false).
Proof.
  intros Hw Hi. assert (words [bnot 64 w]) as Hws by (constructor; [apply in_width_bnot; lia|constructor]).
  destruct (find_next_bit_next [bnot 64 w] i 64 Hws) as (m & E & Hm); [split; cbn; lia|lia|lia|]. rewrite -> (proj2 (Z.leb_gt 64 i)) in Hm by lia. exists m. split; [done|].
  assert (∀ j, 0 ≤ j < 64 → bitat [bnot 64 w] j = negb (Z.testbit w j)) as Hb.
  { intros j Hj. rw /bitat. rewrite -> Z.div_small, Z.mod_small by lia. change (rd [bnot 64 w] 0) with (Some (bnot 64 w)). cbn iota. rewrite -> testbit_bnot, (proj2 (Z.ltb_lt j 64)), andb_true_r by lia. done. }
  destruct Hm as [(Hr & Ht & Hf)|(-> & Hf)].
  - split; [lia|]. split; [|intros _; rewrite -> Hb in Ht by lia; by destruct (Z.testbit w m)]. intros j Hj. specialize (Hf j Hj). rewrite -> Hb in Hf by lia. by destruct (Z.testbit w j).
  - split; [lia|]. split; [|lia]. intros j Hj. specialize (Hf j Hj). rewrite -> Hb in Hf by lia. by destruct (Z.testbit w j).
Qed.

(** ** New layers *)

Lemma stored_rest a s s' : stored a s s' → top s' = top s ∧ layers s' = layers s ∧ rcu s' = rcu s.
Proof. intros (ly & _ & ->). done. Qed.

(** A store to a layer that is between places. *)
Lemma loose_upd s sh a X fl f ly ly' : spare s sh (a :: X) fl → holds (store s) sh → store s !! a = Some ly → f ly = Some ly' →
  ∃ s', upd_layer a f s = Some s' ∧ store s' !! a = Some ly' ∧ spare s' sh (a :: X) fl ∧ holds (store s') sh ∧ top s' = top s ∧ layers s' = layers s ∧ rcu s' = rcu s.
Proof.
  intros Hsp Hh E Ef. rw /upd_layer /at_layer. rewrite -> E. cbn [mbind option_bind]. rewrite -> Ef. cbn [mbind option_bind]. eexists. split; [done|]. cbn [store set_store]. rewrite -> lookup_insert_eq. split_and!; try done.
  - eapply spare_stored; [exists ly'; split; [by rewrite -> E|done]|by eapply loose_not_free|done].
  - eapply (holds_loose _ _ (a :: X ++ fl ++ rcu s)); [by apply Hsp|by left|done].
Qed.

Lemma spare_attach s sh sh' a X fl l k : spare s sh (a :: X) fl → sh_addr sh l k = 0 → sh_addr sh' = fset (sh_addr sh) l k a → spare s sh' X fl.
Proof. intros [H1 H2 H3] H0 E. split; [done|done|]. by apply (places_attach _ sh sh' a _ l k). Qed.

Lemma spare_other s sh a X fl l k : spare s sh (a :: X) fl → sh_addr sh l k ≠ a.
Proof. intros Hsp Hc. destruct (loose_not_free _ _ _ _ _ Hsp) as (_ & Ha & _). apply (pl_apart _ _ _ (sp_places _ _ _ _ Hsp) l k); [congruence|]. rewrite -> Hc. by left. Qed.

(** The first id of a slot. *)
Lemma idx_slot l j : -1 ≤ l → idx l (j * 64 ^ (l + 1)) = j.
Proof. intros Hl. rw /idx. apply Z.div_mul. pose proof (pow64_pos (l + 1)). lia. Qed.

Lemma unmarked sh l j : marked sh → -1 ≤ l → (∀ id, idx l id = j → sh_ids sh !! id = None) → sh_mark sh l j = false.
Proof.
  intros Hm Hl H. destruct (sh_mark sh l j) eqn:E; [|done]. apply Hm in E; [|done]. destruct (E (j * 64 ^ (l + 1)) (idx_slot l j Hl)) as [x Hx]. by rewrite -> (H _ (idx_slot l j Hl)) in Hx.
Qed.

(** A layer that is missing has no slots in use. *)
Lemma absent_cells sh n l k i : linked sh n → 0 ≤ l < n → sh_addr sh l k = 0 → 0 ≤ i < 64 →
  cell sh (l - 1) (64 * k + i) = 0 ∧ used sh (l - 1) (64 * k + i) = false ∧ ∀ id, idx (l - 1) id = 64 * k + i → sh_ids sh !! id = None.
Proof.
  intros Hk Hl Ha Hi. assert (∀ id, idx (l - 1) id = 64 * k + i → sh_ids sh !! id = None) as Hnone.
  { intros id Hid. apply (absent_none sh n Hk l); [lia|]. replace l with (l - 1 + 1) at 2 by lia. rewrite <- idx_up, Hid by lia. by replace ((64 * k + i) / 64) with k by zdm. }
  rw /cell /used. destruct (Z.eqb_spec (l - 1) (-1)) as [E|Hne].
  - assert (sh_ids sh !! (64 * k + i) = None) as En by (apply Hnone; rewrite -> E; apply idx_id). rewrite -> En. split_and!; [done|done|done].
  - assert (sh_addr sh (l - 1) (64 * k + i) = 0) as ->; [|done]. destruct (Z.eq_dec (sh_addr sh (l - 1) (64 * k + i)) 0) as [|Hc]; [done|]. exfalso. apply (child_parent sh n Hk l k i) in Hc; [done|done|lia|lia].
Qed.

Lemma blank_node sh sh' n l k ly : linked sh n → marked sh → 0 ≤ l < n → sh_addr sh l k = 0 → blank 0 ly → layer ly = l →
  (∀ i, cell sh' (l - 1) i = cell sh (l - 1) i) → sh_mark sh' = sh_mark sh → sh_count sh' l k = 0 → node_is sh' l k ly.
Proof.
  intros Hk Hm Hl Ha (Hb & Hary & Hcnt) Hly Hc Hmk Hct. change (0 :: replicate 63 0) with (replicate 64 0) in Hary. split; [done|by rewrite -> Hary| |by rewrite -> Hb| |by rewrite -> Hct].
  - intros i Hi. destruct (absent_cells sh n l k i Hk Hl Ha Hi) as (Ec & _ & _). rewrite -> Hc, Ec, Hary. apply rd_Some. split; [lia|]. apply lookup_replicate. lia.
  - intros i Hi. destruct (absent_cells sh n l k i Hk Hl Ha Hi) as (_ & _ & Hn). rewrite -> Hb, Z.bits_0, Hmk. symmetry. apply unmarked; [done|lia|done].
Qed.

(** The tree with a new layer in a slot. *)
Definition add_child (sh : shape) (l k m a : Z) : shape := set_cnt (set_addr (set_cnt sh (l - 1) (64 * k + m) 0) (l - 1) (64 * k + m) a) l k (sh_count sh l k + 1).

Section child.
Context (sh : shape) (n l k m a : Z) (Hk : linked sh n) (Hl : 0 < l < n) (Hp : sh_addr sh l k ≠ 0) (Hmr : 0 ≤ m < 64) (H0 : sh_addr sh (l - 1) (64 * k + m) = 0) (Ha : a ≠ 0).

Lemma linked_child : (∀ l k, sh_addr sh l k ≠ a) → linked (set_addr sh (l - 1) (64 * k + m) a) n.
Proof using Hk Hl Hp Hmr H0 Ha.
  intros Hnew. destruct Hk as [H1 H2 H3 H4 H5 H6]. assert (∀ l' k', sh_addr sh l' k' ≠ 0 → sh_addr (set_addr sh (l - 1) (64 * k + m) a) l' k' = sh_addr sh l' k') as Hold.
  { intros l' k' Hne. cbn. apply fset_ne. destruct (decide (l' = l - 1 ∧ k' = 64 * k + m)) as [[-> ->]|]; [done|lia]. }
  assert (∀ l' k', sh_addr (set_addr sh (l - 1) (64 * k + m) a) l' k' ≠ 0 → l' = l - 1 ∧ k' = 64 * k + m ∨ sh_addr sh l' k' ≠ 0) as Hcase.
  { intros l' k'. cbn. rw /fset. destruct (Z.eqb_spec l' (l - 1)), (Z.eqb_spec k' (64 * k + m)); cbn; auto. }
  split; [done| | | | |].
  - intros Hn. rewrite -> Hold; auto.
  - intros l' k' [[-> ->]|Hne]%Hcase; [|by apply H3]. destruct (H3 l k Hp) as [_ Hkr]. split; [lia|]. replace (n - 1 - (l - 1)) with (Z.succ (n - 1 - l)) by lia. rewrite -> Z.pow_succ_r by lia. lia.
  - intros l' k' [[-> ->]|Hne]%Hcase Hn.
    + replace (l - 1 + 1) with l by lia. replace ((64 * k + m) / 64) with k by zdm. by rewrite -> Hold.
    + rewrite -> Hold; by apply H4.
  - intros l1 k1 l2 k2 Hne. assert (∀ l' k', l' = l - 1 ∧ k' = 64 * k + m ∨ sh_addr (set_addr sh (l - 1) (64 * k + m) a) l' k' = sh_addr sh l' k') as Hc2.
    { intros l' k'. destruct (decide (l' = l - 1 ∧ k' = 64 * k + m)); [by left|right]. cbn. apply fset_ne. lia. }
    assert (sh_addr (set_addr sh (l - 1) (64 * k + m) a) (l - 1) (64 * k + m) = a) as Ea by (cbn; apply fset_eq).
    destruct (Hc2 l1 k1) as [[-> ->]|E1], (Hc2 l2 k2) as [[-> ->]|E2]; rewrite -> ?Ea, ?E1, ?E2 in *; [done|by intros; exfalso; apply (Hnew l2 k2)|by intros; exfalso; apply (Hnew l1 k1)|by apply H5].
  - intros id Hid. rewrite -> Hold; by apply H6.
Qed.

Lemma shape_child : (∀ l k, sh_addr sh l k ≠ a) → marked sh → counted sh → shape_ok (add_child sh l k m a) n.
Proof using Hk Hl Hp Hmr H0 Ha.
  intros Hnew Hm Hc. pose proof (linked_child Hnew) as Hk'. split; [destruct Hk' as [H1 H2 H3 H4 H5 H6]; by split|done|]. assert (∀ l' j, used (add_child sh l k m a) l' j = if (l' =? l - 1) && (j =? 64 * k + m) then true else used sh l' j) as Hu.
  { intros l' j. rw /used. cbn. rw /fset. destruct (Z.eqb_spec l' (-1)); [by rewrite -> (proj2 (Z.eqb_neq l' (l - 1))) by lia|]. destruct ((l' =? l - 1) && (j =? 64 * k + m)); [by rewrite -> (proj2 (Z.eqb_neq a 0))|done]. }
  intros l' k' Ha'. cbn in Ha' |- *. rw /fset in Ha'. destruct (Z.eqb_spec l' (l - 1)) as [->|Hl1]; cbn in Ha'; [destruct (Z.eqb_spec k' (64 * k + m)) as [Ek|Hk1]|].
  - rewrite -> Ek in *. rewrite -> fset_ne, fset_eq by lia. symmetry. apply uses_none. intros i Hi. rewrite -> Hu, (proj2 (Z.eqb_neq (l - 1 - 1) _)) by lia. cbn. by apply (absent_cells sh n (l - 1) (64 * k + m) i Hk); [lia|..].
  - rewrite -> !fset_ne by lia. rewrite -> Hc by done. apply uses_ext. intros i Hi. by rewrite -> Hu, (proj2 (Z.eqb_neq (l - 1 - 1) _)) by lia.
  - destruct (decide (l' = l ∧ k' = k)) as [[-> ->]|Hne].
    + rewrite -> fset_eq, Hc by done. symmetry. apply (uses_set _ _ m); [done| | |].
      * rw /used. rewrite -> (proj2 (Z.eqb_neq (l - 1) (-1))) by lia. by rewrite -> H0.
      * by rewrite -> Hu, !Z.eqb_refl.
      * intros j Hj Hne. by rewrite -> Hu, Z.eqb_refl, (proj2 (Z.eqb_neq (64 * k + j) _)) by lia.
    + rewrite -> !fset_ne, Hc by (done || lia). apply uses_ext. intros i Hi. rewrite -> Hu. destruct (Z.eqb_spec (l' - 1) (l - 1)), (Z.eqb_spec (64 * k' + i) (64 * k + m)); cbn; done || lia.
Qed.
End child.

Lemma linked_shape sh sh' n : sh_addr sh' = sh_addr sh → sh_ids sh' = sh_ids sh → linked sh n → linked sh' n.
Proof. intros E F [H1 H2 H3 H4 H5 H6]. split; rewrite -> ?E, ?F; done. Qed.

(** A counter of a layer that is missing can be anything. *)
Lemma holds_ghost h sh l k c : holds h sh → sh_addr sh l k = 0 → holds h (set_cnt sh l k c).
Proof.
  intros Hh H0 l' k' Ha. destruct (Hh l' k' Ha) as (ly & E & Hn). exists ly. split; [done|]. revert Hn. apply node_ext; [done|]. cbn in Ha |- *. apply fset_ne.
  destruct (decide (l' = l ∧ k' = k)) as [[-> ->]|]; [done|lia].
Qed.

(** What changes while ids are searched: layers are added. *)
Record grown (s s' : idr) (sh sh' : shape) : Prop := {
  gr_ids : sh_ids sh' = sh_ids sh; gr_top : top s' = top s; gr_layers : layers s' = layers s; gr_rcu : rcu s' = rcu s;
  gr_old l k : sh_addr sh l k ≠ 0 → sh_addr sh' l k = sh_addr sh l k
}.
Lemma grown_refl s sh : grown s s sh sh.
Proof. by split. Qed.
Lemma grown_trans s1 s2 s3 sh1 sh2 sh3 : grown s1 s2 sh1 sh2 → grown s2 s3 sh2 sh3 → grown s1 s3 sh1 sh3.
Proof.
  intros [H1 H2 H3 H4 H5] [H1' H2' H3' H4' H5']. split; [congruence..|]. intros l k Ha. rewrite -> H5'; [by apply H5|]. by rewrite -> H5.
Qed.

Lemma alloc_child_ok s sh fl l k m : idr_rep s sh fl → 0 < l < layers s → sh_addr sh l k ≠ 0 → 0 ≤ m < 64 →
  (sh_addr sh (l - 1) (64 * k + m) = 0 ∧ fl = [] ∧ alloc_child (sh_addr sh l k) m l s = Some (0, s)) ∨
  ∃ s' sh' fl', alloc_child (sh_addr sh l k) m l s = Some (sh_addr sh' (l - 1) (64 * k + m), s') ∧ sh_addr sh' (l - 1) (64 * k + m) ≠ 0 ∧ idr_rep s' sh' fl' ∧ grown s s' sh sh' ∧
    (sh' = sh ∧ fl' = fl ∨ sh_addr sh (l - 1) (64 * k + m) = 0 ∧ length fl = S (length fl')).
Proof.
  intros [Hs Hh Ht Hsp] Hl Ha Hm. rw /alloc_child. rewrite -> (slot_cell s sh l k m Hh Ha Hm), cell_addr by lia. cbn [mbind option_bind]. destruct (Z.eqb_spec (sh_addr sh (l - 1) (64 * k + m)) 0) as [E|Hne]; cbn [negb].
  2:{ right. exists s, sh, fl. split_and!; [done|done|by split|by apply grown_refl|by left]. }
  pose proof (get_free_ok s sh [] fl Hsp Hh) as Hg. destruct fl as [|a fl]; [left; rewrite -> Hg; done|right]. destruct Hg as (s1 & ly1 & -> & E1 & Hb1 & Hsp1 & Hh1 & Ht1 & Hl1 & Hr1 & _). cbn [mbind option_bind].
  destruct (loose_not_free _ _ _ _ _ Hsp1) as (_ & Ha0 & _). rewrite -> (proj2 (Z.eqb_neq a 0)) by done. destruct Hs as [Hk Hmk Hct]. pose proof (λ l k, spare_other _ _ _ _ _ l k Hsp1) as Hnew.
  destruct (loose_upd s1 sh a [] fl (λ ly, Some (set_layer (l - 1) ly)) ly1 _ Hsp1 Hh1 E1 eq_refl) as (s2 & -> & E2 & Hsp2 & Hh2 & Ht2 & Hl2 & Hr2). cbn [mbind option_bind].
  set (shA := set_cnt sh (l - 1) (64 * k + m) 0). assert (linked shA (layers s)) as HkA by (by apply (linked_shape sh)).
  destruct (upd_child s2 shA (layers s) HkA (holds_ghost _ _ _ _ _ Hh2 E) l k m a ltac:(lia) Ha Hm) as (s3 & E3 & Hh3 & Hst3).
  { right. split; [by apply not_eq_sym, Hnew|]. exists (set_layer (l - 1) ly1). split; [done|]. apply (blank_node sh _ (layers s)); [done|done|lia|done|done|done| |done|cbn; apply fset_eq].
    intros i. rw /cell. cbn. destruct (_ =? -1); [done|]. apply fset_ne. lia. }
  change (sh_addr shA l k) with (sh_addr sh l k) in E3, Hst3. rewrite -> E3. cbn [mbind option_bind]. destruct (stored_rest _ _ _ Hst3) as (Ht3 & Hl3 & Hr3).
  set (shB := set_addr shA (l - 1) (64 * k + m) a) in *. assert (sh_addr shB l k = sh_addr sh l k) as EB by (cbn; apply fset_ne; lia).
  assert (linked shB (layers s)) as HkB by (apply linked_child; done || lia).
  destruct (upd_count s3 shB (layers s) HkB Hh3 l k 1 ltac:(by rewrite -> EB)) as (s4 & E4 & Hh4 & Hst4). rewrite -> EB in E4, Hst4. rewrite -> E4. cbn [mbind option_bind].
  destruct (stored_rest _ _ _ Hst4) as (Ht4 & Hl4 & Hr4). assert (sh_count shB l k = sh_count sh l k) as Ecnt by (cbn; apply fset_ne; lia). rewrite -> Ecnt in Hh4.
  exists s4, (add_child sh l k m a), fl. assert (layers s4 = layers s) as Ely by congruence. assert (sh_addr (add_child sh l k m a) (l - 1) (64 * k + m) = a) as -> by (cbn; apply fset_eq).
  split_and!; [done|done| | |by right].
  - split; [rewrite -> Ely; by apply shape_child|done| |].
    + rewrite -> Ely, Ht4, Ht3, Ht2, Ht1, Ht. rewrite -> (proj2 (Z.eqb_neq (layers s) 0)) by lia. cbn. symmetry. apply fset_ne. lia.
    + assert (sh_addr sh l k ∉ fl) as Hnf by (by eapply tree_not_free). apply (spare_attach _ sh _ a _ _ (l - 1) (64 * k + m)); [|done|done]. eapply spare_stored; [done|done|]. by eapply spare_stored.
  - split; [done|congruence|done|congruence|]. intros l' k' Hne. cbn. apply fset_ne. destruct (decide (l' = l - 1 ∧ k' = 64 * k + m)) as [[-> ->]|]; [done|lia].
Qed.

(** ** The search for an id *)

Lemma land_low q d : 0 ≤ d < 64 → Z.land (64 * q) d = 0.
Proof.
  intros Hd. apply Z.bits_inj'. intros i Hi. rewrite -> Z.land_spec, Z.bits_0. replace (64 * q) with (Z.shiftl q 6) by (rewrite -> Z.shiftl_mul_pow2 by lia; lia). destruct (Z_lt_le_dec i 6).
  - by rewrite -> Z.shiftl_spec_low.
  - rewrite -> (testbit_above 6 d) by (rw /in_width; lia). apply andb_false_r.
Qed.

Lemma lxor_digit q d m : 0 ≤ d < 64 → 0 ≤ m < 64 → Z.lxor (Z.lxor (64 * q + d) d) m = 64 * q + m.
Proof.
  intros Hd Hm. rewrite -> (Z.add_nocarry_lxor (64 * q) d) by (by apply land_low). rewrite -> (Z.lxor_assoc (64 * q) d d).
  rewrite -> Z.lxor_nilpotent, Z.lxor_0_r. symmetry. apply Z.add_nocarry_lxor. by apply land_low.
Qed.

Lemma pow64_le n : 0 ≤ n ≤ 5 → 64 ^ n ≤ 2 ^ 30.
Proof. intros Hn. change (2 ^ 30) with (64 ^ 5). apply Z.pow_le_mono_r; lia. Qed.

(** The ids of a slot. *)
Lemma idx_iff l id j : -1 ≤ l → idx l id = j ↔ j * 64 ^ (l + 1) ≤ id < (j + 1) * 64 ^ (l + 1).
Proof. intros Hl. rw /idx. pose proof (pow64_pos (l + 1) ltac:(lia)). split; [intros <-; zdm|]. intros H'. symmetry. apply (Z.div_unique_pos _ _ _ (id - j * 64 ^ (l + 1))); lia. Qed.

Lemma idx_mono l id id' : -1 ≤ l → id ≤ id' → idx l id ≤ idx l id'.
Proof. intros Hl H. apply Z.div_le_mono; [apply pow64_pos; lia|done]. Qed.

Lemma idx_same l l' id id' : -1 ≤ l ≤ l' → idx l id = idx l id' → idx l' id = idx l' id'.
Proof.
  intros Hl E. rw /idx in E |- *. replace (l' + 1) with ((l + 1) + (l' - l)) by lia. rewrite -> Z.pow_add_r by lia. pose proof (pow64_pos (l + 1)). pose proof (pow64_pos (l' - l)). rewrite <- !Z.div_div by lia. by rewrite -> E.
Qed.

Lemma idx_lower l id : 0 ≤ l → idx l id = idx (l - 1) id / 64.
Proof. intros Hl. rewrite -> idx_up by lia. by replace (l - 1 + 1) with l by lia. Qed.

(** The id in the slot that was found. *)
Definition down_id (l id n m : Z) : Z := if negb (m =? n) then swrap 32 (Z.shiftl (Z.lxor (Z.lxor (Z.shiftr id (IDR_BITS * l)) n) m) (IDR_BITS * l)) else id.

Lemma down_id_ok n l id m : 0 ≤ l < n → n ≤ 5 → 0 ≤ id < 64 ^ n → digit l id ≤ m < 64 → let id1 := down_id l id (digit l id) m in
  id ≤ id1 < 64 ^ n ∧ idx (l - 1) id1 = 64 * idx l id + m ∧ (id1 = id ∨ id1 = (64 * idx l id + m) * 64 ^ l).
Proof.
  intros Hl Hn Hid Hm. pose proof (digit_range l id ltac:(lia)) as Hd. pose proof (pow64_pos l ltac:(lia)) as Hp. pose proof (digit_idx l id ltac:(lia)) as Hdi. rw /down_id. destruct (Z.eqb_spec m (digit l id)) as [->|Hne]; cbn [negb].
  { split; [lia|]. split; [done|]. by left. }
  rewrite -> shift_idx, <- Hdi, lxor_digit by lia. rewrite -> Z.shiftl_mul_pow2 by (rw /IDR_BITS; lia). rw /IDR_BITS. rewrite -> (Z.pow_mul_r 2 6 l) by lia. change (2 ^ 6) with 64.
  pose proof (idx_bound l id n ltac:(lia) ltac:(lia) Hid) as Hb. pose proof (idx_nonneg l id ltac:(lia) ltac:(lia)). assert ((64 * idx l id + m) * 64 ^ l < 64 ^ n) as Hlt.
  { assert (64 ^ n = 64 * 64 ^ (n - 1 - l) * 64 ^ l) as -> by (rewrite <- (Z.pow_succ_r 64 (n - 1 - l)), <- Z.pow_add_r by lia; f_equal; lia). nia. }
  pose proof (pow64_le n ltac:(lia)). rewrite -> swrap_small by nia. split; [|split; [|by right]].
  - split; [|done]. pose proof (proj1 (idx_iff (l - 1) id _ ltac:(lia)) eq_refl) as Hi. replace (l - 1 + 1) with l in Hi by lia. nia.
  - apply idx_iff; [lia|]. replace (l - 1 + 1) with l by lia. lia.
Qed.

(** The first id behind the layer. *)
Lemma up_id_ok l id n : 0 ≤ l < n → n ≤ 5 → 0 ≤ id < 64 ^ n →
  swrap 32 (Z.lor id (swrap 32 (Z.shiftl 1 (IDR_BITS * (l + 1))) - 1) + 1) = (idx l id + 1) * 64 ^ (l + 1) ∧ (idx l id + 1) * 64 ^ (l + 1) ≤ 64 ^ n.
Proof.
  intros Hl Hn Hid. rewrite -> (Z.mul_comm IDR_BITS), shift_levels by lia. pose proof (pow64_pos (l + 1) ltac:(lia)) as Hp. pose proof (pow64_le n ltac:(lia)). pose proof (idx_nonneg l id ltac:(lia) ltac:(lia)).
  assert ((idx l id + 1) * 64 ^ (l + 1) ≤ 64 ^ n) as Hle.
  { pose proof (idx_bound l id n ltac:(lia) ltac:(lia) Hid). assert (64 ^ n = 64 ^ (n - 1 - l) * 64 ^ (l + 1)) as -> by (rewrite <- Z.pow_add_r by lia; f_equal; lia). nia. }
  split; [|done]. assert (Z.lor id (64 ^ (l + 1) - 1) = idx l id * 64 ^ (l + 1) + (64 ^ (l + 1) - 1)) as ->; [|rewrite -> swrap_small by nia; lia].
  replace 64 with (2 ^ 6) by done. rewrite <- Z.pow_mul_r by lia. set (e := 6 * (l + 1)). rewrite -> Z.sub_1_r, <- Z.ones_equiv.  rw /idx. change 64 with (2 ^ 6). rewrite <- Z.pow_mul_r by lia. fold e.
  rewrite <- Z.shiftl_mul_pow2, <- Z.shiftr_div_pow2 by lia. assert (Z.land (Z.shiftl (Z.shiftr id e) e) (Z.ones e) = 0) as Hland.
  { apply Z.bits_inj'. intros i Hi. rewrite -> Z.land_spec, Z.bits_0. destruct (Z_lt_le_dec i e); [by rewrite -> Z.shiftl_spec_low|]. rewrite -> Z.ones_spec_high by lia. apply andb_false_r. }
  rewrite -> (Z.add_nocarry_lxor _ _ Hland), (Z.lxor_lor _ _ Hland). apply Z.bits_inj'. intros i Hi. rewrite -> !Z.lor_spec. destruct (Z_lt_le_dec i e).
  - rewrite -> Z.ones_spec_low by lia. by rewrite -> !orb_true_r.
  - rewrite -> Z.ones_spec_high, Z.shiftl_spec, Z.shiftr_spec, !orb_false_r by lia. f_equal. lia.
Qed.

(** Slots that are full, from the slot [d] to the slot [m] of a layer. *)
Lemma run_used sh l k d m x : marked sh → 0 ≤ l → (∀ j, d ≤ j < m → sh_mark sh (l - 1) (64 * k + j) = true) → 64 * k + d ≤ idx (l - 1) x < 64 * k + m → is_Some (sh_ids sh !! x).
Proof. intros Hm Hl Hr Hx. specialize (Hr (idx (l - 1) x - 64 * k) ltac:(lia)). apply Hm in Hr; [|lia]. apply Hr. lia. Qed.

(** The array [pa]: the layers above the level [l] that an id is in, and NULL behind them. *)
Record path (pa : list Z) (sh : shape) (n l id : Z) : Prop := {
  pa_length : length pa = 6%nat; pa_end : rd pa n = Some 0; pa_in l' : l ≤ l' < n → rd pa l' = Some (sh_addr sh l' (idx l' id))
}.

Lemma path_cons pa sh n l id : path pa sh n (l + 1) id → 0 ≤ l < n → n ≤ 5 → ∃ pa', wr pa l (sh_addr sh l (idx l id)) = Some pa' ∧ path pa' sh n l id.
Proof.
  intros [H1 H2 H3] Hl Hn. rewrite -> wr_in by lia. eexists. split; [done|]. assert (wr pa l (sh_addr sh l (idx l id)) = Some (<[Z.to_nat l := sh_addr sh l (idx l id)]> pa)) as Ew by (apply wr_in; lia).
  split; [by rewrite -> length_insert|by rewrite -> (rd_wr_ne _ _ _ _ _ Ew) by lia|]. intros l' Hl'. destruct (decide (l' = l)) as [->|Hne]; [by rewrite -> (rd_wr_eq _ _ _ _ Ew)|]. rewrite -> (rd_wr_ne _ _ _ _ _ Ew) by lia. apply H3. lia.
Qed.

Lemma path_id pa sh n l id id' : path pa sh n l id → 0 ≤ l → (l < n → idx l id' = idx l id) → path pa sh n l id'.
Proof. intros [H1 H2 H3] Hl E. split; [done|done|]. intros l' Hl'. rewrite -> H3 by done. do 2 f_equal. apply (idx_same l); [lia|]. symmetry. apply E. lia. Qed.

Lemma path_weak pa sh n l l' id : path pa sh n l id → l ≤ l' → path pa sh n l' id.
Proof. intros [H1 H2 H3] Hl. split; [done|done|]. intros l0 Hl0. apply H3. lia. Qed.

Lemma path_grown s s' sh sh' pa n l id : grown s s' sh sh' → linked sh n → 0 ≤ l → sh_addr sh l (idx l id) ≠ 0 → path pa sh n l id → path pa sh' n l id.
Proof.
  intros Hg Hk Hl Ha [H1 H2 H3]. split; [done|done|]. intros l' Hl'. rewrite -> H3 by done. f_equal. symmetry. apply (gr_old _ _ _ _ Hg). by apply (present_up sh n Hk l); [lia|lia|].
Qed.

(** The states of the search that began in [s0] at [start]; [z] counts the digits that are known to be 0, and [c] layers have been added. *)
Record search (s0 : idr) (sh0 : shape) (fl0 : list Z) (start : Z) (a : alloc_state) (sh : shape) (fl : list Z) (z c : Z) : Prop := {
  se_rep : idr_rep (al_s a) sh fl;
  se_grown : grown s0 (al_s a) sh0 sh;
  se_level : 0 ≤ al_l a < layers s0;
  se_id : start ≤ al_id a < 64 ^ layers s0;
  se_here : al_p a = sh_addr sh (al_l a) (idx (al_l a) (al_id a));
  se_layer : al_p a ≠ 0;
  se_used x : start ≤ x < al_id a → is_Some (sh_ids sh0 !! x);
  se_path : path (al_pa a) sh (layers s0) (al_l a + 1) (al_id a);
  se_zero : 0 ≤ z ≤ layers s0 ∧ (64 ^ Z.min z (al_l a + 1) | al_id a);
  se_room : al_l a < z → ¬ full (sh_ids sh0) (al_l a) (idx (al_l a) (al_id a));
  se_added : Z.of_nat (length fl0) = Z.of_nat (length fl) + c;
  se_new : c = 0 ∨ 0 < c ∧ c + al_l a < layers s0 ∧ ∀ x, idx (al_l a) x = idx (al_l a) (al_id a) → sh_ids sh0 !! x = None
}.
Definition search_measure (s0 : idr) (z l : Z) : nat := Z.to_nat ((layers s0 - z) * (layers s0 + 1) + l).

(** How the search ends. *)
Definition found (s0 : idr) (sh0 : shape) (fl0 : list Z) (start v : Z) (a : alloc_state) : Prop :=
  ∃ sh fl, idr_rep (al_s a) sh fl ∧ grown s0 (al_s a) sh0 sh ∧ (length fl ≤ length fl0)%nat ∧
    ((start ≤ v < 64 ^ layers s0 ∧ sh_ids sh0 !! v = None ∧ (∀ x, start ≤ x < v → is_Some (sh_ids sh0 !! x)) ∧ path (al_pa a) sh (layers s0) 0 v ∧ sh_addr sh 0 (idx 0 v) ≠ 0) ∨
     (v = IDR_NEED_TO_GROW ∧ al_id a = 64 ^ layers s0 ∧ (∀ x, start ≤ x < 64 ^ layers s0 → is_Some (sh_ids sh0 !! x)) ∧ length fl = length fl0 ∧ length (al_pa a) = 6%nat) ∨
     (v = -1 ∧ Z.of_nat (length fl0) ≤ layers s0 - 2)).

Section search.
Context (s0 : idr) (sh0 : shape) (fl0 : list Z) (start : Z) (Hstart : 0 ≤ start).

Definition goes_on (a : alloc_state) (z : Z) (r : option (ctl alloc_state (Z * alloc_state))) : Prop :=
  (∃ a' sh' fl' z' c', r = Some (Next a') ∧ search s0 sh0 fl0 start a' sh' fl' z' c' ∧ (search_measure s0 z' (al_l a') < search_measure s0 z (al_l a))%nat) ∨
  (∃ v a', r = Some (Stop (v, a')) ∧ found s0 sh0 fl0 start v a').

(** The layer at hand is full from the digit on: the digits below were not all 0, and no layer was added. *)
Lemma full_from a sh fl z c : search s0 sh0 fl0 start a sh fl z c → (∀ j, digit (al_l a) (al_id a) ≤ j < 64 → sh_mark sh (al_l a - 1) (64 * idx (al_l a) (al_id a) + j) = true) → z ≤ al_l a ∧ c = 0.
Proof using Hstart.
  intros [Hrep Hg Hl Hid _ _ _ _ [Hz Hdiv] Hroom _ Hnew] Hfull. pose proof (so_marked _ _ (rep_shape _ _ _ Hrep)) as Hm. set (l := al_l a) in *. set (id := al_id a) in *. rewrite <- (gr_ids _ _ _ _ Hg) in *.
  pose proof (digit_range l id ltac:(lia)) as Hd. pose proof (digit_idx l id ltac:(lia)) as Hdi. split.
  - destruct (Z_lt_le_dec l z) as [Hlt|]; [exfalso; apply Hroom; [done|]|done]. assert (digit l id = 0) as E0.
    { rewrite -> digit_mod by lia. rw /idx. destruct Hdiv as [q Hq]. rewrite -> Hq. replace (Z.min z (l + 1)) with (l + 1) by lia. rewrite -> Z.pow_add_r by lia. replace (l - 1 + 1) with l by lia.
      pose proof (pow64_pos l ltac:(lia)). change (64 ^ 1) with 64. replace (q * (64 ^ l * 64)) with (q * 64 * 64 ^ l) by ring. rewrite -> Z.div_mul by lia. apply Z_mod_mult. }
    apply full_split; [lia|]. intros i Hi. apply Hm; [lia|]. apply Hfull. lia.
  - destruct Hnew as [->|(Hc & _ & Hnone)]; [done|]. exfalso. specialize (Hfull (digit l id) ltac:(lia)). rewrite -> Hdi in Hfull. apply Hm in Hfull; [|lia]. destruct (Hfull id eq_refl) as [x Hx]. by rewrite -> Hnone in Hx.
Qed.

Lemma alloc_up_ok a sh fl z c : search s0 sh0 fl0 start a sh fl z c → (∀ j, digit (al_l a) (al_id a) ≤ j < 64 → sh_mark sh (al_l a - 1) (64 * idx (al_l a) (al_id a) + j) = true) →
  goes_on a z (alloc_up a).
Proof using Hstart.
  intros Hs Hfull. destruct (full_from _ _ _ _ _ Hs Hfull) as [Hzl Hc]. destruct Hs as [Hrep Hg Hl Hid Hp Hp0 Hused Hpath [Hz Hdiv] Hroom Hadd _]. destruct a as [p l id pa s]. cbn [al_p al_l al_id al_pa al_s] in *.
  pose proof Hrep as [[Hk Hm Hct] Hh Ht Hsp]. rewrite -> (gr_layers _ _ _ _ Hg) in Hk, Ht. pose proof (lk_levels _ _ Hk) as Hn. set (n := layers s0) in *. destruct (up_id_ok l id n ltac:(lia) ltac:(lia) ltac:(lia)) as [Eid Hle].
  rw /alloc_up. cbn [al_p al_l al_id al_pa al_s]. rewrite -> Eid. clear Eid. rewrite -> (gr_layers _ _ _ _ Hg). fold n. rewrite -> shift_levels by lia. set (id' := (idx l id + 1) * 64 ^ (l + 1)) in *.
  assert (idx l id' = idx l id + 1) as Ei by (by apply idx_slot; lia). assert (id < id') as Hlt by (pose proof (proj1 (idx_iff l id _ ltac:(lia)) eq_refl); lia).
  assert (∀ x, start ≤ x < id' → is_Some (sh_ids sh0 !! x)) as Hused'.
  { intros x Hx. destruct (Z_lt_le_dec x id) as [|Hge]; [apply Hused; lia|]. rewrite <- (gr_ids _ _ _ _ Hg). apply (run_used sh l (idx l id) (digit l id) 64 x Hm ltac:(lia) Hfull). rewrite -> digit_idx by lia. split; [by apply idx_mono; lia|].
    assert (idx l x = idx l id) as E by (apply idx_iff; [lia|]; pose proof (proj1 (idx_iff l id _ ltac:(lia)) eq_refl); lia). rewrite -> (idx_lower l x) in E by lia. zdm. }
  destruct (Z.leb_spec (64 ^ n) id') as [Hge|Hsmall].
  { right. do 2 eexists. split; [done|]. exists sh, fl. cbn [al_s al_id al_pa]. fold n. split_and!; [done|done|lia|]. right. left. split_and!; [done|lia|intros x Hx; apply Hused'; lia|lia|by apply Hpath]. }
  assert (l + 1 < n) as Hl1.
  { destruct (Z_lt_le_dec (l + 1) n); [done|]. assert (l = n - 1) as -> by lia. rw /id' in Hsmall. rewrite -> idx_top in Hsmall by lia. replace (n - 1 + 1) with n in Hsmall by lia. lia. }
  assert (sh_addr sh (l + 1) (idx (l + 1) id) ≠ 0) as Hup by (apply (present_up sh n Hk l); [lia|lia|by rewrite <- Hp]). rewrite -> (pa_in _ _ _ _ _ Hpath (l + 1)) by lia. cbn [mbind option_bind]. rewrite -> (proj2 (Z.eqb_neq _ 0)) by done.
  rewrite -> !shift_idx by lia. replace (l + 1 + 1 - 1) with (l + 1) by lia. assert (64 ^ (l + 1) | id') as Hdiv' by (by exists (idx l id + 1)). left. destruct (Z.eqb_spec (idx (l + 1) id) (idx (l + 1) id')) as [Esame|Hdiff].
  - exists {| al_p := sh_addr sh (l + 1) (idx (l + 1) id); al_l := l + 1; al_id := id'; al_pa := pa; al_s := s |}, sh, fl, (l + 1), 0. split; [done|]. split; cycle 1. { rw /search_measure. cbn [al_l]. fold n. nia. }
    split; cbn [al_p al_l al_id al_pa al_s]; fold n; [done|done|lia|lia|by rewrite <- Esame|done|done| |split; [lia|by rewrite -> Z.min_l by lia]|lia|lia|by left].
    apply (path_id _ _ _ _ id); [apply (path_weak _ _ _ (l + 1)); [done|lia]|lia|]. intros _. symmetry. by apply (idx_same (l + 1)); [lia|].
  - rw /alloc_restart. rewrite -> (gr_layers _ _ _ _ Hg). fold n. pose proof (pa_length _ _ _ _ _ Hpath) as Hlen. assert (wr pa n 0 = Some (<[Z.to_nat n := 0]> pa)) as Ew by (apply wr_in; lia). rewrite -> Ew. cbn [mbind option_bind].
    eexists _, sh, fl, (l + 1), 0. split; [done|]. split; cycle 1. { rw /search_measure. cbn [al_l]. fold n. nia. }
    rewrite -> (proj2 (Z.eqb_neq n 0)) in Ht by lia. split; cbn [al_p al_l al_id al_pa al_s]; fold n; [done|done|lia|lia| | |done| |split; [lia|by rewrite -> Z.min_l by lia]|lia|lia|by left].
    + by rewrite -> idx_top by lia.
    + rewrite -> Ht. apply (lk_top _ _ Hk). lia.
    + split; [by rewrite -> length_insert|by apply (rd_wr_eq _ _ _ _ Ew)|lia].
Qed.

(** The slot that was found has room. *)
Lemma down_ok a sh fl z c m : search s0 sh0 fl0 start a sh fl z c → digit (al_l a) (al_id a) ≤ m < 64 → (∀ j, digit (al_l a) (al_id a) ≤ j < m → sh_mark sh (al_l a - 1) (64 * idx (al_l a) (al_id a) + j) = true) →
  let id1 := down_id (al_l a) (al_id a) (digit (al_l a) (al_id a)) m in
  start ≤ id1 < 64 ^ layers s0 ∧ idx (al_l a - 1) id1 = 64 * idx (al_l a) (al_id a) + m ∧ idx (al_l a) id1 = idx (al_l a) (al_id a) ∧
  (∀ x, start ≤ x < id1 → is_Some (sh_ids sh0 !! x)) ∧ path (al_pa a) sh (layers s0) (al_l a + 1) id1 ∧ ∃ z', z ≤ z' ≤ layers s0 ∧ (64 ^ Z.min z' (al_l a) | id1).
Proof using Hstart.
  intros [Hrep Hg Hl Hid Hp Hp0 Hused Hpath [Hz Hdiv] Hroom Hadd _] Hm Hrun. destruct a as [p l id pa s]. cbn [al_p al_l al_id al_pa al_s] in *.
  pose proof Hrep as [[Hk Hmk Hct] Hh Ht Hsp]. rewrite -> (gr_layers _ _ _ _ Hg) in Hk, Ht. pose proof (lk_levels _ _ Hk) as Hn. set (n := layers s0) in *.
  destruct (down_id_ok n l id m ltac:(lia) ltac:(lia) ltac:(lia) Hm) as (Hr & Ei & Hcase). set (id1 := down_id l id (digit l id) m) in *. assert (idx l id1 = idx l id) as Esame by (rewrite -> (idx_lower l id1), Ei by lia; pose proof (digit_range l id); zdm).
  cbn zeta. split; [lia|]. split; [done|]. split; [done|]. split; [|split].
  - intros x Hx. destruct (Z_lt_le_dec x id) as [|Hge]; [apply Hused; lia|]. destruct Hcase as [E|E]; [lia|]. rewrite <- (gr_ids _ _ _ _ Hg). apply (run_used sh l (idx l id) (digit l id) m x Hmk ltac:(lia) Hrun).
    rewrite -> digit_idx by lia. split; [by apply idx_mono; lia|]. rw /idx. replace (l - 1 + 1) with l by lia. apply Z.div_lt_upper_bound; [apply pow64_pos; lia|]. fold (idx l id). lia.
  - apply (path_id _ _ _ _ id); [done|lia|]. intros _. by apply (idx_same l); [lia|].
  - destruct Hcase as [->|E].
    + exists z. split; [lia|]. destruct Hdiv as [q Hq]. exists (q * 64 ^ (Z.min z (l + 1) - Z.min z l)). rewrite -> Hq at 1. rewrite <- Z.mul_assoc, <- Z.pow_add_r by lia. do 2 f_equal. lia.
    + exists (Z.max z l). split; [lia|]. rewrite -> Z.min_r by lia. exists (64 * idx l id + m). exact E.
Qed.

Lemma id_fits id : 0 ≤ id < 2 ^ 30 → (MAX_ID_BIT <=? wrap 32 id) || (id <? 0) = false.
Proof using. clear. intros Hid. rewrite -> wrap_small by (split; lia). change MAX_ID_BIT with (2 ^ 31). apply orb_false_iff. split; [apply Z.leb_gt; lia|apply Z.ltb_ge; lia]. Qed.

Lemma alloc_step_ok a sh fl z c : search s0 sh0 fl0 start a sh fl z c → goes_on a z (alloc_step a).
Proof using Hstart.
  intros Hs. pose proof (down_ok a sh fl z c) as Hdown. pose proof (alloc_up_ok a sh fl z c Hs) as Hup. pose proof Hs as [Hrep Hg Hl Hid Hp Hp0 Hused Hpath [Hz Hdiv] Hroom Hadd Hnew].
  pose proof Hrep as [[Hk Hm Hct] Hh Ht Hsp]. rewrite -> (gr_layers _ _ _ _ Hg) in Hk. pose proof (lk_levels _ _ Hk) as Hn. pose proof (pow64_le (layers s0) ltac:(lia)) as Hmax. rw /alloc_step. rewrite -> Hp in Hp0 |- *. destruct (Hh _ _ Hp0) as (ly & E & Hnode).
  rw /at_layer. rewrite -> E. cbn [mbind option_bind]. change (Z.land (Z.shiftr (al_id a) (IDR_BITS * al_l a)) IDR_MASK) with (digit (al_l a) (al_id a)). pose proof (digit_range (al_l a) (al_id a) ltac:(lia)) as Hd.
  destruct (next_clear (bitmap ly) _ (is_width _ _ _ _ Hnode) Hd) as (m & -> & Hmr & Hrun & Hclr). cbn [mbind option_bind]. change IDR_SIZE with 64. assert (∀ j, digit (al_l a) (al_id a) ≤ j < m → sh_mark sh (al_l a - 1) (64 * idx (al_l a) (al_id a) + j) = true) as Hrun'.
  { intros j Hj. rewrite <- (is_bits _ _ _ _ Hnode) by lia. by apply Hrun. }
  destruct (Z.eqb_spec m 64) as [->|Hm64]; [by apply Hup|]. specialize (Hdown m Hs ltac:(lia) Hrun'). cbn zeta in Hdown |- *. fold (down_id (al_l a) (al_id a) (digit (al_l a) (al_id a)) m). set (id1 := down_id (al_l a) (al_id a) (digit (al_l a) (al_id a)) m) in *.
  destruct Hdown as (Hr1 & Ei & Esame & Hused1 & Hpath1 & z' & Hz' & Hdiv'). rewrite -> id_fits by lia. specialize (Hclr ltac:(lia)). rewrite -> (is_bits _ _ _ _ Hnode) in Hclr by lia.
  assert (¬ full (sh_ids sh0) (al_l a - 1) (idx (al_l a - 1) id1)) as Hfree by (rewrite -> Ei, <- (gr_ids _ _ _ _ Hg); intros Hf; apply Hm in Hf; [congruence|lia]).
  rewrite <- Esame in *. destruct (path_cons _ _ _ _ _ Hpath1 Hl ltac:(lia)) as (pa' & Epa & Hpa'). destruct (Z.eqb_spec (al_l a) 0) as [El|Hl0].
  { right. rewrite -> El in *. rewrite -> Epa. cbn [mbind option_bind]. do 2 eexists. split; [done|]. exists sh, fl. cbn [al_s al_id al_pa]. split; [done|]. split; [done|]. split; [lia|]. left. split; [done|].
    split; [|split; [done|split; [done|by rewrite -> Esame in Hp0; rewrite -> Esame]]]. change (0 - 1) with (-1) in Hfree. rewrite -> idx_id in Hfree. destruct (sh_ids sh0 !! id1) eqn:Ef; [|done]. exfalso. apply Hfree. intros x Hx. rewrite -> idx_id in Hx. rewrite -> Hx, Ef. done. }
  assert (0 < al_l a < layers (al_s a)) as Hl' by (rewrite -> (gr_layers _ _ _ _ Hg); lia).
  destruct (alloc_child_ok (al_s a) sh fl (al_l a) (idx (al_l a) id1) m Hrep Hl' Hp0 ltac:(lia)) as [(E0 & Efl & ->)|(s' & sh' & fl' & -> & Hq0 & Hrep' & Hg' & Hcase)]; cbn [mbind option_bind].
  { right. cbn [Z.eqb]. do 2 eexists. split; [done|]. exists sh, fl. cbn [al_s]. rewrite -> Efl in *. split; [done|]. split; [done|]. cbn [length] in *. split; [lia|]. right. right. split; [done|]. lia. }
  rewrite -> (proj2 (Z.eqb_neq _ 0)) by done. rewrite -> Epa. cbn [mbind option_bind]. left. rewrite <- Ei in *.
  eexists _, sh', fl', z', (c + (Z.of_nat (length fl) - Z.of_nat (length fl'))). split; [done|]. cbn [al_l]. split; cycle 1. { rw /search_measure. nia. }
  replace (al_l a - 1 + 1) with (al_l a) in * by lia. split; cbn [al_p al_l al_id al_pa al_s]; replace (al_l a - 1 + 1) with (al_l a) by lia;
    [done|by eapply grown_trans|lia|done|done|done|done|apply (path_grown (al_s a) s' sh); [done|done|lia|done|done]|split; [lia|done]|by intros _|lia|].
  destruct Hcase as [[-> ->]|[Habs Hlen]].
  - destruct Hnew as [->|(Hc & Hcl & Hnone)]; [left; lia|right]. split; [lia|]. split; [lia|]. intros x Hx. apply Hnone. by apply (idx_same (al_l a - 1)); [lia|].
  - right. split; [destruct Hnew; lia|]. split; [destruct Hnew; lia|]. intros x Hx. rewrite <- (gr_ids _ _ _ _ Hg). apply (absent_none sh (layers s0) Hk (al_l a - 1)); [lia|by rewrite -> Hx].
Qed.

Lemma sub_alloc_ok pa : idr_rep s0 sh0 fl0 → 0 < layers s0 → start < 64 ^ layers s0 → length pa = 6%nat →
  ∃ v id pa' s', sub_alloc s0 start pa = Some (v, id, pa', s') ∧ ∃ p l id', found s0 sh0 fl0 start v {| al_p := p; al_l := l; al_id := id'; al_pa := pa'; al_s := s' |} ∧ (v = IDR_NEED_TO_GROW → id = id').
Proof using Hstart.
  intros Hrep Hn Hlt Hpa. pose proof Hrep as [[Hk Hm Hct] Hh Ht Hsp]. pose proof (lk_levels _ _ Hk) as Hle. rw /sub_alloc /alloc_restart. assert (wr pa (layers s0) 0 = Some (<[Z.to_nat (layers s0) := 0]> pa)) as Ew by (apply wr_in; lia).
  rewrite -> Ew. cbn [mbind option_bind]. rewrite -> (proj2 (Z.eqb_neq (layers s0) 0)) in Ht by lia. match goal with |- context [loop ?f alloc_step ?a0] =>
    destruct (loop_index (λ μ a, ∃ sh fl z c, search s0 sh0 fl0 start a sh fl z c ∧ μ = search_measure s0 z (al_l a)) (λ '(v, a), found s0 sh0 fl0 start v a) alloc_step f a0 (search_measure s0 0 (layers s0 - 1))) as ([v a'] & E & Hf) end.
  - intros μ a (sh & fl & z & c & Hs & ->). destruct (alloc_step_ok a sh fl z c Hs) as [(a' & sh' & fl' & z' & c' & E & Hs' & Hlt')|(v & a' & E & Hf)]; [left|right; by exists (v, a')].
    exists a', (search_measure s0 z' (al_l a')). split_and!; [done|by exists sh', fl', z', c'|done].
  - exists sh0, fl0, 0, 0. split; [|done]. split; cbn [al_p al_l al_id al_pa al_s]; [done|apply grown_refl|lia|lia| | |lia| |split; [lia|]|lia|lia|by left].
    + by rewrite -> idx_top by lia.
    + rewrite -> Ht. apply (lk_top _ _ Hk). lia.
    + split; [by rewrite -> length_insert|by apply (rd_wr_eq _ _ _ _ Ew)|lia].
    + rewrite -> Z.min_l by lia. apply Z.divide_1_l.
  - rw /search_measure. nia.
  - rewrite -> E. cbn [mbind option_bind]. destruct a' as [p l id pa' s']. do 4 eexists. split; [done|]. exists p, l, id. split; [done|]. cbn [al_id]. intros ->. done.
Qed.
End search.
