(* ===== verification/IdrGrow.v ===== *)
(** * Small integers for pointers: growing the tree

    Layers are put on top of the tree until it has room for an id; a tree without ids is lifted instead.  When the layers run out, those that were added go back to the list. *)
From S2P Require Import Prelude Bitops FindBit Idr IdrRep IdrAlloc.
#[local] Open Scope Z_scope.

(** ** Moving layers *)

Definition in_tree (sh : shape) (a : Z) : Prop := ∃ l k, sh_addr sh l k = a ∧ a ≠ 0.

Lemma places_same h sh sh' P : (∀ a, in_tree sh' a ↔ in_tree sh a) → places h sh P → places h sh' P.
Proof.
  intros Hs [H1 H2 H3 H4]. split; [done| |done|].
  - intros l k Ha. destruct (proj1 (Hs (sh_addr sh' l k))) as (l' & k' & E & _); [by exists l, k|]. rewrite <- E. apply H2. by rewrite -> E.
  - intros a Ha. destruct (H4 a Ha) as [|Hin]; [by left|right]. by apply Hs.
Qed.

Lemma spare_same s sh sh' X fl : (∀ a, in_tree sh' a ↔ in_tree sh a) → spare s sh X fl → spare s sh' X fl.
Proof. intros Hs [H1 H2 H3]. split; [done|done|]. by apply (places_same _ sh). Qed.

(** A cleared layer goes back to the list. *)
Lemma move_free_ok s sh a X fl ly x : spare s sh (a :: X) fl → holds (store s) sh → store s !! a = Some ly → bitmap ly = 0 → count ly = 0 → ary ly = x :: replicate 63 0 →
  ∃ s', __move_to_free_list a s = Some s' ∧ spare s' sh X (a :: fl) ∧ holds (store s') sh ∧ top s' = top s ∧ layers s' = layers s ∧ rcu s' = rcu s.
Proof.
  intros Hsp Hh E Hb Hc Hary. destruct (loose_not_free _ _ _ _ _ Hsp) as (Hnf & Ha & _). rw /__move_to_free_list.
  destruct (loose_upd s sh a X fl (set_slot 0 (id_free s)) ly (set_ary (id_free s :: replicate 63 0) ly) Hsp Hh E) as (s' & Eu & E' & Hsp' & Hh' & Ht & Hl & Hr).
  { rw /set_slot. rewrite -> Hary. reflexivity. }
  rewrite -> Eu. cbn [mbind option_bind]. assert (id_free s' = id_free s) as Ef.
  { rw /upd_layer /at_layer in Eu. rewrite -> E in Eu. cbn [mbind option_bind] in Eu. rw /set_slot in Eu. rewrite -> Hary in Eu. by injection Eu as <-. }
  eexists. split; [done|]. cbn [store set_free top layers rcu]. split_and!; try done. destruct Hsp' as [H1 H2 H3]. split; cbn [store set_free id_free id_free_cnt rcu].
  - split_and!; [done|done|]. exists (set_ary (id_free s :: replicate 63 0) ly), (id_free s). split_and!; [done|by split_and!|by rewrite <- Ef].
  - cbn [length]. lia.
  - assert (X ++ (a :: fl) ++ rcu s' ≡ₚ (a :: X) ++ fl ++ rcu s') as HP by (cbn [app]; by rewrite <- Permutation_middle). by rewrite -> HP.
Qed.

(** ** A tree with its top, outside the handle *)

Record tower (s : idr) (sh : shape) (n p : Z) (fl : list Z) : Prop := {
  tw_shape : shape_ok sh n; tw_holds : holds (store s) sh; tw_levels : 1 ≤ n ≤ 5; tw_top : p = sh_addr sh (n - 1) 0; tw_spare : spare s sh [] fl
}.

Lemma tower_present s sh n p fl : tower s sh n p fl → p ≠ 0 ∧ sh_addr sh (n - 1) 0 ≠ 0.
Proof. intros [[Hk _ _] _ Hn -> _]. assert (sh_addr sh (n - 1) 0 ≠ 0) by (apply (lk_top _ _ Hk); lia). done. Qed.

Lemma tower_rep s sh n p fl : tower s sh n p fl → idr_rep (set_layers n (with_top p s)) sh fl.
Proof. intros [Hs Hh Hn Hp [H1 H2 H3]]. split; [done|done| |by split]. cbn. by rewrite -> (proj2 (Z.eqb_neq n 0)) by lia. Qed.

Lemma rep_tower s sh fl : idr_rep s sh fl → top s ≠ 0 → tower s sh (layers s) (top s) fl.
Proof. intros Hrep Ht. destruct (top_cases s sh fl Hrep) as [(_ & E & _)|(Hn & E & _)]; [done|]. destruct Hrep. by split. Qed.

(** ** A tree of one layer without ids *)

Definition lone (n p : Z) : shape := {| sh_addr := λ l k, if (l =? n - 1) && (k =? 0) then p else 0; sh_ids := ∅; sh_mark := λ _ _, false; sh_count := λ _ _, 0 |}.

Lemma lone_addr n p l k : sh_addr (lone n p) l k ≠ 0 → l = n - 1 ∧ k = 0.
Proof. cbn. destruct (Z.eqb_spec l (n - 1)), (Z.eqb_spec k 0); done. Qed.

Lemma lone_at n p : sh_addr (lone n p) (n - 1) 0 = p.
Proof. cbn. by rewrite -> Z.eqb_refl. Qed.

Lemma lone_ok n p : 1 ≤ n ≤ 5 → p ≠ 0 → shape_ok (lone n p) n.
Proof.
  intros Hn Hp. split; [split| |].
  - lia.
  - intros _. by rewrite -> lone_at.
  - intros l k [-> ->]%lone_addr. replace (n - 1 - (n - 1)) with 0 by lia. lia.
  - intros l k [-> ->]%lone_addr. lia.
  - intros l k l' k' Ha E. pose proof (lone_addr _ _ _ _ Ha) as [-> ->]. rewrite -> E in Ha. apply lone_addr in Ha as [-> ->]. done.
  - intros id [x Hx]. cbn in Hx. by rewrite -> lookup_empty in Hx.
  - intros l j Hl. split; [done|]. intros Hf. destruct (Hf _ (idx_slot l j Hl)) as [x Hx]. cbn in Hx. by rewrite -> lookup_empty in Hx.
  - intros l k [-> ->]%lone_addr. symmetry. apply uses_none. intros i Hi. rw /used. cbn. rewrite -> lookup_empty, (proj2 (Z.eqb_neq (n - 1 - 1) (n - 1))) by lia. by destruct (_ =? -1).
Qed.

Record fresh (s : idr) (n p : Z) (fl : list Z) : Prop := {
  fr_levels : 1 ≤ n ≤ 5; fr_top : p ≠ 0; fr_blank : ∃ ly, store s !! p = Some ly ∧ blank 0 ly ∧ layer ly = n - 1; fr_spare : spare s (lone n p) [] fl
}.

Lemma fresh_tower s n p fl : fresh s n p fl → tower s (lone n p) n p fl.
Proof.
  intros [Hn Hp (ly & E & (Hb & Hary & Hc) & Hl) Hsp]. split; [by apply lone_ok| |done|by rewrite -> lone_at|done]. intros l k Ha. pose proof (lone_addr _ _ _ _ Ha) as [-> ->]. rewrite -> lone_at. exists ly. split; [done|].
  change (0 :: replicate 63 0) with (replicate 64 0) in Hary. split; [done|by rewrite -> Hary| |by rewrite -> Hb| |done].
  - intros i Hi. assert (cell (lone n p) (n - 1 - 1) (64 * 0 + i) = 0) as -> by (rw /cell; cbn; rewrite -> lookup_empty, (proj2 (Z.eqb_neq (n - 1 - 1) (n - 1))) by lia; by destruct (_ =? -1)).
    rewrite -> Hary. apply rd_Some. split; [lia|]. apply lookup_replicate. lia.
  - intros i Hi. by rewrite -> Hb, Z.bits_0.
Qed.

(** A tower whose top counts nothing is such a tree. *)
Lemma tower_empty s sh n p fl : tower s sh n p fl → sh_count sh (n - 1) 0 = 0 → fresh s n p fl ∧ sh_ids sh = ∅.
Proof.
  intros Htw Hc. pose proof (tower_present _ _ _ _ _ Htw) as [Hp0 Ha]. destruct Htw as [[Hk Hm Hct] Hh Hn Hp Hsp]. rewrite -> (Hct _ _ Ha) in Hc. assert (∀ i, 0 ≤ i < 64 → used sh (n - 1 - 1) (64 * 0 + i) = false) as Hun by (intros i Hi; by apply (uses_zero _ i Hc)).
  assert (∀ l k, sh_addr sh l k ≠ 0 → l = n - 1 ∧ k = 0) as Honly.
  { intros l k Hlk. destruct (lk_range _ _ Hk _ _ Hlk) as [Hl Hkr]. destruct (decide (l = n - 1)) as [->|Hne]; [replace (n - 1 - (n - 1)) with 0 in Hkr by lia; lia|]. exfalso. set (id := k * 64 ^ (l + 1)).
    pose proof (pow64_pos (l + 1) ltac:(lia)). assert (idx l id = k) as Eid by (by apply idx_slot; lia). rewrite <- Eid in Hlk. apply (present_up sh n Hk l (n - 2)) in Hlk; [|lia|lia]. destruct (lk_range _ _ Hk _ _ Hlk) as [_ Hr2]. replace (n - 1 - (n - 2)) with 1 in Hr2 by lia.
    specialize (Hun (idx (n - 2) id) ltac:(lia)). rw /used in Hun. rewrite -> (proj2 (Z.eqb_neq (n - 1 - 1) (-1))) in Hun by lia. replace (n - 1 - 1) with (n - 2) in Hun by lia. replace (64 * 0 + idx (n - 2) id) with (idx (n - 2) id) in Hun by lia.
    apply negb_false_iff in Hun. lia. }
  assert (sh_ids sh = ∅) as Hids.
  { apply map_empty. intros id. destruct (sh_ids sh !! id) eqn:E; [|done]. exfalso. pose proof (lk_ids _ _ Hk id ltac:(by rewrite -> E)) as Hl0. destruct (Honly _ _ Hl0) as [En Ek]. specialize (Hun id). rw /used in Hun. rewrite -> (proj2 (Z.eqb_eq (n - 1 - 1) (-1))) in Hun by lia.
    replace (64 * 0 + id) with id in Hun by lia. rewrite -> E in Hun. discriminate Hun. rw /idx in Ek. change (64 ^ (0 + 1)) with 64 in Ek. zdm. }
  split; [|done]. split; [done|done| |].
  - rewrite <- Hp in Ha. destruct (Hh (n - 1) 0) as (ly & E & [N1 N2 N3 N4 N5 N6]); [by rewrite <- Hp|]. rewrite <- Hp in E. exists ly. split; [done|]. split; [|done]. split; [|split].
    + apply Z.bits_inj'. intros i Hi. rewrite -> Z.bits_0. destruct (Z_lt_le_dec i 64); [|by apply (testbit_above 64)]. rewrite -> N5 by lia. apply unmarked; [done|lia|]. intros id _. by rewrite -> Hids.
    + change (0 :: replicate 63 0) with (replicate 64 0). apply list_eq. intros i. destruct (decide (i < 64)%nat) as [Hi|Hi]; [|by rewrite -> !lookup_ge_None_2 by (rewrite -> ?length_replicate; lia)]. rewrite -> lookup_replicate_2 by lia.
      specialize (N3 (Z.of_nat i) ltac:(lia)). apply rd_Some in N3 as [_ N3]. rewrite -> Nat2Z.id in N3. rewrite -> N3. f_equal. specialize (Hun (Z.of_nat i) ltac:(lia)). rw /used in Hun. rw /cell. destruct (_ =? -1); [by rewrite -> Hids|].
      apply negb_false_iff in Hun. lia.
    + rewrite -> N6, (Hct _ _ ltac:(by rewrite <- Hp)). done.
  - apply (spare_same _ sh); [|done]. intros a. split; intros (l & k & E & Ha0).
    + rewrite <- E in Ha0. apply lone_addr in Ha0 as [-> ->]. rewrite -> lone_at in E. exists (n - 1), 0. rewrite <- Hp, <- E. done.
    + rewrite <- E in Ha0. destruct (Honly _ _ Ha0) as [-> ->]. exists (n - 1), 0. rewrite -> lone_at, <- E. by rewrite <- Hp in *.
Qed.

(** ** Lifting *)

Lemma lift_ok s n p fl : fresh s n p fl → n < 5 → ∃ s', upd_layer p (λ ly, Some (set_layer (layer ly + 1) ly)) s = Some s' ∧ fresh s' (n + 1) p fl ∧ top s' = top s ∧ layers s' = layers s ∧ rcu s' = rcu s.
Proof.
  intros [Hn Hp (ly & E & Hb & Hl) Hsp] Hlt. rw /upd_layer /at_layer. rewrite -> E. cbn [mbind option_bind]. eexists. split; [done|]. split; [|done]. split; [lia|done| |].
  - eexists. cbn [store set_store]. rewrite -> lookup_insert_eq. split; [done|]. split; [done|]. cbn. lia.
  - apply (spare_same _ (lone n p)).
    + intros a. split; intros (l & k & Ea & Ha0); rewrite <- Ea in Ha0; apply lone_addr in Ha0 as [-> ->]; rewrite -> lone_at in Ea; [exists (n - 1), 0|exists (n + 1 - 1), 0]; rewrite -> lone_at, Ea; by rewrite <- Ea.
    + eapply spare_stored; [eexists; split; [by rewrite -> E|done]| |done]. rewrite <- (lone_at n p). eapply tree_not_free; [done|by rewrite -> lone_at].
Qed.

(** The number of layers that an id needs. *)
Definition fits (id n n' : Z) : Prop := n ≤ n' ≤ 5 ∧ id < 64 ^ n' ∧ (n < n' → 64 ^ (n' - 1) ≤ id).

Lemma grow_test n id : 1 ≤ n ≤ 5 → 0 ≤ id < 2 ^ 30 → (n <? MAX_LEVEL - 1) && (swrap 32 (Z.shiftl 1 (n * IDR_BITS)) <=? id) = (64 ^ n <=? id).
Proof.
  intros Hn Hid. rewrite -> shift_levels by lia. change (MAX_LEVEL - 1) with 5. destruct (Z.ltb_spec n 5); [done|]. assert (n = 5) as -> by lia. cbn [andb]. symmetry. apply Z.leb_gt. change (64 ^ 5) with (2 ^ 30). lia.
Qed.

Lemma grow_fresh s n p fl id : fresh s n p fl → 0 ≤ id < 2 ^ 30 →
  ∃ n' s', grow id p n s = Some (Some (p, n'), s') ∧ fresh s' n' p fl ∧ fits id n n' ∧ top s' = top s ∧ layers s' = layers s ∧ rcu s' = rcu s.
Proof.
  intros Hf Hid. rw /grow. match goal with |- context [loop ?f ?b ?x] => destruct (loop_index
    (λ μ '(p', n', s'), p' = p ∧ fresh s' n' p fl ∧ n ≤ n' ∧ (n < n' → 64 ^ (n' - 1) ≤ id) ∧ top s' = top s ∧ layers s' = layers s ∧ rcu s' = rcu s ∧ μ = Z.to_nat (5 - n'))
    (λ '(r, s'), ∃ n', r = Some (p, n') ∧ fresh s' n' p fl ∧ fits id n n' ∧ top s' = top s ∧ layers s' = layers s ∧ rcu s' = rcu s) b f x (Z.to_nat (5 - n))) as ([r s'] & E & n' & -> & H) end.
  - intros μ [[p' n'] s'] (-> & Hf' & Hle & Hneed & Ht & Hl & Hr & ->). pose proof (fr_levels _ _ _ _ Hf') as Hn'. rewrite -> grow_test by done. destruct (Z.leb_spec (64 ^ n') id) as [Hge|Hlt].
    + left. assert (n' < 5) as H5 by (destruct (Z_lt_le_dec n' 5); [done|]; assert (n' = 5) as -> by lia; change (64 ^ 5) with (2 ^ 30) in Hge; lia).
      destruct (fr_blank _ _ _ _ Hf') as (ly & E & (Hb & Hary & Hc) & Hly). rw /at_layer. rewrite -> E. cbn [mbind option_bind]. rewrite -> Hc. cbn [Z.eqb]. destruct (lift_ok s' n' p fl Hf' H5) as (s'' & -> & Hf'' & Ht' & Hl' & Hr'). cbn [mbind option_bind].
      eexists _, _. split; [done|]. split; [|shelve]. split; [done|]. split; [done|]. split; [lia|]. split; [by intros _; replace (n' + 1 - 1) with n' by lia|]. split; [congruence|]. split; [congruence|]. split; [congruence|]. done.
      Unshelve. lia.
    + right. eexists. split; [done|]. exists n'. split; [done|]. split; [done|]. split; [split; [lia|done]|done].
  - split_and!; try done. lia.
  - pose proof (fr_levels _ _ _ _ Hf). change (Z.to_nat MAX_LEVEL) with 6%nat. lia.
  - exists n', s'. done.
Qed.

(** ** A new top *)

Definition add_top (sh : shape) (n a : Z) : shape := {| sh_addr := fset (sh_addr sh) n 0 a; sh_ids := sh_ids sh; sh_mark := sh_mark sh; sh_count := fset (sh_count sh) n 0 1 |}.

Lemma top_slots sh n i : linked sh n → 1 ≤ n → 0 < i → sh_addr sh (n - 1) i = 0.
Proof. intros Hk Hn Hi. destruct (Z.eq_dec (sh_addr sh (n - 1) i) 0) as [|Ha]; [done|]. destruct (lk_range _ _ Hk _ _ Ha) as [_ Hr]. replace (n - 1 - (n - 1)) with 0 in Hr by lia. lia. Qed.

Lemma add_top_ok sh n a : shape_ok sh n → 1 ≤ n < 5 → a ≠ 0 → (∀ l k, sh_addr sh l k ≠ a) → shape_ok (add_top sh n a) (n + 1).
Proof.
  intros [Hk Hm Hct] Hn Ha Hnew. assert (∀ k, sh_addr sh n k = 0) as Hout by (intros k; destruct (Z.eq_dec (sh_addr sh n k) 0) as [|Hc]; [done|]; destruct (lk_range _ _ Hk _ _ Hc); lia).
  assert (∀ l k, sh_addr (add_top sh n a) l k ≠ 0 → l = n ∧ k = 0 ∨ l ≠ n ∧ sh_addr sh l k ≠ 0 ∧ sh_addr (add_top sh n a) l k = sh_addr sh l k) as Hcase.
  { intros l k. cbn. rw /fset. destruct (Z.eqb_spec l n) as [->|], (Z.eqb_spec k 0) as [->|]; cbn; auto. }
  assert (∀ l k, sh_addr sh l k ≠ 0 → sh_addr (add_top sh n a) l k = sh_addr sh l k) as Hold.
  { intros l k Hlk. cbn. apply fset_ne. left. intros ->. by apply Hlk. }
  destruct Hk as [H1 H2 H3 H4 H5 H6]. split; [split| |].
  - lia.
  - intros _. replace (n + 1 - 1) with n by lia. cbn. by rewrite -> fset_eq.
  - intros l k [[-> ->]|(Hl & Hlk & _)]%Hcase; [replace (n + 1 - 1 - n) with 0 by lia; lia|]. destruct (H3 _ _ Hlk) as [Hr Hkr]. split; [lia|]. split; [lia|]. replace (n + 1 - 1 - l) with (Z.succ (n - 1 - l)) by lia. rewrite -> Z.pow_succ_r by lia. lia.
  - intros l k [[-> ->]|(Hl & Hlk & _)]%Hcase Hlt; [lia|]. destruct (H3 _ _ Hlk) as [Hr Hkr]. destruct (decide (l + 1 = n)) as [E|Hne].
    + rewrite -> E. replace (n - 1 - l) with 0 in Hkr by lia. replace k with 0 by lia. cbn. by rewrite -> fset_eq.
    + specialize (H4 _ _ Hlk ltac:(lia)). by rewrite -> Hold.
  - intros l k l' k' Hlk E. pose proof Hlk as [[-> ->]|(Hl & Ho & Eo)]%Hcase; rewrite -> E in Hlk; apply Hcase in Hlk as [[-> ->]|(Hl' & Ho' & Eo')]; [done| | |].
    + exfalso. rewrite -> Eo' in E. cbn in E. rewrite -> fset_eq in E. by apply (Hnew l' k').
    + exfalso. rewrite -> Eo in E. cbn in E. rewrite -> fset_eq in E. by apply (Hnew l k).
    + apply H5; [done|congruence].
  - intros id Hid. specialize (H6 _ Hid). by rewrite -> Hold.
  - exact Hm.
  - assert (∀ l i, l ≠ n → used (add_top sh n a) l i = used sh l i) as Hu by (intros l i Hne; rw /used; cbn; by rewrite -> fset_ne by lia).
    intros l k [[-> ->]|(Hl & Hlk & _)]%Hcase.
    + cbn. rewrite -> fset_eq. rewrite -> (uses_set (λ _, false) _ 0); [done|lia|done| |]; [|intros j Hj Hj0]; rewrite -> Hu by lia; rw /used; rewrite -> (proj2 (Z.eqb_neq (n - 1) (-1))) by lia.
      * apply negb_true_iff, Z.eqb_neq. apply H2. lia.
      * apply negb_false_iff, Z.eqb_eq. apply (top_slots sh n); [by split|lia|lia].
    + destruct (H3 _ _ Hlk) as [Hr _]. cbn. rewrite -> fset_ne, Hct by (done || lia). apply uses_ext. intros i Hi. rewrite -> Hu; [done|lia].
Qed.

Lemma push_layer_ok s sh n p a fl ly : shape_ok sh n → 1 ≤ n < 5 → p = sh_addr sh (n - 1) 0 → spare s sh [a] fl → holds (store s) sh → store s !! a = Some ly → blank 0 ly →
  ∃ s', push_layer a p (n + 1) s = Some s' ∧ tower s' (add_top sh n a) (n + 1) a fl ∧ top s' = top s ∧ layers s' = layers s ∧ rcu s' = rcu s.
Proof.
  intros Hs Hn Hp Hsp Hh E (Hb & Hary & Hc). pose proof (λ l k, spare_other _ _ _ _ _ l k Hsp) as Hnew. destruct (loose_not_free _ _ _ _ _ Hsp) as (_ & Ha0 & _). pose proof Hs as [Hk Hm Hct].
  assert (p ≠ 0) as Hp0 by (rewrite -> Hp; apply (lk_top _ _ Hk); lia). rw /push_layer.
  destruct (loose_upd s sh a [] fl (set_slot 0 p) ly (set_ary (p :: replicate 63 0) ly) Hsp Hh E) as (s1 & -> & E1 & Hsp1 & Hh1 & Ht1 & Hl1 & Hr1). { rw /set_slot. rewrite -> Hary. reflexivity. } cbn [mbind option_bind].
  destruct (loose_upd s1 sh a [] fl (λ nw, Some (set_layer (n + 1 - 1) (set_count 1 nw))) _ _ Hsp1 Hh1 E1 eq_refl) as (s2 & -> & E2 & Hsp2 & Hh2 & Ht2 & Hl2 & Hr2). cbn [mbind option_bind]. replace (n + 1 - 1) with n in E2 by lia.
  destruct (Hh2 (n - 1) 0) as (lyp & Ep & Hnode); [by rewrite <- Hp|]. rewrite <- Hp in Ep. rw /at_layer. rewrite -> Ep. cbn [mbind option_bind].
  assert (∀ s3 lya, store s3 !! a = Some lya → spare s3 sh [a] fl → holds (store s3) sh → layer lya = n → ary lya = p :: replicate 63 0 → count lya = 1 → bitmap lya = (if bitmap lyp =? IDR_FULL then 1 else 0) →
    tower s3 (add_top sh n a) (n + 1) a fl) as Hdone.
  { intros s3 lya E3 Hsp3 Hh3 A1 A2 A3 A4. split; [by apply add_top_ok| |lia|replace (n + 1 - 1) with n by lia; cbn; by rewrite -> fset_eq|].
    2:{ apply (spare_attach _ sh _ a _ _ n 0); [done| |done]. destruct (Z.eq_dec (sh_addr sh n 0) 0) as [|Hc0]; [done|]. destruct (lk_range _ _ Hk _ _ Hc0). lia. }
    intros l k Hlk. destruct (decide (l = n ∧ k = 0)) as [[-> ->]|Hne].
    - cbn [sh_addr add_top]. rewrite -> fset_eq. exists lya. split; [done|]. split; [done|by rewrite -> A2| |rewrite -> A4; by destruct (_ =? _)| |cbn; by rewrite -> fset_eq].
      + intros i Hi. rewrite -> A2, cell_addr by lia. cbn [sh_addr add_top]. rewrite -> fset_ne by lia. destruct (decide (i = 0)) as [->|Hi0]; [by rewrite -> Hp|]. replace (64 * 0 + i) with i by lia. rewrite -> top_slots by (done || lia).
        apply rd_Some. split; [lia|]. rewrite -> lookup_cons_ne_0 by lia. apply lookup_replicate. lia.
      + intros i Hi. rewrite -> A4. cbn [sh_mark add_top]. replace (64 * 0 + i) with i by lia. pose proof (full_word _ (is_width _ _ _ _ Hnode)) as Hfw. assert (sh_mark sh (n - 1) 0 = (bitmap lyp =? IDR_FULL)) as Em.
        { apply eq_true_iff_eq. rewrite -> (Hm (n - 1) 0) by lia. rewrite -> Z.eqb_eq, Hfw, full_split by lia. split; intros H j Hj; [rewrite -> (is_bits _ _ _ _ Hnode) by done; apply Hm; [lia|]; by apply H|]. apply Hm; [lia|]. rewrite <- (is_bits _ _ _ _ Hnode) by done. by apply H. }
        destruct (decide (i = 0)) as [->|Hi0]; [rewrite -> Em; by destruct (_ =? _)|]. transitivity false.
        * destruct (_ =? _); [|apply Z.bits_0]. change 1 with (2 ^ 0). rewrite -> Z.pow2_bits_eqb by lia. by apply Z.eqb_neq.
        * symmetry. apply unmarked; [done|lia|]. intros id Hid. destruct (sh_ids sh !! id) eqn:Ei; [|done]. exfalso. pose proof (id_range sh n Hk id ltac:(by rewrite -> Ei)) as Hr. rewrite -> idx_top in Hid by lia. lia.
    - assert (sh_addr (add_top sh n a) l k = sh_addr sh l k) as Eo by (cbn; apply fset_ne; lia). rewrite -> Eo in *. destruct (Hh3 l k Hlk) as (ly0 & E0 & Hn0). exists ly0. split; [done|]. destruct (lk_range _ _ Hk _ _ Hlk) as [Hr _].
      revert Hn0. apply node_ext; [|cbn; apply fset_ne; lia]. intros i Hi. split; [|done]. rw /cell. cbn. by rewrite -> fset_ne by lia. }
  destruct (bitmap lyp =? IDR_FULL) eqn:Efull.
  - destruct (loose_upd s2 sh a [] fl (λ nw, Some (set_bitmap (__set_bit 0 (bitmap nw)) nw)) _ _ Hsp2 Hh2 E2 eq_refl) as (s3 & -> & E3 & Hsp3 & Hh3 & Ht3 & Hl3 & Hr3). eexists. split; [done|]. split; [|split_and!; congruence].
    eapply (Hdone s3); [exact E3|done|done|done|done|done|]. cbn. by rewrite -> Hb.
  - eexists. split; [done|]. split; [|split_and!; congruence]. eapply (Hdone s2); [exact E2|done|done|done|done|done|]. done.
Qed.

(** ** The tree without its top *)

Lemma ary_first (a : list Z) q : length a = 64%nat → rd a 0 = Some q → (∀ i, 0 < i < 64 → rd a i = Some 0) → a = q :: replicate 63 0.
Proof.
  intros Hl H0 Hi. destruct a as [|x a]; [done|]. apply rd_Some in H0 as [_ [= ->]]. f_equal. cbn in Hl. apply list_eq. intros i. destruct (decide (i < 63)%nat) as [Hlt|Hge]; [|by rewrite -> !lookup_ge_None_2 by (rewrite -> ?length_replicate; lia)].
  rewrite -> lookup_replicate_2 by lia. specialize (Hi (Z.of_nat i + 1) ltac:(lia)). apply rd_Some in Hi as [_ Hi]. by replace (Z.to_nat (Z.of_nat i + 1)) with (S i) in Hi by lia.
Qed.

Lemma detach_top s sh n p fl : tower s sh n p fl → 2 ≤ n → (∀ k, sh_addr sh (n - 2) k ≠ 0 → k = 0) → sh_addr sh (n - 2) 0 ≠ 0 →
  let sh' := set_addr sh (n - 1) 0 0 in shape_ok sh' (n - 1) ∧ holds (store s) sh' ∧ spare s sh' [p] fl ∧ sh_addr sh' (n - 2) 0 = sh_addr sh (n - 2) 0.
Proof.
  intros Htw Hn Hthin Hnext. cbn zeta. pose proof (tower_present _ _ _ _ _ Htw) as [Hp0 Ha]. destruct Htw as [[Hk Hm Hct] Hh Hn5 Hp Hsp]. set (sh' := set_addr sh (n - 1) 0 0).
  assert (∀ l k, sh_addr sh' l k ≠ 0 → l < n - 1 ∧ sh_addr sh l k ≠ 0 ∧ sh_addr sh' l k = sh_addr sh l k) as Hcase.
  { intros l k. cbn. destruct (decide (l = n - 1 ∧ k = 0)) as [[-> ->]|Hne]; [by rewrite -> fset_eq|]. rewrite -> fset_ne by lia. intros Hlk. split; [|done]. destruct (lk_range _ _ Hk _ _ Hlk) as [Hr Hkr].
    destruct (decide (l = n - 1)) as [->|]; [|lia]. replace (n - 1 - (n - 1)) with 0 in Hkr by lia. lia. }
  assert (∀ l k, l < n - 1 → sh_addr sh' l k = sh_addr sh l k) as Hold by (intros l k Hl; cbn; apply fset_ne; lia).
  split; [|split; [|split; [|apply Hold; lia]]].
  - split; [split| |].
    + lia.
    + intros _. replace (n - 1 - 1) with (n - 2) by lia. by rewrite -> Hold by lia.
    + intros l k (Hl & Hlk & _)%Hcase. destruct (lk_range _ _ Hk _ _ Hlk) as [Hr Hkr]. split; [lia|]. split; [lia|]. set (id := k * 64 ^ (l + 1)). assert (idx l id = k) as Eid by (apply idx_slot; lia). rewrite <- Eid in Hlk.
      apply (present_up sh n Hk l (n - 2)) in Hlk; [|lia|lia]. apply Hthin in Hlk. apply idx_iff in Hlk; [|lia]. replace (n - 2 + 1) with (n - 1) in Hlk by lia. rewrite <- Eid. replace (n - 1 - 1 - l) with (n - 1 - 1 - l) by lia.
      apply (idx_bound l id (n - 1)); [lia|lia|]. pose proof (pow64_pos (l + 1)). lia.
    + intros l k (Hl & Hlk & _)%Hcase Hlt. rewrite -> Hold by lia. apply (lk_parent _ _ Hk); [done|lia].
    + intros l k l' k' (Hl & Hlk & E)%Hcase E'. apply (lk_inj _ _ Hk); [done|]. rewrite <- E, E'. apply Hcase. rewrite <- E', E. done.
    + intros id Hid. rewrite -> Hold by lia. by apply (lk_ids _ _ Hk).
    + done.
    + intros l k (Hl & Hlk & _)%Hcase. change (sh_count sh' l k) with (sh_count sh l k). rewrite -> (Hct _ _ Hlk). apply uses_ext. intros i Hi. rw /used. destruct (_ =? -1); [done|]. by rewrite -> Hold by lia.
  - intros l k Hlk. destruct (Hcase _ _ Hlk) as (Hl & Hlk' & ->). destruct (Hh _ _ Hlk') as (ly & E & Hnode). exists ly. split; [done|]. revert Hnode. apply node_ext; [|done]. intros i Hi. split; [|done]. rw /cell. destruct (_ =? -1); [done|]. apply Hold. lia.
  - destruct Hsp as [H1 H2 H3]. split; [done|done|]. by apply (places_detach _ sh _ p _ (n - 1) 0 n).
Qed.

(** The towers that are built on a tree: above the old top there is only the first slot. *)
Record built (s : idr) (sh : shape) (n p : Z) (fl : list Z) (n0 : Z) : Prop := {
  bu_tower : tower s sh n p fl; bu_levels : 1 ≤ n0 ≤ n; bu_top : top s = sh_addr sh (n0 - 1) 0; bu_old : top s ≠ 0; bu_layers : layers s = n0;
  bu_thin l k : n0 - 1 ≤ l → sh_addr sh l k ≠ 0 → k = 0
}.

Lemma tear_step s sh n p fl n0 : built s sh n p fl n0 → n0 < n →
  ∃ s' q, slot p 0 s = Some q ∧ (s ← upd_layer p (set_slot 0 0) s; s ← upd_layer p (λ ly, Some (set_bitmap 0 (set_count 0 ly))) s; __move_to_free_list p s) = Some s' ∧
    built s' (set_addr sh (n - 1) 0 0) (n - 1) q (p :: fl) n0 ∧ top s' = top s ∧ rcu s' = rcu s.
Proof.
  intros [Htw Hle Ht Ht0 Hl Hthin] Hlt. pose proof (tower_present _ _ _ _ _ Htw) as [Hp0 Ha]. pose proof Htw as [[Hk Hm Hct] Hh Hn Hp Hsp].
  assert (sh_addr sh (n - 2) 0 ≠ 0) as Hnext.
  { assert (∀ l, 0 ≤ l → idx l 0 = 0) as E0 by (intros l Hl0; apply Z.div_0_l; pose proof (pow64_pos (l + 1)); lia). rewrite <- (E0 (n - 2)) by lia. apply (present_up sh n Hk (n0 - 1)); [lia|lia|]. rewrite -> E0 by lia. by rewrite <- Ht. }
  destruct (detach_top s sh n p fl Htw ltac:(lia) ltac:(intros k; apply Hthin; lia) Hnext) as (Hs' & Hh' & Hsp' & Enext). set (sh' := set_addr sh (n - 1) 0 0) in *.
  assert (slot p 0 s = Some (sh_addr sh (n - 2) 0)) as Es.
  { rewrite -> Hp, (slot_cell s sh (n - 1) 0 0 Hh Ha), cell_addr by lia. by replace (n - 1 - 1) with (n - 2) by lia. }
  destruct (Hh (n - 1) 0 Ha) as (ly & E & Hnode). rewrite <- Hp in E. assert (ary ly = sh_addr sh (n - 2) 0 :: replicate 63 0) as Hary.
  { apply ary_first; [by apply Hnode|rw /slot /at_layer in Es; by rewrite -> E in Es|]. intros i Hi. rewrite -> (is_ary _ _ _ _ Hnode), cell_addr by lia. f_equal. destruct (Z.eq_dec (sh_addr sh (n - 1 - 1) (64 * 0 + i)) 0) as [|Hc]; [done|]. apply Hthin in Hc; lia. }
  destruct (loose_upd s sh' p [] fl (set_slot 0 0) ly (set_ary (0 :: replicate 63 0) ly) Hsp' Hh' E) as (s1 & E1 & L1 & Hsp1 & Hh1 & Ht1 & Hl1 & Hr1). { rw /set_slot. rewrite -> Hary. reflexivity. }
  destruct (loose_upd s1 sh' p [] fl (λ ly, Some (set_bitmap 0 (set_count 0 ly))) _ _ Hsp1 Hh1 L1 eq_refl) as (s2 & E2 & L2 & Hsp2 & Hh2 & Ht2 & Hl2 & Hr2).
  destruct (move_free_ok s2 sh' p [] fl _ 0 Hsp2 Hh2 L2 eq_refl eq_refl eq_refl) as (s3 & E3 & Hsp3 & Hh3 & Ht3 & Hl3 & Hr3).
  exists s3, (sh_addr sh (n - 2) 0). split; [done|]. rewrite -> E1. cbn [mbind option_bind]. rewrite -> E2. cbn [mbind option_bind]. split; [done|]. split; [|split; congruence].
  split; [|lia| |congruence|congruence|].
  - split; [done|done|lia| |done]. replace (n - 1 - 1) with (n - 2) by lia. done.
  - rewrite -> Ht3, Ht2, Ht1, Ht. cbn. symmetry. apply fset_ne. lia.
  - intros l k Hl0. cbn. rw /fset. destruct (_ && _); [done|]. by apply Hthin.
Qed.

Lemma tear_down_ok s sh n p fl n0 : built s sh n p fl n0 →
  ∃ s' sh' fl', tear_down p s = Some s' ∧ idr_rep s' sh' fl' ∧ sh_ids sh' = sh_ids sh ∧ top s' = top s ∧ Z.of_nat (length fl') = Z.of_nat (length fl) + (n - n0).
Proof.
  intros Hb. rw /tear_down. match goal with |- context [loop ?f ?b ?x] => destruct (loop_index
    (λ μ '(p', s'), ∃ sh' n' fl', built s' sh' n' p' fl' n0 ∧ sh_ids sh' = sh_ids sh ∧ top s' = top s ∧ Z.of_nat (length fl') = Z.of_nat (length fl) + (n - n') ∧ μ = Z.to_nat (n' - n0))
    (λ s', ∃ sh' fl', idr_rep s' sh' fl' ∧ sh_ids sh' = sh_ids sh ∧ top s' = top s ∧ Z.of_nat (length fl') = Z.of_nat (length fl) + (n - n0)) b f x (Z.to_nat (n - n0))) as (s' & E & sh' & fl' & H) end.
  - intros μ [p' s'] (sh' & n' & fl' & Hb' & Hids & Ht & Hlen & ->). pose proof Hb' as [Htw Hle Htop Hold Hlay Hthin]. pose proof (tower_present _ _ _ _ _ Htw) as [Hp0 Ha]. rewrite -> (proj2 (Z.eqb_neq p' 0)) by done. cbn [orb].
    destruct (Z.eqb_spec p' (top s')) as [Ep|Hne].
    + right. eexists. split; [done|]. assert (n' = n0) as ->. { rewrite -> Htop, (tw_top _ _ _ _ _ Htw) in Ep. destruct (lk_inj _ _ (so_linked _ _ (tw_shape _ _ _ _ _ Htw)) _ _ _ _ Ha Ep). lia. }
      exists sh', fl'. split; [|done]. destruct Htw as [Hs Hh Hn Hp Hsp]. split; [by rewrite -> Hlay|done| |done]. rewrite -> Hlay, (proj2 (Z.eqb_neq n0 0)) by lia. done.
    + left. assert (n0 < n') as Hlt. { destruct (decide (n' = n0)) as [->|]; [|lia]. exfalso. apply Hne. rewrite -> Htop. by apply Htw. }
      destruct (tear_step s' sh' n' p' fl' n0 Hb' Hlt) as (s'' & q & Eq & Es & Hb'' & Ht'' & _). rewrite -> Eq. cbn [mbind option_bind]. unbind Es. cbn [mbind option_bind]. rewrite -> Heqo0. cbn [mbind option_bind]. rewrite -> Es. cbn [mbind option_bind].
      eexists _, (Z.to_nat (n' - 1 - n0)). split; [done|]. split; [|lia]. exists (set_addr sh' (n' - 1) 0 0), (n' - 1), (p' :: fl'). split; [done|]. split; [done|]. split; [congruence|]. split; [cbn [length]; lia|done].
  - exists sh, n, fl. split_and!; try done. lia.
  - pose proof (tw_levels _ _ _ _ _ (bu_tower _ _ _ _ _ _ Hb)). pose proof (bu_levels _ _ _ _ _ _ Hb). change (Z.to_nat MAX_LEVEL) with 6%nat. lia.
  - exists s', sh', fl'. done.
Qed.

(** ** Growing *)

Lemma grow_tower s sh n p fl id : tower s sh n p fl → p = top s → n = layers s → sh_count sh (n - 1) 0 ≠ 0 → 0 ≤ id < 2 ^ 30 →
  (∃ p' n' s' sh' fl', grow id p n s = Some (Some (p', n'), s') ∧ tower s' sh' n' p' fl' ∧ fits id n n' ∧ sh_ids sh' = sh_ids sh ∧ Z.of_nat (length fl) = Z.of_nat (length fl') + (n' - n)) ∨
  (∃ s' sh' fl', grow id p n s = Some (None, s') ∧ idr_rep s' sh' fl' ∧ sh_ids sh' = sh_ids sh ∧ Z.of_nat (length fl) < 5 - n).
Proof.
  intros Htw Ep En Hc Hid. rw /grow. match goal with |- context [loop ?f ?b ?x] => destruct (loop_index
    (λ μ '(p', n', s'), ∃ sh' fl', built s' sh' n' p' fl' n ∧ sh_count sh' (n' - 1) 0 ≠ 0 ∧ (n < n' → 64 ^ (n' - 1) ≤ id) ∧ sh_ids sh' = sh_ids sh ∧ Z.of_nat (length fl) = Z.of_nat (length fl') + (n' - n) ∧ μ = Z.to_nat (5 - n'))
    (λ '(r, s'), (∃ p' n' sh' fl', r = Some (p', n') ∧ tower s' sh' n' p' fl' ∧ fits id n n' ∧ sh_ids sh' = sh_ids sh ∧ Z.of_nat (length fl) = Z.of_nat (length fl') + (n' - n)) ∨
      (∃ sh' fl', r = None ∧ idr_rep s' sh' fl' ∧ sh_ids sh' = sh_ids sh ∧ Z.of_nat (length fl) < 5 - n)) b f x (Z.to_nat (5 - n)))
    as ([r s'] & E & H) end.
  - intros μ [[p' n'] s'] (sh' & fl' & Hb & Hc' & Hneed & Hids & Hlen & ->). pose proof Hb as [Htw' Hle Ht Ht0 Hl Hthin]. pose proof Htw' as [Hs' Hh' Hn' Hp' Hsp']. pose proof (tower_present _ _ _ _ _ Htw') as [Hp0 Ha]. rewrite -> grow_test by done.
    destruct (Z.leb_spec (64 ^ n') id) as [Hge|Hlt].
    2:{ right. eexists. split; [done|]. left. exists p', n', sh', fl'. split; [done|]. split; [done|]. split; [split; [lia|done]|done]. }
    assert (n' < 5) as H5 by (destruct (Z_lt_le_dec n' 5); [done|]; assert (n' = 5) as -> by lia; change (64 ^ 5) with (2 ^ 30) in Hge; lia).
    destruct (Hh' _ _ Ha) as (ly & E & Hnode). rewrite <- Hp' in E. rw /at_layer. rewrite -> E. cbn [mbind option_bind]. rewrite -> (is_count _ _ _ _ Hnode), (proj2 (Z.eqb_neq _ 0)) by done.
    pose proof (get_free_ok s' sh' [] fl' Hsp' Hh') as Hg. destruct fl' as [|a fl'].
    + right. rewrite -> Hg. cbn [mbind option_bind Z.eqb]. destruct (tear_down_ok _ _ _ _ _ _ Hb) as (s'' & sh'' & fl'' & -> & Hrep'' & Hids'' & _ & _). cbn [mbind option_bind]. eexists. split; [done|]. right. exists sh'', fl''. split; [done|]. split; [done|]. split; [congruence|]. cbn [length] in Hlen. lia.
    + left. destruct Hg as (s1 & ly1 & -> & E1 & Hb1 & Hsp1 & Hh1 & Ht1 & Hl1 & Hr1 & _). cbn [mbind option_bind]. destruct (loose_not_free _ _ _ _ _ Hsp1) as (_ & Ha0 & _). rewrite -> (proj2 (Z.eqb_neq a 0)) by done.
      destruct (push_layer_ok s1 sh' n' p' a fl' ly1 Hs' ltac:(lia) Hp' Hsp1 Hh1 E1 Hb1) as (s2 & -> & Htw2 & Ht2 & Hl2 & Hr2). cbn [mbind option_bind]. eexists _, (Z.to_nat (5 - (n' + 1))). split; [done|]. split; [|lia].
      exists (add_top sh' n' a), fl'. replace (n' + 1 - 1) with n' by lia. split; [|split; [cbn; by rewrite -> fset_eq|split; [done|split; [done|split; [cbn [length] in Hlen; lia|done]]]]].
      split; [done|lia| |congruence|congruence|].
      * rewrite -> Ht2, Ht1, Ht. cbn. symmetry. apply fset_ne. lia.
      * intros l k Hl0. cbn. rw /fset. destruct (Z.eqb_spec l n'), (Z.eqb_spec k 0); cbn; try done; by apply Hthin.
  - exists sh, fl. pose proof Htw as [[Hk _ _] _ Hn Hp _]. pose proof (tower_present _ _ _ _ _ Htw) as [Hp0 Ha]. split; [|split; [done|split; [lia|split; [done|split; [lia|done]]]]]. split; [done|lia|congruence|congruence|done|].
    intros l k Hl Hlk. destruct (lk_range _ _ Hk _ _ Hlk) as [Hr Hkr]. replace (n - 1 - l) with 0 in Hkr by lia. lia.
  - pose proof (tw_levels _ _ _ _ _ Htw). change (Z.to_nat MAX_LEVEL) with 6%nat. lia.
  - rewrite -> E. destruct H as [(p' & n' & sh' & fl' & -> & H)|(sh' & fl' & -> & H)]; [left; by exists p', n', s', sh', fl'|right; by exists s', sh', fl'].
Qed.

(** ** A place for a new id *)

(** The list had enough layers: the tree has room for [id]. *)
Lemma slot_step_ok s sh fl id pa : idr_rep s sh fl → 0 ≤ id < 2 ^ 30 →
  (∃ s' sh' fl', slot_step (id, pa, s) = Some (Stop (-1, pa, s')) ∧ idr_rep s' sh' fl' ∧ sh_ids sh' = sh_ids sh ∧ Z.of_nat (length fl) < 5 - layers s) ∨
  (∃ s1 sh1 fl1, idr_rep s1 sh1 fl1 ∧ 0 < layers s1 ∧ layers s ≤ layers s1 ∧ id < 64 ^ layers s1 ∧ (1 < layers s1 → layers s < layers s1 → 64 ^ (layers s1 - 1) ≤ id) ∧ sh_ids sh1 = sh_ids sh ∧ Z.of_nat (length fl) ≤ Z.of_nat (length fl1) + (layers s1 - layers s) ∧ (layers s = 0 → (length fl ≤ length fl1 + 1)%nat) ∧
     slot_step (id, pa, s) = ('(v, id, pa, s) ← sub_alloc s1 id pa; Some (if v =? IDR_NEED_TO_GROW then Next (id, pa, s) else Stop (v, pa, s)))).
Proof.
  intros Hrep Hid. rw /slot_step. destruct (top_cases s sh fl Hrep) as [(Hl0 & Ht0 & Hnone)|(Hn & Ht & Ht0)].
  - rewrite -> Ht0. cbn [Z.eqb]. pose proof Hrep as [[Hk _ _] Hh _ Hsp]. assert (∀ l k, sh_addr sh l k = 0) as Hno by (intros l k; destruct (Z.eq_dec (sh_addr sh l k) 0) as [|Hc]; [done|]; destruct (lk_range _ _ Hk _ _ Hc); lia).
    pose proof (get_free_ok s sh [] fl Hsp Hh) as Hg. destruct fl as [|a fl]; [left; rewrite -> Hg; exists s, sh, []; split_and!; [done|done|done|cbn [length]; lia]|right]. destruct Hg as (s1 & ly1 & -> & E1 & Hb1 & Hsp1 & Hh1 & Ht1 & Hl1 & Hr1 & _). cbn [mbind option_bind].
    destruct (loose_not_free _ _ _ _ _ Hsp1) as (_ & Ha0 & _). rewrite -> (proj2 (Z.eqb_neq a 0)) by done. destruct (loose_upd s1 sh a [] fl (λ ly, Some (set_layer 0 ly)) ly1 _ Hsp1 Hh1 E1 eq_refl) as (s2 & -> & E2 & Hsp2 & Hh2 & Ht2 & Hl2 & Hr2). cbn [mbind option_bind].
    rewrite -> (proj2 (Z.eqb_neq a 0)) by done. assert (fresh s2 1 a fl) as Hf.
    { split; [lia|done|by exists (set_layer 0 ly1)|]. apply (spare_same _ (set_addr sh 0 0 a)); [|by apply (spare_attach _ sh _ a _ _ 0 0)]. intros b. split; intros (l & k & Eb & Hb0).
      - pose proof Hb0 as Hc. rewrite <- Eb in Hc. apply lone_addr in Hc as [-> ->]. exists 0, 0. split; [|done]. by rewrite <- Eb.
      - exists 0, 0. split; [|done]. cbn in Eb. rw /fset in Eb. destruct ((l =? 0) && (k =? 0)) eqn:El; [done|]. rewrite -> Hno in Eb. congruence. }
    destruct (grow_fresh s2 1 a fl id Hf Hid) as (n' & s3 & -> & Hf3 & (Hn' & Hid' & Hneed) & _). cbn [mbind option_bind]. exists (set_layers n' (with_top a s3)), (lone n' a), fl. split; [by apply tower_rep, fresh_tower|]. cbn [layers set_layers length].
    split; [lia|]. split; [lia|]. split; [done|]. split; [intros; apply Hneed; lia|]. split; [|split; [lia|split; [lia|done]]]. symmetry. by apply map_empty.
  - rewrite -> (proj2 (Z.eqb_neq (top s) 0)) by done. cbn [mbind option_bind]. rewrite -> (proj2 (Z.eqb_neq (top s) 0)) by done. pose proof (rep_tower s sh fl Hrep Ht0) as Htw. destruct (Z.eq_dec (sh_count sh (layers s - 1) 0) 0) as [Ec|Hc].
    + right. destruct (tower_empty _ _ _ _ _ Htw Ec) as [Hf Hids]. destruct (grow_fresh s _ _ fl id Hf Hid) as (n' & s3 & -> & Hf3 & (Hn' & Hid' & Hneed) & _). cbn [mbind option_bind]. exists (set_layers n' (with_top (top s) s3)), (lone n' (top s)), fl.
      split; [by apply tower_rep, fresh_tower|]. cbn [layers set_layers length]. split; [lia|]. split; [lia|]. split; [done|]. split; [intros; apply Hneed; lia|]. split; [done|]. split; [lia|]. split; [lia|done].
    + destruct (grow_tower s sh (layers s) (top s) fl id Htw eq_refl eq_refl Hc Hid) as [(p' & n' & s' & sh' & fl' & -> & Htw' & (Hn' & Hid' & Hneed) & Hids & Hlen)|(s' & sh' & fl' & -> & Hrep' & Hids & Hlen)]; cbn [mbind option_bind].
      * right. exists (set_layers n' (with_top p' s')), sh', fl'. split; [by apply tower_rep|]. cbn [layers set_layers]. split; [lia|]. split; [lia|]. split; [done|]. split; [intros; apply Hneed; lia|]. split; [done|]. split; [lia|]. split; [lia|done].
      * left. exists s', sh', fl'. split; [done|]. split; [done|]. split; [done|lia].
Qed.

(** The outcome of idr_get_empty_slot when there is a free id below 2^30. *)
Lemma get_slot_ok s sh fl start pa : idr_rep s sh fl → 0 ≤ start → length pa = 6%nat → (∃ f, start ≤ f < 2 ^ 30 ∧ sh_ids sh !! f = None) →
  ∃ v pa' s' sh' fl', idr_get_empty_slot s start pa = Some (v, pa', s') ∧ idr_rep s' sh' fl' ∧ sh_ids sh' = sh_ids sh ∧
    ((v = -1 ∧ Z.of_nat (length fl) < 8) ∨
     (start ≤ v < 2 ^ 30 ∧ sh_ids sh !! v = None ∧ (∀ x, start ≤ x < v → is_Some (sh_ids sh !! x)) ∧ path pa' sh' (layers s') 0 v ∧ sh_addr sh' 0 (idx 0 v) ≠ 0)).
Proof.
  intros Hrep Hst Hpa (f & Hf & Hfree). pose proof (lk_levels _ _ (so_linked _ _ (rep_shape _ _ _ Hrep))) as Hb0. rw /idr_get_empty_slot. change (Z.to_nat MAX_LEVEL + 1)%nat with 7%nat. cbn [loop]. set (rest := loop 6 slot_step).
  destruct (slot_step_ok s sh fl start pa Hrep ltac:(lia)) as [(s' & sh' & fl' & -> & Hrep' & Hids & Hlen)|(s1 & sh1 & fl1 & Hrep1 & Hn1 & Hle1 & Hid1 & Hneed1 & Hids1 & Hlen1 & Hlen1' & ->)].
  { exists (-1), pa, s', sh', fl'. split; [done|]. split; [done|]. split; [done|]. left. split; [done|lia]. }
  pose proof (lk_levels _ _ (so_linked _ _ (rep_shape _ _ _ Hrep1))) as Hb1. pose proof (pow64_le (layers s1) ltac:(lia)) as Hmax.
  destruct (sub_alloc_ok s1 sh1 fl1 start Hst pa Hrep1 Hn1 Hid1 Hpa) as (v & id & pa1 & s2 & -> & p & l & id' & (sh2 & fl2 & Hrep2 & Hg & Hlen2 & Hout) & Hgrow). cbn [mbind option_bind al_s al_pa al_id] in *. rewrite -> Hids1 in *.
  pose proof (gr_ids _ _ _ _ Hg) as Hids2. pose proof (gr_layers _ _ _ _ Hg) as Hly2. destruct Hout as [(Hv & Hvf & Hvu & Hvp & Hva)|[(-> & Hid2 & Hall & Hlen2' & Hpa2)|(-> & Hshort)]].
  - rewrite -> (proj2 (Z.eqb_neq v IDR_NEED_TO_GROW)) by (rw /IDR_NEED_TO_GROW; lia). exists v, pa1, s2, sh2, fl2. split; [done|]. split; [done|]. split; [congruence|]. right. rewrite -> Hly2. split; [lia|]. done.
  - rewrite -> Z.eqb_refl. specialize (Hgrow eq_refl). subst id id'. set (n1 := layers s1) in *. assert (n1 < 5) as Hn5. { destruct (Z_lt_le_dec n1 5); [done|]. assert (n1 = 5) as E5 by lia. destruct (Hall f) as [x Hx]; [rewrite -> E5; change (64 ^ 5) with (2 ^ 30); lia|congruence]. }
    assert (0 < layers s) as Hn0. { destruct (top_cases s sh fl Hrep) as [(_ & _ & Hnone)|]; [|lia]. destruct (Hall start) as [x Hx]; [lia|]. by rewrite -> Hnone in Hx. }
    assert (64 ^ n1 < 2 ^ 30) as Hlt30 by (change (2 ^ 30) with (64 ^ 5); apply Z.pow_lt_mono_r; lia). pose proof (pow64_pos n1 ltac:(lia)) as Hpos. subst rest. cbn [loop].
    destruct (slot_step_ok s2 sh2 fl2 (64 ^ n1) pa1 Hrep2 ltac:(lia)) as [(s' & sh' & fl' & -> & Hrep' & Hids & Hlen)|(s3 & sh3 & fl3 & Hrep3 & Hn3 & Hle3 & Hid3 & Hneed3 & Hids3 & Hlen3 & _ & ->)].
    { exists (-1), pa1, s', sh', fl'. split; [done|]. split; [done|]. split; [congruence|]. left. split; [done|]. lia. }
    pose proof (lk_levels _ _ (so_linked _ _ (rep_shape _ _ _ Hrep3))) as Hb3. pose proof (pow64_le (layers s3) ltac:(lia)) as Hmax3.
    destruct (sub_alloc_ok s3 sh3 fl3 (64 ^ n1) ltac:(lia) pa1 Hrep3 Hn3 Hid3 Hpa2) as (v & id & pa3 & s4 & -> & p' & l' & id' & (sh4 & fl4 & Hrep4 & Hg4 & Hlen4 & Hout) & _). cbn [mbind option_bind al_s al_pa al_id] in *.
    assert (sh_ids sh3 = sh_ids sh) as Hids3' by congruence. rewrite -> Hids3' in *. pose proof (gr_ids _ _ _ _ Hg4) as Hids4. pose proof (gr_layers _ _ _ _ Hg4) as Hly4.
    assert (sh_ids sh !! (64 ^ n1) = None) as Hout1. { destruct (sh_ids sh !! (64 ^ n1)) eqn:Ex; [|done]. exfalso. pose proof (id_range sh2 n1) as Hr. rewrite <- Hly2 in Hr at 1. specialize (Hr (so_linked _ _ (rep_shape _ _ _ Hrep2)) (64 ^ n1)). rewrite -> Hids2, Hids1, Ex in Hr. specialize (Hr ltac:(done)). lia. }
    destruct Hout as [(Hv & Hvf & Hvu & Hvp & Hva)|[(-> & Hid4 & Hall4 & _)|(-> & Hshort)]].
    + rewrite -> (proj2 (Z.eqb_neq v IDR_NEED_TO_GROW)) by (rw /IDR_NEED_TO_GROW; lia). exists v, pa3, s4, sh4, fl4. split; [done|]. split; [done|]. split; [congruence|]. right. rewrite -> Hly4. split; [lia|]. split; [done|]. split; [|done].
      intros x Hx. destruct (Z_lt_le_dec x (64 ^ n1)); [apply Hall; lia|apply Hvu; lia].
    + exfalso. destruct (Hall4 (64 ^ n1)) as [x Hx]; [lia|]. congruence.
    + cbn [Z.eqb IDR_NEED_TO_GROW]. exists (-1), pa3, s4, sh4, fl4. split; [done|]. split; [done|]. split; [congruence|]. left. split; [done|]. assert (layers s3 ≤ n1 + 1) as Hn4; [|lia].
      destruct (Z_lt_le_dec (n1 + 1) (layers s3)); [|done]. specialize (Hneed3 ltac:(lia) ltac:(lia)). pose proof (Z.pow_lt_mono_r 64 n1 (layers s3 - 1) ltac:(lia) ltac:(lia) ltac:(lia)). lia.
  - cbn [Z.eqb IDR_NEED_TO_GROW]. exists (-1), pa1, s2, sh2, fl2. split; [done|]. split; [done|]. split; [congruence|]. left. split; [done|]. lia.
Qed.
