(* ===== verification/IdrNew.v ===== *)
(** * Small integers for pointers: a new id

    The pointer is stored, the leaf counts one slot more, and the bits of the layers above are set as far as the tree is full. *)
From S2P Require Import Prelude Bitops FindBit Idr IdrRep IdrAlloc IdrGrow.
#[local] Open Scope Z_scope.

(** ** The bits on the way to an id *)

(** The bits of the slots of [id] below the level [t] have the value [b]. *)
Definition mark_to (sh : shape) (id t : Z) (b : bool) : shape :=
  {| sh_addr := sh_addr sh; sh_ids := sh_ids sh; sh_mark := λ l j, if (j =? idx l id) && (l <? t) then b else sh_mark sh l j; sh_count := sh_count sh |}.

Lemma holds_marks h sh sh' : sh_addr sh' = sh_addr sh → sh_ids sh' = sh_ids sh → sh_count sh' = sh_count sh →
  (∀ l k i, sh_addr sh l k ≠ 0 → 0 ≤ i < 64 → sh_mark sh' (l - 1) (64 * k + i) = sh_mark sh (l - 1) (64 * k + i)) → holds h sh → holds h sh'.
Proof.
  intros Ea Ei Ec Em Hh l k Hlk. rewrite -> Ea in *. destruct (Hh l k Hlk) as (ly & E & Hnode). exists ly. split; [done|]. revert Hnode. apply node_ext; [|by rewrite -> Ec].
  intros i Hi. split; [|by apply Em]. rw /cell. by rewrite -> Ea, Ei.
Qed.

Lemma slot_of l k i id : 0 ≤ l → 0 ≤ i < 64 → 64 * k + i = idx (l - 1) id → k = idx l id ∧ i = digit l id.
Proof. intros Hl Hi E. apply (slot_inj k i (idx l id) (digit l id)); [done|by apply digit_range|]. by rewrite -> digit_idx. Qed.

(** One more bit. *)
Lemma mark_more s sh n id t l b : linked sh n → holds (store s) (mark_to sh id t b) → 0 ≤ l → sh_addr sh l (idx l id) ≠ 0 →
  ∃ s', upd_layer (sh_addr sh l (idx l id)) (λ ly, Some (set_bitmap ((if b then __set_bit else __clear_bit) (digit l id) (bitmap ly)) ly)) s = Some s' ∧
    holds (store s') (set_mark (mark_to sh id t b) (l - 1) (idx (l - 1) id) b) ∧ stored (sh_addr sh l (idx l id)) s s'.
Proof.
  intros Hk Hh Hl Ha. rewrite <- digit_idx by done. apply (upd_mark s (mark_to sh id t b) n); [by apply (linked_shape sh)|done|done|by apply digit_range].
Qed.

Section full.
Context (sh : shape) (id ptr : Z) (Hm : marked sh) (Hfree : sh_ids sh !! id = None).
Let F' := <[id := ptr]> (sh_ids sh).

(** Slots that do not hold the id. *)
Lemma full_other l j : j ≠ idx l id → full F' l j ↔ full (sh_ids sh) l j.
Proof using Hm Hfree. intros Hj. split; intros Hf x Hx; specialize (Hf x Hx); rw /F' in Hf |- *; [rewrite -> lookup_insert_ne in Hf by (intros ->; done)|rewrite -> lookup_insert_ne by (intros ->; done)]; done. Qed.

Lemma not_full l : ¬ full (sh_ids sh) l (idx l id).
Proof using Hm Hfree. intros Hf. destruct (Hf id eq_refl) as [x Hx]. congruence. Qed.

Lemma full_down F l l' x : -1 ≤ l ≤ l' → full F l' (idx l' x) → full F l (idx l x).
Proof using. intros Hl Hf y Hy. apply Hf. by apply (idx_same l). Qed.

(** The bits below the level [t] are those of the new map. *)
Lemma mark_below t l j : (∀ l', -1 ≤ l' < t → full F' l' (idx l' id)) → -1 ≤ l < t → sh_mark (mark_to sh id t true) l j = true ↔ full F' l j.
Proof using Hm Hfree.
  intros Hf Hl. cbn. rewrite -> (proj2 (Z.ltb_lt l t)), andb_true_r by lia. destruct (Z.eqb_spec j (idx l id)) as [->|Hne]; [split; [intros _; by apply Hf|done]|]. rewrite -> full_other by done. apply Hm. lia.
Qed.

(** All bits, when the slot at the level [t] is not full. *)
Lemma mark_all t : (∀ l', -1 ≤ l' < t → full F' l' (idx l' id)) → -1 ≤ t → ¬ full F' t (idx t id) → ∀ l j, -1 ≤ l → sh_mark (mark_to sh id t true) l j = true ↔ full F' l j.
Proof using Hm Hfree.
  intros Hf Ht Hn l j Hl. destruct (Z_lt_le_dec l t) as [Hlt|Hge]; [by apply mark_below|]. cbn. rewrite -> (proj2 (Z.ltb_ge l t)), andb_false_r by lia. rewrite -> (Hm l j Hl). destruct (decide (j = idx l id)) as [->|Hne]; [|by rewrite -> full_other].
  split; intros Hc; exfalso; [by apply (not_full l)|]. apply Hn. by apply (full_down _ t l).
Qed.
End full.

Lemma digit_0 id : Z.land id IDR_MASK = digit 0 id.
Proof. rw /digit. change (IDR_BITS * 0) with 0. by rewrite -> Z.shiftr_0_r. Qed.

Lemma digit_up l id : 0 ≤ l → Z.land (Z.shiftr (idx (l - 1) id) IDR_BITS) IDR_MASK = digit (l + 1) id.
Proof. intros Hl. rw /digit /IDR_BITS. rewrite <- (shift_idx l) by done. rewrite -> Z.shiftr_shiftr by (rw /IDR_BITS; lia). do 2 f_equal. rw /IDR_BITS. lia. Qed.

(** ** idr_mark_full *)

(** The tree with the pointer of a new id. *)
Definition with_id (sh : shape) (id ptr : Z) : shape := set_cnt (set_ids sh (<[id := ptr]> (sh_ids sh))) 0 (idx 0 id) (sh_count sh 0 (idx 0 id) + 1).

Lemma mark_next sh id l h : 0 ≤ l → holds h (set_mark (mark_to sh id (l - 1) true) (l - 1) (idx (l - 1) id) true) → holds h (mark_to sh id l true).
Proof.
  intros Hl. apply holds_marks; [done|done|done|]. intros l' k i Ha Hi. cbn. rw /fset. destruct (Z.eqb_spec (l' - 1) (l - 1)) as [E|Hne].
  - rewrite -> E. rewrite -> (proj2 (Z.ltb_lt (l - 1) l)), (proj2 (Z.ltb_ge (l - 1) (l - 1))), andb_true_r, andb_false_r by lia. by destruct (_ =? _).
  - cbn. destruct (Z.ltb_spec (l' - 1) l), (Z.ltb_spec (l' - 1) (l - 1)); done || lia.
Qed.

Lemma mark_step s sh n fl id l : linked sh n → holds (store s) (mark_to sh id (l - 1) true) → spare s sh [] fl → 0 ≤ l → sh_addr sh l (idx l id) ≠ 0 →
  ∃ s', upd_layer (sh_addr sh l (idx l id)) (λ ly, Some (set_bitmap (__set_bit (digit l id) (bitmap ly)) ly)) s = Some s' ∧ holds (store s') (mark_to sh id l true) ∧
    spare s' sh [] fl ∧ top s' = top s ∧ layers s' = layers s ∧ rcu s' = rcu s.
Proof.
  intros Hk Hh Hsp Hl Ha. destruct (mark_more s sh n id (l - 1) l true Hk Hh Hl Ha) as (s' & E & Hh' & Hst). exists s'. split; [done|]. split; [by apply mark_next|]. destruct (stored_rest _ _ _ Hst) as (H1 & H2 & H3). split; [|done]. by apply (spare_node s s' sh sh [] fl l (idx l id)).
Qed.

(** A layer whose bits are all set. *)
Lemma full_layer s sh n id ptr t ly : linked (with_id sh id ptr) n → marked sh → sh_ids sh !! id = None → (∀ l', -1 ≤ l' < t → full (<[id := ptr]> (sh_ids sh)) l' (idx l' id)) →
  0 ≤ t → node_is (mark_to (with_id sh id ptr) id t true) t (idx t id) ly → store s !! sh_addr sh t (idx t id) = Some ly → (bitmap ly =? IDR_FULL) = true ↔ full (<[id := ptr]> (sh_ids sh)) t (idx t id).
Proof.
  intros Hk Hm Hfree Hf Ht Hnode E. rewrite -> Z.eqb_eq, (full_word _ (is_width _ _ _ _ Hnode)), full_split by done.
  split; intros H i Hi; specialize (H i Hi); [apply (mark_below sh id ptr Hm Hfree t); [done|lia|]; by rewrite -> (is_bits _ _ _ _ Hnode) in H|]. rewrite -> (is_bits _ _ _ _ Hnode) by done. by apply (mark_below sh id ptr Hm Hfree t); [done|lia|].
Qed.

Lemma mark_full_ok s sh n fl id ptr pa : linked (with_id sh id ptr) n → holds (store s) (with_id sh id ptr) → spare s sh [] fl → marked sh → sh_ids sh !! id = None → path pa sh n 0 id → sh_addr sh 0 (idx 0 id) ≠ 0 → 1 ≤ n →
  ∃ s' t, idr_mark_full pa id s = Some s' ∧ holds (store s') (mark_to (with_id sh id ptr) id t true) ∧ marked (mark_to (with_id sh id ptr) id t true) ∧ spare s' sh [] fl ∧ top s' = top s ∧ layers s' = layers s ∧ rcu s' = rcu s.
Proof.
  intros Hk Hh Hsp Hm Hfree Hpath Ha Hn. set (shB := with_id sh id ptr) in *. set (F' := <[id := ptr]> (sh_ids sh)). assert (0 ≤ id < 64 ^ n) as Hid. { apply (id_range shB n Hk). cbn. by rewrite -> lookup_insert_eq. }
  assert (∀ l, 0 ≤ l < n → sh_addr sh l (idx l id) ≠ 0) as Hup by (intros l Hl; apply (present_up shB n Hk 0 l); [lia|lia|done]). assert (∀ l', -1 ≤ l' < 0 → full F' l' (idx l' id)) as Hf0.
  { intros l' Hl'. assert (l' = -1) as -> by lia. intros x Hx. rewrite -> !idx_id in Hx. rewrite -> Hx. rw /F'. by rewrite -> lookup_insert_eq. }
  rw /idr_mark_full. rewrite -> (pa_in _ _ _ _ _ Hpath 0) by lia. cbn [mbind option_bind]. rewrite -> digit_0.
  assert (holds (store s) (mark_to shB id (0 - 1) true)) as Hh0. { revert Hh. apply holds_marks; [done|done|done|]. intros l k i Hlk _. cbn. destruct (lk_range _ _ Hk _ _ Hlk). rewrite -> (proj2 (Z.ltb_ge (l - 1) (0 - 1))), andb_false_r by lia. done. }
  assert (spare s shB [] fl) as HspB by (by apply (spare_shape _ sh)). destruct (mark_step s shB n fl id 0 Hk Hh0 HspB ltac:(lia) Ha) as (s1 & E1 & Hh1 & Hsp1 & Ht1 & Hl1 & Hr1). change (sh_addr shB) with (sh_addr sh) in E1. rewrite -> E1. cbn [mbind option_bind].
  match goal with |- context [loop ?f ?b ?x] => destruct (loop_index
    (λ μ '(p, l, idv, s'), 0 ≤ l < n ∧ p = sh_addr sh l (idx l id) ∧ idv = idx (l - 1) id ∧ holds (store s') (mark_to shB id l true) ∧ (∀ l', -1 ≤ l' < l → full F' l' (idx l' id)) ∧ spare s' shB [] fl ∧ top s' = top s ∧ layers s' = layers s ∧ rcu s' = rcu s ∧ μ = Z.to_nat (n - l))
    (λ s', ∃ t, holds (store s') (mark_to shB id t true) ∧ marked (mark_to shB id t true) ∧ spare s' shB [] fl ∧ top s' = top s ∧ layers s' = layers s ∧ rcu s' = rcu s) b f x (Z.to_nat n))
    as (s' & E & t & H1 & H2 & H3 & H4) end.
  - intros μ [[[p l] idv] s'] (Hl & -> & -> & Hh' & Hf & Hsp' & Ht & Hly & Hr & ->). destruct (Hh' l (idx l id)) as (ly & E & Hnode); [by apply Hup|]. change (sh_addr (mark_to shB id l true)) with (sh_addr sh) in E. rw /at_layer. rewrite -> E. cbn [mbind option_bind].
    pose proof (full_layer s' sh n id ptr l ly Hk Hm Hfree Hf ltac:(lia) Hnode E) as Hfull. fold F' in Hfull. destruct (bitmap ly =? IDR_FULL); cbn [negb].
    2:{ right. eexists. split; [done|]. exists l. split; [done|]. split; [|done]. intros l0 j Hl0. apply (mark_all sh id ptr Hm Hfree l); [done|lia| |done]. intros Hc. apply Hfull in Hc. done. }
    specialize (proj1 Hfull eq_refl) as Hfl. assert (∀ l', -1 ≤ l' < l + 1 → full F' l' (idx l' id)) as Hf'. { intros l' Hl'. destruct (decide (l' = l)) as [->|]; [done|]. apply Hf. lia. }
    destruct (decide (l + 1 = n)) as [El|Hln].
    + right. rewrite -> El, (pa_end _ _ _ _ _ Hpath). cbn [mbind option_bind Z.eqb]. eexists. split; [done|]. exists n. split; [|split; [|done]].
      * revert Hh'. apply holds_marks; [done|done|done|]. intros l0 k i Hlk Hi. cbn. destruct (lk_range _ _ Hk _ _ Hlk). destruct (Z.ltb_spec (l0 - 1) n), (Z.ltb_spec (l0 - 1) l); done || lia.
      * intros l0 j Hl0. apply (mark_all sh id ptr Hm Hfree n); [by rewrite <- El|lia| |done]. intros Hc. destruct (Hc (64 ^ n)) as [x Hx]. { assert (idx n id = 0) as ->. { apply idx_iff; [lia|]. rewrite -> Z.pow_add_r by lia. lia. } apply idx_iff; [lia|]. pose proof (pow64_pos n). rewrite -> Z.pow_add_r by lia. lia. }
        pose proof (id_range shB n Hk (64 ^ n) (ex_intro _ x Hx)). lia.
    + left. rewrite -> (pa_in _ _ _ _ _ Hpath (l + 1)) by lia. cbn [mbind option_bind]. rewrite -> (proj2 (Z.eqb_neq _ 0)) by (apply Hup; lia). rewrite -> digit_up by lia. assert (holds (store s') (mark_to shB id (l + 1 - 1) true)) as Hh'' by (by replace (l + 1 - 1) with l by lia).
      destruct (mark_step s' shB n fl id (l + 1) Hk Hh'' Hsp' ltac:(lia) (Hup (l + 1) ltac:(lia))) as (s2 & E2 & Hh2 & Hsp2 & Ht2 & Hl2 & Hr2). change (sh_addr shB) with (sh_addr sh) in E2. rewrite -> E2. cbn [mbind option_bind].
      eexists _, (Z.to_nat (n - (l + 1))). split; [done|]. split; [|lia]. split; [lia|]. split; [done|]. split; [rewrite -> Z.shiftr_div_pow2 by done; change (2 ^ IDR_BITS) with 64; rewrite -> idx_up by lia; f_equal; lia|].
      split; [done|]. split; [done|]. split; [done|]. split; [congruence|]. split; [congruence|]. split; [congruence|]. done.
  - split; [lia|]. split; [done|]. split; [symmetry; apply idx_id|]. split; [done|]. split; [done|]. split; [done|]. split; [done|]. split; [done|]. split; [done|]. f_equal. lia.
  - pose proof (lk_levels _ _ Hk). rewrite -> (pa_length _ _ _ _ _ Hpath). lia.
  - exists s', t. split; [done|]. split; [done|]. split; [done|]. split; [|done]. by apply (spare_shape _ shB).
Qed.

(** ** Allocation *)

Lemma with_id_ok sh n id ptr : linked sh n → counted sh → sh_ids sh !! id = None → sh_addr sh 0 (idx 0 id) ≠ 0 → linked (with_id sh id ptr) n ∧ counted (with_id sh id ptr).
Proof.
  intros [H1 H2 H3 H4 H5 H6] Hct Hfree Ha. assert (∀ l j, (l ≠ -1 ∨ j ≠ id) → used (with_id sh id ptr) l j = used sh l j) as Hu.
  { intros l j Hne. rw /used. cbn. destruct (Z.eqb_spec l (-1)); [|done]. by rewrite -> lookup_insert_ne by lia. }
  split; [split; try done|].
  - intros x Hx. cbn in Hx. destruct (decide (x = id)) as [->|Hne]; [done|]. rewrite -> lookup_insert_ne in Hx by done. by apply H6.
  - intros l k Hlk. cbn [sh_count with_id set_cnt]. destruct (decide (l = 0 ∧ k = idx 0 id)) as [[-> ->]|Hne].
    + rewrite -> fset_eq. change (sh_addr (with_id sh id ptr)) with (sh_addr sh) in Hlk. rewrite -> (Hct _ _ Hlk). symmetry. pose proof (digit_range 0 id ltac:(lia)) as Hd. pose proof (digit_idx 0 id ltac:(lia)) as Hdi. change (0 - 1) with (-1) in *. rewrite -> idx_id in Hdi. apply (uses_set _ _ (digit 0 id)); [done| | |].
      * rewrite -> Hdi. rw /used. cbn. by rewrite -> Hfree.
      * rewrite -> Hdi. rw /used. cbn. by rewrite -> lookup_insert_eq.
      * intros j Hj Hjd. apply Hu. right. lia.
    + rewrite -> fset_ne by lia. change (sh_count (set_ids sh (<[id:=ptr]> (sh_ids sh)))) with (sh_count sh). rewrite -> (Hct _ _ Hlk). apply uses_ext. intros i Hi. symmetry. apply Hu. destruct (decide (l - 1 = -1)) as [E|]; [|by left]. right. intros Ei. apply Hne. assert (l = 0) as -> by lia.
      split; [done|]. apply (slot_of 0 k i id); [lia|done|]. change (0 - 1) with (-1). by rewrite -> idx_id.
Qed.

(** The outcome of idr_get_new_above_int: the lowest free id from [start] on, or no memory. *)
Lemma new_above_ok s sh fl ptr start : idr_rep s sh fl → 0 ≤ start → (∃ f, start ≤ f < 2 ^ 30 ∧ sh_ids sh !! f = None) →
  ∃ rv s' sh' fl', idr_get_new_above_int s ptr start = Some (rv, s') ∧ idr_rep s' sh' fl' ∧
    ((rv = -1 ∧ sh_ids sh' = sh_ids sh ∧ Z.of_nat (length fl) < 8) ∨
     (start ≤ rv < 2 ^ 30 ∧ sh_ids sh !! rv = None ∧ (∀ x, start ≤ x < rv → is_Some (sh_ids sh !! x)) ∧ sh_ids sh' = <[rv := ptr]> (sh_ids sh))).
Proof.
  intros Hrep Hst Hex. rw /idr_get_new_above_int. destruct (get_slot_ok s sh fl start (replicate (Z.to_nat MAX_LEVEL) 0) Hrep Hst eq_refl Hex) as (v & pa & s1 & sh1 & fl1 & -> & Hrep1 & Hids & Hout). cbn [mbind option_bind].
  destruct Hout as [(-> & Hlen)|(Hv & Hfree & Hlow & Hpath & Ha)]; [exists (-1), s1, sh1, fl1; cbn [Z.leb]; split; [done|]; split; [done|]; by left|]. rewrite -> (proj2 (Z.leb_le 0 v)) by lia.
  pose proof Hrep1 as [[Hk Hm Hct] Hh Ht Hsp]. destruct (lk_range _ _ Hk _ _ Ha) as [Hn _]. rewrite -> (pa_in _ _ _ _ _ Hpath 0) by lia. cbn [mbind option_bind]. rewrite -> digit_0. rewrite <- Hids in *.
  pose proof (digit_range 0 v ltac:(lia)) as Hd. pose proof (digit_idx 0 v ltac:(lia)) as Hdi. change (0 - 1) with (-1) in Hdi. rewrite -> idx_id in Hdi.
  destruct (with_id_ok sh1 (layers s1) v ptr Hk Hct Hfree Ha) as [HkB HctB].
  destruct (upd_id s1 sh1 (layers s1) Hk Hh (idx 0 v) (digit 0 v) ptr (<[v := ptr]> (sh_ids sh1)) Ha Hd) as (s2 & -> & Hh2 & Hst2). { rewrite -> Hdi, lookup_insert_eq. done. } { intros j Hj. rewrite -> Hdi in Hj. by rewrite -> lookup_insert_ne. }
  cbn [mbind option_bind]. destruct (upd_count s2 (set_ids sh1 (<[v := ptr]> (sh_ids sh1))) (layers s1) ltac:(destruct HkB; by split) Hh2 0 (idx 0 v) 1 Ha) as (s3 & E3 & Hh3 & Hst3). change (sh_addr (set_ids sh1 (<[v := ptr]> (sh_ids sh1)))) with (sh_addr sh1) in E3, Hst3.
  rewrite -> E3. cbn [mbind option_bind]. destruct (stored_rest _ _ _ Hst2) as (Ht2 & Hl2 & Hr2). destruct (stored_rest _ _ _ Hst3) as (Ht3 & Hl3 & Hr3).
  assert (spare s3 sh1 [] fl1) as Hsp3 by (apply (spare_node s2 s3 sh1 sh1 [] fl1 0 (idx 0 v)); [done|done|done|]; by apply (spare_node s1 s2 sh1 sh1 [] fl1 0 (idx 0 v))).
  destruct (mark_full_ok s3 sh1 (layers s1) fl1 v ptr pa HkB Hh3 Hsp3 Hm Hfree Hpath Ha ltac:(lia)) as (s4 & t & -> & Hh4 & Hm4 & Hsp4 & Ht4 & Hl4 & Hr4). cbn [mbind option_bind].
  exists v, s4, (mark_to (with_id sh1 v ptr) v t true), fl1. split; [done|]. assert (layers s4 = layers s1) as Hly by congruence. split; [|right; split; [lia|]; split; [done|]; split; [done|done]].
  split; [rewrite -> Hly; split; [by apply (linked_shape (with_id sh1 v ptr))|done|exact HctB]|done| |by apply (spare_shape _ sh1)]. rewrite -> Hly, Ht4, Ht3, Ht2, Ht. done.
Qed.
