(* ===== verification/IdrRemove.v ===== *)
(** * Small integers for pointers: removal

    The bits on the way to the id are cleared, the pointer goes, and the layers that count nothing any more leave the tree from the leaf up.  Then a top with only its
    first slot goes too, and the list of preallocated layers is cut down. *)
From S2P Require Import Prelude Bitops FindBit Idr IdrRep IdrAlloc IdrGrow IdrNew.
#[local] Open Scope Z_scope.

(** ** The way down *)

(** The bits of the slots of [id] from the level [t] on are clear. *)
Definition clear_from (sh : shape) (id t : Z) : shape :=
  {| sh_addr := sh_addr sh; sh_ids := sh_ids sh; sh_mark := λ l j, if (j =? idx l id) && (t <=? l) then false else sh_mark sh l j; sh_count := sh_count sh |}.

Lemma clear_next sh id l h : holds h (set_mark (clear_from sh id l) (l - 1) (idx (l - 1) id) false) → holds h (clear_from sh id (l - 1)).
Proof.
  apply holds_marks; [done|done|done|]. intros l' k i Ha Hi. cbn. rw /fset. destruct (Z.eqb_spec (l' - 1) (l - 1)) as [E|Hne].
  - rewrite -> E. rewrite -> (proj2 (Z.leb_le (l - 1) (l - 1))), (proj2 (Z.leb_gt l (l - 1))), andb_true_r, andb_false_r by lia. by destruct (_ =? _).
  - cbn. destruct (Z.leb_spec (l - 1) (l' - 1)), (Z.leb_spec l (l' - 1)); done || lia.
Qed.

Lemma clear_step s sh n X fl id l : linked sh n → holds (store s) (clear_from sh id l) → spare s sh X fl → 0 ≤ l → sh_addr sh l (idx l id) ≠ 0 →
  ∃ s', upd_layer (sh_addr sh l (idx l id)) (λ ly, Some (set_bitmap (__clear_bit (digit l id) (bitmap ly)) ly)) s = Some s' ∧ holds (store s') (clear_from sh id (l - 1)) ∧
    spare s' sh X fl ∧ top s' = top s ∧ layers s' = layers s ∧ rcu s' = rcu s.
Proof.
  intros Hk Hh Hsp Hl Ha. destruct (upd_mark s (clear_from sh id l) n ltac:(by apply (linked_shape sh)) Hh l (idx l id) (digit l id) false Ha (digit_range l id Hl)) as (s' & E & Hh' & Hst). rewrite -> digit_idx in Hh' by done.
  exists s'. split; [done|]. split; [by apply clear_next|]. destruct (stored_rest _ _ _ Hst) as (H1 & H2 & H3). split; [|done]. by apply (spare_node s s' sh sh X fl l (idx l id)).
Qed.

(** The bits on the way to an id that is not in use are clear. *)
Lemma clear_free sh n id t h : linked sh n → marked sh → sh_ids sh !! id = None → holds h (clear_from sh id t) → holds h sh.
Proof.
  intros Hk Hm Hfree. apply holds_marks; [done|done|done|]. intros l k i Hlk Hi. cbn in Hlk |- *. destruct (lk_range _ _ Hk _ _ Hlk) as [Hr _]. destruct (Z.eqb_spec (64 * k + i) (idx (l - 1) id)) as [->|]; [|done]. cbn.
  destruct (t <=? l - 1); [|done]. destruct (sh_mark sh (l - 1) (idx (l - 1) id)) eqn:E; [|done]. apply Hm in E; [|lia]. exfalso. by apply (not_full sh id Hm Hfree (l - 1)).
Qed.

Lemma clear_none sh n id h : linked sh n → holds h sh → holds h (clear_from sh id (n - 1)).
Proof.
  intros Hk. apply holds_marks; [done|done|done|]. intros l k i Hlk Hi. cbn in Hlk |- *. destruct (lk_range _ _ Hk _ _ Hlk) as [Hr _]. by rewrite -> (proj2 (Z.leb_gt (n - 1) (l - 1))), andb_false_r by lia.
Qed.

(** The place where the layer of [id] at the level [l] hangs. *)
Definition link_at (sh : shape) (n id l : Z) : link := if l =? n - 1 then Top else Slot (sh_addr sh (l + 1) (idx (l + 1) id)) (digit (l + 1) id).
Definition links (sh : shape) (n id l : Z) : list link := link_at sh n id <$> seqZ l (n - l).

Lemma links_cons sh n id l : l < n → links sh n id l = link_at sh n id l :: links sh n id (l + 1).
Proof. intros Hl. rw /links. rewrite -> seqZ_cons by lia. cbn [fmap list_fmap]. do 3 f_equal; lia. Qed.

Lemma links_end sh n id : links sh n id n = [].
Proof. rw /links. by rewrite -> Z.sub_diag. Qed.

Lemma remove_walk_ok fuel s sh n fl l id : linked sh n → holds (store s) (clear_from sh id l) → spare s sh [] fl → 0 ≤ l < n → (Z.to_nat l < fuel)%nat →
  ∃ p paa t s', remove_walk fuel (l * IDR_BITS) id (sh_addr sh l (idx l id)) (links sh n id l) s = Some (p, paa, s') ∧ holds (store s') (clear_from sh id t) ∧ spare s' sh [] fl ∧ top s' = top s ∧ layers s' = layers s ∧ rcu s' = rcu s ∧
    (p = 0 ∧ sh_ids sh !! id = None ∨ t = 0 ∧ p = sh_addr sh 0 (idx 0 id) ∧ p ≠ 0 ∧ paa = links sh n id 0).
Proof.
  intros Hk. revert s l. induction fuel as [|fuel IH]; intros s l Hh Hsp Hl Hf; [lia|]. cbn [remove_walk]. destruct (Z.eqb_spec (sh_addr sh l (idx l id)) 0) as [E|Ha].
  { rewrite -> andb_false_r. exists (sh_addr sh l (idx l id)), (links sh n id l), l, s. split; [done|]. do 5 (split; [done|]). left. split; [done|]. by apply (absent_none sh n Hk l). }
  rewrite -> andb_true_r. destruct (Z.ltb_spec 0 (l * IDR_BITS)) as [Hpos|Hz]; rw /IDR_BITS in Hpos || rw /IDR_BITS in Hz.
  2:{ assert (l = 0) as -> by lia. do 4 eexists. split; [done|]. split; [done|]. do 4 (split; [done|]). by right. }
  replace (Z.land (Z.shiftr id (l * IDR_BITS)) IDR_MASK) with (digit l id) by (rw /digit; by rewrite -> (Z.mul_comm l)). destruct (clear_step s sh n [] fl id l Hk Hh Hsp ltac:(lia) Ha) as (s1 & -> & Hh1 & Hsp1 & Ht1 & Hl1 & Hr1). cbn [mbind option_bind].
  pose proof (slot_digit s1 (clear_from sh id (l - 1)) l id Hh1 ltac:(lia) Ha) as Es. rewrite -> cell_addr in Es by lia. change (sh_addr (clear_from sh id (l - 1))) with (sh_addr sh) in Es. rewrite -> Es. cbn [mbind option_bind].
  assert (Slot (sh_addr sh l (idx l id)) (digit l id) :: links sh n id l = links sh n id (l - 1)) as ->.
  { rewrite -> (links_cons sh n id (l - 1)) by lia. replace (l - 1 + 1) with l by lia. f_equal. rw /link_at. rewrite -> (proj2 (Z.eqb_neq (l - 1) (n - 1))) by lia. by replace (l - 1 + 1) with l by lia. }
  replace (l * IDR_BITS - IDR_BITS) with ((l - 1) * IDR_BITS) by lia. destruct (IH s1 (l - 1) Hh1 Hsp1 ltac:(lia) ltac:(lia)) as (p & paa & t & s2 & E & Hh2 & Hsp2 & Ht2 & Hl2 & Hr2 & Hcase).
  exists p, paa, t, s2. split; [done|]. split; [done|]. split; [done|]. split; [congruence|]. split; [congruence|]. split; [congruence|done].
Qed.

(** ** The way up *)

Lemma spare_free s sh a X fl : spare s sh (a :: X) fl → spare (free_layer a s) sh X fl.
Proof.
  intros [H1 H2 H3]. split; [done|done|]. cbn [store free_layer add_rcu rcu]. assert (X ++ fl ++ rcu s ++ [a] ≡ₚ (a :: X) ++ fl ++ rcu s) as ->; [solve_Permutation|done].
Qed.

(** A layer without slots in use leaves the tree. *)
Lemma linked_leave sh n l k : linked sh n → 0 ≤ l → l + 1 < n → (∀ i, 0 ≤ i < 64 → used sh (l - 1) (64 * k + i) = false) → linked (set_addr sh l k 0) n.
Proof.
  intros [H1 H2 H3 H4 H5 H6] Hl Hn Hun. assert (∀ l' k', sh_addr (set_addr sh l k 0) l' k' ≠ 0 → sh_addr sh l' k' ≠ 0 ∧ (l' ≠ l ∨ k' ≠ k) ∧ sh_addr (set_addr sh l k 0) l' k' = sh_addr sh l' k') as Hcase.
  { intros l' k'. cbn. destruct (decide (l' = l ∧ k' = k)) as [[-> ->]|Hne]; [by rewrite -> fset_eq|]. rewrite -> fset_ne by lia. intros ?. split; [done|]. split; [lia|done]. }
  split; [done| | | | |].
  - intros Hn0. cbn. rewrite -> fset_ne by lia. by apply H2.
  - intros l' k' (Ha & _)%Hcase. by apply H3.
  - intros l' k' (Ha & Hne & _)%Hcase Hlt. pose proof (H4 _ _ Ha Hlt) as Hp. cbn. destruct (decide (l' + 1 = l ∧ k' / 64 = k)) as [[E Ek]|Hne2]; [|by rewrite -> fset_ne by lia]. exfalso. specialize (Hun (k' mod 64) ltac:(zdm)).
    replace (64 * k + k' mod 64) with k' in Hun by (rewrite <- Ek; pose proof (Z.div_mod k' 64); lia). rw /used in Hun. destruct (H3 _ _ Ha). rewrite -> (proj2 (Z.eqb_neq (l - 1) (-1))) in Hun by lia. apply negb_false_iff, Z.eqb_eq in Hun. replace (l - 1) with l' in Hun by lia. done.
  - intros l1 k1 l2 k2 Ha E. pose proof (Hcase _ _ Ha) as (Ha1 & _ & E1). rewrite -> E in Ha. pose proof (Hcase _ _ Ha) as (_ & _ & E2). apply H5; [done|congruence].
  - intros x Hx. specialize (H6 x Hx). cbn in Hx |- *. destruct (decide (0 = l ∧ idx 0 x = k)) as [[E Ek]|Hne]; [|by rewrite -> fset_ne by lia]. exfalso. specialize (Hun (digit 0 x) (digit_range 0 x ltac:(lia))). rewrite <- Ek, digit_idx in Hun by lia.
    rewrite <- E in Hun. change (0 - 1) with (-1) in Hun. rewrite -> idx_id in Hun. rw /used in Hun. cbn in Hun. by rewrite -> bool_decide_eq_true_2 in Hun.
Qed.

(** The layer of [id] at the level [l] still counts a slot that is empty; the layers [X] have left the tree. *)
Record leaving (s : idr) (sh : shape) (n id l : Z) (X fl : list Z) : Prop := {
  lv_linked : linked sh n; lv_holds : holds (store s) sh; lv_marked : marked sh; lv_level : 0 ≤ l < n; lv_id : 0 ≤ id < 64 ^ n;
  lv_path l' : l ≤ l' < n → sh_addr sh l' (idx l' id) ≠ 0; lv_top : top s = sh_addr sh (n - 1) 0; lv_layers : layers s = n;
  lv_count l' k : sh_addr sh l' k ≠ 0 → sh_count sh l' k = uses (λ i, used sh (l' - 1) (64 * k + i)) + (if (l' =? l) && (k =? idx l id) then 1 else 0);
  lv_spare : spare s sh X fl
}.

Definition bare : shape := {| sh_addr := λ _ _, 0; sh_ids := ∅; sh_mark := λ _ _, false; sh_count := λ _ _, 0 |}.

Lemma bare_ok : shape_ok bare 0.
Proof.
  split; [split; try done| |].
  - intros id [x Hx]. cbn in Hx. by rewrite -> lookup_empty in Hx.
  - intros l j Hl. split; [done|]. intros Hf. destruct (Hf _ (idx_slot l j Hl)) as [x Hx]. cbn in Hx. by rewrite -> lookup_empty in Hx.
  - intros l k Ha. by exfalso; apply Ha.
Qed.

Lemma links_same sh sh' n id l : (∀ l', l < l' → sh_addr sh' l' (idx l' id) = sh_addr sh l' (idx l' id)) → links sh' n id l = links sh n id l.
Proof.
  intros H. rw /links. apply list_fmap_ext. intros i x Hx. apply lookup_seqZ in Hx as [-> Hi]. rw /link_at. destruct (_ =? _); [done|]. rewrite -> H by lia. done.
Qed.

(** What is between places while the layers leave. *)
Definition loose (to_free : Z) : list Z := if to_free =? 0 then [] else [to_free].
Definition freed (to_free : Z) (s : idr) : idr := if negb (to_free =? 0) then free_layer to_free s else s.

Lemma spare_loose s sh to_free fl : spare s sh (loose to_free) fl → spare (freed to_free s) sh [] fl.
Proof. rw /loose /freed. destruct (to_free =? 0); [done|]. apply spare_free. Qed.

Lemma freed_rest to_free s : store (freed to_free s) = store s ∧ top (freed to_free s) = top s ∧ layers (freed to_free s) = layers s.
Proof. rw /freed. by destruct (negb _). Qed.

(** The layer counts one slot less. *)
Lemma leave_count s sh n id l X fl : leaving s sh n id l X fl → let k := idx l id in let sh1 := set_cnt sh l k (sh_count sh l k + -1) in
  ∃ s', follow_link (link_at sh n id l) s = Some (sh_addr sh l k) ∧ upd_layer (sh_addr sh l k) (λ ly, Some (set_count (count ly - 1) ly)) s = Some s' ∧
    shape_ok sh1 n ∧ holds (store s') sh1 ∧ spare s' sh1 X fl ∧ top s' = top s ∧ layers s' = layers s ∧ sh_count sh1 l k = uses (λ i, used sh (l - 1) (64 * k + i)) ∧
    ∃ ly, at_layer (sh_addr sh l k) s' = Some ly ∧ count ly = uses (λ i, used sh (l - 1) (64 * k + i)).
Proof.
  intros [Hk Hh Hm Hl Hid Hpath Ht Hly Hct Hsp]. cbn zeta. set (k := idx l id). set (sh1 := set_cnt sh l k (sh_count sh l k + -1)). pose proof (Hpath l ltac:(lia)) as Ha. fold k in Ha.
  destruct (upd_count s sh n Hk Hh l k (-1) Ha) as (s' & E & Hh' & Hst). destruct (stored_rest _ _ _ Hst) as (H1 & H2 & H3). exists s'. assert (sh_count sh1 l k = uses (λ i, used sh (l - 1) (64 * k + i))) as Ec.
  { cbn. rewrite -> fset_eq, (Hct _ _ Ha), !Z.eqb_refl. cbn. lia. }
  split_and!; [| |split; [by apply (linked_shape sh)|done|]|done| |done|done|done|].
  - rw /follow_link /link_at. destruct (Z.eqb_spec l (n - 1)) as [El|Hne].
    + rewrite -> Ht. rw /k. rewrite -> El, idx_top by lia. done.
    + pose proof (slot_digit s sh (l + 1) id Hh ltac:(lia) (Hpath (l + 1) ltac:(lia))) as Es. replace (l + 1 - 1) with l in Es by lia. by rewrite -> cell_addr in Es by lia.
  - exact E.
  - intros l' k' Ha'. destruct (decide (l' = l ∧ k' = k)) as [[-> ->]|Hne]; [done|]. cbn. rewrite -> fset_ne by lia. rewrite -> (Hct _ _ Ha'). fold k. destruct (Z.eqb_spec l' l), (Z.eqb_spec k' k); cbn [andb]; rewrite -> ?Z.add_0_r; done || (exfalso; lia).
  - by apply (spare_node s s' sh sh1 X fl l k).
  - destruct (Hh' l k Ha) as (ly & El & Hnode). exists ly. split; [done|]. rewrite <- Ec. by apply Hnode.
Qed.

(** A layer that counts nothing leaves its parent. *)
Lemma leave_parent s sh n id l fl : shape_ok sh n → holds (store s) sh → 0 ≤ l → l + 1 < n → 0 ≤ id < 64 ^ n → (∀ l', l ≤ l' < n → sh_addr sh l' (idx l' id) ≠ 0) → top s = sh_addr sh (n - 1) 0 → layers s = n → spare s sh [] fl →
  uses (λ i, used sh (l - 1) (64 * idx l id + i)) = 0 →
  ∃ s', write_link (link_at sh n id l) 0 s = Some s' ∧ leaving s' (set_addr sh l (idx l id) 0) n id (l + 1) [sh_addr sh l (idx l id)] fl.
Proof.
  intros [Hk Hm Hct] Hh Hl Hln Hid Hpath Ht Hly Hsp Hzero. rw /write_link /link_at. rewrite -> (proj2 (Z.eqb_neq l (n - 1))) by lia. pose proof (Hpath l ltac:(lia)) as Ha. pose proof (Hpath (l + 1) ltac:(lia)) as Hap.
  pose proof (digit_range (l + 1) id ltac:(lia)) as Hd. pose proof (digit_idx (l + 1) id ltac:(lia)) as Hdi. replace (l + 1 - 1) with l in Hdi by lia.
  destruct (upd_child s sh n Hk Hh (l + 1) (idx (l + 1) id) (digit (l + 1) id) 0 ltac:(lia) Hap Hd ltac:(by left)) as (s' & E & Hh' & Hst). replace (l + 1 - 1) with l in Hh' by lia. rewrite -> Hdi in Hh'. exists s'. split; [done|].
  destruct (stored_rest _ _ _ Hst) as (H1 & H2 & H3). set (sh' := set_addr sh l (idx l id) 0) in *. assert (linked sh' n) as Hk'. { apply linked_leave; [done|lia|lia|]. intros i Hi. by apply (uses_zero _ i Hzero). }
  assert (∀ l' j, l' ≠ l ∨ j ≠ idx l id → used sh' l' j = used sh l' j) as Hu. { intros l' j Hne. rw /used. cbn. destruct (_ =? -1); [done|]. by rewrite -> fset_ne by lia. }
  split; [done|done|done|lia|done| | |congruence| |].
  - intros l' Hl'. cbn. rewrite -> fset_ne by lia. apply Hpath. lia.
  - rewrite -> H1, Ht. cbn. symmetry. apply fset_ne. lia.
  - intros l' k' Ha'. cbn in Ha'. assert (sh_addr sh l' k' ≠ 0 ∧ (l' ≠ l ∨ k' ≠ idx l id)) as [Ha1 Hne1]. { rw /fset in Ha'. destruct (Z.eqb_spec l' l), (Z.eqb_spec k' (idx l id)); cbn in Ha'; split; done || lia. }
    change (sh_count sh' l' k') with (sh_count sh l' k'). rewrite -> (Hct _ _ Ha1). destruct (decide (l' = l + 1 ∧ k' = idx (l + 1) id)) as [[-> ->]|Hne2].
    + rewrite -> !Z.eqb_refl. cbn [andb]. apply (uses_set _ _ (digit (l + 1) id)); [done| | |]; replace (l + 1 - 1) with l by lia.
      * rewrite -> Hdi. rw /used. cbn. rewrite -> fset_eq, (proj2 (Z.eqb_neq l (-1))) by lia. done.
      * rewrite -> Hdi. rw /used. rewrite -> (proj2 (Z.eqb_neq l (-1))) by lia. by apply negb_true_iff, Z.eqb_neq.
      * intros j Hj Hjd. symmetry. apply Hu. right. lia.
    + assert ((l' =? l + 1) && (k' =? idx (l + 1) id) = false) as -> by (destruct (Z.eqb_spec l' (l + 1)), (Z.eqb_spec k' (idx (l + 1) id)); cbn; done || lia). rewrite -> Z.add_0_r. apply uses_ext. intros i Hi. symmetry. apply Hu.
      destruct (decide (l' - 1 = l)) as [El|]; [|by left]. right. intros Ei. apply Hne2. replace l' with (l + 1) in * by lia. split; [done|]. apply (slot_of (l + 1) k' i id); [lia|done|]. by replace (l + 1 - 1) with l by lia.
  - eapply spare_stored; [exact Hst|by eapply tree_not_free|]. destruct Hsp as [P1 P2 P3]. split; [done|done|]. by apply (places_detach _ sh _ _ _ l (idx l id) n Hk).
Qed.

(** The top leaves. *)
Lemma leave_top s sh n id fl : shape_ok sh n → holds (store s) sh → 1 ≤ n ≤ 5 → 0 ≤ id < 64 ^ n → top s = sh_addr sh (n - 1) 0 → layers s = n → spare s sh [] fl → uses (λ i, used sh (n - 1 - 1) (64 * idx (n - 1) id + i)) = 0 →
  write_link (link_at sh n id (n - 1)) 0 s = Some (with_top 0 s) ∧ spare (with_top 0 s) bare [top s] fl ∧ sh_ids sh = ∅ ∧ top s ≠ 0.
Proof.
  intros Hs Hh Hn Hid Ht Hly Hsp Hzero. rw /write_link /link_at. rewrite -> Z.eqb_refl. split; [done|]. rewrite -> idx_top in Hzero by lia. pose proof (tower_empty s sh n (top s) fl) as He. pose proof Hs as [Hk _ Hct].
  assert (top s ≠ 0) as Ht0 by (rewrite -> Ht; apply (lk_top _ _ Hk); lia). destruct He as [Hf Hids]; [by split|rewrite -> (Hct (n - 1) 0) by (by rewrite <- Ht); done|]. destruct (fresh_tower _ _ _ _ Hf) as [Hs' Hh' _ _ [P1 P2 P3]]. split; [|done]. split; [done|done|]. cbn [store with_top rcu].
  apply (places_same _ (set_addr (lone n (top s)) (n - 1) 0 0)).
  - intros a. split; intros (l & k & E & Ha); exfalso; [by apply Ha|]. apply Ha. rewrite <- E. cbn. rw /fset. by destruct (_ && _).
  - apply (places_detach _ (lone n (top s)) _ _ _ (n - 1) 0 n); [by apply lone_ok|done|done|by rewrite -> lone_at|done|done].
Qed.

(** The layers leave from the level [l] up. *)
Lemma release_ok fl n id F m : ∀ l s sh to_free, Z.to_nat (n - l) = m → leaving s sh n id l (loose to_free) fl → sh_ids sh = F →
  ∃ paa to_free' s', release (links sh n id l) to_free s = Some (paa, to_free', s') ∧
    ((paa ≠ [] ∧ ∃ sh', shape_ok sh' n ∧ holds (store s') sh' ∧ top s' = sh_addr sh' (n - 1) 0 ∧ layers s' = n ∧ sh_ids sh' = F ∧ spare s' sh' (loose to_free') fl) ∨
     (paa = [] ∧ top s' = 0 ∧ F = ∅ ∧ spare s' bare (loose to_free') fl)).
Proof.
  induction m as [m IH] using lt_wf_ind. intros l s sh to_free Em Hlv HF. pose proof (lv_level _ _ _ _ _ _ _ Hlv) as Hl. destruct (leave_count _ _ _ _ _ _ _ Hlv) as (s1 & Er & Eu & Hs1 & Hh1 & Hsp1 & Ht1 & Hly1 & Ec & ly & Ely & Ecl).
  rewrite -> links_cons by lia. cbn [release]. rewrite -> Er. cbn [mbind option_bind]. rewrite -> Eu. cbn [mbind option_bind]. rewrite -> Ely. cbn [mbind option_bind]. rewrite -> Ecl. set (k := idx l id) in *. set (sh1 := set_cnt sh l k (sh_count sh l k + -1)) in *.
  destruct (Z.eqb_spec (uses (λ i, used sh (l - 1) (64 * k + i))) 0) as [Hz|Hnz].
  2:{ do 3 eexists. split; [done|]. left. split; [done|]. exists sh1. split; [done|]. split; [done|]. split; [rewrite -> Ht1; apply Hlv|]. split; [rewrite -> Hly1; apply Hlv|]. done. }
  change (if negb (to_free =? 0) then free_layer to_free s1 else s1) with (freed to_free s1). destruct (freed_rest to_free s1) as (Fs & Ft & Fl). apply spare_loose in Hsp1. set (s2 := freed to_free s1) in *.
  pose proof (lv_id _ _ _ _ _ _ _ Hlv) as Hid. pose proof (lk_levels _ _ (lv_linked _ _ _ _ _ _ _ Hlv)) as Hn. assert (top s2 = sh_addr sh1 (n - 1) 0) as Ht2 by (rewrite -> Ft, Ht1; apply Hlv). assert (layers s2 = n) as Hly2 by (rewrite -> Fl, Hly1; apply Hlv).
  assert (holds (store s2) sh1) as Hh2 by (by rewrite -> Fs). pose proof (lv_path _ _ _ _ _ _ _ Hlv) as Hpath. assert (sh_addr sh l k ≠ 0) as Ha by (apply Hpath; lia). change (link_at sh n id l) with (link_at sh1 n id l).
  destruct (decide (l = n - 1)) as [El|Hne].
  - subst l. destruct (leave_top s2 sh1 n id fl Hs1 Hh2 ltac:(lia) Hid Ht2 Hly2 Hsp1 Hz) as (-> & Hsp3 & HF0 & Htop0). cbn [mbind option_bind]. replace (n - 1 + 1) with n by lia. rewrite -> links_end. cbn [release].
    do 3 eexists. split; [done|]. right. split; [done|]. split; [done|]. split; [by rewrite <- HF|]. assert (sh_addr sh (n - 1) k = top s2) as -> by (rewrite -> Ht2; rw /k; by rewrite -> idx_top by lia). rw /loose. by rewrite -> (proj2 (Z.eqb_neq (top s2) 0)).
  - destruct (leave_parent s2 sh1 n id l fl Hs1 Hh2 ltac:(lia) ltac:(lia) Hid Hpath Ht2 Hly2 Hsp1 Hz) as (s3 & -> & Hlv3). cbn [mbind option_bind]. set (sh3 := set_addr sh1 l (idx l id) 0) in *.
    assert (links sh n id (l + 1) = links sh3 n id (l + 1)) as -> by (apply links_same; intros l' Hl'; cbn; symmetry; apply fset_ne; lia). apply (IH (Z.to_nat (n - (l + 1)))); [lia|done| |done].
    rw /loose. by rewrite -> (proj2 (Z.eqb_neq (sh_addr sh l k) 0)).
Qed.

(** ** sub_remove *)

(** The tree with the bits and the pointer of an id cleared; its leaf still counts it. *)
Definition without_id (sh : shape) (id : Z) : shape := set_ids (clear_from sh id (-1)) (delete id (sh_ids sh)).

Lemma without_marked sh id : marked sh → marked (without_id sh id).
Proof.
  intros Hm l j Hl. cbn. rewrite -> (proj2 (Z.leb_le (-1) l)), andb_true_r by done. destruct (Z.eqb_spec j (idx l id)) as [->|Hne].
  - split; [done|]. intros Hf. destruct (Hf id eq_refl) as [x Hx]. by rewrite -> lookup_delete_eq in Hx.
  - rewrite -> (Hm l j Hl). split; intros Hf x Hx; specialize (Hf x Hx); [by rewrite -> lookup_delete_ne by (intros ->; done)|]. by rewrite -> lookup_delete_ne in Hf by (intros ->; done).
Qed.

Lemma without_leaving s sh n id fl : linked sh n → marked sh → counted sh → holds (store s) (without_id sh id) → is_Some (sh_ids sh !! id) → top s = sh_addr sh (n - 1) 0 → layers s = n → spare s sh [] fl → leaving s (without_id sh id) n id 0 [] fl.
Proof.
  intros Hk Hm Hct Hh Hin Ht Hly Hsp. pose proof (id_range sh n Hk id Hin) as Hid. pose proof (lk_ids _ _ Hk id Hin) as Ha. destruct (lk_range _ _ Hk _ _ Ha) as [Hn _].
  assert (∀ l j, l ≠ -1 ∨ j ≠ id → used (without_id sh id) l j = used sh l j) as Hu. { intros l j Hne. rw /used. cbn. destruct (Z.eqb_spec l (-1)); [|done]. by rewrite -> lookup_delete_ne by lia. }
  split; [|done|by apply without_marked|lia|done| |done|done| |by apply (spare_shape _ sh)].
  - destruct Hk as [H1 H2 H3 H4 H5 H6]. split; try done. intros x Hx. cbn in Hx. apply H6. destruct (decide (x = id)) as [->|]; [done|]. by rewrite -> lookup_delete_ne in Hx.
  - intros l' Hl'. by apply (id_present sh n Hk).
  - intros l' k Ha'. change (sh_count (without_id sh id) l' k) with (sh_count sh l' k). rewrite -> (Hct l' k Ha'). pose proof (digit_range 0 id ltac:(lia)) as Hd. pose proof (digit_idx 0 id ltac:(lia)) as Hdi. change (0 - 1) with (-1) in Hdi. rewrite -> idx_id in Hdi.
    destruct (decide (l' = 0 ∧ k = idx 0 id)) as [[-> ->]|Hne].
    + rewrite -> !Z.eqb_refl. cbn [andb]. change (0 - 1) with (-1). apply (uses_set _ _ (digit 0 id)); [done| | |].
      * rewrite -> Hdi. rw /used. cbn. by rewrite -> lookup_delete_eq.
      * rewrite -> Hdi. rw /used. cbn. by apply bool_decide_eq_true_2.
      * intros j Hj Hjd. symmetry. apply Hu. right. lia.
    + assert ((l' =? 0) && (k =? idx 0 id) = false) as -> by (destruct (Z.eqb_spec l' 0), (Z.eqb_spec k (idx 0 id)); cbn; done || lia). rewrite -> Z.add_0_r. apply uses_ext. intros i Hi. symmetry. apply Hu.
      destruct (decide (l' - 1 = -1)) as [E|]; [|by left]. right. intros Ei. apply Hne. assert (l' = 0) as -> by lia. split; [done|]. apply (slot_of 0 k i id); [lia|done|]. change (0 - 1) with (-1). by rewrite -> idx_id.
Qed.

Lemma sub_remove_ok s sh fl id : idr_rep s sh fl → 0 ≤ id < 64 ^ layers s →
  ∃ s' sh', sub_remove s ((layers s - 1) * IDR_BITS) id = Some (bool_decide (sh_ids sh !! id = None), s') ∧ idr_rep s' sh' fl ∧ sh_ids sh' = delete id (sh_ids sh).
Proof.
  intros Hrep Hid. rw /sub_remove. destruct (top_cases s sh fl Hrep) as [(Hl0 & Ht0 & Hnone)|(Hn & Ht & Ht0)].
  { rewrite -> Hl0, Ht0. change (remove_walk _ _ _ _ _ _) with (Some (0, [Top], s)). cbn [mbind option_bind Z.eqb]. exists s, sh. rewrite -> bool_decide_eq_true_2 by apply Hnone. split; [done|]. split; [done|]. by rewrite -> delete_id. }
  pose proof Hrep as [[Hk Hm Hct] Hh _ Hsp]. set (n := layers s) in *. assert ([Top] = links sh n id (n - 1)) as -> by (rewrite -> links_cons by lia; replace (n - 1 + 1) with n by lia; rewrite -> links_end; rw /link_at; by rewrite -> Z.eqb_refl).
  rewrite -> Ht. assert (sh_addr sh (n - 1) 0 = sh_addr sh (n - 1) (idx (n - 1) id)) as -> by (by rewrite -> idx_top by lia). destruct (remove_walk_ok (Z.to_nat MAX_LEVEL + 1) s sh n fl (n - 1) id Hk (clear_none sh n id _ Hk Hh) Hsp ltac:(lia)) as (p & paa & t & s1 & -> & Hh1 & Hsp1 & Ht1 & Hl1 & Hr1 & Hcase). { change (Z.to_nat MAX_LEVEL) with 6%nat. lia. }
  cbn [mbind option_bind]. assert (sh_ids sh !! id = None → idr_rep s1 sh fl) as Hsame.
  { intros Hnone. split; [by rewrite -> Hl1|by apply (clear_free sh n id t)| |done]. rewrite -> Hl1, Ht1. fold n. rewrite -> (proj2 (Z.eqb_neq n 0)) by lia. done. }
  destruct Hcase as [(-> & Hnone)|(-> & -> & Hp0 & ->)]; [cbn [Z.eqb mbind option_bind]; exists s1, sh; rewrite -> bool_decide_eq_true_2 by done; split; [done|]; split; [by apply Hsame|]; by rewrite -> delete_id|].
  rewrite -> (proj2 (Z.eqb_neq _ 0)) by done. destruct (Hh1 0 (idx 0 id) Hp0) as (ly & E & Hnode). change (sh_addr (clear_from sh id 0)) with (sh_addr sh) in E. rw /at_layer. rewrite -> E. cbn [mbind option_bind]. rewrite -> digit_0. pose proof (digit_range 0 id ltac:(lia)) as Hd.
  pose proof (digit_idx 0 id ltac:(lia)) as Hdi. change (0 - 1) with (-1) in Hdi. rewrite -> idx_id in Hdi. assert (Z.testbit (bitmap ly) (digit 0 id) = bool_decide (is_Some (sh_ids sh !! id))) as ->.
  { rewrite -> (is_bits _ _ _ _ Hnode), Hdi by done. cbn. rewrite -> andb_false_r. apply eq_true_iff_eq. rewrite -> (Hm (-1) id), bool_decide_eq_true by lia. split; [intros Hf; apply Hf, idx_id|]. intros Hin x Hx. rewrite -> idx_id in Hx. by rewrite -> Hx. }
  destruct (sh_ids sh !! id) as [v|] eqn:Eid; cbn [bool_decide].
  2:{ rewrite -> bool_decide_eq_false_2 by (intros [? ?]; done). exists s1, sh. split; [done|]. split; [by apply Hsame|]. by rewrite -> delete_id. }
  rewrite -> bool_decide_eq_true_2 by done. destruct (clear_step s1 sh n [] fl id 0 Hk Hh1 Hsp1 ltac:(lia) Hp0) as (s2 & -> & Hh2 & Hsp2 & Ht2 & Hl2 & Hr2). cbn [mbind option_bind].
  assert (linked (clear_from sh id (0 - 1)) n) as Hkc by (by apply (linked_shape sh)). destruct (upd_id s2 (clear_from sh id (0 - 1)) n Hkc Hh2 (idx 0 id) (digit 0 id) 0 (delete id (sh_ids sh)) Hp0 Hd) as (s3 & E3 & Hh3 & Hst3).
  { by rewrite -> Hdi, lookup_delete_eq. } { intros j Hj. rewrite -> Hdi in Hj. by rewrite -> lookup_delete_ne. }
  change (sh_addr (clear_from sh id (0 - 1))) with (sh_addr sh) in E3, Hst3. rewrite -> E3. cbn [mbind option_bind]. destruct (stored_rest _ _ _ Hst3) as (Ht3 & Hl3 & Hr3). change (set_ids (clear_from sh id (0 - 1)) (delete id (sh_ids sh))) with (without_id sh id) in Hh3.
  assert (spare s3 sh [] fl) as Hsp3 by (by apply (spare_node s2 s3 sh sh [] fl 0 (idx 0 id))).
  pose proof (without_leaving s3 sh n id fl Hk Hm Hct Hh3 ltac:(by rewrite -> Eid) ltac:(congruence) ltac:(rewrite -> Hl3, Hl2, Hl1; done) Hsp3) as Hlv. change (links sh n id 0) with (links (without_id sh id) n id 0).
  destruct (release_ok fl n id _ _ 0 s3 (without_id sh id) 0 eq_refl Hlv eq_refl) as (paa & tf & s4 & -> & Hout). cbn [mbind option_bind]. rewrite -> (bool_decide_eq_false_2 (Some v = None)) by done.
  destruct Hout as [(Hpaa & sh4 & Hs4 & Hh4 & Ht4 & Hl4 & Hids4 & Hsp4)|(-> & Ht4 & HF & Hsp4)].
  - assert (match paa with [] => set_layers 0 s4 | _ => s4 end = s4) as -> by (by destruct paa). exists (freed tf s4), sh4. split; [done|]. destruct (freed_rest tf s4) as (Fs & Ft & Fl). split; [|done].
    split; [by rewrite -> Fl, Hl4|by rewrite -> Fs| |by apply spare_loose]. rewrite -> Fl, Ft, Hl4, (proj2 (Z.eqb_neq n 0)) by lia. done.
  - exists (freed tf (set_layers 0 s4)), bare. split; [done|]. destruct (freed_rest tf (set_layers 0 s4)) as (Fs & Ft & Fl). split; [|done]. split; [rewrite -> Fl; apply bare_ok|by intros l k Ha; exfalso; apply Ha|by rewrite -> Fl, Ft|].
    apply spare_loose. by destruct Hsp4; split.
Qed.

(** ** A lower tree and a shorter list *)

Lemma uses_one f i : uses f = 1 → f 0 = true → 0 ≤ i < 64 → f i = true → i = 0.
Proof.
  intros Hu H0 Hi Hfi. destruct (Z.eq_dec i 0) as [|Hne]; [done|]. exfalso. pose proof (uses_set (λ j, if j =? i then false else f j) f i Hi) as Hs. cbv beta in Hs. rewrite -> Z.eqb_refl in Hs. specialize (Hs eq_refl Hfi).
  specialize (Hs ltac:(intros j _ Hj; by rewrite -> (proj2 (Z.eqb_neq j i)))). pose proof (uses_zero (λ j, if j =? i then false else f j) 0 ltac:(lia) ltac:(lia)) as Hz. cbv beta in Hz. rewrite -> (proj2 (Z.eqb_neq 0 i)) in Hz by lia. congruence.
Qed.

Lemma shrink_ok s sh fl : idr_rep s sh fl → ∃ s' sh', shrink s = Some s' ∧ idr_rep s' sh' fl ∧ sh_ids sh' = sh_ids sh ∧ id_free_cnt s' = id_free_cnt s.
Proof.
  intros Hrep. rw /shrink. destruct (top_cases s sh fl Hrep) as [(Hl0 & -> & _)|(Hn & Ht & Ht0)]; [by exists s, sh|]. rewrite -> (proj2 (Z.eqb_neq _ 0)) by done. pose proof Hrep as [[Hk Hm Hct] Hh _ Hsp]. pose proof (rep_tower _ _ _ Hrep Ht0) as Htw. set (n := layers s) in *.
  assert (sh_addr sh (n - 1) 0 ≠ 0) as Ha by (by rewrite <- Ht). destruct (Hh (n - 1) 0 Ha) as (ly & E & Hnode). rewrite <- Ht in E. rw /at_layer. rewrite -> E. cbn [mbind option_bind]. destruct (Z.eqb_spec (count ly) 1) as [Ec|]; cbn [andb]; [|by exists s, sh].
  destruct (Z.ltb_spec 1 n) as [Hn1|]; [|by exists s, sh]. assert (slot (top s) 0 s = Some (sh_addr sh (n - 2) 0)) as ->.
  { rewrite -> Ht, (slot_cell s sh (n - 1) 0 0 Hh Ha), cell_addr by lia. by replace (n - 1 - 1) with (n - 2) by lia. }
  cbn [mbind option_bind].
  destruct (Z.eqb_spec (sh_addr sh (n - 2) 0) 0) as [|Hnext]; [by exists s, sh|]. rewrite -> (is_count _ _ _ _ Hnode), (Hct _ _ Ha) in Ec. assert (∀ k, used sh (n - 1 - 1) (64 * 0 + k) = true ↔ sh_addr sh (n - 2) k ≠ 0) as Hu.
  { intros k. rw /used. rewrite -> (proj2 (Z.eqb_neq (n - 1 - 1) (-1))) by lia. replace (n - 1 - 1) with (n - 2) by lia. replace (64 * 0 + k) with k by lia. by rewrite -> negb_true_iff, Z.eqb_neq. }
  destruct (detach_top s sh n (top s) fl Htw ltac:(lia)) as (Hs' & Hh' & Hsp' & Enext); [|done|].
  { intros k Hk0. apply (uses_one (λ i, used sh (n - 1 - 1) (64 * 0 + i))); [done|by apply Hu| |by apply Hu]. destruct (lk_range _ _ Hk _ _ Hk0) as [_ Hr]. replace (n - 1 - (n - 2)) with 1 in Hr by lia. lia. }
  set (sh' := set_addr sh (n - 1) 0 0) in *. set (s1 := set_layers (n - 1) (with_top (sh_addr sh (n - 2) 0) s)). assert (spare s1 sh' [top s] fl) as Hsp1 by (by destruct Hsp'; split).
  destruct (loose_upd s1 sh' (top s) [] fl (λ ly, Some (set_bitmap 0 (set_count 0 ly))) ly _ Hsp1 Hh' E eq_refl) as (s2 & E2 & L2 & Hsp2 & Hh2 & Ht2 & Hl2 & Hr2). rewrite -> E2. cbn [mbind option_bind]. exists (free_layer (top s) s2), sh'. split; [done|]. split; [|split; [done|]].
  - split; [cbn [layers free_layer add_rcu]; by rewrite -> Hl2|done| |by apply spare_free]. cbn [layers top free_layer add_rcu]. rewrite -> Hl2, Ht2. cbn [layers top set_layers with_top s1]. rw /s1. cbn [layers top set_layers with_top]. rewrite -> (proj2 (Z.eqb_neq (n - 1) 0)) by lia. replace (n - 1 - 1) with (n - 2) by lia. done.
  - cbn. rewrite -> (sp_count _ _ _ _ Hsp2), (sp_count _ _ _ _ Hsp). done.
Qed.

Lemma places_delete h sh a P : places h sh (a :: P) → places (delete a h) sh P.
Proof.
  intros [H1 H2 H3 H4]. apply NoDup_cons in H1 as [Ha H1]. split; [done| | |].
  - intros l k Hlk Hin. apply (H2 l k Hlk). by right.
  - intros b Hb. destruct (H3 b ltac:(by right)) as [Hb0 Hb1]. split; [done|]. rewrite -> lookup_delete_ne by (intros ->; done). done.
  - intros b Hb. destruct (decide (b = a)) as [->|Hne]; [rewrite -> lookup_delete_eq in Hb; by destruct Hb|]. rewrite -> lookup_delete_ne in Hb by done. destruct (H4 b Hb) as [[->|Hin]%elem_of_cons|Hin]; [done|by left|by right].
Qed.

(** The first layer of the list is given back to the system. *)
Lemma drop_free s sh a fl : idr_rep s sh (a :: fl) → ∃ s', (∃ p s1, get_from_free_list s = Some (p, s1) ∧ s' = kmem_cache_free p s1) ∧ idr_rep s' sh fl.
Proof.
  intros [Hs Hh Ht Hsp]. destruct (get_free_ok s sh [] (a :: fl) Hsp Hh) as (s1 & ly & E & El & Hb & Hsp1 & Hh1 & Ht1 & Hl1 & Hr1 & _). eexists. split; [by exists a, s1|]. destruct (loose_not_free _ _ _ _ _ Hsp1) as (Hnf & _ & _). destruct Hsp1 as [P1 P2 P3].
  split; cbn [layers top kmem_cache_free set_store store].
  - by rewrite -> Hl1.
  - intros l k Hlk. rewrite -> lookup_delete_ne; [by apply Hh1|]. intros ->. apply (pl_apart _ _ _ P3 l k Hlk). by left.
  - by rewrite -> Ht1, Hl1.
  - split; cbn [layers top kmem_cache_free set_store store id_free id_free_cnt rcu]; [by apply chain_del|done|]. by apply places_delete.
Qed.

Lemma trim_ok s sh fl : idr_rep s sh fl → ∃ s' fl', trim s = Some s' ∧ idr_rep s' sh fl' ∧ (length fl' < 12)%nat ∧ fl' `suffix_of` fl.
Proof.
  intros Hrep. rw /trim. match goal with |- context [loop ?f ?b ?x] => destruct (loop_index (λ μ s', ∃ fl', idr_rep s' sh fl' ∧ fl' `suffix_of` fl ∧ μ = length fl') (λ s', ∃ fl', idr_rep s' sh fl' ∧ (length fl' < 12)%nat ∧ fl' `suffix_of` fl) b f x (length fl)) as (s' & E & fl' & H) end.
  - intros μ s' (fl' & Hrep' & Hsuf & ->). rewrite -> (sp_count _ _ _ _ (rep_spare _ _ _ Hrep')). change IDR_FREE_MAX with 12. destruct (Z.leb_spec 12 (Z.of_nat (length fl'))) as [Hge|Hlt].
    + left. destruct fl' as [|a fl']; [cbn in Hge; lia|]. destruct (drop_free s' sh a fl' Hrep') as (s'' & (p & s1 & -> & ->) & Hrep''). cbn [mbind option_bind]. eexists _, (length fl'). split; [done|]. split; [|cbn; lia]. exists fl'. split; [done|]. split; [by eapply suffix_cons_l|done].
    + right. eexists. split; [done|]. exists fl'. split; [done|]. split; [lia|done].
  - by exists fl.
  - rewrite -> (sp_count _ _ _ _ (rep_spare _ _ _ Hrep)). lia.
  - exists s', fl'. done.
Qed.

(** The whole of idr_remove, for an id that the tree can hold. *)
Lemma idr_remove_ok s sh fl id : idr_rep s sh fl → 0 ≤ id < 64 ^ layers s →
  ∃ s' sh' fl', idr_remove s id = Some (bool_decide (sh_ids sh !! id = None), s') ∧ idr_rep s' sh' fl' ∧ sh_ids sh' = delete id (sh_ids sh) ∧ (length fl' < 12)%nat.
Proof.
  intros Hrep Hid. pose proof (lk_levels _ _ (so_linked _ _ (rep_shape _ _ _ Hrep))) as Hn. pose proof (pow64_le (layers s) Hn). rw /idr_remove. rewrite -> mask_id by lia. destruct (sub_remove_ok s sh fl id Hrep Hid) as (s1 & sh1 & -> & Hrep1 & Hids1). cbn [mbind option_bind].
  destruct (shrink_ok s1 sh1 fl Hrep1) as (s2 & sh2 & -> & Hrep2 & Hids2 & _). cbn [mbind option_bind]. destruct (trim_ok s2 sh2 fl Hrep2) as (s3 & fl3 & -> & Hrep3 & Hlen & _). cbn [mbind option_bind]. exists s3, sh2, fl3. split; [done|]. split; [done|]. split; [congruence|done].
Qed.
