(* ===== verification/IdrWalk.v ===== *)
(** * Small integers for pointers: walks through the tree

    idr_for_each and idr_get_next keep the layers above them and go up after every slot: the ids come in ascending order.  The last step of a walk goes one layer above the top
    and reads a word that is not part of the array; no result depends on it. *)
From S2P Require Import Prelude Bitops FindBit Idr IdrRep IdrAlloc IdrGrow IdrNew IdrRemove.
#[local] Open Scope Z_scope.

Lemma fls_above x n : 0 < x < 2 ^ 31 → 0 ≤ n → (n <? fls (wrap 32 x)) = (2 ^ n <=? x).
Proof.
  intros Hx Hn. rewrite -> wrap_small by (split; lia). destruct (fls_spec x) as [[-> _]|[(H0 & Ht & Habove) Hr]]; [split; lia|lia|]. destruct (Z.ltb_spec n (fls x)) as [Hlt|Hge]; symmetry.
  - apply Z.leb_le. transitivity (2 ^ (fls x - 1)); [apply Z.pow_le_mono_r; lia|]. destruct (Z_lt_le_dec x (2 ^ (fls x - 1))); [|done]. exfalso. rewrite -> (testbit_above (fls x - 1) x) in Ht by (done || lia || split; lia). done.
  - apply Z.leb_gt. apply Z.lt_le_trans with (2 ^ fls x); [|apply Z.pow_le_mono_r; lia]. destruct (Z_lt_le_dec x (2 ^ fls x)) as [|Hc]; [done|]. exfalso. assert (fls x ≤ Z.log2 x) as Hlog by (apply Z.log2_le_pow2; lia). specialize (Habove (Z.log2 x) ltac:(lia)). rewrite -> Z.bit_log2 in Habove by lia. done.
Qed.

(** A slot ends within its tree. *)
Lemma slot_fits id m N : 0 ≤ m ≤ N → 0 ≤ id < 64 ^ N → (64 ^ m | id) → id + 64 ^ m ≤ 64 ^ N.
Proof.
  intros Hm Hid [q Hq]. assert (64 ^ N = 64 ^ m * 64 ^ (N - m)) as EN by (rewrite <- Z.pow_add_r by lia; f_equal; lia). pose proof (pow64_pos m ltac:(lia)). set (R := 64 ^ (N - m)) in *. assert (q < R) by (apply (Z.mul_lt_mono_pos_r (64 ^ m)); lia).
  replace (id + 64 ^ m) with (64 ^ m * (q + 1)) by lia. rewrite -> EN. apply Z.mul_le_mono_nonneg_l; lia.
Qed.

Section walk.
Context (s : idr) (sh : shape) (N : Z) (Hk : linked sh N) (Hh : holds (store s) sh).

(** The layers of [id] from the level [m] up. *)
Definition above (m id : Z) : list Z := (λ l, sh_addr sh l (idx l id)) <$> seqZ m (N - m).

Lemma above_cons m id : m < N → above m id = sh_addr sh m (idx m id) :: above (m + 1) id.
Proof using. clear. intros Hm. rw /above. rewrite -> seqZ_cons by lia. cbn [fmap list_fmap]. do 3 f_equal; lia. Qed.

Lemma above_end id : above N id = [].
Proof using. clear. rw /above. by rewrite -> Z.sub_diag. Qed.

Lemma above_same m id id' : 0 ≤ m → (∀ l, m ≤ l → idx l id' = idx l id) → above m id' = above m id.
Proof using. clear. intros Hm E. rw /above. apply list_fmap_ext. intros i x Hx. apply lookup_seqZ in Hx as [-> Hi]. rewrite -> E by lia. done. Qed.

(** A slot of [id] that is missing begins at [id]. *)
Definition ready (id : Z) : Prop := ∀ l, 0 ≤ l < N → sh_addr sh l (idx l id) = 0 → (64 ^ (l + 1) | id).

Lemma ready_next id m : 0 ≤ m ≤ N → (64 ^ m | id) → (∀ l, m ≤ l < N → sh_addr sh l (idx l id) ≠ 0) → ready (id + 64 ^ m).
Proof using Hk.
  intros Hm [q Hq] Hpres l Hl H0. pose proof (pow64_pos m ltac:(lia)) as Hpm. pose proof (pow64_pos (l + 1) ltac:(lia)) as Hpl. assert (64 ^ m | id + 64 ^ m) as [q' Hq'] by (exists (q + 1); lia). destruct (Z_lt_le_dec l m) as [Hlt|Hge].
  { exists (q' * 64 ^ (m - l - 1)). rewrite -> Hq', <- Z.mul_assoc, <- Z.pow_add_r by lia. do 2 f_equal. lia. }
  apply Z.mod_divide; [lia|]. destruct (Z.eq_dec ((id + 64 ^ m) mod 64 ^ (l + 1)) 0) as [|Hne]; [done|]. exfalso. apply (Hpres l ltac:(lia)). rewrite <- H0. f_equal. symmetry. apply idx_iff; [lia|].
  set (P := 64 ^ (l + 1)) in *. assert (P = 64 ^ m * 64 ^ (l + 1 - m)) as EP by (rw /P; rewrite <- Z.pow_add_r by lia; f_equal; lia). set (R := 64 ^ (l + 1 - m)) in *. assert (0 < R) by (apply pow64_pos; lia).
  assert (idx l id = q / R) as Ei by (rw /idx; fold P; rewrite -> Hq, EP, (Z.mul_comm (64 ^ m)), Z.div_mul_cancel_r by lia; done). rewrite -> Ei. assert ((q + 1) mod R ≠ 0) as Hmod.
  { intros Hc. apply Hne. replace (id + 64 ^ m) with ((q + 1) * 64 ^ m) by lia. rewrite -> EP, (Z.mul_comm (64 ^ m) R), Z.mul_mod_distr_r, Hc by lia. done. }
  replace (id + 64 ^ m) with ((q + 1) * 64 ^ m) by lia. rewrite -> EP. pose proof (Z.div_mod q R ltac:(lia)) as Hdm. pose proof (Z.mod_pos_bound q R ltac:(lia)) as Hb. assert (q mod R + 1 < R) as Hr.
  { destruct (Z_lt_le_dec (q mod R + 1) R); [done|]. exfalso. apply Hmod. replace (q + 1) with (0 + (q / R + 1) * R) by lia. rewrite -> Z.mod_add by lia. apply Z.mod_small. lia. }
  split; nia.
Qed.

Lemma walk_down_ok b fuel m id : 0 ≤ b ≤ m → m ≤ N → (Z.to_nat m < fuel)%nat →
  ∃ m', walk_down fuel (b * IDR_BITS) (m * IDR_BITS) id (cell sh (m - 1) (idx (m - 1) id)) (above m id) s = Some (m' * IDR_BITS, cell sh (m' - 1) (idx (m' - 1) id), above m' id) ∧ b ≤ m' ≤ m ∧
    (m' = b ∨ b < m' ∧ sh_addr sh (m' - 1) (idx (m' - 1) id) = 0) ∧ (∀ l, m' ≤ l < m → sh_addr sh l (idx l id) ≠ 0).
Proof using Hk Hh.
  revert m. induction fuel as [|fuel IH]; intros m Hm HmN Hf; [lia|]. cbn [walk_down]. destruct (decide (m = b)) as [->|Hmb]; [exists b; rewrite -> Z.ltb_irrefl; split_and!; [done|lia|lia|by left|lia]|]. rewrite -> (proj2 (Z.ltb_lt (b * IDR_BITS) (m * IDR_BITS))) by (rw /IDR_BITS; lia). rewrite -> cell_addr by lia.
  destruct (Z.eqb_spec (sh_addr sh (m - 1) (idx (m - 1) id)) 0) as [E|Ha]; cbn [andb negb].
  { exists m. rewrite -> cell_addr by lia. split; [done|]. split; [lia|]. split; [right; split; [lia|done]|lia]. }
  replace (m * IDR_BITS - IDR_BITS) with ((m - 1) * IDR_BITS) by lia. replace (Z.land (Z.shiftr id ((m - 1) * IDR_BITS)) IDR_MASK) with (digit (m - 1) id) by (rw /digit; by rewrite -> (Z.mul_comm (m - 1))).
  rewrite -> (slot_digit s sh (m - 1) id Hh ltac:(lia) Ha). cbn [mbind option_bind]. assert (sh_addr sh (m - 1) (idx (m - 1) id) :: above m id = above (m - 1) id) as -> by (rewrite -> (above_cons (m - 1)) by lia; by replace (m - 1 + 1) with m by lia).
  destruct (IH (m - 1) ltac:(lia) ltac:(lia) ltac:(lia)) as (m' & E & Hr & Hcase & Hpres). exists m'. split; [done|]. split; [lia|]. split; [done|]. intros l Hl. destruct (decide (l = m - 1)) as [->|]; [done|]. apply Hpres. lia.
Qed.

Lemma walk_up_ok fuel m id id' below : 0 ≤ m ≤ N → (Z.to_nat (N - m) + 1 < fuel)%nat → 0 < id' ≤ 64 ^ N →
  ∃ n p paa, walk_up fuel (m * IDR_BITS) (fls (wrap 32 id')) (cell sh (m - 1) (idx (m - 1) id)) below (above m id) = Some (n, p, paa) ∧
    (id' < 64 ^ N → ∃ m', m ≤ m' ≤ N ∧ id' < 64 ^ m' ∧ n = m' * IDR_BITS ∧ p = cell sh (m' - 1) (idx (m' - 1) id) ∧ paa = above m' id).
Proof using Hk.
  pose proof (lk_levels _ _ Hk) as HN. pose proof (pow64_le N HN) as Hmax. clear Hh. revert m. induction fuel as [|fuel IH]; intros m Hm Hf Hid; [lia|]. assert (∀ x, 0 ≤ x → 2 ^ (x * IDR_BITS) = 64 ^ x) as Hpow by (intros x Hx; rw /IDR_BITS; rewrite -> Z.mul_comm, Z.pow_mul_r by lia; done).
  cbn [walk_up]. rewrite -> fls_above, Hpow by (lia || rw /IDR_BITS; lia). destruct (Z.leb_spec (64 ^ m) id') as [Hge|Hlt].
  - destruct (decide (m = N)) as [->|HmN].
    + rewrite -> above_end. replace (N * IDR_BITS + IDR_BITS) with ((N + 1) * IDR_BITS) by lia. rewrite -> fls_above, Hpow by (lia || rw /IDR_BITS; lia). rewrite -> (proj2 (Z.leb_gt (64 ^ (N + 1)) id')) by (rewrite -> Z.pow_add_r by lia; pose proof (pow64_pos N); lia).
      do 3 eexists. split; [done|]. lia.
    + rewrite -> above_cons by lia. replace (m * IDR_BITS + IDR_BITS) with ((m + 1) * IDR_BITS) by lia. destruct (IH (m + 1) ltac:(lia) ltac:(lia) Hid) as (n & p & paa & E & H). replace (m + 1 - 1) with m in E by lia. rewrite -> cell_addr in E by lia.
      exists n, p, paa. split; [done|]. intros Hlt. destruct (H Hlt) as (m' & Hm' & H'). exists m'. split; [lia|done].
  - do 3 eexists. split; [done|]. intros _. exists m. split_and!; done || lia.
Qed.

(** ** One round *)

(** The walk stands at [id] with [m] layers to go. *)
Definition stands (m id : Z) : Prop := 0 ≤ m ≤ N ∧ 0 ≤ id < 64 ^ N ∧ ready id ∧ ∀ l, m ≤ l < N → sh_addr sh l (idx l id) ≠ 0.

Lemma idr_round_ok m id below : stands m id →
  ∃ m' n p paa, walk_down (Z.to_nat MAX_LEVEL + 1) 0 (m * IDR_BITS) id (cell sh (m - 1) (idx (m - 1) id)) (above m id) s = Some (m' * IDR_BITS, cell sh (m' - 1) (idx (m' - 1) id), above m' id) ∧
    let id' := id + 64 ^ m' in swrap 32 (id + Z.shiftl 1 (m' * IDR_BITS)) = id' ∧ id < id' ≤ 64 ^ N ∧
    walk_up (Z.to_nat MAX_LEVEL + 1) (m' * IDR_BITS) (fls (wrap 32 id')) (cell sh (m' - 1) (idx (m' - 1) id)) below (above m' id) = Some (n, p, paa) ∧
    (id' < 64 ^ N → ∃ m'', stands m'' id' ∧ n = m'' * IDR_BITS ∧ p = cell sh (m'' - 1) (idx (m'' - 1) id') ∧ paa = above m'' id') ∧
    (m' = 0 ∧ (∀ l, 0 ≤ l < N → sh_addr sh l (idx l id) ≠ 0) ∨ 0 < m' ∧ sh_addr sh (m' - 1) (idx (m' - 1) id) = 0 ∧ ∀ x, id ≤ x < id' → sh_ids sh !! x = None) ∧ (64 ^ m' | id) ∧ (m' = N ∨ m' < N ∧ sh_addr sh m' (idx m' id) ≠ 0).
Proof using Hk Hh.
  intros (Hm & Hid & Hready & Hpres). pose proof (lk_levels _ _ Hk) as HN. pose proof (pow64_le N HN) as Hmax. change (Z.to_nat MAX_LEVEL + 1)%nat with 7%nat. destruct (walk_down_ok 0 7 m id ltac:(lia) ltac:(lia) ltac:(lia)) as (m' & Ed & Hm' & Hcase & Hpres'). change (0 * IDR_BITS) with 0 in Ed.
  assert (∀ l, m' ≤ l < N → sh_addr sh l (idx l id) ≠ 0) as Hall. { intros l Hl. destruct (Z_lt_le_dec l m); [apply Hpres'; lia|apply Hpres; lia]. } pose proof (pow64_pos m' ltac:(lia)) as Hpm. assert (64 ^ m' | id) as Hdiv.
  { destruct Hcase as [->|[Hpos H0]]; [exists id; change (64 ^ 0) with 1; lia|]. replace m' with (m' - 1 + 1) by lia. by apply Hready; [lia|]. }
  assert (id + 64 ^ m' ≤ 64 ^ N) as Hle by (apply slot_fits; [lia|lia|done]).
  assert (Z.shiftl 1 (m' * IDR_BITS) = 64 ^ m') as Eshift. { rewrite -> Z.shiftl_1_l. rw /IDR_BITS. rewrite -> Z.mul_comm, Z.pow_mul_r by lia. done. }
  destruct (walk_up_ok 7 m' id (id + 64 ^ m') below ltac:(lia) ltac:(lia) ltac:(lia)) as (n & p & paa & Eu & Hup). exists m', n, p, paa. split; [done|]. cbn zeta. rewrite -> Eshift, swrap_small by lia. split; [done|]. split; [lia|]. split; [done|]. split; [|split; [|split; [done|]]].
  - intros Hlt. destruct (Hup Hlt) as (m'' & Hm'' & Hid'' & -> & -> & ->). exists m''. assert (∀ l, m'' - 1 ≤ l → 0 ≤ l → idx l (id + 64 ^ m') = idx l id) as Esame.
    { intros l Hl Hl0. assert (∀ x, 0 ≤ x < 64 ^ m'' → idx l x = 0) as Hz. { intros x Hx. apply idx_iff; [lia|]. pose proof (Z.pow_le_mono_r 64 m'' (l + 1) ltac:(lia) ltac:(lia)). lia. } rewrite -> !Hz by lia. done. }
    assert (0 < m'') as Hm0. { destruct (Z_lt_le_dec 0 m''); [done|]. assert (m'' = 0) as -> by lia. change (64 ^ 0) with 1 in Hid''. lia. }
    split; [|split; [done|split; [rewrite -> Esame by lia; done|symmetry; apply above_same; [lia|intros l Hl; apply Esame; lia]]]]. split; [lia|]. split; [lia|]. split; [apply ready_next; [lia|done|done]|]. intros l Hl. rewrite -> Esame by lia. apply Hall. lia.
  - destruct Hcase as [->|[Hpos H0]]; [left; split; [done|]; intros l Hl; apply Hall; lia|right]. split; [done|]. split; [done|]. intros x Hx. apply (absent_none sh N Hk (m' - 1)); [lia|]. rewrite <- H0. f_equal. apply idx_iff; [lia|]. replace (m' - 1 + 1) with m' by lia.
    destruct Hdiv as [q Hq]. assert (idx (m' - 1) id = q) as -> by (rw /idx; replace (m' - 1 + 1) with m' by lia; rewrite -> Hq; apply Z.div_mul; lia). lia.
  - destruct (decide (m' = N)) as [|Hne]; [by left|right]. split; [lia|]. apply Hall. lia.
Qed.

(** ** How long a walk takes *)

(** The slots of all layers. *)
Definition slots : list (Z * Z) := list_prod (map_to_list (store s)).*1 (seqZ 0 64).

Lemma slots_length : length slots = (64 * size (store s))%nat.
Proof using. clear. rw /slots. rewrite -> length_prod, length_fmap, length_map_to_list, length_seqZ. lia. Qed.

Lemma slots_in l k i : sh_addr sh l k ≠ 0 → 0 ≤ i < 64 → (sh_addr sh l k, i) ∈ slots.
Proof using Hh.
  intros Ha Hi. apply list_elem_of_In, in_prod; apply list_elem_of_In; [|apply elem_of_seqZ; lia]. destruct (Hh l k Ha) as (ly & E & _). apply list_elem_of_fmap. exists (sh_addr sh l k, ly). split; [done|]. by apply elem_of_map_to_list.
Qed.

(** The slots where the walk was; all of them begin below [id]. *)
Record visited (V : list (Z * Z)) (id : Z) : Prop := {
  vi_nodup : NoDup V; vi_in x : x ∈ V → x ∈ slots; vi_before a i l k : (a, i) ∈ V → a ≠ 0 → sh_addr sh l k = a → (64 * k + i) * 64 ^ l < id
}.

Lemma visited_length V id : visited V id → (length V ≤ length slots)%nat.
Proof using. clear. intros [Hn Hi _]. apply submseteq_length. by apply NoDup_submseteq. Qed.

Lemma visited_next V id m : visited V id → 0 ≤ m → sh_addr sh m (idx m id) ≠ 0 → (64 ^ m | id) → visited ((sh_addr sh m (idx m id), digit m id) :: V) (id + 64 ^ m).
Proof using Hk Hh.
  intros [Hn Hi Hb] Hm Ha Hdiv. pose proof (pow64_pos m Hm) as Hp. assert ((64 * idx m id + digit m id) * 64 ^ m = id) as Est.
  { rewrite -> digit_idx by done. rw /idx. replace (m - 1 + 1) with m by lia. destruct Hdiv as [q Hq]. rewrite -> Hq. rewrite -> Z.div_mul by lia. done. }
  split.
  - apply NoDup_cons. split; [|done]. intros Hin. specialize (Hb _ _ m (idx m id) Hin Ha eq_refl). lia.
  - intros x [->|Hin]%elem_of_cons; [|by apply Hi]. apply slots_in; [done|by apply digit_range].
  - intros a i l k [[= -> ->]|Hin]%elem_of_cons Ha0 E; [|specialize (Hb a i l k Hin Ha0 E); lia]. rewrite <- E in Ha0. destruct (lk_inj _ _ Hk _ _ _ _ Ha0 E) as [-> ->]. lia.
Qed.

(** The rounds that are left at most. *)
Definition rounds (V : list (Z * Z)) (id : Z) : nat := (length slots - length V + (if (id <? 64 ^ N)%Z then 1%nat else 0%nat))%nat.

Lemma rounds_next V id m : visited V id → id < 64 ^ N → 0 ≤ m → (64 ^ m | id) → (m = N ∨ m < N ∧ sh_addr sh m (idx m id) ≠ 0) → 0 ≤ id → ∃ V', visited V' (id + 64 ^ m) ∧ (rounds V' (id + 64 ^ m) < rounds V id)%nat.
Proof using Hk Hh.
  intros HV Hid Hm Hdiv Hcase Hid0. pose proof (visited_length _ _ HV) as Hl. pose proof (pow64_pos m Hm) as Hp. destruct (Z_lt_le_dec (id + 64 ^ m) (64 ^ N)) as [Hlt|Hge].
  - destruct Hcase as [->|[_ Ha]]; [lia|]. pose proof (visited_next V id m HV Hm Ha Hdiv) as HV'. eexists. split; [exact HV'|]. pose proof (visited_length _ _ HV') as Hl'. rw /rounds. cbn [length] in Hl' |- *. rewrite -> (proj2 (Z.ltb_lt id _)) by lia. destruct (_ <? _); lia.
  - exists V. split; [|rw /rounds; rewrite -> (proj2 (Z.ltb_lt id _)), (proj2 (Z.ltb_ge (id + 64 ^ m) _)) by lia; lia]. destruct HV as [H1 H2 H3]. split; [done|done|]. intros a i l k H4 H5 H6. specialize (H3 a i l k H4 H5 H6). lia.
Qed.

Lemma rounds_start id : visited [] id ∧ (rounds [] id < 65 * size (store s) + 65)%nat.
Proof using. clear. split; [split; [constructor| |]; intros; by match goal with H : _ ∈ [] |- _ => apply elem_of_nil in H end|]. rw /rounds. rewrite -> slots_length. cbn [length]. destruct (_ <? _); lia. Qed.
End walk.

(** ** The ids with a pointer *)

Definition live (F : gmap Z Z) (x : Z) : Prop := ∃ p, F !! x = Some p ∧ p ≠ 0.

(** The live ids from [id] on, in ascending order. *)
Definition live_from (F : gmap Z Z) (id : Z) (l : list Z) : Prop := StronglySorted Z.lt l ∧ ∀ x, x ∈ l ↔ id ≤ x ∧ live F x.

Lemma live_head F id l : live_from F id l → live F id → ∃ l', l = id :: l' ∧ live_from F (id + 1) l'.
Proof.
  intros [Hs Hl] Hid. destruct l as [|x l]; [exfalso; apply (not_elem_of_nil id), Hl; split; [lia|done]|]. apply StronglySorted_inv in Hs as [Hs Hx]. rewrite -> Forall_forall in Hx. assert (x = id) as ->.
  { assert (id ∈ x :: l) as Hin by (apply Hl; split; [lia|done]). apply elem_of_cons in Hin as [|Hin]; [done|]. specialize (Hx id Hin). destruct (proj1 (Hl x) ltac:(by left)). lia. }
  exists l. split; [done|]. split; [done|]. intros y. split.
  - intros Hy. specialize (Hx y Hy). destruct (proj1 (Hl y) ltac:(by right)) as [_ Hlv]. split; [lia|done].
  - intros [Hy Hlv]. assert (y ∈ id :: l) as Hin by (apply Hl; split; [lia|done]). apply elem_of_cons in Hin as [->|]; [lia|done].
Qed.

Lemma live_skip F id id' l : live_from F id l → id ≤ id' → (∀ x, id ≤ x < id' → ¬ live F x) → live_from F id' l.
Proof.
  intros [Hs Hl] Hle Hno. split; [done|]. intros x. rewrite -> Hl. split; intros [Hx Hlv]; (split; [|done]); [|lia]. destruct (Z_lt_le_dec x id'); [|done]. exfalso. by apply (Hno x).
Qed.

(** The callback on the ids of a list, until it returns an error. *)
Fixpoint visit {D} (fn : Z → Z → D → Z * D) (F : gmap Z Z) (l : list Z) (data : D) : Z * D :=
  match l with
  | [] => (0, data)
  | id :: l => let '(error, data) := fn id (default 0 (F !! id)) data in if error =? 0 then visit fn F l data else (error, data)
  end.

Lemma top_cell s sh fl id : idr_rep s sh fl → 0 ≤ id < 64 ^ layers s → top s = cell sh (layers s - 1) (idx (layers s - 1) id).
Proof.
  intros Hrep Hid. destruct (top_cases s sh fl Hrep) as [(Hl & -> & Hnone)|(Hn & -> & _)].
  - rewrite -> Hl in *. change (64 ^ 0) with 1 in Hid. rw /cell. cbn. by rewrite -> Hnone.
  - rewrite -> cell_addr by lia. by rewrite -> idx_top by lia.
Qed.

(** What a round finds. *)
Lemma found_none sh m id x : (m = 0 ∧ x = id ∧ cell sh (m - 1) (idx (m - 1) id) = 0) ∨ sh_ids sh !! x = None → ¬ live (sh_ids sh) x.
Proof.
  intros [(-> & -> & Hc)|Hn] (p & Hp & Hp0); [|congruence]. change (0 - 1) with (-1) in Hc. rewrite -> idx_id in Hc. rw /cell in Hc. cbn in Hc. by rewrite -> Hp in Hc.
Qed.

Section walks.
Context (s : idr) (sh : shape) (fl : list Z) (Hrep : idr_rep s sh fl).
Let N := layers s.
Let F := sh_ids sh.

(** The locals of a walk that stands at [id], or that is through. *)
Definition walking (n id p : Z) (paa : list Z) : Prop := 0 ≤ id ≤ 64 ^ N ∧ (id < 64 ^ N → ∃ m, stands sh N m id ∧ n = m * IDR_BITS ∧ p = cell sh (m - 1) (idx (m - 1) id) ∧ paa = above sh N m id).

Lemma walking_start id : 0 ≤ id ≤ 64 ^ N → ready sh N id → walking (N * IDR_BITS) id (top s) [].
Proof using Hrep.
  intros Hid Hr. split; [done|]. intros Hlt. exists N. pose proof (lk_levels _ _ (so_linked _ _ (rep_shape _ _ _ Hrep))) as HN. split; [split; [lia|]; split; [lia|]; split; [done|]; lia|]. split; [done|]. split; [apply (top_cell s sh fl id Hrep); rw /N in Hlt; lia|]. by rewrite -> above_end.
Qed.

(** One round: the slot at hand, and where the walk goes. *)
Lemma walking_round n id p paa below V : walking n id p paa → id < 64 ^ N → visited s sh V id →
  ∃ n1 p1 paa1 id', walk_down (Z.to_nat MAX_LEVEL + 1) 0 n id p paa s = Some (n1, p1, paa1) ∧ swrap 32 (id + Z.shiftl 1 n1) = id' ∧ id < id' ∧
    (p1 ≠ 0 → id' = id + 1 ∧ F !! id = Some p1) ∧ (p1 = 0 → ∀ x, id ≤ x < id' → ¬ live F x) ∧
    ∃ n2 p2 paa2 V', walk_up (Z.to_nat MAX_LEVEL + 1) n1 (fls (wrap 32 id')) p1 below paa1 = Some (n2, p2, paa2) ∧ walking n2 id' p2 paa2 ∧ visited s sh V' id' ∧ (rounds s N V' id' < rounds s N V id)%nat.
Proof using Hrep.
  intros [Hid Hst] Hlt HV. destruct (Hst Hlt) as (m & Hs & -> & -> & ->). pose proof Hrep as [[Hk Hm Hct] Hh _ _]. fold N in Hk. destruct (idr_round_ok s sh N Hk Hh m id below Hs) as (m' & n2 & p2 & paa2 & Ed & Esw & Hr & Eu & Hnext & Hcase & Hdiv & Hup).
  do 3 eexists. exists (id + 64 ^ m'). split; [exact Ed|]. split; [done|]. split; [lia|]. assert (0 ≤ m') as Hm0 by (destruct Hcase as [[-> _]|[? _]]; lia). split; [|split].
  - intros Hp. destruct Hcase as [[-> _]|(Hpos & Habs & _)]; [|exfalso; apply Hp; by rewrite -> cell_addr by lia]. split; [done|]. change (0 - 1) with (-1) in *. rewrite -> idx_id in *. rw /cell in Hp |- *. cbn in Hp |- *. rw /F. destruct (sh_ids sh !! id); [done|]. by exfalso; apply Hp.
  - intros Hp x Hx. apply (found_none sh m' id). destruct Hcase as [[-> _]|(Hpos & _ & Hnone)]; [left; change (64 ^ 0) with 1 in Hx; split; [done|]; split; [lia|done]|right; by apply Hnone].
  - destruct (rounds_next s sh N Hk Hh V id m' HV Hlt Hm0 Hdiv Hup ltac:(lia)) as (V' & HV' & Hlt'). exists n2, p2, paa2, V'. split; [done|]. split; [|done]. split; [lia|done].
Qed.
End walks.

Lemma for_each_ok {D} (fn : Z → Z → D → Z * D) s sh fl below data l : idr_rep s sh fl → live_from (sh_ids sh) 0 l → idr_for_each fn s below data = Some (visit fn (sh_ids sh) l data).
Proof.
  intros Hrep Hl. rw /idr_for_each. pose proof Hrep as [[Hk Hm Hct] Hh _ _]. pose proof (lk_levels _ _ Hk) as HN. rewrite -> shift_levels by done. pose proof (pow64_pos (layers s) ltac:(lia)) as Hpos.
  destruct (rounds_start s sh (layers s) 0) as [HV0 Hfuel]. match goal with |- context [loop ?f ?b ?x] => destruct (loop_index
    (λ μ '(n, id, p, paa, d), ∃ V rest, walking s sh n id p paa ∧ visited s sh V id ∧ live_from (sh_ids sh) id rest ∧ visit fn (sh_ids sh) rest d = visit fn (sh_ids sh) l data ∧ μ = rounds s (layers s) V id)
    (λ r, r = visit fn (sh_ids sh) l data) b f x (rounds s (layers s) [] 0)) as (r & -> & ->) end; [| |done|done].
  - intros μ [[[[n id] p] paa] d] (V & rest & Hw & HV & Hrest & Hvis & ->). destruct (Z.leb_spec (64 ^ layers s) id) as [Hge|Hlt].
    { right. eexists. split; [done|]. rewrite <- Hvis. destruct rest as [|x rest]; [done|]. exfalso. destruct (proj1 (proj2 Hrest x) ltac:(by left)) as [Hx (q & Hq & _)]. pose proof (id_range sh _ Hk x ltac:(by rewrite -> Hq)). lia. }
    destruct (walking_round s sh fl Hrep n id p paa below V Hw Hlt HV) as (n1 & p1 & paa1 & id' & -> & Esw & Hlt' & Hsome & Hnone & n2 & p2 & paa2 & V' & Eup & Hw' & HV' & Hr). cbn [mbind option_bind]. rewrite -> Esw. destruct (Z.eqb_spec p1 0) as [->|Hp]; cbn [negb Z.eqb].
    + left. rewrite -> Eup. cbn [mbind option_bind]. do 2 eexists. split; [done|]. split; [|exact Hr]. exists V', rest. split; [done|]. split; [done|]. split; [|done]. apply (live_skip _ id); [done|lia|by apply Hnone].
    + destruct (Hsome Hp) as [E1 Ef]. destruct (live_head _ _ _ Hrest ltac:(by exists p1)) as (rest' & -> & Hrest'). cbn [visit] in Hvis. rewrite -> Ef in Hvis. change (default 0 (Some p1)) with p1 in Hvis. revert Hvis. destruct (fn id p1 d) as [error d']. destruct (error =? 0); intros Hvis; cbn [negb].
      * left. rewrite -> Eup. cbn [mbind option_bind]. do 2 eexists. split; [done|]. split; [|exact Hr]. exists V', rest'. split; [done|]. split; [done|]. split; [by rewrite -> E1|]. split; [exact Hvis|reflexivity].
      * right. eexists. split; [done|]. done.
  - exists [], l. split; [|done]. apply (walking_start s sh fl Hrep); [lia|]. intros k Hk0 _. apply Z.divide_0_r.
Qed.

(** The lowest live id from [id] on. *)
Definition next_live (F : gmap Z Z) (id : Z) (r : Z * Z) : Prop :=
  (id ≤ r.2 ∧ F !! r.2 = Some r.1 ∧ r.1 ≠ 0 ∧ ∀ y, id ≤ y < r.2 → ¬ live F y) ∨ (r = (0, id) ∧ ∀ y, id ≤ y → ¬ live F y).

Lemma get_next_ok s sh fl below nextid : idr_rep s sh fl → nextid = 0 ∨ is_Some (sh_ids sh !! (nextid - 1)) → ∃ r, idr_get_next s below nextid = Some r ∧ next_live (sh_ids sh) nextid r.
Proof.
  intros Hrep Hstart. rw /idr_get_next. pose proof Hrep as [[Hk Hm Hct] Hh _ _]. pose proof (lk_levels _ _ Hk) as HN. pose proof (pow64_pos (layers s) ltac:(lia)) as Hpos.
  destruct (top_cases s sh fl Hrep) as [(_ & -> & Hnone)|(Hn & Ht & Ht0)]; [eexists; split; [done|]; right; split; [done|]; intros y _ (q & Hq & _); by rewrite -> Hnone in Hq|]. rewrite -> (proj2 (Z.eqb_neq _ 0)) by done.
  assert (0 ≤ nextid ≤ 64 ^ layers s ∧ ready sh (layers s) nextid) as [Hid Hready].
  { destruct Hstart as [->|Hin]; [split; [lia|]; intros k Hk0 _; apply Z.divide_0_r|]. pose proof (id_range sh _ Hk _ Hin). split; [lia|]. replace nextid with (nextid - 1 + 64 ^ 0) by (change (64 ^ 0) with 1; lia). apply (ready_next sh (layers s) Hk); [lia|exists (nextid - 1); change (64 ^ 0) with 1; lia|]. intros k Hk0. by apply (id_present sh (layers s) Hk). }
  destruct (Hh (layers s - 1) 0 ltac:(by rewrite <- Ht)) as (ly & E & Hnode). rewrite <- Ht in E. rw /at_layer. rewrite -> E. cbn [mbind option_bind]. rewrite -> (is_layer _ _ _ _ Hnode). replace (layers s - 1 + 1) with (layers s) by lia. rewrite -> shift_levels by done.
  destruct (rounds_start s sh (layers s) nextid) as [HV0 Hfuel]. match goal with |- context [loop ?f ?b ?x] => apply (loop_index
    (λ μ '(n, id, p, paa), ∃ V, walking s sh n id p paa ∧ visited s sh V id ∧ nextid ≤ id ∧ (∀ y, nextid ≤ y < id → ¬ live (sh_ids sh) y) ∧ μ = rounds s (layers s) V id) (next_live (sh_ids sh) nextid) b f x (rounds s (layers s) [] nextid)) end; [| |done].
  - intros μ [[[n id] p] paa] (V & Hw & HV & Hle & Hno & ->). destruct (Z.leb_spec (64 ^ layers s) id) as [Hge|Hlt].
    { right. eexists. split; [done|]. right. split; [done|]. intros y Hy Hlv. destruct (Z_lt_le_dec y id); [by apply (Hno y)|]. destruct Hlv as (q & Hq & _). pose proof (id_range sh _ Hk y ltac:(by rewrite -> Hq)). lia. }
    destruct (walking_round s sh fl Hrep n id p paa below V Hw Hlt HV) as (n1 & p1 & paa1 & id' & -> & Esw & Hlt' & Hsome & Hnone & n2 & p2 & paa2 & V' & Eup & Hw' & HV' & Hr). cbn [mbind option_bind]. rewrite -> Esw. destruct (Z.eqb_spec p1 0) as [->|Hp]; cbn [negb].
    + left. rewrite -> Eup. cbn [mbind option_bind]. do 2 eexists. split; [done|]. split; [|exact Hr]. exists V'. split; [done|]. split; [done|]. split; [lia|]. split; [|done]. intros y Hy. destruct (Z_lt_le_dec y id); [apply Hno; lia|apply (Hnone eq_refl); lia].
    + right. eexists. split; [done|]. left. destruct (Hsome Hp) as [_ Ef]. done.
  - exists []. split; [by apply (walking_start s sh fl Hrep)|]. split; [done|]. split; [lia|]. split; [lia|done].
Qed.

Lemma next_live_unique F id r r' : next_live F id r → next_live F id r' → r = r'.
Proof.
  destruct r as [p x], r' as [p' x']. intros [(H1 & H2 & H3 & H4)|(E1 & H4)] [(H1' & H2' & H3' & H4')|(E1' & H4')]; cbn in *.
  - assert (x = x') as ->. { destruct (Z.lt_trichotomy x x') as [Hc|[|Hc]]; [exfalso; apply (H4' x); [lia|by exists p]|done|exfalso; apply (H4 x'); [lia|by exists p']]. } congruence.
  - exfalso. apply (H4' x); [lia|by exists p].
  - exfalso. apply (H4 x'); [lia|by exists p'].
  - congruence.
Qed.
