(* ===== verification/IdrClear.v ===== *)
(** * Small integers for pointers: removing all ids

    idr_remove_all walks through the tree without touching the ids and gives every layer to call_rcu when it leaves it for the last time: each layer of the tree once,
    the leaves before the layers above them. *)
From S2P Require Import Prelude Bitops FindBit Idr IdrRep IdrAlloc IdrGrow IdrNew IdrRemove IdrWalk.
#[local] Open Scope Z_scope.

(** A layer is given away; [sh'] is the tree without it. *)
Lemma spare_give s sh sh' fl l k : (∀ l' k', sh_addr sh l' k' = sh_addr sh l k → l' = l ∧ k' = k) → is_Some (store s !! sh_addr sh l k) → sh_addr sh l k ≠ 0 →
  (∀ l' k', sh_addr sh' l' k' = if (l' =? l) && (k' =? k) then 0 else sh_addr sh l' k') → spare s sh [] fl → spare (free_layer (sh_addr sh l k) s) sh' [] fl.
Proof.
  intros Hinj Hin Ha E [H1 H2 [P1 P2 P3 P4]]. apply spare_free. split; [done|done|]. set (a := sh_addr sh l k) in *. split.
  - apply NoDup_cons. split; [|done]. by apply P2.
  - intros l' k'. rewrite -> E. destruct ((l' =? l) && (k' =? k)) eqn:Eb; [done|]. intros Ha' [Hc|Hi]%elem_of_cons; [|by apply (P2 l' k')]. destruct (Hinj l' k' Hc) as [-> ->]. by rewrite -> !Z.eqb_refl in Eb.
  - intros b [->|Hb]%elem_of_cons; [done|by apply P3].
  - intros b Hb. destruct (P4 b Hb) as [Hi|(l' & k' & Eb & Hb0)]; [left; by right|]. destruct (decide (b = a)) as [->|Hne]; [left; by left|right]. exists l', k'. split; [|done]. rewrite -> E. destruct ((l' =? l) && (k' =? k)) eqn:Ek; [|done].
    apply andb_prop in Ek as [->%Z.eqb_eq ->%Z.eqb_eq]. exfalso. apply Hne. symmetry. exact Eb.
Qed.

Lemma spare_ext s sh sh' X fl : (∀ l k, sh_addr sh l k ≠ 0 ∨ sh_addr sh' l k ≠ 0 → sh_addr sh' l k = sh_addr sh l k) → spare s sh X fl → spare s sh' X fl.
Proof.
  intros H. apply spare_same. intros a. split; intros (l & k & E & Ha); exists l, k; (split; [|done]); [rewrite <- H|rewrite -> H]; try done; [right|left]; by rewrite -> E.
Qed.

(** [n < fls(id ^ bt_mask)]: the layers differ. *)
Lemma differ m id id' : 0 ≤ m → 0 ≤ id < id' → id' < 2 ^ 31 → (m * IDR_BITS <? fls (wrap 32 (Z.lxor id' id))) = negb (idx (m - 1) id' =? idx (m - 1) id).
Proof.
  intros Hm Hid Hid'. assert (0 < Z.lxor id' id) as Hpos. { assert (0 ≤ Z.lxor id' id) by (apply Z.lxor_nonneg; lia). assert (Z.lxor id' id ≠ 0) by (intros E; apply Z.lxor_eq in E; lia). lia. }
  assert (in_width 31 (Z.lxor id' id)) as Hw by (apply in_width_lxor; [lia|split; lia|split; lia]). rewrite -> fls_above by (destruct Hw; rw /IDR_BITS; lia). assert (2 ^ (m * IDR_BITS) = 64 ^ m) as -> by (rw /IDR_BITS; rewrite -> Z.mul_comm, Z.pow_mul_r by lia; done).
  pose proof (pow64_pos m Hm) as Hp. assert (Z.lxor id' id / 64 ^ m = Z.lxor (idx (m - 1) id') (idx (m - 1) id)) as Ex.
  { rw /idx. replace (m - 1 + 1) with m by lia. assert (64 ^ m = 2 ^ (6 * m)) as -> by (rewrite -> Z.pow_mul_r by lia; done). rewrite <- !Z.shiftr_div_pow2 by lia. apply Z.shiftr_lxor. }
  destruct (Z.eqb_spec (idx (m - 1) id') (idx (m - 1) id)) as [E|Hne]; cbn [negb].
  - rewrite -> E, Z.lxor_nilpotent in Ex. apply Z.leb_gt. apply Z.div_small_iff in Ex; lia.
  - apply Z.leb_le. destruct (Z_lt_le_dec (Z.lxor id' id) (64 ^ m)); [|done]. exfalso. rewrite -> Z.div_small in Ex by lia. symmetry in Ex. by apply Z.lxor_eq in Ex.
Qed.

Section clear.
Context (s : idr) (sh : shape) (N : Z) (fl : list Z) (Hk : linked sh N) (Hh : holds (store s) sh).

(** The tree without the layers of a level [l] that end at [bound l] or before. *)
Definition cut (bound : Z → Z) : shape :=
  {| sh_addr := λ l k, if (k + 1) * 64 ^ (l + 1) <=? bound l then 0 else sh_addr sh l k; sh_ids := sh_ids sh; sh_mark := sh_mark sh; sh_count := sh_count sh |}.

(** On the way up from [id] to [id'] the layers below the level [m - 1] are through. *)
Definition cut_up (id id' m : Z) : shape := cut (λ l, if l <? m - 1 then id' else id).

Lemma cut_addr bound l k : sh_addr (cut bound) l k ≠ 0 → sh_addr (cut bound) l k = sh_addr sh l k ∧ bound l < (k + 1) * 64 ^ (l + 1).
Proof using. clear. cbn. destruct (Z.leb_spec ((k + 1) * 64 ^ (l + 1)) (bound l)); done. Qed.

(** Only the layer of [id] ends between [id] and the next slot. *)
Lemma ends_here id m l k : 0 ≤ m ≤ l + 1 → id < (k + 1) * 64 ^ (l + 1) ≤ id + 64 ^ m → k = idx l id.
Proof using.
  clear. intros Hm He. symmetry. apply idx_iff; [lia|]. assert (64 ^ m ≤ 64 ^ (l + 1)) by (apply Z.pow_le_mono_r; lia). lia.
Qed.

Section up.
Context (id m0 : Z).
Let id' := id + 64 ^ m0.
Context (Hid : 0 ≤ id) (Hm0 : 1 ≤ m0) (Hle : id' ≤ 64 ^ N).

Lemma up_range : 0 ≤ id < id' ∧ id' < 2 ^ 31.
Proof using Hk Hid Hm0 Hle. pose proof (pow64_pos m0 ltac:(lia)). pose proof (pow64_le N (lk_levels _ _ Hk)). lia. Qed.

(** The layer at the level [m - 1] is left. *)
Lemma give_one m s1 : m0 ≤ m ≤ N → idx (m - 1) id' ≠ idx (m - 1) id → store s1 = store s → spare s1 (cut_up id id' m) [] fl →
  spare (freed (sh_addr sh (m - 1) (idx (m - 1) id)) s1) (cut_up id id' (m + 1)) [] fl.
Proof using Hk Hh Hid Hm0 Hle.
  intros Hm Hne Es Hsp. pose proof up_range as [Hr _]. set (k := idx (m - 1) id) in *. pose proof (proj1 (idx_iff (m - 1) id k ltac:(lia)) eq_refl) as Hk1. replace (m - 1 + 1) with m in Hk1 by lia.
  assert ((k + 1) * 64 ^ m ≤ id') as Hend. { assert (k ≤ idx (m - 1) id') by (apply idx_mono; lia). pose proof (proj1 (idx_iff (m - 1) id' _ ltac:(lia)) eq_refl) as Hk2. replace (m - 1 + 1) with m in Hk2 by lia. pose proof (pow64_pos m). nia. }
  assert (∀ l' k', sh_addr (cut_up id id' (m + 1)) l' k' = if (l' =? m - 1) && (k' =? k) then 0 else sh_addr (cut_up id id' m) l' k') as E.
  { intros l' k'. cbn. destruct (Z.eqb_spec l' (m - 1)) as [->|Hl].
    - rewrite -> (proj2 (Z.ltb_lt (m - 1) (m + 1 - 1))), (proj2 (Z.ltb_ge (m - 1) (m - 1))) by lia. replace (m - 1 + 1) with m by lia. destruct (Z.eqb_spec k' k) as [->|Hk']; cbn [andb]; [by rewrite -> (proj2 (Z.leb_le _ id'))|].
      destruct (Z.leb_spec ((k' + 1) * 64 ^ m) id'), (Z.leb_spec ((k' + 1) * 64 ^ m) id); [done| |lia|done]. exfalso. apply Hk'. apply (ends_here id m0 (m - 1) k'); [lia|]. replace (m - 1 + 1) with m by lia. lia.
    - cbn [andb]. destruct (Z.ltb_spec l' (m + 1 - 1)), (Z.ltb_spec l' (m - 1)); done || lia. }
  assert (sh_addr (cut_up id id' m) (m - 1) k = sh_addr sh (m - 1) k) as Ea. { cbn. rewrite -> (proj2 (Z.ltb_ge (m - 1) (m - 1))) by lia. replace (m - 1 + 1) with m by lia. by rewrite -> (proj2 (Z.leb_gt _ id)) by lia. }
  rw /freed. destruct (Z.eqb_spec (sh_addr sh (m - 1) k) 0) as [E0|Ha]; cbn [negb].
  - apply (spare_ext _ (cut_up id id' m)); [|done]. intros l' k' _. rewrite -> E. destruct (Z.eqb_spec l' (m - 1)) as [->|], (Z.eqb_spec k' k) as [->|]; cbn [andb]; try done. by rewrite -> Ea.
  - rewrite <- Ea. apply (spare_give _ (cut_up id id' m)); [|rewrite -> Ea, Es; destruct (Hh _ _ Ha) as (ly & -> & _); done|by rewrite -> Ea|done|done].
    intros l' k' El. assert (sh_addr (cut_up id id' m) l' k' ≠ 0) as Hn0 by (by rewrite -> El, Ea). assert (sh_addr (cut_up id id' m) l' k' = sh_addr sh l' k') as E1 by (by apply cut_addr). apply (lk_inj _ _ Hk); [by rewrite <- E1, El, Ea|by rewrite <- E1, El, Ea].
Qed.

Lemma free_up_ok fuel m s1 below : m0 ≤ m ≤ N → (Z.to_nat (N - m) + 1 < fuel)%nat → id < 64 ^ N → store s1 = store s → spare s1 (cut_up id id' m) [] fl →
  ∃ n p paa s2, free_up fuel (m * IDR_BITS) (fls (wrap 32 (Z.lxor id' id))) (cell sh (m - 1) (idx (m - 1) id)) below (above sh N m id) s1 = Some (n, p, paa, s2) ∧ store s2 = store s ∧ top s2 = top s1 ∧
    (id' < 64 ^ N → ∃ m', m ≤ m' ≤ N ∧ idx (m' - 1) id' = idx (m' - 1) id ∧ n = m' * IDR_BITS ∧ p = cell sh (m' - 1) (idx (m' - 1) id) ∧ paa = above sh N m' id ∧ spare s2 (cut_up id id' m') [] fl) ∧
    (id' = 64 ^ N → spare s2 (cut_up id id' (N + 1)) [] fl).
Proof using Hk Hh Hid Hm0 Hle.
  pose proof up_range as [Hr Hr31]. revert m s1. induction fuel as [|fuel IH]; intros m s1 Hm Hf HidN Es Hsp; [lia|]. cbn [free_up]. rewrite -> differ by lia. destruct (Z.eqb_spec (idx (m - 1) id') (idx (m - 1) id)) as [E|Hne]; cbn [negb].
  - do 4 eexists. split; [done|]. split; [done|]. split; [done|]. split; [intros _; exists m; split_and!; done || lia|]. intros EN. exfalso. pose proof (idx_bound (m - 1) id N ltac:(lia) ltac:(lia) ltac:(lia)) as Hb. rewrite <- E, EN in Hb. rw /idx in Hb. replace (m - 1 + 1) with m in Hb by lia.
    replace (64 ^ N) with (64 ^ (N - m) * 64 ^ m) in Hb by (rewrite <- Z.pow_add_r by lia; f_equal; lia). pose proof (pow64_pos m ltac:(lia)). rewrite -> Z.div_mul in Hb by lia. replace (N - 1 - (m - 1)) with (N - m) in Hb by lia. lia.
  - rewrite -> cell_addr by lia. fold (freed (sh_addr sh (m - 1) (idx (m - 1) id)) s1). pose proof (give_one m s1 Hm Hne Es Hsp) as Hsp'. destruct (freed_rest (sh_addr sh (m - 1) (idx (m - 1) id)) s1) as (Fs & Ft & _).
    set (s2 := freed (sh_addr sh (m - 1) (idx (m - 1) id)) s1) in *. assert (store s2 = store s) as Es2 by congruence. destruct (decide (m = N)) as [->|HmN].
    + rewrite -> above_end. replace (N * IDR_BITS + IDR_BITS) with ((N + 1) * IDR_BITS) by lia. rewrite -> differ by lia. assert (∀ x, 0 ≤ x ≤ 64 ^ N → idx (N + 1 - 1) x = 0) as Hz. { intros x Hx. apply idx_iff; [lia|]. replace (N + 1 - 1 + 1) with (Z.succ N) by lia. rewrite -> Z.pow_succ_r by lia. lia. }
      rewrite -> !Hz by lia. rewrite -> Z.eqb_refl. cbn [negb]. do 4 eexists. split; [done|]. split; [done|]. split; [done|]. split; [|done]. intros Hlt. exfalso. apply Hne. rewrite -> !idx_top by lia. done.
    + rewrite -> above_cons by lia. replace (m * IDR_BITS + IDR_BITS) with ((m + 1) * IDR_BITS) by lia. destruct (IH (m + 1) s2 ltac:(lia) ltac:(lia) HidN Es2 Hsp') as (n & p & paa & s3 & E3 & Es3 & Et3 & Hcase & Hend). replace (m + 1 - 1) with m in E3 by lia. rewrite -> cell_addr in E3 by lia.
      exists n, p, paa, s3. split; [done|]. split; [done|]. split; [congruence|]. split; [|done]. intros Hlt. destruct (Hcase Hlt) as (m' & Hm' & H'). exists m'. split; [lia|done].
Qed.
End up.

(** One round: the leaf, or the slot without a layer, at [id]. *)
Lemma clear_round m id s1 below : stands sh N m id → 1 ≤ m → (64 | id) → store s1 = store s → spare s1 (cut (λ _, id)) [] fl →
  ∃ m' n p paa s2, walk_down (Z.to_nat MAX_LEVEL + 1) IDR_BITS (m * IDR_BITS) id (cell sh (m - 1) (idx (m - 1) id)) (above sh N m id) s1 = Some (m' * IDR_BITS, cell sh (m' - 1) (idx (m' - 1) id), above sh N m' id) ∧
    let id' := id + 64 ^ m' in swrap 32 (id + Z.shiftl 1 (m' * IDR_BITS)) = id' ∧ id < id' ≤ 64 ^ N ∧ 1 ≤ m' ∧ (64 ^ m' | id) ∧ (m' = N ∨ m' < N ∧ sh_addr sh m' (idx m' id) ≠ 0) ∧
    free_up (Z.to_nat MAX_LEVEL + 1) (m' * IDR_BITS) (fls (wrap 32 (Z.lxor id' id))) (cell sh (m' - 1) (idx (m' - 1) id)) below (above sh N m' id) s1 = Some (n, p, paa, s2) ∧ store s2 = store s ∧ top s2 = top s1 ∧ spare s2 (cut (λ _, id')) [] fl ∧
    (id' < 64 ^ N → ∃ m'', stands sh N m'' id' ∧ 1 ≤ m'' ∧ n = m'' * IDR_BITS ∧ p = cell sh (m'' - 1) (idx (m'' - 1) id') ∧ paa = above sh N m'' id').
Proof using Hk Hh.
  intros (Hm & Hid & Hready & Hpres) Hm1 H64 Es Hsp. pose proof (lk_levels _ _ Hk) as HN. pose proof (pow64_le N HN) as Hmax. change (Z.to_nat MAX_LEVEL + 1)%nat with 7%nat. destruct (walk_down_ok s1 sh N Hk ltac:(by rewrite -> Es) 1 7 m id ltac:(lia) ltac:(lia) ltac:(lia)) as (m' & Ed & Hm' & Hcase & Hpres').
  change (1 * IDR_BITS) with IDR_BITS in Ed. assert (∀ l, m' ≤ l < N → sh_addr sh l (idx l id) ≠ 0) as Hall. { intros l Hl. destruct (Z_lt_le_dec l m); [apply Hpres'; lia|apply Hpres; lia]. } pose proof (pow64_pos m' ltac:(lia)) as Hpm. assert (64 ^ m' | id) as Hdiv.
  { destruct Hcase as [->|[Hpos H0]]; [done|]. replace m' with (m' - 1 + 1) by lia. by apply Hready; [lia|]. }
  assert (id + 64 ^ m' ≤ 64 ^ N) as Hle by (apply (slot_fits id m'); [lia|lia|done]). assert (Z.shiftl 1 (m' * IDR_BITS) = 64 ^ m') as Eshift. { rewrite -> Z.shiftl_1_l. rw /IDR_BITS. rewrite -> Z.mul_comm, Z.pow_mul_r by lia. done. }
  set (id' := id + 64 ^ m') in *. assert (spare s1 (cut_up id id' m') [] fl) as Hsp1.
  { apply (spare_ext _ (cut (λ _, id))); [|done]. intros l k Hlk. cbn in Hlk |- *. destruct (Z.ltb_spec l (m' - 1)) as [Hl|]; [|done]. destruct (Z.leb_spec ((k + 1) * 64 ^ (l + 1)) id'), (Z.leb_spec ((k + 1) * 64 ^ (l + 1)) id); [done| |unfold id' in *; lia|done].
    symmetry. destruct (Z.eq_dec (sh_addr sh l k) 0) as [|Ha]; [done|]. exfalso. destruct (lk_range _ _ Hk _ _ Ha) as [Hl0 _]. destruct Hcase as [->|[Hpos Hz0]]; [lia|]. set (x := k * 64 ^ (l + 1)). pose proof (pow64_pos (l + 1) ltac:(lia)) as Hpl.
    assert (idx l x = k) as Ex by (apply idx_slot; lia). rewrite <- Ex in Ha. apply (present_up sh N Hk l (m' - 1)) in Ha; [|lia|lia]. apply Ha. rewrite <- Hz0. f_equal. apply idx_iff; [lia|]. replace (m' - 1 + 1) with m' by lia. destruct Hdiv as [q Hq].
    assert (idx (m' - 1) id = q) as -> by (rw /idx; replace (m' - 1 + 1) with m' by lia; rewrite -> Hq; apply Z.div_mul; lia). assert (64 ^ m' = 64 ^ (m' - l - 1) * 64 ^ (l + 1)) as Em by (rewrite <- Z.pow_add_r by lia; f_equal; lia).
    assert (q * 64 ^ (m' - l - 1) ≤ k) as Hq1. { assert (q * 64 ^ (m' - l - 1) < k + 1); [|lia]. apply (Z.mul_lt_mono_pos_r (64 ^ (l + 1))); [done|]. lia. } rw /x. split; [rewrite -> Em; nia|]. rw /id' in H. lia. }
  destruct (free_up_ok id m' ltac:(lia) ltac:(lia) ltac:(lia) 7 m' s1 below ltac:(lia) ltac:(lia) ltac:(lia) Es Hsp1) as (n & p & paa & s2 & Eu & Es2 & Et2 & Hgo & Hend). fold id' in Eu, Hgo, Hend.
  exists m', n, p, paa, s2. split; [done|]. cbn zeta. rewrite -> Eshift, swrap_small by lia. fold id'. split; [done|]. split; [lia|]. split; [lia|]. split; [done|]. split; [destruct (decide (m' = N)) as [|Hne]; [by left|right; split; [lia|apply Hall; lia]]|]. split; [done|]. split; [done|]. split; [done|].
  destruct (Z_lt_le_dec id' (64 ^ N)) as [Hlt|Hge].
  - destruct (Hgo Hlt) as (m'' & Hm'' & Hsame & -> & -> & -> & Hsp2). assert (∀ l, m'' - 1 ≤ l → idx l id' = idx l id) as Esame by (intros l Hl; by apply (idx_same (m'' - 1)); [lia|]). split.
    + apply (spare_ext _ (cut_up id id' m'')); [|done]. intros l k Hlk. cbn in Hlk |- *. destruct (Z.ltb_spec l (m'' - 1)) as [|Hl]; [done|]. destruct (Z.leb_spec ((k + 1) * 64 ^ (l + 1)) id'), (Z.leb_spec ((k + 1) * 64 ^ (l + 1)) id); [done| |lia|done].
      exfalso. assert (k = idx l id) as Ek by (apply (ends_here id m'); [lia|fold id'; lia]). rewrite <- Esame in Ek by lia. pose proof (proj1 (idx_iff l id' k ltac:(lia)) (eq_sym Ek)). lia.
    + intros _. exists m''. split; [|split; [lia|split; [done|split; [by rewrite -> Esame by lia|symmetry; apply above_same; [lia|intros l Hl; apply Esame; lia]]]]]. split; [lia|]. split; [lia|]. split; [apply (ready_next sh N Hk); [lia|done|done]|]. intros l Hl. rewrite -> Esame by lia. apply Hall. lia.
  - split; [|lia]. assert (id' = 64 ^ N) as EN by lia. apply (spare_ext _ (cut_up id id' (N + 1))); [|by apply Hend]. intros l k Hlk. cbn in Hlk |- *. destruct (Z.ltb_spec l (N + 1 - 1)) as [|Hl]; [done|].
    assert (sh_addr sh l k = 0) as ->. { destruct (Z.eq_dec (sh_addr sh l k) 0) as [|Ha]; [done|]. destruct (lk_range _ _ Hk _ _ Ha). lia. } by do 2 destruct (_ <=? _).
Qed.
End clear.

Lemma remove_all_ok s sh fl below : idr_rep s sh fl → ∃ s', idr_remove_all s below = Some s' ∧ idr_rep s' bare fl.
Proof.
  intros Hrep. pose proof Hrep as [[Hk Hm Hct] Hh _ Hsp]. pose proof (lk_levels _ _ Hk) as HN. rw /idr_remove_all. set (N := layers s) in *. rewrite -> shift_levels by done. pose proof (pow64_pos N ltac:(lia)) as Hpos. set (s0 := with_top 0 s).
  assert (∀ s1, store s1 = store s0 → top s1 = 0 → spare s1 (cut sh (λ _, 64 ^ N)) [] fl → idr_rep (set_layers 0 s1) bare fl) as Hdone.
  { intros s1 Es Et Hsp1. split; [apply bare_ok|by intros l k Ha; exfalso; apply Ha|done|]. apply (spare_ext _ (cut sh (λ _, 64 ^ N))); [|by destruct Hsp1; split]. intros l k [Ha|Ha]; [|by exfalso; apply Ha]. exfalso. pose proof (cut_addr sh _ _ _ Ha) as [E Hlt]. rewrite -> E in Ha.
    destruct (lk_range _ _ Hk _ _ Ha) as [Hl Hkr]. assert (64 ^ N = 64 ^ (N - 1 - l) * 64 ^ (l + 1)) as EN by (rewrite <- Z.pow_add_r by lia; f_equal; lia). pose proof (pow64_pos (l + 1) ltac:(lia)). nia. }
  assert (spare s0 (cut sh (λ _, 0)) [] fl) as Hsp0.
  { apply (spare_ext _ sh); [|by destruct Hsp; split]. intros l k Hlk. cbn in Hlk |- *. destruct (Z.leb_spec ((k + 1) * 64 ^ (l + 1)) 0) as [Hle|]; [|done]. destruct (Z.eq_dec (sh_addr sh l k) 0) as [|Ha]; [done|]. exfalso. destruct (lk_range _ _ Hk _ _ Ha) as [Hl Hkr]. pose proof (pow64_pos (l + 1) ltac:(lia)). nia. }
  destruct (rounds_start s sh N 0) as [HV0 Hfuel]. change (store s0) with (store s).
  match goal with |- context [loop ?f ?b ?x] => destruct (loop_index
    (λ μ '(n, id, p, paa, s1), ∃ V, store s1 = store s ∧ top s1 = 0 ∧ spare s1 (cut sh (λ _, id)) [] fl ∧ 0 ≤ id ≤ 64 ^ N ∧ visited s sh V id ∧ μ = rounds s N V id ∧
       (id < 64 ^ N → (N = 0 ∧ n = 0 ∧ p = 0 ∧ paa = []) ∨ ∃ m, stands sh N m id ∧ 1 ≤ m ∧ (64 | id) ∧ n = m * IDR_BITS ∧ p = cell sh (m - 1) (idx (m - 1) id) ∧ paa = above sh N m id))
    (λ s1, store s1 = store s ∧ top s1 = 0 ∧ spare s1 (cut sh (λ _, 64 ^ N)) [] fl) b f x (rounds s N [] 0)) as (s1 & -> & Es1 & Et1 & Hsp1) end.
  - intros μ [[[[n id] p] paa] s1] (V & Es & Et & Hsp1 & Hid & HV & -> & Hst). destruct (Z.leb_spec (64 ^ N) id) as [Hge|Hlt]; [right; eexists; split; [done|]; split; [done|]; split; [done|]; by replace (64 ^ N) with id by lia|left].
    destruct (Hst Hlt) as [(HN0 & -> & -> & ->)|(m & Hs & Hm1 & H64 & -> & -> & ->)].
    + rewrite -> HN0 in *. change (64 ^ 0) with 1 in *. assert (id = 0) as -> by lia. cbn [walk_down Z.to_nat MAX_LEVEL]. change (walk_down _ _ _ _ _ _ _) with (Some (0, 0, @nil Z)). cbn [mbind option_bind]. change (free_up _ _ _ _ _ _ _) with (Some (6, below, @nil Z, s1)). cbn [mbind option_bind].
      do 2 eexists. split; [done|]. change (swrap 32 (0 + Z.shiftl 1 0)) with 1. split; [|shelve]. exists V. split; [done|]. split; [done|]. split; [|split; [lia|split; [|split; [reflexivity|lia]]]].
      * apply (spare_ext _ (cut sh (λ _, 0))); [|done]. intros l k Hlk. cbn in Hlk |- *. assert (sh_addr sh l k = 0) as ->. { destruct (Z.eq_dec (sh_addr sh l k) 0) as [|Ha]; [done|]. destruct (lk_range _ _ Hk _ _ Ha). lia. } by do 2 destruct (_ <=? _).
      * destruct HV as [V1 V2 V3]. split; [done|done|]. intros a i l k H1 H2 H3. specialize (V3 a i l k H1 H2 H3). lia.
      Unshelve. rw /rounds. change (64 ^ 0) with 1. cbn. lia.
    + destruct (clear_round s sh N fl Hk Hh m id s1 below Hs Hm1 H64 Es Hsp1) as (m' & n2 & p2 & paa2 & s2 & -> & Esw & Hr & Hm' & Hdiv & Hup & Eu & Es2 & Et2 & Hsp2 & Hnext). cbn [mbind option_bind]. rewrite -> Esw, Eu. cbn [mbind option_bind].
      destruct (rounds_next s sh N Hk Hh V id m' HV Hlt ltac:(lia) Hdiv Hup ltac:(lia)) as (V' & HV' & Hlt'). do 2 eexists. split; [done|]. split; [|exact Hlt']. exists V'. split; [done|]. split; [congruence|]. split; [done|]. split; [lia|]. split; [done|]. split; [done|].
      intros Hlt2. right. destruct (Hnext Hlt2) as (m'' & Hs'' & Hm'' & -> & -> & ->). exists m''. split; [done|]. split; [done|]. split; [|done]. apply Z.divide_add_r; [done|]. replace m' with (1 + (m' - 1)) by lia. rewrite -> Z.pow_add_r by lia. exists (64 ^ (m' - 1)). lia.
  - exists []. split; [done|]. split; [done|]. split; [done|]. split; [lia|]. split; [done|]. split; [done|]. intros _. destruct (decide (N = 0)) as [HN0|Hne].
    + left. rewrite -> HN0. split; [done|]. split; [done|]. split; [|done]. destruct (top_cases s sh fl Hrep) as [(_ & Ht & _)|(Hn & _)]; [done|]. fold N in Hn. lia.
    + right. exists N. split; [split; [lia|]; split; [lia|]; split; [intros k Hk0 _; apply Z.divide_0_r|lia]|]. split; [lia|]. split; [apply Z.divide_0_r|]. split; [done|]. split; [apply (top_cell s sh fl 0 Hrep); fold N; lia|]. by rewrite -> above_end.
  - done.
  - cbn [mbind option_bind]. eexists. split; [done|]. by apply Hdone.
Qed.
