(* ===== verification/IdrSpec.v ===== *)
(** * Small integers for pointers: the map that an idr stands for

    The states that a caller can reach with the functions of lib/idr.c are followed by a finite map from ids to pointers: new ids are the lowest free ones, removal deletes
    exactly one id, idr_find looks up, and the walks go through the ids in ascending order.  Ids stay below 2^30 and only ids in use are removed: for other ids the functions do something else (see [idr_high_id] and [idr_remove_alias]). *)
From S2P Require Import Prelude Bitops FindBit Idr IdrRep IdrAlloc IdrGrow IdrNew IdrRemove IdrWalk IdrClear.
#[local] Open Scope Z_scope.

(** The handle stands for a map. *)
Definition represents (s : idr) (F : gmap Z Z) : Prop := ∃ sh fl, idr_rep s sh fl ∧ sh_ids sh = F ∧ id_free_cnt s = Z.of_nat (length fl).

Lemma rep_represents s sh fl F : idr_rep s sh fl → sh_ids sh = F → represents s F.
Proof. intros Hrep HF. exists sh, fl. split_and!; [done|done|]. apply Hrep. Qed.

Lemma init_represents : represents idr_init ∅.
Proof.
  apply (rep_represents _ bare []); [|done]. split; [apply bare_ok|by intros l k Ha; exfalso; apply Ha|done|]. split; [done|done|]. split; cbn.
  - constructor.
  - intros l k Ha. by exfalso; apply Ha.
  - intros a Ha. by apply elem_of_nil in Ha.
  - intros a [x Hx]. by rewrite -> lookup_empty in Hx.
Qed.

(** ** Preallocation *)

Section pre_get.
Context (alloc : gmap Z idr_layer → Z) (Halloc : ∀ h, alloc h ≠ 0 → h !! alloc h = None).

Lemma add_free s sh fl : idr_rep s sh fl → alloc (store s) ≠ 0 → let new := alloc (store s) in
  ∃ s', move_to_free_list new (set_store (<[new := zero_layer]> (store s)) s) = Some s' ∧ idr_rep s' sh (new :: fl).
Proof using Halloc.
  intros [Hs Hh Ht Hsp] H0. cbn zeta. specialize (Halloc _ H0). set (new := alloc (store s)) in *. pose proof Hsp as [P1 P2 P3]. assert (∀ l k, sh_addr sh l k ≠ 0 → sh_addr sh l k ≠ new) as Hnt. { intros l k Ha E. destruct (Hh l k Ha) as (ly & El & _). congruence. }
  assert (new ∉ fl ++ rcu s) as Hnp. { intros Hin. destruct (pl_in _ _ _ P3 new Hin) as [_ [x Hx]]. congruence. } set (s1 := set_store (<[new := zero_layer]> (store s)) s).
  assert (spare s1 sh [new] fl) as Hsp1. { split; cbn; [apply chain_upd; [set_solver|done]|done|]. destruct P3 as [Q1 Q2 Q3 Q4]. split.
    - constructor; done.
    - intros l k Ha Hin. apply elem_of_cons in Hin as [Hc|Hin]; [by apply (Hnt l k)|by apply (Q2 l k)].
    - intros a [->|Hin]%elem_of_cons; [split; [done|by rewrite -> lookup_insert_eq]|]. destruct (Q3 a Hin) as [Ha0 Ha1]. split; [done|]. rewrite -> lookup_insert_ne by (intros <-; done). done.
    - intros a Ha. destruct (decide (a = new)) as [->|Hne]; [left; by left|]. rewrite -> lookup_insert_ne in Ha by done. destruct (Q4 a Ha) as [Hin|Hin]; [left; by right|by right]. }
  assert (holds (store s1) sh) as Hh1. { intros l k Ha. cbn. rewrite -> lookup_insert_ne by (intros Hc; by apply (Hnt l k)). by apply Hh. }
  destruct (move_free_ok s1 sh new [] fl zero_layer 0 Hsp1 Hh1 ltac:(apply lookup_insert_eq) eq_refl eq_refl eq_refl) as (s' & E & Hsp' & Hh' & Ht' & Hl' & Hr'). exists s'. split; [done|]. split; [by rewrite -> Hl'|done|by rewrite -> Ht', Hl'|done].
Qed.

(** idr_pre_get fills the list, or reports that there is no memory. *)
Lemma pre_get_ok s F : represents s F → ∃ r s', idr_pre_get alloc s = Some (r, s') ∧ represents s' F ∧ (r = 1 ∧ 12 ≤ id_free_cnt s' ∨ r = 0 ∧ id_free_cnt s' < 12).
Proof using Halloc.
  intros (sh & fl & Hrep & HF & Hc). rw /idr_pre_get. match goal with |- context [loop ?f ?b ?x] => destruct (loop_index (λ μ s', ∃ fl', idr_rep s' sh fl' ∧ μ = Z.to_nat (12 - id_free_cnt s'))
    (λ '(r, s'), represents s' F ∧ (r = 1 ∧ 12 ≤ id_free_cnt s' ∨ r = 0 ∧ id_free_cnt s' < 12)) b f x (Z.to_nat (12 - id_free_cnt s))) as ([r s'] & E & H) end.
  - intros μ s' (fl' & Hrep' & ->). pose proof (sp_count _ _ _ _ (rep_spare _ _ _ Hrep')) as Ec. change IDR_FREE_MAX with 12. destruct (Z.ltb_spec (id_free_cnt s') 12) as [Hlt|Hge].
    + destruct (Z.eqb_spec (alloc (store s')) 0) as [E0|Hne]; [right; eexists; split; [done|]; split; [by eapply rep_represents|by right]|left].
      destruct (add_free s' sh fl' Hrep' Hne) as (s'' & -> & Hrep''). cbn [mbind option_bind]. eexists _, _. split; [done|]. split; [by exists (alloc (store s') :: fl')|]. rewrite -> (sp_count _ _ _ _ (rep_spare _ _ _ Hrep'')). cbn [length]. lia.
    + right. eexists. split; [done|]. split; [by eapply rep_represents|by left].
  - by exists fl.
  - change IDR_FREE_MAX with 12. lia.
  - exists r, s'. done.
Qed.
End pre_get.

Lemma idr_destroy_ok s F : represents s F → ∃ s', idr_destroy s = Some s' ∧ represents s' F ∧ id_free_cnt s' = 0.
Proof.
  intros (sh & fl & Hrep & HF & Hc). rw /idr_destroy. match goal with |- context [loop ?f ?b ?x] => destruct (loop_index (λ μ s', ∃ fl', idr_rep s' sh fl' ∧ μ = length fl') (λ s', represents s' F ∧ id_free_cnt s' = 0) b f x (length fl)) as (s' & E & H) end.
  - intros μ s' (fl' & Hrep' & ->). pose proof (sp_count _ _ _ _ (rep_spare _ _ _ Hrep')) as Ec. destruct (Z.eqb_spec (id_free_cnt s') 0) as [E0|Hne]; [right; eexists; split; [done|]; split; [by eapply rep_represents|done]|left].
    destruct fl' as [|a fl']; [done|]. destruct (drop_free s' sh a fl' Hrep') as (s'' & (p & s1 & -> & ->) & Hrep''). cbn [mbind option_bind]. eexists _, (length fl'). split; [done|]. split; [by exists fl'|cbn; lia].
  - by exists fl.
  - lia.
  - exists s'. done.
Qed.

(** ** Replacement *)

Lemma replace_walk_ok s sh n l id fuel : linked sh n → holds (store s) sh → 0 ≤ l < n → (Z.to_nat l < fuel)%nat →
  ∃ p, replace_walk fuel (l * IDR_BITS) id (sh_addr sh l (idx l id)) s = Some p ∧ (p = 0 ∧ sh_ids sh !! id = None ∨ p = sh_addr sh 0 (idx 0 id) ∧ p ≠ 0).
Proof.
  intros Hk Hh. revert l. induction fuel as [|fuel IH]; intros l Hl Hf; [lia|]. cbn [replace_walk]. destruct (Z.eqb_spec (sh_addr sh l (idx l id)) 0) as [E|Ha].
  { rewrite -> andb_false_r. eexists. split; [done|]. left. split; [done|]. by apply (absent_none sh n Hk l). }
  rewrite -> andb_true_r. destruct (Z.ltb_spec 0 (l * IDR_BITS)) as [Hpos|Hz].
  2:{ assert (l = 0) as -> by (rw /IDR_BITS in Hz; lia). eexists. split; [done|]. by right. }
  assert (0 < l) as Hl0 by (rw /IDR_BITS in Hpos; lia). replace (Z.land (Z.shiftr id (l * IDR_BITS)) IDR_MASK) with (digit l id) by (rw /digit; by rewrite -> (Z.mul_comm l)). rewrite -> (slot_digit s sh l id Hh ltac:(lia) Ha), cell_addr by lia. cbn [mbind option_bind].
  replace (l * IDR_BITS - IDR_BITS) with ((l - 1) * IDR_BITS) by lia. apply IH; lia.
Qed.

(** idr_replace on every branch. *)
Lemma idr_replace_ok s F ptr id : represents s F → 0 ≤ id < 2 ^ 31 →
  ∃ r s', idr_replace s ptr id = Some (r, s') ∧
    match F !! id with Some old => r = old ∧ represents s' (<[id := ptr]> F) | None => r = (if 64 ^ layers s <=? id then - EINVAL else if layers s =? 0 then - EINVAL else - ENOENT) ∧ s' = s end.
Proof.
  intros (sh & fl & Hrep & HF & Hc) Hid. rewrite <- HF. rw /idr_replace. destruct (top_cases s sh fl Hrep) as [(Hl0 & Ht0 & Hnone)|(Hn & Ht & Ht0)].
  { rewrite -> Ht0, Hnone, Hl0. cbn [Z.eqb]. do 2 eexists. split; [done|]. split; [|done]. by destruct (_ <=? _). }
  pose proof Hrep as [[Hk Hm Hct] Hh _ Hsp]. set (n := layers s) in *. rewrite -> (proj2 (Z.eqb_neq (top s) 0)) by done. assert (sh_addr sh (n - 1) 0 ≠ 0) as Ha by (by rewrite <- Ht). destruct (Hh (n - 1) 0 Ha) as (ly & E & Hnode). rewrite <- Ht in E. rw /at_layer. rewrite -> E. cbn [mbind option_bind].
  rewrite -> (is_layer _ _ _ _ Hnode). replace (n - 1 + 1) with n by lia. rewrite -> shift_levels, mask_id by (done || lia). destruct (Z.leb_spec (64 ^ n) id) as [Hge|Hlt].
  { do 2 eexists. split; [done|]. destruct (sh_ids sh !! id) eqn:Ei; [|done]. exfalso. pose proof (id_range sh n Hk id ltac:(by rewrite -> Ei)). lia. }
  assert (top s = sh_addr sh (n - 1) (idx (n - 1) id)) as -> by (by rewrite -> idx_top by lia). replace (n * IDR_BITS - IDR_BITS) with ((n - 1) * IDR_BITS) by lia.
  destruct (replace_walk_ok s sh n (n - 1) id (Z.to_nat MAX_LEVEL + 1) Hk Hh ltac:(lia)) as (p & -> & Hcase). { change (Z.to_nat MAX_LEVEL) with 6%nat. lia. } cbn [mbind option_bind]. rewrite -> (proj2 (Z.eqb_neq n 0)) by lia.
  destruct Hcase as [(-> & Hnone)|(-> & Hp0)]; [cbn [Z.eqb mbind option_bind negb]; rewrite -> Hnone; by do 2 eexists|]. rewrite -> (proj2 (Z.eqb_neq _ 0)) by done. destruct (Hh 0 (idx 0 id) Hp0) as (ly0 & E0 & Hnode0). rewrite -> E0. cbn [mbind option_bind]. rewrite -> digit_0.
  pose proof (digit_range 0 id ltac:(lia)) as Hd. pose proof (digit_idx 0 id ltac:(lia)) as Hdi. change (0 - 1) with (-1) in Hdi. rewrite -> idx_id in Hdi. assert (Z.testbit (bitmap ly0) (digit 0 id) = bool_decide (is_Some (sh_ids sh !! id))) as ->.
  { rewrite -> (is_bits _ _ _ _ Hnode0), Hdi by done. apply eq_true_iff_eq. rewrite -> (Hm (-1) id), bool_decide_eq_true by lia. split; [intros Hf; apply Hf, idx_id|]. intros Hin x Hx. rewrite -> idx_id in Hx. by rewrite -> Hx. }
  destruct (sh_ids sh !! id) as [old|] eqn:Eid; [rewrite -> bool_decide_eq_true_2 by done|rewrite -> bool_decide_eq_false_2 by (intros [? ?]; done); by do 2 eexists]. cbn [negb]. pose proof (slot_cell s sh 0 (idx 0 id) (digit 0 id) Hh Hp0 Hd) as Es. rewrite -> Hdi in Es. rw /cell in Es. cbn in Es. rewrite -> Eid in Es.
  rewrite -> Es. cbn [mbind option_bind default]. destruct (upd_id s sh n Hk Hh (idx 0 id) (digit 0 id) ptr (<[id := ptr]> (sh_ids sh)) Hp0 Hd) as (s' & -> & Hh' & Hst). { by rewrite -> Hdi, lookup_insert_eq. } { intros j Hj. rewrite -> Hdi in Hj. by rewrite -> lookup_insert_ne. }
  cbn [mbind option_bind]. do 2 eexists. split; [done|]. split; [done|]. destruct (stored_rest _ _ _ Hst) as (H1 & H2 & H3).
  assert (∀ x, is_Some (<[id := ptr]> (sh_ids sh) !! x) ↔ is_Some (sh_ids sh !! x)) as Hdom. { intros x. destruct (decide (x = id)) as [->|Hne]; [rewrite -> lookup_insert_eq, Eid; done|by rewrite -> lookup_insert_ne]. }
  apply (rep_represents _ (set_ids sh (<[id := ptr]> (sh_ids sh))) fl); [|done]. split; [rewrite -> H2|done|by rewrite -> H1, H2; apply Hrep|by apply (spare_node s s' sh _ [] fl 0 (idx 0 id))]. fold n. split.
  - destruct Hk as [K1 K2 K3 K4 K5 K6]. split; try done. intros x Hx. by apply K6, Hdom.
  - intros l j Hl. rewrite -> (Hm l j Hl). cbn. split; intros Hf x Hx; by apply Hdom, Hf.
  - intros l k Hlk. change (sh_count (set_ids sh (<[id:=ptr]> (sh_ids sh)))) with (sh_count sh). rewrite -> (Hct l k Hlk). apply uses_ext. intros i Hi. rw /used. destruct (l - 1 =? -1); [|done]. cbn [sh_ids set_ids]. apply bool_decide_ext. by rewrite -> Hdom.
Qed.

(** ** The states that callers reach *)

(** [reach s F]: a caller that keeps to the rules brings the handle to [s]; [F] are the ids that it was given and did not give back. *)
Section reach.
Context (alloc : gmap Z idr_layer → Z).

Inductive reach : idr → gmap Z Z → Prop :=
  | reach_init : reach idr_init ∅
  | reach_pre_get s F r s' : reach s F → idr_pre_get alloc s = Some (r, s') → reach s' F
  | reach_new s F ptr start id0 r id s' : reach s F → 0 ≤ start → (∃ f, start ≤ f < 2 ^ 30 ∧ F !! f = None) → idr_get_new_above s ptr start id0 = Some (r, id, s') → reach s' (if r =? 0 then <[id := ptr]> F else F)
  | reach_remove s F id w s' : reach s F → is_Some (F !! id) → idr_remove s id = Some (w, s') → reach s' (delete id F)
  | reach_replace s F ptr id r s' : reach s F → 0 ≤ id < 2 ^ 31 → idr_replace s ptr id = Some (r, s') → reach s' (alter (λ _, ptr) id F)
  | reach_destroy s F s' : reach s F → idr_destroy s = Some s' → reach s' F
  | reach_remove_all s F below s' : reach s F → idr_remove_all s below = Some s' → reach s' ∅.

Context (Halloc : ∀ h, alloc h ≠ 0 → h !! alloc h = None).

(** What idr_get_new_above may answer. *)
Definition new_outcome (F : gmap Z Z) (ptr start id0 cnt r id : Z) (F' : gmap Z Z) : Prop :=
  (r = 0 ∧ start ≤ id < 2 ^ 30 ∧ F !! id = None ∧ (∀ x, start ≤ x < id → is_Some (F !! x)) ∧ F' = <[id := ptr]> F) ∨ (r = - EAGAIN ∧ id = id0 ∧ cnt < 8 ∧ F' = F).

Lemma get_new_ok s F ptr start id0 : represents s F → 0 ≤ start → (∃ f, start ≤ f < 2 ^ 30 ∧ F !! f = None) →
  ∃ r id s' F', idr_get_new_above s ptr start id0 = Some (r, id, s') ∧ represents s' F' ∧ new_outcome F ptr start id0 (id_free_cnt s) r id F'.
Proof using.
  clear. intros (sh & fl & Hrep & HF & Hc) Hst Hex. rewrite <- HF in *. rw /idr_get_new_above. destruct (new_above_ok s sh fl ptr start Hrep Hst Hex) as (rv & s' & sh' & fl' & -> & Hrep' & Hout). cbn [mbind option_bind].
  destruct Hout as [(-> & Hids & Hlen)|(Hv & Hfree & Hlow & Hids)].
  - cbn [Z.ltb Z.compare]. do 4 eexists. split; [done|]. split; [by eapply rep_represents|]. right. split; [done|]. split; [done|]. split; [lia|done].
  - rewrite -> (proj2 (Z.ltb_ge rv 0)) by lia. do 4 eexists. split; [done|]. split; [by eapply rep_represents|]. left. done.
Qed.

Lemma idr_take_out_ok s F id : represents s F → is_Some (F !! id) → ∃ s', idr_remove s id = Some (false, s') ∧ represents s' (delete id F) ∧ id_free_cnt s' < 12.
Proof using.
  clear. intros (sh & fl & Hrep & HF & Hc) Hin. rewrite <- HF in *. destruct (idr_remove_ok s sh fl id Hrep (id_range sh _ (so_linked _ _ (rep_shape _ _ _ Hrep)) id Hin)) as (s' & sh' & fl' & E & Hrep' & Hids & Hlen). exists s'. rewrite -> bool_decide_eq_false_2 in E by (intros Hn; rewrite -> Hn in Hin; by destruct Hin).
  split; [done|]. split; [by eapply rep_represents|]. rewrite -> (sp_count _ _ _ _ (rep_spare _ _ _ Hrep')). lia.
Qed.

Lemma idr_lookup_ok s F id : represents s F → 0 ≤ id < 2 ^ 31 → idr_find s id = Some (default 0 (F !! id)).
Proof using. clear. intros (sh & fl & Hrep & HF & _) Hid. rewrite <- HF. by apply (idr_find_ok s sh fl). Qed.

Lemma reach_represents s F : reach s F → represents s F.
Proof using Halloc.
  induction 1 as [|s F r s' _ IH E|s F ptr start id0 r id s' _ IH Hst Hex E|s F id w s' _ IH Hin E|s F ptr id r s' _ IH Hid E|s F s' _ IH E|s F below s' _ IH E].
  - apply init_represents.
  - destruct (pre_get_ok alloc Halloc s F IH) as (r1 & s1 & E1 & H1 & _). congruence.
  - destruct (get_new_ok s F ptr start id0 IH Hst Hex) as (r1 & id1 & s1 & F1 & E1 & H1 & Hout). rewrite -> E1 in E. injection E as -> -> ->. destruct Hout as [(-> & _ & _ & _ & ->)|(-> & _ & _ & ->)]; done.
  - destruct (idr_take_out_ok s F id IH Hin) as (s1 & E1 & H1 & _). congruence.
  - destruct (idr_replace_ok s F ptr id IH Hid) as (r1 & s1 & E1 & H1). rewrite -> E1 in E. injection E as -> ->. destruct (F !! id) eqn:Ei; destruct H1 as [_ H1].
    + assert (alter (λ _, ptr) id F = <[id := ptr]> F) as ->; [|done]. apply map_eq. intros x. destruct (decide (x = id)) as [->|Hne]; [by rewrite -> lookup_alter_eq, lookup_insert_eq, Ei|by rewrite -> lookup_alter_ne, lookup_insert_ne].
    + rewrite -> H1. assert (alter (λ _, ptr) id F = F) as ->; [|done]. apply map_eq. intros x. destruct (decide (x = id)) as [->|Hne]; [by rewrite -> lookup_alter_eq, Ei|by rewrite -> lookup_alter_ne].
  - destruct (idr_destroy_ok s F IH) as (s1 & E1 & H1 & _). congruence.
  - destruct IH as (sh & fl & Hrep & _). destruct (remove_all_ok s sh fl below Hrep) as (s1 & E1 & H1). rewrite -> E1 in E. injection E as ->. by apply (rep_represents s' bare fl).
Qed.

(** ** The guarantees *)

(** C19: provided that some id from the given one on and below 2^30 is free, idr_get_new_above hands out the lowest such id and stores the pointer under it, in every state that callers reach and whatever
    layers the search has to make; under this condition the only error is -EAGAIN, when fewer than 8 layers were preallocated, and then the map is unchanged; after idr_pre_get returned 1 the allocation
    succeeds.  (For a full idr the code answers -ENOSPC, and ids from 2^30 on are not handled right, see [idr_high_id]; neither is part of this theorem.) *)
Theorem idr_alloc_lowest s F ptr start id0 : reach s F → 0 ≤ start → (∃ f, start ≤ f < 2 ^ 30 ∧ F !! f = None) →
  (∃ r id s' F', idr_get_new_above s ptr start id0 = Some (r, id, s') ∧ reach s' F' ∧ new_outcome F ptr start id0 (id_free_cnt s) r id F' ∧ ∀ x, 0 ≤ x < 2 ^ 31 → idr_find s' x = Some (default 0 (F' !! x))) ∧
  (∀ s', idr_pre_get alloc s = Some (1, s') → ∃ id s'', idr_get_new_above s' ptr start id0 = Some (0, id, s'')).
Proof using Halloc.
  intros Hr Hst Hex. pose proof (reach_represents s F Hr) as Hrep. split.
  - destruct (get_new_ok s F ptr start id0 Hrep Hst Hex) as (r & id & s' & F' & E & Hrep' & Hout). exists r, id, s', F'. split; [done|]. split; [|split; [done|by intros x Hx; apply idr_lookup_ok]].
    pose proof (reach_new s F ptr start id0 r id s' Hr Hst Hex E) as Hr'. by destruct Hout as [(-> & _ & _ & _ & ->)|(-> & _ & _ & ->)].
  - intros s' E. destruct (pre_get_ok alloc Halloc s F Hrep) as (r & s1 & E1 & H1 & Hout). rewrite -> E1 in E. injection E as -> ->. destruct Hout as [(_ & Hc)|(Hc & _)]; [|done].
    destruct (get_new_ok s' F ptr start id0 H1 Hst Hex) as (r & id & s'' & F' & E & _ & Hout). destruct Hout as [(-> & _)|(_ & _ & Hc' & _)]; [by exists id, s''|lia].
Qed.

(** C20: an idr is a finite map: in every state that callers reach all functions return; idr_find looks the id up, idr_remove takes exactly the given id out (and trims the list of layers), idr_replace changes exactly one
    pointer and returns the old one or an error, idr_pre_get and idr_destroy change no id; idr_remove_all empties the map
    and gives every layer of the tree to call_rcu just once; no access leaves the layers of the handle. *)
Theorem idr_is_map s F : reach s F →
  (∀ id, 0 ≤ id < 2 ^ 31 → idr_find s id = Some (default 0 (F !! id))) ∧
  (∀ id, is_Some (F !! id) → ∃ s', idr_remove s id = Some (false, s') ∧ reach s' (delete id F) ∧ id_free_cnt s' < IDR_FREE_MAX) ∧
  (∀ ptr id, 0 ≤ id < 2 ^ 31 → ∃ r s', idr_replace s ptr id = Some (r, s') ∧ reach s' (alter (λ _, ptr) id F) ∧ match F !! id with Some old => r = old | None => (r = - EINVAL ∨ r = - ENOENT) ∧ s' = s end) ∧
  (∃ r s', idr_pre_get alloc s = Some (r, s') ∧ reach s' F ∧ (r = 1 ∧ IDR_FREE_MAX ≤ id_free_cnt s' ∨ r = 0 ∧ id_free_cnt s' < IDR_FREE_MAX)) ∧
  (∃ s', idr_destroy s = Some s' ∧ reach s' F ∧ id_free_cnt s' = 0) ∧
  (∀ below, ∃ s', idr_remove_all s below = Some s' ∧ reach s' ∅ ∧ top s' = 0 ∧ NoDup (rcu s') ∧ ∀ a, is_Some (store s' !! a) → a ∈ rcu s' ∨ ∃ fl, chain (store s') (id_free s') fl ∧ a ∈ fl).
Proof using Halloc.
  intros Hr. pose proof (reach_represents s F Hr) as Hrep. split; [by intros id Hid; apply idr_lookup_ok|]. split; [|split; [|split; [|split]]].
  - intros id Hin. destruct (idr_take_out_ok s F id Hrep Hin) as (s' & E & _ & Hc). exists s'. split; [done|]. split; [by eapply reach_remove|done].
  - intros ptr id Hid. destruct (idr_replace_ok s F ptr id Hrep Hid) as (r & s' & E & H). exists r, s'. split; [done|]. split; [by eapply reach_replace|]. destruct (F !! id); destruct H as [-> H]; [done|]. split; [|done]. destruct (_ <=? _); [by left|]. destruct (_ =? _); [by left|by right].
  - destruct (pre_get_ok alloc Halloc s F Hrep) as (r & s' & E & _ & Hc). exists r, s'. split; [done|]. split; [by eapply reach_pre_get|done].
  - destruct (idr_destroy_ok s F Hrep) as (s' & E & _ & Hc). exists s'. split; [done|]. split; [by eapply reach_destroy|done].
  - intros below. destruct Hrep as (sh & fl & Hrep & _ & _). destruct (remove_all_ok s sh fl below Hrep) as (s' & E & Hrep'). exists s'. split; [done|]. split; [by eapply reach_remove_all|]. destruct (top_cases s' bare fl Hrep') as [(_ & Ht & _)|(_ & Ht & Hc)]; [|by exfalso; apply Hc; rewrite -> Ht].
    destruct (rep_spare _ _ _ Hrep') as [Hc _ [Hn _ _ Hown]]. cbn [app] in Hn, Hown. split; [done|]. split; [by apply NoDup_app in Hn as (_ & _ & Hn)|]. intros a Ha. destruct (Hown a Ha) as [[Hin|Hin]%elem_of_app|(l & k & El & Hne)]; [right; by exists fl|by left|by exfalso; apply Hne; rewrite <- El].
Qed.

(** C21: idr_for_each calls the function for exactly the ids with a pointer, in ascending order, until it returns an error, which is the result; idr_get_next, from 0 or from the successor of an id in use, finds the
    lowest id with a pointer and leaves the id alone when there is none; in every state that callers reach both return, and the word below the array that the last step reads changes nothing. *)
Theorem idr_walks_in_order s F {D} (fn : Z → Z → D → Z * D) (data : D) l : reach s F → live_from F 0 l →
  (∀ below, idr_for_each fn s below data = Some (visit fn F l data)) ∧
  (∀ nextid, nextid = 0 ∨ is_Some (F !! (nextid - 1)) → ∃ r, next_live F nextid r ∧ ∀ below, idr_get_next s below nextid = Some r).
Proof using Halloc.
  intros Hr Hl. destruct (reach_represents s F Hr) as (sh & fl & Hrep & HF & _). rewrite <- HF in *. split; [intros below; by apply (for_each_ok fn s sh fl)|]. intros nextid Hn. destruct (get_next_ok s sh fl 0 nextid Hrep Hn) as (r & E & Hnext). exists r. split; [done|]. intros below.
  destruct (get_next_ok s sh fl below nextid Hrep Hn) as (r' & E' & Hnext'). rewrite -> E'. f_equal. by apply (next_live_unique (sh_ids sh) nextid).
Qed.
End reach.

(** ** Witnesses *)

Lemma demo_alloc_fresh h : demo_alloc h ≠ 0 → h !! demo_alloc h = None.
Proof.
  intros _. destruct (h !! demo_alloc h) as [ly|] eqn:E; [|done]. exfalso. assert (∀ l : list Z, ∀ k, k ∈ l → k ≤ foldr Z.max 0 l) as Hmax.
  { induction l as [|x l IH]; intros k Hk; [by apply elem_of_nil in Hk|]. cbn. apply elem_of_cons in Hk as [->|Hk]; [lia|]. specialize (IH k Hk). lia. }
  assert (demo_alloc h ∈ (map_to_list h).*1) as Hin. { apply list_elem_of_fmap. exists (demo_alloc h, ly). split; [done|]. by apply elem_of_map_to_list. } specialize (Hmax _ _ Hin). rw /demo_alloc in Hmax. lia.
Qed.

(** A handle with the preallocated layers of one call. *)
Definition demo_filled : idr := match idr_pre_get demo_alloc idr_init with Some (_, s) => s | None => idr_init end.

Lemma demo_filled_reach : reach demo_alloc demo_filled ∅.
Proof. eapply (reach_pre_get _ idr_init ∅ 1); [constructor|]. vm_compute. reflexivity. Qed.

(** The pointer 77 under the lowest id from 100 on. *)
Definition demo_one : idr := match idr_get_new_above demo_filled 77 100 (-1) with Some (_, _, s) => s | None => idr_init end.

Lemma demo_one_reach : reach demo_alloc demo_one {[100 := 77]}.
Proof. eapply (reach_new _ demo_filled ∅ 77 100 (-1) 0 100 demo_one demo_filled_reach); [lia|exists 100; split; [lia|reflexivity]|]. vm_compute. reflexivity. Qed.

Lemma idr_alloc_lowest_witness :
  ∃ r id s' F', idr_get_new_above demo_one 78 100 (-1) = Some (r, id, s') ∧ reach demo_alloc s' F' ∧ new_outcome {[100 := 77]} 78 100 (-1) (id_free_cnt demo_one) r id F' ∧ ∀ x, 0 ≤ x < 2 ^ 31 → idr_find s' x = Some (default 0 (F' !! x)).
Proof. apply (idr_alloc_lowest demo_alloc demo_alloc_fresh demo_one {[100 := 77]} 78 100 (-1)); [apply demo_one_reach|lia|exists 101; split; [lia|reflexivity]]. Defined.

Lemma idr_is_map_witness : idr_find demo_one 100 = Some 77.
Proof. apply (idr_is_map demo_alloc demo_alloc_fresh demo_one {[100 := 77]} demo_one_reach). lia. Defined.

Lemma demo_live : live_from {[100 := 77]} 0 [100].
Proof.
  split; [repeat constructor|]. intros x. rewrite -> list_elem_of_singleton. split; [intros ->; split; [lia|exists 77; split; [reflexivity|lia]]|]. intros [_ (p & Hp & _)]. by apply lookup_singleton_Some in Hp as [<- _].
Qed.

Lemma idr_walks_in_order_witness : idr_for_each (λ id p l, (0, l ++ [(id, p)])) demo_one 12345 [] = Some (0, [(100, 77)]).
Proof. apply (idr_walks_in_order demo_alloc demo_alloc_fresh demo_one {[100 := 77]} (λ id p l, (0, l ++ [(id, p)])) [] [100] demo_one_reach demo_live). Defined.
